(* ===== verification/_CoqProject ===== *)
-Q . S2P
Prelude.v
Loops.v
XReal.v
FOps.v
FOpsReal.v
Lifetime.v
Allocator.v
InPlace.v
Reorder.v
Planner.v
Dtype.v
Float.v
Shape.v
Layout.v
Storage.v
Tensor.v
View.v
Mutate.v
Iterator.v
Conv.v
Pool.v
ShapeOps.v
Reduce.v
ReduceReal.v
IndexOps.v
Fresh.v
CpuOps.v
MatMul.v
Sampler.v
DataLoader.v
LinAlg.v
LinAlgReal.v
Fusion.v
FusedKernels.v
TensorView.v
CTC.v
Softmax.v
Loss.v
Norm.v
Optim.v
OptimReal.v
Schedule.v
GradScaler.v
Quant.v
QuantLayers.v
QuantReal.v
Gguf.v
Dequant.v
Autograd.v
AutogradOps.v
AutogradReal.v
Safetensors.v
Checkpoint.v
Attention.v
AttentionReal.v
KVCache.v
Serve.v
