(* ===== verification/Prelude.v ===== *)
(** * rustorch: a verification library

    rustorch is a deep-learning framework in Rust.  This development models its
    core at the level of the source and proves what each part promises.

    ** The parts, and the files that model them

    - The memory planner (crates/rustorch-planner) turns a graph of operations
      into an execution order and an assignment of tensors to physical slots:
      [Lifetime] (lifetime.rs), [Allocator] (allocator.rs), [InPlace]
      (inplace.rs), [Reorder] (reorder.rs), [Planner] (planner.rs).
    - The tensor core (crates/rustorch-core/src/tensor): [Dtype] (dtype.rs),
      [Shape] (shape.rs), [Layout] (layout.rs), [Storage] (storage.rs,
      version.rs), [Tensor] (tensor_impl.rs, convert.rs, device.rs), [View]
      (view.rs), [Mutate] (the in-place methods of tensor_impl.rs).
    - The CPU backend (crates/rustorch-cpu): [Iterator] (iterator.rs, and the
      conversions of convert.rs), [CpuOps] (the element-wise operations of
      cpu_backend.rs), [MatMul] (its matrix products, and those that backend.rs
      composes), [Conv] and [Pool] (kernels/conv.rs, pool.rs),
      [ShapeOps] (kernels/shape_ops.rs), [Reduce] (kernels/reduction.rs),
      [IndexOps] (the indexing kernels of cpu_backend.rs), [LinAlg]
      (kernels/linalg.rs).  They run on the tensors of the core.  [Softmax],
      [Loss], [CTC] and [Norm] (the kernels of those names) read their arguments
      through [TensorView], the dtype, shape and elements of a tensor.
    - Fusion (crates/rustorch-fusion): [Fusion] (pattern.rs, matcher.rs,
      dispatcher.rs), [FusedKernels] (patterns/).
    - Training (crates/rustorch-optim, crates/rustorch-amp): [Optim] (the ten
      optimizers, clip.rs, state_dict.rs), [Schedule] (scheduler.rs),
      [GradScaler] (grad_scaler.rs).
    - Quantization (crates/rustorch-quant): [Quant] (dtype.rs, qops.rs,
      observer.rs, gemm_int8.rs), [QuantLayers] (qmodules.rs, workflow.rs).
    - Automatic differentiation (crates/rustorch-autograd): [Autograd] (the tape,
      variables, backward traversal), [AutogradOps] (the operations with their
      backward nodes, over the interface of a backend).
    - Attention (crates/rustorch-attention): [Attention] (masks, online softmax,
      the tiled forward pass); [KVCache] (kv_cache.rs of crates/rustorch-nn).
    - Data loading (crates/rustorch-data): [Sampler], [DataLoader], which reads
      its batches with [ShapeOps]' [index_select] and [cat].
    - Files: [Gguf] and [Dequant] (crates/rustorch-gguf), [Safetensors] and
      [Checkpoint] (crates/rustorch-serde), which writes what [Safetensors]'
      interface emits.
    - Serving (crates/rustorch-serve): [Serve] (batcher.rs, autoscale.rs).

    [AutogradReal], [AttentionReal], [ReduceReal], [LinAlgReal], [QuantReal] and
    [OptimReal] instantiate the corresponding models with real numbers; [XReal]
    holds the reals extended by infinities and NaN, [FOps] the interface of a
    type of floats with its instance on bits, [FOpsReal] the one on [XReal].  [Prelude] (this file) holds what all
    share: results, machine integers, sorting, little-endian bytes; [Loops] the
    counted loops over buffers with their invariant rules and finite sums;
    [Float] IEEE arithmetic on bit patterns; [Fresh] the postcondition of a
    function that allocates several tensors, and that of one whose results may
    share storages with its arguments.

    ** How the code is represented

    A function that can fail returns [res E A]: [Ok], [Err] with the source's
    error value, or [Panic] (an [expect], an index out of range, a slice out of
    bounds, a division by zero).  Error texts and the name of the failing
    operation are left out.  Integers are in [Z] (or [nat] where only indices and
    lengths occur) and wrapped, saturated or checked at their width where the
    code does so; arithmetic is that of a release build, where plain [+] and [*]
    wrap.  Floats are their bits.  A [HashMap] is a [gmap]; where the code
    iterates over one, [map_to_list] stands for its order, and
    [Allocator.plan_order_independent] shows that the plan does not depend on it.

    Storages live in a [World] (Storage.v): the bytes behind every allocated
    pointer, the reference-counted cells, the thread-local buffer pool and the
    version counters.  A [Tensor] holds a handle into it, so aliasing between
    views, clones and in-place writes is explicit: every operation takes a
    world and returns the next.  A kernel checks its arguments on tensors and
    then runs loops on buffers; the loops are written once, over any element
    type with the operations they need, run on bit patterns by the tensor
    function and on real numbers or a semiring by the theorems.

    Backward nodes, gradient slots and variables live in a [Tape] (Autograd.v),
    where a shared cell is an index.  The batcher is a step relation over its
    queue, the callers, the worker and time; the checkpoint writer a function
    on a file system.

    ** Interfaces and parameters

    Out-of-memory and the contents of uninitialised memory are parameters
    ([oom], [junk]); so is the number of rayon threads ([threads]), of which
    every result is shown independent (a parallel loop over disjoint chunks is
    the list of its chunks).  Third-party crates are parameters with named
    hypotheses: [half] ([half_ok], [half_wide], [half_f32_ok]), [gemm] ([gemm_ok]:
    every entry is the sum of its products in some order of rounding), serde_json
    ([json_ok]), [rand] ([RngOps], [RngLaws]); the model that a server runs, the
    clock and the file system are parameters too.  Every hypothesis is
    instantiated in a witness.  Between components the interfaces are classes:
    [NodeOps] and [GradTensor] (what a traversal needs of nodes and tensors, with
    [GradLaws]), [TensorOps] and [BackendOps] (what the operations need of a
    backend), [Dataset] and [Sampler] with their laws (what the loader needs),
    [SemiRing], [VarOps], [F32], [Scalar], [QFloat] and [FOps] (what the numeric
    loops need: on bits their functions are IEEE arithmetic, with the libm
    functions as arguments), [Optimizer] (what a scheduler needs: a rate to read
    and set).  The order in which rayon adds partial sums is a parameter
    ([par_sum_ok]).

    ** What is shown

    - Planner: intervals are the envelopes of the recorded events; slots never
      hold two tensors alive together, are large enough, and their total bounds
      the live bytes; in-place aliasing keeps this for ordered hints; the
      reordering terminates, is topological, complete and greedy.  The headline,
      [Planner.planner_execution], is a refinement: running the schedule with
      tensors kept in their slots computes the same values as running it with
      every tensor in a variable of its own.
    - Tensors: promotion and broadcasting are least upper bounds; the contiguity
      flag is exact; no reachable world has a buffer with two owners, and mutable
      access is exclusive; construction round-trips; views read the elements
      they should or fail with the right error, in any chain; [contiguous], the
      in-place methods, the element-wise drivers and the conversions compute the
      mathematical function of the multi-index on every path.
    - Matrix products: every entry is the sum of the products of a row and a
      column, for every layout and float dtype, on the naive and the gemm path
      ([MatMul.matmul_correct]); so are the entries of the transposed, batched and
      biased products built from it.
    - Kernels: which element every element of a result is (cat, split, stack,
      flip, roll, gather, scatter, masks); which fold, in which order, a
      reduction or a scan computes, and that the dense shortcut gives the same
      bits; convolution and pooling gradients are adjoints of the forward pass,
      unbroadcasting is the adjoint of broadcasting; Welford's recurrence is the
      sum of squared deviations; over the reals QR, Cholesky, LU and the inverse
      are the factorizations, and Cholesky decides positive definiteness.
    - Differentiation: the traversal visits every reachable node once, after the
      nodes that use it, and accumulates the sum over all paths
      ([Autograd.backward_chain_rule]); for programs of the operations on reals,
      [backward] computes derivatives ([AutogradReal.backward_derivative]).
    - Attention: the tiled kernels compute the softmax-weighted sum, except on
      rows whose first key tile is masked ([AttentionReal.flash_attention]); the
      cache holds the history of the appended rows.
    - Data: samplers cover the data set, draws have positive weight, an epoch of
      the loader is the rows of the data set in sampler order, cut into batches.
    - Softmax and losses: the one-pass and the strided kernel are exp x / Σ exp;
      the losses are their formulas, with every refusal; the recursion of
      connectionist temporal classification sums over all label sequences that
      collapse to the target ([CTC.ctc_loss_correct]); the backward pass of
      batch normalisation is the derivative of the forward pass.
    - Fusion: matches are chains of their patterns, do not overlap and leave no
      longer chain out; the fused kernels compute what the passes they replace
      compute.
    - Training: what a step of each optimizer changes and to what; Adam is the
      published algorithm after any number of steps ([OptimReal.adam_closed_form]);
      clipping scales the joint norm to the bound; state dictionaries restore the
      optimizer; the schedules have their closed forms; the gradient scaler
      follows its powers of two without rounding.
    - Quantization: the integer layers compute the product or convolution of the
      dequantized operands, within a bound given by the scales; calibration
      covers what was observed.
    - Files: the GGUF parser inverts the format and dequantization decodes every
      block of the formats announced as supported; safetensors round-trips; rotation keeps the newest files.
    - Serving: queues and batches respect their bounds, a caller gets the element
      of the model's output for its own input, and every waiting caller is
      answered after boundedly many scheduling rounds; the controller stays
      within its limits.

    Divergences between the code and its documentation are theorems too, under
    a heading "Divergences" at the end of their file or next to the theorem they
    qualify.

    ** Idealisations

    [AutogradReal], [ReduceReal] and [LinAlgReal] compute with exact reals;
    [AttentionReal], [QuantReal], [OptimReal] and the theorems of [Softmax],
    [Loss], [CTC], [Norm], [Schedule] and [FusedKernels] with the reals extended
    by infinities and NaN, where the conversions between f32 and f64 are the
    identity.  No theorem bounds a rounding error of floating point; the bound of
    [QuantReal.quant_linear_error] is that of the 8-bit rounding.

    ** Fuel and bounds

    [reorder_loop] has as fuel the number of operations; one operation is
    scheduled per round, and [Reorder.reorder_total] shows that the fuel never
    runs out ([Panic] would be returned).  [visit] has the index of the root
    plus one: edges point at earlier nodes, and [Autograd.visit_fuel] shows that
    more changes nothing.  The tile loops of [Attention] have the sequence
    length; each round advances by a tile, and running out ([Panic]) stands for
    the loop that never ends when a tile size is 0.  [split_loop] has the size
    of the axis, [bisect] the length of the list; [chunks] and [utf8_valid_from]
    the length of their list, which each step shortens, and so have [par_chunks]
    and [adam_chunks]; [choose_radius] tries bins / 2 + 1 radii, the last of which
    holds all bins.  Theorems on sizes
    assume that element counts fit an [isize] ([shape_fits], [fits_alloc]),
    which an allocation requires, and that a planner's sizes sum below 2^63.

    ** What is not modelled

    The macOS vDSP branch and the SIMD kernels (foreign code and performance
    variants), the GPU backends and storages, cross-thread reference counting,
    the pool's destructor, file opening, HTTP servers, the command line and the
    console (I/O), procedural macros, language-model graphs and the tokenizer
    (compositions of kernels and a third-party library), modules of
    crates/rustorch-nn other than the cache (they hold parameters and call the
    operations of [AutogradOps]; initialisation and token sampling draw from a
    third-party generator), einsum (a parser over products modelled elsewhere),
    autograd checkpointing (it runs an arbitrary closure of the caller), sweeps
    and registries (configuration and tables), augmentation, text and audio
    (Unicode tables, signal processing, bundled data). *)

From Stdlib Require Import ZArith Lia Bool List.
From stdpp Require Import base list gmap sets sorting strings.

Open Scope Z_scope.

(** ** Results, errors and panics

    A Rust function returns a value, returns an error of its error type, or
    panics.  [res E A] has the three cases; [?] is [rbind] and [unwrap] /
    [expect] turn a failure into [Panic]. *)
Inductive res (E A : Type) : Type :=
  | Ok (a : A)
  | Err (e : E)
  | Panic.
Arguments Ok {E A} a.
Arguments Err {E A} e.
Arguments Panic {E A}.

Definition rbind {E A B : Type} (m : res E A) (k : A → res E B) : res E B :=
  match m with
  | Ok a => k a
  | Err e => Err e
  | Panic => Panic
  end.

Definition rmap {E A B : Type} (f : A → B) (m : res E A) : res E B :=
  match m with
  | Ok a => Ok (f a)
  | Err e => Err e
  | Panic => Panic
  end.

(** [.map_err(f)] *)
Definition map_err {E F A : Type} (f : E → F) (m : res E A) : res F A :=
  match m with
  | Ok a => Ok a
  | Err e => Err (f e)
  | Panic => Panic
  end.

(** [.unwrap()] / [.expect(_)] on a [Result]. *)
Definition unwrap {E F A : Type} (m : res E A) : res F A :=
  match m with
  | Ok a => Ok a
  | Err _ | Panic => Panic
  end.

(** [.unwrap()] / [.expect(_)] on an [Option], and indexing, which panics
    out of range. *)
Definition unwrap_opt {E A : Type} (o : option A) : res E A :=
  match o with Some a => Ok a | None => Panic end.

(** [.ok_or(e)] *)
Definition ok_or {E A : Type} (e : E) (o : option A) : res E A :=
  match o with Some a => Ok a | None => Err e end.

Declare Scope res_scope.
Delimit Scope res_scope with res.
Notation "'let?' x ':=' m 'in' k" := (rbind m (fun x => k))
  (at level 200, x pattern, m at level 100, k at level 200,
   format "'[v' 'let?'  x  ':='  m  'in' '/' k ']'") : res_scope.
Open Scope res_scope.

(** [for x in l { s = f(s, x)?; }] *)
Fixpoint rfold {E S A : Type} (f : S → A → res E S) (s : S) (l : list A) : res E S :=
  match l with
  | [] => Ok s
  | x :: l => let? s' := f s x in rfold f s' l
  end.

(** [l.map(f).collect::<Result<Vec<_>, _>>()] *)
Fixpoint rmapM {E A B : Type} (f : A → res E B) (l : list A) : res E (list B) :=
  match l with
  | [] => Ok []
  | x :: l => let? y := f x in let? ys := rmapM f l in Ok (y :: ys)
  end.

(** [&buf[start..end]], which panics out of range. *)
Definition slice_range {E A} (l : list A) (start end_ : Z) : res E (list A) :=
  if (end_ <? start) || (Z.of_nat (List.length l) <? end_) then Panic
  else Ok (take (Z.to_nat (end_ - start)) (drop (Z.to_nat start) l)).

Definition is_ok {E A : Type} (m : res E A) : bool :=
  match m with Ok _ => true | _ => false end.

(** ** Machine integers

    An integer of width [w] is a [Z]; the release profile of the workspace
    (no [overflow-checks]) wraps, so [+], [-] and [*] are followed by [wrap]
    (unsigned) or [swrap] (two's complement), which are also the [as] casts.
    [usize] and [isize] are 64 bits wide. *)
Definition wrap (w x : Z) : Z := x mod 2 ^ w.
Definition swrap (w x : Z) : Z := (x + 2 ^ (w - 1)) mod 2 ^ w - 2 ^ (w - 1).

Definition uint (w x : Z) : Prop := 0 ≤ x < 2 ^ w.
Definition sint (w x : Z) : Prop := - 2 ^ (w - 1) ≤ x < 2 ^ (w - 1).

#[export] Instance uint_dec w x : Decision (uint w x).
Proof. unfold uint. apply _. Defined.
#[export] Instance sint_dec w x : Decision (sint w x).
Proof. unfold sint. apply _. Defined.

(** [saturating_sub] on an unsigned type. *)
Definition sat_sub (x y : Z) : Z := Z.max 0 (x - y).
(** [saturating_add], [saturating_mul] on [u w]. *)
Definition sat_add (w x y : Z) : Z := Z.min (2 ^ w - 1) (x + y).
Definition sat_mul (w x y : Z) : Z := Z.min (2 ^ w - 1) (x * y).
(** [checked_add] *)
Definition checked_add (w x y : Z) : option Z :=
  if decide (x + y < 2 ^ w) then Some (x + y) else None.
(** [checked_sub] *)
Definition checked_sub (x y : Z) : option Z :=
  if decide (y ≤ x) then Some (x - y) else None.

(** [div_ceil] on an unsigned type. *)
Definition div_ceil (x y : Z) : Z := if x mod y =? 0 then x / y else x / y + 1.

(** [.iter().sum()] and [.iter().product()] on [u w], which wrap at each step. *)
Definition sum_u (w : Z) (l : list Z) : Z := foldl (λ a x, wrap w (a + x)) 0 l.
Definition product_u (w : Z) (l : list Z) : Z := foldl (λ a x, wrap w (a * x)) 1 l.

(** The same with unbounded integers, for specifications. *)
Definition zsum (l : list Z) : Z := foldr Z.add 0 l.
Definition zprod (l : list Z) : Z := foldr Z.mul 1 l.

(** ** Sorting by a comparator ([slice::sort_by], [Ordering::then_with]) *)
Definition then_with (c d : comparison) : comparison :=
  match c with Eq => d | _ => c end.

Definition sort_by {A : Type} (cmp : A → A → comparison) : list A → list A :=
  merge_sort (λ x y, cmp x y ≠ Gt).

(** ** Little-endian bytes

    A byte is a [Z] in [0, 256). *)
Fixpoint le_decode (bs : list Z) : Z :=
  match bs with
  | [] => 0
  | b :: bs => b + 256 * le_decode bs
  end.

Fixpoint le_encode (n : nat) (x : Z) : list Z :=
  match n with
  | O => []
  | S n => x mod 256 :: le_encode n (x / 256)
  end.

Definition is_byte (b : Z) : Prop := uint 8 b.

(** ** Lemmas *)

#[global] Arguments wrap : simpl never.
#[global] Arguments swrap : simpl never.
#[global] Arguments div_ceil : simpl never.
#[global] Arguments zsum : simpl never.
#[global] Arguments zprod : simpl never.
#[global] Arguments sum_u : simpl never.
#[global] Arguments product_u : simpl never.

Create HintDb rt.

Lemma wrap_small w x : uint w x → wrap w x = x.
Proof. unfold uint, wrap. intros. by rewrite Z.mod_small. Qed.

Lemma wrap_uint w x : 0 ≤ w → uint w (wrap w x).
Proof. intros. unfold uint, wrap. apply Z.mod_pos_bound. lia. Qed.

Lemma wrap_add_l w x y : wrap w (wrap w x + y) = wrap w (x + y).
Proof. unfold wrap. by rewrite Zplus_mod_idemp_l. Qed.

Lemma wrap_mul_l w x y : wrap w (wrap w x * y) = wrap w (x * y).
Proof. unfold wrap. by rewrite Zmult_mod_idemp_l. Qed.

Lemma swrap_small w x : 0 < w → sint w x → swrap w x = x.
Proof.
  unfold sint, swrap. intros Hw Hx.
  assert (2 ^ w = 2 * 2 ^ (w - 1)) by (rewrite <- Z.pow_succ_r by lia; f_equal; lia).
  rewrite Z.mod_small; lia.
Qed.

Lemma swrap_sint w x : 0 < w → sint w (swrap w x).
Proof.
  intros Hw. unfold sint, swrap.
  assert (2 ^ w = 2 * 2 ^ (w - 1)) by (rewrite <- Z.pow_succ_r by lia; f_equal; lia).
  pose proof (Z.mod_pos_bound (x + 2 ^ (w - 1)) (2 ^ w) ltac:(lia)). lia.
Qed.

Lemma uint_pow w x : uint w x → 0 ≤ x ∧ x < 2 ^ w.
Proof. done. Qed.

Lemma sat_sub_small x y : y ≤ x → sat_sub x y = x - y.
Proof. unfold sat_sub. lia. Qed.

#[export] Hint Resolve wrap_small wrap_uint swrap_small swrap_sint : rt.
#[export] Hint Rewrite wrap_add_l wrap_mul_l : rt.

Lemma div_ceil_bounds x y : 0 ≤ x → 0 < y →
  x ≤ div_ceil x y * y < x + y.
Proof.
  intros Hx Hy. unfold div_ceil.
  pose proof (Z.div_mod x y ltac:(lia)). pose proof (Z.mod_pos_bound x y Hy).
  destruct (Z.eqb_spec (x mod y) 0); nia.
Qed.

Lemma div_ceil_exact x y : y ≠ 0 → x mod y = 0 → div_ceil x y * y = x.
Proof.
  intros Hy Hm. unfold div_ceil. rewrite Hm. simpl.
  rewrite (Z.div_mod x y Hy) at 2. lia.
Qed.

Lemma div_ceil_spec x y : 0 ≤ x → 0 < y → div_ceil x y = (x + y - 1) / y.
Proof.
  intros Hx Hy. pose proof (div_ceil_bounds x y Hx Hy).
  apply Z.div_unique with (x + y - 1 - y * div_ceil x y); lia.
Qed.

Lemma div_ceil_nonneg x y : 0 ≤ x → 0 < y → 0 ≤ div_ceil x y.
Proof. intros. pose proof (div_ceil_bounds x y). nia. Qed.

Lemma zsum_nil : zsum [] = 0.
Proof. done. Qed.

Lemma zprod_nil : zprod [] = 1.
Proof. done. Qed.

Lemma zsum_cons x l : zsum (x :: l) = x + zsum l.
Proof. done. Qed.

Lemma zprod_cons x l : zprod (x :: l) = x * zprod l.
Proof. done. Qed.

Lemma zsum_app l k : zsum (l ++ k) = zsum l + zsum k.
Proof. unfold zsum. induction l as [|x l IH]; simpl; [done|]. rewrite IH. lia. Qed.

Lemma zsum_nonneg l : Forall (λ x, 0 ≤ x) l → 0 ≤ zsum l.
Proof. unfold zsum. induction 1; simpl; lia. Qed.

Lemma zsum_perm l k : l ≡ₚ k → zsum l = zsum k.
Proof. unfold zsum. induction 1; simpl; lia. Qed.

#[export] Instance zsum_Proper : Proper ((≡ₚ) ==> (=)) zsum.
Proof. intros l k. apply zsum_perm. Qed.

Lemma zprod_app l k : zprod (l ++ k) = zprod l * zprod k.
Proof. unfold zprod. induction l as [|x l IH]; simpl; [lia|]. rewrite IH. lia. Qed.

Lemma zprod_perm l k : l ≡ₚ k → zprod l = zprod k.
Proof. unfold zprod. induction 1; simpl; lia. Qed.

#[export] Instance zprod_Proper : Proper ((≡ₚ) ==> (=)) zprod.
Proof. intros l k. apply zprod_perm. Qed.

Lemma zprod_nonneg l : Forall (λ x, 0 ≤ x) l → 0 ≤ zprod l.
Proof. unfold zprod. induction 1; simpl; nia. Qed.

Lemma sum_u_wrap_aux w l a :
  foldl (λ a x, wrap w (a + x)) (wrap w a) l = wrap w (a + zsum l).
Proof.
  revert a. induction l as [|x l IH]; intros a; simpl.
  - by rewrite zsum_nil, Z.add_0_r.
  - rewrite wrap_add_l, IH, zsum_cons. f_equal. lia.
Qed.

(** A wrapping sum is the wrapped sum. *)
Lemma sum_u_wrap w l : 0 ≤ w → sum_u w l = wrap w (zsum l).
Proof.
  intros. unfold sum_u.
  rewrite <- (Z.add_0_l (zsum l)), <- sum_u_wrap_aux.
  by rewrite (wrap_small w 0) by (unfold uint; lia).
Qed.

Lemma sum_u_small w l : 0 ≤ w → uint w (zsum l) → sum_u w l = zsum l.
Proof. intros. rewrite sum_u_wrap by done. by apply wrap_small. Qed.

Lemma product_u_wrap_aux w l a :
  foldl (λ a x, wrap w (a * x)) (wrap w a) l = wrap w (a * zprod l).
Proof.
  revert a. induction l as [|x l IH]; intros a; simpl.
  - by rewrite zprod_nil, Z.mul_1_r.
  - rewrite wrap_mul_l, IH, zprod_cons. f_equal. lia.
Qed.

Lemma product_u_wrap w l : 0 < w → product_u w l = wrap w (zprod l).
Proof.
  intros. unfold product_u. replace 1 with (wrap w 1) at 1.
  - rewrite product_u_wrap_aux. f_equal. lia.
  - apply wrap_small. split; [lia|]. apply Z.pow_gt_1; lia.
Qed.

Lemma product_u_small w l : 0 < w → uint w (zprod l) → product_u w l = zprod l.
Proof. intros. rewrite product_u_wrap by done. by apply wrap_small. Qed.

(** *** Results *)

Lemma rbind_Ok {E A B} (m : res E A) (k : A → res E B) b :
  rbind m k = Ok b ↔ ∃ a, m = Ok a ∧ k a = Ok b.
Proof. destruct m; simpl; naive_solver. Qed.

Lemma rfold_app {E S A} (f : S → A → res E S) s l k :
  rfold f s (l ++ k) = rbind (rfold f s l) (λ s', rfold f s' k).
Proof.
  revert s. induction l as [|x l IH]; intros s; simpl; [done|].
  destruct (f s x); simpl; [apply IH|done..].
Qed.

Lemma rmapM_Ok {E A B} (f : A → res E B) l ys :
  rmapM f l = Ok ys ↔ Forall2 (λ x y, f x = Ok y) l ys.
Proof.
  revert ys. induction l as [|x l IH]; intros ys; simpl.
  { split; [by intros [= <-]|]. by inversion 1. }
  rewrite rbind_Ok. setoid_rewrite rbind_Ok. split.
  - intros (y & Hy & ys' & Hys & [= <-]). constructor; [done|]. by apply IH.
  - inversion 1 as [|? y ? ys' Hy Hys]; subst.
    exists y. split; [done|]. exists ys'. split; [by apply IH|done].
Qed.

Lemma rmapM_seq {E B} (f : nat → res E B) (g : nat → B) from len :
  (∀ j, (from ≤ j)%nat → (j < from + len)%nat → f j = Ok (g j)) →
  rmapM f (List.seq from len) = Ok (g <$> List.seq from len).
Proof.
  intros H. apply rmapM_Ok, Forall2_fmap_r, Forall_Forall2_diag, Forall_forall.
  intros j [Hl Hu]%elem_of_seq. by apply H.
Qed.

(** *** Lists of pairs *)

Lemma NoDup_fst_functional {A B} (l : list (A * B)) a b b' :
  NoDup l.*1 → (a, b) ∈ l → (a, b') ∈ l → b = b'.
Proof.
  induction l as [|[x y] l IH]; simpl; [by intros _ ?%not_elem_of_nil|].
  intros [Hx Hnd]%NoDup_cons. rewrite !elem_of_cons.
  intros [Hb|Hb] [Hb'|Hb']; simplify_eq; [done|..|by apply IH].
  - destruct Hx. apply list_elem_of_fmap. by exists (x, b').
  - destruct Hx. apply list_elem_of_fmap. by exists (x, b).
Qed.

(** The first two elements a filter keeps come from different positions. *)
Lemma filter_two_positions {A} (f : A → bool) l a b k :
  List.filter f l = a :: b :: k →
  ∃ i j, l !! i = Some a ∧ l !! j = Some b ∧ i ≠ j.
Proof.
  induction l as [|x l IH]; simpl; [done|]. destruct (f x).
  - intros [= -> E].
    assert (b ∈ List.filter f l) as (Hin & _)%list_elem_of_In%filter_In
      by (rewrite E; set_solver).
    apply list_elem_of_In, list_elem_of_lookup in Hin as [j Hj].
    by exists 0%nat, (S j).
  - intros (i & j & ? & ? & ?)%IH. exists (S i), (S j). split_and!; [done..|lia].
Qed.

Lemma filter_perm {A} (f : A → bool) l k : l ≡ₚ k → List.filter f l ≡ₚ List.filter f k.
Proof.
  induction 1; simpl; repeat case_match; eauto using Permutation.
Qed.

(** *** Sorting *)

(** The comparators of the code are lexicographic comparisons of integer
    keys; [lex] of the keys is a total order. *)
Fixpoint lex (l k : list Z) : comparison :=
  match l, k with
  | x :: l, y :: k => then_with (x ?= y) (lex l k)
  | _, _ => Eq
  end.

Section sort_by.
Context {A : Type} (cmp : A → A → comparison) (key : A → list Z).
Hypothesis cmp_key : ∀ x y, cmp x y = lex (key x) (key y).
Hypothesis key_len : ∀ x y, length (key x) = length (key y).

Lemma lex_total l k : length l = length k → lex l k ≠ Gt ∨ lex k l ≠ Gt.
Proof using Type.
  revert k. induction l as [|x l IH]; intros [|y k]; simpl; [by left|done..|].
  intros [= Hl]. rewrite (Z.compare_antisym x y).
  destruct (x ?= y) eqn:E; simpl; auto.
Qed.

Lemma lex_trans l k m : length l = length k → length k = length m →
  lex l k ≠ Gt → lex k m ≠ Gt → lex l m ≠ Gt.
Proof using Type.
  revert k m. induction l as [|x l IH]; intros [|y k] [|z m]; simpl; try done.
  intros [= Hl] [= Hk].
  destruct (Z.compare_spec x y), (Z.compare_spec y z), (Z.compare_spec x z);
    simpl; try done; try lia. eauto.
Qed.

Lemma lex_antisym l k : length l = length k →
  lex l k ≠ Gt → lex k l ≠ Gt → l = k.
Proof using Type.
  revert k. induction l as [|x l IH]; intros [|y k]; simpl; try done.
  intros [= Hl]. rewrite (Z.compare_antisym x y).
  destruct (Z.compare_spec x y) as [->|?|?]; simpl; try done.
  intros. f_equal. auto.
Qed.

#[local] Instance sort_by_total : Total (λ x y, cmp x y ≠ Gt).
Proof using cmp_key key_len. intros x y. rewrite !cmp_key. apply lex_total, key_len. Qed.
#[local] Instance sort_by_trans : Transitive (λ x y, cmp x y ≠ Gt).
Proof using cmp_key key_len.
  intros x y z. rewrite !cmp_key. apply lex_trans; apply key_len.
Qed.

Lemma sort_by_perm l : sort_by cmp l ≡ₚ l.
Proof using Type. apply merge_sort_Permutation. Qed.

Lemma sort_by_sorted l : StronglySorted (λ x y, cmp x y ≠ Gt) (sort_by cmp l).
Proof using cmp_key key_len.
  apply Sorted_StronglySorted; [apply _|]. apply Sorted_merge_sort. apply _.
Qed.

(** Sorting by keys that are distinct does not depend on the input order. *)
Lemma sort_by_unique l k :
  (∀ x y, x ∈ l → y ∈ l → key x = key y → x = y) →
  l ≡ₚ k → sort_by cmp l = sort_by cmp k.
Proof using cmp_key key_len.
  intros Hinj Hlk.
  apply (StronglySorted_unique_strong (λ x y, cmp x y ≠ Gt)).
  - intros x y Hx Hy Hxy Hyx. rewrite cmp_key in Hxy, Hyx. apply Hinj.
    + by rewrite <- (sort_by_perm l).
    + rewrite <- (sort_by_perm k) in Hlk. by rewrite Hlk.
    + apply lex_antisym; auto.
  - apply sort_by_sorted.
  - apply sort_by_sorted.
  - by rewrite !sort_by_perm.
Qed.
End sort_by.

(** *** Little-endian bytes *)

Lemma length_le_encode n x : length (le_encode n x) = n.
Proof. revert x. induction n; intros; simpl; auto. Qed.

Lemma le_encode_bytes n x : Forall is_byte (le_encode n x).
Proof.
  revert x. induction n; intros; simpl; constructor; [|done].
  unfold is_byte, uint. apply Z.mod_pos_bound. lia.
Qed.

Lemma le_decode_encode n x : le_decode (le_encode n x) = x mod 2 ^ (8 * Z.of_nat n).
Proof.
  revert x. induction n as [|n IH]; intros x; simpl le_encode; simpl le_decode.
  - by rewrite Z.mod_1_r.
  - rewrite IH. replace (8 * Z.of_nat (S n)) with (8 + 8 * Z.of_nat n) by lia.
    rewrite Z.pow_add_r by lia. change (2 ^ 8) with 256.
    rewrite Z.rem_mul_r by lia. lia.
Qed.

Lemma le_decode_bound bs : Forall is_byte bs →
  0 ≤ le_decode bs < 2 ^ (8 * Z.of_nat (length bs)).
Proof.
  induction 1 as [|b bs Hb _ IH]; simpl le_decode; simpl length; [lia|].
  replace (8 * Z.of_nat (S (length bs))) with (8 + 8 * Z.of_nat (length bs)) by lia.
  rewrite Z.pow_add_r by lia. change (2 ^ 8) with 256.
  unfold is_byte, uint in Hb. change (2 ^ 8) with 256 in Hb. lia.
Qed.

Lemma le_encode_decode bs : Forall is_byte bs →
  le_encode (length bs) (le_decode bs) = bs.
Proof.
  induction 1 as [|b bs Hb _ IH]; simpl; [done|].
  unfold is_byte, uint in Hb. change (2 ^ 8) with 256 in Hb.
  f_equal.
  - rewrite (Z.mul_comm 256), Z_mod_plus_full, Z.mod_small; lia.
  - rewrite (Z.mul_comm 256), Z.div_add, Z.div_small by lia. exact IH.
Qed.

(** *** Modular arithmetic on machine words *)

Lemma swrap_add_l w x y : swrap w (swrap w x + y) = swrap w (x + y).
Proof.
  unfold swrap. f_equal. set (h := 2 ^ (w - 1)).
  replace ((x + h) mod 2 ^ w - h + y + h) with ((x + h) mod 2 ^ w + y) by lia.
  rewrite Zplus_mod_idemp_l. f_equal. lia.
Qed.

Lemma swrap_add_r w x y : swrap w (x + swrap w y) = swrap w (x + y).
Proof. rewrite Z.add_comm, swrap_add_l. f_equal. lia. Qed.

Lemma swrap_eqm w x y : 0 < w → swrap w x mod 2 ^ w = y mod 2 ^ w → swrap w x = swrap w y.
Proof.
  intros Hw Heq. assert (swrap w (swrap w x) = swrap w x) as <-
    by (apply swrap_small; [done|by apply swrap_sint]).
  unfold swrap at 1 3. f_equal.
  rewrite Zplus_mod, Heq, <- Zplus_mod. done.
Qed.

Lemma swrap_mod w x : 0 < w → swrap w x mod 2 ^ w = x mod 2 ^ w.
Proof.
  intros Hw. unfold swrap. rewrite Zminus_mod_idemp_l. f_equal. lia.
Qed.

Lemma swrap_mul_l w x y : 0 < w → swrap w (swrap w x * y) = swrap w (x * y).
Proof.
  intros Hw. apply swrap_eqm; [done|]. rewrite swrap_mod by done.
  rewrite Zmult_mod, swrap_mod, <- Zmult_mod by done. done.
Qed.

Lemma swrap_mul_r w x y : 0 < w → swrap w (x * swrap w y) = swrap w (x * y).
Proof. intros. rewrite Z.mul_comm, swrap_mul_l by done. f_equal. lia. Qed.

Lemma wrap_swrap w x : 0 < w → wrap w (swrap w x) = wrap w x.
Proof. intros. unfold wrap. by apply swrap_mod. Qed.

#[export] Hint Rewrite swrap_add_l swrap_add_r : rt.

(** *** Loops that collect *)

(** A loop that appends one element per step is [rmapM]. *)
Lemma rfold_snoc {E A B} (f : A → res E B) (g : list B → A → res E (list B)) l init :
  (∀ out x, g out x = let? y := f x in Ok (out ++ [y])) →
  rfold g init l = let? ys := rmapM f l in Ok (init ++ ys).
Proof.
  intros Hg. revert init. induction l as [|x l IH]; intros init; simpl.
  - by rewrite app_nil_r.
  - rewrite Hg. destruct (f x); simpl; [|done|done]. rewrite IH.
    destruct (rmapM f l); simpl; [|done|done]. by rewrite <- app_assoc.
Qed.

Lemma rmapM_Err {E A B} (f : A → res E B) l e :
  rmapM f l = Err e ↔
  ∃ pre x post, l = pre ++ x :: post ∧ f x = Err e ∧ Forall (λ y, is_ok (f y) = true) pre.
Proof.
  induction l as [|x l IH]; simpl.
  { split; [done|]. by intros ([|] & ? & ? & [=] & _). }
  destruct (f x) as [y|e'|] eqn:Hx; simpl.
  - transitivity (rmapM f l = Err e).
    { by destruct (rmapM f l). }
    rewrite IH. split.
    + intros (pre & z & post & -> & Hz & Hpre). exists (x :: pre), z, post.
      split_and!; [done|done|]. constructor; [by rewrite Hx|done].
    + intros ([|x' pre] & z & post & [= <- Hl] & Hz & Hpre); [congruence|].
      apply Forall_cons in Hpre as [_ Hpre]. by exists pre, z, post.
  - split.
    + intros [= <-]. exists [], x, l. auto.
    + intros ([|x' pre] & z & post & [= <- Hl] & Hz & Hpre); [congruence|].
      apply Forall_cons in Hpre as [Hpre _]. by rewrite Hx in Hpre.
  - split; [done|].
    intros ([|x' pre] & z & post & [= <- Hl] & Hz & Hpre); [congruence|].
    apply Forall_cons in Hpre as [Hpre _]. by rewrite Hx in Hpre.
Qed.

Lemma rmapM_Panic {E A B} (f : A → res E B) l :
  (∀ x, x ∈ l → f x ≠ Panic) → rmapM f l ≠ Panic.
Proof.
  induction l as [|x l IH]; intros H; simpl; [done|].
  specialize (H x ltac:(left)) as Hx. destruct (f x); simpl; [|done|done].
  assert (rmapM f l ≠ Panic) by (apply IH; intros; apply H; by right).
  by destruct (rmapM f l).
Qed.
