(* ===== verification/Loops.v ===== *)
(** * Loops over buffers, and finite sums

    What the numeric kernels share: counted loops, writes to a buffer, the
    lemma that a loop nest writing consecutive blocks fills a range of the
    buffer, and sums over ranges in a commutative semiring. *)

From Stdlib Require Import ZArith Lia Ring ArithRing.
From stdpp Require Import base list.
From S2P Require Import Prelude.

Open Scope nat_scope.

(** [for i in 0..n { body }] *)
Definition for_range {E St} (n : nat) (body : St → nat → res E St) (s : St) : res E St :=
  rfold body s (List.seq 0 n).

(** [buf[i] = x] *)
Definition put {E X} (l : list X) (i : nat) (x : X) : res E (list X) :=
  if i <? length l then Ok (<[i := x]> l) else Panic.

(** The loop replaces [length vals] elements from [base]. *)
Definition fills {E X} (body : list X → res E (list X)) (base : nat) (vals : list X) : Prop :=
  ∀ out, base + length vals ≤ length out →
    body out = Ok (take base out ++ vals ++ drop (base + length vals) out).

Lemma for_range_S {E St} n (body : St → nat → res E St) s :
  for_range (S n) body s = (let? s' := for_range n body s in body s' n).
Proof.
  unfold for_range. rewrite seq_S, rfold_app. destruct (rfold body s _); simpl; try done.
  by destruct (body a n).
Qed.

(** A loop that keeps an invariant of the iteration count. *)
Lemma for_range_inv {E St} n (body : St → nat → res E St) (f : nat → St) :
  (∀ i, i < n → body (f i) i = Ok (f (S i))) → for_range n body (f 0) = Ok (f n).
Proof.
  induction n as [|n IH]; intros H; [done|].
  rewrite for_range_S, IH by (intros; apply H; lia). simpl. apply H. lia.
Qed.

Lemma for_range_ext {E St} n (b1 b2 : St → nat → res E St) s :
  (∀ s i, i < n → b1 s i = b2 s i) → for_range n b1 s = for_range n b2 s.
Proof.
  intros H. induction n as [|n IH]; [done|].
  rewrite !for_range_S, IH by (intros; apply H; lia).
  destruct (for_range n b2 s); simpl; [apply H; lia|done..].
Qed.

(** A loop on an image of the state. *)
Lemma for_range_map {E S1 S2} (φ : S1 → S2) n (b1 : S1 → nat → res E S1) b2 s :
  (∀ s i, i < n → b2 (φ s) i = rmap φ (b1 s i)) →
  for_range n b2 (φ s) = rmap φ (for_range n b1 s).
Proof.
  induction n as [|n IH]; intros H; [done|].
  rewrite !for_range_S, IH by (intros; apply H; lia).
  destruct (for_range n b1 s); simpl; [apply H; lia|done..].
Qed.

Lemma rfold_concat {E St A} (body : St → A → res E St) rows s :
  rfold body s (concat rows) = rfold (rfold body) s rows.
Proof.
  revert s. induction rows as [|r rows IH]; intros s; [done|]. simpl. rewrite rfold_app.
  destruct (rfold body s r); simpl; [apply IH|done..].
Qed.

(** A loop without failures is a fold. *)
Lemma rfold_pure {E St A} (body : St → A → res E St) (f : St → A → St) l s :
  (∀ s x, x ∈ l → body s x = Ok (f s x)) → rfold body s l = Ok (foldl f s l).
Proof.
  revert s. induction l as [|x l IH]; intros s H; [done|]. simpl.
  rewrite H by (apply elem_of_cons; by left). simpl. apply IH. intros. apply H, elem_of_cons. by right.
Qed.

(** The same under an invariant of the state. *)
Lemma rfold_pure_inv {E St A} (P : St → Prop) (body : St → A → res E St) (f : St → A → St) l s :
  P s → (∀ s x, x ∈ l → P s → body s x = Ok (f s x) ∧ P (f s x)) → rfold body s l = Ok (foldl f s l).
Proof.
  revert s. induction l as [|x l IH]; intros s Hs H; [done|]. simpl.
  destruct (H s x) as [-> Hf]; [apply elem_of_cons; by left|done|]. simpl.
  apply IH; [done|]. intros. apply H; [apply elem_of_cons; by right|done].
Qed.

(** A step that fails whatever the state reached makes the loop fail, at that
    step or an earlier one. *)
Lemma rfold_refuses {E St A} (P : St → Prop) (Q : A → E → Prop) (body : St → A → res E St) l s x :
  P s → x ∈ l →
  (∀ s y, y ∈ l → P s → match body s y with Ok s' => P s' | Err e => Q y e | Panic => False end) →
  (∀ s s', P s → body s x ≠ Ok s') →
  ∃ y e, y ∈ l ∧ rfold body s l = Err e ∧ Q y e.
Proof.
  intros Hs Hx Hstep Hbad. revert s Hs. induction l as [|a l IH]; intros s Hs; [by apply elem_of_nil in Hx|].
  simpl. pose proof (Hstep s a ltac:(by left) Hs) as Ha. destruct (body s a) as [s'|e|] eqn:Hb; [|by exists a, e; split; [left|]|done].
  cbn [rbind]. apply elem_of_cons in Hx as [->|Hx]; [by destruct (Hbad s s' Hs)|].
  destruct (IH Hx ltac:(intros; apply Hstep; [by right|done]) s' Ha) as (y & e & Hy & He & Hq).
  exists y, e. split; [by right|done].
Qed.

Lemma rfold_ext {E St A} (f g : St → A → res E St) l s :
  (∀ s x, x ∈ l → f s x = g s x) → rfold f s l = rfold g s l.
Proof.
  revert s. induction l as [|x l IH]; intros s H; [done|]. simpl.
  rewrite H by (apply elem_of_cons; by left). destruct (g s x); simpl; [|done..].
  apply IH. intros. apply H, elem_of_cons. by right.
Qed.

Lemma rfold_fmap {E St A B} (body : St → B → res E St) (f : A → B) l s :
  rfold body s (f <$> l) = rfold (λ s x, body s (f x)) s l.
Proof.
  revert s. induction l as [|x l IH]; intros s; [done|]. simpl. by destruct (body s (f x)); simpl.
Qed.

Lemma rmapM_ext {E A B} (f g : A → res E B) l : (∀ x, x ∈ l → f x = g x) → rmapM f l = rmapM g l.
Proof.
  induction l as [|x l IH]; intros H; [done|]. cbn. rewrite H by (apply elem_of_cons; by left).
  rewrite IH; [done|]. intros. apply H, elem_of_cons. by right.
Qed.

Lemma rmapM_fmap {E A B C} (f : B → res E C) (g : A → B) l : rmapM f (g <$> l) = rmapM (λ x, f (g x)) l.
Proof. induction l as [|x l IH]; [done|]. cbn. rewrite IH. done. Qed.

(** A list of calls none of which panics, some of which is refused *)
Lemma rmapM_refuses {E A B} (f : A → res E B) l x e :
  (∀ y, y ∈ l → f y ≠ Panic) → x ∈ l → f x = Err e →
  ∃ y e', y ∈ l ∧ f y = Err e' ∧ rmapM f l = Err e'.
Proof.
  intros Hp Hin Hx. destruct (rmapM f l) as [ys|e'|] eqn:Hm.
  - apply rmapM_Ok in Hm. apply list_elem_of_lookup in Hin as [i Hi].
    destruct (Forall2_lookup_l _ _ _ _ _ Hm Hi) as (y & _ & Hy). congruence.
  - apply rmapM_Err in Hm as (pre & y & post & -> & Hy & _). exists y, e'. split; [|done].
    apply elem_of_app. right. by left.
  - exfalso. revert Hm. by apply rmapM_Panic.
Qed.

(** A loop whose body never fails under an invariant. *)
Lemma for_range_ok {E St} (P : St → Prop) n (body : St → nat → res E St) s :
  P s → (∀ s i, i < n → P s → ∃ s', body s i = Ok s' ∧ P s') →
  ∃ s', for_range n body s = Ok s' ∧ P s'.
Proof.
  intros Hs H. induction n as [|n IH]; [by exists s|].
  destruct IH as (s1 & H1 & Hs1); [intros; apply H; [lia|done]|].
  rewrite for_range_S, H1. simpl. apply H; [lia|done].
Qed.

Lemma put_ok {E X} (Q : X → Prop) (l : list X) L i x :
  (length l = L ∧ Forall Q l) → i < L → Q x →
  ∃ l', put (E := E) l i x = Ok l' ∧ length l' = L ∧ Forall Q l'.
Proof.
  intros [<- Hl] Hi Hx. unfold put. rewrite (proj2 (Nat.ltb_lt _ _)) by done.
  eexists. split; [done|]. rewrite length_insert. split; [done|]. by apply Forall_insert.
Qed.

Lemma fills_put {E X} i (x : X) : fills (E := E) (λ out, put out i x) i [x].
Proof.
  intros out Hl. simpl in *. unfold put.
  rewrite (proj2 (Nat.ltb_lt _ _)) by lia. f_equal.
  rewrite insert_take_drop by lia. by rewrite Nat.add_1_r.
Qed.

Lemma fills_ext {E X} (b1 b2 : list X → res E (list X)) base vals :
  (∀ out, b1 out = b2 out) → fills b2 base vals → fills b1 base vals.
Proof. intros He H out Hl. by rewrite He, H. Qed.

Lemma length_blocks_seq {X} (vals : nat → list X) m n : (∀ i, i < n → length (vals i) = m) →
  length (concat (vals <$> List.seq 0 n)) = n * m.
Proof.
  induction n as [|n IH]; intros H; [done|].
  rewrite seq_S, fmap_app, concat_app, length_app, IH by (intros; apply H; lia).
  simpl. rewrite app_nil_r, H by lia. lia.
Qed.

(** A loop whose iterations fill consecutive blocks fills the whole range. *)
Lemma fills_for {E X} n m base (body : list X → nat → res E (list X)) (vals : nat → list X) :
  (∀ i, i < n → length (vals i) = m) →
  (∀ i, i < n → fills (λ out, body out i) (base + i * m) (vals i)) →
  fills (for_range n body) base (concat (vals <$> List.seq 0 n)).
Proof.
  intros Hl Hb out Hout. rewrite (length_blocks_seq vals m n Hl) in *.
  pose (f := λ i, take base out ++ concat (vals <$> List.seq 0 i) ++ drop (base + i * m) out).
  assert (∀ i, i ≤ n → length (concat (vals <$> List.seq 0 i)) = i * m) as Hc.
  { intros i Hi. apply length_blocks_seq. intros; apply Hl; lia. }
  assert (∀ i, i ≤ n → length (f i) = length out) as Hf.
  { intros i Hi. unfold f. rewrite !length_app, length_take, length_drop, Hc by done. nia. }
  assert (f 0 = out) as H0.
  { unfold f. simpl. by rewrite Nat.add_0_r, take_drop. }
  rewrite <- H0 at 1. change (Ok (E := E) (f n)) with (Ok (E := E) (f n)).
  rewrite (for_range_inv n body f); [done|].
  intros i Hi. rewrite (Hb i Hi) by (rewrite Hf, Hl by lia; nia). f_equal. rewrite Hl by done.
  unfold f. rewrite seq_S, fmap_app, concat_app. simpl. rewrite app_nil_r.
  assert (length (take base out ++ concat (vals <$> List.seq 0 i)) = base + i * m) as Hp.
  { rewrite length_app, length_take, Hc by lia. nia. }
  rewrite !app_assoc. rewrite <- (app_assoc _ (vals i)). rewrite <- Hp at 1. rewrite take_app_length.
  rewrite drop_app_ge by lia. rewrite Hp, drop_drop. rewrite <- !app_assoc. do 3 f_equal. f_equal. lia.
Qed.

(** ** Calls that end well *)

(** A [usize] product or sum of sizes and indices, which wraps *)
Definition ix (n : nat) : nat := Z.to_nat (wrap 64 (Z.of_nat n)).

Lemma ix_small n : (Z.of_nat n < 2 ^ 64)%Z → ix n = n.
Proof. intros. unfold ix. rewrite wrap_small by (unfold uint; lia). lia. Qed.

(** The call returns a value of [P] or an error of [Q]; it does not panic. *)
Definition ends {E A} (P : A → Prop) (Q : E → Prop) (m : res E A) : Prop :=
  match m with Ok x => P x | Err e => Q e | Panic => False end.

Lemma ends_bind {E A B} (P' : A → Prop) (P : B → Prop) (Q : E → Prop) m f :
  ends P' Q m → (∀ x, P' x → ends P Q (f x)) → ends P Q (let? x := m in f x).
Proof. destruct m; simpl; [auto|done..]. Qed.

Lemma ends_impl {E A} (P P' : A → Prop) (Q : E → Prop) m :
  ends P' Q m → (∀ x, P' x → P x) → ends P Q m.
Proof. destruct m; simpl; auto. Qed.

Lemma ends_no_error {E A} (P : A → Prop) (Q : E → Prop) m : ends P (λ _, False) m → ends P Q m.
Proof. by destruct m. Qed.

Lemma ends_range {E St} (P : nat → St → Prop) (Q : E → Prop) n (body : St → nat → res E St) s :
  P 0 s → (∀ s i, i < n → P i s → ends (P (S i)) Q (body s i)) → ends (P n) Q (for_range n body s).
Proof.
  intros Hs H. induction n as [|n IH]; [done|]. rewrite for_range_S.
  eapply ends_bind; [apply IH; intros; apply H; [lia|done]|]. intros s' Hs'. apply H; [lia|done].
Qed.

(** Reading [buf[i]] *)
Definition rd {E X} (l : list X) (i : nat) : res E X := unwrap_opt (l !! i).

Lemma rd_nth {E X} (d : X) (l : list X) i : i < length l → rd (E := E) l i = Ok (nth i l d).
Proof. intros Hi. unfold rd. destruct (nth_lookup_or_length l i d) as [->|]; [done|lia]. Qed.

Lemma ends_rd {E X} (P : X → Prop) (Q : E → Prop) (l : list X) i x : l !! i = Some x → P x → ends P Q (rd l i).
Proof. unfold rd. by intros ->. Qed.

(** ** Sums over ranges *)

(** Commutative semirings, with the operations as the kernels take them. *)
Class SemiRing (X : Type) := {
  sr_zero : X; sr_one : X;
  sr_add : X → X → X; sr_mul : X → X → X;
  sr_laws : semi_ring_theory sr_zero sr_one sr_add sr_mul (@eq X)
}.

Lemma Z_semiring : semi_ring_theory 0%Z 1%Z Z.add Z.mul eq.
Proof. constructor; intros; ring. Qed.

#[export] Instance Z_SemiRing : SemiRing Z := {| sr_laws := Z_semiring |}.

Section sums.
Context {X : Type} {SR : SemiRing X}.
Add Ring Xring : (@sr_laws X SR).

Local Notation zero := (@sr_zero X SR).
Local Notation "x + y" := (sr_add x y).
Local Notation "x * y" := (sr_mul x y).

Definition bsum (n : nat) (f : nat → X) : X := foldr (λ i s, f i + s) zero (List.seq 0 n).

Lemma foldr_sum_start l (f : nat → X) z : foldr (λ i s, f i + s) z l = foldr (λ i s, f i + s) zero l + z.
Proof. induction l as [|i l IH]; simpl; [ring|rewrite IH; ring]. Qed.

Lemma bsum_S n f : bsum (S n) f = bsum n f + f n.
Proof. unfold bsum. rewrite seq_S, foldr_app. simpl. rewrite foldr_sum_start. ring. Qed.

Lemma bsum_ext n f g : (∀ i, (i < n)%nat → f i = g i) → bsum n f = bsum n g.
Proof.
  induction n as [|n IH]; intros H; [done|].
  rewrite !bsum_S, IH, H by (intros; (apply H || idtac); lia). done.
Qed.

Lemma bsum_zero n : bsum n (λ _, zero) = zero.
Proof. induction n as [|n IH]; [done|]. rewrite bsum_S, IH. ring. Qed.

Lemma bsum_add n f g : bsum n (λ i, f i + g i) = bsum n f + bsum n g.
Proof. induction n as [|n IH]; [unfold bsum; simpl; ring|]. rewrite !bsum_S, IH. ring. Qed.

Lemma bsum_mul_l n c f : c * bsum n f = bsum n (λ i, c * f i).
Proof. induction n as [|n IH]; [unfold bsum; simpl; ring|]. rewrite !bsum_S, <- IH. ring. Qed.

Lemma bsum_mul_r n c f : bsum n f * c = bsum n (λ i, f i * c).
Proof. induction n as [|n IH]; [unfold bsum; simpl; ring|]. rewrite !bsum_S, <- IH. ring. Qed.

Lemma bsum_swap n m (f : nat → nat → X) :
  bsum n (λ i, bsum m (λ j, f i j)) = bsum m (λ j, bsum n (λ i, f i j)).
Proof.
  induction n as [|n IH]; [unfold bsum at 1; simpl; symmetry; apply bsum_zero|].
  rewrite bsum_S, IH, <- bsum_add. apply bsum_ext. intros j _. by rewrite bsum_S.
Qed.

Lemma bsum_app n m f : bsum (n + m)%nat f = bsum n f + bsum m (λ i, f (n + i)%nat).
Proof.
  induction m as [|m IH]; [rewrite Nat.add_0_r; unfold bsum at 3; simpl; ring|].
  rewrite Nat.add_succ_r, !bsum_S, IH. ring.
Qed.

Lemma bsum_product n m f :
  bsum (n * m)%nat f = bsum n (λ i, bsum m (λ j, f (i * m + j)%nat)).
Proof.
  induction n as [|n IH]; [done|].
  replace (S n * m)%nat with (n * m + m)%nat by lia. by rewrite bsum_app, bsum_S, IH.
Qed.

(** [x] where the condition holds, nothing elsewhere *)
Definition ind (b : bool) (x : X) : X := if b then x else zero.

Lemma bsum_single n t f : bsum n (λ i, ind (i =? t) (f i)) = ind (t <? n) (f t).
Proof.
  induction n as [|n IH]; [done|]. rewrite bsum_S, IH.
  destruct (Nat.eqb_spec n t), (Nat.ltb_spec t n), (Nat.ltb_spec t (S n));
    simpl; subst; try lia; ring.
Qed.

(** The positions [i] of the range with [i + p = s] *)
Lemma bsum_shifted n p s f :
  bsum n (λ i, ind (i + p =? s)%nat (f i)) = ind ((p <=? s) && (s - p <? n)) (f (s - p)%nat).
Proof.
  destruct (Nat.leb_spec p s) as [Hp|Hp]; simpl.
  - rewrite <- bsum_single. apply bsum_ext. intros i _. f_equal.
    destruct (Nat.eqb_spec (i + p) s), (Nat.eqb_spec i (s - p)); lia || done.
  - rewrite <- (bsum_zero n). apply bsum_ext. intros i _.
    destruct (Nat.eqb_spec (i + p) s); [lia|done].
Qed.

Lemma bsum_ind n b f : bsum n (λ i, ind b (f i)) = ind b (bsum n f).
Proof. destruct b; [done|apply bsum_zero]. Qed.

(** An accumulating loop *)
Lemma for_range_sum {E} n (body : X → nat → res E X) f z :
  (∀ acc i, (i < n)%nat → body acc i = Ok (acc + f i)) → for_range n body z = Ok (z + bsum n f).
Proof.
  intros H. replace z with (z + bsum 0 f) at 1 by (unfold bsum; simpl; ring).
  apply (for_range_inv n body (λ i, z + bsum i f)). intros i Hi.
  rewrite H, bsum_S by done. f_equal. ring.
Qed.

Lemma for_range_sum3 {E} n1 n2 n3 (body : nat → nat → X → nat → res E X) f z :
  (∀ i j acc k, (i < n1)%nat → (j < n2)%nat → (k < n3)%nat → body i j acc k = Ok (acc + f i j k)) →
  for_range n1 (λ acc i, for_range n2 (λ acc j, for_range n3 (body i j) acc) acc) z =
    Ok (z + bsum n1 (λ i, bsum n2 (λ j, bsum n3 (f i j)))).
Proof. intros H. do 3 (apply for_range_sum; intros). by apply H. Qed.

(** Sums over three ranges and over two commute. *)
Lemma bsum_swap_32 n1 n2 n3 m1 m2 (f : nat → nat → nat → nat → nat → X) :
  bsum m1 (λ a, bsum m2 (λ b, bsum n1 (λ i, bsum n2 (λ j, bsum n3 (λ k, f i j k a b))))) =
  bsum n1 (λ i, bsum n2 (λ j, bsum n3 (λ k, bsum m1 (λ a, bsum m2 (λ b, f i j k a b))))).
Proof.
  assert (∀ m n n' (h : nat → nat → nat → X),
    bsum m (λ a, bsum n (λ i, bsum n' (λ j, h a i j))) = bsum n (λ i, bsum n' (λ j, bsum m (λ a, h a i j))))
    as H2.
  { intros. rewrite bsum_swap. apply bsum_ext. intros i _. apply bsum_swap. }
  assert (∀ m (h : nat → nat → nat → nat → X),
    bsum m (λ a, bsum n1 (λ i, bsum n2 (λ j, bsum n3 (λ k, h a i j k)))) =
    bsum n1 (λ i, bsum n2 (λ j, bsum n3 (λ k, bsum m (λ a, h a i j k))))) as H3.
  { intros. rewrite H2. do 2 (apply bsum_ext; intros ? _). apply bsum_swap. }
  rewrite (bsum_ext m1 _ (λ a, bsum n1 (λ i, bsum n2 (λ j, bsum n3 (λ k, bsum m2 (λ b, f i j k a b)))))).
  - apply H3.
  - intros a _. apply H3.
Qed.

(** The scalar product of two buffers *)
Definition dotp (l1 l2 : list X) : X := foldr sr_add zero (zip_with sr_mul l1 l2).

Lemma dotp_bsum l1 l2 : length l1 = length l2 →
  dotp l1 l2 = bsum (length l1) (λ i, nth i l1 zero * nth i l2 zero).
Proof.
  revert l2. induction l1 as [|x l1 IH]; intros [|y l2] Hl; try done.
  change (x * y + dotp l1 l2 = bsum (S (length l1)) (λ i, nth i (x :: l1) zero * nth i (y :: l2) zero)).
  injection Hl as Hl.
  rewrite IH by done. change (S (length l1)) with (1 + length l1)%nat. rewrite bsum_app.
  unfold bsum at 2. simpl. ring.
Qed.

Lemma dotp_cons x l1 y l2 : dotp (x :: l1) (y :: l2) = x * y + dotp l1 l2.
Proof. done. Qed.

Lemma dotp_zeros n l : dotp (replicate n zero) l = zero.
Proof.
  revert l. induction n as [|n IH]; intros [|y l]; try done. simpl replicate.
  rewrite dotp_cons, IH. ring.
Qed.

(** Adding to one element of a buffer *)
Lemma dotp_insert_add l t i d v : length t = length l → l !! i = Some d →
  dotp (<[i := d + v]> l) t = dotp l t + v * nth i t zero.
Proof.
  revert t i. induction l as [|x l IH]; intros [|y t] i Hl Hi; try done.
  injection Hl as Hl. destruct i as [|i]; simpl in *.
  - injection Hi as ->. rewrite !dotp_cons. ring.
  - change (<[S i:=d + v]> (x :: l)) with (x :: <[i := d + v]> l).
    rewrite !dotp_cons, IH by done. ring.
Qed.
End sums.

(** ** Buffers of four dimensions *)

(** The buffer of the values of [f], in row-major order. *)
Definition buffer4 {X} (n1 n2 n3 n4 : nat) (f : nat → nat → nat → nat → X) : list X :=
  concat ((λ a, concat ((λ b, concat ((λ c, concat ((λ d, [f a b c d])
    <$> List.seq 0 n4)) <$> List.seq 0 n3)) <$> List.seq 0 n2)) <$> List.seq 0 n1).

(** The element at a multi-index *)
Definition at4 {X} (dflt : X) (n2 n3 n4 : nat) (l : list X) (a b c d : nat) : X :=
  nth (((a * n2 + b) * n3 + c) * n4 + d) l dflt.

(** A range split into rows *)
Lemma seq_rows {X} (f : nat → X) n m :
  f <$> List.seq 0 (n * m) = concat ((λ i, (λ j, f (i * m + j)) <$> List.seq 0 m) <$> List.seq 0 n).
Proof.
  induction n as [|n IH]; [done|].
  rewrite seq_S, fmap_app, concat_app, <- IH. simpl. rewrite app_nil_r, (Nat.add_comm m), seq_app, fmap_app.
  f_equal. simpl. replace (List.seq (n * m) m) with (Nat.add (n * m) <$> List.seq 0 m).
  - by rewrite <- list_fmap_compose.
  - rewrite fmap_add_seq. by rewrite Nat.add_0_r.
Qed.

Lemma block_of_rows {X} (vals : nat → list X) m n i :
  (∀ i, i < n → length (vals i) = m) → i < n →
  take m (drop (i * m) (concat (vals <$> List.seq 0 n))) = vals i.
Proof.
  intros Hl Hi. replace n with (i + S (n - S i)) by lia.
  rewrite seq_app, fmap_app, concat_app, drop_app_ge by (rewrite (length_blocks_seq vals m) by (intros; apply Hl; lia); lia).
  rewrite (length_blocks_seq vals m) by (intros; apply Hl; lia). rewrite Nat.sub_diag. simpl.
  rewrite drop_0, take_app_le, take_ge by (rewrite Hl by done; lia). done.
Qed.

Lemma digit_lt i j n m : i < n → j < m → i * m + j < n * m.
Proof. nia. Qed.

Lemma index4_lt n1 n2 n3 n4 a b c d : a < n1 → b < n2 → c < n3 → d < n4 →
  ((a * n2 + b) * n3 + c) * n4 + d < n1 * (n2 * (n3 * (n4 * 1))).
Proof.
  intros. replace (((a * n2 + b) * n3 + c) * n4 + d)
    with (a * (n2 * (n3 * (n4 * 1))) + (b * (n3 * (n4 * 1)) + (c * (n4 * 1) + (d * 1 + 0)))) by ring.
  repeat apply digit_lt; done || lia.
Qed.

Lemma lookup4_ok {E X} (l : list X) n1 n2 n3 n4 a b c d :
  length l = n1 * (n2 * (n3 * (n4 * 1))) → a < n1 → b < n2 → c < n3 → d < n4 →
  ∃ x, unwrap_opt (E := E) (l !! (((a * n2 + b) * n3 + c) * n4 + d)) = Ok x.
Proof.
  intros Hl Ha Hb Hc Hd. pose proof (index4_lt n1 n2 n3 n4 a b c d Ha Hb Hc Hd) as H.
  rewrite <- Hl in H. apply lookup_lt_is_Some in H as [x ->]. by exists x.
Qed.

Lemma nth_blocks_seq {X} (dflt : X) (vals : nat → list X) m n i j :
  (∀ i, i < n → length (vals i) = m) → i < n → j < m →
  nth (i * m + j) (concat (vals <$> List.seq 0 n)) dflt = nth j (vals i) dflt.
Proof.
  revert vals i. induction n as [|n IH]; intros vals i Hl Hi Hj; [lia|].
  rewrite seq_S, fmap_app, concat_app. simpl. rewrite app_nil_r.
  assert (length (concat (vals <$> List.seq 0 n)) = n * m) as Hc
    by (apply length_blocks_seq; intros; apply Hl; lia).
  destruct (decide (i = n)) as [->|Hne].
  - rewrite app_nth2 by lia. f_equal. lia.
  - rewrite app_nth1 by nia. apply IH; [intros; apply Hl; lia|lia|done].
Qed.

Lemma length_buffer4 {X} n1 n2 n3 n4 (f : nat → nat → nat → nat → X) :
  length (buffer4 n1 n2 n3 n4 f) = n1 * (n2 * (n3 * (n4 * 1))).
Proof. unfold buffer4. repeat (apply length_blocks_seq; intros ? _). done. Qed.

Lemma at4_buffer4 {X} (dflt : X) n1 n2 n3 n4 f a b c d :
  a < n1 → b < n2 → c < n3 → d < n4 → at4 dflt n2 n3 n4 (buffer4 n1 n2 n3 n4 f) a b c d = f a b c d.
Proof.
  intros Ha Hb Hc Hd. unfold at4, buffer4.
  replace (((a * n2 + b) * n3 + c) * n4 + d)
    with (a * (n2 * (n3 * (n4 * 1))) + (b * (n3 * (n4 * 1)) + (c * (n4 * 1) + (d * 1 + 0)))) by ring.
  do 4 (rewrite nth_blocks_seq; [|intros ? _; repeat (apply length_blocks_seq; intros ? _); done|done|repeat apply digit_lt; done || lia]).
  done.
Qed.

(** The four loops of a kernel that writes each element once, in order. *)
Lemma fills_buffer4 {E X} n1 n2 n3 n4 (body : nat → nat → nat → list X → nat → res E (list X)) f :
  (∀ a b c d, a < n1 → b < n2 → c < n3 → d < n4 →
     fills (λ out, body a b c out d) (((a * n2 + b) * n3 + c) * n4 + d) [f a b c d]) →
  ∀ out, length out = n1 * (n2 * (n3 * (n4 * 1))) →
  for_range n1 (λ out a, for_range n2 (λ out b, for_range n3 (λ out c,
    for_range n4 (body a b c) out) out) out) out = Ok (buffer4 n1 n2 n3 n4 f).
Proof.
  intros H out Hl.
  assert (fills (for_range n1 (λ out a, for_range n2 (λ out b, for_range n3 (λ out c,
    for_range n4 (body a b c) out) out) out)) 0 (buffer4 n1 n2 n3 n4 f)) as Hf.
  { apply (fills_for _ (n2 * (n3 * (n4 * 1)))).
    { intros. repeat (apply length_blocks_seq; intros ? _). done. }
    intros a Ha. apply (fills_for _ (n3 * (n4 * 1))).
    { intros. repeat (apply length_blocks_seq; intros ? _). done. }
    intros b Hb. apply (fills_for _ (n4 * 1)).
    { intros. repeat (apply length_blocks_seq; intros ? _). done. }
    intros c Hc. apply (fills_for _ 1); [done|].
    intros d Hd. replace (0 + a * (n2 * (n3 * (n4 * 1))) + b * (n3 * (n4 * 1)) + c * (n4 * 1) + d * 1)
      with (((a * n2 + b) * n3 + c) * n4 + d) by ring. by apply H. }
  rewrite Hf by (rewrite length_buffer4; lia). rewrite length_buffer4, drop_ge by lia.
  simpl. by rewrite app_nil_r.
Qed.

Lemma dotp_at4 {X} {SR : SemiRing X} n1 n2 n3 n4 l1 l2 : length l1 = n1 * (n2 * (n3 * (n4 * 1))) → length l2 = length l1 →
  dotp l1 l2 =
    bsum n1 (λ a, bsum n2 (λ b, bsum n3 (λ c, bsum n4 (λ d,
      sr_mul (at4 sr_zero n2 n3 n4 l1 a b c d) (at4 sr_zero n2 n3 n4 l2 a b c d))))).
Proof.
  intros H1 H2. rewrite dotp_bsum by done. rewrite H1.
  rewrite bsum_product. apply bsum_ext. intros a _.
  rewrite bsum_product. apply bsum_ext. intros b _.
  rewrite bsum_product. apply bsum_ext. intros c _.
  rewrite Nat.mul_1_r. apply bsum_ext. intros d _.
  unfold at4. f_equal; f_equal; lia.
Qed.

Lemma dotp_buffer4 {X} {SR : SemiRing X} n1 n2 n3 n4 l f : length l = n1 * (n2 * (n3 * (n4 * 1))) →
  dotp l (buffer4 n1 n2 n3 n4 f) =
    bsum n1 (λ a, bsum n2 (λ b, bsum n3 (λ c, bsum n4 (λ d,
      sr_mul (at4 sr_zero n2 n3 n4 l a b c d) (f a b c d))))).
Proof.
  intros Hl. rewrite (dotp_at4 n1 n2 n3 n4) by (rewrite ?length_buffer4; done).
  apply bsum_ext. intros a Ha. apply bsum_ext. intros b Hb. apply bsum_ext. intros c Hc.
  apply bsum_ext. intros d Hd. by rewrite at4_buffer4.
Qed.

(** ** Matrices in row-major order *)

Lemma cell_unique n i j i' j' : (j < n) → (j' < n) → (i * n + j = i' * n + j') → i = i' ∧ j = j'.
Proof.
  intros Hj Hj' H. assert (i = i') as ->; [|lia].
  rewrite (Nat.add_comm (i * n)), (Nat.add_comm (i' * n)) in H.
  apply (f_equal (λ x, (x / n))) in H. rewrite !Nat.div_add, !Nat.div_small in H by lia. lia.
Qed.

Definition grid {X} (m n : nat) (f : nat → nat → X) : list X :=
  concat ((λ i, f i <$> List.seq 0 n) <$> List.seq 0 m).

Lemma length_grid {X} m n (f : nat → nat → X) : length (grid m n f) = m * n.
Proof. apply length_blocks_seq. intros. by rewrite length_fmap, length_seq. Qed.

Lemma lookup_concat_blocks {X} (vals : nat → list X) m n i j :
  (∀ i, i < n → length (vals i) = m) → i < n → j < m → concat (vals <$> List.seq 0 n) !! (i * m + j) = vals i !! j.
Proof.
  intros Hl Hi Hj. rewrite <- (block_of_rows vals m n i Hl Hi), lookup_take_lt, lookup_drop by done. done.
Qed.

Lemma lookup_grid {X} m n (f : nat → nat → X) i j : i < m → j < n → grid m n f !! (i * n + j) = Some (f i j).
Proof.
  intros Hi Hj. unfold grid. rewrite lookup_concat_blocks; [|intros; by rewrite length_fmap, length_seq|done..].
  rewrite list_lookup_fmap, lookup_seq_lt by done. done.
Qed.

Lemma grid_ext {X} m n (f g : nat → nat → X) : (∀ i j, i < m → j < n → f i j = g i j) → grid m n f = grid m n g.
Proof.
  intros H. unfold grid. f_equal. apply list_fmap_ext. intros i a [-> Ha]%lookup_seq.
  apply list_fmap_ext. intros j b [-> Hb]%lookup_seq. by apply H.
Qed.

(** A list with the elements of a grid is that grid. *)
Lemma grid_unique {X} m n (f : nat → nat → X) l : length l = m * n →
  (∀ i j, i < m → j < n → l !! (i * n + j) = Some (f i j)) → l = grid m n f.
Proof.
  intros Hl H. apply list_eq. intros k. destruct (decide (k < m * n)) as [Hk|Hk].
  - assert (n ≠ 0) by nia. pose proof (Nat.div_mod_eq k n) as He. pose proof (Nat.mod_upper_bound k n ltac:(done)).
    assert (k / n < m) by (apply Nat.Div0.div_lt_upper_bound; nia).
    replace k with (k / n * n + k mod n) by lia. by rewrite H, lookup_grid.
  - rewrite !lookup_ge_None_2; rewrite ?length_grid; done || lia.
Qed.

Lemma grid_eta {X} (dflt : X) m n l : length l = m * n → l = grid m n (λ i j, nth (i * n + j) l dflt).
Proof.
  intros Hl. apply grid_unique; [done|]. intros i j Hi Hj.
  destruct (lookup_lt_is_Some_2 l (i * n + j) ltac:(nia)) as [x Hx]. rewrite Hx. f_equal. by rewrite (nth_lookup_Some _ _ _ _ Hx).
Qed.

(** Writing the elements of one row *)
Lemma row_loop {E X} n base (body : list X → nat → res E (list X)) (f : nat → X) :
  (∀ l j, j < n → body l j = put l (base + j) (f j)) → fills (for_range n body) base (f <$> List.seq 0 n).
Proof.
  intros Hb. replace (f <$> List.seq 0 n) with (concat ((λ j, [f j]) <$> List.seq 0 n)).
  - apply (fills_for n 1); [done|]. intros j Hj out Hout. rewrite Hb by done.
    rewrite Nat.mul_1_r in *. exact (fills_put (base + j) (f j) out Hout).
  - induction (List.seq 0 n) as [|x l IH]; [done|]. simpl. f_equal. exact IH.
Qed.

(** Writing a whole matrix, row by row *)
Lemma grid_loop {E X} m n (body : nat → list X → nat → res E (list X)) (f : nat → nat → X) l :
  length l = m * n → (∀ l i j, i < m → j < n → body i l j = put l (i * n + j) (f i j)) →
  for_range m (λ l i, for_range n (body i) l) l = Ok (grid m n f).
Proof.
  intros Hl Hb. assert (fills (for_range m (λ l i, for_range n (body i) l)) 0 (grid m n f)) as H.
  - apply (fills_for m n); [intros; by rewrite length_fmap, length_seq|]. intros i Hi.
    apply row_loop. intros l' j Hj. by apply Hb.
  - rewrite (H l) by (rewrite length_grid; lia). simpl. rewrite length_grid, drop_ge by lia. by rewrite app_nil_r.
Qed.

(** Writing a matrix column by column *)
Lemma grid_loop_cols {E X} m n (body : nat → list X → nat → res E (list X)) (f : nat → nat → X) l :
  length l = m * n → (∀ l i j, i < m → j < n → body j l i = put l (i * n + j) (f i j)) →
  for_range n (λ l j, for_range m (body j) l) l = Ok (grid m n f).
Proof.
  intros Hl Hb.
  pose (P := λ c r (l : list X), length l = m * n ∧
    ∀ i j, i < m → j < n → (j < c ∨ j = c ∧ i < r) → l !! (i * n + j) = Some (f i j)).
  assert (ends (P n 0) (λ _ : E, False) (for_range n (λ l j, for_range m (body j) l) l)) as H.
  { apply (ends_range (λ c, P c 0)); [split; [done|lia]|]. intros l1 j Hj H1.
    eapply ends_impl.
    - apply (ends_range (λ r, P j r)); [exact H1|]. intros l2 i Hi [Hl2 H2]. rewrite Hb by done.
      unfold put. rewrite (proj2 (Nat.ltb_lt _ _)) by nia. split; [by rewrite length_insert|].
      intros i' j' Hi' Hj' Hc. destruct (decide (i' = i ∧ j' = j)) as [[-> ->]|Hne].
      + rewrite list_lookup_insert_eq by nia. done.
      + rewrite list_lookup_insert_ne by (intros [??]%cell_unique; lia). apply H2; [done|done|]. lia.
    - intros l2 [Hl2 H2]. split; [done|]. intros i' j' Hi' Hj' Hc. apply H2; [done|done|]. lia. }
  destruct (for_range _ _ l) as [l'|e|]; [|done..]. destruct H as [Hl' H]. f_equal. apply grid_unique; [done|].
  intros i j Hi Hj. apply H; lia.
Qed.

(** Updating every element of a matrix in place *)
Lemma grid_update {E X} m n (body : nat → list X → nat → res E (list X)) (f : nat → nat → X) (g : nat → nat → X → X) :
  (∀ l i j x, i < m → j < n → l !! (i * n + j) = Some x → body i l j = put l (i * n + j) (g i j x)) →
  for_range m (λ l i, for_range n (body i) l) (grid m n f) = Ok (grid m n (λ i j, g i j (f i j))).
Proof.
  intros Hb.
  pose (F := λ r c i j, if decide (i < r ∨ i = r ∧ j < c) then g i j (f i j) else f i j).
  assert (∀ r c, r < m → c < n → <[r * n + c := g r c (f r c)]> (grid m n (F r c)) = grid m n (F r (S c))) as Hins.
  { intros r c Hr Hc. apply grid_unique; [by rewrite length_insert, length_grid|]. intros i j Hi Hj.
    destruct (decide (i = r ∧ j = c)) as [[-> ->]|Hne].
    - rewrite list_lookup_insert_eq by (rewrite length_grid; nia). unfold F. by rewrite decide_True by lia.
    - rewrite list_lookup_insert_ne by (intros [??]%cell_unique; lia). rewrite lookup_grid by done.
      unfold F. repeat case_decide; done || lia. }
  rewrite (grid_ext m n f (F 0 0)) by (intros i j _ _; unfold F; by rewrite decide_False by lia).
  rewrite (for_range_inv m _ (λ r, grid m n (F r 0))).
  - f_equal. apply grid_ext. intros i j Hi Hj. unfold F. by rewrite decide_True by lia.
  - intros r Hr. rewrite (for_range_inv n _ (λ c, grid m n (F r c))).
    + f_equal. apply grid_ext. intros i j Hi Hj. unfold F. repeat case_decide; done || lia.
    + intros c Hc. rewrite (Hb _ r c (f r c)) by (try done; rewrite lookup_grid by done; unfold F; by rewrite decide_False by lia).
      unfold put. rewrite length_grid, (proj2 (Nat.ltb_lt _ _)) by nia. by rewrite Hins.
Qed.
