(* ===== verification/XReal.v ===== *)
(** * Real numbers with infinities and NaN, and finite sums of reals

    What the files that run kernels on exact numbers share: sums over ranges, and
    the reals extended by the special values of IEEE arithmetic, without rounding. *)

From Stdlib Require Import ZArith Reals Lra Lia.
From stdpp Require Import base list.

Open Scope R_scope.

(** ** Finite sums *)

Fixpoint psum (n : nat) (f : nat → R) : R :=
  match n with O => 0 | S n => psum n f + f n end.

Lemma psum_ext n f g : (∀ i, (i < n)%nat → f i = g i) → psum n f = psum n g.
Proof. induction n as [|n IH]; intros H; simpl; [done|]. rewrite IH, H by (intros; try apply H; lia). done. Qed.

Lemma psum_zero n f : (∀ i, (i < n)%nat → f i = 0) → psum n f = 0.
Proof. induction n as [|n IH]; intros H; simpl; [done|]. rewrite IH, H by (intros; try apply H; lia). lra. Qed.

Lemma psum_add n f g : psum n (λ i, f i + g i) = psum n f + psum n g.
Proof. induction n as [|n IH]; simpl; [lra|]. rewrite IH. lra. Qed.

Lemma psum_sub n f g : psum n (λ i, f i - g i) = psum n f - psum n g.
Proof. induction n as [|n IH]; simpl; [lra|]. rewrite IH. lra. Qed.

Lemma psum_mul_l n c f : psum n (λ i, c * f i) = c * psum n f.
Proof. induction n as [|n IH]; simpl; [lra|]. rewrite IH. lra. Qed.

Lemma psum_mul_r n c f : psum n (λ i, f i * c) = psum n f * c.
Proof. induction n as [|n IH]; simpl; [lra|]. rewrite IH. lra. Qed.

Lemma psum_swap n m (f : nat → nat → R) :
  psum n (λ i, psum m (λ j, f i j)) = psum m (λ j, psum n (λ i, f i j)).
Proof.
  induction n as [|n IH]; simpl; [symmetry; by apply psum_zero|]. by rewrite IH, <- psum_add.
Qed.

Lemma psum_split n m f : psum (n + m) f = psum n f + psum m (λ i, f (n + i)%nat).
Proof.
  induction m as [|m IH]; simpl; [rewrite Nat.add_0_r; lra|]. rewrite Nat.add_succ_r. simpl. rewrite IH. lra.
Qed.

(** A sum whose terms vanish from [n] on *)
Lemma psum_cut n m f : (n ≤ m)%nat → (∀ i, (n ≤ i < m)%nat → f i = 0) → psum m f = psum n f.
Proof.
  intros Hn H. replace m with (n + (m - n))%nat by lia. rewrite psum_split, (psum_zero (m - n)); [lra|].
  intros i Hi. apply H. lia.
Qed.

(** A sum with one term *)
Lemma psum_one n k f : (k < n)%nat → (∀ i, (i < n)%nat → i ≠ k → f i = 0) → psum n f = f k.
Proof.
  intros Hk H. rewrite (psum_cut (S k) n) by (lia || (intros; apply H; lia)). simpl.
  rewrite psum_zero by (intros; apply H; lia). lra.
Qed.

Lemma psum_nonneg n f : (∀ i, (i < n)%nat → 0 <= f i) → 0 <= psum n f.
Proof.
  induction n as [|n IH]; intros H; simpl; [lra|].
  assert (0 <= psum n f) by (apply IH; intros; apply H; lia). assert (0 <= f n) by (apply H; lia). lra.
Qed.

(** A sum of squares is zero only if all terms are. *)
Lemma psum_squares_zero n f : psum n (λ i, f i * f i) = 0 → ∀ i, (i < n)%nat → f i = 0.
Proof.
  induction n as [|n IH]; intros H i Hi; [lia|]. simpl in H.
  assert (0 <= psum n (λ i, f i * f i)) by (apply psum_nonneg; intros; nra).
  destruct (decide (i = n)) as [->|]; [nra|]. apply IH; [nra|lia].
Qed.

Lemma psum_le n f g : (∀ i, (i < n)%nat → f i <= g i) → psum n f <= psum n g.
Proof.
  induction n as [|n IH]; intros H; simpl; [lra|].
  assert (psum n f <= psum n g) by (apply IH; intros; apply H; lia). assert (f n <= g n) by (apply H; lia). lra.
Qed.

Lemma psum_abs n f : Rabs (psum n f) <= psum n (λ i, Rabs (f i)).
Proof.
  induction n as [|n IH]; simpl; [rewrite Rabs_R0; lra|]. pose proof (Rabs_triang (psum n f) (f n)). lra.
Qed.

(** ** Extended reals *)
Inductive xreal := FIN (r : R) | PINF | NINF | NAN.

Definition Rgtb (x y : R) : bool := if Rlt_dec y x then true else false.
Definition Reqb (x y : R) : bool := if Req_EM_T x y then true else false.

Definition x_add (x y : xreal) : xreal :=
  match x, y with
  | NAN, _ | _, NAN => NAN
  | FIN a, FIN b => FIN (a + b)
  | PINF, NINF | NINF, PINF => NAN
  | PINF, _ | _, PINF => PINF
  | NINF, _ | _, NINF => NINF
  end.
Definition x_neg (x : xreal) : xreal :=
  match x with FIN a => FIN (- a) | PINF => NINF | NINF => PINF | NAN => NAN end.
Definition x_sub (x y : xreal) : xreal := x_add x (x_neg y).
(** An infinity of the sign of [x], NaN at zero. *)
Definition x_inf (x : R) : xreal :=
  if Rgtb x 0 then PINF else if Rgtb 0 x then NINF else NAN.
Definition x_mul (x y : xreal) : xreal :=
  match x, y with
  | NAN, _ | _, NAN => NAN
  | FIN a, FIN b => FIN (a * b)
  | PINF, FIN a | FIN a, PINF => x_inf a
  | NINF, FIN a | FIN a, NINF => x_inf (- a)
  | PINF, PINF | NINF, NINF => PINF
  | PINF, NINF | NINF, PINF => NINF
  end.
(** The zero divisor is the positive zero. *)
Definition x_div (x y : xreal) : xreal :=
  match x, y with
  | NAN, _ | _, NAN => NAN
  | FIN a, FIN b => if Reqb b 0 then x_inf a else FIN (a / b)
  | FIN _, _ => FIN 0
  | PINF, FIN b => if Rgtb 0 b then NINF else PINF
  | NINF, FIN b => if Rgtb 0 b then PINF else NINF
  | _, _ => NAN
  end.
Definition x_sqrt (x : xreal) : xreal :=
  match x with
  | FIN a => if Rgtb 0 a then NAN else FIN (R_sqrt.sqrt a)
  | PINF => PINF
  | NINF | NAN => NAN
  end.
Definition x_exp (x : xreal) : xreal :=
  match x with FIN a => FIN (Rtrigo_def.exp a) | PINF => PINF | NINF => FIN 0 | NAN => NAN end.
Definition x_gt (x y : xreal) : bool :=
  match x, y with
  | NAN, _ | _, NAN => false
  | FIN a, FIN b => Rgtb a b
  | PINF, PINF => false
  | PINF, _ => true
  | _, NINF => match x with NINF => false | _ => true end
  | _, _ => false
  end.
Definition x_eq (x y : xreal) : bool :=
  match x, y with
  | FIN a, FIN b => Reqb a b
  | PINF, PINF | NINF, NINF => true
  | _, _ => false
  end.
Definition x_max (x y : xreal) : xreal :=
  match x, y with
  | NAN, z | z, NAN => z
  | _, _ => if x_gt x y then x else y
  end.

(** ** Lemmas on the comparisons *)
Lemma Rgtb_true (x y : R) : (y < x)%R → Rgtb x y = true.
Proof. intros. unfold Rgtb. by destruct (Rlt_dec y x). Qed.
Lemma Rgtb_false (x y : R) : (x <= y)%R → Rgtb x y = false.
Proof. intros. unfold Rgtb. destruct (Rlt_dec y x); [lra|done]. Qed.
Lemma Reqb_true (x y : R) : x = y → Reqb x y = true.
Proof. intros. unfold Reqb. by destruct (Req_EM_T x y). Qed.
Lemma Reqb_false (x y : R) : x ≠ y → Reqb x y = false.
Proof. intros. unfold Reqb. by destruct (Req_EM_T x y). Qed.

(** ** The integer part *)
Lemma Int_part_bounds a : IZR (Int_part a) <= a < IZR (Int_part a) + 1.
Proof. destruct (base_Int_part a). lra. Qed.

Lemma Int_part_int z : Int_part (IZR z) = z.
Proof.
  destruct (Int_part_bounds (IZR z)) as [H1 H2]. rewrite <- plus_IZR in H2. apply le_IZR in H1. apply lt_IZR in H2. lia.
Qed.

(** ** Sums of lists *)
Definition rsum (l : list R) : R := foldr Rplus 0 l.

Lemma rsum_cons x l : rsum (x :: l) = x + rsum l.
Proof. done. Qed.

Lemma rsum_app l1 l2 : rsum (l1 ++ l2) = rsum l1 + rsum l2.
Proof. unfold rsum. induction l1 as [|x l IH]; simpl; [lra|]. rewrite IH. lra. Qed.
