(* ===== verification/FOps.v ===== *)
(** * Floating-point operations as an interface

    What the numeric kernels modelled from here on use of [f32]: arithmetic, the
    functions of the mathematical library, comparisons and literals.  The kernels are
    definitions over any such type; [FOpsReal] is the instance of the extended reals. *)

From Stdlib Require Import ZArith QArith.
From stdpp Require Import base list.
From S2P Require Import Prelude.

Class FOps (X : Type) := {
  k_lit : Q → X;  (** a decimal literal *)
  k_of_Z : Z → X;  (** [as f32] *)
  k_inf : X; k_neg_inf : X; k_nan : X; k_pi : X; k_epsilon : X;
  k_add : X → X → X; k_sub : X → X → X; k_mul : X → X → X; k_div : X → X → X;
  k_max : X → X → X; k_min : X → X → X; k_powf : X → X → X; k_powi : X → Z → X;
  k_neg : X → X; k_abs : X → X; k_sqrt : X → X; k_exp : X → X; k_ln : X → X;
  k_tanh : X → X; k_sin : X → X; k_cos : X → X;
  k_gt : X → X → bool; k_eq : X → X → bool; k_is_finite : X → bool; k_is_nan : X → bool
}.

Declare Scope fops_scope.
Delimit Scope fops_scope with F.
Infix "⊕" := k_add (at level 50, left associativity) : fops_scope.
Infix "⊖" := k_sub (at level 50, left associativity) : fops_scope.
Infix "⊗" := k_mul (at level 40, left associativity) : fops_scope.
Infix "⊘" := k_div (at level 40, left associativity) : fops_scope.
Open Scope fops_scope.

Section fops.
Context {X : Type} {FO : FOps X}.

Definition k0 : X := k_of_Z 0.
Definition k1 : X := k_of_Z 1.
Definition k_of_nat (n : nat) : X := k_of_Z (Z.of_nat n).

(** [x >= y], [x <= y] and [x != y] *)
Definition k_ge (x y : X) : bool := k_gt x y || k_eq x y.
Definition k_le (x y : X) : bool := k_ge y x.
Definition k_ne (x y : X) : bool := negb (k_eq x y).

(** [f32::clamp]: NaN stays; the bounds are ordered. *)
Definition k_clamp (x lo hi : X) : X := if k_gt lo x then lo else if k_gt x hi then hi else x.

(** [iter().sum()], from the left *)
Definition k_sum (l : list X) : X := foldl k_add k0 l.
End fops.
