(* ===== verification/FOpsReal.v ===== *)
(** * The extended reals as floating-point numbers

    The instance of [FOps] in which arithmetic is exact and the special values follow
    IEEE 754, with the equations that evaluate it on finite numbers. *)

From Stdlib Require Import ZArith QArith Qreals Reals Lra Lia.
From stdpp Require Import base list.
From S2P Require Import Prelude XReal FOps.

Open Scope R_scope.

(** Whether a real number is an integer *)
Definition is_integer (b : R) : bool := Reqb (IZR (Int_part b)) b.

Definition is_odd (b : R) : bool := is_integer b && Z.odd (Int_part b).

(** [powi], and [powf] with the special cases of C's [pow] *)
Definition x_powi (x : xreal) (n : Z) : xreal :=
  if (n =? 0)%Z then FIN 1
  else match x with
  | FIN a => if Reqb a 0 && (n <? 0)%Z then PINF else FIN (powerRZ a n)
  | PINF => if (n <? 0)%Z then FIN 0 else PINF
  | NINF => if (n <? 0)%Z then FIN 0 else if Z.odd n then NINF else PINF
  | NAN => NAN
  end.

Definition x_powf (x y : xreal) : xreal :=
  if x_eq y (FIN 0) || x_eq x (FIN 1) then FIN 1
  else match x, y with
  | NAN, _ | _, NAN => NAN
  | FIN a, PINF => if Reqb (Rabs a) 1 then FIN 1 else if Rgtb (Rabs a) 1 then PINF else FIN 0
  | FIN a, NINF => if Reqb (Rabs a) 1 then FIN 1 else if Rgtb (Rabs a) 1 then FIN 0 else PINF
  | PINF, PINF | NINF, PINF => PINF
  | PINF, NINF | NINF, NINF => FIN 0
  | PINF, FIN b => if Rgtb b 0 then PINF else FIN 0
  | NINF, FIN b => if Rgtb b 0 then (if is_odd b then NINF else PINF) else FIN 0
  | FIN a, FIN b =>
      if is_integer b then x_powi x (Int_part b)
      else if Rgtb 0 a then NAN
      else if Reqb a 0 then (if Rgtb b 0 then FIN 0 else PINF)
      else FIN (Rpower a b)
  end.

Definition x_lift (f : R → R) (neg pos : xreal) (x : xreal) : xreal :=
  match x with FIN a => FIN (f a) | NINF => neg | PINF => pos | NAN => NAN end.

Definition x_ln (x : xreal) : xreal :=
  match x with
  | FIN a => if Rgtb a 0 then FIN (ln a) else if Reqb a 0 then NINF else NAN
  | PINF => PINF
  | NINF | NAN => NAN
  end.

Definition x_minimum (x y : xreal) : xreal :=
  match x, y with
  | NAN, z | z, NAN => z
  | _, _ => if x_gt x y then y else x
  end.

#[export] Instance xreal_fops : FOps xreal := {|
  k_lit q := FIN (Q2R q); k_of_Z z := FIN (IZR z);
  k_inf := PINF; k_neg_inf := NINF; k_nan := NAN; k_pi := FIN PI; k_epsilon := FIN (/ 2 ^ 23);
  k_add := x_add; k_sub := x_sub; k_mul := x_mul; k_div := x_div;
  k_max := x_max; k_min := x_minimum; k_powf := x_powf; k_powi := x_powi;
  k_neg := x_neg; k_abs := x_lift Rabs PINF PINF; k_sqrt := x_sqrt; k_exp := x_exp; k_ln := x_ln;
  k_tanh := x_lift tanh (FIN (-1)) (FIN 1); k_sin := x_lift sin NAN NAN; k_cos := x_lift cos NAN NAN;
  k_gt := x_gt; k_eq := x_eq;
  k_is_finite x := match x with FIN _ => true | _ => false end;
  k_is_nan x := match x with NAN => true | _ => false end
|}.

(** ** Finite numbers *)

Lemma fin_add a b : k_add (FIN a) (FIN b) = FIN (a + b).
Proof. done. Qed.
Lemma fin_sub a b : k_sub (FIN a) (FIN b) = FIN (a - b).
Proof. done. Qed.
Lemma fin_mul a b : k_mul (FIN a) (FIN b) = FIN (a * b).
Proof. done. Qed.
Lemma fin_neg a : k_neg (FIN a) = FIN (- a).
Proof. done. Qed.
Lemma fin_abs a : k_abs (FIN a) = FIN (Rabs a).
Proof. done. Qed.
Lemma fin_exp a : k_exp (FIN a) = FIN (exp a).
Proof. done. Qed.
Lemma fin_tanh a : k_tanh (FIN a) = FIN (tanh a).
Proof. done. Qed.
Lemma fin_lit q : k_lit q = FIN (Q2R q).
Proof. done. Qed.
Lemma fin_of_Z z : k_of_Z z = FIN (IZR z).
Proof. done. Qed.
Lemma fin_of_nat n : k_of_nat n = FIN (INR n).
Proof. unfold k_of_nat. by rewrite fin_of_Z, INR_IZR_INZ. Qed.
Lemma fin_0 : k0 = FIN 0.
Proof. done. Qed.
Lemma fin_1 : k1 = FIN 1.
Proof. done. Qed.
Lemma fin_pi : k_pi = FIN PI.
Proof. done. Qed.
Lemma fin_gt a b : k_gt (FIN a) (FIN b) = Rgtb a b.
Proof. done. Qed.
Lemma fin_eq a b : k_eq (FIN a) (FIN b) = Reqb a b.
Proof. done. Qed.
Lemma fin_div a b : b ≠ 0 → k_div (FIN a) (FIN b) = FIN (a / b).
Proof. intros. simpl. by rewrite Reqb_false. Qed.
Lemma fin_sqrt a : 0 <= a → k_sqrt (FIN a) = FIN (sqrt a).
Proof. intros. simpl. by rewrite Rgtb_false. Qed.
Lemma fin_ln a : 0 < a → k_ln (FIN a) = FIN (ln a).
Proof. intros. simpl. by rewrite Rgtb_true. Qed.
Lemma fin_max a b : k_max (FIN a) (FIN b) = FIN (Rmax a b).
Proof.
  simpl. unfold Rgtb, Rmax. destruct (Rlt_dec b a), (Rle_dec a b); try done; f_equal; lra.
Qed.

Create HintDb fin.
#[export] Hint Rewrite fin_add fin_sub fin_mul fin_neg fin_abs fin_exp fin_tanh fin_lit fin_of_Z fin_of_nat fin_0 fin_1
  fin_pi fin_gt fin_eq fin_max : fin.

(** Evaluation on finite numbers, with divisors, square roots and logarithms whose
    side conditions [lra] proves *)
Ltac fin := repeat (autorewrite with fin; rewrite ?fin_div by lra; rewrite ?fin_sqrt by lra; rewrite ?fin_ln by lra).

(** Sums of finite numbers *)
Lemma fin_sum_start (l : list R) a : foldl k_add (FIN a) (FIN <$> l) = FIN (a + foldr Rplus 0 l).
Proof.
  revert a. induction l as [|x l IH]; intros a; simpl; [by rewrite Rplus_0_r|]. rewrite IH. f_equal. lra.
Qed.

Lemma fin_sum (l : list R) : k_sum (FIN <$> l) = FIN (foldr Rplus 0 l).
Proof. unfold k_sum. rewrite fin_0, fin_sum_start. f_equal. lra. Qed.

Lemma foldr_psum (f : nat → R) n : foldr Rplus 0 (f <$> List.seq 0 n) = psum n f.
Proof.
  induction n as [|n IH]; [done|]. rewrite List.seq_S, fmap_app, foldr_app. simpl. rewrite Rplus_0_r, <- IH.
  generalize (f n). clear. induction (f <$> List.seq 0 n) as [|x l IH]; intros c; simpl; [lra|]. rewrite IH. lra.
Qed.

(** ** Powers *)

Lemma powerRZ_nat a n : powerRZ a (Z.of_nat n) = a ^ n.
Proof. symmetry. apply pow_powerRZ. Qed.

Lemma fin_powi a n : k_powi (FIN a) (Z.of_nat n) = FIN (a ^ n).
Proof.
  cbn [k_powi xreal_fops]. unfold x_powi. destruct (Z.eqb_spec (Z.of_nat n) 0) as [Hn|Hn].
  - by replace n with O by lia.
  - rewrite (proj2 (Z.ltb_ge _ _)), andb_false_r, powerRZ_nat by lia. done.
Qed.

Lemma fin_powf a n : k_powf (FIN a) (FIN (INR n)) = FIN (a ^ n).
Proof.
  rewrite INR_IZR_INZ. cbn [k_powf xreal_fops]. unfold x_powf. cbn [x_eq].
  destruct (Reqb (IZR (Z.of_nat n)) 0) eqn:H0; [|destruct (Reqb a 1) eqn:H1]; cbn [orb].
  - unfold Reqb in H0. destruct (Req_EM_T _ _) as [Hn%eq_IZR|]; [|done]. by replace n with O by lia.
  - unfold Reqb in H1. destruct (Req_EM_T _ _) as [->|]; [|done]. by rewrite pow1.
  - unfold is_integer. rewrite Int_part_int, Reqb_true by done. apply fin_powi.
Qed.

(** The hint-driven [fin] rewrites powers with natural exponents too. *)
#[export] Hint Rewrite fin_powi fin_powf : fin.
