(* ===== verification/Lifetime.v ===== *)
(** * Tensor lifetimes (crates/rustorch-planner/src/lifetime.rs)

    The [def]/[last_use] interval of every tensor of an execution trace, and
    the table that records it.  [TensorId] is a [Z] (a [u64] the planner never
    inspects), the table a finite map (the code's [HashMap]). *)

From Stdlib Require Import ZArith Lia.
From stdpp Require Import base list gmap sorting.
From S2P Require Import Prelude.

(** [struct Interval] *)
Record Interval := mkInterval {
  iv_def : Z;       (* u32 *)
  iv_last_use : Z;  (* u32 *)
  iv_bytes : Z;     (* u64 *)
  iv_align : Z      (* u32 *)
}.

#[export] Instance Interval_eq_dec : EqDecision Interval.
Proof. solve_decision. Defined.

(** [Interval::duration], on [u32]. *)
Definition Interval_duration (iv : Interval) : Z :=
  wrap 32 (wrap 32 (iv_last_use iv - iv_def iv) + 1).

(** [Interval::overlaps]: closed intervals that meet. *)
Definition Interval_overlaps (a b : Interval) : bool :=
  (iv_def a <=? iv_last_use b) && (iv_def b <=? iv_last_use a).

(** [struct LifetimeTable] *)
Record LifetimeTable := mkLifetimeTable { intervals : gmap Z Interval }.

(** [LifetimeTable::new] *)
Definition LifetimeTable_new : LifetimeTable := mkLifetimeTable ∅.

(** [LifetimeTable::record_def_with_align] *)
Definition record_def_with_align (t : LifetimeTable) (id step bytes align : Z)
    : LifetimeTable :=
  let align := Z.max align 1 in
  match intervals t !! id with
  | Some iv =>
      mkLifetimeTable (<[id := mkInterval (Z.min (iv_def iv) step)
                                 (Z.max (iv_last_use iv) step)
                                 (Z.max (iv_bytes iv) bytes)
                                 (Z.max (iv_align iv) align)]> (intervals t))
  | None => mkLifetimeTable (<[id := mkInterval step step bytes align]> (intervals t))
  end.

(** [LifetimeTable::record_def] *)
Definition record_def (t : LifetimeTable) (id step bytes : Z) : LifetimeTable :=
  record_def_with_align t id step bytes 1.

(** [enum LifetimeError] *)
Inductive LifetimeError := UseBeforeDef (id step : Z).

(** [LifetimeTable::record_use]: the new table and the returned [Result]. *)
Definition record_use (t : LifetimeTable) (id step : Z)
    : LifetimeTable * res LifetimeError unit :=
  match intervals t !! id with
  | Some iv =>
      (mkLifetimeTable (<[id := mkInterval (iv_def iv) (Z.max (iv_last_use iv) step)
                                  (iv_bytes iv) (iv_align iv)]> (intervals t)), Ok tt)
  | None => (t, Err (UseBeforeDef id step))
  end.

(** [LifetimeTable::get], [::len], [::is_empty], [::naive_total_bytes] *)
Definition LifetimeTable_get (t : LifetimeTable) (id : Z) : option Interval :=
  intervals t !! id.
Definition LifetimeTable_iter (t : LifetimeTable) : list (Z * Interval) :=
  map_to_list (intervals t).
Definition LifetimeTable_len (t : LifetimeTable) : nat := size (intervals t).
Definition LifetimeTable_is_empty (t : LifetimeTable) : bool :=
  bool_decide (intervals t = ∅).
Definition naive_total_bytes (t : LifetimeTable) : Z :=
  sum_u 64 ((λ e, iv_bytes e.2) <$> LifetimeTable_iter t).

(** ** Traces of recorded events, for the statements *)
Inductive event :=
  | EDef (id step bytes align : Z)
  | EUse (id step : Z).

Definition record (t : LifetimeTable) (e : event) : LifetimeTable :=
  match e with
  | EDef id step bytes align => record_def_with_align t id step bytes align
  | EUse id step => (record_use t id step).1
  end.

Definition record_all (evs : list event) : LifetimeTable :=
  foldl record LifetimeTable_new evs.

(** Well-formed intervals and tables. *)
Definition Interval_wf (iv : Interval) : Prop :=
  uint 32 (iv_def iv) ∧ uint 32 (iv_last_use iv) ∧ iv_def iv ≤ iv_last_use iv
  ∧ uint 64 (iv_bytes iv) ∧ uint 32 (iv_align iv) ∧ 1 ≤ iv_align iv.

Definition table_wf (t : LifetimeTable) : Prop :=
  ∀ id iv, intervals t !! id = Some iv → Interval_wf iv.

(** ** Lemmas *)

Lemma Interval_overlaps_sym a b : Interval_overlaps a b = Interval_overlaps b a.
Proof. unfold Interval_overlaps. apply andb_comm. Qed.

Lemma Interval_overlaps_false a b :
  Interval_overlaps a b = false ↔
  iv_last_use a < iv_def b ∨ iv_last_use b < iv_def a.
Proof. unfold Interval_overlaps. rewrite andb_false_iff, !Z.leb_gt. lia. Qed.

Lemma Interval_overlaps_true a b :
  Interval_overlaps a b = true ↔
  iv_def a ≤ iv_last_use b ∧ iv_def b ≤ iv_last_use a.
Proof. unfold Interval_overlaps. rewrite andb_true_iff, !Z.leb_le. lia. Qed.

(** Two intervals overlap iff some time-step is in both. *)
Lemma Interval_overlaps_step a b :
  iv_def a ≤ iv_last_use a → iv_def b ≤ iv_last_use b →
  Interval_overlaps a b = true ↔
  ∃ s, iv_def a ≤ s ≤ iv_last_use a ∧ iv_def b ≤ s ≤ iv_last_use b.
Proof.
  intros. rewrite Interval_overlaps_true. split; [|intros [s ?]; lia].
  intros. exists (Z.max (iv_def a) (iv_def b)). lia.
Qed.

Lemma record_def_with_align_lookup t id step bytes align id' :
  intervals (record_def_with_align t id step bytes align) !! id' =
  if decide (id = id') then
    Some match intervals t !! id with
         | Some iv => mkInterval (Z.min (iv_def iv) step) (Z.max (iv_last_use iv) step)
                        (Z.max (iv_bytes iv) bytes) (Z.max (iv_align iv) (Z.max align 1))
         | None => mkInterval step step bytes (Z.max align 1)
         end
  else intervals t !! id'.
Proof.
  unfold record_def_with_align.
  destruct (intervals t !! id) eqn:E; simpl; case_decide; simplify_map_eq; done.
Qed.

Lemma record_use_lookup t id step id' :
  intervals (record_use t id step).1 !! id' =
  if decide (id = id') then
    (λ iv, mkInterval (iv_def iv) (Z.max (iv_last_use iv) step) (iv_bytes iv) (iv_align iv))
      <$> intervals t !! id
  else intervals t !! id'.
Proof.
  unfold record_use.
  destruct (intervals t !! id) eqn:E; simpl; case_decide; simplify_map_eq; done.
Qed.

Lemma LifetimeTable_iter_elem t id iv :
  (id, iv) ∈ LifetimeTable_iter t ↔ intervals t !! id = Some iv.
Proof. apply elem_of_map_to_list. Qed.

Lemma LifetimeTable_iter_NoDup t : NoDup (LifetimeTable_iter t).*1.
Proof. apply NoDup_fst_map_to_list. Qed.

Lemma table_wf_new : table_wf LifetimeTable_new.
Proof. intros id iv H. simpl in H. by rewrite lookup_empty in H. Qed.

Lemma table_wf_record_def t id step bytes align :
  table_wf t → uint 32 step → uint 64 bytes → uint 32 align →
  table_wf (record_def_with_align t id step bytes align).
Proof.
  intros Hwf Hs Hb Ha id' iv. rewrite record_def_with_align_lookup.
  case_decide; [|apply Hwf]. intros [= <-].
  destruct (intervals t !! id) as [iv|] eqn:E.
  - apply Hwf in E. unfold Interval_wf, uint in *; simpl. lia.
  - unfold Interval_wf, uint in *; simpl. lia.
Qed.

Lemma table_wf_record_use t id step :
  table_wf t → uint 32 step → table_wf (record_use t id step).1.
Proof.
  intros Hwf Hs id' iv. rewrite record_use_lookup. case_decide; [|apply Hwf].
  intros (iv' & E & ->)%fmap_Some. apply Hwf in E.
  unfold Interval_wf, uint in *; simpl. lia.
Qed.

#[export] Hint Resolve table_wf_new table_wf_record_def table_wf_record_use : rt.

Definition event_wf (e : event) : Prop :=
  match e with
  | EDef _ step bytes align => uint 32 step ∧ uint 64 bytes ∧ uint 32 align
  | EUse _ step => uint 32 step
  end.

Lemma record_all_snoc evs e : record_all (evs ++ [e]) = record (record_all evs) e.
Proof. unfold record_all. by rewrite foldl_app. Qed.

Lemma record_all_wf evs : Forall event_wf evs → table_wf (record_all evs).
Proof.
  induction evs as [|e evs IH] using rev_ind; [eauto with rt|].
  rewrite Forall_app, Forall_singleton, record_all_snoc. intros [Hevs He].
  destruct e; simpl in *; [destruct He as (?&?&?)|]; eauto with rt.
Qed.

(** What the interval of [id] says of the trace: every definition of [id] and
    every use after the first definition lies inside, and both ends, the size
    and the alignment are attained by an event. *)
Definition is_def (id : Z) (e : event) : Prop :=
  match e with EDef id' _ _ _ => id' = id | EUse _ _ => False end.
Definition step_of (id : Z) (e : event) : option Z :=
  match e with
  | EDef id' s _ _ | EUse id' s => if decide (id' = id) then Some s else None
  end.

Definition envelope (evs : list event) (id : Z) (iv : Interval) : Prop :=
  (∃ b a, EDef id (iv_def iv) b a ∈ evs)
  ∧ (∃ e, e ∈ evs ∧ step_of id e = Some (iv_last_use iv))
  ∧ (∃ s a, EDef id s (iv_bytes iv) a ∈ evs)
  ∧ (∃ s b a, EDef id s b a ∈ evs ∧ iv_align iv = Z.max a 1)
  ∧ (∀ s b a, EDef id s b a ∈ evs →
       iv_def iv ≤ s ≤ iv_last_use iv ∧ b ≤ iv_bytes iv ∧ Z.max a 1 ≤ iv_align iv)
  ∧ (∀ pre s post, evs = pre ++ EUse id s :: post → Exists (is_def id) pre →
       s ≤ iv_last_use iv).

Lemma snoc_split {A} (pre post evs : list A) e x :
  evs ++ [x] = pre ++ e :: post →
  (∃ post', post = post' ++ [x] ∧ evs = pre ++ e :: post')
  ∨ (post = [] ∧ e = x ∧ evs = pre).
Proof.
  destruct post as [|y post _] using rev_ind.
  - intros [-> ->]%app_inj_tail. auto.
  - replace (pre ++ e :: post ++ [y]) with ((pre ++ e :: post) ++ [y])
      by (by rewrite <- app_assoc).
    intros [-> ->]%app_inj_tail. left. eauto.
Qed.

Lemma envelope_other evs e id iv :
  step_of id e = None → envelope evs id iv → envelope (evs ++ [e]) id iv.
Proof.
  intros He (Hd & Hl & Hb & Ha & Hdefs & Huses). unfold envelope. split_and!.
  - set_solver.
  - set_solver.
  - set_solver.
  - destruct Ha as (s & b & a & Hin & ->). exists s, b, a. set_solver.
  - intros s b a [Hin|Hin%list_elem_of_singleton]%elem_of_app; [eauto|]. subst e.
    simpl in He. by case_decide.
  - intros pre s post [(post' & -> & Hs)|(-> & <- & <-)]%snoc_split Hex; [eauto|].
    simpl in He. by case_decide.
Qed.

Lemma envelope_def evs id s b a iv :
  envelope evs id iv →
  envelope (evs ++ [EDef id s b a]) id
    (mkInterval (Z.min (iv_def iv) s) (Z.max (iv_last_use iv) s)
       (Z.max (iv_bytes iv) b) (Z.max (iv_align iv) (Z.max a 1))).
Proof.
  intros ((b0 & a0 & Hd) & (e & He & Hl) & (s1 & a1 & Hb) & (s2 & b2 & a2 & Ha & Eal)
          & Hdefs & Huses).
  unfold envelope; simpl. split_and!.
  - destruct (Z.min_spec (iv_def iv) s) as [[_ ->]|[_ ->]]; set_solver.
  - destruct (Z.max_spec (iv_last_use iv) s) as [[_ ->]|[_ ->]].
    + exists (EDef id s b a). split; [set_solver|]. simpl. by rewrite decide_True.
    + exists e. set_solver.
  - destruct (Z.max_spec (iv_bytes iv) b) as [[_ ->]|[_ ->]]; set_solver.
  - destruct (Z.max_spec (iv_align iv) (Z.max a 1)) as [[_ ->]|[_ ->]].
    + exists s, b, a. set_solver.
    + exists s2, b2, a2. set_solver.
  - intros s' b' a' [Hin%Hdefs|Hin%list_elem_of_singleton]%elem_of_app;
      simplify_eq; lia.
  - intros pre s' post [(post' & -> & Hs)|(-> & [=] & <-)]%snoc_split Hex.
    specialize (Huses _ _ _ Hs Hex). lia.
Qed.

Lemma envelope_def_fresh evs id s b a :
  ¬ Exists (is_def id) evs →
  envelope (evs ++ [EDef id s b a]) id (mkInterval s s b (Z.max a 1)).
Proof.
  rewrite Exists_exists. intros Hno.
  assert (∀ s b a, EDef id s b a ∉ evs) as Hno' by (intros ??? ?; apply Hno; by eexists).
  unfold envelope; simpl. split_and!.
  - set_solver.
  - exists (EDef id s b a). split; [set_solver|]. simpl. by rewrite decide_True.
  - set_solver.
  - exists s, b, a. set_solver.
  - intros s' b' a' [Hin|Hin%list_elem_of_singleton]%elem_of_app;
      [by apply Hno' in Hin|]. simplify_eq. lia.
  - intros pre s' post [(post' & -> & ->)|(-> & [=] & <-)]%snoc_split Hex.
    exfalso. apply Hno. apply Exists_exists in Hex as (e & ? & ?). exists e. set_solver.
Qed.

Lemma envelope_use evs id s iv :
  envelope evs id iv →
  envelope (evs ++ [EUse id s]) id
    (mkInterval (iv_def iv) (Z.max (iv_last_use iv) s) (iv_bytes iv) (iv_align iv)).
Proof.
  intros ((b0 & a0 & Hd) & (e & He & Hl) & (s1 & a1 & Hb) & (s2 & b2 & a2 & Ha & Eal)
          & Hdefs & Huses).
  unfold envelope; simpl. split_and!.
  - set_solver.
  - destruct (Z.max_spec (iv_last_use iv) s) as [[_ ->]|[_ ->]].
    + exists (EUse id s). split; [set_solver|]. simpl. by rewrite decide_True.
    + exists e. set_solver.
  - set_solver.
  - exists s2, b2, a2. set_solver.
  - intros s' b' a' [Hin%Hdefs|Hin%list_elem_of_singleton]%elem_of_app;
      simplify_eq; lia.
  - intros pre s' post [(post' & -> & Hs)|(-> & [= ->] & <-)]%snoc_split Hex; [|lia].
    specialize (Huses _ _ _ Hs Hex). lia.
Qed.

Lemma record_all_spec evs id :
  match LifetimeTable_get (record_all evs) id with
  | Some iv => envelope evs id iv
  | None => ¬ Exists (is_def id) evs
  end.
Proof.
  unfold LifetimeTable_get. induction evs as [|e evs IH] using rev_ind.
  { simpl. rewrite lookup_empty. by intros ?%Exists_nil. }
  rewrite record_all_snoc. destruct e as [id' s b a|id' s]; simpl.
  - rewrite record_def_with_align_lookup. case_decide as Hid; subst.
    + destruct (intervals (record_all evs) !! id) as [iv|].
      * by apply envelope_def.
      * by apply envelope_def_fresh.
    + destruct (intervals (record_all evs) !! id) as [iv|].
      * apply envelope_other; [|done]. simpl. by rewrite decide_False.
      * rewrite Exists_app, Exists_cons, Exists_nil. simpl. naive_solver.
  - rewrite record_use_lookup. case_decide as Hid; subst.
    + destruct (intervals (record_all evs) !! id) as [iv|]; simpl.
      * by apply envelope_use.
      * rewrite Exists_app, Exists_cons, Exists_nil. simpl. naive_solver.
    + destruct (intervals (record_all evs) !! id) as [iv|].
      * apply envelope_other; [|done]. simpl. by rewrite decide_False.
      * rewrite Exists_app, Exists_cons, Exists_nil. simpl. naive_solver.
Qed.

(** ** Properties *)

(** after any trace of recorded definitions and uses, the table is
    well-formed, a tensor is in it exactly when the trace defines it, and its
    interval is the exact envelope of its events: the definition step, the last
    use, the size and the alignment are attained by events of the trace and
    bound every definition and every use that follows the first definition; a
    further use fails with [UseBeforeDef] exactly for a tensor never defined. *)
Theorem lifetime_envelope evs id s :
  Forall event_wf evs →
  table_wf (record_all evs)
  ∧ match LifetimeTable_get (record_all evs) id with
    | Some iv => envelope evs id iv ∧ (record_use (record_all evs) id s).2 = Ok tt
    | None => ¬ Exists (is_def id) evs
              ∧ record_use (record_all evs) id s = (record_all evs, Err (UseBeforeDef id s))
    end.
Proof.
  intros Hwf. split; [by apply record_all_wf|].
  pose proof (record_all_spec evs id) as Hspec.
  unfold LifetimeTable_get, record_use in *.
  by destruct (intervals (record_all evs) !! id).
Qed.

Lemma lifetime_envelope_witness :
  let evs := [EDef 7 2 100 16; EUse 7 5; EUse 8 1] in
  Forall event_wf evs
  ∧ table_wf (record_all evs)
  ∧ match LifetimeTable_get (record_all evs) 7 with
    | Some iv => envelope evs 7 iv ∧ (record_use (record_all evs) 7 9).2 = Ok tt
    | None => ¬ Exists (is_def 7) evs
              ∧ record_use (record_all evs) 7 9 = (record_all evs, Err (UseBeforeDef 7 9))
    end.
Proof.
  intros evs.
  assert (Forall event_wf evs) as Hwf.
  { unfold evs. repeat constructor; vm_compute; intros; discriminate. }
  split; [exact Hwf|]. exact (lifetime_envelope evs 7 9 Hwf).
Defined.
