(* ===== verification/Allocator.v ===== *)
(** * First-fit-decreasing slot allocation
    (crates/rustorch-planner/src/allocator.rs)

    Packs the tensors of a lifetime table into slots whose tenants are never
    alive at the same time-step. *)

From Stdlib Require Import ZArith Lia.
From stdpp Require Import base list gmap sorting.
From S2P Require Import Prelude Lifetime.

(** [round_up], on [u64]. *)
Definition round_up (bytes align : Z) : Z :=
  let a := Z.max align 1 in wrap 64 (div_ceil bytes a * a).

(** [struct Slot] *)
Record Slot := mkSlot {
  slot_bytes : Z;
  slot_align : Z;
  slot_tenants : list Z;
  slot_intervals : list Interval
}.

(** [Slot::new] *)
Definition Slot_new (id : Z) (iv : Interval) : Slot :=
  let align := Z.max (iv_align iv) 1 in
  mkSlot (round_up (iv_bytes iv) align) align [id] [iv].

(** [Slot::fits] *)
Definition Slot_fits (s : Slot) (iv : Interval) : bool :=
  forallb (λ existing, negb (Interval_overlaps existing iv)) (slot_intervals s).

(** [Slot::add] *)
Definition Slot_add (s : Slot) (id : Z) (iv : Interval) : Slot :=
  let align := Z.max (slot_align s) (Z.max (iv_align iv) 1) in
  mkSlot (round_up (Z.max (slot_bytes s) (iv_bytes iv)) align) align
    (slot_tenants s ++ [id]) (slot_intervals s ++ [iv]).

(** [Slot::push_aliased_tenant] *)
Definition push_aliased_tenant (s : Slot) (id : Z) : Slot :=
  mkSlot (slot_bytes s) (slot_align s) (slot_tenants s ++ [id]) (slot_intervals s).

(** [struct PlanResult] *)
Record PlanResult := mkPlanResult {
  plan_slots : list Slot;
  plan_assignment : list (Z * nat)
}.

(** [PlanResult::peak_bytes], [::slot_count], [::slot_of] *)
Definition peak_bytes (p : PlanResult) : Z := sum_u 64 (slot_bytes <$> plan_slots p).
Definition slot_count (p : PlanResult) : nat := length (plan_slots p).
Definition slot_of (p : PlanResult) (id : Z) : option nat :=
  snd <$> List.find (λ e, e.1 =? id) (plan_assignment p).

(** The first component of [PlanResult::savings_vs]; the second is the [f64]
    quotient of it by [naive_total]. *)
Definition saved_bytes (p : PlanResult) (naive_total : Z) : Z :=
  sat_sub naive_total (peak_bytes p).

(** [enum PlanError] *)
Inductive PlanError := BudgetExceeded (required budget : Z).

(** The comparator of [plan]'s [sort_by]: bytes descending, then def and id
    ascending. *)
Definition plan_cmp (a b : Z * Interval) : comparison :=
  then_with (iv_bytes b.2 ?= iv_bytes a.2)
    (then_with (iv_def a.2 ?= iv_def b.2) (a.1 ?= b.1)).

(** The inner loop of [plan]: the first slot the interval fits in, with the
    tensor added to it. *)
Fixpoint first_fit (slots : list Slot) (id : Z) (iv : Interval)
    : option (nat * list Slot) :=
  match slots with
  | [] => None
  | s :: rest =>
      if Slot_fits s iv then Some (0%nat, Slot_add s id iv :: rest)
      else match first_fit rest id iv with
           | Some (k, rest') => Some (S k, s :: rest')
           | None => None
           end
  end.

(** The body of [plan]'s outer loop. *)
Definition plan_step (st : PlanResult) (e : Z * Interval) : PlanResult :=
  match first_fit (plan_slots st) e.1 e.2 with
  | Some (k, slots') => mkPlanResult slots' (plan_assignment st ++ [(e.1, k)])
  | None => mkPlanResult (plan_slots st ++ [Slot_new e.1 e.2])
              (plan_assignment st ++ [(e.1, length (plan_slots st))])
  end.

(** [plan] on the pairs in the order the table's iterator yields them. *)
Definition plan_entries (entries : list (Z * Interval)) : PlanResult :=
  foldl plan_step (mkPlanResult [] []) (sort_by plan_cmp entries).

(** [plan] *)
Definition plan (t : LifetimeTable) : PlanResult := plan_entries (LifetimeTable_iter t).

(** [plan_with_budget] *)
Definition plan_with_budget (t : LifetimeTable) (budget : Z) : res PlanError PlanResult :=
  let result := plan t in
  let required := peak_bytes result in
  if budget <? required then Err (BudgetExceeded required budget) else Ok result.

(** ** What a slot holds

    [slot_built c s]: [s] results from placing the pairs [c], in order, one in
    a new slot and the others where they fit. *)
Inductive slot_built : list (Z * Interval) → Slot → Prop :=
  | built_new id iv : slot_built [(id, iv)] (Slot_new id iv)
  | built_add c s id iv :
      slot_built c s → Slot_fits s iv = true →
      slot_built (c ++ [(id, iv)]) (Slot_add s id iv).

(** The slots and assignment of [p] place exactly the pairs [entries]. *)
Definition plan_repr (entries : list (Z * Interval)) (p : PlanResult) : Prop :=
  (plan_assignment p).*1 ≡ₚ entries.*1
  ∧ ∃ css, Forall2 slot_built css (plan_slots p)
      ∧ concat css ≡ₚ entries
      ∧ (∀ id k, (id, k) ∈ plan_assignment p ↔
           ∃ c iv, css !! k = Some c ∧ (id, iv) ∈ c).

(** The pairs of a table whose sizes keep every sum in range. *)
Definition pow2 (a : Z) : Prop := ∃ n, 0 ≤ n ∧ a = 2 ^ n.

(** [demand entries]: an upper bound of the bytes of all slots. *)
Definition padded (e : Z * Interval) : Z := iv_bytes e.2 + iv_align e.2.

(** ** Lemmas *)

Lemma slot_built_contents c s :
  slot_built c s → slot_tenants s = c.*1 ∧ slot_intervals s = c.*2 ∧ c ≠ [].
Proof.
  induction 1 as [id iv|c s id iv Hb (IH1 & IH2 & IH3) Hfit]; simpl; [done|].
  rewrite IH1, IH2, !fmap_app. split_and!; [done|done|].
  by intros [? ?]%app_nil.
Qed.

Lemma Slot_fits_spec s iv :
  Slot_fits s iv = true ↔
  ∀ iv', iv' ∈ slot_intervals s → Interval_overlaps iv' iv = false.
Proof.
  unfold Slot_fits. rewrite forallb_forall. setoid_rewrite negb_true_iff.
  by setoid_rewrite list_elem_of_In.
Qed.

(** Tenants of a slot at different positions are never alive together. *)
Lemma slot_built_disjoint c s i j a b :
  slot_built c s → c !! i = Some a → c !! j = Some b → i ≠ j →
  Interval_overlaps a.2 b.2 = false.
Proof.
  intros Hb. revert i j a b.
  induction Hb as [id iv|c s id iv Hb IH Hfit]; intros i j a b Hi Hj Hij.
  { apply list_lookup_singleton_Some in Hi as [-> _].
    by apply list_lookup_singleton_Some in Hj as [-> _]. }
  destruct (slot_built_contents _ _ Hb) as (_ & Hivs & _).
  rewrite Slot_fits_spec, Hivs in Hfit.
  apply lookup_app_Some in Hi as [Hi|[Hi1 Hi2]];
    apply lookup_app_Some in Hj as [Hj|[Hj1 Hj2]].
  - eauto.
  - apply list_lookup_singleton_Some in Hj2 as [? <-]. apply Hfit.
    by apply list_elem_of_fmap_2, list_elem_of_lookup_2 with i.
  - apply list_lookup_singleton_Some in Hi2 as [? <-].
    rewrite Interval_overlaps_sym. apply Hfit.
    by apply list_elem_of_fmap_2, list_elem_of_lookup_2 with j.
  - apply list_lookup_singleton_Some in Hi2 as [? <-].
    apply list_lookup_singleton_Some in Hj2 as [? <-]. lia.
Qed.

Lemma first_fit_Some slots id iv k slots' :
  first_fit slots id iv = Some (k, slots') →
  ∃ s, slots !! k = Some s ∧ Slot_fits s iv = true
       ∧ slots' = <[k := Slot_add s id iv]> slots.
Proof.
  revert k slots'. induction slots as [|s slots IH]; intros k slots'; simpl; [done|].
  destruct (Slot_fits s iv) eqn:Hfit.
  - intros [= <- <-]. by exists s.
  - destruct (first_fit slots id iv) as [[k' rest]|]; [|done].
    intros [= <- <-]. destruct (IH _ _ eq_refl) as (s' & ? & ? & ->). by exists s'.
Qed.

(** The chosen slot is the first that fits. *)
Lemma first_fit_first slots id iv k slots' j s :
  first_fit slots id iv = Some (k, slots') → (j < k)%nat → slots !! j = Some s →
  Slot_fits s iv = false.
Proof.
  revert k slots' j. induction slots as [|s0 slots IH]; intros k slots' j; simpl; [done|].
  destruct (Slot_fits s0 iv) eqn:Hfit.
  - intros [= <- <-] ?. lia.
  - destruct (first_fit slots id iv) as [[k' rest]|] eqn:E; [|done].
    intros [= <- <-] Hj. destruct j as [|j]; simpl.
    + by intros [= <-].
    + apply (IH k' rest); [done|lia].
Qed.

Lemma first_fit_None slots id iv s :
  first_fit slots id iv = None → s ∈ slots → Slot_fits s iv = false.
Proof.
  induction slots as [|s0 slots IH]; simpl; [by intros ? ?%not_elem_of_nil|].
  destruct (Slot_fits s0 iv) eqn:Hfit; [done|].
  destruct (first_fit slots id iv) as [[? ?]|]; [done|].
  intros _ [->|?]%elem_of_cons; auto.
Qed.

Lemma concat_insert_perm {A} (css : list (list A)) k c x :
  css !! k = Some c → concat (<[k := c ++ [x]]> css) ≡ₚ x :: concat css.
Proof.
  revert k. induction css as [|c0 css IH]; intros [|k]; simpl; try done.
  - intros [= ->]. rewrite <- app_assoc. simpl. by rewrite <- Permutation_middle.
  - intros Hk. rewrite (IH _ Hk). by rewrite <- Permutation_middle.
Qed.

Lemma plan_step_repr done st e :
  plan_repr done st → plan_repr (done ++ [e]) (plan_step st e).
Proof.
  intros (Hids & css & Hbuilt & Hcat & Hasg). destruct e as [id iv].
  unfold plan_step; simpl.
  destruct (first_fit _ _ _) as [[k slots']|] eqn:Hff; split; simpl.
  - by rewrite !fmap_app, Hids.
  - apply first_fit_Some in Hff as (s & Hs & Hfit & ->).
    destruct (Forall2_lookup_r _ _ _ _ _ Hbuilt Hs) as (c & Hc & Hcs).
    exists (<[k := c ++ [(id, iv)]]> css). split_and!.
    + apply Forall2_insert; [done|]. by constructor.
    + rewrite (concat_insert_perm _ _ _ _ Hc), Hcat. apply Permutation_cons_append.
    + intros id' k'. rewrite elem_of_app, list_elem_of_singleton, Hasg.
      pose proof (lookup_lt_Some _ _ _ Hc).
      destruct (decide (k = k')) as [->|Hk].
      * rewrite list_lookup_insert_eq by done. split.
        -- intros [(c' & iv' & Hc' & Hin)|[= ->]].
           ++ exists (c ++ [(id, iv)]), iv'. set_solver.
           ++ exists (c ++ [(id, iv)]), iv. set_solver.
        -- intros (c' & iv' & [= <-] & Hin). set_solver.
      * rewrite list_lookup_insert_ne by done. naive_solver.
  - by rewrite !fmap_app, Hids.
  - exists (css ++ [[(id, iv)]]). split_and!.
    + apply Forall2_app; [done|]. repeat constructor.
    + rewrite concat_app. simpl. by rewrite Hcat.
    + intros id' k'. rewrite elem_of_app, list_elem_of_singleton, Hasg.
      rewrite <- (Forall2_length _ _ _ Hbuilt). split.
      * intros [(c' & iv' & Hc' & Hin)|[= -> ->]].
        -- exists c', iv'. split; [|done]. by apply lookup_app_l_Some.
        -- exists [(id, iv)], iv. rewrite lookup_app_r, Nat.sub_diag by lia.
           set_solver.
      * intros (c' & iv' & [Hc'|[Hk Hc']]%lookup_app_Some & Hin); [naive_solver|].
        apply list_lookup_singleton_Some in Hc' as [? <-].
        apply list_elem_of_singleton in Hin as [= -> ->]. right. f_equal. lia.
Qed.

Lemma plan_steps_repr l done st :
  plan_repr done st → plan_repr (done ++ l) (foldl plan_step st l).
Proof.
  revert done st. induction l as [|e l IH]; intros done st H; simpl.
  - by rewrite app_nil_r.
  - rewrite (cons_middle e done l), app_assoc. apply IH. by apply plan_step_repr.
Qed.

Lemma plan_repr_nil : plan_repr [] (mkPlanResult [] []).
Proof.
  split; [done|]. exists []. split_and!; [constructor|done|].
  intros id k. simpl. split; [by intros ?%not_elem_of_nil|]. by intros (? & ? & [=] & _).
Qed.

Lemma plan_repr_perm l k p : l ≡ₚ k → plan_repr l p → plan_repr k p.
Proof.
  intros Hlk (Hids & css & H1 & H2 & H3). split; [by rewrite Hids, Hlk|].
  exists css. by rewrite <- Hlk.
Qed.

Lemma plan_entries_repr entries : plan_repr entries (plan_entries entries).
Proof.
  eapply plan_repr_perm; [apply (sort_by_perm plan_cmp)|].
  apply (plan_steps_repr _ []), plan_repr_nil.
Qed.

(** *** Sizes *)

Lemma round_up_spec b a :
  0 ≤ b → 1 ≤ a → b + a ≤ 2 ^ 64 →
  b ≤ round_up b a < b + a ∧ round_up b a mod a = 0.
Proof.
  intros Hb Ha Hmax. unfold round_up. rewrite Z.max_l by lia.
  pose proof (div_ceil_bounds b a Hb ltac:(lia)).
  rewrite wrap_small by (unfold uint; lia).
  split; [lia|]. apply Z_mod_mult.
Qed.

Lemma round_up_id b a : 0 ≤ b < 2 ^ 64 → 1 ≤ a → b mod a = 0 → round_up b a = b.
Proof.
  intros Hb Ha Hm. unfold round_up. rewrite Z.max_l by lia.
  rewrite div_ceil_exact by lia. by apply wrap_small.
Qed.

Definition wf_entry (e : Z * Interval) : Prop := Interval_wf e.2.

Definition aligns (c : list (Z * Interval)) : list Z := (λ e, iv_align e.2) <$> c.
Definition sizes (c : list (Z * Interval)) : list Z := (λ e, iv_bytes e.2) <$> c.

Lemma padded_split c : zsum (padded <$> c) = zsum (sizes c) + zsum (aligns c).
Proof.
  unfold sizes, aligns. induction c as [|e c IH]; [done|].
  rewrite !fmap_cons. rewrite !zsum_cons, IH. unfold padded. lia.
Qed.

Lemma sizes_nonneg c : Forall wf_entry c → 0 ≤ zsum (sizes c).
Proof.
  intros H. apply zsum_nonneg. unfold sizes. rewrite Forall_fmap.
  eapply Forall_impl; [exact H|]. intros e (?&?&?&[??]&?). done.
Qed.

Lemma aligns_nonneg c : Forall wf_entry c → 0 ≤ zsum (aligns c).
Proof.
  intros H. apply zsum_nonneg. unfold aligns. rewrite Forall_fmap.
  eapply Forall_impl; [exact H|]. intros e (?&?&?&?&[??]&?). done.
Qed.

Lemma zsum_fmap_snoc {A} (f : A → Z) c e : zsum (f <$> c ++ [e]) = zsum (f <$> c) + f e.
Proof. rewrite fmap_app, zsum_app. unfold zsum. simpl. lia. Qed.

(** The slot is large and aligned enough for each tenant, and not larger than
    the padded sizes of all its tenants. *)
Definition slot_sized (c : list (Z * Interval)) (s : Slot) : Prop :=
  1 ≤ slot_align s ≤ zsum (aligns c)
  ∧ 0 ≤ slot_bytes s ≤ zsum (padded <$> c)
  ∧ slot_bytes s mod slot_align s = 0
  ∧ Forall (λ e, iv_bytes e.2 ≤ slot_bytes s ∧ iv_align e.2 ≤ slot_align s) c.

Lemma slot_sized_new id iv :
  Interval_wf iv → padded (id, iv) < 2 ^ 64 → slot_sized [(id, iv)] (Slot_new id iv).
Proof.
  intros (?&?&?&[? ?]&[? ?]&?). unfold padded. simpl. intros Hmax.
  unfold slot_sized, Slot_new; simpl. rewrite Z.max_l by lia.
  destruct (round_up_spec (iv_bytes iv) (iv_align iv)) as [? ?]; [lia..|].
  unfold padded, aligns, zsum; simpl.
  split_and!; try lia. apply Forall_singleton. simpl. lia.
Qed.

Lemma slot_sized_add c s id iv :
  Forall wf_entry c → Interval_wf iv →
  zsum (padded <$> c ++ [(id, iv)]) < 2 ^ 64 →
  slot_sized c s → slot_sized (c ++ [(id, iv)]) (Slot_add s id iv).
Proof.
  intros Hc (?&?&?&[? ?]&[? ?]&?) Hmax ((Ha1 & Ha2) & (Hb1 & Hb2) & Hmod & Hall).
  pose proof (sizes_nonneg c Hc). pose proof (padded_split c).
  rewrite zsum_fmap_snoc in Hmax.
  unfold slot_sized, Slot_add; simpl. unfold aligns.
  rewrite !zsum_fmap_snoc. fold (aligns c). unfold padded at 2 in Hmax.
  unfold padded at 2. simpl in *.
  rewrite (Z.max_l (iv_align iv) 1) by lia.
  set (m := Z.max (slot_bytes s) (iv_bytes iv)).
  set (a := Z.max (slot_align s) (iv_align iv)).
  assert (m ≤ round_up m a ≤ zsum (padded <$> c) + (iv_bytes iv + iv_align iv)
          ∧ round_up m a mod a = 0) as [? ?].
  { destruct (decide (iv_bytes iv ≤ slot_bytes s)) as [Hb|Hb];
      destruct (decide (iv_align iv ≤ slot_align s)) as [Hal|Hal].
    - replace m with (slot_bytes s) by lia. replace a with (slot_align s) by lia.
      rewrite round_up_id by lia. split; [lia|done].
    - destruct (round_up_spec m a) as [? ?]; lia.
    - destruct (round_up_spec m a) as [? ?]; lia.
    - destruct (round_up_spec m a) as [? ?]; lia. }
  split_and!; [lia..|done|].
  apply Forall_app. split; [|apply Forall_singleton; simpl; lia].
  eapply Forall_impl; [exact Hall|]. simpl. intros e. lia.
Qed.

Lemma slot_built_sized c s :
  slot_built c s → Forall wf_entry c → zsum (padded <$> c) < 2 ^ 64 → slot_sized c s.
Proof.
  induction 1 as [id iv|c s id iv Hb IH Hfit]; intros Hwf Hmax.
  - apply slot_sized_new; [by inversion Hwf|].
    unfold padded, zsum in *. simpl in *. lia.
  - apply Forall_app in Hwf as [Hc [He _]%Forall_cons].
    apply slot_sized_add; [done|done|done|]. apply IH; [done|].
    rewrite zsum_fmap_snoc in Hmax. destruct He as (?&?&?&[? ?]&[? ?]&?).
    unfold padded at 2 in Hmax. simpl in *. lia.
Qed.

(** *** One live tensor per slot *)

Definition live (s : Z) (e : Z * Interval) : bool :=
  (iv_def e.2 <=? s) && (s <=? iv_last_use e.2).
Definition live_bytes (s : Z) (c : list (Z * Interval)) : Z :=
  zsum (sizes (List.filter (live s) c)).

Lemma live_overlaps s a b :
  live s a = true → live s b = true → Interval_overlaps a.2 b.2 = true.
Proof.
  unfold live. rewrite !andb_true_iff, !Z.leb_le, Interval_overlaps_true. lia.
Qed.

Lemma slot_live_bytes c s t :
  slot_built c s → slot_sized c s → live_bytes t c ≤ slot_bytes s.
Proof.
  intros Hb (_ & ? & _ & Hall). unfold live_bytes.
  assert (∀ a, a ∈ List.filter (live t) c → iv_bytes a.2 ≤ slot_bytes s) as Hle.
  { intros a (Hin & _)%list_elem_of_In%filter_In. rewrite Forall_forall in Hall.
    apply Hall. by apply list_elem_of_In. }
  destruct (List.filter (live t) c) as [|a [|b l]] eqn:E.
  - unfold zsum; simpl. lia.
  - specialize (Hle a ltac:(set_solver)). unfold sizes, zsum; simpl. lia.
  - exfalso. assert (∃ i j, c !! i = Some a ∧ c !! j = Some b ∧ i ≠ j) as (i & j & Hi & Hj & Hij).
    { by eapply filter_two_positions. }
    assert (∀ x, x ∈ a :: b :: l → live t x = true) as Hlive.
    { intros x. rewrite <- E, list_elem_of_In, filter_In. naive_solver. }
    pose proof (slot_built_disjoint _ _ _ _ _ _ Hb Hi Hj Hij) as Hdis.
    rewrite (live_overlaps t) in Hdis; [done|apply Hlive; set_solver..].
Qed.

Lemma live_bytes_app t c d : live_bytes t (c ++ d) = live_bytes t c + live_bytes t d.
Proof. unfold live_bytes, sizes. rewrite List.filter_app, fmap_app. apply zsum_app. Qed.

Lemma live_bytes_perm t c d : c ≡ₚ d → live_bytes t c = live_bytes t d.
Proof. intros H. unfold live_bytes, sizes. apply zsum_perm. by rewrite (filter_perm _ _ _ H). Qed.

(** *** Power-of-two alignments *)

Lemma round_up_least b a m :
  0 ≤ b → 1 ≤ a → b + a ≤ 2 ^ 64 → (a | m) → b ≤ m → round_up b a ≤ m.
Proof.
  intros Hb Ha Hmax [q ->] Hle. destruct (round_up_spec b a) as [[? ?] Hm]; [done..|].
  apply Z.mod_divide in Hm as [r Hr]; [|lia].
  destruct (decide (r ≤ q)) as [Hrq|Hrq]; [rewrite Hr; nia|].
  assert ((q + 1) * a ≤ r * a) by nia. lia.
Qed.

Lemma round_up_divide b a : 0 ≤ b → 1 ≤ a → b + a ≤ 2 ^ 64 → (a | round_up b a).
Proof. intros. apply Z.mod_divide; [lia|]. by apply round_up_spec. Qed.

(** Rounding first to a divisor of the final alignment changes nothing. *)
Lemma round_up_step b b' a a' :
  0 ≤ b → 0 ≤ b' → 1 ≤ a → 1 ≤ a' → (a | a') →
  Z.max b b' + a + a' ≤ 2 ^ 64 →
  round_up (Z.max (round_up b a) b') a' = round_up (Z.max b b') a'.
Proof.
  intros Hb Hb' Ha Ha' Hdiv Hmax.
  destruct (round_up_spec b a) as [[? ?] _]; [lia..|].
  destruct (round_up_spec (Z.max b b') a') as [[? ?] _]; [lia..|].
  destruct (round_up_spec (Z.max (round_up b a) b') a') as [[? ?] _]; [lia..|].
  assert (round_up b a ≤ round_up (Z.max b b') a').
  { apply round_up_least; try lia. etrans; [exact Hdiv|]. apply round_up_divide; lia. }
  apply Z.le_antisymm; apply round_up_least; try lia; apply round_up_divide; lia.
Qed.

Lemma pow2_divide a b : pow2 a → pow2 b → a ≤ b → (a | b).
Proof.
  intros (n & Hn & ->) (m & Hm & ->) Hle.
  apply Z.pow_le_mono_r_iff in Hle; [|lia..].
  exists (2 ^ (m - n)). rewrite <- Z.pow_add_r by lia. f_equal. lia.
Qed.

Definition zmax (l : list Z) : Z := foldr Z.max 0 l.

Lemma zmax_snoc l x : Forall (λ y, 0 ≤ y) l → 0 ≤ x → zmax (l ++ [x]) = Z.max (zmax l) x.
Proof. unfold zmax. induction 1; simpl; lia. Qed.

Lemma zmax_le_zsum l : Forall (λ y, 0 ≤ y) l → 0 ≤ zmax l ≤ zsum l.
Proof.
  induction 1 as [|x l Hx _ IH]; [done|]. rewrite zsum_cons.
  change (zmax (x :: l)) with (Z.max x (zmax l)). lia.
Qed.

Lemma sizes_Forall c : Forall wf_entry c → Forall (λ y, 0 ≤ y) (sizes c).
Proof.
  intros H. unfold sizes. rewrite Forall_fmap. eapply Forall_impl; [exact H|].
  by intros e (?&?&?&[??]&?).
Qed.

Lemma aligns_Forall c : Forall wf_entry c → Forall (λ y, 0 ≤ y) (aligns c).
Proof.
  intros H. unfold aligns. rewrite Forall_fmap. eapply Forall_impl; [exact H|].
  by intros e (?&?&?&?&[??]&?).
Qed.

(** With power-of-two alignments a slot is exactly the largest size rounded up
    to the largest alignment, and every alignment divides the slot's. *)
Definition slot_exact (c : list (Z * Interval)) (s : Slot) : Prop :=
  slot_align s = zmax (aligns c)
  ∧ slot_bytes s = round_up (zmax (sizes c)) (zmax (aligns c))
  ∧ pow2 (slot_align s)
  ∧ Forall (λ e, (iv_align e.2 | slot_align s)) c.

Lemma slot_built_exact c s :
  slot_built c s → Forall wf_entry c → Forall (λ e, pow2 (iv_align e.2)) c →
  2 * zsum (padded <$> c) < 2 ^ 64 → slot_exact c s.
Proof.
  induction 1 as [id iv|c s id iv Hb IH Hfit]; intros Hwf Hp Hmax.
  - apply Forall_inv in Hwf as (?&?&?&[? ?]&[? ?]&?). apply Forall_inv in Hp. simpl in *.
    unfold slot_exact, aligns, sizes, zmax; simpl.
    rewrite !Z.max_l by lia. split_and!; [done|done|done|].
    apply Forall_singleton. simpl. done.
  - apply Forall_app in Hwf as [Hc [He _]%Forall_cons].
    apply Forall_app in Hp as [Hpc [Hpe _]%Forall_cons].
    destruct He as (?&?&?&[? ?]&[? ?]&?). rewrite zsum_fmap_snoc in Hmax.
    pose proof (zmax_le_zsum _ (sizes_Forall _ Hc)).
    pose proof (zmax_le_zsum _ (aligns_Forall _ Hc)).
    rewrite padded_split in Hmax. unfold padded in Hmax. simpl in *.
    destruct IH as (Hal & Hby & Hpow & Hall); [done|done|rewrite padded_split; lia|].
    assert (1 ≤ slot_align s) by (destruct Hpow as (n & ? & ->); lia).
    unfold slot_exact, Slot_add; simpl. rewrite (Z.max_l (iv_align iv) 1) by lia.
    unfold aligns, sizes in *. rewrite !fmap_app; simpl.
    rewrite !zmax_snoc by (done || by apply sizes_Forall || by apply aligns_Forall).
    set (a' := Z.max (slot_align s) (iv_align iv)).
    assert (pow2 a') as Hpow' by (unfold a'; destruct (Z.max_spec (slot_align s) (iv_align iv))
      as [[_ ->]|[_ ->]]; done).
    split_and!; [unfold a'; lia| |done|].
    + rewrite Hby, <- Hal. apply round_up_step; try lia.
      apply pow2_divide; [done|done|lia].
    + apply Forall_app. split.
      * eapply Forall_impl; [exact Hall|]. simpl. intros e Hd.
        etrans; [exact Hd|]. apply pow2_divide; [done|done|lia].
      * apply Forall_singleton. simpl. apply pow2_divide; [done|done|lia].
Qed.

(** With no alignment requirement slots are not larger than their tenants. *)
Lemma slot_built_unaligned c s :
  slot_built c s → Forall wf_entry c → Forall (λ e, iv_align e.2 = 1) c →
  zsum (sizes c) < 2 ^ 64 → slot_align s = 1 ∧ 0 ≤ slot_bytes s ≤ zsum (sizes c).
Proof.
  assert (∀ b, 0 ≤ b < 2 ^ 64 → round_up b 1 = b) as Hru.
  { intros b Hb. apply round_up_id; [done|lia|apply Z.mod_1_r]. }
  induction 1 as [id iv|c s id iv Hb IH Hfit]; intros Hwf Hp Hmax.
  - apply Forall_inv in Hwf as (?&?&?&[? ?]&?). apply Forall_inv in Hp. simpl in *.
    rewrite Hp. change (Z.max 1 1) with 1. rewrite Hru by done.
    unfold sizes; simpl. rewrite zsum_cons, zsum_nil. lia.
  - apply Forall_app in Hwf as [Hc [He _]%Forall_cons].
    apply Forall_app in Hp as [Hpc [Hpe _]%Forall_cons].
    destruct He as (?&?&?&[? ?]&?). unfold sizes in Hmax |- *.
    rewrite zsum_fmap_snoc in Hmax |- *. pose proof (sizes_nonneg _ Hc) as Hs.
    unfold sizes in *. simpl in *.
    destruct IH as [-> IHb]; [done|done|lia|]. rewrite Hpe.
    change (Z.max 1 (Z.max 1 1)) with 1. rewrite Hru by lia. lia.
Qed.

Lemma sizes_app c d : sizes (c ++ d) = sizes c ++ sizes d.
Proof. apply fmap_app. Qed.

Lemma aligns_app c d : aligns (c ++ d) = aligns c ++ aligns d.
Proof. apply fmap_app. Qed.

#[export] Instance sizes_Proper : Proper ((≡ₚ) ==> (≡ₚ)) sizes.
Proof. intros c d H. unfold sizes. by rewrite H. Qed.
#[export] Instance aligns_Proper : Proper ((≡ₚ) ==> (≡ₚ)) aligns.
Proof. intros c d H. unfold aligns. by rewrite H. Qed.

Lemma unaligned_peak css slots :
  Forall2 slot_built css slots → Forall wf_entry (concat css) →
  Forall (λ e, iv_align e.2 = 1) (concat css) → zsum (sizes (concat css)) < 2 ^ 64 →
  zsum (slot_bytes <$> slots) ≤ zsum (sizes (concat css)).
Proof.
  induction 1 as [|c s css slots Hb _ IH]; [done|]. csimpl.
  intros [Hc Hcss]%Forall_app [Ha Has]%Forall_app.
  rewrite sizes_app, zsum_app, zsum_cons. intros Hmax.
  pose proof (sizes_nonneg _ Hc). pose proof (sizes_nonneg _ Hcss).
  destruct (slot_built_unaligned c s) as [_ ?]; [done..|lia|].
  specialize (IH Hcss Has ltac:(lia)). lia.
Qed.

(** *** From slots to plans *)

Lemma Forall2_concat_sum {A} (R : list A → Slot → Prop) (f : list A → Z) css slots :
  f [] = 0 → (∀ c d, f (c ++ d) = f c + f d) →
  (∀ c s, R c s → f c ≤ slot_bytes s) →
  Forall2 R css slots → f (concat css) ≤ zsum (slot_bytes <$> slots).
Proof.
  intros H0 Happ Hle. induction 1 as [|c s css slots Hcs _ IH]; csimpl.
  - by rewrite H0, zsum_nil.
  - rewrite Happ, zsum_cons. specialize (Hle _ _ Hcs). lia.
Qed.

Lemma Forall2_concat_sum_le {A} (R : list A → Slot → Prop) (f : list A → Z) css slots :
  f [] = 0 → (∀ c d, f (c ++ d) = f c + f d) →
  (∀ c s, R c s → slot_bytes s ≤ f c) →
  Forall2 R css slots → zsum (slot_bytes <$> slots) ≤ f (concat css).
Proof.
  intros H0 Happ Hle. induction 1 as [|c s css slots Hcs _ IH]; csimpl.
  - by rewrite H0, zsum_nil.
  - rewrite Happ, zsum_cons. specialize (Hle _ _ Hcs). lia.
Qed.

(** [plan_repr] with the size facts of every slot. *)
Lemma plan_repr_sized entries p :
  plan_repr entries p → Forall wf_entry entries → zsum (padded <$> entries) < 2 ^ 64 →
  ∃ css, Forall2 (λ c s, slot_built c s ∧ slot_sized c s) css (plan_slots p)
    ∧ concat css ≡ₚ entries.
Proof.
  intros (_ & css & Hb & Hcat & _) Hwf Hmax. exists css. split; [|done].
  rewrite <- Hcat in Hwf, Hmax.
  clear Hcat. induction Hb as [|c s css slots Hcs Hb IH]; [constructor|].
  simpl in Hwf, Hmax. apply Forall_app in Hwf as [Hc Hcss].
  rewrite fmap_app, zsum_app, !padded_split in Hmax.
  pose proof (sizes_nonneg _ Hc). pose proof (aligns_nonneg _ Hc).
  pose proof (sizes_nonneg _ Hcss). pose proof (aligns_nonneg _ Hcss).
  constructor.
  - split; [done|]. apply slot_built_sized; [done|done|]. rewrite padded_split. lia.
  - apply IH; [done|]. rewrite padded_split. lia.
Qed.

Lemma plan_repr_slot_of entries p id k :
  NoDup entries.*1 → plan_repr entries p →
  slot_of p id = Some k ↔ (id, k) ∈ plan_assignment p.
Proof.
  intros Hnd (Hids & _). rewrite <- Hids in Hnd. clear Hids.
  unfold slot_of. induction (plan_assignment p) as [|[i j] l IH]; simpl.
  { split; [done|by intros ?%not_elem_of_nil]. }
  simpl in Hnd. apply NoDup_cons in Hnd as [Hi Hnd].
  destruct (Z.eqb_spec i id) as [->|Hne]; simpl.
  - split; [intros [= ->]; by left|].
    intros [[= ->]|Hin]%elem_of_cons; [done|].
    destruct Hi. apply list_elem_of_fmap. by exists (id, k).
  - rewrite (IH Hnd). split; [by right|].
    intros [[= -> ->]|Hin]%elem_of_cons; done.
Qed.

Lemma plan_repr_slot_of_Some entries p id iv :
  NoDup entries.*1 → plan_repr entries p → (id, iv) ∈ entries →
  ∃ k c s, slot_of p id = Some k ∧ plan_slots p !! k = Some s
    ∧ slot_built c s ∧ (id, iv) ∈ c.
Proof.
  intros Hnd Hrepr Hin. pose proof Hrepr as (Hids & css & Hb & Hcat & Hasg).
  rewrite <- Hcat in Hin. apply list_elem_of_In, in_concat in Hin as (c & Hc & Hin).
  apply list_elem_of_In, list_elem_of_lookup in Hc as [k Hk].
  destruct (Forall2_lookup_l _ _ _ _ _ Hb Hk) as (s & Hs & Hcs).
  exists k, c, s. apply list_elem_of_In in Hin. split_and!; [|done..].
  apply (plan_repr_slot_of entries); [done|done|]. apply Hasg. eauto.
Qed.

(** The same with the pairs that are in other slots. *)
Lemma plan_repr_contents entries p id iv :
  NoDup entries.*1 → plan_repr entries p → (id, iv) ∈ entries →
  ∃ k c s, slot_of p id = Some k ∧ plan_slots p !! k = Some s
    ∧ slot_built c s ∧ (id, iv) ∈ c ∧ ∃ d, c ++ d ≡ₚ entries.
Proof.
  intros Hnd Hrepr Hin. pose proof Hrepr as (Hids & css & Hb & Hcat & Hasg).
  destruct (plan_repr_slot_of_Some _ _ _ _ Hnd Hrepr Hin) as (k & _ & _ & Hk & _).
  pose proof Hk as Hk'. apply (plan_repr_slot_of entries), Hasg in Hk' as (c & iv' & Hc & Hin');
    [|done..].
  destruct (Forall2_lookup_l _ _ _ _ _ Hb Hc) as (s & Hs & Hcs).
  assert (∃ d, c ++ d ≡ₚ entries) as [d Hd].
  { rewrite <- (take_drop_middle _ _ _ Hc), concat_app in Hcat. simpl in Hcat.
    exists (concat (take k css) ++ concat (drop (S k) css)).
    rewrite <- Hcat, !app_assoc. by rewrite (Permutation_app_comm c). }
  exists k, c, s. split_and!; [done..| |by exists d].
  assert (iv' = iv) as ->; [|done].
  eapply NoDup_fst_functional; [done| |exact Hin].
  rewrite <- Hd. set_solver.
Qed.

(** Pairs in one slot are the same pair or have disjoint intervals. *)
Lemma plan_repr_disjoint entries p id1 iv1 id2 iv2 :
  NoDup entries.*1 → plan_repr entries p →
  (id1, iv1) ∈ entries → (id2, iv2) ∈ entries → id1 ≠ id2 →
  slot_of p id1 = slot_of p id2 → Interval_overlaps iv1 iv2 = false.
Proof.
  intros Hnd Hrepr H1 H2 Hne Heq.
  pose proof Hrepr as (_ & css & Hb & Hcat & Hasg).
  destruct (plan_repr_slot_of_Some _ _ _ _ Hnd Hrepr H1) as (k & _ & _ & Hk1 & _).
  pose proof Hk1 as Hk2. rewrite Heq in Hk2.
  assert (∀ id iv, (id, iv) ∈ entries → slot_of p id = Some k →
            ∃ c, css !! k = Some c ∧ (id, iv) ∈ c) as Hcontents.
  { intros id iv Hin Hk. apply (plan_repr_slot_of entries), Hasg in Hk as (c & iv' & Hc & Hin');
      [|done..].
    exists c. split; [done|]. replace iv with iv'; [done|].
    assert ((id, iv') ∈ entries) as Hin2.
    { rewrite <- Hcat. apply list_elem_of_In, in_concat.
      exists c. split; apply list_elem_of_In; [by eapply list_elem_of_lookup_2|done]. }
    by eapply NoDup_fst_functional. }
  destruct (Hcontents _ _ H1 Hk1) as (c & Hc & Hin1).
  destruct (Hcontents _ _ H2 Hk2) as (c' & Hc' & Hin2).
  simplify_eq. destruct (Forall2_lookup_l _ _ _ _ _ Hb Hc) as (s & _ & Hcs).
  apply list_elem_of_lookup in Hin1 as [i Hi], Hin2 as [j Hj].
  eapply (slot_built_disjoint c s i j (id1, iv1) (id2, iv2)); [done..|]. congruence.
Qed.

(** A table's pairs. *)
Lemma table_entries_wf t : table_wf t → Forall wf_entry (LifetimeTable_iter t).
Proof.
  intros Hwf. apply Forall_forall. intros [id iv] Hin%LifetimeTable_iter_elem.
  by eapply Hwf.
Qed.

Lemma peak_bytes_zsum entries p :
  plan_repr entries p → Forall wf_entry entries → zsum (padded <$> entries) < 2 ^ 64 →
  peak_bytes p = zsum (slot_bytes <$> plan_slots p)
  ∧ 0 ≤ zsum (slot_bytes <$> plan_slots p) ≤ zsum (padded <$> entries).
Proof.
  intros Hrepr Hwf Hmax.
  destruct (plan_repr_sized _ _ Hrepr Hwf Hmax) as (css & Hsized & Hcat).
  assert (zsum (slot_bytes <$> plan_slots p) ≤ zsum (padded <$> entries)) as Hle.
  { rewrite <- Hcat.
    eapply (Forall2_concat_sum_le _ (λ c, zsum (padded <$> c))); [done| | |exact Hsized].
    - intros. by rewrite fmap_app, zsum_app.
    - by intros c s [_ (_ & [_ ?] & _)]. }
  assert (0 ≤ zsum (slot_bytes <$> plan_slots p)) as Hge.
  { apply zsum_nonneg, Forall_fmap, Forall_forall. intros s Hs.
    apply list_elem_of_lookup in Hs as [k Hk].
    by destruct (Forall2_lookup_r _ _ _ _ _ Hsized Hk) as (c & _ & _ & _ & [? _] & _). }
  split; [|lia]. apply sum_u_small; [lia|]. unfold uint. lia.
Qed.

(** Which tensors have a slot. *)
Lemma plan_lookup t id :
  match LifetimeTable_get t id with
  | None => slot_of (plan t) id = None
  | Some iv => ∃ k s, slot_of (plan t) id = Some k
                 ∧ plan_slots (plan t) !! k = Some s ∧ id ∈ slot_tenants s
  end.
Proof.
  unfold LifetimeTable_get. pose proof (LifetimeTable_iter_NoDup t) as Hnd.
  pose proof (plan_entries_repr (LifetimeTable_iter t)) as Hrepr. fold (plan t) in Hrepr.
  destruct (intervals t !! id) as [iv|] eqn:E.
  - apply LifetimeTable_iter_elem in E.
    destruct (plan_repr_slot_of_Some _ _ _ _ Hnd Hrepr E) as (k & c & s & Hk & Hs & Hb & Hin).
    exists k, s. split_and!; [done|done|].
    destruct (slot_built_contents _ _ Hb) as [-> _].
    apply list_elem_of_fmap. by exists (id, iv).
  - destruct (slot_of (plan t) id) as [k|] eqn:Hk; [|done].
    apply (plan_repr_slot_of _ _ _ _ Hnd Hrepr) in Hk.
    destruct Hrepr as [Hids _].
    assert (id ∈ (plan_assignment (plan t)).*1) as Hin
      by (apply list_elem_of_fmap; by exists (id, k)).
    rewrite Hids in Hin. apply list_elem_of_fmap in Hin as ([id' iv] & -> & Hin).
    apply LifetimeTable_iter_elem in Hin. simpl in *. congruence.
Qed.

(** Tensors of one slot are not alive together. *)
Lemma plan_disjoint t id1 iv1 id2 iv2 :
  LifetimeTable_get t id1 = Some iv1 → LifetimeTable_get t id2 = Some iv2 → id1 ≠ id2 →
  slot_of (plan t) id1 = slot_of (plan t) id2 → Interval_overlaps iv1 iv2 = false.
Proof.
  intros H1 H2 Hne Heq.
  eapply (plan_repr_disjoint (LifetimeTable_iter t) (plan t)); [..|exact Hne|exact Heq].
  - apply LifetimeTable_iter_NoDup.
  - apply plan_entries_repr.
  - by apply LifetimeTable_iter_elem.
  - by apply LifetimeTable_iter_elem.
Qed.

(** ** Properties *)

(** C18: [plan] gives every tensor of the table, and no other, exactly one
    existing slot, lists it among that slot's tenants, and never puts two
    tensors whose intervals overlap in the same slot. *)
Theorem plan_safe t id :
  match LifetimeTable_get t id with
  | None => slot_of (plan t) id = None
  | Some iv =>
      ∃ k s, slot_of (plan t) id = Some k
        ∧ plan_slots (plan t) !! k = Some s
        ∧ id ∈ slot_tenants s
        ∧ (∀ id' iv', LifetimeTable_get t id' = Some iv' → id' ≠ id →
             Interval_overlaps iv iv' = true → slot_of (plan t) id' ≠ Some k)
  end.
Proof.
  pose proof (plan_lookup t id) as Hl.
  destruct (LifetimeTable_get t id) as [iv|] eqn:E; [|done].
  destruct Hl as (k & s & Hk & Hs & Hin). exists k, s. split_and!; [done..|].
  intros id' iv' E' Hne Hov Hk'.
  rewrite (plan_disjoint t id iv id' iv') in Hov; congruence.
Qed.

(** when twice the sizes plus alignments fit in 64 bits, the slot of a tensor is at
    least as large and as aligned as the tensor asks, and its size is a multiple
    of its alignment; when moreover all alignments are powers of two, the slot's
    alignment is the largest of its tenants' and a multiple of each of them, and
    its size is exactly the largest tenant rounded up to that alignment. *)
Theorem plan_slot_sizes t id iv :
  table_wf t → 2 * zsum (padded <$> LifetimeTable_iter t) < 2 ^ 64 →
  LifetimeTable_get t id = Some iv →
  ∃ k s c, slot_of (plan t) id = Some k ∧ plan_slots (plan t) !! k = Some s
    ∧ slot_tenants s = c.*1 ∧ (id, iv) ∈ c
    ∧ iv_bytes iv ≤ slot_bytes s ∧ iv_align iv ≤ slot_align s
    ∧ slot_bytes s mod slot_align s = 0
    ∧ (Forall (λ e, pow2 (iv_align e.2)) (LifetimeTable_iter t) →
       slot_align s = zmax (aligns c)
       ∧ slot_bytes s = round_up (zmax (sizes c)) (slot_align s)
       ∧ (iv_align iv | slot_align s)).
Proof.
  intros Hwf Hmax E. apply LifetimeTable_iter_elem in E.
  pose proof (LifetimeTable_iter_NoDup t) as Hnd.
  pose proof (table_entries_wf _ Hwf) as Hwf'.
  pose proof (plan_entries_repr (LifetimeTable_iter t)) as Hrepr. fold (plan t) in Hrepr.
  destruct (plan_repr_contents _ _ _ _ Hnd Hrepr E) as (k & c & s & Hk & Hs & Hb & Hin & d & Hd).
  rewrite <- Hd in Hmax, Hwf'. rewrite fmap_app, zsum_app in Hmax.
  apply Forall_app in Hwf' as [Hc Hwfd].
  pose proof (padded_split d). pose proof (sizes_nonneg _ Hwfd).
  pose proof (aligns_nonneg _ Hwfd). pose proof (padded_split c).
  pose proof (sizes_nonneg _ Hc). pose proof (aligns_nonneg _ Hc).
  destruct (slot_built_sized c s Hb Hc) as (_ & _ & Hm & Hall); [lia|].
  rewrite Forall_forall in Hall. destruct (Hall _ Hin) as [? ?].
  exists k, s, c. split_and!; try done.
  { by destruct (slot_built_contents _ _ Hb). }
  intros Hp. rewrite <- Hd in Hp. apply Forall_app in Hp as [Hp _].
  destruct (slot_built_exact c s Hb Hc Hp) as (Hal & Hby & _ & Hdiv); [lia|].
  rewrite Forall_forall in Hdiv. split_and!; [done|by rewrite Hal|by apply (Hdiv (id, iv))].
Qed.

(** peak memory: the bytes of all slots are at least the bytes alive at any
    time-step; without alignment requirements they are at most the naive total,
    so that [savings_vs] of the naive total is exactly the difference. *)
Theorem plan_peak_bounds t step :
  table_wf t → zsum (padded <$> LifetimeTable_iter t) < 2 ^ 64 →
  live_bytes step (LifetimeTable_iter t) ≤ peak_bytes (plan t)
  ∧ (Forall (λ e, iv_align e.2 = 1) (LifetimeTable_iter t) →
     peak_bytes (plan t) ≤ naive_total_bytes t
     ∧ saved_bytes (plan t) (naive_total_bytes t)
       = naive_total_bytes t - peak_bytes (plan t)).
Proof.
  intros Hwf Hmax. pose proof (table_entries_wf _ Hwf) as Hwf'.
  pose proof (plan_entries_repr (LifetimeTable_iter t)) as Hrepr. fold (plan t) in Hrepr.
  destruct (peak_bytes_zsum _ _ Hrepr Hwf' Hmax) as [-> _].
  destruct (plan_repr_sized _ _ Hrepr Hwf' Hmax) as (css & Hsized & Hcat). split.
  - rewrite <- (live_bytes_perm _ _ _ Hcat).
    eapply (Forall2_concat_sum _ (live_bytes step)); [done| | |exact Hsized].
    + intros. apply live_bytes_app.
    + intros c s [??]. by apply slot_live_bytes.
  - intros Hal. pose proof (sizes_nonneg _ Hwf'). pose proof (aligns_nonneg _ Hwf').
    rewrite padded_split in Hmax.
    assert (naive_total_bytes t = zsum (sizes (LifetimeTable_iter t))) as Hnaive.
    { apply sum_u_small; [lia|]. unfold uint, sizes in *. lia. }
    assert (zsum (slot_bytes <$> plan_slots (plan t)) ≤ naive_total_bytes t) as Hle.
    { rewrite Hnaive, <- Hcat. rewrite <- Hcat in Hwf', Hal, Hmax.
      apply unaligned_peak; [|done|done|rewrite <- Hcat in *; lia].
      eapply Forall2_impl; [exact Hsized|]. by intros c s [? _]. }
    split; [done|]. unfold saved_bytes.
    destruct (peak_bytes_zsum _ _ Hrepr Hwf' ltac:(rewrite padded_split; lia)) as [-> _].
    apply sat_sub_small. lia.
Qed.

(** the plan does not depend on the order in which the [HashMap] iterates:
    any two enumerations of the same table give the same slots and assignment. *)
Theorem plan_order_independent l k :
  NoDup l.*1 → l ≡ₚ k → plan_entries l = plan_entries k.
Proof.
  intros Hnd Hlk. unfold plan_entries. f_equal.
  eapply (sort_by_unique plan_cmp (λ e, [- iv_bytes e.2; iv_def e.2; e.1])); [|done| |done].
  - intros [i a] [j b]. unfold plan_cmp; simpl. rewrite Z.compare_opp.
    by destruct (i ?= j).
  - intros [i a] [j b] Hx Hy [= _ _ ->]. f_equal. by eapply NoDup_fst_functional.
Qed.

(** *** Witnesses *)

Definition sample_trace : list event :=
  [EDef 1 0 100 16; EDef 2 1 40 64; EUse 1 3; EDef 3 4 70 1; EUse 2 5; EUse 3 6].

Lemma sample_trace_wf : Forall event_wf sample_trace.
Proof. unfold sample_trace. repeat constructor; vm_compute; intros; discriminate. Qed.

Lemma plan_slot_sizes_witness :
  table_wf (record_all sample_trace)
  ∧ ∃ k s, slot_of (plan (record_all sample_trace)) 3 = Some k
      ∧ plan_slots (plan (record_all sample_trace)) !! k = Some s
      ∧ 70 ≤ slot_bytes s ∧ 1 ≤ slot_align s ∧ slot_bytes s mod slot_align s = 0.
Proof.
  assert (table_wf (record_all sample_trace)) as Hwf by exact (record_all_wf _ sample_trace_wf).
  split; [exact Hwf|].
  destruct (plan_slot_sizes (record_all sample_trace) 3 (mkInterval 4 6 70 1) Hwf
              ltac:(vm_compute; reflexivity) ltac:(vm_compute; reflexivity))
    as (k & s & c & Hk & Hs & _ & _ & Hb & Ha & Hm & _).
  exists k, s. exact (conj Hk (conj Hs (conj Hb (conj Ha Hm)))).
Defined.

Lemma plan_peak_bounds_witness :
  table_wf (record_all sample_trace)
  ∧ 140 ≤ peak_bytes (plan (record_all sample_trace)).
Proof.
  assert (table_wf (record_all sample_trace)) as Hwf by exact (record_all_wf _ sample_trace_wf).
  split; [exact Hwf|].
  exact (proj1 (plan_peak_bounds (record_all sample_trace) 2 Hwf
                  ltac:(vm_compute; reflexivity))).
Defined.

Lemma plan_order_independent_witness :
  let a := (1, mkInterval 0 3 10 1) in
  let b := (2, mkInterval 1 5 20 1) in
  plan_entries [a; b] = plan_entries [b; a].
Proof.
  intros a b. apply (plan_order_independent [a; b] [b; a]).
  - simpl. apply NoDup_cons. split; [|apply NoDup_singleton].
    intros H. apply list_elem_of_singleton in H. discriminate H.
  - constructor.
Defined.
