(* ===== verification/InPlace.v ===== *)
(** * In-place rewriting (crates/rustorch-planner/src/inplace.rs)

    Filters the caller's hints to the safe ones, merges the intervals of each
    accepted pair, runs the allocator and attaches the outputs to the slots of
    their inputs. *)

From Stdlib Require Import ZArith Lia.
From stdpp Require Import base list gmap sorting.
From S2P Require Import Prelude Lifetime Allocator.

(** [struct InPlaceHint] *)
Record InPlaceHint := mkHint { hint_input : Z; hint_output : Z; hint_step : Z }.

(** [struct InPlaceBlockers] *)
Record InPlaceBlockers := mkBlockers { has_hook : gset Z; is_view : gset Z }.

(** [InPlaceBlockers::new], [::mark_hook], [::mark_view], [::is_hook_free],
    [::is_not_view] *)
Definition InPlaceBlockers_new : InPlaceBlockers := mkBlockers ∅ ∅.
Definition mark_hook (b : InPlaceBlockers) (id : Z) : InPlaceBlockers :=
  mkBlockers ({[id]} ∪ has_hook b) (is_view b).
Definition mark_view (b : InPlaceBlockers) (id : Z) : InPlaceBlockers :=
  mkBlockers (has_hook b) ({[id]} ∪ is_view b).
Definition is_hook_free (b : InPlaceBlockers) (id : Z) : bool :=
  negb (bool_decide (id ∈ has_hook b)).
Definition is_not_view (b : InPlaceBlockers) (id : Z) : bool :=
  negb (bool_decide (id ∈ is_view b)).

(** [enum InPlaceDecision] *)
Inductive InPlaceDecision :=
  | Apply
  | BlockedByMissingId
  | BlockedByLastUse
  | BlockedByHook
  | BlockedByView.

#[export] Instance InPlaceDecision_eq_dec : EqDecision InPlaceDecision.
Proof. solve_decision. Defined.

(** [evaluate_hint] *)
Definition evaluate_hint (t : LifetimeTable) (h : InPlaceHint) (b : InPlaceBlockers)
    : InPlaceDecision :=
  match LifetimeTable_get t (hint_input h) with
  | None => BlockedByMissingId
  | Some input =>
      match LifetimeTable_get t (hint_output h) with
      | None => BlockedByMissingId
      | Some _ =>
          if negb (iv_last_use input =? hint_step h) then BlockedByLastUse
          else if negb (is_hook_free b (hint_input h)) then BlockedByHook
          else if negb (is_not_view b (hint_input h)) then BlockedByView
          else Apply
      end
  end.

(** Step 1 of [plan_with_inplace]: the two filters over the hints, with the
    claimed inputs and outputs as the closure's state. *)
Fixpoint accept_hints (t : LifetimeTable) (b : InPlaceBlockers)
    (claimed_inputs claimed_outputs : gset Z) (hints : list InPlaceHint)
    : list InPlaceHint :=
  match hints with
  | [] => []
  | h :: hints =>
      if negb (bool_decide (evaluate_hint t h b = Apply)) then
        accept_hints t b claimed_inputs claimed_outputs hints
      else if bool_decide (hint_input h ∈ claimed_inputs)
           || bool_decide (hint_output h ∈ claimed_outputs)
           || bool_decide (hint_output h ∈ claimed_inputs)
           || bool_decide (hint_input h ∈ claimed_outputs) then
        accept_hints t b claimed_inputs claimed_outputs hints
      else
        h :: accept_hints t b ({[hint_input h]} ∪ claimed_inputs)
               ({[hint_output h]} ∪ claimed_outputs) hints
  end.

(** Step 2: the merged interval of an accepted pair, their map, and the
    rewritten table. *)
Definition merge_intervals (input_iv output_iv : Interval) : Interval :=
  mkInterval (iv_def input_iv)
    (Z.max (iv_last_use input_iv) (iv_last_use output_iv))
    (Z.max (iv_bytes input_iv) (iv_bytes output_iv))
    (Z.max (iv_align input_iv) (iv_align output_iv)).

Definition merged_map {E} (t : LifetimeTable) (safe : list InPlaceHint)
    : res E (gmap Z Interval) :=
  rfold (λ m h,
    let? input_iv := unwrap_opt (LifetimeTable_get t (hint_input h)) in
    let? output_iv := unwrap_opt (LifetimeTable_get t (hint_output h)) in
    Ok (<[hint_input h := merge_intervals input_iv output_iv]> m)) ∅ safe.

Definition rewrite_entry (aliased_outputs : gset Z) (merged : gmap Z Interval)
    (r : LifetimeTable) (e : Z * Interval) : LifetimeTable :=
  let '(id, iv) := e in
  if bool_decide (id ∈ aliased_outputs) then r
  else
    let final_iv := default iv (merged !! id) in
    let r := record_def_with_align r id (iv_def final_iv) (iv_bytes final_iv)
               (iv_align final_iv) in
    (record_use r id (iv_last_use final_iv)).1.

Definition rewrite_table (t : LifetimeTable) (aliased_outputs : gset Z)
    (merged : gmap Z Interval) : LifetimeTable :=
  foldl (rewrite_entry aliased_outputs merged) LifetimeTable_new (LifetimeTable_iter t).

(** Step 4: one output attached to its input's slot. *)
Definition stitch {E} (r : PlanResult) (h : InPlaceHint) : res E PlanResult :=
  let? input_slot := unwrap_opt (slot_of r (hint_input h)) in
  let? s := unwrap_opt (plan_slots r !! input_slot) in
  Ok (mkPlanResult (<[input_slot := push_aliased_tenant s (hint_output h)]> (plan_slots r))
        (plan_assignment r ++ [(hint_output h, input_slot)])).

(** [plan_with_inplace] *)
Definition plan_with_inplace {E} (t : LifetimeTable) (hints : list InPlaceHint)
    (b : InPlaceBlockers) : res E PlanResult :=
  let safe := accept_hints t b ∅ ∅ hints in
  let aliased_outputs : gset Z := list_to_set (hint_output <$> safe) in
  let? merged := merged_map t safe in
  let rewritten := rewrite_table t aliased_outputs merged in
  rfold stitch (plan rewritten) safe.

(** ** Lemmas *)

#[local] Arguments rewrite_entry : simpl never.

Lemma evaluate_hint_Apply t h b :
  evaluate_hint t h b = Apply ↔
  ∃ i o, LifetimeTable_get t (hint_input h) = Some i
    ∧ LifetimeTable_get t (hint_output h) = Some o
    ∧ iv_last_use i = hint_step h
    ∧ hint_input h ∉ has_hook b ∧ hint_input h ∉ is_view b.
Proof.
  unfold evaluate_hint, is_hook_free, is_not_view.
  destruct (LifetimeTable_get t (hint_input h)) as [i|]; [|naive_solver].
  destruct (LifetimeTable_get t (hint_output h)) as [o|]; [|naive_solver].
  rewrite !negb_involutive.
  destruct (Z.eqb_spec (iv_last_use i) (hint_step h)); simpl; [|naive_solver].
  do 2 (case_bool_decide; [naive_solver|]). naive_solver.
Qed.

Lemma accept_hints_Apply t b ci co hints h :
  h ∈ accept_hints t b ci co hints → h ∈ hints ∧ evaluate_hint t h b = Apply.
Proof.
  revert ci co. induction hints as [|h0 hints IH]; intros ci co; simpl;
    [by intros ?%not_elem_of_nil|].
  case_bool_decide as Hev; simpl.
  - case_match; [intros [??]%IH; set_solver|].
    intros [->|[??]%IH]%elem_of_cons; set_solver.
  - intros [??]%IH. set_solver.
Qed.

(** The tensors an accepted list of hints touches. *)
Definition touched (safe : list InPlaceHint) : list Z :=
  concat ((λ h, [hint_input h; hint_output h]) <$> safe).

Lemma elem_of_touched safe id :
  id ∈ touched safe ↔ ∃ h, h ∈ safe ∧ (id = hint_input h ∨ id = hint_output h).
Proof.
  unfold touched. induction safe as [|h safe IH]; csimpl.
  - set_solver.
  - rewrite !elem_of_cons, IH. set_solver.
Qed.

Lemma accept_hints_fresh t b ci co hints id :
  id ∈ touched (accept_hints t b ci co hints) → id ∉ ci ∧ id ∉ co.
Proof.
  revert ci co. induction hints as [|h0 hints IH]; intros ci co; simpl.
  { by intros ?%not_elem_of_nil. }
  case_match; [apply IH|]. case_match eqn:E; [apply IH|].
  rewrite !orb_false_iff, !bool_decide_eq_false in E.
  unfold touched; csimpl. fold (touched (accept_hints t b ({[hint_input h0]} ∪ ci)
    ({[hint_output h0]} ∪ co) hints)).
  intros [->|[->|Hin%IH]%elem_of_cons]%elem_of_cons; set_solver.
Qed.

Lemma accept_hints_NoDup t b ci co hints :
  (∀ h, h ∈ hints → hint_input h ≠ hint_output h) →
  NoDup (touched (accept_hints t b ci co hints)).
Proof.
  revert ci co. induction hints as [|h0 hints IH]; intros ci co Hne; simpl.
  { constructor. }
  assert (∀ h, h ∈ hints → hint_input h ≠ hint_output h) by set_solver.
  case_match; [by apply IH|]. case_match eqn:E; [by apply IH|].
  unfold touched; csimpl. fold (touched (accept_hints t b ({[hint_input h0]} ∪ ci)
    ({[hint_output h0]} ∪ co) hints)).
  rewrite !NoDup_cons, not_elem_of_cons.
  split_and!; [set_solver| | |by apply IH]; intros Hin%accept_hints_fresh; set_solver.
Qed.

Lemma touched_cons h safe :
  touched (h :: safe) = hint_input h :: hint_output h :: touched safe.
Proof. done. Qed.

Lemma touched_input safe h h' :
  NoDup (touched safe) → h ∈ safe → h' ∈ safe →
  hint_input h ≠ hint_output h' ∧ (hint_input h = hint_input h' → h = h')
  ∧ (hint_output h = hint_output h' → h = h').
Proof.
  induction safe as [|h0 safe IH]; [by intros _ ?%not_elem_of_nil|].
  rewrite touched_cons, !NoDup_cons, not_elem_of_cons, !elem_of_touched.
  intros ((Hne & Hi) & Ho & Hnd) Hh Hh'.
  apply elem_of_cons in Hh as [->|Hh], Hh' as [->|Hh'].
  - auto.
  - split_and!; [naive_solver..].
  - split_and!; [naive_solver..].
  - auto.
Qed.

Lemma merged_map_spec {E} t safe :
  (∀ h, h ∈ safe → is_Some (LifetimeTable_get t (hint_input h))
                 ∧ is_Some (LifetimeTable_get t (hint_output h))) →
  NoDup (touched safe) →
  ∃ m, @merged_map E t safe = Ok m
    ∧ (∀ h i o, h ∈ safe → LifetimeTable_get t (hint_input h) = Some i →
         LifetimeTable_get t (hint_output h) = Some o →
         m !! hint_input h = Some (merge_intervals i o))
    ∧ (∀ id, id ∉ hint_input <$> safe → m !! id = None).
Proof.
  intros Hsome. induction safe as [|h safe IH] using rev_ind; intros Hnd.
  { exists ∅. split_and!; [done|set_solver|]. intros. apply lookup_empty. }
  unfold merged_map. rewrite rfold_app.
  assert (touched (safe ++ [h]) = touched safe ++ touched [h]) as Ht
    by (unfold touched; by rewrite fmap_app, concat_app).
  destruct IH as (m & Hm & Hin & Hout).
  { intros. apply Hsome. set_solver. }
  { rewrite Ht in Hnd. by apply NoDup_app in Hnd as [? _]. }
  unfold merged_map in Hm. rewrite Hm. simpl.
  destruct (Hsome h ltac:(set_solver)) as [[i Hi] [o Ho]].
  rewrite Hi, Ho. simpl. eexists. split_and!; [done| |].
  - intros h' i' o' Hh' Hi' Ho'. destruct (decide (hint_input h' = hint_input h)) as [He|He].
    + rewrite He, lookup_insert_eq.
      destruct (touched_input _ h' h Hnd Hh' ltac:(set_solver)) as (_ & Heq & _).
      specialize (Heq He) as ->.
      congruence.
    + rewrite lookup_insert_ne by done. apply Hin; [|done..].
      apply elem_of_app in Hh' as [?|Hh'%list_elem_of_singleton]; [done|congruence].
  - intros id. rewrite fmap_app, elem_of_app. intros Hid.
    rewrite lookup_insert_ne; [apply Hout; tauto|]. set_solver.
Qed.

Definition normal_interval (iv : Interval) : Interval :=
  mkInterval (iv_def iv) (Z.max (iv_def iv) (iv_last_use iv)) (iv_bytes iv)
    (Z.max (iv_align iv) 1).

Lemma normal_interval_wf iv : Interval_wf iv → normal_interval iv = iv.
Proof.
  intros (?&?&?&?&?&?). destruct iv; unfold normal_interval; simpl in *. f_equal; lia.
Qed.

Lemma rewrite_entry_lookup outs m r id iv id' :
  intervals r !! id = None →
  intervals (rewrite_entry outs m r (id, iv)) !! id' =
  if decide (id = id') then
    if decide (id ∈ outs) then None else Some (normal_interval (default iv (m !! id)))
  else intervals r !! id'.
Proof.
  intros Hr. unfold rewrite_entry. case_bool_decide as Ho.
  - case_decide as He; [|done]. subst. by rewrite decide_True.
  - rewrite record_use_lookup, !record_def_with_align_lookup.
    case_decide as He; [|done]. subst. rewrite decide_True, Hr, decide_False by done.
    simpl. done.
Qed.

Lemma rewrite_table_lookup t outs m id :
  intervals (rewrite_table t outs m) !! id =
  if decide (id ∈ outs) then None
  else (λ iv, normal_interval (default iv (m !! id))) <$> intervals t !! id.
Proof.
  unfold rewrite_table.
  assert (∀ l r, NoDup l.*1 → (∀ id, id ∈ l.*1 → intervals r !! id = None) →
    intervals (foldl (rewrite_entry outs m) r l) !! id =
    match (list_to_map l : gmap Z Interval) !! id with
    | Some iv => if decide (id ∈ outs) then None else Some (normal_interval (default iv (m !! id)))
    | None => intervals r !! id
    end) as Hfold.
  { induction l as [|[i iv] l IH]; intros r; simpl; [by rewrite lookup_empty|].
    intros [Hi Hnd]%NoDup_cons Hr. rewrite IH; [|done|].
    - rewrite rewrite_entry_lookup by (apply Hr; set_solver).
      rewrite lookup_insert. destruct (decide (i = id)) as [He|He]; [|done]. subst.
      by rewrite (not_elem_of_list_to_map_1 l id).
    - intros id' Hid'. rewrite rewrite_entry_lookup by (apply Hr; set_solver).
      destruct (decide (i = id')); [by subst|]. apply Hr. set_solver. }
  rewrite Hfold.
  - unfold LifetimeTable_iter. rewrite list_to_map_to_list. simpl.
    destruct (intervals t !! id); simpl; case_decide; done.
  - apply LifetimeTable_iter_NoDup.
  - intros. apply lookup_empty.
Qed.

(** *** Attaching the outputs *)

Lemma slot_of_app slots asg slots' id i k :
  slot_of (mkPlanResult slots (asg ++ [(i, k)])) id =
  match slot_of (mkPlanResult slots' asg) id with
  | Some j => Some j
  | None => if i =? id then Some k else None
  end.
Proof.
  unfold slot_of; simpl. induction asg as [|[j l] asg IH]; simpl.
  - by destruct (i =? id).
  - destruct (j =? id); [done|]. exact IH.
Qed.

(** [p'] extends [p]: the same slots up to further tenants. *)
Definition slots_extend (p p' : PlanResult) : Prop :=
  ∀ k s, plan_slots p !! k = Some s →
    ∃ s', plan_slots p' !! k = Some s' ∧ slot_bytes s' = slot_bytes s
      ∧ slot_align s' = slot_align s ∧ slot_tenants s ⊆ slot_tenants s'.

Lemma slots_extend_refl p : slots_extend p p.
Proof. intros k s Hk. by exists s. Qed.

Lemma slots_extend_trans p q r : slots_extend p q → slots_extend q r → slots_extend p r.
Proof.
  intros Hpq Hqr k s Hk. destruct (Hpq _ _ Hk) as (s' & Hk' & Hb & Ha & Ht).
  destruct (Hqr _ _ Hk') as (s'' & Hk'' & Hb' & Ha' & Ht').
  exists s''. split_and!; [done|congruence|congruence|set_solver].
Qed.

Lemma stitch_spec {E} r h k s :
  slot_of r (hint_input h) = Some k → plan_slots r !! k = Some s →
  ∃ r', @stitch E r h = Ok r'
    ∧ slots_extend r r'
    ∧ (∃ s', plan_slots r' !! k = Some s' ∧ hint_output h ∈ slot_tenants s')
    ∧ (∀ id, slot_of r' id = match slot_of r id with
                             | Some j => Some j
                             | None => if hint_output h =? id then Some k else None
                             end).
Proof.
  intros Hk Hs. unfold stitch. rewrite Hk; simpl. rewrite Hs; simpl.
  pose proof (lookup_lt_Some _ _ _ Hs).
  eexists. split_and!; [done| | |].
  - intros j s0 Hj; simpl. destruct (decide (k = j)) as [->|Hkj].
    + simplify_eq. rewrite list_lookup_insert_eq by done. eexists.
      split_and!; [done..|]. simpl. set_solver.
    + rewrite list_lookup_insert_ne by done. by exists s0.
  - simpl. rewrite list_lookup_insert_eq by done. eexists. split; [done|]. simpl. set_solver.
  - intros id. destruct r as [sl asg]. apply slot_of_app.
Qed.

Lemma stitch_all_spec {E} safe r :
  NoDup (touched safe) →
  (∀ h, h ∈ safe → slot_of r (hint_output h) = None
     ∧ ∃ k s, slot_of r (hint_input h) = Some k ∧ plan_slots r !! k = Some s) →
  ∃ r', @rfold E _ _ stitch r safe = Ok r'
    ∧ slots_extend r r'
    ∧ (∀ id, id ∉ hint_output <$> safe → slot_of r' id = slot_of r id)
    ∧ (∀ h, h ∈ safe → slot_of r' (hint_output h) = slot_of r (hint_input h)
         ∧ ∃ k s, slot_of r' (hint_output h) = Some k
             ∧ plan_slots r' !! k = Some s ∧ hint_output h ∈ slot_tenants s).
Proof.
  revert r. induction safe as [|h safe IH]; intros r Hnd Hsafe; simpl.
  { exists r. split_and!; [done|apply slots_extend_refl|done|by intros ? ?%not_elem_of_nil]. }
  destruct (Hsafe h ltac:(set_solver)) as (Hout & k & s & Hk & Hs).
  destruct (@stitch_spec E r h k s Hk Hs) as (r1 & Hr1 & Hext1 & (s1 & Hs1 & Hin1) & Hslot1).
  rewrite Hr1; simpl. pose proof Hnd as Hnd'.
  rewrite touched_cons, !NoDup_cons, not_elem_of_cons, !elem_of_touched in Hnd'.
  destruct Hnd' as ((Hne & Hi) & Ho & Hnd').
  assert (∀ h', h' ∈ safe → hint_output h ≠ hint_input h' ∧ hint_output h ≠ hint_output h')
    as Hdis by naive_solver.
  assert (∀ id, hint_output h ≠ id → slot_of r1 id = slot_of r id) as Hsame.
  { intros id Hid. rewrite Hslot1. apply Z.eqb_neq in Hid as ->.
    by destruct (slot_of r id). }
  destruct (IH r1 Hnd') as (r' & Hr' & Hext & Hother & Houts).
  { intros h' Hh'. destruct (Hdis h' Hh') as [Hd1 Hd2]. rewrite !Hsame by done.
    destruct (Hsafe h' ltac:(set_solver)) as (? & k' & s' & Hk' & Hs').
    split; [done|]. destruct (Hext1 _ _ Hs') as (s'' & ? & _). by exists k', s''. }
  exists r'. split_and!; [done|by eapply slots_extend_trans| |].
  - intros id. csimpl. rewrite not_elem_of_cons. intros [Hid Hids].
    rewrite Hother by done. by apply Hsame.
  - intros h' [->|Hh']%elem_of_cons.
    + assert (slot_of r' (hint_output h) = Some k) as Hk'.
      { rewrite Hother, Hslot1, Hout, Z.eqb_refl; [done|].
        intros (h' & He & Hh')%list_elem_of_fmap. naive_solver. }
      rewrite Hk', Hk. split; [done|].
      destruct (Hext _ _ Hs1) as (s2 & Hs2 & _ & _ & Ht).
      exists k, s2. split_and!; [done|done|set_solver].
    + destruct (Houts h' Hh') as [-> Hex]. split; [|done].
      apply Hsame. apply Hdis, Hh'.
Qed.

(** *** Representatives

    In the rewritten table an aliased output is represented by its input. *)

(** [iv'] covers [iv]: it starts no later, ends no earlier, and asks for at
    least as many bytes and as strict an alignment. *)
Definition covers (iv' iv : Interval) : Prop :=
  iv_def iv' ≤ iv_def iv ∧ iv_last_use iv ≤ iv_last_use iv'
  ∧ iv_bytes iv ≤ iv_bytes iv' ∧ iv_align iv ≤ iv_align iv'.

Lemma covers_overlaps a' a b' b :
  covers a' a → covers b' b → Interval_overlaps a b = true → Interval_overlaps a' b' = true.
Proof.
  intros (? & ? & _) (? & ? & _). rewrite !Interval_overlaps_true. lia.
Qed.

Definition represents (safe : list InPlaceHint) (rep id : Z) : Prop :=
  (rep = id ∧ id ∉ hint_output <$> safe)
  ∨ ∃ h, h ∈ safe ∧ rep = hint_input h ∧ id = hint_output h.

Lemma represents_inj safe rep id id' :
  NoDup (touched safe) → represents safe rep id → represents safe rep id' → id ≠ id' →
  ∃ h, h ∈ safe ∧ ((id = hint_input h ∧ id' = hint_output h)
                   ∨ (id' = hint_input h ∧ id = hint_output h)).
Proof.
  intros Hnd [[-> Hid]|(h & Hh & -> & ->)] [[E Hid']|(h' & Hh' & E & ->)] Hne.
  - done.
  - exists h'. auto.
  - exists h. auto.
  - destruct (touched_input safe h h' Hnd Hh Hh') as (_ & Heq & _).
    by rewrite (Heq E) in Hne.
Qed.

(** Hints whose pair is in order: distinct tensors, the input defined first. *)
Definition hint_ordered (t : LifetimeTable) (h : InPlaceHint) : Prop :=
  hint_input h ≠ hint_output h
  ∧ ∀ i o, LifetimeTable_get t (hint_input h) = Some i →
      LifetimeTable_get t (hint_output h) = Some o → iv_def i ≤ iv_def o.

(** The whole of [plan_with_inplace]: the accepted hints, the rewritten table
    [r] and what the returned plan [p] is relative to [plan r]. *)
Lemma plan_with_inplace_spec {E} t hints b :
  table_wf t → (∀ h, h ∈ hints → hint_input h ≠ hint_output h) →
  let safe := accept_hints t b ∅ ∅ hints in
  NoDup (touched safe)
  ∧ ∃ r p, @plan_with_inplace E t hints b = Ok p
    ∧ slots_extend (plan r) p
    ∧ (∀ id iv, LifetimeTable_get t id = Some iv →
         ∃ rep iv' k s, represents safe rep id
           ∧ LifetimeTable_get r rep = Some iv'
           ∧ ((∀ h, h ∈ safe → hint_ordered t h) → covers iv' iv)
           ∧ slot_of p id = Some k ∧ slot_of (plan r) rep = Some k
           ∧ plan_slots p !! k = Some s ∧ id ∈ slot_tenants s).
Proof.
  intros Hwf Hne safe.
  assert (NoDup (touched safe)) as Hnd by (by apply accept_hints_NoDup).
  split; [done|].
  assert (∀ h, h ∈ safe → ∃ i o, LifetimeTable_get t (hint_input h) = Some i
            ∧ LifetimeTable_get t (hint_output h) = Some o) as Hget.
  { intros h [_ Hev]%accept_hints_Apply. apply evaluate_hint_Apply in Hev. naive_solver. }
  destruct (@merged_map_spec E t safe) as (m & Hm & Hm_in & Hm_out); [|done|].
  { intros h Hh. destruct (Hget h Hh) as (i & o & -> & ->). by split; eexists. }
  set (outs := list_to_set (hint_output <$> safe) : gset Z).
  set (r := rewrite_table t outs m).
  assert (∀ id, LifetimeTable_get r id = if decide (id ∈ outs) then None
    else (λ iv, normal_interval (default iv (m !! id))) <$> LifetimeTable_get t id) as Hr
    by (intros; apply rewrite_table_lookup).
  assert (∀ h, h ∈ safe → hint_input h ∉ outs) as Hin_outs.
  { intros h Hh. unfold outs. rewrite elem_of_list_to_set.
    intros (h' & He & Hh')%list_elem_of_fmap.
    by destruct (touched_input safe h h' Hnd Hh Hh') as (? & _). }
  assert (∀ h i o, h ∈ safe → LifetimeTable_get t (hint_input h) = Some i →
    LifetimeTable_get t (hint_output h) = Some o →
    LifetimeTable_get r (hint_input h) = Some (normal_interval (merge_intervals i o))) as Hr_in.
  { intros h i o Hh Hi Ho. rewrite Hr, decide_False by auto.
    rewrite Hi; simpl. by rewrite (Hm_in h i o Hh Hi Ho). }
  destruct (@stitch_all_spec E safe (plan r) Hnd) as (p & Hp & Hext & Hother & Houts).
  { intros h Hh. destruct (Hget h Hh) as (i & o & Hi & Ho). split.
    - pose proof (plan_lookup r (hint_output h)) as Hl.
      rewrite Hr, decide_True in Hl; [done|].
      unfold outs. rewrite elem_of_list_to_set. by apply list_elem_of_fmap_2.
    - pose proof (plan_lookup r (hint_input h)) as Hl.
      rewrite (Hr_in h i o Hh Hi Ho) in Hl. naive_solver. }
  exists r, p. split_and!; [|done|].
  { unfold plan_with_inplace. fold safe. rewrite Hm. exact Hp. }
  intros id iv Hid. destruct (decide (id ∈ hint_output <$> safe)) as [Hout|Hout].
  - apply list_elem_of_fmap in Hout as (h & -> & Hh).
    destruct (Hget h Hh) as (i & o & Hi & Ho).
    destruct (Houts h Hh) as (Heq & k & s & Hk & Hs & Hin).
    exists (hint_input h), (normal_interval (merge_intervals i o)), k, s.
    split_and!; [right; by exists h|by apply Hr_in| |done|congruence|done|done].
    intros Hord. destruct (Hord h Hh) as [_ Hdef]. specialize (Hdef _ _ Hi Ho).
    simplify_eq. unfold covers; simpl. lia.
  - pose proof (plan_lookup r id) as Hl. rewrite Hr in Hl.
    rewrite decide_False, Hid in Hl by (unfold outs; by rewrite elem_of_list_to_set).
    simpl in Hl. destruct Hl as (k & s & Hk & Hs & Hin).
    destruct (Hext _ _ Hs) as (s' & Hs' & _ & _ & Ht).
    exists id, (normal_interval (default iv (m !! id))), k, s'.
    split_and!; [by left| | |by rewrite Hother|done|done|set_solver].
    + rewrite Hr, decide_False, Hid by (unfold outs; by rewrite elem_of_list_to_set). done.
    + intros _. destruct (decide (id ∈ hint_input <$> safe)) as [(h & -> & Hh)%list_elem_of_fmap|Hi].
      * destruct (Hget h Hh) as (i & o & Hi & Ho). rewrite (Hm_in h i o Hh Hi Ho).
        simplify_eq. unfold covers; simpl. lia.
      * rewrite Hm_out by done. unfold covers; simpl. lia.
Qed.

Lemma accept_hints_none t b ci co hints :
  (∀ h, h ∈ hints → evaluate_hint t h b ≠ Apply) → accept_hints t b ci co hints = [].
Proof.
  revert ci co. induction hints as [|h hints IH]; intros ci co Hno; simpl; [done|].
  rewrite bool_decide_eq_false_2 by (apply Hno; set_solver). simpl.
  apply IH. set_solver.
Qed.

Lemma rewrite_table_id t : table_wf t → rewrite_table t ∅ ∅ = t.
Proof.
  intros Hwf. destruct t as [m].
  assert (intervals (rewrite_table (mkLifetimeTable m) ∅ ∅) = m) as Heq.
  { apply map_eq. intros id.
    pose proof (rewrite_table_lookup (mkLifetimeTable m) ∅ ∅ id) as Hl.
    unfold LifetimeTable_get in Hl. simpl in Hl. rewrite Hl, decide_False by set_solver.
    destruct (m !! id) as [iv|] eqn:E; simpl; [|done].
    rewrite lookup_empty; simpl. f_equal. apply normal_interval_wf, (Hwf id). done. }
  destruct (rewrite_table (mkLifetimeTable m) ∅ ∅) as [m']. simpl in Heq. by subst m'.
Qed.

(** Where the returned plan puts the tensors of the table. *)
Lemma inplace_sharing {E} t hints b :
  table_wf t → (∀ h, h ∈ hints → hint_ordered t h) →
  ∃ p, @plan_with_inplace E t hints b = Ok p
    ∧ (∀ id iv, LifetimeTable_get t id = Some iv →
         ∃ k s, slot_of p id = Some k ∧ plan_slots p !! k = Some s ∧ id ∈ slot_tenants s)
    ∧ (∀ id iv id' iv', LifetimeTable_get t id = Some iv →
         LifetimeTable_get t id' = Some iv' → id ≠ id' →
         Interval_overlaps iv iv' = true → slot_of p id = slot_of p id' →
         ∃ h, h ∈ hints ∧ evaluate_hint t h b = Apply
           ∧ ((id = hint_input h ∧ id' = hint_output h)
              ∨ (id' = hint_input h ∧ id = hint_output h))).
Proof.
  intros Hwf Hord.
  destruct (@plan_with_inplace_spec E t hints b Hwf) as (Hnd & r & p & Hp & Hext & Hall).
  { intros h Hh. by apply Hord. }
  exists p. split_and!; [done| |].
  - intros id iv Hid. destruct (Hall id iv Hid) as (_ & _ & k & s & _ & _ & _ & ? & _ & ? & ?).
    by exists k, s.
  - intros id iv id' iv' Hid Hid' Hne Hov Heq.
    assert (∀ h, h ∈ accept_hints t b ∅ ∅ hints → hint_ordered t h) as Hord'.
    { intros h [Hh _]%accept_hints_Apply. by apply Hord. }
    destruct (Hall id iv Hid) as (rep & jv & k & s & Hrep & Hr & Hcov & Hk & Hkr & _).
    destruct (Hall id' iv' Hid') as (rep' & jv' & k' & s' & Hrep' & Hr' & Hcov' & Hk' & Hkr' & _).
    destruct (decide (rep = rep')) as [<-|Hrr].
    + destruct (represents_inj _ _ _ _ Hnd Hrep Hrep' Hne) as (h & Hh & Hpair).
      apply accept_hints_Apply in Hh as [??]. by exists h.
    + exfalso. pose proof (covers_overlaps _ _ _ _ (Hcov Hord') (Hcov' Hord') Hov) as Hov'.
      rewrite (plan_disjoint r rep jv rep' jv') in Hov'; [done..|congruence].
Qed.

(** ** Properties *)

(** for hints whose pair is in order, in-place planning does not panic,
    gives every tensor of the table a slot that lists it, and two tensors whose
    intervals overlap share a slot only if they are the input and output of one
    hint that passed every safety condition. *)
Theorem inplace_safe {E} t hints b :
  table_wf t → (∀ h, h ∈ hints → hint_ordered t h) →
  ∃ p, @plan_with_inplace E t hints b = Ok p
    ∧ (∀ id iv, LifetimeTable_get t id = Some iv →
         ∃ k s, slot_of p id = Some k ∧ plan_slots p !! k = Some s ∧ id ∈ slot_tenants s)
    ∧ (∀ id iv id' iv', LifetimeTable_get t id = Some iv →
         LifetimeTable_get t id' = Some iv' → id ≠ id' →
         Interval_overlaps iv iv' = true → slot_of p id = slot_of p id' →
         ∃ h, h ∈ hints ∧ evaluate_hint t h b = Apply
           ∧ ((id = hint_input h ∧ id' = hint_output h)
              ∨ (id' = hint_input h ∧ id = hint_output h))).
Proof. apply inplace_sharing. Qed.

(** when no hint passes the safety conditions (in particular with no
    hints), in-place planning is exactly [plan]. *)
Theorem inplace_no_hint {E} t hints b :
  table_wf t → (∀ h, h ∈ hints → evaluate_hint t h b ≠ Apply) →
  @plan_with_inplace E t hints b = Ok (plan t).
Proof.
  intros Hwf Hno. unfold plan_with_inplace. rewrite accept_hints_none by done.
  simpl. by rewrite rewrite_table_id.
Qed.

(** a hint whose input is its own output panics as soon as its other safety
    conditions hold, although the function is documented never to panic on bad
    hints: the input is dropped with the outputs and then looked up. *)
Theorem inplace_self_hint_panics {E} t h b :
  hint_input h = hint_output h → evaluate_hint t h b = Apply →
  @plan_with_inplace E t [h] b = Panic.
Proof.
  intros Hself Hev. unfold plan_with_inplace. simpl.
  rewrite bool_decide_eq_true_2 by done. simpl.
  rewrite !bool_decide_eq_false_2 by set_solver. simpl.
  apply evaluate_hint_Apply in Hev as (i & o & Hi & Ho & _).
  unfold merged_map; simpl. rewrite <- Hself, Hi; simpl. unfold stitch.
  match goal with
  | |- context [slot_of (plan ?r) _] => pose proof (plan_lookup r (hint_input h)) as Hl
  end.
  unfold LifetimeTable_get in Hl. rewrite rewrite_table_lookup, decide_True in Hl by set_solver.
  by rewrite Hl.
Qed.

(** an accepted hint whose output was defined before its input (the safety
    conditions do not look at the output's interval) yields a plan in which two
    tensors that are alive together, and are no hint's pair, share a slot. *)
Theorem inplace_misordered_overlap :
  ∃ t h p iv2 iv3,
    table_wf t ∧ evaluate_hint t h InPlaceBlockers_new = Apply
    ∧ hint_input h = 1 ∧ hint_output h = 2
    ∧ @plan_with_inplace False t [h] InPlaceBlockers_new = Ok p
    ∧ LifetimeTable_get t 2 = Some iv2 ∧ LifetimeTable_get t 3 = Some iv3
    ∧ Interval_overlaps iv2 iv3 = true ∧ slot_of p 2 = slot_of p 3
    ∧ slot_of p 2 ≠ None.
Proof.
  pose (evs := [EDef 2 0 100 1; EDef 3 0 100 1; EUse 2 1; EUse 3 1; EDef 1 5 100 1; EUse 1 6]).
  exists (record_all evs), (mkHint 1 2 6). do 3 eexists. split_and!.
  - apply record_all_wf. unfold evs. repeat constructor; vm_compute; intros; discriminate.
  - vm_compute. reflexivity.
  - reflexivity.
  - reflexivity.
  - vm_compute. reflexivity.
  - vm_compute. reflexivity.
  - vm_compute. reflexivity.
  - vm_compute. reflexivity.
  - vm_compute. reflexivity.
  - vm_compute. discriminate.
Qed.

(** *** Witnesses *)

Definition inplace_trace : list event :=
  [EDef 1 0 100 16; EUse 1 2; EDef 2 2 80 64; EUse 2 4; EDef 3 1 90 1; EUse 3 3].

Lemma inplace_trace_wf : table_wf (record_all inplace_trace).
Proof.
  apply record_all_wf. unfold inplace_trace.
  repeat constructor; vm_compute; intros; discriminate.
Qed.

Lemma inplace_safe_witness :
  ∃ p, @plan_with_inplace False (record_all inplace_trace) [mkHint 1 2 2] InPlaceBlockers_new = Ok p
    ∧ ∃ k, slot_of p 3 = Some k.
Proof.
  destruct (@inplace_safe False (record_all inplace_trace) [mkHint 1 2 2] InPlaceBlockers_new
              inplace_trace_wf) as (p & Hp & Hall & _).
  - intros h Hh. apply list_elem_of_singleton in Hh as ->. split; [discriminate|].
    intros i o Hi Ho. vm_compute in Hi, Ho. injection Hi as <-. injection Ho as <-. simpl. lia.
  - exists p. split; [exact Hp|].
    destruct (Hall 3 (mkInterval 1 3 90 1) ltac:(vm_compute; reflexivity)) as (k & _ & Hk & _).
    exists k. exact Hk.
Defined.

Lemma inplace_no_hint_witness :
  evaluate_hint (record_all inplace_trace) (mkHint 1 2 1) InPlaceBlockers_new = BlockedByLastUse
  ∧ @plan_with_inplace False (record_all inplace_trace) [mkHint 1 2 1] InPlaceBlockers_new
    = Ok (plan (record_all inplace_trace)).
Proof.
  split; [vm_compute; reflexivity|].
  apply (inplace_no_hint (record_all inplace_trace) [mkHint 1 2 1] InPlaceBlockers_new inplace_trace_wf).
  intros h Hh. apply list_elem_of_singleton in Hh as ->. vm_compute. discriminate.
Defined.

Lemma inplace_self_hint_panics_witness :
  @plan_with_inplace False (record_all inplace_trace) [mkHint 1 1 2] InPlaceBlockers_new = Panic.
Proof.
  apply (inplace_self_hint_panics (record_all inplace_trace) (mkHint 1 1 2) InPlaceBlockers_new).
  - reflexivity.
  - vm_compute. reflexivity.
Defined.
