(* ===== verification/Reorder.v ===== *)
(** * Operation reordering (crates/rustorch-planner/src/reorder.rs)

    The DAG of operations, the greedy topological schedule of [reorder] and
    the lifetime table of a schedule.  [OpId] and [TensorId] are [Z] (a
    [u64]).  A [HashMap] iterates in an unspecified order; the model
    enumerates it with [map_to_list] and [elements], and every theorem holds
    for whatever order these pick.  The [while] loop runs with one unit of
    fuel per operation; [reorder_total] shows that it is enough. *)

From Stdlib Require Import ZArith Lia.
From stdpp Require Import base list gmap sets sorting.
From S2P Require Import Prelude Lifetime Allocator.

(** [struct OpNode] *)
Record OpNode := mkOpNode {
  op_id : Z;
  op_reads : list Z;
  op_writes : Z;
  op_bytes : Z;   (* u64 *)
  op_align : Z    (* u32 *)
}.

(** [struct OpDag] *)
Record OpDag := mkOpDag {
  nodes : gmap Z OpNode;
  producer_of : gmap Z Z
}.

(** [OpDag::new], [::len], [::is_empty], [::get], [::iter] *)
Definition OpDag_new : OpDag := mkOpDag ∅ ∅.
Definition OpDag_len (d : OpDag) : nat := size (nodes d).
Definition OpDag_is_empty (d : OpDag) : bool := bool_decide (nodes d = ∅).
Definition OpDag_get (d : OpDag) (id : Z) : option OpNode := nodes d !! id.
Definition OpDag_iter (d : OpDag) : list OpNode := snd <$> map_to_list (nodes d).

(** [OpDag::add_op]; a second producer of a tensor panics. *)
Definition add_op {E} (d : OpDag) (op : OpNode) : res E OpDag :=
  match producer_of d !! op_writes op with
  | Some _ => Panic
  | None => Ok (mkOpDag (<[op_id op := op]> (nodes d))
                  (<[op_writes op := op_id op]> (producer_of d)))
  end.

(** The tensors read by some operation and produced by none: the same loop in
    [lifetime_for] ([external]) and in [reorder] ([produced]). *)
Definition external_inputs (d : OpDag) : gset Z :=
  foldl (λ s op,
    foldl (λ s r, if bool_decide (producer_of d !! r = None) then {[r]} ∪ s else s)
      s (op_reads op)) ∅ (OpDag_iter d).

(** [OpDag::lifetime_for]: the loop over the schedule, and the whole. *)
Fixpoint lifetime_steps {E} (d : OpDag) (step : Z) (t : LifetimeTable) (schedule : list Z)
    : res E LifetimeTable :=
  match schedule with
  | [] => Ok t
  | id :: rest =>
      let? op := unwrap_opt (nodes d !! id) in
      let s := wrap 32 step in
      let t := record_def_with_align t (op_writes op) s (op_bytes op) (op_align op) in
      let t := foldl (λ t r, (record_use t r s).1) t (op_reads op) in
      lifetime_steps d (step + 1) t rest
  end.

Definition lifetime_for {E} (d : OpDag) (schedule : list Z) : res E LifetimeTable :=
  let t := foldl (λ t ext, record_def t ext 0 0) LifetimeTable_new
             (elements (external_inputs d)) in
  lifetime_steps d 0 t schedule.

(** [enum ReorderError] *)
Inductive ReorderError := Cycle (remaining : list Z).

(** The variables of [reorder]'s loop. *)
Record rstate := mkRState {
  remaining_consumers : gmap Z Z;   (* u32 *)
  produced : gset Z;
  unscheduled : gset Z;
  ready : gset Z;
  schedule : list Z
}.

(** [*remaining_consumers.entry(r).or_insert(0) += 1] *)
Definition count_read (m : gmap Z Z) (r : Z) : gmap Z Z :=
  <[r := wrap 32 (default 0 (m !! r) + 1)]> m.

Definition count_consumers (d : OpDag) : gmap Z Z :=
  foldl (λ m op, foldl count_read m (op_reads op)) ∅ (OpDag_iter d).

(** [op.reads.iter().all(|r| produced.contains(r))] *)
Definition reads_produced (p : gset Z) (op : OpNode) : bool :=
  forallb (λ r, bool_decide (r ∈ p)) (op_reads op).

(** The state before the loop. *)
Definition reorder_init (d : OpDag) : rstate :=
  let produced := external_inputs d in
  mkRState (count_consumers d) produced (dom (nodes d))
    (foldl (λ s op, if reads_produced produced op then {[op_id op]} ∪ s else s)
       ∅ (OpDag_iter d)) [].

(** The score of an operation: the bytes of the reads that die here, less the
    bytes it allocates, in [i64]; [uses] gives the remaining consumers. *)
Definition score_with (uses : Z → Z) (d : OpDag) (op : OpNode) : Z :=
  let freed :=
    foldl (λ a x, swrap 64 (a + x)) 0
      (omap (λ r, if uses r =? 1 then
                    p ← producer_of d !! r; n ← nodes d !! p; Some (swrap 64 (op_bytes n))
                  else None)
         (op_reads op)) in
  swrap 64 (freed - swrap 64 (op_bytes op)).

(** [(score, Reverse(bytes), Reverse(id))] and its [Ord] *)
Definition pick_key (uses : Z → Z) (d : OpDag) (op : OpNode) : Z * Z * Z :=
  (score_with uses d op, op_bytes op, op_id op).

Definition pick_cmp (a b : Z * Z * Z) : comparison :=
  let '(sa, ba, ia) := a in
  let '(sb, bb, ib) := b in
  then_with (sa ?= sb) (then_with (bb ?= ba) (ib ?= ia)).

(** [Iterator::max_by]: the last of the maximal elements. *)
Definition max_by {A} (cmp : A → A → comparison) (l : list A) : option A :=
  match l with
  | [] => None
  | x :: l => Some (foldl (λ best y, match cmp best y with Gt => best | _ => y end) x l)
  end.

Definition pick {E} (d : OpDag) (st : rstate) : res E Z :=
  let uses r := default 0 (remaining_consumers st !! r) in
  let? keys := rmapM (λ id, let? op := unwrap_opt (nodes d !! id) in
                            Ok (pick_key uses d op))
                 (sort_by Z.compare (elements (ready st))) in
  let? best := unwrap_opt (max_by pick_cmp keys) in
  Ok best.2.

(** [*cnt = cnt.saturating_sub(1)] for a read that has a count. *)
Definition uncount_read (m : gmap Z Z) (r : Z) : gmap Z Z :=
  match m !! r with
  | Some cnt => <[r := sat_sub cnt 1]> m
  | None => m
  end.

(** The rest of the loop body, after the pick. *)
Definition commit {E} (d : OpDag) (st : rstate) (id : Z) : res E rstate :=
  let ready := ready st ∖ {[id]} in
  let unscheduled := unscheduled st ∖ {[id]} in
  let? op := unwrap_opt (nodes d !! id) in
  let counts := foldl uncount_read (remaining_consumers st) (op_reads op) in
  let produced := {[op_writes op]} ∪ produced st in
  let? ready := rfold (λ s u,
      if bool_decide (u ∈ s) then Ok s
      else let? op_u := unwrap_opt (nodes d !! u) in
           Ok (if reads_produced produced op_u then {[u]} ∪ s else s))
    ready (elements unscheduled) in
  Ok (mkRState counts produced unscheduled ready (schedule st ++ [id])).

(** The [while] loop. *)
Fixpoint reorder_loop (fuel : nat) (d : OpDag) (st : rstate)
    : res ReorderError (list Z) :=
  if bool_decide (unscheduled st = ∅) then Ok (schedule st)
  else if bool_decide (ready st = ∅) then
    Err (Cycle (sort_by Z.compare (elements (unscheduled st))))
  else
    match fuel with
    | O => Panic
    | S fuel =>
        let? id := pick d st in
        let? st' := commit d st id in
        reorder_loop fuel d st'
    end.

(** [reorder] *)
Definition reorder (d : OpDag) : res ReorderError (list Z) :=
  if OpDag_is_empty d then Ok []
  else reorder_loop (OpDag_len d) d (reorder_init d).

(** [plan_with_reorder] *)
Definition plan_with_reorder (d : OpDag) : res ReorderError PlanResult :=
  let? schedule := reorder d in
  let? table := lifetime_for d schedule in
  Ok (plan table).

(** ** Specification *)

(** The DAG that [add_op] builds from operations with distinct ids: both maps
    agree. *)
Definition dag_wf (d : OpDag) : Prop :=
  (∀ id op, nodes d !! id = Some op →
     op_id op = id ∧ producer_of d !! op_writes op = Some id)
  ∧ (∀ w id, producer_of d !! w = Some id →
       ∃ op, nodes d !! id = Some op ∧ op_writes op = w).

(** A tensor is available once the operations [pre] have run. *)
Definition avail (d : OpDag) (pre : list Z) (r : Z) : Prop :=
  match producer_of d !! r with None => True | Some p => p ∈ pre end.

Definition can_run (d : OpDag) (pre : list Z) (id : Z) : Prop :=
  ∃ op, nodes d !! id = Some op ∧ ∀ r, r ∈ op_reads op → avail d pre r.

(** Every operation of the schedule runs after the producers of its reads. *)
Definition topological (d : OpDag) (l : list Z) : Prop :=
  ∀ pre id post, l = pre ++ id :: post → can_run d pre id.

(** A complete schedule: every operation once, in a topological order. *)
Definition schedules (d : OpDag) (l : list Z) : Prop :=
  l ≡ₚ elements (dom (nodes d)) ∧ topological d l.

(** Operations each of which waits for another of them. *)
Definition stuck (d : OpDag) (rem : list Z) : Prop :=
  rem ≠ [] ∧ rem ⊆ elements (dom (nodes d))
  ∧ ∀ id, id ∈ rem → ∃ op r p, nodes d !! id = Some op ∧ r ∈ op_reads op
      ∧ producer_of d !! r = Some p ∧ p ∈ rem.

(** Reads of [r] by the operations outside [pre]. *)
Definition occ (r : Z) (l : list Z) : Z := zsum ((λ x, if x =? r then 1 else 0) <$> l).
Definition uses_left (d : OpDag) (pre : list Z) (r : Z) : Z :=
  zsum ((λ op, if bool_decide (op_id op ∈ pre) then 0 else occ r (op_reads op))
          <$> OpDag_iter d).
Definition total_reads (d : OpDag) : Z :=
  zsum ((λ op, Z.of_nat (length (op_reads op))) <$> OpDag_iter d).

(** Each operation of the schedule is the best of those that could run. *)
Definition greedy_at (d : OpDag) (pre : list Z) (id : Z) : Prop :=
  ∃ op, nodes d !! id = Some op ∧
    ∀ id' op', nodes d !! id' = Some op' → id' ∉ pre → can_run d pre id' →
      pick_cmp (pick_key (uses_left d pre) d op')
               (pick_key (uses_left d pre) d op) ≠ Gt.

Definition greedy (d : OpDag) (l : list Z) : Prop :=
  ∀ pre id post, l = pre ++ id :: post → greedy_at d pre id.

(** ** Lemmas *)

Lemma add_op_wf {E} d op d' :
  dag_wf d → nodes d !! op_id op = None → @add_op E d op = Ok d' → dag_wf d'.
Proof.
  intros [H1 H2] Hid. unfold add_op. destruct (producer_of d !! op_writes op) eqn:Hw; [done|].
  intros [= <-]. split; simpl.
  - intros id o [[<- <-]|[Hne Ho]]%lookup_insert_Some; [by rewrite lookup_insert_eq|].
    destruct (H1 _ _ Ho) as [-> Hp]. split; [done|].
    rewrite lookup_insert_ne; [done|]. congruence.
  - intros w id [[<- <-]|[Hne Ho]]%lookup_insert_Some.
    + exists op. by rewrite lookup_insert_eq.
    + destruct (H2 _ _ Ho) as (o & Hn & <-). exists o.
      rewrite lookup_insert_ne; [done|]. congruence.
Qed.

Lemma dag_wf_new : dag_wf OpDag_new.
Proof. split; intros ??; simpl; rewrite lookup_empty; done. Qed.

Lemma elem_of_OpDag_iter d op : op ∈ OpDag_iter d ↔ ∃ id, nodes d !! id = Some op.
Proof.
  unfold OpDag_iter. rewrite list_elem_of_fmap. split.
  - intros ([id o] & -> & H%elem_of_map_to_list). by exists id.
  - intros (id & H). exists (id, op). split; [done|]. by apply elem_of_map_to_list.
Qed.

Lemma OpDag_iter_delete d id op :
  nodes d !! id = Some op →
  OpDag_iter d ≡ₚ op :: (snd <$> map_to_list (delete id (nodes d))).
Proof. intros H. unfold OpDag_iter. by rewrite <- (map_to_list_delete _ _ _ H). Qed.

(** A fold that adds the elements a test keeps is a comprehension. *)
Lemma foldl_insert_if {A} (f : A → Z) (P : A → bool) l (s : gset Z) y :
  y ∈ foldl (λ s x, if P x then {[f x]} ∪ s else s) s l
  ↔ y ∈ s ∨ ∃ x, x ∈ l ∧ P x = true ∧ y = f x.
Proof.
  revert s. induction l as [|x l IH]; intros s; simpl; [set_solver|].
  rewrite IH. setoid_rewrite elem_of_cons. destruct (P x) eqn:Hx; [|naive_solver congruence].
  rewrite elem_of_union, elem_of_singleton. naive_solver.
Qed.

Lemma external_inputs_spec d r :
  r ∈ external_inputs d ↔
  producer_of d !! r = None ∧ ∃ id op, nodes d !! id = Some op ∧ r ∈ op_reads op.
Proof.
  unfold external_inputs.
  assert (∀ l (s : gset Z), r ∈ foldl (λ s op, foldl (λ s r,
      if bool_decide (producer_of d !! r = None) then {[r]} ∪ s else s) s (op_reads op)) s l
    ↔ r ∈ s ∨ producer_of d !! r = None ∧ ∃ op, op ∈ l ∧ r ∈ op_reads op) as H.
  { induction l as [|op l IH]; intros s; simpl; [set_solver|].
    rewrite IH, (foldl_insert_if (λ r, r) (λ r, bool_decide (producer_of d !! r = None))).
    setoid_rewrite elem_of_cons. setoid_rewrite bool_decide_eq_true. naive_solver. }
  rewrite H, elem_of_empty. setoid_rewrite elem_of_OpDag_iter. naive_solver.
Qed.

Lemma reads_produced_spec p op :
  reads_produced p op = true ↔ ∀ r, r ∈ op_reads op → r ∈ p.
Proof.
  unfold reads_produced. rewrite forallb_forall. setoid_rewrite bool_decide_eq_true.
  by setoid_rewrite list_elem_of_In.
Qed.

#[export] Instance avail_dec d pre r : Decision (avail d pre r).
Proof. unfold avail. destruct (producer_of d !! r); apply _. Defined.

Lemma avail_mono d pre pre' r : pre ⊆ pre' → avail d pre r → avail d pre' r.
Proof. unfold avail. destruct (producer_of d !! r); set_solver. Qed.

(** A property of every split of a list, extended at its end. *)
Lemma splits_snoc {A} (P : list A → A → Prop) l x :
  (∀ pre y post, l = pre ++ y :: post → P pre y) → P l x →
  ∀ pre y post, l ++ [x] = pre ++ y :: post → P pre y.
Proof.
  intros Hl Hx pre y post [(post' & -> & Hs)|(-> & -> & <-)]%snoc_split; eauto.
Qed.

(** *** Counting the remaining consumers *)

Lemma occ_cons r x l : occ r (x :: l) = (if x =? r then 1 else 0) + occ r l.
Proof. done. Qed.

Lemma occ_bounds r l : 0 ≤ occ r l ≤ Z.of_nat (length l).
Proof.
  induction l as [|x l IH]; [done|]. rewrite occ_cons. simpl length. destruct (x =? r); lia.
Qed.

Lemma count_reads_lookup m l r a :
  default 0 (m !! r) = wrap 32 a →
  default 0 (foldl count_read m l !! r) = wrap 32 (a + occ r l).
Proof.
  revert m a. induction l as [|x l IH]; intros m a Hm; simpl foldl.
  - by replace (a + occ r []) with a by (unfold occ, zsum; simpl; lia).
  - rewrite occ_cons. rewrite (IH _ (a + (if x =? r then 1 else 0))); [f_equal; lia|].
    unfold count_read. destruct (Z.eqb_spec x r) as [->|Hne].
    + rewrite lookup_insert_eq; simpl. by rewrite Hm, wrap_add_l.
    + rewrite lookup_insert_ne, Z.add_0_r by done. done.
Qed.

Lemma count_consumers_lookup d r :
  default 0 (count_consumers d !! r) = wrap 32 (uses_left d [] r).
Proof.
  unfold count_consumers, uses_left.
  assert (∀ l m a, default 0 (m !! r) = wrap 32 a →
    default 0 (foldl (λ m op, foldl count_read m (op_reads op)) m l !! r)
    = wrap 32 (a + zsum ((λ op, if bool_decide (op_id op ∈ []) then 0
                                else occ r (op_reads op)) <$> l))) as H.
  { induction l as [|op l IH]; intros m a Hm; simpl foldl.
    - by rewrite Hm, fmap_nil, zsum_nil, Z.add_0_r.
    - rewrite fmap_cons, zsum_cons. rewrite (IH _ (a + occ r (op_reads op))).
      + rewrite bool_decide_eq_false_2 by set_solver. f_equal. lia.
      + by apply count_reads_lookup. }
  rewrite (H _ _ 0); [done|]. by rewrite lookup_empty.
Qed.

Lemma uncount_reads_lookup m l r :
  0 ≤ default 0 (m !! r) →
  default 0 (foldl uncount_read m l !! r) = sat_sub (default 0 (m !! r)) (occ r l).
Proof.
  revert m. induction l as [|x l IH]; intros m Hm; simpl foldl.
  - unfold sat_sub, occ, zsum. simpl. lia.
  - rewrite occ_cons. assert (default 0 (uncount_read m x !! r)
      = sat_sub (default 0 (m !! r)) (if x =? r then 1 else 0)) as Hx.
    { unfold uncount_read. destruct (Z.eqb_spec x r) as [->|Hne].
      - destruct (m !! r) eqn:E; [by rewrite lookup_insert_eq|]. rewrite E. done.
      - unfold sat_sub. destruct (m !! x); [rewrite lookup_insert_ne by done|]; lia. }
    pose proof (occ_bounds r l).
    rewrite IH, Hx; unfold sat_sub in *; destruct (x =? r); lia.
Qed.

Lemma uses_left_bounds d pre r : 0 ≤ uses_left d pre r ≤ total_reads d.
Proof.
  unfold uses_left, total_reads. induction (OpDag_iter d) as [|op l IH]; [done|]. csimpl.
  rewrite !zsum_cons. pose proof (occ_bounds r (op_reads op)). case_bool_decide; lia.
Qed.

Lemma uses_left_snoc d pre id op r :
  dag_wf d → nodes d !! id = Some op → id ∉ pre →
  uses_left d pre r = occ r (op_reads op) + uses_left d (pre ++ [id]) r.
Proof.
  intros [Hwf _] Hop Hid. unfold uses_left. rewrite (OpDag_iter_delete d id op Hop). csimpl.
  rewrite !zsum_cons. destruct (Hwf _ _ Hop) as [-> _].
  rewrite bool_decide_eq_false_2, bool_decide_eq_true_2 by set_solver.
  rewrite Z.add_0_l. do 2 f_equal. apply list_fmap_ext. intros i o Ho%list_elem_of_lookup_2.
  apply list_elem_of_fmap in Ho as ([id' o'] & -> & Ho%elem_of_map_to_list). simpl.
  apply lookup_delete_Some in Ho as [Hne Ho]. destruct (Hwf _ _ Ho) as [-> _].
  rewrite (bool_decide_ext (id' ∈ pre) (id' ∈ pre ++ [id])); [done|]. set_solver.
Qed.

(** *** The pick *)

Definition pick_key_list (k : Z * Z * Z) : list Z := [k.1.1; - k.1.2; - k.2].

Lemma pick_cmp_lex a b : pick_cmp a b = lex (pick_key_list a) (pick_key_list b).
Proof.
  destruct a as [[sa ba] ia], b as [[sb bb] ib]. simpl.
  rewrite !Z.compare_opp. by destruct (sa ?= sb), (bb ?= ba), (ib ?= ia).
Qed.

Lemma max_by_spec {A} (cmp : A → A → comparison) (key : A → list Z) l m :
  (∀ x y, cmp x y = lex (key x) (key y)) → (∀ x y, length (key x) = length (key y)) →
  max_by cmp l = Some m → m ∈ l ∧ ∀ y, y ∈ l → cmp y m ≠ Gt.
Proof.
  intros Hcmp Hlen. destruct l as [|x l]; [done|]. simpl. intros [= <-].
  assert (∀ x, cmp x x ≠ Gt) as Hrefl.
  { intros z. rewrite Hcmp. destruct (lex_total (key z) (key z)); auto. }
  assert (∀ x y z, cmp x y ≠ Gt → cmp y z ≠ Gt → cmp x z ≠ Gt) as Htrans.
  { intros u v w. rewrite !Hcmp. apply lex_trans; auto. }
  revert x. induction l as [|y l IH]; intros x; simpl.
  { split; [set_solver|]. intros y ->%list_elem_of_singleton. apply Hrefl. }
  set (b := match cmp x y with Gt => x | _ => y end).
  assert (cmp x b ≠ Gt ∧ cmp y b ≠ Gt ∧ (b = x ∨ b = y)) as (Hx & Hy & Hb).
  { unfold b. destruct (cmp x y) eqn:E; split_and!; auto; rewrite ?E; try done.
    destruct (lex_total (key x) (key y)) as [H|H]; [auto| |]; rewrite <- Hcmp in H; done. }
  destruct (IH b) as [Hin Hmax]. fold b. clearbody b. split.
  - rewrite !elem_of_cons. apply elem_of_cons in Hin as [Hin|Hin]; [|by auto].
    rewrite Hin. destruct Hb; auto.
  - intros z [->|[->|Hz]%elem_of_cons]%elem_of_cons; [| |apply Hmax; set_solver];
      eapply Htrans; try (apply Hmax; left); done.
Qed.

Lemma max_by_is_Some {A} (cmp : A → A → comparison) l : l ≠ [] → is_Some (max_by cmp l).
Proof. destruct l; [done|]. by eexists. Qed.

Lemma score_with_ext uses uses' d op :
  (∀ r, uses r = uses' r) → score_with uses d op = score_with uses' d op.
Proof.
  intros H. unfold score_with. do 3 f_equal. apply list_omap_ext.
  apply Forall2_same_length_lookup_2; [done|]. intros i x y Hx Hy. simplify_eq. by rewrite H.
Qed.

Lemma rmapM_unwrap {E A B} (f : A → option B) l :
  (∀ x, x ∈ l → is_Some (f x)) → @rmapM E _ _ (λ x, unwrap_opt (f x)) l = Ok (omap f l).
Proof.
  induction l as [|x l IH]; intros H; csimpl; [done|].
  destruct (H x ltac:(set_solver)) as [y ->]. simpl. rewrite IH by set_solver. done.
Qed.

Lemma pick_spec {E} d st :
  dag_wf d → ready st ≠ ∅ → ready st ⊆ dom (nodes d) →
  ∃ id op, @pick E d st = Ok id ∧ id ∈ ready st ∧ nodes d !! id = Some op ∧
    let uses r := default 0 (remaining_consumers st !! r) in
    ∀ id' op', nodes d !! id' = Some op' → id' ∈ ready st →
      pick_cmp (pick_key uses d op') (pick_key uses d op) ≠ Gt.
Proof.
  intros [Hwf _] Hne Hsub. unfold pick.
  set (uses r := default 0 (remaining_consumers st !! r)).
  set (l := sort_by Z.compare (elements (ready st))).
  assert (∀ id, id ∈ l ↔ id ∈ ready st) as Hl.
  { intros id. unfold l. by rewrite (sort_by_perm Z.compare), elem_of_elements. }
  set (f id := pick_key uses d <$> (nodes d !! id)).
  assert (∀ l, @rmapM E _ _ (λ id, let? op := unwrap_opt (nodes d !! id) in
                            Ok (pick_key uses d op)) l
    = rmapM (λ id, unwrap_opt (f id)) l) as Hext.
  { intros k. induction k as [|x k IH]; simpl; [done|]. rewrite IH.
    unfold f. by destruct (nodes d !! x). }
  rewrite Hext, rmapM_unwrap.
  2: { intros id Hid%Hl%Hsub%elem_of_dom. destruct Hid as [op Hop]. unfold f. by rewrite Hop. }
  simpl. destruct (max_by_is_Some pick_cmp (omap f l)) as [m Hm].
  { destruct (set_choose_L _ Hne) as [x Hx]. pose proof (Hsub _ Hx) as [op Hop]%elem_of_dom.
    intros Hnil. assert (pick_key uses d op ∈ omap f l) as Hin; [|by rewrite Hnil in Hin; set_solver].
    apply list_elem_of_omap. exists x. split; [by apply Hl|]. unfold f. by rewrite Hop. }
  rewrite Hm. simpl.
  destruct (max_by_spec pick_cmp pick_key_list _ _ pick_cmp_lex (λ _ _, eq_refl) Hm) as [Hin Hmax].
  apply list_elem_of_omap in Hin as (id & Hid%Hl & Hf). unfold f in Hf.
  apply fmap_Some in Hf as (op & Hop & ->). simpl. destruct (Hwf _ _ Hop) as [-> _].
  exists id, op. split_and!; [done..|]. intros id' op' Hop' Hid'.
  apply (Hmax (pick_key uses d op')).
  apply list_elem_of_omap. exists id'. split; [by apply Hl|]. unfold f. by rewrite Hop'.
Qed.

(** *** The loop invariant *)

Record rinv (d : OpDag) (st : rstate) : Prop := {
  ri_nodup : NoDup (schedule st);
  ri_part : ∀ id, id ∈ schedule st ↔ id ∈ dom (nodes d) ∧ id ∉ unscheduled st;
  ri_sub : unscheduled st ⊆ dom (nodes d);
  ri_produced : ∀ id op r, nodes d !! id = Some op → r ∈ op_reads op →
    r ∈ produced st ↔ avail d (schedule st) r;
  ri_ready : ∀ id, id ∈ ready st ↔ id ∈ unscheduled st ∧ can_run d (schedule st) id;
  ri_topo : topological d (schedule st);
  ri_counts : total_reads d < 2 ^ 32 →
    ∀ r, default 0 (remaining_consumers st !! r) = uses_left d (schedule st) r;
  ri_greedy : total_reads d < 2 ^ 32 → greedy d (schedule st)
}.

Lemma reads_produced_can_run d pre p id op :
  (∀ r, r ∈ op_reads op → r ∈ p ↔ avail d pre r) → nodes d !! id = Some op →
  reads_produced p op = true ↔ can_run d pre id.
Proof.
  intros Hp Hop. rewrite reads_produced_spec. unfold can_run. split.
  - intros H. exists op. split; [done|]. intros r Hr. by apply Hp, H.
  - intros (op' & ? & H) r Hr. simplify_eq. by apply Hp, H.
Qed.

Lemma rinv_init d : dag_wf d → rinv d (reorder_init d).
Proof.
  intros Hwf. assert (∀ id op r, nodes d !! id = Some op → r ∈ op_reads op →
    r ∈ external_inputs d ↔ avail d [] r) as Hp.
  { intros id op r Hop Hr. rewrite external_inputs_spec. unfold avail.
    destruct (producer_of d !! r) eqn:E; [set_solver|]. naive_solver. }
  split; simpl.
  - constructor.
  - set_solver.
  - set_solver.
  - done.
  - intros id. transitivity (∃ op, nodes d !! id = Some op ∧
      reads_produced (external_inputs d) op = true).
    + rewrite (foldl_insert_if op_id (reads_produced (external_inputs d))).
      setoid_rewrite elem_of_OpDag_iter. split.
      * intros [?|(op & (id' & Hop) & Hr & ->)]; [set_solver|].
        destruct Hwf as [Hwf _]. destruct (Hwf _ _ Hop) as [-> _]. eauto.
      * intros (op & Hop & Hr). right. exists op. destruct Hwf as [Hwf _].
        destruct (Hwf _ _ Hop) as [-> _]. eauto.
    + split.
      * intros (op & Hop & Hr). split; [by apply elem_of_dom_2 in Hop|].
        eapply reads_produced_can_run; [|done|done]. intros. by eapply Hp.
      * intros (_ & Hrun). destruct Hrun as (op & Hop & ?) eqn:E. exists op. split; [done|].
        eapply reads_produced_can_run; [|done|exact Hrun]. intros. by eapply Hp.
  - intros [|] ?? [=].
  - intros Hmax r. rewrite count_consumers_lookup. apply wrap_small.
    pose proof (uses_left_bounds d [] r). unfold uint. lia.
  - intros _ [|] ?? [=].
Qed.

Lemma ready_loop_spec {E} d p unsch ready0 :
  (∀ u, u ∈ unsch → is_Some (nodes d !! u)) →
  ∃ s : gset Z, @rfold E _ _ (λ s u,
      if bool_decide (u ∈ s) then Ok s
      else let? op_u := unwrap_opt (nodes d !! u) in
           Ok (if reads_produced p op_u then {[u]} ∪ s else s)) ready0 unsch = Ok s
    ∧ ∀ u, u ∈ s ↔ u ∈ ready0 ∨ u ∈ unsch ∧ ∃ op, nodes d !! u = Some op
                                             ∧ reads_produced p op = true.
Proof.
  revert ready0. induction unsch as [|x unsch IH]; intros ready0 Hsome; simpl.
  { exists ready0. split; [done|]. set_solver. }
  destruct (Hsome x ltac:(set_solver)) as [op Hop].
  case_bool_decide as Hx; simpl.
  - destruct (IH ready0 ltac:(set_solver)) as (s & -> & Hs). exists s. split; [done|].
    intros u. rewrite Hs. set_solver.
  - rewrite Hop. simpl. destruct (reads_produced p op) eqn:Hr;
      [destruct (IH ({[x]} ∪ ready0) ltac:(set_solver)) as (s & -> & Hs)
      |destruct (IH ready0 ltac:(set_solver)) as (s & -> & Hs)];
      exists s; (split; [done|]); intros u; rewrite Hs, elem_of_cons.
    + rewrite elem_of_union, elem_of_singleton. naive_solver.
    + split; [tauto|]. intros [?|[[->|?] (o & Ho & Hr')]]; [by left| |by eauto].
      rewrite Hop in Ho. injection Ho as <-. congruence.
Qed.

Lemma sub_app_l (l k : list Z) : l ⊆ l ++ k.
Proof. intros x Hx. apply elem_of_app. by left. Qed.

Lemma can_run_mono d pre pre' id : pre ⊆ pre' → can_run d pre id → can_run d pre' id.
Proof. intros Hsub (op & Hop & H). exists op. split; [done|]. eauto using avail_mono. Qed.

(** The produced set after a pick: one more operation has run. *)
Lemma avail_snoc d pre id op r :
  dag_wf d → nodes d !! id = Some op →
  avail d (pre ++ [id]) r ↔ r = op_writes op ∨ avail d pre r.
Proof.
  intros [H1 H2] Hop. unfold avail. destruct (H1 _ _ Hop) as [_ Hp].
  destruct (producer_of d !! r) as [p|] eqn:E; [|tauto].
  rewrite elem_of_app, list_elem_of_singleton. split.
  - intros [?| ->]; [by right|]. left. destruct (H2 _ _ E) as (? & ? & <-). congruence.
  - intros [->|?]; [|by left]. right. congruence.
Qed.

Lemma commit_spec {E} d st id op :
  dag_wf d → rinv d st → id ∈ ready st → nodes d !! id = Some op →
  (total_reads d < 2 ^ 32 → greedy_at d (schedule st) id) →
  ∃ st', @commit E d st id = Ok st' ∧ rinv d st'
    ∧ unscheduled st' = unscheduled st ∖ {[id]}.
Proof.
  intros Hwf Hinv Hid Hop Hg. pose proof (proj1 (ri_ready d st Hinv id) Hid) as [Huns Hrun].
  pose proof (ri_sub _ _ Hinv) as Hsub. unfold commit. rewrite Hop; simpl.
  destruct (@ready_loop_spec E d ({[op_writes op]} ∪ produced st)
    (elements (unscheduled st ∖ {[id]})) (ready st ∖ {[id]})) as (s & Hs & Hin).
  { intros u Hu%elem_of_elements. apply elem_of_dom. set_solver. }
  rewrite Hs. simpl. eexists. split; [done|]. split; [|done].
  assert (id ∉ schedule st) as Hfresh by (rewrite (ri_part _ _ Hinv); tauto).
  assert (∀ i o r, nodes d !! i = Some o → r ∈ op_reads o →
    r ∈ {[op_writes op]} ∪ produced st ↔ avail d (schedule st ++ [id]) r) as Hprod.
  { intros i o r Ho Hr. rewrite (avail_snoc _ _ _ _ _ Hwf Hop), elem_of_union, elem_of_singleton.
    by rewrite (ri_produced _ _ Hinv _ _ _ Ho Hr). }
  split; simpl.
  - apply NoDup_app. split_and!; [apply Hinv|set_solver|apply NoDup_singleton].
  - intros i. rewrite elem_of_app, list_elem_of_singleton, (ri_part _ _ Hinv).
    rewrite elem_of_difference, elem_of_singleton. apply Hsub in Huns.
    destruct (decide (i = id)) as [->|?]; tauto.
  - set_solver.
  - exact Hprod.
  - intros u. rewrite Hin, elem_of_elements, !elem_of_difference, elem_of_singleton.
    rewrite (ri_ready _ _ Hinv). split.
    + intros [[[Hu Hr] Hne]|[[Hu Hne] (o & Ho & Hr)]]; (split; [done|]).
      * eapply can_run_mono; [apply sub_app_l|done].
      * eapply reads_produced_can_run; [|done..]. intros. by eapply Hprod.
    + intros [[Hu Hne] (o & Ho & Hr)]. right. split; [done|]. exists o. split; [done|].
      eapply (reads_produced_can_run _ _ _ u); [|done|by exists o]. intros. by eapply Hprod.
  - exact (splits_snoc (can_run d) _ _ (ri_topo _ _ Hinv) Hrun).
  - intros Hmax r. pose proof (ri_counts _ _ Hinv Hmax r) as Hc.
    pose proof (uses_left_bounds d (schedule st) r).
    pose proof (uses_left_bounds d (schedule st ++ [id]) r).
    rewrite uncount_reads_lookup by lia.
    rewrite Hc, (uses_left_snoc d _ id op r Hwf Hop Hfresh). rewrite sat_sub_small; lia.
  - intros Hmax. exact (splits_snoc (greedy_at d) _ _ (ri_greedy _ _ Hinv Hmax) (Hg Hmax)).
Qed.

(** The outcome of the loop. *)
Definition reorder_post (d : OpDag) (r : res ReorderError (list Z)) : Prop :=
  match r with
  | Ok l => schedules d l ∧ (total_reads d < 2 ^ 32 → greedy d l)
  | Err (Cycle rem) => stuck d rem ∧ StronglySorted (λ x y, (x ?= y) ≠ Gt) rem
  | Panic => False
  end.

Lemma rinv_done d st : rinv d st → unscheduled st = ∅ →
  schedules d (schedule st) ∧ (total_reads d < 2 ^ 32 → greedy d (schedule st)).
Proof.
  intros Hinv He. split; [split|]; [|apply Hinv..].
  apply NoDup_Permutation; [apply Hinv|apply NoDup_elements|].
  intros id. rewrite elem_of_elements, (ri_part _ _ Hinv), He. set_solver.
Qed.

Lemma rinv_stuck d st : dag_wf d → rinv d st → unscheduled st ≠ ∅ → ready st = ∅ →
  stuck d (sort_by Z.compare (elements (unscheduled st))).
Proof.
  intros [Hwf1 Hwf2] Hinv Hne Hready.
  assert (∀ id, id ∈ sort_by Z.compare (elements (unscheduled st)) ↔ id ∈ unscheduled st) as Hl.
  { intros id. by rewrite (sort_by_perm Z.compare), elem_of_elements. }
  split_and!.
  - intros Hnil. apply Hne. apply set_eq. intros id. rewrite <- Hl, Hnil. set_solver.
  - intros id Hid%Hl. apply elem_of_elements. by apply (ri_sub _ _ Hinv).
  - intros id Hid%Hl. pose proof (ri_sub _ _ Hinv _ Hid) as [op Hop]%elem_of_dom.
    destruct (decide (Forall (avail d (schedule st)) (op_reads op))) as [Hall|Hno].
    + exfalso. assert (id ∈ ready st) as Hr; [|rewrite Hready in Hr; set_solver].
      apply (ri_ready _ _ Hinv). split; [done|]. exists op. split; [done|].
      by apply Forall_forall.
    + apply not_Forall_Exists, Exists_exists in Hno as (r & Hr & Hna); [|apply _].
      simpl in Hna. unfold avail in Hna.
      destruct (producer_of d !! r) as [p|] eqn:E; [|tauto].
      exists op, r, p. split_and!; [done..|]. apply Hl.
      destruct (decide (p ∈ unscheduled st)); [done|]. exfalso. apply Hna.
      apply (ri_part _ _ Hinv). split; [|done]. destruct (Hwf2 _ _ E) as (o & Ho & _).
      by apply elem_of_dom_2 in Ho.
Qed.

Lemma Zcompare_lex x y : (x ?= y) = lex [x] [y].
Proof. simpl. by destruct (x ?= y). Qed.

Lemma reorder_loop_spec d fuel st :
  dag_wf d → rinv d st → (size (unscheduled st) ≤ fuel)%nat →
  reorder_post d (reorder_loop fuel d st).
Proof.
  intros Hwf. revert st. induction fuel as [|fuel IH]; intros st Hinv Hfuel; simpl;
    (case_bool_decide as Hu; [by apply rinv_done|]);
    (case_bool_decide as Hr;
      [split; [by apply rinv_stuck|apply (sort_by_sorted _ (λ x, [x])); [apply Zcompare_lex|done]]|]).
  - exfalso. apply Hu. apply leibniz_equiv, size_empty_inv. lia.
  - destruct (@pick_spec ReorderError d st Hwf Hr) as (id & op & Hpick & Hid & Hop & Hbest).
    { intros i [Hi _]%(ri_ready _ _ Hinv). by apply (ri_sub _ _ Hinv). }
    rewrite Hpick. simpl.
    destruct (@commit_spec ReorderError d st id op Hwf Hinv Hid Hop) as (st' & -> & Hinv' & Hun).
    { intros Hmax. exists op. split; [done|]. intros id' op' Hop' Hnew Hrun.
      unfold pick_key. rewrite <- !(score_with_ext _ _ d _ (ri_counts _ _ Hinv Hmax)).
      apply (Hbest id' op' Hop'). apply (ri_ready _ _ Hinv). split; [|done].
      destruct (decide (id' ∈ unscheduled st)); [done|]. exfalso. apply Hnew.
      apply (ri_part _ _ Hinv). split; [by apply elem_of_dom_2 in Hop'|done]. }
    simpl. apply IH; [done|]. rewrite Hun. apply (ri_ready _ _ Hinv) in Hid as [Hid _].
    rewrite size_difference by set_solver. rewrite size_singleton. lia.
Qed.

Lemma reorder_spec d : dag_wf d → reorder_post d (reorder d).
Proof.
  intros Hwf. unfold reorder, OpDag_is_empty. case_bool_decide as He.
  - split; [|intros _ [|] ?? [=]]. split; [by rewrite He, dom_empty_L, elements_empty|].
    intros [|] ?? [=].
  - apply reorder_loop_spec; [done|by apply rinv_init|]. simpl. unfold OpDag_len.
    by rewrite size_dom.
Qed.

(** A stuck set excludes any complete schedule: its first operation in the
    schedule would wait for a later one. *)
Lemma stuck_no_schedule d rem l : stuck d rem → ¬ schedules d l.
Proof.
  intros (Hne & Hsub & Hstuck) (Hperm & Htopo).
  assert (∀ pre post, l = pre ++ post → ∀ id, id ∈ pre → id ∉ rem) as Hno.
  { induction pre as [|x pre IH] using rev_ind; intros post Hl id; [set_solver|].
    rewrite <- app_assoc in Hl. simpl in Hl.
    intros [Hid| ->%list_elem_of_singleton]%elem_of_app; [by eapply IH|].
    intros Hrem. destruct (Hstuck _ Hrem) as (op & r & p & Hop & Hr & Hp & Hprem).
    destruct (Htopo _ _ _ Hl) as (op' & Hop' & Hav). simplify_eq.
    specialize (Hav r Hr). unfold avail in Hav. rewrite Hp in Hav.
    by eapply IH in Hprem. }
  destruct rem as [|x rem]; [done|]. apply (Hno l [] ltac:(by rewrite app_nil_r) x); [|set_solver].
  rewrite Hperm. apply Hsub. set_solver.
Qed.

(** *** The lifetime table of a schedule *)

(** The events [lifetime_for] records. *)
Fixpoint schedule_events (d : OpDag) (step : Z) (l : list Z) : list event :=
  match l with
  | [] => []
  | id :: rest =>
      match nodes d !! id with
      | None => []
      | Some op =>
          EDef (op_writes op) (wrap 32 step) (op_bytes op) (op_align op)
            :: ((λ r, EUse r (wrap 32 step)) <$> op_reads op)
            ++ schedule_events d (step + 1) rest
      end
  end.

Definition lifetime_events (d : OpDag) (l : list Z) : list event :=
  ((λ ext, EDef ext 0 0 1) <$> elements (external_inputs d)) ++ schedule_events d 0 l.

Lemma record_all_app evs evs' :
  record_all (evs ++ evs') = foldl record (record_all evs) evs'.
Proof. unfold record_all. apply foldl_app. Qed.

Lemma foldl_fmap {A B C} (f : A → B → A) (g : C → B) (a : A) (l : list C) :
  foldl f a (g <$> l) = foldl (λ a x, f a (g x)) a l.
Proof. revert a. induction l; intros; simpl; auto. Qed.

Lemma lifetime_steps_events {E} d step t l :
  (∀ id, id ∈ l → id ∈ dom (nodes d)) →
  @lifetime_steps E d step t l = Ok (foldl record t (schedule_events d step l)).
Proof.
  revert step t. induction l as [|id l IH]; intros step t Hin; simpl; [done|].
  destruct (nodes d !! id) as [op|] eqn:Hop.
  2: { specialize (Hin id ltac:(set_solver)). by apply not_elem_of_dom in Hop. }
  simpl. rewrite IH by set_solver. by rewrite foldl_app, foldl_fmap.
Qed.

Lemma lifetime_for_events {E} d l :
  (∀ id, id ∈ l → id ∈ dom (nodes d)) →
  @lifetime_for E d l = Ok (record_all (lifetime_events d l)).
Proof.
  intros Hin. unfold lifetime_for. rewrite lifetime_steps_events by done.
  unfold lifetime_events. by rewrite record_all_app, <- (foldl_fmap record (λ ext, EDef ext 0 0 1)).
Qed.

Section schedule_events.
Context (d : OpDag).
Hypothesis d_wf : dag_wf d.

Lemma schedule_events_def step l w s b a :
  Forall (λ id, id ∈ dom (nodes d)) l →
  EDef w s b a ∈ schedule_events d step l ↔
  ∃ k id op, l !! k = Some id ∧ nodes d !! id = Some op ∧ w = op_writes op
    ∧ s = wrap 32 (step + Z.of_nat k) ∧ b = op_bytes op ∧ a = op_align op.
Proof using Type.
  intros Hl. revert step. induction Hl as [|id l Hid Hl IH]; intros step; simpl.
  { split; [by intros ?%not_elem_of_nil|]. by intros (?&?&?&?&?). }
  apply elem_of_dom in Hid as [op Hop]. rewrite Hop, elem_of_cons, elem_of_app, IH. split.
  - intros [E|[(r & E & _)%list_elem_of_fmap|(k & id' & op' & Hk & Hop' & -> & -> & -> & ->)]].
    + injection E as -> -> -> ->. exists 0%nat, id, op.
      split_and!; try done. f_equal. lia.
    + done.
    + exists (S k), id', op'. split_and!; try done. f_equal. lia.
  - intros ([|k] & id' & op' & Hk & Hop' & -> & -> & -> & ->); simpl in Hk.
    + simplify_eq. left. f_equal. f_equal. lia.
    + right; right. exists k, id', op'. split_and!; try done. f_equal. lia.
Qed.

Lemma schedule_events_use step l k id op r :
  Forall (λ id, id ∈ dom (nodes d)) l →
  l !! k = Some id → nodes d !! id = Some op → r ∈ op_reads op →
  ∃ post, ∃ mid,
    schedule_events d step l = schedule_events d step (take k l) ++ mid
                                 ++ EUse r (wrap 32 (step + Z.of_nat k)) :: post.
Proof using Type.
  intros Hl. revert step k. induction Hl as [|i l Hi Hl IH]; intros step [|k]; simpl; try done.
  - intros [= ->] Hop Hr. rewrite Hop.
    apply list_elem_of_split in Hr as (r1 & r2 & ->). rewrite fmap_app. simpl.
    eexists _, (_ :: (_ <$> r1)). simpl. rewrite <- app_assoc. simpl.
    replace (step + Z.of_nat 0) with step by lia. reflexivity.
  - intros Hk Hop Hr. apply elem_of_dom in Hi as [op' ->].
    destruct (IH (step + 1) k Hk Hop Hr) as (post & mid & ->).
    exists post, mid. simpl. rewrite <- app_assoc.
    by replace (step + 1 + Z.of_nat k) with (step + Z.pos (Pos.of_succ_nat k)) by lia.
Qed.

Lemma schedule_events_use_inv step l r s :
  Forall (λ id, id ∈ dom (nodes d)) l →
  EUse r s ∈ schedule_events d step l →
  ∃ k id op, l !! k = Some id ∧ nodes d !! id = Some op ∧ r ∈ op_reads op
    ∧ s = wrap 32 (step + Z.of_nat k).
Proof using Type.
  intros Hl. revert step. induction Hl as [|id l Hid Hl IH]; intros step; simpl.
  { by intros ?%not_elem_of_nil. }
  apply elem_of_dom in Hid as [op Hop]. rewrite Hop, elem_of_cons, elem_of_app.
  intros [E|[(r' & E & Hr)%list_elem_of_fmap|(k & id' & op' & ? & ? & ? & ->)%IH]].
  - done.
  - injection E as -> ->. exists 0%nat, id, op. split_and!; try done. f_equal. lia.
  - exists (S k), id', op'. split_and!; try done. f_equal. lia.
Qed.
End schedule_events.

(** What the table of a schedule says of its tensors: the tensor an operation
    writes lives from the operation's position, with its size and alignment,
    and each of its reads is alive at that position, its producer before it. *)
Record lifetimes_of (d : OpDag) (l : list Z) (t : LifetimeTable) : Prop := {
  lo_writes : ∀ k id op, l !! k = Some id → nodes d !! id = Some op →
    ∃ iv, LifetimeTable_get t (op_writes op) = Some iv ∧ iv_def iv = Z.of_nat k
      ∧ Z.of_nat k ≤ iv_last_use iv
      ∧ iv_bytes iv = op_bytes op ∧ iv_align iv = Z.max (op_align op) 1;
  lo_reads : ∀ k id op r, l !! k = Some id → nodes d !! id = Some op → r ∈ op_reads op →
    ∃ iv, LifetimeTable_get t r = Some iv ∧ Z.of_nat k ≤ iv_last_use iv
      ∧ match producer_of d !! r with
        | None => iv_def iv = 0 ∧ iv_bytes iv = 0
        | Some p => ∃ j, (j < k)%nat ∧ l !! j = Some p ∧ iv_def iv = Z.of_nat j
        end;
  lo_last : ∀ w iv, LifetimeTable_get t w = Some iv →
    iv_last_use iv = iv_def iv
    ∨ ∃ k id op, l !! k = Some id ∧ nodes d !! id = Some op ∧ w ∈ op_reads op
        ∧ iv_last_use iv = Z.of_nat k;
  lo_dom : ∀ w, is_Some (LifetimeTable_get t w) ↔
    w ∈ external_inputs d ∨ ∃ id op, id ∈ l ∧ nodes d !! id = Some op ∧ op_writes op = w
}.

Section lifetimes.
Context (d : OpDag) (l : list Z).
Hypothesis d_wf : dag_wf d.
Hypothesis l_nodup : NoDup l.
Hypothesis l_topo : topological d l.
Hypothesis l_short : Z.of_nat (length l) ≤ 2 ^ 32.

#[local] Notation evs := (lifetime_events d l).

Lemma topological_dom : Forall (λ id, id ∈ dom (nodes d)) l.
Proof using l_topo.
  apply Forall_forall. intros id (pre & post & Hl)%list_elem_of_In%in_split.
  destruct (l_topo _ _ _ Hl) as (op & Hop & _). by apply elem_of_dom_2 in Hop.
Qed.

Lemma step_small k id : l !! k = Some id → wrap 32 (0 + Z.of_nat k) = Z.of_nat k.
Proof using l_short.
  intros Hk%lookup_lt_Some. rewrite Z.add_0_l. apply wrap_small. unfold uint. lia.
Qed.

Lemma elem_of_externals_def w s b a :
  EDef w s b a ∈ (λ ext, EDef ext 0 0 1) <$> elements (external_inputs d) ↔
  w ∈ external_inputs d ∧ s = 0 ∧ b = 0 ∧ a = 1.
Proof using Type.
  rewrite list_elem_of_fmap. setoid_rewrite elem_of_elements. split.
  - intros (x & E & Hx). by injection E as -> -> -> ->.
  - intros (Hw & -> & -> & ->). by exists w.
Qed.

(** SSA: an operation's tensor is defined once, by the operation. *)
Lemma events_def_unique k id op s b a :
  l !! k = Some id → nodes d !! id = Some op →
  EDef (op_writes op) s b a ∈ evs →
  s = Z.of_nat k ∧ b = op_bytes op ∧ a = op_align op.
Proof using d_wf l_nodup l_topo l_short.
  intros Hk Hop [Hin|Hin]%elem_of_app.
  - apply elem_of_externals_def in Hin as ([Hext _]%external_inputs_spec & _).
    destruct d_wf as [H1 _]. destruct (H1 _ _ Hop). congruence.
  - apply (schedule_events_def d) in Hin as (k' & id' & op' & Hk' & Hop' & Hw & -> & -> & ->);
      [|apply topological_dom].
    assert (id' = id) as ->.
    { destruct d_wf as [H1 _]. destruct (H1 _ _ Hop), (H1 _ _ Hop'). congruence. }
    simplify_eq. rewrite (step_small _ _ Hk'). split_and!; [|done..].
    f_equal. by eapply NoDup_lookup.
Qed.

Lemma events_has_def k id op :
  l !! k = Some id → nodes d !! id = Some op →
  EDef (op_writes op) (Z.of_nat k) (op_bytes op) (op_align op) ∈ evs.
Proof using d_wf l_topo l_short.
  intros Hk Hop. apply elem_of_app. right.
  apply (schedule_events_def d); [apply topological_dom|].
  exists k, id, op. split_and!; try done. symmetry. by eapply step_small.
Qed.

Lemma events_envelope w s b a :
  EDef w s b a ∈ evs →
  ∃ iv, LifetimeTable_get (record_all evs) w = Some iv ∧ envelope evs w iv.
Proof using Type.
  intros Hin. pose proof (record_all_spec evs w) as H.
  destruct (LifetimeTable_get _ w) as [iv|]; [by exists iv|].
  exfalso. apply H, Exists_exists. exists (EDef w s b a). split; [done|]. reflexivity.
Qed.

(** The tensors a step reads are defined by earlier events. *)
Lemma events_read k id op r :
  l !! k = Some id → nodes d !! id = Some op → r ∈ op_reads op →
  ∃ pre post, evs = pre ++ EUse r (Z.of_nat k) :: post ∧ Exists (is_def r) pre.
Proof using d_wf l_topo l_short.
  intros Hk Hop Hr.
  destruct (schedule_events_use d 0 l k id op r topological_dom Hk Hop Hr)
    as (post & mid & Heq).
  exists (((λ ext, EDef ext 0 0 1) <$> elements (external_inputs d))
            ++ schedule_events d 0 (take k l) ++ mid), post.
  rewrite (step_small _ _ Hk) in Heq. split.
  { unfold lifetime_events. rewrite Heq. by rewrite <- !app_assoc. }
  destruct (producer_of d !! r) as [p|] eqn:Hp.
  - destruct (l_topo (take k l) id (drop (S k) l)) as (op' & Hop' & Hav).
    { by rewrite take_drop_middle. }
    simplify_eq. specialize (Hav r Hr). unfold avail in Hav. rewrite Hp in Hav.
    apply list_elem_of_lookup in Hav as [j Hj].
    destruct d_wf as [_ H2]. destruct (H2 _ _ Hp) as (po & Hpo & <-).
    rewrite !Exists_app. right; left. apply Exists_exists.
    eexists. split; [|shelve].
    apply (schedule_events_def d).
    { apply Forall_take, topological_dom. }
    exists j, p, po. split_and!; done.
    Unshelve. done.
  - rewrite Exists_app. left. apply Exists_exists. exists (EDef r 0 0 1). split; [|done].
    apply elem_of_externals_def. split_and!; [|done..]. apply external_inputs_spec.
    split; [done|]. by exists id, op.
Qed.

Lemma lifetimes_writes k id op :
  l !! k = Some id → nodes d !! id = Some op →
  ∃ iv, LifetimeTable_get (record_all evs) (op_writes op) = Some iv
    ∧ iv_def iv = Z.of_nat k ∧ Z.of_nat k ≤ iv_last_use iv
    ∧ iv_bytes iv = op_bytes op ∧ iv_align iv = Z.max (op_align op) 1.
Proof using d_wf l_nodup l_topo l_short.
  intros Hk Hop. destruct (events_envelope _ _ _ _ (events_has_def _ _ _ Hk Hop))
    as (iv & Hiv & (b & a & Hd) & _ & (s & a' & Hb) & (s' & b' & a'' & Ha & Hal) & Hall & _).
  exists iv. split; [done|].
  apply (events_def_unique _ _ _ _ _ _ Hk Hop) in Hd as (Hs & _).
  apply (events_def_unique _ _ _ _ _ _ Hk Hop) in Hb as (_ & -> & _).
  apply (events_def_unique _ _ _ _ _ _ Hk Hop) in Ha as (_ & _ & ->).
  specialize (Hall _ _ _ (events_has_def _ _ _ Hk Hop)). split_and!; [done|lia|done|done].
Qed.

Lemma lifetimes_reads k id op r :
  l !! k = Some id → nodes d !! id = Some op → r ∈ op_reads op →
  ∃ iv, LifetimeTable_get (record_all evs) r = Some iv ∧ Z.of_nat k ≤ iv_last_use iv
    ∧ match producer_of d !! r with
      | None => iv_def iv = 0 ∧ iv_bytes iv = 0
      | Some p => ∃ j, (j < k)%nat ∧ l !! j = Some p ∧ iv_def iv = Z.of_nat j
      end.
Proof using d_wf l_nodup l_topo l_short.
  intros Hk Hop Hr. destruct (events_read _ _ _ _ Hk Hop Hr) as (pre & post & Hevs & Hex).
  assert (∃ iv, LifetimeTable_get (record_all evs) r = Some iv ∧ envelope evs r iv)
    as (iv & Hiv & Henv).
  { apply Exists_exists in Hex as ([w s b a|] & Hin & Hdef); [|done]. simpl in Hdef. subst w.
    apply (events_envelope r s b a). rewrite Hevs. set_solver. }
  exists iv. split; [done|]. split.
  { destruct Henv as (_ & _ & _ & _ & _ & Huse). by eapply Huse. }
  destruct (producer_of d !! r) as [p|] eqn:Hp.
  - destruct (l_topo (take k l) id (drop (S k) l)) as (op' & Hop' & Hav).
    { by rewrite take_drop_middle. }
    simplify_eq. specialize (Hav r Hr). unfold avail in Hav. rewrite Hp in Hav.
    apply list_elem_of_lookup in Hav as [j [Hj Hjk]%lookup_take_Some].
    exists j. split_and!; [done|done|]. destruct d_wf as [_ H2].
    destruct (H2 _ _ Hp) as (po & Hpo & <-).
    destruct (lifetimes_writes j p po Hj Hpo) as (iv' & ? & ? & _). congruence.
  - destruct Henv as ((b & a & Hd) & _ & (s & a' & Hb) & _).
    assert (∀ s b a, EDef r s b a ∈ evs → s = 0 ∧ b = 0) as H0.
    { intros s0 b0 a0 [Hin|Hin]%elem_of_app.
      - apply elem_of_externals_def in Hin. tauto.
      - apply (schedule_events_def d) in Hin as (k' & id' & op' & _ & Hop' & -> & _);
          [|apply topological_dom].
        destruct d_wf as [H1 _]. destruct (H1 _ _ Hop'). congruence. }
    split; [by apply (H0 _ _ _ Hd)|by apply (H0 _ _ _ Hb)].
Qed.

Lemma lifetimes_last w iv :
  LifetimeTable_get (record_all evs) w = Some iv →
  iv_last_use iv = iv_def iv
  ∨ ∃ k id op, l !! k = Some id ∧ nodes d !! id = Some op ∧ w ∈ op_reads op
      ∧ iv_last_use iv = Z.of_nat k.
Proof using d_wf l_nodup l_topo l_short.
  intros Hiv. pose proof (record_all_spec evs w) as Henv. rewrite Hiv in Henv.
  destruct Henv as ((b & a & Hd) & (e & He & Hstep) & _).
  destruct e as [w' s b' a'|w' s]; simpl in Hstep; case_decide; simplify_eq.
  - left. assert (∀ s b a, EDef w s b a ∈ evs → s = iv_def iv) as H; [|by eapply H].
    intros s' b1 a1. pose proof Hd as Hd'.
    apply elem_of_app in Hd as [Hd|Hd].
    + apply elem_of_externals_def in Hd as (Hw & -> & _). intros [Hin|Hin]%elem_of_app.
      * apply elem_of_externals_def in Hin. tauto.
      * apply (schedule_events_def d) in Hin as (k' & id' & op' & _ & Hop' & -> & _);
          [|apply topological_dom].
        apply external_inputs_spec in Hw as [Hw _].
        destruct d_wf as [H1 _]. destruct (H1 _ _ Hop'). congruence.
    + apply (schedule_events_def d) in Hd as (k' & id' & op' & Hk & Hop' & -> & _);
        [|apply topological_dom].
      intros Hin. destruct (events_def_unique _ _ _ _ _ _ Hk Hop' Hin) as [-> _].
      by destruct (events_def_unique _ _ _ _ _ _ Hk Hop' Hd') as [-> _].
  - right. apply elem_of_app in He as [He|He].
    { by apply list_elem_of_fmap in He as (? & ? & _). }
    apply (schedule_events_use_inv d) in He as (k & id & op & Hk & Hop & Hr & ->);
      [|apply topological_dom].
    exists k, id, op. split_and!; try done. by eapply step_small.
Qed.

Lemma lifetimes_dom w :
  is_Some (LifetimeTable_get (record_all evs) w) ↔
  w ∈ external_inputs d ∨ ∃ id op, id ∈ l ∧ nodes d !! id = Some op ∧ op_writes op = w.
Proof using d_wf l_nodup l_topo l_short.
  split.
  - intros [iv Hiv]. pose proof (record_all_spec evs w) as Henv. rewrite Hiv in Henv.
    destruct Henv as ((b & a & [Hd|Hd]%elem_of_app) & _).
    + left. apply elem_of_externals_def in Hd. tauto.
    + right. apply (schedule_events_def d) in Hd as (k & id & op & Hk & Hop & -> & _);
        [|apply topological_dom]. exists id, op. split_and!; try done.
      by eapply list_elem_of_lookup_2.
  - intros [Hw|(id & op & [k Hk]%list_elem_of_lookup & Hop & <-)].
    + destruct (events_envelope w 0 0 1) as (iv & -> & _); [|by eexists].
      apply elem_of_app. left. by apply elem_of_externals_def.
    + destruct (lifetimes_writes _ _ _ Hk Hop) as (iv & -> & _). by eexists.
Qed.

Lemma lifetime_for_lifetimes {E} :
  ∃ t, @lifetime_for E d l = Ok t ∧ lifetimes_of d l t
    ∧ ((∀ id op, nodes d !! id = Some op → uint 64 (op_bytes op) ∧ uint 32 (op_align op)) →
       table_wf t).
Proof using d_wf l_nodup l_topo l_short.
  pose proof topological_dom as Hdom. rewrite Forall_forall in Hdom.
  exists (record_all evs). split_and!; [by apply lifetime_for_events| |].
  - split; [apply lifetimes_writes|apply lifetimes_reads|apply lifetimes_last
           |apply lifetimes_dom].
  - intros Hsz. apply record_all_wf, Forall_forall. intros [w s b a|r s] Hin; simpl.
    + apply elem_of_app in Hin as [Hin|Hin].
      * apply elem_of_externals_def in Hin as (_ & -> & -> & ->). unfold uint. lia.
      * apply (schedule_events_def d) in Hin as (k & id & op & Hk & Hop & _ & -> & -> & ->);
          [|apply topological_dom].
        split; [by apply wrap_uint|]. by eapply Hsz.
    + apply elem_of_app in Hin as [Hin|Hin].
      { by apply list_elem_of_fmap in Hin as (? & ? & _). }
      apply (schedule_events_use_inv d) in Hin as (k & id & op & _ & _ & _ & ->);
        [|apply topological_dom]. by apply wrap_uint.
Qed.
End lifetimes.

(** ** Properties *)


(** [reorder] finds a schedule whenever the graph has one: it returns
    [Ok] exactly for the graphs whose operations have a topological order. *)
Theorem reorder_complete d :
  dag_wf d → is_ok (reorder d) = true ↔ ∃ l, schedules d l.
Proof.
  intros Hwf. pose proof (reorder_spec d Hwf) as H.
  destruct (reorder d) as [l|[rem]|]; simpl in *.
  - split; [|done]. intros _. exists l. apply H.
  - split; [done|]. intros [l Hl]. destruct H as [Hs _].
    by destruct (stuck_no_schedule d rem l Hs Hl).
  - done.
Qed.

(** the schedule is greedy: every operation has, among those that could
    run at its position, the greatest score (the bytes of the produced tensors
    it is the last to read, less the bytes it writes), with ties broken by the
    smaller size and then the smaller id. *)
Theorem reorder_greedy d l :
  dag_wf d → total_reads d < 2 ^ 32 → reorder d = Ok l → greedy d l.
Proof.
  intros Hwf Hmax Hl. pose proof (reorder_spec d Hwf) as H. rewrite Hl in H. by apply H.
Qed.

(** the lifetime table of a schedule that [reorder] returns exists and is
    right: a tensor an operation writes is defined at the operation's position
    with its size and alignment, it lives until its last reader, every read
    finds its tensor alive and defined earlier, and the table has no other
    tensors than these and the external inputs, which have no bytes. *)
Theorem reorder_lifetimes {E} d l :
  dag_wf d → reorder d = Ok l → Z.of_nat (length l) ≤ 2 ^ 32 →
  ∃ t, @lifetime_for E d l = Ok t ∧ lifetimes_of d l t
    ∧ ((∀ id op, nodes d !! id = Some op → uint 64 (op_bytes op) ∧ uint 32 (op_align op)) →
       table_wf t).
Proof.
  intros Hwf Hl Hlen. pose proof (reorder_spec d Hwf) as H. rewrite Hl in H.
  destruct H as [[Hperm Htopo] _]. apply lifetime_for_lifetimes; [done| |done|done].
  rewrite Hperm. apply NoDup_elements.
Qed.

(** *** Witnesses *)

(** A deep branch 1-2-3 and a shallow branch 4, joined by 5; 4 also reads the
    external input 90. *)
Definition sample_ops : list OpNode :=
  [mkOpNode 5 [3; 4] 50 16 1; mkOpNode 1 [] 1 1000 16; mkOpNode 2 [1] 2 100 1;
   mkOpNode 3 [2; 2] 3 10 1; mkOpNode 4 [90] 4 10 4].

Definition sample_dag : OpDag :=
  match @rfold False _ _ add_op OpDag_new sample_ops with
  | Ok d => d
  | _ => OpDag_new
  end.

Lemma add_ops_wf {E} ops : ∀ d d',
  dag_wf d → NoDup (op_id <$> ops) →
  Forall (λ op, nodes d !! op_id op = None) ops →
  @rfold E _ _ add_op d ops = Ok d' → dag_wf d'.
Proof.
  induction ops as [|op ops IH]; intros d d' Hwf; csimpl; [by intros _ _ [= <-]|].
  intros [Hid Hnd]%NoDup_cons [Hop Hops]%Forall_cons.
  destruct (@add_op E d op) as [d1| |] eqn:Hadd; simpl; [|done|done].
  apply IH; [by eapply add_op_wf|done|].
  unfold add_op in Hadd. destruct (producer_of d !! op_writes op); [done|].
  injection Hadd as <-. simpl. rewrite Forall_forall in *. intros o Ho.
  rewrite lookup_insert_ne; [by apply Hops|].
  intros Heq. apply Hid. rewrite Heq. by apply list_elem_of_fmap_2.
Qed.

Lemma sample_dag_wf : dag_wf sample_dag.
Proof.
  apply (@add_ops_wf False sample_ops OpDag_new); [apply dag_wf_new| | |].
  - apply (bool_decide_unpack _). vm_compute. exact I.
  - apply Forall_forall. intros. apply lookup_empty.
  - vm_compute. reflexivity.
Qed.


Lemma reorder_complete_witness : ∃ l, schedules sample_dag l.
Proof. apply (reorder_complete sample_dag sample_dag_wf). vm_compute. reflexivity. Defined.

Lemma reorder_greedy_witness : greedy sample_dag [4; 1; 2; 3; 5].
Proof.
  apply (reorder_greedy sample_dag [4; 1; 2; 3; 5] sample_dag_wf).
  - vm_compute. reflexivity.
  - vm_compute. reflexivity.
Defined.

Lemma reorder_lifetimes_witness :
  ∃ t, @lifetime_for False sample_dag [4; 1; 2; 3; 5] = Ok t
    ∧ lifetimes_of sample_dag [4; 1; 2; 3; 5] t.
Proof.
  destruct (@reorder_lifetimes False sample_dag [4; 1; 2; 3; 5] sample_dag_wf) as (t & Ht & Hl & _).
  - vm_compute. reflexivity.
  - vm_compute. discriminate.
  - exists t. split; [exact Ht|exact Hl].
Defined.
