(* ===== verification/Planner.v ===== *)
(** * The planner (crates/rustorch-planner/src/planner.rs)

    The entry point that composes [reorder], [lifetime_for], [plan] and
    [plan_with_inplace] and checks the budget, and the theorem that ties them
    together: running the schedule with every tensor in its slot computes what
    running it with every tensor in memory of its own computes. *)

From Stdlib Require Import ZArith Lia.
From stdpp Require Import base list gmap sets sorting.
From S2P Require Import Prelude Lifetime Allocator InPlace Reorder.

(** [struct PlannerInput] *)
Record PlannerInput := mkPlannerInput {
  in_dag : OpDag;
  inplace_hints : list InPlaceHint;
  blockers : InPlaceBlockers;
  in_budget : option Z
}.

(** [PlannerInput::from_dag] *)
Definition from_dag (d : OpDag) : PlannerInput := mkPlannerInput d [] InPlaceBlockers_new None.

(** [struct Schedule] *)
Record Schedule := mkSchedule { sched_ops : list Z; sched_plan : PlanResult }.

(** [Schedule::peak_bytes], [::slot_count] *)
Definition Schedule_peak_bytes (s : Schedule) : Z := peak_bytes (sched_plan s).
Definition Schedule_slot_count (s : Schedule) : nat := slot_count (sched_plan s).

(** [enum PlannerError] *)
Inductive PlannerError :=
  | PlannerReorder (e : ReorderError)
  | PlannerPlan (e : PlanError)
  | OverBudget (required budget : Z) (suggested_checkpoints : list Z).

(** [suggest_checkpoints]; its comparator. *)
Definition checkpoint_cmp (a b : Z * Z) : comparison :=
  then_with (b.2 ?= a.2) (a.1 ?= b.1).

Definition suggest_checkpoints (d : OpDag) (_plan : PlanResult) : list Z :=
  let by_size := (λ op, (op_id op, op_bytes op)) <$> OpDag_iter d in
  fst <$> take 5 (sort_by checkpoint_cmp by_size).

(** [Planner::plan] *)
Definition Planner_plan (input : PlannerInput) : res PlannerError Schedule :=
  let? ops := map_err PlannerReorder (reorder (in_dag input)) in
  let? table := lifetime_for (in_dag input) ops in
  let? plan_result :=
    match inplace_hints input with
    | [] => Ok (plan table)
    | hints => plan_with_inplace table hints (blockers input)
    end in
  match in_budget input with
  | Some budget =>
      if budget <? peak_bytes plan_result then
        Err (OverBudget (peak_bytes plan_result) budget
               (suggest_checkpoints (in_dag input) plan_result))
      else
        let _ := plan_with_budget table budget in
        Ok (mkSchedule ops plan_result)
  | None => Ok (mkSchedule ops plan_result)
  end.

(** ** Execution

    [f id vs] is the value operation [id] computes from the values it reads.
    [run_ref] gives every tensor memory of its own; [run_slots] keeps every
    tensor in its slot.  Both return the value of each operation. *)
Section execution.
Context {V : Type} (f : Z → list V → V) (d : OpDag).

Definition upd {K} `{EqDecision K} (m : K → V) (k : K) (v : V) : K → V :=
  λ k', if decide (k = k') then v else m k'.

Fixpoint run_ref (env : Z → V) (l : list Z) : option (list V) :=
  match l with
  | [] => Some []
  | id :: l =>
      op ← nodes d !! id;
      let v := f id (env <$> op_reads op) in
      vs ← run_ref (upd env (op_writes op) v) l;
      Some (v :: vs)
  end.

Fixpoint run_slots (p : PlanResult) (mem : nat → V) (l : list Z) : option (list V) :=
  match l with
  | [] => Some []
  | id :: l =>
      op ← nodes d !! id;
      ks ← mapM (slot_of p) (op_reads op);
      k ← slot_of p (op_writes op);
      let v := f id (mem <$> ks) in
      vs ← run_slots p (upd mem k v) l;
      Some (v :: vs)
  end.

(** The external inputs, loaded into their slots before the run. *)
Definition load (p : PlanResult) (env : Z → V) (mem : nat → V) : nat → V :=
  foldl (λ m x, match slot_of p x with Some k => upd m k (env x) | None => m end)
    mem (elements (external_inputs d)).
End execution.

(** A hint that names its operation: the one at the hint's step, which reads
    the input and writes the output. *)
Definition hint_exact (d : OpDag) (l : list Z) (h : InPlaceHint) : Prop :=
  ∃ k id op, hint_step h = Z.of_nat k ∧ l !! k = Some id ∧ nodes d !! id = Some op
    ∧ hint_input h ∈ op_reads op ∧ hint_output h = op_writes op.

(** Sizes and alignments are [u64] and [u32]. *)
Definition ops_sized (d : OpDag) : Prop :=
  ∀ id op, nodes d !! id = Some op → uint 64 (op_bytes op) ∧ uint 32 (op_align op).

(** ** Lemmas *)

(** Every tensor has a slot; tensors alive together share one only as the pair
    of an accepted hint. *)
Definition placement (t : LifetimeTable) (b : InPlaceBlockers) (hints : list InPlaceHint)
    (p : PlanResult) : Prop :=
  (∀ id iv, LifetimeTable_get t id = Some iv → ∃ k, slot_of p id = Some k)
  ∧ (∀ id iv id' iv', LifetimeTable_get t id = Some iv →
       LifetimeTable_get t id' = Some iv' → id ≠ id' →
       Interval_overlaps iv iv' = true → slot_of p id = slot_of p id' →
       ∃ h, h ∈ hints ∧ evaluate_hint t h b = Apply
         ∧ ((id = hint_input h ∧ id' = hint_output h)
            ∨ (id' = hint_input h ∧ id = hint_output h))).

Lemma plan_placement t b hints : placement t b hints (plan t).
Proof.
  split.
  - intros id iv Hiv. pose proof (plan_lookup t id) as H. rewrite Hiv in H. naive_solver.
  - intros id iv id' iv' Hiv Hiv' Hne Hov Heq. exfalso.
    by rewrite (plan_disjoint t id iv id' iv') in Hov.
Qed.

Lemma inplace_placement {E} t b hints :
  table_wf t → (∀ h, h ∈ hints → hint_ordered t h) →
  ∃ p, @plan_with_inplace E t hints b = Ok p ∧ placement t b hints p.
Proof.
  intros Hwf Hord. destruct (@inplace_sharing E t hints b Hwf Hord) as (p & Hp & Hall & Hsh).
  exists p. split; [done|]. split; [|done].
  intros id iv Hiv. destruct (Hall _ _ Hiv) as (k & ? & ? & _). by exists k.
Qed.

Section schedule.
Context (d : OpDag) (l : list Z) (t : LifetimeTable).
Hypothesis d_wf : dag_wf d.
Hypothesis l_nodup : NoDup l.
Hypothesis l_all : ∀ id op, nodes d !! id = Some op → id ∈ l.
Hypothesis t_of : lifetimes_of d l t.

(** A tensor that holds its value when step [k] starts: an external input,
    or the output of an earlier step. *)
Definition defined_before (k : nat) (x : Z) : Prop :=
  match producer_of d !! x with
  | None => x ∈ external_inputs d
  | Some p => ∃ j, (j < k)%nat ∧ l !! j = Some p
  end.

Definition alive (k : nat) (x : Z) : Prop :=
  ∃ iv, LifetimeTable_get t x = Some iv ∧ iv_def iv ≤ Z.of_nat k
    ∧ Z.of_nat k ≤ iv_last_use iv.

Lemma read_defined k id op r :
  l !! k = Some id → nodes d !! id = Some op → r ∈ op_reads op →
  defined_before k r ∧ alive k r.
Proof using t_of.
  intros Hk Hop Hr. destruct (lo_reads _ _ _ t_of k id op r Hk Hop Hr) as (iv & Hiv & Hle & H).
  unfold defined_before, alive. destruct (producer_of d !! r) as [p|] eqn:Hp.
  - destruct H as (j & ? & ? & ?). split; [by exists j|]. exists iv. split_and!; [done|lia|done].
  - destruct H as [H _]. split; [|exists iv; split_and!; [done|lia|done]].
    apply external_inputs_spec. split; [done|]. by exists id, op.
Qed.

Lemma write_alive k id op :
  l !! k = Some id → nodes d !! id = Some op →
  ∃ iv, LifetimeTable_get t (op_writes op) = Some iv ∧ iv_def iv = Z.of_nat k
    ∧ Z.of_nat k ≤ iv_last_use iv.
Proof using t_of.
  intros Hk Hop. destruct (lo_writes _ _ _ t_of k id op Hk Hop) as (iv & ? & ? & ? & _).
  by exists iv.
Qed.

Lemma external_def x :
  x ∈ external_inputs d → ∃ iv, LifetimeTable_get t x = Some iv ∧ iv_def iv = 0.
Proof using l_all t_of.
  intros (Hp & id & op & Hop & Hr)%external_inputs_spec.
  pose proof (l_all _ _ Hop) as [k Hk]%list_elem_of_lookup.
  destruct (lo_reads _ _ _ t_of k id op x Hk Hop Hr) as (iv & Hiv & _ & H).
  rewrite Hp in H. exists iv. tauto.
Qed.

(** An operation's output is not defined before it runs. *)
Lemma write_fresh k id op :
  l !! k = Some id → nodes d !! id = Some op → ¬ defined_before k (op_writes op).
Proof using d_wf l_nodup.
  intros Hk Hop. destruct d_wf as [H1 _]. destruct (H1 _ _ Hop) as [_ Hp].
  unfold defined_before. rewrite Hp. intros (j & Hj & Hl).
  assert (j = k) by (by eapply NoDup_lookup). lia.
Qed.

Lemma hint_exact_ordered h : hint_exact d l h → hint_ordered t h.
Proof using d_wf l_nodup t_of.
  intros (k & id & op & _ & Hk & Hop & Hin & Hout). split.
  - intros Heq. rewrite Hout in Heq. rewrite Heq in Hin.
    destruct (read_defined _ _ _ _ Hk Hop Hin) as [Hdef _].
    by apply (write_fresh _ _ _ Hk Hop) in Hdef.
  - rewrite Hout. intros i o Hi Ho.
    destruct (read_defined _ _ _ _ Hk Hop Hin) as [_ (i' & Hi' & Hle & _)].
    destruct (write_alive _ _ _ Hk Hop) as (o' & Ho' & Hdef & _).
    simplify_eq. lia.
Qed.

Context (b : InPlaceBlockers) (hints : list InPlaceHint) (p : PlanResult).
Hypothesis hints_exact : ∀ h, h ∈ hints → hint_exact d l h.
Hypothesis p_placed : placement t b hints p.

(** The write of step [k] spares the slots of the tensors still needed. *)
Lemma write_spares k id op x :
  l !! k = Some id → nodes d !! id = Some op →
  defined_before k x → alive (S k) x → slot_of p x ≠ slot_of p (op_writes op).
Proof using d_wf l_nodup l_all t_of hints_exact p_placed.
  intros Hk Hop Hdef (iv & Hiv & Hle & Hlast) Heq.
  destruct (write_alive _ _ _ Hk Hop) as (ow & How & Hdw & Hlw).
  assert (x ≠ op_writes op) as Hne
    by (intros ->; by apply (write_fresh _ _ _ Hk Hop) in Hdef).
  assert (iv_def iv ≤ Z.of_nat k) as Hdk.
  { unfold defined_before in Hdef. destruct (producer_of d !! x) as [px|] eqn:Hp.
    - destruct Hdef as (j & Hj & Hl). destruct d_wf as [_ H2].
      destruct (H2 _ _ Hp) as (po & Hpo & <-).
      destruct (write_alive _ _ _ Hl Hpo) as (iv' & ? & ? & _). simplify_eq. lia.
    - destruct (external_def x Hdef) as (iv' & ? & ?). simplify_eq. lia. }
  destruct p_placed as [_ Hsh].
  destruct (Hsh x iv (op_writes op) ow Hiv How Hne) as (h & Hh & Hev & Hpair); [|done|].
  { apply Interval_overlaps_true. lia. }
  apply evaluate_hint_Apply in Hev as (i & o & Hi & Ho & Hstep & _).
  destruct (hints_exact h Hh) as (kh & idh & oph & Hs & Hkh & Hoph & Hinh & Houth).
  destruct (write_alive _ _ _ Hkh Hoph) as (oh & Hoh & Hdh & _).
  destruct Hpair as [[-> Hw]|[Hw ->]].
  - rewrite <- Hw, Houth in *. simplify_eq. lia.
  - rewrite Houth in *.
    destruct d_wf as [H1 _]. destruct (H1 _ _ Hoph) as [_ Hp].
    unfold defined_before in Hdef. rewrite Hp in Hdef. destruct Hdef as (j & Hj & Hl).
    assert (j = kh) by (by eapply NoDup_lookup). rewrite <- Hw in *. simplify_eq. lia.
Qed.

(** External inputs are alive from step 0, so their slots are distinct. *)
Lemma external_slots x y :
  x ∈ external_inputs d → y ∈ external_inputs d → x ≠ y →
  slot_of p x ≠ slot_of p y.
Proof using d_wf l_all t_of hints_exact p_placed.
  intros Hx Hy Hne Heq.
  destruct (external_def x Hx) as (ix & Hix & Hdx), (external_def y Hy) as (iy & Hiy & Hdy).
  assert (∀ z iz, z ∈ external_inputs d → LifetimeTable_get t z = Some iz → iv_def iz = 0 →
    0 ≤ iv_last_use iz) as Hlast.
  { intros z iz _ Hz Hd. destruct (lo_last _ _ _ t_of z iz Hz) as [|(? & ? & ? & ? & ? & ? & ?)]; lia. }
  destruct p_placed as [_ Hsh].
  destruct (Hsh x ix y iy Hix Hiy Hne) as (h & Hh & _ & Hpair); [|done|].
  { apply Interval_overlaps_true. rewrite Hdx, Hdy. split; [by apply (Hlast y)|by apply (Hlast x)]. }
  destruct (hints_exact h Hh) as (k & id & op & _ & _ & Hop & _ & Hout).
  apply external_inputs_spec in Hx as [Hx _], Hy as [Hy _].
  destruct d_wf as [H1 _]. destruct (H1 _ _ Hop) as [_ Hp].
  rewrite Hout in Hpair. destruct Hpair as [[_ ->]|[_ ->]]; congruence.
Qed.
End schedule.

Section simulation.
Context {V : Type} (f : Z → list V → V) (d : OpDag) (l : list Z) (t : LifetimeTable).
Hypothesis d_wf : dag_wf d.
Hypothesis l_nodup : NoDup l.
Hypothesis l_all : ∀ id op, nodes d !! id = Some op → id ∈ l.
Hypothesis l_dom : Forall (λ id, id ∈ dom (nodes d)) l.
Hypothesis t_of : lifetimes_of d l t.
Context (b : InPlaceBlockers) (hints : list InPlaceHint) (p : PlanResult).
Hypothesis hints_exact : ∀ h, h ∈ hints → hint_exact d l h.
Hypothesis p_placed : placement t b hints p.

Lemma upd_eq {K} `{EqDecision K} (m : K → V) k v : upd m k v k = v.
Proof using Type. unfold upd. by rewrite decide_True. Qed.

Lemma upd_ne {K} `{EqDecision K} (m : K → V) k k' v : k ≠ k' → upd m k v k' = m k'.
Proof using Type. intros. unfold upd. by rewrite decide_False. Qed.

(** The simulation relation at step [k]: the slots of the tensors that are
    defined and still needed hold their values. *)
Definition agree (k : nat) (env : Z → V) (mem : nat → V) : Prop :=
  ∀ x, defined_before d l k x → alive t k x →
    ∃ s, slot_of p x = Some s ∧ mem s = env x.

Lemma agree_step k id op env mem v s :
  l !! k = Some id → nodes d !! id = Some op → slot_of p (op_writes op) = Some s →
  agree k env mem → agree (S k) (upd env (op_writes op) v) (upd mem s v).
Proof using d_wf l_nodup l_all t_of hints_exact p_placed.
  intros Hk Hop Hs Hag x Hdef Hal.
  destruct (decide (x = op_writes op)) as [->|Hne].
  { exists s. by rewrite !upd_eq. }
  assert (defined_before d l k x) as Hdef'.
  { unfold defined_before in *. destruct (producer_of d !! x) as [px|] eqn:Hp; [|done].
    destruct Hdef as (j & Hj & Hl). exists j. split; [|done].
    destruct (decide (j = k)) as [->|?]; [|lia]. exfalso. simplify_eq.
    destruct d_wf as [_ H2]. destruct (H2 _ _ Hp) as (o & Ho & <-). by simplify_eq. }
  pose proof (write_spares d l t d_wf l_nodup l_all t_of b hints p hints_exact p_placed
    k id op x Hk Hop Hdef' Hal) as Hsp.
  destruct (Hag x Hdef') as (sx & Hsx & Hmx).
  { destruct Hal as (iv & Hiv & Hle & Hlast). exists iv. split_and!; [done| |lia].
    unfold defined_before in Hdef'. destruct (producer_of d !! x) as [px|] eqn:Hp.
    - destruct Hdef' as (j & Hj & Hl). destruct d_wf as [_ H2].
      destruct (H2 _ _ Hp) as (po & Hpo & <-).
      destruct (write_alive d l t t_of _ _ _ Hl Hpo) as (iv' & ? & ? & _). simplify_eq. lia.
    - destruct (external_def d l t l_all t_of x Hdef') as (iv' & ? & ?). simplify_eq. lia. }
  exists sx. split; [done|]. rewrite !upd_ne; [done|congruence|congruence].
Qed.

Lemma agree_reads k id op env mem :
  l !! k = Some id → nodes d !! id = Some op → agree k env mem →
  ∃ ks, mapM (slot_of p) (op_reads op) = Some ks ∧ mem <$> ks = env <$> op_reads op.
Proof using t_of.
  intros Hk Hop Hag.
  assert (Forall (λ r, ∃ s, slot_of p r = Some s ∧ mem s = env r) (op_reads op)) as Hall.
  { apply Forall_forall. intros r Hr.
    destruct (read_defined d l t t_of k id op r Hk Hop Hr). by apply Hag. }
  assert (∃ ks, Forall2 (λ r s, slot_of p r = Some s) (op_reads op) ks
    ∧ mem <$> ks = env <$> op_reads op) as (ks & Hks & Hm).
  { clear Hop. induction Hall as [|r rs (s & Hs & Hm) _ (ks & Hks & IH)].
    - exists []. split; [constructor|done].
    - exists (s :: ks). split; [by constructor|]. csimpl. by rewrite Hm, IH. }
  exists ks. split; [by apply mapM_Some|done].
Qed.

Lemma run_agree k env mem :
  agree k env mem →
  ∃ vs, run_slots f d p mem (drop k l) = Some vs ∧ run_ref f d env (drop k l) = Some vs.
Proof using d_wf l_nodup l_all l_dom t_of hints_exact p_placed.
  remember (length l - k)%nat as n eqn:Hn. revert k env mem Hn.
  induction n as [|n IH]; intros k env mem Hn Hag.
  { rewrite drop_ge by lia. by exists []. }
  destruct (lookup_lt_is_Some_2 l k) as [id Hk]; [lia|].
  rewrite (drop_S _ _ _ Hk). simpl.
  destruct (proj1 (elem_of_dom _ _) (proj1 (Forall_forall _ _) l_dom id
    (list_elem_of_lookup_2 _ _ _ Hk))) as [op Hop].
  rewrite Hop. simpl.
  destruct (agree_reads k id op env mem Hk Hop Hag) as (ks & Hks & Hvals).
  rewrite Hks. simpl. rewrite Hvals.
  destruct (write_alive d l t t_of _ _ _ Hk Hop) as (ow & How & _).
  destruct p_placed as [Hslot _]. destruct (Hslot _ _ How) as (s & Hs). rewrite Hs. simpl.
  destruct (IH (S k) (upd env (op_writes op) (f id (env <$> op_reads op)))
    (upd mem s (f id (env <$> op_reads op)))) as (vs & Hvs & Hvr).
  { lia. }
  { by eapply agree_step. }
  rewrite Hvs, Hvr. simpl. by eexists.
Qed.

Lemma load_agree env mem : agree 0 env (load d p env mem).
Proof using All.
  intros x Hdef _. unfold defined_before in Hdef.
  assert (x ∈ external_inputs d) as Hx.
  { destruct (producer_of d !! x); [|done]. destruct Hdef as (j & ? & _). lia. }
  destruct (external_def d l t l_all t_of x Hx) as (iv & Hiv & _).
  destruct p_placed as [Hslot _]. destruct (Hslot _ _ Hiv) as (s & Hs). exists s. split; [done|].
  unfold load.
  assert (∀ xs m, (∀ y, y ∈ xs → y ∈ external_inputs d) → (x ∈ xs ∨ m s = env x) →
    foldl (λ m y, match slot_of p y with Some k => upd m k (env y) | None => m end) m xs s
    = env x) as Hload.
  { induction xs as [|y xs IH]; intros m Hxs Hor; simpl.
    { destruct Hor as [?%not_elem_of_nil|]; done. }
    apply IH; [set_solver|]. destruct (decide (y = x)) as [->|Hne].
    - right. rewrite Hs. apply upd_eq.
    - destruct Hor as [[?|?]%elem_of_cons|Hm]; [done|by left|]. right.
      destruct (slot_of p y) as [sy|] eqn:Hsy; [|done]. rewrite upd_ne; [done|].
      intros ->. eapply (external_slots d l t d_wf l_all t_of b hints p hints_exact p_placed y x);
        [apply Hxs; set_solver|done..|congruence]. }
  apply Hload; [by intros y ?%elem_of_elements|left; by apply elem_of_elements].
Qed.

(** With shared slots every operation computes the value it computes with
    memory of its own for each tensor. *)
Lemma run_slots_ref env mem :
  ∃ vs, run_slots f d p (load d p env mem) l = Some vs ∧ run_ref f d env l = Some vs.
Proof using All.
  exact (run_agree 0 env _ (load_agree env mem)).
Qed.
End simulation.

(** *** The pipeline *)

Definition with_budget (input : PlannerInput) (budget : option Z) : PlannerInput :=
  mkPlannerInput (in_dag input) (inplace_hints input) (blockers input) budget.

Lemma with_budget_id input : with_budget input (in_budget input) = input.
Proof. by destruct input. Qed.

Lemma Planner_plan_cases input :
  dag_wf (in_dag input) → ops_sized (in_dag input) →
  Z.of_nat (OpDag_len (in_dag input)) ≤ 2 ^ 32 →
  (∀ l h, reorder (in_dag input) = Ok l → h ∈ inplace_hints input → hint_exact (in_dag input) l h) →
  match reorder (in_dag input) with
  | Ok l => ∃ t p, schedules (in_dag input) l ∧ lifetimes_of (in_dag input) l t
      ∧ table_wf t
      ∧ placement t (blockers input) (inplace_hints input) p
      ∧ (inplace_hints input = [] → p = plan t)
      ∧ ∀ bud, Planner_plan (with_budget input bud) =
          match bud with
          | Some budget =>
              if budget <? peak_bytes p then
                Err (OverBudget (peak_bytes p) budget (suggest_checkpoints (in_dag input) p))
              else Ok (mkSchedule l p)
          | None => Ok (mkSchedule l p)
          end
  | Err e => Planner_plan input = Err (PlannerReorder e)
  | Panic => False
  end.
Proof.
  intros Hwf Hsz Hlen Hhints. pose proof (reorder_spec _ Hwf) as Hr.
  unfold Planner_plan. simpl. destruct (reorder (in_dag input)) as [l|e|] eqn:Hre; simpl in *;
    [|done|done].
  destruct Hr as [[Hperm Htopo] _].
  assert (NoDup l) as Hnd by (rewrite Hperm; apply NoDup_elements).
  assert (Z.of_nat (length l) ≤ 2 ^ 32) as Hl.
  { rewrite Hperm. unfold OpDag_len in Hlen. rewrite <- size_dom in Hlen. exact Hlen. }
  destruct (@lifetime_for_lifetimes (in_dag input) l Hwf Hnd Htopo Hl PlannerError)
    as (t & Ht & Hof & Htwf). specialize (Htwf Hsz).
  exists t. destruct (inplace_hints input) as [|h hs] eqn:Hh; simpl.
  - exists (plan t). split_and!; try done; [by apply plan_placement|].
    intros bud. by rewrite Ht.
  - destruct (@inplace_placement PlannerError t (blockers input) (h :: hs) Htwf) as (p & Hpl & Hp).
    { intros h' Hh'. eapply hint_exact_ordered; eauto. }
    exists p. split_and!; try done. intros bud. rewrite Ht. simpl. by rewrite Hpl.
Qed.

Lemma checkpoint_cmp_lex a b :
  checkpoint_cmp a b = lex [- a.2; a.1] [- b.2; b.1].
Proof.
  destruct a as [ia ba], b as [ib bb]. unfold checkpoint_cmp; simpl.
  rewrite Z.compare_opp. by destruct (bb ?= ba), (ia ?= ib).
Qed.

Lemma StronglySorted_take_drop {A} (R : A → A → Prop) l n x y :
  StronglySorted R l → x ∈ take n l → y ∈ drop n l → R x y.
Proof.
  revert n. induction l as [|z l IH]; intros [|n] Hs; simpl; try by intros ?%not_elem_of_nil.
  - apply StronglySorted_inv in Hs as [Hs Hz]. rewrite Forall_forall in Hz.
    intros [->|Hx]%elem_of_cons Hy; [|by eapply IH].
    apply Hz. rewrite <- (take_drop n l). apply elem_of_app. by right.
Qed.

(** ** Properties *)

(** C1: the plan is semantically invisible, for graphs built from operations with
    distinct ids and outputs, sizes of [u64] and at most 2^32 operations, and in-place
    hints (if any) that are right about the schedule: the operation at the hint's step
    reads its input and writes its output.  Then, for the schedule that the planner
    returns, running the operations with every tensor kept in its slot computes for
    every operation the value it computes when every tensor has memory of its own: no
    slot is overwritten while a tensor in it is still needed, and every tensor has a
    slot. *)
Theorem planner_execution input s :
  dag_wf (in_dag input) → ops_sized (in_dag input) →
  Z.of_nat (OpDag_len (in_dag input)) ≤ 2 ^ 32 →
  (∀ l h, reorder (in_dag input) = Ok l → h ∈ inplace_hints input →
     hint_exact (in_dag input) l h) →
  Planner_plan input = Ok s →
  schedules (in_dag input) (sched_ops s)
  ∧ ∀ (V : Type) (f : Z → list V → V) (env : Z → V) (mem : nat → V),
      ∃ vs, run_slots f (in_dag input) (sched_plan s)
              (load (in_dag input) (sched_plan s) env mem) (sched_ops s) = Some vs
        ∧ run_ref f (in_dag input) env (sched_ops s) = Some vs.
Proof.
  intros Hwf Hsz Hlen Hh Hok. pose proof (Planner_plan_cases input Hwf Hsz Hlen Hh) as H.
  destruct (reorder (in_dag input)) as [l|e|] eqn:Hr; [|congruence|done].
  destruct H as (t & p & Hs & Hof & Htwf & Hp & _ & Hplan).
  pose proof (Hplan (in_budget input)) as Hp'. rewrite with_budget_id, Hok in Hp'.
  assert (s = mkSchedule l p) as -> by (repeat case_match; congruence). simpl.
  split; [done|]. intros V f env mem. destruct Hs as [Hperm Htopo].
  assert (∀ id, id ∈ l ↔ id ∈ dom (nodes (in_dag input))) as Hl.
  { intros id. by rewrite Hperm, elem_of_elements. }
  apply (run_slots_ref f (in_dag input) l t) with (b := blockers input) (hints := inplace_hints input);
    try done.
  - rewrite Hperm. apply NoDup_elements.
  - intros id op Hop. apply Hl. by apply elem_of_dom_2 in Hop.
  - apply Forall_forall. intros id. apply Hl.
  - intros h. by apply Hh.
Qed.

(** [Planner::plan] never panics, and each outcome means what it says: a
    schedule is complete, topological and, under a budget, within it; a
    reorder error is a genuine cycle; [OverBudget] carries the peak of the
    plan that the same input gets without a budget, which exceeds the budget;
    the [Plan] variant is never returned. *)
Theorem planner_total input :
  dag_wf (in_dag input) → ops_sized (in_dag input) →
  Z.of_nat (OpDag_len (in_dag input)) ≤ 2 ^ 32 →
  (∀ l h, reorder (in_dag input) = Ok l → h ∈ inplace_hints input →
     hint_exact (in_dag input) l h) →
  match Planner_plan input with
  | Ok s => schedules (in_dag input) (sched_ops s)
      ∧ ∀ budget, in_budget input = Some budget → Schedule_peak_bytes s ≤ budget
  | Err (PlannerReorder (Cycle rem)) => stuck (in_dag input) rem
  | Err (OverBudget required budget _) =>
      in_budget input = Some budget ∧ budget < required
      ∧ ∃ s, Planner_plan (mkPlannerInput (in_dag input) (inplace_hints input)
                             (blockers input) None) = Ok s
          ∧ Schedule_peak_bytes s = required
  | Err (PlannerPlan _) | Panic => False
  end.
Proof.
  intros Hwf Hsz Hlen Hh. pose proof (Planner_plan_cases input Hwf Hsz Hlen Hh) as H.
  pose proof (reorder_spec _ Hwf) as Hr.
  destruct (reorder (in_dag input)) as [l|[rem]|] eqn:Hre; [|rewrite H; by destruct Hr|done].
  destruct H as (t & p & Hs & _ & _ & _ & _ & Hplan).
  pose proof (Hplan (in_budget input)) as Hp. rewrite with_budget_id in Hp. rewrite Hp.
  destruct (in_budget input) as [budget|]; [|by split].
  destruct (Z.ltb_spec budget (peak_bytes p)) as [Hlt|Hge].
  - split_and!; [done|lia|]. exists (mkSchedule l p). split; [exact (Hplan None)|done].
  - split; [done|]. intros ? [= <-]. unfold Schedule_peak_bytes; simpl. lia.
Qed.

(** the checkpoint suggestions are at most five distinct operations of the
    graph, all of them if there are fewer, and no operation left out writes a
    larger tensor than a suggested one. *)
Theorem suggest_checkpoints_largest d p :
  dag_wf d →
  let l := suggest_checkpoints d p in
  length l = Nat.min 5 (OpDag_len d) ∧ NoDup l
  ∧ ∀ id, id ∈ l → ∃ op, nodes d !! id = Some op
      ∧ ∀ id' op', nodes d !! id' = Some op' → id' ∉ l → op_bytes op' ≤ op_bytes op.
Proof.
  intros [Hwf _] l. unfold suggest_checkpoints in l.
  set (entries := (λ op, (op_id op, op_bytes op)) <$> OpDag_iter d) in l.
  set (sorted := sort_by checkpoint_cmp entries) in l.
  assert (sorted ≡ₚ entries) as Hperm by apply sort_by_perm.
  assert (entries.*1 = (map_to_list (nodes d)).*1) as Hkeys.
  { unfold entries, OpDag_iter. rewrite <- !list_fmap_compose. apply list_fmap_ext.
    intros i [id op] Hi%list_elem_of_lookup_2%elem_of_map_to_list. simpl.
    by destruct (Hwf _ _ Hi). }
  assert (NoDup sorted.*1) as Hnd.
  { rewrite Hperm, Hkeys. apply NoDup_fst_map_to_list. }
  assert (∀ id b, (id, b) ∈ sorted ↔ ∃ op, nodes d !! id = Some op ∧ op_bytes op = b) as Hin.
  { intros id b. rewrite Hperm. unfold entries. rewrite list_elem_of_fmap.
    setoid_rewrite elem_of_OpDag_iter. split.
    - intros (op & E & id' & Hop). injection E as -> ->. destruct (Hwf _ _ Hop) as [-> _]. eauto.
    - intros (op & Hop & <-). exists op. destruct (Hwf _ _ Hop) as [-> _]. eauto. }
  split_and!.
  - unfold l. rewrite length_fmap, length_take, Hperm. unfold entries, OpDag_iter, OpDag_len.
    by rewrite !length_fmap, length_map_to_list.
  - unfold l. rewrite <- (take_drop 5 sorted), fmap_app in Hnd. by apply NoDup_app in Hnd as [? _].
  - intros id Hid. unfold l in Hid. apply list_elem_of_fmap in Hid as ([id0 b] & -> & Hid). simpl.
    assert ((id0, b) ∈ sorted) as [op [Hop <-]]%Hin.
    { rewrite <- (take_drop 5 sorted). apply elem_of_app. by left. }
    exists op. split; [done|]. intros id' op' Hop' Hnot.
    assert ((id', op_bytes op') ∈ sorted) as Hs by (apply Hin; eauto).
    rewrite <- (take_drop 5 sorted) in Hs. apply elem_of_app in Hs as [Hs|Hs].
    { exfalso. apply Hnot. apply list_elem_of_fmap. by exists (id', op_bytes op'). }
    pose proof (StronglySorted_take_drop _ _ _ _ _
      (sort_by_sorted checkpoint_cmp (λ e, [- e.2; e.1]) checkpoint_cmp_lex (λ _ _, eq_refl) entries)
      Hid Hs) as Hc. simpl in Hc.
    unfold checkpoint_cmp in Hc; simpl in Hc.
    destruct (Z.compare_spec (op_bytes op') (op_bytes op)); simpl in Hc; [lia|lia|done].
Qed.

(** *** Witnesses *)

Lemma sample_ops_sized : ops_sized sample_dag.
Proof.
  assert (map_Forall (λ _ op, uint 64 (op_bytes op) ∧ uint 32 (op_align op)) (nodes sample_dag))
    as H; [|intros id op Hop; exact (H id op Hop)].
  apply (bool_decide_unpack _). vm_compute. exact I.
Qed.

(** Operation 3 (at step 3 of the schedule 4, 1, 2, 3, 5) may overwrite its
    operand, tensor 2. *)
Definition sample_input (budget : option Z) : PlannerInput :=
  mkPlannerInput sample_dag [mkHint 2 3 3] InPlaceBlockers_new budget.

Lemma sample_hints_exact l h :
  reorder sample_dag = Ok l → h ∈ [mkHint 2 3 3] → hint_exact sample_dag l h.
Proof.
  intros Hl ->%list_elem_of_singleton.
  assert (reorder sample_dag = Ok [4; 1; 2; 3; 5]) as Hr by (vm_compute; reflexivity).
  rewrite Hr in Hl. injection Hl as <-.
  exists 3%nat, 3, (mkOpNode 3 [2; 2] 3 10 1). split_and!.
  - reflexivity.
  - reflexivity.
  - vm_compute. reflexivity.
  - constructor.
  - reflexivity.
Qed.

Lemma planner_execution_witness :
  ∃ s, Planner_plan (sample_input None) = Ok s ∧ schedules sample_dag (sched_ops s)
    ∧ slot_of (sched_plan s) 2 = slot_of (sched_plan s) 3.
Proof.
  eexists. split; [vm_compute; reflexivity|]. split.
  - apply (planner_execution (sample_input None)).
    + exact sample_dag_wf.
    + exact sample_ops_sized.
    + vm_compute. discriminate.
    + exact sample_hints_exact.
    + vm_compute. reflexivity.
  - vm_compute. reflexivity.
Defined.

Lemma planner_total_witness :
  ∃ sug, Planner_plan (sample_input (Some 1000)) = Err (OverBudget 1120 1000 sug)
    ∧ ∃ s, Planner_plan (sample_input None) = Ok s ∧ Schedule_peak_bytes s = 1120.
Proof.
  pose proof (planner_total (sample_input (Some 1000)) sample_dag_wf sample_ops_sized
    ltac:(vm_compute; discriminate) sample_hints_exact) as H.
  eexists. split; [vm_compute; reflexivity|].
  assert (Planner_plan (sample_input (Some 1000)) = Err (OverBudget 1120 1000 [1; 2; 5; 3; 4]))
    as Heq by (vm_compute; reflexivity).
  rewrite Heq in H. destruct H as (_ & _ & s & Hs & Hp). exists s. split; [exact Hs|exact Hp].
Defined.

Lemma suggest_checkpoints_largest_witness :
  suggest_checkpoints sample_dag (mkPlanResult [] []) = [1; 2; 5; 3; 4]
  ∧ NoDup (suggest_checkpoints sample_dag (mkPlanResult [] [])).
Proof.
  split; [vm_compute; reflexivity|].
  apply (suggest_checkpoints_largest sample_dag (mkPlanResult [] []) sample_dag_wf).
Defined.
