(* ===== verification/Dtype.v ===== *)
(** * Element types (crates/rustorch-core/src/tensor/dtype.rs)

    The eight dtypes, their sizes, and type promotion, which is the join of a
    semilattice.  The sealed trait [Element] ties a Rust scalar type to its
    dtype, so a type parameter [T: Element] is a [Dtype] in the model and
    [size_of::<T>()] its [byte_size]. *)

From Stdlib Require Import ZArith Lia.
From stdpp Require Import base list strings.
From S2P Require Import Prelude.

(** [enum Dtype], with [#[repr(u8)]] discriminants. *)
Inductive Dtype := F32 | F64 | F16 | BF16 | I64 | I32 | I8 | DBool.

#[export] Instance Dtype_eq_dec : EqDecision Dtype.
Proof. solve_decision. Defined.

Definition discriminant (d : Dtype) : Z :=
  match d with
  | F32 => 0 | F64 => 1 | F16 => 2 | BF16 => 3
  | I64 => 4 | I32 => 5 | I8 => 6 | DBool => 7
  end.

Definition Dtype_byte_size (d : Dtype) : Z :=
  match d with
  | F32 | I32 => 4
  | F64 | I64 => 8
  | F16 | BF16 => 2
  | I8 | DBool => 1
  end.

Definition is_floating (d : Dtype) : bool :=
  match d with F32 | F64 | F16 | BF16 => true | _ => false end.
Definition is_signed (d : Dtype) : bool :=
  match d with I64 | I32 | I8 => true | _ => false end.
Definition is_integer (d : Dtype) : bool :=
  match d with I64 | I32 | I8 => true | _ => false end.
Definition is_boolean (d : Dtype) : bool :=
  match d with DBool => true | _ => false end.
Definition is_complex (d : Dtype) : bool := false.

Definition Dtype_name (d : Dtype) : string :=
  match d with
  | F32 => "f32" | F64 => "f64" | F16 => "f16" | BF16 => "bf16"
  | I64 => "i64" | I32 => "i32" | I8 => "i8" | DBool => "bool"
  end.

(** [Dtype::promote_with]: the cascade of tests, as the code makes them. *)
Definition promote_with (a b : Dtype) : Dtype :=
  let either d := bool_decide (a = d) || bool_decide (b = d) in
  if bool_decide (a = b) then a
  else if either F64 then F64
  else if either F32 then F32
  else if (bool_decide (a = F16) && bool_decide (b = BF16))
          || (bool_decide (a = BF16) && bool_decide (b = F16)) then F32
  else if either F16 then F16
  else if either BF16 then BF16
  else if either I64 then I64
  else if either I32 then I32
  else if either I8 then I8
  else F32.

(** [Dtype::promote_all] *)
Definition promote_all (ds : list Dtype) : option Dtype :=
  match ds with
  | [] => None
  | head :: rest => Some (foldl promote_with head rest)
  end.

(** ** The promotion order

    [dle a b]: an [a] can be promoted to a [b]. *)
Definition dle (a b : Dtype) : Prop := promote_with a b = b.

Ltac dtypes := repeat match goal with d : Dtype |- _ => destruct d end; vm_compute; try done.

Lemma promote_with_comm a b : promote_with a b = promote_with b a.
Proof. dtypes. Qed.

Lemma promote_with_assoc a b c :
  promote_with a (promote_with b c) = promote_with (promote_with a b) c.
Proof. dtypes. Qed.

Lemma promote_with_idem a : promote_with a a = a.
Proof. dtypes. Qed.

Lemma dle_refl a : dle a a.
Proof. apply promote_with_idem. Qed.

Lemma dle_trans a b c : dle a b → dle b c → dle a c.
Proof. unfold dle. intros Hab <-. by rewrite promote_with_assoc, Hab. Qed.

Lemma dle_antisym a b : dle a b → dle b a → a = b.
Proof. unfold dle. intros H1 H2. by rewrite <- H1, promote_with_comm, H2. Qed.

#[export] Instance dle_partial_order : PartialOrder dle.
Proof.
  repeat split.
  - intros a. apply dle_refl.
  - intros a b c. apply dle_trans.
  - intros a b. apply dle_antisym.
Qed.

Lemma dle_promote_l a b : dle a (promote_with a b).
Proof. unfold dle. by rewrite promote_with_assoc, promote_with_idem. Qed.

Lemma dle_promote a b c : dle (promote_with a b) c ↔ dle a c ∧ dle b c.
Proof.
  split.
  - intros H. split; (eapply dle_trans; [|exact H]).
    + apply dle_promote_l.
    + rewrite promote_with_comm. apply dle_promote_l.
  - unfold dle. intros [Ha Hb]. by rewrite <- promote_with_assoc, Hb.
Qed.

Lemma foldl_promote_dle ds a c :
  dle (foldl promote_with a ds) c ↔ dle a c ∧ Forall (λ d, dle d c) ds.
Proof.
  revert a. induction ds as [|d ds IH]; intros a; simpl.
  - rewrite Forall_nil. tauto.
  - rewrite IH, dle_promote, Forall_cons. tauto.
Qed.

(** ** Properties *)

(** type promotion is a join: promoting a non-empty list of dtypes gives
    the least dtype that all of them promote to, in the partial order that
    [promote_with] induces.  It is therefore commutative, associative and
    idempotent, and [promote_all] depends neither on the order of the list nor
    on repetitions; it fails exactly on the empty list. *)
Theorem promote_all_lub ds :
  match promote_all ds with
  | None => ds = []
  | Some r => ds ≠ [] ∧ (∀ c, dle r c ↔ Forall (λ d, dle d c) ds)
      ∧ ∀ ds', (∀ d, d ∈ ds ↔ d ∈ ds') → promote_all ds' = Some r
  end.
Proof.
  assert (∀ a ds c, dle (foldl promote_with a ds) c ↔ Forall (λ d, dle d c) (a :: ds)) as Hlub.
  { intros a l c. by rewrite foldl_promote_dle, Forall_cons. }
  destruct ds as [|a ds]; simpl; [done|]. split_and!; [done|apply Hlub|].
  intros [|b ds'] Hsame; simpl.
  { exfalso. apply (not_elem_of_nil a), Hsame. by left. }
  f_equal. apply dle_antisym; rewrite Hlub, Forall_forall; intros d Hd.
  - apply Hsame in Hd. revert d Hd. apply Forall_forall, Hlub, dle_refl.
  - apply Hsame in Hd. revert d Hd. apply Forall_forall, Hlub, dle_refl.
Qed.
