(* ===== verification/Float.v ===== *)
(** * IEEE 754 arithmetic on bit patterns

    A tensor element of a floating dtype is a bit pattern; Rust's [f32] and
    [f64] operators, the conversions of [as] and the formats of the dtypes
    are modelled with the Standard Library's executable reference arithmetic
    ([SpecFloat], round to nearest even).  Rust leaves the payload of a NaN
    result unspecified; here it is the canonical quiet NaN. *)

From Stdlib Require Import ZArith Lia SpecFloat.
From stdpp Require Import base list.
From S2P Require Import Prelude Dtype.

(** A binary interchange format: width, precision and maximal exponent. *)
Record format := mkFormat { f_width : Z; f_prec : Z; f_emax : Z }.

Definition binary16 := mkFormat 16 11 16.
Definition bfloat16 := mkFormat 16 8 128.
Definition binary32 := mkFormat 32 24 128.
Definition binary64 := mkFormat 64 53 1024.

Definition f_mant (f : format) : Z := f_prec f - 1.
Definition f_exp (f : format) : Z := f_width f - f_prec f.
Definition f_emin (f : format) : Z := 3 - f_emax f - f_prec f.

(** Decoding and encoding a bit pattern. *)
Definition of_bits (f : format) (b : Z) : spec_float :=
  let s := Z.testbit b (f_width f - 1) in
  let e := (b / 2 ^ f_mant f) mod 2 ^ f_exp f in
  let m := b mod 2 ^ f_mant f in
  if e =? 2 ^ f_exp f - 1 then if m =? 0 then S754_infinity s else S754_nan
  else if e =? 0 then
    match m with Zpos p => S754_finite s p (f_emin f) | _ => S754_zero s end
  else match m + 2 ^ f_mant f with
       | Zpos p => S754_finite s p (e + f_emin f - 1)
       | _ => S754_nan
       end.

Definition sign_bit (f : format) (s : bool) : Z := if s then 2 ^ (f_width f - 1) else 0.

Definition to_bits (f : format) (x : spec_float) : Z :=
  match x with
  | S754_zero s => sign_bit f s
  | S754_infinity s => sign_bit f s + (2 ^ f_exp f - 1) * 2 ^ f_mant f
  | S754_nan => (2 ^ f_exp f - 1) * 2 ^ f_mant f + 2 ^ (f_mant f - 1)
  | S754_finite s m e =>
      if Zpos m <? 2 ^ f_mant f then sign_bit f s + Zpos m
      else sign_bit f s + (e - f_emin f + 1) * 2 ^ f_mant f + (Zpos m - 2 ^ f_mant f)
  end.

Definition lift2 (g : Z → Z → spec_float → spec_float → spec_float) (f : format) (a b : Z) : Z :=
  to_bits f (g (f_prec f) (f_emax f) (of_bits f a) (of_bits f b)).

Definition fadd := lift2 SFadd.
Definition fsub := lift2 SFsub.
Definition fmul := lift2 SFmul.
Definition fdiv := lift2 SFdiv.

(** [-x] and [x.abs()] act on the sign bit, NaNs included. *)
Definition fneg (f : format) (a : Z) : Z := Z.lxor a (2 ^ (f_width f - 1)).
Definition fabs (f : format) (a : Z) : Z := Z.land a (2 ^ (f_width f - 1) - 1).

(** [==], [<] *)
Definition feqb (f : format) (a b : Z) : bool := SFeqb (of_bits f a) (of_bits f b).
Definition fltb (f : format) (a b : Z) : bool := SFltb (of_bits f a) (of_bits f b).

Definition is_nan (f : format) (a : Z) : bool := negb (feqb f a a).

(** [f32::max], [f64::max]: the other operand when one is NaN. *)
Definition fmax (f : format) (a b : Z) : Z :=
  if is_nan f a then b else if is_nan f b then a else if fltb f a b then b else a.
Definition fmin (f : format) (a b : Z) : Z :=
  if is_nan f a then b else if is_nan f b then a else if fltb f b a then b else a.

(** [x as T] between formats, from an integer, and to an integer of [w] bits
    (truncation, saturating; NaN gives 0). *)
Definition fcast (f g : format) (a : Z) : Z :=
  match of_bits f a with
  | S754_finite s m e =>
      to_bits g (binary_normalize (f_prec g) (f_emax g) (cond_Zopp s (Zpos m)) e s)
  | x => to_bits g x
  end.
Definition fof_int (f : format) (x : Z) : Z :=
  to_bits f (binary_normalize (f_prec f) (f_emax f) x 0 false).
Definition ftrunc (x : spec_float) : option Z :=
  match x with
  | S754_zero _ => Some 0
  | S754_finite s m e =>
      Some (cond_Zopp s (if 0 <=? e then Zpos m * 2 ^ e else Zpos m / 2 ^ (- e)))
  | _ => None
  end.
Definition fto_int (f : format) (lo hi : Z) (a : Z) : Z :=
  match of_bits f a with
  | S754_nan => 0
  | S754_infinity s => if s then lo else hi
  | x => Z.max lo (Z.min hi (default 0 (ftrunc x)))
  end.
Definition fto_sint (f : format) (w : Z) (a : Z) : Z :=
  fto_int f (- 2 ^ (w - 1)) (2 ^ (w - 1) - 1) a.
Definition fto_uint (f : format) (w : Z) (a : Z) : Z := fto_int f 0 (2 ^ w - 1) a.

(** The format of a floating dtype. *)
Definition dtype_format (d : Dtype) : option format :=
  match d with
  | F16 => Some binary16
  | BF16 => Some bfloat16
  | F32 => Some binary32
  | F64 => Some binary64
  | _ => None
  end.

(** ** Lemmas *)

Definition format_ok (f : format) : Prop := 2 ≤ f_prec f ∧ f_prec f < f_width f.

Lemma dtype_format_ok d f : dtype_format d = Some f →
  format_ok f ∧ f_width f = 8 * Dtype_byte_size d.
Proof. destruct d; simpl; intros [= <-]; vm_compute; repeat split; congruence. Qed.

(** The fields of a bit pattern. *)
Lemma bits_fields f b :
  format_ok f → uint (f_width f) b →
  b = sign_bit f (Z.testbit b (f_width f - 1))
      + (b / 2 ^ f_mant f) mod 2 ^ f_exp f * 2 ^ f_mant f + b mod 2 ^ f_mant f.
Proof.
  intros [Hp Hw] Hb. unfold sign_bit, f_mant, f_exp, uint in *.
  set (mw := f_prec f - 1) in *. set (ew := f_width f - f_prec f) in *.
  assert (f_width f - 1 = mw + ew) as Hw1 by lia. rewrite Hw1.
  assert (f_width f = mw + ew + 1) as Hw2 by lia. rewrite Hw2 in Hb.
  pose proof (Z.pow_pos_nonneg 2 mw ltac:(lia) ltac:(lia)) as Hm.
  pose proof (Z.pow_pos_nonneg 2 ew ltac:(lia) ltac:(lia)) as He.
  rewrite !Z.pow_add_r in Hb by lia. rewrite Z.pow_add_r by lia.
  pose proof (Z.div_mod b (2 ^ mw) ltac:(lia)) as H1.
  pose proof (Z.div_mod (b / 2 ^ mw) (2 ^ ew) ltac:(lia)) as H2.
  rewrite Z.testbit_odd, Z.shiftr_div_pow2, Z.pow_add_r, <- Z.div_div by lia.
  set (q := b / 2 ^ mw / 2 ^ ew) in *.
  assert (0 ≤ q) by (apply Z.div_pos; [apply Z.div_pos|]; lia).
  assert (q < 2).
  { apply Z.div_lt_upper_bound; [lia|]. apply Z.div_lt_upper_bound; [lia|]. lia. }
  assert (q = 0 ∨ q = 1) as [Hq|Hq] by lia; rewrite Hq in *; simpl; nia.
Qed.

(** Encoding a decoded pattern gives it back, NaNs aside. *)
Lemma to_of_bits f b :
  format_ok f → uint (f_width f) b → of_bits f b ≠ S754_nan → to_bits f (of_bits f b) = b.
Proof.
  intros Hok Hb. pose proof (bits_fields f b Hok Hb) as Hf. destruct Hok as [Hp Hw].
  unfold of_bits in *.
  set (s := Z.testbit b _) in *. set (e := (b / _) mod _) in *. set (m := b mod _) in *.
  assert (0 < 2 ^ f_mant f) as Hm by (apply Z.pow_pos_nonneg; unfold f_mant; lia).
  assert (0 ≤ m < 2 ^ f_mant f) as Hmb by (apply Z.mod_pos_bound; lia).
  assert (0 ≤ e < 2 ^ f_exp f) as Heb
    by (apply Z.mod_pos_bound, Z.pow_pos_nonneg; unfold f_exp; lia).
  destruct (Z.eqb_spec e (2 ^ f_exp f - 1)) as [He|He].
  { destruct (Z.eqb_spec m 0) as [Hm0|]; [|done]. intros _. simpl. lia. }
  destruct (Z.eqb_spec e 0) as [He0|He0].
  { intros _. destruct m as [|p|p] eqn:Hmp; simpl; [lia| |lia].
    rewrite (proj2 (Z.ltb_lt _ _)) by lia. lia. }
  intros _. destruct (m + 2 ^ f_mant f) as [|p|p] eqn:Hmp; simpl; [lia| |lia].
  rewrite (proj2 (Z.ltb_ge _ _)) by lia. lia.
Qed.

Lemma fneg_involutive f a : fneg f (fneg f a) = a.
Proof. unfold fneg. by rewrite Z.lxor_assoc, Z.lxor_nilpotent, Z.lxor_0_r. Qed.

(** *** The range of an encoded value *)

Definition format_wf (f : format) : Prop :=
  format_ok f ∧ f_emax f = 2 ^ (f_exp f - 1) ∧ 2 ≤ f_exp f.

Lemma dtype_format_wf d f : dtype_format d = Some f → format_wf f.
Proof. destruct d; simpl; intros [= <-]; vm_compute; repeat split; congruence. Qed.

Lemma binary32_wf : format_wf binary32.
Proof. by apply (dtype_format_wf F32). Qed.
Lemma binary64_wf : format_wf binary64.
Proof. by apply (dtype_format_wf F64). Qed.

(** The finite values of a format. *)
Definition sf_ok (f : format) (x : spec_float) : Prop :=
  match x with
  | S754_finite _ m e => Zpos m < 2 ^ f_prec f ∧ f_emin f ≤ e ≤ f_emax f - f_prec f
  | _ => True
  end.

Lemma to_bits_uint f x : format_wf f → sf_ok f x → uint (f_width f) (to_bits f x).
Proof.
  intros ([Hp Hw] & Hemax & He2) Hx.
  assert (f_width f = (f_prec f - 1) + f_exp f + 1) as Hwidth by (unfold f_exp; lia).
  assert (0 < 2 ^ f_mant f) as Hm by (apply Z.pow_pos_nonneg; unfold f_mant; lia).
  assert (0 < 2 ^ (f_exp f - 1)) as He by (apply Z.pow_pos_nonneg; lia).
  assert (2 ^ f_exp f = 2 * 2 ^ (f_exp f - 1)) as Hee
    by (rewrite <- Z.pow_succ_r by lia; f_equal; lia).
  assert (2 ^ f_prec f = 2 * 2 ^ f_mant f) as Hpp
    by (rewrite <- Z.pow_succ_r by (unfold f_mant; lia); f_equal; unfold f_mant; lia).
  assert (2 ^ (f_width f - 1) = 2 ^ f_mant f * 2 ^ f_exp f) as Hs.
  { rewrite <- Z.pow_add_r by (unfold f_mant; lia). f_equal. unfold f_mant. lia. }
  assert (2 ^ f_width f = 2 * 2 ^ (f_width f - 1)) as Hww
    by (rewrite <- Z.pow_succ_r by lia; f_equal; lia).
  assert (∀ s, 0 ≤ sign_bit f s ≤ 2 ^ (f_width f - 1)) as Hsb
    by (intros []; unfold sign_bit; nia).
  assert (0 < 2 ^ (f_mant f - 1) ∧ 2 ^ (f_mant f - 1) < 2 ^ f_mant f ∨ f_mant f = 1) as Hq.
  { unfold f_mant in *. destruct (decide (f_prec f - 1 = 1)); [by right|left].
    split; [apply Z.pow_pos_nonneg; lia|apply Z.pow_lt_mono_r; lia]. }
  unfold uint. destruct x as [s|s| |s m e]; simpl; [specialize (Hsb s); nia|specialize (Hsb s); nia| |].
  - destruct Hq as [Hq|Hq]; [nia|]. rewrite Hq in *. simpl in *. nia.
  - destruct Hx as [Hmm Heb]. specialize (Hsb s). unfold f_emin in *.
    destruct (Z.ltb_spec (Zpos m) (2 ^ f_mant f)); [nia|].
    set (E := e - (3 - f_emax f - f_prec f) + 1). assert (1 ≤ E ≤ 2 ^ f_exp f - 2) by (unfold E; lia).
    assert (0 ≤ E * 2 ^ f_mant f ≤ (2 ^ f_exp f - 2) * 2 ^ f_mant f) by nia. nia.
Qed.

Lemma of_bits_ok f b : format_wf f → sf_ok f (of_bits f b).
Proof.
  intros ([Hp Hw] & Hemax & He2). unfold of_bits.
  set (e := (b / _) mod _). set (m := b mod _).
  assert (0 < 2 ^ f_mant f) as Hm by (apply Z.pow_pos_nonneg; unfold f_mant; lia).
  assert (0 ≤ m < 2 ^ f_mant f) as Hmb by (apply Z.mod_pos_bound; lia).
  assert (0 ≤ e < 2 ^ f_exp f) as Heb by (apply Z.mod_pos_bound, Z.pow_pos_nonneg; lia).
  assert (2 ^ f_exp f = 2 * 2 ^ (f_exp f - 1)) as Hee
    by (rewrite <- Z.pow_succ_r by lia; f_equal; lia).
  assert (2 ^ f_prec f = 2 * 2 ^ f_mant f) as Hpp
    by (rewrite <- Z.pow_succ_r by (unfold f_mant; lia); f_equal; unfold f_mant; lia).
  assert (2 ≤ 2 ^ (f_exp f - 1)) by (apply (Z.pow_le_mono_r 2 1); lia).
  unfold f_emin. clearbody e m.
  destruct (Z.eqb_spec e (2 ^ f_exp f - 1)); [by destruct (m =? 0)|].
  destruct (Z.eqb_spec e 0).
  - destruct m; simpl; try done. unfold f_emin. lia.
  - destruct (m + 2 ^ f_mant f) eqn:Hs; simpl; try done. unfold f_emin. lia.
Qed.

Lemma shr_1_m mrs : 0 < shr_m (shr_1 mrs) →
  0 < shr_m mrs ∧ shr_m (shr_1 mrs) = shr_m mrs / 2.
Proof.
  destruct mrs as [m r s]. rewrite <- Z.div2_div.
  destruct m as [|[p|p|]|[p|p|]]; simpl; intros; split; try lia; try done.
Qed.

Lemma iter_shr_m p mrs : 0 < shr_m (SpecFloat.iter_pos shr_1 p mrs) →
  0 < shr_m mrs ∧ shr_m (SpecFloat.iter_pos shr_1 p mrs) = shr_m mrs / 2 ^ Zpos p.
Proof.
  revert mrs. induction p as [p IH|p IH|]; intros mrs; simpl.
  - intros [H1 E1]%IH. destruct (IH _ H1) as [H2 E2]. destruct (shr_1_m _ H2) as [H3 E3].
    split; [done|]. rewrite E1, E2, E3, !Z.div_div by lia. f_equal.
    replace (Zpos p~1) with (1 + (Zpos p + Zpos p)) by lia.
    rewrite !Z.pow_add_r by lia. lia.
  - intros [H1 E1]%IH. destruct (IH _ H1) as [H2 E2]. split; [done|].
    rewrite E1, E2, Z.div_div by lia. f_equal.
    replace (Zpos p~0) with (Zpos p + Zpos p) by lia. by rewrite Z.pow_add_r by lia.
  - intros H. by apply shr_1_m.
Qed.

Lemma digits2_bound p : Zpos p < 2 ^ Zpos (digits2_pos p).
Proof.
  induction p as [p IH|p IH|]; simpl; [| |done]; rewrite Pos2Z.inj_succ, Z.pow_succ_r by lia; lia.
Qed.

(** Rounding gives a value of the format. *)
Lemma binary_round_aux_ok f s m e l :
  2 ≤ f_prec f → sf_ok f (binary_round_aux (f_prec f) (f_emax f) s m e l).
Proof.
  intros Hp. unfold binary_round_aux. destruct (shr_fexp _ _ m e l) as [mrs' e'].
  set (m1 := round_nearest_even _ _). unfold shr_fexp, shr. simpl shr_record_of_loc.
  set (k := fexp _ _ _ - e').
  assert (fexp (f_prec f) (f_emax f) (Zdigits2 m1 + e') = e' + k) as Hk by (unfold k; lia).
  unfold fexp, emin in Hk.
  assert (∀ q, 0 < q → q = m1 / 2 ^ Z.max 0 k → 0 < m1 → q < 2 ^ f_prec f) as Hq.
  { intros q Hq0 -> Hm1. destruct m1 as [|p|]; try lia. simpl in Hk.
    pose proof (digits2_bound p) as Hd. apply Z.div_lt_upper_bound; [apply Z.pow_pos_nonneg; lia|].
    rewrite <- Z.pow_add_r by lia. eapply Z.lt_le_trans; [exact Hd|]. apply Z.pow_le_mono_r; lia. }
  destruct k as [|p|p] eqn:Hkk.
  - simpl. destruct m1 as [|q|] eqn:Hm; [done| |done]. destruct (Z.leb_spec e' (f_emax f - f_prec f)); [|done].
    simpl. unfold f_emin. split; [|lia]. apply Hq; [lia|by rewrite Z.div_1_r|lia].
  - destruct (shr_m (SpecFloat.iter_pos shr_1 p _)) as [|q|] eqn:Hm; [done| |done].
    destruct (Z.leb_spec (e' + Zpos p) (f_emax f - f_prec f)); [|done]. simpl. unfold f_emin.
    destruct (iter_shr_m p {| shr_m := m1; shr_r := false; shr_s := false |}) as [H1 H2];
      [lia|]. simpl in H1, H2. split; [|lia]. apply Hq; [lia| |done].
    rewrite <- Hm, H2. f_equal.
  - simpl. destruct m1 as [|q|] eqn:Hm; [done| |done]. destruct (Z.leb_spec e' (f_emax f - f_prec f)); [|done].
    simpl. unfold f_emin. split; [|lia]. apply Hq; [lia|by rewrite Z.div_1_r|lia].
Qed.

Lemma binary_normalize_ok f m e s :
  2 ≤ f_prec f → sf_ok f (binary_normalize (f_prec f) (f_emax f) m e s).
Proof.
  intros Hp. unfold binary_normalize, binary_round.
  destruct m as [|p|p]; [done|..]; destruct (shl_align _ _ _) as [mz ez];
    by apply binary_round_aux_ok.
Qed.

(** Every operation returns a bit pattern of its format. *)
Lemma lift2_uint f g a b :
  format_wf f → (∀ x y, sf_ok f x → sf_ok f y → sf_ok f (g (f_prec f) (f_emax f) x y)) →
  uint (f_width f) (lift2 g f a b).
Proof. intros Hf Hg. apply to_bits_uint; [done|]. apply Hg; by apply of_bits_ok. Qed.

Lemma arith_uint f a b : format_wf f →
  uint (f_width f) (fadd f a b) ∧ uint (f_width f) (fsub f a b)
  ∧ uint (f_width f) (fmul f a b) ∧ uint (f_width f) (fdiv f a b).
Proof.
  intros Hf. pose proof Hf as ([Hp _] & _). split_and!; apply lift2_uint; try done;
    intros [[]|[]| |s m e] [[]|[]| |s' m' e']; simpl; try done; intros Hx Hy;
    try (by apply binary_normalize_ok); try (by apply binary_round_aux_ok).
  destruct (SFdiv_core_binary _ _ _ _ _ _) as [[mz ez] lz]. by apply binary_round_aux_ok.
Qed.

Lemma fneg_uint f a : format_wf f → uint (f_width f) a → uint (f_width f) (fneg f a).
Proof.
  intros ([Hp Hw] & _) Ha. unfold fneg, uint in *.
  set (w := f_width f) in *.
  assert (0 ≤ Z.lxor a (2 ^ (w - 1))) by (apply Z.lxor_nonneg; split; intros; lia).
  split; [done|]. destruct (decide (Z.lxor a (2 ^ (w - 1)) = 0)) as [->|Hne].
  { apply Z.pow_pos_nonneg; lia. }
  apply Z.log2_lt_pow2; [lia|].
  pose proof (Z.log2_lxor a (2 ^ (w - 1)) ltac:(lia) ltac:(lia)) as Hl.
  rewrite Z.log2_pow2 in Hl by lia.
  assert (Z.log2 a < w).
  { destruct (decide (a = 0)) as [->|]; [simpl; lia|]. apply Z.log2_lt_pow2; lia. }
  lia.
Qed.

Lemma fabs_uint f a : format_wf f → uint (f_width f) (fabs f a).
Proof.
  intros ([Hp Hw] & _). unfold fabs, uint. rewrite Z.sub_1_r, <- Z.ones_equiv, Z.land_ones by lia.
  pose proof (Z.mod_pos_bound a (2 ^ (f_width f - 1)) ltac:(apply Z.pow_pos_nonneg; lia)).
  assert (2 ^ (f_width f - 1) ≤ 2 ^ f_width f) by (apply Z.pow_le_mono_r; lia). lia.
Qed.

Lemma fcast_uint f g a : format_wf g → uint (f_width g) (fcast f g a).
Proof.
  intros Hg. pose proof Hg as ([Hp _] & _). unfold fcast.
  destruct (of_bits f a); apply to_bits_uint; try done. by apply binary_normalize_ok.
Qed.

Lemma fof_int_uint f x : format_wf f → uint (f_width f) (fof_int f x).
Proof.
  intros Hf. pose proof Hf as ([Hp _] & _). apply to_bits_uint; [done|].
  by apply binary_normalize_ok.
Qed.

(** ** Examples *)

Example fadd_1_2 : fadd binary32 0x3f800000 0x40000000 = 0x40400000.
Proof. vm_compute. reflexivity. Qed.
Example fdiv_1_3 : fdiv binary64 0x3ff0000000000000 0x4008000000000000 = 0x3fd5555555555555.
Proof. vm_compute. reflexivity. Qed.
Example fcast_pi : fcast binary64 binary32 0x400921fb54442d18 = 0x40490fdb.
Proof. vm_compute. reflexivity. Qed.
Example fto_int_300 : fto_sint binary64 8 (fof_int binary64 300) = 127.
Proof. vm_compute. reflexivity. Qed.
Example fcast_half : fcast binary16 binary32 0x3c00 = 0x3f800000.
Proof. vm_compute. reflexivity. Qed.

(** The order of [<] on floats *)
Lemma SFltb_irrefl x : SFltb x x = false.
Proof.
  destruct x as [s|s| |s m e]; try done; destruct s; cbv [SFltb SFcompare]; try done;
    by rewrite Z.compare_refl, Pos.compare_cont_refl.
Qed.

Lemma SFltb_finite s1 m1 e1 s2 m2 e2 :
  SFltb (S754_finite s1 m1 e1) (S754_finite s2 m2 e2) = true ↔
  match s1, s2 with
  | true, false => True
  | false, true => False
  | false, false => e1 < e2 ∨ e1 = e2 ∧ (m1 < m2)%positive
  | true, true => e2 < e1 ∨ e1 = e2 ∧ (m2 < m1)%positive
  end.
Proof.
  unfold SFltb, SFcompare. destruct s1, s2; try done.
  - destruct (Z.compare_spec e1 e2) as [->|H|H]; simpl.
    + change (Pos.compare_cont Eq m1 m2) with (Pos.compare m1 m2).
      destruct (Pos.compare_spec m1 m2) as [->|Hm|Hm]; simpl; (split; [intros; try done; auto|]); intros [?|[_ ?]]; try lia; done.
    + split; [done|]. lia.
    + split; [by left|done].
  - destruct (Z.compare_spec e1 e2) as [->|H|H]; simpl.
    + change (Pos.compare_cont Eq m1 m2) with (Pos.compare m1 m2).
      destruct (Pos.compare_spec m1 m2) as [->|Hm|Hm]; simpl; (split; [intros; try done; auto|]); intros [?|[_ ?]]; try lia; done.
    + split; [by left|done].
    + split; [done|]. lia.
Qed.

Lemma SFltb_trans x y z : SFltb x y = true → SFltb y z = true → SFltb x z = true.
Proof.
  destruct x as [sx|sx| |sx mx ex], y as [sy|sy| |sy my ey], z as [sz|sz| |sz mz ez]; try done;
  rewrite ?SFltb_finite; try (destruct sx, sy, sz; cbn; intros; try done; lia);
  try (destruct sx, sy; done); try (destruct sy, sz; done); destruct sx, sz; done.
Qed.
