(* ===== verification/Shape.v ===== *)
(** * Shapes (crates/rustorch-core/src/tensor/shape.rs)

    A shape is the list of its dimensions ([usize], a [Z] in [0, 2^64)).  The
    file also has the row-major numbering of the multi-indices of a shape,
    which the specifications of the tensor files share. *)

From Stdlib Require Import ZArith Lia.
From stdpp Require Import base list.
From S2P Require Import Prelude.

(** [struct Shape] *)
Notation Shape := (list Z) (only parsing).

(** [Shape::ndim], [::is_scalar], [::numel] *)
Definition Shape_ndim (s : Shape) : nat := length s.
Definition Shape_is_scalar (s : Shape) : bool := bool_decide (s = []).
Definition Shape_numel (s : Shape) : Z :=
  if Shape_is_scalar s then 1 else product_u 64 s.

(** [struct BroadcastError] *)
Record BroadcastError := mkBroadcastError {
  be_lhs : list Z;
  be_rhs : list Z;
  axis_from_right : nat
}.

(** [s.len().checked_sub(1 + i).map(|j| s[j]).unwrap_or(1)] *)
Definition dim_from_right (s : Shape) (i : nat) : Z :=
  if decide (1 + i ≤ length s)%nat then default 1 (s !! (length s - (1 + i))%nat) else 1.

(** [Shape::broadcast_with] *)
Definition broadcast_with (lhs rhs : Shape) : res BroadcastError Shape :=
  let n := Nat.max (length lhs) (length rhs) in
  let? out := rfold (λ out i,
      let l := dim_from_right lhs i in
      let r := dim_from_right rhs i in
      if l =? r then Ok (out ++ [l])
      else if l =? 1 then Ok (out ++ [r])
      else if r =? 1 then Ok (out ++ [l])
      else Err (mkBroadcastError lhs rhs i)) [] (seq 0 n) in
  Ok (reverse out).

(** The source strides of [expand_strides_to]: from the last axis,
    [elem_strides[i] = acc; acc *= lhs[i] as isize]. *)
Definition elem_strides (lhs : Shape) : list Z :=
  (foldr (λ d '(acc, out), (swrap 64 (acc * swrap 64 d), acc :: out)) (1, []) lhs).2.

(** [Shape::expand_strides_to] *)
Definition expand_strides_to (lhs target : Shape) : res BroadcastError (list Z) :=
  if (length target <? length lhs)%nat then
    Err (mkBroadcastError lhs target (length target))
  else
    let offset := (length target - length lhs)%nat in
    rfold (λ out '(i, (src, dst, stride)),
        if src =? dst then Ok (out ++ [stride])
        else if src =? 1 then Ok (out ++ [0])
        else Err (mkBroadcastError lhs target (length lhs - 1 - i)))
      (replicate offset 0)
      (imap pair (zip (zip lhs (drop offset target)) (elem_strides lhs))).

(** The decoding loop of [strided_index] (tensor_impl.rs), [ShapeIter::next]
    (convert.rs) and [linear_to_offset] (rustorch-cpu, iterator.rs): from the
    last axis, [coord = idx % dim; idx /= dim; storage += coord * strides[axis]],
    in [isize]. *)
Definition strided_index {E} (linear : Z) (shape : Shape) (strides : list Z) (offset : Z)
    : res E Z :=
  let? st := rfold (λ '(idx, storage) '(axis, dim),
      if dim =? 0 then Panic
      else
        let coord := idx mod dim in
        let? s := unwrap_opt (strides !! axis) in
        Ok (idx / dim, swrap 64 (storage + swrap 64 (swrap 64 coord * s))))
    (linear, swrap 64 offset) (reverse (imap pair shape)) in
  Ok (wrap 64 st.2).

(** ** Row-major numbering *)

(** [idx] is a multi-index of [shape]. *)
Definition in_range (shape : Shape) (idx : list Z) : Prop :=
  Forall2 (λ d i, 0 ≤ i < d) shape idx.

#[export] Instance in_range_dec shape idx : Decision (in_range shape idx).
Proof. unfold in_range. apply _. Defined.

(** The row-major number of a multi-index, and its inverse. *)
Fixpoint ravel (shape : Shape) (idx : list Z) : Z :=
  match shape, idx with
  | _ :: ds, i :: js => i * zprod ds + ravel ds js
  | _, _ => 0
  end.

Fixpoint unravel (shape : Shape) (n : Z) : list Z :=
  match shape with
  | [] => []
  | _ :: ds => n / zprod ds :: unravel ds (n mod zprod ds)
  end.

(** [Σ idx_i * strides_i] *)
Definition dot (idx strides : list Z) : Z := zsum (zip_with Z.mul idx strides).

(** Dimensions are [usize] values. *)
Definition shape_wf (s : Shape) : Prop := Forall (uint 64) s.

(** Every product of dimensions fits in an [isize]. *)
Definition shape_fits (s : Shape) : Prop := shape_wf s ∧ zprod (Z.max 1 <$> s) < 2 ^ 63.

(** ** Lemmas *)

Lemma dot_cons i js s ss : dot (i :: js) (s :: ss) = i * s + dot js ss.
Proof. done. Qed.

Lemma dot_nil_l ss : dot [] ss = 0.
Proof. done. Qed.

Lemma dot_nil_r js : dot js [] = 0.
Proof. by destruct js. Qed.

Lemma dot_app is1 is2 ss1 ss2 :
  length is1 = length ss1 → dot (is1 ++ is2) (ss1 ++ ss2) = dot is1 ss1 + dot is2 ss2.
Proof.
  revert ss1. induction is1 as [|i is1 IH]; intros [|s ss1]; simpl; try done.
  intros [= Hl]. rewrite !dot_cons, IH by done. lia.
Qed.

Lemma in_range_nonneg shape idx : in_range shape idx → 0 ≤ zprod shape.
Proof.
  induction 1 as [|d i ds js Hi _ IH]; [done|]. rewrite zprod_cons. nia.
Qed.

Lemma ravel_bound shape idx : in_range shape idx → 0 ≤ ravel shape idx < zprod shape.
Proof.
  induction 1 as [|d i ds js Hi Hr IH]; simpl; [done|].
  rewrite zprod_cons. apply in_range_nonneg in Hr. nia.
Qed.

Lemma zprod_pos l : 0 < zprod l → Forall (λ x, 0 ≤ x) l → Forall (λ x, 0 < x) l.
Proof.
  induction 2 as [|x l Hx Hl IH]; [done|]. rewrite zprod_cons in *.
  pose proof (zprod_nonneg l Hl). constructor; [nia|]. apply IH. nia.
Qed.

Lemma zprod_pos_inv l : Forall (λ x, 0 < x) l → 0 < zprod l.
Proof. induction 1 as [|x l Hx _ IH]; [done|]. rewrite zprod_cons. nia. Qed.

Lemma unravel_range shape n :
  Forall (λ d, 0 < d) shape → 0 ≤ n < zprod shape → in_range shape (unravel shape n).
Proof.
  intros Hs. revert n. induction Hs as [|d ds Hd Hs IH]; intros n Hn; simpl; [constructor|].
  rewrite zprod_cons in Hn. pose proof (zprod_pos_inv ds Hs). constructor.
  - split; [apply Z.div_pos; lia|]. apply Z.div_lt_upper_bound; nia.
  - apply IH. apply Z.mod_pos_bound. lia.
Qed.

Lemma ravel_unravel shape n :
  Forall (λ d, 0 < d) shape → 0 ≤ n < zprod shape → ravel shape (unravel shape n) = n.
Proof.
  intros Hs. revert n. induction Hs as [|d ds Hd Hs IH]; intros n Hn; simpl.
  { unfold zprod in Hn; simpl in Hn. lia. }
  pose proof (zprod_pos_inv ds Hs). rewrite IH by (apply Z.mod_pos_bound; lia).
  rewrite (Z.div_mod n (zprod ds)) at 3 by lia. lia.
Qed.

Lemma unravel_ravel shape idx : in_range shape idx → unravel shape (ravel shape idx) = idx.
Proof.
  induction 1 as [|d i ds js Hi Hr IH]; simpl; [done|].
  pose proof (ravel_bound ds js Hr). f_equal.
  - rewrite Z.add_comm, Z.div_add, Z.div_small; lia.
  - rewrite Z.add_comm, Z_mod_plus_full, Z.mod_small by lia. exact IH.
Qed.

Lemma ravel_inj shape idx idx' :
  in_range shape idx → in_range shape idx' → ravel shape idx = ravel shape idx' → idx = idx'.
Proof.
  intros H H' Heq. by rewrite <- (unravel_ravel shape idx), Heq, unravel_ravel.
Qed.

Lemma in_range_length shape idx : in_range shape idx → length idx = length shape.
Proof. intros H. symmetry. by eapply Forall2_length. Qed.

Lemma in_range_shape_pos shape idx : in_range shape idx → Forall (λ d, 0 < d) shape.
Proof. induction 1; constructor; [lia|done]. Qed.

Lemma length_unravel shape n : length (unravel shape n) = length shape.
Proof. revert n. induction shape; intros; simpl; auto. Qed.

(** *** The decoding loop *)

Lemma unravel_cons_mod d ds n :
  0 < d → 0 < zprod ds →
  unravel (d :: ds) (n mod zprod (d :: ds)) =
  (n / zprod ds) mod d :: unravel ds (n mod zprod ds).
Proof.
  intros Hd Hp. simpl. rewrite zprod_cons, (Z.mul_comm d), Z.rem_mul_r by lia. f_equal.
  - rewrite Z.add_comm, Z.mul_comm, Z.div_add_l by lia.
    rewrite (Z.div_small (n mod zprod ds)) by (apply Z.mod_pos_bound; lia). lia.
  - f_equal. rewrite Z.add_comm, Z.mul_comm, Z.add_comm, Z_mod_plus_full.
    by rewrite Z.mod_mod by lia.
Qed.

(** The loop computes the address of the multi-index, modulo [2^64]. *)
Lemma strided_index_dot {E} linear shape strides offset :
  Forall (λ d, 0 < d) shape → length strides = length shape →
  0 ≤ linear < zprod shape →
  @strided_index E linear shape strides offset =
  Ok (wrap 64 (offset + dot (unravel shape linear) strides)).
Proof.
  intros Hpos Hlen Hlin. unfold strided_index.
  set (step := λ '((idx, storage) : Z * Z) '((axis, dim) : nat * Z), _).
  assert (∀ suf k, Forall (λ d, 0 < d) suf → length (drop k strides) = length suf →
    rfold step (linear, swrap 64 offset) (reverse (imap (λ i d, (k + i, d)%nat) suf))
    = Ok (linear / zprod suf,
          swrap 64 (offset + dot (unravel suf (linear mod zprod suf)) (drop k strides)))) as H.
  { induction suf as [|d ds IH]; intros k Hsuf Hk.
    - simpl. rewrite zprod_nil, Z.div_1_r, dot_nil_l. do 3 f_equal. lia.
    - apply Forall_cons in Hsuf as [Hd Hds]. pose proof (zprod_pos_inv ds Hds) as Hp.
      destruct (drop k strides) as [|s ss] eqn:Hdrop; [done|]. injection Hk as Hk.
      assert (strides !! k = Some s ∧ drop (S k) strides = ss) as [Hs Hss].
      { split.
        - by rewrite <- (Nat.add_0_r k), <- lookup_drop, Hdrop.
        - by rewrite <- Nat.add_1_r, <- drop_drop, Hdrop. }
      rewrite imap_cons, reverse_cons, rfold_app, Nat.add_0_r.
      rewrite (imap_ext _ (λ i d, (S k + i, d)%nat)) by (intros; simpl; f_equal; lia).
      rewrite IH by (by rewrite ?Hss). rewrite Hss. cbn [rbind rfold step].
      rewrite (proj2 (Z.eqb_neq d 0)) by lia. rewrite Hs. simpl rbind.
      rewrite unravel_cons_mod, dot_cons by done. do 2 f_equal.
      + rewrite Z.div_div, zprod_cons by lia. f_equal. lia.
      + rewrite swrap_mul_l, swrap_add_r, swrap_add_l by lia. f_equal. lia. }
  specialize (H shape 0%nat Hpos Hlen). rewrite drop_0 in H.
  rewrite (imap_ext _ pair) in H by done. rewrite H. simpl rbind. f_equal.
  simpl. rewrite wrap_swrap, Z.mod_small by lia. done.
Qed.

(** *** Broadcasting *)

(** The dimension two dimensions broadcast to. *)
Definition bdim (l r : Z) : option Z :=
  if l =? r then Some l else if l =? 1 then Some r else if r =? 1 then Some l else None.

(** [s] expands to [t]: aligned on the right, every dimension is equal or 1. *)
Definition expandable (s t : Shape) : Prop :=
  (length s ≤ length t)%nat
  ∧ ∀ i, (i < length s)%nat → dim_from_right s i = dim_from_right t i ∨ dim_from_right s i = 1.

Lemma dim_from_right_reverse s i : dim_from_right s i = default 1 (reverse s !! i).
Proof.
  unfold dim_from_right. case_decide as Hi.
  - rewrite reverse_lookup by lia. by replace (length s - S i)%nat with (length s - (1 + i))%nat by lia.
  - by rewrite lookup_ge_None_2 by (rewrite length_reverse; lia).
Qed.

Lemma dim_from_right_ge s i : (length s ≤ i)%nat → dim_from_right s i = 1.
Proof. intros. unfold dim_from_right. rewrite decide_False by lia. done. Qed.

Definition broadcast_dim (lhs rhs : Shape) (i : nat) : res BroadcastError Z :=
  ok_or (mkBroadcastError lhs rhs i) (bdim (dim_from_right lhs i) (dim_from_right rhs i)).

Lemma broadcast_with_rmapM lhs rhs :
  broadcast_with lhs rhs =
  let? out := rmapM (broadcast_dim lhs rhs) (seq 0 (Nat.max (length lhs) (length rhs))) in
  Ok (reverse out).
Proof.
  unfold broadcast_with. rewrite (rfold_snoc (broadcast_dim lhs rhs)).
  - simpl. by destruct (rmapM _ _).
  - intros out i. unfold broadcast_dim, bdim. repeat case_match; done.
Qed.

Lemma broadcast_with_Ok lhs rhs out :
  broadcast_with lhs rhs = Ok out ↔
  length out = Nat.max (length lhs) (length rhs)
  ∧ ∀ i, (i < length out)%nat →
      bdim (dim_from_right lhs i) (dim_from_right rhs i) = Some (dim_from_right out i).
Proof.
  rewrite broadcast_with_rmapM, rbind_Ok.
  set (n := Nat.max (length lhs) (length rhs)). split.
  - intros (ys & Hys%rmapM_Ok & [= <-]).
    pose proof (Forall2_length _ _ _ Hys) as Hlen. rewrite length_seq in Hlen.
    rewrite length_reverse. split; [done|]. intros i Hi.
    destruct (lookup_lt_is_Some_2 ys i Hi) as [y Hy].
    pose proof (Forall2_lookup_lr _ _ _ _ i y Hys ltac:(apply lookup_seq; split; [done|lia]) Hy) as Hd.
    rewrite (dim_from_right_reverse (reverse ys)), reverse_involutive, Hy. simpl in *.
    unfold broadcast_dim in Hd. destruct (bdim _ _); simpl in Hd; congruence.
  - intros [Hlen Hdim]. exists (reverse out). split; [|by rewrite reverse_involutive].
    apply rmapM_Ok. apply Forall2_same_length_lookup_2.
    { by rewrite length_seq, length_reverse. }
    intros i x y [-> Hi]%lookup_seq Hy. simpl.
    unfold broadcast_dim. rewrite Hdim by lia. simpl. f_equal.
    by rewrite dim_from_right_reverse, Hy.
Qed.

Lemma bdim_expand l r d : bdim l r = Some d → (l = d ∨ l = 1) ∧ (r = d ∨ r = 1).
Proof. unfold bdim. repeat case_match; intros; simplify_eq; split; lia. Qed.

Lemma bdim_lub l r t :
  (l = t ∨ l = 1) → (r = t ∨ r = 1) → ∃ d, bdim l r = Some d ∧ (d = t ∨ d = 1).
Proof.
  unfold bdim. intros Hl Hr.
  destruct (Z.eqb_spec l r); [exists l; split; [done|lia]|].
  destruct (Z.eqb_spec l 1); [exists r; split; [done|lia]|].
  destruct (Z.eqb_spec r 1); [exists l; split; [done|lia]|lia].
Qed.

Lemma bdim_comm l r : bdim l r = bdim r l.
Proof.
  unfold bdim. destruct (Z.eqb_spec l r) as [->|?]; [by rewrite Z.eqb_refl|].
  destruct (Z.eqb_spec r l); [lia|].
  destruct (Z.eqb_spec l 1), (Z.eqb_spec r 1); (done || lia).
Qed.

(** *** Strides of an expansion *)

Fixpoint suffix_prods (s : Shape) : list Z :=
  match s with [] => [] | _ :: ds => zprod ds :: suffix_prods ds end.

Lemma dot_suffix_prods s idx : length idx = length s → dot idx (suffix_prods s) = ravel s idx.
Proof.
  revert idx. induction s as [|d s IH]; intros [|i idx]; simpl; try done.
  intros [= Hl]. by rewrite dot_cons, IH.
Qed.

Lemma length_suffix_prods s : length (suffix_prods s) = length s.
Proof. induction s; simpl; auto. Qed.

Lemma zprod_le_max1 s : Forall (λ d, 0 ≤ d) s → 0 ≤ zprod s ≤ zprod (Z.max 1 <$> s).
Proof.
  induction 1 as [|d s Hd _ [IH1 IH2]]; [done|]. rewrite fmap_cons, !zprod_cons. simpl in Hd.
  split; [by apply Z.mul_nonneg_nonneg|]. apply Z.mul_le_mono_nonneg; lia.
Qed.

Lemma zprod_max1_pos s : 1 ≤ zprod (Z.max 1 <$> s).
Proof.
  induction s as [|d s IH]; [done|]. rewrite fmap_cons, zprod_cons.
  change 1 with (1 * 1) at 1. apply Z.mul_le_mono_nonneg; lia.
Qed.

Lemma shape_fits_cons d s : shape_fits (d :: s) → uint 64 d ∧ d < 2 ^ 63 ∧ shape_fits s.
Proof.
  intros [[Hd Hs]%Forall_cons Hp]. rewrite fmap_cons, zprod_cons in Hp.
  pose proof (zprod_max1_pos s) as H1.
  assert (Z.max 1 d * 1 ≤ Z.max 1 d * zprod (Z.max 1 <$> s))
    by (apply Z.mul_le_mono_nonneg; lia).
  assert (1 * zprod (Z.max 1 <$> s) ≤ Z.max 1 d * zprod (Z.max 1 <$> s))
    by (apply Z.mul_le_mono_nonneg; lia).
  pose proof (Z.le_max_r 1 d). set (m := Z.max 1 d) in *. clearbody m.
  split; [done|]. split; [lia|]. split; [done|lia].
Qed.

Lemma shape_wf_nonneg s : shape_wf s → Forall (λ d, 0 ≤ d) s.
Proof. intros H. eapply Forall_impl; [exact H|]. by intros d [? _]. Qed.

Lemma shape_fits_prod s : shape_fits s → 0 ≤ zprod s < 2 ^ 63.
Proof.
  intros [Hwf Hp]. pose proof (zprod_le_max1 s (shape_wf_nonneg s Hwf)). lia.
Qed.

Lemma sint_of_bounds x : 0 ≤ x < 2 ^ 63 → sint 64 x.
Proof. unfold sint. lia. Qed.

Lemma elem_strides_prods s : shape_fits s → elem_strides s = suffix_prods s.
Proof.
  intros Hs. unfold elem_strides.
  cut (foldr (λ d '(acc, out), (swrap 64 (acc * swrap 64 d), acc :: out)) (1, []) s
       = (zprod s, suffix_prods s)); [by intros ->|].
  induction s as [|d s IH]; [done|]. pose proof (shape_fits_prod _ Hs).
  apply shape_fits_cons in Hs as (Hd & ? & Hs). simpl. rewrite IH by done. f_equal.
  rewrite swrap_mul_r, (Z.mul_comm (zprod s)), <- zprod_cons by lia.
  apply swrap_small; [lia|]. by apply sint_of_bounds.
Qed.

(** One axis of the expansion. *)
Definition expand_axis (lhs target : Shape) (x : nat * (Z * Z * Z)) : res BroadcastError Z :=
  let '(i, (src, dst, stride)) := x in
  if src =? dst then Ok stride
  else if src =? 1 then Ok 0
  else Err (mkBroadcastError lhs target (length lhs - 1 - i)).

Lemma expand_strides_to_rmapM lhs target :
  expand_strides_to lhs target =
  if (length target <? length lhs)%nat then Err (mkBroadcastError lhs target (length target))
  else
    let offset := (length target - length lhs)%nat in
    let? ys := rmapM (expand_axis lhs target)
                 (imap pair (zip (zip lhs (drop offset target)) (elem_strides lhs))) in
    Ok (replicate offset 0 ++ ys).
Proof.
  unfold expand_strides_to. case_match; [done|]. simpl.
  rewrite (rfold_snoc (expand_axis lhs target)); [done|].
  intros out [i [[src dst] stride]]. simpl. repeat case_match; done.
Qed.

(** The axes of [lhs] against the last axes of [target]. *)
Lemma expandable_tail s t :
  expandable s t ↔ (length s ≤ length t)%nat
    ∧ Forall2 (λ d e, d = e ∨ d = 1) s (drop (length t - length s) t).
Proof.
  unfold expandable. split; intros [Hl H]; (split; [done|]).
  - apply Forall2_same_length_lookup_2; [rewrite length_drop; lia|].
    intros i d e Hd He. rewrite lookup_drop in He.
    pose proof (lookup_lt_Some _ _ _ Hd).
    specialize (H (length s - 1 - i)%nat ltac:(lia)). unfold dim_from_right in H.
    rewrite !decide_True in H by lia.
    replace (length s - (1 + (length s - 1 - i)))%nat with i in H by lia.
    replace (length t - (1 + (length s - 1 - i)))%nat
      with (length t - length s + i)%nat in H by lia.
    by rewrite Hd, He in H.
  - intros i Hi. rewrite Forall2_lookup in H. specialize (H (length s - 1 - i)%nat).
    rewrite lookup_drop in H. unfold dim_from_right. rewrite !decide_True by lia.
    replace (length t - length s + (length s - 1 - i))%nat
      with (length t - (1 + i))%nat in H by lia.
    replace (length s - 1 - i)%nat with (length s - (1 + i))%nat in H by lia.
    destruct H; simpl; auto.
Qed.

(** The multi-index of the source element that an expanded multi-index reads. *)
Definition source_index (s : Shape) (idx : list Z) : list Z :=
  zip_with (λ d i, if d =? 1 then 0 else i) s (drop (length idx - length s) idx).

Lemma expand_axes_spec lhs target ss ts st k :
  Forall2 (λ d e, d = e ∨ d = 1) ss ts → length st = length ss →
  ∃ ys, rmapM (expand_axis lhs target) (imap (λ i x, (k + i, x)%nat) (zip (zip ss ts) st)) = Ok ys
    ∧ length ys = length ss
    ∧ ∀ idx, in_range ts idx →
        dot idx ys = dot (zip_with (λ d i, if d =? 1 then 0 else i) ss idx) st.
Proof.
  intros Hst. revert st k. induction Hst as [|d e ss ts Hde _ IH]; intros [|x st] k; simpl; try done.
  { intros _. exists []. split_and!; [done..|]. intros [|] ?; [done|]. by inversion H. }
  intros [= Hlen]. rewrite Nat.add_0_r.
  destruct (IH st (S k) Hlen) as (ys & Hys & Hl & Hdot).
  rewrite (imap_ext _ (λ i x, (S k + i, x)%nat)) by (intros; simpl; f_equal; lia).
  rewrite Hys. simpl.
  destruct (Z.eqb_spec d e) as [->|Hne]; simpl.
  - exists (x :: ys). split_and!; [done|simpl; lia|]. intros [|i idx] Hr; [by inversion Hr|].
    inversion_clear Hr. simpl. rewrite !dot_cons, Hdot by done.
    destruct (Z.eqb_spec e 1); [|lia]. assert (i = 0) by lia. lia.
  - assert (d = 1) as -> by tauto. simpl. exists (0 :: ys).
    split_and!; [done|simpl; lia|]. intros [|i idx] Hr; [by inversion Hr|].
    inversion_clear Hr. simpl. rewrite !dot_cons, Hdot by done. lia.
Qed.

Lemma in_range_drop s idx k : in_range s idx → in_range (drop k s) (drop k idx).
Proof. apply Forall2_drop. Qed.

Lemma source_index_range s t idx :
  expandable s t → in_range t idx → in_range s (source_index s idx).
Proof.
  intros [Hl Ht]%expandable_tail Hr. unfold source_index.
  rewrite (in_range_length _ _ Hr).
  apply (in_range_drop _ _ (length t - length s)) in Hr.
  set (ts := drop _ t) in *. set (is' := drop _ idx) in *. clearbody ts is'.
  revert is' Hr. induction Ht as [|d e ss ts Hde _ IH]; intros is' Hr.
  { inversion_clear Hr. constructor. }
  inversion_clear Hr. simpl. constructor; [|by apply IH; simpl in *; lia || done].
  destruct (Z.eqb_spec d 1); lia.
Qed.

Lemma source_index_same s idx : in_range s idx → source_index s idx = idx.
Proof.
  intros Hr. unfold source_index. rewrite (in_range_length _ _ Hr), Nat.sub_diag, drop_0.
  induction Hr as [|d i s idx Hi _ IH]; simpl; [done|]. rewrite IH. f_equal.
  destruct (Z.eqb_spec d 1); lia.
Qed.

Lemma dot_replicate_0 n idx ys :
  (n ≤ length idx)%nat → dot idx (replicate n 0 ++ ys) = dot (drop n idx) ys.
Proof.
  revert idx. induction n as [|n IH]; intros idx Hl; simpl; [by rewrite drop_0|].
  destruct idx as [|i idx]; simpl in *; [lia|]. rewrite dot_cons, IH by lia. lia.
Qed.

(** Beyond its rank a shape has dimension 1, so any axis may be tested. *)
Lemma expandable_dim s t i :
  expandable s t → dim_from_right s i = dim_from_right t i ∨ dim_from_right s i = 1.
Proof.
  intros [_ H]. destruct (decide (i < length s)%nat); [by apply H|].
  right. apply dim_from_right_ge. lia.
Qed.

Lemma expandable_bdim l r t i :
  expandable l t → expandable r t →
  ∃ d, bdim (dim_from_right l i) (dim_from_right r i) = Some d
    ∧ (d = dim_from_right t i ∨ d = 1).
Proof. intros Hl Hr. by apply bdim_lub; apply expandable_dim. Qed.

Lemma expand_strides_to_spec s t :
  shape_fits s →
  match expand_strides_to s t with
  | Ok strides => expandable s t ∧ length strides = length t
      ∧ ∀ idx, in_range t idx → in_range s (source_index s idx)
                               ∧ dot idx strides = ravel s (source_index s idx)
  | Err _ => ¬ expandable s t
  | Panic => False
  end.
Proof.
  intros Hs. rewrite expand_strides_to_rmapM, (elem_strides_prods s Hs).
  destruct (Nat.ltb_spec (length t) (length s)) as [Hlt|Hle].
  { intros [? _]. lia. }
  simpl. rewrite (imap_ext _ (λ i x, (0 + i, x)%nat)) by done.
  destruct (decide (Forall2 (λ d e, d = e ∨ d = 1) s (drop (length t - length s) t))) as [Hall|Hno].
  - assert (expandable s t) as Hexp by (by apply expandable_tail).
    destruct (expand_axes_spec s t s _ (suffix_prods s) 0 Hall (length_suffix_prods s))
      as (ys & -> & Hl & Hdot). simpl. split; [done|]. split.
    { rewrite length_app, length_replicate. lia. }
    intros idx Hr. pose proof (source_index_range _ _ _ Hexp Hr) as Hsr.
    split; [done|]. pose proof (in_range_length _ _ Hr) as Hli.
    rewrite dot_replicate_0 by lia.
    rewrite Hdot by (by apply in_range_drop). unfold source_index in *. rewrite Hli in *.
    apply dot_suffix_prods. by apply in_range_length.
  - destruct (rmapM _ _) as [ys|e|] eqn:Hm; simpl.
    + exfalso. apply Hno. apply rmapM_Ok in Hm.
      apply Forall2_same_length_lookup_2; [rewrite length_drop; lia|].
      intros i d e Hd He. rewrite Forall2_lookup in Hm. specialize (Hm i).
      rewrite list_lookup_imap in Hm.
      pose proof (lookup_lt_Some _ _ _ Hd) as Hi.
      destruct (lookup_lt_is_Some_2 (suffix_prods s) i) as [x Hx];
        [by rewrite length_suffix_prods|].
      assert (zip (zip s (drop (length t - length s) t)) (suffix_prods s) !! i
        = Some (d, e, x)) as Hz.
      { rewrite !lookup_zip_with, Hd, He. simpl. by rewrite Hx. }
      rewrite Hz in Hm. simpl in Hm.
      inversion Hm as [? y Hy|]; subst. simpl in Hy.
      destruct (Z.eqb_spec d e); [by left|]. destruct (Z.eqb_spec d 1); [by right|done].
    + by intros [_ ?]%expandable_tail.
    + eapply rmapM_Panic; [|exact Hm]. intros [i [[src dst] st]] _. simpl. by repeat case_match.
Qed.

Lemma broadcast_with_spec lhs rhs :
  match broadcast_with lhs rhs with
  | Ok out => expandable lhs out ∧ expandable rhs out
      ∧ (∀ t, expandable lhs t → expandable rhs t → expandable out t)
      ∧ broadcast_with rhs lhs = Ok out
  | Err e => be_lhs e = lhs ∧ be_rhs e = rhs
      ∧ (∀ t, ¬ (expandable lhs t ∧ expandable rhs t))
      ∧ let i := axis_from_right e in
        bdim (dim_from_right lhs i) (dim_from_right rhs i) = None
        ∧ ∀ j, (j < i)%nat → is_Some (bdim (dim_from_right lhs j) (dim_from_right rhs j))
  | Panic => False
  end.
Proof.
  destruct (broadcast_with lhs rhs) as [out|e|] eqn:Hb.
  - pose proof Hb as [Hlen Hdim]%broadcast_with_Ok. split_and!.
    + split; [lia|]. intros i Hi. by destruct (bdim_expand _ _ _ (Hdim i ltac:(lia))) as [? _].
    + split; [lia|]. intros i Hi. by destruct (bdim_expand _ _ _ (Hdim i ltac:(lia))) as [_ ?].
    + intros t Hl Hr. split; [destruct Hl, Hr; lia|]. intros i Hi.
      destruct (expandable_bdim lhs rhs t i Hl Hr) as (d & Hd & ?).
      rewrite Hdim in Hd by lia. congruence.
    + apply broadcast_with_Ok. rewrite Hlen, Nat.max_comm. split; [done|]. intros i Hi.
      rewrite bdim_comm. apply Hdim. lia.
  - rewrite broadcast_with_rmapM in Hb.
    destruct (rmapM _ _) as [|e'|] eqn:Hm; simpl in Hb; [done| |done]. injection Hb as ->.
    apply rmapM_Err in Hm as (pre & i & post & Hseq & Hi & Hpre).
    assert (i = length pre ∧ (i < Nat.max (length lhs) (length rhs))%nat) as [Hpl Hin].
    { assert (seq 0 (Nat.max (length lhs) (length rhs)) !! length pre = Some i) as Hs.
      { rewrite Hseq. by rewrite list_lookup_middle. }
      apply lookup_seq in Hs. lia. }
    unfold broadcast_dim in Hi. destruct (bdim _ _) eqn:Hbd; simpl in Hi; [done|].
    injection Hi as <-. split; [done|]. split; [done|]. split.
    + intros t [Hl Hr]. destruct (expandable_bdim lhs rhs t i Hl Hr) as (d & Hd & _).
      congruence.
    + split; [done|]. simpl. intros j Hj.
      assert (j ∈ pre) as Hjp.
      { apply list_elem_of_lookup. exists j.
        rewrite <- (lookup_app_l pre (i :: post)) by lia. rewrite <- Hseq.
        apply lookup_seq. lia. }
      rewrite Forall_forall in Hpre. specialize (Hpre _ Hjp).
      unfold broadcast_dim in Hpre. destruct (bdim (dim_from_right lhs j) _); [by eexists|done].
  - rewrite broadcast_with_rmapM in Hb. destruct (rmapM _ _) eqn:Hm; simpl in Hb; try done.
    eapply rmapM_Panic; [|exact Hm]. intros i _. unfold broadcast_dim. by destruct (bdim _ _).
Qed.

Lemma expandable_refl s : expandable s s.
Proof. split; [done|]. intros i _. by left. Qed.

Lemma expandable_antisym s t : expandable s t → expandable t s → s = t.
Proof.
  intros [Hl Hst]%expandable_tail [Hl' Hts]%expandable_tail.
  rewrite (proj2 (Nat.sub_0_le _ _)), drop_0 in Hst by lia.
  rewrite (proj2 (Nat.sub_0_le _ _)), drop_0 in Hts by lia. clear Hl Hl'.
  induction Hst as [|d e s t Hde _ IH]; [done|].
  inversion Hts as [|? ? ? ? Hed Hts']; subst. f_equal; [lia|auto].
Qed.

(** ** Properties *)

(** [broadcast_with] returns the least common expansion: when two shapes
    have a common expansion it succeeds, both operands expand to the result,
    and the result expands to every common expansion; when they have none it
    returns the error of the first incompatible axis from the right.  The
    success and the result do not depend on the order of the operands. *)
Theorem broadcast_with_lub lhs rhs :
  match broadcast_with lhs rhs with
  | Ok out => expandable lhs out ∧ expandable rhs out
      ∧ (∀ t, expandable lhs t → expandable rhs t → expandable out t)
      ∧ broadcast_with rhs lhs = Ok out
  | Err e => be_lhs e = lhs ∧ be_rhs e = rhs
      ∧ (∀ t, ¬ (expandable lhs t ∧ expandable rhs t))
      ∧ let i := axis_from_right e in
        bdim (dim_from_right lhs i) (dim_from_right rhs i) = None
        ∧ ∀ j, (j < i)%nat → is_Some (bdim (dim_from_right lhs j) (dim_from_right rhs j))
  | Panic => False
  end.
Proof. apply broadcast_with_spec. Qed.

(** [expand_strides_to] succeeds exactly when the source expands to the
    target, and its strides then send every multi-index of the target to the
    row-major number, in the source, of the element that broadcasting reads
    (coordinate 0 on the source's axes of size 1). *)
Theorem expand_strides_to_address s t :
  shape_fits s →
  match expand_strides_to s t with
  | Ok strides => expandable s t ∧ length strides = length t
      ∧ ∀ idx, in_range t idx → in_range s (source_index s idx)
                               ∧ dot idx strides = ravel s (source_index s idx)
  | Err _ => ¬ expandable s t
  | Panic => False
  end.
Proof. apply expand_strides_to_spec. Qed.

(** for a linear index below the number of elements, the decoding loop of
    the strided accesses neither panics nor depends on the order of the axes:
    it returns [offset] plus the dot product of the strides with the row-major
    multi-index, in wrapping [usize] arithmetic; when the strides are the
    contiguous ones it returns [offset + linear]. *)
Theorem strided_index_row_major {E} linear shape strides offset :
  Forall (λ d, 0 < d) shape → length strides = length shape →
  0 ≤ linear < zprod shape →
  in_range shape (unravel shape linear) ∧ ravel shape (unravel shape linear) = linear
  ∧ @strided_index E linear shape strides offset
    = Ok (wrap 64 (offset + dot (unravel shape linear) strides))
  ∧ (strides = suffix_prods shape →
     @strided_index E linear shape strides offset = Ok (wrap 64 (offset + linear))).
Proof.
  intros Hpos Hlen Hlin. split_and!.
  - by apply unravel_range.
  - by apply ravel_unravel.
  - by apply strided_index_dot.
  - intros ->. rewrite strided_index_dot by done. rewrite dot_suffix_prods, ravel_unravel by
      (done || by rewrite length_unravel). done.
Qed.

(** *** Witnesses *)

Lemma expand_strides_to_address_witness :
  expand_strides_to [3; 1] [2; 3; 4] = Ok [0; 1; 0] ∧ dot [1; 2; 3] [0; 1; 0] = ravel [3; 1] [2; 0].
Proof.
  assert (shape_fits [3; 1]) as Hf by (split; [|vm_compute; reflexivity];
    repeat constructor; vm_compute; congruence).
  pose proof (expand_strides_to_address [3; 1] [2; 3; 4] Hf) as H.
  assert (expand_strides_to [3; 1] [2; 3; 4] = Ok [0; 1; 0]) as Heq by (vm_compute; reflexivity).
  rewrite Heq in H. destruct H as (_ & _ & H). split; [exact Heq|].
  destruct (H [1; 2; 3]) as [_ Hd]; [|exact Hd].
  apply (bool_decide_unpack _). vm_compute. exact I.
Defined.

Lemma strided_index_row_major_witness :
  @strided_index False 3 [2; 3] [1; 2] 10 = Ok 11.
Proof.
  destruct (@strided_index_row_major False 3 [2; 3] [1; 2] 10) as (_ & _ & H & _).
  - repeat constructor.
  - reflexivity.
  - vm_compute. split; congruence.
  - rewrite H. vm_compute. reflexivity.
Defined.
