(* ===== verification/Layout.v ===== *)
(** * Layouts (crates/rustorch-core/src/tensor/layout.rs)

    Strides, offset, dtype and the cached contiguity flag of a tensor. *)

From Stdlib Require Import ZArith Lia.
From stdpp Require Import base list sets.
From S2P Require Import Prelude Dtype Shape.

(** [compute_contiguous_strides] *)
Fixpoint compute_contiguous_strides (shape : Shape) : list Z :=
  match shape with
  | [] => []
  | _ :: ds =>
      match compute_contiguous_strides ds, ds with
      | s :: ss, d :: _ => swrap 64 (s * swrap 64 d) :: s :: ss
      | _, _ => [1]
      end
  end.

(** The loop of [is_contiguous_strides], from the last axis: [None] when it
    returned [false], else the value of [expected]. *)
Fixpoint contiguous_from (shape : Shape) (strides : list Z) : option Z :=
  match shape, strides with
  | d :: ds, s :: ss =>
      match contiguous_from ds ss with
      | None => None
      | Some expected =>
          if negb (d =? 1) && negb (s =? expected) then None
          else Some (swrap 64 (expected * swrap 64 d))
      end
  | _, _ => Some 1
  end.

(** [is_contiguous_strides] *)
Definition is_contiguous_strides (shape : Shape) (strides : list Z) : bool :=
  if negb (length shape =? length strides)%nat then false
  else if bool_decide (shape = []) then true
  else if bool_decide (0 ∈ shape) then true
  else match contiguous_from shape strides with Some _ => true | None => false end.

(** [struct Layout] *)
Record Layout := mkLayout {
  l_shape : Shape;
  l_strides : list Z;       (* isize *)
  l_offset : Z;             (* usize, in elements *)
  l_dtype : Dtype;
  l_contiguous : bool
}.

#[export] Instance Layout_eq_dec : EqDecision Layout.
Proof. solve_decision. Defined.

(** [enum LayoutError] *)
Inductive LayoutError := StridesRankMismatch (shape : list Z) (strides_len : nat).

(** [Layout::contiguous] *)
Definition Layout_contiguous (shape : Shape) (dtype : Dtype) : Layout :=
  mkLayout shape (compute_contiguous_strides shape) 0 dtype true.

(** [Layout::recompute_contiguous] *)
Definition recompute_contiguous (l : Layout) : Layout :=
  mkLayout (l_shape l) (l_strides l) (l_offset l) (l_dtype l)
    (is_contiguous_strides (l_shape l) (l_strides l)).

(** [Layout::from_strides] *)
Definition from_strides (shape : Shape) (strides : list Z) (storage_offset : Z) (dtype : Dtype)
    : res LayoutError Layout :=
  if negb (length strides =? Shape_ndim shape)%nat then
    Err (StridesRankMismatch shape (length strides))
  else Ok (recompute_contiguous (mkLayout shape strides storage_offset dtype false)).

(** [Layout::ndim], [::numel], [::byte_size], [::is_contiguous] *)
Definition l_ndim (l : Layout) : nat := Shape_ndim (l_shape l).
Definition l_numel (l : Layout) : Z := Shape_numel (l_shape l).
Definition l_byte_size (l : Layout) : Z := wrap 64 (l_numel l * Dtype_byte_size (l_dtype l)).
Definition is_contiguous (l : Layout) : bool := l_contiguous l.

(** [Layout::is_channels_last] *)
Definition is_channels_last (l : Layout) : bool :=
  match l_shape l with
  | [n; c; h; w] =>
      bool_decide (l_strides l =
        [swrap 64 (wrap 64 (wrap 64 (c * h) * w)); 1; swrap 64 (wrap 64 (c * w)); swrap 64 c])
      && (l_offset l =? 0)
  | _ => false
  end.

(** What every constructor establishes. *)
Definition layout_wf (l : Layout) : Prop :=
  shape_wf (l_shape l) ∧ length (l_strides l) = length (l_shape l)
  ∧ (shape_fits (l_shape l) → l_contiguous l = is_contiguous_strides (l_shape l) (l_strides l)).

(** The element address of a multi-index. *)
Definition address (l : Layout) (idx : list Z) : Z := l_offset l + dot idx (l_strides l).

(** ** Lemmas *)

Lemma Shape_numel_prod s : Shape_numel s = wrap 64 (zprod s).
Proof.
  unfold Shape_numel, Shape_is_scalar. case_bool_decide as Hs.
  - rewrite Hs, zprod_nil. symmetry. apply wrap_small. unfold uint. lia.
  - by rewrite product_u_wrap.
Qed.

Lemma Shape_numel_fits s : shape_fits s → Shape_numel s = zprod s.
Proof.
  intros Hs%shape_fits_prod. rewrite Shape_numel_prod. apply wrap_small. unfold uint. lia.
Qed.

Lemma compute_contiguous_strides_prods s :
  shape_fits s → compute_contiguous_strides s = suffix_prods s.
Proof.
  induction s as [|d s IH]; intros Hs; [done|]. simpl.
  apply shape_fits_cons in Hs as (_ & _ & Hs). rewrite IH by done.
  destruct s as [|d' s]; simpl; [done|]. f_equal.
  rewrite swrap_mul_r, Z.mul_comm, <- zprod_cons by lia.
  apply swrap_small; [lia|]. by apply sint_of_bounds, shape_fits_prod.
Qed.

Lemma contiguous_from_Some s ss e :
  shape_fits s → length ss = length s → contiguous_from s ss = Some e → e = zprod s.
Proof.
  revert ss e. induction s as [|d s IH]; intros [|x ss] e Hs; simpl; try done;
    [by intros _ [= <-]|]. intros [= Hl]. pose proof (shape_fits_prod _ Hs) as Hp.
  apply shape_fits_cons in Hs as (_ & _ & Hs).
  destruct (contiguous_from s ss) as [e'|] eqn:He; [|done]. case_match; [done|].
  intros [= <-]. rewrite (IH _ _ Hs Hl He), swrap_mul_r, Z.mul_comm, <- zprod_cons by lia.
  apply swrap_small; [lia|]. by apply sint_of_bounds.
Qed.

(** Contiguity, axis by axis: each stride is the product of the later
    dimensions, or its axis has size 1. *)
Lemma contiguous_from_iff s ss :
  shape_fits s → length ss = length s →
  is_Some (contiguous_from s ss) ↔
  Forall2 (λ d xp, d = 1 ∨ xp.1 = xp.2) s (zip ss (suffix_prods s)).
Proof.
  revert ss. induction s as [|d s IH]; intros [|x ss] Hs; simpl; try done.
  intros [= Hl]. apply shape_fits_cons in Hs as (_ & _ & Hs).
  destruct (contiguous_from s ss) as [e|] eqn:He.
  - pose proof (contiguous_from_Some _ _ _ Hs Hl He) as ->.
    assert (Forall2 (λ d xp, d = 1 ∨ xp.1 = xp.2) s (zip ss (suffix_prods s))) as Hrest
      by (apply IH; [done|done|by rewrite He]).
    destruct (Z.eqb_spec d 1), (Z.eqb_spec x (zprod s)); simpl;
      (split; [intros [? ?]|intros Hall; inversion Hall; subst; simpl in *]);
      try (by eexists); try done; try (constructor; simpl; auto); lia.
  - split; [by intros [? ?]|]. intros Hall. inversion_clear Hall as [|? ? ? ? _ Hrest].
    apply IH in Hrest as [? ?]; [|done|done]. congruence.
Qed.

(** The multi-index with a single 1 at axis [k]. *)
Definition unit_index (s : Shape) (k : nat) : list Z :=
  <[k := 1]> (replicate (length s) 0).

Lemma zero_index_range s : Forall (λ d, 0 < d) s → in_range s (replicate (length s) 0).
Proof. induction 1; simpl; constructor; [lia|done]. Qed.

Lemma dot_zeros n ss : dot (replicate n 0) ss = 0.
Proof.
  revert ss. induction n as [|n IH]; intros [|s ss]; simpl; try done.
  rewrite dot_cons, IH. lia.
Qed.

Lemma unit_index_spec s k d ss :
  Forall (λ d, 0 < d) s → s !! k = Some d → 1 < d → length ss = length s →
  in_range s (unit_index s k) ∧ dot (unit_index s k) ss = default 0 (ss !! k).
Proof.
  intros Hs. revert k ss. unfold unit_index.
  induction Hs as [|x s Hx Hs IH]; intros [|k] [|y ss]; simpl; try done.
  - intros [= ->] Hd _. split; [constructor; [lia|by apply zero_index_range]|].
    rewrite dot_cons, dot_zeros. lia.
  - intros Hk Hd [= Hl]. destruct (IH k ss Hk Hd Hl) as [Hr Hdot]. split.
    + constructor; [lia|done].
    + rewrite dot_cons, Hdot. lia.
Qed.

Lemma dot_contiguous s ss idx :
  Forall2 (λ d xp, d = 1 ∨ xp.1 = xp.2) s (zip ss (suffix_prods s)) →
  length ss = length s → in_range s idx → dot idx ss = ravel s idx.
Proof.
  intros Hc Hl Hr. revert ss Hc Hl. induction Hr as [|d i s idx Hi _ IH]; intros [|x ss]; simpl; try done.
  intros Hc [= Hl]. inversion_clear Hc as [|? ? ? ? Hd Hrest]. simpl in Hd.
  rewrite dot_cons, IH by done. destruct Hd as [->| ->]; [|done]. assert (i = 0) as -> by lia. lia.
Qed.

(** The contiguity test decides whether the strides walk the shape in
    row-major order. *)
Lemma is_contiguous_strides_iff s ss :
  shape_fits s → length ss = length s →
  is_contiguous_strides s ss = true ↔ ∀ idx, in_range s idx → dot idx ss = ravel s idx.
Proof.
  intros Hs Hl. unfold is_contiguous_strides.
  rewrite (proj2 (Nat.eqb_eq _ _) (eq_sym Hl)). simpl.
  case_bool_decide as Hn.
  { subst. split; [|done]. intros _ idx Hr. inversion_clear Hr. done. }
  case_bool_decide as H0.
  { split; [|done]. intros _ idx Hr%in_range_shape_pos. rewrite Forall_forall in Hr.
    apply Hr in H0. lia. }
  assert (Forall (λ d, 0 < d) s) as Hpos.
  { apply Forall_forall. intros d Hd. destruct Hs as [Hwf _].
    apply shape_wf_nonneg in Hwf. rewrite Forall_forall in Hwf. apply Hwf in Hd as Hd0.
    assert (d ≠ 0) by (by intros ->). lia. }
  transitivity (is_Some (contiguous_from s ss)).
  { destruct (contiguous_from s ss); split; done. }
  rewrite contiguous_from_iff by done. split.
  - intros Hc idx Hr. by apply dot_contiguous.
  - intros Hdot. apply Forall2_same_length_lookup_2.
    { rewrite length_zip_with, length_suffix_prods. lia. }
    intros k d [x p] Hd Hxp. simpl.
    destruct (decide (d = 1)) as [?|Hd1]; [by left|right].
    rewrite Forall_forall in Hpos.
    assert (0 < d) by (apply Hpos; by eapply list_elem_of_lookup_2).
    assert (Forall (λ d, 0 < d) s) as Hpos' by (by apply Forall_forall).
    destruct (unit_index_spec s k d ss Hpos' Hd ltac:(lia) Hl) as [Hr Hx].
    destruct (unit_index_spec s k d (suffix_prods s) Hpos' Hd ltac:(lia)
      (length_suffix_prods s)) as [_ Hp].
    apply lookup_zip_Some in Hxp as [Hxk Hpk].
    rewrite Hxk in Hx. rewrite Hpk in Hp. simpl in *.
    rewrite <- Hx, <- Hp, Hdot, dot_suffix_prods by (done || by apply in_range_length). done.
Qed.

Lemma Layout_contiguous_wf s d : shape_wf s → layout_wf (Layout_contiguous s d).
Proof.
  intros Hs. split; [done|]. split.
  - simpl. induction s as [|x s IH]; [done|]. apply Forall_cons in Hs as [_ Hs]. simpl.
    specialize (IH Hs). destruct (compute_contiguous_strides s) eqn:E, s; simpl in *; lia || done.
  - simpl. intros Hf. symmetry. rewrite compute_contiguous_strides_prods by done.
    apply is_contiguous_strides_iff; [done|apply length_suffix_prods|].
    intros idx Hr. apply dot_suffix_prods. by apply in_range_length.
Qed.

Lemma from_strides_wf s ss o d l :
  shape_wf s → from_strides s ss o d = Ok l →
  layout_wf l ∧ l_shape l = s ∧ l_strides l = ss ∧ l_offset l = o ∧ l_dtype l = d.
Proof.
  intros Hs. unfold from_strides. destruct (Nat.eqb_spec (length ss) (Shape_ndim s)); simpl; [|done].
  intros [= <-]. simpl. split_and!; try done.
Qed.

(** A layout built by [from_strides] from as many strides as dimensions. *)
Lemma from_strides_Ok s ss o d :
  length ss = length s →
  from_strides s ss o d = Ok (mkLayout s ss o d (is_contiguous_strides s ss)).
Proof. intros Hl. unfold from_strides, Shape_ndim. by rewrite Hl, Nat.eqb_refl. Qed.

(** A channels-last layout stores pixel (y, x) of channel b of image a at
    ((a * h + y) * w + x) * c + b. *)
Lemma channels_last_address l n c h w a b y x :
  l_shape l = [n; c; h; w] → shape_fits [n; c; h; w] → is_channels_last l = true →
  address l [a; b; y; x] = ((a * h + y) * w + x) * c + b.
Proof.
  intros Hs Hf. unfold is_channels_last. rewrite Hs.
  rewrite andb_true_iff, bool_decide_eq_true, Z.eqb_eq. intros [Hst Ho].
  assert (0 ≤ c * h * w < 2 ^ 63 ∧ 0 ≤ c * w < 2 ^ 63 ∧ 0 ≤ c * h < 2 ^ 63 ∧ 0 ≤ c < 2 ^ 63)
    as (H1 & H2 & H3 & H4).
  { destruct Hf as [Hwf Hp]. unfold zprod in Hp. simpl in Hp.
    assert (∀ z, z ∈ [n; c; h; w] → 0 ≤ z) as Hnn.
    { intros z Hz. apply shape_wf_nonneg in Hwf. rewrite Forall_forall in Hwf. auto. }
    pose proof (Hnn c ltac:(set_solver)). pose proof (Hnn h ltac:(set_solver)).
    pose proof (Hnn w ltac:(set_solver)).
    set (n' := Z.max 1 n) in *. set (c' := Z.max 1 c) in *. set (h' := Z.max 1 h) in *.
    set (w' := Z.max 1 w) in *.
    assert (1 ≤ n' ∧ 1 ≤ c' ∧ c ≤ c' ∧ 1 ≤ h' ∧ h ≤ h' ∧ 1 ≤ w' ∧ w ≤ w') as
      (? & ? & ? & ? & ? & ? & ?) by (unfold n', c', h', w'; lia).
    clearbody n' c' h' w'.
    assert (c * h ≤ c' * h') by (apply Z.mul_le_mono_nonneg; lia).
    assert (c * w ≤ c' * w') by (apply Z.mul_le_mono_nonneg; lia).
    assert (c * h * w ≤ c' * h' * w') by (apply Z.mul_le_mono_nonneg; nia).
    assert (1 * (c' * h' * w') ≤ n' * (c' * h' * w')) by (apply Z.mul_le_mono_nonneg; nia).
    assert (c' * h' * 1 ≤ c' * h' * w') by (apply Z.mul_le_mono_nonneg; nia).
    assert (c' * w' * 1 ≤ c' * w' * h') by (apply Z.mul_le_mono_nonneg; nia).
    assert (c' * 1 ≤ c' * h') by (apply Z.mul_le_mono_nonneg; nia).
    assert (n' * (c' * (h' * (w' * 1))) = n' * (c' * h' * w')) by lia.
    assert (c' * w' * h' = c' * h' * w') by lia.
    repeat split; try nia. }
  unfold address. rewrite Ho, Hst.
  rewrite (wrap_small 64 (c * h)), (wrap_small 64 (c * h * w)), (wrap_small 64 (c * w))
    by (unfold uint; lia).
  rewrite !swrap_small by (lia || by apply sint_of_bounds).
  rewrite !dot_cons, dot_nil_l. ring.
Qed.

Lemma contiguous_flag_address l :
  layout_wf l → shape_fits (l_shape l) →
  is_contiguous l = true ↔
  ∀ idx, in_range (l_shape l) idx → address l idx = l_offset l + ravel (l_shape l) idx.
Proof.
  intros (Hs & Hl & Hflag) Hf. unfold is_contiguous. rewrite Hflag by done.
  rewrite is_contiguous_strides_iff by done.
  unfold address. split; intros H idx Hr; specialize (H idx Hr); lia.
Qed.

Lemma Layout_contiguous_address s d idx :
  shape_fits s → in_range s idx → address (Layout_contiguous s d) idx = ravel s idx.
Proof.
  intros Hf Hr. unfold address; simpl. rewrite compute_contiguous_strides_prods by done.
  rewrite dot_suffix_prods by (by apply in_range_length). lia.
Qed.

(** ** Properties *)

(** the contiguity flag of a layout built by either constructor holds
    exactly when the layout walks the storage in row-major order from its
    offset: the element with row-major number [n] is at [offset + n].  (It says
    nothing about the offset, which the flag's documentation requires to be
    0.)  [Layout::contiguous] always sets it, with offset 0. *)
Theorem layout_contiguity l :
  layout_wf l → shape_fits (l_shape l) →
  (is_contiguous l = true ↔
     ∀ idx, in_range (l_shape l) idx → address l idx = l_offset l + ravel (l_shape l) idx)
  ∧ (∀ d, is_contiguous (Layout_contiguous (l_shape l) d) = true
       ∧ layout_wf (Layout_contiguous (l_shape l) d)
       ∧ ∀ idx, in_range (l_shape l) idx →
           address (Layout_contiguous (l_shape l) d) idx = ravel (l_shape l) idx).
Proof.
  intros Hwf Hf. split; [by apply contiguous_flag_address|].
  intros d. split_and!; [done|by apply Layout_contiguous_wf, Hwf|].
  intros idx Hr. by apply Layout_contiguous_address.
Qed.

(** *** Witnesses *)

Lemma layout_contiguity_witness :
  address (mkLayout [2; 3] [3; 1] 6 F32 true) [1; 2] = 6 + ravel [2; 3] [1; 2].
Proof.
  destruct (layout_contiguity (mkLayout [2; 3] [3; 1] 6 F32 true)) as [[H _] _].
  - split; [repeat constructor; vm_compute; congruence|]. split; [reflexivity|].
    intros _. vm_compute. reflexivity.
  - split; [repeat constructor; vm_compute; congruence|vm_compute; reflexivity].
  - apply (H ltac:(reflexivity)). apply (bool_decide_unpack _). vm_compute. exact I.
Defined.
