(* ===== verification/Storage.v ===== *)
(** * Storage and version counters
    (crates/rustorch-core/src/tensor/storage.rs, version.rs)

    The CPU storage: reference-counted byte buffers, the thread-local pool
    that recycles them, and the version counters that tensors share with
    their views.  The state is explicit: a [World] holds the allocated memory,
    the [Arc]s with their strong counts, the pool and the counters.

    The system allocator returns a pointer of no live allocation (here the
    next unused one), or null when [oom] says so; fresh memory holds
    unspecified bytes, [junk]. *)

From Stdlib Require Import ZArith Lia.
From stdpp Require Import base list gmap sets.
From S2P Require Import Prelude.

(** [CPU_ALIGN], [PER_BUCKET_CAP], [POOL_BYTE_BUDGET] *)
Definition CPU_ALIGN : Z := 64.
Definition PER_BUCKET_CAP : nat := 16.
Definition POOL_BYTE_BUDGET : Z := 256 * 1024 * 1024.

(** [std::alloc::Layout]: (size, align) *)
Notation AllocLayout := (Z * Z)%type (only parsing).

(** [struct CpuStorageInner]; its [AllocLayout] has [in_size], [in_align]. *)
Record CpuStorageInner := mkInner {
  in_ptr : Z;
  in_layout : AllocLayout;
  in_byte_len : Z
}.

(** [struct Pool]; the head of a bucket's list is the top of its stack. *)
Record Pool := mkPool {
  buckets : gmap AllocLayout (list Z);
  retained_bytes : Z
}.

(** [struct CpuStorage]: the [Arc] and the cached length. *)
Record CpuStorage := mkCpuStorage { st_arc : Z; st_byte_len : Z }.

(** [enum StorageError] *)
Inductive StorageError :=
  | InvalidAlloc (byte_len align : Z)
  | OutOfMemory (byte_len : Z).

Record World := mkWorld {
  mem : gmap Z (list Z);                 (* allocated memory *)
  arcs : gmap Z (CpuStorageInner * Z);   (* inner and strong count *)
  pool : Pool;
  versions : gmap Z Z;                   (* AtomicU64 *)
  fresh : Z                              (* above every pointer and id in use *)
}.

Definition set_mem (w : World) m := mkWorld m (arcs w) (pool w) (versions w) (fresh w).
Definition set_arcs (w : World) a := mkWorld (mem w) a (pool w) (versions w) (fresh w).
Definition set_pool (w : World) p := mkWorld (mem w) (arcs w) p (versions w) (fresh w).
Definition set_versions (w : World) v := mkWorld (mem w) (arcs w) (pool w) v (fresh w).
Definition bump_fresh (w : World) :=
  mkWorld (mem w) (arcs w) (pool w) (versions w) (fresh w + 1).

Definition World_new : World := mkWorld ∅ ∅ (mkPool ∅ 0) ∅ 1.

(** ** The pool *)

(** [cpu_storage_pool::try_acquire] *)
Definition try_acquire (w : World) (layout : AllocLayout) : option Z * World :=
  match buckets (pool w) !! layout with
  | Some (ptr :: stack) =>
      (Some ptr, set_pool w (mkPool (<[layout := stack]> (buckets (pool w)))
                               (sat_sub (retained_bytes (pool w)) layout.1)))
  | _ => (None, w)
  end.

(** [cpu_storage_pool::try_release] *)
Definition try_release (w : World) (ptr : Z) (layout : AllocLayout) : bool * World :=
  if POOL_BYTE_BUDGET <? sat_add 64 (retained_bytes (pool w)) layout.1 then (false, w)
  else
    let stack := default [] (buckets (pool w) !! layout) in
    if (PER_BUCKET_CAP <=? length stack)%nat then
      (false, set_pool w (mkPool (<[layout := stack]> (buckets (pool w)))
                            (retained_bytes (pool w))))
    else
      (true, set_pool w (mkPool (<[layout := ptr :: stack]> (buckets (pool w)))
                           (wrap 64 (retained_bytes (pool w) + layout.1)))).

(** [alloc_layout]: [from_size_align] fails when the size rounded up to the
    alignment exceeds [isize::MAX]. *)
Definition alloc_layout (byte_len : Z) : res StorageError AllocLayout :=
  if 2 ^ 63 - 1 - (CPU_ALIGN - 1) <? byte_len then Err (InvalidAlloc byte_len CPU_ALIGN)
  else Ok (byte_len, CPU_ALIGN).

(** [alloc::dealloc] *)
Definition sys_dealloc (w : World) (ptr : Z) : World := set_mem w (delete ptr (mem w)).

(** [Arc::new(CpuStorageInner { .. })] *)
Definition new_arc (w : World) (inner : CpuStorageInner) : World * CpuStorage :=
  (bump_fresh (set_arcs w (<[fresh w := (inner, 1)]> (arcs w))),
   mkCpuStorage (fresh w) (in_byte_len inner)).

(** [CpuStorage::wrap] *)
Definition wrap_storage (w : World) (ptr : Z) (layout : AllocLayout) (byte_len : Z)
    : World * CpuStorage := new_arc w (mkInner ptr layout byte_len).

(** [empty_cpu]; the dangling pointer is 0. *)
Definition empty_cpu (w : World) : World * CpuStorage := new_arc w (mkInner 0 (1, 1) 0).

Section alloc.
Context (oom : Z → bool) (junk : Z → Z → list Z).

(** [alloc::alloc] and [alloc::alloc_zeroed], with the null check. *)
Definition sys_alloc (w : World) (byte_len : Z) (contents : list Z)
    : res StorageError (Z * World) :=
  if oom byte_len then Err (OutOfMemory byte_len)
  else Ok (fresh w, bump_fresh (set_mem w (<[fresh w := contents]> (mem w)))).

(** [CpuStorage::zeroed] *)
Definition zeroed (w : World) (byte_len : Z) : res StorageError (World * CpuStorage) :=
  if byte_len =? 0 then Ok (empty_cpu w)
  else
    let? layout := alloc_layout byte_len in
    let zeros := replicate (Z.to_nat byte_len) 0 in
    let? pw :=
      match try_acquire w layout with
      | (Some reused, w) => Ok (reused, set_mem w (<[reused := zeros]> (mem w)))
      | (None, w) => sys_alloc w byte_len zeros
      end in
    Ok (wrap_storage pw.2 pw.1 layout byte_len).

(** [CpuStorage::uninit] *)
Definition uninit (w : World) (byte_len : Z) : res StorageError (World * CpuStorage) :=
  if byte_len =? 0 then Ok (empty_cpu w)
  else
    let? layout := alloc_layout byte_len in
    let? pw :=
      match try_acquire w layout with
      | (Some reused, w) => Ok (reused, w)
      | (None, w) => sys_alloc w byte_len (junk (fresh w) byte_len)
      end in
    Ok (wrap_storage pw.2 pw.1 layout byte_len).

(** Overwriting the whole buffer of a storage that owns it
    ([ptr::copy_nonoverlapping] in [from_bytes] and [from_vec_typed]). *)
Definition fill_buffer (w : World) (s : CpuStorage) (bytes : list Z) : World :=
  match arcs w !! st_arc s with
  | Some (inner, _) => set_mem w (<[in_ptr inner := bytes]> (mem w))
  | None => w
  end.

(** [CpuStorage::from_bytes] *)
Definition from_bytes (w : World) (bytes : list Z) : res StorageError (World * CpuStorage) :=
  let n := Z.of_nat (length bytes) in
  if n =? 0 then Ok (empty_cpu w)
  else
    let? ws := uninit w n in
    Ok (fill_buffer ws.1 ws.2 bytes, ws.2).
End alloc.

(** [Arc::strong_count], [Storage::is_unique], [Storage::byte_len] *)
Definition strong_count (w : World) (s : CpuStorage) : Z :=
  match arcs w !! st_arc s with Some (_, n) => n | None => 0 end.
Definition is_unique (w : World) (s : CpuStorage) : bool := strong_count w s =? 1.

(** [CpuStorage::as_bytes] *)
Definition as_bytes (w : World) (s : CpuStorage) : list Z :=
  if st_byte_len s =? 0 then []
  else match arcs w !! st_arc s with
       | Some (inner, _) => default [] (mem w !! in_ptr inner)
       | None => []
       end.

(** [CpuStorage::as_bytes_mut]: the bytes, or [None] when the [Arc] is shared;
    the caller writes the slice back with [write_bytes]. *)
Definition as_bytes_mut (w : World) (s : CpuStorage) : option (list Z) :=
  if st_byte_len s =? 0 then Some []
  else if is_unique w s then Some (as_bytes w s) else None.

Definition write_bytes (w : World) (s : CpuStorage) (bytes : list Z) : World :=
  if st_byte_len s =? 0 then w else fill_buffer w s bytes.

(** [Clone] of a storage: the [Arc]'s count. *)
Definition clone_storage (w : World) (s : CpuStorage) : World :=
  match arcs w !! st_arc s with
  | Some (inner, n) => set_arcs w (<[st_arc s := (inner, n + 1)]> (arcs w))
  | None => w
  end.

(** [Drop for CpuStorageInner] *)
Definition drop_inner (w : World) (inner : CpuStorageInner) : World :=
  if 0 <? in_byte_len inner then
    match try_release w (in_ptr inner) (in_layout inner) with
    | (true, w) => w
    | (false, w) => sys_dealloc w (in_ptr inner)
    end
  else w.

(** Dropping a storage: the count, and the inner value with the last one. *)
Definition drop_storage (w : World) (s : CpuStorage) : World :=
  match arcs w !! st_arc s with
  | Some (inner, n) =>
      if n =? 1 then drop_inner (set_arcs w (delete (st_arc s) (arcs w))) inner
      else set_arcs w (<[st_arc s := (inner, n - 1)]> (arcs w))
  | None => w
  end.

(** ** Version counters *)

(** [VersionCounter::new], [::bump] (the new version), [::current],
    [::snapshot], [::has_changed_since]; a counter is the id of its [Arc]. *)
Definition version_new (w : World) : World * Z :=
  (bump_fresh (set_versions w (<[fresh w := 0]> (versions w))), fresh w).
Definition current (w : World) (v : Z) : Z := default 0 (versions w !! v).
Definition bump (w : World) (v : Z) : World * Z :=
  let n := wrap 64 (current w v + 1) in
  (set_versions w (<[v := n]> (versions w)), n).
Definition snapshot (w : World) (v : Z) : Z := current w v.
Definition has_changed_since (w : World) (v snap : Z) : bool := negb (current w v =? snap).

(** ** Invariant *)

(** The pointers that live [Arc]s own, and those the pool retains. *)
Definition owned (e : Z * (CpuStorageInner * Z)) : option Z :=
  if 0 <? in_byte_len e.2.1 then Some (in_ptr e.2.1) else None.
Definition live_ptrs (a : gmap Z (CpuStorageInner * Z)) : list Z := omap owned (map_to_list a).
Definition pooled_ptrs (b : gmap AllocLayout (list Z)) : list Z :=
  concat (snd <$> map_to_list b).
Definition owners (w : World) : list Z := live_ptrs (arcs w) ++ pooled_ptrs (buckets (pool w)).

(** The bytes of the retained buffers. *)
Definition pooled_bytes (b : gmap AllocLayout (list Z)) : Z :=
  zsum ((λ e, e.1.1 * Z.of_nat (length e.2)) <$> map_to_list b).

Record world_wf (w : World) : Prop := {
  (* no buffer has two owners, and exactly the owned buffers are allocated *)
  wf_nodup : NoDup (owners w);
  wf_mem : ∀ p, p ∈ owners w ↔ p ∈ dom (mem w);
  (* an [Arc]'s buffer has its length and layout *)
  wf_arc : ∀ a inner n, arcs w !! a = Some (inner, n) →
    1 ≤ n ∧ 0 ≤ in_byte_len inner ∧ a < fresh w ∧
    (in_byte_len inner ≠ 0 → in_layout inner = (in_byte_len inner, CPU_ALIGN)
       ∧ ∃ bytes, mem w !! in_ptr inner = Some bytes
           ∧ Z.of_nat (length bytes) = in_byte_len inner);
  (* the pool: sizes, the cap of a bucket, the byte budget *)
  wf_bucket : ∀ l stack, buckets (pool w) !! l = Some stack →
    0 ≤ l.1 ∧ (length stack ≤ PER_BUCKET_CAP)%nat
    ∧ ∀ p, p ∈ stack → ∃ bytes, mem w !! p = Some bytes ∧ Z.of_nat (length bytes) = l.1;
  wf_retained : retained_bytes (pool w) = pooled_bytes (buckets (pool w))
    ∧ retained_bytes (pool w) ≤ POOL_BYTE_BUDGET;
  wf_fresh : ∀ p, p ∈ dom (mem w) → p < fresh w
}.

(** ** Lemmas *)

#[local] Arguments PER_BUCKET_CAP : simpl never.
#[local] Arguments Nat.leb : simpl never.

Lemma map_to_list_update {K A} `{Countable K} (m : gmap K A) k v :
  map_to_list (<[k := v]> m) ≡ₚ (k, v) :: map_to_list (delete k m).
Proof.
  rewrite <- insert_delete_eq. apply map_to_list_insert. apply lookup_delete_eq.
Qed.

Lemma map_to_list_split {K A} `{Countable K} (m : gmap K A) k v :
  m !! k = Some v → map_to_list m ≡ₚ (k, v) :: map_to_list (delete k m).
Proof. intros Hk. by rewrite (map_to_list_delete _ _ _ Hk). Qed.

Lemma omap_perm {A B} (f : A → option B) l k : l ≡ₚ k → omap f l ≡ₚ omap f k.
Proof.
  induction 1; csimpl; repeat case_match; eauto using Permutation.
Qed.

Lemma concat_perm {A} (l k : list (list A)) : l ≡ₚ k → concat l ≡ₚ concat k.
Proof.
  induction 1; simpl; [done|by f_equiv| |by etransitivity].
  rewrite !app_assoc. f_equiv. apply Permutation_app_comm.
Qed.

Lemma live_ptrs_insert a i e :
  live_ptrs (<[i := e]> a) ≡ₚ option_list (owned (i, e)) ++ live_ptrs (delete i a).
Proof.
  unfold live_ptrs. rewrite (omap_perm _ _ _ (map_to_list_update a i e)). csimpl.
  by destruct (owned (i, e)).
Qed.

Lemma live_ptrs_split a i e :
  a !! i = Some e → live_ptrs a ≡ₚ option_list (owned (i, e)) ++ live_ptrs (delete i a).
Proof.
  intros Hi. unfold live_ptrs. rewrite (omap_perm _ _ _ (map_to_list_split a i e Hi)). csimpl.
  by destruct (owned (i, e)).
Qed.

Lemma owned_count i inner n m : owned (i, (inner, n)) = owned (i, (inner, m)).
Proof. done. Qed.

(** Changing a count changes no ownership. *)
Lemma live_ptrs_count a i inner n m :
  a !! i = Some (inner, n) → live_ptrs (<[i := (inner, m)]> a) ≡ₚ live_ptrs a.
Proof. intros Hi. by rewrite live_ptrs_insert, (live_ptrs_split a i _ Hi). Qed.

Lemma pooled_ptrs_insert b l stack :
  pooled_ptrs (<[l := stack]> b) ≡ₚ stack ++ pooled_ptrs (delete l b).
Proof.
  unfold pooled_ptrs. by rewrite (concat_perm _ _ (fmap_Permutation snd _ _ (map_to_list_update b l stack))).
Qed.

Lemma pooled_ptrs_split b l :
  pooled_ptrs b ≡ₚ default [] (b !! l) ++ pooled_ptrs (delete l b).
Proof.
  destruct (b !! l) as [stack|] eqn:Hl; simpl.
  - unfold pooled_ptrs.
    by rewrite (concat_perm _ _ (fmap_Permutation snd _ _ (map_to_list_split b l stack Hl))).
  - by rewrite delete_id.
Qed.

Lemma pooled_bytes_insert b l stack :
  pooled_bytes (<[l := stack]> b)
  = l.1 * Z.of_nat (length stack) + pooled_bytes (delete l b).
Proof. unfold pooled_bytes. by rewrite map_to_list_update, fmap_cons, zsum_cons. Qed.

Lemma pooled_bytes_split b l :
  pooled_bytes b = l.1 * Z.of_nat (length (default [] (b !! l))) + pooled_bytes (delete l b).
Proof.
  destruct (b !! l) as [stack|] eqn:Hl; simpl.
  - unfold pooled_bytes. by rewrite (map_to_list_split b l stack Hl), fmap_cons, zsum_cons.
  - rewrite delete_id by done. lia.
Qed.

Lemma elem_of_live_ptrs a p :
  p ∈ live_ptrs a ↔ ∃ i inner n, a !! i = Some (inner, n) ∧ 0 < in_byte_len inner
                                ∧ p = in_ptr inner.
Proof.
  unfold live_ptrs. rewrite list_elem_of_omap. split.
  - intros ([i [inner n]] & Hi%elem_of_map_to_list & Ho). unfold owned in Ho. simpl in Ho.
    destruct (Z.ltb_spec 0 (in_byte_len inner)); [|done]. injection Ho as <-.
    by exists i, inner, n.
  - intros (i & inner & n & Hi & Hlen & ->). exists (i, (inner, n)).
    split; [by apply elem_of_map_to_list|]. unfold owned; simpl.
    by apply Z.ltb_lt in Hlen as ->.
Qed.

Lemma pooled_bytes_nonneg w : world_wf w → 0 ≤ pooled_bytes (buckets (pool w)).
Proof.
  intros Hwf. unfold pooled_bytes. apply zsum_nonneg, Forall_fmap, Forall_forall.
  intros [l stack] Hl%elem_of_map_to_list. simpl.
  destruct (wf_bucket _ Hwf _ _ Hl) as (? & _). lia.
Qed.

(** *** Two live storages never share memory *)

Lemma live_ptrs_distinct w a b ia ib n m :
  world_wf w → arcs w !! a = Some (ia, n) → arcs w !! b = Some (ib, m) → a ≠ b →
  0 < in_byte_len ia → 0 < in_byte_len ib → in_ptr ia ≠ in_ptr ib.
Proof.
  intros Hwf Ha Hb Hne Hla Hlb Heq. pose proof (wf_nodup _ Hwf) as Hnd. unfold owners in Hnd.
  apply NoDup_app in Hnd as [Hnd _].
  rewrite (live_ptrs_split _ _ _ Ha) in Hnd.
  unfold owned in Hnd; simpl in Hnd. rewrite (proj2 (Z.ltb_lt _ _) Hla) in Hnd. simpl in Hnd.
  apply NoDup_cons in Hnd as [Hni _]. apply Hni, elem_of_live_ptrs.
  exists b, ib, m. split_and!; [by rewrite lookup_delete_ne|done|done].
Qed.

(** *** Preservation *)

Lemma try_acquire_spec w layout :
  world_wf w →
  match try_acquire w layout with
  | (None, w') => w' = w
  | (Some p, w') => owners w ≡ₚ p :: owners w' ∧ mem w' = mem w ∧ arcs w' = arcs w
      ∧ fresh w' = fresh w ∧ versions w' = versions w
      ∧ (∃ bytes, mem w !! p = Some bytes ∧ Z.of_nat (length bytes) = layout.1)
      ∧ (∀ l stack, buckets (pool w') !! l = Some stack →
           0 ≤ l.1 ∧ (length stack ≤ PER_BUCKET_CAP)%nat
           ∧ ∀ p, p ∈ stack → ∃ bytes, mem w !! p = Some bytes ∧ Z.of_nat (length bytes) = l.1)
      ∧ retained_bytes (pool w') = pooled_bytes (buckets (pool w'))
      ∧ retained_bytes (pool w') ≤ POOL_BYTE_BUDGET
  end.
Proof.
  intros Hwf. unfold try_acquire.
  destruct (buckets (pool w) !! layout) as [[|p stack]|] eqn:Hb; simpl; try done.
  destruct (wf_bucket _ Hwf _ _ Hb) as (Hl & Hcap & Hst).
  destruct (wf_retained _ Hwf) as [Hret Hbud]. split_and!; try done.
  - unfold owners; simpl. rewrite pooled_ptrs_insert, (pooled_ptrs_split _ layout), Hb. simpl.
    symmetry. apply Permutation_middle.
  - apply Hst. by left.
  - intros l stack' [[<- <-]|[Hne Hl']]%lookup_insert_Some; [|by apply (wf_bucket _ Hwf)].
    split_and!; [done|simpl in Hcap; lia|]. intros q Hq. apply Hst. by right.
  - pose proof (pooled_bytes_nonneg _ Hwf) as Hnn.
    assert (0 ≤ pooled_bytes (delete layout (buckets (pool w)))) as Hd.
    { unfold pooled_bytes. apply zsum_nonneg, Forall_fmap, Forall_forall.
      intros [l s] Hl'%elem_of_map_to_list. simpl. apply lookup_delete_Some in Hl' as [_ Hl'].
      destruct (wf_bucket _ Hwf _ _ Hl') as (? & _). lia. }
    rewrite pooled_bytes_insert, Hret, (pooled_bytes_split (buckets (pool w)) layout), Hb.
    simpl default. simpl length.
    unfold sat_sub. lia.
  - unfold sat_sub. pose proof (pooled_bytes_nonneg _ Hwf).
    unfold POOL_BYTE_BUDGET in *. lia.
Qed.

(** A world whose owners gained the pointer [p], allocated with [byte_len]
    bytes, and the [Arc] that owns it. *)
Lemma wrap_storage_wf w p layout n :
  NoDup (p :: owners w) → (∀ q, q ∈ p :: owners w ↔ q ∈ dom (mem w)) →
  (∀ a inner k, arcs w !! a = Some (inner, k) →
    1 ≤ k ∧ 0 ≤ in_byte_len inner ∧ a < fresh w ∧
    (in_byte_len inner ≠ 0 → in_layout inner = (in_byte_len inner, CPU_ALIGN)
       ∧ ∃ bytes, mem w !! in_ptr inner = Some bytes
           ∧ Z.of_nat (length bytes) = in_byte_len inner)) →
  (∀ l stack, buckets (pool w) !! l = Some stack →
    0 ≤ l.1 ∧ (length stack ≤ PER_BUCKET_CAP)%nat
    ∧ ∀ p, p ∈ stack → ∃ bytes, mem w !! p = Some bytes ∧ Z.of_nat (length bytes) = l.1) →
  retained_bytes (pool w) = pooled_bytes (buckets (pool w))
    ∧ retained_bytes (pool w) ≤ POOL_BYTE_BUDGET →
  (∀ q, q ∈ dom (mem w) → q < fresh w) →
  0 < n → layout = (n, CPU_ALIGN) →
  (∃ bytes, mem w !! p = Some bytes ∧ Z.of_nat (length bytes) = n) →
  world_wf (wrap_storage w p layout n).1.
Proof.
  intros Hnd Hmem Harc Hbuck Hret Hfresh Hn Hlay Hp.
  assert (arcs w !! fresh w = None) as Hnew.
  { destruct (arcs w !! fresh w) as [[i k]|] eqn:E; [|done].
    destruct (Harc _ _ _ E) as (_ & _ & ? & _). lia. }
  assert (owners (wrap_storage w p layout n).1 ≡ₚ p :: owners w) as Hown.
  { unfold owners; simpl. rewrite live_ptrs_insert, delete_id by done.
    unfold owned; simpl. rewrite (proj2 (Z.ltb_lt _ _) Hn). done. }
  split; simpl.
  - by rewrite Hown.
  - intros q. rewrite Hown. apply Hmem.
  - intros a inner k [[<- [= <- <-]]|[Hne Ha]]%lookup_insert_Some.
    + simpl. split_and!; [lia|lia|lia|]. by intros _.
    + destruct (Harc _ _ _ Ha) as (? & ? & ? & ?). split_and!; [done|done|lia|done].
  - exact Hbuck.
  - exact Hret.
  - intros q Hq%Hfresh. lia.
Qed.

Lemma empty_cpu_wf w : world_wf w → world_wf (empty_cpu w).1.
Proof.
  intros Hwf. assert (arcs w !! fresh w = None) as Hnew.
  { destruct (arcs w !! fresh w) as [[i k]|] eqn:E; [|done].
    destruct (wf_arc _ Hwf _ _ _ E) as (_ & _ & ? & _). lia. }
  assert (owners (empty_cpu w).1 ≡ₚ owners w) as Hown.
  { unfold owners; simpl. by rewrite live_ptrs_insert, delete_id. }
  split; simpl.
  - rewrite Hown. apply Hwf.
  - intros q. rewrite Hown. apply Hwf.
  - intros a inner k [[<- [= <- <-]]|[Hne Ha]]%lookup_insert_Some.
    + simpl. split_and!; [lia|lia|lia|done].
    + destruct (wf_arc _ Hwf _ _ _ Ha) as (? & ? & ? & ?). split_and!; [done|done|lia|done].
  - apply Hwf.
  - apply Hwf.
  - intros q Hq%(wf_fresh _ Hwf). lia.
Qed.

(** Writing a live storage's whole buffer with as many bytes. *)
Lemma fill_buffer_wf w s inner n bytes :
  world_wf w → arcs w !! st_arc s = Some (inner, n) → in_byte_len inner ≠ 0 →
  Z.of_nat (length bytes) = in_byte_len inner → world_wf (fill_buffer w s bytes).
Proof.
  intros Hwf Ha Hne Hlen. unfold fill_buffer. rewrite Ha.
  destruct (wf_arc _ Hwf _ _ _ Ha) as (_ & _ & _ & Hin).
  destruct (Hin Hne) as (_ & old & Hold & Holen).
  assert (∀ p z, (∃ bytes, mem w !! p = Some bytes ∧ Z.of_nat (length bytes) = z) →
    ∃ b, <[in_ptr inner := bytes]> (mem w) !! p = Some b ∧ Z.of_nat (length b) = z) as Hkeep.
  { intros p z (b & Hb & Hz). destruct (decide (in_ptr inner = p)) as [<-|Hp].
    - exists bytes. rewrite lookup_insert_eq. split; [done|]. simplify_eq. lia.
    - exists b. by rewrite lookup_insert_ne. }
  assert (dom (<[in_ptr inner := bytes]> (mem w)) = dom (mem w)) as Hdom.
  { apply dom_insert_lookup_L. by rewrite Hold. }
  split; simpl.
  - apply Hwf.
  - intros p. rewrite Hdom. apply Hwf.
  - intros a i k Hai. destruct (wf_arc _ Hwf _ _ _ Hai) as (? & ? & ? & Hi).
    split_and!; [done..|]. intros Hi0. destruct (Hi Hi0) as [? ?]. auto.
  - intros l stack Hl. destruct (wf_bucket _ Hwf _ _ Hl) as (? & ? & Hst). split_and!; auto.
  - apply Hwf.
  - intros p. rewrite Hdom. apply Hwf.
Qed.

Lemma set_count_wf w s inner n m :
  world_wf w → arcs w !! st_arc s = Some (inner, n) → 1 ≤ m →
  world_wf (set_arcs w (<[st_arc s := (inner, m)]> (arcs w))).
Proof.
  intros Hwf Ha Hm. destruct (wf_arc _ Hwf _ _ _ Ha) as (? & ? & ? & ?).
  assert (owners (set_arcs w (<[st_arc s := (inner, m)]> (arcs w))) ≡ₚ owners w) as Hown.
  { unfold owners; simpl. by rewrite (live_ptrs_count _ _ _ n). }
  split; simpl; try apply Hwf.
  - rewrite Hown. apply Hwf.
  - intros p. rewrite Hown. apply Hwf.
  - intros a i k [[<- [= <- <-]]|[_ Hai]]%lookup_insert_Some; [done|by apply (wf_arc _ Hwf a)].
Qed.

Lemma clone_storage_wf w s : world_wf w → world_wf (clone_storage w s).
Proof.
  intros Hwf. unfold clone_storage. destruct (arcs w !! st_arc s) as [[inner n]|] eqn:Ha; [|done].
  destruct (wf_arc _ Hwf _ _ _ Ha) as (? & _). eapply set_count_wf; [done|exact Ha|lia].
Qed.

(** Removing an [Arc] frees its buffer's owner. *)
Lemma delete_arc_owners w s inner n :
  arcs w !! st_arc s = Some (inner, n) → 0 < in_byte_len inner →
  owners w ≡ₚ in_ptr inner :: owners (set_arcs w (delete (st_arc s) (arcs w))).
Proof.
  intros Ha Hlen. unfold owners; simpl. rewrite (live_ptrs_split _ _ _ Ha).
  unfold owned; simpl. by rewrite (proj2 (Z.ltb_lt _ _) Hlen).
Qed.

Lemma delete_arc_owners_empty w s inner n :
  arcs w !! st_arc s = Some (inner, n) → ¬ 0 < in_byte_len inner →
  owners w ≡ₚ owners (set_arcs w (delete (st_arc s) (arcs w))).
Proof.
  intros Ha Hlen. unfold owners; simpl. rewrite (live_ptrs_split _ _ _ Ha).
  unfold owned; simpl. by rewrite (proj2 (Z.ltb_nlt _ _) Hlen).
Qed.

Section drop.
Context (w : World) (s : CpuStorage) (inner : CpuStorageInner) (n : Z).
Hypothesis Hwf : world_wf w.
Hypothesis Ha : arcs w !! st_arc s = Some (inner, n).
Hypothesis Hlen : 0 < in_byte_len inner.

#[local] Notation w1 := (set_arcs w (delete (st_arc s) (arcs w))).

Lemma dropped_not_owned : in_ptr inner ∉ owners w1 ∧ NoDup (owners w1).
Proof using Hwf Ha Hlen.
  pose proof (wf_nodup _ Hwf) as Hnd. rewrite (delete_arc_owners _ _ _ _ Ha Hlen) in Hnd.
  by apply NoDup_cons in Hnd.
Qed.

Lemma kept_arc a i k : delete (st_arc s) (arcs w) !! a = Some (i, k) →
  arcs w !! a = Some (i, k) ∧ (in_byte_len i ≠ 0 → in_ptr i ≠ in_ptr inner).
Proof using Hwf Ha Hlen.
  intros Hai. pose proof Hai as [Hne Hai']%lookup_delete_Some. split; [done|].
  intros Hi0 Heq. destruct dropped_not_owned as [Hno _]. apply Hno.
  apply elem_of_app. left. apply elem_of_live_ptrs.
  destruct (wf_arc _ Hwf _ _ _ Hai') as (_ & ? & _). exists a, i, k. simpl.
  split_and!; [done|lia|done].
Qed.

Lemma dealloc_wf p0 :
  buckets p0 = buckets (pool w) →
  retained_bytes p0 = retained_bytes (pool w) →
  world_wf (sys_dealloc (set_pool w1 p0) (in_ptr inner)).
Proof using Hwf Ha Hlen.
  intros Hb Hr. destruct dropped_not_owned as [Hno Hnd].
  assert (owners (sys_dealloc (set_pool w1 p0) (in_ptr inner)) ≡ₚ owners w1) as Hown.
  { unfold owners; simpl. by rewrite Hb. }
  assert (∀ p, p ∈ owners w1 ↔ p ∈ dom (mem w) ∧ p ≠ in_ptr inner) as Hdom.
  { intros p. rewrite <- (wf_mem _ Hwf), (delete_arc_owners _ _ _ _ Ha Hlen), elem_of_cons.
    split; [|tauto]. intros Hp. split; [by right|]. by intros ->. }
  assert (∀ p z, p ≠ in_ptr inner → (∃ b, mem w !! p = Some b ∧ Z.of_nat (length b) = z) →
    ∃ b, delete (in_ptr inner) (mem w) !! p = Some b ∧ Z.of_nat (length b) = z) as Hkeep.
  { intros p z Hp (b & ? & ?). exists b. by rewrite lookup_delete_ne. }
  split; simpl.
  - by rewrite Hown.
  - intros p. rewrite Hown, Hdom, dom_delete_L. set_solver.
  - intros a i k Hai. destruct (kept_arc _ _ _ Hai) as [Hai' Hne].
    destruct (wf_arc _ Hwf _ _ _ Hai') as (? & ? & ? & Hi).
    split_and!; [done..|]. intros Hi0. destruct (Hi Hi0) as [? ?]. split; [done|]. auto.
  - intros l stack Hl. rewrite Hb in Hl.
    destruct (wf_bucket _ Hwf _ _ Hl) as (? & ? & Hst). split_and!; [done|done|].
    intros p Hp. apply Hkeep; [|auto]. intros ->. apply Hno.
    apply elem_of_app. right. simpl. rewrite (pooled_ptrs_split _ l), Hl. simpl.
    apply elem_of_app. by left.
  - rewrite Hr, Hb. apply Hwf.
  - intros p. rewrite dom_delete_L. intros [Hp _]%elem_of_difference. by apply (wf_fresh _ Hwf).
Qed.

Lemma release_wf :
  retained_bytes (pool w) + in_byte_len inner ≤ POOL_BYTE_BUDGET →
  (length (default [] (buckets (pool w) !! in_layout inner)) < PER_BUCKET_CAP)%nat →
  world_wf (set_pool w1 (mkPool
    (<[in_layout inner := in_ptr inner :: default [] (buckets (pool w) !! in_layout inner)]>
       (buckets (pool w)))
    (wrap 64 (retained_bytes (pool w) + (in_layout inner).1)))).
Proof using Hwf Ha Hlen.
  intros Hbud Hcap. destruct (wf_arc _ Hwf _ _ _ Ha) as (_ & _ & _ & Hi).
  destruct (Hi ltac:(lia)) as [Hil (bytes & Hbytes & Hbl)].
  destruct (wf_retained _ Hwf) as [Hret _]. pose proof (pooled_bytes_nonneg _ Hwf) as Hnn.
  assert (owners (set_pool w1 (mkPool
    (<[in_layout inner := in_ptr inner :: default [] (buckets (pool w) !! in_layout inner)]>
       (buckets (pool w)))
    (wrap 64 (retained_bytes (pool w) + (in_layout inner).1)))) ≡ₚ owners w) as Hown.
  { rewrite (delete_arc_owners _ _ _ _ Ha Hlen). unfold owners; simpl.
    rewrite pooled_ptrs_insert, (pooled_ptrs_split (buckets (pool w)) (in_layout inner)).
    simpl. symmetry. apply Permutation_middle. }
  split; simpl.
  - rewrite Hown. apply Hwf.
  - intros p. rewrite Hown. apply Hwf.
  - intros a i k Hai. destruct (kept_arc _ _ _ Hai) as [Hai' _]. by apply (wf_arc _ Hwf a).
  - intros l stack [[<- <-]|[_ Hl]]%lookup_insert_Some; [|by apply (wf_bucket _ Hwf)].
    rewrite Hil; simpl. rewrite Hil in Hcap. split_and!; [lia|lia|].
    intros p [->|Hp]%elem_of_cons; [by eexists|].
    destruct (buckets (pool w) !! (in_byte_len inner, CPU_ALIGN)) as [st|] eqn:Hst;
      simpl in Hp; [|by apply not_elem_of_nil in Hp].
    destruct (wf_bucket _ Hwf _ _ Hst) as (_ & _ & Hall). by apply Hall.
  - rewrite Hil in *. simpl in *. rewrite wrap_small.
    + rewrite pooled_bytes_insert. simpl length. simpl fst.
      rewrite Hret, (pooled_bytes_split (buckets (pool w)) (in_byte_len inner, CPU_ALIGN)) in *.
      simpl fst in *. lia.
    + unfold uint, POOL_BYTE_BUDGET in *. lia.
  - apply (wf_fresh _ Hwf).
Qed.
End drop.

Lemma drop_storage_wf w s : world_wf w → world_wf (drop_storage w s).
Proof.
  intros Hwf. unfold drop_storage. destruct (arcs w !! st_arc s) as [[inner n]|] eqn:Ha; [|done].
  destruct (wf_arc _ Hwf _ _ _ Ha) as (Hn & Hin & _ & Hi).
  destruct (Z.eqb_spec n 1) as [->|Hne].
  2: { eapply set_count_wf; [done|exact Ha|lia]. }
  unfold drop_inner. destruct (Z.ltb_spec 0 (in_byte_len inner)) as [Hlen|Hlen].
  - destruct (Hi ltac:(lia)) as [Hil _].
    pose proof (pooled_bytes_nonneg _ Hwf). destruct (wf_retained _ Hwf) as [Hret _].
    unfold try_release; simpl.
    destruct (Z.ltb_spec POOL_BYTE_BUDGET
      (sat_add 64 (retained_bytes (pool w)) (in_layout inner).1)) as [Hb|Hb]; simpl.
    { eapply (dealloc_wf w s inner 1 Hwf Ha Hlen (pool w)); auto. }
    destruct (Nat.leb_spec PER_BUCKET_CAP
      (length (default [] (buckets (pool w) !! in_layout inner)))) as [Hc|Hc]; simpl.
    + eapply (dealloc_wf w s inner 1 Hwf Ha Hlen (mkPool _ _)); simpl; [|done].
      destruct (buckets (pool w) !! in_layout inner) as [st|] eqn:Hst; simpl in *.
      * by apply insert_id.
      * unfold PER_BUCKET_CAP in Hc. lia.
    + eapply (release_wf w s inner 1 Hwf Ha Hlen); [|done].
      rewrite Hil in Hb. simpl in Hb. unfold sat_add, POOL_BYTE_BUDGET in *. lia.
  - pose proof (delete_arc_owners_empty _ _ _ _ Ha ltac:(lia)) as Hown.
    split; simpl; try apply Hwf.
    + rewrite <- Hown. apply Hwf.
    + intros p. rewrite <- Hown. apply Hwf.
    + intros a i k [_ Hai]%lookup_delete_Some. by apply (wf_arc _ Hwf a).
Qed.

Section alloc_wf.
Context (oom : Z → bool) (junk : Z → Z → list Z).
Hypothesis junk_len : ∀ p n, 0 ≤ n → Z.of_nat (length (junk p n)) = n.

Lemma replicate_zeros_len n : 0 ≤ n → Z.of_nat (length (replicate (Z.to_nat n) 0)) = n.
Proof using Type. intros. rewrite length_replicate. lia. Qed.

(** An allocation that misses the pool. *)
Lemma sys_alloc_wf w n contents :
  world_wf w → 0 < n → Z.of_nat (length contents) = n →
  match sys_alloc oom w n contents with
  | Ok (p, w') => p = fresh w ∧ mem w' = <[p := contents]> (mem w)
      ∧ world_wf (wrap_storage w' p (n, CPU_ALIGN) n).1
  | Err e => e = OutOfMemory n
  | Panic => False
  end.
Proof using Type.
  intros Hwf Hn Hlen. unfold sys_alloc. destruct (oom n); [done|].
  split_and!; [done|done|].
  assert (fresh w ∉ dom (mem w)) as Hfr by (intros Hin%(wf_fresh _ Hwf); lia).
  assert (∀ p z, (∃ b, mem w !! p = Some b ∧ Z.of_nat (length b) = z) →
    ∃ b, <[fresh w := contents]> (mem w) !! p = Some b ∧ Z.of_nat (length b) = z) as Hkeep.
  { intros p z (b & Hb & ?). exists b. split; [|done]. rewrite lookup_insert_ne; [done|].
    intros <-. by apply elem_of_dom_2 in Hb. }
  apply wrap_storage_wf; simpl; try done.
  - apply NoDup_cons. split; [|apply Hwf]. unfold owners; simpl.
    rewrite (wf_mem _ Hwf). done.
  - intros q. rewrite dom_insert_L, elem_of_union, elem_of_singleton, elem_of_cons.
    by rewrite <- (wf_mem _ Hwf).
  - intros a inner k Ha. destruct (wf_arc _ Hwf _ _ _ Ha) as (? & ? & ? & Hi).
    split_and!; [done|done|lia|]. intros Hi0. destruct (Hi Hi0) as [? ?]. auto.
  - intros l stack Hl. destruct (wf_bucket _ Hwf _ _ Hl) as (? & ? & ?). split_and!; auto.
  - apply Hwf.
  - intros q. rewrite dom_insert_L. intros [->%elem_of_singleton|Hq%(wf_fresh _ Hwf)]%elem_of_union; lia.
  - exists contents. by rewrite lookup_insert_eq.
Qed.

(** An allocation that hits the pool, with the buffer's new contents. *)
Lemma acquire_wf w n p w' contents :
  world_wf w → 0 < n → try_acquire w (n, CPU_ALIGN) = (Some p, w') →
  Z.of_nat (length contents) = n →
  world_wf (wrap_storage (set_mem w' (<[p := contents]> (mem w'))) p (n, CPU_ALIGN) n).1.
Proof using Type.
  intros Hwf Hn Hacq Hlen. pose proof (try_acquire_spec w (n, CPU_ALIGN) Hwf) as H.
  rewrite Hacq in H. destruct H as (Hown & Hmem & Harc & Hfr & _ & Hp & Hb & Hr1 & Hr2).
  assert (p ∈ dom (mem w)) as Hpd by (destruct Hp as (b & Hb' & _); by apply elem_of_dom_2 in Hb').
  assert (dom (<[p := contents]> (mem w)) = dom (mem w)) as Hdom.
  { apply dom_insert_lookup_L. by apply elem_of_dom. }
  assert (∀ q z, (∃ b, mem w !! q = Some b ∧ Z.of_nat (length b) = z) → q ≠ p ∨ z = n →
    ∃ b, <[p := contents]> (mem w) !! q = Some b ∧ Z.of_nat (length b) = z) as Hkeep.
  { intros q z (b & Hb' & Hz) Hor. destruct (decide (p = q)) as [<-|Hq].
    - exists contents. rewrite lookup_insert_eq. split; [done|]. destruct Hor; [done|lia].
    - exists b. by rewrite lookup_insert_ne. }
  pose proof (wf_nodup _ Hwf) as Hnd. rewrite Hown in Hnd.
  pose proof Hnd as [Hnp _]%NoDup_cons. unfold owners in Hnp. rewrite Harc in Hnp.
  apply wrap_storage_wf; simpl; rewrite ?Hmem, ?Harc, ?Hfr; try done.
  - intros q. rewrite Hdom, <- (wf_mem _ Hwf), Hown. done.
  - intros a inner k Ha. destruct (wf_arc _ Hwf _ _ _ Ha) as (? & ? & ? & Hi).
    split_and!; [done..|]. intros Hi0. destruct (Hi Hi0) as [? ?]. split; [done|].
    apply Hkeep; [done|]. left. intros Heq. apply Hnp, elem_of_app. left.
    apply elem_of_live_ptrs. exists a, inner, k. split_and!; [done|lia|done].
  - intros l stack Hl. destruct (Hb _ _ Hl) as (? & ? & Hst). split_and!; [done..|].
    intros q Hq. apply Hkeep; [auto|]. left. intros ->. apply Hnp, elem_of_app. right.
    rewrite (pooled_ptrs_split _ l), Hl. simpl. apply elem_of_app. by left.
  - intros q. rewrite Hdom. apply Hwf.
  - exists contents. by rewrite lookup_insert_eq.
Qed.

(** What an allocation returns: a storage that owns a buffer of the requested
    length, with count 1. *)
Definition allocated (w' : World) (s : CpuStorage) (n : Z) (bytes : list Z) : Prop :=
  world_wf w' ∧ st_byte_len s = n ∧ strong_count w' s = 1 ∧ as_bytes w' s = bytes
  ∧ ∃ inner, arcs w' !! st_arc s = Some (inner, 1) ∧ in_byte_len inner = n.

Lemma wrap_storage_allocated w p n bytes :
  0 < n → mem w !! p = Some bytes → world_wf (wrap_storage w p (n, CPU_ALIGN) n).1 →
  allocated (wrap_storage w p (n, CPU_ALIGN) n).1 (wrap_storage w p (n, CPU_ALIGN) n).2 n bytes.
Proof using Type.
  intros Hn Hp Hwf. split; [done|]. split; [done|]. unfold strong_count, as_bytes; simpl.
  rewrite lookup_insert_eq. split; [done|]. rewrite (proj2 (Z.eqb_neq n 0)) by lia. simpl.
  rewrite Hp. split; [done|]. by eexists.
Qed.

Lemma empty_cpu_allocated w : world_wf w →
  allocated (empty_cpu w).1 (empty_cpu w).2 0 [].
Proof using Type.
  intros Hwf. split; [by apply empty_cpu_wf|]. split; [done|].
  unfold strong_count; simpl. rewrite lookup_insert_eq. split; [done|]. split; [done|]. by eexists.
Qed.

Lemma zeroed_spec w n :
  world_wf w → 0 ≤ n →
  match zeroed oom w n with
  | Ok (w', s) => allocated w' s n (replicate (Z.to_nat n) 0)
  | Err _ => True
  | Panic => False
  end.
Proof using Type.
  intros Hwf Hn. unfold zeroed. destruct (Z.eqb_spec n 0) as [->|Hn0].
  { by apply empty_cpu_allocated. }
  unfold alloc_layout.
  destruct (2 ^ 63 - 1 - (CPU_ALIGN - 1) <? n); simpl; [done|].
  pose proof (replicate_zeros_len n Hn) as Hlen.
  destruct (try_acquire w (n, CPU_ALIGN)) as [[p|] w'] eqn:Hacq; simpl.
  - apply (wrap_storage_allocated (set_mem w' (<[p := _]> (mem w'))) p n); [lia| |].
    + simpl. apply lookup_insert_eq.
    + eapply (acquire_wf w); [done|lia|done|done].
  - pose proof (try_acquire_spec w (n, CPU_ALIGN) Hwf) as Hs. rewrite Hacq in Hs. subst w'.
    pose proof (sys_alloc_wf w n (replicate (Z.to_nat n) 0) Hwf ltac:(lia) Hlen) as Ha.
    destruct (sys_alloc _ _ _ _) as [[p w']|e|]; simpl; [|done|done].
    destruct Ha as (-> & Hmem & Hw').
    apply (wrap_storage_allocated w' (fresh w) n); [lia| |done]. rewrite Hmem. apply lookup_insert_eq.
Qed.

Lemma uninit_spec w n :
  world_wf w → 0 ≤ n →
  match uninit oom junk w n with
  | Ok (w', s) => ∃ bytes, Z.of_nat (length bytes) = n ∧ allocated w' s n bytes
  | Err _ => True
  | Panic => False
  end.
Proof using junk_len.
  intros Hwf Hn. unfold uninit. destruct (Z.eqb_spec n 0) as [->|Hn0].
  { exists []. split; [done|]. by apply empty_cpu_allocated. }
  unfold alloc_layout.
  destruct (2 ^ 63 - 1 - (CPU_ALIGN - 1) <? n); simpl; [done|].
  destruct (try_acquire w (n, CPU_ALIGN)) as [[p|] w'] eqn:Hacq; simpl.
  - pose proof (try_acquire_spec w (n, CPU_ALIGN) Hwf) as Hs. rewrite Hacq in Hs.
    destruct Hs as (_ & Hmem & _ & _ & _ & (bytes & Hb & Hlen) & _). simpl in Hlen.
    exists bytes. split; [done|].
    assert (set_mem w' (<[p := bytes]> (mem w')) = w') as Heq.
    { destruct w'; unfold set_mem; simpl in *. f_equal. subst. by apply insert_id. }
    apply (wrap_storage_allocated w' p n); [lia|by rewrite Hmem|]. rewrite <- Heq.
    eapply (acquire_wf w); [done|lia|done|done].
  - pose proof (try_acquire_spec w (n, CPU_ALIGN) Hwf) as Hs. rewrite Hacq in Hs. subst w'.
    pose proof (junk_len (fresh w) n Hn) as Hlen.
    pose proof (sys_alloc_wf w n (junk (fresh w) n) Hwf ltac:(lia) Hlen) as Ha.
    destruct (sys_alloc _ _ _ _) as [[p w']|e|]; simpl; [|done|done].
    destruct Ha as (-> & Hmem & Hw'). exists (junk (fresh w) n). split; [done|].
    apply (wrap_storage_allocated w' (fresh w) n); [lia| |done]. rewrite Hmem. apply lookup_insert_eq.
Qed.

(** The whole-buffer write that follows [uninit]. *)
Lemma fill_allocated w s n old bytes :
  0 < n → allocated w s n old → Z.of_nat (length bytes) = n →
  allocated (fill_buffer w s bytes) s n bytes.
Proof using Type.
  intros Hn (Hwf & Hl & Hc & _ & inner & Ha & Hil) Hlen. split.
  { eapply fill_buffer_wf; [done|exact Ha|lia|lia]. }
  unfold fill_buffer, strong_count, as_bytes. rewrite Ha. simpl. rewrite Ha, Hl.
  rewrite (proj2 (Z.eqb_neq n 0)) by lia. simpl. rewrite lookup_insert_eq.
  split_and!; [done|done|done|]. by exists inner.
Qed.

Lemma from_bytes_spec w bytes :
  world_wf w →
  match from_bytes oom junk w bytes with
  | Ok (w', s) => allocated w' s (Z.of_nat (length bytes)) bytes
  | Err _ => True
  | Panic => False
  end.
Proof using junk_len.
  intros Hwf. unfold from_bytes. set (n := Z.of_nat (length bytes)).
  destruct (Z.eqb_spec n 0) as [Hn0|Hn0].
  { unfold n in *. destruct bytes; [|simpl in Hn0; lia]. by apply empty_cpu_allocated. }
  pose proof (uninit_spec w n Hwf ltac:(lia)) as H.
  destruct (uninit oom junk w n) as [[w' s]|e|]; simpl; [|done|done].
  destruct H as (old & _ & Hall). eapply fill_allocated; [lia|exact Hall|done].
Qed.
End alloc_wf.

(** ** Reachable worlds *)

(** A handle that refers to a live [Arc]. *)
Definition handle (w : World) (s : CpuStorage) : Prop :=
  ∃ inner n, arcs w !! st_arc s = Some (inner, n) ∧ st_byte_len s = in_byte_len inner.

(** One call of an operation above on handles the program holds. *)
Inductive wstep (oom : Z → bool) (junk : Z → Z → list Z) : World → World → Prop :=
  | step_zeroed w n w' s : 0 ≤ n → zeroed oom w n = Ok (w', s) → wstep oom junk w w'
  | step_uninit w n w' s : 0 ≤ n → uninit oom junk w n = Ok (w', s) → wstep oom junk w w'
  | step_from_bytes w bytes w' s : from_bytes oom junk w bytes = Ok (w', s) → wstep oom junk w w'
  | step_clone w s : handle w s → wstep oom junk w (clone_storage w s)
  | step_drop w s : handle w s → wstep oom junk w (drop_storage w s)
  | step_write w s old bytes :
      handle w s → as_bytes_mut w s = Some old → length bytes = length old →
      wstep oom junk w (write_bytes w s bytes)
  | step_version w : wstep oom junk w (version_new w).1
  | step_bump w v : wstep oom junk w (bump w v).1.

Inductive reachable (oom : Z → bool) (junk : Z → Z → list Z) : World → Prop :=
  | reach_new : reachable oom junk World_new
  | reach_step w w' : reachable oom junk w → wstep oom junk w w' → reachable oom junk w'.

Lemma World_new_wf : world_wf World_new.
Proof.
  split; simpl; try done.
  - constructor.
  - intros p. unfold owners, live_ptrs, pooled_ptrs; simpl.
    rewrite !map_to_list_empty. simpl. set_solver.
Qed.

Lemma as_bytes_length w s inner n :
  world_wf w → arcs w !! st_arc s = Some (inner, n) → st_byte_len s = in_byte_len inner →
  Z.of_nat (length (as_bytes w s)) = in_byte_len inner.
Proof.
  intros Hwf Ha Hl. unfold as_bytes. rewrite Hl. destruct (Z.eqb_spec (in_byte_len inner) 0); [done|].
  rewrite Ha. destruct (wf_arc _ Hwf _ _ _ Ha) as (_ & _ & _ & Hi).
  destruct (Hi n0) as (_ & b & -> & ?). done.
Qed.

Lemma write_bytes_wf w s old bytes :
  world_wf w → handle w s → as_bytes_mut w s = Some old → length bytes = length old →
  world_wf (write_bytes w s bytes).
Proof.
  intros Hwf (inner & n & Ha & Hl) Hmut Hlen. unfold write_bytes, as_bytes_mut in *.
  destruct (Z.eqb_spec (st_byte_len s) 0) as [|Hn]; [done|].
  destruct (is_unique w s); [|done]. injection Hmut as <-.
  eapply fill_buffer_wf; [done|exact Ha|lia|]. rewrite Hlen. by eapply as_bytes_length.
Qed.

(** The counters share no state with the buffers. *)
Lemma version_step_wf w v :
  world_wf w → world_wf (version_new w).1 ∧ world_wf (bump w v).1.
Proof.
  intros Hwf. split; split; simpl; try apply Hwf.
  - intros a inner n Ha. destruct (wf_arc _ Hwf _ _ _ Ha) as (? & ? & ? & ?).
    split_and!; [done|done|lia|done].
  - intros p Hp%(wf_fresh _ Hwf). lia.
Qed.

Lemma wstep_wf oom junk w w' :
  (∀ p n, 0 ≤ n → Z.of_nat (length (junk p n)) = n) →
  world_wf w → wstep oom junk w w' → world_wf w'.
Proof.
  intros Hj Hwf Hs. destruct Hs as [w n w' s Hn H|w n w' s Hn H|w bytes w' s H|w s _|w s _
    |w s old bytes Hh Hm Hl|w|w v].
  - pose proof (zeroed_spec oom w n Hwf Hn) as Hz. rewrite H in Hz. apply Hz.
  - pose proof (uninit_spec oom junk Hj w n Hwf Hn) as Hz. rewrite H in Hz.
    destruct Hz as (? & _ & Hz). apply Hz.
  - pose proof (from_bytes_spec oom junk Hj w bytes Hwf) as Hz. rewrite H in Hz. apply Hz.
  - by apply clone_storage_wf.
  - by apply drop_storage_wf.
  - by eapply write_bytes_wf.
  - by apply (version_step_wf w 0).
  - by apply (version_step_wf w v).
Qed.

Lemma reachable_wf oom junk w :
  (∀ p n, 0 ≤ n → Z.of_nat (length (junk p n)) = n) → reachable oom junk w → world_wf w.
Proof. intros Hj. induction 1; [apply World_new_wf|by eapply wstep_wf]. Qed.

(** Writing through one storage leaves the others' bytes alone. *)
Lemma fill_buffer_other w s s' bytes inner n :
  world_wf w → arcs w !! st_arc s = Some (inner, n) → in_byte_len inner ≠ 0 →
  handle w s' → st_arc s' ≠ st_arc s → as_bytes (fill_buffer w s bytes) s' = as_bytes w s'.
Proof.
  intros Hwf Ha Hn (inner' & n' & Ha' & Hl') Hne. unfold as_bytes, fill_buffer.
  rewrite Ha. simpl. destruct (Z.eqb_spec (st_byte_len s') 0); [done|]. rewrite Ha'.
  rewrite lookup_insert_ne; [done|].
  destruct (wf_arc _ Hwf _ _ _ Ha) as (_ & ? & _), (wf_arc _ Hwf _ _ _ Ha') as (_ & ? & _).
  eapply (live_ptrs_distinct w); [done|exact Ha|exact Ha'|congruence|lia|lia].
Qed.

(** ** Properties *)

(** C15: in every state that allocating, cloning, dropping and writing storages
    can reach, no buffer has two owners among the live storages and the pool
    (no double free, no use of a recycled buffer), exactly the owned buffers
    are allocated (no leak), every storage's buffer has its length, and the
    pool respects its bounds: at most 16 buffers per layout and a byte count
    that is exact and within the 256 MiB budget. *)
Theorem storage_ownership oom junk w :
  (∀ p n, 0 ≤ n → Z.of_nat (length (junk p n)) = n) → reachable oom junk w →
  NoDup (owners w) ∧ (∀ p, p ∈ owners w ↔ p ∈ dom (mem w))
  ∧ (∀ s, handle w s → Z.of_nat (length (as_bytes w s)) = st_byte_len s)
  ∧ (∀ l stack, buckets (pool w) !! l = Some stack → (length stack ≤ PER_BUCKET_CAP)%nat)
  ∧ retained_bytes (pool w) = pooled_bytes (buckets (pool w))
  ∧ retained_bytes (pool w) ≤ POOL_BYTE_BUDGET.
Proof.
  intros Hj Hr. apply reachable_wf in Hr as Hwf; [|done]. split_and!; try apply Hwf.
  intros s (inner & n & Ha & Hl). rewrite Hl. by eapply as_bytes_length.
Qed.

(** [cpu_zeroed] returns zeros and [from_bytes] the given bytes whether the
    buffer is fresh or recycled from the pool, in a storage with reference
    count 1; the other storages keep their bytes. *)
Theorem storage_contents oom junk w bytes n :
  (∀ p n, 0 ≤ n → Z.of_nat (length (junk p n)) = n) → reachable oom junk w → 0 ≤ n →
  match zeroed oom w n with
  | Ok (w', s) => as_bytes w' s = replicate (Z.to_nat n) 0 ∧ strong_count w' s = 1
      ∧ st_byte_len s = n
  | Err _ => oom n = true ∨ 2 ^ 63 - CPU_ALIGN < n
  | Panic => False
  end
  ∧ match from_bytes oom junk w bytes with
    | Ok (w', s) => as_bytes w' s = bytes ∧ strong_count w' s = 1
        ∧ st_byte_len s = Z.of_nat (length bytes)
    | Err _ => True
    | Panic => False
    end.
Proof.
  intros Hj Hr Hn. apply reachable_wf in Hr as Hwf; [|done]. split.
  - pose proof (zeroed_spec oom w n Hwf Hn) as H.
    destruct (zeroed oom w n) as [[w' s]|e|] eqn:Hz; [|clear H|done].
    + destruct H as (_ & ? & ? & ? & _). done.
    + unfold zeroed, alloc_layout, sys_alloc in Hz. unfold CPU_ALIGN in *.
      destruct (Z.eqb_spec n 0); [done|].
      destruct (Z.ltb_spec (2 ^ 63 - 1 - (64 - 1)) n); [right; lia|]. simpl in Hz.
      destruct (try_acquire w (n, 64)) as [[|] ?]; [done|]. left.
      destruct (oom n); [done|]. done.
  - pose proof (from_bytes_spec oom junk Hj w bytes Hwf) as H.
    destruct (from_bytes oom junk w bytes) as [[w' s]|e|]; [|done|done].
    by destruct H as (_ & ? & ? & ? & _).
Qed.

(** mutable access is exclusive: [as_bytes_mut] gives the bytes only to a
    storage that is the unique handle of its buffer (or is empty), and writing
    them through it changes the bytes of no other storage. *)
Theorem storage_exclusive oom junk w s bytes old :
  (∀ p n, 0 ≤ n → Z.of_nat (length (junk p n)) = n) → reachable oom junk w → handle w s →
  as_bytes_mut w s = Some old → length bytes = length old →
  (st_byte_len s ≠ 0 → strong_count w s = 1 ∧ old = as_bytes w s
     ∧ as_bytes (write_bytes w s bytes) s = bytes)
  ∧ ∀ s', handle w s' → st_arc s' ≠ st_arc s →
      as_bytes (write_bytes w s bytes) s' = as_bytes w s'.
Proof.
  intros Hj Hr Hh Hmut Hlen. apply reachable_wf in Hr as Hwf; [|done].
  pose proof Hh as (inner & n & Ha & Hl). unfold as_bytes_mut, write_bytes in *.
  destruct (Z.eqb_spec (st_byte_len s) 0) as [H0|Hn].
  { split; [done|]. intros s' _ _. done. }
  destruct (is_unique w s) eqn:Hu; [|done]. injection Hmut as <-. split.
  - intros _. unfold is_unique in Hu. apply Z.eqb_eq in Hu. split_and!; [done|done|].
    unfold as_bytes, fill_buffer. rewrite Ha. simpl.
    rewrite (proj2 (Z.eqb_neq (st_byte_len s) 0)), Ha, lookup_insert_eq by done. done.
  - intros s' Hh' Hne. eapply fill_buffer_other; [done|exact Ha|lia|done|done].
Qed.

(** *** Witnesses *)

Definition no_oom (n : Z) : bool := false.
Definition ff_junk (p n : Z) : list Z := replicate (Z.to_nat n) 255.

Lemma ff_junk_len p n : 0 ≤ n → Z.of_nat (length (ff_junk p n)) = n.
Proof. intros. unfold ff_junk. rewrite length_replicate. lia. Qed.

(** Allocate four bytes, drop them (the pool retains the buffer), allocate
    again (the buffer is recycled) and clone. *)
Definition sample_storage (w : World) : World * CpuStorage :=
  match from_bytes no_oom ff_junk w [1; 2; 3; 4] with Ok ws => ws | _ => (w, mkCpuStorage 0 0) end.
Definition sample_world1 : World := (sample_storage World_new).1.
Definition sample_world2 : World :=
  drop_storage sample_world1 (sample_storage World_new).2.
Definition sample_world3 : World := (sample_storage sample_world2).1.
Definition sample_handle3 : CpuStorage := (sample_storage sample_world2).2.

Lemma sample_reachable : reachable no_oom ff_junk sample_world3.
Proof.
  eapply (reach_step _ _ sample_world2).
  - eapply (reach_step _ _ sample_world1).
    + eapply reach_step; [apply reach_new|].
      eapply (step_from_bytes _ _ _ [1; 2; 3; 4] _ (sample_storage World_new).2).
      vm_compute. reflexivity.
    + apply step_drop. eexists _, _. split; vm_compute; reflexivity.
  - eapply (step_from_bytes _ _ _ [1; 2; 3; 4] _ sample_handle3). vm_compute. reflexivity.
Qed.

Lemma storage_ownership_witness :
  owners sample_world3 = [1] ∧ NoDup (owners sample_world3).
Proof.
  split; [vm_compute; reflexivity|].
  apply (storage_ownership no_oom ff_junk sample_world3).
  - exact ff_junk_len.
  - exact sample_reachable.
Defined.

Lemma storage_contents_witness :
  ∃ w s, zeroed no_oom sample_world3 3 = Ok (w, s) ∧ as_bytes w s = [0; 0; 0].
Proof.
  destruct (storage_contents no_oom ff_junk sample_world3 [] 3 ff_junk_len sample_reachable)
    as [H _]; [lia|].
  destruct (zeroed no_oom sample_world3 3) as [[w s]|e|] eqn:Hz.
  - exists w, s. split; [reflexivity|]. exact (proj1 H).
  - exfalso. vm_compute in Hz. discriminate.
  - destruct H.
Defined.

Lemma storage_exclusive_witness :
  as_bytes (write_bytes sample_world3 sample_handle3 [9; 9; 9; 9]) sample_handle3 = [9; 9; 9; 9].
Proof.
  destruct (storage_exclusive no_oom ff_junk sample_world3 sample_handle3 [9; 9; 9; 9] [1; 2; 3; 4]
    ff_junk_len sample_reachable) as [H _].
  - eexists _, _. split; vm_compute; reflexivity.
  - vm_compute. reflexivity.
  - reflexivity.
  - apply H. vm_compute. discriminate.
Defined.

(** ** Frames: allocation disturbs no live storage *)
Definition extends (w w' : World) : Prop :=
  ∀ s, handle w s → handle w' s ∧ as_bytes w' s = as_bytes w s
    ∧ strong_count w' s = strong_count w s.

(** Dropping a storage leaves the others as they were. *)
Lemma drop_other w s s' : world_wf w → handle w s' → st_arc s' ≠ st_arc s →
  handle (drop_storage w s) s' ∧ as_bytes (drop_storage w s) s' = as_bytes w s'
  ∧ strong_count (drop_storage w s) s' = strong_count w s'.
Proof.
  intros Hwf (i & k & Hi & Hl) Hne. unfold drop_storage.
  destruct (arcs w !! st_arc s) as [[inner n]|] eqn:Ha; [|split_and!; [by exists i, k|done..]].
  assert (∀ w', arcs w' !! st_arc s' = Some (i, k) →
    (in_byte_len i ≠ 0 → mem w' !! in_ptr i = mem w !! in_ptr i) →
    handle w' s' ∧ as_bytes w' s' = as_bytes w s' ∧ strong_count w' s' = strong_count w s') as Hsame.
  { intros w' Ha' Hm. split; [by exists i, k|]. unfold as_bytes, strong_count. rewrite Ha', Hi.
    split; [|done]. destruct (Z.eqb_spec (st_byte_len s') 0); [done|]. by rewrite Hm by congruence. }
  destruct (n =? 1); [|apply Hsame; [simpl; by rewrite lookup_insert_ne|done]].
  assert (delete (st_arc s) (arcs w) !! st_arc s' = Some (i, k)) as Hd by (by rewrite lookup_delete_ne).
  unfold drop_inner. destruct (Z.ltb_spec 0 (in_byte_len inner)) as [Hlen|]; [|by apply Hsame].
  destruct (kept_arc w s inner n Hwf Ha Hlen _ _ _ Hd) as [_ Hp].
  unfold try_release. simpl. destruct (POOL_BYTE_BUDGET <? _); [|destruct (_ <=? _)%nat].
  - apply Hsame; [done|]. intros Hi0. simpl. apply lookup_delete_ne. intros He. by apply (Hp Hi0).
  - apply Hsame; [done|]. intros Hi0. simpl. apply lookup_delete_ne. intros He. by apply (Hp Hi0).
  - by apply Hsame.
Qed.

Lemma extends_refl w : extends w w.
Proof. done. Qed.

Lemma extends_trans w1 w2 w3 : extends w1 w2 → extends w2 w3 → extends w1 w3.
Proof.
  intros H12 H23 s Hs. destruct (H12 s Hs) as (Hs2 & Hb2 & Hc2).
  destruct (H23 s Hs2) as (? & ? & ?). split_and!; [done|congruence|congruence].
Qed.

Lemma new_arc_extends w inner :
  world_wf w → extends w (new_arc w inner).1.
Proof.
  intros Hwf s (i & n & Ha & Hl). destruct (wf_arc _ Hwf _ _ _ Ha) as (_ & _ & Hlt & _).
  assert (<[fresh w := (inner, 1)]> (arcs w) !! st_arc s = Some (i, n)) as Ha'.
  { rewrite lookup_insert_ne by lia. done. }
  unfold as_bytes, strong_count. simpl. rewrite Ha', Ha. split; [|done]. by exists i, n.
Qed.

(** Memory that no live storage owns may change. *)
Lemma set_mem_extends w w' p bytes :
  world_wf w → arcs w' = arcs w → mem w' = <[p := bytes]> (mem w) →
  p ∉ live_ptrs (arcs w) → extends w w'.
Proof.
  intros Hwf Harc Hmem Hp s (i & n & Ha & Hl).
  unfold handle, as_bytes, strong_count. rewrite Harc, Ha, Hmem.
  split_and!; [by exists i, n| |done]. destruct (Z.eqb_spec (st_byte_len s) 0); [done|].
  rewrite lookup_insert_ne; [done|]. intros ->. apply Hp, elem_of_live_ptrs.
  destruct (wf_arc _ Hwf _ _ _ Ha) as (_ & ? & _). exists (st_arc s), i, n.
  split_and!; [done|lia|done].
Qed.

Lemma version_new_extends w : extends w (version_new w).1.
Proof. intros s Hs. done. Qed.

Lemma uninit_extends oom junk w n w' s :
  world_wf w → uninit oom junk w n = Ok (w', s) →
  extends w w' ∧ (∀ s', handle w s' → st_arc s' ≠ st_arc s) ∧ versions w' = versions w.
Proof.
  intros Hwf. unfold uninit. destruct (Z.eqb_spec n 0).
  { intros [= <- <-]. split; [by apply new_arc_extends|]. split; [|done].
    intros s' (i & k & Ha & _). simpl. destruct (wf_arc _ Hwf _ _ _ Ha) as (_ & _ & ? & _). lia. }
  destruct (alloc_layout n) as [layout|e|]; simpl; [|done|done].
  pose proof (try_acquire_spec w layout Hwf) as Hacq.
  destruct (try_acquire w layout) as [[p|] w1]; simpl.
  - destruct Hacq as (Hown & Hmem & Harc & Hfr & Hver & _). intros [= <- <-].
    assert (extends w w1) as H1.
    { intros s' Hs'. unfold handle, as_bytes, strong_count. by rewrite Harc, Hmem. }
    assert (∀ s', handle w s' → st_arc s' < fresh w1) as Hlt.
    { intros s' (i & k & Ha & _). rewrite Hfr.
      by destruct (wf_arc _ Hwf _ _ _ Ha) as (_ & _ & ? & _). }
    split_and!.
    + intros s' Hs'. destruct (H1 s' Hs') as (Hs1 & Hb1 & Hc1). pose proof (Hlt s' Hs').
      unfold handle, as_bytes, strong_count in *. simpl.
      rewrite lookup_insert_ne by lia. done.
    + intros s' Hs'%Hlt. simpl. lia.
    + done.
  - subst w1. unfold sys_alloc. destruct (oom n); simpl; [done|]. intros [= <- <-].
    assert (∀ s', handle w s' → st_arc s' < fresh w) as Hlt.
    { intros s' (i & k & Ha & _). by destruct (wf_arc _ Hwf _ _ _ Ha) as (_ & _ & ? & _). }
    set (w1 := bump_fresh (set_mem w (<[fresh w := junk (fresh w) n]> (mem w)))).
    assert (extends w w1) as H1.
    { eapply (set_mem_extends w w1 (fresh w)); [done|done|done|].
      intros Hin. assert (fresh w ∈ owners w) as Hin' by (apply elem_of_app; by left).
      apply (wf_mem _ Hwf), (wf_fresh _ Hwf) in Hin'. lia. }
    split_and!.
    + intros s' Hs'. destruct (H1 s' Hs') as (Hs1 & Hb1 & Hc1). pose proof (Hlt s' Hs').
      unfold handle, as_bytes, strong_count in *. simpl in *.
      rewrite lookup_insert_ne by lia. done.
    + intros s' Hs'%Hlt. simpl. lia.
    + done.
Qed.

(** Writing the buffer of one handle keeps the others' views of the world. *)
Lemma fill_buffer_handles w s bytes s' :
  handle w s' → handle (fill_buffer w s bytes) s'
    ∧ strong_count (fill_buffer w s bytes) s' = strong_count w s'.
Proof.
  intros Hs. unfold fill_buffer, handle, strong_count in *.
  destruct (arcs w !! st_arc s) as [[i n]|]; done.
Qed.
