(* ===== verification/Tensor.v ===== *)
(** * Tensors (crates/rustorch-core/src/tensor/tensor_impl.rs: struct,
    constructors, accessors, typed slices, equality; convert.rs: shape-order
    iteration and [contiguous]; device.rs)

    A tensor is a handle on a storage, a layout and a version counter.  An
    element is its bit pattern, a [Z] of the dtype's width, stored little
    endian.  The GPU variants of the storage are not modelled: a tensor's
    storage is a CPU storage whatever its device tag. *)

From Stdlib Require Import ZArith Lia.
From stdpp Require Import base list gmap.
From S2P Require Import Prelude Dtype Shape Layout Storage.

(** [enum Device] *)
Inductive Device := Cpu | Wgpu | Metal | Cuda.

#[export] Instance Device_eq_dec : EqDecision Device.
Proof. solve_decision. Defined.

(** [struct Tensor] *)
Record Tensor := mkTensor {
  t_storage : CpuStorage;
  t_layout : Layout;
  t_version : Z;
  t_requires_grad : bool;
  t_device : Device
}.

(** [enum TensorError] *)
Inductive TensorError :=
  | ShapeDataMismatch (expected got : Z) (shape : list Z)
  | ShapeMismatch (lhs rhs : list Z)
  | DtypeMismatch (got expected : Dtype)
  | Aliased
  | TStorage (e : StorageError).

(** ** Elements and bytes *)

(** [slice::from_raw_parts(bytes as *const T, len / size_of::<T>())] *)
Definition elem_at (size : nat) (bytes : list Z) (i : nat) : Z :=
  le_decode (take size (drop (i * size) bytes)).
Definition typed_slice (size : nat) (bytes : list Z) : list Z :=
  elem_at size bytes <$> seq 0 (length bytes / size).

(** The bytes of a [Vec<T>]. *)
Definition encode_elems (size : nat) (data : list Z) : list Z := data ≫= le_encode size.

Definition elem_size (d : Dtype) : nat := Z.to_nat (Dtype_byte_size d).

(** ** Accessors *)
Definition t_shape (t : Tensor) : Shape := l_shape (t_layout t).
Definition t_dtype (t : Tensor) : Dtype := l_dtype (t_layout t).
Definition t_numel (t : Tensor) : Z := l_numel (t_layout t).
Definition t_is_contiguous (t : Tensor) : bool := is_contiguous (t_layout t).
Definition t_is_empty (t : Tensor) : bool := t_numel t =? 0.
Definition with_device (t : Tensor) (d : Device) : Tensor :=
  mkTensor (t_storage t) (t_layout t) (t_version t) (t_requires_grad t) d.
Definition requires_grad_ (t : Tensor) (flag : bool) : Tensor :=
  mkTensor (t_storage t) (t_layout t) (t_version t) flag (t_device t).

(** [Tensor::clone]: the storage's count goes up, the counter is shared. *)
Definition Tensor_clone (w : World) (t : Tensor) : World * Tensor :=
  (clone_storage w (t_storage t), t).

(** [Tensor::from_parts] on clones of a tensor's parts, as the views call it. *)
Definition share_with_layout (w : World) (t : Tensor) (l : Layout) : World * Tensor :=
  (clone_storage w (t_storage t),
   mkTensor (t_storage t) l (t_version t) (t_requires_grad t) Cpu).

(** [tensor_from_storage] *)
Definition tensor_from_storage (w : World) (s : CpuStorage) (l : Layout) : World * Tensor :=
  let wv := version_new w in (wv.1, mkTensor s l wv.2 false Cpu).

(** ** Construction *)
Section construct.
Context (oom : Z → bool) (junk : Z → Z → list Z).

(** [Tensor::from_vec_typed::<T, _>] for the element type of dtype [T] *)
Definition from_vec_typed (w : World) (T : Dtype) (shape : Shape) (data : list Z)
    : res TensorError (World * Tensor) :=
  let expected := Shape_numel shape in
  if negb (Z.of_nat (length data) =? expected) then
    Err (ShapeDataMismatch expected (Z.of_nat (length data)) shape)
  else
    let byte_len := wrap 64 (expected * Dtype_byte_size T) in
    let? ws := map_err TStorage (uninit oom junk w byte_len) in
    let w := if 0 <? byte_len then fill_buffer ws.1 ws.2 (encode_elems (elem_size T) data)
             else ws.1 in
    Ok (tensor_from_storage w ws.2 (Layout_contiguous shape T)).

(** [Tensor::zeros_dtype]; an allocation failure panics. *)
Definition zeros_dtype (w : World) (shape : Shape) (d : Dtype)
    : res TensorError (World * Tensor) :=
  let byte_len := wrap 64 (Shape_numel shape * Dtype_byte_size d) in
  let? ws := unwrap (zeroed oom w byte_len) in
  Ok (tensor_from_storage ws.1 ws.2 (Layout_contiguous shape d)).

(** [Tensor::ones]: 1.0_f32 is 0x3f800000 *)
Definition ones (w : World) (shape : Shape) : res TensorError (World * Tensor) :=
  unwrap (from_vec_typed w F32 shape (replicate (Z.to_nat (Shape_numel shape)) 0x3f800000)).

(** [Tensor::scalar] *)
Definition scalar (w : World) (v : Z) : res TensorError (World * Tensor) :=
  unwrap (from_vec_typed w F32 [] [v]).
End construct.

(** ** Typed slices *)

(** [Tensor::as_slice::<T>]; slicing to [numel] panics past the end. *)
Definition as_slice (w : World) (t : Tensor) (T : Dtype) : res TensorError (option (list Z)) :=
  if negb (bool_decide (t_dtype t = T)) || negb (t_is_contiguous t)
     || negb (l_offset (t_layout t) =? 0) then Ok None
  else
    let bytes := as_bytes w (t_storage t) in
    if bool_decide (bytes = []) && (0 <? t_numel t) then Ok None
    else
      let slice := typed_slice (elem_size T) bytes in
      if Z.of_nat (length slice) <? t_numel t then Panic
      else Ok (Some (take (Z.to_nat (t_numel t)) slice)).

(** [Tensor::to_vec] *)
Definition to_vec := as_slice.

(** [PartialEq for Tensor]; [feq] compares [f32] bit patterns. *)
Definition Tensor_eq (feq : Z → Z → bool) (w : World) (a b : Tensor)
    : res TensorError bool :=
  if negb (bool_decide (t_shape a = t_shape b)) || negb (bool_decide (t_dtype a = t_dtype b))
  then Ok false
  else
    let? sa := as_slice w a F32 in
    let? sb := as_slice w b F32 in
    match sa, sb with
    | Some xs, Some ys =>
        Ok ((length xs =? length ys)%nat && forallb (λ p, feq p.1 p.2) (zip xs ys))
    | _, _ => Ok false
    end.

(** ** Shape-order iteration *)

(** [Tensor::iter_elements::<T>] collected: [ShapeIter::next] at each index,
    which panics when the address is out of the slice. *)
Definition iter_elements (w : World) (t : Tensor) (T : Dtype)
    : res TensorError (option (list Z)) :=
  if negb (bool_decide (t_dtype t = T)) then Ok None
  else
    let raw := typed_slice (elem_size T) (as_bytes w (t_storage t)) in
    let? xs := rmapM (λ i,
        let? a := strided_index (Z.of_nat i) (t_shape t) (l_strides (t_layout t))
                    (l_offset (t_layout t)) in
        unwrap_opt (raw !! Z.to_nat a))
      (seq 0 (Z.to_nat (t_numel t))) in
    Ok (Some xs).

Section convert.
Context (oom : Z → bool) (junk : Z → Z → list Z).

(** [copy_to_contiguous::<T>] *)
Definition copy_to_contiguous (w : World) (src : Tensor) (T : Dtype)
    : res TensorError (World * Tensor) :=
  let? o := iter_elements w src T in
  let? collected := unwrap_opt o in
  unwrap (from_vec_typed oom junk w T (t_shape src) collected).

(** [Tensor::contiguous] *)
Definition contiguous (w : World) (t : Tensor) : res TensorError (World * Tensor) :=
  if t_is_contiguous t && (l_offset (t_layout t) =? 0) then Ok (Tensor_clone w t)
  else copy_to_contiguous w t (t_dtype t).

(** [Tensor::from_slice] *)
Definition from_slice := from_vec_typed oom junk.
End convert.

(** ** Specification *)

(** A layout whose every multi-index addresses one of [len] elements.  (The
    offset and strides of an empty layout and the stride of an axis of size 1
    may be anything: no address uses them.) *)
Record layout_in (len : Z) (l : Layout) : Prop := {
  li_wf : layout_wf l;
  li_fits : shape_fits (l_shape l);
  li_offset : 0 < zprod (l_shape l) → 0 ≤ l_offset l < 2 ^ 63;
  li_strides : 0 < zprod (l_shape l) →
    Forall2 (λ d s, 1 < d → 0 ≤ s < 2 ^ 63) (l_shape l) (l_strides l);
  li_len : 0 ≤ len < 2 ^ 63;
  li_bound : ∀ idx, in_range (l_shape l) idx → address l idx < len
}.

(** A tensor whose layout stays inside its storage, which holds bytes. *)
Definition tensor_wf (w : World) (t : Tensor) : Prop :=
  world_wf w ∧ handle w (t_storage t)
  ∧ layout_in (st_byte_len (t_storage t) / Dtype_byte_size (t_dtype t)) (t_layout t)
  ∧ Forall is_byte (as_bytes w (t_storage t)).

(** The element at a multi-index, and all elements in shape order. *)
Definition element (w : World) (t : Tensor) (idx : list Z) : Z :=
  elem_at (elem_size (t_dtype t)) (as_bytes w (t_storage t))
    (Z.to_nat (address (t_layout t) idx)).
Definition shape_order (w : World) (t : Tensor) : list Z :=
  (λ i, element w t (unravel (t_shape t) (Z.of_nat i))) <$> seq 0 (Z.to_nat (zprod (t_shape t))).

(** ** Lemmas *)

(** *** Elements *)

Lemma elem_size_Z d : Z.of_nat (elem_size d) = Dtype_byte_size d.
Proof. by destruct d. Qed.

Lemma elem_size_pos d : (0 < elem_size d)%nat.
Proof. by destruct d; vm_compute; lia. Qed.

Lemma byte_size_pos d : 1 ≤ Dtype_byte_size d ≤ 8.
Proof. by destruct d; vm_compute; split. Qed.

Lemma length_encode_elems k data : length (encode_elems k data) = (length data * k)%nat.
Proof.
  unfold encode_elems. induction data as [|x data IH]; [done|]. csimpl.
  rewrite length_app, length_le_encode, IH. lia.
Qed.

Lemma elem_at_encode k data i x :
  data !! i = Some x → elem_at k (encode_elems k data) i = x mod 2 ^ (8 * Z.of_nat k).
Proof.
  unfold elem_at, encode_elems. revert i. induction data as [|y data IH]; intros [|i]; csimpl; try done.
  - intros [= ->]. rewrite drop_0, take_app_length' by (by rewrite length_le_encode).
    apply le_decode_encode.
  - intros Hi. rewrite <- (IH i Hi). f_equal. f_equal.
    rewrite drop_app_ge by (rewrite length_le_encode; lia). rewrite length_le_encode.
    f_equal. lia.
Qed.

Lemma typed_slice_lookup k bytes i :
  (i < length bytes / k)%nat → typed_slice k bytes !! i = Some (elem_at k bytes i).
Proof.
  intros Hi. unfold typed_slice. rewrite list_lookup_fmap, (proj2 (lookup_seq _ _ _ i)); [done|].
  split; [lia|done].
Qed.

Lemma length_typed_slice k bytes : length (typed_slice k bytes) = (length bytes / k)%nat.
Proof. unfold typed_slice. by rewrite length_fmap, length_seq. Qed.

Definition elems_wf (d : Dtype) (data : list Z) : Prop :=
  Forall (uint (8 * Dtype_byte_size d)) data.

Lemma typed_slice_encode d data :
  elems_wf d data → typed_slice (elem_size d) (encode_elems (elem_size d) data) = data.
Proof.
  intros Hwf. pose proof (elem_size_pos d).
  assert (length (encode_elems (elem_size d) data) / elem_size d = length data)%nat as Hlen
    by (rewrite length_encode_elems, Nat.div_mul; lia).
  apply list_eq_same_length with (length data); [done|by rewrite length_typed_slice|].
  intros i x y Hi Hx Hy. rewrite typed_slice_lookup in Hx by lia. injection Hx as <-.
  rewrite (elem_at_encode _ _ _ _ Hy), elem_size_Z. apply Z.mod_small.
  unfold elems_wf in Hwf. rewrite Forall_forall in Hwf. apply (Hwf y).
  by eapply list_elem_of_lookup_2.
Qed.

Lemma encode_elems_bytes k data : Forall is_byte (encode_elems k data).
Proof.
  unfold encode_elems. induction data as [|x data IH]; csimpl; [constructor|].
  apply Forall_app. split; [apply le_encode_bytes|done].
Qed.

Lemma elem_at_uint d bytes i :
  Forall is_byte bytes → uint (8 * Dtype_byte_size d) (elem_at (elem_size d) bytes i).
Proof.
  intros Hb. unfold elem_at, uint.
  assert (Forall is_byte (take (elem_size d) (drop (i * elem_size d) bytes))) as Hf
    by (by apply Forall_take, Forall_drop).
  pose proof (le_decode_bound _ Hf) as [? Hlt]. split; [done|]. eapply Z.lt_le_trans; [exact Hlt|].
  apply Z.pow_le_mono_r; [lia|]. rewrite <- elem_size_Z, length_take. lia.
Qed.

Lemma shape_order_wf w t :
  Forall is_byte (as_bytes w (t_storage t)) → elems_wf (t_dtype t) (shape_order w t).
Proof.
  intros Hb. unfold elems_wf, shape_order. apply Forall_fmap, Forall_forall. intros i _.
  by apply elem_at_uint.
Qed.

Lemma length_shape_order w t : length (shape_order w t) = Z.to_nat (zprod (t_shape t)).
Proof. unfold shape_order. by rewrite length_fmap, length_seq. Qed.

(** *** Iteration *)

Lemma dot_nonneg s ss idx :
  in_range s idx → Forall2 (λ d x, 1 < d → 0 ≤ x < 2 ^ 63) s ss → 0 ≤ dot idx ss.
Proof.
  intros Hr. revert ss. induction Hr as [|d j s idx Hj _ IH]; intros ss Hss;
    inversion Hss as [|? x ? ss' Hx Hss']; subst; [done|].
  rewrite dot_cons. specialize (IH _ Hss'). destruct (decide (1 < d)); [specialize (Hx l); nia|].
  assert (j = 0) as -> by lia. lia.
Qed.

(** The address the decoding loop computes for an index of the tensor. *)
Lemma layout_in_strided {E} len l i :
  layout_in len l → 0 ≤ i < zprod (l_shape l) →
  @strided_index E i (l_shape l) (l_strides l) (l_offset l)
    = Ok (address l (unravel (l_shape l) i))
  ∧ in_range (l_shape l) (unravel (l_shape l) i)
  ∧ 0 ≤ address l (unravel (l_shape l) i) < len.
Proof.
  intros Hl Hi. destruct (li_wf _ _ Hl) as (Hwf & Hlen & _).
  assert (Forall (λ d, 0 < d) (l_shape l)) as Hpos.
  { apply zprod_pos; [lia|by apply shape_wf_nonneg]. }
  pose proof (unravel_range _ _ Hpos Hi) as Hr.
  pose proof (li_bound _ _ Hl _ Hr) as Hb.
  pose proof (dot_nonneg _ _ _ Hr (li_strides _ _ Hl ltac:(lia))) as Hdot.
  pose proof (li_offset _ _ Hl ltac:(lia)). pose proof (li_len _ _ Hl). unfold address in *.
  split_and!; [|done|lia|lia].
  rewrite strided_index_dot by done. f_equal. apply wrap_small. unfold uint. lia.
Qed.

Lemma t_numel_fits w t : tensor_wf w t → t_numel t = zprod (t_shape t).
Proof. intros (_ & _ & Hl & _). apply Shape_numel_fits, (li_fits _ _ Hl). Qed.

Lemma handle_as_bytes_length w s :
  world_wf w → handle w s → Z.of_nat (length (as_bytes w s)) = st_byte_len s.
Proof. intros Hwf (i & n & Ha & Hl). rewrite Hl. by eapply as_bytes_length. Qed.

Lemma handle_typed_length w s d :
  world_wf w → handle w s →
  Z.of_nat (length (typed_slice (elem_size d) (as_bytes w s))) = st_byte_len s / Dtype_byte_size d.
Proof.
  intros Hwf Hh. rewrite length_typed_slice, Nat2Z.inj_div, elem_size_Z.
  by rewrite handle_as_bytes_length.
Qed.

Lemma iter_elements_spec w t :
  tensor_wf w t → iter_elements w t (t_dtype t) = Ok (Some (shape_order w t)).
Proof.
  intros Hwf. pose proof Hwf as (Hw & Hh & Hl & Hbs). unfold iter_elements.
  rewrite bool_decide_eq_true_2 by done. simpl. rewrite (t_numel_fits w t Hwf).
  erewrite rmapM_seq; [done|]. intros i _ Hi. simpl.
  destruct (@layout_in_strided TensorError _ _ (Z.of_nat i) Hl) as (Hs & _ & Hb).
  { unfold t_shape in Hi. lia. }
  unfold t_shape in *. rewrite Hs. simpl. rewrite typed_slice_lookup; [done|].
  rewrite <- length_typed_slice. apply Nat2Z.inj_lt.
  rewrite handle_typed_length by done. lia.
Qed.

(** A contiguous layout with no offset enumerates the slice itself. *)
Lemma shape_order_contiguous w t n :
  shape_fits (t_shape t) → l_offset (t_layout t) = 0 →
  (∀ idx, in_range (t_shape t) idx → address (t_layout t) idx = ravel (t_shape t) idx) →
  n = Z.to_nat (zprod (t_shape t)) →
  (n ≤ length (typed_slice (elem_size (t_dtype t)) (as_bytes w (t_storage t))))%nat →
  take n (typed_slice (elem_size (t_dtype t)) (as_bytes w (t_storage t))) = shape_order w t.
Proof.
  intros Hf Ho Haddr -> Hlen. unfold shape_order.
  apply list_eq_same_length with (Z.to_nat (zprod (t_shape t))).
  { by rewrite length_fmap, length_seq. }
  { rewrite length_take. lia. }
  intros i x y Hi Hx Hy. rewrite lookup_take_lt in Hx by done.
  rewrite typed_slice_lookup in Hx by (rewrite <- length_typed_slice; lia).
  rewrite list_lookup_fmap, (proj2 (lookup_seq _ _ _ i)) in Hy by (split; [lia|done]).
  simpl in *. injection Hx as <-. injection Hy as <-. unfold element.
  pose proof (shape_fits_prod _ Hf).
  assert (Forall (λ d, 0 < d) (t_shape t)) as Hpos.
  { apply zprod_pos; [lia|]. destruct Hf. by apply shape_wf_nonneg. }
  rewrite Haddr by (apply unravel_range; [done|lia]). rewrite ravel_unravel by (done || lia).
  by rewrite Nat2Z.id.
Qed.

Lemma layout_in_contiguous s d len :
  shape_fits s → zprod s ≤ len < 2 ^ 63 → layout_in len (Layout_contiguous s d).
Proof.
  intros Hs Hlen. split; simpl.
  - apply Layout_contiguous_wf, Hs.
  - done.
  - lia.
  - intros _. rewrite compute_contiguous_strides_prods by done. clear -Hs.
    induction s as [|x s IH]; simpl; [constructor|].
    apply shape_fits_cons in Hs as (_ & _ & Hs). constructor; [|auto].
    intros _. by apply shape_fits_prod.
  - pose proof (shape_fits_prod _ Hs). lia.
  - intros idx Hr. unfold address; simpl. rewrite compute_contiguous_strides_prods by done.
    rewrite dot_suffix_prods by (by apply in_range_length).
    pose proof (ravel_bound _ _ Hr). lia.
Qed.

(** *** Construction *)

Section construct_lemmas.
Context (oom : Z → bool) (junk : Z → Z → list Z).
Hypothesis junk_len : ∀ p n, 0 ≤ n → Z.of_nat (length (junk p n)) = n.

Lemma tensor_from_storage_wf w s shape d :
  world_wf w → handle w s → Forall is_byte (as_bytes w s) → shape_fits shape →
  zprod shape ≤ st_byte_len s / Dtype_byte_size d < 2 ^ 63 →
  tensor_wf (tensor_from_storage w s (Layout_contiguous shape d)).1
            (tensor_from_storage w s (Layout_contiguous shape d)).2.
Proof using Type.
  intros Hwf Hh Hbs Hs Hlen. split_and!.
  - by apply (version_step_wf w 0).
  - exact Hh.
  - apply layout_in_contiguous; [done|]. simpl. done.
  - exact Hbs.
Qed.

(** The tensor [from_vec_typed] builds. *)
Definition fresh_tensor (w w' : World) (t : Tensor) (T : Dtype) (shape : Shape)
    (data : list Z) : Prop :=
  tensor_wf w' t ∧ t_dtype t = T ∧ t_shape t = shape ∧ t_layout t = Layout_contiguous shape T
  ∧ strong_count w' (t_storage t) = 1 ∧ current w' (t_version t) = 0
  ∧ t_requires_grad t = false ∧ t_device t = Cpu
  ∧ shape_order w' t = data ∧ as_slice w' t T = Ok (Some data)
  ∧ extends w w' ∧ ∀ s, handle w s → st_arc s ≠ st_arc (t_storage t).

Lemma as_slice_spec w t :
  tensor_wf w t → t_is_contiguous t = true → l_offset (t_layout t) = 0 →
  as_slice w t (t_dtype t) = Ok (Some (shape_order w t)).
Proof using Type.
  intros Hwf Hc Ho. pose proof Hwf as (Hw & Hh & Hl & Hbs). pose proof (li_fits _ _ Hl) as Hf.
  pose proof (t_numel_fits w t Hwf) as Hnum. pose proof (shape_fits_prod _ Hf) as Hprod.
  fold (t_shape t) in *.
  pose proof (contiguous_flag_address _ (li_wf _ _ Hl) Hf) as Hci.
  assert (∀ idx, in_range (t_shape t) idx → address (t_layout t) idx = ravel (t_shape t) idx)
    as Haddr.
  { intros idx Hr. rewrite (proj1 Hci Hc idx Hr), Ho. done. }
  pose proof (handle_typed_length w _ (t_dtype t) Hw Hh) as Htl.
  assert (zprod (t_shape t) ≤ st_byte_len (t_storage t) / Dtype_byte_size (t_dtype t)) as Hfit.
  { destruct (decide (zprod (t_shape t) = 0)) as [->|Hne].
    { rewrite <- Htl. lia. }
    destruct (@layout_in_strided TensorError _ _ (zprod (t_shape t) - 1) Hl)
      as (_ & Hr & _ & Hb); [unfold t_shape in *; lia|].
    fold (t_shape t) in *. rewrite Haddr, ravel_unravel in Hb; [lia| |lia|done].
    apply zprod_pos; [lia|]. destruct Hf. by apply shape_wf_nonneg. }
  unfold as_slice. rewrite bool_decide_eq_true_2, Hc, Ho by done. simpl.
  replace (bool_decide (as_bytes w (t_storage t) = []) && (0 <? t_numel t)) with false.
  2: { symmetry. apply andb_false_iff. destruct (Z.ltb_spec 0 (t_numel t)); [left|by right].
    apply bool_decide_eq_false. intros Hnil. rewrite Hnil in Htl. unfold typed_slice in Htl.
    simpl in Htl. rewrite Nat.Div0.div_0_l in Htl. simpl in Htl. lia. }
  rewrite (proj2 (Z.ltb_ge _ _)) by lia. do 2 f_equal.
  apply shape_order_contiguous; [done|done|done|by rewrite Hnum|lia].
Qed.

Lemma from_vec_typed_spec w T shape data :
  world_wf w → shape_fits shape → zprod shape * Dtype_byte_size T < 2 ^ 63 →
  elems_wf T data →
  match from_vec_typed oom junk w T shape data with
  | Ok (w', t) => Z.of_nat (length data) = zprod shape ∧ fresh_tensor w w' t T shape data
  | Err (ShapeDataMismatch e g s) =>
      e = zprod shape ∧ g = Z.of_nat (length data) ∧ s = shape ∧ e ≠ g
  | Err (TStorage _) => Z.of_nat (length data) = zprod shape
  | _ => False
  end.
Proof using junk_len.
  intros Hwf Hs Hmax Hdata. unfold from_vec_typed. rewrite Shape_numel_fits by done.
  destruct (Z.eqb_spec (Z.of_nat (length data)) (zprod shape)) as [Hlen|Hne]; simpl; [|done].
  pose proof (shape_fits_prod _ Hs) as Hp. pose proof (byte_size_pos T) as Hb.
  rewrite wrap_small by (unfold uint; nia).
  set (n := zprod shape * Dtype_byte_size T) in *.
  pose proof (uninit_spec oom junk junk_len w n Hwf ltac:(lia)) as Hun.
  destruct (uninit oom junk w n) as [[w1 s]|e|] eqn:Hu; simpl; [|done|done].
  destruct Hun as (old & Holen & Hal).
  destruct (uninit_extends _ _ _ _ _ _ Hwf Hu) as (Hext & Hnew & _).
  set (w2 := if 0 <? n then fill_buffer w1 s (encode_elems (elem_size T) data) else w1).
  assert (allocated w2 s n (encode_elems (elem_size T) data) ∧ extends w w2) as [Hal2 Hext2].
  { unfold w2. destruct (Z.ltb_spec 0 n) as [Hpos|Hz].
    - assert (Z.of_nat (length (encode_elems (elem_size T) data)) = n) as Hel.
      { rewrite length_encode_elems, Nat2Z.inj_mul, elem_size_Z. lia. }
      split; [by eapply fill_allocated|]. intros s' Hs'.
      destruct (Hext s' Hs') as (Hs1 & Hb1 & Hc1).
      destruct (fill_buffer_handles w1 s (encode_elems (elem_size T) data) s' Hs1) as [? Hc2].
      split_and!; [done| |congruence]. rewrite <- Hb1.
      destruct Hal as (Hw1 & _ & _ & _ & inner & Ha & Hil).
      eapply fill_buffer_other; [done|exact Ha|lia|done|by apply Hnew].
    - assert (n = 0) as Hn0 by lia. assert (data = []) as ->.
      { destruct data; [done|]. simpl in Hlen. nia. }
      rewrite Hn0 in *. destruct old; [|simpl in Holen; lia]. done. }
  destruct Hal2 as (Hw2 & Hsl & Hcnt & Hby & inner & Ha & Hil).
  assert (handle w2 s) as Hh by (exists inner, 1; by rewrite Hil).
  assert (st_byte_len s / Dtype_byte_size T = zprod shape) as Hdiv.
  { rewrite Hsl. unfold n. apply Z.div_mul. lia. }
  pose proof (tensor_from_storage_wf w2 s shape T Hw2 Hh
    ltac:(rewrite Hby; apply encode_elems_bytes) Hs ltac:(lia)) as Htw.
  split; [done|]. unfold fresh_tensor.
  set (t := (tensor_from_storage w2 s (Layout_contiguous shape T)).2) in *.
  set (w3 := (tensor_from_storage w2 s (Layout_contiguous shape T)).1) in *.
  assert (as_bytes w3 s = encode_elems (elem_size T) data) as Hby3 by exact Hby.
  assert (shape_order w3 t = data) as Hso.
  { rewrite <- (shape_order_contiguous w3 t (length data)); simpl.
    - rewrite Hby3, typed_slice_encode by done. by rewrite take_ge.
    - done.
    - done.
    - intros idx Hr. by apply Layout_contiguous_address.
    - unfold t_shape; simpl. lia.
    - rewrite Hby3, typed_slice_encode by done. lia. }
  split_and!; try done.
  - unfold current; simpl. by rewrite lookup_insert_eq.
  - rewrite <- Hso. by apply (as_slice_spec w3 t Htw).
Qed.

Lemma clone_storage_frame w s : world_wf w →
  ∀ s', handle w s' → handle (clone_storage w s) s' ∧ as_bytes (clone_storage w s) s' = as_bytes w s'.
Proof using Type.
  intros Hwf s' (i & n & Ha & Hl). unfold clone_storage, handle, as_bytes.
  destruct (arcs w !! st_arc s) as [[j m]|] eqn:Hs; simpl; [|rewrite Ha; split; [by exists i, n|done]].
  destruct (decide (st_arc s = st_arc s')) as [He|Hne].
  - rewrite He in *. rewrite lookup_insert_eq. rewrite Ha in *. simplify_eq.
    split; [by exists j, (m + 1)|done].
  - rewrite lookup_insert_ne, Ha by done. split; [by exists i, n|done].
Qed.

Lemma element_frame w w' t : as_bytes w' (t_storage t) = as_bytes w (t_storage t) →
  shape_order w' t = shape_order w t.
Proof using Type.
  intros Hb. unfold shape_order, element. by rewrite Hb.
Qed.

Lemma Tensor_clone_wf w t : tensor_wf w t →
  tensor_wf (Tensor_clone w t).1 t ∧ shape_order (Tensor_clone w t).1 t = shape_order w t.
Proof using Type.
  intros (Hw & Hh & Hl & Hb). unfold Tensor_clone; simpl.
  destruct (clone_storage_frame w (t_storage t) Hw (t_storage t) Hh) as [Hh' Hb'].
  split; [|by apply element_frame]. split_and!; [by apply clone_storage_wf|done|done|].
  by rewrite Hb'.
Qed.

(** When memory suffices the construction succeeds. *)
Lemma from_vec_typed_ok w T shape data :
  world_wf w → shape_fits shape → zprod shape * Dtype_byte_size T ≤ 2 ^ 63 - CPU_ALIGN →
  elems_wf T data → (∀ n, oom n = false) → Z.of_nat (length data) = zprod shape →
  ∃ w' t, from_vec_typed oom junk w T shape data = Ok (w', t)
    ∧ fresh_tensor w w' t T shape data.
Proof using junk_len.
  intros Hw Hs Hmax Hd Hoom Hlen. unfold CPU_ALIGN in *.
  pose proof (from_vec_typed_spec w T shape data Hw Hs ltac:(lia) Hd) as Hf.
  pose proof (shape_fits_prod _ Hs) as Hp. pose proof (byte_size_pos T) as Hb.
  destruct (from_vec_typed oom junk w T shape data) as [[w' t]|[e g s| | | |e]|] eqn:Hfv;
    simpl; try done.
  - exists w', t. split; [done|]. apply Hf.
  - exfalso. destruct Hf as (-> & -> & _ & Hne). by apply Hne.
  - exfalso. unfold from_vec_typed in Hfv. rewrite Shape_numel_fits in Hfv by done.
    rewrite (proj2 (Z.eqb_eq _ _) Hf) in Hfv. simpl in Hfv.
    rewrite wrap_small in Hfv by (unfold uint; nia).
    unfold uninit, alloc_layout, sys_alloc, CPU_ALIGN in Hfv.
    destruct (Z.eqb_spec (zprod shape * Dtype_byte_size T) 0); [done|].
    rewrite (proj2 (Z.ltb_ge _ _)) in Hfv by lia. simpl in Hfv.
    destruct (try_acquire w _) as [[p|] w1]; simpl in Hfv; [done|].
    by rewrite Hoom in Hfv.
Qed.

(** What [contiguous] returns. *)
Definition contiguous_copy (w : World) (t : Tensor) (w' : World) (c : Tensor) : Prop :=
  tensor_wf w' c ∧ t_is_contiguous c = true ∧ l_offset (t_layout c) = 0
  ∧ t_shape c = t_shape t ∧ t_dtype c = t_dtype t
  ∧ shape_order w' c = shape_order w t
  ∧ as_slice w' c (t_dtype c) = Ok (Some (shape_order w t)).

Lemma contiguous_spec w t :
  tensor_wf w t → zprod (t_shape t) * Dtype_byte_size (t_dtype t) < 2 ^ 63 →
  (∀ n, oom n = false) →
  zprod (t_shape t) * Dtype_byte_size (t_dtype t) ≤ 2 ^ 63 - CPU_ALIGN →
  ∃ w' c, contiguous oom junk w t = Ok (w', c) ∧ contiguous_copy w t w' c.
Proof using junk_len.
  intros Hwf Hmax Hoom Hal. pose proof Hwf as (Hw & Hh & Hl & Hbs). unfold contiguous.
  destruct (t_is_contiguous t && (l_offset (t_layout t) =? 0)) eqn:Hc.
  - apply andb_true_iff in Hc as [Hc Ho%Z.eqb_eq].
    destruct (Tensor_clone_wf w t Hwf) as [Hwf' Hso].
    eexists _, _. split; [done|]. unfold contiguous_copy. split_and!; try done.
    rewrite <- Hso. exact (as_slice_spec _ t Hwf' Hc Ho).
  - unfold copy_to_contiguous. rewrite (iter_elements_spec w t Hwf). simpl.
    pose proof (shape_fits_prod _ (li_fits _ _ Hl)).
    destruct (from_vec_typed_ok w (t_dtype t) (t_shape t) (shape_order w t) Hw
      (li_fits _ _ Hl) Hal (shape_order_wf w t Hbs) Hoom) as (w' & c & -> & Hf).
    { rewrite length_shape_order. unfold t_shape. lia. }
    destruct Hf as (Hct & Hd & Hs & Hlay & _ & _ & _ & _ & Hso & Hsl & _).
    exists w', c. split; [done|]. unfold contiguous_copy. rewrite Hd, Hs.
    split_and!; try done; unfold t_is_contiguous; by rewrite Hlay.
Qed.
End construct_lemmas.

(** ** Properties *)

(** constructing a tensor from typed data and reading it back is the
    identity, through the borrowed slice and through shape-order iteration;
    the tensor is contiguous at offset 0, owns a fresh buffer with count 1 and
    a fresh version counter at 0, and no existing storage changes.  A length
    other than the shape's element count is [ShapeDataMismatch]. *)
Theorem from_vec_roundtrip oom junk w T shape data :
  (∀ p n, 0 ≤ n → Z.of_nat (length (junk p n)) = n) →
  world_wf w → shape_fits shape → zprod shape * Dtype_byte_size T < 2 ^ 63 →
  elems_wf T data →
  match from_vec_typed oom junk w T shape data with
  | Ok (w', t) =>
      Z.of_nat (length data) = zprod shape ∧ t_layout t = Layout_contiguous shape T
      ∧ as_slice w' t T = Ok (Some data) ∧ iter_elements w' t T = Ok (Some data)
      ∧ strong_count w' (t_storage t) = 1 ∧ current w' (t_version t) = 0
      ∧ tensor_wf w' t ∧ extends w w'
  | Err (ShapeDataMismatch e g s) =>
      e = zprod shape ∧ g = Z.of_nat (length data) ∧ s = shape ∧ e ≠ g
  | Err (TStorage _) => Z.of_nat (length data) = zprod shape
  | _ => False
  end.
Proof.
  intros Hj Hw Hs Hmax Hd. pose proof (from_vec_typed_spec oom junk Hj w T shape data Hw Hs Hmax Hd) as H.
  destruct (from_vec_typed oom junk w T shape data) as [[w' t]|e|]; [|exact H|done].
  destruct H as (Hlen & Hwf & HT & Hsh & Hlay & Hc & Hv & _ & _ & Hso & Hsl & Hext & _).
  split_and!; try done. rewrite <- HT, <- Hso. by apply iter_elements_spec.
Qed.

(** [contiguous] materialises any strided tensor in shape order: the result
    is contiguous at offset 0, has the shape and dtype of the source, and its
    slice holds the source's elements in row-major order of their
    multi-indices.  No index is out of bounds and, memory permitting, the call
    does not panic. *)
Theorem contiguous_correct oom junk w t :
  (∀ p n, 0 ≤ n → Z.of_nat (length (junk p n)) = n) → (∀ n, oom n = false) →
  tensor_wf w t → zprod (t_shape t) * Dtype_byte_size (t_dtype t) ≤ 2 ^ 63 - CPU_ALIGN →
  ∃ w' c, contiguous oom junk w t = Ok (w', c)
    ∧ is_contiguous (t_layout c) = true ∧ l_offset (t_layout c) = 0
    ∧ t_shape c = t_shape t ∧ t_dtype c = t_dtype t
    ∧ as_slice w' c (t_dtype c) = Ok (Some (shape_order w t)) ∧ tensor_wf w' c.
Proof.
  intros Hj Hoom Hwf Hmax. unfold CPU_ALIGN in *.
  destruct (contiguous_spec oom junk Hj w t Hwf ltac:(lia) Hoom Hmax)
    as (w' & c & Hc & Hwf' & Hct & Ho & Hs & Hd & _ & Hsl).
  exists w', c. split_and!; done.
Qed.

(** *** Witnesses *)

(** The 2x3 tensor 1..6 of [I32] and its transpose. *)
Definition t23 : World * Tensor :=
  match from_vec_typed no_oom ff_junk World_new I32 [2; 3] [1; 2; 3; 4; 5; 6] with
  | Ok wt => wt
  | _ => (World_new, mkTensor (mkCpuStorage 0 0) (Layout_contiguous [] F32) 0 false Cpu)
  end.
Definition t23_transposed : World * Tensor :=
  share_with_layout t23.1 t23.2 (mkLayout [3; 2] [1; 3] 0 I32 false).

Lemma t23_fits : shape_fits [2; 3].
Proof. split; [repeat constructor; vm_compute; congruence|vm_compute; reflexivity]. Qed.

Lemma t23_elems : elems_wf I32 [1; 2; 3; 4; 5; 6].
Proof. repeat constructor; vm_compute; congruence. Qed.

Lemma from_vec_roundtrip_witness :
  ∃ w t, from_vec_typed no_oom ff_junk World_new I32 [2; 3] [1; 2; 3; 4; 5; 6] = Ok (w, t)
    ∧ as_slice w t I32 = Ok (Some [1; 2; 3; 4; 5; 6]).
Proof.
  pose proof (from_vec_roundtrip no_oom ff_junk World_new I32 [2; 3] [1; 2; 3; 4; 5; 6]
    ff_junk_len World_new_wf t23_fits ltac:(vm_compute; reflexivity) t23_elems) as H.
  destruct (from_vec_typed no_oom ff_junk World_new I32 [2; 3] [1; 2; 3; 4; 5; 6])
    as [[w t]|e|] eqn:Hf; [|vm_compute in Hf; discriminate..].
  exists w, t. split; [reflexivity|]. exact (proj1 (proj2 (proj2 H))).
Defined.

Lemma t23_wf : tensor_wf t23.1 t23.2.
Proof.
  pose proof (from_vec_typed_spec no_oom ff_junk ff_junk_len World_new I32 [2; 3] [1; 2; 3; 4; 5; 6]
    World_new_wf t23_fits ltac:(vm_compute; reflexivity) t23_elems) as H.
  unfold t23. destruct (from_vec_typed no_oom ff_junk World_new I32 [2; 3] [1; 2; 3; 4; 5; 6])
    as [[w t]|e|] eqn:Hf; [apply H|vm_compute in Hf; discriminate..].
Qed.

Lemma transposed_wf w t :
  tensor_wf w t → t_layout t = Layout_contiguous [2; 3] I32 →
  tensor_wf (share_with_layout w t (mkLayout [3; 2] [1; 3] 0 I32 false)).1
            (share_with_layout w t (mkLayout [3; 2] [1; 3] 0 I32 false)).2.
Proof.
  intros Hwf Hlay. destruct (Tensor_clone_wf w t Hwf) as [(Hw & Hh & Hl & Hb) _].
  unfold Tensor_clone in *; simpl in *.
  split; [done|]. split; [done|]. split; [|done]. unfold t_dtype in *. rewrite Hlay in Hl. simpl in *.
  set (len := st_byte_len (t_storage t) / Dtype_byte_size I32) in *.
  assert (5 < len).
  { apply (li_bound _ _ Hl [1; 2]). repeat constructor; simpl; lia. }
  assert (shape_fits [3; 2]) as Hf
    by (split; [repeat constructor; vm_compute; congruence|vm_compute; reflexivity]).
  split; simpl; [split; [apply Hf|]; split; done|done|lia| |apply Hl|].
  { intros _. constructor; [lia|]. constructor; [lia|constructor]. }
  intros idx Hr. inversion Hr as [|? i ? r Hi Hr']; subst.
  inversion Hr' as [|? j ? r' Hj Hr'']; subst. inversion Hr''; subst.
  unfold address; simpl. rewrite !dot_cons, dot_nil_l. simpl in *. lia.
Qed.

Lemma t23_transposed_wf : tensor_wf t23_transposed.1 t23_transposed.2.
Proof. apply transposed_wf; [exact t23_wf|vm_compute; reflexivity]. Qed.

Lemma contiguous_correct_witness :
  ∃ w c, contiguous no_oom ff_junk t23_transposed.1 t23_transposed.2 = Ok (w, c)
    ∧ as_slice w c I32 = Ok (Some [1; 4; 2; 5; 3; 6]).
Proof.
  destruct (contiguous_correct no_oom ff_junk t23_transposed.1 t23_transposed.2 ff_junk_len
    ltac:(done) t23_transposed_wf ltac:(vm_compute; congruence)) as (w & c & Hc & _ & _ & _ & Hd & Hs & _).
  exists w, c. split; [exact Hc|]. rewrite Hd in Hs. exact Hs.
Defined.
