(* ===== verification/View.v ===== *)
(** * Views (crates/rustorch-core/src/tensor/view.rs)

    Zero-copy views: each operation computes a layout and shares the storage
    and the version counter of its source. *)

From Stdlib Require Import ZArith Lia.
From stdpp Require Import base list gmap.
From S2P Require Import Prelude Dtype Shape Layout Storage Tensor.

(** [enum ViewError] *)
Inductive ViewError :=
  | NonContiguous
  | NumelMismatch (src_numel dst_numel : Z)
  | PermuteRankMismatch (src_ndim perm_len : nat)
  | InvalidPermutation (perm : list nat)
  | DimOutOfRange (dim ndim : nat)
  | NarrowOutOfRange (dim : nat) (start end_or_len dim_size : Z)
  | NotSqueezable (dim : nat) (size : Z).

(** [Vec::swap], [Vec::insert], [Vec::remove], which panic out of range. *)
Definition vec_swap {E A} (l : list A) (i j : nat) : res E (list A) :=
  let? a := unwrap_opt (l !! i) in
  let? b := unwrap_opt (l !! j) in
  Ok (<[j := a]> (<[i := b]> l)).
Definition vec_insert {E A} (l : list A) (i : nat) (x : A) : res E (list A) :=
  if (length l <? i)%nat then Panic else Ok (take i l ++ x :: drop i l).
Definition vec_remove {E A} (l : list A) (i : nat) : res E (list A) :=
  if (i <? length l)%nat then Ok (delete i l) else Panic.
(** [v[i] = x] *)
Definition vec_set {E A} (l : list A) (i : nat) (x : A) : res E (list A) :=
  if (i <? length l)%nat then Ok (<[i := x]> l) else Panic.

(** The layout of each view. *)
Definition view_layout (l : Layout) (new_shape : Shape) : res ViewError Layout :=
  if negb (is_contiguous l) then Err NonContiguous
  else if negb (Shape_numel new_shape =? l_numel l) then
    Err (NumelMismatch (l_numel l) (Shape_numel new_shape))
  else Ok (Layout_contiguous new_shape (l_dtype l)).

Definition reshape_layout (l : Layout) (new_shape : Shape) : res ViewError Layout :=
  if is_contiguous l then view_layout l new_shape else Err NonContiguous.

Definition transpose_layout (l : Layout) (d0 d1 : nat) : res ViewError Layout :=
  let ndim := l_ndim l in
  if (ndim <=? d0)%nat then Err (DimOutOfRange d0 ndim)
  else if (ndim <=? d1)%nat then Err (DimOutOfRange d1 ndim)
  else
    let? shape := vec_swap (l_shape l) d0 d1 in
    let? strides := vec_swap (l_strides l) d0 d1 in
    unwrap (from_strides shape strides (l_offset l) (l_dtype l)).

(** The validity check of [permute]: each entry in range and not seen. *)
Definition check_perm (ndim : nat) (perm : list nat) : res ViewError (list bool) :=
  rfold (λ seen p,
      if (ndim <=? p)%nat then Err (InvalidPermutation perm)
      else
        let? s := unwrap_opt (seen !! p) in
        if (s : bool) then Err (InvalidPermutation perm) else vec_set seen p true)
    (replicate ndim false) perm.

Definition permute_layout (l : Layout) (perm : list nat) : res ViewError Layout :=
  let ndim := l_ndim l in
  if negb (length perm =? ndim)%nat then Err (PermuteRankMismatch ndim (length perm))
  else
    let? _ := check_perm ndim perm in
    let? new_shape := rmapM (λ p, unwrap_opt (l_shape l !! p)) perm in
    let? new_strides := rmapM (λ p, unwrap_opt (l_strides l !! p)) perm in
    unwrap (from_strides new_shape new_strides (l_offset l) (l_dtype l)).

Definition unsqueeze_layout (l : Layout) (dim : nat) : res ViewError Layout :=
  let ndim := l_ndim l in
  if (ndim <? dim)%nat then Err (DimOutOfRange dim ndim)
  else
    let? new_shape := vec_insert (l_shape l) dim 1 in
    let? inserted_stride :=
      if (dim <? ndim)%nat then unwrap_opt (l_strides l !! dim) else Ok 1 in
    let? new_strides := vec_insert (l_strides l) dim inserted_stride in
    unwrap (from_strides new_shape new_strides (l_offset l) (l_dtype l)).

Definition squeeze_layout (l : Layout) (dim : nat) : res ViewError Layout :=
  let ndim := l_ndim l in
  if (ndim <=? dim)%nat then Err (DimOutOfRange dim ndim)
  else
    let? size := unwrap_opt (l_shape l !! dim) in
    if negb (size =? 1) then Err (NotSqueezable dim size)
    else
      let? new_shape := vec_remove (l_shape l) dim in
      let? new_strides := vec_remove (l_strides l) dim in
      unwrap (from_strides new_shape new_strides (l_offset l) (l_dtype l)).

(** [offset.saturating_add((start as isize * stride).max(0) as usize)] *)
Definition shifted_offset (offset start stride : Z) : Z :=
  sat_add 64 offset (wrap 64 (Z.max (swrap 64 (swrap 64 start * stride)) 0)).

Definition narrow_layout (l : Layout) (dim : nat) (start length : Z) : res ViewError Layout :=
  let ndim := l_ndim l in
  if (ndim <=? dim)%nat then Err (DimOutOfRange dim ndim)
  else
    let? dim_size := unwrap_opt (l_shape l !! dim) in
    let? end_ := ok_or (NarrowOutOfRange dim start length dim_size)
                   (checked_add 64 start length) in
    if dim_size <? end_ then Err (NarrowOutOfRange dim start length dim_size)
    else
      let? new_shape := vec_set (l_shape l) dim length in
      let? stride := unwrap_opt (l_strides l !! dim) in
      unwrap (from_strides new_shape (l_strides l) (shifted_offset (l_offset l) start stride)
                (l_dtype l)).

Definition slice_layout (l : Layout) (dim : nat) (start end_ step : Z) : res ViewError Layout :=
  let ndim := l_ndim l in
  if (ndim <=? dim)%nat then Err (DimOutOfRange dim ndim)
  else
    let? dim_size := unwrap_opt (l_shape l !! dim) in
    if (end_ <? start) || (dim_size <? end_) || (step =? 0) then
      Err (NarrowOutOfRange dim start end_ dim_size)
    else
      let span := end_ - start in
      let new_dim := if span =? 0 then 0 else (span - 1) / step + 1 in
      let? new_shape := vec_set (l_shape l) dim new_dim in
      let? stride := unwrap_opt (l_strides l !! dim) in
      let? new_strides := vec_set (l_strides l) dim (swrap 64 (stride * swrap 64 step)) in
      unwrap (from_strides new_shape new_strides (shifted_offset (l_offset l) start stride)
                (l_dtype l)).

(** A call of a view method. *)
Inductive view_op :=
  | OpView (new_shape : Shape)
  | OpReshape (new_shape : Shape)
  | OpTranspose (d0 d1 : nat)
  | OpPermute (perm : list nat)
  | OpUnsqueeze (dim : nat)
  | OpSqueeze (dim : nat)
  | OpNarrow (dim : nat) (start length : Z)
  | OpSlice (dim : nat) (start end_ step : Z).

Definition op_layout (op : view_op) (l : Layout) : res ViewError Layout :=
  match op with
  | OpView s => view_layout l s
  | OpReshape s => reshape_layout l s
  | OpTranspose d0 d1 => transpose_layout l d0 d1
  | OpPermute perm => permute_layout l perm
  | OpUnsqueeze dim => unsqueeze_layout l dim
  | OpSqueeze dim => squeeze_layout l dim
  | OpNarrow dim start len => narrow_layout l dim start len
  | OpSlice dim start end_ step => slice_layout l dim start end_ step
  end.

(** The method: the layout, then [Tensor::from_parts] on clones. *)
Definition run_view (op : view_op) (w : World) (t : Tensor) : res ViewError (World * Tensor) :=
  let? l := op_layout op (t_layout t) in Ok (share_with_layout w t l).

(** ** Specification *)

(** The source multi-index that a multi-index of the view reads. *)
Definition list_swap (l : list Z) (i j : nat) : list Z :=
  <[j := l !!! i]> (<[i := l !!! j]> l).

(** The axis of the view that shows axis [a] of the source. *)
Definition perm_pos (perm : list nat) (a : nat) : nat :=
  default 0%nat (fst <$> list_find (a =.) perm).

Definition reads_from (op : view_op) (src : Shape) (idx : list Z) : list Z :=
  match op with
  | OpView s | OpReshape s => unravel src (ravel s idx)
  | OpTranspose d0 d1 => list_swap idx d0 d1
  | OpPermute perm => (λ a, idx !!! perm_pos perm a) <$> seq 0 (length src)
  | OpUnsqueeze dim => delete dim idx
  | OpSqueeze dim => take dim idx ++ 0 :: drop dim idx
  | OpNarrow dim start _ => alter (Z.add start) dim idx
  | OpSlice dim start _ step => alter (λ i, start + i * step) dim idx
  end.

(** The shape of the view; a slice has an entry per step that starts before its end. *)
Definition view_shape (op : view_op) (src : Shape) : Shape :=
  match op with
  | OpView s | OpReshape s => s
  | OpTranspose d0 d1 => list_swap src d0 d1
  | OpPermute perm => (λ a, src !!! a) <$> perm
  | OpUnsqueeze dim => take dim src ++ 1 :: drop dim src
  | OpSqueeze dim => delete dim src
  | OpNarrow dim _ len => <[dim := len]> src
  | OpSlice dim start end_ step => <[dim := (end_ - start + step - 1) / step]> src
  end.

(** When a call succeeds. *)
Definition valid_op (op : view_op) (l : Layout) : Prop :=
  match op with
  | OpView s | OpReshape s => is_contiguous l = true ∧ zprod s = zprod (l_shape l)
  | OpTranspose d0 d1 => (d0 < l_ndim l)%nat ∧ (d1 < l_ndim l)%nat
  | OpPermute perm => perm ≡ₚ seq 0 (l_ndim l)
  | OpUnsqueeze dim => (dim ≤ l_ndim l)%nat
  | OpSqueeze dim => l_shape l !! dim = Some 1
  | OpNarrow dim start len => ∃ n, l_shape l !! dim = Some n ∧ start + len ≤ n
  | OpSlice dim start end_ step => ∃ n, l_shape l !! dim = Some n ∧ start ≤ end_ ≤ n ∧ step ≠ 0
  end.

(** The arguments are [usize] values (and a new shape's products fit). *)
Definition op_args (op : view_op) : Prop :=
  match op with
  | OpView s | OpReshape s => shape_fits s
  | OpNarrow _ start len => uint 64 start ∧ uint 64 len
  | OpSlice _ start end_ step => uint 64 start ∧ uint 64 end_ ∧ uint 64 step
  | _ => True
  end.

(** A view whose every element is an element of the source. *)
Definition view_of (len : Z) (l l' : Layout) (f : list Z → list Z) : Prop :=
  layout_in len l' ∧ l_dtype l' = l_dtype l
  ∧ ∀ idx, in_range (l_shape l') idx →
      in_range (l_shape l) (f idx) ∧ address l' idx = address l (f idx).

(** ** Lemmas *)

Lemma shape_fits_perm s s' : s ≡ₚ s' → shape_fits s → shape_fits s'.
Proof. intros Hp [Hw Hf]. unfold shape_fits, shape_wf. by rewrite <- Hp. Qed.

(** Building the result layout from strides of the right rank. *)
Lemma from_strides_view {E} len l s ss o f :
  layout_in len l → length ss = length s → shape_fits s →
  (0 < zprod s → 0 ≤ o < 2 ^ 63) →
  (0 < zprod s → Forall2 (λ d x, 1 < d → 0 ≤ x < 2 ^ 63) s ss) →
  (∀ idx, in_range s idx → in_range (l_shape l) (f idx)
     ∧ o + dot idx ss = address l (f idx)) →
  ∃ l', @unwrap LayoutError E _ (from_strides s ss o (l_dtype l)) = Ok l' ∧ l_shape l' = s
    ∧ view_of len l l' f.
Proof.
  intros Hl Hlen Hs Ho Hss Hf. rewrite from_strides_Ok by done. eexists. split; [done|].
  split; [done|]. split; [|split; [done|exact Hf]]. split; simpl; try done.
  - split; simpl; [apply Hs|]. split; done.
  - apply Hl.
  - intros idx Hr. destruct (Hf idx Hr) as [Hr' Ha]. unfold address at 1; simpl.
    rewrite Ha. by apply (li_bound _ _ Hl).
Qed.

(** *** Transpose *)

Lemma vec_swap_Ok {E} (l : list Z) i j :
  (i < length l)%nat → (j < length l)%nat → @vec_swap E Z l i j = Ok (list_swap l i j).
Proof.
  intros Hi Hj. unfold vec_swap, list_swap.
  destruct (lookup_lt_is_Some_2 l i Hi) as [a Ha]. destruct (lookup_lt_is_Some_2 l j Hj) as [b Hb].
  rewrite Ha, Hb. simpl. by rewrite (list_lookup_total_correct _ _ _ Ha), (list_lookup_total_correct _ _ _ Hb).
Qed.

Lemma length_list_swap l i j : length (list_swap l i j) = length l.
Proof. unfold list_swap. by rewrite !length_insert. Qed.

Lemma list_swap_lookup l i j k :
  (i < length l)%nat → (j < length l)%nat →
  list_swap l i j !! k = if decide (k = j) then l !! i else if decide (k = i) then l !! j else l !! k.
Proof.
  intros Hi Hj. unfold list_swap. case_decide as Hk; subst.
  - rewrite list_lookup_insert_eq by (by rewrite length_insert).
    destruct (lookup_lt_is_Some_2 l i Hi) as [a Ha].
    by rewrite Ha, (list_lookup_total_correct _ _ _ Ha).
  - rewrite list_lookup_insert_ne by done. case_decide as Hk'; subst.
    + rewrite list_lookup_insert_eq by done.
      destruct (lookup_lt_is_Some_2 l j Hj) as [a Ha].
      by rewrite Ha, (list_lookup_total_correct _ _ _ Ha).
    + by rewrite list_lookup_insert_ne.
Qed.

(** Swapping two axes is a permutation of the axes. *)
Definition swap_perm (n i j : nat) : list nat :=
  (λ k, if decide (k = j) then i else if decide (k = i) then j else k) <$> seq 0 n.

Lemma list_swap_perm (l : list Z) i j :
  (i < length l)%nat → (j < length l)%nat →
  list_swap l i j = (λ k, l !!! k) <$> swap_perm (length l) i j.
Proof.
  intros Hi Hj. apply list_eq. intros k. rewrite list_swap_lookup by done.
  unfold swap_perm. rewrite <- list_fmap_compose, list_lookup_fmap.
  destruct (decide (k < length l)%nat) as [Hk|Hk].
  - rewrite (proj2 (lookup_seq _ _ _ k)) by (split; [lia|done]). simpl.
    repeat case_decide; by apply list_lookup_lookup_total_lt.
  - rewrite !decide_False by lia. rewrite !lookup_ge_None_2; [done|rewrite length_seq; lia|lia].
Qed.

Lemma swap_perm_is_perm n i j :
  (i < n)%nat → (j < n)%nat → swap_perm n i j ≡ₚ seq 0 n.
Proof.
  intros Hi Hj. apply NoDup_Permutation.
  - unfold swap_perm. apply NoDup_fmap_2_strong; [|apply NoDup_seq].
    intros x y _ _. repeat case_decide; lia.
  - apply NoDup_seq.
  - intros k. unfold swap_perm. rewrite list_elem_of_fmap. setoid_rewrite elem_of_seq. split.
    + intros (x & -> & Hx). repeat case_decide; lia.
    + intros Hk. exists (if decide (k = j) then i else if decide (k = i) then j else k).
      repeat case_decide; lia.
Qed.

(** *** Permutations of the axes *)

Lemma list_fmap_lookup_total_seq (l : list Z) : (λ k, l !!! k) <$> seq 0 (length l) = l.
Proof.
  apply list_eq. intros k. rewrite list_lookup_fmap.
  destruct (decide (k < length l)%nat) as [Hk|Hk].
  - rewrite (proj2 (lookup_seq _ _ _ k)) by (split; [lia|done]). simpl.
    symmetry. by apply list_lookup_lookup_total_lt.
  - rewrite !lookup_ge_None_2; [done|lia|rewrite length_seq; lia].
Qed.

Lemma dot_total idx ss :
  length idx = length ss →
  dot idx ss = zsum ((λ k, idx !!! k * ss !!! k) <$> seq 0 (length ss)).
Proof.
  intros Hl. unfold dot. f_equal. apply list_eq. intros k.
  rewrite lookup_zip_with, list_lookup_fmap.
  destruct (decide (k < length ss)%nat) as [Hk|Hk].
  - rewrite (proj2 (lookup_seq _ _ _ k)) by (split; [lia|done]). simpl.
    rewrite (list_lookup_lookup_total_lt idx k), (list_lookup_lookup_total_lt ss k) by lia. done.
  - rewrite (lookup_ge_None_2 idx), (lookup_ge_None_2 (seq 0 _)); [done|rewrite length_seq; lia|lia].
Qed.

(** Reading the axes through a permutation [perm]: [idx] is [src] permuted. *)
Lemma dot_perm perm n src ss :
  perm ≡ₚ seq 0 n → length src = n → length ss = n →
  dot ((λ p, src !!! p) <$> perm) ((λ p, ss !!! p) <$> perm) = dot src ss.
Proof.
  intros Hp Hs Hss. rewrite (dot_total src ss) by lia. rewrite Hss, <- Hp.
  unfold dot. f_equal. rewrite zip_with_fmap_l, zip_with_fmap_r. clear.
  induction perm as [|p perm IH]; csimpl; [done|]. by f_equal.
Qed.

Lemma in_range_perm perm s src :
  perm ≡ₚ seq 0 (length s) → length src = length s →
  in_range ((λ p, s !!! p) <$> perm) ((λ p, src !!! p) <$> perm) → in_range s src.
Proof.
  intros Hp Hl Hr. apply Forall2_same_length_lookup_2; [done|]. intros k d i Hd Hi.
  assert (k ∈ perm) as Hk.
  { rewrite Hp. apply elem_of_seq. apply lookup_lt_Some in Hd. lia. }
  apply list_elem_of_lookup in Hk as [j Hj].
  eapply (Forall2_lookup_lr _ _ _ j d i) in Hr; [done| |].
  - rewrite list_lookup_fmap, Hj. simpl. by rewrite (list_lookup_total_correct _ _ _ Hd).
  - rewrite list_lookup_fmap, Hj. simpl. by rewrite (list_lookup_total_correct _ _ _ Hi).
Qed.

Lemma Forall2_perm {A B} `{Inhabited A, Inhabited B} (R : A → B → Prop) perm (s : list A) (ss : list B) :
  perm ≡ₚ seq 0 (length s) → Forall2 R s ss →
  Forall2 R ((λ p, s !!! p) <$> perm) ((λ p, ss !!! p) <$> perm).
Proof.
  intros Hp HR. pose proof (Forall2_length _ _ _ HR) as Hl.
  apply Forall2_fmap, Forall_Forall2_diag, Forall_forall. intros p Hin.
  rewrite Hp in Hin. apply elem_of_seq in Hin.
  destruct (lookup_lt_is_Some_2 s p) as [a Ha]; [lia|].
  destruct (lookup_lt_is_Some_2 ss p) as [b Hb]; [lia|].
  rewrite (list_lookup_total_correct _ _ _ Ha), (list_lookup_total_correct _ _ _ Hb).
  by eapply Forall2_lookup_lr.
Qed.

Lemma perm_fmap_perm (s : list Z) perm :
  perm ≡ₚ seq 0 (length s) → (λ p, s !!! p) <$> perm ≡ₚ s.
Proof. intros ->. by rewrite list_fmap_lookup_total_seq. Qed.

(** The layout whose axes are those of [l] in the order [perm]. *)
Lemma permuted_view {E} len l perm f :
  layout_in len l → perm ≡ₚ seq 0 (l_ndim l) →
  (∀ idx, length idx = l_ndim l →
     length (f idx) = l_ndim l ∧ (λ p, f idx !!! p) <$> perm = idx) →
  ∃ l', @unwrap LayoutError E _ (from_strides ((λ p, l_shape l !!! p) <$> perm)
      ((λ p, l_strides l !!! p) <$> perm) (l_offset l) (l_dtype l)) = Ok l'
    ∧ view_of len l l' f.
Proof.
  intros Hl Hp Hf. unfold l_ndim, Shape_ndim in *.
  destruct (li_wf _ _ Hl) as (Hwf & Hlen & _).
  pose proof (perm_fmap_perm _ _ Hp) as Hps.
  destruct (@from_strides_view E len l ((λ p, l_shape l !!! p) <$> perm)
    ((λ p, l_strides l !!! p) <$> perm) (l_offset l) f Hl) as (l' & Hl' & _ & Hv).
  - by rewrite !length_fmap.
  - by eapply shape_fits_perm, (li_fits _ _ Hl).
  - rewrite Hps. apply (li_offset _ _ Hl).
  - intros Hne. rewrite (zprod_perm _ _ Hps) in Hne. apply Forall2_perm; [done|].
    by apply (li_strides _ _ Hl).
  - intros idx Hr. pose proof (in_range_length _ _ Hr) as Hil.
    rewrite length_fmap, Hp, length_seq in Hil.
    destruct (Hf idx Hil) as [Hfl Hfi]. split.
    + apply (in_range_perm perm); [done|done|by rewrite Hfi].
    + unfold address. f_equal. rewrite <- Hfi at 1.
      by apply (dot_perm perm (length (l_shape l))).
  - exists l'. done.
Qed.

Lemma list_swap_involutive l i j :
  (i < length l)%nat → (j < length l)%nat → list_swap (list_swap l i j) i j = l.
Proof.
  intros Hi Hj. apply list_eq. intros k.
  rewrite !list_swap_lookup by (rewrite ?length_list_swap; done).
  repeat case_decide; congruence.
Qed.

Lemma transpose_spec len l d0 d1 :
  layout_in len l →
  match transpose_layout l d0 d1 with
  | Ok l' => valid_op (OpTranspose d0 d1) l
      ∧ view_of len l l' (reads_from (OpTranspose d0 d1) (l_shape l))
  | Err _ => ¬ valid_op (OpTranspose d0 d1) l
  | Panic => False
  end.
Proof.
  intros Hl. destruct (li_wf _ _ Hl) as (Hwf & Hlen & _).
  unfold transpose_layout, valid_op, l_ndim, Shape_ndim.
  destruct (Nat.leb_spec (length (l_shape l)) d0) as [?|H0]; [lia|].
  destruct (Nat.leb_spec (length (l_shape l)) d1) as [?|H1]; [lia|].
  rewrite !vec_swap_Ok by lia. simpl. rewrite !list_swap_perm, Hlen by lia.
  destruct (@permuted_view ViewError len l (swap_perm (length (l_shape l)) d0 d1)
    (λ idx, list_swap idx d0 d1) Hl) as (l' & -> & Hv).
  - by apply swap_perm_is_perm.
  - intros idx Hil. unfold l_ndim, Shape_ndim in Hil. split; [by rewrite length_list_swap|].
    replace (length (l_shape l)) with (length (list_swap idx d0 d1))
      by (by rewrite length_list_swap).
    rewrite <- list_swap_perm by (rewrite length_list_swap; lia).
    apply list_swap_involutive; lia.
  - done.
Qed.

(** *** The permutation check *)

Lemma check_perm_fold ndim full perm seen0 (done_ : list nat) :
  length seen0 = ndim → (∀ p, seen0 !! p = Some true ↔ p ∈ done_ ∧ (p < ndim)%nat) →
  match rfold (λ seen p,
      if (ndim <=? p)%nat then Err (InvalidPermutation full)
      else
        let? s := unwrap_opt (seen !! p) in
        if (s : bool) then Err (InvalidPermutation full) else vec_set seen p true) seen0 perm with
  | Ok _ => NoDup perm ∧ (∀ p, p ∈ perm → (p < ndim)%nat ∧ p ∉ done_)
  | Err _ => ¬ (NoDup perm ∧ ∀ p, p ∈ perm → (p < ndim)%nat ∧ p ∉ done_)
  | Panic => False
  end.
Proof.
  revert seen0 done_. induction perm as [|p perm IH]; intros seen0 done_ Hlen Hseen; simpl.
  { split; [constructor|]. by intros p ?%not_elem_of_nil. }
  destruct (Nat.leb_spec ndim p) as [Hp|Hp].
  { intros [_ H]. destruct (H p ltac:(left)). lia. }
  destruct (lookup_lt_is_Some_2 seen0 p) as [b Hb]; [lia|]. rewrite Hb. simpl. destruct b; simpl.
  { intros [_ H]. destruct (H p ltac:(left)) as [_ Hno]. by apply Hno, Hseen. }
  unfold vec_set. rewrite (proj2 (Nat.ltb_lt _ _)) by lia. simpl.
  assert (p ∉ done_) as Hpd.
  { intros Hin. assert (seen0 !! p = Some true) by (by apply Hseen). congruence. }
  specialize (IH (<[p := true]> seen0) (p :: done_)). rewrite length_insert in IH.
  specialize (IH Hlen). destruct (rfold _ _ _).
  - destruct IH as [Hnd Hall].
    { intros q. destruct (decide (q = p)) as [->|Hne].
      - rewrite list_lookup_insert_eq by lia. rewrite elem_of_cons. tauto.
      - rewrite list_lookup_insert_ne, Hseen, elem_of_cons by done. tauto. }
    split.
    + constructor; [|done]. intros Hin. destruct (Hall _ Hin) as [_ Hno]. apply Hno. by left.
    + intros q [->|Hq]%elem_of_cons; [done|]. destruct (Hall _ Hq) as [? Hno].
      split; [done|]. intros ?. apply Hno. by right.
  - intros [[Hni Hnd]%NoDup_cons Hall]. apply IH.
    + intros q. destruct (decide (q = p)) as [->|Hne].
      * rewrite list_lookup_insert_eq by lia. rewrite elem_of_cons. tauto.
      * rewrite list_lookup_insert_ne, Hseen, elem_of_cons by done. tauto.
    + split; [done|]. intros q Hq. destruct (Hall q ltac:(by right)) as [? ?].
      split; [done|]. intros [->|?]%elem_of_cons; done.
  - apply IH. intros q. destruct (decide (q = p)) as [->|Hne].
    + rewrite list_lookup_insert_eq by lia. rewrite elem_of_cons. tauto.
    + rewrite list_lookup_insert_ne, Hseen, elem_of_cons by done. tauto.
Qed.

Lemma perm_seq_iff perm n :
  length perm = n → (NoDup perm ∧ ∀ p, p ∈ perm → (p < n)%nat) ↔ perm ≡ₚ seq 0 n.
Proof.
  intros Hl. split.
  - intros [Hnd Hlt]. apply submseteq_length_Permutation; [|rewrite length_seq; lia].
    apply NoDup_submseteq; [done|]. intros p Hp. apply elem_of_seq. specialize (Hlt p Hp). lia.
  - intros Hp. split; [rewrite Hp; apply NoDup_seq|]. intros p Hin. rewrite Hp in Hin.
    by apply elem_of_seq in Hin as [_ ?].
Qed.

Lemma perm_pos_lookup perm k p : NoDup perm → perm !! k = Some p → perm_pos perm p = k.
Proof.
  intros Hnd Hk. unfold perm_pos. destruct (list_find (p =.) perm) as [[j q]|] eqn:Hf; simpl.
  - apply list_find_Some in Hf as (Hj & <- & _). by eapply NoDup_lookup.
  - apply list_find_None in Hf. rewrite Forall_forall in Hf.
    destruct (Hf p); [by eapply list_elem_of_lookup_2|done].
Qed.

Lemma rmapM_lookup_total {E} (s : list Z) perm :
  (∀ p, p ∈ perm → (p < length s)%nat) →
  @rmapM E _ _ (λ p, unwrap_opt (s !! p)) perm = Ok ((λ p, s !!! p) <$> perm).
Proof.
  intros Hp. apply rmapM_Ok, Forall2_fmap_r, Forall_Forall2_diag, Forall_forall.
  intros p Hin. by rewrite list_lookup_lookup_total_lt by auto.
Qed.

Lemma permute_spec len l perm :
  layout_in len l →
  match permute_layout l perm with
  | Ok l' => valid_op (OpPermute perm) l
      ∧ view_of len l l' (reads_from (OpPermute perm) (l_shape l))
  | Err _ => ¬ valid_op (OpPermute perm) l
  | Panic => False
  end.
Proof.
  intros Hl. destruct (li_wf _ _ Hl) as (Hwf & Hlen & _).
  unfold permute_layout, valid_op, l_ndim, Shape_ndim. set (n := length (l_shape l)) in *.
  destruct (Nat.eqb_spec (length perm) n) as [Hpl|Hpl]; simpl.
  2: { intros Hp. apply Hpl. by rewrite Hp, length_seq. }
  pose proof (check_perm_fold n perm perm (replicate n false) []) as Hc.
  unfold check_perm. rewrite length_replicate in Hc. specialize (Hc eq_refl).
  assert (∀ p, replicate n false !! p = Some true ↔ p ∈ @nil nat ∧ (p < n)%nat) as H0.
  { intros p. rewrite lookup_replicate. split; [by intros [[=] _]|by intros [?%not_elem_of_nil _]]. }
  specialize (Hc H0). destruct (rfold _ _ _); simpl; [| |done].
  - destruct Hc as [Hnd Hlt].
    assert (perm ≡ₚ seq 0 n) as Hperm by (apply perm_seq_iff; naive_solver).
    rewrite !rmapM_lookup_total by (intros p Hp; destruct (Hlt p Hp); lia). simpl.
    destruct (@permuted_view ViewError len l perm (reads_from (OpPermute perm) (l_shape l)) Hl Hperm)
      as (l' & -> & Hv); [|done].
    intros idx Hil. unfold l_ndim, Shape_ndim in *. fold n in Hil. simpl. fold n.
    split; [by rewrite length_fmap, length_seq|].
    apply list_eq. intros k. rewrite list_lookup_fmap.
    destruct (perm !! k) as [p|] eqn:Hk; simpl.
    + destruct (Hlt p) as [Hpn _]; [by eapply list_elem_of_lookup_2|].
      rewrite (list_lookup_total_correct _ p (idx !!! perm_pos perm p))
        by (by rewrite list_lookup_fmap, (proj2 (lookup_seq 0 n p p)) by (split; [lia|done])).
      rewrite (perm_pos_lookup perm k p Hnd Hk). symmetry.
      apply list_lookup_lookup_total_lt. apply lookup_lt_Some in Hk. lia.
    + symmetry. apply lookup_ge_None_2. apply lookup_ge_None_1 in Hk. lia.
  - intros Hp. apply Hc. apply perm_seq_iff in Hp as [? ?]; [|done].
    split; [done|]. intros p Hin. split; [auto|apply not_elem_of_nil].
Qed.

(** *** One axis *)

Lemma alter_middle (f : Z → Z) p x q k :
  k = length p → alter f k (p ++ x :: q) = p ++ f x :: q.
Proof. intros ->. by rewrite alter_app_r_alt, Nat.sub_diag by lia. Qed.

Lemma insert_middle (y : Z) p x q k :
  k = length p → <[k := y]> (p ++ x :: q) = p ++ y :: q.
Proof. intros ->. by rewrite insert_app_r_alt, Nat.sub_diag by lia. Qed.

Lemma dot_middle ip i iq ps x qs :
  length ip = length ps →
  dot (ip ++ i :: iq) (ps ++ x :: qs) = dot ip ps + i * x + dot iq qs.
Proof. intros Hl. rewrite dot_app, dot_cons by done. lia. Qed.

Lemma in_range_middle ps d qs idx :
  in_range (ps ++ d :: qs) idx ↔
  ∃ ip i iq, idx = ip ++ i :: iq ∧ in_range ps ip ∧ 0 ≤ i < d ∧ in_range qs iq.
Proof.
  unfold in_range. rewrite Forall2_app_inv_l. split.
  - intros (ip & r & Hp & Hr & ->). inversion Hr as [|? i ? iq Hi Hq]; subst. by exists ip, i, iq.
  - intros (ip & i & iq & -> & Hp & Hi & Hq). exists ip, (i :: iq). split_and!; [done| |done].
    by constructor.
Qed.

(** The pieces of a layout around axis [k]. *)
Lemma layout_split len l k d :
  layout_in len l → l_shape l !! k = Some d →
  ∃ ps qs ps' x qs', l_shape l = ps ++ d :: qs ∧ l_strides l = ps' ++ x :: qs'
    ∧ length ps = k ∧ length ps' = k ∧ length qs' = length qs
    ∧ (0 < zprod (l_shape l) → (1 < d → 0 ≤ x < 2 ^ 63)
       ∧ Forall2 (λ d s, 1 < d → 0 ≤ s < 2 ^ 63) ps ps'
       ∧ Forall2 (λ d s, 1 < d → 0 ≤ s < 2 ^ 63) qs qs')
    ∧ l_strides l !! k = Some x.
Proof.
  intros Hl Hk. destruct (li_wf _ _ Hl) as (_ & Hlen & _).
  pose proof (lookup_lt_Some _ _ _ Hk) as Hlt.
  destruct (lookup_lt_is_Some_2 (l_strides l) k) as [x Hx]; [lia|].
  exists (take k (l_shape l)), (drop (S k) (l_shape l)), (take k (l_strides l)), x,
    (drop (S k) (l_strides l)).
  split_and!.
  - symmetry. by apply take_drop_middle.
  - symmetry. by apply take_drop_middle.
  - rewrite length_take. lia.
  - rewrite length_take. lia.
  - rewrite !length_drop. lia.
  - intros Hne. pose proof (li_strides _ _ Hl Hne) as Hst. split_and!.
    + by eapply Forall2_lookup_lr in Hst.
    + by apply Forall2_take.
    + by apply Forall2_drop.
  - done.
Qed.

(** In a non-empty layout the addresses along one axis are in bounds. *)
Lemma axis_bound len l k d x j :
  layout_in len l → l_shape l !! k = Some d → l_strides l !! k = Some x →
  0 < zprod (l_shape l) → 0 ≤ j < d →
  0 ≤ l_offset l ∧ 0 ≤ j * x ∧ l_offset l + j * x < len.
Proof.
  intros Hl Hk Hx Hne Hj. destruct (layout_split len l k d Hl Hk)
    as (ps & qs & ps' & x' & qs' & Hs & Hss & Hp & Hp' & Hq & Hst & Hxx).
  destruct (Hst Hne) as (Hx' & _). simplify_eq. pose proof (li_offset _ _ Hl Hne).
  assert (Forall (λ d, 0 < d) (l_shape l)) as Hpos.
  { apply zprod_pos; [done|]. apply shape_wf_nonneg, (li_fits _ _ Hl). }
  rewrite Hs in Hpos. apply Forall_app in Hpos as [Hps [_ Hqs]%Forall_cons].
  pose proof (li_bound _ _ Hl (replicate (length ps) 0 ++ j :: replicate (length qs) 0)) as Hb.
  unfold address in Hb. rewrite Hs, Hss in Hb. rewrite dot_middle, !dot_zeros in Hb
    by (rewrite length_replicate; done).
  assert (l_offset l + j * x < len) as Hlt.
  { replace (l_offset l + j * x) with (l_offset l + (0 + j * x + 0)) by lia. apply Hb.
    apply in_range_middle. eexists _, j, _. split; [done|].
    split_and!; [by apply zero_index_range|lia|lia|by apply zero_index_range]. }
  split_and!; [lia| |done]. destruct (decide (1 < d)); [specialize (Hx' l0); nia|].
  assert (j = 0) as -> by lia. lia.
Qed.

(** A view that changes one axis. *)
Lemma axis_view {E} len l k d d' x x' o g ss' :
  layout_in len l → l_shape l !! k = Some d → l_strides l !! k = Some x →
  0 ≤ d' ≤ d → ss' = <[k := x']> (l_strides l) →
  (0 < d' → 0 < zprod (l_shape l) → 0 ≤ o < 2 ^ 63
     ∧ (1 < d' → 0 ≤ x' < 2 ^ 63)
     ∧ ∀ i, 0 ≤ i < d' → 0 ≤ g i < d ∧ o + i * x' = l_offset l + g i * x) →
  ∃ l', @unwrap LayoutError E _ (from_strides (<[k := d']> (l_shape l)) ss' o (l_dtype l)) = Ok l'
    ∧ view_of len l l' (alter g k).
Proof.
  intros Hl Hk Hx Hd -> Hg. destruct (layout_split len l k d Hl Hk)
    as (ps & qs & ps' & x0 & qs' & Hs & Hss & Hp & Hp' & Hq & Hst & Hxx).
  simplify_eq. assert (0 < zprod (ps ++ d' :: qs) → 0 < d' ∧ 0 < zprod (l_shape l)) as Hne.
  { destruct (li_fits _ _ Hl) as [Hnn _]. apply shape_wf_nonneg in Hnn. rewrite Hs in Hnn.
    apply Forall_app in Hnn as [Hn1 [Hn2 Hn3]%Forall_cons]. simpl in Hn2.
    apply zprod_nonneg in Hn1, Hn3. rewrite Hs, !zprod_app, !zprod_cons. intros Hpos.
    assert (0 < d') by (destruct (decide (d' = 0)) as [->|]; lia). split; [done|].
    assert (0 < zprod ps) by (destruct (decide (zprod ps = 0)) as [E0|]; [rewrite E0 in Hpos|]; lia).
    assert (0 < zprod qs) by (destruct (decide (zprod qs = 0)) as [E0|]; [rewrite E0 in Hpos|]; lia).
    apply Z.mul_pos_pos; [done|]. apply Z.mul_pos_pos; lia. }
  rewrite Hs, Hss, !insert_middle by done.
  destruct (@from_strides_view E len l (ps ++ d' :: qs) (ps' ++ x' :: qs') o (alter g (length ps)) Hl)
    as (l' & Hl' & _ & Hv).
  - rewrite !length_app; simpl. lia.
  - pose proof (li_fits _ _ Hl) as [Hw Hf]. rewrite Hs in Hw, Hf. split.
    + apply Forall_app in Hw as [Hw1 [Hw2 Hw3]%Forall_cons]. apply Forall_app. split; [done|].
      constructor; [unfold uint in *; lia|done].
    + rewrite fmap_app, fmap_cons, zprod_app, zprod_cons in *.
      pose proof (zprod_max1_pos ps). pose proof (zprod_max1_pos qs).
      eapply Z.le_lt_trans; [|exact Hf].
      apply Z.mul_le_mono_nonneg_l; [lia|]. apply Z.mul_le_mono_nonneg_r; lia.
  - intros Hpos. destruct (Hne Hpos) as [H1 H2]. by apply Hg.
  - intros Hpos. destruct (Hne Hpos) as [H1 H2]. destruct (Hst H2) as (_ & Hps & Hqs).
    apply Forall2_app; [done|]. constructor; [|done]. by apply Hg.
  - intros idx (ip & i & iq & -> & Hip & Hi & Hiq)%in_range_middle.
    assert (0 < d' ∧ 0 < zprod (l_shape l)) as [H1 H2].
    { apply Hne. apply zprod_pos_inv, Forall_app. split; [by eapply in_range_shape_pos|].
      constructor; [lia|by eapply in_range_shape_pos]. }
    destruct (Hg H1 H2) as (_ & _ & Hgi). destruct (Hgi i Hi) as [Hgd Haddr].
    pose proof (in_range_length _ _ Hip) as Hil.
    rewrite alter_middle by done. split.
    + rewrite Hs. apply in_range_middle. by exists ip, (g i), iq.
    + unfold address. rewrite Hss, !dot_middle by lia. lia.
  - exists l'. done.
Qed.

(** *** Inserting and removing an axis of size 1 *)

Lemma delete_middle' (p : list Z) x q k : k = length p → delete k (p ++ x :: q) = p ++ q.
Proof. intros ->. apply delete_middle. Qed.

Lemma zprod_middle_1 ps qs : zprod (ps ++ 1 :: qs) = zprod (ps ++ qs).
Proof. rewrite !zprod_app, zprod_cons. lia. Qed.

Lemma shape_fits_middle_1 ps qs : shape_fits (ps ++ 1 :: qs) ↔ shape_fits (ps ++ qs).
Proof.
  unfold shape_fits, shape_wf.
  rewrite !fmap_app, fmap_cons, zprod_middle_1, !Forall_app, Forall_cons.
  assert (uint 64 1) by (unfold uint; lia). tauto.
Qed.

Lemma unsqueeze_spec len l dim :
  layout_in len l →
  match unsqueeze_layout l dim with
  | Ok l' => valid_op (OpUnsqueeze dim) l
      ∧ view_of len l l' (reads_from (OpUnsqueeze dim) (l_shape l))
  | Err _ => ¬ valid_op (OpUnsqueeze dim) l
  | Panic => False
  end.
Proof.
  intros Hl. destruct (li_wf _ _ Hl) as (_ & Hlen & _).
  unfold unsqueeze_layout, valid_op, vec_insert, l_ndim, Shape_ndim.
  destruct (Nat.ltb_spec (length (l_shape l)) dim) as [?|Hd]; simpl; [lia|].
  assert (∃ x, (if (dim <? length (l_shape l))%nat then unwrap_opt (l_strides l !! dim) else Ok 1)
    = @Ok ViewError Z x) as (x & ->).
  { destruct (Nat.ltb_spec dim (length (l_shape l))) as [Hlt|]; [|by eexists].
    destruct (lookup_lt_is_Some_2 (l_strides l) dim) as [x Hx]; [lia|].
    exists x. by rewrite Hx. }
  simpl. rewrite Hlen. destruct (Nat.ltb_spec (length (l_shape l)) dim) as [?|_]; simpl; [lia|].
  destruct (@from_strides_view ViewError len l (take dim (l_shape l) ++ 1 :: drop dim (l_shape l))
    (take dim (l_strides l) ++ x :: drop dim (l_strides l)) (l_offset l) (delete dim) Hl)
    as (l' & -> & _ & Hv).
  - rewrite !length_app. simpl. rewrite !length_take, !length_drop. lia.
  - apply shape_fits_middle_1. rewrite take_drop. apply (li_fits _ _ Hl).
  - rewrite zprod_middle_1, take_drop. apply (li_offset _ _ Hl).
  - rewrite zprod_middle_1, take_drop. intros Hne. pose proof (li_strides _ _ Hl Hne).
    apply Forall2_app; [by apply Forall2_take|]. constructor; [lia|by apply Forall2_drop].
  - intros idx (ip & i & iq & -> & Hip & Hi & Hiq)%in_range_middle.
    pose proof (in_range_length _ _ Hip) as Hil. rewrite length_take in Hil.
    rewrite delete_middle' by lia. split.
    + rewrite <- (take_drop dim (l_shape l)). by apply Forall2_app.
    + unfold address. rewrite <- (take_drop dim (l_strides l)) at 3.
      rewrite dot_middle, dot_app by (rewrite length_take; lia). assert (i = 0) as -> by lia. lia.
  - done.
Qed.

Lemma squeeze_spec len l dim :
  layout_in len l →
  match squeeze_layout l dim with
  | Ok l' => valid_op (OpSqueeze dim) l
      ∧ view_of len l l' (reads_from (OpSqueeze dim) (l_shape l))
  | Err _ => ¬ valid_op (OpSqueeze dim) l
  | Panic => False
  end.
Proof.
  intros Hl. unfold squeeze_layout, valid_op, vec_remove, l_ndim, Shape_ndim.
  destruct (Nat.leb_spec (length (l_shape l)) dim) as [Hd|Hd]; simpl.
  { by rewrite lookup_ge_None_2. }
  destruct (lookup_lt_is_Some_2 (l_shape l) dim Hd) as [d Hk]. rewrite Hk. simpl.
  destruct (Z.eqb_spec d 1) as [->|Hne]; simpl; [|congruence].
  destruct (layout_split len l dim 1 Hl Hk)
    as (ps & qs & ps' & x & qs' & Hs & Hss & Hp & Hp' & Hq & Hst & Hx).
  rewrite !(proj2 (Nat.ltb_lt _ _)) by (rewrite ?Hss, ?length_app; simpl; lia). simpl.
  rewrite Hs, Hss, !delete_middle' by done.
  destruct (@from_strides_view ViewError len l (ps ++ qs) (ps' ++ qs') (l_offset l)
    (reads_from (OpSqueeze dim) (l_shape l)) Hl) as (l' & -> & _ & Hv).
  - rewrite !length_app. lia.
  - apply shape_fits_middle_1. rewrite <- Hs. apply (li_fits _ _ Hl).
  - rewrite <- zprod_middle_1, <- Hs. apply (li_offset _ _ Hl).
  - rewrite <- zprod_middle_1, <- Hs. intros Hpos. destruct (Hst Hpos) as (_ & ? & ?).
    by apply Forall2_app.
  - intros idx Hr. unfold in_range in Hr. apply Forall2_app_inv_l in Hr as (ip & iq & Hip & Hiq & ->).
    pose proof (in_range_length _ _ Hip) as Hil. simpl.
    rewrite take_app_length', drop_app_length' by lia. split.
    + rewrite Hs. apply in_range_middle. exists ip, 0, iq. split_and!; [done|done|lia|lia|done].
    + unfold address. rewrite Hss, dot_middle, dot_app by lia. lia.
  - by rewrite <- Hs.
Qed.

(** *** Narrow and slice *)

Lemma shifted_offset_exact o start x :
  0 ≤ o → 0 ≤ start * x → o + start * x < 2 ^ 63 → shifted_offset o start x = o + start * x.
Proof.
  intros Ho Hx Hb. unfold shifted_offset. rewrite swrap_mul_l by lia.
  rewrite (swrap_small 64) by (lia || (apply sint_of_bounds; lia)).
  rewrite Z.max_l by done. rewrite wrap_small by (unfold uint; lia). unfold sat_add. lia.
Qed.

Lemma layout_in_dim len l k d :
  layout_in len l → l_shape l !! k = Some d → 0 ≤ d < 2 ^ 63.
Proof.
  intros Hl Hk. pose proof (li_fits _ _ Hl) as Hf.
  rewrite <- (take_drop_middle _ _ _ Hk) in Hf. remember (take k (l_shape l)) as ps eqn:Hps.
  clear Hps. induction ps as [|p ps IH]; simpl in Hf;
    apply shape_fits_cons in Hf as (Hd & ? & Hf); [unfold uint in Hd; lia|by apply IH].
Qed.

Lemma narrow_spec len l dim start n :
  layout_in len l → uint 64 start → uint 64 n →
  match narrow_layout l dim start n with
  | Ok l' => valid_op (OpNarrow dim start n) l
      ∧ view_of len l l' (reads_from (OpNarrow dim start n) (l_shape l))
  | Err _ => ¬ valid_op (OpNarrow dim start n) l
  | Panic => False
  end.
Proof.
  intros Hl Hstart Hn. destruct (li_wf _ _ Hl) as (_ & Hlen & _). unfold uint in Hstart, Hn.
  unfold narrow_layout, valid_op, l_ndim, Shape_ndim.
  destruct (Nat.leb_spec (length (l_shape l)) dim) as [Hd|Hd]; simpl.
  { rewrite lookup_ge_None_2 by done. by intros (? & ? & _). }
  destruct (lookup_lt_is_Some_2 (l_shape l) dim Hd) as [d Hk].
  destruct (lookup_lt_is_Some_2 (l_strides l) dim) as [x Hx]; [lia|]. rewrite Hk. simpl.
  pose proof (layout_in_dim _ _ _ _ Hl Hk) as Hdb. unfold checked_add.
  case_decide as Ho; simpl; [|intros (? & ? & ?); simplify_eq; lia].
  destruct (Z.ltb_spec d (start + n)) as [Hlt|Hle]; simpl.
  { intros (? & ? & ?). simplify_eq. lia. }
  unfold vec_set. rewrite (proj2 (Nat.ltb_lt _ _)) by lia. simpl. rewrite Hx. simpl.
  destruct (@axis_view ViewError len l dim d n x x (shifted_offset (l_offset l) start x)
    (Z.add start) (l_strides l) Hl Hk Hx) as (l' & -> & Hv).
  - lia.
  - by rewrite list_insert_id.
  - intros Hn0 Hne. destruct (axis_bound len l dim d x start Hl Hk Hx Hne ltac:(lia)) as (? & ? & ?).
    pose proof (li_len _ _ Hl). rewrite shifted_offset_exact by lia. split; [lia|]. split.
    + intros Hgt. destruct (layout_split len l dim d Hl Hk)
        as (ps & qs & ps' & x0 & qs' & _ & _ & _ & _ & _ & Hst & Hxx). simplify_eq.
      apply (Hst Hne). lia.
    + intros i Hi. lia.
  - split; [by exists d|done].
Qed.

Lemma slice_spec len l dim start end_ step :
  layout_in len l → uint 64 start → uint 64 end_ → uint 64 step →
  match slice_layout l dim start end_ step with
  | Ok l' => valid_op (OpSlice dim start end_ step) l
      ∧ view_of len l l' (reads_from (OpSlice dim start end_ step) (l_shape l))
  | Err _ => ¬ valid_op (OpSlice dim start end_ step) l
  | Panic => False
  end.
Proof.
  intros Hl Hstart Hend Hstep. destruct (li_wf _ _ Hl) as (_ & Hlen & _).
  unfold uint in Hstart, Hend, Hstep. unfold slice_layout, valid_op, l_ndim, Shape_ndim.
  destruct (Nat.leb_spec (length (l_shape l)) dim) as [Hd|Hd]; simpl.
  { rewrite lookup_ge_None_2 by done. by intros (? & ? & _). }
  destruct (lookup_lt_is_Some_2 (l_shape l) dim Hd) as [d Hk].
  destruct (lookup_lt_is_Some_2 (l_strides l) dim) as [x Hx]; [lia|]. rewrite Hk. simpl.
  pose proof (layout_in_dim _ _ _ _ Hl Hk) as Hdb.
  destruct ((end_ <? start) || (d <? end_) || (step =? 0)) eqn:Hbad; simpl.
  { intros (? & ? & ?). simplify_eq. rewrite !orb_true_iff, !Z.ltb_lt, Z.eqb_eq in Hbad. lia. }
  apply orb_false_iff in Hbad as [[H1 H2]%orb_false_iff H3].
  apply Z.ltb_ge in H1, H2. apply Z.eqb_neq in H3.
  unfold vec_set. rewrite !(proj2 (Nat.ltb_lt _ _)) by lia. simpl. rewrite Hx. simpl.
  set (new_dim := if end_ - start =? 0 then 0 else (end_ - start - 1) / step + 1).
  assert (0 ≤ new_dim ∧ (0 < new_dim → start + (new_dim - 1) * step < end_)) as [Hn0 Hn].
  { unfold new_dim. destruct (Z.eqb_spec (end_ - start) 0); [lia|].
    pose proof (Z.div_pos (end_ - start - 1) step ltac:(lia) ltac:(lia)).
    pose proof (Z.mul_div_le (end_ - start - 1) step ltac:(lia)). split; [lia|].
    intros _. nia. }
  assert (new_dim ≤ d) as Hnd.
  { destruct (decide (0 < new_dim)); [|lia]. specialize (Hn l0). nia. }
  destruct (@axis_view ViewError len l dim d new_dim x (swrap 64 (x * swrap 64 step))
    (shifted_offset (l_offset l) start x)
    (λ i, start + i * step) (<[dim := swrap 64 (x * swrap 64 step)]> (l_strides l)) Hl Hk Hx)
    as (l' & -> & Hv); [lia|done| |split; [exists d; split; [done|lia]|done]].
  intros Hpos Hne. specialize (Hn Hpos).
  pose proof (Z.mul_nonneg_nonneg (new_dim - 1) step ltac:(lia) ltac:(lia)).
  destruct (axis_bound len l dim d x start Hl Hk Hx Hne ltac:(lia)) as (? & ? & ?).
  pose proof (li_len _ _ Hl). rewrite shifted_offset_exact by lia. split; [lia|].
  destruct (decide (1 < new_dim)) as [Hd1|Hd1].
  - pose proof (Z.mul_le_mono_nonneg_r 1 (new_dim - 1) step ltac:(lia) ltac:(lia)).
    destruct (axis_bound len l dim d x step Hl Hk Hx Hne ltac:(lia)) as (? & ? & ?).
    rewrite swrap_mul_r, (Z.mul_comm x) by lia.
    rewrite swrap_small by (lia || (apply sint_of_bounds; lia)). split; [lia|].
    intros i Hi. pose proof (Z.mul_le_mono_nonneg_r i (new_dim - 1) step ltac:(lia) ltac:(lia)).
    pose proof (Z.mul_nonneg_nonneg i step ltac:(lia) ltac:(lia)).
    split; lia.
  - split; [lia|]. intros i Hi. assert (i = 0) as -> by lia. split; lia.
Qed.

(** *** View and reshape *)

Lemma is_contiguous_dot len l idx :
  layout_in len l → is_contiguous l = true → in_range (l_shape l) idx →
  dot idx (l_strides l) = ravel (l_shape l) idx.
Proof.
  intros Hl Hc. destruct (li_wf _ _ Hl) as (_ & Hlen & Hflag). pose proof (li_fits _ _ Hl) as Hf.
  unfold is_contiguous in Hc. rewrite (Hflag Hf) in Hc.
  by apply is_contiguous_strides_iff.
Qed.

(** The last element of a contiguous layout bounds its size. *)
Lemma contiguous_numel_le len l :
  layout_in len l → is_contiguous l = true → zprod (l_shape l) ≤ len.
Proof.
  intros Hl Hc. pose proof (li_fits _ _ Hl) as Hf. pose proof (shape_fits_prod _ Hf).
  pose proof (li_len _ _ Hl). destruct (decide (0 < zprod (l_shape l))) as [Hne|]; [|lia].
  assert (Forall (λ d, 0 < d) (l_shape l)) as Hpos
    by (apply zprod_pos; [done|apply shape_wf_nonneg, Hf]).
  assert (0 ≤ zprod (l_shape l) - 1 < zprod (l_shape l)) as Hlast by lia.
  pose proof (unravel_range _ _ Hpos Hlast) as Hr.
  pose proof (li_bound _ _ Hl _ Hr) as Hb. unfold address in Hb.
  rewrite (is_contiguous_dot len l _ Hl Hc Hr), (ravel_unravel _ _ Hpos Hlast) in Hb.
  pose proof (li_offset _ _ Hl Hne). lia.
Qed.

Lemma view_layout_spec len l s :
  layout_in len l → shape_fits s →
  match view_layout l s with
  | Ok l' => (is_contiguous l = true ∧ zprod s = zprod (l_shape l)) ∧ l_dtype l' = l_dtype l
      ∧ l_shape l' = s ∧ layout_in len l'
      ∧ ∀ idx, in_range s idx →
          in_range (l_shape l) (unravel (l_shape l) (ravel s idx))
          ∧ address l' idx + l_offset l = address l (unravel (l_shape l) (ravel s idx))
  | Err _ => ¬ (is_contiguous l = true ∧ zprod s = zprod (l_shape l))
  | Panic => False
  end.
Proof.
  intros Hl Hs. pose proof (li_fits _ _ Hl) as Hf. unfold view_layout.
  destruct (is_contiguous l) eqn:Hc; simpl; [|by intros [? _]].
  unfold l_numel. rewrite !Shape_numel_fits by done.
  destruct (Z.eqb_spec (zprod s) (zprod (l_shape l))) as [Hn|Hn]; simpl; [|by intros [_ ?]].
  split; [done|]. split; [done|]. split; [done|]. split.
  { apply layout_in_contiguous; [done|]. rewrite Hn. split; [by apply contiguous_numel_le|].
    apply (li_len _ _ Hl). }
  intros idx Hr. pose proof (ravel_bound _ _ Hr) as Hb. rewrite Hn in Hb.
  assert (Forall (λ d, 0 < d) (l_shape l)) as Hpos
    by (apply zprod_pos; [lia|apply shape_wf_nonneg, Hf]).
  pose proof (unravel_range _ _ Hpos Hb) as Hr'. split; [done|].
  unfold address; simpl. rewrite compute_contiguous_strides_prods by done.
  rewrite dot_suffix_prods by (by apply in_range_length).
  rewrite (is_contiguous_dot len l _ Hl Hc Hr'), ravel_unravel by done. lia.
Qed.

(** The offset a call drops: [view] and [reshape] build their layout with
    offset 0. *)
Definition dropped_offset (op : view_op) (l : Layout) : Z :=
  match op with OpView _ | OpReshape _ => l_offset l | _ => 0 end.

Lemma view_of_exact len l l' op :
  dropped_offset op l = 0 → view_of len l l' (reads_from op (l_shape l)) →
  l_dtype l' = l_dtype l ∧ layout_in len l'
  ∧ ∀ idx, in_range (l_shape l') idx →
      in_range (l_shape l) (reads_from op (l_shape l) idx)
      ∧ address l' idx + dropped_offset op l = address l (reads_from op (l_shape l) idx).
Proof.
  intros -> (Hin & Hd & Hv). split; [done|]. split; [done|]. intros idx Hr.
  rewrite Z.add_0_r. by apply Hv.
Qed.

Lemma op_layout_spec len l op :
  layout_in len l → op_args op →
  match op_layout op l with
  | Ok l' => valid_op op l ∧ l_dtype l' = l_dtype l ∧ layout_in len l'
      ∧ ∀ idx, in_range (l_shape l') idx →
          in_range (l_shape l) (reads_from op (l_shape l) idx)
          ∧ address l' idx + dropped_offset op l = address l (reads_from op (l_shape l) idx)
  | Err _ => ¬ valid_op op l
  | Panic => False
  end.
Proof.
  intros Hl Ha.
  assert (∀ r : res ViewError Layout, dropped_offset op l = 0 →
    match r with
    | Ok l' => valid_op op l ∧ view_of len l l' (reads_from op (l_shape l))
    | Err _ => ¬ valid_op op l
    | Panic => False
    end →
    match r with
    | Ok l' => valid_op op l ∧ l_dtype l' = l_dtype l ∧ layout_in len l'
        ∧ ∀ idx, in_range (l_shape l') idx →
            in_range (l_shape l) (reads_from op (l_shape l) idx)
            ∧ address l' idx + dropped_offset op l = address l (reads_from op (l_shape l) idx)
    | Err _ => ¬ valid_op op l
    | Panic => False
    end) as Hexact.
  { intros [l'| |] H0; [|done..]. intros [Hv Hof]. split; [done|]. by apply view_of_exact. }
  assert (∀ s, shape_fits s → match view_layout l s with
    | Ok l' => valid_op (OpView s) l ∧ l_dtype l' = l_dtype l ∧ layout_in len l'
        ∧ ∀ idx, in_range (l_shape l') idx →
            in_range (l_shape l) (reads_from (OpView s) (l_shape l) idx)
            ∧ address l' idx + l_offset l = address l (reads_from (OpView s) (l_shape l) idx)
    | Err _ => ¬ valid_op (OpView s) l
    | Panic => False
    end) as Hview.
  { intros s Hs. pose proof (view_layout_spec len l s Hl Hs) as H.
    destruct (view_layout l s) as [l'| |]; [|done..].
    destruct H as (Hv & Hd & Hsh & Hin & Hg). by rewrite Hsh. }
  destruct op; simpl op_layout.
  - by apply Hview.
  - unfold reshape_layout. destruct (is_contiguous l) eqn:Hc; [by apply Hview|].
    intros [? _]. congruence.
  - by apply Hexact, transpose_spec.
  - by apply Hexact, permute_spec.
  - by apply Hexact, unsqueeze_spec.
  - by apply Hexact, squeeze_spec.
  - apply Hexact; [done|]. apply narrow_spec; [done|apply Ha..].
  - apply Hexact; [done|]. apply slice_spec; [done|apply Ha..].
Qed.

(** *** Shapes *)

Lemma from_strides_shape {E} s ss o d l : @unwrap LayoutError E _ (from_strides s ss o d) = Ok l → l_shape l = s.
Proof. unfold from_strides. destruct (negb _); simpl; [done|]. by intros [= <-]. Qed.

Lemma view_layout_shape l s l' : view_layout l s = Ok l' → l_shape l' = s.
Proof. unfold view_layout. repeat (case_match; try done). by intros [= <-]. Qed.

Lemma vec_swap_shape {E} (s : list Z) i j s' : vec_swap (E := E) s i j = Ok s' → s' = list_swap s i j.
Proof.
  unfold vec_swap, list_swap. destruct (s !! i) as [a|] eqn:Ha, (s !! j) as [b|] eqn:Hb; simpl; try done.
  rewrite (list_lookup_total_correct _ _ _ Ha), (list_lookup_total_correct _ _ _ Hb). by intros [= <-].
Qed.

Lemma rmapM_shape {E} (s : list Z) perm s' :
  rmapM (E := E) (λ p, unwrap_opt (s !! p)) perm = Ok s' → s' = (λ p, s !!! p) <$> perm.
Proof.
  intros H%rmapM_Ok. induction H as [|p x perm s' Hp _ IH]; [done|]. simpl. f_equal; [|done].
  destruct (s !! p) eqn:Hs; [|done]. injection Hp as ->. symmetry. by apply list_lookup_total_correct.
Qed.

(** The number of steps, as the code computes it *)
Lemma slice_count span step : 0 ≤ span → 0 < step →
  (if span =? 0 then 0 else (span - 1) / step + 1) = (span + step - 1) / step.
Proof.
  intros Hs Hp. destruct (Z.eqb_spec span 0) as [->|Hne].
  - rewrite Z.div_small by lia. done.
  - replace (span + step - 1) with (span - 1 + 1 * step) by lia. by rewrite Z.div_add by lia.
Qed.

Lemma op_layout_shape op l l' : op_args op → op_layout op l = Ok l' → l_shape l' = view_shape op (l_shape l).
Proof.
  intros Ha. destruct op; simpl; unfold reshape_layout, transpose_layout, permute_layout, unsqueeze_layout,
    squeeze_layout, narrow_layout, slice_layout, vec_insert, vec_remove, vec_set.
  - apply view_layout_shape.
  - case_match; [|done]. apply view_layout_shape.
  - do 2 (case_match; [done|]). destruct (vec_swap (l_shape l) d0 d1) as [s|e|] eqn:Hs; simpl; [|done..].
    destruct (vec_swap (l_strides l) d0 d1); simpl; [|done..]. intros ->%from_strides_shape. by eapply vec_swap_shape.
  - case_match; [done|]. destruct (check_perm _ _); simpl; [|done..].
    destruct (rmapM (λ p, unwrap_opt (l_shape l !! p)) perm) as [s|e|] eqn:Hs; simpl; [|done..].
    destruct (rmapM (λ p, unwrap_opt (l_strides l !! p)) perm); simpl; [|done..].
    intros ->%from_strides_shape. by eapply rmapM_shape.
  - case_match; [done|]. case_match; [done|]. simpl. case_match; simpl; try (destruct (l_strides l !! dim); simpl; [|done]);
      (case_match; [done|]); simpl; apply from_strides_shape.
  - case_match; [done|]. destruct (l_shape l !! dim); simpl; [|done]. case_match; [done|].
    case_match; [|done]. simpl. case_match; [|done]. simpl. apply from_strides_shape.
  - case_match; [done|]. destruct (l_shape l !! dim); simpl; [|done]. destruct (checked_add 64 start length); simpl; [|done].
    case_match; [done|]. case_match; [|done]. simpl. destruct (l_strides l !! dim); simpl; [|done]. apply from_strides_shape.
  - destruct Ha as ([Hstart _] & [Hend _] & [Hstep _]).
    case_match; [done|]. destruct (l_shape l !! dim) as [d|]; simpl; [|done].
    destruct ((end_ <? start) || (d <? end_) || (step =? 0)) eqn:Hb; [done|].
    apply orb_false_iff in Hb as [[H1%Z.ltb_ge _]%orb_false_iff H3%Z.eqb_neq].
    case_match; [|done]. simpl. destruct (l_strides l !! dim); simpl; [|done]. case_match; [|done]. simpl.
    intros ->%from_strides_shape. by rewrite slice_count by lia.
Qed.

(** ** Chains of views *)

Definition run_chain (ops : list view_op) (w : World) (t : Tensor) : res ViewError (World * Tensor) :=
  rfold (λ wt op, run_view op wt.1 wt.2) (w, t) ops.

(** The element of the first tensor that a chain shows at [idx]. *)
Fixpoint chain_reads (ops : list view_op) (l : Layout) (idx : list Z) : list Z :=
  match ops with
  | [] => idx
  | op :: ops =>
      match op_layout op l with
      | Ok l' => reads_from op (l_shape l) (chain_reads ops l' idx)
      | _ => idx
      end
  end.

Definition keeps_offset (op : view_op) : bool :=
  match op with OpView _ | OpReshape _ => false | _ => true end.

(** The shared parts of a tensor and a view of it. *)
Definition shares (w : World) (t : Tensor) (w' : World) (v : Tensor) (n : Z) : Prop :=
  tensor_wf w' v ∧ t_storage v = t_storage t ∧ t_version v = t_version t
  ∧ t_requires_grad v = t_requires_grad t ∧ t_dtype v = t_dtype t
  ∧ as_bytes w' (t_storage t) = as_bytes w (t_storage t)
  ∧ versions w' = versions w
  ∧ strong_count w' (t_storage t) = strong_count w (t_storage t) + n.

Lemma clone_storage_count w s :
  handle w s → strong_count (clone_storage w s) s = strong_count w s + 1
    ∧ versions (clone_storage w s) = versions w.
Proof.
  intros (i & n & Ha & _). unfold clone_storage, strong_count. rewrite Ha. simpl.
  by rewrite lookup_insert_eq.
Qed.

Lemma run_view_spec w t op :
  tensor_wf w t → op_args op →
  match run_view op w t with
  | Ok (w', v) => valid_op op (t_layout t) ∧ op_layout op (t_layout t) = Ok (t_layout v)
      ∧ shares w t w' v 1
      ∧ ∀ idx, in_range (t_shape v) idx →
          in_range (t_shape t) (reads_from op (t_shape t) idx)
          ∧ address (t_layout v) idx + dropped_offset op (t_layout t)
            = address (t_layout t) (reads_from op (t_shape t) idx)
  | Err _ => ¬ valid_op op (t_layout t)
  | Panic => False
  end.
Proof.
  intros (Hw & Hh & Hl & Hb) Ha. pose proof (op_layout_spec _ _ op Hl Ha) as H.
  unfold run_view. destruct (op_layout op (t_layout t)) as [l'|e|]; simpl; [|done..].
  destruct H as (Hv & Hd & Hin & Hread).
  destruct (clone_storage_frame w (t_storage t) Hw _ Hh) as [Hh' Hb'].
  destruct (clone_storage_count w (t_storage t) Hh) as [Hc Hver].
  split; [done|]. split; [done|]. split; [|done]. unfold shares, tensor_wf, t_dtype; simpl.
  rewrite Hd, Hb'. split_and!; try done. by apply clone_storage_wf.
Qed.

Lemma element_of_address w w' t v idx idx' :
  shares w t w' v 1 → address (t_layout v) idx = address (t_layout t) idx' →
  element w' v idx = element w t idx'.
Proof. intros (_ & Hs & _ & _ & Hd & Hb & _) Ha. unfold element. by rewrite Hs, Hd, Hb, Ha. Qed.

Lemma shares_trans w t w1 t1 w2 t2 n m :
  shares w t w1 t1 n → shares w1 t1 w2 t2 m → shares w t w2 t2 (n + m).
Proof.
  intros (_ & Hs & Hv & Hr & Hd & Hb & Hvs & Hc) (Hwf & Hs' & Hv' & Hr' & Hd' & Hb' & Hvs' & Hc').
  rewrite Hs in *. unfold shares. split_and!; try congruence. lia.
Qed.

Lemma shares_refl w t : tensor_wf w t → shares w t w t 0.
Proof. intros. unfold shares. split_and!; try done. lia. Qed.

Lemma run_chain_spec ops w t :
  tensor_wf w t → Forall op_args ops →
  match run_chain ops w t with
  | Ok (w', v) => shares w t w' v (Z.of_nat (length ops))
      ∧ (forallb keeps_offset ops = true → ∀ idx, in_range (t_shape v) idx →
          in_range (t_shape t) (chain_reads ops (t_layout t) idx)
          ∧ address (t_layout v) idx = address (t_layout t) (chain_reads ops (t_layout t) idx))
  | Err _ => True
  | Panic => False
  end.
Proof.
  unfold run_chain. revert w t. induction ops as [|op ops IH]; intros w t Hwf Hops; simpl.
  { split; [by apply shares_refl|done]. }
  apply Forall_cons in Hops as [Ha Hops]. pose proof (run_view_spec w t op Hwf Ha) as H.
  destruct (run_view op w t) as [[w1 t1]|e|]; simpl; [|done..].
  destruct H as (_ & Hop & Hsh & Hread). specialize (IH w1 t1 (proj1 Hsh) Hops).
  destruct (rfold _ _ ops) as [[w' v]|e|]; [|done..]. destruct IH as [Hsh' Hread'].
  split.
  { replace (Z.of_nat (S (length ops))) with (1 + Z.of_nat (length ops)) by lia.
    by eapply shares_trans. }
  intros [Hk Hks]%andb_true_iff idx Hr. rewrite Hop.
  destruct (Hread' Hks idx Hr) as [Hr' Ha']. destruct (Hread _ Hr') as [Hr2 Ha2].
  split; [exact Hr2|]. unfold t_shape in *. rewrite Ha', <- Ha2.
  destruct op; simpl in *; done || lia.
Qed.

(** ** Properties *)

(** C20: a view call with [usize] arguments (and a new shape whose products fit the
    machine) succeeds exactly when its arguments are valid for the layout, and
    never panics.  The result shares the storage and the version counter of its
    source, its layout stays inside the storage, its shape is the one asked for
    (swapped or permuted axes, an axis of 1 inserted or removed, the length of the
    range, the number of steps rounded up), and the element at every multi-index
    of it is the element of the source that the operation is meant to show there.
    For [view] and [reshape] the elements are so when the source has offset 0. *)
Theorem view_ops_correct w t op :
  tensor_wf w t → op_args op →
  match run_view op w t with
  | Ok (w', v) => valid_op op (t_layout t) ∧ shares w t w' v 1
      ∧ t_shape v = view_shape op (t_shape t)
      ∧ (keeps_offset op = true ∨ l_offset (t_layout t) = 0 →
         ∀ idx, in_range (t_shape v) idx →
           in_range (t_shape t) (reads_from op (t_shape t) idx)
           ∧ element w' v idx = element w t (reads_from op (t_shape t) idx))
  | Err _ => ¬ valid_op op (t_layout t)
  | Panic => False
  end.
Proof.
  intros Hwf Ha. pose proof (run_view_spec w t op Hwf Ha) as H.
  destruct (run_view op w t) as [[w' v]|e|]; [|done..].
  destruct H as (Hv & Hop & Hsh & Hread). split; [done|]. split; [done|].
  split; [by apply op_layout_shape|]. intros Hkeep idx Hr. destruct (Hread idx Hr) as [Hr' Haddr]. split; [done|].
  apply element_of_address; [done|]. rewrite <- Haddr.
  destruct op, Hkeep; simpl in *; done || lia.
Qed.

(** any chain of view calls is memory safe: it never panics, the views
    share one storage and one version counter (the count of the storage grows
    by one per view, no byte changes), the last view's layout stays inside the
    storage, so iterating it in shape order reads in bounds and returns as many
    elements as its shape has; and when no call is [view] or [reshape] each of
    its elements is the element of the first tensor at the composed index. *)
Theorem view_chain_safe ops w t :
  tensor_wf w t → Forall op_args ops →
  match run_chain ops w t with
  | Ok (w', v) => shares w t w' v (Z.of_nat (length ops))
      ∧ iter_elements w' v (t_dtype t) = Ok (Some (shape_order w' v))
      ∧ Z.of_nat (length (shape_order w' v)) = zprod (t_shape v)
      ∧ (forallb keeps_offset ops = true → ∀ idx, in_range (t_shape v) idx →
          in_range (t_shape t) (chain_reads ops (t_layout t) idx)
          ∧ element w' v idx = element w t (chain_reads ops (t_layout t) idx))
  | Err _ => True
  | Panic => False
  end.
Proof.
  intros Hwf Ha. pose proof (run_chain_spec ops w t Hwf Ha) as H.
  destruct (run_chain ops w t) as [[w' v]|e|]; [|done..]. destruct H as [Hsh Hread].
  split; [done|]. pose proof Hsh as (Hwf' & Hs & _ & _ & Hd & Hb & _). rewrite <- Hd. split.
  { by apply iter_elements_spec. }
  split.
  { rewrite length_shape_order. destruct Hwf' as (_ & _ & Hl & _).
    pose proof (shape_fits_prod _ (li_fits _ _ Hl)). unfold t_shape. lia. }
  intros Hk idx Hr. destruct (Hread Hk idx Hr) as [Hr' Haddr]. split; [done|].
  unfold element. by rewrite Hs, Hd, Hb, Haddr.
Qed.

(** [view] and [reshape] build their layout at offset 0, so on a contiguous
    source whose offset is [k] every element of the result is [k] elements
    before the element it should be; in particular viewing the second row of a
    2x3 tensor shows the first. *)
Theorem view_drops_offset w t s :
  tensor_wf w t → shape_fits s → is_contiguous (t_layout t) = true →
  zprod s = zprod (t_shape t) →
  ∃ w' v, run_view (OpView s) w t = Ok (w', v) ∧ run_view (OpReshape s) w t = Ok (w', v)
    ∧ ∀ idx, in_range s idx →
        address (t_layout v) idx
        = address (t_layout t) (unravel (t_shape t) (ravel s idx)) - l_offset (t_layout t).
Proof.
  intros Hwf Hs Hc Hn. pose proof (run_view_spec w t (OpView s) Hwf Hs) as H.
  assert (run_view (OpReshape s) w t = run_view (OpView s) w t) as Hre.
  { unfold run_view; simpl. unfold reshape_layout. by rewrite Hc. }
  destruct (run_view (OpView s) w t) as [[w' v]|e|] eqn:Hr; [|by destruct H|done].
  exists w', v. split_and!; [done|done|]. destruct H as (_ & Hop & _ & Hread).
  simpl in Hop. assert (t_shape v = s) as Hsh.
  { unfold view_layout in Hop. unfold t_shape. repeat case_match; try done.
    by injection Hop as <-. }
  intros idx Hi. rewrite <- Hsh in Hi. destruct (Hread idx Hi) as [_ Ha]. simpl in Ha. lia.
Qed.

(** *** Witnesses *)

Lemma view_ops_correct_witness :
  ∃ w v, run_view (OpTranspose 0 1) t23.1 t23.2 = Ok (w, v)
    ∧ element w v [2; 1] = element t23.1 t23.2 [1; 2].
Proof.
  pose proof (view_ops_correct t23.1 t23.2 (OpTranspose 0 1) t23_wf I) as H.
  destruct (run_view (OpTranspose 0 1) t23.1 t23.2) as [[w v]|e|] eqn:Hr;
    [|vm_compute in Hr; discriminate..].
  exists w, v. split; [reflexivity|]. destruct H as (_ & _ & _ & H).
  refine (proj2 (H (or_introl eq_refl) [2; 1] _)).
  vm_compute in Hr. injection Hr as <- <-. apply (bool_decide_unpack _). vm_compute. exact I.
Defined.

Lemma view_chain_safe_witness :
  ∃ w v, run_chain [OpSlice 1 0 3 2; OpTranspose 0 1; OpNarrow 0 1 1; OpSqueeze 0] t23.1 t23.2
    = Ok (w, v) ∧ shape_order w v = [3; 6].
Proof.
  pose proof (view_chain_safe [OpSlice 1 0 3 2; OpTranspose 0 1; OpNarrow 0 1 1; OpSqueeze 0]
    t23.1 t23.2 t23_wf) as H.
  destruct (run_chain [OpSlice 1 0 3 2; OpTranspose 0 1; OpNarrow 0 1 1; OpSqueeze 0] t23.1 t23.2)
    as [[w v]|e|] eqn:Hr; [|vm_compute in Hr; discriminate..].
  exists w, v. split; [reflexivity|].
  destruct H as (_ & Hit & _).
  { repeat constructor; vm_compute; congruence. }
  vm_compute in Hr. injection Hr as <- <-. vm_compute in Hit. vm_compute. congruence.
Defined.

Lemma view_drops_offset_witness :
  ∃ w1 t1 w2 v, run_view (OpNarrow 0 1 1) t23.1 t23.2 = Ok (w1, t1)
    ∧ run_view (OpView [3]) w1 t1 = Ok (w2, v)
    ∧ shape_order w1 t1 = [4; 5; 6] ∧ shape_order w2 v = [1; 2; 3].
Proof.
  pose proof (run_view_spec t23.1 t23.2 (OpNarrow 0 1 1) t23_wf
    ltac:(vm_compute; split; split; congruence)) as H.
  destruct (run_view (OpNarrow 0 1 1) t23.1 t23.2) as [[w1 t1]|e|] eqn:Hr;
    [|vm_compute in Hr; discriminate..].
  destruct H as (_ & _ & (Hwf & _) & _).
  destruct (view_drops_offset w1 t1 [3] Hwf) as (w2 & v & Hv & _).
  - split; [repeat constructor; vm_compute; congruence|vm_compute; reflexivity].
  - vm_compute in Hr. injection Hr as <- <-. reflexivity.
  - vm_compute in Hr. injection Hr as <- <-. reflexivity.
  - exists w1, t1, w2, v. split; [reflexivity|]. split; [exact Hv|].
    vm_compute in Hr. injection Hr as <- <-. vm_compute in Hv. injection Hv as <- <-.
    split; vm_compute; reflexivity.
Defined.
