(* ===== verification/Mutate.v ===== *)
(** * In-place operations (crates/rustorch-core/src/tensor/tensor_impl.rs:
    [add_], [sub_], [mul_], [div_], [neg_], [abs_], [fill_], [zero_],
    [copy_] and their kernels)

    Each call needs the unique handle of its storage, writes the elements in
    place and bumps the version counter.  The macOS-only [vDSP] kernels are not
    modelled; the model is the build for the other targets. *)

From Stdlib Require Import ZArith Lia.
From stdpp Require Import base list gmap.
From S2P Require Import Prelude Dtype Float Shape Layout Storage Tensor View.

(** ** Typed access *)

(** The storage seen as a slice of [size]-byte elements, and its update. *)
Definition raw_slice (w : World) (t : Tensor) : list Z :=
  typed_slice (elem_size (t_dtype t)) (as_bytes w (t_storage t)).
Definition write_slice (w : World) (t : Tensor) (raw : list Z) : World :=
  let size := elem_size (t_dtype t) in
  write_bytes w (t_storage t)
    (encode_elems size raw ++ drop (length raw * size) (as_bytes w (t_storage t))).

(** [lhs.version().bump()] after the write. *)
Definition commit_slice (w : World) (t : Tensor) (raw : list Z) : World :=
  (bump (write_slice w t raw) (t_version t)).1.

(** [storage_mut_for_inplace().ok_or(Aliased)] *)
Definition storage_mut_for_inplace (w : World) (t : Tensor) : res TensorError (list Z) :=
  ok_or Aliased (as_bytes_mut w (t_storage t)).

(** ** The dense loop *)

(** [par_chunks(k)] *)
Fixpoint chunks (fuel k : nat) (l : list Z) : list (list Z) :=
  match fuel, l with
  | S fuel, _ :: _ => take k l :: chunks fuel k (drop k l)
  | _, _ => []
  end.
Definition par_chunks (k : nat) (l : list Z) : list (list Z) := chunks (length l) k l.

Definition PARALLEL_MIN : Z := 4000000.

(** The zip of the two slices, sharded over [threads] workers when large. *)
Definition dense_loop (threads : Z) (op : Z → Z → Z) (l r : list Z) : list Z :=
  let n := Z.of_nat (length l) in
  if PARALLEL_MIN <=? n then
    let chunk := Z.to_nat (Z.max (n / Z.max threads 1) (256 * 1024)) in
    concat (zip_with (zip_with op) (par_chunks chunk l) (par_chunks chunk r))
  else zip_with op l r.

(** ** Binary operations *)
Section binary.
Context (threads : Z).

(** [binary_inplace_typed] *)
Definition binary_inplace_typed (op : Z → Z → Z) (w : World) (lhs rhs : Tensor)
    : res TensorError World :=
  let n := Z.to_nat (t_numel lhs) in
  let? rhs_strides := unwrap (expand_strides_to (t_shape rhs) (t_shape lhs)) in
  let rhs_raw := raw_slice w rhs in
  let? _ := storage_mut_for_inplace w lhs in
  let lhs_raw := raw_slice w lhs in
  if (l_offset (t_layout lhs) =? 0) && (l_offset (t_layout rhs) =? 0)
     && bool_decide (t_shape lhs = t_shape rhs) && t_is_contiguous lhs && t_is_contiguous rhs
     && (n <=? length lhs_raw)%nat && (n <=? length rhs_raw)%nat
  then
    Ok (commit_slice w lhs
          (dense_loop threads op (take n lhs_raw) (take n rhs_raw) ++ drop n lhs_raw))
  else
    let? raw := rfold (λ raw i,
        let? li := strided_index (Z.of_nat i) (t_shape lhs) (l_strides (t_layout lhs))
                     (l_offset (t_layout lhs)) in
        let? ri := strided_index (Z.of_nat i) (t_shape lhs) rhs_strides
                     (l_offset (t_layout rhs)) in
        let? a := unwrap_opt (raw !! Z.to_nat li) in
        let? b := unwrap_opt (rhs_raw !! Z.to_nat ri) in
        vec_set raw (Z.to_nat li) (op a b))
      lhs_raw (seq 0 n) in
    Ok (commit_slice w lhs raw).

(** [binary_inplace] *)
Definition binary_inplace (op : format → Z → Z → Z) (w : World) (lhs rhs : Tensor)
    : res TensorError World :=
  if negb (bool_decide (t_dtype lhs = t_dtype rhs)) then
    Err (DtypeMismatch (t_dtype lhs) (t_dtype rhs))
  else
    let? _ := map_err (λ _, ShapeMismatch (t_shape lhs) (t_shape rhs))
                (expand_strides_to (t_shape rhs) (t_shape lhs)) in
    match t_dtype lhs with
    | F32 => binary_inplace_typed (op binary32) w lhs rhs
    | F64 => binary_inplace_typed (op binary64) w lhs rhs
    | d => Err (DtypeMismatch d F32)
    end.

(** [emit_dense_f32_binary!] and [add_f32_dense_inplace].  Building a slice
    of [n] elements over a shorter buffer is undefined behaviour, written
    [Panic] here; the callers' guards exclude it. *)
Definition dense_f32_inplace (op : Z → Z → Z) (w : World) (lhs rhs : Tensor)
    : res TensorError World :=
  let n := Z.to_nat (t_numel lhs) in
  if (n =? 0)%nat then Ok w
  else
    let rhs_raw := raw_slice w rhs in
    if (length rhs_raw <? n)%nat then Panic
    else
      let? _ := storage_mut_for_inplace w lhs in
      let lhs_raw := raw_slice w lhs in
      if (length lhs_raw <? n)%nat then Panic
      else
        Ok (commit_slice w lhs
              (dense_loop threads op (take n lhs_raw) (take n rhs_raw) ++ drop n lhs_raw)).

(** The guard of the dense path. *)
Definition dense_f32 (lhs rhs : Tensor) : bool :=
  bool_decide (t_dtype lhs = F32) && bool_decide (t_dtype rhs = F32)
  && t_is_contiguous lhs && t_is_contiguous rhs
  && (l_offset (t_layout lhs) =? 0) && (l_offset (t_layout rhs) =? 0)
  && bool_decide (t_shape lhs = t_shape rhs).

Definition binary_method (op : format → Z → Z → Z) (w : World) (self other : Tensor)
    : res TensorError World :=
  if dense_f32 self other then dense_f32_inplace (op binary32) w self other
  else binary_inplace op w self other.

Definition add_ := binary_method fadd.
Definition sub_ := binary_method fsub.
Definition mul_ := binary_method fmul.
Definition div_ := binary_method fdiv.
End binary.

(** ** Unary operations, fills and copies *)

(** The strided loop of [unary_inplace_typed] and of the fills. *)
Definition strided_map (t : Tensor) (f : Z → Z) (raw : list Z) : res TensorError (list Z) :=
  rfold (λ raw i,
      let? idx := strided_index (Z.of_nat i) (t_shape t) (l_strides (t_layout t))
                    (l_offset (t_layout t)) in
      let? a := unwrap_opt (raw !! Z.to_nat idx) in
      vec_set raw (Z.to_nat idx) (f a))
    raw (seq 0 (Z.to_nat (t_numel t))).

(** [unary_inplace_typed] *)
Definition unary_inplace_typed (op : Z → Z) (w : World) (src : Tensor) : res TensorError World :=
  let n := Z.to_nat (t_numel src) in
  let? _ := storage_mut_for_inplace w src in
  let raw := raw_slice w src in
  if (l_offset (t_layout src) =? 0) && t_is_contiguous src && (n <=? length raw)%nat then
    Ok (commit_slice w src ((op <$> take n raw) ++ drop n raw))
  else
    let? raw := strided_map src op raw in
    Ok (commit_slice w src raw).

(** [unary_inplace] *)
Definition unary_inplace (op : format → Z → Z) (w : World) (src : Tensor) : res TensorError World :=
  match t_dtype src with
  | F32 => unary_inplace_typed (op binary32) w src
  | F64 => unary_inplace_typed (op binary64) w src
  | d => Err (DtypeMismatch d F32)
  end.

Definition neg_ := unary_inplace fneg.
Definition abs_ := unary_inplace fabs.

(** [fill_inplace_f32], [fill_inplace_f64] *)
Definition fill_inplace (v : Z) (w : World) (t : Tensor) : res TensorError World :=
  let? _ := storage_mut_for_inplace w t in
  let? raw := strided_map t (λ _, v) (raw_slice w t) in
  Ok (commit_slice w t raw).

(** [fill_], of an [f64] *)
Definition fill_ (value : Z) (w : World) (t : Tensor) : res TensorError World :=
  match t_dtype t with
  | F32 => fill_inplace (fcast binary64 binary32 value) w t
  | F64 => fill_inplace value w t
  | d => Err (DtypeMismatch d F32)
  end.

Definition zero_ := fill_ 0.

(** [copy_inplace_typed] *)
Definition copy_inplace_typed (w : World) (dst src : Tensor) : res TensorError World :=
  let src_raw := raw_slice w src in
  let? _ := storage_mut_for_inplace w dst in
  let? raw := rfold (λ raw i,
      let? di := strided_index (Z.of_nat i) (t_shape dst) (l_strides (t_layout dst))
                   (l_offset (t_layout dst)) in
      let? si := strided_index (Z.of_nat i) (t_shape dst) (l_strides (t_layout src))
                   (l_offset (t_layout src)) in
      let? b := unwrap_opt (src_raw !! Z.to_nat si) in
      vec_set raw (Z.to_nat di) b)
    (raw_slice w dst) (seq 0 (Z.to_nat (t_numel dst))) in
  Ok (commit_slice w dst raw).

(** [copy_] *)
Definition copy_ (w : World) (self other : Tensor) : res TensorError World :=
  if negb (bool_decide (t_dtype self = t_dtype other)) then
    Err (DtypeMismatch (t_dtype self) (t_dtype other))
  else if negb (bool_decide (t_shape self = t_shape other)) then
    Err (ShapeMismatch (t_shape self) (t_shape other))
  else
    match t_dtype self with
    | F32 | F64 => copy_inplace_typed w self other
    | d => Err (DtypeMismatch d F32)
    end.

(** A call of an in-place method. *)
Inductive inplace_op :=
  | IAdd (rhs : Tensor)
  | ISub (rhs : Tensor)
  | IMul (rhs : Tensor)
  | IDiv (rhs : Tensor)
  | INeg
  | IAbs
  | IFill (value : Z)
  | IZero
  | ICopy (src : Tensor).

Definition run_inplace (threads : Z) (op : inplace_op) (w : World) (t : Tensor)
    : res TensorError World :=
  match op with
  | IAdd rhs => add_ threads w t rhs
  | ISub rhs => sub_ threads w t rhs
  | IMul rhs => mul_ threads w t rhs
  | IDiv rhs => div_ threads w t rhs
  | INeg => neg_ w t
  | IAbs => abs_ w t
  | IFill v => fill_ v w t
  | IZero => zero_ w t
  | ICopy src => copy_ w t src
  end.

(** ** Specification *)

(** Distinct multi-indices address distinct elements. *)
Definition layout_inj (l : Layout) : Prop :=
  ∀ i j, in_range (l_shape l) i → in_range (l_shape l) j → address l i = address l j → i = j.

Definition op_operand (op : inplace_op) : option Tensor :=
  match op with
  | IAdd t | ISub t | IMul t | IDiv t | ICopy t => Some t
  | _ => None
  end.

(** A second operand is another handle: sharing the storage of the first one
    means a count of at least two.  The arithmetic operations read it through
    the strides of its shape, so it must be contiguous.  A fill value is an
    [f64]. *)
Definition operand_ok (w : World) (op : inplace_op) (t : Tensor) : Prop :=
  match op_operand op with
  | None => match op with IFill v => uint 64 v | _ => True end
  | Some rhs => tensor_wf w rhs
      ∧ (st_arc (t_storage rhs) = st_arc (t_storage t) → strong_count w (t_storage t) ≠ 1)
      ∧ match op with ICopy _ => True | _ => is_contiguous (t_layout rhs) = true end
  end.

(** The shape and dtype conditions of each call. *)
Definition op_typed (op : inplace_op) (t : Tensor) : Prop :=
  is_Some (match t_dtype t with F32 | F64 => Some (t_dtype t) | _ => None end)
  ∧ match op with
    | IAdd rhs | ISub rhs | IMul rhs | IDiv rhs =>
        t_dtype t = t_dtype rhs ∧ expandable (t_shape rhs) (t_shape t)
    | ICopy src => t_dtype t = t_dtype src ∧ t_shape t = t_shape src
    | _ => True
    end.

Definition float_format (d : Dtype) : format := default binary32 (dtype_format d).

(** The value the call computes at a multi-index, from the values before. *)
Definition op_value (op : inplace_op) (w : World) (t : Tensor) (idx : list Z) : Z :=
  let f := float_format (t_dtype t) in
  let x := element w t idx in
  let y rhs := element w rhs (source_index (t_shape rhs) idx) in
  match op with
  | IAdd rhs => fadd f x (y rhs)
  | ISub rhs => fsub f x (y rhs)
  | IMul rhs => fmul f x (y rhs)
  | IDiv rhs => fdiv f x (y rhs)
  | INeg => fneg f x
  | IAbs => fabs f x
  | IFill v => if bool_decide (t_dtype t = F32) then fcast binary64 binary32 v else v
  | IZero => 0
  | ICopy src => element w src idx
  end.

(** The world after writing [val] at every multi-index of [t]. *)
Definition written (w : World) (t : Tensor) (val : list Z → Z) (w' : World) : Prop :=
  tensor_wf w' t
  ∧ (∀ idx, in_range (t_shape t) idx →
       element w' t idx = wrap (8 * Dtype_byte_size (t_dtype t)) (val idx))
  ∧ (∀ a, (∀ idx, in_range (t_shape t) idx → Z.to_nat (address (t_layout t) idx) ≠ a) →
       raw_slice w' t !! a = raw_slice w t !! a)
  ∧ (∀ s, handle w s → handle w' s ∧ strong_count w' s = strong_count w s
       ∧ (st_arc s ≠ st_arc (t_storage t) → as_bytes w' s = as_bytes w s)).

(** ** Lemmas *)

(** *** Sharding *)

Lemma chunks_zip (op : Z → Z → Z) k fuel l r :
  (0 < k)%nat → length l = length r → (length l ≤ fuel)%nat →
  concat (zip_with (zip_with op) (chunks fuel k l) (chunks fuel k r)) = zip_with op l r.
Proof.
  intros Hk. revert l r. induction fuel as [|fuel IH]; intros [|x l] [|y r]; simpl; try done; [lia|].
  intros [= Hl] Hf. destruct k as [|k]; [lia|]. simpl. f_equal.
  rewrite IH by (rewrite ?length_drop; lia).
  rewrite <- zip_with_app by (rewrite !length_take; lia). by rewrite !take_drop.
Qed.

Lemma dense_loop_zip threads op l r :
  length l = length r → dense_loop threads op l r = zip_with op l r.
Proof.
  intros Hl. unfold dense_loop, par_chunks. case_match; [|done]. rewrite Hl.
  apply chunks_zip; lia.
Qed.

(** *** Loops that update one cell per step *)

Lemma update_loop {E} (body : list Z → nat → res E (list Z)) (addr : nat → nat)
    (g : nat → Z → Z) n raw :
  (∀ i r, (i < n)%nat → length r = length raw →
     body r i = Ok (<[addr i := g i (r !!! addr i)]> r)) →
  (∀ i, (i < n)%nat → (addr i < length raw)%nat) →
  (∀ i j, (i < n)%nat → (j < n)%nat → addr i = addr j → i = j) →
  ∃ raw', rfold body raw (seq 0 n) = Ok raw' ∧ length raw' = length raw
    ∧ (∀ i, (i < n)%nat → raw' !! addr i = Some (g i (raw !!! addr i)))
    ∧ (∀ a, (∀ i, (i < n)%nat → addr i ≠ a) → raw' !! a = raw !! a).
Proof.
  intros Hbody Hlt Hinj. induction n as [|n IH].
  { exists raw. split_and!; [done|done| |done]. intros i Hi. lia. }
  destruct IH as (r & Hr & Hl & Hset & Hkeep); [auto with lia..|].
  exists (<[addr n := g n (r !!! addr n)]> r). split_and!.
  - rewrite seq_S, rfold_app, Hr. simpl. by rewrite Hbody by lia.
  - by rewrite length_insert.
  - intros i Hi. destruct (decide (i = n)) as [->|Hne].
    + rewrite list_lookup_insert_eq by (rewrite Hl; auto). do 2 f_equal.
      rewrite !list_lookup_total_alt, Hkeep; [done|]. intros j Hj Heq.
      specialize (Hinj j n ltac:(lia) ltac:(lia) Heq). lia.
    + rewrite list_lookup_insert_ne; [by apply Hset; lia|].
      intros Heq. apply Hne, (Hinj i n); [lia|lia|done].
  - intros a Ha. rewrite list_lookup_insert_ne by (apply Ha; lia). apply Hkeep. auto with lia.
Qed.

(** *** Writing a slice back *)

Lemma raw_slice_length w t :
  world_wf w → handle w (t_storage t) →
  Z.of_nat (length (raw_slice w t)) = st_byte_len (t_storage t) / Dtype_byte_size (t_dtype t).
Proof. intros Hw Hh. by apply handle_typed_length. Qed.

Lemma raw_slice_bytes_length w t :
  (length (raw_slice w t) * elem_size (t_dtype t) ≤ length (as_bytes w (t_storage t)))%nat.
Proof.
  unfold raw_slice. rewrite length_typed_slice. pose proof (elem_size_pos (t_dtype t)).
  rewrite Nat.mul_comm. apply Nat.Div0.mul_div_le.
Qed.

Lemma typed_slice_encode_app d raw rest :
  (length rest < elem_size d)%nat →
  typed_slice (elem_size d) (encode_elems (elem_size d) raw ++ rest)
  = wrap (8 * Dtype_byte_size d) <$> raw.
Proof.
  intros Hrest. pose proof (elem_size_pos d) as Hp.
  assert (length (encode_elems (elem_size d) raw ++ rest) / elem_size d = length raw)%nat as Hlen.
  { rewrite length_app, length_encode_elems, Nat.add_comm, Nat.div_add by lia.
    by rewrite Nat.div_small. }
  apply list_eq_same_length with (length raw);
    [by rewrite length_fmap|by rewrite length_typed_slice|].
  intros i x y Hi Hx Hy. rewrite typed_slice_lookup in Hx by lia. injection Hx as <-.
  rewrite list_lookup_fmap in Hy. destruct (raw !! i) as [z|] eqn:Hz; simpl in Hy; [|done].
  injection Hy as <-. rewrite <- elem_size_Z. unfold wrap.
  rewrite <- (elem_at_encode _ _ _ _ Hz). unfold elem_at.
  pose proof (lookup_lt_Some _ _ _ Hz). rewrite drop_app_le, take_app_le; [done| |];
    rewrite ?length_drop, length_encode_elems; nia.
Qed.

Lemma as_bytes_write w s old bytes :
  world_wf w → handle w s → as_bytes_mut w s = Some old → length bytes = length (as_bytes w s) →
  as_bytes (write_bytes w s bytes) s = bytes.
Proof.
  intros Hw (i & n & Ha & Hl) Hm Hlen. unfold write_bytes, as_bytes_mut, as_bytes in *.
  destruct (Z.eqb_spec (st_byte_len s) 0) as [|Hz]; [by destruct bytes|].
  unfold fill_buffer. rewrite Ha. simpl. by rewrite Ha, lookup_insert_eq.
Qed.

Lemma write_bytes_frame w s bytes s' :
  world_wf w → handle w s → handle w s' →
  handle (write_bytes w s bytes) s' ∧ strong_count (write_bytes w s bytes) s' = strong_count w s'
  ∧ (st_arc s' ≠ st_arc s → as_bytes (write_bytes w s bytes) s' = as_bytes w s').
Proof.
  intros Hw (i & n & Ha & Hl) Hh'. unfold write_bytes.
  destruct (Z.eqb_spec (st_byte_len s) 0) as [|Hz]; [done|].
  destruct (fill_buffer_handles w s bytes s' Hh'). split_and!; [done|done|]. intros Hne.
  eapply fill_buffer_other; [done|exact Ha|lia|done|done].
Qed.

(** Writing a slice of the same length: its elements, and nothing else. *)
Lemma write_slice_spec w t old raw :
  tensor_wf w t → as_bytes_mut w (t_storage t) = Some old → length raw = length (raw_slice w t) →
  let w' := write_slice w t raw in
  tensor_wf w' t ∧ raw_slice w' t = wrap (8 * Dtype_byte_size (t_dtype t)) <$> raw
  ∧ versions w' = versions w
  ∧ ∀ s, handle w s → handle w' s ∧ strong_count w' s = strong_count w s
       ∧ (st_arc s ≠ st_arc (t_storage t) → as_bytes w' s = as_bytes w s).
Proof.
  intros (Hw & Hh & Hl & Hb) Hm Hlen w'. set (size := elem_size (t_dtype t)) in *.
  set (s := t_storage t) in *.
  set (bytes := encode_elems size raw ++ drop (length raw * size) (as_bytes w s)).
  assert (w' = write_bytes w s bytes) as Hw' by done.
  pose proof (raw_slice_bytes_length w t) as Hbl. fold s size in Hbl.
  assert (length bytes = length (as_bytes w s)) as Hbytes.
  { unfold bytes. rewrite length_app, length_drop, length_encode_elems. lia. }
  assert (as_bytes w' s = bytes) as Has by (rewrite Hw'; by eapply as_bytes_write).
  split.
  { split_and!.
    - rewrite Hw'. eapply write_bytes_wf; [done|done|exact Hm|]. rewrite Hbytes.
      unfold as_bytes_mut, as_bytes in *. destruct (st_byte_len s =? 0); [by injection Hm as <-|].
      destruct (is_unique w s); [by injection Hm as <-|done].
    - rewrite Hw'. by apply write_bytes_frame.
    - done.
    - fold s. rewrite Has. apply Forall_app. split; [apply encode_elems_bytes|by apply Forall_drop]. }
  split_and!.
  - unfold raw_slice. fold s size. rewrite Has. apply typed_slice_encode_app.
    rewrite length_drop, Hlen. unfold raw_slice. fold s size. rewrite length_typed_slice.
    pose proof (elem_size_pos (t_dtype t)) as Hp. fold size in Hp.
    pose proof (Nat.div_mod (length (as_bytes w s)) size ltac:(lia)) as Hdm.
    pose proof (Nat.mod_upper_bound (length (as_bytes w s)) size ltac:(lia)). lia.
  - rewrite Hw'. unfold write_bytes, fill_buffer. repeat case_match; done.
  - rewrite Hw'. intros s' Hs'. by apply write_bytes_frame.
Qed.

(** *** From slices to elements *)

Lemma element_raw w t idx :
  tensor_wf w t → in_range (t_shape t) idx →
  raw_slice w t !! Z.to_nat (address (t_layout t) idx) = Some (element w t idx)
  ∧ 0 ≤ address (t_layout t) idx.
Proof.
  intros (Hw & Hh & Hl & _) Hr. pose proof (li_bound _ _ Hl _ Hr) as Hb.
  pose proof (in_range_shape_pos _ _ Hr) as Hpos. apply zprod_pos_inv in Hpos.
  pose proof (dot_nonneg _ _ _ Hr (li_strides _ _ Hl Hpos)).
  pose proof (li_offset _ _ Hl Hpos). unfold address in *. split; [|lia].
  unfold raw_slice, element, address. rewrite typed_slice_lookup; [done|].
  rewrite <- length_typed_slice. apply Nat2Z.inj_lt.
  rewrite handle_typed_length by done. lia.
Qed.

(** The cell of the [i]-th element in shape order. *)
Definition cell (t : Tensor) (i : nat) : nat :=
  Z.to_nat (address (t_layout t) (unravel (t_shape t) (Z.of_nat i))).
Definition t_count (t : Tensor) : nat := Z.to_nat (zprod (t_shape t)).

Lemma t_count_numel w t : tensor_wf w t → Z.to_nat (t_numel t) = t_count t.
Proof. intros Hwf. by rewrite (t_numel_fits w t Hwf). Qed.

Lemma unravel_index w t i :
  tensor_wf w t → (i < t_count t)%nat →
  in_range (t_shape t) (unravel (t_shape t) (Z.of_nat i))
  ∧ ravel (t_shape t) (unravel (t_shape t) (Z.of_nat i)) = Z.of_nat i
  ∧ ∀ E, @strided_index E (Z.of_nat i) (t_shape t) (l_strides (t_layout t)) (l_offset (t_layout t))
         = Ok (address (t_layout t) (unravel (t_shape t) (Z.of_nat i))).
Proof.
  intros (_ & _ & Hl & _) Hi. unfold t_count in Hi. unfold t_shape in *.
  assert (0 ≤ Z.of_nat i < zprod (l_shape (t_layout t))) as Hb by lia.
  destruct (@layout_in_strided False _ _ _ Hl Hb) as (_ & Hr & _).
  split; [done|]. split.
  - apply ravel_unravel; [by eapply in_range_shape_pos|done].
  - intros E. by apply (layout_in_strided _ _ _ Hl).
Qed.

Lemma ravel_index w t idx :
  tensor_wf w t → in_range (t_shape t) idx →
  (Z.to_nat (ravel (t_shape t) idx) < t_count t)%nat
  ∧ cell t (Z.to_nat (ravel (t_shape t) idx)) = Z.to_nat (address (t_layout t) idx).
Proof.
  intros Hwf Hr. pose proof (ravel_bound _ _ Hr). unfold cell, t_count.
  rewrite Z2Nat.id by lia. rewrite unravel_ravel by done. split; [lia|done].
Qed.

Lemma cell_bound w t i :
  tensor_wf w t → (i < t_count t)%nat →
  raw_slice w t !! cell t i = Some (element w t (unravel (t_shape t) (Z.of_nat i)))
  ∧ (cell t i < length (raw_slice w t))%nat.
Proof.
  intros Hwf Hi. destruct (unravel_index w t i Hwf Hi) as (Hr & _).
  destruct (element_raw w t _ Hwf Hr) as [He _]. split; [done|].
  by eapply lookup_lt_Some.
Qed.

Lemma cell_inj w t i j :
  tensor_wf w t → layout_inj (t_layout t) → (i < t_count t)%nat → (j < t_count t)%nat →
  cell t i = cell t j → i = j.
Proof.
  intros Hwf Hinj Hi Hj Hc. destruct (unravel_index w t i Hwf Hi) as (Hri & Hvi & _).
  destruct (unravel_index w t j Hwf Hj) as (Hrj & Hvj & _).
  destruct (element_raw w t _ Hwf Hri), (element_raw w t _ Hwf Hrj).
  apply Nat2Z.inj. rewrite <- Hvi, <- Hvj. f_equal. apply Hinj; [done..|].
  unfold cell in Hc. lia.
Qed.

(** A slice in which the cell of each element was updated by [g]. *)
Definition updated (w : World) (t : Tensor) (g : nat → Z → Z) (raw : list Z) : Prop :=
  length raw = length (raw_slice w t)
  ∧ (∀ i, (i < t_count t)%nat → raw !! cell t i = Some (g i (raw_slice w t !!! cell t i)))
  ∧ (∀ a, (∀ i, (i < t_count t)%nat → cell t i ≠ a) → raw !! a = raw_slice w t !! a).

(** The loop of the strided kernels. *)
Lemma strided_loop w t (body : list Z → nat → res TensorError (list Z)) g n :
  tensor_wf w t → layout_inj (t_layout t) → n = t_count t →
  (∀ i r, (i < n)%nat → length r = length (raw_slice w t) →
     body r i = Ok (<[cell t i := g i (r !!! cell t i)]> r)) →
  ∃ raw, rfold body (raw_slice w t) (seq 0 n) = Ok raw ∧ updated w t g raw.
Proof.
  intros Hwf Hinj -> Hbody.
  destruct (update_loop body (cell t) g (t_count t) (raw_slice w t) Hbody) as (raw & Hr & H).
  - intros i Hi. by apply (cell_bound w t i).
  - intros i j Hi Hj. by eapply cell_inj.
  - by exists raw.
Qed.

(** The dense kernels: the elements are the first cells. *)
Lemma dense_cell w t i :
  tensor_wf w t → t_is_contiguous t = true → l_offset (t_layout t) = 0 →
  (i < t_count t)%nat → cell t i = i.
Proof.
  intros Hwf Hc Ho Hi. destruct (unravel_index w t i Hwf Hi) as (Hr & Hv & _).
  destruct Hwf as (_ & _ & Hl & _). unfold cell, address, t_shape, t_is_contiguous in *.
  rewrite (is_contiguous_dot _ _ _ Hl Hc Hr), Hv, Ho. lia.
Qed.

Lemma dense_count w t :
  tensor_wf w t → t_is_contiguous t = true → l_offset (t_layout t) = 0 →
  (t_count t ≤ length (raw_slice w t))%nat.
Proof.
  intros Hwf Hc Ho. destruct (decide (t_count t = 0)%nat) as [|Hn]; [lia|].
  destruct (cell_bound w t (t_count t - 1) Hwf ltac:(lia)) as [_ Hb].
  rewrite (dense_cell w t) in Hb by (done || lia). lia.
Qed.

Lemma dense_updated w t g ys :
  tensor_wf w t → t_is_contiguous t = true → l_offset (t_layout t) = 0 →
  length ys = t_count t →
  (∀ i, (i < t_count t)%nat → ys !! i = Some (g i (raw_slice w t !!! i))) →
  updated w t g (ys ++ drop (t_count t) (raw_slice w t)).
Proof.
  intros Hwf Hc Ho Hl Hg. pose proof (dense_count w t Hwf Hc Ho). split_and!.
  - rewrite length_app, length_drop. lia.
  - intros i Hi. rewrite (dense_cell w t) by done. rewrite lookup_app_l by lia. by apply Hg.
  - intros a Ha. destruct (decide (a < t_count t)%nat) as [Hlt|Hge].
    + exfalso. apply (Ha a Hlt). by eapply dense_cell.
    + rewrite lookup_app_r, lookup_drop by lia. f_equal. lia.
Qed.

(** Committing an updated slice writes the elements and bumps the version. *)
Lemma commit_written w t old g raw val :
  tensor_wf w t → as_bytes_mut w (t_storage t) = Some old → updated w t g raw →
  (∀ i, (i < t_count t)%nat →
     g i (element w t (unravel (t_shape t) (Z.of_nat i))) = val (unravel (t_shape t) (Z.of_nat i))) →
  written w t val (commit_slice w t raw)
  ∧ current (commit_slice w t raw) (t_version t) = wrap 64 (current w (t_version t) + 1).
Proof.
  intros Hwf Hm (Hlen & Hset & Hkeep) Hval.
  destruct (write_slice_spec w t old raw Hwf Hm Hlen) as (Hwf1 & Hraw & Hver & Hframe).
  set (w1 := write_slice w t raw) in *. assert (commit_slice w t raw = (bump w1 (t_version t)).1) as ->
    by done.
  assert (tensor_wf (bump w1 (t_version t)).1 t) as Hwf2.
  { destruct Hwf1 as (Hw1 & Hh1 & Hl1 & Hb1). split_and!; try done.
    by apply version_step_wf. }
  split.
  - split_and!; [done| | |exact Hframe].
    + intros idx Hr. change (element (bump w1 (t_version t)).1 t idx) with (element w1 t idx).
      destruct (ravel_index w t idx Hwf Hr) as [Hi Hc].
      destruct (element_raw w1 t idx Hwf1 Hr) as [He _].
      rewrite Hraw, list_lookup_fmap, <- Hc, Hset in He by done. simpl in He.
      injection He as <-. f_equal. destruct (cell_bound w t _ Hwf Hi) as [Hcb _].
      rewrite (list_lookup_total_correct _ _ _ Hcb).
      rewrite Hval by done. pose proof (ravel_bound _ _ Hr).
      rewrite Z2Nat.id, unravel_ravel by (done || lia). done.
    + intros a Ha. change (raw_slice (bump w1 (t_version t)).1 t) with (raw_slice w1 t).
      rewrite Hraw, list_lookup_fmap, Hkeep.
      * destruct (raw_slice w t !! a) as [x|] eqn:Hx; simpl; [|done]. f_equal.
        apply wrap_small. unfold raw_slice, typed_slice in Hx. rewrite list_lookup_fmap in Hx.
        destruct (seq _ _ !! a); simpl in Hx; [|done]. injection Hx as <-.
        apply elem_at_uint. apply Hwf.
      * intros i Hi. destruct (unravel_index w t i Hwf Hi) as (Hr & _). by apply Ha.
  - unfold current, bump; simpl. rewrite lookup_insert_eq. simpl. unfold current. by rewrite Hver.
Qed.

(** *** The kernels *)

(** What a kernel that computes [val] returns. *)
Definition kernel_post (w : World) (t : Tensor) (val : list Z → Z) (r : res TensorError World) : Prop :=
  match r with
  | Ok w' => written w t val w'
      ∧ (0 < zprod (t_shape t) → current w' (t_version t) = wrap 64 (current w (t_version t) + 1))
      ∧ (0 < zprod (t_shape t) → strong_count w (t_storage t) = 1)
  | Err Aliased => strong_count w (t_storage t) ≠ 1
  | _ => False
  end.

Lemma storage_mut_spec w t (k : list Z → res TensorError World) val :
  tensor_wf w t →
  (∀ old, as_bytes_mut w (t_storage t) = Some old →
     (0 < zprod (t_shape t) → strong_count w (t_storage t) = 1) → kernel_post w t val (k old)) →
  kernel_post w t val (rbind (storage_mut_for_inplace w t) k).
Proof.
  intros Hwf Hk. unfold storage_mut_for_inplace.
  destruct (as_bytes_mut w (t_storage t)) as [old|] eqn:Hm; simpl.
  - apply Hk; [done|]. intros Hne. unfold as_bytes_mut in Hm.
    destruct (Z.eqb_spec (st_byte_len (t_storage t)) 0) as [H0|].
    + destruct (cell_bound w t 0 Hwf) as [_ Hb]; [unfold t_count; lia|].
      destruct Hwf as (Hw & Hh & _). pose proof (raw_slice_length w t Hw Hh) as Hl.
      rewrite H0, Z.div_0_l in Hl by (pose proof (byte_size_pos (t_dtype t)); lia). lia.
    + unfold is_unique in Hm. destruct (Z.eqb_spec (strong_count w (t_storage t)) 1); done.
  - unfold as_bytes_mut, is_unique in Hm. destruct (st_byte_len _ =? 0); [done|].
    destruct (Z.eqb_spec (strong_count w (t_storage t)) 1); done.
Qed.

Lemma commit_kernel w t old g raw val :
  tensor_wf w t → as_bytes_mut w (t_storage t) = Some old →
  (0 < zprod (t_shape t) → strong_count w (t_storage t) = 1) → updated w t g raw →
  (∀ i, (i < t_count t)%nat →
     g i (element w t (unravel (t_shape t) (Z.of_nat i))) = val (unravel (t_shape t) (Z.of_nat i))) →
  kernel_post w t val (Ok (commit_slice w t raw)).
Proof. intros. destruct (commit_written w t old g raw val); done. Qed.

(** A step of the strided loops on its own tensor. *)
Lemma own_step w t (f : Z → Z) i r :
  tensor_wf w t → (i < t_count t)%nat → length r = length (raw_slice w t) →
  (let? idx := strided_index (Z.of_nat i) (t_shape t) (l_strides (t_layout t))
                 (l_offset (t_layout t)) in
   let? a := unwrap_opt (r !! Z.to_nat idx) in
   vec_set r (Z.to_nat idx) (f a))
  = @Ok TensorError _ (<[cell t i := f (r !!! cell t i)]> r).
Proof.
  intros Hwf Hi Hl. destruct (unravel_index w t i Hwf Hi) as (_ & _ & ->). simpl.
  change (Z.to_nat (address (t_layout t) (unravel (t_shape t) (Z.of_nat i)))) with (cell t i).
  destruct (cell_bound w t i Hwf Hi) as [_ Hb].
  rewrite (list_lookup_lookup_total_lt r) by lia. simpl. unfold vec_set.
  by rewrite (proj2 (Nat.ltb_lt _ _)) by lia.
Qed.

Lemma strided_map_kernel w t f val old :
  tensor_wf w t → layout_inj (t_layout t) → as_bytes_mut w (t_storage t) = Some old →
  (0 < zprod (t_shape t) → strong_count w (t_storage t) = 1) →
  (∀ idx, in_range (t_shape t) idx → f (element w t idx) = val idx) →
  kernel_post w t val (let? raw := strided_map t f (raw_slice w t) in Ok (commit_slice w t raw)).
Proof.
  intros Hwf Hinj Hm Hc Hval. unfold strided_map. rewrite (t_count_numel w t Hwf).
  match goal with |- context [rfold ?body _ _] =>
    destruct (strided_loop w t body (λ _, f) (t_count t) Hwf Hinj eq_refl) as (raw & -> & Hu) end.
  { intros i r Hi Hl. by apply (own_step w). }
  simpl. eapply commit_kernel; [done..|]. intros i Hi. simpl. apply Hval.
  by apply (unravel_index w).
Qed.

Lemma unary_kernel w t f val :
  tensor_wf w t → layout_inj (t_layout t) →
  (∀ idx, in_range (t_shape t) idx → f (element w t idx) = val idx) →
  kernel_post w t val (unary_inplace_typed f w t).
Proof.
  intros Hwf Hinj Hval. apply storage_mut_spec; [done|]. intros old Hm Hc.
  rewrite (t_count_numel w t Hwf).
  cbv beta zeta. match goal with |- kernel_post _ _ _ (if ?b then _ else _) => destruct b eqn:Hd end.
  2: by eapply strided_map_kernel.
  apply andb_true_iff in Hd as [[Ho%Z.eqb_eq Hct]%andb_true_iff Hn%Nat.leb_le].
  eapply (commit_kernel _ _ _ (λ _, f)); [done..| |].
  - apply dense_updated; [done..| |].
    + rewrite length_fmap, length_take. lia.
    + intros i Hi. rewrite list_lookup_fmap, lookup_take_lt by done.
      by rewrite (list_lookup_lookup_total_lt _ i) by lia.
  - intros i Hi. simpl. apply Hval. by apply (unravel_index w).
Qed.

Lemma fill_kernel w t v val :
  tensor_wf w t → layout_inj (t_layout t) → (∀ idx, in_range (t_shape t) idx → v = val idx) →
  kernel_post w t val (fill_inplace v w t).
Proof.
  intros Hwf Hinj Hval. apply storage_mut_spec; [done|]. intros old Hm Hc.
  by eapply strided_map_kernel.
Qed.

(** A step that combines the cell with an element of the second operand. *)
Lemma pair_step w t ra (b : Z) (f : Z → Z → Z) (rraw : list Z) i r :
  tensor_wf w t → (i < t_count t)%nat → length r = length (raw_slice w t) →
  rraw !! Z.to_nat ra = Some b →
  (let? li := strided_index (Z.of_nat i) (t_shape t) (l_strides (t_layout t))
                (l_offset (t_layout t)) in
   let? ri := Ok ra in
   let? a := unwrap_opt (r !! Z.to_nat li) in
   let? b := unwrap_opt (rraw !! Z.to_nat ri) in
   vec_set r (Z.to_nat li) (f a b))
  = @Ok TensorError _ (<[cell t i := f (r !!! cell t i) b]> r).
Proof.
  intros Hwf Hi Hl Hb. rewrite <- (own_step w t (λ a, f a b) i r Hwf Hi Hl).
  destruct (strided_index _ _ _ _); simpl; [|done..].
  destruct (r !! Z.to_nat a); simpl; [|done]. by rewrite Hb.
Qed.

(** The address that the strides of the right shape give. *)
Lemma operand_at w rhs shape strides i :
  tensor_wf w rhs → is_contiguous (t_layout rhs) = true → shape_wf shape →
  expand_strides_to (t_shape rhs) shape = Ok strides → (i < Z.to_nat (zprod shape))%nat →
  let idx := unravel shape (Z.of_nat i) in
  ∃ a, (∀ E, @strided_index E (Z.of_nat i) shape strides (l_offset (t_layout rhs)) = Ok a)
    ∧ raw_slice w rhs !! Z.to_nat a = Some (element w rhs (source_index (t_shape rhs) idx)).
Proof.
  intros Hwr Hc Hw He Hi idx.
  assert (Forall (λ d, 0 < d) shape) as Hpos by (apply zprod_pos; [lia|by apply shape_wf_nonneg]).
  assert (in_range shape idx) as Hr by (apply unravel_range; [done|lia]).
  pose proof Hwr as (_ & _ & Hlr & _).
  pose proof (expand_strides_to_spec (t_shape rhs) shape (li_fits _ _ Hlr)) as H.
  rewrite He in H. destruct H as (_ & Hlen & Hdot). destruct (Hdot idx Hr) as [Hsr Hd].
  destruct (element_raw w rhs _ Hwr Hsr) as [Hel Hnn].
  pose proof (li_bound _ _ Hlr _ Hsr) as Hb. pose proof (li_len _ _ Hlr).
  assert (address (t_layout rhs) (source_index (t_shape rhs) idx)
    = l_offset (t_layout rhs) + dot idx strides) as Ha.
  { unfold address. rewrite (is_contiguous_dot _ _ _ Hlr Hc Hsr), Hd. done. }
  exists (address (t_layout rhs) (source_index (t_shape rhs) idx)). split; [|done].
  intros E. rewrite strided_index_dot by (done || lia).
  fold idx. rewrite <- Ha. f_equal. apply wrap_small. unfold uint. lia.
Qed.

Lemma operand_address w t rhs strides i :
  tensor_wf w t → tensor_wf w rhs → is_contiguous (t_layout rhs) = true →
  expand_strides_to (t_shape rhs) (t_shape t) = Ok strides → (i < t_count t)%nat →
  let idx := unravel (t_shape t) (Z.of_nat i) in
  ∃ a, (∀ E, @strided_index E (Z.of_nat i) (t_shape t) strides (l_offset (t_layout rhs)) = Ok a)
    ∧ raw_slice w rhs !! Z.to_nat a = Some (element w rhs (source_index (t_shape rhs) idx)).
Proof.
  intros (_ & _ & Hl & _) Hwr Hc He Hi. apply operand_at; [done|done| |done|done].
  apply (li_fits _ _ Hl).
Qed.

Lemma binary_kernel threads f w t rhs val :
  tensor_wf w t → layout_inj (t_layout t) → tensor_wf w rhs → t_dtype t = t_dtype rhs →
  is_contiguous (t_layout rhs) = true → expandable (t_shape rhs) (t_shape t) →
  (∀ idx, in_range (t_shape t) idx →
     f (element w t idx) (element w rhs (source_index (t_shape rhs) idx)) = val idx) →
  kernel_post w t val (binary_inplace_typed threads f w t rhs).
Proof.
  intros Hwf Hinj Hwr Hdt Hc Hexp Hval. unfold binary_inplace_typed.
  pose proof (expand_strides_to_spec (t_shape rhs) (t_shape t)
    (li_fits _ _ (proj1 (proj2 (proj2 Hwr))))) as He.
  destruct (expand_strides_to (t_shape rhs) (t_shape t)) as [strides|e|] eqn:Hes; simpl; [|done..].
  clear He. apply storage_mut_spec; [done|]. intros old Hm Hcnt.
  rewrite (t_count_numel w t Hwf). case_match eqn:Hd.
  - rewrite !andb_true_iff, !Z.eqb_eq, !Nat.leb_le, bool_decide_eq_true in Hd.
    destruct Hd as ((((((Ho & Hor) & Hs) & Hct) & Hcr) & Hn) & Hnr).
    rewrite dense_loop_zip by (rewrite !length_take; lia).
    eapply (commit_kernel _ _ _ (λ i x, f x (element w rhs
      (source_index (t_shape rhs) (unravel (t_shape t) (Z.of_nat i)))))); [done..| |].
    + apply dense_updated; [done..| |].
      * rewrite length_zip_with, !length_take. lia.
      * intros i Hi. rewrite lookup_zip_with, !lookup_take_lt by done.
        rewrite (list_lookup_lookup_total_lt (raw_slice w t) i) by lia. simpl.
        destruct (operand_address w t rhs strides i Hwf Hwr Hc Hes Hi) as (a & Ha & Hel).
        destruct (unravel_index w t i Hwf Hi) as (Hri & Hrv & _).
        assert (source_index (t_shape rhs) (unravel (t_shape t) (Z.of_nat i))
          = unravel (t_shape rhs) (Z.of_nat i)) as ->.
        { rewrite <- Hs. apply source_index_same. exact Hri. }
        rewrite <- (dense_cell w rhs i) at 1 by (done || (unfold t_count in *; by rewrite <- Hs)).
        destruct (cell_bound w rhs i Hwr ltac:(unfold t_count in *; by rewrite <- Hs)) as [-> _].
        done.
    + intros i Hi. apply Hval. by apply (unravel_index w).
  - match goal with |- context [rfold ?body _ _] =>
      destruct (strided_loop w t body (λ i x, f x (element w rhs
        (source_index (t_shape rhs) (unravel (t_shape t) (Z.of_nat i)))))
        (t_count t) Hwf Hinj eq_refl) as (raw & -> & Hu) end.
    { intros i r Hi Hl.
      destruct (operand_address w t rhs strides i Hwf Hwr Hc Hes Hi) as (a & Ha & Hel).
      rewrite Ha. by apply (pair_step w). }
    simpl. eapply commit_kernel; [done..|]. intros i Hi. simpl. apply Hval.
    by apply (unravel_index w).
Qed.

Lemma copy_kernel w t src val :
  tensor_wf w t → layout_inj (t_layout t) → tensor_wf w src → t_dtype t = t_dtype src →
  t_shape t = t_shape src → (∀ idx, in_range (t_shape t) idx → element w src idx = val idx) →
  kernel_post w t val (copy_inplace_typed w t src).
Proof.
  intros Hwf Hinj Hws Hd Hs Hval. unfold copy_inplace_typed.
  apply storage_mut_spec; [done|]. intros old Hm Hcnt. rewrite (t_count_numel w t Hwf).
  match goal with |- context [rfold ?body _ _] =>
    destruct (strided_loop w t body (λ i _, element w src (unravel (t_shape t) (Z.of_nat i)))
      (t_count t) Hwf Hinj eq_refl) as (raw & -> & Hu) end.
  { intros i r Hi Hl. destruct (unravel_index w t i Hwf Hi) as (_ & _ & ->). simpl.
    assert ((i < t_count src)%nat) as Hi' by (unfold t_count in *; by rewrite <- Hs).
    destruct (unravel_index w src i Hws Hi') as (_ & _ & Hsi). rewrite Hs, Hsi. simpl.
    change (Z.to_nat (address (t_layout src) (unravel (t_shape src) (Z.of_nat i))))
      with (cell src i).
    destruct (cell_bound w src i Hws Hi') as [-> _]. simpl. unfold vec_set.
    rewrite <- Hs.
    change (Z.to_nat (address (t_layout t) (unravel (t_shape t) (Z.of_nat i)))) with (cell t i).
    destruct (cell_bound w t i Hwf Hi) as [_ Hb].
    by rewrite (proj2 (Nat.ltb_lt _ _)) by lia. }
  simpl. eapply commit_kernel; [done..|]. intros i Hi. simpl. apply Hval.
  by apply (unravel_index w).
Qed.

(** An empty tensor has nothing to write. *)
Lemma written_empty w t val : tensor_wf w t → t_count t = 0%nat → written w t val w.
Proof.
  intros Hwf H0. split_and!; [done| |done|done]. intros idx Hr.
  pose proof (in_range_shape_pos _ _ Hr) as Hp. apply zprod_pos_inv in Hp.
  unfold t_count in H0. lia.
Qed.

Lemma dense_f32_kernel threads f w t rhs val :
  tensor_wf w t → tensor_wf w rhs → dense_f32 t rhs = true →
  (∀ idx, in_range (t_shape t) idx →
     f (element w t idx) (element w rhs (source_index (t_shape rhs) idx)) = val idx) →
  kernel_post w t val (dense_f32_inplace threads f w t rhs).
Proof.
  intros Hwf Hwr Hd Hval. unfold dense_f32 in Hd.
  rewrite !andb_true_iff, !bool_decide_eq_true, !Z.eqb_eq in Hd.
  destruct Hd as ((((((Hdt & Hdr) & Hct) & Hcr) & Ho) & Hor) & Hs).
  unfold dense_f32_inplace. rewrite (t_count_numel w t Hwf).
  destruct (Nat.eqb_spec (t_count t) 0) as [H0|H0].
  { unfold t_count in H0. split; [by apply written_empty|].
    split; intros; exfalso; lia. }
  assert (t_count rhs = t_count t) as Hcnt by (unfold t_count; by rewrite Hs).
  pose proof (dense_count w t Hwf Hct Ho). pose proof (dense_count w rhs Hwr Hcr Hor).
  cbv zeta. rewrite (proj2 (Nat.ltb_ge _ _)) by lia.
  apply storage_mut_spec; [done|]. intros old Hm Hc. cbv beta.
  rewrite (proj2 (Nat.ltb_ge _ _)) by lia. rewrite dense_loop_zip by (rewrite !length_take; lia).
  eapply (commit_kernel _ _ _ (λ i x, f x (element w rhs
    (source_index (t_shape rhs) (unravel (t_shape t) (Z.of_nat i)))))); [done..| |].
  - apply dense_updated; [done..| |].
    + rewrite length_zip_with, !length_take. lia.
    + intros i Hi. rewrite lookup_zip_with, !lookup_take_lt by done.
      rewrite (list_lookup_lookup_total_lt (raw_slice w t) i) by lia. simpl.
      destruct (unravel_index w t i Hwf Hi) as (Hri & Hrv & _).
      rewrite <- Hs, source_index_same by done. rewrite Hs.
      rewrite <- (dense_cell w rhs i) at 1 by (done || lia).
      destruct (cell_bound w rhs i Hwr ltac:(lia)) as [-> _]. done.
  - intros i Hi. apply Hval. by apply (unravel_index w).
Qed.

(** *** The methods *)

(** What a method returns: [typed] is its condition on shapes and dtypes. *)
Definition method_post (w : World) (t : Tensor) (typed : Prop) (val : list Z → Z)
    (r : res TensorError World) : Prop :=
  match r with
  | Ok _ | Err Aliased => typed ∧ kernel_post w t val r
  | Err (DtypeMismatch _ _) | Err (ShapeMismatch _ _) => ¬ typed
  | _ => False
  end.

Lemma kernel_method w t (typed : Prop) val r :
  typed → kernel_post w t val r → method_post w t typed val r.
Proof. destruct r as [|[]|]; simpl; tauto. Qed.

Lemma binary_method_spec threads op w t rhs :
  tensor_wf w t → layout_inj (t_layout t) → tensor_wf w rhs →
  is_contiguous (t_layout rhs) = true →
  let f := op (float_format (t_dtype t)) in
  method_post w t (op_typed (IAdd rhs) t)
    (λ idx, f (element w t idx) (element w rhs (source_index (t_shape rhs) idx)))
    (binary_method threads op w t rhs).
Proof.
  intros Hwf Hinj Hwr Hc f. unfold binary_method.
  destruct (dense_f32 t rhs) eqn:Hd.
  - apply kernel_method.
    + unfold dense_f32 in Hd. rewrite !andb_true_iff, !bool_decide_eq_true in Hd.
      destruct Hd as ((((((Hdt & Hdr) & _) & _) & _) & _) & Hs).
      unfold op_typed. rewrite Hdt, Hdr, Hs. split; [by eexists|]. split; [done|].
      split; [done|]. intros i Hi. by left.
    + apply dense_f32_kernel; [done..|]. intros idx Hr. unfold f.
      unfold dense_f32 in Hd. rewrite !andb_true_iff, !bool_decide_eq_true in Hd.
      destruct Hd as ((((((Hdt & _) & _) & _) & _) & _) & _). by rewrite Hdt.
  - unfold binary_inplace. case_bool_decide as Hdt; simpl.
    2: by intros (_ & ? & _).
    pose proof (expand_strides_to_spec (t_shape rhs) (t_shape t)
      (li_fits _ _ (proj1 (proj2 (proj2 Hwr))))) as He.
    destruct (expand_strides_to (t_shape rhs) (t_shape t)) as [strides|e|] eqn:Hes; simpl; [| |done].
    2: by intros (_ & _ & ?).
    destruct He as [Hexp _].
    assert (∀ g, f = g → kernel_post w t
      (λ idx, f (element w t idx) (element w rhs (source_index (t_shape rhs) idx)))
      (binary_inplace_typed threads g w t rhs)) as Hk.
    { intros g <-. by apply binary_kernel. }
    unfold f, float_format, op_typed in *.
    destruct (t_dtype t) eqn:Ht;
      try (by intros ([? [=]] & _)); apply kernel_method; try (by apply Hk);
      (split; [by eexists|]; split; [congruence|done]).
Qed.

Lemma unary_method_spec op w t :
  tensor_wf w t → layout_inj (t_layout t) →
  method_post w t (op_typed INeg t) (λ idx, op (float_format (t_dtype t)) (element w t idx))
    (unary_inplace op w t).
Proof.
  intros Hwf Hinj. unfold unary_inplace, op_typed, float_format.
  destruct (t_dtype t) eqn:Ht; try (by intros ([? [=]] & _));
    (apply kernel_method; [split; [by eexists|done]|by apply unary_kernel]).
Qed.

Lemma fill_method_spec v w t :
  tensor_wf w t → layout_inj (t_layout t) →
  method_post w t (op_typed INeg t) (op_value (IFill v) w t) (fill_ v w t).
Proof.
  intros Hwf Hinj. unfold fill_, op_typed, op_value.
  destruct (t_dtype t) eqn:Ht; try (by intros ([? [=]] & _));
    (apply kernel_method; [split; [by eexists|done]|by apply fill_kernel]).
Qed.

Lemma copy_method_spec w t src :
  tensor_wf w t → layout_inj (t_layout t) → tensor_wf w src →
  method_post w t (op_typed (ICopy src) t) (element w src) (copy_ w t src).
Proof.
  intros Hwf Hinj Hws. unfold copy_, op_typed.
  case_bool_decide as Hd; simpl; [|by intros (_ & ? & _)].
  case_bool_decide as Hs; simpl; [|by intros (_ & _ & ?)].
  destruct (t_dtype t) eqn:Ht; try (by intros ([? [=]] & _));
    (apply kernel_method; [split; [by eexists|done]|]; apply copy_kernel; congruence || done).
Qed.

Lemma method_post_ext w t typed val val' r :
  (∀ idx, val idx = val' idx) → method_post w t typed val r → method_post w t typed val' r.
Proof.
  intros Hv. destruct r as [w'|[]|]; simpl; try done.
  intros (Ht & (Hwf & He & Hk) & Hr). split; [done|]. split; [|done]. split; [done|].
  split; [|done]. intros idx Hi. rewrite He by done. by rewrite Hv.
Qed.

Lemma zero_value t : fcast binary64 binary32 0 = 0 ∧
  (if bool_decide (t_dtype t = F32) then fcast binary64 binary32 0 else 0) = 0.
Proof.
  assert (fcast binary64 binary32 0 = 0) as E by (vm_compute; reflexivity).
  split; [done|]. by case_bool_decide.
Qed.

Lemma run_inplace_spec threads op w t :
  tensor_wf w t → layout_inj (t_layout t) → operand_ok w op t →
  method_post w t (op_typed op t) (op_value op w t) (run_inplace threads op w t).
Proof.
  intros Hwf Hinj Hok. unfold operand_ok in Hok. destruct op; simpl in *.
  - destruct Hok as (? & _ & ?). by apply (binary_method_spec _ fadd).
  - destruct Hok as (? & _ & ?). by apply (binary_method_spec _ fsub).
  - destruct Hok as (? & _ & ?). by apply (binary_method_spec _ fmul).
  - destruct Hok as (? & _ & ?). by apply (binary_method_spec _ fdiv).
  - by apply (unary_method_spec fneg).
  - by apply (unary_method_spec fabs).
  - by apply fill_method_spec.
  - eapply method_post_ext; [|by apply (fill_method_spec 0)]. intros idx. simpl.
    apply zero_value.
  - destruct Hok as (? & _). by apply copy_method_spec.
Qed.

Lemma Layout_contiguous_inj s d : shape_fits s → layout_inj (Layout_contiguous s d).
Proof.
  intros Hf i j Hi Hj. simpl in *. rewrite !Layout_contiguous_address by done.
  by apply ravel_inj.
Qed.

Lemma element_uint w t idx :
  tensor_wf w t → uint (8 * Dtype_byte_size (t_dtype t)) (element w t idx).
Proof. intros (_ & _ & _ & Hb). by apply elem_at_uint. Qed.

(** The values are bit patterns of the dtype. *)
Lemma op_value_uint op w t idx :
  tensor_wf w t → operand_ok w op t → op_typed op t →
  uint (8 * Dtype_byte_size (t_dtype t)) (op_value op w t idx).
Proof.
  intros Hwf Hok [[d Hd] Hty].
  assert (format_wf (float_format (t_dtype t))
    ∧ f_width (float_format (t_dtype t)) = 8 * Dtype_byte_size (t_dtype t)) as [Hf Hw].
  { destruct (t_dtype t); try done; (split; [apply binary32_wf || apply binary64_wf|done]). }
  pose proof (element_uint w t idx Hwf) as Hx. rewrite <- Hw in *.
  destruct op; simpl; try (by apply arith_uint).
  - by apply fneg_uint.
  - by apply fabs_uint.
  - unfold operand_ok in Hok. simpl in Hok. rewrite Hw. case_bool_decide as Ht.
    + rewrite Ht. apply (fcast_uint _ binary32), binary32_wf.
    + by destruct (t_dtype t).
  - unfold uint. split; [done|]. apply Z.pow_pos_nonneg; [lia|]. rewrite Hw.
    pose proof (byte_size_pos (t_dtype t)). lia.
  - unfold operand_ok in Hok. simpl in *. destruct Hok as [Hs _]. destruct Hty as [Hty _].
    rewrite Hw, Hty. by apply element_uint.
Qed.

(** ** Properties *)


(** The tensors of the examples: [F32] values 1.0 to 4.0. *)
Definition mk_f32 (w : World) (shape : Shape) (data : list Z) : World * Tensor :=
  match from_vec_typed no_oom ff_junk w F32 shape data with
  | Ok wt => wt
  | _ => (w, mkTensor (mkCpuStorage 0 0) (Layout_contiguous [] F32) 0 false Cpu)
  end.
Definition one_to_four : list Z := [0x3f800000; 0x40000000; 0x40400000; 0x40800000].
Definition world_a : World * Tensor := mk_f32 World_new [2; 2] [0; 0; 0; 0].
Definition world_b : World * Tensor := mk_f32 world_a.1 [2; 2] one_to_four.

(** [add_] on a storage that a clone shares is refused with an error; its
    documentation says that it panics. *)
Lemma add_of_shared_refused :
  add_ 1 (clone_storage world_b.1 (t_storage world_b.2)) world_b.2 world_a.2 = Err Aliased.
Proof. vm_compute. reflexivity. Qed.

(** the arithmetic methods and their operand's strides: adding the
    transpose of [[1, 2], [3, 4]] to zeros gives [[1, 2], [3, 4]], not the
    transpose, because the kernel walks the operand with the contiguous strides
    of its shape; copying the same transpose gives [[1, 3], [2, 4]]. *)
Theorem inplace_ignores_operand_strides :
  ∃ w tb w1 w2,
    run_view (OpTranspose 0 1) world_b.1 world_b.2 = Ok (w, tb)
    ∧ shape_order w tb = [0x3f800000; 0x40400000; 0x40000000; 0x40800000]
    ∧ run_inplace 1 (IAdd tb) w world_a.2 = Ok w1
    ∧ shape_order w1 world_a.2 = one_to_four
    ∧ run_inplace 1 (ICopy tb) w world_a.2 = Ok w2
    ∧ shape_order w2 world_a.2 = shape_order w tb.
Proof.
  destruct (run_view (OpTranspose 0 1) world_b.1 world_b.2) as [[w tb]|e|] eqn:Hv;
    [|vm_compute in Hv; discriminate..].
  vm_compute in Hv. injection Hv as <- <-.
  eexists _, _, _, _. split; [reflexivity|].
  split; [vm_compute; reflexivity|]. split; [vm_compute; reflexivity|].
  split; [vm_compute; reflexivity|]. split; vm_compute; reflexivity.
Qed.

(** *** Witnesses *)

Lemma extends_tensor_wf w w' t :
  world_wf w' → extends w w' → tensor_wf w t → tensor_wf w' t.
Proof.
  intros Hw He (_ & Hh & Hl & Hb). destruct (He _ Hh) as (Hh' & Hbs & _).
  split_and!; [done|done|done|]. by rewrite Hbs.
Qed.

Lemma mk_f32_spec w shape data :
  world_wf w → shape_fits shape → zprod shape * 4 < 2 ^ 63 → elems_wf F32 data →
  is_ok (from_vec_typed no_oom ff_junk w F32 shape data) = true →
  tensor_wf (mk_f32 w shape data).1 (mk_f32 w shape data).2 ∧ extends w (mk_f32 w shape data).1.
Proof.
  intros Hw Hs Hm Hd Hok. unfold mk_f32.
  pose proof (from_vec_typed_spec no_oom ff_junk ff_junk_len w F32 shape data Hw Hs Hm Hd) as H.
  destruct (from_vec_typed no_oom ff_junk w F32 shape data) as [[w' t]|e|]; [|done..].
  destruct H as (_ & Hwf & H). split; [exact Hwf|]. tauto.
Qed.

Lemma shape22_fits : shape_fits [2; 2].
Proof. split; [repeat constructor; vm_compute; congruence|vm_compute; reflexivity]. Qed.

Lemma worlds_wf :
  tensor_wf world_b.1 world_a.2 ∧ tensor_wf world_b.1 world_b.2.
Proof.
  destruct (mk_f32_spec World_new [2; 2] [0; 0; 0; 0] World_new_wf shape22_fits) as [Ha _];
    [vm_compute; reflexivity|repeat constructor; vm_compute; congruence|vm_compute; reflexivity|].
  fold world_a in Ha.
  destruct (mk_f32_spec world_a.1 [2; 2] one_to_four (proj1 Ha) shape22_fits) as [Hb He];
    [vm_compute; reflexivity|repeat constructor; vm_compute; congruence|vm_compute; reflexivity|].
  fold world_b in Hb, He. split; [|exact Hb]. eapply extends_tensor_wf; [apply Hb|exact He|exact Ha].
Qed.

