(* ===== verification/Iterator.v ===== *)
(** * Element-wise kernels (crates/rustorch-cpu/src/iterator.rs) and dtype
    conversion (crates/rustorch-core/src/tensor/convert.rs, [to_dtype])

    The drivers that every element-wise CPU kernel uses to make an output
    tensor from one or two inputs, and the conversion of a tensor to another
    dtype.  An element function acts on bit patterns. *)

From Stdlib Require Import ZArith Lia.
From stdpp Require Import base list gmap.
From S2P Require Import Prelude Dtype Float Shape Layout Storage Tensor View Mutate.

(** [enum BackendError]; operation names and messages are left out. *)
Inductive BackendError :=
  | BShapeMismatch (lhs rhs : list Z)
  | BDtypeMismatch (lhs rhs : Dtype)
  | BIndexOutOfBounds (index bound : Z)
  | BOutOfMemory (bytes : Z)
  | BUnsupportedOp
  | BNumericalError
  | BAliasingViolation.

(** [struct BinaryOpPlan] *)
Record BinaryOpPlan := mkPlan {
  bp_out_shape : Shape;
  bp_lhs_strides : list Z;
  bp_rhs_strides : list Z;
  bp_lhs_offset : Z;
  bp_rhs_offset : Z
}.

(** [BinaryOpPlan::build] *)
Definition BinaryOpPlan_build (lhs rhs : Tensor) : res BackendError BinaryOpPlan :=
  let mismatch {A} (m : res BroadcastError A) :=
    map_err (λ _, BShapeMismatch (t_shape lhs) (t_shape rhs)) m in
  if negb (bool_decide (t_dtype lhs = t_dtype rhs)) then
    Err (BDtypeMismatch (t_dtype lhs) (t_dtype rhs))
  else
    let? out_shape := mismatch (broadcast_with (t_shape lhs) (t_shape rhs)) in
    let? lhs_strides := mismatch (expand_strides_to (t_shape lhs) out_shape) in
    let? rhs_strides := mismatch (expand_strides_to (t_shape rhs) out_shape) in
    Ok (mkPlan out_shape lhs_strides rhs_strides (l_offset (t_layout lhs)) (l_offset (t_layout rhs))).

(** [BinaryOpPlan::numel] *)
Definition plan_numel (p : BinaryOpPlan) : Z := Shape_numel (bp_out_shape p).

(** [linear_to_offset]: the code of [strided_index]. *)
Definition linear_to_offset {E} (linear : Z) (shape : Shape) (strides : list Z) (base : Z)
    : res E Z := strided_index linear shape strides base.

Definition PARALLEL_UNARY_THRESHOLD : Z := 16384.
Definition PARALLEL_BINARY_THRESHOLD : Z := 16384.
Definition CHUNK : nat := Z.to_nat 8192.

(** [&raw[..n]], which panics past the end. *)
Definition slice_to {E} (raw : list Z) (n : Z) : res E (list Z) :=
  if Z.of_nat (length raw) <? n then Panic else Ok (take (Z.to_nat n) raw).

Section drivers.
Context (oom : Z → bool) (junk : Z → Z → list Z).

(** [Tensor::from_vec_typed(..).map_err(|_| OutOfMemory { .. })] *)
Definition finish (w : World) (U : Dtype) (shape : Shape) (n : Z) (out : list Z)
    : res BackendError (World * Tensor) :=
  map_err (λ _, BOutOfMemory (wrap 64 (n * Dtype_byte_size U)))
    (from_vec_typed oom junk w U shape out).

(** [map_unary::<T, U, _>] *)
Definition map_unary (T U : Dtype) (f : Z → Z) (w : World) (src : Tensor)
    : res BackendError (World * Tensor) :=
  if negb (bool_decide (t_dtype src = T)) then Err (BDtypeMismatch (t_dtype src) T)
  else
    let n := t_numel src in
    let raw := typed_slice (elem_size T) (as_bytes w (t_storage src)) in
    if t_is_contiguous src && (l_offset (t_layout src) =? 0) then
      let? raw_slice := slice_to raw n in
      let out :=
        if n <? PARALLEL_UNARY_THRESHOLD then List.map f raw_slice
        else concat (List.map (List.map f) (par_chunks CHUNK raw_slice)) in
      finish w U (t_shape src) n out
    else
      let? out := rmapM (λ i,
          let? off := linear_to_offset (Z.of_nat i) (t_shape src) (l_strides (t_layout src))
                        (l_offset (t_layout src)) in
          let? x := unwrap_opt (raw !! Z.to_nat off) in
          Ok (f x))
        (seq 0 (Z.to_nat n)) in
      finish w U (t_shape src) n out.

(** [map_binary_contiguous_parallel] *)
Definition map_binary_contiguous_parallel (T U : Dtype) (f : Z → Z → Z) (w : World)
    (lhs rhs : Tensor) : res BackendError (World * Tensor) :=
  let n := t_numel lhs in
  let? lhs_slice := slice_to (typed_slice (elem_size T) (as_bytes w (t_storage lhs))) n in
  let? rhs_slice := slice_to (typed_slice (elem_size T) (as_bytes w (t_storage rhs))) n in
  let out :=
    if n <? PARALLEL_BINARY_THRESHOLD then zip_with f lhs_slice rhs_slice
    else concat (zip_with (zip_with f) (par_chunks CHUNK lhs_slice)
                   (par_chunks CHUNK rhs_slice)) in
  finish w U (t_shape lhs) n out.

(** [map_binary::<T, U, _>] *)
Definition map_binary (T U : Dtype) (f : Z → Z → Z) (w : World) (lhs rhs : Tensor)
    : res BackendError (World * Tensor) :=
  if negb (bool_decide (t_dtype lhs = T)) then Err (BDtypeMismatch (t_dtype lhs) T)
  else if negb (bool_decide (t_dtype rhs = T)) then
    Err (BDtypeMismatch (t_dtype lhs) (t_dtype rhs))
  else if bool_decide (t_shape lhs = t_shape rhs) && t_is_contiguous lhs && t_is_contiguous rhs
          && (l_offset (t_layout lhs) =? 0) && (l_offset (t_layout rhs) =? 0)
  then map_binary_contiguous_parallel T U f w lhs rhs
  else
    let? plan := BinaryOpPlan_build lhs rhs in
    let n := plan_numel plan in
    let lhs_raw := typed_slice (elem_size T) (as_bytes w (t_storage lhs)) in
    let rhs_raw := typed_slice (elem_size T) (as_bytes w (t_storage rhs)) in
    let? out := rmapM (λ i,
        let? l := linear_to_offset (Z.of_nat i) (bp_out_shape plan) (bp_lhs_strides plan)
                    (bp_lhs_offset plan) in
        let? r := linear_to_offset (Z.of_nat i) (bp_out_shape plan) (bp_rhs_strides plan)
                    (bp_rhs_offset plan) in
        let? x := unwrap_opt (lhs_raw !! Z.to_nat l) in
        let? y := unwrap_opt (rhs_raw !! Z.to_nat r) in
        Ok (f x y))
      (seq 0 (Z.to_nat n)) in
    finish w U (bp_out_shape plan) n out.

(** [map_binary_same], [map_unary_same] *)
Definition map_binary_same (T : Dtype) := map_binary T T.
Definition map_unary_same (T : Dtype) := map_unary T T.
End drivers.

(** ** Dtype conversion *)

(** The conversions of the [half] crate. *)
Record HalfCrate := mkHalf {
  f16_to_f64 : Z → Z;
  bf16_to_f64 : Z → Z;
  f16_from_f64 : Z → Z;
  bf16_from_f64 : Z → Z
}.

(** The signed value of a two's complement bit pattern, and its inverse. *)
Definition of_twos (w : Z) (b : Z) : Z := swrap w b.
Definition to_twos (w : Z) (x : Z) : Z := wrap w x.

Section convert.
Context (half : HalfCrate).
Context (oom : Z → bool) (junk : Z → Z → list Z).

(** [ToF64::to_f64] of each element type; [cast_from_bool] for [bool]. *)
Definition to_f64 (d : Dtype) (b : Z) : Z :=
  match d with
  | F32 => fcast binary32 binary64 b
  | F64 => b
  | F16 => f16_to_f64 half b
  | BF16 => bf16_to_f64 half b
  | I64 => fof_int binary64 (of_twos 64 b)
  | I32 => fof_int binary64 (of_twos 32 b)
  | I8 => fof_int binary64 (of_twos 8 b)
  | DBool => if b =? 0 then 0 else 0x3ff0000000000000
  end.

(** The element conversions of [cast_from_f64]. *)
Definition from_f64 (d : Dtype) (x : Z) : Z :=
  match d with
  | F32 => fcast binary64 binary32 x
  | F64 => x
  | F16 => f16_from_f64 half x
  | BF16 => bf16_from_f64 half x
  | I64 => to_twos 64 (fto_sint binary64 64 x)
  | I32 => to_twos 32 (fto_sint binary64 32 x)
  | I8 => to_twos 8 (fto_sint binary64 8 x)
  | DBool => if feqb binary64 x 0 then 0 else 1
  end.

(** [cast_from_f64] *)
Definition cast_from_f64 (w : World) (shape : Shape) (src : list Z) (target : Dtype)
    : res TensorError (World * Tensor) :=
  unwrap (from_vec_typed oom junk w target shape (from_f64 target <$> src)).

(** [cast_via_f64], [cast_from_bool] *)
Definition cast_via_f64 (w : World) (src : Tensor) (T target : Dtype)
    : res TensorError (World * Tensor) :=
  let? o := iter_elements w src T in
  let? xs := unwrap_opt o in
  cast_from_f64 w (t_shape src) (to_f64 T <$> xs) target.

(** [Tensor::to_dtype] *)
Definition to_dtype (w : World) (t : Tensor) (target : Dtype) : res TensorError (World * Tensor) :=
  if bool_decide (t_dtype t = target) then Ok (Tensor_clone w t)
  else cast_via_f64 w t (t_dtype t) target.

Definition to_bf16 (w : World) (t : Tensor) := to_dtype w t BF16.
Definition to_f16 (w : World) (t : Tensor) := to_dtype w t F16.
Definition to_f32 (w : World) (t : Tensor) := to_dtype w t F32.
End convert.

(** ** Specification *)

(** A fresh contiguous tensor of [U] whose element at each multi-index is
    [g], in a world that otherwise extends [w]. *)
Definition made (w w' : World) (t : Tensor) (U : Dtype) (shape : Shape) (g : list Z → Z) : Prop :=
  tensor_wf w' t ∧ t_dtype t = U ∧ t_shape t = shape ∧ t_layout t = Layout_contiguous shape U
  ∧ strong_count w' (t_storage t) = 1
  ∧ (extends w w' ∧ ∀ s, handle w s → st_arc s ≠ st_arc (t_storage t))
  ∧ ∀ idx, in_range shape idx → element w' t idx = g idx.

(** The values of [U] that an element function may return. *)
Definition value_of (U : Dtype) (x : Z) : Prop := uint (8 * Dtype_byte_size U) x.

Definition fits_alloc (shape : Shape) (U : Dtype) : Prop :=
  shape_fits shape ∧ zprod shape * Dtype_byte_size U ≤ 2 ^ 63 - CPU_ALIGN.

(** The elements of a shape in row-major order. *)
Definition elements (shape : Shape) (g : list Z → Z) : list Z :=
  (λ i, g (unravel shape (Z.of_nat i))) <$> seq 0 (Z.to_nat (zprod shape)).

(** ** Lemmas *)

Lemma chunks_map (f : Z → Z) k fuel l :
  (0 < k)%nat → (length l ≤ fuel)%nat →
  concat (List.map (List.map f) (chunks fuel k l)) = List.map f l.
Proof.
  intros Hk. revert l. induction fuel as [|fuel IH]; intros [|x l]; simpl; try done; [lia|].
  intros Hf. destruct k as [|k]; [lia|]. simpl. f_equal.
  rewrite IH by (rewrite ?length_drop; lia). rewrite <- map_app. by rewrite take_drop.
Qed.

Lemma CHUNK_pos : (0 < CHUNK)%nat.
Proof. unfold CHUNK. lia. Qed.

Lemma elements_lookup shape g idx :
  in_range shape idx → elements shape g !! Z.to_nat (ravel shape idx) = Some (g idx).
Proof.
  intros Hr. pose proof (ravel_bound _ _ Hr). unfold elements.
  rewrite list_lookup_fmap, (proj2 (lookup_seq _ _ _ (Z.to_nat (ravel shape idx))))
    by (split; [simpl; done|lia]).
  simpl. by rewrite Z2Nat.id, unravel_ravel by (done || lia).
Qed.

Lemma shape_order_elements w t : shape_order w t = elements (t_shape t) (element w t).
Proof. done. Qed.

Lemma elements_ext shape g h :
  Forall (λ d, 0 ≤ d) shape → (∀ idx, in_range shape idx → g idx = h idx) → elements shape g = elements shape h.
Proof.
  intros Hw Hgh. apply list_fmap_ext. intros k i Hk. apply lookup_seq in Hk.
  apply Hgh, unravel_range; [|lia]. apply zprod_pos; [lia|done].
Qed.

Lemma elements_wf shape U g :
  shape_wf shape → (∀ idx, in_range shape idx → value_of U (g idx)) →
  elems_wf U (elements shape g).
Proof.
  intros Hw Hg. apply Forall_fmap, Forall_forall. intros i Hi%elem_of_seq. apply Hg.
  apply unravel_range; [|lia]. apply zprod_pos; [lia|by apply shape_wf_nonneg].
Qed.

Lemma length_elements shape g : length (elements shape g) = Z.to_nat (zprod shape).
Proof. unfold elements. by rewrite length_fmap, length_seq. Qed.

Section driver_lemmas.
Context (oom : Z → bool) (junk : Z → Z → list Z).
Hypothesis junk_len : ∀ p n, 0 ≤ n → Z.of_nat (length (junk p n)) = n.

(** What a driver returns once its inputs are accepted. *)
Definition driver_post (w : World) (U : Dtype) (shape : Shape) (g : list Z → Z)
    (r : res BackendError (World * Tensor)) : Prop :=
  match r with
  | Ok (w', t) => made w w' t U shape g
  | Err (BOutOfMemory _) => ¬ (∀ n, oom n = false)
  | _ => False
  end.

Lemma fresh_made w w' t U shape g :
  fresh_tensor w w' t U shape (elements shape g) → made w w' t U shape g.
Proof using Type.
  intros (Hwf & Hd & Hs & Hl & Hc & _ & _ & _ & Hso & _ & He & Hne).
  unfold made. split_and!; try done. intros idx Hr.
  rewrite shape_order_elements, Hs in Hso.
  pose proof (elements_lookup shape (element w' t) idx Hr) as H1.
  rewrite Hso, elements_lookup in H1 by done. congruence.
Qed.

Lemma finish_fresh w U shape n data :
  world_wf w → fits_alloc shape U → elems_wf U data → Z.of_nat (length data) = zprod shape →
  match finish oom junk w U shape n data with
  | Ok (w', t) => fresh_tensor w w' t U shape data
  | Err (BOutOfMemory _) => ¬ (∀ n, oom n = false)
  | _ => False
  end.
Proof using junk_len.
  intros Hw [Hs Hm] Hwf Hlen. unfold finish.
  pose proof (from_vec_typed_spec oom junk junk_len w U shape data Hw Hs
    ltac:(unfold CPU_ALIGN in Hm; lia) Hwf) as Hf.
  destruct (from_vec_typed oom junk w U shape data) as [[w' t]|e|] eqn:Hr; simpl; [apply Hf| |done].
  intros Hoom. destruct (from_vec_typed_ok oom junk junk_len w U shape data Hw Hs Hm
      Hwf Hoom Hlen) as (w' & t & Hok & _). congruence.
Qed.

Lemma finish_spec w U shape n g :
  world_wf w → fits_alloc shape U → (∀ idx, in_range shape idx → value_of U (g idx)) →
  driver_post w U shape g (finish oom junk w U shape n (elements shape g)).
Proof using junk_len.
  intros Hw Hfit Hg. pose proof (shape_fits_prod _ (proj1 Hfit)).
  pose proof (finish_fresh w U shape n (elements shape g) Hw Hfit
    (elements_wf shape U g (proj1 (proj1 Hfit)) Hg) ltac:(rewrite length_elements; lia)) as Hf.
  destruct (finish oom junk w U shape n (elements shape g)) as [[w' t]|[]|]; simpl; try done.
  by apply fresh_made.
Qed.

(** The prefix of the slice that the dense paths read. *)
Lemma slice_to_dense {E} w t :
  tensor_wf w t → t_is_contiguous t = true → l_offset (t_layout t) = 0 →
  @slice_to E (raw_slice w t) (t_numel t) = Ok (elements (t_shape t) (element w t)).
Proof using Type.
  intros Hwf Hc Ho. pose proof (dense_count w t Hwf Hc Ho) as Hn.
  pose proof (t_count_numel w t Hwf) as Hcn. unfold slice_to.
  rewrite (proj2 (Z.ltb_ge _ _)) by lia. rewrite Hcn. f_equal.
  rewrite <- shape_order_elements.
  apply shape_order_contiguous; [apply Hwf|done| |done|done].
  intros idx Hr. unfold address, t_is_contiguous, t_shape in *.
  rewrite (is_contiguous_dot _ _ _ (proj1 (proj2 (proj2 Hwf))) Hc Hr), Ho. done.
Qed.

Lemma map_unary_spec w T U f src :
  tensor_wf w src → t_dtype src = T → fits_alloc (t_shape src) U → (∀ x, value_of T x → value_of U (f x)) →
  driver_post w U (t_shape src) (λ idx, f (element w src idx)) (map_unary oom junk T U f w src).
Proof using junk_len.
  intros Hwf <- Hfit Hf. unfold map_unary. rewrite bool_decide_eq_true_2 by done. simpl.
  change (typed_slice _ (as_bytes w (t_storage src))) with (raw_slice w src).
  assert (elements (t_shape src) (λ idx, f (element w src idx))
    = List.map f (elements (t_shape src) (element w src))) as Hel.
  { unfold elements. by rewrite <- list_fmap_compose. }
  destruct (t_is_contiguous src && (l_offset (t_layout src) =? 0)) eqn:Hd.
  - apply andb_true_iff in Hd as [Hc Ho%Z.eqb_eq]. rewrite slice_to_dense by done. simpl.
    unfold par_chunks. rewrite (chunks_map f CHUNK) by (apply CHUNK_pos || done). rewrite <- Hel.
    destruct (_ <? _); apply finish_spec; [apply Hwf|done| |apply Hwf|done|]; intros; apply Hf, element_uint, Hwf.
  - rewrite (t_count_numel w src Hwf). erewrite rmapM_seq.
    2: { intros i _ Hi. destruct (unravel_index w src i Hwf Hi) as (_ & _ & Hs).
         unfold linear_to_offset. rewrite Hs. simpl.
         destruct (cell_bound w src i Hwf Hi) as [Hcb _]. unfold cell in Hcb. by rewrite Hcb. }
    simpl. apply (finish_spec w U (t_shape src) _ (λ idx, f (element w src idx)));
      [apply Hwf|done|intros; apply Hf, element_uint, Hwf].
Qed.

Lemma map_binary_spec w T U f lhs rhs out :
  tensor_wf w lhs → tensor_wf w rhs → t_dtype lhs = T → t_dtype rhs = T →
  is_contiguous (t_layout lhs) = true → is_contiguous (t_layout rhs) = true →
  broadcast_with (t_shape lhs) (t_shape rhs) = Ok out → fits_alloc out U →
  (∀ x y, value_of T x → value_of T y → value_of U (f x y)) →
  driver_post w U out
    (λ idx, f (element w lhs (source_index (t_shape lhs) idx))
              (element w rhs (source_index (t_shape rhs) idx)))
    (map_binary oom junk T U f w lhs rhs).
Proof using junk_len.
  intros Hwl Hwr Hdl Hdr Hcl Hcr Hb Hfit Hf'. unfold map_binary.
  assert (∀ i j, value_of U (f (element w lhs i) (element w rhs j))) as Hf.
  { intros i j. apply Hf'; [rewrite <- Hdl|rewrite <- Hdr]; by apply element_uint. }
  rewrite !bool_decide_eq_true_2 by done. simpl.
  pose proof (broadcast_with_spec (t_shape lhs) (t_shape rhs)) as Hbs. rewrite Hb in Hbs.
  destruct Hbs as (Hel & Her & Hlub & _).
  match goal with |- context [if ?b then _ else _] => destruct b eqn:Hd end.
  - rewrite !andb_true_iff, bool_decide_eq_true, !Z.eqb_eq in Hd.
    destruct Hd as ((((Hs & _) & _) & Hol) & Hor).
    assert (out = t_shape lhs) as ->.
    { apply expandable_antisym; [|done]. apply Hlub; [apply expandable_refl|].
      rewrite Hs. apply expandable_refl. }
    unfold map_binary_contiguous_parallel.
    replace (typed_slice (elem_size T) (as_bytes w (t_storage lhs))) with (raw_slice w lhs)
      by (unfold raw_slice; by rewrite Hdl).
    replace (typed_slice (elem_size T) (as_bytes w (t_storage rhs))) with (raw_slice w rhs)
      by (unfold raw_slice; by rewrite Hdr).
    rewrite slice_to_dense by done. simpl.
    replace (t_numel lhs) with (t_numel rhs) at 1 by (unfold t_numel, l_numel, t_shape in *; congruence).
    rewrite slice_to_dense by done. simpl.
    unfold par_chunks. rewrite !length_elements, <- Hs.
    rewrite chunks_zip by (apply CHUNK_pos || (rewrite !length_elements; congruence) ||
      (rewrite length_elements; done)).
    assert (zip_with f (elements (t_shape lhs) (element w lhs))
        (elements (t_shape lhs) (element w rhs))
      = elements (t_shape lhs) (λ idx, f (element w lhs (source_index (t_shape lhs) idx))
          (element w rhs (source_index (t_shape lhs) idx)))) as Heq.
    { rewrite (elements_ext _ (λ idx, f (element w lhs (source_index (t_shape lhs) idx)) _)
        (λ idx, f (element w lhs idx) (element w rhs idx))).
      - unfold elements. rewrite zip_with_fmap_l, zip_with_fmap_r, zip_with_diag. done.
      - apply shape_wf_nonneg, (li_fits _ _ (proj1 (proj2 (proj2 Hwl)))).
      - intros idx Hr. by rewrite source_index_same. }
    destruct (_ <? _); rewrite Heq; apply finish_spec; (apply Hwl || done || auto).
  - unfold BinaryOpPlan_build. rewrite bool_decide_eq_true_2 by congruence. simpl.
    rewrite Hb. simpl.
    pose proof (expand_strides_to_spec (t_shape lhs) out
      (li_fits _ _ (proj1 (proj2 (proj2 Hwl))))) as Hsl.
    pose proof (expand_strides_to_spec (t_shape rhs) out
      (li_fits _ _ (proj1 (proj2 (proj2 Hwr))))) as Hsr.
    destruct (expand_strides_to (t_shape lhs) out) as [ls| |] eqn:Hls; [|done..].
    destruct (expand_strides_to (t_shape rhs) out) as [rs| |] eqn:Hrs; [|done..]. simpl.
    unfold plan_numel; simpl. destruct Hfit as [Hfo Hmax]. rewrite Shape_numel_fits by done.
    erewrite rmapM_seq.
    2: { intros i _ Hi. unfold linear_to_offset.
         destruct (operand_at w lhs out ls i Hwl Hcl (proj1 Hfo) Hls Hi) as (a & Ha & Hea).
         destruct (operand_at w rhs out rs i Hwr Hcr (proj1 Hfo) Hrs Hi) as (b & Hbb & Heb).
         unfold raw_slice in *. rewrite Hdl in Hea. rewrite Hdr in Heb.
         rewrite Ha, Hbb. simpl. rewrite Hea, Heb. done. }
    simpl. by apply (finish_spec w U out _ (λ idx, f (element w lhs (source_index (t_shape lhs) idx))
              (element w rhs (source_index (t_shape rhs) idx)))); [apply Hwl| |auto].
Qed.
End driver_lemmas.

(** *** Conversion *)

Definition half_ok (half : HalfCrate) : Prop :=
  ∀ x, value_of F16 (f16_from_f64 half x) ∧ value_of BF16 (bf16_from_f64 half x).

Lemma from_f64_value half d x :
  half_ok half → uint 64 x → value_of d (from_f64 half d x).
Proof.
  intros Hh Hx. unfold value_of. destruct d; simpl.
  - apply (fcast_uint _ binary32), binary32_wf.
  - done.
  - apply Hh.
  - apply Hh.
  - unfold to_twos. apply (wrap_uint 64). lia.
  - unfold to_twos. apply (wrap_uint 32). lia.
  - unfold to_twos. apply (wrap_uint 8). lia.
  - unfold uint. destruct (feqb _ _ _); lia.
Qed.

(** The [half] crate's conversions to [f64] return [f64]s. *)
Definition half_wide (half : HalfCrate) : Prop :=
  ∀ x, uint 64 (f16_to_f64 half x) ∧ uint 64 (bf16_to_f64 half x).

Lemma to_f64_uint half d x :
  half_wide half → uint (8 * Dtype_byte_size d) x → uint 64 (to_f64 half d x).
Proof.
  intros Hh Hx. destruct d; simpl; try apply Hh; try (apply (fof_int_uint binary64), binary64_wf).
  - apply (fcast_uint _ binary64), binary64_wf.
  - done.
  - destruct (x =? 0); unfold uint; lia.
Qed.

(** ** Properties *)

(** C21: the drivers of the element-wise kernels.  [map_unary] accepts exactly
    its dtype and returns a fresh contiguous tensor of the input's shape whose
    elements are the function's values, for every input layout; [map_binary]
    fails with a shape error exactly when the shapes have no common expansion
    and otherwise returns the tensor of the least common expansion whose element
    at each multi-index is the function of the two broadcast elements
    (contiguous operands).  The chunked parallel path, the direct path and the
    strided path agree, no access is out of bounds, and existing storages do
    not change; the other error is a failed allocation. *)
Theorem elementwise_correct oom junk w T U f g lhs rhs :
  (∀ p n, 0 ≤ n → Z.of_nat (length (junk p n)) = n) → tensor_wf w lhs → tensor_wf w rhs →
  (∀ x, value_of T x → value_of U (f x)) → (∀ x y, value_of T x → value_of T y → value_of U (g x y)) →
  is_contiguous (t_layout rhs) = true → fits_alloc (t_shape lhs) U →
  (∀ out, broadcast_with (t_shape lhs) (t_shape rhs) = Ok out → fits_alloc out U) →
  match map_unary oom junk T U f w lhs with
  | Ok (w', t) => t_dtype lhs = T
      ∧ made w w' t U (t_shape lhs) (λ idx, f (element w lhs idx))
  | Err (BDtypeMismatch _ _) => t_dtype lhs ≠ T
  | Err (BOutOfMemory _) => ¬ (∀ n, oom n = false)
  | _ => False
  end
  ∧ (is_contiguous (t_layout lhs) = true →
     match map_binary oom junk T U g w lhs rhs with
     | Ok (w', t) => t_dtype lhs = T ∧ t_dtype rhs = T
         ∧ ∃ out, broadcast_with (t_shape lhs) (t_shape rhs) = Ok out
           ∧ made w w' t U out (λ idx, g (element w lhs (source_index (t_shape lhs) idx))
                                         (element w rhs (source_index (t_shape rhs) idx)))
     | Err (BDtypeMismatch _ _) => ¬ (t_dtype lhs = T ∧ t_dtype rhs = T)
     | Err (BShapeMismatch _ _) => ∀ s, ¬ (expandable (t_shape lhs) s ∧ expandable (t_shape rhs) s)
     | Err (BOutOfMemory _) => ¬ (∀ n, oom n = false)
     | _ => False
     end).
Proof.
  intros Hj Hwl Hwr Hf Hg Hcr Hfit Hfout. split.
  - destruct (decide (t_dtype lhs = T)) as [Hd|Hd].
    + pose proof (map_unary_spec oom junk Hj w T U f lhs Hwl Hd Hfit Hf) as H.
      destruct (map_unary _ _ _ _ _ _ _) as [[w' t]|[]|]; simpl in H; done.
    + unfold map_unary. by rewrite bool_decide_eq_false_2 by done.
  - intros Hcl. destruct (decide (t_dtype lhs = T)) as [Hdl|Hdl].
    2: { unfold map_binary. rewrite bool_decide_eq_false_2 by done. simpl. tauto. }
    destruct (decide (t_dtype rhs = T)) as [Hdr|Hdr].
    2: { unfold map_binary. rewrite bool_decide_eq_true_2, bool_decide_eq_false_2 by done.
         simpl. tauto. }
    pose proof (broadcast_with_spec (t_shape lhs) (t_shape rhs)) as Hb.
    destruct (broadcast_with (t_shape lhs) (t_shape rhs)) as [out|e|] eqn:Hbw; [| |done].
    + pose proof (map_binary_spec oom junk Hj w T U g lhs rhs out Hwl Hwr Hdl Hdr Hcl Hcr Hbw
        (Hfout out eq_refl) Hg) as H.
      destruct (map_binary _ _ _ _ _ _ _ _) as [[w' t]|[]|]; simpl in H; try done.
      split; [done|]. split; [done|]. by exists out.
    + unfold map_binary, BinaryOpPlan_build. rewrite !bool_decide_eq_true_2 by congruence. simpl.
      rewrite Hbw. simpl. case_bool_decide as Hs; simpl.
      2: { rewrite bool_decide_eq_true_2 by congruence. simpl. apply Hb. }
      exfalso. destruct Hb as (_ & _ & Hno & _). apply (Hno (t_shape lhs)).
      rewrite <- Hs. split; apply expandable_refl.
Qed.

(** A conversion to another dtype makes a fresh tensor. *)
Lemma to_dtype_cast half oom junk w t target :
  half_ok half → half_wide half →
  (∀ p n, 0 ≤ n → Z.of_nat (length (junk p n)) = n) → (∀ n, oom n = false) →
  tensor_wf w t → fits_alloc (t_shape t) target → t_dtype t ≠ target →
  ∃ w' c, to_dtype half oom junk w t target = Ok (w', c)
    ∧ made w w' c target (t_shape t) (λ idx, from_f64 half target (to_f64 half (t_dtype t) (element w t idx))).
Proof.
  intros Hh Hhw Hj Hoom Hwf [Hs Hm] Hd. unfold to_dtype. rewrite bool_decide_eq_false_2 by done.
  unfold cast_via_f64. rewrite (iter_elements_spec w t Hwf). simpl.
  set (g := λ idx, from_f64 half target (to_f64 half (t_dtype t) (element w t idx))).
  assert (from_f64 half target <$> (to_f64 half (t_dtype t) <$> shape_order w t)
    = elements (t_shape t) g) as Heq.
  { unfold shape_order, elements. by rewrite <- !list_fmap_compose. }
  unfold cast_from_f64. rewrite Heq.
  pose proof (shape_fits_prod _ Hs).
  destruct (from_vec_typed_ok oom junk Hj w target (t_shape t) (elements (t_shape t) g))
    as (w' & c & Hc & Hfr); [apply Hwf|done|done| |done| |].
  - apply elements_wf; [apply Hs|]. intros idx _. apply from_f64_value; [done|].
    apply to_f64_uint; [done|]. by apply element_uint.
  - rewrite length_elements. lia.
  - apply fresh_made in Hfr. exists w', c. by rewrite Hc.
Qed.

(** [to_dtype], memory permitting, always returns a tensor of the target
    dtype and the source's shape, for every source layout: the source itself
    when the dtype is already the target, else each element converted to [f64]
    and from [f64] to the target.  So an integer conversion goes through [f64]:
    it saturates, where the documentation says that narrowing truncates. *)
Theorem to_dtype_correct half oom junk w t target :
  half_ok half → half_wide half →
  (∀ p n, 0 ≤ n → Z.of_nat (length (junk p n)) = n) → (∀ n, oom n = false) →
  tensor_wf w t → fits_alloc (t_shape t) target →
  ∃ w' c, to_dtype half oom junk w t target = Ok (w', c)
    ∧ tensor_wf w' c ∧ t_dtype c = target ∧ t_shape c = t_shape t
    ∧ ∀ idx, in_range (t_shape t) idx →
        element w' c idx =
        if decide (t_dtype t = target) then element w t idx
        else from_f64 half target (to_f64 half (t_dtype t) (element w t idx)).
Proof.
  intros Hh Hhw Hj Hoom Hwf Hfit. unfold to_dtype. case_bool_decide as Hd.
  - destruct (Tensor_clone_wf w t Hwf) as [Hwf' Hso]. eexists _, _. split; [done|].
    split_and!; [done|done|done|]. intros idx Hr. rewrite decide_True by done.
    unfold element, Tensor_clone. simpl.
    by destruct (clone_storage_frame w (t_storage t) (proj1 Hwf) _ (proj1 (proj2 Hwf))) as [_ ->].
  - destruct (to_dtype_cast half oom junk w t target) as (w' & c & Hc & Hfr); [done..|].
    unfold to_dtype in Hc. rewrite bool_decide_eq_false_2 in Hc by done.
    destruct Hfr as (Hwf' & Hdt & Hsh & _ & _ & _ & Hel).
    exists w', c. split_and!; [done..|]. intros idx Hr. rewrite decide_False by done. by apply Hel.
Qed.

(** *** Witnesses *)

(** A broadcast sum of a 2x2 and a 2 tensor of [F32]. *)
Definition world_c : World * Tensor := mk_f32 world_b.1 [2] [0x3f800000; 0x40000000].

Lemma shape2_fits : shape_fits [2].
Proof. split; [repeat constructor; vm_compute; congruence|vm_compute; reflexivity]. Qed.

Lemma world_c_wf : tensor_wf world_c.1 world_b.2 ∧ tensor_wf world_c.1 world_c.2.
Proof.
  destruct worlds_wf as [_ Hb].
  destruct (mk_f32_spec world_b.1 [2] [0x3f800000; 0x40000000] (proj1 Hb) shape2_fits) as [Hc He];
    [vm_compute; reflexivity|repeat constructor; vm_compute; congruence|vm_compute; reflexivity|].
  fold world_c in Hc, He. split; [|exact Hc]. eapply extends_tensor_wf; [apply Hc|exact He|exact Hb].
Qed.

Lemma elementwise_correct_witness :
  ∃ w t, map_binary no_oom ff_junk F32 F32 (fadd binary32) world_c.1 world_b.2 world_c.2 = Ok (w, t)
    ∧ element w t [1; 1] = 0x40c00000.
Proof.
  destruct (elementwise_correct no_oom ff_junk world_c.1 F32 F32 (fneg binary32)
    (fadd binary32) world_b.2 world_c.2 ff_junk_len (proj1 world_c_wf) (proj2 world_c_wf))
    as [_ H].
  - intros x Hx. apply (fneg_uint binary32); [apply binary32_wf|exact Hx].
  - intros x y _ _. apply (arith_uint binary32), binary32_wf.
  - vm_compute; reflexivity.
  - split; [exact shape22_fits|vm_compute; congruence].
  - intros out Hb. vm_compute in Hb. injection Hb as <-.
    split; [exact shape22_fits|vm_compute; congruence].
  - specialize (H ltac:(vm_compute; reflexivity)).
    destruct (map_binary no_oom ff_junk F32 F32 (fadd binary32) world_c.1 world_b.2 world_c.2)
      as [[w t]|e|] eqn:Hr; [|vm_compute in Hr; discriminate..].
    exists w, t. split; [reflexivity|]. destruct H as (_ & _ & out & Hb & Hm).
    vm_compute in Hb. injection Hb as <-. destruct Hm as (_ & _ & _ & _ & _ & _ & Hel).
    rewrite Hel; [vm_compute; reflexivity|]. apply (bool_decide_unpack _). vm_compute. exact I.
Defined.

(** The reference conversions of the [half] crate. *)
Definition half_reference : HalfCrate :=
  mkHalf (fcast binary16 binary64) (fcast bfloat16 binary64)
    (fcast binary64 binary16) (fcast binary64 bfloat16).

Lemma half_reference_ok : half_ok half_reference ∧ half_wide half_reference.
Proof.
  split; intros x; split; simpl.
  - apply (fcast_uint _ binary16). by apply (dtype_format_wf F16).
  - apply (fcast_uint _ bfloat16). by apply (dtype_format_wf BF16).
  - apply (fcast_uint _ binary64), binary64_wf.
  - apply (fcast_uint _ binary64), binary64_wf.
Qed.

(** [i64] values 300 and -300 as [i8]: 127 and -128. *)
Definition world_i : World * Tensor :=
  match from_vec_typed no_oom ff_junk World_new I64 [2] [300; 2 ^ 64 - 300] with
  | Ok wt => wt
  | _ => (World_new, mkTensor (mkCpuStorage 0 0) (Layout_contiguous [] F32) 0 false Cpu)
  end.

Lemma world_i_wf : tensor_wf world_i.1 world_i.2.
Proof.
  pose proof (from_vec_typed_spec no_oom ff_junk ff_junk_len World_new I64 [2] [300; 2 ^ 64 - 300]
    World_new_wf shape2_fits ltac:(vm_compute; reflexivity)
    ltac:(repeat constructor; vm_compute; congruence)) as H.
  unfold world_i. destruct (from_vec_typed no_oom ff_junk World_new I64 [2] [300; 2 ^ 64 - 300])
    as [[w t]|e|] eqn:Hf; [apply H|vm_compute in Hf; discriminate..].
Qed.

Lemma to_dtype_correct_witness :
  ∃ w c, to_dtype half_reference no_oom ff_junk world_i.1 world_i.2 I8 = Ok (w, c)
    ∧ element w c [0] = 127 ∧ element w c [1] = 128.
Proof.
  destruct (to_dtype_correct half_reference no_oom ff_junk world_i.1 world_i.2 I8
    (proj1 half_reference_ok) (proj2 half_reference_ok) ff_junk_len ltac:(reflexivity) world_i_wf)
    as (w & c & Hc & _ & _ & _ & Hel).
  - split; [exact shape2_fits|vm_compute; congruence].
  - exists w, c. split; [exact Hc|].
    rewrite !Hel by (apply (bool_decide_unpack _); vm_compute; exact I).
    split; vm_compute; reflexivity.
Defined.
