(* ===== verification/Conv.v ===== *)
(** * Convolution on the CPU (crates/rustorch-cpu/src/kernels/conv.rs)

    The loops of each kernel are written once over any element type with the
    operations they use ([Section kernels]); the functions on tensors check
    their arguments, run the loops on IEEE bit patterns and build the result.
    The theorems state that over exact arithmetic the two gradient kernels are
    the adjoints of the forward kernel, for every kernel size and padding. *)

From Stdlib Require Import ZArith Lia Ring ArithRing.
From stdpp Require Import base list gmap.
From S2P Require Import Prelude Loops Dtype Float Shape Layout Storage Tensor Mutate Iterator.

Open Scope nat_scope.

(** ** Machine integers *)

(** [a + b] on [usize] *)
Definition uadd (a b : nat) : nat := Z.to_nat (wrap 64 (Z.of_nat (a + b))).

(** [a as isize + b as isize - c as isize] *)
Definition isize_offset (a b c : nat) : Z :=
  swrap 64 (swrap 64 (swrap 64 (Z.of_nat a) + swrap 64 (Z.of_nat b)) - swrap 64 (Z.of_nat c)).

Section kernels.
Context {E X : Type} (zero : X) (add mul : X → X → X).

(** ** Convolution (conv.rs) *)

(** The seven loops of [conv2d_forward]; [bias] is the bias of a channel. *)
Definition conv_forward_loops (n c_in h w c_out kh kw h_out w_out pad_h pad_w : nat)
    (in_data w_data : list X) (bias : nat → res E X) (out : list X) : res E (list X) :=
  for_range n (λ out ni,
  for_range c_out (λ out co,
    let? b := bias co in
    for_range h_out (λ out hi,
    for_range w_out (λ out wi,
      let? acc :=
        for_range c_in (λ acc ci,
        for_range kh (λ acc kr,
        for_range kw (λ acc kc,
          let h_in := hi + kr in
          let w_in := wi + kc in
          if (h_in <? pad_h) || (uadd h pad_h <=? h_in) || (w_in <? pad_w) || (uadd w pad_w <=? w_in)
          then Ok acc
          else
            let h_in_real := h_in - pad_h in
            let w_in_real := w_in - pad_w in
            let? x := unwrap_opt (in_data !! (((ni * c_in + ci) * h + h_in_real) * w + w_in_real)) in
            let? wv := unwrap_opt (w_data !! (((co * c_in + ci) * kh + kr) * kw + kc)) in
            Ok (add acc (mul x wv))) acc) acc) zero in
      put out (((ni * c_out + co) * h_out + hi) * w_out + wi) (add acc b)) out) out) out) out.

(** The loops of [conv2d_grad_input] *)
Definition conv_grad_input_loops (n c_in h w c_out kh kw h_out w_out pad_h pad_w : nat)
    (g w_data : list X) (din : list X) : res E (list X) :=
  for_range n (λ din ni,
  for_range c_in (λ din ci,
  for_range h (λ din hi,
  for_range w (λ din wi,
    let? acc :=
      for_range c_out (λ acc co,
      for_range kh (λ acc kr,
      for_range kw (λ acc kc,
        let ho_signed := isize_offset hi pad_h kr in
        let wo_signed := isize_offset wi pad_w kc in
        if (ho_signed <? 0)%Z || (wo_signed <? 0)%Z then Ok acc
        else
          let ho := Z.to_nat ho_signed in
          let wo := Z.to_nat wo_signed in
          if (h_out <=? ho) || (w_out <=? wo) then Ok acc
          else
            let? gv := unwrap_opt (g !! (((ni * c_out + co) * h_out + ho) * w_out + wo)) in
            let? wv := unwrap_opt (w_data !! (((co * c_in + ci) * kh + kr) * kw + kc)) in
            Ok (add acc (mul gv wv))) acc) acc) zero in
    put din (((ni * c_in + ci) * h + hi) * w + wi) acc) din) din) din) din.

(** The loops of [conv2d_grad_weight] *)
Definition conv_grad_weight_loops (n c_in h w c_out kh kw h_out w_out pad_h pad_w : nat)
    (in_data g : list X) (dw : list X) : res E (list X) :=
  for_range c_out (λ dw co,
  for_range c_in (λ dw ci,
  for_range kh (λ dw kr,
  for_range kw (λ dw kc,
    let? acc :=
      for_range n (λ acc ni,
      for_range h_out (λ acc ho,
      for_range w_out (λ acc wo,
        let h_in_signed := isize_offset ho kr pad_h in
        let w_in_signed := isize_offset wo kc pad_w in
        if (h_in_signed <? 0)%Z || (w_in_signed <? 0)%Z
           || (swrap 64 (Z.of_nat h) <=? h_in_signed)%Z || (swrap 64 (Z.of_nat w) <=? w_in_signed)%Z
        then Ok acc
        else
          let? x := unwrap_opt (in_data !!
            (((ni * c_in + ci) * h + Z.to_nat h_in_signed) * w + Z.to_nat w_in_signed)) in
          let? gv := unwrap_opt (g !! (((ni * c_out + co) * h_out + ho) * w_out + wo)) in
          Ok (add acc (mul x gv))) acc) acc) zero in
    put dw (((co * c_in + ci) * kh + kr) * kw + kc) acc) dw) dw) dw) dw.

End kernels.

(** ** The functions on tensors *)

(** [vec![x; len]], whose size in bytes may not pass [isize::MAX]. *)
Definition vec_of {E X} (size len : Z) (x : X) : res E (list X) :=
  if (2 ^ 63 - 1 <? size * len)%Z then Panic else Ok (replicate (Z.to_nat len) x).

(** [shape[i]], which panics out of range *)
Definition dim {E} (s : Shape) (i : nat) : res E Z := unwrap_opt (s !! i).

(** [tensor.as_slice::<T>()] *)
Definition slice_of {E} (w : World) (t : Tensor) (T : Dtype) : res E (option (list Z)) :=
  unwrap (as_slice w t T).

(** The size of an output axis: [(d + 2 * pad).saturating_sub(k) + 1] *)
Definition out_dim (d pad k : Z) : Z :=
  wrap 64 (sat_sub (wrap 64 (d + wrap 64 (2 * pad))) k + 1).

Section tensors.
Context (oom : Z → bool) (junk : Z → Z → list Z).

Definition conv2d_forward (w : World) (input weight : Tensor) (bias : option Tensor)
    (pad_h pad_w : Z) : res BackendError (World * Tensor) :=
  if negb (bool_decide (t_dtype input = F32)) || negb (bool_decide (t_dtype weight = F32)) then
    Err (BDtypeMismatch (t_dtype input) (t_dtype weight))
  else match t_shape input, t_shape weight with
  | [n; c_in; h; wd], [c_out; w_cin; kh; kw] =>
      if negb (c_in =? w_cin) then Err (BShapeMismatch (t_shape input) (t_shape weight))
      else
        let h_out := out_dim h pad_h kh in
        let w_out := out_dim wd pad_w kw in
        let? in_data := slice_of w input F32 in
        let? in_data := ok_or (BDtypeMismatch (t_dtype input) F32) in_data in
        let? w_data := slice_of w weight F32 in
        let? w_data := ok_or (BDtypeMismatch (t_dtype weight) F32) w_data in
        let? bias_data := match bias with Some b => slice_of w b F32 | None => Ok None end in
        let len := product_u 64 [n; c_out; h_out; w_out] in
        let? out := vec_of 4 len 0 in
        let? out :=
          conv_forward_loops 0 (fadd binary32) (fmul binary32) (Z.to_nat n) (Z.to_nat c_in)
            (Z.to_nat h) (Z.to_nat wd) (Z.to_nat c_out) (Z.to_nat kh) (Z.to_nat kw)
            (Z.to_nat h_out) (Z.to_nat w_out) (Z.to_nat pad_h) (Z.to_nat pad_w) in_data w_data
            (λ co, match bias_data with Some b => unwrap_opt (b !! co) | None => Ok 0 end) out in
        finish oom junk w F32 [n; c_out; h_out; w_out] len out
  | _, _ => Err (BShapeMismatch (t_shape input) (t_shape weight))
  end%Z.

Definition conv2d_grad_input (w : World) (grad_output weight : Tensor) (in_shape : list Z)
    (pad_h pad_w : Z) : res BackendError (World * Tensor) :=
  let? n := dim in_shape 0 in
  let? c_in := dim in_shape 1 in
  let? h := dim in_shape 2 in
  let? wd := dim in_shape 3 in
  let? c_out := dim (t_shape weight) 0 in
  let? kh := dim (t_shape weight) 2 in
  let? kw := dim (t_shape weight) 3 in
  let? h_out := dim (t_shape grad_output) 2 in
  let? w_out := dim (t_shape grad_output) 3 in
  let? g := slice_of w grad_output F32 in
  let? g := ok_or (BDtypeMismatch (t_dtype grad_output) F32) g in
  let? w_data := slice_of w weight F32 in
  let? w_data := unwrap_opt w_data in
  let len := product_u 64 [n; c_in; h; wd] in
  let? din := vec_of 4 len 0%Z in
  let? din :=
    conv_grad_input_loops 0%Z (fadd binary32) (fmul binary32) (Z.to_nat n) (Z.to_nat c_in)
      (Z.to_nat h) (Z.to_nat wd) (Z.to_nat c_out) (Z.to_nat kh) (Z.to_nat kw)
      (Z.to_nat h_out) (Z.to_nat w_out) (Z.to_nat pad_h) (Z.to_nat pad_w) g w_data din in
  finish oom junk w F32 [n; c_in; h; wd] len din.

Definition conv2d_grad_weight (w : World) (input grad_output : Tensor) (weight_shape : list Z)
    (pad_h pad_w : Z) : res BackendError (World * Tensor) :=
  let? c_out := dim weight_shape 0 in
  let? c_in := dim weight_shape 1 in
  let? kh := dim weight_shape 2 in
  let? kw := dim weight_shape 3 in
  let? n := dim (t_shape input) 0 in
  let? h := dim (t_shape input) 2 in
  let? wd := dim (t_shape input) 3 in
  let? h_out := dim (t_shape grad_output) 2 in
  let? w_out := dim (t_shape grad_output) 3 in
  let? in_data := slice_of w input F32 in
  let? in_data := unwrap_opt in_data in
  let? g := slice_of w grad_output F32 in
  let? g := unwrap_opt g in
  let len := product_u 64 [c_out; c_in; kh; kw] in
  let? dw := vec_of 4 len 0%Z in
  let? dw :=
    conv_grad_weight_loops 0%Z (fadd binary32) (fmul binary32) (Z.to_nat n) (Z.to_nat c_in)
      (Z.to_nat h) (Z.to_nat wd) (Z.to_nat c_out) (Z.to_nat kh) (Z.to_nat kw)
      (Z.to_nat h_out) (Z.to_nat w_out) (Z.to_nat pad_h) (Z.to_nat pad_w) in_data g dw in
  finish oom junk w F32 [c_out; c_in; kh; kw] len dw.
End tensors.

(** ** The loops do not panic *)

Lemma uadd_fits a b : (Z.of_nat (a + b) < 2 ^ 63)%Z → uadd a b = a + b.
Proof. intros H. unfold uadd. rewrite wrap_small by (unfold uint; lia). lia. Qed.

Lemma isize_offset_fits a b c : (Z.of_nat (a + b) < 2 ^ 63)%Z → (Z.of_nat c < 2 ^ 63)%Z →
  isize_offset a b c = (Z.of_nat (a + b) - Z.of_nat c)%Z.
Proof.
  intros Hab Hc. unfold isize_offset.
  rewrite !(swrap_small 64 (Z.of_nat _)) by (unfold sint; lia).
  rewrite (swrap_small 64 (_ + _)) by (unfold sint; lia).
  rewrite swrap_small by (unfold sint; lia). lia.
Qed.

Section totality.
Context {E X : Type} (zero : X) (add mul : X → X → X) (Q : X → Prop).
Context (Q_zero : Q zero) (Q_add : ∀ x y, Q (add x y)).
Context (n c_in h w c_out kh kw h_out w_out pad_h pad_w : nat).
Context (fit_h : (Z.of_nat (h + pad_h) < 2 ^ 63)%Z) (fit_w : (Z.of_nat (w + pad_w) < 2 ^ 63)%Z).

Local Notation filled L := (λ out : list X, length out = L ∧ Forall Q out).

Lemma conv_forward_ok x wt (bias : nat → res E X) (b : nat → X) out L :
  length x = n * (c_in * (h * (w * 1))) → length wt = c_out * (c_in * (kh * (kw * 1))) →
  (∀ co, co < c_out → bias co = Ok (b co)) → L = n * (c_out * (h_out * (w_out * 1))) → filled L out →
  ∃ y, conv_forward_loops zero add mul n c_in h w c_out kh kw h_out w_out pad_h pad_w x wt bias out
         = Ok y ∧ filled L y.
Proof using Q_zero Q_add fit_h fit_w.
  intros Hx Hw Hb -> Hout. unfold conv_forward_loops.
  apply (for_range_ok (filled _)); [done|]. intros ? ni Hni Ho.
  apply (for_range_ok (filled _)); [done|]. clear Ho. intros ? co Hco Ho. rewrite Hb by done. simpl.
  apply (for_range_ok (filled _)); [done|]. clear Ho. intros ? hi Hhi Ho.
  apply (for_range_ok (filled _)); [done|]. clear Ho. intros o wi Hwi Ho.
  match goal with |- context [rbind ?m _] => assert (∃ acc, m = Ok acc ∧ Q acc) as (acc & -> & _) end.
  2: { simpl. apply put_ok; [done|by apply index4_lt|apply Q_add]. }
  apply (for_range_ok Q); [done|]. intros ? ci Hci Ha.
  apply (for_range_ok Q); [done|]. clear Ha. intros ? kr Hkr Ha.
  apply (for_range_ok Q); [done|]. clear Ha. intros acc kc Hkc Ha.
  rewrite !uadd_fits by done.
  destruct (Nat.ltb_spec (hi + kr) pad_h), (Nat.leb_spec (h + pad_h) (hi + kr)),
    (Nat.ltb_spec (wi + kc) pad_w), (Nat.leb_spec (w + pad_w) (wi + kc)); simpl; try by exists acc.
  destruct (lookup4_ok (E := E) x n c_in h w ni ci (hi + kr - pad_h) (wi + kc - pad_w)) as [xv ->];
    [done..|lia|lia|].
  destruct (lookup4_ok (E := E) wt c_out c_in kh kw co ci kr kc) as [wv ->]; [done..|].
  simpl. eexists. split; [done|apply Q_add].
Qed.

Context (fit_kh : (Z.of_nat (h_out + kh) < 2 ^ 63)%Z) (fit_kw : (Z.of_nat (w_out + kw) < 2 ^ 63)%Z).

Lemma conv_grad_input_ok g wt din L :
  length g = n * (c_out * (h_out * (w_out * 1))) → length wt = c_out * (c_in * (kh * (kw * 1))) →
  L = n * (c_in * (h * (w * 1))) → filled L din →
  ∃ dx, conv_grad_input_loops (E := E) zero add mul n c_in h w c_out kh kw h_out w_out pad_h pad_w g wt din
          = Ok dx ∧ filled L dx.
Proof using Type*.
  intros Hg Hw -> Hout. unfold conv_grad_input_loops.
  apply (for_range_ok (filled _)); [done|]. intros ? ni Hni Ho.
  apply (for_range_ok (filled _)); [done|]. clear Ho. intros ? ci Hci Ho.
  apply (for_range_ok (filled _)); [done|]. clear Ho. intros ? hi Hhi Ho.
  apply (for_range_ok (filled _)); [done|]. clear Ho. intros o wi Hwi Ho.
  match goal with |- context [rbind ?m _] => assert (∃ acc, m = Ok acc ∧ Q acc) as (acc & -> & Ha) end.
  2: { simpl. apply put_ok; [done|by apply index4_lt|done]. }
  apply (for_range_ok Q); [done|]. intros ? co Hco Ha.
  apply (for_range_ok Q); [done|]. clear Ha. intros ? kr Hkr Ha.
  apply (for_range_ok Q); [done|]. clear Ha. intros acc kc Hkc Ha.
  destruct (Z.ltb_spec (isize_offset hi pad_h kr) 0), (Z.ltb_spec (isize_offset wi pad_w kc) 0);
    simpl; try by exists acc.
  destruct (Nat.leb_spec h_out (Z.to_nat (isize_offset hi pad_h kr))),
    (Nat.leb_spec w_out (Z.to_nat (isize_offset wi pad_w kc))); simpl; try by exists acc.
  edestruct (lookup4_ok (E := E) g n c_out h_out w_out ni co) as [gv ->]; [done..|].
  edestruct (lookup4_ok (E := E) wt c_out c_in kh kw co ci kr kc) as [wv ->]; [done..|].
  simpl. eexists. split; [done|apply Q_add].
Qed.

Lemma conv_grad_weight_ok x g dw L :
  length x = n * (c_in * (h * (w * 1))) → length g = n * (c_out * (h_out * (w_out * 1))) →
  L = c_out * (c_in * (kh * (kw * 1))) → filled L dw →
  ∃ d, conv_grad_weight_loops (E := E) zero add mul n c_in h w c_out kh kw h_out w_out pad_h pad_w x g dw
         = Ok d ∧ filled L d.
Proof using Type*.
  intros Hx Hg -> Hout. unfold conv_grad_weight_loops.
  apply (for_range_ok (filled _)); [done|]. intros ? co Hco Ho.
  apply (for_range_ok (filled _)); [done|]. clear Ho. intros ? ci Hci Ho.
  apply (for_range_ok (filled _)); [done|]. clear Ho. intros ? kr Hkr Ho.
  apply (for_range_ok (filled _)); [done|]. clear Ho. intros o kc Hkc Ho.
  match goal with |- context [rbind ?m _] => assert (∃ acc, m = Ok acc ∧ Q acc) as (acc & -> & Ha) end.
  2: { simpl. apply put_ok; [done|by apply index4_lt|done]. }
  apply (for_range_ok Q); [done|]. intros ? ni Hni Ha.
  apply (for_range_ok Q); [done|]. clear Ha. intros ? ho Hho Ha.
  apply (for_range_ok Q); [done|]. clear Ha. intros acc wo Hwo Ha.
  rewrite !(swrap_small 64 (Z.of_nat _)) by (unfold sint; lia).
  destruct (Z.ltb_spec (isize_offset ho kr pad_h) 0), (Z.ltb_spec (isize_offset wo kc pad_w) 0),
    (Z.leb_spec (Z.of_nat h) (isize_offset ho kr pad_h)), (Z.leb_spec (Z.of_nat w) (isize_offset wo kc pad_w));
    simpl; try by exists acc.
  edestruct (lookup4_ok (E := E) x n c_in h w ni ci) as [xv ->]; [done|done|done|lia|lia|].
  edestruct (lookup4_ok (E := E) g n c_out h_out w_out ni co ho wo) as [gv ->]; [done..|].
  simpl. eexists. split; [done|apply Q_add].
Qed.
End totality.

(** ** Tensors as buffers *)

(** [as_slice] gives the elements of a tensor of its dtype that is stored
    densely from the start of its storage. *)
Definition dense_as (T : Dtype) (t : Tensor) : Prop :=
  t_dtype t = T ∧ t_is_contiguous t = true ∧ l_offset (t_layout t) = 0%Z.

#[export] Instance dense_as_dec T t : Decision (dense_as T t).
Proof. unfold dense_as. apply _. Defined.

Lemma slice_of_spec {E} w t T : tensor_wf w t →
  slice_of (E := E) w t T = Ok (if decide (dense_as T t) then Some (shape_order w t) else None).
Proof.
  intros Hwf. unfold slice_of. destruct (decide (dense_as T t)) as [(<- & Hc & Ho)|Hn].
  - by rewrite as_slice_spec.
  - unfold as_slice. destruct (bool_decide_reflect (t_dtype t = T)); simpl; [|done].
    destruct (t_is_contiguous t) eqn:?; simpl; [|done].
    destruct (Z.eqb_spec (l_offset (t_layout t)) 0); simpl; [|done].
    by destruct Hn.
Qed.

Lemma nat_prod4 a b c d : (0 ≤ a → 0 ≤ b → 0 ≤ c → 0 ≤ d →
  Z.to_nat (zprod [a; b; c; d]) =
  (Z.to_nat a * (Z.to_nat b * (Z.to_nat c * (Z.to_nat d * 1))))%nat)%Z.
Proof. intros. rewrite !zprod_cons, zprod_nil. lia. Qed.

Lemma tensor_shape_nonneg w t : tensor_wf w t → Forall (λ d, 0 ≤ d)%Z (t_shape t).
Proof. intros (_ & _ & Hl & _). apply shape_wf_nonneg, (li_fits _ _ Hl). Qed.

Lemma out_dim_fits d pad k : (0 ≤ d → 0 ≤ pad → 0 ≤ k → d + 2 * pad < 2 ^ 63 →
  out_dim d pad k = Z.max 0 (d + 2 * pad - k) + 1)%Z.
Proof.
  intros. unfold out_dim, sat_sub. rewrite (wrap_small 64 (2 * pad)) by (unfold uint; lia).
  rewrite (wrap_small 64 (d + 2 * pad)) by (unfold uint; lia). apply wrap_small. unfold uint. lia.
Qed.

Lemma vec_of_fits {E X} shape (x : X) : fits_alloc shape F32 →
  vec_of (E := E) 4 (product_u 64 shape) x = Ok (replicate (Z.to_nat (zprod shape)) x).
Proof.
  intros [Hs Hm]. pose proof (shape_fits_prod _ Hs). unfold vec_of, CPU_ALIGN in *. simpl in Hm.
  rewrite product_u_small by (unfold uint; lia).
  by rewrite (proj2 (Z.ltb_ge _ _)) by lia.
Qed.

(** ** The gradients of a convolution *)

(** The padded image: [img] moved by the padding, zero around it. *)
Definition padded_image {X} {SR : SemiRing X} (h w pad_h pad_w : nat) (img : nat → nat → X)
    (i j : nat) : X :=
  ind ((pad_h <=? i) && (i - pad_h <? h)) (ind ((pad_w <=? j) && (j - pad_w <? w))
    (img (i - pad_h) (j - pad_w))).

Section adjoint.
Context {E X : Type} {SR : SemiRing X}.
Add Ring Xring : (@sr_laws X SR).
Context (n c_in h w c_out kh kw h_out w_out pad_h pad_w : nat).
Context (fit_h : (Z.of_nat (h + pad_h) < 2 ^ 63)%Z) (fit_w : (Z.of_nat (w + pad_w) < 2 ^ 63)%Z).
Context (fit_kh : (Z.of_nat (h_out + kh) < 2 ^ 63)%Z) (fit_kw : (Z.of_nat (w_out + kw) < 2 ^ 63)%Z).

Local Notation zero := (@sr_zero X SR).
Local Notation "x + y" := (sr_add x y) : X_scope.
Local Notation "x * y" := (sr_mul x y) : X_scope.
Local Delimit Scope X_scope with X.

Context (x wt g : list X).
Context (len_x : length x = n * (c_in * (h * (w * 1)))).
Context (len_w : length wt = c_out * (c_in * (kh * (kw * 1)))).
Context (len_g : length g = n * (c_out * (h_out * (w_out * 1)))).

Local Notation x_at := (at4 zero c_in h w x).
Local Notation w_at := (at4 zero c_in kh kw wt).
Local Notation g_at := (at4 zero c_out h_out w_out g).

Lemma lookup_at4 (l : list X) n1 n2 n3 n4 a b c d :
  length l = n1 * (n2 * (n3 * (n4 * 1))) → a < n1 → b < n2 → c < n3 → d < n4 →
  l !! (((a * n2 + b) * n3 + c) * n4 + d) = Some (at4 zero n2 n3 n4 l a b c d).
Proof.
  intros Hl Ha Hb Hc Hd. unfold at4.
  destruct (nth_lookup_or_length l (((a * n2 + b) * n3 + c) * n4 + d) zero) as [H|H]; [done|].
  exfalso. pose proof (index4_lt n1 n2 n3 n4 a b c d). lia.
Qed.

(** The value of the forward kernel: the correlation of the padded image with
    the weights. *)
Definition conv_value (ni co ho wo : nat) : X :=
  bsum c_in (λ ci, bsum kh (λ kr, bsum kw (λ kc,
    padded_image h w pad_h pad_w (x_at ni ci) (ho + kr) (wo + kc) * w_at co ci kr kc)))%X.

Lemma conv_forward_run (b : nat → X) (bias : nat → res E X) : (∀ co, co < c_out → bias co = Ok (b co)) →
  conv_forward_loops zero sr_add sr_mul n c_in h w c_out kh kw h_out w_out pad_h pad_w x wt bias
    (replicate (n * (c_out * (h_out * (w_out * 1)))) zero) =
  Ok (buffer4 n c_out h_out w_out (λ ni co ho wo, conv_value ni co ho wo + b co)%X).
Proof using Type fit_h fit_w len_x len_w fit_kh fit_kw len_g.
  intros Hb. unfold conv_forward_loops.
  rewrite <- (fills_buffer4 (E := E) _ _ _ _
    (λ ni co ho out wo, put out (((ni * c_out + co) * h_out + ho) * w_out + wo) (conv_value ni co ho wo + b co)%X)
    (λ ni co ho wo, conv_value ni co ho wo + b co)%X) with (out := replicate (n * (c_out * (h_out * (w_out * 1)))) zero).
  2: { intros. apply fills_put. }
  2: { apply length_replicate. }
  apply for_range_ext. intros out1 ni Hni. apply for_range_ext. intros out2 co Hco.
  rewrite Hb by done. simpl. apply for_range_ext. intros out3 ho Hho.
  apply for_range_ext. intros out wo Hwo. unfold conv_value.
  rewrite (for_range_sum3 _ _ _ _ (λ ci kr kc,
    padded_image h w pad_h pad_w (x_at ni ci) (ho + kr) (wo + kc) * w_at co ci kr kc)%X).
  - simpl. f_equal. ring.
  - intros ci kr acc kc Hci Hkr Hkc. rewrite !uadd_fits by done. unfold padded_image, ind.
    destruct (Nat.ltb_spec (ho + kr) pad_h), (Nat.leb_spec (h + pad_h) (ho + kr)),
      (Nat.ltb_spec (wo + kc) pad_w), (Nat.leb_spec (w + pad_w) (wo + kc)),
      (Nat.leb_spec pad_h (ho + kr)), (Nat.ltb_spec (ho + kr - pad_h) h),
      (Nat.leb_spec pad_w (wo + kc)), (Nat.ltb_spec (wo + kc - pad_w) w); simpl; try lia;
      try (f_equal; ring).
    rewrite (lookup_at4 x n c_in h w) by done. rewrite (lookup_at4 wt c_out c_in kh kw) by done. done.
Qed.

(** The value of the gradient of the input: the correlation of the output's
    gradient, read backwards, with the weights. *)
Definition grad_input_value (ni ci hi wi : nat) : X :=
  bsum c_out (λ co, bsum kh (λ kr, bsum kw (λ kc,
    padded_image h_out w_out kr kc (g_at ni co) (hi + pad_h) (wi + pad_w) * w_at co ci kr kc)))%X.

Lemma conv_grad_input_run :
  conv_grad_input_loops (E := E) zero sr_add sr_mul n c_in h w c_out kh kw h_out w_out pad_h pad_w g wt
    (replicate (n * (c_in * (h * (w * 1)))) zero) =
  Ok (buffer4 n c_in h w grad_input_value).
Proof using Type fit_h fit_w len_x len_w fit_kh fit_kw len_g.
  unfold conv_grad_input_loops.
  rewrite <- (fills_buffer4 (E := E) _ _ _ _
    (λ ni ci hi out wi, put out (((ni * c_in + ci) * h + hi) * w + wi) (grad_input_value ni ci hi wi))
    grad_input_value) with (out := replicate (n * (c_in * (h * (w * 1)))) zero).
  2: { intros. apply fills_put. }
  2: { apply length_replicate. }
  do 3 (apply for_range_ext; intros ? ? ?). apply for_range_ext. intros out wi Hwi.
  unfold grad_input_value. rewrite (for_range_sum3 _ _ _ _ (λ co kr kc,
    padded_image h_out w_out kr kc (g_at i co) (i1 + pad_h) (wi + pad_w) * w_at co i0 kr kc)%X).
  - simpl. f_equal. ring.
  - intros co kr acc kc Hco Hkr Hkc. rewrite !isize_offset_fits by lia. unfold padded_image, ind.
    destruct (Z.ltb_spec (Z.of_nat (i1 + pad_h) - Z.of_nat kr) 0),
      (Z.ltb_spec (Z.of_nat (wi + pad_w) - Z.of_nat kc) 0),
      (Nat.leb_spec kr (i1 + pad_h)), (Nat.leb_spec kc (wi + pad_w)); simpl; try lia;
      try (f_equal; ring).
    1: { destruct (_ <? _); f_equal; ring. }
    replace (Z.to_nat (Z.of_nat (i1 + pad_h) - Z.of_nat kr)) with (i1 + pad_h - kr) by lia.
    replace (Z.to_nat (Z.of_nat (wi + pad_w) - Z.of_nat kc)) with (wi + pad_w - kc) by lia.
    destruct (Nat.leb_spec h_out (i1 + pad_h - kr)), (Nat.ltb_spec (i1 + pad_h - kr) h_out),
      (Nat.leb_spec w_out (wi + pad_w - kc)), (Nat.ltb_spec (wi + pad_w - kc) w_out); simpl; try lia;
      try (f_equal; ring).
    rewrite (lookup_at4 g n c_out h_out w_out) by done. rewrite (lookup_at4 wt c_out c_in kh kw) by done. done.
Qed.

(** The value of the gradient of the weights. *)
Definition grad_weight_value (co ci kr kc : nat) : X :=
  bsum n (λ ni, bsum h_out (λ ho, bsum w_out (λ wo,
    padded_image h w pad_h pad_w (x_at ni ci) (ho + kr) (wo + kc) * g_at ni co ho wo)))%X.

Lemma conv_grad_weight_run :
  conv_grad_weight_loops (E := E) zero sr_add sr_mul n c_in h w c_out kh kw h_out w_out pad_h pad_w x g
    (replicate (c_out * (c_in * (kh * (kw * 1)))) zero) =
  Ok (buffer4 c_out c_in kh kw grad_weight_value).
Proof using Type fit_h fit_w len_x len_w fit_kh fit_kw len_g.
  unfold conv_grad_weight_loops.
  rewrite <- (fills_buffer4 (E := E) _ _ _ _
    (λ co ci kr out kc, put out (((co * c_in + ci) * kh + kr) * kw + kc) (grad_weight_value co ci kr kc))
    grad_weight_value) with (out := replicate (c_out * (c_in * (kh * (kw * 1)))) zero).
  2: { intros. apply fills_put. }
  2: { apply length_replicate. }
  apply for_range_ext; intros ? co Hco. apply for_range_ext; intros ? ci Hci.
  apply for_range_ext; intros ? kr Hkr. apply for_range_ext. intros out kc Hkc.
  unfold grad_weight_value. rewrite (for_range_sum3 _ _ _ _ (λ ni ho wo,
    padded_image h w pad_h pad_w (x_at ni ci) (ho + kr) (wo + kc) * g_at ni co ho wo)%X).
  - simpl. f_equal. ring.
  - intros ni ho acc wo Hni Hho Hwo. rewrite !isize_offset_fits by lia.
    rewrite !(swrap_small 64) by (unfold sint; lia). unfold padded_image, ind.
    destruct (Z.ltb_spec (Z.of_nat (ho + kr) - Z.of_nat pad_h) 0),
      (Z.leb_spec (Z.of_nat h) (Z.of_nat (ho + kr) - Z.of_nat pad_h)),
      (Z.ltb_spec (Z.of_nat (wo + kc) - Z.of_nat pad_w) 0),
      (Z.leb_spec (Z.of_nat w) (Z.of_nat (wo + kc) - Z.of_nat pad_w)),
      (Nat.leb_spec pad_h (ho + kr)), (Nat.ltb_spec (ho + kr - pad_h) h),
      (Nat.leb_spec pad_w (wo + kc)), (Nat.ltb_spec (wo + kc - pad_w) w); simpl; try lia;
      try (f_equal; ring).
    replace (Z.to_nat (Z.of_nat (ho + kr) - Z.of_nat pad_h)) with (ho + kr - pad_h) by lia.
    replace (Z.to_nat (Z.of_nat (wo + kc) - Z.of_nat pad_w)) with (wo + kc - pad_w) by lia.
    rewrite (lookup_at4 x n c_in h w) by done. rewrite (lookup_at4 g n c_out h_out w_out) by done. done.
Qed.

(** Both sides of the adjunctions are the sum, over the pairs of an input and
    an output position that a weight connects, of gradient * input * weight. *)
Definition connected (a b ho wo kr kc : nat) (v : X) : X :=
  ind (a + pad_h =? ho + kr) (ind (b + pad_w =? wo + kc) v).

Definition trilinear : X :=
  bsum n (λ ni, bsum c_out (λ co, bsum c_in (λ ci, bsum kh (λ kr, bsum kw (λ kc,
    bsum h_out (λ ho, bsum w_out (λ wo, bsum h (λ a, bsum w (λ b,
      connected a b ho wo kr kc (g_at ni co ho wo * (x_at ni ci a b * w_at co ci kr kc)))))))))))%X.

Lemma padded_sums H W p q (img : nat → nat → X) i j :
  padded_image H W p q img i j =
  bsum H (λ a, bsum W (λ b, ind (a + p =? i) (ind (b + q =? j) (img a b)))).
Proof using Type.
  unfold padded_image. rewrite <- (bsum_shifted W q j (img (i - p))).
  rewrite <- (bsum_shifted H p i (λ a, bsum W (λ b, ind (b + q =? j) (img a b)))).
  apply bsum_ext. intros a _. symmetry. apply bsum_ind.
Qed.

Lemma padded_term H W p q (img : nat → nat → X) i j c d :
  (c * (padded_image H W p q img i j * d))%X =
  bsum H (λ a, bsum W (λ b, ind (a + p =? i) (ind (b + q =? j) (c * (img a b * d))%X))).
Proof using Type.
  rewrite padded_sums, bsum_mul_r, bsum_mul_l. apply bsum_ext. intros a _.
  rewrite bsum_mul_r, bsum_mul_l. apply bsum_ext. intros b _.
  destruct (a + p =? i), (b + q =? j); simpl; ring.
Qed.

Lemma bsum_mul_l3 n1 n2 n3 c (f : nat → nat → nat → X) :
  (c * bsum n1 (λ i, bsum n2 (λ j, bsum n3 (f i j))))%X =
  bsum n1 (λ i, bsum n2 (λ j, bsum n3 (λ k, c * f i j k)%X)).
Proof using Type.
  rewrite bsum_mul_l. apply bsum_ext. intros i _. rewrite bsum_mul_l. apply bsum_ext. intros j _.
  apply bsum_mul_l.
Qed.

Lemma forward_trilinear :
  bsum n (λ ni, bsum c_out (λ co, bsum h_out (λ ho, bsum w_out (λ wo,
    g_at ni co ho wo * conv_value ni co ho wo))))%X = trilinear.
Proof using Type.
  unfold trilinear. apply bsum_ext. intros ni _. apply bsum_ext. intros co _.
  rewrite <- bsum_swap_32. apply bsum_ext. intros ho _. apply bsum_ext. intros wo _.
  unfold conv_value. rewrite bsum_mul_l3. do 3 (apply bsum_ext; intros ? _). apply padded_term.
Qed.

Lemma split_bias (b : nat → X) :
  bsum n (λ ni, bsum c_out (λ co, bsum h_out (λ ho, bsum w_out (λ wo,
    g_at ni co ho wo * (conv_value ni co ho wo + b co)))))%X =
  (bsum n (λ ni, bsum c_out (λ co, bsum h_out (λ ho, bsum w_out (λ wo,
    g_at ni co ho wo * conv_value ni co ho wo)))) +
   bsum c_out (λ co, b co * bsum n (λ ni, bsum h_out (λ ho, bsum w_out (λ wo, g_at ni co ho wo)))))%X.
Proof using Type.
  erewrite (bsum_ext c_out (λ co, sr_mul _ _)); [|intros co _; rewrite bsum_mul_l; done].
  rewrite (bsum_swap c_out n), <- bsum_add. apply bsum_ext. intros ni _.
  rewrite <- bsum_add. apply bsum_ext. intros co _.
  rewrite bsum_mul_l, <- bsum_add. apply bsum_ext. intros ho _.
  rewrite bsum_mul_l, <- bsum_add. apply bsum_ext. intros wo _. ring.
Qed.

Lemma grad_input_trilinear :
  bsum n (λ ni, bsum c_in (λ ci, bsum h (λ hi, bsum w (λ wi,
    x_at ni ci hi wi * grad_input_value ni ci hi wi))))%X = trilinear.
Proof using Type.
  unfold trilinear. apply bsum_ext. intros ni _. rewrite (bsum_swap c_out c_in).
  apply bsum_ext. intros ci _.
  erewrite (bsum_ext h); [|intros hi _; apply bsum_ext; intros wi _; unfold grad_input_value; apply bsum_mul_l3].
  rewrite bsum_swap_32. apply bsum_ext. intros co _. apply bsum_ext. intros kr _.
  apply bsum_ext. intros kc _.
  transitivity (bsum h (λ a, bsum w (λ b, bsum h_out (λ ho, bsum w_out (λ wo,
    connected a b ho wo kr kc (g_at ni co ho wo * (x_at ni ci a b * w_at co ci kr kc)))))))%X.
  - apply bsum_ext. intros a _. apply bsum_ext. intros b _. rewrite padded_term.
    apply bsum_ext. intros ho _. apply bsum_ext. intros wo _. unfold connected.
    rewrite (Nat.eqb_sym (a + pad_h)), (Nat.eqb_sym (b + pad_w)).
    destruct (_ =? _), (_ =? _); simpl; ring.
  - erewrite (bsum_ext h); [|intros a _; rewrite bsum_swap; apply bsum_ext; intros ho _; apply bsum_swap].
    rewrite bsum_swap. apply bsum_ext. intros ho _.
    apply bsum_swap.
Qed.

Lemma grad_weight_trilinear :
  bsum c_out (λ co, bsum c_in (λ ci, bsum kh (λ kr, bsum kw (λ kc,
    w_at co ci kr kc * grad_weight_value co ci kr kc))))%X = trilinear.
Proof using Type.
  unfold trilinear. rewrite (bsum_swap n c_out). apply bsum_ext. intros co _.
  rewrite (bsum_swap n c_in). apply bsum_ext. intros ci _.
  rewrite (bsum_swap n kh). apply bsum_ext. intros kr _.
  rewrite (bsum_swap n kw). apply bsum_ext. intros kc _.
  unfold grad_weight_value. rewrite bsum_mul_l3. do 3 (apply bsum_ext; intros ? _).
  rewrite padded_term. do 2 (apply bsum_ext; intros ? _). unfold connected.
  destruct (_ =? _), (_ =? _); simpl; ring.
Qed.
End adjoint.

(** ** Properties *)

(** The bias of a channel as the loops read it. *)
Definition bias_of (w : World) (bias : option Tensor) (co : nat) : res BackendError Z :=
  match bias with
  | Some b => if decide (dense_as F32 b) then unwrap_opt (shape_order w b !! co) else Ok 0%Z
  | None => Ok 0%Z
  end.

Lemma bias_slice w bias : (∀ b, bias = Some b → tensor_wf w b) →
  ∃ bd, match bias with Some b => slice_of w b F32 | None => Ok None end = Ok (E := BackendError) bd ∧
    (λ co : nat, match bd with Some b => unwrap_opt (b !! co) | None => Ok 0%Z end) = bias_of w bias.
Proof.
  intros Hb. destruct bias as [b|]; [|by eexists]. rewrite slice_of_spec by auto.
  eexists. split; [done|]. unfold bias_of. by destruct (decide (dense_as F32 b)).
Qed.

Lemma forward_loops_fit w input weight bias n c_in h wd c_out kh kw h_out w_out pad_h pad_w :
  tensor_wf w input → tensor_wf w weight →
  t_shape input = [n; c_in; h; wd] → t_shape weight = [c_out; c_in; kh; kw] →
  (∀ b, bias = Some b → dense_as F32 b → (c_out ≤ Z.of_nat (length (shape_order w b)))%Z) →
  (0 ≤ pad_h ∧ 0 ≤ pad_w ∧ 0 ≤ h_out ∧ 0 ≤ w_out ∧ h + pad_h < 2 ^ 63 ∧ wd + pad_w < 2 ^ 63)%Z →
  ∃ y,
    conv_forward_loops (E := BackendError) 0%Z (fadd binary32) (fmul binary32) (Z.to_nat n) (Z.to_nat c_in)
      (Z.to_nat h) (Z.to_nat wd) (Z.to_nat c_out) (Z.to_nat kh) (Z.to_nat kw)
      (Z.to_nat h_out) (Z.to_nat w_out) (Z.to_nat pad_h) (Z.to_nat pad_w)
      (shape_order w input) (shape_order w weight) (bias_of w bias)
      (replicate (Z.to_nat (zprod [n; c_out; h_out; w_out])) 0%Z) = Ok y ∧
    length y = Z.to_nat (zprod [n; c_out; h_out; w_out]) ∧ Forall (value_of F32) y.
Proof.
  intros Hi Hwt Hsi Hsw Hbl (Hph & Hpw & Hho & Hwo & Hfh & Hfw).
  pose proof (tensor_shape_nonneg _ _ Hi) as Hni. rewrite Hsi in Hni.
  pose proof (tensor_shape_nonneg _ _ Hwt) as Hnw. rewrite Hsw in Hnw.
  rewrite !Forall_cons in Hni, Hnw. destruct Hni as (? & ? & ? & ? & _), Hnw as (? & ? & ? & ? & _).
  apply (conv_forward_ok (E := BackendError) 0%Z (fadd binary32) (fmul binary32) (value_of F32))
    with (b := λ co, match bias_of w bias co with Ok v => v | _ => 0%Z end).
  - unfold value_of, uint. simpl. lia.
  - intros. apply (arith_uint binary32 _ _ binary32_wf).
  - lia.
  - lia.
  - rewrite length_shape_order, Hsi. by apply nat_prod4.
  - rewrite length_shape_order, Hsw. by apply nat_prod4.
  - intros co Hco. unfold bias_of. destruct bias as [b|]; [|done].
    destruct (decide (dense_as F32 b)) as [Hd|]; [|done]. specialize (Hbl b eq_refl Hd).
    destruct (lookup_lt_is_Some_2 (shape_order w b) co) as [v ->]; [lia|done].
  - by apply nat_prod4.
  - split; [apply length_replicate|]. apply Forall_replicate. unfold value_of, uint. simpl. lia.
Qed.

(** [conv2d_forward] on tensors.  For well-formed tensors whose padded
    sizes and output fit in memory: a dtype other than f32, or an operand that
    is not stored densely from the start of its storage, is a dtype mismatch;
    ranks other than four or different channel counts are a shape mismatch; the
    only other error is a failed allocation, and nothing panics (a bias used has
    an element per output channel; one of another dtype or layout is
    ignored).  Otherwise the result is a
    fresh contiguous tensor of shape [n, c_out, H_out, W_out], with
    [H_out = max(H + 2 pad - kH, 0) + 1], holding what the loops compute; no
    existing storage changes. *)
Theorem conv2d_forward_total oom junk w input weight bias pad_h pad_w :
  (∀ p n, (0 ≤ n)%Z → Z.of_nat (length (junk p n)) = n) →
  tensor_wf w input → tensor_wf w weight → (∀ b, bias = Some b → tensor_wf w b) →
  (0 ≤ pad_h)%Z → (0 ≤ pad_w)%Z →
  (∀ n c_in h wd c_out kh kw, t_shape input = [n; c_in; h; wd] → t_shape weight = [c_out; c_in; kh; kw] →
     (h + 2 * pad_h < 2 ^ 63 ∧ wd + 2 * pad_w < 2 ^ 63 ∧
      fits_alloc [n; c_out; Z.max 0 (h + 2 * pad_h - kh) + 1; Z.max 0 (wd + 2 * pad_w - kw) + 1] F32 ∧
      ∀ b, bias = Some b → dense_as F32 b → c_out ≤ Z.of_nat (length (shape_order w b)))%Z) →
  match conv2d_forward oom junk w input weight bias pad_h pad_w with
  | Ok (w', t) =>
      ∃ n c_in h wd c_out kh kw out,
        dense_as F32 input ∧ dense_as F32 weight ∧
        t_shape input = [n; c_in; h; wd] ∧ t_shape weight = [c_out; c_in; kh; kw] ∧
        let h_out := (Z.max 0 (h + 2 * pad_h - kh) + 1)%Z in
        let w_out := (Z.max 0 (wd + 2 * pad_w - kw) + 1)%Z in
        conv_forward_loops (E := BackendError) 0%Z (fadd binary32) (fmul binary32) (Z.to_nat n)
          (Z.to_nat c_in) (Z.to_nat h) (Z.to_nat wd) (Z.to_nat c_out) (Z.to_nat kh) (Z.to_nat kw)
          (Z.to_nat h_out) (Z.to_nat w_out) (Z.to_nat pad_h) (Z.to_nat pad_w)
          (shape_order w input) (shape_order w weight)
          (bias_of w bias)
          (replicate (Z.to_nat (n * c_out * h_out * w_out)) 0%Z) = Ok out ∧
        fresh_tensor w w' t F32 [n; c_out; h_out; w_out] out
  | Err (BDtypeMismatch _ _) => ¬ (dense_as F32 input ∧ dense_as F32 weight)
  | Err (BShapeMismatch _ _) =>
      ¬ (∃ n c_in h wd c_out kh kw, t_shape input = [n; c_in; h; wd] ∧ t_shape weight = [c_out; c_in; kh; kw])
  | Err (BOutOfMemory _) => ¬ (∀ n, oom n = false)
  | _ => False
  end.
Proof.
  intros Hj Hi Hwt Hb Hph Hpw Hfit. unfold conv2d_forward.
  destruct (bool_decide_reflect (t_dtype input = F32)) as [Hdi|Hdi]; simpl.
  2: { intros [[? _] _]. done. }
  destruct (bool_decide_reflect (t_dtype weight = F32)) as [Hdw|Hdw]; simpl.
  2: { intros [_ [? _]]. done. }
  destruct (t_shape input) as [|n [|c_in [|h [|wd [|]]]]] eqn:Hsi; try (by intros (?&?&?&?&?&?&?&?&?)).
  destruct (t_shape weight) as [|c_out [|w_cin [|kh [|kw [|]]]]] eqn:Hsw; try (by intros (?&?&?&?&?&?&?&?&?)).
  destruct (Z.eqb_spec c_in w_cin) as [<-|Hne]; simpl.
  2: { intros (?&?&?&?&?&?&?&?&?). congruence. }
  rewrite !slice_of_spec by done. cbn [rbind ok_or].
  destruct (decide (dense_as F32 input)) as [Hci|Hci]; cbn [rbind ok_or]; [|tauto].
  destruct (decide (dense_as F32 weight)) as [Hcw|Hcw]; cbn [rbind ok_or]; [|tauto].
  specialize (Hfit _ _ _ _ _ _ _ eq_refl eq_refl) as (Hfh & Hfw & Hfa & Hbl).
  pose proof (tensor_shape_nonneg _ _ Hi) as Hni. rewrite Hsi in Hni.
  pose proof (tensor_shape_nonneg _ _ Hwt) as Hnw. rewrite Hsw in Hnw.
  rewrite !Forall_cons in Hni, Hnw. destruct Hni as (? & ? & ? & ? & _), Hnw as (? & ? & ? & ? & _).
  rewrite !out_dim_fits, vec_of_fits by done.
  set (h_out := (Z.max 0 (h + 2 * pad_h - kh) + 1)%Z) in *.
  set (w_out := (Z.max 0 (wd + 2 * pad_w - kw) + 1)%Z) in *.
  destruct (bias_slice w bias Hb) as (bd & -> & Hbd).
  cbn [rbind]. rewrite Hbd.
  destruct (forward_loops_fit w input weight bias n c_in h wd c_out kh kw h_out w_out pad_h pad_w)
    as (y & Hy & Hlen & Hall); [done || (unfold h_out, w_out; lia)..|].
  rewrite Hy. cbn [rbind].
  pose proof (finish_fresh oom junk Hj w F32 [n; c_out; h_out; w_out]
    (product_u 64 [n; c_out; h_out; w_out]) y (proj1 Hi) Hfa Hall) as Hf.
  pose proof (shape_fits_prod _ (proj1 Hfa)).
  specialize (Hf ltac:(lia)).
  destruct (finish _ _ _ _ _ _ _) as [[w' t]|[]|]; try done.
  exists n, c_in, h, wd, c_out, kh, kw, y. split_and!; try done.
  fold h_out w_out. replace (n * c_out * h_out * w_out)%Z with (zprod [n; c_out; h_out; w_out]); [done|].
  rewrite !zprod_cons, zprod_nil. ring.
Qed.

(** C30: the gradients of a convolution.  Over any commutative semiring (exact
    arithmetic), for every batch, channel, image and kernel size, padding and
    declared output size whose sums fit an [isize], the three kernels never
    index out of bounds; the forward one computes the correlation of the padded
    image with the weights plus the bias; and the backward ones are its
    adjoints: for every [g], <g, y> = <x, grad_input g> + <b, sums of g over
    each channel>, and <x, grad_input g> = <weights, grad_weight g>. *)
Theorem conv2d_gradients {E X : Type} {SR : SemiRing X}
    (n c_in h w c_out kh kw h_out w_out pad_h pad_w : nat) (x wt g b : list X) :
  (Z.of_nat (h + pad_h) < 2 ^ 63)%Z → (Z.of_nat (w + pad_w) < 2 ^ 63)%Z →
  (Z.of_nat (h_out + kh) < 2 ^ 63)%Z → (Z.of_nat (w_out + kw) < 2 ^ 63)%Z →
  length x = n * c_in * h * w → length wt = c_out * c_in * kh * kw →
  length g = n * c_out * h_out * w_out → length b = c_out →
  ∃ y dx dw,
    conv_forward_loops (E := E) sr_zero sr_add sr_mul n c_in h w c_out kh kw h_out w_out pad_h pad_w
      x wt (λ co, unwrap_opt (b !! co)) (replicate (n * c_out * h_out * w_out) sr_zero) = Ok y ∧
    conv_grad_input_loops (E := E) sr_zero sr_add sr_mul n c_in h w c_out kh kw h_out w_out pad_h pad_w
      g wt (replicate (n * c_in * h * w) sr_zero) = Ok dx ∧
    conv_grad_weight_loops (E := E) sr_zero sr_add sr_mul n c_in h w c_out kh kw h_out w_out pad_h pad_w
      x g (replicate (c_out * c_in * kh * kw) sr_zero) = Ok dw ∧
    (∀ ni co ho wo, ni < n → co < c_out → ho < h_out → wo < w_out →
       at4 sr_zero c_out h_out w_out y ni co ho wo =
       sr_add (bsum c_in (λ ci, bsum kh (λ kr, bsum kw (λ kc,
                 sr_mul (padded_image h w pad_h pad_w (at4 sr_zero c_in h w x ni ci) (ho + kr) (wo + kc))
                        (at4 sr_zero c_in kh kw wt co ci kr kc)))))
              (nth co b sr_zero)) ∧
    dotp g y = sr_add (dotp x dx) (bsum c_out (λ co, sr_mul (nth co b sr_zero)
      (bsum n (λ ni, bsum h_out (λ ho, bsum w_out (λ wo, at4 sr_zero c_out h_out w_out g ni co ho wo)))))) ∧
    dotp x dx = dotp wt dw.
Proof.
  intros Hh Hw Hkh Hkw Hx Hwt Hg Hb.
  assert (length x = n * (c_in * (h * (w * 1)))) as Hx' by lia.
  assert (length wt = c_out * (c_in * (kh * (kw * 1)))) as Hw' by lia.
  assert (length g = n * (c_out * (h_out * (w_out * 1)))) as Hg' by lia.
  rewrite <- Hg, <- Hx, <- Hwt, Hg', Hx', Hw'.
  do 3 eexists. split; [eapply (conv_forward_run n c_in h w c_out kh kw h_out w_out pad_h pad_w Hh Hw Hkh Hkw
    x wt g Hx' Hw' Hg' (λ co, nth co b sr_zero))|].
  { intros co Hco. destruct (nth_lookup_or_length b co sr_zero) as [->|]; [done|lia]. }
  split; [eapply conv_grad_input_run; done|]. split; [eapply conv_grad_weight_run; done|].
  split_and!.
  - intros. by rewrite at4_buffer4.
  - rewrite !dotp_buffer4 by done. rewrite (grad_input_trilinear n c_in h w c_out kh kw).
    rewrite <- (forward_trilinear n c_in h w c_out kh kw). apply split_bias.
  - rewrite !dotp_buffer4 by done. rewrite (grad_input_trilinear n c_in h w c_out kh kw).
    symmetry. apply grad_weight_trilinear.
Qed.

Lemma conv2d_gradients_witness :
  ∃ y dx dw : list Z,
    dotp [1; 2; 3; 4]%Z y = (dotp [1; 2; 3; 4; 5; 6; 7; 8; 9]%Z dx + 10 * 10)%Z ∧
    dotp [1; 2; 3; 4; 5; 6; 7; 8; 9]%Z dx = dotp [1; 0; 0; -1]%Z dw ∧ dw = [37; 47; 67; 77]%Z.
Proof.
  destruct (conv2d_gradients (E := unit) 1 1 3 3 1 2 2 2 2 0 0 [1; 2; 3; 4; 5; 6; 7; 8; 9]%Z
    [1; 0; 0; -1]%Z [1; 2; 3; 4]%Z [10]%Z) as (y & dx & dw & _ & _ & Hdw & _ & H1 & H2);
    [lia|lia|lia|lia|reflexivity..|].
  exists y, dx, dw. split; [|split]; [rewrite H1; reflexivity|exact H2|].
  vm_compute in Hdw. injection Hdw as <-. reflexivity.
Defined.

(** A 2x2 image, also used as the kernel. *)
Definition image : World * Tensor := mk_f32 World_new [1; 1; 2; 2]%Z one_to_four.

Lemma image_fits : shape_fits [1; 1; 2; 2]%Z ∧ shape_fits [1; 1; 1; 1]%Z.
Proof. split; (split; [repeat constructor; vm_compute; congruence|vm_compute; reflexivity]). Qed.

Lemma image_wf : tensor_wf image.1 image.2.
Proof.
  destruct (mk_f32_spec World_new [1; 1; 2; 2]%Z one_to_four World_new_wf (proj1 image_fits)) as [H _];
    [vm_compute; reflexivity|repeat constructor; vm_compute; congruence|vm_compute; reflexivity|exact H].
Qed.

Lemma conv2d_forward_total_witness :
  ∃ w t, conv2d_forward no_oom ff_junk image.1 image.2 image.2 None 0 0 = Ok (w, t) ∧
    shape_order w t = [0x41f00000%Z].
Proof.
  pose proof (conv2d_forward_total no_oom ff_junk image.1 image.2 image.2 None 0 0 ff_junk_len image_wf
    image_wf) as H.
  assert (∀ n c_in h wd c_out kh kw : Z, t_shape image.2 = [n; c_in; h; wd] → t_shape image.2 = [c_out; c_in; kh; kw] →
     (h + 2 * 0 < 2 ^ 63 ∧ wd + 2 * 0 < 2 ^ 63 ∧
      fits_alloc [n; c_out; Z.max 0 (h + 2 * 0 - kh) + 1; Z.max 0 (wd + 2 * 0 - kw) + 1] F32 ∧
      ∀ b, None = Some b → dense_as F32 b → c_out ≤ Z.of_nat (length (shape_order image.1 b)))%Z) as Hs.
  { intros n c_in h wd c_out kh kw H1 H2. vm_compute in H1, H2. injection H1 as <- <- <- <-.
    injection H2 as <- <- <-. split; [lia|]. split; [lia|].
    split; [split; [exact (proj2 image_fits)|vm_compute; congruence]|discriminate]. }
  specialize (H ltac:(discriminate) ltac:(lia) ltac:(lia) Hs).
  destruct (conv2d_forward no_oom ff_junk image.1 image.2 image.2 None 0 0) as [[w t]|e|] eqn:Hr;
    [|vm_compute in Hr; discriminate..].
  exists w, t. split; [reflexivity|].
  destruct H as (n & c_in & h & wd & c_out & kh & kw & out & _ & _ & H1 & H2 & Hl & Hf).
  vm_compute in H1, H2. injection H1 as <- <- <- <-. injection H2 as <- <- <-.
  vm_compute in Hl. injection Hl as <-. apply Hf.
Defined.

(** ** Divergences *)

(** A kernel larger than the padded image is accepted: every output axis has
    one position. *)
Lemma oversized_kernel d pad k : (0 ≤ d → 0 ≤ pad → d + 2 * pad < k → k < 2 ^ 63 → out_dim d pad k = 1)%Z.
Proof. intros. rewrite out_dim_fits by lia. lia. Qed.

(** A bias of another dtype, or a view, is silently ignored. *)
Lemma bias_ignored oom junk w input weight b pad_h pad_w : tensor_wf w b → ¬ dense_as F32 b →
  conv2d_forward oom junk w input weight (Some b) pad_h pad_w =
  conv2d_forward oom junk w input weight None pad_h pad_w.
Proof.
  intros Hb Hd. unfold conv2d_forward. rewrite (slice_of_spec w b) by done.
  by rewrite decide_False.
Qed.
