(* ===== verification/Pool.v ===== *)
(** * Max pooling on the CPU (crates/rustorch-cpu/src/kernels/pool.rs)

    The loops over any element type with its comparison, the functions on
    tensors, and the theorem that the forward pass finds the first maximum of
    each window and the backward pass is the adjoint of reading at the
    positions recorded. *)

From Stdlib Require Import ZArith Lia Ring ArithRing.
From stdpp Require Import base list gmap.
From S2P Require Import Prelude Loops Dtype Float Shape Layout Storage Tensor Mutate Iterator Conv.

Open Scope nat_scope.

Section kernels.
Context {E X : Type} (add : X → X → X) (neg_inf : X) (gt : X → X → bool).

(** The scan of one window: the running maximum and the flat index it was read at. *)
Definition window_max (c h w kh kw ni ci h_start w_start : nat) (in_data : list X)
    : res E (X * nat) :=
  for_range kh (λ best kr,
  for_range kw (λ best kc,
    let h_in := h_start + kr in
    let w_in := w_start + kc in
    let in_idx := ((ni * c + ci) * h + h_in) * w + w_in in
    let? v := unwrap_opt (in_data !! in_idx) in
    Ok (if gt v best.1 then (v, in_idx) else best)) best) (neg_inf, 0).

Definition maxpool_loops (n c h w kh kw sh sw h_out w_out : nat) (in_data : list X)
    (out_idx : list X * list nat) : res E (list X * list nat) :=
  for_range n (λ o ni,
  for_range c (λ o ci,
  for_range h_out (λ o ho,
  for_range w_out (λ o wo,
    let h_start := ho * sh in
    let w_start := wo * sw in
    let? best := window_max c h w kh kw ni ci h_start w_start in_data in
    let at_ := ((ni * c + ci) * h_out + ho) * w_out + wo in
    let? out := put o.1 at_ best.1 in
    let? idx := put o.2 at_ best.2 in
    Ok (out, idx)) o) o) o) out_idx.

(** The scatter loop of [maxpool2d_backward]; an index past the end is skipped. *)
Definition maxpool_scatter (g : list X) (idx : list nat) (n_total : nat) (din : list X)
    : res E (list X) :=
  rfold (λ din li,
      if li.2 <? n_total then
        let? d := unwrap_opt (din !! li.2) in
        let? gv := unwrap_opt (g !! li.1) in
        put din li.2 (add d gv)
      else Ok din)
    din (zip (List.seq 0 (length idx)) idx).
End kernels.

(** ** The functions on tensors *)

Section tensors.
Context (oom : Z → bool) (junk : Z → Z → list Z).

(** [f32::NEG_INFINITY] *)
Definition NEG_INFINITY : Z := 0xff800000.

(** [a > b] on [f32] *)
Definition f32_gt (a b : Z) : bool := fltb binary32 b a.

Definition maxpool2d_forward (w : World) (input : Tensor) (kernel_size stride : Z * Z)
    : res BackendError (World * Tensor * Tensor) :=
  if negb (bool_decide (t_dtype input = F32)) then Err (BDtypeMismatch (t_dtype input) F32)
  else match t_shape input with
  | [n; c; h; wd] =>
      let '(kh, kw) := kernel_size in
      let '(sh, sw) := stride in
      if (h <? kh) || (wd <? kw) then Err (BShapeMismatch (t_shape input) [n; c; kh; kw])
      else if (sh =? 0) || (sw =? 0) then Panic
      else
        let h_out := wrap 64 ((h - kh) / sh + 1) in
        let w_out := wrap 64 ((wd - kw) / sw + 1) in
        let? in_data := slice_of w input F32 in
        let? in_data := unwrap_opt in_data in
        let len := product_u 64 [n; c; h_out; w_out] in
        let? out := vec_of 4 len NEG_INFINITY in
        let? idx := vec_of 8 len 0%nat in
        let? oi := maxpool_loops NEG_INFINITY f32_gt (Z.to_nat n) (Z.to_nat c) (Z.to_nat h)
          (Z.to_nat wd) (Z.to_nat kh) (Z.to_nat kw) (Z.to_nat sh) (Z.to_nat sw)
          (Z.to_nat h_out) (Z.to_nat w_out) in_data (out, idx) in
        let? (w, out_t) := finish oom junk w F32 [n; c; h_out; w_out] len oi.1 in
        let? (w, idx_t) := finish oom junk w I64 [n; c; h_out; w_out] len (Z.of_nat <$> oi.2) in
        Ok (w, out_t, idx_t)
  | _ => Err (BShapeMismatch (t_shape input) [0; 0; 0; 0])
  end%Z.

Definition maxpool2d_backward (w : World) (grad_output argmax_idx : Tensor) (in_shape : list Z)
    : res BackendError (World * Tensor) :=
  let? g := slice_of w grad_output F32 in
  let? g := unwrap_opt g in
  let? idx := slice_of w argmax_idx I64 in
  let? idx := unwrap_opt idx in
  let n_total := product_u 64 in_shape in
  let? din := vec_of 4 n_total 0%Z in
  let? din := maxpool_scatter (fadd binary32) g (Z.to_nat <$> idx) (Z.to_nat n_total) din in
  finish oom junk w F32 in_shape n_total din.
End tensors.

(** ** The scan of a window *)

(** The positions of a window in the order they are scanned. *)
Definition window (c h w kh kw ni ci h_start w_start : nat) : list nat :=
  concat ((λ kr, (λ kc, ((ni * c + ci) * h + (h_start + kr)) * w + (w_start + kc)) <$> List.seq 0 kw)
    <$> List.seq 0 kh).

Section scan.
Context {X : Type} (neg_inf : X) (gt : X → X → bool).
Context (gt_irrefl : ∀ x, gt x x = false).
Context (gt_trans : ∀ x y z, gt x y = true → gt y z = true → gt x z = true).

Definition better (best p : X * nat) : X * nat := if gt p.1 best.1 then p else best.

(** [r] is the first maximum of [l], or the default when nothing beats it. *)
Definition first_max (l : list (X * nat)) (r : X * nat) : Prop :=
  (∀ p, p ∈ l → gt p.1 r.1 = false) ∧
  ((r = (neg_inf, 0) ∧ ∀ p, p ∈ l → gt p.1 neg_inf = false) ∨
   (gt r.1 neg_inf = true ∧ ∃ l1 l2, l = l1 ++ r :: l2 ∧ ∀ p, p ∈ l1 → p.1 ≠ r.1)).

Lemma scan_first_max l : first_max l (foldl better (neg_inf, 0) l).
Proof using gt_irrefl gt_trans.
  induction l as [|p l IH] using rev_ind.
  { split; [by intros p H%elem_of_nil|]. left. split; [done|]. by intros p H%elem_of_nil. }
  rewrite foldl_app. simpl. remember (foldl better (neg_inf, 0) l) as r eqn:Er. clear Er. destruct IH as [Hmax Hr].
  unfold better. destruct (gt p.1 r.1) eqn:Hp.
  - assert (gt p.1 neg_inf = true) as Hpn.
    { destruct Hr as [[Hr _]|[Hr _]]; [by rewrite Hr in Hp|by eapply gt_trans]. }
    split.
    + intros q [Hq|Hq]%elem_of_app.
      * destruct (gt q.1 p.1) eqn:Hqp; [|done]. rewrite <- (Hmax q Hq). symmetry. by eapply gt_trans.
      * apply list_elem_of_singleton in Hq as ->. apply gt_irrefl.
    + right. split; [done|]. exists l, []. split; [done|]. intros q Hq Heq.
      rewrite <- Heq, (Hmax q Hq) in Hp. done.
  - split.
    + intros q [Hq|Hq]%elem_of_app; [by apply Hmax|]. by apply list_elem_of_singleton in Hq as ->.
    + destruct Hr as [[Hr Hl]|(Hr & l1 & l2 & -> & Hl)].
      * left. split; [done|]. intros q [Hq|Hq]%elem_of_app; [by apply Hl|].
        apply list_elem_of_singleton in Hq as ->. by rewrite Hr in Hp.
      * right. split; [done|]. exists l1, (l2 ++ [p]). split; [by rewrite <- app_assoc|done].
Qed.

Lemma window_max_scan {E} c h w kh kw ni ci h_start w_start (x : list X) dflt :
  (∀ j, j ∈ window c h w kh kw ni ci h_start w_start → j < length x) →
  window_max (E := E) neg_inf gt c h w kh kw ni ci h_start w_start x =
  Ok (foldl better (neg_inf, 0)
        ((λ j, (nth j x dflt, j)) <$> window c h w kh kw ni ci h_start w_start)).
Proof using Type.
  intros Hin. unfold window_max, for_range.
  transitivity (rfold (E := E) (λ best j, let? v := unwrap_opt (x !! j) in
      Ok (if gt v best.1 then (v, j) else best)) (neg_inf, 0) (window c h w kh kw ni ci h_start w_start)).
  - unfold window. rewrite rfold_concat, rfold_fmap. apply rfold_ext. intros best kr _. by rewrite rfold_fmap.
  - rewrite (rfold_pure _ (λ best j, better best (nth j x dflt, j))).
    + f_equal. generalize (neg_inf, 0) as best.
      induction (window c h w kh kw ni ci h_start w_start) as [|j l IH]; intros best; [done|].
      simpl. apply IH. intros; apply Hin, elem_of_cons; by right.
    + intros best j Hj%Hin. destruct (nth_lookup_or_length x j dflt) as [->|]; [done|lia].
Qed.
End scan.

(** ** The whole image *)

Section pooling.
Context {E X : Type} {SR : SemiRing X} (neg_inf : X) (gt : X → X → bool).
Add Ring Xring : (@sr_laws X SR).
Context (n c h w kh kw sh sw h_out w_out : nat).
Context (fit_h : (h_out - 1) * sh + kh ≤ h) (fit_w : (w_out - 1) * sw + kw ≤ w).
Context (x : list X) (len_x : length x = n * (c * (h * (w * 1)))).

Local Notation zero := (@sr_zero X SR).

(** The result of the scan for an output position *)
Definition pooled (ni ci ho wo : nat) : X * nat :=
  foldl (better gt) (neg_inf, 0) ((λ j, (nth j x zero, j)) <$>
    window c h w kh kw ni ci (ho * sh) (wo * sw)).

Lemma window_bound ni ci ho wo j : ni < n → ci < c → ho < h_out → wo < w_out →
  j ∈ window c h w kh kw ni ci (ho * sh) (wo * sw) → j < length x.
Proof using fit_h fit_w len_x.
  intros Hn Hc Hh Hw Hj. unfold window in Hj. apply list_elem_of_In, in_concat in Hj as (row & Hr & Hj).
  apply list_elem_of_In, list_elem_of_fmap in Hr as (kr & -> & Hkr%elem_of_seq).
  apply list_elem_of_In, list_elem_of_fmap in Hj as (kc & -> & Hkc%elem_of_seq).
  rewrite len_x. apply index4_lt; try done; nia.
Qed.

Lemma maxpool_run :
  maxpool_loops (E := E) neg_inf gt n c h w kh kw sh sw h_out w_out x
    (replicate (n * (c * (h_out * (w_out * 1)))) neg_inf, replicate (n * (c * (h_out * (w_out * 1)))) 0) =
  Ok (fst <$> buffer4 n c h_out w_out pooled, snd <$> buffer4 n c h_out w_out pooled).
Proof using fit_h fit_w len_x.
  set (L := n * (c * (h_out * (w_out * 1)))).
  pose (φ := λ l : list (X * nat), (fst <$> l, snd <$> l)).
  change (Ok (fst <$> buffer4 n c h_out w_out pooled, snd <$> buffer4 n c h_out w_out pooled))
    with (rmap (E := E) φ (Ok (buffer4 n c h_out w_out pooled))).
  replace (replicate L neg_inf, replicate L 0) with (φ (replicate L (neg_inf, 0)))
    by (unfold φ; by rewrite !fmap_replicate).
  rewrite <- (fills_buffer4 (E := E) _ _ _ _
    (λ ni ci ho out wo, put out (((ni * c + ci) * h_out + ho) * w_out + wo) (pooled ni ci ho wo)) pooled)
    with (out := replicate L (neg_inf, 0)).
  2: { intros. apply fills_put. }
  2: { apply length_replicate. }
  unfold maxpool_loops.
  apply for_range_map. intros ? ni Hni. apply for_range_map. intros ? ci Hci.
  apply for_range_map. intros ? ho Hho. apply for_range_map. intros out wo Hwo.
  rewrite (window_max_scan neg_inf gt _ _ _ _ _ _ _ _ _ x zero)
    by (intros; by eapply (window_bound ni ci ho wo)).
  fold (pooled ni ci ho wo). cbn [rbind]. unfold put, φ. cbn [fst snd]. rewrite !length_fmap.
  destruct (_ <? _); [|done]. cbn [rbind rmap]. by rewrite !list_fmap_insert.
Qed.
End pooling.

(** The scatter loop is the adjoint of reading at the recorded positions. *)
Section scatter.
Context {E X : Type} {SR : SemiRing X}.
Add Ring Xring : (@sr_laws X SR).
Local Notation zero := (@sr_zero X SR).

Lemma scatter_from (g : list X) idx n_total din k :
  length din = n_total → k + length idx ≤ length g →
  ∃ dout, rfold (E := E) (λ din li,
      if li.2 <? n_total then
        let? d := unwrap_opt (din !! li.2) in
        let? gv := unwrap_opt (g !! li.1) in
        put din li.2 (sr_add d gv)
      else Ok din) din (zip (List.seq k (length idx)) idx) = Ok dout ∧ length dout = n_total ∧
    ∀ t, length t = n_total →
      dotp dout t = sr_add (dotp din t) (dotp (drop k g) (List.map (λ i, nth i t zero) idx)).
Proof.
  revert din k. induction idx as [|i idx IH]; intros din k Hd Hk.
  { exists din. split; [done|]. split; [done|]. intros t _. simpl.
    unfold dotp at 3. rewrite zip_with_nil_r. simpl. ring. }
  simpl in Hk. destruct (lookup_lt_is_Some_2 g k) as [gv Hgv]; [lia|].
  simpl. rewrite (drop_S _ _ _ Hgv).
  destruct (Nat.ltb_spec i n_total) as [Hi|Hi].
  - destruct (lookup_lt_is_Some_2 din i) as [d Hdi]; [lia|]. rewrite Hdi, Hgv. cbn [unwrap_opt rbind].
    assert (put (E := E) din i (sr_add d gv) = Ok (<[i := sr_add d gv]> din)) as ->.
    { unfold put. by rewrite (proj2 (Nat.ltb_lt _ _)) by lia. }
    cbn [rbind].
    destruct (IH (<[i := sr_add d gv]> din) (S k)) as (dout & Hr & Hl & Hdot);
      [by rewrite length_insert|lia|].
    exists dout. split; [done|]. split; [done|]. intros t Ht.
    rewrite Hdot, dotp_cons, (dotp_insert_add _ _ _ d) by (done || lia). ring.
  - destruct (IH din (S k)) as (dout & Hr & Hl & Hdot); [done|lia|].
    exists dout. split; [done|]. split; [done|]. intros t Ht.
    rewrite Hdot, dotp_cons by done. rewrite (nth_overflow t zero) by lia. ring.
Qed.
End scatter.

(** ** Properties *)

(** Position [i] of the window [win] holds its maximum [m], and is the first that does. *)
Definition argmax_of {X} (gt : X → X → bool) (val : nat → X) (win : list nat) (m : X) (i : nat) : Prop :=
  m = val i ∧ (∀ j, j ∈ win → gt (val j) m = false) ∧
  ∃ l1 l2, win = l1 ++ i :: l2 ∧ ∀ j, j ∈ l1 → val j ≠ m.

Lemma first_max_window {X} (neg_inf : X) gt val win m i :
  first_max neg_inf gt ((λ j, (val j, j)) <$> win) (m, i) → (∃ j, j ∈ win ∧ gt (val j) neg_inf = true) →
  argmax_of gt val win m i.
Proof.
  intros [Hmax Hr] (j & Hj & Hgt).
  assert (∀ j, j ∈ win → (val j, j) ∈ ((λ j, (val j, j)) <$> win)) as Hin.
  { intros j' Hj'. apply list_elem_of_fmap. by exists j'. }
  destruct Hr as [[_ Hnone]|(_ & l1 & l2 & Hl & Hfirst)].
  { specialize (Hnone _ (Hin j Hj)). simpl in Hnone. congruence. }
  apply fmap_app_inv in Hl as (w1 & w' & -> & Hl2 & ->). symmetry in Hl2.
  apply fmap_cons_inv in Hl2 as (i' & w2 & Hi & -> & ->). injection Hi as -> ->.
  split; [done|]. split.
  - intros j' Hj'. by apply (Hmax _ (Hin j' Hj')).
  - exists w1, w2. split; [done|]. intros j' Hj'. apply (Hfirst (val j', j')). apply list_elem_of_fmap. by exists j'.
Qed.

(** C31: max pooling.  For a comparison that is irreflexive and transitive (as that of
    floats is, NaN included), kernels inside the image, positive strides, and windows
    that each hold an element greater than minus infinity, the forward loops never
    index out of bounds; each output is a maximum of its window, and the index
    recorded for it is the first position of the window that holds that value.  The
    backward loop, over exact arithmetic, is the adjoint of reading the input at the
    recorded positions: <din, t> = <g, t at these positions> for every tangent [t]. *)
Theorem maxpool2d_correct {E X : Type} {SR : SemiRing X} (neg_inf : X) (gt : X → X → bool)
    (n c h w kh kw sh sw : nat) (x g : list X) :
  (∀ a, gt a a = false) → (∀ a b c, gt a b = true → gt b c = true → gt a c = true) →
  kh ≤ h → kw ≤ w → 0 < sh → 0 < sw → length x = n * c * h * w →
  let h_out := (h - kh) / sh + 1 in
  let w_out := (w - kw) / sw + 1 in
  length g = n * c * h_out * w_out →
  let win ni ci ho wo := window c h w kh kw ni ci (ho * sh) (wo * sw) in
  (∀ ni ci ho wo, ni < n → ci < c → ho < h_out → wo < w_out →
     ∃ j, j ∈ win ni ci ho wo ∧ gt (nth j x sr_zero) neg_inf = true) →
  ∃ out idx din,
    maxpool_loops (E := E) neg_inf gt n c h w kh kw sh sw h_out w_out x
      (replicate (n * c * h_out * w_out) neg_inf, replicate (n * c * h_out * w_out) 0) = Ok (out, idx) ∧
    maxpool_scatter (E := E) sr_add g idx (n * c * h * w) (replicate (n * c * h * w) sr_zero) = Ok din ∧
    (∀ ni ci ho wo, ni < n → ci < c → ho < h_out → wo < w_out →
       argmax_of gt (λ j, nth j x sr_zero) (win ni ci ho wo)
         (at4 neg_inf c h_out w_out out ni ci ho wo) (at4 0 c h_out w_out idx ni ci ho wo)) ∧
    ∀ t, length t = n * c * h * w → dotp din t = dotp g (List.map (λ i, nth i t sr_zero) idx).
Proof.
  intros Hirr Htr Hkh Hkw Hsh Hsw Hx h_out w_out Hg win Hwin.
  assert ((h_out - 1) * sh + kh ≤ h) as Hfh
    by (unfold h_out; pose proof (Nat.Div0.mul_div_le (h - kh) sh); nia).
  assert ((w_out - 1) * sw + kw ≤ w) as Hfw
    by (unfold w_out; pose proof (Nat.Div0.mul_div_le (w - kw) sw); nia).
  assert (length x = n * (c * (h * (w * 1)))) as Hx' by lia.
  assert (n * c * h_out * w_out = n * (c * (h_out * (w_out * 1)))) as Ho by lia.
  set (best := pooled neg_inf gt c h w kh kw sh sw x).
  destruct (scatter_from (E := E) g (snd <$> buffer4 n c h_out w_out best) (n * c * h * w)
    (replicate (n * c * h * w) sr_zero) 0) as (din & Hd & _ & Hdot); [apply length_replicate| |].
  { rewrite length_fmap, length_buffer4. lia. }
  exists (fst <$> buffer4 n c h_out w_out best), (snd <$> buffer4 n c h_out w_out best), din.
  split; [rewrite Ho; by apply maxpool_run|]. split; [exact Hd|]. split.
  - intros ni ci ho wo Hn Hc Hho Hwo.
    set (l := buffer4 n c h_out w_out best).
    assert (at4 neg_inf c h_out w_out (fst <$> l) ni ci ho wo = (best ni ci ho wo).1) as ->.
    { rewrite <- (at4_buffer4 (neg_inf, 0) n c h_out w_out best ni ci ho wo) by done.
      apply (map_nth fst l (neg_inf, 0)). }
    assert (at4 0 c h_out w_out (snd <$> l) ni ci ho wo = (best ni ci ho wo).2) as ->.
    { rewrite <- (at4_buffer4 (neg_inf, 0) n c h_out w_out best ni ci ho wo) by done.
      apply (map_nth snd l (neg_inf, 0)). }
    apply (first_max_window neg_inf); [|by apply Hwin]. rewrite <- surjective_pairing. by apply scan_first_max.
  - intros t Ht. rewrite Hdot, dotp_zeros by done. rewrite drop_0.
    rewrite (SRadd_0_l sr_laws). done.
Qed.

(** 2x2 windows of a 4x4 image; the first window is flat. *)
Lemma maxpool2d_correct_witness :
  ∃ (out : list Z) (idx : list nat) (din : list Z), out = [5; 7; 9; 16]%Z ∧
    dotp din [0; 1; 2; 3; 4; 5; 6; 7; 8; 9; 10; 11; 12; 13; 14; 15]%Z = dotp [1; 2; 3; 4]%Z [0; 6; 8; 15]%Z ∧
    maxpool_loops (E := unit) (-1000)%Z Z.gtb 1 1 4 4 2 2 2 2 2 2
      [5; 5; 6; 3; 5; 5; 7; 1; 9; 2; 0; 0; 1; 1; 4; 16]%Z (replicate 4 (-1000)%Z, replicate 4 0)
      = Ok (out, idx).
Proof.
  destruct (maxpool2d_correct (E := unit) (-1000)%Z Z.gtb 1 1 4 4 2 2 2 2
    [5; 5; 6; 3; 5; 5; 7; 1; 9; 2; 0; 0; 1; 1; 4; 16]%Z [1; 2; 3; 4]%Z) as (out & idx & din & Hl & _ & _ & Hd);
    [intros a; rewrite Z.gtb_ltb; apply Z.ltb_irrefl|intros a b c; rewrite !Z.gtb_ltb, !Z.ltb_lt; lia|
     lia|lia|lia|lia|reflexivity|reflexivity| |].
  { intros ni ci ho wo Hn Hc Hho Hwo. assert (ni = 0) as -> by lia. assert (ci = 0) as -> by lia.
    destruct ho as [|[|ho]]; [| |simpl in Hho; lia]; destruct wo as [|[|wo]]; [| |simpl in Hwo; lia| | |simpl in Hwo; lia];
      (eexists; split; [left|reflexivity]). }
  exists out, idx, din. split; [|split; [|exact Hl]].
  - vm_compute in Hl. injection Hl as <- _. reflexivity.
  - rewrite Hd by reflexivity. vm_compute in Hl. injection Hl as _ <-. vm_compute. reflexivity.
Defined.

(** ** A divergence *)

(** A window of nothing but NaN or minus infinity records position 0 of the
    whole tensor, which then receives its gradient. *)
Lemma nan_window_records_0 :
  window_max (E := unit) NEG_INFINITY f32_gt 1 1 4 1 2 0 0 0 2
    [0x3f800000; 0x3f800000; 0x7fc00000; NEG_INFINITY]%Z = Ok (NEG_INFINITY, 0).
Proof. vm_compute. reflexivity. Qed.
