(* ===== verification/ShapeOps.v ===== *)
(** * Kernels that move elements (crates/rustorch-cpu/src/kernels/shape_ops.rs,
      and [index_select] of cpu_backend.rs)

    [repeat], [flip], [roll] and [index_select] build an output element by
    element, decoding the linear index into coordinates, mapping them to the
    source's and reading there; [cat], [stack], [split] and [chunk] copy blocks.
    The theorems say which element of the source every element of the result is,
    and that [cat] undoes [split]. *)

From Stdlib Require Import ZArith Lia.
From stdpp Require Import base list gmap.
From S2P Require Import Prelude Loops Dtype Float Shape Layout Storage Tensor View Mutate Iterator Conv.

Open Scope Z_scope.

(** ** Coordinates *)

(** [contiguous_strides] *)
Fixpoint contiguous_strides (shape : Shape) : list Z :=
  match shape with
  | [] => []
  | _ :: ds =>
      match contiguous_strides ds, ds with
      | s :: ss, d :: _ => wrap 64 (s * d) :: s :: ss
      | _, _ => [1]
      end
  end.

(** [decode_coords]: from the last axis, the remainder and the quotient left *)
Definition decode_coords {E} (linear : Z) (shape : Shape) : res E (list Z) :=
  rmap snd (foldr (λ d acc,
      let? ic := acc in
      if d =? 0 then Panic else Ok (ic.1 / d, ic.1 mod d :: ic.2))
    (Ok (linear, [])) shape).

(** The dtypes the kernels dispatch on *)
Definition shape_op_dtype (d : Dtype) : bool :=
  match d with F32 | F64 | I64 | I32 | I8 | DBool => true | _ => false end.

Section kernels.
Context (oom : Z → bool) (junk : Z → Z → list Z).

(** [src.iter_elements::<T>().expect("dtype").collect()] *)
Definition collect {E} (w : World) (src : Tensor) (T : Dtype) : res E (list Z) :=
  let? o := unwrap (iter_elements w src T) in unwrap_opt o.

(** The loop over the output's linear indices; [source] maps the output's
    coordinates to the source's. *)
Definition gather_typed (w : World) (src : Tensor) (out_shape : Shape)
    (source : list Z → res BackendError (list Z)) : res BackendError (World * Tensor) :=
  let? buf := collect w src (t_dtype src) in
  let n_out := product_u 64 out_shape in
  let? out := rmapM (λ i,
      let? coords := decode_coords (Z.of_nat i) out_shape in
      let? coords := source coords in
      unwrap_opt (buf !! Z.to_nat (wrap 64 (dot coords (contiguous_strides (t_shape src))))))
    (seq 0 (Z.to_nat n_out)) in
  finish oom junk w (t_dtype src) out_shape n_out out.

(** ** repeat, flip, roll, index_select *)

Definition repeat_source (src_shape : Shape) (coords : list Z) : res BackendError (list Z) :=
  rmapM (λ cd, if cd.2 =? 0 then Panic else Ok (cd.1 mod cd.2)) (zip coords src_shape).

Definition repeat (w : World) (src : Tensor) (repeats : list Z) : res BackendError (World * Tensor) :=
  if negb (length repeats =? length (t_shape src))%nat then Err (BShapeMismatch (t_shape src) repeats)
  else
    let new_shape := zip_with (λ d r, wrap 64 (d * r)) (t_shape src) repeats in
    if shape_op_dtype (t_dtype src) then gather_typed w src new_shape (repeat_source (t_shape src))
    else Err (BDtypeMismatch (t_dtype src) (t_dtype src)).

Definition flip_source (shape : Shape) (dims : list nat) (coords : list Z) : res BackendError (list Z) :=
  rfold (λ coords d,
    let? n := unwrap_opt (shape !! d) in
    let? c := unwrap_opt (coords !! d) in
    Ok (<[d := wrap 64 (n - 1 - c)]> coords)) coords dims.

Definition flip (w : World) (src : Tensor) (dims : list nat) : res BackendError (World * Tensor) :=
  let ndim := length (t_shape src) in
  match List.find (λ d, (ndim <=? d)%nat) dims with
  | Some d => Err (BIndexOutOfBounds (Z.of_nat d) (Z.of_nat ndim))
  | None =>
      if shape_op_dtype (t_dtype src) then
        gather_typed w src (t_shape src) (flip_source (t_shape src) dims)
      else Err (BDtypeMismatch (t_dtype src) (t_dtype src))
  end.

Definition roll_source (dim_size s : Z) (dim : nat) (coords : list Z) : res BackendError (list Z) :=
  let? c := unwrap_opt (coords !! dim) in
  if dim_size =? 0 then Panic
  else Ok (<[dim := wrap 64 (wrap 64 (c + dim_size) - s) mod dim_size]> coords).

(** [shifts] is an [i64], whose [%] truncates. *)
Definition roll (w : World) (src : Tensor) (shifts : Z) (dim : nat) : res BackendError (World * Tensor) :=
  let ndim := length (t_shape src) in
  if (ndim <=? dim)%nat then Err (BIndexOutOfBounds (Z.of_nat dim) (Z.of_nat ndim))
  else
    let? dim_size := Conv.dim (t_shape src) dim in
    let n := swrap 64 dim_size in
    if n =? 0 then unwrap (contiguous oom junk w src)
    else
      let s := Z.rem (swrap 64 (Z.rem shifts n + n)) n in
      if shape_op_dtype (t_dtype src) then
        gather_typed w src (t_shape src) (roll_source dim_size (wrap 64 s) dim)
      else Err (BDtypeMismatch (t_dtype src) (t_dtype src)).

Definition index_select_source (idx_vec : list Z) (src_dim_size : Z) (dim : nat) (coords : list Z)
    : res BackendError (list Z) :=
  let? c := unwrap_opt (coords !! dim) in
  let? j := unwrap_opt (idx_vec !! Z.to_nat c) in
  let j := of_twos 64 j in
  if (j <? 0) || (src_dim_size <=? j) then Err (BIndexOutOfBounds j src_dim_size)
  else Ok (<[dim := j]> coords).

Definition index_select (w : World) (src : Tensor) (dim : nat) (indices : Tensor)
    : res BackendError (World * Tensor) :=
  if negb (bool_decide (t_dtype indices = I64)) then Err (BDtypeMismatch (t_dtype indices) I64)
  else if negb (length (t_shape indices) =? 1)%nat then
    Err (BShapeMismatch (t_shape indices) [t_numel indices])
  else
    let ndim := length (t_shape src) in
    if (ndim <=? dim)%nat then Err (BIndexOutOfBounds (Z.of_nat dim) (Z.of_nat ndim))
    else match t_dtype src with
    | F32 | F64 | I64 | I32 =>
        let? idx_vec := collect w indices I64 in
        let? src_dim_size := Conv.dim (t_shape src) dim in
        gather_typed w src (<[dim := Z.of_nat (length idx_vec)]> (t_shape src))
          (index_select_source idx_vec src_dim_size dim)
    | d => Err (BDtypeMismatch d d)
    end.
(** ** cat, stack, split, chunk *)

(** The loop of [cat_typed] over outer positions and inputs *)
Definition cat_rows {E} (w : World) (tensors : list Tensor) (T : Dtype) (dim : nat) (outer : Z)
    : res E (list Z) :=
  let? rows := rmapM (λ outer_idx,
      let? chunks := rmapM (λ t,
          let? dim_size := Conv.dim (t_shape t) dim in
          let? buf := collect w t T in
          let inner := Z.max 1 (product_u 64 (drop (S dim) (t_shape t))) in
          let in_offset := wrap 64 (wrap 64 (Z.of_nat outer_idx * dim_size) * inner) in
          let chunk_len := wrap 64 (dim_size * inner) in
          slice_range buf in_offset (wrap 64 (in_offset + chunk_len))) tensors in
      Ok (concat chunks)) (seq 0 (Z.to_nat outer)) in
  Ok (concat rows).

Definition cat_typed (w : World) (tensors : list Tensor) (T : Dtype) (dim : nat) (out_shape : Shape)
    : res BackendError (World * Tensor) :=
  let n_out := product_u 64 out_shape in
  let outer := Z.max 1 (product_u 64 (take dim out_shape)) in
  let? out := cat_rows w tensors T dim outer in
  finish oom junk w T out_shape n_out out.

(** The check of an input against the first one *)
Definition cat_check (first : Tensor) (dim : nat) (t : Tensor) : res BackendError unit :=
  if negb (bool_decide (t_dtype t = t_dtype first)) then Err (BDtypeMismatch (t_dtype first) (t_dtype t))
  else if negb (length (t_shape t) =? length (t_shape first))%nat then
    Err (BShapeMismatch (t_shape first) (t_shape t))
  else if existsb (λ x, negb (x.1 =? dim)%nat && negb (x.2.1 =? x.2.2))
            (imap (λ i ab, (i, ab)) (zip (t_shape first) (t_shape t))) then
    Err (BShapeMismatch (t_shape first) (t_shape t))
  else Ok tt.

Definition cat (w : World) (tensors : list Tensor) (dim : nat) : res BackendError (World * Tensor) :=
  match tensors with
  | [] => Err (BShapeMismatch [] [])
  | first :: rest =>
      let ndim := length (t_shape first) in
      if (ndim <=? dim)%nat then Err (BIndexOutOfBounds (Z.of_nat dim) (Z.of_nat ndim))
      else
        let? _ := rfold (λ _ t, cat_check first dim t) tt rest in
        let? sizes := rmapM (λ t, Conv.dim (t_shape t) dim) tensors in
        let out_shape := <[dim := sum_u 64 sizes]> (t_shape first) in
        if shape_op_dtype (t_dtype first) then cat_typed w tensors (t_dtype first) dim out_shape
        else Err (BDtypeMismatch (t_dtype first) (t_dtype first))
  end.

(** Dropping a tensor *)
Definition drop_tensor (w : World) (t : Tensor) : World := drop_storage w (t_storage t).

(** The view of each input of [stack]: [t.contiguous().view(new_shape)] *)
Definition stack_view (new_shape : Shape) (w : World) (t : Tensor) : res BackendError (World * Tensor) :=
  let? (w, c) := unwrap (contiguous oom junk w t) in
  let? (w, v) := unwrap (run_view (OpView new_shape) w c) in
  Ok (drop_tensor w c, v).

Definition stack_check (first t : Tensor) : res BackendError unit :=
  if negb (bool_decide (t_dtype t = t_dtype first)) then Err (BDtypeMismatch (t_dtype first) (t_dtype t))
  else if negb (bool_decide (t_shape t = t_shape first)) then
    Err (BShapeMismatch (t_shape first) (t_shape t))
  else Ok tt.

Definition stack (w : World) (tensors : list Tensor) (dim : nat) : res BackendError (World * Tensor) :=
  match tensors with
  | [] => Err (BShapeMismatch [] [])
  | first :: rest =>
      let shape := t_shape first in
      if (length shape <? dim)%nat then
        Err (BIndexOutOfBounds (Z.of_nat dim) (Z.of_nat (length shape) + 1))
      else
        let? _ := rfold (λ _ t, stack_check first t) tt rest in
        let new_shape := take dim shape ++ 1 :: drop dim shape in
        let? (w, unsqueezed) := rfold (λ wv t,
            let? (w, v) := stack_view new_shape wv.1 t in Ok (w, wv.2 ++ [v])) (w, []) tensors in
        let? (w, out) := cat w unsqueezed dim in
        Ok (foldl drop_tensor w unsqueezed, out)
  end.

(** The [while] loop of [split], with the size of the axis as fuel. *)
Fixpoint split_loop (fuel : nat) (w : World) (src : Tensor) (dim : nat) (split_size dim_size start : Z)
    : res BackendError (World * list Tensor) :=
  match fuel with
  | O => Ok (w, [])
  | S fuel =>
      if start <? dim_size then
        let len := Z.min (dim_size - start) split_size in
        let? (w, piece) := map_err (λ _, BIndexOutOfBounds start dim_size)
                             (run_view (OpNarrow dim start len) w src) in
        let? (w, c) := unwrap (contiguous oom junk w piece) in
        let w := drop_tensor w piece in
        let? (w, pieces) := split_loop fuel w src dim split_size dim_size (wrap 64 (start + len)) in
        Ok (w, c :: pieces)
      else Ok (w, [])
  end.

Definition split (w : World) (src : Tensor) (split_size : Z) (dim : nat)
    : res BackendError (World * list Tensor) :=
  let ndim := length (t_shape src) in
  if (ndim <=? dim)%nat then Err (BIndexOutOfBounds (Z.of_nat dim) (Z.of_nat ndim))
  else if split_size =? 0 then Err (BShapeMismatch (t_shape src) [split_size])
  else
    let? dim_size := Conv.dim (t_shape src) dim in
    split_loop (Z.to_nat dim_size) w src dim split_size dim_size 0.

Definition chunk (w : World) (src : Tensor) (n_chunks : Z) (dim : nat)
    : res BackendError (World * list Tensor) :=
  let ndim := length (t_shape src) in
  if n_chunks =? 0 then Err (BShapeMismatch (t_shape src) [n_chunks])
  else if (ndim <=? dim)%nat then Err (BIndexOutOfBounds (Z.of_nat dim) (Z.of_nat ndim))
  else
    let? dim_size := Conv.dim (t_shape src) dim in
    split w src (Z.max 1 (div_ceil dim_size n_chunks)) dim.
End kernels.

(** ** The loop over linear indices *)

Lemma contiguous_strides_prods s : shape_fits s → contiguous_strides s = suffix_prods s.
Proof.
  induction s as [|d s IH]; intros Hs; [done|]. simpl.
  apply shape_fits_cons in Hs as (_ & _ & Hs). rewrite IH by done.
  destruct s as [|d' s]; simpl; [done|]. f_equal.
  rewrite Z.mul_comm, <- zprod_cons. apply wrap_small. pose proof (shape_fits_prod _ Hs).
  unfold uint. lia.
Qed.

Lemma decode_coords_unravel {E} shape n :
  Forall (λ d, 0 < d) shape → 0 ≤ n < zprod shape →
  decode_coords (E := E) n shape = Ok (unravel shape n).
Proof.
  intros Hs Hn. unfold decode_coords.
  rewrite <- (Z.mod_small n (zprod shape) Hn) at 2. clear Hn.
  assert (foldr (λ d acc, let? ic := acc in
      if d =? 0 then Panic else Ok (ic.1 / d, ic.1 mod d :: ic.2)) (Ok (n, [])) shape =
    Ok (E := E) (n / zprod shape, unravel shape (n mod zprod shape))) as ->; [|done].
  induction Hs as [|d ds Hd Hs IH].
  { simpl. by rewrite zprod_nil, Z.div_1_r. }
  pose proof (zprod_pos_inv ds Hs) as Hp. simpl foldr. rewrite IH. cbn [rbind fst snd].
  rewrite (proj2 (Z.eqb_neq d 0)) by lia. rewrite unravel_cons_mod by lia.
  rewrite zprod_cons, (Z.mul_comm d), Z.div_div by lia. done.
Qed.

Lemma collect_spec {E} w src : tensor_wf w src →
  collect (E := E) w src (t_dtype src) = Ok (shape_order w src).
Proof. intros Hwf. unfold collect. by rewrite iter_elements_spec. Qed.

Lemma element_value w t idx : tensor_wf w t → in_range (t_shape t) idx →
  value_of (t_dtype t) (element w t idx).
Proof.
  intros Hwf Hr. pose proof (shape_order_wf w t (proj2 (proj2 (proj2 Hwf)))) as Hv. unfold elems_wf in Hv.
  rewrite Forall_lookup in Hv. eapply Hv. rewrite shape_order_elements. by apply elements_lookup.
Qed.

Lemma in_range_pos s idx : in_range s idx → Forall (λ d, 0 < d) s.
Proof. induction 1; constructor; [lia|done]. Qed.

(** The buffer of a tensor's elements, read at a multi-index *)
Lemma buf_lookup w t c : tensor_wf w t → in_range (t_shape t) c →
  shape_order w t !! Z.to_nat (wrap 64 (dot c (contiguous_strides (t_shape t)))) = Some (element w t c).
Proof.
  intros (_ & _ & Hl & _) Hr. pose proof (li_fits _ _ Hl) as Hsf. fold (t_shape t) in Hsf.
  rewrite contiguous_strides_prods, dot_suffix_prods by (done || by apply in_range_length).
  pose proof (ravel_bound _ _ Hr). pose proof (shape_fits_prod _ Hsf).
  rewrite wrap_small by (unfold uint; lia).
  by rewrite shape_order_elements, elements_lookup.
Qed.

Section gather.
Context (oom : Z → bool) (junk : Z → Z → list Z).
Hypothesis junk_len : ∀ p n, 0 ≤ n → Z.of_nat (length (junk p n)) = n.

Lemma gather_spec w src out_shape source g :
  tensor_wf w src → fits_alloc out_shape (t_dtype src) →
  (∀ idx, in_range out_shape idx → source idx = Ok (g idx) ∧ in_range (t_shape src) (g idx)) →
  driver_post oom w (t_dtype src) out_shape (λ idx, element w src (g idx))
    (gather_typed oom junk w src out_shape source).
Proof using junk_len.
  intros Hwf Hfit Hg. pose proof Hwf as (Hw & Hh & Hl & Hbs). unfold gather_typed.
  rewrite collect_spec by done. cbn [rbind].
  pose proof (shape_fits_prod _ (proj1 Hfit)) as Hp.
  rewrite product_u_small by (unfold uint; lia).
  rewrite (rmapM_seq _ (λ i, element w src (g (unravel out_shape (Z.of_nat i))))).
  { cbn [rbind]. apply (finish_spec oom junk junk_len w (t_dtype src) out_shape (zprod out_shape)
      (λ idx, element w src (g idx))); [done|done|].
    intros idx Hr. apply element_value; [done|]. by apply Hg. }
  intros i _ Hi.
  assert (Forall (λ d, 0 < d) out_shape) as Hpos.
  { apply zprod_pos; [lia|]. apply shape_wf_nonneg, Hfit. }
  rewrite decode_coords_unravel by (done || lia). cbn [rbind].
  assert (in_range out_shape (unravel out_shape (Z.of_nat i))) as Hr by (apply unravel_range; [done|lia]).
  destruct (Hg _ Hr) as [-> Hr']. cbn [rbind]. by rewrite buf_lookup.
Qed.

(** When [source] refuses some position, the call is refused as one of the
    positions is. *)
Lemma gather_error w src out_shape source idx0 e0 :
  tensor_wf w src → fits_alloc out_shape (t_dtype src) →
  (∀ idx, in_range out_shape idx →
    match source idx with Ok c => in_range (t_shape src) c | Err _ => True | Panic => False end) →
  in_range out_shape idx0 → source idx0 = Err e0 →
  ∃ idx e, in_range out_shape idx ∧ source idx = Err e ∧
    gather_typed oom junk w src out_shape source = Err e.
Proof using junk_len.
  intros Hwf Hfit Hsrc Hr0 H0. unfold gather_typed. rewrite collect_spec by done. cbn [rbind].
  pose proof (shape_fits_prod _ (proj1 Hfit)) as Hp. rewrite product_u_small by (unfold uint; lia).
  pose proof (in_range_pos _ _ Hr0) as Hpos.
  match goal with |- context [rmapM ?f ?l] => set (step := f); set (ks := l) end.
  assert (∀ i, i ∈ ks → in_range out_shape (unravel out_shape (Z.of_nat i)) ∧
    step i = match source (unravel out_shape (Z.of_nat i)) with
             | Ok c => Ok (element w src c) | Err e => Err e | Panic => Panic end) as Hstep.
  { intros i Hi%elem_of_seq. unfold step. rewrite decode_coords_unravel by (done || lia). cbn [rbind].
    assert (in_range out_shape (unravel out_shape (Z.of_nat i))) as Hr by (apply unravel_range; [done|lia]).
    split; [done|]. specialize (Hsrc _ Hr). destruct (source _); cbn [rbind]; [|done..]. by rewrite buf_lookup. }
  destruct (rmapM step ks) as [out|e|] eqn:Hm.
  - exfalso. apply rmapM_Ok in Hm. pose proof (ravel_bound _ _ Hr0) as Hb.
    destruct (Forall2_lookup_l _ _ _ (Z.to_nat (ravel out_shape idx0)) (Z.to_nat (ravel out_shape idx0)) Hm)
      as (y & _ & Hy); [apply lookup_seq; lia|].
    destruct (Hstep (Z.to_nat (ravel out_shape idx0))) as [_ Hst]; [apply elem_of_seq; lia|]. rewrite Hst in Hy.
    rewrite Z2Nat.id, unravel_ravel, H0 in Hy by (done || lia). done.
  - apply rmapM_Err in Hm as (l1 & i & l2 & Heq & He & _).
    destruct (Hstep i) as [Hr Hs]; [rewrite Heq; set_solver|]. rewrite Hs in He.
    exists (unravel out_shape (Z.of_nat i)), e. split; [done|].
    clear Hs. revert He. destruct (source (unravel out_shape (Z.of_nat i))) as [|e'|]; intros He; [done| |done].
    injection He as ->. by split.
  - exfalso. revert Hm. apply rmapM_Panic. intros i Hi. destruct (Hstep i Hi) as [Hr ->].
    specialize (Hsrc _ Hr). by destruct (source _).
Qed.
End gather.

(** ** What each kernel reads *)

(** [flip]: the reversals one after the other; an axis listed an odd number of
    times is reversed. *)
Definition flipped (shape : Shape) (dims : list nat) (idx : list Z) : list Z :=
  foldl (λ idx d, alter (λ c, shape !!! d - 1 - c) d idx) idx dims.

Definition flip_index (shape : Shape) (dims : list nat) (idx : list Z) : list Z :=
  imap (λ k c, if Nat.odd (count_occ Nat.eq_dec dims k) then shape !!! k - 1 - c else c) idx.

Lemma flipped_index shape dims idx : flipped shape dims idx = flip_index shape dims idx.
Proof.
  unfold flipped, flip_index. revert idx. induction dims as [|d dims IH]; intros idx; simpl.
  { apply list_eq. intros k. rewrite list_lookup_imap. by destruct (idx !! k). }
  rewrite IH. apply list_eq. intros k. rewrite !list_lookup_imap. destruct (Nat.eq_dec d k) as [->|Hne].
  - rewrite list_lookup_alter_eq. destruct (idx !! k) as [c|]; simpl; [|done].
    rewrite Nat.odd_succ, <- Nat.negb_odd. destruct (Nat.odd _); simpl; f_equal; lia.
  - by rewrite list_lookup_alter_ne.
Qed.

Definition rolled (n shifts : Z) (dim : nat) (idx : list Z) : list Z :=
  alter (λ c, (c - shifts) mod n) dim idx.

Lemma in_range_lookup shape idx d n : in_range shape idx → shape !! d = Some n →
  ∃ c, idx !! d = Some c ∧ 0 ≤ c < n.
Proof. intros Hr Hd. destruct (Forall2_lookup_l _ _ _ _ _ Hr Hd) as (c & Hc & H). by exists c. Qed.

Lemma in_range_insert shape idx d n c : in_range shape idx → shape !! d = Some n → 0 ≤ c < n →
  in_range shape (<[d := c]> idx).
Proof.
  intros Hr Hd Hc. rewrite <- (list_insert_id shape d n Hd). by apply Forall2_insert.
Qed.

Lemma list_alter_insert (f : Z → Z) (l : list Z) (d : nat) c : l !! d = Some c → alter f d l = <[d := f c]> l.
Proof.
  intros Hd. apply list_eq. intros i. destruct (decide (i = d)) as [->|Hne].
  - rewrite list_lookup_alter_eq, Hd, list_lookup_insert_eq; [done|by eapply lookup_lt_Some].
  - rewrite list_lookup_alter_ne, list_lookup_insert_ne by congruence. done.
Qed.

Lemma repeat_source_spec shape repeats idx :
  Forall (λ d, 0 ≤ d) shape → in_range (zip_with Z.mul shape repeats) idx →
  length repeats = length shape →
  repeat_source shape idx = Ok (zip_with Z.modulo idx shape) ∧
  in_range shape (zip_with Z.modulo idx shape).
Proof.
  revert repeats idx. induction shape as [|d shape IH]; intros [|r repeats] idx Hs Hr Hl;
    simplify_eq/=; [inversion Hr; subst; split; [done|constructor]|].
  inversion Hr as [|? c ? idx' Hc Hr']; subst. apply Forall_cons in Hs as [Hd Hs].
  assert (0 < d) by (destruct (Z.eq_dec d 0) as [->|]; lia). destruct (IH repeats idx' Hs Hr' ltac:(lia)) as [Hok Hin].
  unfold repeat_source in *. simpl. rewrite (proj2 (Z.eqb_neq d 0)) by lia. cbn [rbind].
  rewrite Hok. split; [done|]. constructor; [by apply Z.mod_pos_bound|done].
Qed.

Lemma flip_source_spec shape dims idx :
  shape_fits shape → Forall (λ d, (d < length shape)%nat) dims → in_range shape idx →
  flip_source shape dims idx = Ok (flipped shape dims idx) ∧ in_range shape (flipped shape dims idx).
Proof.
  intros Hs. revert idx. induction dims as [|d dims IH]; intros idx Hd Hr; [done|].
  apply Forall_cons in Hd as [Hd Hds].
  destruct (lookup_lt_is_Some_2 shape d Hd) as [n Hn].
  destruct (in_range_lookup _ _ _ _ Hr Hn) as (c & Hc & Hcn).
  assert (uint 64 n) as Hun by (eapply (Forall_lookup_1 _ _ d n (proj1 Hs) Hn)).
  unfold flip_source, flipped in *. simpl. rewrite Hn, Hc. cbn [rbind unwrap_opt].
  rewrite (list_lookup_total_correct _ _ _ Hn), (list_alter_insert _ _ _ _ Hc).
  rewrite wrap_small by (unfold uint in *; lia).
  apply (IH (<[d := n - 1 - c]> idx)); [done|]. eapply in_range_insert; [done|exact Hn|lia].
Qed.

Lemma roll_source_spec shape n s dim idx :
  shape !! dim = Some n → 0 ≤ n < 2 ^ 63 → 0 ≤ s < n → in_range shape idx →
  roll_source n s dim idx = Ok (rolled n s dim idx) ∧ in_range shape (rolled n s dim idx).
Proof.
  intros Hn Hn63 Hs Hr. destruct (in_range_lookup _ _ _ _ Hr Hn) as (c & Hc & Hcn).
  unfold roll_source, rolled. rewrite Hc, (list_alter_insert _ _ _ _ Hc). cbn [rbind unwrap_opt].
  rewrite (proj2 (Z.eqb_neq n 0)) by lia. rewrite (wrap_small 64 (c + n)), wrap_small by (unfold uint; lia).
  replace (c + n - s) with (c - s + 1 * n) by lia. rewrite Z_mod_plus_full.
  split; [done|]. eapply in_range_insert; [done|exact Hn|]. apply Z.mod_pos_bound. lia.
Qed.

(** The remainder of a shift, with the truncating [%] of [i64] *)
Lemma roll_amount shifts n : 0 < n < 2 ^ 62 → sint 64 shifts →
  Z.rem (swrap 64 (Z.rem shifts n + n)) n = shifts mod n.
Proof.
  intros Hn Hs. pose proof (Z.rem_bound_abs shifts n ltac:(lia)) as Hb.
  rewrite swrap_small by (unfold sint; lia).
  rewrite Z.rem_mod_nonneg by lia.
  pose proof (Z.quot_rem shifts n ltac:(lia)) as Hq.
  rewrite Hq at 2. rewrite (Z.add_comm (n * _)), (Z.mul_comm n), Z_mod_plus_full.
  replace (Z.rem shifts n + n) with (Z.rem shifts n + 1 * n) by lia. apply Z_mod_plus_full.
Qed.

Lemma rolled_mod n shifts dim idx : 0 < n →
  rolled n (shifts mod n) dim idx = rolled n shifts dim idx.
Proof.
  intros Hn. unfold rolled. apply list_eq. intros i. destruct (decide (i = dim)) as [->|Hne].
  - rewrite !list_lookup_alter_eq. destruct (idx !! dim); simpl; [|done]. by rewrite Zminus_mod_idemp_r.
  - by rewrite !list_lookup_alter_ne.
Qed.

Section gather_ops.
Context (oom : Z → bool) (junk : Z → Z → list Z).
Hypothesis junk_len : ∀ p n, 0 ≤ n → Z.of_nat (length (junk p n)) = n.
Context (w : World) (src : Tensor) (src_wf : tensor_wf w src).
Context (src_dtype : shape_op_dtype (t_dtype src) = true).

Lemma src_fits : shape_fits (t_shape src).
Proof using src_wf. destruct src_wf as (_ & _ & Hl & _). exact (li_fits _ _ Hl). Qed.

Lemma repeat_spec repeats :
  length repeats = length (t_shape src) → Forall (λ r, 0 ≤ r) repeats →
  let shape := zip_with Z.mul (t_shape src) repeats in
  fits_alloc shape (t_dtype src) →
  driver_post oom w (t_dtype src) shape (λ idx, element w src (zip_with Z.modulo idx (t_shape src)))
    (repeat oom junk w src repeats).
Proof using junk_len src_wf src_dtype.
  intros Hl Hr shape Hfit. unfold repeat. rewrite (proj2 (Nat.eqb_eq _ _) Hl). simpl.
  assert (zip_with (λ d r, wrap 64 (d * r)) (t_shape src) repeats = shape) as ->.
  { assert (Forall (uint 64) shape) as Hu by apply (proj1 (proj1 Hfit)). clear Hfit. unfold shape in *.
    clear shape Hl. revert repeats Hr Hu. induction (t_shape src) as [|d ds IH]; intros [|r rs] Hr Hu; try done.
    apply Forall_cons in Hr as [_ Hr], Hu as [Hu Hus]. simpl. f_equal; [by apply wrap_small|by apply IH]. }
  rewrite src_dtype. apply (gather_spec oom junk junk_len); [done..|].
  intros idx Hin. apply (repeat_source_spec _ repeats); [|done|done].
  apply shape_wf_nonneg, src_fits.
Qed.

Lemma flip_spec dims :
  Forall (λ d, (d < length (t_shape src))%nat) dims → fits_alloc (t_shape src) (t_dtype src) →
  driver_post oom w (t_dtype src) (t_shape src) (λ idx, element w src (flip_index (t_shape src) dims idx))
    (flip oom junk w src dims).
Proof using junk_len src_wf src_dtype.
  intros Hd Hfit. unfold flip.
  assert (List.find (λ d, (length (t_shape src) <=? d)%nat) dims = None) as ->.
  { clear -Hd. induction Hd as [|d ds Hd Hds IH]; [done|]. simpl. by rewrite (proj2 (Nat.leb_gt _ _)). }
  rewrite src_dtype. apply (gather_spec oom junk junk_len); [done..|].
  intros idx Hin. rewrite <- flipped_index. apply flip_source_spec; [apply src_fits|done|done].
Qed.

Lemma roll_spec shifts dim n :
  t_shape src !! dim = Some n → 0 < n < 2 ^ 62 → sint 64 shifts → fits_alloc (t_shape src) (t_dtype src) →
  driver_post oom w (t_dtype src) (t_shape src) (λ idx, element w src (rolled n shifts dim idx))
    (roll oom junk w src shifts dim).
Proof using junk_len src_wf src_dtype.
  intros Hn Hb Hs Hfit. unfold roll. rewrite (proj2 (Nat.leb_gt _ _)) by (by eapply lookup_lt_Some).
  unfold Conv.dim. rewrite Hn. cbn [rbind unwrap_opt].
  rewrite (swrap_small 64 n) by (unfold sint; lia). rewrite (proj2 (Z.eqb_neq n 0)) by lia.
  rewrite roll_amount, src_dtype by done. pose proof (Z.mod_pos_bound shifts n ltac:(lia)) as Hm.
  rewrite wrap_small by (unfold uint; lia).
  apply (gather_spec oom junk junk_len); [done..|]. intros idx Hin.
  rewrite <- (rolled_mod n shifts) by lia. by apply roll_source_spec; [|lia|..].
Qed.
End gather_ops.

(** *** index_select *)

(** The row number at a position of the index tensor *)
Definition selected (w : World) (indices : Tensor) (c : Z) : Z :=
  of_twos 64 (shape_order w indices !!! Z.to_nat c).

Section select.
Context (oom : Z → bool) (junk : Z → Z → list Z).
Hypothesis junk_len : ∀ p n, 0 ≤ n → Z.of_nat (length (junk p n)) = n.
Context (w : World) (src indices : Tensor) (src_wf : tensor_wf w src) (ind_wf : tensor_wf w indices).
Context (dim : nat) (n m : Z).
Context (src_dtype : t_dtype src ∈ [F32; F64; I64; I32]) (ind_dtype : t_dtype indices = I64).
Context (src_dim : t_shape src !! dim = Some n) (ind_shape : t_shape indices = [m]).

Lemma index_select_gather :
  index_select oom junk w src dim indices =
  gather_typed oom junk w src (<[dim := m]> (t_shape src))
    (index_select_source (shape_order w indices) n dim).
Proof using src_wf ind_wf src_dtype ind_dtype src_dim ind_shape.
  unfold index_select. rewrite ind_dtype, ind_shape. cbn [negb bool_decide]. simpl.
  rewrite (proj2 (Nat.leb_gt _ _)) by (by eapply lookup_lt_Some).
  rewrite <- ind_dtype, collect_spec by done. unfold Conv.dim. rewrite src_dim. cbn [rbind unwrap_opt].
  assert (Z.of_nat (length (shape_order w indices)) = m) as ->.
  { rewrite length_shape_order, ind_shape, zprod_cons, zprod_nil.
    pose proof (tensor_shape_nonneg _ _ ind_wf) as H. rewrite ind_shape in H.
    apply Forall_cons in H as [H _]. lia. }
  rewrite !elem_of_cons, elem_of_nil in src_dtype. by destruct src_dtype as [->|[->|[->|[->|[]]]]].
Qed.

Lemma index_select_source_spec idx :
  in_range (<[dim := m]> (t_shape src)) idx →
  ∃ c, idx !! dim = Some c ∧ 0 ≤ c < m ∧
    index_select_source (shape_order w indices) n dim idx =
      let j := selected w indices c in
      if (j <? 0) || (n <=? j) then Err (BIndexOutOfBounds j n) else Ok (<[dim := j]> idx).
Proof using src_dim ind_shape.
  intros Hr. pose proof (lookup_lt_Some _ _ _ src_dim) as Hlt.
  destruct (in_range_lookup _ _ dim m Hr) as (c & Hc & Hcm); [by apply list_lookup_insert_eq|].
  exists c. split; [done|]. split; [done|]. unfold index_select_source, selected. rewrite Hc.
  cbn [rbind unwrap_opt].
  destruct (lookup_lt_is_Some_2 (shape_order w indices) (Z.to_nat c)) as [j Hj].
  { rewrite length_shape_order, ind_shape, zprod_cons, zprod_nil. lia. }
  by rewrite Hj, (list_lookup_total_correct _ _ _ Hj).
Qed.

Lemma index_select_ok :
  (∀ c, 0 ≤ c < m → 0 ≤ selected w indices c < n) →
  fits_alloc (<[dim := m]> (t_shape src)) (t_dtype src) →
  driver_post oom w (t_dtype src) (<[dim := m]> (t_shape src))
    (λ idx, element w src (<[dim := selected w indices (idx !!! dim)]> idx))
    (index_select oom junk w src dim indices).
Proof using junk_len src_wf ind_wf src_dtype ind_dtype src_dim ind_shape.
  intros Hsel Hfit. rewrite index_select_gather. apply (gather_spec oom junk junk_len); [done..|].
  intros idx Hr. destruct (index_select_source_spec idx Hr) as (c & Hc & Hcm & ->).
  specialize (Hsel c Hcm). cbv zeta.
  rewrite (proj2 (Z.ltb_ge _ _)), (proj2 (Z.leb_gt _ _)) by lia. simpl.
  rewrite (list_lookup_total_correct _ _ _ Hc). split; [done|].
  rewrite <- (list_insert_id _ _ _ src_dim), <- (list_insert_insert_eq _ dim n m).
  apply Forall2_insert; [exact Hr|lia].
Qed.

(** An index outside the axis is reported, unless the output is empty. *)
Lemma index_select_error c0 :
  0 ≤ c0 < m → ¬ 0 ≤ selected w indices c0 < n →
  Forall (λ d, 0 < d) (<[dim := m]> (t_shape src)) → fits_alloc (<[dim := m]> (t_shape src)) (t_dtype src) →
  ∃ c, 0 ≤ c < m ∧ ¬ 0 ≤ selected w indices c < n ∧
    index_select oom junk w src dim indices = Err (BIndexOutOfBounds (selected w indices c) n).
Proof using junk_len src_wf ind_wf src_dtype ind_dtype src_dim ind_shape.
  intros Hc0 Hbad Hpos Hfit. rewrite index_select_gather.
  pose proof (lookup_lt_Some _ _ _ src_dim) as Hlt.
  assert (in_range (<[dim := m]> (t_shape src)) (<[dim := c0]> (replicate (length (t_shape src)) 0))) as Hr0.
  { rewrite <- (list_insert_id (<[dim := m]> (t_shape src)) dim m) by (by apply list_lookup_insert_eq).
    apply Forall2_insert; [|lia]. rewrite <- (length_insert (t_shape src) dim m). by apply zero_index_range. }
  destruct (gather_error oom junk junk_len w src (<[dim := m]> (t_shape src))
    (index_select_source (shape_order w indices) n dim) (<[dim := c0]> (replicate (length (t_shape src)) 0))
    (BIndexOutOfBounds (selected w indices c0) n) src_wf Hfit) as (idx & e & Hr & He & ->); [|exact Hr0| |].
  - intros idx Hr. destruct (index_select_source_spec idx Hr) as (c & Hc & Hcm & ->). cbv zeta.
    destruct ((selected w indices c <? 0) || (n <=? selected w indices c)) eqn:Hb; [done|].
    apply orb_false_iff in Hb as [?%Z.ltb_ge ?%Z.leb_gt].
    rewrite <- (list_insert_id _ _ _ src_dim), <- (list_insert_insert_eq _ dim n m).
    apply Forall2_insert; [exact Hr|lia].
  - destruct (index_select_source_spec _ Hr0) as (c & Hc & Hcm & ->).
    rewrite list_lookup_insert_eq in Hc by (by rewrite length_replicate). injection Hc as <-. cbv zeta.
    destruct (Z.ltb_spec (selected w indices c0) 0), (Z.leb_spec n (selected w indices c0)); done || lia.
  - destruct (index_select_source_spec idx Hr) as (c & Hc & Hcm & Heq). rewrite Heq in He. cbv zeta in He.
    exists c. split; [done|]. destruct ((selected w indices c <? 0) || _) eqn:Hb; [|done].
    injection He as <-. apply orb_true_iff in Hb as [?%Z.ltb_lt|?%Z.leb_le]; (split; [lia|done]).
Qed.
End select.

(** ** Blocks of the row-major order *)

Lemma unravel_app pre rest o r :
  Forall (λ d, 0 < d) pre → 0 ≤ o < zprod pre → 0 ≤ r < zprod rest →
  unravel (pre ++ rest) (o * zprod rest + r) = unravel pre o ++ unravel rest r.
Proof.
  intros Hpre. revert o. induction Hpre as [|d ds Hd Hds IH]; intros o Ho Hr; simpl.
  { rewrite zprod_nil in Ho. f_equal. replace o with 0 by lia. lia. }
  pose proof (zprod_pos_inv ds Hds) as Hp. rewrite zprod_cons in Ho. rewrite zprod_app.
  assert ((o * zprod rest + r) / (zprod ds * zprod rest) = o / zprod ds) as Hq.
  { rewrite (Z.mul_comm (zprod ds)), <- Z.div_div by lia. by rewrite Z.div_add_l, (Z.div_small r), Z.add_0_r by lia. }
  f_equal; [exact Hq|].
  replace ((o * zprod rest + r) mod (zprod ds * zprod rest)) with ((o mod zprod ds) * zprod rest + r).
  - apply IH; [by apply Z.mod_pos_bound|done].
  - rewrite (Z.mod_eq (o * zprod rest + r)), Hq, (Z.mod_eq o) by nia. ring.
Qed.

Lemma elements_prefix pre rest g : Forall (λ d, 0 < d) pre → Forall (λ d, 0 ≤ d) rest →
  elements (pre ++ rest) g =
  concat ((λ o, elements rest (λ r, g (unravel pre (Z.of_nat o) ++ r))) <$> seq 0 (Z.to_nat (zprod pre))).
Proof.
  intros Hpre Hrest. unfold elements. pose proof (zprod_pos_inv pre Hpre). pose proof (zprod_nonneg rest Hrest).
  rewrite zprod_app, Z2Nat.inj_mul, seq_rows by lia. f_equal.
  apply list_fmap_ext. intros ? o [-> Ho]%lookup_seq. apply list_fmap_ext. intros ? r [-> Hr]%lookup_seq.
  rewrite <- unravel_app by (done || lia). do 2 f_equal. lia.
Qed.

(** A leading axis as the concatenation of two. *)
Lemma elements_split a b rest h : 0 ≤ a → 0 ≤ b → Forall (λ d, 0 ≤ d) rest →
  elements (a + b :: rest) h =
  elements (a :: rest) h ++ elements (b :: rest) (λ r, h (alter (Z.add a) 0%nat r)).
Proof.
  intros Ha Hb Hrest. unfold elements. rewrite !zprod_cons. pose proof (zprod_nonneg rest Hrest) as Hp.
  rewrite Z.mul_add_distr_r, Z2Nat.inj_add, seq_app, fmap_app by nia. f_equal. simpl.
  rewrite <- (Nat.add_0_r (Z.to_nat (a * zprod rest))) at 1. rewrite <- fmap_add_seq, <- list_fmap_compose.
  apply list_fmap_ext. intros ? i [-> Hi]%lookup_seq. simpl. f_equal.
  assert (0 < zprod rest) by nia.
  rewrite Nat2Z.inj_add, Z2Nat.id, Z.div_add_l by nia. f_equal.
  rewrite Z.add_comm, Z_mod_plus_full. done.
Qed.

(** ** cat *)

(** Position [i] along the concatenated axis: the input that holds it, and the
    position there. *)
Fixpoint locate (ds : list Z) (i : Z) : nat * Z :=
  match ds with
  | [] => (0%nat, i)
  | d :: ds => if i <? d then (0%nat, i) else let '(k, j) := locate ds (i - d) in (S k, j)
  end.

(** The element a multi-index of the concatenation reads, for inputs of axis
    sizes [l.*1] read by [l.*2]. *)
Definition cat_read (l : list (Z * (list Z → Z))) (axis : nat) (idx : list Z) : Z :=
  let '(k, j) := locate l.*1 (idx !!! axis) in
  match l !! k with Some (_, f) => f (<[axis := j]> idx) | None => 0 end.

Lemma cat_elements l post : Forall (λ d, 0 ≤ d) l.*1 → Forall (λ d, 0 ≤ d) post →
  concat ((λ x, elements (x.1 :: post) x.2) <$> l) = elements (zsum l.*1 :: post) (cat_read l 0).
Proof.
  intros Hl Hpost. induction l as [|[d f] l IH]; [done|].
  rewrite fmap_cons in Hl. apply Forall_cons in Hl as [Hd Hl]. simpl in Hd.
  change (concat ((λ x, elements (x.1 :: post) x.2) <$> (d, f) :: l))
    with (elements (d :: post) f ++ concat ((λ x, elements (x.1 :: post) x.2) <$> l)).
  pose proof (zsum_nonneg _ Hl). rewrite fmap_cons, zsum_cons. cbn [fst].
  rewrite elements_split, IH by done. f_equal.
  - apply elements_ext; [by constructor|]. intros idx Hr.
    inversion Hr as [|? i ? q Hi _]; subst. unfold cat_read. cbn.
    by rewrite (proj2 (Z.ltb_lt _ _)) by lia.
  - apply elements_ext; [by constructor|]. intros idx Hr.
    inversion Hr as [|? i ? q Hi _]; subst. unfold cat_read. cbn.
    rewrite (proj2 (Z.ltb_ge _ _)) by lia. replace (d + i - d) with i by lia.
    destruct (locate l.*1 i) as [k j]. cbn. by destruct (l !! k) as [[? ?]|].
Qed.

(** [slice] of the block of an outer position *)
Lemma slice_of_block {E} pre rest g o : Forall (λ d, 0 < d) pre → Forall (λ d, 0 ≤ d) rest →
  zprod (pre ++ rest) < 2 ^ 63 → (o < Z.to_nat (zprod pre))%nat →
  slice_range (E := E) (elements (pre ++ rest) g) (Z.of_nat o * zprod rest)
    (Z.of_nat o * zprod rest + zprod rest) =
  Ok (elements rest (λ r, g (unravel pre (Z.of_nat o) ++ r))).
Proof.
  intros Hpre Hrest Hb Ho. pose proof (zprod_pos_inv pre Hpre). pose proof (zprod_nonneg rest Hrest).
  unfold slice_range. rewrite length_elements, zprod_app.
  rewrite (proj2 (Z.ltb_ge _ _)), (proj2 (Z.ltb_ge _ _)) by nia. cbn [orb]. f_equal.
  replace (Z.to_nat (Z.of_nat o * zprod rest + zprod rest - Z.of_nat o * zprod rest))
    with (Z.to_nat (zprod rest)) by lia.
  replace (Z.to_nat (Z.of_nat o * zprod rest)) with (o * Z.to_nat (zprod rest))%nat by nia.
  rewrite elements_prefix by done. apply (block_of_rows (λ o, elements rest (λ r, g (unravel pre (Z.of_nat o) ++ r)))); [|done].
  intros. apply length_elements.
Qed.

(** Inputs of [cat]: the same dtype, and the same shape but for one axis. *)
Definition cat_input (w : World) (T : Dtype) (pre post : Shape) (t : Tensor) (d : Z) : Prop :=
  tensor_wf w t ∧ t_dtype t = T ∧ t_shape t = pre ++ d :: post.

Definition readers (w : World) (ts : list Tensor) (ds : list Z) : list (Z * (list Z → Z)) :=
  zip_with (λ t d, (d, element w t)) ts ds.

Lemma readers_dims w ts ds : length ts = length ds → (readers w ts ds).*1 = ds.
Proof.
  revert ds. induction ts as [|t ts IH]; intros [|d ds] Hl; simplify_eq/=; [done|].
  f_equal. by apply IH.
Qed.

Lemma shape_fits_app_r pre l : shape_fits (pre ++ l) → shape_fits l.
Proof. induction pre as [|d pre IH]; [done|]. intros (_ & _ & H)%shape_fits_cons. by apply IH. Qed.

Lemma cat_chunk {E} w T pre post t d o : cat_input w T pre post t d →
  Forall (λ d, 0 < d) pre → Forall (λ d, 0 < d) post → (o < Z.to_nat (zprod pre))%nat →
  (let? dim_size := Conv.dim (t_shape t) (length pre) in
   let? buf := collect w t T in
   let inner := Z.max 1 (product_u 64 (drop (S (length pre)) (t_shape t))) in
   let in_offset := wrap 64 (wrap 64 (Z.of_nat o * dim_size) * inner) in
   let chunk_len := wrap 64 (dim_size * inner) in
   slice_range buf in_offset (wrap 64 (in_offset + chunk_len))) =
  Ok (E := E) (elements (d :: post) (λ r, element w t (unravel pre (Z.of_nat o) ++ r))).
Proof.
  intros (Hwf & <- & Hs) Hpre Hpost Ho.
  pose proof Hwf as (_ & _ & Hl & _). pose proof (li_fits _ _ Hl) as Hf. fold (t_shape t) in Hf.
  pose proof (shape_fits_prod _ Hf) as Hp. pose proof (tensor_shape_nonneg _ _ Hwf) as Hnn.
  rewrite Hs in Hp, Hnn. apply Forall_app in Hnn as [_ [Hd _]%Forall_cons].
  pose proof (zprod_pos_inv pre Hpre). pose proof (zprod_pos_inv post Hpost).
  rewrite zprod_app, zprod_cons in Hp.
  unfold Conv.dim. rewrite Hs, list_lookup_middle by done. cbn [rbind unwrap_opt].
  rewrite collect_spec by done. cbn [rbind]. cbv zeta.
  rewrite <- (Nat.add_1_r (length pre)), drop_app_add. cbn [drop].
  assert (Z.of_nat o * (d * zprod post) + d * zprod post ≤ zprod pre * (d * zprod post)) by nia.
  rewrite Hs in Hf. apply shape_fits_app_r in Hf. pose proof Hf as (Hud & _ & Hfp)%shape_fits_cons.
  apply shape_fits_prod in Hfp. rewrite drop_0, product_u_small by (unfold uint; lia).
  rewrite Z.max_r by lia. assert (0 ≤ Z.of_nat o * d * zprod post + d * zprod post < 2 ^ 63) by lia.
  assert (0 ≤ Z.of_nat o * d ≤ Z.of_nat o * d * zprod post) by nia.
  assert (0 ≤ d * zprod post) by nia.
  rewrite (wrap_small 64 (Z.of_nat o * d)) by (unfold uint; lia).
  rewrite (wrap_small 64 (Z.of_nat o * d * zprod post)) by (unfold uint; lia).
  rewrite (wrap_small 64 (d * zprod post)) by (unfold uint; lia).
  rewrite (wrap_small 64 (_ + _)) by (unfold uint; lia).
  rewrite <- Z.mul_assoc, <- zprod_cons, shape_order_elements, Hs.
  apply slice_of_block; [done| |rewrite zprod_app, zprod_cons; lia|done].
  constructor; [done|]. eapply Forall_impl; [exact Hpost|]. intros x Hx. simpl in Hx. lia.
Qed.

Lemma cat_rows_spec {E} w T pre post ts ds :
  Forall2 (cat_input w T pre post) ts ds → Forall (λ d, 0 ≤ d) ds →
  Forall (λ d, 0 < d) pre → Forall (λ d, 0 < d) post → zprod pre < 2 ^ 63 →
  cat_rows (E := E) w ts T (length pre) (Z.max 1 (product_u 64 pre)) =
  Ok (elements (pre ++ zsum ds :: post) (cat_read (readers w ts ds) (length pre))).
Proof.
  intros Hts Hds Hpre Hpost Hp. pose proof (zprod_pos_inv pre Hpre). unfold cat_rows.
  rewrite product_u_small, Z.max_r by (unfold uint; lia).
  assert (Forall (λ d, 0 ≤ d) post) as Hpost0 by (eapply Forall_impl; [exact Hpost|intros x Hx; simpl in Hx; lia]).
  rewrite (rmapM_seq _ (λ o, elements (zsum ds :: post)
    (λ r, cat_read (readers w ts ds) (length pre) (unravel pre (Z.of_nat o) ++ r)))).
  - cbn [rbind]. rewrite elements_prefix; [done|done|]. constructor; [by apply zsum_nonneg|done].
  - intros o _ Ho. simpl in Ho.
    rewrite (proj2 (rmapM_Ok _ _ ((λ x, elements (x.1 :: post) (λ r, x.2 (unravel pre (Z.of_nat o) ++ r)))
      <$> readers w ts ds))).
    + cbn [rbind]. f_equal.
      set (l := (λ x : Z * (list Z → Z), (x.1, λ r, x.2 (unravel pre (Z.of_nat o) ++ r))) <$> readers w ts ds).
      assert (l.*1 = ds) as Hl1.
      { unfold l. rewrite <- list_fmap_compose. apply readers_dims. by eapply Forall2_length. }
      transitivity (concat ((λ x, elements (x.1 :: post) x.2) <$> l)).
      { unfold l. by rewrite <- list_fmap_compose. }
      rewrite cat_elements by (rewrite ?Hl1; done). rewrite Hl1. apply elements_ext.
      { constructor; [by apply zsum_nonneg|done]. }
      intros idx Hr. unfold cat_read. rewrite Hl1, readers_dims by (by eapply Forall2_length).
      destruct idx as [|i q]; [inversion Hr|].
      assert (length (unravel pre (Z.of_nat o)) = length pre) as Hlen by apply length_unravel.
      rewrite (list_lookup_total_middle (unravel pre (Z.of_nat o)) q i) by done. cbn.
      destruct (locate ds i) as [k j]. unfold l. rewrite list_lookup_fmap.
      destruct (readers w ts ds !! k) as [[? f]|]; [|done]. cbn. by rewrite insert_middle by done.
    + unfold readers. clear Hds. induction Hts as [|t d ts ds Ht Hts IH]; [constructor|].
      cbn. constructor; [|done]. by apply cat_chunk.
Qed.

(** [locate] is the position in the inputs laid end to end. *)
Lemma locate_spec ds i : Forall (λ d, 0 ≤ d) ds → 0 ≤ i < zsum ds →
  let '(k, j) := locate ds i in
  ∃ d, ds !! k = Some d ∧ 0 ≤ j < d ∧ i = zsum (take k ds) + j.
Proof.
  intros Hds. revert i. induction Hds as [|d ds Hd Hds IH]; intros i Hi; cbn.
  { rewrite zsum_nil in Hi. lia. }
  rewrite zsum_cons in Hi. destruct (Z.ltb_spec i d) as [Hlt|Hge].
  { exists d. split; [done|]. cbn. rewrite zsum_nil. lia. }
  specialize (IH (i - d) ltac:(lia)). destruct (locate ds (i - d)) as [k j].
  destruct IH as (d' & Hk & Hj & He). exists d'. split; [done|]. cbn. rewrite zsum_cons. lia.
Qed.

(** The element of the concatenation at [p ++ i :: q] is the one of the located
    input at [p ++ j :: q]. *)
Lemma cat_read_spec w T pre post ts ds p i q :
  Forall2 (cat_input w T pre post) ts ds → Forall (λ d, 0 ≤ d) ds →
  in_range pre p → 0 ≤ i < zsum ds → in_range post q →
  ∃ k j t d, locate ds i = (k, j) ∧ ts !! k = Some t ∧ ds !! k = Some d ∧ 0 ≤ j < d ∧
    i = zsum (take k ds) + j ∧ cat_input w T pre post t d ∧
    cat_read (readers w ts ds) (length pre) (p ++ i :: q) = element w t (p ++ j :: q).
Proof.
  intros Hts Hds Hp Hi Hq. pose proof (locate_spec ds i Hds Hi) as H.
  destruct (locate ds i) as [k j] eqn:Hl. destruct H as (d & Hk & Hj & He).
  destruct (Forall2_lookup_r _ _ _ _ _ Hts Hk) as (t & Ht & Hin).
  exists k, j, t, d. split_and!; try done; try lia.
  pose proof (in_range_length _ _ Hp) as Hlen. unfold cat_read.
  rewrite readers_dims by (by eapply Forall2_length). rewrite list_lookup_total_middle by done.
  rewrite Hl. unfold readers. rewrite lookup_zip_with, Ht, Hk. cbn. by rewrite insert_middle by done.
Qed.

Lemma locate_at ds k d j : Forall (λ d, 0 ≤ d) ds → ds !! k = Some d → 0 ≤ j < d →
  locate ds (zsum (take k ds) + j) = (k, j).
Proof.
  intros Hds. revert k. induction Hds as [|d' ds Hd' Hds IH]; intros k Hk Hj; [done|].
  destruct k as [|k]; simpl in Hk |- *.
  - injection Hk as ->. rewrite zsum_nil. by rewrite (proj2 (Z.ltb_lt _ _)) by lia.
  - rewrite zsum_cons. assert (0 ≤ zsum (take k ds)) by (apply zsum_nonneg, Forall_take; done).
    rewrite (proj2 (Z.ltb_ge _ _)) by lia.
    replace (d' + zsum (take k ds) + j - d') with (zsum (take k ds) + j) by lia. by rewrite (IH k).
Qed.

Lemma cat_check_ok first t dim : cat_check first dim t = Ok tt ↔
  t_dtype t = t_dtype first ∧ length (t_shape t) = length (t_shape first) ∧
  ∀ i a b, i ≠ dim → t_shape first !! i = Some a → t_shape t !! i = Some b → a = b.
Proof.
  unfold cat_check. destruct (bool_decide_reflect (t_dtype t = t_dtype first)) as [Hd|Hd]; simpl.
  2: { split; [done|]. by intros (? & _). }
  destruct (Nat.eqb_spec (length (t_shape t)) (length (t_shape first))) as [Hl|Hl]; simpl.
  2: { split; [done|]. by intros (_ & ? & _). }
  destruct (existsb _ _) eqn:He; simpl.
  - split; [done|]. intros (_ & _ & H). apply existsb_exists in He as ([i [a b]] & Hin & Hb).
    apply list_elem_of_In, elem_of_lookup_imap in Hin as (i' & ab & [= -> <-] & Hab).
    rewrite lookup_zip_with_Some in Hab. destruct Hab as (a' & b' & [= -> ->] & Ha & Hb').
    simpl in Hb. apply andb_true_iff in Hb as [Hi%negb_true_iff%Nat.eqb_neq Hne%negb_true_iff%Z.eqb_neq].
    by specialize (H _ _ _ Hi Ha Hb').
  - split; [|done]. intros _. split; [done|]. split; [done|]. intros i a b Hi Ha Hb.
    destruct (Z.eq_dec a b) as [|Hne]; [done|]. rewrite <- not_true_iff_false in He. destruct He.
    apply existsb_exists. exists (i, (a, b)). split.
    + apply list_elem_of_In, elem_of_lookup_imap. exists i, (a, b). split; [done|].
      rewrite lookup_zip_with_Some. by exists a, b.
    + cbn. by rewrite (proj2 (Nat.eqb_neq _ _) Hi), (proj2 (Z.eqb_neq _ _) Hne).
Qed.

Lemma cat_check_refuses first t rest dim :
  t ∈ rest → cat_check first dim t ≠ Ok tt → ∃ e, rfold (λ _ t, cat_check first dim t) tt rest = Err e.
Proof.
  intros Hin Hb. induction rest as [|t' rest IH]; [by apply elem_of_nil in Hin|].
  cbn [rfold]. destruct (cat_check first dim t') as [[]|e|] eqn:Hc; cbn [rbind]; [|by exists e|].
  - apply elem_of_cons in Hin as [->|Hin]; [done|by apply IH].
  - exfalso. unfold cat_check in Hc. by repeat case_match.
Qed.

Lemma cat_inputs_nonneg w T pre post ts ds :
  Forall2 (cat_input w T pre post) ts ds → Forall (λ d, 0 ≤ d) ds.
Proof.
  intros Hts. apply Forall_forall. intros d [k Hk]%list_elem_of_lookup.
  destruct (Forall2_lookup_r _ _ _ _ _ Hts Hk) as (t & _ & Hwf & _ & Hs).
  pose proof (tensor_shape_nonneg _ _ Hwf) as Hnn. rewrite Hs in Hnn.
  by apply Forall_app in Hnn as [_ [? _]%Forall_cons].
Qed.

Section cat_lemmas.
Context (oom : Z → bool) (junk : Z → Z → list Z).
Hypothesis junk_len : ∀ p n, 0 ≤ n → Z.of_nat (length (junk p n)) = n.

Lemma cat_spec w T pre post ts ds :
  world_wf w → ts ≠ [] → Forall2 (cat_input w T pre post) ts ds → shape_op_dtype T = true →
  Forall (λ d, 0 < d) pre → Forall (λ d, 0 < d) post → fits_alloc (pre ++ zsum ds :: post) T →
  driver_post oom w T (pre ++ zsum ds :: post) (cat_read (readers w ts ds) (length pre))
    (cat oom junk w ts (length pre)).
Proof using junk_len.
  intros Hw Hne Hts HT Hpre Hpost Hfit.
  pose proof (cat_inputs_nonneg _ _ _ _ _ _ Hts) as Hds.
  pose proof (shape_fits_prod _ (proj1 Hfit)) as Hprod.
  pose proof (zprod_pos_inv pre Hpre). pose proof (zprod_pos_inv post Hpost).
  destruct Hts as [|first d rest ds' (Hwf & Hd & Hs) Hrest]; [done|].
  set (ds0 := d :: ds') in *.
  assert (Forall2 (cat_input w T pre post) (first :: rest) ds0) as Hts by by constructor.
  unfold cat. cbv beta match zeta. rewrite Hs, length_app. cbn [length].
  rewrite (proj2 (Nat.leb_gt _ _)) by lia.
  rewrite (rfold_pure _ (λ _ _, tt)).
  2: { intros [] t [k Hk]%list_elem_of_lookup. apply cat_check_ok.
       destruct (Forall2_lookup_l _ _ _ _ _ Hrest Hk) as (d' & _ & Hwf' & Hd' & Hs').
       split; [congruence|]. split; [by rewrite Hs, Hs', !length_app|]. rewrite Hs, Hs'.
       intros i a b Hi. destruct (decide (i < length pre)%nat).
       - rewrite !lookup_app_l by done. congruence.
       - rewrite !lookup_app_r, !lookup_cons_ne_0 by lia. congruence. }
  cbn [rbind].
  assert (rmapM (λ t, Conv.dim (E := BackendError) (t_shape t) (length pre)) (first :: rest) = Ok ds0) as Hsz.
  { apply rmapM_Ok. eapply Forall2_impl; [exact Hts|]. intros t d' (_ & _ & Hs'). unfold Conv.dim.
    by rewrite Hs', list_lookup_middle. }
  rewrite Hsz. cbn [rbind]. rewrite insert_middle by done.
  assert (zsum ds0 < 2 ^ 63).
  { pose proof (shape_fits_app_r _ _ (proj1 Hfit)) as (_ & ? & _)%shape_fits_cons. done. }
  pose proof (zsum_nonneg _ Hds). rewrite sum_u_small by (unfold uint; lia). rewrite Hd, HT.
  unfold cat_typed. rewrite take_app_length.
  assert (zprod pre < 2 ^ 63).
  { pose proof (proj2 (proj1 Hfit)) as Hm. rewrite fmap_app, zprod_app in Hm.
    pose proof (zprod_le_max1 pre) as Hle. pose proof (zprod_max1_pos (zsum ds0 :: post)).
    specialize (Hle ltac:(eapply Forall_impl; [exact Hpre|intros x Hx; simpl in Hx; lia])). nia. }
  rewrite (cat_rows_spec w T pre post (first :: rest) ds0) by done. cbn [rbind].
  apply (finish_spec oom junk junk_len); [done|done|].
  intros idx (p & i & q & -> & Hp & Hi & Hq)%in_range_middle.
  destruct (cat_read_spec w T pre post (first :: rest) ds0 p i q Hts Hds Hp Hi Hq)
    as (k & j & t & d' & _ & _ & _ & Hj & _ & (Hwf' & <- & Hs') & ->).
  apply element_value; [done|]. rewrite Hs'. apply in_range_middle. by exists p, j, q.
Qed.
End cat_lemmas.

(** ** split *)

(** Nothing that is alive changes, and no count goes down. *)
Definition keeps (w w' : World) : Prop :=
  world_wf w' ∧ ∀ s, handle w s →
    handle w' s ∧ as_bytes w' s = as_bytes w s ∧ strong_count w s ≤ strong_count w' s.

Lemma keeps_trans w1 w2 w3 : keeps w1 w2 → keeps w2 w3 → keeps w1 w3.
Proof.
  intros [_ H12] [Hw H23]. split; [done|]. intros s Hs.
  destruct (H12 s Hs) as (Hs2 & Hb2 & Hc2). destruct (H23 s Hs2) as (Hs3 & Hb3 & Hc3).
  split_and!; [done|congruence|lia].
Qed.

Lemma keeps_tensor w w' t : keeps w w' → tensor_wf w t →
  tensor_wf w' t ∧ ∀ idx, element w' t idx = element w t idx.
Proof.
  intros [Hw Hk] (_ & Hh & Hl & Hb). destruct (Hk _ Hh) as (Hh' & Hbs & _).
  split; [split_and!; [done|done|done|by rewrite Hbs]|]. intros idx. unfold element. by rewrite Hbs.
Qed.

Lemma handle_count w s : world_wf w → handle w s → 1 ≤ strong_count w s.
Proof. intros Hw (i & n & Ha & _). unfold strong_count. rewrite Ha. by apply (wf_arc _ Hw _ _ _ Ha). Qed.

Lemma clone_keeps w s : world_wf w → handle w s → keeps w (clone_storage w s).
Proof.
  intros Hw Hs. split; [by apply clone_storage_wf|]. intros s' Hs'.
  destruct (clone_storage_frame w s Hw s' Hs') as [Hh Hb]. split; [done|]. split; [done|].
  destruct Hs as (i & n & Ha & _). unfold clone_storage, strong_count. rewrite Ha. simpl.
  destruct (decide (st_arc s = st_arc s')) as [He|Hne].
  - rewrite He, lookup_insert_eq in *. rewrite Ha. lia.
  - by rewrite lookup_insert_ne.
Qed.

(** Dropping one of several references *)
Lemma drop_shared w s : world_wf w → handle w s → 2 ≤ strong_count w s →
  world_wf (drop_storage w s) ∧ ∀ s', handle w s' →
    handle (drop_storage w s) s' ∧ as_bytes (drop_storage w s) s' = as_bytes w s' ∧
    strong_count (drop_storage w s) s' =
      strong_count w s' - (if decide (st_arc s' = st_arc s) then 1 else 0).
Proof.
  intros Hw (i & n & Ha & Hl) Hc. unfold strong_count in Hc. rewrite Ha in Hc.
  unfold drop_storage. rewrite Ha. rewrite (proj2 (Z.eqb_neq n 1)) by lia.
  split; [eapply set_count_wf; [done|exact Ha|lia]|].
  intros s' (i' & n' & Ha' & Hl'). unfold handle, as_bytes, strong_count. simpl.
  destruct (decide (st_arc s' = st_arc s)) as [He|Hne].
  - rewrite He in *. rewrite Ha in Ha'. injection Ha' as <- <-. rewrite lookup_insert_eq, Ha.
    split; [by exists i, (n - 1)|]. split; [done|lia].
  - rewrite lookup_insert_ne by done. rewrite Ha'. split; [by exists i', n'|]. split; [done|lia].
Qed.

Lemma narrow_shape l dim start n l' :
  narrow_layout l dim start n = Ok l' → l_shape l' = <[dim := n]> (l_shape l).
Proof.
  unfold narrow_layout, vec_set, from_strides. intros H.
  repeat match goal with
  | H : context [if ?b then _ else _] |- _ => destruct b; simpl in H; try discriminate H
  | H : context [match ?o with Some _ => _ | None => _ end] |- _ => destruct o; simpl in H; try discriminate H
  | H : context [unwrap_opt ?o] |- _ => destruct o; simpl in H; try discriminate H
  | H : context [ok_or _ ?o] |- _ => destruct o; simpl in H; try discriminate H
  end.
  by injection H as <-.
Qed.

(** A shape with a smaller axis still fits. *)
Lemma fits_alloc_smaller pre n post len T :
  fits_alloc (pre ++ n :: post) T → 0 ≤ len ≤ n → fits_alloc (pre ++ len :: post) T.
Proof.
  unfold fits_alloc, shape_fits, shape_wf. rewrite !fmap_app, !fmap_cons, !zprod_app, !zprod_cons, !Forall_app, !Forall_cons.
  intros (((Hp & Hn & Hq) & Hm) & Hb) Hlen.
  pose proof (zprod_max1_pos pre). pose proof (zprod_max1_pos post).
  assert (∀ l, Forall (uint 64) l → 0 ≤ zprod l) as Hnn.
  { intros l Hl. apply zprod_nonneg. eapply Forall_impl; [exact Hl|]. intros x Hx. unfold uint in Hx. lia. }
  pose proof (Hnn _ Hp). pose proof (Hnn _ Hq). pose proof (byte_size_pos T).
  assert (0 ≤ zprod pre * zprod post) by nia.
  unfold uint in *.
  split_and!; try done; try lia.
  - assert (zprod (Z.max 1 <$> pre) * (Z.max 1 len * zprod (Z.max 1 <$> post)) ≤ zprod (Z.max 1 <$> pre) * (Z.max 1 n * zprod (Z.max 1 <$> post))); [|lia].
    apply Z.mul_le_mono_nonneg_l; [lia|]. apply Z.mul_le_mono_nonneg_r; lia.
  - assert (zprod pre * (len * zprod post) * Dtype_byte_size T ≤ zprod pre * (n * zprod post) * Dtype_byte_size T); [|lia].
    apply Z.mul_le_mono_nonneg_r; [lia|]. apply Z.mul_le_mono_nonneg_l; [lia|]. apply Z.mul_le_mono_nonneg_r; lia.
Qed.

Section split_lemmas.
Context (oom : Z → bool) (junk : Z → Z → list Z).
Hypothesis junk_len : ∀ p n, 0 ≤ n → Z.of_nat (length (junk p n)) = n.
Hypothesis no_oom : ∀ n, oom n = false.

(** Contiguous from the first byte of its storage *)
Definition row_major (t : Tensor) : Prop := t_is_contiguous t = true ∧ l_offset (t_layout t) = 0.

Lemma contiguous_keeps w t : tensor_wf w t → fits_alloc (t_shape t) (t_dtype t) →
  ∃ w' c, contiguous oom junk w t = Ok (w', c) ∧ keeps w w' ∧ tensor_wf w' c ∧
    t_dtype c = t_dtype t ∧ t_shape c = t_shape t ∧ row_major c ∧
    (∀ idx, in_range (t_shape t) idx → element w' c idx = element w t idx).
Proof using junk_len no_oom.
  intros Hwf [Hs Hm]. pose proof Hwf as (Hw & Hh & Hl & Hb).
  destruct (contiguous_spec oom junk junk_len w t Hwf) as (w' & c & Hc & Hct & Hcc & Hco & Hcs & Hcd & Hso & _);
    [unfold CPU_ALIGN in Hm; lia|done|done|].
  exists w', c. split; [done|]. split.
  - unfold contiguous in Hc. destruct (t_is_contiguous t && _).
    + injection Hc as <- <-. by apply clone_keeps.
    + unfold copy_to_contiguous in Hc. rewrite (iter_elements_spec w t Hwf) in Hc. cbn in Hc.
      destruct (from_vec_typed_ok oom junk junk_len w (t_dtype t) (t_shape t) (shape_order w t) Hw Hs Hm
        (shape_order_wf w t Hb) no_oom) as (w'' & c'' & Hf & (Hcw & _ & _ & _ & _ & _ & _ & _ & _ & _ & He & _)).
      { rewrite length_shape_order. pose proof (shape_fits_prod _ Hs). lia. }
      rewrite Hf in Hc. cbn in Hc. injection Hc as <- <-. split; [apply Hcw|].
      intros s Hhs. destruct (He s Hhs) as (? & ? & ->). split_and!; done || lia.
  - split; [done|]. split; [done|]. split; [done|]. split; [done|]. intros idx Hr.
    rewrite !shape_order_elements, Hcs in Hso. pose proof (elements_lookup (t_shape t) (element w' c) idx Hr) as H1.
    rewrite Hso, elements_lookup in H1 by done. congruence.
Qed.

(** One iteration: a view, its contiguous copy, and the view dropped. *)
Lemma piece_spec w src pre n post start len :
  tensor_wf w src → t_shape src = pre ++ n :: post → fits_alloc (t_shape src) (t_dtype src) →
  0 ≤ start → 0 ≤ len → start + len ≤ n →
  ∃ w1 v w2 c, run_view (OpNarrow (length pre) start len) w src = Ok (w1, v) ∧
    contiguous oom junk w1 v = Ok (w2, c) ∧
    let w3 := drop_tensor w2 v in
    keeps w w3 ∧ cat_input w3 (t_dtype src) pre post c len ∧ row_major c ∧
    ∀ p j q, in_range pre p → 0 ≤ j < len → in_range post q →
      element w3 c (p ++ j :: q) = element w src (p ++ (start + j) :: q).
Proof using junk_len no_oom.
  intros Hwf Hs Hfit Hst Hlen Hn. pose proof Hwf as (Hw & Hh & Hl & Hb).
  assert (n < 2 ^ 63) as Hn63.
  { pose proof (proj1 Hfit) as H. rewrite Hs in H. by apply shape_fits_app_r, shape_fits_cons in H as (_ & ? & _). }
  assert (op_args (OpNarrow (length pre) start len)) as Harg by (split; unfold uint; lia).
  pose proof (run_view_spec w src (OpNarrow (length pre) start len) Hwf Harg) as Hv.
  destruct (run_view _ w src) as [[w1 v]|e|] eqn:Hrv; [|exfalso..].
  2: { apply Hv. exists n. fold (t_shape src). rewrite Hs, list_lookup_middle by done. split; [done|lia]. }
  2: done.
  destruct Hv as (_ & Hlay & Hshare & Hread).
  assert (t_shape v = pre ++ len :: post) as Hsv.
  { unfold t_shape at 1. rewrite (narrow_shape _ _ _ _ _ Hlay). fold (t_shape src).
    by rewrite Hs, insert_middle. }
  pose proof Hshare as (Hwv & Hstv & _ & _ & Hdv & Hbv & _ & Hcv).
  assert (fits_alloc (t_shape v) (t_dtype v)) as Hfv.
  { rewrite Hsv, Hdv. rewrite Hs in Hfit. apply (fits_alloc_smaller pre n post); [done|lia]. }
  destruct (contiguous_keeps w1 v Hwv Hfv) as (w2 & c & Hcon & Hk12 & Hwc & Hdc & Hsc & Hrm & Hel).
  exists w1, v, w2, c. split; [done|]. split; [done|]. cbv zeta.
  assert (w1 = clone_storage w (t_storage src)) as Hw1.
  { unfold run_view in Hrv. rewrite Hlay in Hrv. by injection Hrv. }
  pose proof (handle_count w _ Hw Hh) as Hc1.
  pose proof (clone_keeps w _ Hw Hh) as Hk01. rewrite <- Hw1 in Hk01.
  destruct (proj2 Hk01 _ Hh) as (Hh1 & _ & _). destruct (proj2 Hk12 _ Hh1) as (Hh2 & _ & Hc2).
  destruct (drop_shared w2 (t_storage v) (proj1 Hk12)) as [Hw3 Hk23]; [by rewrite Hstv|rewrite Hstv; lia|].
  split.
  { split; [done|]. intros s Hhs. destruct (proj2 Hk01 s Hhs) as (Hs1 & Hb1 & Hcs1).
    destruct (proj2 Hk12 s Hs1) as (Hs2 & Hb2 & Hcs2). destruct (Hk23 s Hs2) as (Hs3 & Hb3 & Hcs3).
    unfold drop_tensor. split; [done|]. split; [congruence|]. rewrite Hcs3. rewrite Hstv.
    destruct (decide (st_arc s = st_arc (t_storage src))) as [He|]; [|lia].
    assert (∀ w', strong_count w' s = strong_count w' (t_storage src)) as Hsame
      by (intros; unfold strong_count; by rewrite He).
    rewrite !Hsame in *. lia. }
  destruct Hwc as (_ & Hhc & Hlc & Hbc). destruct (Hk23 _ Hhc) as (Hh3 & Hb3 & _).
  split.
  { split; [|split; congruence]. split_and!; [done|done|done|]. unfold drop_tensor. by rewrite Hb3. }
  split; [done|]. intros p j q Hp Hj Hq. unfold drop_tensor.
  assert (in_range (t_shape v) (p ++ j :: q)) as Hr by (rewrite Hsv; apply in_range_middle; by exists p, j, q).
  transitivity (element w2 c (p ++ j :: q)); [unfold element; by rewrite Hb3|]. rewrite Hel by done.
  apply element_of_address; [done|]. destruct (Hread _ Hr) as [_ Ha]. cbn [reads_from dropped_offset] in Ha.
  rewrite alter_middle in Ha by (by rewrite (in_range_length _ _ Hp)). lia.
Qed.

Lemma keeps_input w w' T pre post t d : keeps w w' → cat_input w T pre post t d → cat_input w' T pre post t d.
Proof. intros Hk (Hwf & Hd & Hs). split; [by apply (keeps_tensor w w')|done]. Qed.

(** What the pieces of an axis from [start] on are: consecutive blocks of
    [split_size] elements, the last one shorter. *)
Definition pieces_of (w : World) (src : Tensor) (pre post : Shape) (n split_size start : Z) (w' : World)
    (ts : list Tensor) (ds : list Z) : Prop :=
  Forall2 (cat_input w' (t_dtype src) pre post) ts ds ∧ zsum ds = n - start ∧
  ∀ k t d, ts !! k = Some t → ds !! k = Some d →
    zsum (take k ds) = Z.of_nat k * split_size ∧
    d = Z.min (n - start - Z.of_nat k * split_size) split_size ∧ 0 < d ∧ row_major t ∧
    ∀ p j q, in_range pre p → 0 ≤ j < d → in_range post q →
      element w' t (p ++ j :: q) = element w src (p ++ (start + Z.of_nat k * split_size + j) :: q).

Lemma pieces_cons w src pre post n split_size start w3 c w' ts ds :
  let len := Z.min (n - start) split_size in
  tensor_wf w src → start < n → 0 < split_size → keeps w w3 → keeps w3 w' →
  cat_input w3 (t_dtype src) pre post c len → row_major c →
  (∀ p j q, in_range pre p → 0 ≤ j < len → in_range post q →
    element w3 c (p ++ j :: q) = element w src (p ++ (start + j) :: q)) →
  pieces_of w3 src pre post n split_size (start + len) w' ts ds →
  pieces_of w src pre post n split_size start w' (c :: ts) (len :: ds).
Proof.
  intros len Hwf Hlt Hsz Hk Hk' Hc Hrm Hel (Hts & Hsum & Hpiece). split; [|split].
  - constructor; [by eapply keeps_input|done].
  - rewrite zsum_cons. lia.
  - intros [|k] t d Ht Hd; simpl in Ht, Hd.
    + injection Ht as <-. injection Hd as <-. split_and!; try (cbn [take]; rewrite ?zsum_nil; lia); [apply Hrm..|].
      intros p j q Hp Hj Hq. destruct (keeps_tensor w3 w' c Hk' (proj1 Hc)) as [_ ->].
      rewrite (Hel p j q) by done. f_equal. f_equal. f_equal. lia.
    + destruct (Hpiece k t d Ht Hd) as (Htk & Hmin & Hpos & Hrk & He).
      assert (len = split_size) as Hfull by lia.
      split_and!; [cbn [take]; rewrite zsum_cons; lia|lia|lia|apply Hrk..|].
      intros p j q Hp Hj Hq. rewrite (He p j q) by done.
      destruct (keeps_tensor w w3 src Hk Hwf) as [_ ->]. f_equal. f_equal. f_equal. lia.
Qed.

Lemma split_loop_spec src pre n post split_size fuel w start :
  tensor_wf w src → t_shape src = pre ++ n :: post → fits_alloc (t_shape src) (t_dtype src) →
  0 < split_size → 0 ≤ start ≤ n → n - start ≤ Z.of_nat fuel →
  ∃ w' ts ds, split_loop oom junk fuel w src (length pre) split_size n start = Ok (w', ts) ∧
    keeps w w' ∧ pieces_of w src pre post n split_size start w' ts ds.
Proof using junk_len no_oom.
  intros Hwf Hs Hfit Hsz. revert w start Hwf. induction fuel as [|fuel IH]; intros w start Hwf Hst Hf.
  - exists w, [], []. cbn. split; [done|]. split; [split; [apply Hwf|by intros]|].
    split; [constructor|]. split; [rewrite zsum_nil; lia|]. by intros ???? [].
  - cbn [split_loop]. destruct (Z.ltb_spec start n) as [Hlt|Hge].
    2: { exists w, [], []. split; [done|]. split; [split; [apply Hwf|by intros]|].
         split; [constructor|]. split; [rewrite zsum_nil; lia|]. by intros. }
    destruct (piece_spec w src pre n post start (Z.min (n - start) split_size)) as
      (w1 & v & w2 & c & Hrv & Hcon & Hk & Hin & Hrm & Hel); try done || lia.
    rewrite Hrv. cbn [map_err rbind]. rewrite Hcon. cbn [unwrap rbind].
    destruct (keeps_tensor _ _ _ Hk Hwf) as [Hwf3 _].
    assert (n < 2 ^ 63).
    { pose proof (proj1 Hfit) as H. rewrite Hs in H. by apply shape_fits_app_r, shape_fits_cons in H as (_ & ? & _). }
    rewrite (wrap_small 64) by (unfold uint; lia).
    destruct (IH (drop_tensor w2 v) (start + Z.min (n - start) split_size) Hwf3) as (w' & ts & ds & Hl & Hk' & Hp);
      [lia..|].
    rewrite Hl. cbn [rbind]. exists w', (c :: ts), (Z.min (n - start) split_size :: ds).
    split; [done|]. split; [by eapply keeps_trans|]. by eapply pieces_cons.
Qed.

(** [split] of an axis, as blocks *)
Lemma split_spec w src pre n post split_size :
  tensor_wf w src → t_shape src = pre ++ n :: post → fits_alloc (t_shape src) (t_dtype src) →
  0 < split_size →
  ∃ w' ts ds, split oom junk w src split_size (length pre) = Ok (w', ts) ∧ keeps w w' ∧
    pieces_of w src pre post n split_size 0 w' ts ds.
Proof using junk_len no_oom.
  intros Hwf Hs Hfit Hsz. pose proof (tensor_shape_nonneg _ _ Hwf) as Hnn. rewrite Hs in Hnn.
  apply Forall_app in Hnn as [_ [Hn _]%Forall_cons].
  unfold split. rewrite Hs, length_app. cbn [length].
  rewrite (proj2 (Nat.leb_gt _ _)), (proj2 (Z.eqb_neq _ _)) by lia.
  unfold Conv.dim. rewrite list_lookup_middle by done. cbn [unwrap_opt rbind].
  apply split_loop_spec; try done; lia.
Qed.
End split_lemmas.

(** ** Properties *)

Lemma pieces_length w src pre post n s w' ts ds : 0 ≤ n → 0 < s →
  pieces_of w src pre post n s 0 w' ts ds →
  n ≤ Z.of_nat (length ts) * s < n + s.
Proof.
  intros Hn Hs (Hts & Hsum & Hp). pose proof (Forall2_length _ _ _ Hts) as Hlen.
  destruct (length ts) as [|k] eqn:Hk.
  { destruct ds; [|done]. rewrite zsum_nil in Hsum. lia. }
  destruct (lookup_lt_is_Some_2 ts k) as [t Ht]; [lia|]. destruct (lookup_lt_is_Some_2 ds k) as [d Hd]; [lia|].
  destruct (Hp k t d Ht Hd) as (Htk & Hm & Hpos & _).
  assert (zsum ds = zsum (take k ds) + d) as Hz.
  { rewrite <- (take_drop k ds) at 1. rewrite zsum_app. f_equal.
    rewrite (drop_S _ _ _ Hd), zsum_cons, drop_ge, zsum_nil by lia. lia. }
  nia.
Qed.

(** C32: Splitting a tensor along an axis into pieces of [split_size] and concatenating
    the pieces along that axis gives the tensor back, for a tensor with no empty axis, of
    a dtype that [cat] handles (f32, f64, i64, i32, i8 or bool), whose size fits the
    machine, when no allocation fails: [split] yields ceil(n / split_size) contiguous
    pieces, all of [split_size] along the axis but a shorter last one, each holding its
    range of the source, leaves the source as it was, and [cat] of the pieces has the
    source's shape and its elements in the same order. *)
Theorem cat_split oom junk w src pre n post split_size :
  (∀ p n, 0 ≤ n → Z.of_nat (length (junk p n)) = n) → (∀ n, oom n = false) →
  tensor_wf w src → t_shape src = pre ++ n :: post → Forall (λ d, 0 < d) (t_shape src) →
  fits_alloc (t_shape src) (t_dtype src) → shape_op_dtype (t_dtype src) = true → 0 < split_size →
  ∃ w1 pieces w2 out,
    split oom junk w src split_size (length pre) = Ok (w1, pieces) ∧
    n ≤ Z.of_nat (length pieces) * split_size < n + split_size ∧
    (∀ k t, pieces !! k = Some t →
      let len := Z.min (n - Z.of_nat k * split_size) split_size in
      t_shape t = pre ++ len :: post ∧ row_major t ∧
      ∀ p j q, in_range pre p → 0 ≤ j < len → in_range post q →
        element w1 t (p ++ j :: q) = element w src (p ++ (Z.of_nat k * split_size + j) :: q)) ∧
    shape_order w1 src = shape_order w src ∧
    cat oom junk w1 pieces (length pre) = Ok (w2, out) ∧
    t_shape out = t_shape src ∧ shape_order w2 out = shape_order w src.
Proof.
  intros Hj Hoom Hwf Hs Hpos Hfit HT Hsz. rewrite Hs in Hpos.
  apply Forall_app in Hpos as [Hpre [Hn Hpost]%Forall_cons]. simpl in Hn.
  destruct (split_spec oom junk Hj Hoom w src pre n post split_size Hwf Hs Hfit Hsz)
    as (w1 & ts & ds & Hsp & Hk & Hpc).
  pose proof (pieces_length _ _ _ _ _ _ _ _ _ (Z.lt_le_incl _ _ Hn) Hsz Hpc) as Hlen. destruct Hpc as (Hts & Hsum & Hp).
  destruct (keeps_tensor _ _ _ Hk Hwf) as [_ Hel].
  pose proof (cat_inputs_nonneg _ _ _ _ _ _ Hts) as Hds.
  rewrite Z.sub_0_r in Hsum. rewrite Hs in Hfit.
  pose proof (cat_spec oom junk Hj w1 (t_dtype src) pre post ts ds) as Hcat. rewrite Hsum in Hcat.
  assert (ts ≠ []) as Hne by (intros ->; simpl in Hlen; lia).
  specialize (Hcat (proj1 Hk) Hne Hts HT Hpre Hpost Hfit).
  destruct (cat oom junk w1 ts (length pre)) as [[w2 out]|[]|] eqn:Hce; simpl in Hcat; try done.
  destruct Hcat as (_ & _ & Hso & _ & _ & _ & Helo).
  exists w1, ts, w2, out. split; [done|]. split; [done|]. split.
  { intros k t Ht. destruct (Forall2_lookup_l _ _ _ _ _ Hts Ht) as (d & Hd & _ & _ & ->).
    destruct (Hp k t d Ht Hd) as (_ & -> & _ & Hrm & He). rewrite Z.sub_0_r in *. done. }
  split; [rewrite !shape_order_elements; apply elements_ext; [by eapply tensor_shape_nonneg|done]|].
  split; [done|]. split; [congruence|]. rewrite !shape_order_elements, Hso, Hs.
  apply elements_ext; [rewrite <- Hs; by eapply tensor_shape_nonneg|]. intros idx Hr. rewrite Helo by done.
  apply in_range_middle in Hr as (p & i & q & -> & Hrp & Hi & Hrq).
  destruct (cat_read_spec w1 (t_dtype src) pre post ts ds p i q Hts Hds Hrp ltac:(lia) Hrq)
    as (k & j & t & d & _ & Ht & Hd & Hjd & Hij & _ & ->).
  destruct (Hp k t d Ht Hd) as (Htk & _ & _ & _ & He). rewrite He by done. f_equal. f_equal. f_equal. lia.
Qed.

(** [repeat], [flip], [roll] and [index_select] read the elements they are
    meant to: position [idx] of the result of [repeat] holds the source's
    element at [idx] modulo the source's shape, of [flip] the one with every
    axis listed an odd number of times reversed, of [roll] the one [shifts]
    before it around the axis (for a negative shift too), and of
    [index_select] the one in the row the index tensor names. The results are
    fresh contiguous tensors, the source keeps its bytes, and the only error is
    an allocation that fails. An index outside the axis, negative ones
    included, is refused with that index (unless the output is empty). *)
Theorem shape_gather_correct oom junk w src :
  (∀ p n, 0 ≤ n → Z.of_nat (length (junk p n)) = n) → tensor_wf w src →
  fits_alloc (t_shape src) (t_dtype src) → t_dtype src ∈ [F32; F64; I64; I32] →
  let post := driver_post oom w (t_dtype src) in
  (∀ repeats, length repeats = length (t_shape src) → Forall (λ r, 0 ≤ r) repeats →
    let shape := zip_with Z.mul (t_shape src) repeats in fits_alloc shape (t_dtype src) →
    post shape (λ idx, element w src (zip_with Z.modulo idx (t_shape src)))
      (repeat oom junk w src repeats)) ∧
  (∀ dims, Forall (λ d, (d < length (t_shape src))%nat) dims →
    post (t_shape src) (λ idx, element w src (flip_index (t_shape src) dims idx))
      (flip oom junk w src dims)) ∧
  (∀ shifts dim n, t_shape src !! dim = Some n → 0 < n < 2 ^ 62 → sint 64 shifts →
    post (t_shape src) (λ idx, element w src (alter (λ c, (c - shifts) mod n) dim idx))
      (roll oom junk w src shifts dim)) ∧
  (∀ indices dim n m, tensor_wf w indices → t_dtype indices = I64 → t_shape indices = [m] →
    t_shape src !! dim = Some n → (∀ c, 0 ≤ c < m → 0 ≤ selected w indices c < n) →
    let shape := <[dim := m]> (t_shape src) in fits_alloc shape (t_dtype src) →
    post shape (λ idx, element w src (<[dim := selected w indices (idx !!! dim)]> idx))
      (index_select oom junk w src dim indices)) ∧
  (∀ indices dim n m c0, tensor_wf w indices → t_dtype indices = I64 → t_shape indices = [m] →
    t_shape src !! dim = Some n → 0 ≤ c0 < m → ¬ 0 ≤ selected w indices c0 < n →
    let shape := <[dim := m]> (t_shape src) in fits_alloc shape (t_dtype src) → Forall (λ d, 0 < d) shape →
    ∃ c, 0 ≤ c < m ∧ ¬ 0 ≤ selected w indices c < n ∧
      index_select oom junk w src dim indices = Err (BIndexOutOfBounds (selected w indices c) n)).
Proof.
  intros Hj Hwf Hfit Hd post.
  assert (shape_op_dtype (t_dtype src) = true) as HT.
  { rewrite !elem_of_cons, elem_of_nil in Hd. by destruct Hd as [->|[->|[->|[->|[]]]]]. }
  split; [|split; [|split; [|split]]].
  - intros. by apply repeat_spec.
  - intros. by apply flip_spec.
  - intros. by apply roll_spec.
  - intros. by eapply index_select_ok.
  - intros. by eapply (index_select_error oom junk Hj) with (c0 := c0).
Qed.

(** Concatenation along an axis: for inputs of one dtype that agree on
    the other axes (all of them non-empty), position p ++ i :: q of the result
    holds element p ++ j :: q of the input the offset i falls in, with j the
    offset inside that input; the axis of the result is the sum of the inputs'
    axes. An input of another dtype, rank or size on another axis is refused,
    and so are an empty list and an axis out of range. *)
Theorem cat_correct oom junk w dim first rest :
  (∀ p n, 0 ≤ n → Z.of_nat (length (junk p n)) = n) → world_wf w →
  let ts := first :: rest in
  let bad t := t_dtype t ≠ t_dtype first ∨ length (t_shape t) ≠ length (t_shape first) ∨
    ∃ i a b, i ≠ dim ∧ t_shape first !! i = Some a ∧ t_shape t !! i = Some b ∧ a ≠ b in
  (∀ pre post ds, length pre = dim → Forall2 (cat_input w (t_dtype first) pre post) ts ds →
    shape_op_dtype (t_dtype first) = true → Forall (λ d, 0 < d) pre → Forall (λ d, 0 < d) post →
    fits_alloc (pre ++ zsum ds :: post) (t_dtype first) →
    match cat oom junk w ts dim with
    | Ok (w', out) => t_shape out = pre ++ zsum ds :: post ∧ extends w w' ∧
        ∀ p i q k j t, in_range pre p → in_range post q → ts !! k = Some t →
          0 ≤ j < ds !!! k → i = zsum (take k ds) + j →
          element w' out (p ++ i :: q) = element w t (p ++ j :: q)
    | Err (BOutOfMemory _) => ¬ (∀ n, oom n = false)
    | _ => False
    end) ∧
  ((dim < length (t_shape first))%nat → Exists bad rest → ∃ e, cat oom junk w ts dim = Err e) ∧
  cat oom junk w [] dim = Err (BShapeMismatch [] []) ∧
  ((length (t_shape first) ≤ dim)%nat →
    cat oom junk w ts dim = Err (BIndexOutOfBounds (Z.of_nat dim) (Z.of_nat (length (t_shape first))))).
Proof.
  intros Hj Hw ts bad. split; [|split; [|split]].
  - assert (ts ≠ []) as Hne by done. clearbody ts. intros pre post ds <- Hts HT Hpre Hpost Hfit.
    pose proof (cat_spec oom junk Hj w _ pre post ts ds Hw Hne Hts HT Hpre Hpost Hfit) as Hc.
    destruct (cat oom junk w ts (length pre)) as [[w' out]|[]|]; simpl in Hc; try done.
    destruct Hc as (_ & _ & Hs & _ & _ & [Hext _] & Hel). split; [done|]. split; [done|].
    intros p i q k j t Hp Hq Ht Hjk ->.
    destruct (Forall2_lookup_l _ _ _ _ _ Hts Ht) as (d & Hd & _).
    rewrite (list_lookup_total_correct _ _ _ Hd) in Hjk.
    pose proof (cat_inputs_nonneg _ _ _ _ _ _ Hts) as Hds.
    rewrite Hel.
    + unfold cat_read. pose proof (in_range_length _ _ Hp) as Hlen.
      rewrite readers_dims by (by eapply Forall2_length). rewrite list_lookup_total_middle by done.
      rewrite (locate_at _ _ _ _ Hds Hd Hjk). unfold readers. rewrite lookup_zip_with, Ht, Hd. cbn.
      by rewrite insert_middle by done.
    + apply in_range_middle. exists p, (zsum (take k ds) + j), q. split_and!; try done.
      * assert (0 ≤ zsum (take k ds)) by (by apply zsum_nonneg, Forall_take). lia.
      * rewrite <- (take_drop_middle _ _ _ Hd) at 2. rewrite zsum_app, zsum_cons.
        assert (0 ≤ zsum (drop (S k) ds)) by (by apply zsum_nonneg, Forall_drop). lia.
  - intros Hdim (t & Hin & Hb)%Exists_exists. unfold cat, ts. cbv beta match zeta.
    rewrite (proj2 (Nat.leb_gt _ _)) by done.
    destruct (cat_check_refuses first t rest dim Hin) as [e He].
    { rewrite cat_check_ok. intros (Hd & Hl & Ha).
      destruct Hb as [Hb|[Hb|(i & a & b & Hi & Hfa & Htb & Hne)]]; [by apply Hb..|].
      by apply Hne, (Ha i). }
    exists e. by rewrite He.
  - done.
  - intros Hdim. unfold cat, ts. cbv beta match zeta. by rewrite (proj2 (Nat.leb_le _ _)).
Qed.

(** *** Witnesses *)

Lemma t23_fits_alloc : fits_alloc (t_shape t23.2) (t_dtype t23.2).
Proof. split; [exact t23_fits|vm_compute; congruence]. Qed.

Lemma cat_split_witness :
  ∃ w1 pieces w2 out, split no_oom ff_junk t23.1 t23.2 2 1 = Ok (w1, pieces) ∧
    (t_shape <$> pieces) = [[2; 2]; [2; 1]] ∧
    cat no_oom ff_junk w1 pieces 1 = Ok (w2, out) ∧ shape_order w2 out = [1; 2; 3; 4; 5; 6].
Proof.
  destruct (cat_split no_oom ff_junk t23.1 t23.2 [2] 3 [] 2 ff_junk_len) as (w1 & ps & w2 & out & Hs & _ & _ & _ & Hc & _ & Ho);
    [reflexivity|exact t23_wf|reflexivity|apply (bool_decide_unpack _); vm_compute; exact I|
     exact t23_fits_alloc|reflexivity|reflexivity|].
  exists w1, ps, w2, out. split; [exact Hs|]. split.
  - vm_compute in Hs. injection Hs as <- <-. reflexivity.
  - split; [exact Hc|]. rewrite Ho. vm_compute. reflexivity.
Defined.

Lemma shape_gather_correct_witness :
  ∃ w' out, roll no_oom ff_junk t23.1 t23.2 (-1) 1 = Ok (w', out) ∧
    element w' out [1; 2] = 4.
Proof.
  destruct (shape_gather_correct no_oom ff_junk t23.1 t23.2 ff_junk_len t23_wf t23_fits_alloc
    ltac:(apply (bool_decide_unpack _); vm_compute; exact I)) as (_ & _ & H & _).
  specialize (H (-1) 1%nat 3 eq_refl ltac:(split; reflexivity) ltac:(split; [vm_compute; congruence|reflexivity])).
  destruct (roll no_oom ff_junk t23.1 t23.2 (-1) 1) as [[w' out]|e|] eqn:Hr; [|vm_compute in Hr; discriminate..].
  exists w', out. split; [reflexivity|]. destruct H as (_ & _ & _ & _ & _ & _ & H).
  rewrite (H [1; 2]) by (apply (bool_decide_unpack _); vm_compute; exact I). vm_compute. reflexivity.
Defined.

Lemma cat_correct_witness :
  ∃ e, cat no_oom ff_junk t23.1 [t23.2; t23_transposed.2] 0 = Err e.
Proof.
  apply (proj1 (proj2 (cat_correct no_oom ff_junk t23.1 0 t23.2 [t23_transposed.2] ff_junk_len (proj1 t23_wf)))).
  - vm_compute. lia.
  - constructor. right. right. exists 1%nat, 3, 2. repeat split; vm_compute; congruence.
Defined.

(** ** A divergence *)

(** Two tensors of shape 2 x 0: their concatenation along the first axis is an
    empty 4 x 0 tensor, and the call panics. *)
Definition empty_pair : res BackendError (World * Tensor) :=
  match from_vec_typed no_oom ff_junk World_new I32 [2; 0] [] with
  | Ok (w, t) => cat no_oom ff_junk (clone_storage w (t_storage t)) [t; t] 0
  | _ => Err (BShapeMismatch [] [])
  end.

Lemma cat_empty_panics : empty_pair = Panic.
Proof. vm_compute. reflexivity. Qed.
