(* ===== verification/Reduce.v ===== *)
(** * Reductions (crates/rustorch-cpu/src/kernels/reduction.rs, and
      [unbroadcast_to] and [reshape] of cpu_backend.rs)

    [reduce_dim] walks the source in row-major order and folds every element
    into the output element its coordinates map to; [sum_dim] has a shortcut for
    dense matrices; [arg_reduce], [cum_along] and Welford's variance walk the
    lines of an axis.  An element operation acts on bit patterns.  The theorems
    say which fold of which elements, in which order, every output element is,
    that the shortcut computes the same bits, that the gradient of a broadcast
    is the sum over the positions that read an element, and that Welford's
    recurrence is the variance. *)

From Stdlib Require Import ZArith Lia SpecFloat.
From stdpp Require Import base list gmap.
From S2P Require Import Prelude Loops Dtype Float Shape Layout Storage Tensor View Mutate Iterator Conv ShapeOps.

Open Scope Z_scope.

(** ** Element operations *)

(** The dtypes the reductions dispatch on *)
Definition num_dtype (d : Dtype) : bool := match d with F32 | F64 | I64 | I32 => true | _ => false end.

Definition bits (d : Dtype) : Z := 8 * Dtype_byte_size d.

Definition num_add (d : Dtype) (a b : Z) : Z :=
  match dtype_format d with Some f => fadd f a b | None => wrap (bits d) (a + b) end.
Definition num_mul (d : Dtype) (a b : Z) : Z :=
  match dtype_format d with Some f => fmul f a b | None => wrap (bits d) (a * b) end.
Definition num_max (d : Dtype) (a b : Z) : Z :=
  match dtype_format d with
  | Some f => fmax f a b
  | None => if of_twos (bits d) a <? of_twos (bits d) b then b else a
  end.
Definition num_min (d : Dtype) (a b : Z) : Z :=
  match dtype_format d with
  | Some f => fmin f a b
  | None => if of_twos (bits d) b <? of_twos (bits d) a then b else a
  end.
Definition num_gt (d : Dtype) (a b : Z) : bool :=
  match dtype_format d with
  | Some f => fltb f b a
  | None => of_twos (bits d) b <? of_twos (bits d) a
  end.
Definition num_lt (d : Dtype) (a b : Z) : bool := num_gt d b a.

Definition num_one (d : Dtype) : Z := match dtype_format d with Some f => fof_int f 1 | None => 1 end.
(** [NEG_INFINITY] or [MIN], [INFINITY] or [MAX] *)
Definition num_lowest (d : Dtype) : Z :=
  match dtype_format d with Some f => to_bits f (S754_infinity true) | None => 2 ^ (bits d - 1) end.
Definition num_highest (d : Dtype) : Z :=
  match dtype_format d with Some f => to_bits f (S754_infinity false) | None => 2 ^ (bits d - 1) - 1 end.

(** ** The kernels *)

Fixpoint reduced_from (keepdim : bool) (dims : list nat) (fill : Z) (i : nat) (l : list Z) : list Z :=
  match l with
  | [] => []
  | x :: l =>
      (if existsb (Nat.eqb i) dims then (if keepdim then [fill] else []) else [x])
      ++ reduced_from keepdim dims fill (S i) l
  end.

(** The axes listed in [dims] replaced by [fill], or dropped *)
Definition reduced (keepdim : bool) (dims : list nat) (fill : Z) (l : list Z) : list Z :=
  reduced_from keepdim dims fill 0 l.

Definition validate_dims (src : Tensor) (dims : list nat) : res BackendError unit :=
  let ndim := length (t_shape src) in
  match List.find (λ d, (ndim <=? d)%nat) dims with
  | Some d => Err (BIndexOutOfBounds (Z.of_nat d) (Z.of_nat ndim))
  | None => Ok tt
  end.
Definition validate_dim (src : Tensor) (dim : nat) : res BackendError unit :=
  let ndim := length (t_shape src) in
  if (ndim <=? dim)%nat then Err (BIndexOutOfBounds (Z.of_nat dim) (Z.of_nat ndim)) else Ok tt.

Section kernels.
Context (oom : Z → bool) (junk : Z → Z → list Z).

Definition reduce_dim (T : Dtype) (w : World) (src : Tensor) (dims : list nat) (keepdim : bool)
    (init : Z) (op : Z → Z → Z) : res BackendError (World * Tensor) :=
  let? buf := collect w src T in
  let shape := t_shape src in
  let out_shape := reduced keepdim dims 1 shape in
  let n_out := Z.max 1 (product_u 64 out_shape) in
  let? out := vec_of (Dtype_byte_size T) n_out init in
  let? out := rfold (λ out lv,
      let? coords := decode_coords (Z.of_nat lv.1) shape in
      let out_coords := reduced keepdim dims 0 coords in
      let out_idx := Z.to_nat (wrap 64 (dot out_coords (contiguous_strides out_shape))) in
      let? cur := unwrap_opt (out !! out_idx) in
      put out out_idx (op cur lv.2))
    out (take (Z.to_nat (t_numel src)) (imap pair buf)) in
  finish oom junk w T out_shape n_out out.

(** The shortcut of [sum_dim] for a dense [f32] matrix; [None]: the caller goes on
    with the general path. *)
Definition sum_dim_2d_f32 (w : World) (src : Tensor) (axis : nat) (keepdim : bool)
    : res BackendError (option (World * Tensor)) :=
  let? buf := slice_of w src F32 in
  match buf with
  | None => Ok None
  | Some buf =>
      let? rows := Conv.dim (t_shape src) 0 in
      let? cols := Conv.dim (t_shape src) 1 in
      let row r := slice_range buf (wrap 64 (Z.of_nat r * cols))
                     (wrap 64 (wrap 64 (Z.of_nat r * cols) + cols)) in
      match axis with
      | 0%nat =>
          let? out := vec_of 4 cols 0 in
          let? out := for_range (Z.to_nat rows) (λ out r,
              let? row := row r in
              for_range (Z.to_nat cols) (λ out c,
                let? cur := unwrap_opt (out !! c) in
                let? v := unwrap_opt (row !! c) in
                put out c (fadd binary32 cur v)) out) out in
          let? wt := finish oom junk w F32 (if keepdim then [1; cols] else [cols]) cols out in
          Ok (Some wt)
      | 1%nat =>
          let? out := vec_of 4 rows 0 in
          let? out := for_range (Z.to_nat rows) (λ out r,
              let? row := row r in
              put out r (foldl (fadd binary32) 0 row)) out in
          let? wt := finish oom junk w F32 (if keepdim then [rows; 1] else [rows]) rows out in
          Ok (Some wt)
      | _ => Ok None
      end
  end.

Definition sum_dim (w : World) (src : Tensor) (dims : list nat) (keepdim : bool)
    : res BackendError (World * Tensor) :=
  let? _ := validate_dims src dims in
  let? fast :=
    if bool_decide (t_dtype src = F32) && (length (t_shape src) =? 2)%nat && (length dims =? 1)%nat
       && t_is_contiguous src && (l_offset (t_layout src) =? 0)
    then match dims with d :: _ => sum_dim_2d_f32 w src d keepdim | [] => Panic end
    else Ok None in
  match fast with
  | Some out => Ok out
  | None =>
      if num_dtype (t_dtype src) then
        reduce_dim (t_dtype src) w src dims keepdim 0 (num_add (t_dtype src))
      else Err (BDtypeMismatch (t_dtype src) (t_dtype src))
  end.

Definition mean_dim (w : World) (src : Tensor) (dims : list nat) (keepdim : bool)
    : res BackendError (World * Tensor) :=
  let? _ := validate_dims src dims in
  let? sizes := rmapM (λ d, Conv.dim (t_shape src) d) dims in
  let n := product_u 64 sizes in
  if n =? 0 then Err BNumericalError
  else match dtype_format (t_dtype src), t_dtype src with
  | Some f, (F32 | F64) as T =>
      let? (w, s) := reduce_dim T w src dims keepdim 0 (num_add T) in
      let? v := slice_of w s T in
      let? v := unwrap_opt v in
      let? (w, out) := finish oom junk w T (t_shape s) 0 ((λ x, fdiv f x (fof_int f n)) <$> v) in
      Ok (drop_tensor w s, out)
  | _, d => Err (BDtypeMismatch d d)
  end.

Definition max_dim (w : World) (src : Tensor) (dim : nat) (keepdim : bool)
    : res BackendError (World * Tensor) :=
  let? _ := validate_dim src dim in
  let d := t_dtype src in
  if num_dtype d then reduce_dim d w src [dim] keepdim (num_lowest d) (num_max d)
  else Err (BDtypeMismatch d d).
Definition min_dim (w : World) (src : Tensor) (dim : nat) (keepdim : bool)
    : res BackendError (World * Tensor) :=
  let? _ := validate_dim src dim in
  let d := t_dtype src in
  if num_dtype d then reduce_dim d w src [dim] keepdim (num_highest d) (num_min d)
  else Err (BDtypeMismatch d d).

(** The position of a line of the axis: the coordinates of its first element *)
Definition line_base {E} (linear : nat) (line_shape : Shape) (strides : list Z) (dim : nat) : res E Z :=
  let? coords := decode_coords (Z.of_nat linear) line_shape in
  Ok (wrap 64 (dot (<[dim := 0]> coords) strides)).

Definition line_read {E X} (buf : list X) (base stride : Z) (k : nat) : res E X :=
  unwrap_opt (buf !! Z.to_nat (wrap 64 (base + wrap 64 (Z.of_nat k * stride)))).

(** The loop of [arg_reduce] over a line *)
Definition best_of {E} (better : Z → Z → bool) (buf : list Z) (base stride dim_size : Z) : res E nat :=
  let? v0 := unwrap_opt (buf !! Z.to_nat base) in
  let? best := rfold (λ best k,
      let? v := line_read buf base stride k in
      Ok (if better v best.2 then (k, v) else best))
    (0%nat, v0) (seq 1 (Z.to_nat dim_size - 1)) in
  Ok best.1.

Definition arg_reduce (T : Dtype) (w : World) (src : Tensor) (dim : nat) (keepdim : bool)
    (better : Z → Z → bool) : res BackendError (World * Tensor) :=
  let? buf := collect w src T in
  let shape := t_shape src in
  let line_shape := <[dim := 1]> shape in
  let? dim_size := Conv.dim shape dim in
  let n_out := Z.max 1 (product_u 64 line_shape) in
  let strides := contiguous_strides shape in
  let? out := rmapM (λ linear,
      let? base := line_base linear line_shape strides dim in
      let? stride := unwrap_opt (strides !! dim) in
      let? k := best_of better buf base stride dim_size in
      Ok (Z.of_nat k)) (seq 0 (Z.to_nat n_out)) in
  finish oom junk w I64 (if keepdim then line_shape else delete dim line_shape) n_out out.

Definition argmax (w : World) (src : Tensor) (dim : nat) (keepdim : bool)
    : res BackendError (World * Tensor) :=
  let? _ := validate_dim src dim in
  let d := t_dtype src in
  if num_dtype d then arg_reduce d w src dim keepdim (num_gt d) else Err (BDtypeMismatch d d).
Definition argmin (w : World) (src : Tensor) (dim : nat) (keepdim : bool)
    : res BackendError (World * Tensor) :=
  let? _ := validate_dim src dim in
  let d := t_dtype src in
  if num_dtype d then arg_reduce d w src dim keepdim (num_lt d) else Err (BDtypeMismatch d d).

(** [full_reduce] and [sum_kernel]: the fold of all elements *)
Definition full_reduce (T : Dtype) (w : World) (src : Tensor) (init : Z) (op : Z → Z → Z)
    : res BackendError (World * Tensor) :=
  let? buf := collect w src T in
  finish oom junk w T [] 1 [foldl op init buf].

Definition prod (w : World) (src : Tensor) : res BackendError (World * Tensor) :=
  let d := t_dtype src in
  if num_dtype d then full_reduce d w src (num_one d) (num_mul d) else Err (BDtypeMismatch d d).
Definition max (w : World) (src : Tensor) : res BackendError (World * Tensor) :=
  let d := t_dtype src in
  if num_dtype d then full_reduce d w src (num_lowest d) (num_max d) else Err (BDtypeMismatch d d).
Definition min (w : World) (src : Tensor) : res BackendError (World * Tensor) :=
  let d := t_dtype src in
  if num_dtype d then full_reduce d w src (num_highest d) (num_min d) else Err (BDtypeMismatch d d).

Definition bool_bit (b : bool) : Z := if b then 1 else 0.
Definition all (w : World) (src : Tensor) : res BackendError (World * Tensor) :=
  if negb (bool_decide (t_dtype src = DBool)) then Err (BDtypeMismatch (t_dtype src) DBool)
  else
    let? buf := collect w src DBool in
    finish oom junk w DBool [] 1 [bool_bit (forallb (λ x, negb (x =? 0)) buf)].
Definition any (w : World) (src : Tensor) : res BackendError (World * Tensor) :=
  if negb (bool_decide (t_dtype src = DBool)) then Err (BDtypeMismatch (t_dtype src) DBool)
  else
    let? buf := collect w src DBool in
    finish oom junk w DBool [] 1 [bool_bit (existsb (λ x, negb (x =? 0)) buf)].

(** The running fold of a line, written back along it *)
Definition scan_line {E} (op : Z → Z → Z) (buf : list Z) (base stride dim_size init : Z) (out : list Z)
    : res E (list Z) :=
  let? oa := for_range (Z.to_nat dim_size) (λ oa k,
      let? v := line_read buf base stride k in
      let acc := op oa.2 v in
      let? out := put oa.1 (Z.to_nat (wrap 64 (base + wrap 64 (Z.of_nat k * stride)))) acc in
      Ok (out, acc)) (out, init) in
  Ok oa.1.

Definition cum_along (T : Dtype) (w : World) (src : Tensor) (dim : nat) (init : Z) (op : Z → Z → Z)
    : res BackendError (World * Tensor) :=
  let? buf := collect w src T in
  let shape := t_shape src in
  let? dim_size := Conv.dim shape dim in
  let n := t_numel src in
  let strides := contiguous_strides shape in
  let? out := vec_of (Dtype_byte_size T) n init in
  let other_shape := <[dim := 1]> shape in
  let n_other := Z.max 1 (product_u 64 other_shape) in
  let? out := for_range (Z.to_nat n_other) (λ out linear,
      let? base := line_base linear other_shape strides dim in
      let? stride := unwrap_opt (strides !! dim) in
      scan_line op buf base stride dim_size init out) out in
  finish oom junk w T shape n out.

Definition cumsum (w : World) (src : Tensor) (dim : nat) : res BackendError (World * Tensor) :=
  let? _ := validate_dim src dim in
  let d := t_dtype src in
  if num_dtype d then cum_along d w src dim 0 (num_add d) else Err (BDtypeMismatch d d).
Definition cumprod (w : World) (src : Tensor) (dim : nat) : res BackendError (World * Tensor) :=
  let? _ := validate_dim src dim in
  let d := t_dtype src in
  if num_dtype d then cum_along d w src dim (num_one d) (num_mul d) else Err (BDtypeMismatch d d).

(** ** unbroadcast_to, reshape *)

(** [Backend::reshape] *)
Definition reshape (w : World) (src : Tensor) (shape : Shape) : res BackendError (World * Tensor) :=
  if negb (product_u 64 shape =? t_numel src) then Err (BShapeMismatch (t_shape src) shape)
  else
    let? data := slice_of w src F32 in
    let? data := ok_or BNumericalError data in
    map_err (λ _, BNumericalError) (from_vec_typed oom junk w F32 shape data).

Definition reduce_axes (padded grad_shape : Shape) : list nat :=
  omap (λ x, if (x.2.1 =? 1) && (1 <? x.2.2) then Some x.1 else None) (imap pair (zip padded grad_shape)).

Definition unbroadcast_to (w : World) (grad : Tensor) (target_shape : Shape)
    : res BackendError (World * Tensor) :=
  let grad_shape := t_shape grad in
  if bool_decide (grad_shape = target_shape) then Ok (Tensor_clone w grad)
  else
    let g_ndim := length grad_shape in
    let t_ndim := length target_shape in
    if (g_ndim <? t_ndim)%nat then Err (BShapeMismatch grad_shape target_shape)
    else
      let padded := replicate (g_ndim - t_ndim) 1 ++ target_shape in
      if existsb (λ gt, negb (gt.2 =? 1) && negb (gt.2 =? gt.1)) (zip grad_shape padded) then
        Err (BShapeMismatch grad_shape target_shape)
      else
        let axes := reduce_axes padded grad_shape in
        let? (w, reduced) := if bool_decide (axes = []) then Ok (Tensor_clone w grad)
                             else sum_dim w grad axes true in
        if bool_decide (t_shape reduced = target_shape) then Ok (w, reduced)
        else
          let? (w, out) := reshape w reduced target_shape in
          Ok (drop_tensor w reduced, out).
End kernels.

(** ** Welford's variance *)

(** The operations of [f64] the recurrence uses, with [k as f64] *)
Class VarOps (X : Type) := mkVarOps {
  v_of_nat : nat → X;
  v_add : X → X → X;
  v_sub : X → X → X;
  v_mul : X → X → X;
  v_div : X → X → X;
  v_max : X → X → X
}.

Section welford.
Context {X : Type} {VO : VarOps X}.

(** One element: the new mean and sum of squared deviations *)
Definition welford_step (s : X * X) (kv : nat * X) : X * X :=
  let '(mean, m2) := s in
  let '(k, v) := kv in
  let delta := v_sub v mean in
  let mean := v_add mean (v_div delta (v_add (v_of_nat k) (v_of_nat 1))) in
  let delta2 := v_sub v mean in
  (mean, v_add m2 (v_mul delta delta2)).

Definition welford_line (unbiased : bool) (vs : list X) : X :=
  let dim_size := length vs in
  let s := foldl welford_step (v_of_nat 0, v_of_nat 0) (imap pair vs) in
  let denom := if unbiased then v_max (v_sub (v_of_nat dim_size) (v_of_nat 1)) (v_of_nat 1)
               else v_of_nat dim_size in
  v_div s.2 denom.
End welford.

(** [f64] arithmetic on bit patterns *)
#[export] Instance f64_var_ops : VarOps Z :=
  mkVarOps Z (λ k, fof_int binary64 (Z.of_nat k)) (fadd binary64) (fsub binary64) (fmul binary64)
    (fdiv binary64) (fmax binary64).

Section var_kernels.
Context (oom : Z → bool) (junk : Z → Z → list Z).

(** [welford_var_f32] with [widen] and [narrow] the casts to and from [f64],
    [welford_var_f64] with the identity *)
Definition welford_var (T : Dtype) (widen narrow : Z → Z) (w : World) (src : Tensor) (dim : nat)
    (unbiased keepdim : bool) : res BackendError (World * Tensor) :=
  let? buf := collect w src T in
  let shape := t_shape src in
  let line_shape := <[dim := 1]> shape in
  let? dim_size := Conv.dim shape dim in
  let n_out := Z.max 1 (product_u 64 line_shape) in
  let strides := contiguous_strides shape in
  let? out := rmapM (λ linear,
      let? base := line_base linear line_shape strides dim in
      let? stride := unwrap_opt (strides !! dim) in
      let? vs := rmapM (line_read buf base stride) (seq 0 (Z.to_nat dim_size)) in
      Ok (narrow (welford_line unbiased (widen <$> vs)))) (seq 0 (Z.to_nat n_out)) in
  finish oom junk w T (if keepdim then line_shape else delete dim line_shape) 0 out.

Definition var_dim (w : World) (src : Tensor) (dim : nat) (unbiased keepdim : bool)
    : res BackendError (World * Tensor) :=
  let? _ := validate_dim src dim in
  match t_dtype src with
  | F32 => welford_var F32 (fcast binary32 binary64) (fcast binary64 binary32) w src dim unbiased keepdim
  | F64 => welford_var F64 (λ x, x) (λ x, x) w src dim unbiased keepdim
  | d => Err (BDtypeMismatch d d)
  end.
End var_kernels.

(** ** Folding into an output *)

Lemma fold_alter_lookup {A B} (op : A → B → A) (f : nat → nat) (l : list (nat * B)) out o :
  foldl (λ (out : list A) lv, alter (λ c, op c lv.2) (f lv.1) out) out l !! o =
  (λ c, foldl op c (snd <$> filter (λ lv, f lv.1 = o) l)) <$> out !! o.
Proof.
  revert out. induction l as [|[i v] l IH]; intros out; simpl.
  { by rewrite option_fmap_id. }
  rewrite IH, filter_cons. simpl. destruct (decide (f i = o)) as [<-|Hne].
  - rewrite list_lookup_alter_eq. by destruct (out !! f i).
  - by rewrite list_lookup_alter_ne.
Qed.

(** All multi-indices of a shape, in row-major order *)
Definition indices (shape : Shape) : list (list Z) :=
  (λ i, unravel shape (Z.of_nat i)) <$> seq 0 (Z.to_nat (zprod shape)).

Lemma elem_indices shape idx : Forall (λ d, 0 ≤ d) shape → idx ∈ indices shape → in_range shape idx.
Proof.
  intros Hs (i & -> & Hi%elem_of_seq)%list_elem_of_fmap. apply unravel_range; [apply zprod_pos; [lia|done]|lia].
Qed.

Lemma elements_indices shape g : elements shape g = g <$> indices shape.
Proof. unfold elements, indices. by rewrite <- list_fmap_compose. Qed.

(** The fold of the elements whose coordinates map to [q] *)
Definition folded (op : Z → Z → Z) (init : Z) (keepdim : bool) (dims : list nat) (shape : Shape)
    (g : list Z → Z) (q : list Z) : Z :=
  foldl op init (g <$> filter (λ idx, reduced keepdim dims 0 idx = q) (indices shape)).

Lemma reduced_in_range keepdim dims s idx : in_range s idx →
  in_range (reduced keepdim dims 1 s) (reduced keepdim dims 0 idx).
Proof.
  unfold reduced. generalize 0%nat as i. intros i H. revert i. induction H as [|d x s idx Hx H IH]; intros i; simpl; [constructor|].
  apply Forall2_app; [|apply IH]. destruct (existsb (Nat.eqb i) dims), keepdim; repeat constructor; lia.
Qed.

Lemma indexed_elements shape g :
  imap pair (elements shape g) =
  (λ k, (k, g (unravel shape (Z.of_nat k)))) <$> seq 0 (Z.to_nat (zprod shape)).
Proof.
  apply list_eq. intros k. unfold elements. rewrite list_lookup_imap, !list_lookup_fmap.
  destruct (seq _ _ !! k) as [j|] eqn:Hj; simpl; [|done]. apply lookup_seq in Hj as [-> _]. done.
Qed.

Lemma filter_fmap {A B} (f : A → B) (P : B → Prop) `{∀ x, Decision (P x)} (l : list A) :
  filter P (f <$> l) = f <$> filter (λ x, P (f x)) l.
Proof.
  induction l as [|x l IH]; [done|]. rewrite fmap_cons, !filter_cons, IH. by destruct (decide (P (f x))).
Qed.

Lemma filter_iff_in {A} (P Q : A → Prop) `{∀ x, Decision (P x)} `{∀ x, Decision (Q x)} (l : list A) :
  (∀ x, x ∈ l → P x ↔ Q x) → filter P l = filter Q l.
Proof.
  induction l as [|x l IH]; intros Hi; [done|]. rewrite !filter_cons, IH by (intros; apply Hi; by right).
  specialize (Hi x ltac:(left)). destruct (decide (P x)), (decide (Q x)); tauto.
Qed.

Lemma filter_indices shape (P : nat → Prop) (Q : list Z → Prop) g
    `{∀ i, Decision (P i)} `{∀ idx, Decision (Q idx)} :
  (∀ i, (i < Z.to_nat (zprod shape))%nat → P i ↔ Q (unravel shape (Z.of_nat i))) →
  snd <$> filter (λ lv, P lv.1) (imap pair (elements shape g)) = g <$> filter Q (indices shape).
Proof.
  intros HPQ. rewrite indexed_elements. unfold indices. rewrite !filter_fmap, <- !list_fmap_compose. simpl.
  rewrite (filter_iff_in (λ i, P i) (λ i, Q (unravel shape (Z.of_nat i)))); [done|].
  intros i Hi%elem_of_seq. apply HPQ. lia.
Qed.

(** ** reduce_dim *)

Section reduce_lemmas.
Context (oom : Z → bool) (junk : Z → Z → list Z).
Hypothesis junk_len : ∀ p n, 0 ≤ n → Z.of_nat (length (junk p n)) = n.

Lemma foldl_value (P : Z → Prop) (op : Z → Z → Z) l init :
  P init → Forall P l → (∀ a b, P a → P b → P (op a b)) → P (foldl op init l).
Proof using Type.
  intros Hi Hl Hop. revert init Hi. induction Hl as [|x l Hx Hl IH]; intros init Hi; [done|]. simpl.
  by apply IH, Hop.
Qed.

Lemma vec_of_len_fits {X} T n (x : X) : n * Dtype_byte_size T ≤ 2 ^ 63 - CPU_ALIGN →
  vec_of (E := BackendError) (Dtype_byte_size T) n x = Ok (replicate (Z.to_nat n) x).
Proof using Type.
  intros Hn. unfold vec_of. unfold CPU_ALIGN in Hn. rewrite (proj2 (Z.ltb_ge _ _)) by lia. done.
Qed.

(** The position of the output that element [i] is folded into *)
Definition out_index (keepdim : bool) (dims : list nat) (shape : Shape) (i : nat) : nat :=
  Z.to_nat (ravel (reduced keepdim dims 1 shape) (reduced keepdim dims 0 (unravel shape (Z.of_nat i)))).

Lemma out_index_range keepdim dims shape i :
  Forall (λ d, 0 ≤ d) shape → (i < Z.to_nat (zprod shape))%nat →
  in_range (reduced keepdim dims 1 shape) (reduced keepdim dims 0 (unravel shape (Z.of_nat i))).
Proof using Type.
  intros Hs Hi. apply reduced_in_range, unravel_range; [apply zprod_pos; [lia|done]|lia].
Qed.

Lemma elements_const shape (x : Z) : elements shape (λ _, x) = replicate (Z.to_nat (zprod shape)) x.
Proof using Type.
  unfold elements. apply list_eq. intros i. rewrite list_lookup_fmap.
  destruct (decide (i < Z.to_nat (zprod shape))%nat).
  - rewrite (proj2 (lookup_seq _ _ _ i)), (proj2 (lookup_replicate _ _ _ _)) by (done || lia). done.
  - rewrite !lookup_ge_None_2; [done|rewrite length_replicate; lia|rewrite length_seq; lia].
Qed.

(** A walk over the elements of one shape that folds each into the element of
    another that [tgt] names *)
Lemma fold_into s_in s_out (tgt : list Z → list Z) op (init g : list Z → Z) :
  Forall (λ d, 0 ≤ d) s_in → Forall (λ d, 0 < d) s_out →
  (∀ q, in_range s_in q → in_range s_out (tgt q)) →
  foldl (λ out lv, alter (λ c, op c lv.2) (Z.to_nat (ravel s_out (tgt (unravel s_in (Z.of_nat lv.1))))) out)
    (elements s_out init) (imap pair (elements s_in g)) =
  elements s_out (λ p, foldl op (init p) (g <$> filter (λ q, tgt q = p) (indices s_in))).
Proof using Type.
  intros Hs Hpos Htgt. set (f := λ i, Z.to_nat (ravel s_out (tgt (unravel s_in (Z.of_nat i))))).
  apply list_eq. intros o. rewrite (fold_alter_lookup op f). unfold elements at 2 3. rewrite !list_lookup_fmap.
  destruct (seq 0 (Z.to_nat (zprod s_out)) !! o) as [o'|] eqn:Ho; simpl; [|done].
  apply lookup_seq in Ho as [-> Ho]. cbn [Nat.add]. f_equal. f_equal.
  apply (filter_indices s_in (λ i, f i = o) (λ q, tgt q = unravel s_out (Z.of_nat o)) g
    (H := λ i, decide_rel (=) (f i) o)).
  intros i Hi.
  pose proof (Htgt _ (unravel_range s_in (Z.of_nat i) ltac:(apply zprod_pos; [lia|done]) ltac:(lia))) as Hr.
  pose proof (ravel_bound _ _ Hr). unfold f. split; intros H'.
  - rewrite <- H', Z2Nat.id, unravel_ravel by (done || lia). done.
  - rewrite H', ravel_unravel, Nat2Z.id by (done || lia). done.
Qed.

(** The walk over the elements computes the folds. *)
Lemma reduce_fold keepdim dims shape op init g :
  Forall (λ d, 0 ≤ d) shape → Forall (λ d, 0 < d) (reduced keepdim dims 1 shape) →
  foldl (λ out lv, alter (λ c, op c lv.2) (out_index keepdim dims shape lv.1) out)
    (replicate (Z.to_nat (zprod (reduced keepdim dims 1 shape))) init) (imap pair (elements shape g)) =
  elements (reduced keepdim dims 1 shape) (folded op init keepdim dims shape g).
Proof using Type.
  intros Hs Hpos. rewrite <- elements_const.
  apply (fold_into shape (reduced keepdim dims 1 shape) (reduced keepdim dims 0) op (λ _, init) g Hs Hpos).
  intros q. apply reduced_in_range.
Qed.

Lemma folded_value T w src keepdim dims op init q :
  tensor_wf w src → t_dtype src = T → value_of T init →
  (∀ a b, value_of T a → value_of T b → value_of T (op a b)) →
  value_of T (folded op init keepdim dims (t_shape src) (element w src) q).
Proof using Type.
  intros Hwf <- Hinit Hop. pose proof (tensor_shape_nonneg _ _ Hwf) as Hnn.
  unfold folded. apply foldl_value; [done| |done].
  apply Forall_fmap, Forall_forall. intros idx [_ Hi%elem_indices]%list_elem_of_filter; [|done].
  by apply element_value.
Qed.

Lemma reduce_eq w src dims keepdim init op :
  tensor_wf w src → let T := t_dtype src in let out_shape := reduced keepdim dims 1 (t_shape src) in
  fits_alloc out_shape T → 0 < zprod out_shape →
  reduce_dim oom junk T w src dims keepdim init op =
  finish oom junk w T out_shape (zprod out_shape)
    (elements out_shape (folded op init keepdim dims (t_shape src) (element w src))).
Proof using Type.
  intros Hwf T out_shape Hfit Hpos.
  pose proof (tensor_shape_nonneg _ _ Hwf) as Hnn. unfold reduce_dim.
  rewrite collect_spec by done. cbn [rbind]. cbv zeta. fold out_shape.
  pose proof (shape_fits_prod _ (proj1 Hfit)) as Hp.
  rewrite product_u_small, Z.max_r by (unfold uint; lia).
  rewrite vec_of_len_fits by apply Hfit. cbn [rbind].
  rewrite (t_numel_fits w src Hwf), shape_order_elements, take_ge
    by (rewrite length_imap, length_elements; lia).
  rewrite (rfold_pure_inv (λ out, length out = Z.to_nat (zprod out_shape)) _
    (λ out lv, alter (λ c, op c lv.2) (out_index keepdim dims (t_shape src) lv.1) out));
    [|by rewrite length_replicate|].
  - cbn [rbind]. by rewrite reduce_fold; [|done|by apply zprod_pos, shape_wf_nonneg, Hfit].
  - intros out lv Hlv Hlen. rewrite length_alter. split; [|done].
    rewrite indexed_elements in Hlv. apply list_elem_of_fmap in Hlv as (i & -> & Hi%elem_of_seq). simpl.
    assert (i < Z.to_nat (zprod (t_shape src)))%nat as Hi' by lia.
    pose proof (out_index_range keepdim dims _ i Hnn Hi') as Hr. fold out_shape in Hr. pose proof (ravel_bound _ _ Hr).
    rewrite decode_coords_unravel by (first [lia | apply zprod_pos; [lia|done]]). cbn [rbind].
    rewrite contiguous_strides_prods, dot_suffix_prods by (apply Hfit || by apply in_range_length).
    rewrite wrap_small by (unfold uint; lia).
    change (Z.to_nat (ravel out_shape (reduced keepdim dims 0 (unravel (t_shape src) (Z.of_nat i)))))
      with (out_index keepdim dims (t_shape src) i).
    assert (out_index keepdim dims (t_shape src) i < length out)%nat as Hlt
      by (unfold out_index; fold out_shape; lia).
    destruct (lookup_lt_is_Some_2 out (out_index keepdim dims (t_shape src) i) Hlt) as [c Hc].
    rewrite Hc. cbn [unwrap_opt rbind]. unfold put.
    rewrite (proj2 (Nat.ltb_lt _ _)) by done. by rewrite (list_alter_insert _ _ _ _ Hc).
Qed.

Lemma reduce_spec w src dims keepdim init op :
  tensor_wf w src → let T := t_dtype src in let out_shape := reduced keepdim dims 1 (t_shape src) in
  fits_alloc out_shape T → 0 < zprod out_shape → value_of T init →
  (∀ a b, value_of T a → value_of T b → value_of T (op a b)) →
  driver_post oom w T out_shape (folded op init keepdim dims (t_shape src) (element w src))
    (reduce_dim oom junk T w src dims keepdim init op).
Proof using junk_len.
  intros Hwf T out_shape Hfit Hpos Hinit Hop. unfold T, out_shape. rewrite reduce_eq by done.
  apply (finish_spec oom junk junk_len); [apply Hwf|done|]. intros q Hq. by apply folded_value.
Qed.
End reduce_lemmas.

(** ** Closure of the element operations *)

Lemma to_bits_inf f s : format_wf f → uint (f_width f) (to_bits f (S754_infinity s)).
Proof. intros Hf. by apply to_bits_uint. Qed.

Lemma num_dtype_format d : num_dtype d = true →
  match dtype_format d with
  | Some f => format_wf f ∧ f_width f = bits d
  | None => d = I64 ∨ d = I32
  end.
Proof.
  destruct d; try done; intros _; simpl;
    first [by left | by right | split; [first [apply binary32_wf | apply binary64_wf]|done]].
Qed.

Lemma num_ops_value d a b : num_dtype d = true → value_of d a → value_of d b →
  value_of d (num_add d a b) ∧ value_of d (num_mul d a b) ∧
  value_of d (num_max d a b) ∧ value_of d (num_min d a b).
Proof.
  intros Hd Ha Hb. unfold value_of in *. fold (bits d) in *. pose proof (num_dtype_format d Hd) as Hf.
  unfold num_add, num_mul, num_max, num_min. destruct (dtype_format d) as [f|].
  - destruct Hf as [Hwf Hbits]. rewrite <- Hbits in *. destruct (arith_uint f a b Hwf) as (? & _ & ? & _).
    split; [done|]. split; [done|]. unfold fmax, fmin. split; repeat case_match; done.
  - assert (0 ≤ bits d) by (destruct Hf as [-> | ->]; vm_compute; congruence).
    split; [by apply wrap_uint|]. split; [by apply wrap_uint|]. split; by case_match.
Qed.

Lemma num_consts_value d : num_dtype d = true →
  value_of d 0 ∧ value_of d (num_one d) ∧ value_of d (num_lowest d) ∧ value_of d (num_highest d).
Proof. destruct d; try done; intros _; repeat split; vm_compute; congruence. Qed.

(** ** The shortcut of [sum_dim] *)

Lemma foldl_ext {A B} (f g : A → B → A) l s :
  (∀ s x, x ∈ l → f s x = g s x) → foldl f s l = foldl g s l.
Proof.
  revert s. induction l as [|x l IH]; intros s H; [done|]. simpl.
  rewrite H by (apply elem_of_cons; by left). apply IH. intros. apply H, elem_of_cons. by right.
Qed.

Lemma foldl_fmap_l {A B C} (f : A → B → A) (h : C → B) l s : foldl f s (h <$> l) = foldl (λ s x, f s (h x)) s l.
Proof. revert s. induction l as [|x l IH]; intros s; [done|]. simpl. apply IH. Qed.

(** A fold over a matrix in row-major order *)
Lemma foldl_blocks {A} (k : A → nat → A) C R s :
  foldl k s (seq 0 (R * C)) = foldl (λ s r, foldl (λ s c, k s (r * C + c)%nat) s (seq 0 C)) s (seq 0 R).
Proof.
  induction R as [|R IH]; [done|]. rewrite (seq_S R), foldl_app. simpl foldl at 3.
  replace (S R * C)%nat with (R * C + C)%nat by lia. rewrite seq_app, foldl_app, IH. simpl.
  replace (seq (R * C) C) with (Nat.add (R * C) <$> seq 0 C)
    by (rewrite fmap_add_seq; f_equal; lia). by rewrite foldl_fmap_l.
Qed.

Lemma foldl_alter_same {A B} (op : A → B → A) l i (out : list A) :
  foldl (λ out x, alter (λ c, op c x) i out) out l = alter (λ c, foldl op c l) i out.
Proof.
  revert out. induction l as [|x l IH]; intros out; simpl.
  - apply list_eq. intros j. destruct (decide (i = j)) as [<-|?];
      [rewrite list_lookup_alter_eq; by destruct (out !! i)|by rewrite list_lookup_alter_ne].
  - rewrite IH. apply list_eq. intros j. destruct (decide (i = j)) as [<-|?].
    + rewrite !list_lookup_alter_eq. by destruct (out !! i).
    + by rewrite !list_lookup_alter_ne.
Qed.

Lemma foldl_alter_each {A} (F : nat → A → A) n (out : list A) : (n ≤ length out)%nat →
  foldl (λ out r, alter (F r) r out) out (seq 0 n) = imap (λ r x, if (r <? n)%nat then F r x else x) out.
Proof.
  induction n as [|n IH]; intros Hn.
  - simpl. apply list_eq. intros j. rewrite list_lookup_imap. by destruct (out !! j).
  - rewrite seq_S, foldl_app, IH by lia. simpl. apply list_eq. intros j.
    destruct (decide (n = j)) as [<-|Hne].
    + rewrite list_lookup_alter_eq, !list_lookup_imap. destruct (out !! n); simpl; [|done].
      by rewrite Nat.ltb_irrefl, (proj2 (Nat.ltb_lt n (S n))) by lia.
    + rewrite list_lookup_alter_ne, !list_lookup_imap by done. destruct (out !! j); simpl; [|done].
      destruct (Nat.ltb_spec j n), (Nat.ltb_spec j (S n)); done || lia.
Qed.

(** A loop that writes every position of a buffer *)
Lemma for_range_put {E A} (x : nat → A) n (out : list A) : length out = n →
  for_range (E := E) n (λ out r, put out r (x r)) out = Ok (x <$> seq 0 n).
Proof.
  intros Hlen. pose proof (fills_for (E := E) n 1 0 (λ out r, put out r (x r)) (λ r, [x r])) as H.
  rewrite (H ltac:(done)); [|intros i Hi; rewrite Nat.mul_1_r; apply fills_put|].
  - f_equal. simpl. rewrite drop_ge, app_nil_r.
    + clear. induction (seq 0 n) as [|i l IH]; [done|]. simpl. f_equal. exact IH.
    + rewrite Hlen, (length_blocks_seq _ 1) by done. lia.
  - rewrite Hlen, (length_blocks_seq _ 1) by done. lia.
Qed.

Section matrix.
Context (R C : nat) (g : list Z → Z).
Context (fits : Z.of_nat R * Z.of_nat C < 2 ^ 63).

Let shape : Shape := [Z.of_nat R; Z.of_nat C].
Let v (k : nat) : Z := g (unravel shape (Z.of_nat k)).

Lemma matrix_elements : elements shape g = v <$> seq 0 (R * C).
Proof using Type.
  unfold elements, shape. rewrite !zprod_cons, zprod_nil. do 2 f_equal. lia.
Qed.

Lemma matrix_row {E} r : (r < R)%nat →
  slice_range (E := E) (elements shape g) (wrap 64 (Z.of_nat r * Z.of_nat C))
    (wrap 64 (wrap 64 (Z.of_nat r * Z.of_nat C) + Z.of_nat C)) =
  Ok ((λ c, v (r * C + c)%nat) <$> seq 0 C).
Proof using fits.
  intros Hr. assert (Z.of_nat r * Z.of_nat C + Z.of_nat C ≤ Z.of_nat R * Z.of_nat C) by nia.
  rewrite !wrap_small by (unfold uint; nia). unfold slice_range. rewrite matrix_elements, length_fmap, length_seq.
  rewrite (proj2 (Z.ltb_ge _ _)), (proj2 (Z.ltb_ge _ _)) by nia. cbn [orb]. f_equal.
  replace (Z.to_nat _) with C at 1 by lia. replace (Z.to_nat _) with (r * C)%nat by lia.
  rewrite <- fmap_drop, <- fmap_take, drop_seq, take_seq. simpl.
  replace (C `min` (R * C - r * C))%nat with C by nia.
  replace (seq (r * C) C) with (Nat.add (r * C) <$> seq 0 C) by (rewrite fmap_add_seq; f_equal; lia).
  by rewrite <- list_fmap_compose.
Qed.

(** Summing the columns, row by row *)
Lemma column_sums {E} (op : Z → Z → Z) (out : list Z) : length out = C →
  for_range (E := E) R (λ out r,
      let? row := slice_range (elements shape g) (wrap 64 (Z.of_nat r * Z.of_nat C))
                    (wrap 64 (wrap 64 (Z.of_nat r * Z.of_nat C) + Z.of_nat C)) in
      for_range C (λ out c,
        let? cur := unwrap_opt (out !! c) in
        let? v := unwrap_opt (row !! c) in
        put out c (op cur v)) out) out =
  Ok (foldl (λ (out : list Z) lv, alter (λ c, op c lv.2) (lv.1 mod C)%nat out) out (imap pair (elements shape g))).
Proof using fits.
  intros Hlen. unfold for_range.
  rewrite (rfold_pure_inv (λ out, length out = C) _
    (λ (out : list Z) r, foldl (λ (out : list Z) c, alter (λ x, op x (v (r * C + c)%nat)) c out) out (seq 0 C))); [|done|].
  - f_equal. rewrite indexed_elements, foldl_fmap_l. simpl.
    replace (Z.to_nat (zprod shape)) with (R * C)%nat by (unfold shape; rewrite !zprod_cons, zprod_nil; lia).
    rewrite foldl_blocks. apply foldl_ext. intros s r _. apply foldl_ext. intros s' c Hc%elem_of_seq.
    f_equal. rewrite Nat.add_comm, Nat.Div0.mod_add. symmetry. apply Nat.mod_small. lia.
  - intros s r Hr%elem_of_seq Hs. rewrite matrix_row by lia. cbn [rbind].
    assert (∀ l (s : list Z), length (foldl (λ (out : list Z) c, alter (λ x, op x (v (r * C + c)%nat)) c out) s l) = length s) as Hfl.
    { intros l. induction l as [|c l IH]; intros s'; [done|]. simpl. by rewrite IH, length_alter. }
    split; [|by rewrite Hfl].
    apply (rfold_pure_inv (λ out, length out = C)); [done|]. intros s' c Hc%elem_of_seq Hs'.
    rewrite length_alter. split; [|done]. destruct (lookup_lt_is_Some_2 s' c) as [x Hx]; [lia|].
    rewrite Hx, list_lookup_fmap, (proj2 (lookup_seq _ _ _ c)) by lia. cbn. unfold put.
    rewrite (proj2 (Nat.ltb_lt _ _)) by lia. by rewrite (list_alter_insert _ _ _ _ Hx).
Qed.

(** Summing the rows *)
Lemma row_sums {E} (op : Z → Z → Z) (init : Z) : let out := replicate R init in
  for_range (E := E) R (λ out r,
      let? row := slice_range (elements shape g) (wrap 64 (Z.of_nat r * Z.of_nat C))
                    (wrap 64 (wrap 64 (Z.of_nat r * Z.of_nat C) + Z.of_nat C)) in
      put out r (foldl op init row)) out =
  Ok (foldl (λ (out : list Z) lv, alter (λ c, op c lv.2) (lv.1 / C)%nat out) out (imap pair (elements shape g))).
Proof using fits.
  intros out.
  rewrite (for_range_ext _ _ (λ out r, put out r (foldl op init ((λ c, v (r * C + c)%nat) <$> seq 0 C))))
    by (intros s r Hr; by rewrite matrix_row).
  rewrite for_range_put by (unfold out; by rewrite length_replicate). f_equal.
  rewrite indexed_elements, foldl_fmap_l. simpl.
  replace (Z.to_nat (zprod shape)) with (R * C)%nat by (unfold shape; rewrite !zprod_cons, zprod_nil; lia).
  rewrite foldl_blocks.
  rewrite (foldl_ext _ (λ (out : list Z) r, alter (λ x, foldl op x ((λ c, v (r * C + c)%nat) <$> seq 0 C)) r out)).
  2: { intros s r _. rewrite <- foldl_alter_same, foldl_fmap_l. apply foldl_ext. intros s' c Hc%elem_of_seq.
       f_equal. rewrite Nat.div_add_l by lia. rewrite Nat.div_small by lia. lia. }
  rewrite (foldl_alter_each (λ r x, foldl op x ((λ c, v (r * C + c)%nat) <$> seq 0 C)))
    by (unfold out; by rewrite length_replicate).
  apply list_eq. intros j. rewrite list_lookup_fmap, list_lookup_imap. unfold out.
  destruct (decide (j < R)%nat).
  - rewrite (proj2 (lookup_seq _ _ _ j)) by lia. rewrite (proj2 (lookup_replicate _ _ _ _)) by done. simpl.
    by rewrite (proj2 (Nat.ltb_lt _ _)).
  - rewrite !lookup_ge_None_2; [done|rewrite length_replicate; lia|rewrite length_seq; lia].
Qed.
End matrix.

Lemma out_index_matrix keepdim R C i : (i < R * C)%nat →
  out_index keepdim [0%nat] [Z.of_nat R; Z.of_nat C] i = (i mod C)%nat ∧
  out_index keepdim [1%nat] [Z.of_nat R; Z.of_nat C] i = (i / C)%nat.
Proof.
  intros Hi. unfold out_index, reduced.
  assert (0 ≤ Z.of_nat i / Z.of_nat C) by (apply Z.div_pos; lia).
  split; destruct keepdim; simpl; rewrite ?zprod_cons, ?zprod_nil, ?Z.mul_1_r, ?Z.div_1_r, ?Z.add_0_r, ?Z.mul_0_l; simpl;
    first [rewrite <- Nat2Z.inj_mod | rewrite <- Nat2Z.inj_div]; lia.
Qed.

Lemma reduced_nonneg keepdim dims s : Forall (λ d, 0 ≤ d) s → Forall (λ d, 0 ≤ d) (reduced keepdim dims 1 s).
Proof.
  unfold reduced. generalize 0%nat as i. intros i H; revert i.
  induction H as [|d s Hd Hs IH]; intros i; simpl; [constructor|]. apply Forall_app. split; [|apply IH].
  destruct (existsb _ _), keepdim; repeat constructor; lia.
Qed.

Lemma length_foldl_alter {A B} (op : B → A → A) (f : B → nat) l (out : list A) :
  length (foldl (λ out x, alter (op x) (f x) out) out l) = length out.
Proof. revert out. induction l as [|x l IH]; intros out; [done|]. simpl. by rewrite IH, length_alter. Qed.

(** The walk, for any output shape *)
Lemma reduce_fold_any keepdim dims shape op init g :
  Forall (λ d, 0 ≤ d) shape →
  foldl (λ out lv, alter (λ c, op c lv.2) (out_index keepdim dims shape lv.1) out)
    (replicate (Z.to_nat (zprod (reduced keepdim dims 1 shape))) init) (imap pair (elements shape g)) =
  elements (reduced keepdim dims 1 shape) (folded op init keepdim dims shape g).
Proof.
  intros Hs. pose proof (reduced_nonneg keepdim dims shape Hs) as Hr.
  destruct (decide (zprod (reduced keepdim dims 1 shape) = 0)) as [Hz|Hz].
  - unfold elements at 2. rewrite Hz. simpl. apply nil_length_inv. by rewrite length_foldl_alter.
  - apply reduce_fold; [done|]. apply zprod_pos; [|done]. pose proof (zprod_nonneg _ Hr). lia.
Qed.

(** The walk over a tensor, adding *)
Definition walk (keepdim : bool) (axis : nat) (shape : Shape) (g : list Z → Z) : list Z :=
  foldl (λ out lv, alter (λ c, fadd binary32 c lv.2) (out_index keepdim [axis] shape lv.1) out)
    (replicate (Z.to_nat (zprod (reduced keepdim [axis] 1 shape))) 0) (imap pair (elements shape g)).

Lemma matrix_walk keepdim R C g :
  let shape := [Z.of_nat R; Z.of_nat C] in
  foldl (λ out lv, alter (λ c, fadd binary32 c lv.2) (lv.1 mod C)%nat out) (replicate C 0)
    (imap pair (elements shape g)) = walk keepdim 0 shape g ∧
  foldl (λ out lv, alter (λ c, fadd binary32 c lv.2) (lv.1 / C)%nat out) (replicate R 0)
    (imap pair (elements shape g)) = walk keepdim 1 shape g.
Proof.
  intros shape. unfold walk.
  assert (Z.to_nat (zprod (reduced keepdim [0%nat] 1 shape)) = C) as ->
    by (unfold reduced, shape; destruct keepdim; simpl; rewrite ?zprod_cons, ?zprod_nil; lia).
  assert (Z.to_nat (zprod (reduced keepdim [1%nat] 1 shape)) = R) as ->
    by (unfold reduced, shape; destruct keepdim; simpl; rewrite ?zprod_cons, ?zprod_nil; lia).
  split; apply foldl_ext; intros s lv Hlv; rewrite indexed_elements in Hlv;
    apply list_elem_of_fmap in Hlv as (i & -> & Hi%elem_of_seq); simpl;
    unfold shape in Hi; rewrite !zprod_cons, zprod_nil in Hi;
    destruct (out_index_matrix keepdim R C i ltac:(lia)) as [H0 H1]; unfold shape.
  - by rewrite H0.
  - by rewrite H1.
Qed.

Section shortcut.
Context (oom : Z → bool) (junk : Z → Z → list Z).
Hypothesis junk_len : ∀ p n, 0 ≤ n → Z.of_nat (length (junk p n)) = n.

(** The shortcut computes the folds of the general path, in the same order. *)
Lemma sum_2d_spec w src axis keepdim R C :
  tensor_wf w src → dense_as F32 src → t_shape src = [Z.of_nat R; Z.of_nat C] → (axis < 2)%nat →
  let out_shape := reduced keepdim [axis] 1 (t_shape src) in fits_alloc out_shape F32 →
  ∃ r, sum_dim_2d_f32 oom junk w src axis keepdim = rmap Some r ∧
    driver_post oom w F32 out_shape
      (folded (fadd binary32) 0 keepdim [axis] (t_shape src) (element w src)) r.
Proof using junk_len.
  intros Hwf Hd Hs Hax out_shape Hfit. pose proof Hwf as (Hw & _ & Hl & _).
  pose proof (li_fits _ _ Hl) as Hsf. fold (t_shape src) in Hsf. pose proof (shape_fits_prod _ Hsf) as Hp.
  assert (Z.of_nat R * Z.of_nat C < 2 ^ 63) as HRC by (rewrite Hs, !zprod_cons, zprod_nil in Hp; lia).
  unfold sum_dim_2d_f32. rewrite slice_of_spec by done. rewrite decide_True by done. cbn [rbind].
  rewrite shape_order_elements, Hs. unfold Conv.dim. cbn [lookup list_lookup unwrap_opt rbind].
  rewrite !Nat2Z.id.
  assert (∀ n, driver_post oom w F32 out_shape
    (folded (fadd binary32) 0 keepdim [axis] (t_shape src) (element w src))
    (finish oom junk w F32 out_shape n
      (elements out_shape (folded (fadd binary32) 0 keepdim [axis] (t_shape src) (element w src))))) as Hfin.
  { intros n. apply (finish_spec oom junk junk_len); [done|done|]. intros q _.
    apply folded_value; [done|apply Hd|vm_compute; split; congruence|].
    intros a b Ha Hb. apply (num_ops_value F32 a b eq_refl Ha Hb). }
  assert (Forall (λ d, 0 ≤ d) (t_shape src)) as Hnn by (by eapply tensor_shape_nonneg).
  pose proof (reduce_fold_any keepdim [axis] (t_shape src) (fadd binary32) 0 (element w src) Hnn) as Hfold.
  fold (walk keepdim axis (t_shape src) (element w src)) in Hfold. fold out_shape in Hfold.
  rewrite <- Hfold in Hfin. clear Hfold Hnn.
  rewrite Hs in Hfin.
  destruct axis as [|[|]]; [| |lia].
  - assert (out_shape = if keepdim then [1; Z.of_nat C] else [Z.of_nat C]) as Hos
      by (unfold out_shape; rewrite Hs; by destruct keepdim).
    rewrite (vec_of_len_fits F32); [|rewrite Hos in Hfit; destruct keepdim; destruct Hfit as [_ Hm];
      rewrite !zprod_cons, zprod_nil in Hm; lia].
    cbn [rbind]. rewrite Nat2Z.id, (column_sums R C) by (done || by rewrite length_replicate). cbn [rbind].
    rewrite (proj1 (matrix_walk keepdim R C _)), <- Hos.
    eexists. split; [|apply (Hfin (Z.of_nat C))]. by destruct (finish _ _ _ _ _ _ _).
  - assert (out_shape = if keepdim then [Z.of_nat R; 1] else [Z.of_nat R]) as Hos
      by (unfold out_shape; rewrite Hs; by destruct keepdim).
    rewrite (vec_of_len_fits F32); [|rewrite Hos in Hfit; destruct keepdim; destruct Hfit as [_ Hm];
      rewrite !zprod_cons, zprod_nil in Hm; lia].
    cbn [rbind]. rewrite Nat2Z.id, (row_sums R C) by done. cbn [rbind].
    rewrite (proj2 (matrix_walk keepdim R C _)), <- Hos.
    eexists. split; [|apply (Hfin (Z.of_nat R))]. by destruct (finish _ _ _ _ _ _ _).
Qed.
End shortcut.

Lemma validate_dims_ok src dims : Forall (λ d, (d < length (t_shape src))%nat) dims → validate_dims src dims = Ok tt.
Proof.
  intros Hd. unfold validate_dims.
  assert (List.find (λ d, (length (t_shape src) <=? d)%nat) dims = None) as ->; [|done].
  induction Hd as [|d ds Hd Hds IH]; [done|]. simpl. by rewrite (proj2 (Nat.leb_gt _ _)).
Qed.

Lemma validate_dim_ok src dim : (dim < length (t_shape src))%nat → validate_dim src dim = Ok tt.
Proof. intros Hd. unfold validate_dim. by rewrite (proj2 (Nat.leb_gt _ _)). Qed.

Section reductions.
Context (oom : Z → bool) (junk : Z → Z → list Z).
Hypothesis junk_len : ∀ p n, 0 ≤ n → Z.of_nat (length (junk p n)) = n.
Context (w : World) (src : Tensor) (src_wf : tensor_wf w src).
Context (src_num : num_dtype (t_dtype src) = true).

Lemma sum_dim_spec dims keepdim :
  Forall (λ d, (d < length (t_shape src))%nat) dims →
  let out_shape := reduced keepdim dims 1 (t_shape src) in
  fits_alloc out_shape (t_dtype src) → 0 < zprod out_shape →
  driver_post oom w (t_dtype src) out_shape
    (folded (num_add (t_dtype src)) 0 keepdim dims (t_shape src) (element w src))
    (sum_dim oom junk w src dims keepdim).
Proof using junk_len src_wf src_num.
  intros Hd out_shape Hfit Hpos. unfold sum_dim. rewrite validate_dims_ok by done. cbn [rbind].
  assert (driver_post oom w (t_dtype src) out_shape
    (folded (num_add (t_dtype src)) 0 keepdim dims (t_shape src) (element w src))
    (reduce_dim oom junk (t_dtype src) w src dims keepdim 0 (num_add (t_dtype src)))) as Hgen.
  { apply reduce_spec; try done; [apply (num_consts_value _ src_num)|].
    intros a b Ha Hb. by apply num_ops_value. }
  destruct (bool_decide _ && _ && _ && _ && _) eqn:Hfast.
  2: { cbn [rbind]. by rewrite src_num. }
  rewrite !andb_true_iff, bool_decide_eq_true, !Nat.eqb_eq, Z.eqb_eq in Hfast.
  destruct Hfast as ((((HT & Hlen) & Hl1) & Hc) & Ho).
  destruct dims as [|axis [|]]; [done| |done]. apply Forall_cons in Hd as [Hax _].
  destruct (t_shape src) as [|r [|c []]] eqn:Hs; try done.
  pose proof (tensor_shape_nonneg _ _ src_wf) as Hnn. rewrite Hs in Hnn.
  apply Forall_cons in Hnn as [Hr [Hcn _]%Forall_cons].
  destruct (sum_2d_spec oom junk junk_len w src axis keepdim (Z.to_nat r) (Z.to_nat c)) as (res & -> & Hres);
    [done|done|by rewrite Hs, !Z2Nat.id by (simpl in *; lia)|done|by rewrite Hs, <- HT|].
  rewrite Hs in Hres. rewrite HT. destruct res as [[w' t]|e|]; done.
Qed.

(** [max_dim] and [min_dim] *)
Lemma extremum_spec dim keepdim (lowest : Z) (op : Z → Z → Z) :
  (dim < length (t_shape src))%nat →
  (lowest = num_lowest (t_dtype src) ∧ op = num_max (t_dtype src)) ∨
  (lowest = num_highest (t_dtype src) ∧ op = num_min (t_dtype src)) →
  let out_shape := reduced keepdim [dim] 1 (t_shape src) in
  fits_alloc out_shape (t_dtype src) → 0 < zprod out_shape →
  driver_post oom w (t_dtype src) out_shape
    (folded op lowest keepdim [dim] (t_shape src) (element w src))
    (reduce_dim oom junk (t_dtype src) w src [dim] keepdim lowest op).
Proof using junk_len src_wf src_num.
  intros Hd Hop out_shape Hfit Hpos. pose proof (num_consts_value _ src_num) as (_ & _ & Hlo & Hhi).
  apply reduce_spec; try done; [by destruct Hop as [[-> ->]|[-> ->]]|].
  intros a b Ha Hb. pose proof (num_ops_value _ a b src_num Ha Hb) as (_ & _ & ? & ?).
  by destruct Hop as [[-> ->]|[-> ->]].
Qed.
End reductions.

(** *** mean_dim *)

Section mean.
Context (oom : Z → bool) (junk : Z → Z → list Z).
Hypothesis junk_len : ∀ p n, 0 ≤ n → Z.of_nat (length (junk p n)) = n.

(** Building a tensor and dropping an intermediate one *)
Lemma made_drop w w1 w2 s t U V shape shape' g g' :
  made w w1 s U shape g' → made w1 w2 t V shape' g → made w (drop_tensor w2 s) t V shape' g.
Proof using Type.
  intros (Hws & _ & _ & _ & _ & [Hext Hfresh] & _).
  intros ((Hw2 & Hh & Hl & Hb) & Hd & Hs & Hlay & Hc & [Hext2 Hfresh2] & Hel).
  assert (st_arc (t_storage t) ≠ st_arc (t_storage s)) as Hne by (apply not_eq_sym, Hfresh2, Hws).
  destruct (drop_other w2 (t_storage s) (t_storage t) Hw2 Hh Hne) as (Hh' & Hb' & Hc').
  unfold drop_tensor. split.
  { split; [by apply drop_storage_wf|]. split; [done|]. split; [done|]. by rewrite Hb'. }
  split; [done|]. split; [done|]. split; [done|]. split; [congruence|]. split.
  - split; intros s0 Hs0; destruct (Hext s0 Hs0) as (H1 & H1b & H1c); [|by apply Hfresh2].
    destruct (Hext2 s0 H1) as (H2 & H2b & H2c).
    destruct (drop_other w2 (t_storage s) s0 Hw2 H2 (Hfresh s0 Hs0)) as (H3 & H3b & H3c).
    split; [done|]. split; congruence.
  - intros idx Hr. rewrite <- Hel by done. unfold element. by rewrite Hb'.
Qed.

Lemma finish_fresh_elements w U shape n g :
  world_wf w → fits_alloc shape U → (∀ idx, in_range shape idx → value_of U (g idx)) →
  match finish oom junk w U shape n (elements shape g) with
  | Ok (w', t) => fresh_tensor w w' t U shape (elements shape g)
  | Err (BOutOfMemory _) => ¬ (∀ n, oom n = false)
  | _ => False
  end.
Proof using junk_len.
  intros Hw Hfit Hg. pose proof (shape_fits_prod _ (proj1 Hfit)).
  apply (finish_fresh oom junk junk_len); [done|done|by apply elements_wf; [apply Hfit|]|rewrite length_elements; lia].
Qed.

Lemma mean_dim_spec w src dims keepdim f :
  tensor_wf w src → t_dtype src ∈ [F32; F64] → dtype_format (t_dtype src) = Some f →
  Forall (λ d, (d < length (t_shape src))%nat) dims →
  let n := product_u 64 ((λ d, t_shape src !!! d) <$> dims) in
  let out_shape := reduced keepdim dims 1 (t_shape src) in
  n ≠ 0 → fits_alloc out_shape (t_dtype src) → 0 < zprod out_shape →
  driver_post oom w (t_dtype src) out_shape
    (λ q, fdiv f (folded (fadd f) 0 keepdim dims (t_shape src) (element w src) q) (fof_int f n))
    (mean_dim oom junk w src dims keepdim).
Proof using junk_len.
  intros Hwf HT Hf Hd n out_shape Hn Hfit Hpos. unfold mean_dim. rewrite validate_dims_ok by done. cbn [rbind].
  assert (rmapM (λ d, Conv.dim (E := BackendError) (t_shape src) d) dims = Ok ((λ d, t_shape src !!! d) <$> dims)) as ->.
  { apply rmapM_Ok, Forall2_fmap_r, Forall_Forall2_diag. eapply Forall_impl; [exact Hd|]. intros d Hlt. unfold compose. cbv beta in *.
    destruct (lookup_lt_is_Some_2 _ _ Hlt) as [x Hx]. rewrite (list_lookup_total_correct _ _ _ Hx).
    unfold Conv.dim. by rewrite Hx. }
  cbn [rbind]. cbv zeta. fold n. rewrite (proj2 (Z.eqb_neq n 0)) by done. rewrite Hf.
  set (T := t_dtype src) in *.
  assert (num_dtype T = true) as HN by (rewrite !elem_of_cons, elem_of_nil in HT; by destruct HT as [-> |[-> |[]]]).
  assert (num_add T = fadd f) as Hadd by (unfold num_add; by rewrite Hf).
  set (g := folded (fadd f) 0 keepdim dims (t_shape src) (element w src)).
  match goal with |- driver_post _ _ _ _ ?G _ => set (G' := G) end.
  assert (driver_post oom w T out_shape G' (let? (w, s) := reduce_dim oom junk T w src dims keepdim 0 (num_add T) in
      let? v := slice_of w s T in
      let? v := unwrap_opt v in
      let? (w, out) := finish oom junk w T (t_shape s) 0 ((λ x, fdiv f x (fof_int f n)) <$> v) in
      Ok (drop_tensor w s, out))) as Hgoal.
  2: { clearbody T. rewrite !elem_of_cons, elem_of_nil in HT. by destruct HT as [-> |[-> |[]]]. }
  unfold T. rewrite reduce_eq by done. fold T out_shape. rewrite Hadd. fold g.
  pose proof (num_dtype_format T HN) as Hff. rewrite Hf in Hff. destruct Hff as [Hfw Hbits].
  assert (∀ q, value_of T (g q)) as Hg.
  { intros q. apply folded_value; [done|done|apply (num_consts_value T HN)|].
    intros a b Ha Hb. rewrite <- Hadd. by apply num_ops_value. }
  pose proof (finish_fresh_elements w T out_shape (zprod out_shape) g (proj1 Hwf) Hfit (λ q _, Hg q)) as Hfr.
  destruct (finish oom junk w T out_shape (zprod out_shape) (elements out_shape g)) as [[w1 s]|e|]; [|done|done].
  cbn [rbind].
  pose proof Hfr as (Hws & Hds & Hss & Hls & _ & _ & _ & _ & Hso & Hsl & Hext & _).
  unfold slice_of. rewrite Hsl. cbn [unwrap rbind unwrap_opt]. rewrite Hss.
  replace ((λ x, fdiv f x (fof_int f n)) <$> elements out_shape g) with (elements out_shape G')
    by (unfold elements; by rewrite <- list_fmap_compose).
  assert (∀ q, value_of T (G' q)) as Hg'.
  { intros q. unfold G', value_of. fold (bits T). rewrite <- Hbits. by apply arith_uint. }
  pose proof (finish_fresh_elements w1 T out_shape 0 G' (proj1 Hws) Hfit (λ q _, Hg' q)) as Hfr2.
  destruct (finish oom junk w1 T out_shape 0 (elements out_shape G')) as [[w2 t]|e|]; [|done|done].
  cbn [rbind]. eapply made_drop; by apply fresh_made.
Qed.
End mean.

(** ** Lines of an axis *)

(** The coordinates of position [k] of the line through [q] *)
Definition at_pos (dim : nat) (q : list Z) (k : nat) : list Z := <[dim := Z.of_nat k]> q.

(** The elements of the line through [q], in order *)
Definition line (w : World) (src : Tensor) (dim : nat) (q : list Z) : list Z :=
  (λ k, element w src (at_pos dim q k)) <$> seq 0 (Z.to_nat (t_shape src !!! dim)).

Lemma suffix_prods_lookup shape dim n : shape !! dim = Some n →
  suffix_prods shape !! dim = Some (zprod (drop (S dim) shape)).
Proof.
  revert dim. induction shape as [|d ds IH]; intros [|dim] Hn; [done..| |].
  - cbn. by rewrite drop_0.
  - cbn. by apply IH.
Qed.

Section lines.
Context (shape : Shape) (dim : nat) (n : Z) (q : list Z).
Context (shape_ok : shape_fits shape) (dim_n : shape !! dim = Some n).
Context (q_range : in_range (<[dim := 1]> shape) q).

Lemma at_pos_range k : (Z.of_nat k < n) → in_range shape (at_pos dim q k).
Proof using dim_n q_range.
  intros Hk. rewrite <- (list_insert_id _ _ _ dim_n), <- (list_insert_insert_eq _ dim n 1).
  apply Forall2_insert; [exact q_range|lia].
Qed.

Lemma q_split : ∃ a b x, q = a ++ x :: b ∧ length a = dim.
Proof using dim_n q_range.
  pose proof (lookup_lt_Some _ _ _ dim_n) as Hlt. pose proof (Forall2_length _ _ _ q_range) as Hl.
  rewrite length_insert in Hl. destruct (lookup_lt_is_Some_2 q dim) as [x Hx]; [lia|].
  exists (take dim q), (drop (S dim) q), x. split; [by rewrite take_drop_middle|]. rewrite length_take. lia.
Qed.

(** Position [k] of a line, as the kernels compute it *)
Lemma line_position k : (Z.of_nat k < n) →
  wrap 64 (wrap 64 (dot (<[dim := 0]> q) (contiguous_strides shape))
    + wrap 64 (Z.of_nat k * zprod (drop (S dim) shape))) = ravel shape (at_pos dim q k) ∧
  0 ≤ ravel shape (at_pos dim q k) < zprod shape.
Proof using All.
  intros Hk. pose proof (at_pos_range k Hk) as Hr. pose proof (ravel_bound _ _ Hr) as Hb. split; [|done].
  pose proof (at_pos_range 0 ltac:(lia)) as Hr0. pose proof (ravel_bound _ _ Hr0) as Hb0.
  pose proof (shape_fits_prod _ shape_ok) as Hp.
  rewrite contiguous_strides_prods by done.
  change (<[dim := 0]> q) with (at_pos dim q 0). rewrite dot_suffix_prods by (by apply in_range_length).
  assert (ravel shape (at_pos dim q k) = ravel shape (at_pos dim q 0) + Z.of_nat k * zprod (drop (S dim) shape)) as He.
  { rewrite <- !dot_suffix_prods by (by apply in_range_length).
    destruct q_split as (a & b & x & -> & Hla). unfold at_pos. rewrite !insert_middle by done.
    pose proof (suffix_prods_lookup _ _ _ dim_n) as Hs. rewrite <- (take_drop_middle _ _ _ Hs).
    rewrite !dot_middle; [lia|rewrite length_take, length_suffix_prods; apply lookup_lt_Some in dim_n; lia..]. }
  assert (0 ≤ Z.of_nat k * zprod (drop (S dim) shape)).
  { apply Z.mul_nonneg_nonneg; [lia|]. apply zprod_nonneg, Forall_drop, shape_wf_nonneg, shape_ok. }
  rewrite (wrap_small 64 (ravel _ _)), (wrap_small 64 (_ * _)), wrap_small by (unfold uint; lia). lia.
Qed.
End lines.

(** *** argmax, argmin *)

(** The scan for the best position of a line *)
Definition best_step (better : Z → Z → bool) (vs : nat → Z) (best : nat * Z) (k : nat) : nat * Z :=
  if better (vs k) best.2 then (k, vs k) else best.
Definition first_best (better : Z → Z → bool) (n : nat) (vs : nat → Z) : nat :=
  (foldl (best_step better vs) (0%nat, vs 0%nat) (seq 1 (n - 1))).1.

(** Nothing beats the element found, and nothing before it is equal to it. *)
Lemma first_best_spec better n vs : (0 < n)%nat →
  (∀ x, better x x = false) → (∀ x y z, better x y = true → better y z = true → better x z = true) →
  let k := first_best better n vs in
  (k < n)%nat ∧ (∀ j, (j < n)%nat → better (vs j) (vs k) = false) ∧ (∀ j, (j < k)%nat → vs j ≠ vs k).
Proof.
  intros Hn Hirr Htr. unfold first_best. set (r := foldl _ _ _).
  assert (r.2 = vs r.1 ∧ (r.1 < n)%nat ∧ (∀ j, (j < n)%nat → better (vs j) (vs r.1) = false) ∧
    ∀ j, (j < r.1)%nat → vs j ≠ vs r.1) as (_ & H); [|exact H].
  unfold r. clear r. destruct n as [|m]; [lia|]. replace (S m - 1)%nat with m by lia. clear Hn.
  induction m as [|m (Hv & Hlt & Hmax & Hfst)].
  { simpl. split_and!; [done|lia| |lia]. intros j Hj. by replace j with 0%nat by lia. }
  rewrite seq_S, foldl_app. remember (foldl _ _ _) as r eqn:Hr. clear Hr. cbn [foldl Nat.add]. unfold best_step.
  destruct (better (vs (S m)) r.2) eqn:Hb; rewrite Hv in Hb; cbn [fst snd].
  - split_and!; [done|lia| |].
    + intros j Hj. destruct (decide (j = S m)) as [->|]; [apply Hirr|].
      destruct (better (vs j) (vs (S m))) eqn:Hj'; [|done].
      rewrite <- (Hmax j) by lia. symmetry. by eapply Htr.
    + intros j Hj Heq. rewrite <- Heq, Hmax in Hb by lia. done.
  - split_and!; [done|lia| |done]. intros j Hj. destruct (decide (j = S m)) as [->|]; [done|]. apply Hmax. lia.
Qed.

Section line_kernels.
Context (w : World) (src : Tensor) (src_wf : tensor_wf w src).
Context (dim : nat) (n : Z) (dim_n : t_shape src !! dim = Some n).
Context (shape_pos : Forall (λ d, 0 < d) (t_shape src)).

Let line_shape := <[dim := 1]> (t_shape src).
Let strides := contiguous_strides (t_shape src).
Let stride := zprod (drop (S dim) (t_shape src)).
Let base (q : list Z) := wrap 64 (dot (<[dim := 0]> q) strides).

Lemma line_facts : shape_fits (t_shape src) ∧ 0 < n ∧ Forall (λ d, 0 < d) line_shape ∧ strides !! dim = Some stride.
Proof using src_wf dim_n shape_pos.
  destruct src_wf as (_ & _ & Hl & _). pose proof (li_fits _ _ Hl) as Hf. fold (t_shape src) in Hf.
  split; [done|]. split; [exact (Forall_lookup_1 _ _ dim n shape_pos dim_n)|]. split.
  - apply Forall_insert; [done|lia].
  - unfold strides. rewrite contiguous_strides_prods by done. by eapply suffix_prods_lookup.
Qed.

Lemma line_base_spec {E} i : (i < Z.to_nat (zprod line_shape))%nat →
  line_base (E := E) i line_shape strides dim = Ok (base (unravel line_shape (Z.of_nat i))) ∧
  in_range line_shape (unravel line_shape (Z.of_nat i)).
Proof using src_wf dim_n shape_pos.
  intros Hi. destruct line_facts as (_ & _ & Hp & _). unfold line_base.
  rewrite decode_coords_unravel by (done || lia). split; [done|]. apply unravel_range; [done|lia].
Qed.

Lemma line_read_spec {E} q k : in_range line_shape q → Z.of_nat k < n →
  line_read (E := E) (shape_order w src) (base q) stride k = Ok (element w src (at_pos dim q k)).
Proof using src_wf dim_n.
  intros Hq Hk. pose proof src_wf as (_ & _ & Hl & _). pose proof (li_fits _ _ Hl) as Hf. fold (t_shape src) in Hf.
  destruct (line_position _ dim n q Hf dim_n Hq k Hk) as [Hp Hb].
  unfold line_read, base, strides, stride. rewrite Hp, shape_order_elements.
  rewrite elements_lookup; [done|]. by apply (at_pos_range _ dim n).
Qed.

Lemma best_of_spec {E} better q : in_range line_shape q →
  best_of (E := E) better (shape_order w src) (base q) stride n =
  Ok (first_best better (Z.to_nat n) (λ k, element w src (at_pos dim q k))).
Proof using src_wf dim_n shape_pos.
  intros Hq. destruct line_facts as (_ & Hn & _). unfold best_of.
  pose proof (line_read_spec (E := E) q 0 Hq ltac:(lia)) as H0. unfold line_read in H0.
  assert (wrap 64 (base q + wrap 64 (Z.of_nat 0 * stride)) = base q) as Hb.
  { rewrite Z.mul_0_l, (wrap_small 64 0), Z.add_0_r by (unfold uint; lia). apply wrap_small. unfold base. by apply wrap_uint. }
  rewrite Hb in H0. rewrite H0. cbn [rbind].
  rewrite (rfold_pure _ (best_step better (λ k, element w src (at_pos dim q k)))); [done|].
  intros s k Hk%elem_of_seq. rewrite line_read_spec by (done || lia). done.
Qed.
End line_kernels.

(** A result with the axis kept, or dropped *)
Definition with_axis (keepdim : bool) (dim : nat) (q : list Z) : list Z :=
  if keepdim then q else take dim q ++ 0 :: drop dim q.

Lemma unravel_middle_1 a b i : Forall (λ d, 0 < d) a → Forall (λ d, 0 < d) b → 0 ≤ i < zprod (a ++ b) →
  unravel (a ++ 1 :: b) i = let l := unravel (a ++ b) i in take (length a) l ++ 0 :: drop (length a) l.
Proof.
  intros Ha Hb. revert i. induction Ha as [|d a Hd Ha IH]; intros i Hi; simpl in *.
  - rewrite (Z.div_small i), (Z.mod_small i) by done. done.
  - rewrite zprod_middle_1. f_equal. apply IH. apply Z.mod_pos_bound. apply zprod_pos_inv. by apply Forall_app.
Qed.

Lemma elements_drop_axis (shape : Shape) dim (keepdim : bool) (g : list Z → Z) : (dim < length shape)%nat → Forall (λ d, 0 < d) shape →
  elements (<[dim := 1]> shape) g =
  elements (if keepdim then <[dim := 1]> shape else delete dim (<[dim := 1]> shape))
    (λ q, g (with_axis keepdim dim q)).
Proof.
  intros Hd Hp. destruct keepdim; [done|]. unfold with_axis.
  destruct (lookup_lt_is_Some_2 _ _ Hd) as [n Hn]. pose proof (take_drop_middle _ _ _ Hn) as Hs.
  set (a := take dim shape) in *. set (b := drop (S dim) shape) in *.
  assert (length a = dim) as Ha by (unfold a; rewrite length_take; lia).
  rewrite <- Hs in *. apply Forall_app in Hp as [Hpa [_ Hpb]%Forall_cons].
  rewrite insert_middle, delete_middle' by done. unfold elements. rewrite zprod_middle_1.
  apply list_fmap_ext. intros k i Hi%lookup_seq. rewrite unravel_middle_1 by (done || lia). by rewrite Ha.
Qed.

Lemma first_best_lt better n vs : (0 < n)%nat → (first_best better n vs < n)%nat.
Proof.
  intros Hn. unfold first_best. destruct n as [|m]; [lia|]. replace (S m - 1)%nat with m by lia. clear Hn.
  induction m as [|m IH]; [simpl; lia|]. rewrite seq_S, foldl_app. simpl. unfold best_step at 1.
  case_match; simpl; lia.
Qed.

(** The shape of a result of one line each *)
Definition lines_shape (keepdim : bool) (dim : nat) (shape : Shape) : Shape :=
  if keepdim then <[dim := 1]> shape else delete dim (<[dim := 1]> shape).

Section line_results.
Context (oom : Z → bool) (junk : Z → Z → list Z).
Hypothesis junk_len : ∀ p n, 0 ≤ n → Z.of_nat (length (junk p n)) = n.
Context (w : World) (src : Tensor) (src_wf : tensor_wf w src).
Context (dim : nat) (n : Z) (dim_n : t_shape src !! dim = Some n).
Context (shape_pos : Forall (λ d, 0 < d) (t_shape src)).

Lemma line_count : zprod (<[dim := 1]> (t_shape src)) < 2 ^ 63.
Proof using src_wf dim_n shape_pos.
  destruct (line_facts w src src_wf dim n dim_n shape_pos) as (Hf & Hn & Hp & _).
  pose proof (shape_fits_prod _ Hf) as Hb. pose proof (zprod_pos_inv _ Hp) as Hz.
  pose proof (lookup_lt_Some _ _ _ dim_n) as Hlt.
  rewrite <- (take_drop_middle _ _ _ dim_n) in Hb, Hz |- *.
  rewrite insert_middle in Hz |- * by (rewrite length_take; lia).
  rewrite zprod_app, zprod_cons in *. nia.
Qed.

(** A kernel that computes [f q] for the line through each [q] *)
Lemma lines_spec U keepdim nb (body : nat → res BackendError Z) (f : list Z → Z) :
  fits_alloc (lines_shape keepdim dim (t_shape src)) U →
  (∀ i, (i < Z.to_nat (zprod (<[dim := 1%Z]> (t_shape src))))%nat →
    body i = Ok (f (unravel (<[dim := 1]> (t_shape src)) (Z.of_nat i)))) →
  (∀ q, value_of U (f q)) →
  driver_post oom w U (lines_shape keepdim dim (t_shape src)) (λ q, f (with_axis keepdim dim q))
    (let? out := rmapM body (seq 0 (Z.to_nat (Z.max 1 (product_u 64 (<[dim := 1]> (t_shape src)))))) in
     finish oom junk w U (if keepdim then <[dim := 1]> (t_shape src) else delete dim (<[dim := 1]> (t_shape src)))
       nb out).
Proof using junk_len src_wf dim_n shape_pos.
  intros Hfit Hbody Hf. destruct (line_facts w src src_wf dim n dim_n shape_pos) as (_ & _ & Hp & _).
  pose proof line_count. pose proof (zprod_pos_inv _ Hp).
  rewrite product_u_small, Z.max_r by (unfold uint; lia).
  rewrite (rmapM_seq _ (λ i, f (unravel (<[dim := 1]> (t_shape src)) (Z.of_nat i)))) by (intros; apply Hbody; lia).
  cbn [rbind]. fold (elements (<[dim := 1]> (t_shape src)) f).
  rewrite (elements_drop_axis _ dim keepdim) by (done || by eapply lookup_lt_Some).
  apply (finish_spec oom junk junk_len); [apply src_wf|done|]. intros; apply Hf.
Qed.

Lemma arg_reduce_spec keepdim better :
  fits_alloc (lines_shape keepdim dim (t_shape src)) I64 →
  driver_post oom w I64 (lines_shape keepdim dim (t_shape src))
    (λ q, Z.of_nat (first_best better (Z.to_nat n)
            (λ k, element w src (at_pos dim (with_axis keepdim dim q) k))))
    (arg_reduce oom junk (t_dtype src) w src dim keepdim better).
Proof using junk_len src_wf dim_n shape_pos.
  intros Hfit. destruct (line_facts w src src_wf dim n dim_n shape_pos) as (Hsf & Hn & _ & Hst).
  unfold arg_reduce. rewrite collect_spec by done. cbn [rbind]. unfold Conv.dim. rewrite dim_n. cbn [unwrap_opt rbind].
  apply (lines_spec I64 keepdim _ _ (λ q, Z.of_nat (first_best better (Z.to_nat n) (λ k, element w src (at_pos dim q k)))));
    [done| |].
  - intros i Hi. destruct (line_base_spec w src src_wf dim n dim_n shape_pos (E := BackendError) i Hi) as [-> Hr].
    cbn [rbind]. rewrite Hst. cbn [unwrap_opt rbind].
    by rewrite (best_of_spec w src src_wf dim n dim_n shape_pos).
  - intros q. pose proof (first_best_lt better (Z.to_nat n) (λ k, element w src (at_pos dim q k)) ltac:(lia)).
    pose proof (Forall_lookup_1 _ _ dim n (proj1 Hsf) dim_n) as Hu. unfold value_of, uint in *.
    change (8 * Dtype_byte_size I64) with 64. lia.
Qed.

Lemma welford_var_spec widen narrow keepdim unbiased :
  fits_alloc (lines_shape keepdim dim (t_shape src)) (t_dtype src) →
  (∀ vs, value_of (t_dtype src) (narrow (welford_line unbiased vs))) →
  driver_post oom w (t_dtype src) (lines_shape keepdim dim (t_shape src))
    (λ q, narrow (welford_line unbiased (widen <$> line w src dim (with_axis keepdim dim q))))
    (welford_var oom junk (t_dtype src) widen narrow w src dim unbiased keepdim).
Proof using junk_len src_wf dim_n shape_pos.
  intros Hfit Hv. destruct (line_facts w src src_wf dim n dim_n shape_pos) as (Hsf & Hn & _ & Hst).
  unfold welford_var. rewrite collect_spec by done. cbn [rbind]. unfold Conv.dim. rewrite dim_n. cbn [unwrap_opt rbind].
  apply (lines_spec _ keepdim _ _ (λ q, narrow (welford_line unbiased (widen <$> line w src dim q)))); [done| |by intros].
  intros i Hi. destruct (line_base_spec w src src_wf dim n dim_n shape_pos (E := BackendError) i Hi) as [-> Hr].
  cbn [rbind]. rewrite Hst. cbn [unwrap_opt rbind].
  rewrite (rmapM_seq _ (λ k, element w src (at_pos dim (unravel (<[dim := 1]> (t_shape src)) (Z.of_nat i)) k))).
  - cbn [rbind]. unfold line. by rewrite (list_lookup_total_correct _ _ _ dim_n).
  - intros k _ Hk. apply (line_read_spec w src src_wf dim n dim_n); [done|lia].
Qed.
End line_results.

(** ** Running folds *)

Lemma length_foldl_insert {A B} (f : B → nat) (g : B → A) l (out : list A) :
  length (foldl (λ out x, <[f x := g x]> out) out l) = length out.
Proof. revert out. induction l as [|x l IH]; intros out; [done|]. simpl. by rewrite IH, length_insert. Qed.

Lemma foldl_writes {A} (ws : list (nat * A)) (h : nat → A) (out : list A) :
  (∀ i v, (i, v) ∈ ws → v = h i) → (∀ i, (i < length out)%nat → ∃ v, (i, v) ∈ ws) →
  foldl (λ out iv, <[iv.1 := iv.2]> out) out ws = h <$> seq 0 (length out).
Proof.
  intros Hv Hc.
  assert (∀ ws, length (foldl (λ (out : list A) iv, <[iv.1 := iv.2]> out) out ws) = length out) as Hlen
    by (intros; apply length_foldl_insert).
  apply list_eq. intros i. rewrite list_lookup_fmap. destruct (decide (i < length out)%nat) as [Hi|Hi].
  2: { rewrite !lookup_ge_None_2; [done|rewrite length_seq; lia|rewrite Hlen; lia]. }
  rewrite (proj2 (lookup_seq _ _ _ i)) by lia. simpl. destruct (Hc i Hi) as [v Hin]. clear Hc.
  induction ws as [|[j x] ws IH] using rev_ind; [by apply elem_of_nil in Hin|].
  rewrite foldl_app. simpl. destruct (decide (j = i)) as [->|Hne].
  - rewrite list_lookup_insert_eq by (by rewrite Hlen). f_equal. apply Hv, elem_of_app. right. by left.
  - rewrite list_lookup_insert_ne by done. apply IH.
    + intros k y Hk. apply Hv, elem_of_app. by left.
    + apply elem_of_app in Hin as [Hin|Hin]; [done|]. apply list_elem_of_singleton in Hin. congruence.
Qed.

Lemma foldl_concat_fmap {A B C} (f : A → B → A) (g : C → list B) l s :
  foldl f s (concat (g <$> l)) = foldl (λ s x, foldl f s (g x)) s l.
Proof. revert s. induction l as [|x l IH]; intros s; [done|]. cbn. by rewrite foldl_app, IH. Qed.

Section scans.
Context (oom : Z → bool) (junk : Z → Z → list Z).
Hypothesis junk_len : ∀ p n, 0 ≤ n → Z.of_nat (length (junk p n)) = n.
Context (w : World) (src : Tensor) (src_wf : tensor_wf w src).
Context (dim : nat) (n : Z) (dim_n : t_shape src !! dim = Some n).
Context (shape_pos : Forall (λ d, 0 < d) (t_shape src)).
Context (op : Z → Z → Z) (init : Z).

Let line_shape := <[dim := 1]> (t_shape src).
Let strides := contiguous_strides (t_shape src).
Let stride := zprod (drop (S dim) (t_shape src)).
Let base (q : list Z) := wrap 64 (dot (<[dim := 0]> q) strides).
Let N := Z.to_nat (zprod (t_shape src)).

(** The running fold at a position *)
Definition running (idx : list Z) : Z :=
  foldl op init (take (S (Z.to_nat (idx !!! dim))) (line w src dim idx)).

Lemma line_at_pos q k : line w src dim (at_pos dim q k) = line w src dim q.
Proof using Type.
  unfold line. apply list_fmap_ext. intros i j _. unfold at_pos. by rewrite list_insert_insert_eq.
Qed.

Lemma running_at q k : (dim < length q)%nat →
  running (at_pos dim q k) = foldl op init (take (S k) (line w src dim q)).
Proof using Type.
  intros Hd. unfold running. rewrite line_at_pos. unfold at_pos at 1.
  rewrite list_lookup_total_insert_eq by done. by rewrite Nat2Z.id.
Qed.

(** The writes of one line *)
Definition line_writes (q : list Z) : list (nat * Z) :=
  (λ k, (Z.to_nat (ravel (t_shape src) (at_pos dim q k)), running (at_pos dim q k))) <$> seq 0 (Z.to_nat n).

Lemma scan_line_spec {E} q out : in_range line_shape q → length out = N →
  scan_line (E := E) op (shape_order w src) (base q) stride n init out =
  Ok (foldl (λ out iv, <[iv.1 := iv.2]> out) out (line_writes q)).
Proof using src_wf dim_n shape_pos.
  intros Hq Hlen. destruct (line_facts w src src_wf dim n dim_n shape_pos) as (Hf & Hn & _ & _).
  pose proof (lookup_lt_Some _ _ _ dim_n) as Hdl. pose proof (Forall2_length _ _ _ Hq) as Hql.
  unfold line_shape in Hql. rewrite length_insert in Hql.
  pose (f := λ k, (foldl (λ (out : list Z) iv, <[iv.1 := iv.2]> out) out
      ((λ k, (Z.to_nat (ravel (t_shape src) (at_pos dim q k)), running (at_pos dim q k))) <$> seq 0 k),
    foldl op init (take k (line w src dim q)))).
  assert (∀ k, length (f k).1 = N) as Hfl.
  { intros k. unfold f. cbn [fst]. by rewrite length_foldl_insert. }
  unfold scan_line. change (out, init) with (f 0%nat).
  rewrite (for_range_inv _ _ f); [done|].
  intros k Hk. destruct (line_position _ dim n q Hf dim_n Hq k ltac:(lia)) as [Hp Hb].
  unfold base, stride, strides. rewrite (line_read_spec w src src_wf dim n dim_n) by (done || lia). cbn [rbind].
  rewrite Hp. unfold put. rewrite Hfl, (proj2 (Nat.ltb_lt _ _)) by (unfold N; lia). cbn [rbind].
  assert (op (f k).2 (element w src (at_pos dim q k)) = foldl op init (take (S k) (line w src dim q))) as ->.
  { unfold f. cbn [snd]. rewrite (take_S_r _ _ (element w src (at_pos dim q k))), foldl_app; [done|].
    unfold line. rewrite (list_lookup_total_correct _ _ _ dim_n), list_lookup_fmap.
    by rewrite (proj2 (lookup_seq _ _ _ k)) by lia. }
  unfold f at 2. rewrite seq_S, fmap_app, foldl_app. cbn. by rewrite running_at by lia.
Qed.

Lemma writes_cover i : (i < N)%nat → ∃ j v, (j < Z.to_nat (zprod line_shape))%nat ∧
  (i, v) ∈ line_writes (unravel line_shape (Z.of_nat j)).
Proof using src_wf dim_n shape_pos.
  intros Hi. destruct (line_facts w src src_wf dim n dim_n shape_pos) as (Hf & Hn & Hp & _).
  pose proof (lookup_lt_Some _ _ _ dim_n) as Hdl.
  set (idx := unravel (t_shape src) (Z.of_nat i)).
  assert (in_range (t_shape src) idx) as Hr by (apply unravel_range; [done|unfold N in Hi; lia]).
  destruct (in_range_lookup _ _ _ _ Hr dim_n) as (c & Hc & Hcn).
  assert (in_range line_shape (<[dim := 0]> idx)) as Hq by (apply Forall2_insert; [done|lia]).
  pose proof (ravel_bound _ _ Hq) as Hb.
  exists (Z.to_nat (ravel line_shape (<[dim := 0]> idx))), (running (at_pos dim (<[dim := 0]> idx) (Z.to_nat c))).
  split; [lia|]. rewrite Z2Nat.id, unravel_ravel by (done || lia).
  apply list_elem_of_fmap. exists (Z.to_nat c). split; [|apply elem_of_seq; lia]. f_equal.
  unfold at_pos. rewrite list_insert_insert_eq, Z2Nat.id by lia. rewrite (list_insert_id _ _ _ Hc).
  unfold idx. rewrite ravel_unravel by (done || (unfold N in Hi; lia)). lia.
Qed.

Lemma cum_along_spec :
  fits_alloc (t_shape src) (t_dtype src) → value_of (t_dtype src) init →
  (∀ a b, value_of (t_dtype src) a → value_of (t_dtype src) b → value_of (t_dtype src) (op a b)) →
  driver_post oom w (t_dtype src) (t_shape src) running
    (cum_along oom junk (t_dtype src) w src dim init op).
Proof using junk_len src_wf dim_n shape_pos.
  intros Hfit Hinit Hop. destruct (line_facts w src src_wf dim n dim_n shape_pos) as (Hf & Hn & Hp & Hst).
  pose proof (lookup_lt_Some _ _ _ dim_n) as Hdl. pose proof (zprod_pos_inv _ shape_pos) as Hz.
  unfold cum_along. rewrite collect_spec by done. cbn [rbind]. unfold Conv.dim. rewrite dim_n. cbn [unwrap_opt rbind].
  rewrite (t_numel_fits w src src_wf), vec_of_len_fits by apply Hfit. cbn [rbind].
  pose proof (line_count w src src_wf dim n dim_n shape_pos). pose proof (zprod_pos_inv _ Hp).
  rewrite product_u_small, Z.max_r by (unfold uint; lia).
  fold strides line_shape N. unfold for_range.
  rewrite (rfold_pure_inv (λ out, length out = N) _
    (λ out i, foldl (λ out iv, <[iv.1 := iv.2]> out) out (line_writes (unravel line_shape (Z.of_nat i)))));
    [|by rewrite length_replicate|].
  - cbn [rbind].
    rewrite <- (foldl_concat_fmap (λ (out : list Z) iv, <[iv.1 := iv.2]> out)
      (λ i, line_writes (unravel line_shape (Z.of_nat i)))).
    rewrite (foldl_writes _ (λ i, running (unravel (t_shape src) (Z.of_nat i)))).
    + rewrite length_replicate. unfold N. fold (elements (t_shape src) running).
      apply (finish_spec oom junk junk_len); [apply src_wf|done|]. intros idx Hr. unfold running.
      apply foldl_value; [done| |done]. apply Forall_take. unfold line. apply Forall_fmap, Forall_forall.
      intros k Hk%elem_of_seq. rewrite (list_lookup_total_correct _ _ _ dim_n) in Hk. cbn.
      apply element_value; [done|].
      replace (at_pos dim idx k) with (at_pos dim (<[dim := 0]> idx) k)
        by (unfold at_pos; by rewrite list_insert_insert_eq).
      apply (at_pos_range _ dim n); [done|apply Forall2_insert; [done|lia]|lia].
    + intros i v (l & Hl & Hin)%list_elem_of_In%in_concat. apply list_elem_of_In in Hin.
      apply list_elem_of_In, list_elem_of_fmap in Hl as (j & -> & Hj%elem_of_seq).
      apply list_elem_of_fmap in Hin as (k & [= -> ->] & Hk%elem_of_seq).
      destruct (line_base_spec w src src_wf dim n dim_n shape_pos (E := BackendError) j ltac:(unfold line_shape in *; lia))
        as [_ Hr]. fold line_shape in Hr.
      pose proof (at_pos_range _ dim n _ dim_n Hr k ltac:(lia)) as Hr'. pose proof (ravel_bound _ _ Hr').
      by rewrite Z2Nat.id, unravel_ravel by (done || lia).
    + intros i Hi. rewrite length_replicate in Hi. destruct (writes_cover i Hi) as (j & v & Hj & Hin).
      exists v. apply list_elem_of_In, in_concat. exists (line_writes (unravel line_shape (Z.of_nat j))).
      split; [|by apply list_elem_of_In]. apply list_elem_of_In, list_elem_of_fmap. exists j. split; [done|].
      apply elem_of_seq. lia.
  - intros out i Hi%elem_of_seq Hlen.
    destruct (line_base_spec w src src_wf dim n dim_n shape_pos (E := BackendError) i ltac:(unfold line_shape in *; lia))
      as [Hb Hr].
    unfold strides, line_shape. rewrite Hb. cbn [rbind]. rewrite Hst. cbn [unwrap_opt rbind].
    rewrite (scan_line_spec _ out Hr Hlen). split; [done|]. by rewrite length_foldl_insert.
Qed.
End scans.

(** ** unbroadcast_to *)

Lemma reduced_true dims fill l :
  reduced true dims fill l = imap (λ i x, if existsb (Nat.eqb i) dims then fill else x) l.
Proof.
  unfold reduced. assert (∀ i, reduced_from true dims fill i l =
    imap (λ j x, if existsb (Nat.eqb (i + j)) dims then fill else x) l) as H; [|by rewrite H].
  induction l as [|x l IH]; intros i; [done|]. simpl. rewrite IH, Nat.add_0_r.
  assert (imap (λ j x, if existsb (Nat.eqb (S i + j)) dims then fill else x) l =
          imap ((λ j x, if existsb (Nat.eqb (i + j)) dims then fill else x) ∘ S) l) as ->.
  { apply imap_ext. intros j y _. cbn. by rewrite Nat.add_succ_r. }
  by destruct (existsb (Nat.eqb i) dims).
Qed.

Lemma elem_reduce_axes padded t i : i ∈ reduce_axes padded t ↔
  ∃ p g, padded !! i = Some p ∧ t !! i = Some g ∧ p = 1 ∧ 1 < g.
Proof.
  unfold reduce_axes. rewrite list_elem_of_omap. split.
  - intros ([j [p g]] & Hin & Hb). apply elem_of_lookup_imap in Hin as (k & x & [= -> <-] & Hx). simpl in Hb.
    rewrite lookup_zip_with_Some in Hx. destruct Hx as (p' & g' & [= -> ->] & Hp & Hg).
    destruct (Z.eqb_spec p' 1), (Z.ltb_spec 1 g'); simplify_eq/=. by exists 1, g'.
  - intros (p & g & Hp & Hg & -> & Hlt). exists (i, (1, g)). split.
    + apply elem_of_lookup_imap. exists i, (1, g). split; [done|]. rewrite lookup_zip_with_Some. by exists 1, g.
    + cbn. by rewrite (proj2 (Z.ltb_lt _ _)).
Qed.

Lemma reduce_axes_spec padded t :
  Forall2 (λ p g, p = g ∨ p = 1) padded t → Forall (λ d, 0 < d) t →
  reduced true (reduce_axes padded t) 1 t = padded ∧
  ∀ idx, in_range t idx →
    reduced true (reduce_axes padded t) 0 idx = zip_with (λ d i, if d =? 1 then 0 else i) padded idx.
Proof.
  intros Hp Ht. assert (∀ i, existsb (Nat.eqb i) (reduce_axes padded t) = bool_decide (i ∈ reduce_axes padded t)) as Hex.
  { intros i. destruct (existsb _ _) eqn:He; symmetry.
    - apply bool_decide_eq_true. apply existsb_exists in He as (j & Hj & ->%Nat.eqb_eq). by apply list_elem_of_In.
    - apply bool_decide_eq_false. intros Hin. rewrite <- not_true_iff_false in He. apply He, existsb_exists.
      exists i. split; [by apply list_elem_of_In|apply Nat.eqb_refl]. }
  split.
  - rewrite reduced_true. apply list_eq. intros i. rewrite list_lookup_imap, Hex.
    pose proof (Forall2_length _ _ _ Hp) as Hl.
    destruct (t !! i) as [g|] eqn:Hg; simpl; [|symmetry; apply lookup_ge_None_2; apply lookup_ge_None_1 in Hg; lia].
    destruct (Forall2_lookup_r _ _ _ _ _ Hp Hg) as (p & Hpi & Hpg). pose proof (Forall_lookup_1 _ _ _ _ Ht Hg) as Hg0.
    rewrite Hpi. f_equal. case_bool_decide as Hd; rewrite elem_reduce_axes in Hd.
    + destruct Hd as (p' & g' & ? & ? & -> & _). congruence.
    + destruct Hpg as [->| ->]; [done|]. destruct (decide (g = 1)); [done|].
      destruct Hd. exists 1, g. split_and!; try done. simpl in Hg0. lia.
  - intros idx Hr. rewrite reduced_true. apply list_eq. intros i. rewrite list_lookup_imap, lookup_zip_with, Hex.
    destruct (idx !! i) as [c|] eqn:Hc; simpl; [|by destruct (padded !! i)].
    destruct (Forall2_lookup_r _ _ _ _ _ Hr Hc) as (g & Hg & Hcg).
    destruct (Forall2_lookup_r _ _ _ _ _ Hp Hg) as (p & Hpi & Hpg). rewrite Hpi. simpl. f_equal.
    case_bool_decide as Hd; rewrite elem_reduce_axes in Hd.
    + destruct Hd as (p' & g' & ? & ? & -> & _). by simplify_eq.
    + destruct (Z.eqb_spec p 1) as [->|]; [|done]. destruct (decide (1 < g)); [|lia].
      destruct Hd. by exists 1, g.
Qed.

Lemma unravel_ones k s i : 0 ≤ i < zprod s → unravel (replicate k 1 ++ s) i = replicate k 0 ++ unravel s i.
Proof.
  intros Hi. induction k as [|k IH]; [done|]. simpl.
  assert (zprod (replicate k 1 ++ s) = zprod s) as ->.
  { clear. induction k as [|k IH]; [done|]. simpl. rewrite zprod_cons, IH. lia. }
  by rewrite Z.div_small, (Z.mod_small i), IH by done.
Qed.

Lemma zprod_ones k s : zprod (replicate k 1 ++ s) = zprod s.
Proof. induction k as [|k IH]; [done|]. simpl. rewrite zprod_cons, IH. lia. Qed.

Lemma elements_ones k s g : elements (replicate k 1 ++ s) g = elements s (λ q, g (replicate k 0 ++ q)).
Proof.
  unfold elements. rewrite zprod_ones. apply list_fmap_ext. intros j i Hi%lookup_seq.
  by rewrite unravel_ones by lia.
Qed.

Lemma fits_alloc_ones k s T : fits_alloc s T → fits_alloc (replicate k 1 ++ s) T.
Proof.
  intros [[Hw Hm] Hb]. split; [|by rewrite zprod_ones]. split.
  - apply Forall_app. split; [|done]. apply Forall_replicate. unfold uint. lia.
  - rewrite fmap_app, fmap_replicate. change (Z.max 1 1) with 1. by rewrite zprod_ones.
Qed.

(** The target padded to the rank of the gradient *)
Definition padded (t s : Shape) : Shape := replicate (length t - length s) 1 ++ s.

Lemma padded_expandable t s : expandable s t ↔
  (length s ≤ length t)%nat ∧ Forall2 (λ p g, p = g ∨ p = 1) (padded t s) t.
Proof.
  rewrite expandable_tail. split; intros [Hl H]; (split; [done|]); unfold padded in *.
  - rewrite <- (take_drop (length t - length s) t) at 2. apply Forall2_app; [|done].
    apply Forall2_same_length_lookup_2; [rewrite length_replicate, length_take; lia|].
    intros i a b Ha _. apply lookup_replicate in Ha as [-> _]. by right.
  - apply Forall2_app_inv_l in H as (t1 & t2 & Ht1 & Ht2 & ->).
    pose proof (Forall2_length _ _ _ Ht1) as Hl1. rewrite length_replicate in Hl1.
    rewrite Hl1, drop_app_length. done.
Qed.

#[export] Instance expandable_dec s t : Decision (expandable s t).
Proof.
  refine (cast_if (decide ((length s ≤ length t)%nat ∧ Forall2 (λ p g, p = g ∨ p = 1) (padded t s) t)));
    by rewrite padded_expandable.
Defined.

Lemma padded_check t s : (length s ≤ length t)%nat →
  existsb (λ gt, negb (gt.2 =? 1) && negb (gt.2 =? gt.1)) (zip t (padded t s)) = negb (bool_decide (expandable s t)).
Proof.
  intros Hl. destruct (existsb _ _) eqn:He; symmetry.
  - apply negb_true_iff, bool_decide_eq_false. intros [_ H]%padded_expandable.
    apply existsb_exists in He as ([g p] & Hin & Hb). apply list_elem_of_In, list_elem_of_lookup in Hin as [i Hi].
    rewrite lookup_zip_with_Some in Hi. destruct Hi as (g' & p' & [= -> ->] & Hg & Hp).
    pose proof (Forall2_lookup_lr _ _ _ _ _ _ H Hp Hg) as Hor. simpl in Hb.
    apply andb_true_iff in Hb as [?%negb_true_iff%Z.eqb_neq ?%negb_true_iff%Z.eqb_neq]. simpl in Hor. lia.
  - apply negb_false_iff, bool_decide_eq_true, padded_expandable. split; [done|].
    apply Forall2_same_length_lookup_2; [unfold padded; rewrite length_app, length_replicate; lia|].
    intros i p g Hp Hg. destruct (Z.eq_dec p 1), (Z.eq_dec p g); [by auto..|].
    rewrite <- not_true_iff_false in He. destruct He. apply existsb_exists. exists (g, p). split.
    + apply list_elem_of_In, list_elem_of_lookup. exists i. rewrite lookup_zip_with_Some. by exists g, p.
    + cbn. by rewrite !(proj2 (Z.eqb_neq _ _)) by done.
Qed.

(** The positions of the padded target that a position of the gradient maps to *)
Lemma padded_source s t idx : expandable s t → in_range t idx →
  zip_with (λ d i, if d =? 1 then 0 else i) (padded t s) idx =
  replicate (length t - length s) 0 ++ source_index s idx.
Proof.
  intros [Hl _] Hr. pose proof (in_range_length _ _ Hr) as Hlen. unfold padded, source_index. rewrite Hlen.
  set (k := (length t - length s)%nat). rewrite <- (take_drop k idx) at 1.
  rewrite zip_with_app by (rewrite length_replicate, length_take; lia). f_equal.
  apply list_eq. intros i. rewrite lookup_zip_with. destruct (decide (i < k)%nat) as [Hi|Hi].
  - rewrite !(proj2 (lookup_replicate _ _ _ _)) by done. simpl.
    destruct (lookup_lt_is_Some_2 (take k idx) i) as [c ->]; [rewrite length_take; lia|]. done.
  - by rewrite (lookup_ge_None_2 (replicate k 1)), (lookup_ge_None_2 (replicate k 0))
      by (rewrite length_replicate; lia).
Qed.

Section unbroadcast.
Context (oom : Z → bool) (junk : Z → Z → list Z).
Hypothesis junk_len : ∀ p n, 0 ≤ n → Z.of_nat (length (junk p n)) = n.
Hypothesis no_oom : ∀ n, oom n = false.

Lemma reshape_spec w src shape :
  tensor_wf w src → dense_as F32 src → zprod shape = zprod (t_shape src) → fits_alloc shape F32 →
  ∃ w' t, reshape oom junk w src shape = Ok (w', t) ∧ fresh_tensor w w' t F32 shape (shape_order w src).
Proof using junk_len no_oom.
  intros Hwf Hd Hz Hfit. pose proof (shape_fits_prod _ (proj1 Hfit)). unfold reshape.
  rewrite product_u_small, (t_numel_fits w src Hwf), Hz, Z.eqb_refl by (unfold uint; lia). cbn [negb].
  rewrite slice_of_spec, decide_True by done. cbn [rbind ok_or].
  destruct (from_vec_typed_ok oom junk junk_len w F32 shape (shape_order w src) (proj1 Hwf) (proj1 Hfit) (proj2 Hfit))
    as (w' & t & -> & Hf); [|done| |by exists w', t].
  - rewrite <- (proj1 Hd). apply shape_order_wf, Hwf.
  - rewrite length_shape_order, <- Hz. lia.
Qed.

Lemma extends_keeps w w' : world_wf w' → extends w w' → keeps w w'.
Proof using Type. intros Hw He. split; [done|]. intros s Hs. destruct (He s Hs) as (? & ? & ->). done. Qed.

(** The gradient that reaches an element: the sum over the positions of the
    broadcast that read it, in row-major order; its only element when no axis was broadcast *)
Definition unbroadcast_value (w : World) (grad : Tensor) (s : Shape) (q : list Z) : Z :=
  if bool_decide (t_shape grad = padded (t_shape grad) s) then
    element w grad (replicate (length (t_shape grad) - length s) 0 ++ q)
  else foldl (fadd binary32) 0
    (element w grad <$> filter (λ idx, source_index s idx = q) (indices (t_shape grad))).

Definition unbroadcast_post (w : World) (grad : Tensor) (s : Shape) (w' : World) (r : Tensor) : Prop :=
  keeps w w' ∧ tensor_wf w' r ∧ t_dtype r = F32 ∧ t_shape r = s ∧
  ∀ q, in_range s q → element w' r q = unbroadcast_value w grad s q.

Lemma reduce_axes_nil t s : Forall2 (λ p g, p = g ∨ p = 1) (padded t s) t → Forall (λ d, 0 < d) t →
  reduce_axes (padded t s) t = [] ↔ t = padded t s.
Proof using Type.
  intros Hp Ht. destruct (reduce_axes_spec _ _ Hp Ht) as [Hr _]. split; intros H.
  - rewrite H, reduced_true in Hr. rewrite <- Hr at 1. apply list_eq. intros i. rewrite list_lookup_imap.
    by destruct (t !! i).
  - destruct (reduce_axes (padded t s) t) as [|i l] eqn:Ha; [done|].
    assert (i ∈ reduce_axes (padded t s) t) as Hi by (rewrite Ha; by left).
    apply elem_reduce_axes in Hi as (p & g & Hpi & Hg & -> & Hlt). rewrite <- H in Hpi. simplify_eq. lia.
Qed.

(** The reduction over the broadcast axes, keeping them *)
Lemma reduce_broadcast w grad s :
  tensor_wf w grad → t_dtype grad = F32 → Forall (λ d, 0 < d) (t_shape grad) →
  expandable s (t_shape grad) → fits_alloc s F32 → 0 < zprod s →
  let axes := reduce_axes (padded (t_shape grad) s) (t_shape grad) in
  match sum_dim oom junk w grad axes true with
  | Ok (w', r) => made w w' r F32 (padded (t_shape grad) s)
      (λ q, foldl (fadd binary32) 0 (element w grad <$>
         filter (λ idx, replicate (length (t_shape grad) - length s) 0 ++ source_index s idx = q) (indices (t_shape grad))))
  | _ => False
  end.
Proof using junk_len no_oom.
  intros Hwf HT Hpos Hexp Hfit Hs axes. apply padded_expandable in Hexp as Hp. destruct Hp as [Hl Hp].
  destruct (reduce_axes_spec _ _ Hp Hpos) as [Hr Hri]. fold axes in Hr, Hri.
  assert (Forall (λ d, (d < length (t_shape grad))%nat) axes) as Hax.
  { apply Forall_forall. intros i (p & g & _ & Hg & _)%elem_reduce_axes. by eapply lookup_lt_Some. }
  pose proof (sum_dim_spec oom junk junk_len w grad Hwf ltac:(by rewrite HT) axes true Hax) as Hsum.
  cbv zeta in Hsum. rewrite Hr, HT in Hsum. unfold padded in Hsum at 1 2.
  rewrite zprod_ones in Hsum. specialize (Hsum (fits_alloc_ones _ _ _ Hfit) Hs).
  destruct (sum_dim oom junk w grad axes true) as [[w' r]|[]|]; try done.
  destruct Hsum as (H1 & H2 & H3 & H4 & H5 & H6 & Hel). do 6 (split; [done|]).
  intros q Hq. rewrite Hel by done. unfold folded. do 2 f_equal.
  apply filter_iff_in. intros idx Hi%elem_indices; [|by eapply tensor_shape_nonneg].
  by rewrite Hri, padded_source.
Qed.


Lemma made_keeps w w' t U shape g : made w w' t U shape g → keeps w w'.
Proof using Type. intros (Hwf & _ & _ & _ & _ & [He _] & _). apply extends_keeps; [apply Hwf|done]. Qed.

(** Dropping a clone that another tensor was built from *)
Lemma clone_then_drop w grad w2 r U shape data :
  tensor_wf w grad → fresh_tensor (clone_storage w (t_storage grad)) w2 r U shape data →
  keeps w (drop_tensor w2 grad) ∧ tensor_wf (drop_tensor w2 grad) r ∧
  ∀ idx, element (drop_tensor w2 grad) r idx = element w2 r idx.
Proof using Type.
  intros Hwf Hf. pose proof Hwf as (Hw & Hh & _).
  pose proof (clone_keeps w _ Hw Hh) as [Hw1 Hk1]. destruct (Hk1 _ Hh) as (Hh1 & _ & _).
  destruct Hf as (Hwr & _ & _ & _ & _ & _ & _ & _ & _ & _ & Hext & Hne).
  destruct (Hext _ Hh1) as (Hh2 & _ & Hc2). destruct (clone_storage_count w _ Hh) as [Hc1 _].
  pose proof (handle_count w _ Hw Hh).
  destruct (drop_shared w2 (t_storage grad) (proj1 Hwr) Hh2 ltac:(lia)) as [Hw3 Hd]. unfold drop_tensor.
  destruct Hwr as (Hw2 & Hhr & Hlr & Hbr). destruct (Hd _ Hhr) as (Hh3 & Hb3 & _).
  split; [|split].
  - split; [done|]. intros s Hs. destruct (Hk1 s Hs) as (Hs1 & Hb1 & Hcs1).
    destruct (Hext s Hs1) as (Hs2 & Hbs2 & Hcs2). destruct (Hd s Hs2) as (Hs3 & Hbs3 & Hcs3).
    split; [done|]. split; [congruence|]. rewrite Hcs3, Hcs2.
    destruct (decide (st_arc s = st_arc (t_storage grad))) as [He|]; [|lia].
    assert (∀ w', strong_count w' s = strong_count w' (t_storage grad)) as Hsame
      by (intros; unfold strong_count; by rewrite He).
    rewrite !Hsame in *. lia.
  - split_and!; [done|done|done|by rewrite Hb3].
  - intros idx. unfold element. by rewrite Hb3.
Qed.

Lemma unbroadcast_spec w grad s :
  tensor_wf w grad → t_dtype grad = F32 → Forall (λ d, 0 < d) (t_shape grad) →
  expandable s (t_shape grad) → fits_alloc s F32 → 0 < zprod s →
  (t_shape grad = padded (t_shape grad) s → t_shape grad ≠ s → dense_as F32 grad) →
  ∃ w' r, unbroadcast_to oom junk w grad s = Ok (w', r) ∧ unbroadcast_post w grad s w' r.
Proof using junk_len no_oom.
  intros Hwf HT Hpos Hexp Hfit Hs Hdense. pose proof Hexp as [Hl Hp]%padded_expandable.
  pose proof Hwf as (Hw & Hh & _). pose proof (clone_keeps w _ Hw Hh) as Hck.
  destruct (keeps_tensor _ _ _ Hck Hwf) as [Hcw Hce].
  unfold unbroadcast_to. cbv zeta. case_bool_decide as Heq.
  { exists (clone_storage w (t_storage grad)), grad. split; [done|]. split_and!; try done.
    intros q Hq. rewrite Hce. unfold unbroadcast_value, padded. rewrite Heq, Nat.sub_diag. simpl.
    by rewrite bool_decide_eq_true_2. }
  rewrite (proj2 (Nat.ltb_ge _ _)) by done. fold (padded (t_shape grad) s).
  rewrite padded_check, bool_decide_eq_true_2 by done. cbn [negb].
  destruct (decide (t_shape grad = padded (t_shape grad) s)) as [Hpad|Hpad].
  - rewrite (bool_decide_eq_true_2 (reduce_axes _ _ = [])) by (by apply reduce_axes_nil).
    cbn [Tensor_clone rbind]. rewrite bool_decide_eq_false_2 by done.
    destruct (reshape_spec (clone_storage w (t_storage grad)) grad s Hcw (Hdense Hpad Heq)) as (w2 & r & -> & Hf);
      [by rewrite Hpad; unfold padded; rewrite zprod_ones|done|].
    cbn [rbind]. destruct (clone_then_drop w grad w2 r _ _ _ Hwf Hf) as (Hk & Hwr & He).
    exists (drop_tensor w2 grad), r. split; [done|]. split; [done|]. split; [done|].
    assert (∀ g, elements (t_shape grad) g = elements s (λ q, g (replicate (length (t_shape grad) - length s) 0 ++ q))) as Hrow.
    { intros g. rewrite <- elements_ones. by f_equal. }
    rewrite shape_order_elements, Hrow in Hf.
    apply fresh_made in Hf as (_ & Hdr & Hsr & _ & _ & _ & Her). split; [done|]. split; [done|].
    intros q Hq. rewrite He, Her, Hce by done. unfold unbroadcast_value. by rewrite bool_decide_eq_true_2.
  - rewrite (bool_decide_eq_false_2 (reduce_axes _ _ = [])) by (by rewrite reduce_axes_nil).
    pose proof (reduce_broadcast w grad s Hwf HT Hpos Hexp Hfit Hs) as Hred. cbv zeta in Hred.
    destruct (sum_dim _ _ _ _ _ _) as [[w1 red]|e|]; [|done|done]. cbn [rbind].
    pose proof Hred as (Hwr & Hdr & Hsr & Hlr & _ & _ & Her).
    assert (∀ q, in_range s q → element w1 red (replicate (length (t_shape grad) - length s) 0 ++ q) =
      unbroadcast_value w grad s q) as Hval.
    { intros q Hq. rewrite Her.
      - unfold unbroadcast_value. rewrite bool_decide_eq_false_2 by done. do 2 f_equal.
        apply filter_iff_in. intros idx _. split; [intros ?%(inj _); done|by intros ->].
      - unfold padded. apply Forall2_app; [|done]. apply Forall2_replicate. lia. }
    case_bool_decide as Hsame.
    + exists w1, red. split; [done|]. split; [by eapply made_keeps|]. split_and!; try done.
      intros q Hq. rewrite <- Hval by done. f_equal. rewrite Hsr in Hsame. unfold padded in Hsame.
      apply (f_equal length) in Hsame. rewrite length_app, length_replicate in Hsame.
      by replace (length (t_shape grad) - length s)%nat with 0%nat by lia.
    + destruct (reshape_spec w1 red s Hwr) as (w2 & r & -> & Hf); [| |done|].
      { split; [done|]. unfold t_is_contiguous. by rewrite Hlr. }
      { rewrite Hsr. unfold padded. by rewrite zprod_ones. }
      cbn [rbind]. rewrite shape_order_elements, Hsr in Hf. unfold padded in Hf. rewrite elements_ones in Hf.
      apply fresh_made in Hf. pose proof (made_drop _ _ _ _ _ _ _ _ _ _ _ Hred Hf) as Hm.
      exists (drop_tensor w2 red), r. split; [done|]. split; [by eapply made_keeps|].
      destruct Hm as (H1 & H2 & H3 & _ & _ & _ & H6). split_and!; try done.
      intros q Hq. by rewrite H6, Hval.
Qed.
End unbroadcast.

(** The comparisons are strict partial orders. *)
Lemma num_gt_order d : num_dtype d = true →
  (∀ x, num_gt d x x = false) ∧
  (∀ x y z, num_gt d x y = true → num_gt d y z = true → num_gt d x z = true) ∧
  (∀ x, num_lt d x x = false) ∧
  (∀ x y z, num_lt d x y = true → num_lt d y z = true → num_lt d x z = true).
Proof.
  intros _. unfold num_lt, num_gt. destruct (dtype_format d) as [f|].
  - unfold fltb. split; [|split; [|split]]; intros; try apply SFltb_irrefl; by eapply SFltb_trans.
  - split; [|split; [|split]]; intros; rewrite ?Z.ltb_lt, ?Z.ltb_irrefl in *; lia || done.
Qed.

(** ** Properties *)

(** The first axis out of range is refused. *)
Lemma validate_dims_err src pre d post : Forall (λ d, (d < length (t_shape src))%nat) pre → (length (t_shape src) ≤ d)%nat →
  validate_dims src (pre ++ d :: post) = Err (BIndexOutOfBounds (Z.of_nat d) (Z.of_nat (length (t_shape src)))).
Proof.
  intros Hpre Hd. unfold validate_dims. enough (List.find (λ d, (length (t_shape src) <=? d)%nat) (pre ++ d :: post) = Some d) as -> by done.
  induction Hpre as [|d0 pre Hd0 _ IH]; simpl; [by rewrite (proj2 (Nat.leb_le _ _))|].
  by rewrite (proj2 (Nat.leb_gt _ _)).
Qed.

(** C33: A reduction over a list of axes in range, of an f32, f64, i64 or i32 tensor whose
    result has at least one element and fits the machine, folds, for every output element,
    the source elements whose coordinates agree with it off those axes, in row-major order:
    [sum_dim] adds them from 0 (also through the shortcut for dense matrices, which gives
    the same bits), [mean_dim] of distinct axes, none empty, of a float tensor divides that
    sum by the product of their sizes (both for floats when the tensor has at most 1024
    elements, for integers always), [max_dim] and [min_dim] fold the maximum and the
    minimum of an axis.  The result is a fresh contiguous tensor and the only error an
    allocation that fails.  The first axis out of range in the list is refused. *)
Theorem reduce_correct oom junk w src dims keepdim :
  (∀ p n, 0 ≤ n → Z.of_nat (length (junk p n)) = n) → tensor_wf w src →
  let T := t_dtype src in let shape := t_shape src in let out_shape := reduced keepdim dims 1 shape in
  num_dtype T = true →
  (Forall (λ d, (d < length shape)%nat) dims → fits_alloc out_shape T → 0 < zprod out_shape →
    let post f r := driver_post oom w T out_shape f r in
    let fold op init q :=
      foldl op init (element w src <$> filter (λ idx, reduced keepdim dims 0 idx = q) (indices shape)) in
    ((T ∈ [F32; F64] → zprod shape ≤ 1024) → post (fold (num_add T) 0) (sum_dim oom junk w src dims keepdim)) ∧
    (∀ f, T ∈ [F32; F64] → dtype_format T = Some f → zprod shape ≤ 1024 → NoDup dims →
      let n := product_u 64 ((λ d, shape !!! d) <$> dims) in n ≠ 0 →
      post (λ q, fdiv f (fold (fadd f) 0 q) (fof_int f n)) (mean_dim oom junk w src dims keepdim)) ∧
    (∀ dim, dims = [dim] →
      post (fold (num_max T) (num_lowest T)) (max_dim oom junk w src dim keepdim) ∧
      post (fold (num_min T) (num_highest T)) (min_dim oom junk w src dim keepdim))) ∧
  (∀ pre d after, dims = pre ++ d :: after → Forall (λ d, (d < length shape)%nat) pre → (length shape ≤ d)%nat →
    let e := Err (BIndexOutOfBounds (Z.of_nat d) (Z.of_nat (length shape))) in
    sum_dim oom junk w src dims keepdim = e ∧ mean_dim oom junk w src dims keepdim = e ∧
    max_dim oom junk w src d keepdim = e ∧ min_dim oom junk w src d keepdim = e).
Proof.
  intros Hj Hwf T shape out_shape HN. split.
  - intros Hd Hfit Hpos post fold. split; [|split].
    + intros _. by apply sum_dim_spec.
    + intros f HT Hf _ _ n Hn. by apply (mean_dim_spec oom junk Hj w src dims keepdim f).
    + intros dim ->. apply Forall_cons in Hd as [Hd _]. unfold max_dim, min_dim.
      rewrite validate_dim_ok by done. cbn [rbind]. cbv zeta. fold T. rewrite HN.
      split; (apply extremum_spec; [done|done|done|done|auto|done|done]).
  - intros pre d after -> Hpre Hd e. unfold sum_dim, mean_dim, max_dim, min_dim, validate_dim.
    rewrite validate_dims_err by done. cbn [rbind]. fold shape. by rewrite (proj2 (Nat.leb_le _ _)).
Qed.

(** The kernels that walk the lines of an axis: [cumsum] and [cumprod] leave
    at every position the fold of the line up to it; [argmax] and [argmin] give
    the index of the first element of the line that no other is greater (less)
    than, NaN being neither; a removed axis and a kept one of size 1 hold the same values. *)
Theorem scan_correct oom junk w src dim n keepdim :
  (∀ p n, 0 ≤ n → Z.of_nat (length (junk p n)) = n) → tensor_wf w src →
  let T := t_dtype src in let shape := t_shape src in
  num_dtype T = true → shape !! dim = Some n → Forall (λ d, 0 < d) shape →
  (fits_alloc shape T →
    let fold op init idx := foldl op init (take (S (Z.to_nat (idx !!! dim))) (line w src dim idx)) in
    driver_post oom w T shape (fold (num_add T) 0) (cumsum oom junk w src dim) ∧
    driver_post oom w T shape (fold (num_mul T) (num_one T)) (cumprod oom junk w src dim)) ∧
  (fits_alloc (lines_shape keepdim dim shape) I64 →
    ∀ better r, (better = num_gt T ∧ r = argmax oom junk w src dim keepdim) ∨
                (better = num_lt T ∧ r = argmin oom junk w src dim keepdim) →
    ∃ best, driver_post oom w I64 (lines_shape keepdim dim shape) (λ q, Z.of_nat (best q)) r ∧
    ∀ q, let v k := element w src (at_pos dim (with_axis keepdim dim q) k) in
      (Z.of_nat (best q) < n) ∧ (∀ j, Z.of_nat j < n → better (v j) (v (best q)) = false) ∧
      (∀ j, (j < best q)%nat → v j ≠ v (best q))).
Proof.
  intros Hj Hwf T shape HN Hn Hpos. pose proof (lookup_lt_Some _ _ _ Hn) as Hlt.
  pose proof (num_consts_value T HN) as (H0 & H1 & _). split.
  - intros Hfit fold. unfold cumsum, cumprod. rewrite validate_dim_ok by done. cbn [rbind]. cbv zeta. fold T. rewrite HN.
    split; apply (cum_along_spec oom junk Hj w src Hwf dim n Hn Hpos); try done;
      intros a b Ha Hb; by apply num_ops_value.
  - intros Hfit better r Hr. destruct (num_gt_order T HN) as (Hgi & Hgt & Hli & Hlt').
    assert ((∀ x, better x x = false) ∧ (∀ x y z, better x y = true → better y z = true → better x z = true))
      as [Hirr Htr] by (by destruct Hr as [[-> _]|[-> _]]).
    pose proof (Forall_lookup_1 _ _ _ _ Hpos Hn) as Hn0. simpl in Hn0.
    exists (λ q, first_best better (Z.to_nat n) (λ k, element w src (at_pos dim (with_axis keepdim dim q) k))). split.
    + destruct Hr as [[-> ->]|[-> ->]]; unfold argmax, argmin; rewrite validate_dim_ok by done; cbn [rbind]; cbv zeta;
        fold T; rewrite HN; by apply arg_reduce_spec.
    + intros q v. destruct (first_best_spec better (Z.to_nat n) v ltac:(lia) Hirr Htr) as (Hb & Hmax & Hfst).
      split; [|split; [|exact Hfst]].
      * apply Nat2Z.inj_lt in Hb. rewrite Z2Nat.id in Hb by lia. exact Hb.
      * intros j Hjn. apply Hmax. lia.
Qed.

(** [unbroadcast_to] is the adjoint of broadcasting: for a gradient of a
    shape the target broadcasts to, every element of the result is the sum, in
    row-major order, of the gradients of the positions that read that element in
    the broadcast (with no axis broadcast, the gradient itself); nothing alive
    changes.  A target that does not broadcast to the gradient's shape is
    refused. *)
Theorem unbroadcast_adjoint oom junk w grad s :
  (∀ p n, 0 ≤ n → Z.of_nat (length (junk p n)) = n) → (∀ n, oom n = false) → tensor_wf w grad →
  (t_dtype grad = F32 → Forall (λ d, 0 < d) (t_shape grad) → expandable s (t_shape grad) →
    fits_alloc s F32 → 0 < zprod s →
    (t_shape grad = padded (t_shape grad) s → t_shape grad ≠ s → dense_as F32 grad) →
    ∃ w' r, unbroadcast_to oom junk w grad s = Ok (w', r) ∧
      keeps w w' ∧ tensor_wf w' r ∧ t_dtype r = F32 ∧ t_shape r = s ∧
      ∀ q, in_range s q → element w' r q =
        if bool_decide (t_shape grad = padded (t_shape grad) s) then
          element w grad (replicate (length (t_shape grad) - length s) 0 ++ q)
        else foldl (fadd binary32) 0
          (element w grad <$> filter (λ idx, source_index s idx = q) (indices (t_shape grad)))) ∧
  (¬ expandable s (t_shape grad) → unbroadcast_to oom junk w grad s = Err (BShapeMismatch (t_shape grad) s)).
Proof.
  intros Hj Hoom Hwf. split.
  - intros. by apply unbroadcast_spec.
  - intros Hno. unfold unbroadcast_to. case_bool_decide as Heq.
    + destruct Hno. rewrite Heq. split; [lia|]. intros i. auto.
    + destruct (Nat.ltb_spec (length (t_shape grad)) (length s)); [done|].
      fold (padded (t_shape grad) s). by rewrite padded_check, bool_decide_eq_false_2.
Qed.

(** *** Witnesses *)

Lemma reduce_correct_witness :
  ∃ w out, sum_dim no_oom ff_junk t23.1 t23.2 [1%nat] true = Ok (w, out) ∧
    t_shape out = [2; 1] ∧ element w out [1; 0] = 15.
Proof.
  destruct (reduce_correct no_oom ff_junk t23.1 t23.2 [1%nat] true ff_junk_len t23_wf eq_refl) as [H _].
  destruct H as [H _]; [repeat constructor|split; [split; [repeat constructor; vm_compute; congruence|reflexivity]|
    vm_compute; congruence]|reflexivity|].
  specialize (H (λ _, ltac:(vm_compute; congruence))).
  destruct (sum_dim no_oom ff_junk t23.1 t23.2 [1%nat] true) as [[w out]|e|] eqn:Hr; [|vm_compute in Hr; discriminate..].
  exists w, out. split; [reflexivity|]. destruct H as (_ & _ & Hs & _ & _ & _ & He). split; [exact Hs|].
  rewrite He by (apply (bool_decide_unpack _); vm_compute; exact I). vm_compute. reflexivity.
Defined.

Lemma scan_correct_witness :
  ∃ w out, cumsum no_oom ff_junk t23.1 t23.2 1 = Ok (w, out) ∧ element w out [1; 1] = 9.
Proof.
  destruct (scan_correct no_oom ff_junk t23.1 t23.2 1 3 false ff_junk_len t23_wf eq_refl eq_refl
    ltac:(apply (bool_decide_unpack _); vm_compute; exact I)) as [H _].
  destruct (H t23_fits_alloc) as [Hc _].
  destruct (cumsum no_oom ff_junk t23.1 t23.2 1) as [[w out]|e|] eqn:Hr; [|vm_compute in Hr; discriminate..].
  exists w, out. split; [reflexivity|]. destruct Hc as (_ & _ & _ & _ & _ & _ & He).
  rewrite He by (apply (bool_decide_unpack _); vm_compute; exact I). vm_compute. reflexivity.
Defined.

(** The gradient [[1, 2], [3, 4]] of a broadcast of shape [1; 2]: 4 and 6 *)
Lemma unbroadcast_adjoint_witness :
  ∃ w' r, unbroadcast_to no_oom ff_junk world_b.1 world_b.2 [2] = Ok (w', r) ∧ t_shape r = [2] ∧
    element w' r [0] = 0x40800000 ∧ element w' r [1] = 0x40c00000.
Proof.
  destruct (unbroadcast_adjoint no_oom ff_junk world_b.1 world_b.2 [2] ff_junk_len (λ _, eq_refl)
    (proj2 worlds_wf)) as [H _].
  destruct H as (w' & r & Hu & _ & _ & _ & Hs & He).
  - reflexivity.
  - apply (bool_decide_unpack _). vm_compute. exact I.
  - apply (bool_decide_unpack _). vm_compute. exact I.
  - split; [exact shape2_fits|vm_compute; congruence].
  - reflexivity.
  - intros Hp. vm_compute in Hp. discriminate.
  - exists w', r. split; [exact Hu|]. split; [exact Hs|].
    rewrite !He by (apply (bool_decide_unpack _); vm_compute; exact I). split; vm_compute; reflexivity.
Defined.

(** ** Divergences *)

(** The tensor of a shape and element bits *)
Definition built (T : Dtype) (shape : Shape) (data : list Z) : World * Tensor :=
  match from_vec_typed no_oom ff_junk World_new T shape data with
  | Ok wt => wt
  | _ => (World_new, mkTensor (mkCpuStorage 0 0) (Layout_contiguous [] F32) 0 false Cpu)
  end.

Definition on_built {A} (k : World → Tensor → A) (T : Dtype) (shape : Shape) (data : list Z) : A :=
  let wt := built T shape data in k wt.1 wt.2.

(** A sum over the second axis of a 0 x 3 tensor has no element: the general
    path reports an allocation failure. *)
Lemma sum_of_no_rows : on_built (λ w t, sum_dim no_oom ff_junk w t [1%nat] false) I32 [0; 3] [] = Err (BOutOfMemory 4).
Proof. vm_compute. reflexivity. Qed.

(** [argmax] and [cumsum] panic on tensors with an axis of size 0. *)
Lemma argmax_of_nothing : on_built (λ w t, argmax no_oom ff_junk w t 1 false) I32 [2; 0] [] = Panic.
Proof. vm_compute. reflexivity. Qed.
Lemma cumsum_of_no_rows : on_built (λ w t, cumsum no_oom ff_junk w t 1) I32 [0; 3] [] = Panic.
Proof. vm_compute. reflexivity. Qed.

(** An axis listed twice is summed once and counted twice: the mean of [1, 1] is 0.5. *)
Lemma mean_repeated_axis :
  on_built (λ w t, rmap (λ wt, shape_order wt.1 wt.2) (mean_dim no_oom ff_junk w t [0%nat; 0%nat] true))
    F32 [2] [0x3f800000; 0x3f800000] = Ok [0x3f000000].
Proof. vm_compute. reflexivity. Qed.
