(* ===== verification/ReduceReal.v ===== *)
(** * Welford's recurrence over the real numbers

    The recurrence of [var_dim] (crates/rustorch-cpu/src/kernels/reduction.rs)
    with exact arithmetic: its accumulator is the sum of squared deviations from
    the mean, in one pass over the elements. *)

From Stdlib Require Import Reals Lra.
From stdpp Require Import base list.
From S2P Require Import Reduce.

Open Scope R_scope.

#[export] Instance R_var_ops : VarOps R := mkVarOps R INR Rplus Rminus Rmult Rdiv Rmax.

Definition rtotal (l : list R) : R := foldr Rplus 0 l.
Definition rmean (l : list R) : R := rtotal l / INR (length l).
(** The sum of squared deviations from the mean *)
Definition deviations (l : list R) : R := rtotal ((λ v, (v - rmean l) * (v - rmean l)) <$> l).

Lemma rtotal_app l l' : rtotal (l ++ l') = rtotal l + rtotal l'.
Proof. unfold rtotal. induction l as [|x l IH]; simpl; [lra|rewrite IH; lra]. Qed.

Lemma rtotal_one x : rtotal [x] = x.
Proof. unfold rtotal. simpl. lra. Qed.

Lemma rtotal_squares l m :
  rtotal ((λ v, (v - m) * (v - m)) <$> l) =
  rtotal ((λ v, v * v) <$> l) - 2 * m * rtotal l + INR (length l) * (m * m).
Proof.
  induction l as [|x l IH]; [unfold rtotal; simpl; lra|].
  rewrite !fmap_cons. change (length (x :: l)) with (S (length l)). rewrite S_INR.
  unfold rtotal in *. simpl foldr. rewrite IH. lra.
Qed.

Lemma deviations_squares l : l ≠ [] →
  deviations l = rtotal ((λ v, v * v) <$> l) - rtotal l * rtotal l / INR (length l).
Proof.
  intros Hl. unfold deviations, rmean. rewrite rtotal_squares.
  assert (INR (length l) ≠ 0) by (apply not_0_INR; by destruct l). field. done.
Qed.

Lemma welford_fold vs : vs ≠ [] →
  foldl welford_step (v_of_nat 0, v_of_nat 0) (imap pair vs) = (rmean vs, deviations vs).
Proof.
  induction vs as [|x vs IH] using rev_ind; [done|]. intros _.
  destruct (decide (vs = [])) as [->|Hne].
  - unfold rmean, deviations, rmean, rtotal. simpl. f_equal; field.
  - remember vs as l eqn:Hl. clear Hl. rewrite imap_app, foldl_app, IH by done.
    cbn [imap foldl compose]. rewrite Nat.add_0_r. unfold welford_step. cbn [v_of_nat v_add v_sub v_mul v_div R_var_ops].
    assert (INR (length l) ≠ 0) as Hn by (apply not_0_INR; by destruct l).
    assert (0 < INR (length l) + 1) as Hn1 by (pose proof (pos_INR (length l)); lra).
    assert (rmean (l ++ [x]) = rmean l + (x - rmean l) / (INR (length l) + INR 1)) as <-.
    { unfold rmean. rewrite rtotal_app, rtotal_one, length_app, plus_INR. simpl (INR _). field. split; lra. }
    f_equal. rewrite !deviations_squares by (done || by destruct l). unfold rmean.
    rewrite fmap_app, !rtotal_app, rtotal_one, length_app, plus_INR. simpl (INR (length [x])).
    change ((λ v : R, v * v) <$> [x]) with [x * x]. rewrite rtotal_one. field. split; lra.
Qed.

(** In exact arithmetic Welford's one-pass recurrence is the two-pass
    variance: [var_dim] divides the sum of the squared deviations from the mean
    by the number of elements, or by one less (but at least 1) when unbiased. *)
Theorem welford_variance unbiased (vs : list R) :
  welford_line unbiased vs =
  deviations vs / (if unbiased then Rmax (INR (length vs) - 1) 1 else INR (length vs)).
Proof.
  unfold welford_line. destruct (decide (vs = [])) as [->|Hne].
  - unfold deviations, rtotal. simpl. by destruct unbiased.
  - by rewrite welford_fold.
Qed.
