(* ===== verification/IndexOps.v ===== *)
(** * Indexing and masking kernels of the backend
      (crates/rustorch-cpu/src/cpu_backend.rs)

    [gather] and [scatter] move elements along an axis by an index tensor,
    [masked_fill], [where], [masked_select] and [nonzero] select by a mask, and
    the comparisons build masks.  The theorems say what every element of a result
    is, in which order several writes to one element happen, and which index
    values are refused. *)

From Stdlib Require Import ZArith Lia.
From stdpp Require Import base list gmap.
From S2P Require Import Prelude Loops Dtype Float Shape Layout Storage Tensor View Mutate Iterator Conv ShapeOps Reduce.

Open Scope Z_scope.

(** [enum CmpKind] *)
Inductive CmpKind := CEq | CNe | CLt | CLe | CGt | CGe.

Section kernels.
Context (oom : Z → bool) (junk : Z → Z → list Z).

(** ** Comparisons *)

Definition cmp_dtype (d : Dtype) : bool :=
  match d with F32 | F64 | I64 | I32 | I8 | DBool => true | _ => false end.

(** The comparison of two elements of a dtype; nothing is related to NaN but by [!=]. *)
Definition cmp_elem (kind : CmpKind) (d : Dtype) (a b : Z) : bool :=
  let eq := match dtype_format d with Some f => feqb f a b | None => a =? b end in
  let lt a b :=
    match dtype_format d, d with
    | Some f, _ => fltb f a b
    | None, DBool => a <? b
    | None, _ => of_twos (bits d) a <? of_twos (bits d) b
    end in
  match kind with
  | CEq => eq
  | CNe => negb eq
  | CLt => lt a b
  | CLe => lt a b || eq
  | CGt => lt b a
  | CGe => lt b a || eq
  end.

Definition cmp (kind : CmpKind) (w : World) (lhs rhs : Tensor) : res BackendError (World * Tensor) :=
  let d := t_dtype lhs in
  if negb (bool_decide (d = t_dtype rhs)) then Err (BDtypeMismatch d (t_dtype rhs))
  else if cmp_dtype d then map_binary oom junk d DBool (λ a b, bool_bit (cmp_elem kind d a b)) w lhs rhs
  else Err (BDtypeMismatch d d).

(** ** gather, scatter *)

(** The position of the source or destination that an index value names *)
Definition axis_source (strides : list Z) (dim : nat) (coords : list Z) (j : Z) : nat :=
  Z.to_nat (wrap 64 (dot (<[dim := j]> coords) strides)).

Definition gather_typed (w : World) (src : Tensor) (dim : nat) (idx : Tensor) : res BackendError (World * Tensor) :=
  let out_shape := t_shape idx in
  let n_out := product_u 64 out_shape in
  let? src_dim_size := Conv.dim (t_shape src) dim in
  let? src_typed := collect w src (t_dtype src) in
  let? idx_typed := collect w idx I64 in
  let src_strides := contiguous_strides (t_shape src) in
  let? out := rmapM (λ li,
      let? coords := decode_coords (Z.of_nat li.1) out_shape in
      let i_dim := of_twos 64 li.2 in
      if (i_dim <? 0) || (src_dim_size <=? i_dim) then Err (BIndexOutOfBounds i_dim src_dim_size)
      else
        unwrap_opt (src_typed !! axis_source src_strides dim coords i_dim))
    (take (Z.to_nat n_out) (imap pair idx_typed)) in
  finish oom junk w (t_dtype src) out_shape n_out out.

Definition gather (w : World) (src : Tensor) (dim : nat) (idx : Tensor) : res BackendError (World * Tensor) :=
  if negb (bool_decide (t_dtype idx = I64)) then Err (BDtypeMismatch (t_dtype idx) I64)
  else if negb (length (t_shape src) =? length (t_shape idx))%nat then
    Err (BShapeMismatch (t_shape src) (t_shape idx))
  else if (length (t_shape src) <=? dim)%nat then
    Err (BIndexOutOfBounds (Z.of_nat dim) (Z.of_nat (length (t_shape src))))
  else if num_dtype (t_dtype src) then gather_typed w src dim idx
  else Err (BDtypeMismatch (t_dtype src) (t_dtype src)).

(** [scatter_typed] *)
Definition scatter_typed (w : World) (dst : Tensor) (dim : nat) (idx src : Tensor) (accumulate : bool)
    (add : Z → Z → Z) : res BackendError (World * Tensor) :=
  let dst_shape := t_shape dst in
  let? dst_typed := collect w dst (t_dtype dst) in
  let? idx_typed := collect w idx I64 in
  let? src_typed := collect w src (t_dtype dst) in
  let dst_strides := contiguous_strides dst_shape in
  let? dst_dim_size := Conv.dim dst_shape dim in
  let? out := for_range (Z.to_nat (t_numel idx)) (λ out linear,
      let? coords := decode_coords (Z.of_nat linear) (t_shape idx) in
      let? i := unwrap_opt (idx_typed !! linear) in
      let i_dim := of_twos 64 i in
      if (i_dim <? 0) || (dst_dim_size <=? i_dim) then Err (BIndexOutOfBounds i_dim dst_dim_size)
      else
        let dst_linear := axis_source dst_strides dim coords i_dim in
        let? v := unwrap_opt (src_typed !! linear) in
        if accumulate then
          let? cur := unwrap_opt (out !! dst_linear) in
          put out dst_linear (add cur v)
        else put out dst_linear v)
    dst_typed in
  finish oom junk w (t_dtype dst) dst_shape (t_numel dst) out.

Definition scatter_dispatch (w : World) (dst : Tensor) (dim : nat) (idx src : Tensor) (accumulate : bool)
    : res BackendError (World * Tensor) :=
  if negb (bool_decide (t_dtype idx = I64)) then Err (BDtypeMismatch (t_dtype idx) I64)
  else if negb (bool_decide (t_dtype dst = t_dtype src)) then Err (BDtypeMismatch (t_dtype dst) (t_dtype src))
  else if negb (length (t_shape dst) =? length (t_shape idx))%nat
          || negb (length (t_shape dst) =? length (t_shape src))%nat then
    Err (BShapeMismatch (t_shape dst) (t_shape idx))
  else if (length (t_shape dst) <=? dim)%nat then
    Err (BIndexOutOfBounds (Z.of_nat dim) (Z.of_nat (length (t_shape dst))))
  else if negb (bool_decide (t_shape idx = t_shape src)) then Err (BShapeMismatch (t_shape idx) (t_shape src))
  else if num_dtype (t_dtype dst) then
    scatter_typed w dst dim idx src accumulate (num_add (t_dtype dst))
  else Err (BDtypeMismatch (t_dtype dst) (t_dtype dst)).

Definition scatter (w : World) (dst : Tensor) (dim : nat) (idx src : Tensor) :=
  scatter_dispatch w dst dim idx src false.
Definition scatter_add (w : World) (dst : Tensor) (dim : nat) (idx src : Tensor) :=
  scatter_dispatch w dst dim idx src true.

(** ** Masks *)

(** The check of a mask against the tensor it applies to *)
Definition mask_check (src mask : Tensor) : res BackendError unit :=
  if negb (bool_decide (t_dtype mask = DBool)) then Err (BDtypeMismatch (t_dtype mask) DBool)
  else if negb (bool_decide (t_shape mask = t_shape src)) then Err (BShapeMismatch (t_shape src) (t_shape mask))
  else if num_dtype (t_dtype src) then Ok tt
  else Err (BDtypeMismatch (t_dtype src) (t_dtype src)).

Definition truth (b : Z) : bool := negb (b =? 0).

Definition masked_select_typed (w : World) (src mask : Tensor) : res BackendError (World * Tensor) :=
  let? src_v := collect w src (t_dtype src) in
  let? mask_v := collect w mask DBool in
  let out := omap (λ vm, if truth vm.2 then Some vm.1 else None) (zip src_v mask_v) in
  finish oom junk w (t_dtype src) [Z.of_nat (length out)] 0 out.

Definition masked_select (w : World) (src mask : Tensor) : res BackendError (World * Tensor) :=
  let? _ := mask_check src mask in masked_select_typed w src mask.

(** [value as T] *)
Definition cast_value (d : Dtype) (value : Z) : Z :=
  match d with
  | F32 => fcast binary64 binary32 value
  | F64 => value
  | I64 => to_twos 64 (fto_sint binary64 64 value)
  | _ => to_twos 32 (fto_sint binary64 32 value)
  end.

Definition masked_fill_typed (w : World) (src mask : Tensor) (value : Z) : res BackendError (World * Tensor) :=
  let? src_v := collect w src (t_dtype src) in
  let? mask_v := collect w mask DBool in
  finish oom junk w (t_dtype src) (t_shape src) (t_numel src)
    (zip_with (λ v m, if truth m then value else v) src_v mask_v).

Definition masked_fill (w : World) (src mask : Tensor) (value : Z) : res BackendError (World * Tensor) :=
  let? _ := mask_check src mask in masked_fill_typed w src mask (cast_value (t_dtype src) value).

Definition where_typed (w : World) (cond x y : Tensor) : res BackendError (World * Tensor) :=
  let? cond_v := collect w cond DBool in
  let? x_v := collect w x (t_dtype x) in
  let? y_v := collect w y (t_dtype x) in
  finish oom junk w (t_dtype x) (t_shape x) (t_numel x)
    (zip_with (λ c xy, if truth c then xy.1 else xy.2) cond_v (zip x_v y_v)).

(** [where] *)
Definition where_ (w : World) (cond x y : Tensor) : res BackendError (World * Tensor) :=
  if negb (bool_decide (t_dtype cond = DBool)) then Err (BDtypeMismatch (t_dtype cond) DBool)
  else if negb (bool_decide (t_dtype x = t_dtype y)) then Err (BDtypeMismatch (t_dtype x) (t_dtype y))
  else if negb (bool_decide (t_shape cond = t_shape x)) || negb (bool_decide (t_shape x = t_shape y)) then
    Err (BShapeMismatch (t_shape x) (t_shape y))
  else if num_dtype (t_dtype x) then where_typed w cond x y
  else Err (BDtypeMismatch (t_dtype x) (t_dtype x)).

(** Whether an element counts as non-zero *)
Definition is_nz (d : Dtype) (b : Z) : bool :=
  match dtype_format d with
  | Some f => negb (feqb f b 0) && negb (is_nan f b)
  | None => negb (b =? 0)
  end.

Definition nonzero (w : World) (src : Tensor) : res BackendError (World * Tensor) :=
  let d := t_dtype src in
  if num_dtype d || bool_decide (d = DBool) then
    let ndim := length (t_shape src) in
    let? it := collect w src d in
    let? coords := rmapM (λ linear,
        let? v := unwrap_opt (it !! linear) in
        if is_nz d v then decode_coords (Z.of_nat linear) (t_shape src) else Ok [])
      (seq 0 (Z.to_nat (t_numel src))) in
    let acc := concat coords in
    let n := Z.of_nat (length acc / Nat.max ndim 1) in
    let final_shape := if (ndim =? 0)%nat then [n] else [n; Z.of_nat ndim] in
    map_err (λ _, BOutOfMemory (wrap 64 (wrap 64 (n * Z.of_nat ndim) * 8)))
      (from_vec_typed oom junk w I64 final_shape acc)
  else Err (BDtypeMismatch d d).
End kernels.

(** ** Positions named by an index *)

Lemma foldl_last {A} (l : list A) a : foldl (λ _ v, v) a l = default a (last l).
Proof.
  revert a. induction l as [|x l IH]; intros a; [done|]. simpl. rewrite IH. destruct l as [|y l]; [done|].
  change (last (x :: y :: l)) with (last (y :: l)). destruct (last (y :: l)) eqn:Hl; [done|].
  by apply last_None in Hl.
Qed.

Lemma driver_post_ext oom w U shape g h r :
  (∀ q, in_range shape q → g q = h q) → driver_post oom w U shape g r → driver_post oom w U shape h r.
Proof.
  intros Hgh. unfold driver_post, made. destruct r as [[w' t]|[]|]; try done.
  intros (H1 & H2 & H3 & H4 & H5 & H6 & H7). repeat (split; [done|]). intros q Hq. rewrite H7 by done. by apply Hgh.
Qed.

Section axis.
Context (w : World) (t : Tensor) (t_wf : tensor_wf w t).
Context (dim : nat) (n : Z) (dim_n : t_shape t !! dim = Some n).
Context (ishape : Shape) (same_rank : length (t_shape t) = length ishape).
Context (fits_in : ∀ i a b, i ≠ dim → t_shape t !! i = Some a → ishape !! i = Some b → b ≤ a).

Lemma named_range q j : in_range ishape q → 0 ≤ j < n → in_range (t_shape t) (<[dim := j]> q).
Proof using dim_n same_rank fits_in.
  intros Hq Hj. pose proof (Forall2_length _ _ _ Hq) as Hl. unfold in_range.
  apply Forall2_same_length_lookup_2; [rewrite length_insert; lia|].
  intros i a x Ha Hx. destruct (decide (i = dim)) as [->|Hne].
  - rewrite list_lookup_insert_eq in Hx by (apply lookup_lt_Some in dim_n; lia). by simplify_eq.
  - rewrite list_lookup_insert_ne in Hx by done.
    destruct (Forall2_lookup_r _ _ _ _ _ Hq Hx) as (b & Hb & Hxb). pose proof (fits_in i a b Hne Ha Hb). lia.
Qed.

Lemma axis_source_spec q j : in_range ishape q → 0 ≤ j < n →
  axis_source (contiguous_strides (t_shape t)) dim q j = Z.to_nat (ravel (t_shape t) (<[dim := j]> q)) ∧
  shape_order w t !! axis_source (contiguous_strides (t_shape t)) dim q j = Some (element w t (<[dim := j]> q)).
Proof using t_wf dim_n same_rank fits_in.
  intros Hq Hj. pose proof (named_range q j Hq Hj) as Hr. split; [|by apply buf_lookup].
  pose proof t_wf as (_ & _ & Hl & _). pose proof (li_fits _ _ Hl) as Hsf. fold (t_shape t) in Hsf.
  unfold axis_source. rewrite contiguous_strides_prods, dot_suffix_prods by (done || by apply in_range_length).
  pose proof (ravel_bound _ _ Hr). pose proof (shape_fits_prod _ Hsf). by rewrite wrap_small by (unfold uint; lia).
Qed.
End axis.

(** ** gather *)

Section gather.
Context (oom : Z → bool) (junk : Z → Z → list Z).
Hypothesis junk_len : ∀ p n, 0 ≤ n → Z.of_nat (length (junk p n)) = n.
Context (w : World) (src idx : Tensor) (src_wf : tensor_wf w src) (idx_wf : tensor_wf w idx).
Context (dim : nat) (n : Z) (dim_n : t_shape src !! dim = Some n).
Context (src_num : num_dtype (t_dtype src) = true) (idx_i64 : t_dtype idx = I64).
Context (same_rank : length (t_shape src) = length (t_shape idx)).
Context (fits_in : ∀ i a b, i ≠ dim → t_shape src !! i = Some a → t_shape idx !! i = Some b → b ≤ a).

(** The index value at a position *)
Definition index_at (q : list Z) : Z := of_twos 64 (element w idx q).

Definition gather_step (i : nat) : res BackendError Z :=
  let q := unravel (t_shape idx) (Z.of_nat i) in
  if (index_at q <? 0) || (n <=? index_at q) then Err (BIndexOutOfBounds (index_at q) n)
  else Ok (element w src (<[dim := index_at q]> q)).

Lemma gather_eq :
  gather oom junk w src dim idx =
  (let? out := rmapM gather_step (seq 0 (Z.to_nat (zprod (t_shape idx)))) in
   finish oom junk w (t_dtype src) (t_shape idx) (zprod (t_shape idx)) out).
Proof using src_wf idx_wf dim_n src_num idx_i64 same_rank fits_in.
  pose proof idx_wf as (_ & _ & Hl & _). pose proof (li_fits _ _ Hl) as Hf. fold (t_shape idx) in Hf.
  pose proof (shape_fits_prod _ Hf) as Hp. pose proof (tensor_shape_nonneg _ _ idx_wf) as Hnn.
  unfold gather, gather_typed. rewrite idx_i64, bool_decide_eq_true_2 by done. cbn [negb].
  rewrite (proj2 (Nat.eqb_eq _ _) same_rank). cbn [negb].
  rewrite (proj2 (Nat.leb_gt _ _)) by (by eapply lookup_lt_Some). rewrite src_num. cbv zeta.
  unfold Conv.dim. rewrite dim_n. cbn [unwrap_opt rbind]. rewrite collect_spec by done. cbn [rbind].
  rewrite <- idx_i64, collect_spec by done. cbn [rbind].
  rewrite product_u_small by (unfold uint; lia). rewrite (shape_order_elements w idx), take_ge
    by (rewrite length_imap, length_elements; lia).
  rewrite indexed_elements, rmapM_fmap. f_equal. apply rmapM_ext. intros i Hi%elem_of_seq. cbn [fst snd].
  assert (Forall (λ d, 0 < d) (t_shape idx)) as Hpos by (apply zprod_pos; [lia|done]).
  rewrite decode_coords_unravel by (done || lia). cbn [rbind]. unfold gather_step. cbv zeta.
  fold (index_at (unravel (t_shape idx) (Z.of_nat i))).
  destruct (_ || _) eqn:Hb; [done|]. apply orb_false_iff in Hb as [?%Z.ltb_ge ?%Z.leb_gt].
  rewrite (proj2 (axis_source_spec w src src_wf dim n dim_n (t_shape idx) same_rank fits_in
    (unravel (t_shape idx) (Z.of_nat i)) (index_at (unravel (t_shape idx) (Z.of_nat i))) ltac:(apply unravel_range; [done|lia]) ltac:(lia))).
  done.
Qed.

Lemma gather_ok :
  (∀ q, in_range (t_shape idx) q → 0 ≤ index_at q < n) → fits_alloc (t_shape idx) (t_dtype src) →
  driver_post oom w (t_dtype src) (t_shape idx) (λ q, element w src (<[dim := index_at q]> q))
    (gather oom junk w src dim idx).
Proof using junk_len src_wf idx_wf dim_n src_num idx_i64 same_rank fits_in.
  intros Hin Hfit. rewrite gather_eq. pose proof (tensor_shape_nonneg _ _ idx_wf) as Hnn.
  rewrite (rmapM_seq _ (λ i, element w src (<[dim := index_at (unravel (t_shape idx) (Z.of_nat i))]>
    (unravel (t_shape idx) (Z.of_nat i))))).
  - cbn [rbind]. apply (finish_spec oom junk junk_len w (t_dtype src) (t_shape idx) _
      (λ q, element w src (<[dim := index_at q]> q))); [apply src_wf|done|].
    intros q Hq. apply element_value; [done|]. by apply (named_range src dim n dim_n (t_shape idx) same_rank fits_in); [|apply Hin].
  - intros i _ Hi. unfold gather_step. cbv zeta.
    pose proof (Hin (unravel (t_shape idx) (Z.of_nat i))
      ltac:(apply unravel_range; [apply zprod_pos; [lia|done]|lia])) as Hv.
    by rewrite (proj2 (Z.ltb_ge _ _)), (proj2 (Z.leb_gt _ _)) by lia.
Qed.

Lemma gather_refuses q0 : in_range (t_shape idx) q0 → ¬ 0 ≤ index_at q0 < n →
  ∃ q, in_range (t_shape idx) q ∧ ¬ 0 ≤ index_at q < n ∧
    gather oom junk w src dim idx = Err (BIndexOutOfBounds (index_at q) n).
Proof using src_wf idx_wf dim_n src_num idx_i64 same_rank fits_in.
  intros Hq0 Hbad. rewrite gather_eq. pose proof (ravel_bound _ _ Hq0) as Hb.
  pose proof (in_range_pos _ _ Hq0) as Hpos.
  destruct (rmapM_refuses gather_step (seq 0 (Z.to_nat (zprod (t_shape idx)))) (Z.to_nat (ravel (t_shape idx) q0))
    (BIndexOutOfBounds (index_at q0) n)) as (i & e & Hi & He & ->).
  - intros i _. unfold gather_step. cbv zeta. by destruct (_ || _).
  - apply elem_of_seq. lia.
  - unfold gather_step. rewrite Z2Nat.id, unravel_ravel by (done || lia). cbv zeta.
    destruct (Z.ltb_spec (index_at q0) 0), (Z.leb_spec n (index_at q0)); done || lia.
  - apply elem_of_seq in Hi. cbn [rbind]. exists (unravel (t_shape idx) (Z.of_nat i)).
    split; [apply unravel_range; [done|lia]|]. unfold gather_step in He. cbv zeta in He.
    destruct (_ || _) eqn:Hor; [|done]. injection He as <-. split; [|done].
    apply orb_true_iff in Hor as [?%Z.ltb_lt|?%Z.leb_le]; lia.
Qed.
End gather.

(** ** scatter *)

Section scatter.
Context (oom : Z → bool) (junk : Z → Z → list Z).
Hypothesis junk_len : ∀ p n, 0 ≤ n → Z.of_nat (length (junk p n)) = n.
Context (w : World) (dst idx src : Tensor).
Context (dst_wf : tensor_wf w dst) (idx_wf : tensor_wf w idx) (src_wf : tensor_wf w src).
Context (dim : nat) (n : Z) (dim_n : t_shape dst !! dim = Some n).
Context (dst_num : num_dtype (t_dtype dst) = true) (idx_i64 : t_dtype idx = I64) (src_dtype : t_dtype src = t_dtype dst).
Context (same_rank : length (t_shape dst) = length (t_shape idx)) (same_shape : t_shape src = t_shape idx).
Context (fits_in : ∀ i a b, i ≠ dim → t_shape dst !! i = Some a → t_shape idx !! i = Some b → b ≤ a).

(** The element of the destination that the element at [q] goes to *)
Definition target (q : list Z) : list Z := <[dim := index_at w idx q]> q.

(** What several elements sent to one position leave there *)
Definition scattered (op : Z → Z → Z) (p : list Z) : Z :=
  foldl op (element w dst p) (element w src <$> filter (λ q, target q = p) (indices (t_shape idx))).

Lemma target_range q :
  in_range (t_shape idx) q → 0 ≤ index_at w idx q < n → in_range (t_shape dst) (target q).
Proof using dim_n same_rank fits_in.
  intros Hq Hv. unfold target. by apply (named_range dst dim n dim_n (t_shape idx) same_rank fits_in).
Qed.

(** One iteration of the loop of [scatter_typed] *)
Definition scatter_body (accumulate : bool) (add : Z → Z → Z) (out : list Z) (linear : nat)
    : res BackendError (list Z) :=
  let? coords := decode_coords (Z.of_nat linear) (t_shape idx) in
  let? i := unwrap_opt (shape_order w idx !! linear) in
  let i_dim := of_twos 64 i in
  if (i_dim <? 0) || (n <=? i_dim) then Err (BIndexOutOfBounds i_dim n)
  else
    let dst_linear := axis_source (contiguous_strides (t_shape dst)) dim coords i_dim in
    let? v := unwrap_opt (shape_order w src !! linear) in
    if accumulate then
      let? cur := unwrap_opt (out !! dst_linear) in
      put out dst_linear (add cur v)
    else put out dst_linear v.

(** The element of the buffer that iteration [i] changes *)
Definition target_pos (i : nat) : nat :=
  Z.to_nat (ravel (t_shape dst) (target (unravel (t_shape idx) (Z.of_nat i)))).

Lemma scatter_body_eq accumulate add out i :
  (i < Z.to_nat (zprod (t_shape idx)))%nat → length out = Z.to_nat (zprod (t_shape dst)) →
  let q := unravel (t_shape idx) (Z.of_nat i) in
  let op := if accumulate : bool then add else (λ _ v, v) in
  in_range (t_shape idx) q ∧
  scatter_body accumulate add out i =
    if (index_at w idx q <? 0) || (n <=? index_at w idx q) then Err (BIndexOutOfBounds (index_at w idx q) n)
    else Ok (alter (λ c, op c (element w src q)) (target_pos i) out).
Proof using dst_wf idx_wf src_wf dim_n same_rank same_shape fits_in.
  intros Hi Hlen q op. pose proof (tensor_shape_nonneg _ _ idx_wf) as Hnn.
  assert (Forall (λ d, 0 < d) (t_shape idx)) as Hpos by (apply zprod_pos; [lia|done]).
  assert (in_range (t_shape idx) q) as Hq by (apply unravel_range; [done|lia]). split; [done|].
  unfold scatter_body. rewrite decode_coords_unravel by (done || lia). cbn [rbind]. fold q.
  assert (∀ t, t_shape t = t_shape idx → shape_order w t !! i = Some (element w t q)) as Hlook.
  { intros t Ht. rewrite shape_order_elements, Ht. unfold elements.
    rewrite list_lookup_fmap, (proj2 (lookup_seq _ _ _ i)) by lia. done. }
  rewrite (Hlook idx), (Hlook src) by done. cbn [unwrap_opt rbind]. cbv zeta.
  fold (index_at w idx q). destruct (_ || _) eqn:Hb; [done|].
  apply orb_false_iff in Hb as [?%Z.ltb_ge ?%Z.leb_gt].
  rewrite (proj1 (axis_source_spec w dst dst_wf dim n dim_n (t_shape idx) same_rank fits_in _ _ Hq ltac:(done))).
  fold (target q). unfold target_pos. fold q.
  pose proof (ravel_bound _ _ (target_range _ Hq ltac:(lia))) as Hrb.
  assert (Z.to_nat (ravel (t_shape dst) (target q)) < length out)%nat as Hlt by lia.
  destruct (lookup_lt_is_Some_2 out _ Hlt) as [c Hc]. rewrite Hc. cbn [unwrap_opt rbind].
  unfold put. rewrite (proj2 (Nat.ltb_lt _ _)), (list_alter_insert _ _ _ _ Hc) by done. by destruct accumulate.
Qed.

Definition in_bounds : Prop := ∀ q, in_range (t_shape idx) q → 0 ≤ index_at w idx q < n.

Lemma scatter_loop accumulate add :
  in_bounds → let op := if accumulate : bool then add else (λ _ v, v) in
  for_range (Z.to_nat (zprod (t_shape idx))) (scatter_body accumulate add) (shape_order w dst) =
  Ok (elements (t_shape dst) (scattered op)).
Proof using dst_wf idx_wf src_wf dim_n same_rank same_shape fits_in.
  intros Hin op. pose proof (tensor_shape_nonneg _ _ idx_wf) as Hnn. unfold for_range.
  rewrite (rfold_pure_inv (λ out, length out = Z.to_nat (zprod (t_shape dst))) _
    (λ out i, alter (λ c, op c (element w src (unravel (t_shape idx) (Z.of_nat i)))) (target_pos i) out));
    [|by rewrite length_shape_order|].
  - f_equal.
    transitivity (foldl (λ (out : list Z) lv, alter (λ c, op c lv.2) (target_pos lv.1) out) (shape_order w dst)
      (imap pair (elements (t_shape idx) (element w src)))).
    { by rewrite indexed_elements, foldl_fmap_l. }
    destruct (decide (zprod (t_shape idx) = 0)) as [Hz|Hz].
    { unfold scattered, indices, elements. by rewrite Hz. }
    assert (∀ q, in_range (t_shape idx) q → in_range (t_shape dst) (target q)) as Ht
      by (intros; apply target_range; auto).
    apply (fold_into (t_shape idx) (t_shape dst) target op (element w dst) (element w src) Hnn); [|exact Ht].
    pose proof (zprod_nonneg _ Hnn). assert (in_range (t_shape idx) (unravel (t_shape idx) 0)) as Hq0
      by (apply unravel_range; [apply zprod_pos; [lia|done]|lia]).
    exact (in_range_pos _ _ (Ht _ Hq0)).
  - intros out i Hi%elem_of_seq Hlen. rewrite length_alter. split; [|done].
    destruct (scatter_body_eq accumulate add out i ltac:(lia) Hlen) as [Hq ->]. cbv zeta.
    pose proof (Hin _ Hq). by rewrite (proj2 (Z.ltb_ge _ _)), (proj2 (Z.leb_gt _ _)) by lia.
Qed.

Lemma scatter_dispatch_eq accumulate :
  scatter_dispatch oom junk w dst dim idx src accumulate =
  (let? out := for_range (Z.to_nat (zprod (t_shape idx))) (scatter_body accumulate (num_add (t_dtype dst)))
     (shape_order w dst) in
   finish oom junk w (t_dtype dst) (t_shape dst) (t_numel dst) out).
Proof using dst_wf idx_wf src_wf dim_n dst_num idx_i64 src_dtype same_rank same_shape.
  unfold scatter_dispatch.
  rewrite idx_i64, src_dtype, same_shape, !bool_decide_eq_true_2 by done. cbn [negb].
  rewrite (proj2 (Nat.eqb_eq _ _) same_rank). cbn [negb orb].
  rewrite (proj2 (Nat.leb_gt _ _)) by (by eapply lookup_lt_Some). rewrite dst_num.
  unfold scatter_typed. rewrite collect_spec by done. cbn [rbind]. rewrite <- idx_i64, collect_spec by done. cbn [rbind].
  rewrite <- src_dtype, collect_spec by done. cbn [rbind]. rewrite src_dtype.
  unfold Conv.dim. rewrite dim_n. cbn [unwrap_opt rbind]. rewrite (t_numel_fits w idx idx_wf). done.
Qed.

Lemma scatter_refuses accumulate q0 :
  in_range (t_shape idx) q0 → ¬ 0 ≤ index_at w idx q0 < n →
  ∃ q, in_range (t_shape idx) q ∧ ¬ 0 ≤ index_at w idx q < n ∧
    scatter_dispatch oom junk w dst dim idx src accumulate = Err (BIndexOutOfBounds (index_at w idx q) n).
Proof using dst_wf idx_wf src_wf dim_n dst_num idx_i64 src_dtype same_rank same_shape fits_in.
  intros Hq0 Hbad. rewrite scatter_dispatch_eq. pose proof (ravel_bound _ _ Hq0) as Hb.
  unfold for_range.
  destruct (rfold_refuses (λ out, length out = Z.to_nat (zprod (t_shape dst)))
    (λ i e, ∃ q, in_range (t_shape idx) q ∧ ¬ 0 ≤ index_at w idx q < n ∧ e = BIndexOutOfBounds (index_at w idx q) n)
    (scatter_body accumulate (num_add (t_dtype dst))) (seq 0 (Z.to_nat (zprod (t_shape idx))))
    (shape_order w dst) (Z.to_nat (ravel (t_shape idx) q0))) as (i & e & _ & He & q & Hq & Hv & ->).
  - by rewrite length_shape_order.
  - apply elem_of_seq. lia.
  - intros out i Hi%elem_of_seq Hlen.
    destruct (scatter_body_eq accumulate (num_add (t_dtype dst)) out i ltac:(lia) Hlen) as [Hq ->]. cbv zeta.
    destruct (_ || _) eqn:Hor; [|by rewrite length_alter].
    eexists. split; [exact Hq|]. split; [|done]. apply orb_true_iff in Hor as [?%Z.ltb_lt|?%Z.leb_le]; lia.
  - intros out out' Hlen. pose proof (in_range_pos _ _ Hq0).
    destruct (scatter_body_eq accumulate (num_add (t_dtype dst)) out (Z.to_nat (ravel (t_shape idx) q0)) ltac:(lia) Hlen) as [_ ->].
    cbv zeta. rewrite Z2Nat.id, unravel_ravel by (done || lia).
    destruct (Z.ltb_spec (index_at w idx q0) 0), (Z.leb_spec n (index_at w idx q0)); done || lia.
  - exists q. by rewrite He.
Qed.

Lemma scatter_spec accumulate :
  in_bounds → fits_alloc (t_shape dst) (t_dtype dst) →
  let op := if accumulate : bool then num_add (t_dtype dst) else (λ _ v, v) in
  driver_post oom w (t_dtype dst) (t_shape dst) (scattered op)
    (scatter_dispatch oom junk w dst dim idx src accumulate).
Proof using All.
  intros Hin Hfit op. rewrite scatter_dispatch_eq, scatter_loop by done. cbn [rbind]. fold op.
  apply (finish_spec oom junk junk_len); [apply dst_wf|done|]. intros p Hp. unfold scattered.
  apply foldl_value; [by apply element_value| |].
  - apply Forall_fmap, Forall_forall. intros q [_ Hq%elem_indices]%list_elem_of_filter;
      [|by eapply tensor_shape_nonneg].
    unfold compose. rewrite <- src_dtype. apply element_value; [done|by rewrite same_shape].
  - intros a b Ha Hb. unfold op. destruct accumulate; [by apply num_ops_value|done].
Qed.
End scatter.

(** ** Masks *)

Section masks.
Context (oom : Z → bool) (junk : Z → Z → list Z).
Hypothesis junk_len : ∀ p n, 0 ≤ n → Z.of_nat (length (junk p n)) = n.
Context (w : World).

Lemma zip_with_elements (f : Z → Z → Z) shape g h :
  zip_with f (elements shape g) (elements shape h) = elements shape (λ q, f (g q) (h q)).
Proof using Type. unfold elements. induction (seq _ _) as [|i l IH]; [done|]. simpl. f_equal. exact IH. Qed.

Lemma mask_check_ok src mask :
  mask_check src mask = Ok tt ↔ t_dtype mask = DBool ∧ t_shape mask = t_shape src ∧ num_dtype (t_dtype src) = true.
Proof using Type.
  unfold mask_check. repeat case_bool_decide; simpl; [|by split; [|intros (?&?&?)]..].
  destruct (num_dtype (t_dtype src)); split; try done. by intros (_ & _ & ?).
Qed.

Lemma cast_value_ok d v : num_dtype d = true → uint 64 v → value_of d (cast_value d v).
Proof using Type.
  intros Hd Hv. unfold value_of. destruct d; try done; simpl;
    first [exact Hv | apply (fcast_uint binary64 binary32), binary32_wf | unfold to_twos; by apply wrap_uint].
Qed.

Lemma masked_fill_spec src mask value :
  tensor_wf w src → tensor_wf w mask → t_dtype mask = DBool → t_shape mask = t_shape src →
  num_dtype (t_dtype src) = true → uint 64 value → fits_alloc (t_shape src) (t_dtype src) →
  driver_post oom w (t_dtype src) (t_shape src)
    (λ q, if truth (element w mask q) then cast_value (t_dtype src) value else element w src q)
    (masked_fill oom junk w src mask value).
Proof using junk_len.
  intros Hs Hm Hd Hsh HN Hv Hfit. unfold masked_fill, masked_fill_typed. rewrite (proj2 (mask_check_ok src mask)) by done.
  cbn [rbind]. rewrite collect_spec by done. cbn [rbind]. rewrite <- Hd, collect_spec by done. cbn [rbind].
  rewrite !shape_order_elements, Hsh, zip_with_elements.
  apply (finish_spec oom junk junk_len w (t_dtype src) (t_shape src) _
    (λ q, if truth (element w mask q) then cast_value (t_dtype src) value else element w src q));
    [apply Hs|done|].
  intros q Hq. destruct (truth _); [by apply cast_value_ok|by apply element_value].
Qed.

Lemma where_spec cond x y :
  tensor_wf w cond → tensor_wf w x → tensor_wf w y → t_dtype cond = DBool → t_dtype y = t_dtype x →
  t_shape cond = t_shape x → t_shape y = t_shape x → num_dtype (t_dtype x) = true →
  fits_alloc (t_shape x) (t_dtype x) →
  driver_post oom w (t_dtype x) (t_shape x)
    (λ q, if truth (element w cond q) then element w x q else element w y q) (where_ oom junk w cond x y).
Proof using junk_len.
  intros Hc Hx Hy Hdc Hdy Hsc Hsy HN Hfit. unfold where_, where_typed.
  rewrite Hdc, Hdy, Hsc, Hsy, !bool_decide_eq_true_2 by done. cbn [negb orb]. rewrite HN.
  rewrite <- Hdc, collect_spec by done. cbn [rbind]. rewrite collect_spec by done. cbn [rbind].
  rewrite <- Hdy, collect_spec by done. cbn [rbind]. rewrite Hdy.
  rewrite !shape_order_elements, Hsc, Hsy.
  replace (zip_with _ _ _) with (elements (t_shape x)
    (λ q, if truth (element w cond q) then element w x q else element w y q)).
  - apply (finish_spec oom junk junk_len); [apply Hx|done|]. intros q Hq.
    destruct (truth _); [by apply element_value|]. rewrite <- Hdy. apply element_value; [done|by rewrite Hsy].
  - unfold elements. induction (seq _ _) as [|i l IH]; [done|]. simpl. f_equal. exact IH.
Qed.

(** The selected elements, in row-major order *)
Definition selection (src mask : Tensor) : list Z :=
  element w src <$> filter (λ q, truth (element w mask q) = true) (indices (t_shape src)).

Lemma length_selection src mask : Z.of_nat (length (selection src mask)) ≤ Z.max 0 (zprod (t_shape src)).
Proof using Type.
  unfold selection. rewrite length_fmap.
  pose proof (length_filter (λ q, truth (element w mask q) = true) (indices (t_shape src))) as H.
  unfold indices in H at 2. rewrite length_fmap, length_seq in H. lia.
Qed.

Lemma masked_select_spec src mask :
  tensor_wf w src → tensor_wf w mask → t_dtype mask = DBool → t_shape mask = t_shape src →
  num_dtype (t_dtype src) = true → fits_alloc (t_shape src) (t_dtype src) →
  match masked_select oom junk w src mask with
  | Ok (w', t) => fresh_tensor w w' t (t_dtype src) [Z.of_nat (length (selection src mask))] (selection src mask)
  | Err (BOutOfMemory _) => ¬ (∀ n, oom n = false)
  | _ => False
  end.
Proof using junk_len.
  intros Hs Hm Hd Hsh HN Hfit. unfold masked_select, masked_select_typed. rewrite (proj2 (mask_check_ok src mask)) by done.
  cbn [rbind]. rewrite collect_spec by done. cbn [rbind]. rewrite <- Hd, collect_spec by done. cbn [rbind].
  pose proof (tensor_shape_nonneg _ _ Hs) as Hnn. pose proof (zprod_nonneg _ Hnn) as Hz.
  assert (omap (λ vm : Z * Z, if truth vm.2 then Some vm.1 else None) (zip (shape_order w src) (shape_order w mask)) =
    selection src mask) as ->.
  { rewrite !shape_order_elements, Hsh. unfold selection, elements, indices.
    induction (seq _ _) as [|i l IH]; [done|]. csimpl.
    destruct (truth _) eqn:Ht; [rewrite filter_cons_True by done|rewrite filter_cons_False by congruence];
      csimpl; by rewrite IH. }
  pose proof (length_selection src mask) as Hl. destruct Hfit as [Hf Hb].
  pose proof (shape_fits_prod _ Hf) as Hp. pose proof (byte_size_pos (t_dtype src)) as Hbs.
  apply (finish_fresh oom junk junk_len w (t_dtype src) [Z.of_nat (length (selection src mask))] 0); [apply Hs| | |].
  - split; [split|].
    + constructor; [unfold uint; lia|constructor].
    + csimpl. rewrite zprod_cons, zprod_nil. lia.
    + rewrite zprod_cons, zprod_nil. nia.
  - apply Forall_fmap, Forall_forall. intros q [_ Hq%elem_indices]%list_elem_of_filter; [|done].
    by apply element_value.
  - rewrite zprod_cons, zprod_nil. lia.
Qed.
End masks.

(** ** nonzero *)

Section nonzeros.
Context (oom : Z → bool) (junk : Z → Z → list Z).
Hypothesis junk_len : ∀ p n, 0 ≤ n → Z.of_nat (length (junk p n)) = n.
Context (w : World).

Lemma length_concat_uniform {A} (k : nat) (l : list (list A)) :
  Forall (λ q, length q = k) l → length (concat l) = (length l * k)%nat.
Proof using Type. induction 1 as [|q l Hq _ IH]; [done|]. csimpl. rewrite length_app, IH, Hq. lia. Qed.

(** The positions of the non-zero elements, in row-major order *)
Definition nonzeros (src : Tensor) : list (list Z) :=
  filter (λ q, is_nz (t_dtype src) (element w src q) = true) (indices (t_shape src)).

Lemma nonzero_spec src :
  tensor_wf w src → num_dtype (t_dtype src) = true ∨ t_dtype src = DBool → t_shape src ≠ [] →
  let n := Z.of_nat (length (nonzeros src)) in let shape := [n; Z.of_nat (length (t_shape src))] in
  fits_alloc shape I64 →
  match nonzero oom junk w src with
  | Ok (w', t) => fresh_tensor w w' t I64 shape (concat (nonzeros src))
  | Err (BOutOfMemory _) => ¬ (∀ n, oom n = false)
  | _ => False
  end.
Proof using junk_len.
  intros Hs HN Hne n shape Hfit. pose proof (tensor_shape_nonneg _ _ Hs) as Hnn.
  unfold nonzero. cbv zeta.
  assert (num_dtype (t_dtype src) || bool_decide (t_dtype src = DBool) = true) as ->.
  { destruct HN as [->| ->]; [done|]. by rewrite orb_true_r. }
  rewrite collect_spec by done. cbn [rbind]. rewrite (t_numel_fits w src Hs).
  rewrite (rmapM_seq _ (λ i, if is_nz (t_dtype src) (element w src (unravel (t_shape src) (Z.of_nat i)))
    then unravel (t_shape src) (Z.of_nat i) else [])).
  2: { intros i _ Hi. rewrite shape_order_elements. unfold elements.
       rewrite list_lookup_fmap, (proj2 (lookup_seq _ _ _ i)) by lia. cbn [fmap option_fmap option_map unwrap_opt rbind Nat.add].
       destruct (is_nz _ _); [|done]. apply decode_coords_unravel; [apply zprod_pos; [lia|done]|lia]. }
  cbn [rbind].
  assert (concat ((λ i, if is_nz (t_dtype src) (element w src (unravel (t_shape src) (Z.of_nat i)))
      then unravel (t_shape src) (Z.of_nat i) else []) <$> seq 0 (Z.to_nat (zprod (t_shape src)))) =
    concat (nonzeros src)) as ->.
  { unfold nonzeros, indices. induction (seq _ _) as [|i l IH]; [done|]. csimpl.
    destruct (is_nz _ _) eqn:Ht; [rewrite filter_cons_True by done|rewrite filter_cons_False by congruence];
      csimpl; by rewrite IH. }
  assert (length (concat (nonzeros src)) = (length (nonzeros src) * length (t_shape src))%nat) as Hlen.
  { assert (Forall (λ q, length q = length (t_shape src)) (nonzeros src)) as Hall.
    { apply Forall_forall. intros q [_ Hq%elem_indices]%list_elem_of_filter; [|done]. by apply in_range_length. }
    by apply length_concat_uniform. }
  assert ((length (t_shape src) =? 0)%nat = false) as Hnd by (apply Nat.eqb_neq; by destruct (t_shape src)).
  rewrite Hnd. apply Nat.eqb_neq in Hnd. rewrite Hlen, Nat.max_l, Nat.div_mul by lia. fold n. fold shape.
  pose proof (finish_fresh oom junk junk_len w I64 shape (wrap 64 (n * Z.of_nat (length (t_shape src))))
    (concat (nonzeros src)) (proj1 Hs) Hfit) as Hf.
  unfold finish in Hf. apply Hf.
  - apply Forall_concat, Forall_forall. intros q [_ Hq%elem_indices]%list_elem_of_filter; [|done].
    destruct Hs as (_ & _ & Hl & _). pose proof (proj1 (li_fits _ _ Hl)) as Hu. fold (t_shape src) in Hu.
    unfold shape_wf in Hu. unfold elems_wf, value_of. clear -Hq Hu.
    induction Hq as [|d i ds q Hi Hq IH]; [constructor|]. apply Forall_cons in Hu as [Hu Hus].
    constructor; [unfold uint in *; change (8 * Dtype_byte_size I64) with 64; lia|by apply IH].
  - rewrite Hlen. unfold shape. rewrite !zprod_cons, zprod_nil. unfold n. lia.
Qed.
End nonzeros.

(** ** Properties *)

(** [gather] reads, at every position of the index tensor, the source
    element whose coordinate on the axis is the index value there; the first
    index value in row-major order that is negative or not below the axis is
    refused with that value and the size of the axis. *)
Theorem gather_correct oom junk w src dim n idx :
  (∀ p n, 0 ≤ n → Z.of_nat (length (junk p n)) = n) → tensor_wf w src → tensor_wf w idx →
  num_dtype (t_dtype src) = true → t_dtype idx = I64 →
  t_shape src !! dim = Some n → length (t_shape src) = length (t_shape idx) →
  (∀ i a b, i ≠ dim → t_shape src !! i = Some a → t_shape idx !! i = Some b → b ≤ a) →
  let at_ q := index_at w idx q in
  ((∀ q, in_range (t_shape idx) q → 0 ≤ at_ q < n) → fits_alloc (t_shape idx) (t_dtype src) →
    driver_post oom w (t_dtype src) (t_shape idx) (λ q, element w src (<[dim := at_ q]> q))
      (gather oom junk w src dim idx)) ∧
  (∀ q0, in_range (t_shape idx) q0 → ¬ 0 ≤ at_ q0 < n →
    ∃ q, in_range (t_shape idx) q ∧ ¬ 0 ≤ at_ q < n ∧
      gather oom junk w src dim idx = Err (BIndexOutOfBounds (at_ q) n)).
Proof.
  intros Hj Hs Hi HN Hd Hn Hr Hf at_. split.
  - intros Hin Hfit. by apply (gather_ok oom junk Hj w src idx Hs Hi dim n).
  - intros q0 Hq Hbad. by apply (gather_refuses oom junk w src idx Hs Hi dim n Hn HN Hd Hr Hf q0).
Qed.

(** C34: memory permitting, [scatter] and [scatter_add] with an index tensor of the source's
    shape that is no larger than the destination off the axis (which the code does not
    check), dtypes and sizes it handles: every source element goes to the position that its
    index value names.  Where several go to one position, [scatter] leaves the last of them
    in row-major order and [scatter_add] adds them all, in that order, to the destination's
    element; the others keep the destination's element.  An index value out of range
    refuses the call. *)
Theorem scatter_correct oom junk w dst dim n idx src :
  (∀ p n, 0 ≤ n → Z.of_nat (length (junk p n)) = n) →
  tensor_wf w dst → tensor_wf w idx → tensor_wf w src →
  num_dtype (t_dtype dst) = true → t_dtype idx = I64 → t_dtype src = t_dtype dst →
  t_shape dst !! dim = Some n → length (t_shape dst) = length (t_shape idx) → t_shape src = t_shape idx →
  (∀ i a b, i ≠ dim → t_shape dst !! i = Some a → t_shape idx !! i = Some b → b ≤ a) →
  let at_ q := index_at w idx q in
  let sent p := element w src <$> filter (λ q, <[dim := at_ q]> q = p) (indices (t_shape idx)) in
  ((∀ q, in_range (t_shape idx) q → 0 ≤ at_ q < n) → fits_alloc (t_shape dst) (t_dtype dst) →
    driver_post oom w (t_dtype dst) (t_shape dst)
      (λ p, default (element w dst p) (last (sent p))) (scatter oom junk w dst dim idx src) ∧
    driver_post oom w (t_dtype dst) (t_shape dst)
      (λ p, foldl (num_add (t_dtype dst)) (element w dst p) (sent p)) (scatter_add oom junk w dst dim idx src)) ∧
  (∀ q0 accumulate, in_range (t_shape idx) q0 → ¬ 0 ≤ at_ q0 < n →
    ∃ q, in_range (t_shape idx) q ∧ ¬ 0 ≤ at_ q < n ∧
      scatter_dispatch oom junk w dst dim idx src accumulate = Err (BIndexOutOfBounds (at_ q) n)).
Proof.
  intros Hj Hd Hi Hs HN Hdi Hds Hn Hr Hsh Hf at_ sent. split.
  - intros Hin Hfit. split.
    + apply (driver_post_ext oom w _ _ (scattered w dst idx src dim (λ _ v, v))).
      * intros p _. unfold scattered. by rewrite foldl_last.
      * by apply (scatter_spec oom junk Hj w dst idx src Hd Hi Hs dim n Hn HN Hdi Hds Hr Hsh Hf false).
    + by apply (scatter_spec oom junk Hj w dst idx src Hd Hi Hs dim n Hn HN Hdi Hds Hr Hsh Hf true).
  - intros q0 acc Hq Hbad.
    by apply (scatter_refuses oom junk w dst idx src Hd Hi Hs dim n Hn HN Hdi Hds Hr Hsh Hf acc q0).
Qed.

(** The masked operations: [masked_fill] writes the value, converted to the
    element type, where the mask is true; [where] takes an element from the first
    or the second tensor; [masked_select] returns the elements under the mask
    and [nonzero] the positions of the non-zero, non-NaN elements as the rows of
    an I64 matrix, both in row-major order.  A mask of another dtype or shape is
    refused. *)
Theorem masks_correct oom junk w src mask :
  (∀ p n, 0 ≤ n → Z.of_nat (length (junk p n)) = n) → tensor_wf w src → tensor_wf w mask →
  let T := t_dtype src in let shape := t_shape src in
  num_dtype T = true → fits_alloc shape T →
  (t_dtype mask = DBool → t_shape mask = shape →
    (∀ value, uint 64 value →
      driver_post oom w T shape
        (λ q, if truth (element w mask q) then cast_value T value else element w src q)
        (masked_fill oom junk w src mask value)) ∧
    (∀ y, tensor_wf w y → t_dtype y = T → t_shape y = shape →
      driver_post oom w T shape
        (λ q, if truth (element w mask q) then element w src q else element w y q)
        (where_ oom junk w mask src y)) ∧
    (let chosen := element w src <$> filter (λ q, truth (element w mask q) = true) (indices shape) in
     match masked_select oom junk w src mask with
     | Ok (w', t) => fresh_tensor w w' t T [Z.of_nat (length chosen)] chosen
     | Err (BOutOfMemory _) => ¬ (∀ n, oom n = false)
     | _ => False
     end)) ∧
  (¬ (t_dtype mask = DBool ∧ t_shape mask = shape) →
    ∃ e, masked_select oom junk w src mask = Err e ∧ ∀ value, masked_fill oom junk w src mask value = Err e) ∧
  (shape ≠ [] →
    let rows := filter (λ q, is_nz T (element w src q) = true) (indices shape) in
    let dims := [Z.of_nat (length rows); Z.of_nat (length shape)] in
    fits_alloc dims I64 →
    match nonzero oom junk w src with
    | Ok (w', t) => fresh_tensor w w' t I64 dims (concat rows)
    | Err (BOutOfMemory _) => ¬ (∀ n, oom n = false)
    | _ => False
    end).
Proof.
  intros Hj Hs Hm T shape HN Hfit. split; [|split].
  - intros Hd Hsh. split; [|split].
    + intros v Hv. by apply masked_fill_spec.
    + intros y Hy Hdy Hsy. by apply where_spec.
    + by apply masked_select_spec.
  - intros Hno. assert (∃ e, mask_check src mask = Err e) as [e He].
    { unfold mask_check. do 2 (case_bool_decide; simpl; [|by eauto]). tauto. }
    exists e. unfold masked_select, masked_fill. rewrite He. done.
  - intros Hne rows dims Hfr. apply nonzero_spec; auto.
Qed.

(** *** Witnesses *)

(** A tensor added to a world *)
Definition build_in (w : World) (T : Dtype) (shape : Shape) (data : list Z) : World * Tensor :=
  match from_vec_typed no_oom ff_junk w T shape data with
  | Ok wt => wt
  | _ => (w, mkTensor (mkCpuStorage 0 0) (Layout_contiguous [] F32) 0 false Cpu)
  end.

Lemma build_in_spec w T shape data :
  world_wf w → shape_fits shape → zprod shape * Dtype_byte_size T < 2 ^ 63 → elems_wf T data →
  is_ok (from_vec_typed no_oom ff_junk w T shape data) = true →
  tensor_wf (build_in w T shape data).1 (build_in w T shape data).2 ∧ extends w (build_in w T shape data).1.
Proof.
  intros Hw Hs Hm Hd Hok. unfold build_in.
  pose proof (from_vec_typed_spec no_oom ff_junk ff_junk_len w T shape data Hw Hs Hm Hd) as H.
  destruct (from_vec_typed no_oom ff_junk w T shape data) as [[w' t]|e|]; [|done..].
  destruct H as (_ & Hwf & H). split; [exact Hwf|]. tauto.
Qed.

(** Next to the matrix [[1, 2, 3], [4, 5, 6]]: the indices [[2, 0], [1, 1]], the
    matrix [[10, 20], [30, 40]] and the mask [[1, 0, 0], [0, 1, 1]] *)
Definition with_idx : World * Tensor := build_in t23.1 I64 [2; 2] [2; 0; 1; 1].
Definition with_src : World * Tensor := build_in with_idx.1 I32 [2; 2] [10; 20; 30; 40].
Definition with_mask : World * Tensor := build_in with_src.1 DBool [2; 3] [1; 0; 0; 0; 1; 1].

Ltac solve_data :=
  lazymatch goal with
  | |- elems_wf _ _ => repeat constructor; vm_compute; congruence
  | |- _ => vm_compute; reflexivity
  end.

Lemma with_wf :
  tensor_wf with_mask.1 t23.2 ∧ tensor_wf with_mask.1 with_idx.2 ∧
  tensor_wf with_mask.1 with_src.2 ∧ tensor_wf with_mask.1 with_mask.2.
Proof.
  destruct (build_in_spec t23.1 I64 [2; 2] [2; 0; 1; 1] (proj1 t23_wf) shape22_fits) as [Hi He];
    [solve_data..|fold with_idx in Hi, He].
  destruct (build_in_spec with_idx.1 I32 [2; 2] [10; 20; 30; 40] (proj1 Hi) shape22_fits) as [Hs He'];
    [solve_data..|fold with_src in Hs, He'].
  destruct (build_in_spec with_src.1 DBool [2; 3] [1; 0; 0; 0; 1; 1] (proj1 Hs) t23_fits) as [Hm He''];
    [solve_data..|fold with_mask in Hm, He''].
  assert (∀ t, tensor_wf with_src.1 t → tensor_wf with_mask.1 t) as H2
    by (intros; eapply extends_tensor_wf; [apply Hm|exact He''|done]).
  assert (∀ t, tensor_wf with_idx.1 t → tensor_wf with_mask.1 t) as H1
    by (intros; apply H2; eapply extends_tensor_wf; [apply Hs|exact He'|done]).
  split_and!; [|by apply H1|by apply H2|done].
  apply H1. eapply extends_tensor_wf; [apply Hi|exact He|apply t23_wf].
Qed.

Lemma with_idx_shape : t_shape with_idx.2 = [2; 2].
Proof. vm_compute. reflexivity. Qed.

Lemma idx_fits_alloc : fits_alloc (t_shape with_idx.2) (t_dtype t23.2).
Proof. rewrite with_idx_shape. split; [exact shape22_fits|vm_compute; congruence]. Qed.

Lemma idx_values q : in_range (t_shape with_idx.2) q → 0 ≤ index_at with_mask.1 with_idx.2 q < 3.
Proof.
  intros Hq. rewrite with_idx_shape in Hq.
  inversion Hq as [|? i ? r Hi Hr]; subst. inversion Hr as [|? j ? r' Hj Hr']; subst. inversion Hr'; subst.
  assert (i = 0 ∨ i = 1) as [->| ->] by lia; (assert (j = 0 ∨ j = 1) as [->| ->] by lia);
    vm_compute; split; congruence.
Qed.

Lemma idx_fits (t : Tensor) : t_shape t = [2; 3] → ∀ i a b, i ≠ 1%nat →
  t_shape t !! i = Some a → t_shape with_idx.2 !! i = Some b → b ≤ a.
Proof.
  intros -> i a b Hi Ha Hb. rewrite with_idx_shape in Hb.
  destruct i as [|[|[|]]]; try done; simpl in *; by simplify_eq.
Qed.

Lemma gather_correct_witness :
  ∃ w' out, gather no_oom ff_junk with_mask.1 t23.2 1 with_idx.2 = Ok (w', out) ∧
    element w' out [0; 0] = 3 ∧ element w' out [1; 1] = 5.
Proof.
  destruct with_wf as (Hs & Hi & _ & _).
  destruct (gather_correct no_oom ff_junk with_mask.1 t23.2 1 3 with_idx.2 ff_junk_len Hs Hi
    ltac:(vm_compute; reflexivity) ltac:(vm_compute; reflexivity) ltac:(vm_compute; reflexivity)
    ltac:(vm_compute; reflexivity) (idx_fits t23.2 ltac:(vm_compute; reflexivity))) as [H _].
  specialize (H idx_values idx_fits_alloc).
  destruct (gather no_oom ff_junk with_mask.1 t23.2 1 with_idx.2) as [[w' out]|e|] eqn:Hr; [|vm_compute in Hr; discriminate..].
  exists w', out. split; [reflexivity|]. destruct H as (_ & _ & _ & _ & _ & _ & H).
  rewrite !H by (apply (bool_decide_unpack _); vm_compute; exact I). split; vm_compute; reflexivity.
Defined.

(** Both 30 and 40 go to the middle of the second row. *)
Lemma scatter_correct_witness :
  ∃ w1 o1 w2 o2, scatter no_oom ff_junk with_mask.1 t23.2 1 with_idx.2 with_src.2 = Ok (w1, o1) ∧
    scatter_add no_oom ff_junk with_mask.1 t23.2 1 with_idx.2 with_src.2 = Ok (w2, o2) ∧
    element w1 o1 [1; 1] = 40 ∧ element w2 o2 [1; 1] = 75.
Proof.
  destruct with_wf as (Hd & Hi & Hs & _).
  destruct (scatter_correct no_oom ff_junk with_mask.1 t23.2 1 3 with_idx.2 with_src.2 ff_junk_len Hd Hi Hs
    ltac:(vm_compute; reflexivity) ltac:(vm_compute; reflexivity) ltac:(vm_compute; reflexivity)
    ltac:(vm_compute; reflexivity) ltac:(vm_compute; reflexivity) ltac:(vm_compute; reflexivity)
    (idx_fits t23.2 ltac:(vm_compute; reflexivity))) as [H _].
  destruct (H idx_values t23_fits_alloc) as [H1 H2].
  assert (∃ r, scatter no_oom ff_junk with_mask.1 t23.2 1 with_idx.2 with_src.2 = Ok r) as [[w1 o1] Hr]
    by (eexists; vm_compute; reflexivity).
  assert (∃ r, scatter_add no_oom ff_junk with_mask.1 t23.2 1 with_idx.2 with_src.2 = Ok r) as [[w2 o2] Hr2]
    by (eexists; vm_compute; reflexivity).
  rewrite Hr in H1. rewrite Hr2 in H2. exists w1, o1, w2, o2. split; [exact Hr|]. split; [exact Hr2|].
  destruct H1 as (_ & _ & _ & _ & _ & _ & H1), H2 as (_ & _ & _ & _ & _ & _ & H2).
  rewrite H1, H2 by (apply (bool_decide_unpack _); vm_compute; exact I). split; vm_compute; reflexivity.
Defined.

Lemma masks_correct_witness :
  ∃ w1 o1 w2 o2, masked_fill no_oom ff_junk with_mask.1 t23.2 with_mask.2 0x4023cccccccccccd = Ok (w1, o1) ∧
    masked_select no_oom ff_junk with_mask.1 t23.2 with_mask.2 = Ok (w2, o2) ∧
    element w1 o1 [1; 2] = 9 ∧ shape_order w2 o2 = [1; 5; 6].
Proof.
  destruct with_wf as (Hs & _ & _ & Hm).
  destruct (masks_correct no_oom ff_junk with_mask.1 t23.2 with_mask.2 ff_junk_len Hs Hm
    ltac:(vm_compute; reflexivity) t23_fits_alloc) as [H _].
  specialize (H ltac:(vm_compute; reflexivity) ltac:(vm_compute; reflexivity)).
  pose proof (proj1 H 0x4023cccccccccccd ltac:(split; [vm_compute; congruence|reflexivity])) as H1.
  pose proof (proj2 (proj2 H)) as H2. cbv zeta in H2.
  assert (∃ r, masked_fill no_oom ff_junk with_mask.1 t23.2 with_mask.2 0x4023cccccccccccd = Ok r) as [[w1 o1] Hr]
    by (eexists; vm_compute; reflexivity).
  assert (∃ r, masked_select no_oom ff_junk with_mask.1 t23.2 with_mask.2 = Ok r) as [[w2 o2] Hr2]
    by (eexists; vm_compute; reflexivity).
  rewrite Hr in H1. rewrite Hr2 in H2. exists w1, o1, w2, o2. split; [exact Hr|]. split; [exact Hr2|]. split.
  - destruct H1 as (_ & _ & _ & _ & _ & _ & H1).
    rewrite H1 by (apply (bool_decide_unpack _); vm_compute; exact I). vm_compute. reflexivity.
  - destruct H2 as (_ & _ & _ & _ & _ & _ & _ & _ & H2 & _). rewrite H2. vm_compute. reflexivity.
Defined.

(** ** Divergences *)

(** [gather] does not compare the other axes of the index tensor with the
    source's: with two index rows for a source of one row of [1; 2; 3], the second
    row panics on a position outside the buffer. *)
Definition two_rows : World * Tensor := build_in t23.1 I32 [1; 3] [1; 2; 3].
Lemma gather_unchecked_rows :
  let wi := build_in two_rows.1 I64 [2; 1] [0; 0] in
  gather no_oom ff_junk wi.1 two_rows.2 1 wi.2 = Panic.
Proof. vm_compute. reflexivity. Qed.

(** [scatter] does not compare them with the destination's either: two index rows for a
    destination of one row write past its end. *)
Lemma scatter_unchecked_rows :
  let wi := build_in two_rows.1 I64 [2; 1] [0; 0] in
  let ws := build_in wi.1 I32 [2; 1] [4; 5] in
  scatter no_oom ff_junk ws.1 two_rows.2 1 wi.2 ws.2 = Panic.
Proof. vm_compute. reflexivity. Qed.

(** The positions of a tensor without axes are a vector of length 0, so one that
    holds 1 has the same positions as one that holds 0. *)
Lemma nonzero_of_scalar b :
  b = 0 ∨ b = 1 →
  on_built (λ w t, rmap (λ wt, t_shape wt.2) (nonzero no_oom ff_junk w t)) I32 [] [b] = Ok [0].
Proof. intros [->| ->]; vm_compute; reflexivity. Qed.
