(* ===== verification/Fresh.v ===== *)
(** * Fresh tensors

    What a function that allocates several tensors and drops some of them on the
    way promises: the tensors it returns are new, each with a storage of its own,
    and nothing that was alive before is changed.  Where the
    results may be clones or views, [lends] says so by counting references. *)

From Stdlib Require Import ZArith Lia.
From stdpp Require Import base list gmap.
From S2P Require Import Prelude Loops Dtype Float Shape Layout Storage Tensor View Mutate Iterator Conv ShapeOps Reduce IndexOps.

Open Scope Z_scope.

(** The tensors are new in [w'], each with a storage of its own, and whatever
    was alive in [w] is unchanged. *)
Definition fresh_all (w w' : World) (ts : list Tensor) : Prop :=
  world_wf w' ∧ extends w w' ∧
  (∀ t, t ∈ ts → tensor_wf w' t ∧ ∀ s, handle w s → st_arc s ≠ st_arc (t_storage t)) ∧
  NoDup ((λ t, st_arc (t_storage t)) <$> ts).

Lemma extends_tensor w w' t : world_wf w' → extends w w' → tensor_wf w t →
  tensor_wf w' t ∧ ∀ idx, element w' t idx = element w t idx.
Proof. intros Hw He. by apply keeps_tensor, extends_keeps. Qed.

Lemma fresh_all_nil w : world_wf w → fresh_all w w [].
Proof. intros Hw. split; [done|]. split; [apply extends_refl|]. split; [by intros t ?%elem_of_nil|constructor]. Qed.

Lemma fresh_all_made w w' t U shape g : made w w' t U shape g → fresh_all w w' [t].
Proof.
  intros (Hwf & _ & _ & _ & _ & [He Hne] & _). split; [apply Hwf|]. split; [done|].
  split; [by intros t' ->%list_elem_of_singleton|apply NoDup_singleton].
Qed.

Lemma fresh_all_perm w w' ts us : ts ≡ₚ us → fresh_all w w' ts → fresh_all w w' us.
Proof. intros Hp (H1 & H2 & H3 & H4). unfold fresh_all. setoid_rewrite <- Hp. done. Qed.

Lemma fresh_all_trans w1 w2 w3 ts us : fresh_all w1 w2 ts → fresh_all w2 w3 us → fresh_all w1 w3 (ts ++ us).
Proof.
  intros (Hw2 & He12 & Ht & Hnt) (Hw3 & He23 & Hu & Hnu). split; [done|].
  split; [by eapply extends_trans|]. split.
  - intros t [Hin|Hin]%elem_of_app.
    + destruct (Ht t Hin) as [Hwf Hne]. split; [by apply (extends_tensor w2 w3)|done].
    + destruct (Hu t Hin) as [Hwf Hne]. split; [done|]. intros s Hs. by apply Hne, He12.
  - rewrite fmap_app. apply NoDup_app. split; [done|]. split; [|done].
    intros a (t & -> & Hin)%list_elem_of_fmap (u & Heq & Hin')%list_elem_of_fmap.
    destruct (Hu u Hin') as [_ Hne]. apply (Hne (t_storage t)); [|done]. apply (Ht t Hin).
Qed.

Lemma fresh_all_drop w w' t ts : fresh_all w w' (t :: ts) →
  fresh_all w (drop_tensor w' t) ts ∧ ∀ u, u ∈ ts → ∀ idx, element (drop_tensor w' t) u idx = element w' u idx.
Proof.
  intros (Hw & He & Ht & Hnd). rewrite fmap_cons in Hnd. apply NoDup_cons in Hnd as [Hni Hnd].
  destruct (Ht t ltac:(by left)) as [_ Hne].
  assert (∀ u, u ∈ ts → st_arc (t_storage u) ≠ st_arc (t_storage t)) as Hts.
  { intros u Hu Heq. apply Hni. rewrite <- Heq. by apply (list_elem_of_fmap_2 (λ t, st_arc (t_storage t))). }
  assert (∀ s, handle w' s → st_arc s ≠ st_arc (t_storage t) →
    handle (drop_tensor w' t) s ∧ as_bytes (drop_tensor w' t) s = as_bytes w' s ∧
    strong_count (drop_tensor w' t) s = strong_count w' s) as Hd by (intros; by apply drop_other).
  split.
  - split; [by apply drop_storage_wf|]. split.
    + intros s Hs. destruct (He s Hs) as (H1 & H2 & H3). destruct (Hd s H1 (Hne s Hs)) as (H1' & H2' & H3').
      split; [done|]. split; congruence.
    + split; [|done]. intros u Hu. destruct (Ht u ltac:(by right)) as [(_ & Hh & Hl & Hb) Hneu].
      destruct (Hd _ Hh (Hts u Hu)) as (H1 & H2 & _). split; [|done].
      split_and!; [by apply drop_storage_wf|done|done|by rewrite H2].
  - intros u Hu idx. destruct (Ht u ltac:(by right)) as [(_ & Hh & _) _].
    destruct (Hd _ Hh (Hts u Hu)) as (_ & H2 & _). unfold element. by rewrite H2.
Qed.

Lemma fresh_all_drops w w' us ts : fresh_all w w' (us ++ ts) →
  fresh_all w (foldl drop_tensor w' us) ts ∧
  ∀ u, u ∈ ts → ∀ idx, element (foldl drop_tensor w' us) u idx = element w' u idx.
Proof.
  revert w'. induction us as [|u us IH]; intros w' Hf; [done|].
  destruct (fresh_all_drop _ _ _ _ Hf) as [Hf' He]. destruct (IH _ Hf') as [H1 H2]. split; [exact H1|].
  intros v Hv idx. simpl. rewrite H2 by done. apply He. apply elem_of_app. by right.
Qed.

(** A dense tensor of given elements *)
Definition holds (w : World) (t : Tensor) (T : Dtype) (shape : Shape) (data : list Z) : Prop :=
  dense_as T t ∧ t_shape t = shape ∧ shape_order w t = data.

Lemma shape_order_ext w w' t : (∀ idx, element w' t idx = element w t idx) → shape_order w' t = shape_order w t.
Proof. intros He. rewrite !shape_order_elements. unfold elements. apply list_fmap_ext. intros i x _. apply He. Qed.

Lemma holds_ext w w' t T shape data : (∀ idx, element w' t idx = element w t idx) →
  holds w t T shape data → holds w' t T shape data.
Proof. intros He (H1 & H2 & H3). split; [done|]. split; [done|]. by rewrite (shape_order_ext w). Qed.

Lemma holds_extends w w' t T shape data : world_wf w' → extends w w' → tensor_wf w t →
  holds w t T shape data → tensor_wf w' t ∧ holds w' t T shape data.
Proof. intros Hw He Ht Hh. destruct (extends_tensor w w' t Hw He Ht) as [H1 H2]. split; [done|]. by eapply holds_ext. Qed.

Lemma fresh_holds w w' t T shape data : fresh_tensor w w' t T shape data →
  fresh_all w w' [t] ∧ holds w' t T shape data.
Proof.
  intros Hf. pose proof Hf as (Hwf & Hd & Hs & Hl & _ & _ & _ & _ & Hso & _ & He & Hne). split.
  - split; [apply Hwf|]. split; [done|]. split; [by intros t' ->%list_elem_of_singleton|apply NoDup_singleton].
  - split; [|done]. split; [done|]. unfold t_is_contiguous. rewrite Hl. split; [done|done].
Qed.

(** ** Tensors that may share storages

    A function may return a clone or a view instead of a new tensor.  [lends]
    counts references: nothing that was alive changes, except that its reference
    count grows by the number of the new handles on its storage. *)

Definition extra (us : list Tensor) (s : CpuStorage) : Z :=
  Z.of_nat (length (filter (λ u, st_arc (t_storage u) = st_arc s) us)).

Record lends (w w' : World) (us : list Tensor) : Prop := {
  ln_wf : world_wf w';
  ln_keep : ∀ s, handle w s →
    handle w' s ∧ as_bytes w' s = as_bytes w s ∧ strong_count w' s = strong_count w s + extra us s;
  ln_own : ∀ u, u ∈ us → tensor_wf w' u ∧ extra us (t_storage u) ≤ strong_count w' (t_storage u)
}.

Lemma extra_app us vs s : extra (us ++ vs) s = extra us s + extra vs s.
Proof. unfold extra. rewrite filter_app, length_app. lia. Qed.

Lemma extra_cons u us s : extra (u :: us) s = (if decide (st_arc (t_storage u) = st_arc s) then 1 else 0) + extra us s.
Proof. unfold extra. rewrite filter_cons. destruct (decide _); simpl; lia. Qed.

Lemma extra_perm us vs s : us ≡ₚ vs → extra us s = extra vs s.
Proof. intros Hp. unfold extra. by rewrite Hp. Qed.

Lemma extra_0 us s : (∀ u, u ∈ us → st_arc (t_storage u) ≠ st_arc s) → extra us s = 0.
Proof.
  induction us as [|u us IH]; intros H; [done|]. rewrite extra_cons, decide_False by (apply H; by left).
  apply IH. intros v Hv. apply H. by right.
Qed.

Lemma extra_arc us s s' : st_arc s = st_arc s' → extra us s = extra us s'.
Proof. intros He. unfold extra. by rewrite He. Qed.

Lemma strong_count_arc w s s' : st_arc s = st_arc s' → strong_count w s = strong_count w s'.
Proof. intros He. unfold strong_count. by rewrite He. Qed.

Lemma lends_nil w : world_wf w → lends w w [].
Proof. intros Hw. split; [done| |by intros u ?%elem_of_nil]. intros s Hs. split; [done|]. split; [done|]. unfold extra. simpl. lia. Qed.

Lemma lends_perm w w' us vs : us ≡ₚ vs → lends w w' us → lends w w' vs.
Proof.
  intros Hp [H1 H2 H3]. split; [done| |].
  - intros s Hs. rewrite <- (extra_perm us vs s Hp). by apply H2.
  - intros u Hu. rewrite <- Hp in Hu. rewrite <- (extra_perm us vs _ Hp). by apply H3.
Qed.

Lemma lends_tensor w w' us t : lends w w' us → tensor_wf w t →
  tensor_wf w' t ∧ ∀ idx, element w' t idx = element w t idx.
Proof.
  intros [H1 H2 _] (_ & Hh & Hl & Hb). destruct (H2 _ Hh) as (Hh' & Hb' & _).
  split; [split_and!; [done|done|done|by rewrite Hb']|]. intros idx. unfold element. by rewrite Hb'.
Qed.

(** A handle on a live storage, and a fresh tensor *)
Lemma lends_clone w t v : tensor_wf w t → t_storage v = t_storage t → tensor_wf (clone_storage w (t_storage t)) v →
  lends w (clone_storage w (t_storage t)) [v].
Proof.
  intros (Hw & Hh & _) Hv Hwv.
  assert (∀ s, handle w s → strong_count (clone_storage w (t_storage t)) s = strong_count w s + extra [v] s) as Hc.
  { intros s (i & n & Ha & _). rewrite extra_cons, Hv. unfold extra. simpl.
    unfold clone_storage, strong_count. destruct Hh as (j & p & Hj & _). rewrite Hj. simpl.
    destruct (decide (st_arc (t_storage t) = st_arc s)) as [He|Hne].
    - rewrite <- He in *. rewrite lookup_insert_eq, Ha. simplify_eq. lia.
    - rewrite lookup_insert_ne by done. rewrite Ha. lia. }
  split; [by apply clone_storage_wf| |].
  - intros s Hs. destruct (clone_storage_frame w (t_storage t) Hw s Hs) as [H1 H2]. split; [done|]. split; [done|]. by apply Hc.
  - intros u ->%list_elem_of_singleton. split; [done|]. rewrite Hv, Hc by done.
    pose proof (handle_count w _ Hw Hh). rewrite extra_cons, Hv, decide_True by done. unfold extra. simpl. lia.
Qed.

Lemma lends_fresh w w' t : fresh_all w w' [t] → lends w w' [t].
Proof.
  intros (Hw & He & Ht & _). destruct (Ht t ltac:(by left)) as [Hwf Hne].
  split; [done| |].
  - intros s Hs. destruct (He s Hs) as (H1 & H2 & H3). split; [done|]. split; [done|].
    rewrite H3, extra_0; [lia|]. intros u ->%list_elem_of_singleton. by apply not_eq_sym, Hne.
  - intros u ->%list_elem_of_singleton. split; [done|]. rewrite extra_cons, decide_True by done.
    pose proof (handle_count w' (t_storage t) Hw (proj1 (proj2 Hwf))). unfold extra. simpl. lia.
Qed.

Lemma lends_trans w1 w2 w3 us vs : lends w1 w2 us → lends w2 w3 vs → lends w1 w3 (us ++ vs).
Proof.
  intros H12 H23.
  assert (∀ u, u ∈ us → tensor_wf w3 u ∧ extra (us ++ vs) (t_storage u) ≤ strong_count w3 (t_storage u)) as Hus.
  { intros u Hu. destruct (ln_own _ _ _ H12 u Hu) as [Hwf Hc]. split; [by apply (lends_tensor w2 w3 vs)|].
    destruct (ln_keep _ _ _ H23 (t_storage u) (proj1 (proj2 Hwf))) as (_ & _ & ->). rewrite extra_app. lia. }
  split; [apply H23| |].
  - intros s Hs. destruct (ln_keep _ _ _ H12 s Hs) as (Ha & Hb & Hc). destruct (ln_keep _ _ _ H23 s Ha) as (Ha' & Hb' & Hc').
    split; [done|]. split; [congruence|]. rewrite extra_app. lia.
  - intros u [Hu|Hv]%elem_of_app; [by apply Hus|]. destruct (ln_own _ _ _ H23 u Hv) as [Hwf Hc]. split; [done|].
    destruct (decide (Exists (λ v, st_arc (t_storage v) = st_arc (t_storage u)) us)) as [Hex|Hno].
    + apply Exists_exists in Hex as (v & Hin & Heq). destruct (Hus v Hin) as [_ Hcv].
      by rewrite <- (extra_arc _ _ _ Heq), <- (strong_count_arc w3 _ _ Heq).
    + rewrite extra_app, extra_0; [lia|]. intros v Hin Heq. apply Hno, Exists_exists. by exists v.
Qed.

(** Dropping one of the handles *)
Lemma lends_drop w w' u us : world_wf w → lends w w' (u :: us) →
  lends w (drop_tensor w' u) us ∧ ∀ v, v ∈ us → ∀ idx, element (drop_tensor w' u) v idx = element w' v idx.
Proof.
  intros Hw [H1 H2 H3]. destruct (H3 u ltac:(by left)) as [(_ & Hh & _) Hc].
  set (arc s := st_arc (t_storage u) = st_arc s).
  assert (world_wf (drop_tensor w' u) ∧ ∀ s, handle w' s → extra (u :: us) s ≤ strong_count w' s →
    (arc s → extra us s ≠ 0 ∨ handle w s) →
    handle (drop_tensor w' u) s ∧ as_bytes (drop_tensor w' u) s = as_bytes w' s ∧
    strong_count (drop_tensor w' u) s = strong_count w' s - (extra (u :: us) s - extra us s)) as [Hwd Hd].
  { unfold drop_tensor. destruct (decide (2 ≤ strong_count w' (t_storage u))) as [Hge|Hlt].
    - destruct (drop_shared w' (t_storage u) H1 Hh Hge) as [Hwd Hd]. split; [done|]. intros s Hs _ _.
      destruct (Hd s Hs) as (Ha & Hb & ->). split; [done|]. split; [done|]. rewrite extra_cons.
      repeat (destruct (decide _)); try congruence; lia.
    - split; [by apply drop_storage_wf|]. intros s Hs Hle Hsame.
      destruct (decide (arc s)) as [He|Hne].
      + rewrite extra_cons, decide_True in Hle by done. rewrite <- (strong_count_arc w' _ _ He) in Hle.
        destruct (Hsame He) as [Hn|Hw'].
        * assert (0 ≤ extra us s) by (unfold extra; lia). lia.
        * destruct (H2 s Hw') as (_ & _ & Hcs). rewrite extra_cons, decide_True in Hcs by done.
          rewrite <- (strong_count_arc w' _ _ He) in Hcs. pose proof (handle_count w s Hw Hw').
          assert (0 ≤ extra us s) by (unfold extra; lia). lia.
      + destruct (drop_other w' (t_storage u) s H1 Hs) as (Ha & Hb & ->); [by apply not_eq_sym|].
        split; [done|]. split; [done|]. rewrite extra_cons, decide_False by done. lia. }
  assert (∀ v, v ∈ us → 1 ≤ extra us (t_storage v)) as Hpos.
  { intros v Hv. apply elem_of_Permutation in Hv as [vs Hp]. rewrite (extra_perm _ _ _ Hp), extra_cons, decide_True by done.
    unfold extra. lia. }
  assert (∀ v, v ∈ us → tensor_wf (drop_tensor w' u) v ∧ as_bytes (drop_tensor w' u) (t_storage v) = as_bytes w' (t_storage v) ∧
    extra us (t_storage v) ≤ strong_count (drop_tensor w' u) (t_storage v)) as Hus.
  { intros v Hv. destruct (H3 v ltac:(by right)) as [(_ & Hhv & Hlv & Hbv) Hcv].
    destruct (Hd (t_storage v) Hhv Hcv) as (Ha & Hb & Hc'); [intros _; left; pose proof (Hpos v Hv); lia|].
    split; [split_and!; [done|done|done|by rewrite Hb]|]. split; [done|]. lia. }
  split; [split; [done| |]|].
  - intros s Hs. destruct (H2 s Hs) as (Ha & Hb & Hcs). pose proof (handle_count w s Hw Hs).
    destruct (Hd s Ha) as (Ha' & Hb' & Hc'); [lia|by right|]. split; [done|]. split; [congruence|]. lia.
  - intros v Hv. destruct (Hus v Hv) as (? & _ & ?). done.
  - intros v Hv idx. destruct (Hus v Hv) as (_ & Hb & _). unfold element. by rewrite Hb.
Qed.
