(* ===== verification/CpuOps.v ===== *)
(** * Element-wise operations of the CPU backend
      (crates/rustorch-cpu/src/cpu_backend.rs)

    Arithmetic, [neg], [abs], [relu] and the functions and activations on floats:
    each chooses an element function by dtype and runs a driver of [Iterator].
    The element functions are written over any type of floats, so the same
    definition runs on bits and is read over the reals. *)

From Stdlib Require Import ZArith QArith Reals Lra Lia.
From stdpp Require Import base list gmap.
From S2P Require Import Prelude Loops XReal FOps FOpsReal Dtype Float Shape Layout Storage Tensor View Mutate Iterator Conv ShapeOps Reduce IndexOps.

Open Scope Z_scope.

(** ** Element functions *)
Section elements.
Context {X : Type} {FO : FOps X}.

Definition sigmoid_el (x : X) : X := k1 ⊘ (k1 ⊕ k_exp (k_neg x)).
Definition silu_el (x : X) : X := x ⊘ (k1 ⊕ k_exp (k_neg x)).
Definition gelu_el (c x : X) : X :=
  k_lit 0.5 ⊗ x ⊗ (k1 ⊕ k_tanh (c ⊗ (x ⊕ k_lit 0.044715 ⊗ x ⊗ x ⊗ x))).
Definition leaky_relu_el (slope x : X) : X := if k_gt x k0 then x else slope ⊗ x.
Definition elu_el (alpha x : X) : X := if k_gt x k0 then x else alpha ⊗ (k_exp x ⊖ k1).
Definition softplus_el (beta x : X) : X :=
  let bx := beta ⊗ x in
  if k_gt bx (k_lit 20) then x else k_ln (k1 ⊕ k_exp bx) ⊘ beta.
Definition hardswish_el (x : X) : X := x ⊗ k_clamp (x ⊕ k_lit 3) (k_lit 0) (k_lit 6) ⊘ k_lit 6.
Definition hardsigmoid_el (x : X) : X := k_clamp ((x ⊕ k_lit 3) ⊘ k_lit 6) (k_lit 0) (k_lit 1).
Definition rsqrt_el (x : X) : X := k1 ⊘ k_sqrt x.

(** [erf_f32], [erf_f64]: the same formula with coefficients of either precision *)
Definition erf_el (p a1 a2 a3 a4 a5 x : X) : X :=
  let sign := if k_gt k0 x then k_lit (-1) else k_lit 1 in
  let a := k_abs x in
  let t := k_lit 1 ⊘ (k_lit 1 ⊕ p ⊗ a) in
  let y := k_lit 1 ⊖ ((((a5 ⊗ t ⊕ a4) ⊗ t ⊕ a3) ⊗ t ⊕ a2) ⊗ t ⊕ a1) ⊗ t ⊗ k_exp (k_neg a ⊗ a) in
  sign ⊗ y.

Definition erf_f32 : X → X :=
  erf_el (k_lit 0.3275911) (k_lit 0.2548296) (k_lit (-0.2844967)) (k_lit 1.4214138) (k_lit (-1.4531521)) (k_lit 1.0614054).
Definition erf_f64 : X → X :=
  erf_el (k_lit 0.3275911) (k_lit 0.254829592) (k_lit (-0.284496736)) (k_lit 1.421413741) (k_lit (-1.453152027))
    (k_lit 1.061405429).

Definition gelu_exact_el (erf : X → X) (sqrt2 x : X) : X := k_lit 0.5 ⊗ x ⊗ (k1 ⊕ erf (x ⊘ sqrt2)).
End elements.

(** ** Binary arithmetic *)

Inductive BinaryKind := BinAdd | BinSub | BinMul | BinDiv.

(** [to_f32] and [from_f32] of the [half] crate *)
Record HalfF32 := mkHalfF32 { half_to_f32 : Dtype → Z → Z; half_from_f32 : Dtype → Z → Z }.

Definition float_arith (kind : BinaryKind) (f : format) : Z → Z → Z :=
  match kind with BinAdd => fadd f | BinSub => fsub f | BinMul => fmul f | BinDiv => fdiv f end.

(** Integer arithmetic wraps; [checked_div(b).unwrap_or(0)] *)
Definition int_arith (kind : BinaryKind) (d : Dtype) (a b : Z) : Z :=
  match kind with
  | BinAdd => wrap (bits d) (a + b)
  | BinSub => wrap (bits d) (a - b)
  | BinMul => wrap (bits d) (a * b)
  | BinDiv =>
      let x := of_twos (bits d) a in
      let y := of_twos (bits d) b in
      if (y =? 0) || ((x =? - 2 ^ (bits d - 1)) && (y =? -1)) then 0 else to_twos (bits d) (Z.quot x y)
  end.

(** Functions of the mathematical library that are only called *)
Inductive LibmFn := Tan | ExpM1 | Ln1P | Log2 | Log10 | Asin | Acos | Atan | Sinh | Cosh.

Section ops.
Context (half : HalfF32) (oom : Z → bool) (junk : Z → Z → list Z).

Definition binary_elem (kind : BinaryKind) (d : Dtype) : option (Z → Z → Z) :=
  match d with
  | F32 => Some (float_arith kind binary32)
  | F64 => Some (float_arith kind binary64)
  | I64 | I32 => Some (int_arith kind d)
  | BF16 | F16 => Some (λ a b, half_from_f32 half d (float_arith kind binary32 (half_to_f32 half d a) (half_to_f32 half d b)))
  | I8 | DBool => None
  end.

Definition dispatch_binary (kind : BinaryKind) (w : World) (lhs rhs : Tensor) : res BackendError (World * Tensor) :=
  if negb (bool_decide (t_dtype lhs = t_dtype rhs)) then Err (BDtypeMismatch (t_dtype lhs) (t_dtype rhs))
  else match binary_elem kind (t_dtype lhs) with
    | Some f => map_binary_same oom junk (t_dtype lhs) f w lhs rhs
    | None => Err (BDtypeMismatch (t_dtype lhs) (t_dtype lhs))
    end.

Definition add := dispatch_binary BinAdd.
Definition sub := dispatch_binary BinSub.
Definition mul := dispatch_binary BinMul.
Definition div := dispatch_binary BinDiv.

(** ** Unary operations *)

Definition unsupported {A} (src : Tensor) : res BackendError A := Err (BDtypeMismatch (t_dtype src) (t_dtype src)).

Definition neg (w : World) (src : Tensor) : res BackendError (World * Tensor) :=
  match t_dtype src with
  | F32 => map_unary_same oom junk F32 (fneg binary32) w src
  | F64 => map_unary_same oom junk F64 (fneg binary64) w src
  | (I64 | I32 | I8) as d => map_unary_same oom junk d (λ x, wrap (bits d) (- x)) w src
  | _ => unsupported src
  end.

(** [wrapping_abs] *)
Definition int_abs (d : Dtype) (x : Z) : Z := to_twos (bits d) (Z.abs (of_twos (bits d) x)).

Definition abs (w : World) (src : Tensor) : res BackendError (World * Tensor) :=
  match t_dtype src with
  | F32 => map_unary_same oom junk F32 (fabs binary32) w src
  | F64 => map_unary_same oom junk F64 (fabs binary64) w src
  | (I64 | I32) as d => map_unary_same oom junk d (int_abs d) w src
  | _ => unsupported src
  end.

(** The operations of [f32] and of [f64] on bits, with the host's mathematical library *)
Context (fl : Dtype → FOps Z) (libm : LibmFn → Dtype → Z → Z) (f_atan2 : Dtype → Z → Z → Z).

Definition unary_float (f32_fn f64_fn : Z → Z) (w : World) (src : Tensor) : res BackendError (World * Tensor) :=
  match t_dtype src with
  | F32 => map_unary_same oom junk F32 f32_fn w src
  | F64 => map_unary_same oom junk F64 f64_fn w src
  | _ => unsupported src
  end.

(** A closure that is written alike for both *)
Definition unary_both (f : FOps Z → Z → Z) : World → Tensor → res BackendError (World * Tensor) :=
  unary_float (f (fl F32)) (f (fl F64)).

Definition sqrt := unary_both (@k_sqrt Z).
Definition exp := unary_both (@k_exp Z).
Definition log := unary_both (@k_ln Z).
Definition sin := unary_both (@k_sin Z).
Definition cos := unary_both (@k_cos Z).
Definition tanh := unary_both (@k_tanh Z).
Definition sigmoid := unary_both (@sigmoid_el Z).
Definition silu := unary_both (@silu_el Z).
Definition rsqrt := unary_both (@rsqrt_el Z).
Definition hardswish := unary_both (@hardswish_el Z).
Definition hardsigmoid := unary_both (@hardsigmoid_el Z).
Definition libm_call (f : LibmFn) := unary_float (libm f F32) (libm f F64).
Definition tan := libm_call Tan.
Definition expm1 := libm_call ExpM1.
Definition log1p := libm_call Ln1P.
Definition log2 := libm_call Log2.
Definition log10 := libm_call Log10.
Definition asin := libm_call Asin.
Definition acos := libm_call Acos.
Definition atan := libm_call Atan.
Definition sinh := libm_call Sinh.
Definition cosh := libm_call Cosh.
Definition gelu := unary_float
  (@gelu_el Z (fl F32) (@k_lit Z (fl F32) 0.7978845)) (@gelu_el Z (fl F64) (@k_lit Z (fl F64) 0.797884560802865)).
Definition gelu_exact := unary_float
  (@gelu_exact_el Z (fl F32) (@erf_f32 Z (fl F32)) (@k_lit Z (fl F32) 1.41421356237309504880168872420969808))
  (@gelu_exact_el Z (fl F64) (@erf_f64 Z (fl F64)) (@k_lit Z (fl F64) 1.41421356237309504880168872420969808)).

(** The operations with an [f64] argument: [as f32] on the first path *)
Definition unary_arg (f : FOps Z → Z → Z → Z) (arg : Z) : World → Tensor → res BackendError (World * Tensor) :=
  unary_float (f (fl F32) (fcast binary64 binary32 arg)) (f (fl F64) arg).

Definition pow_scalar (w : World) (src : Tensor) (exponent : Z) := unary_arg (λ F e x, @k_powf Z F x e) exponent w src.
Definition leaky_relu (w : World) (src : Tensor) (slope : Z) := unary_arg (@leaky_relu_el Z) slope w src.
Definition elu (w : World) (src : Tensor) (alpha : Z) := unary_arg (@elu_el Z) alpha w src.
Definition softplus (w : World) (src : Tensor) (beta : Z) := unary_arg (@softplus_el Z) beta w src.

Definition float_test (f : format → Z → bool) (w : World) (src : Tensor) : res BackendError (World * Tensor) :=
  match t_dtype src with
  | F32 => map_unary oom junk F32 DBool (λ x, bool_bit (f binary32 x)) w src
  | F64 => map_unary oom junk F64 DBool (λ x, bool_bit (f binary64 x)) w src
  | _ => unsupported src
  end.

Definition is_infinite (f : format) (x : Z) : bool :=
  feqb f (fabs f x) (to_bits f (SpecFloat.S754_infinity false)).

Definition isnan := float_test is_nan.
Definition isinf := float_test is_infinite.
Definition isfinite := float_test (λ f x, negb (is_nan f x) && negb (is_infinite f x)).

Definition float_binary (f : Dtype → Z → Z → Z) (w : World) (lhs rhs : Tensor) : res BackendError (World * Tensor) :=
  if negb (bool_decide (t_dtype lhs = t_dtype rhs)) then Err (BDtypeMismatch (t_dtype lhs) (t_dtype rhs))
  else match t_dtype lhs with
    | (F32 | F64) as d => map_binary_same oom junk d (f d) w lhs rhs
    | _ => unsupported lhs
    end.
Definition pow := float_binary (λ d, @k_powf Z (fl d)).
Definition atan2 := float_binary f_atan2.

(** [f32::clamp] panics unless the bounds are ordered. *)
Definition clamped (f : format) (F : FOps Z) (min max : Z) (w : World) (src : Tensor) : res BackendError (World * Tensor) :=
  if (0 <? t_numel src) && negb (fltb f min max || feqb f min max) then Panic
  else map_unary_same oom junk (t_dtype src) (λ x, @k_clamp Z F x min max) w src.

Definition hardtanh (w : World) (src : Tensor) (min max : Z) : res BackendError (World * Tensor) :=
  match t_dtype src with
  | F32 => clamped binary32 (fl F32) (fcast binary64 binary32 min) (fcast binary64 binary32 max) w src
  | F64 => clamped binary64 (fl F64) min max w src
  | _ => unsupported src
  end.

Definition relu_f32_dense (w : World) (src : Tensor) : res BackendError (World * Tensor) :=
  let n := t_numel src in
  let? raw_slice := slice_to (typed_slice (elem_size F32) (as_bytes w (t_storage src))) n in
  let? _ := vec_of (E := BackendError) 4 n 0 in
  let f := λ v, fmax binary32 v 0 in
  let out := if 16384 <=? n then concat (List.map (List.map f) (par_chunks (Z.to_nat 8192) raw_slice)) else List.map f raw_slice in
  finish oom junk w F32 (t_shape src) n out.

Definition relu (w : World) (src : Tensor) : res BackendError (World * Tensor) :=
  if bool_decide (t_dtype src = F32) && t_is_contiguous src && (l_offset (t_layout src) =? 0) then relu_f32_dense w src
  else unary_float (λ x, fmax binary32 x 0) (λ x, fmax binary64 x 0) w src.

(** ** Sums *)

Definition sum_kernel (T : Dtype) (w : World) (src : Tensor) (init : Z) (f : Z → Z → Z) : res BackendError (World * Tensor) :=
  let? it := unwrap (iter_elements w src T) in
  let? it := ok_or (BDtypeMismatch (t_dtype src) T) it in
  finish oom junk w T [] 1 [foldl f init it].

Definition sum (w : World) (src : Tensor) : res BackendError (World * Tensor) :=
  let d := t_dtype src in
  if num_dtype d then sum_kernel d w src 0 (num_add d) else unsupported src.

Definition mean (w : World) (src : Tensor) : res BackendError (World * Tensor) :=
  let n := t_numel src in
  if n =? 0 then Err BNumericalError
  else match t_dtype src with
    | F32 =>
        let? (w, t) := sum_kernel F32 w src 0 (fadd binary32) in
        let? v := slice_of w t F32 in
        let? v := unwrap_opt v in
        let? v := unwrap_opt (v !! 0%nat) in
        let? (w, out) := unwrap (scalar oom junk w (fdiv binary32 v (fof_int binary32 n))) in
        Ok (drop_tensor w t, out)
    | F64 =>
        let? (w, s) := sum_kernel F64 w src 0 (fadd binary64) in
        let? v := slice_of w s F64 in
        let? v := unwrap_opt v in
        let? v := unwrap_opt (v !! 0%nat) in
        let? (w, out) := finish oom junk w F64 [] 1 [fdiv binary64 v (fof_int binary64 n)] in
        Ok (drop_tensor w s, out)
    | _ => unsupported src
    end.
End ops.

(** ** What the operations return *)

Lemma int_arith_value kind d a b : d = I64 ∨ d = I32 → value_of d (int_arith kind d a b).
Proof.
  intros Hd. assert (0 < bits d) by (by destruct Hd as [-> | ->]).
  unfold value_of. fold (bits d). destruct kind; try (apply wrap_uint; lia). unfold int_arith.
  case_match; [|apply wrap_uint; lia]. unfold uint. split; [lia|]. by apply Z.pow_pos_nonneg; lia.
Qed.

Lemma float_arith_uint kind f a b : format_wf f → uint (f_width f) (float_arith kind f a b).
Proof. intros Hf. destruct (arith_uint f a b Hf) as (? & ? & ? & ?). by destruct kind. Qed.

Definition half_f32_ok (half : HalfF32) : Prop := ∀ d x, d = F16 ∨ d = BF16 → value_of d (half_from_f32 half d x).

Lemma binary_elem_value half kind d f a b : half_f32_ok half → binary_elem half kind d = Some f → value_of d (f a b).
Proof.
  intros Hh. destruct d; intros [= <-].
  - apply (float_arith_uint kind binary32), binary32_wf.
  - apply (float_arith_uint kind binary64), binary64_wf.
  - apply Hh. by left.
  - apply Hh. by right.
  - apply int_arith_value. by left.
  - apply int_arith_value. by right.
Qed.

Section ops_lemmas.
Context (half : HalfF32) (oom : Z → bool) (junk : Z → Z → list Z).
Hypothesis junk_len : ∀ p n, 0 ≤ n → Z.of_nat (length (junk p n)) = n.
Hypothesis half_fine : half_f32_ok half.

(** Arithmetic of two dense tensors of one dtype, broadcast *)
Lemma dispatch_binary_spec kind w lhs rhs f out :
  tensor_wf w lhs → tensor_wf w rhs → t_dtype rhs = t_dtype lhs → binary_elem half kind (t_dtype lhs) = Some f →
  t_is_contiguous lhs = true → t_is_contiguous rhs = true →
  broadcast_with (t_shape lhs) (t_shape rhs) = Ok out → fits_alloc out (t_dtype lhs) →
  driver_post oom w (t_dtype lhs) out
    (λ idx, f (element w lhs (source_index (t_shape lhs) idx)) (element w rhs (source_index (t_shape rhs) idx)))
    (dispatch_binary half oom junk kind w lhs rhs).
Proof using junk_len half_fine.
  intros Hl Hr Hd Hf Hcl Hcr Hb Hfit. unfold dispatch_binary. rewrite bool_decide_eq_true_2, Hf by done. cbn [negb].
  apply map_binary_spec; try done. intros x y _ _. by apply (binary_elem_value half kind).
Qed.

Lemma fmax_zero_value d f x : dtype_format d = Some f → value_of d x → value_of d (fmax f x 0).
Proof using Type.
  intros Hd Hx. assert (value_of d 0) by (unfold value_of, uint; split; [lia|by destruct d]).
  unfold fmax. repeat case_match; done.
Qed.

(** [relu] with its dense path, in one pass or by chunks in parallel, and the general one *)
Lemma relu_spec w src f : tensor_wf w src → t_dtype src = F32 ∨ t_dtype src = F64 → dtype_format (t_dtype src) = Some f →
  fits_alloc (t_shape src) (t_dtype src) →
  driver_post oom w (t_dtype src) (t_shape src) (λ idx, fmax f (element w src idx) 0) (relu oom junk w src).
Proof using junk_len.
  intros Hwf Hd Hf Hfit. pose proof (λ x, fmax_zero_value (t_dtype src) f x Hf) as Hval.
  unfold relu. destruct (bool_decide (t_dtype src = F32) && t_is_contiguous src && (l_offset (t_layout src) =? 0)) eqn:Hdense.
  - rewrite !andb_true_iff, bool_decide_eq_true, Z.eqb_eq in Hdense. destruct Hdense as [[HT Hc] Ho].
    rewrite HT in *. injection Hf as <-. unfold relu_f32_dense.
    replace (typed_slice (elem_size F32) (as_bytes w (t_storage src))) with (raw_slice w src) by (unfold raw_slice; by rewrite HT).
    rewrite slice_to_dense, (t_numel_fits w src Hwf) by done. cbn [rbind]. destruct Hfit as [Hs Hm]. pose proof (shape_fits_prod _ Hs).
    change (Dtype_byte_size F32) with 4 in Hm. unfold vec_of. unfold CPU_ALIGN in Hm. rewrite (proj2 (Z.ltb_ge _ _)) by lia. cbn [rbind].
    set (g := λ v, fmax binary32 v 0). unfold par_chunks. rewrite (chunks_map g (Z.to_nat 8192)) by (lia || done).
    assert (List.map g (elements (t_shape src) (element w src)) = elements (t_shape src) (λ idx, g (element w src idx))) as ->.
    { unfold elements. by rewrite <- list_fmap_compose. }
    assert (fits_alloc (t_shape src) F32) by (split; [done|unfold CPU_ALIGN; change (Dtype_byte_size F32) with 4; lia]).
    destruct (_ <=? _); apply finish_spec; (apply Hwf || done || intros; apply Hval; rewrite <- HT; by apply element_uint).
  - unfold unary_float. destruct Hd as [HT|HT]; rewrite HT in *; injection Hf as <-; by apply map_unary_spec.
Qed.
End ops_lemmas.

(** ** The element functions over the reals *)

Open Scope R_scope.

Lemma fin_clamp x lo hi : lo <= hi → k_clamp (FIN x) (FIN lo) (FIN hi) = FIN (Rmin hi (Rmax lo x)).
Proof.
  intros Hl. unfold k_clamp. rewrite !fin_gt. destruct (Rlt_le_dec x lo) as [H|H].
  - rewrite Rgtb_true by lra. rewrite Rmax_left, Rmin_right by lra. done.
  - rewrite Rgtb_false by lra. rewrite Rmax_right by lra. destruct (Rlt_le_dec hi x).
    + rewrite Rgtb_true, Rmin_left by lra. done.
    + rewrite Rgtb_false, Rmin_right by lra. done.
Qed.

Lemma one_plus_exp x : 0 < 1 + Rtrigo_def.exp x.
Proof. pose proof (exp_pos x). lra. Qed.

Lemma ln_le_mono a b : 0 < a → a <= b → ln a <= ln b.
Proof. intros Ha [Hab| ->]; [|lra]. by apply Rlt_le, ln_increasing. Qed.

(** Above the threshold [softplus] leaves out less than this. *)
Lemma softplus_tail b x : 0 < b → 20 < b * x →
  x <= ln (1 + Rtrigo_def.exp (b * x)) / b <= x + Rtrigo_def.exp (-20) / b.
Proof.
  intros Hb Hx. pose proof (exp_pos (b * x)). pose proof (exp_pos (- (b * x))) as Hm.
  assert (ln (1 + Rtrigo_def.exp (b * x)) = b * x + ln (1 + Rtrigo_def.exp (- (b * x)))) as ->.
  { rewrite <- (ln_exp (b * x)) at 2. rewrite <- ln_mult by (try apply one_plus_exp; done). f_equal.
    rewrite Rmult_plus_distr_l, <- exp_plus, Rplus_opp_r, exp_0. lra. }
  assert (0 <= ln (1 + Rtrigo_def.exp (- (b * x))) <= Rtrigo_def.exp (-20)) as [H1 H2].
  { split.
    - rewrite <- ln_1. apply ln_le_mono; lra.
    - apply Rle_trans with (Rtrigo_def.exp (- (b * x))); [|apply Rlt_le, exp_increasing; lra].
      rewrite <- (ln_exp (Rtrigo_def.exp (- (b * x)))) at 2. apply ln_le_mono; [apply one_plus_exp|apply exp_ineq1_le]. }
  split; apply (Rmult_le_reg_r b); [lra| |lra|]; field_simplify; lra.
Qed.

Lemma lit_20 : Q2R 20 = 20.
Proof. unfold Q2R. simpl. lra. Qed.

(** the activations in exact arithmetic: [sigmoid] and [silu] are the logistic function
    and its product with the argument, [gelu] its tanh form, [leaky_relu] and [elu]
    piecewise; [softplus] is at most [ln(1+e^(βx))/β] and falls short of it by at most
    [e^-20/β], the cost of its threshold; [hardswish] and [hardsigmoid] are their ramps,
    constant or the identity from 3 on; the polynomial for [erf] is odd. *)
Theorem activations_correct (x c slope alpha beta : R) : 0 < beta →
  sigmoid_el (FIN x) = FIN (1 / (1 + Rtrigo_def.exp (- x))) ∧
  silu_el (FIN x) = FIN (x * (1 / (1 + Rtrigo_def.exp (- x)))) ∧
  gelu_el (FIN c) (FIN x) = FIN (x * (1 + Rtrigo_def.tanh (c * (x + 0.044715 * x ^ 3))) / 2) ∧
  leaky_relu_el (FIN slope) (FIN x) = FIN (if Rlt_dec 0 x then x else slope * x) ∧
  elu_el (FIN alpha) (FIN x) = FIN (if Rlt_dec 0 x then x else alpha * (Rtrigo_def.exp x - 1)) ∧
  (∃ y, softplus_el (FIN beta) (FIN x) = FIN y ∧
     y <= ln (1 + Rtrigo_def.exp (beta * x)) / beta <= y + Rtrigo_def.exp (-20) / beta) ∧
  (∃ r, hardsigmoid_el (FIN x) = FIN r ∧ hardswish_el (FIN x) = FIN (x * r) ∧
     0 <= r <= 1 ∧ (x <= -3 → r = 0) ∧ (3 <= x → r = 1) ∧ (-3 <= x <= 3 → r = (x + 3) / 6)) ∧
  (x ≠ 0 → erf_f32 (FIN (- x)) = k_neg (erf_f32 (FIN x)) ∧ erf_f64 (FIN (- x)) = k_neg (erf_f64 (FIN x))).
Proof.
  intros Hb. pose proof (one_plus_exp (- x)). pose proof (one_plus_exp (beta * x)).
  assert (Q2R 3 = 3 ∧ Q2R 6 = 6 ∧ Q2R 0 = 0 ∧ Q2R 1 = 1) as (L3 & L6 & L0 & L1) by (unfold Q2R; simpl; lra).
  split_and!.
  - unfold sigmoid_el. rewrite fin_1, fin_neg, fin_exp, fin_add, fin_div by lra. done.
  - unfold silu_el. rewrite fin_1, fin_neg, fin_exp, fin_add, fin_div by lra. f_equal. field. lra.
  - unfold gelu_el. rewrite fin_1, !fin_lit, !fin_mul, !fin_add, !fin_mul, fin_tanh, fin_add, fin_mul. f_equal.
    assert (Q2R 0.5 = / 2) as -> by (unfold Q2R; simpl; lra).
    replace (c * (x + 0.044715 * x * x * x)) with (c * (x + 0.044715 * x ^ 3)) by ring. field.
  - unfold leaky_relu_el. rewrite fin_0, fin_gt. unfold Rgtb. by destruct (Rlt_dec 0 x).
  - unfold elu_el. rewrite fin_0, fin_1, fin_exp, fin_sub, fin_mul, fin_gt. unfold Rgtb. by destruct (Rlt_dec 0 x).
  - unfold softplus_el. rewrite fin_1, fin_mul, fin_lit, fin_gt, lit_20. unfold Rgtb. destruct (Rlt_dec 20 (beta * x)) as [Ht|Ht].
    + exists x. split; [done|]. by apply softplus_tail.
    + rewrite fin_exp, fin_add, fin_ln, fin_div by lra. eexists. split; [done|].
      pose proof (exp_pos (-20)). assert (0 < Rtrigo_def.exp (-20) / beta) by (by apply Rdiv_lt_0_compat). lra.
  - exists (Rmin 1 (Rmax 0 ((x + 3) / 6))). split; [|split].
    + unfold hardsigmoid_el. rewrite !fin_lit, fin_add, fin_div, L0, L1, L3, L6, fin_clamp by lra. done.
    + unfold hardswish_el. rewrite !fin_lit, fin_add, L0, L3, L6, fin_clamp, fin_mul, fin_div by lra. f_equal.
      unfold Rmin, Rmax. repeat destruct (Rle_dec _ _); lra.
    + unfold Rmin, Rmax. split_and!; repeat destruct (Rle_dec _ _); lra.
  - intros Hx.
    assert (∀ p a1 a2 a3 a4 a5, 0 <= p → erf_el (FIN p) (FIN a1) (FIN a2) (FIN a3) (FIN a4) (FIN a5) (FIN (- x)) =
        k_neg (erf_el (FIN p) (FIN a1) (FIN a2) (FIN a3) (FIN a4) (FIN a5) (FIN x))) as Hodd.
    { intros p a1 a2 a3 a4 a5 Hp. unfold erf_el. rewrite !fin_abs, Rabs_Ropp, !fin_lit, L0 || rewrite !fin_abs, Rabs_Ropp, !fin_lit.
      pose proof (Rabs_pos x). assert (0 < 1 + p * Rabs x) by nra. rewrite L1.
      repeat first [rewrite fin_mul|rewrite fin_add|rewrite fin_div by lra|rewrite fin_neg|rewrite fin_exp|rewrite fin_sub].
      rewrite !fin_0, !fin_gt. unfold Rgtb. destruct (Rlt_dec (- x) 0), (Rlt_dec x 0); try lra;
        rewrite !fin_mul, fin_neg; f_equal; unfold Q2R; simpl; lra. }
    unfold erf_f32, erf_f64. rewrite !fin_lit. split; apply Hodd; unfold Q2R; simpl; lra.
Qed.

Lemma activations_correct_witness :
  ∃ y, softplus_el (FIN 1) (FIN 30) = FIN y ∧ y <= ln (1 + Rtrigo_def.exp (1 * 30)) / 1 <= y + Rtrigo_def.exp (-20) / 1.
Proof.
  destruct (activations_correct 30 1 1 1 1 ltac:(lra)) as (_ & _ & _ & _ & _ & H & _). exact H.
Defined.
