(* ===== verification/MatMul.v ===== *)
(** * Matrix products of the CPU backend
      (crates/rustorch-cpu/src/cpu_backend.rs, backend.rs)

    [matmul] on matrices of any layout and float dtype, the batched product, the
    transposition-aware product and the linear layer that the trait composes from
    it, [add_bias].  Small products are computed by a loop over the strides of the
    operands, larger ones by the [gemm] crate on their elements in row-major order. *)

From Stdlib Require Import ZArith Lia.
From stdpp Require Import base list gmap.
From S2P Require Import Prelude Loops Dtype Float Shape Layout Storage Tensor View Mutate Iterator Conv ShapeOps Reduce IndexOps Fresh CpuOps.

Open Scope Z_scope.

Definition GEMM_DISPATCH_MIN : Z := 32.

Section matmul.
Context (half : HalfCrate) (half32 : HalfF32) (oom : Z → bool) (junk : Z → Z → list Z).
(** [gemm::gemm] on row-major operands: the contents of the destination *)
Context (gemm : Dtype → nat → nat → nat → list Z → list Z → list Z).

(** [(off + i as isize * strides[0] + j as isize * strides[1]) as usize] *)
Definition matrix_index (off s0 s1 : Z) (i j : nat) : nat :=
  Z.to_nat (wrap 64 (swrap 64 (swrap 64 (swrap 64 off + swrap 64 (Z.of_nat i * s0)) + swrap 64 (Z.of_nat j * s1)))).

(** [matmul_naive::<T>] *)
Definition matmul_naive (T : Dtype) (w : World) (lhs rhs : Tensor) (m k n : Z) : res BackendError (World * Tensor) :=
  let? out := vec_of (Dtype_byte_size T) (wrap 64 (m * n)) 0 in
  let read (raw : list Z) (t : Tensor) i j :=
    let? s0 := unwrap_opt (l_strides (t_layout t) !! 0%nat) in
    let? s1 := unwrap_opt (l_strides (t_layout t) !! 1%nat) in
    rd (E := BackendError) raw (matrix_index (l_offset (t_layout t)) s0 s1 i j) in
  let lhs_raw := typed_slice (elem_size T) (as_bytes w (t_storage lhs)) in
  let rhs_raw := typed_slice (elem_size T) (as_bytes w (t_storage rhs)) in
  let? out := for_range (Z.to_nat m) (λ out i, for_range (Z.to_nat n) (λ out j,
      let? acc := for_range (Z.to_nat k) (λ acc kk,
          let? x := read lhs_raw lhs i kk in
          let? y := read rhs_raw rhs kk j in
          Ok (num_add T acc (num_mul T x y))) 0 in
      put out (ix (i * Z.to_nat n + j)) acc) out) out in
  finish oom junk w T [m; n] (m * n) out.

(** The borrowed slice, or the elements in shape order *)
Definition gemm_operand (w : World) (t : Tensor) (e : BackendError) : res BackendError (list Z) :=
  let? s := slice_of w t F32 in
  match s with
  | Some s => Ok s
  | None =>
      let? it := unwrap (iter_elements w t F32) in
      ok_or e it
  end.

Definition matmul_dispatch_f32_via_gemm_rs (w : World) (lhs rhs : Tensor) (m k n : Z) : res BackendError (World * Tensor) :=
  let e := BDtypeMismatch (t_dtype lhs) (t_dtype rhs) in
  let? lhs_slice := gemm_operand w lhs e in
  let? rhs_slice := gemm_operand w rhs e in
  let? _ := vec_of (E := BackendError) 4 (wrap 64 (m * n)) 0 in
  finish oom junk w F32 [m; n] (m * n) (gemm F32 (Z.to_nat m) (Z.to_nat n) (Z.to_nat k) lhs_slice rhs_slice).

Definition small_product (m k n : Z) : bool :=
  (m <? GEMM_DISPATCH_MIN) || (n <? GEMM_DISPATCH_MIN) || (k <? GEMM_DISPATCH_MIN).

Definition matmul_dispatch_f32 (w : World) (lhs rhs : Tensor) (m k n : Z) : res BackendError (World * Tensor) :=
  if small_product m k n then matmul_naive F32 w lhs rhs m k n else matmul_dispatch_f32_via_gemm_rs w lhs rhs m k n.

Definition matmul_dispatch_f64 (w : World) (lhs rhs : Tensor) (m k n : Z) : res BackendError (World * Tensor) :=
  if small_product m k n then matmul_naive F64 w lhs rhs m k n
  else
    let? l := unwrap (iter_elements w lhs F64) in
    let? lhs_buf := ok_or (BDtypeMismatch (t_dtype lhs) (t_dtype rhs)) l in
    let? r := unwrap (iter_elements w rhs F64) in
    let? rhs_buf := ok_or (BDtypeMismatch (t_dtype lhs) (t_dtype rhs)) r in
    let? _ := vec_of (E := BackendError) 8 (wrap 64 (m * n)) 0 in
    finish oom junk w F64 [m; n] (m * n) (gemm F64 (Z.to_nat m) (Z.to_nat n) (Z.to_nat k) lhs_buf rhs_buf).

(** The product of half-precision matrices goes through [f32]; the temporaries are
    dropped in reverse order. *)
Definition matmul_half (w : World) (lhs rhs : Tensor) (m k n : Z) (T : Dtype) : res BackendError (World * Tensor) :=
  let? (w, lhs_f) := unwrap (to_dtype half oom junk w lhs F32) in
  let? (w, rhs_f) := unwrap (to_dtype half oom junk w rhs F32) in
  let? (w, out_f) := matmul_dispatch_f32 w lhs_f rhs_f m k n in
  let? (w, out) := unwrap (to_dtype half oom junk w out_f T) in
  Ok (foldl drop_tensor w [out_f; rhs_f; lhs_f], out).

Definition matmul (w : World) (lhs rhs : Tensor) : res BackendError (World * Tensor) :=
  if negb (bool_decide (t_dtype lhs = t_dtype rhs)) then Err (BDtypeMismatch (t_dtype lhs) (t_dtype rhs))
  else match t_shape lhs, t_shape rhs with
    | [m; k1], [k2; n] =>
        if negb (k1 =? k2) then Err (BShapeMismatch (t_shape lhs) (t_shape rhs))
        else match t_dtype lhs with
          | F32 => matmul_dispatch_f32 w lhs rhs m k1 n
          | F64 => matmul_dispatch_f64 w lhs rhs m k1 n
          | (BF16 | F16) as T => matmul_half w lhs rhs m k1 n T
          | d => Err (BDtypeMismatch d d)
          end
    | _, _ => Err (BShapeMismatch (t_shape lhs) (t_shape rhs))
    end.

(** [bmm_impl] *)
Definition bmm (w : World) (lhs rhs : Tensor) : res BackendError (World * Tensor) :=
  match t_shape lhs, t_shape rhs with
  | [b; m; k1], [b2; k2; n] =>
      if negb (b =? b2) || negb (k1 =? k2) then Err (BShapeMismatch (t_shape lhs) (t_shape rhs))
      else
        let? l := slice_of w lhs F32 in
        let? l_data := ok_or BNumericalError l in
        let? r := slice_of w rhs F32 in
        let? r_data := ok_or BNumericalError r in
        let '(B, M, K, N) := (Z.to_nat b, Z.to_nat m, Z.to_nat k1, Z.to_nat n) in
        let? out := vec_of 4 (wrap 64 (wrap 64 (b * m) * n)) 0 in
        let? out := for_range B (λ out bi,
            for_range M (λ out i, for_range N (λ out j,
              let? acc := for_range K (λ acc kk,
                  let? x := rd l_data (ix (bi * M * K + i * K + kk)) in
                  let? y := rd r_data (ix (bi * K * N + kk * N + j)) in
                  Ok (fadd binary32 acc (fmul binary32 x y))) 0 in
              put out (ix (bi * M * N + i * N + j)) acc) out) out) out in
        map_err (λ _, BNumericalError) (from_vec_typed oom junk w F32 [b; m; n] out)
  | _, _ => Err (BShapeMismatch (t_shape lhs) (t_shape rhs))
  end.

(** [Backend::transpose]: the view is dropped after the copy. *)
Definition transpose (w : World) (src : Tensor) (d0 d1 : nat) : res BackendError (World * Tensor) :=
  let? (w, view) := map_err (λ _, BNumericalError) (run_view (OpTranspose d0 d1) w src) in
  let? (w, out) := unwrap (contiguous oom junk w view) in
  Ok (drop_tensor w view, out).

(** The rows of [x] plus the bias, in one pass or by rows in parallel *)
Definition add_bias_rows {E} (x_buf bias_buf : list Z) (batch n_out : nat) : res E (list Z) :=
  let n := ix (batch * n_out) in
  if Z.of_nat n <? 16384 then
    for_range batch (λ out b, for_range n_out (λ out j,
      let? x := rd x_buf (ix (b * n_out + j)) in
      let? y := rd bias_buf j in
      put out (ix (b * n_out + j)) (fadd binary32 x y)) out) (replicate n 0)
  else
    let? rows := rmapM (λ x_row, rmapM (λ j,
        let? x := rd x_row j in
        let? y := rd bias_buf j in
        Ok (fadd binary32 x y)) (seq 0 n_out)) (par_chunks n_out x_buf) in
    Ok (concat rows).

Definition add_bias (w : World) (x bias : Tensor) : res BackendError (World * Tensor) :=
  match t_shape x, t_shape bias with
  | [batch; n_out], [n_bias] =>
      if negb (n_bias =? n_out) then Err (BShapeMismatch (t_shape x) (t_shape bias))
      else
        let? b := slice_of w bias F32 in
        let? bias_buf := ok_or BNumericalError b in
        let? xs := slice_of w x F32 in
        match xs with
        | Some x_buf =>
            let? _ := vec_of (E := BackendError) 4 (wrap 64 (batch * n_out)) 0 in
            let? out := add_bias_rows x_buf bias_buf (Z.to_nat batch) (Z.to_nat n_out) in
            finish oom junk w F32 [batch; n_out] (batch * n_out) out
        | None =>
            let? _ := vec_of (E := BackendError) 4 (wrap 64 (batch * n_out)) 0 in
            let wide := concat (replicate (Z.to_nat batch) bias_buf) in
            let? (w, bias_wide) := map_err (λ _, BNumericalError) (from_vec_typed oom junk w F32 [batch; n_out] wide) in
            let? (w, out) := add half32 oom junk w x bias_wide in
            Ok (drop_tensor w bias_wide, out)
        end
  | _, _ => Err (BShapeMismatch (t_shape x) (t_shape bias))
  end.

(** [Backend::matmul_with_transposes]: an operand is transposed or cloned. *)
Definition effective (w : World) (t : Tensor) (flag : bool) : res BackendError (World * Tensor) :=
  if flag then transpose w t 0 1 else Ok (Tensor_clone w t).

Definition matmul_with_transposes (w : World) (lhs rhs : Tensor) (transpose_a transpose_b : bool)
    : res BackendError (World * Tensor) :=
  let? (w, lhs_eff) := effective w lhs transpose_a in
  let? (w, rhs_eff) := effective w rhs transpose_b in
  let? (w, out) := matmul w lhs_eff rhs_eff in
  Ok (drop_tensor (drop_tensor w rhs_eff) lhs_eff, out).

(** [Backend::matmul_with_bias] *)
Definition matmul_with_bias (w : World) (lhs rhs bias : Tensor) : res BackendError (World * Tensor) :=
  let? (w, mm) := matmul w lhs rhs in
  let? (w, out) := add_bias w mm bias in
  Ok (drop_tensor w mm, out).
End matmul.

(** ** Specification *)

(** The values that adding products in some order, with any association and with
    products rounded or fused into the addition, can give *)
Inductive rounded_sum (fma : Dtype → Z → Z → Z → Z) (T : Dtype) : list (Z * Z) → Z → Prop :=
  | sum_none : rounded_sum fma T [] 0
  | sum_product a b : rounded_sum fma T [(a, b)] (num_mul T a b)
  | sum_plus l1 l2 x y : rounded_sum fma T l1 x → rounded_sum fma T l2 y → rounded_sum fma T (l1 ++ l2) (num_add T x y)
  | sum_fused l x a b : rounded_sum fma T l x → rounded_sum fma T (l ++ [(a, b)]) (fma T a b x)
  | sum_order l1 l2 x : l1 ≡ₚ l2 → rounded_sum fma T l1 x → rounded_sum fma T l2 x.

(** The sum from the left, starting with zero *)
Definition left_sum (T : Dtype) (l : list (Z * Z)) : Z := foldl (λ acc xy, num_add T acc (num_mul T xy.1 xy.2)) 0 l.

(** The pairs that an element of a product multiplies *)
Definition pairs (k : nat) (a b : nat → Z) : list (Z * Z) := (λ kk, (a kk, b kk)) <$> seq 0 k.

(** What the [gemm] crate promises: every element of the destination is such a sum. *)
Definition gemm_ok (fma : Dtype → Z → Z → Z → Z) (gemm : Dtype → nat → nat → nat → list Z → list Z → list Z) : Prop :=
  ∀ T m n k f g, T = F32 ∨ T = F64 → (∀ i j, value_of T (f i j)) → (∀ i j, value_of T (g i j)) →
  ∃ h, gemm T m n k (grid m k f) (grid k n g) = grid m n h ∧
    ∀ i j, (i < m)%nat → (j < n)%nat → value_of T (h i j) ∧ rounded_sum fma T (pairs k (f i) (λ kk, g kk j)) (h i j).

Lemma left_sum_rounded fma T l : rounded_sum fma T l (left_sum T l).
Proof.
  induction l as [|[a b] l IH] using rev_ind; [constructor|].
  unfold left_sum. rewrite foldl_app. simpl. apply sum_plus; [exact IH|constructor].
Qed.

Lemma left_sum_value T l : T = F32 ∨ T = F64 → value_of T (left_sum T l).
Proof.
  intros HT. induction l as [|[a b] l _] using rev_ind.
  - unfold left_sum, value_of, uint. simpl. by destruct HT as [-> | ->].
  - unfold left_sum. rewrite foldl_app. simpl. unfold num_add. destruct HT as [-> | ->]; simpl.
    + apply (arith_uint binary32), binary32_wf.
    + apply (arith_uint binary64), binary64_wf.
Qed.

(** ** Matrices *)

Lemma elements_grid (m n : Z) g : 0 ≤ m → 0 ≤ n →
  elements [m; n] g = grid (Z.to_nat m) (Z.to_nat n) (λ i j, g [Z.of_nat i; Z.of_nat j]).
Proof.
  intros Hm Hn. apply grid_unique.
  - rewrite length_elements, !zprod_cons, zprod_nil, Z.mul_1_r, Z2Nat.inj_mul; done.
  - intros i j Hi Hj. assert (in_range [m; n] [Z.of_nat i; Z.of_nat j]) as Hr by (repeat constructor; lia).
    rewrite <- (elements_lookup _ g _ Hr). f_equal. simpl. rewrite zprod_cons, zprod_nil. lia.
Qed.

Lemma grid_elements (m n : Z) f : 0 ≤ m → 0 ≤ n →
  grid (Z.to_nat m) (Z.to_nat n) f = elements [m; n] (λ idx, f (Z.to_nat (idx !!! 0%nat)) (Z.to_nat (idx !!! 1%nat))).
Proof. intros. rewrite elements_grid by done. apply grid_ext. intros i j _ _. simpl. by rewrite !Nat2Z.id. Qed.

(** A matrix of a dtype *)
Record matrix (w : World) (t : Tensor) (T : Dtype) (m n : Z) : Prop := {
  mx_wf : tensor_wf w t;
  mx_dtype : t_dtype t = T;
  mx_shape : t_shape t = [m; n]
}.

Definition entry (w : World) (t : Tensor) (i j : nat) : Z := element w t [Z.of_nat i; Z.of_nat j].

Lemma matrix_dims w t T m n : matrix w t T m n → 0 ≤ m ∧ 0 ≤ n.
Proof.
  intros [(_ & _ & Hl & _) _ Hs]. pose proof (shape_wf_nonneg _ (proj1 (li_fits _ _ Hl))) as H.
  unfold t_shape in Hs. rewrite Hs in H. by apply Forall_cons in H as [? [? _]%Forall_cons].
Qed.

Lemma matrix_order w t T m n : matrix w t T m n → shape_order w t = grid (Z.to_nat m) (Z.to_nat n) (entry w t).
Proof.
  intros M. destruct (matrix_dims _ _ _ _ _ M). rewrite shape_order_elements, (mx_shape _ _ _ _ _ M).
  by apply elements_grid.
Qed.

Lemma entry_value w t T m n i j : matrix w t T m n → value_of T (entry w t i j).
Proof. intros [Hwf <- _]. by apply element_uint. Qed.

Lemma matrix_index_address w t T m n i j : matrix w t T m n → (i < Z.to_nat m)%nat → (j < Z.to_nat n)%nat →
  ∃ s0 s1, l_strides (t_layout t) = [s0; s1] ∧
    raw_slice w t !! matrix_index (l_offset (t_layout t)) s0 s1 i j = Some (entry w t i j).
Proof.
  intros [Hwf Hd Hs] Hi Hj. assert (in_range (t_shape t) [Z.of_nat i; Z.of_nat j]) as Hr.
  { rewrite Hs. repeat constructor; lia. }
  pose proof Hwf as (Hw & Hh & Hl & _). destruct (li_wf _ _ Hl) as (_ & Hlen & _). unfold t_shape in Hs. rewrite Hs in Hlen.
  destruct (element_raw w t _ Hwf Hr) as [He Hp]. pose proof (li_bound _ _ Hl _ Hr). pose proof (li_len _ _ Hl).
  destruct (l_strides (t_layout t)) as [|s0 [|s1 [|]]] eqn:Hss; try done. exists s0, s1. split; [done|].
  unfold entry. rewrite <- He. f_equal. unfold matrix_index. f_equal.
  set (a := address _ _) in *.
  assert (a = l_offset (t_layout t) + Z.of_nat i * s0 + Z.of_nat j * s1) as Ha.
  { unfold a, address, Shape.dot. rewrite Hss. unfold zsum. simpl. lia. }
  rewrite wrap_swrap, swrap_add_r, swrap_add_l by lia. rewrite <- wrap_swrap, swrap_add_l, swrap_add_r, <- Ha, wrap_swrap by lia.
  apply wrap_small. unfold uint. lia.
Qed.

Lemma for_range_left_sum {E} T k (a b : nat → Z) (body : Z → nat → res E Z) :
  (∀ acc kk, (kk < k)%nat → body acc kk = Ok (num_add T acc (num_mul T (a kk) (b kk)))) →
  for_range k body 0 = Ok (left_sum T (pairs k a b)).
Proof.
  intros Hb. change (for_range k body 0) with (for_range k body (left_sum T (pairs 0 a b))).
  rewrite (for_range_inv k body (λ r, left_sum T (pairs r a b))); [done|].
  intros r Hr. rewrite Hb by done. unfold pairs, left_sum. rewrite seq_S, fmap_app, foldl_app. done.
Qed.

Section products.
Context (half : HalfCrate) (half32 : HalfF32) (oom : Z → bool) (junk : Z → Z → list Z).
Context (gemm : Dtype → nat → nat → nat → list Z → list Z → list Z) (fma : Dtype → Z → Z → Z → Z).
Hypothesis junk_len : ∀ p n, 0 ≤ n → Z.of_nat (length (junk p n)) = n.
Hypothesis no_oom : ∀ n, oom n = false.
Hypothesis gemm_spec : gemm_ok fma gemm.

Lemma finish_grid w T (m n num : Z) f : world_wf w → fits_alloc [m; n] T → (∀ i j, value_of T (f i j)) →
  ∃ w' t, finish oom junk w T [m; n] num (grid (Z.to_nat m) (Z.to_nat n) f) = Ok (w', t) ∧
    fresh_all w w' [t] ∧ matrix w' t T m n ∧ dense_as T t ∧
    ∀ i j, (i < Z.to_nat m)%nat → (j < Z.to_nat n)%nat → entry w' t i j = f i j.
Proof using junk_len no_oom.
  intros Hw Hfit Hf. pose proof (shape_wf_nonneg _ (proj1 (proj1 Hfit))) as Hp.
  apply Forall_cons in Hp as [Hm [Hn _]%Forall_cons]. rewrite grid_elements by done.
  set (g := λ idx : list Z, f (Z.to_nat (idx !!! 0%nat)) (Z.to_nat (idx !!! 1%nat))).
  pose proof (finish_spec oom junk junk_len w T [m; n] num g Hw Hfit (λ idx _, Hf _ _)) as H.
  destruct (finish _ _ _ _ _ _ _) as [[w' t]|e|]; [|destruct e; by try (destruct H; apply no_oom)|done].
  exists w', t. split; [done|]. pose proof H as (Hwf & Hd & Hs & Hl & _ & _ & He).
  split; [by eapply fresh_all_made|]. split; [by split|]. split.
  { split; [done|]. unfold t_is_contiguous. by rewrite Hl. }
  intros i j Hi Hj. unfold entry. rewrite He by (repeat constructor; lia). unfold g. simpl. by rewrite !Nat2Z.id.
Qed.

(** The size of a matrix that fits an allocation *)
Lemma matrix_fits m n T : fits_alloc [m; n] T → 0 ≤ m ∧ 0 ≤ n ∧ m * n < 2 ^ 63 ∧
  (Z.of_nat (Z.to_nat m * Z.to_nat n) < 2 ^ 64) ∧ ∀ {E} (x : Z), vec_of (E := E) (Dtype_byte_size T) (wrap 64 (m * n)) x =
    Ok (replicate (Z.to_nat m * Z.to_nat n) x).
Proof using Type.
  intros [Hs Hm]. pose proof (shape_fits_prod _ Hs) as Hp. pose proof (shape_wf_nonneg _ (proj1 Hs)) as Hn.
  apply Forall_cons in Hn as [H1 [H2 _]%Forall_cons]. rewrite !zprod_cons, zprod_nil, Z.mul_1_r in *.
  pose proof (byte_size_pos T). split; [done|]. split; [done|]. split; [nia|]. split; [nia|].
  intros E x. unfold vec_of, CPU_ALIGN in *. rewrite wrap_small by (unfold uint; nia).
  rewrite (proj2 (Z.ltb_ge _ _)) by nia. by rewrite Z2Nat.inj_mul.
Qed.

(** What the elements of a product are: a sum in some order, from the left when it is small *)
Definition product_cell (T : Dtype) (m k n : Z) (l : list (Z * Z)) (x : Z) : Prop :=
  rounded_sum fma T l x ∧ (small_product m k n = true → x = left_sum T l).

Definition product_post (T : Dtype) (w : World) (lhs rhs : Tensor) (m k n : Z) (w' : World) (t : Tensor) : Prop :=
  fresh_all w w' [t] ∧ matrix w' t T m n ∧ dense_as T t ∧
  ∀ i j, (i < Z.to_nat m)%nat → (j < Z.to_nat n)%nat →
    product_cell T m k n (pairs (Z.to_nat k) (entry w lhs i) (λ kk, entry w rhs kk j)) (entry w' t i j).

Lemma matmul_naive_spec T w lhs rhs m k n : T = F32 ∨ T = F64 → matrix w lhs T m k → matrix w rhs T k n → fits_alloc [m; n] T →
  ∃ w' t, matmul_naive oom junk T w lhs rhs m k n = Ok (w', t) ∧ product_post T w lhs rhs m k n w' t.
Proof using junk_len no_oom.
  intros HT Hl Hr Hfit. destruct (matrix_fits m n T Hfit) as (Hm & Hn & _ & Hmn & Hv).
  unfold matmul_naive. rewrite Hv. cbn [rbind].
  set (c := λ i j, left_sum T (pairs (Z.to_nat k) (entry w lhs i) (λ kk, entry w rhs kk j))).
  rewrite (grid_loop (Z.to_nat m) (Z.to_nat n) _ c).
  - cbn [rbind]. destruct (finish_grid w T m n (m * n) c) as (w' & t & -> & H1 & H2 & H2' & H3); [apply Hl|done| |].
    { intros i j. by apply left_sum_value. }
    exists w', t. split; [done|]. split; [done|]. split; [done|]. split; [done|]. intros i j Hi Hj. rewrite H3 by done.
    split; [apply left_sum_rounded|done].
  - apply length_replicate.
  - intros l i j Hi Hj.
    assert (i * Z.to_nat n + j < Z.to_nat m * Z.to_nat n)%nat by (by apply digit_lt).
    rewrite (for_range_left_sum T (Z.to_nat k) (entry w lhs i) (λ kk, entry w rhs kk j)).
    + cbn [rbind]. by rewrite ix_small by lia.
    + intros acc kk Hk.
      destruct (matrix_index_address w lhs T m k i kk Hl Hi Hk) as (s0 & s1 & Hs & Hx).
      destruct (matrix_index_address w rhs T k n kk j Hr Hk Hj) as (s0' & s1' & Hs' & Hy).
      unfold raw_slice in Hx, Hy. rewrite (mx_dtype _ _ _ _ _ Hl) in Hx. rewrite (mx_dtype _ _ _ _ _ Hr) in Hy.
      rewrite Hs, Hs'. cbn. unfold rd. by rewrite Hx, Hy.
Qed.

Lemma gemm_operand_spec w t m n e : matrix w t F32 m n →
  gemm_operand w t e = Ok (grid (Z.to_nat m) (Z.to_nat n) (entry w t)).
Proof using Type.
  intros M. unfold gemm_operand. rewrite slice_of_spec by apply M. rewrite <- (matrix_order _ _ _ _ _ M).
  destruct (decide (dense_as F32 t)); [done|]. cbn [rbind]. pose proof (iter_elements_spec w t (mx_wf _ _ _ _ _ M)) as H.
  rewrite (mx_dtype _ _ _ _ _ M) in H. by rewrite H.
Qed.

Lemma gemm_path T w lhs rhs m k n : T = F32 ∨ T = F64 → matrix w lhs T m k → matrix w rhs T k n → fits_alloc [m; n] T →
  small_product m k n = false →
  ∃ w' t, finish oom junk w T [m; n] (m * n) (gemm T (Z.to_nat m) (Z.to_nat n) (Z.to_nat k)
      (grid (Z.to_nat m) (Z.to_nat k) (entry w lhs)) (grid (Z.to_nat k) (Z.to_nat n) (entry w rhs))) = Ok (w', t) ∧
    product_post T w lhs rhs m k n w' t.
Proof using -(half32).
  intros HT Hl Hr Hfit Hs.
  destruct (gemm_spec T (Z.to_nat m) (Z.to_nat n) (Z.to_nat k) (entry w lhs) (entry w rhs) HT) as (h & -> & Hh).
  { intros i j. by apply (entry_value _ _ _ m k). } { intros i j. by apply (entry_value _ _ _ k n). }
  set (h' := λ i j, if decide (i < Z.to_nat m ∧ j < Z.to_nat n)%nat then h i j else 0).
  rewrite (grid_ext _ _ h h') by (intros i j Hi Hj; unfold h'; by rewrite decide_True).
  destruct (finish_grid w T m n (m * n) h') as (w' & t & -> & H1 & H2 & H2' & H3); [apply Hl|done| |].
  { intros i j. unfold h'. destruct (decide _) as [[Hi Hj]|_]; [by apply Hh|]. unfold value_of, uint. by destruct HT as [-> | ->]. }
  exists w', t. split; [done|]. split; [done|]. split; [done|]. split; [done|]. intros i j Hi Hj. rewrite H3 by done.
  unfold h'. rewrite decide_True by done. split; [by apply Hh|]. by rewrite Hs.
Qed.

Lemma matmul_dispatch_f32_spec w lhs rhs m k n : matrix w lhs F32 m k → matrix w rhs F32 k n → fits_alloc [m; n] F32 →
  ∃ w' t, matmul_dispatch_f32 oom junk gemm w lhs rhs m k n = Ok (w', t) ∧ product_post F32 w lhs rhs m k n w' t.
Proof using -(half32).
  intros Hl Hr Hfit. unfold matmul_dispatch_f32. destruct (small_product m k n) eqn:Hs.
  - apply matmul_naive_spec; auto.
  - unfold matmul_dispatch_f32_via_gemm_rs. rewrite (gemm_operand_spec w lhs m k), (gemm_operand_spec w rhs k n) by done.
    destruct (matrix_fits m n F32 Hfit) as (_ & _ & _ & _ & Hv). cbn [rbind].
    change 4 with (Dtype_byte_size F32). rewrite Hv. cbn [rbind]. apply gemm_path; auto.
Qed.

Lemma matmul_dispatch_f64_spec w lhs rhs m k n : matrix w lhs F64 m k → matrix w rhs F64 k n → fits_alloc [m; n] F64 →
  ∃ w' t, matmul_dispatch_f64 oom junk gemm w lhs rhs m k n = Ok (w', t) ∧ product_post F64 w lhs rhs m k n w' t.
Proof using -(half32).
  intros Hl Hr Hfit. unfold matmul_dispatch_f64. destruct (small_product m k n) eqn:Hs.
  - apply matmul_naive_spec; auto.
  - pose proof (iter_elements_spec w lhs (mx_wf _ _ _ _ _ Hl)) as H1. pose proof (iter_elements_spec w rhs (mx_wf _ _ _ _ _ Hr)) as H2.
    rewrite (mx_dtype _ _ _ _ _ Hl), (matrix_order _ _ _ _ _ Hl) in H1. rewrite (mx_dtype _ _ _ _ _ Hr), (matrix_order _ _ _ _ _ Hr) in H2.
    rewrite H1, H2. cbn [unwrap rbind ok_or].
    destruct (matrix_fits m n F64 Hfit) as (_ & _ & _ & _ & Hv).
    change 8 with (Dtype_byte_size F64). rewrite Hv. cbn [rbind]. apply gemm_path; auto.
Qed.

(** *** Half precision *)

Hypothesis half_fine : half_ok half.
Hypothesis half_wide_fine : half_wide half.

Definition widen (T : Dtype) (x : Z) : Z := from_f64 half F32 (to_f64 half T x).
Definition narrow (T : Dtype) (x : Z) : Z := from_f64 half T (to_f64 half F32 x).

(** An element of [matmul]; half precision goes through [f32]. *)
Definition matmul_cell (T : Dtype) (m k n : Z) (l : list (Z * Z)) (x : Z) : Prop :=
  match T with
  | F16 | BF16 => ∃ y, product_cell F32 m k n ((λ ab, (widen T ab.1, widen T ab.2)) <$> l) y ∧ x = narrow T y
  | _ => product_cell T m k n l x
  end.

Definition matmul_post (T : Dtype) (w : World) (lhs rhs : Tensor) (m k n : Z) (w' : World) (t : Tensor) : Prop :=
  fresh_all w w' [t] ∧ matrix w' t T m n ∧ dense_as T t ∧
  ∀ i j, (i < Z.to_nat m)%nat → (j < Z.to_nat n)%nat →
    matmul_cell T m k n (pairs (Z.to_nat k) (entry w lhs i) (λ kk, entry w rhs kk j)) (entry w' t i j).

Lemma fits_alloc_narrow s T : fits_alloc s F64 → fits_alloc s T.
Proof using Type.
  intros [Hs Hm]. split; [done|]. pose proof (shape_fits_prod _ Hs). pose proof (byte_size_pos T).
  change (Dtype_byte_size F64) with 8 in Hm. nia.
Qed.

Lemma matrix_extends w w' us t T m n : fresh_all w w' us → matrix w t T m n →
  matrix w' t T m n ∧ ∀ i j, entry w' t i j = entry w t i j.
Proof using Type.
  intros (Hw & He & _) M. destruct (extends_tensor w w' t Hw He (mx_wf _ _ _ _ _ M)) as [H1 H2].
  split; [split; [done|apply M..]|]. intros. apply H2.
Qed.

(** Dropping temporaries keeps the result. *)
Lemma matrix_drops w w' us t T m n : fresh_all w w' (us ++ [t]) → matrix w' t T m n →
  fresh_all w (foldl drop_tensor w' us) [t] ∧ matrix (foldl drop_tensor w' us) t T m n ∧
  ∀ i j, entry (foldl drop_tensor w' us) t i j = entry w' t i j.
Proof using Type.
  intros Hf M. destruct (fresh_all_drops _ _ _ _ Hf) as [H1 H2]. split; [done|]. split.
  - split; [|apply M..]. apply H1. by left.
  - intros. apply H2. by left.
Qed.

(** The conversion of a matrix *)
Lemma convert_matrix w t T U m n : matrix w t T m n → T ≠ U → fits_alloc [m; n] U →
  ∃ w' c, to_dtype half oom junk w t U = Ok (w', c) ∧ fresh_all w w' [c] ∧ matrix w' c U m n ∧ dense_as U c ∧
    ∀ i j, (i < Z.to_nat m)%nat → (j < Z.to_nat n)%nat → entry w' c i j = from_f64 half U (to_f64 half T (entry w t i j)).
Proof using junk_len no_oom half_fine half_wide_fine.
  intros M Hne Hfit. destruct M as [Hwf Hd Hs].
  destruct (to_dtype_cast half oom junk w t U) as (w' & c & -> & Hm); [done..|by rewrite Hs|by rewrite Hd|].
  rewrite Hs, Hd in Hm. exists w', c. split; [done|]. pose proof Hm as (H1 & H2 & H3 & H4 & _ & _ & He).
  split; [by eapply fresh_all_made|]. split; [by split|]. split; [split; [done|]; unfold t_is_contiguous; by rewrite H4|].
  intros i j Hi Hj. unfold entry. by rewrite He by (repeat constructor; lia).
Qed.

Lemma pairs_fmap (c : Z → Z) k a b : (λ ab : Z * Z, (c ab.1, c ab.2)) <$> pairs k a b = pairs k (λ i, c (a i)) (λ i, c (b i)).
Proof using Type. unfold pairs. rewrite <- list_fmap_compose. done. Qed.

Lemma pairs_ext k a b a' b' : (∀ i, (i < k)%nat → a i = a' i ∧ b i = b' i) → pairs k a b = pairs k a' b'.
Proof using Type. intros H. apply list_fmap_ext. intros i x [-> Hi]%lookup_seq. simpl in *. by destruct (H i Hi) as [-> ->]. Qed.

Lemma matmul_half_spec T w lhs rhs m k n : T = F16 ∨ T = BF16 → matrix w lhs T m k → matrix w rhs T k n →
  fits_alloc [m; k] F64 → fits_alloc [k; n] F64 → fits_alloc [m; n] F64 →
  ∃ w' t, matmul_half half oom junk gemm w lhs rhs m k n T = Ok (w', t) ∧ matmul_post T w lhs rhs m k n w' t.
Proof using -(half32).
  intros HT Hl Hr Hmk Hkn Hmn. assert (T ≠ F32) as Hne by (by destruct HT as [-> | ->]).
  unfold matmul_half.
  destruct (convert_matrix w lhs T F32 m k Hl Hne (fits_alloc_narrow _ _ Hmk)) as (w1 & lf & -> & F1 & M1 & _ & E1).
  cbn [unwrap rbind]. destruct (matrix_extends w w1 _ rhs T k n F1 Hr) as [Hr1 Er1].
  destruct (convert_matrix w1 rhs T F32 k n Hr1 Hne (fits_alloc_narrow _ _ Hkn)) as (w2 & rf & -> & F2 & M2 & _ & E2).
  cbn [unwrap rbind]. destruct (matrix_extends w1 w2 _ lf F32 m k F2 M1) as [M1' E1'].
  destruct (matmul_dispatch_f32_spec w2 lf rf m k n M1' M2 (fits_alloc_narrow _ _ Hmn)) as (w3 & o & -> & F3 & M3 & _ & C3).
  cbn [rbind]. destruct (convert_matrix w3 o F32 T m n M3 (not_eq_sym Hne) (fits_alloc_narrow _ _ Hmn)) as (w4 & out & -> & F4 & M4 & D4 & E4).
  cbn [unwrap rbind].
  assert (fresh_all w w4 ([o; rf; lf] ++ [out])) as Hall.
  { eapply fresh_all_perm; [|exact (fresh_all_trans _ _ _ _ _ (fresh_all_trans _ _ _ _ _ (fresh_all_trans _ _ _ _ _ F1 F2) F3) F4)].
    simpl. solve_Permutation. }
  destruct (matrix_drops w w4 [o; rf; lf] out T m n Hall M4) as (H1 & H2 & H3).
  eexists _, out. split; [done|]. split; [done|]. split; [done|]. split; [done|].
  intros i j Hi Hj. rewrite H3, E4 by done.
  assert (∃ y, product_cell F32 m k n ((λ ab, (widen T ab.1, widen T ab.2)) <$>
      pairs (Z.to_nat k) (entry w lhs i) (λ kk, entry w rhs kk j)) y ∧ from_f64 half T (to_f64 half F32 (entry w3 o i j)) = narrow T y) as Hc.
  { exists (entry w3 o i j). split; [|done]. specialize (C3 i j Hi Hj). rewrite pairs_fmap.
    erewrite pairs_ext; [exact C3|]. intros kk Hk. by rewrite E1', E1, E2, Er1. }
  by destruct HT as [-> | ->].
Qed.

Definition float_dtype (T : Dtype) : bool := match T with F32 | F64 | F16 | BF16 => true | _ => false end.

Lemma matmul_run T w lhs rhs m k n : float_dtype T = true → matrix w lhs T m k → matrix w rhs T k n →
  fits_alloc [m; k] F64 → fits_alloc [k; n] F64 → fits_alloc [m; n] F64 →
  ∃ w' t, matmul half oom junk gemm w lhs rhs = Ok (w', t) ∧ matmul_post T w lhs rhs m k n w' t.
Proof using -(half32).
  intros HT Hl Hr Hmk Hkn Hmn. unfold matmul.
  rewrite (mx_dtype _ _ _ _ _ Hl), (mx_dtype _ _ _ _ _ Hr), (mx_shape _ _ _ _ _ Hl), (mx_shape _ _ _ _ _ Hr).
  rewrite bool_decide_eq_true_2, Z.eqb_refl by done. cbn [negb]. destruct T; try done.
  - apply matmul_dispatch_f32_spec; [done..|by apply fits_alloc_narrow].
  - by apply matmul_dispatch_f64_spec.
  - apply matmul_half_spec; auto.
  - apply matmul_half_spec; auto.
Qed.

(** *** Transposition *)

Lemma contiguous_lends w t : tensor_wf w t → fits_alloc (t_shape t) (t_dtype t) →
  ∃ w' c, contiguous oom junk w t = Ok (w', c) ∧ lends w w' [c] ∧ t_dtype c = t_dtype t ∧ t_shape c = t_shape t ∧
    ∀ idx, in_range (t_shape t) idx → element w' c idx = element w t idx.
Proof using junk_len no_oom.
  intros Hwf [Hs Hm]. unfold contiguous. destruct (t_is_contiguous t && (l_offset (t_layout t) =? 0)).
  - destruct (Tensor_clone_wf w t Hwf) as [Hwf' _]. eexists _, t. split; [done|].
    split; [by apply lends_clone|]. split; [done|]. split; [done|]. intros idx _. unfold element. simpl.
    by destruct (clone_storage_frame w (t_storage t) (proj1 Hwf) _ (proj1 (proj2 Hwf))) as [_ ->].
  - unfold copy_to_contiguous. rewrite (iter_elements_spec w t Hwf). cbn [rbind unwrap_opt].
    destruct (from_vec_typed_ok oom junk junk_len w (t_dtype t) (t_shape t) (shape_order w t)) as (w' & c & -> & Hf);
      [apply Hwf|done|done|apply shape_order_wf, Hwf|done| |].
    { rewrite length_shape_order. pose proof (shape_fits_prod _ Hs). lia. }
    exists w', c. split; [done|]. rewrite shape_order_elements in Hf. pose proof Hf as (_ & Hd & Hsh & _).
    apply fresh_made in Hf. split; [apply lends_fresh; by eapply fresh_all_made|]. split; [done|]. split; [done|]. apply Hf.
Qed.

Lemma transpose_spec01 w t T m n : matrix w t T m n → fits_alloc [n; m] T →
  ∃ w' c, transpose oom junk w t 0 1 = Ok (w', c) ∧ lends w w' [c] ∧ matrix w' c T n m ∧
    ∀ i j, (i < Z.to_nat n)%nat → (j < Z.to_nat m)%nat → entry w' c i j = entry w t j i.
Proof using junk_len no_oom.
  intros M Hfit. pose proof M as [Hwf Hd Hs]. pose proof (run_view_spec w t (OpTranspose 0 1) Hwf I) as Hv. unfold transpose.
  assert (valid_op (OpTranspose 0 1) (t_layout t)) as Hvalid.
  { unfold valid_op, l_ndim, Shape_ndim. unfold t_shape in Hs. rewrite Hs. simpl. lia. }
  destruct (run_view (OpTranspose 0 1) w t) as [[w1 v]|e|] eqn:Hrun; [|done..]. cbn [map_err rbind].
  destruct Hv as (_ & Hlay & Hsh & Hread). pose proof Hsh as (Hwv & Hst & _ & _ & Hdv & Hb & _).
  assert (t_shape v = [n; m]) as Hsv.
  { unfold op_layout, transpose_layout in Hlay. unfold l_ndim, Shape_ndim, t_shape in *. rewrite Hs in Hlay. simpl in Hlay.
    pose proof (li_wf _ _ (proj1 (proj2 (proj2 Hwf)))) as (_ & Hlen & _). rewrite Hs in Hlen.
    destruct (l_strides (t_layout t)) as [|s0 [|s1 [|]]]; try done. simpl in Hlay.
    injection Hlay as Hlay. unfold t_shape. by rewrite <- Hlay. }
  assert (w1 = clone_storage w (t_storage t)) as ->.
  { unfold run_view in Hrun. rewrite Hlay in Hrun. by injection Hrun as <- _. }
  destruct (contiguous_lends _ v Hwv) as (w2 & c & -> & H2 & Hdc & Hsc & Hec); [by rewrite Hsv, Hdv, Hd|].
  cbn [unwrap rbind]. pose proof (lends_trans _ _ _ _ _ (lends_clone w t v Hwf Hst Hwv) H2) as Hl.
  destruct (lends_drop w w2 v [c] (proj1 Hwf) Hl) as [Hl3 He3].
  eexists _, c. split; [done|]. split; [done|]. split.
  - split; [|congruence..]. apply (ln_own _ _ _ Hl3 c). by left.
  - intros i j Hi Hj. unfold entry. assert (in_range (t_shape v) [Z.of_nat i; Z.of_nat j]) as Hr.
    { rewrite Hsv. repeat constructor; lia. }
    rewrite He3, Hec by (by left || done). destruct (Hread _ Hr) as [_ Ha].
    unfold dropped_offset in Ha. rewrite Z.add_0_r in Ha. by apply element_of_address.
Qed.

(** An operand of the product, transposed or not *)
Definition oriented {X} (flag : bool) (f : nat → nat → X) (i j : nat) : X := if flag then f j i else f i j.
Definition swapped (flag : bool) (m n : Z) : Z * Z := if flag then (n, m) else (m, n).

Lemma effective_spec w t T m n flag : matrix w t T (swapped flag m n).1 (swapped flag m n).2 → fits_alloc [m; n] T →
  ∃ w' c, effective oom junk w t flag = Ok (w', c) ∧ lends w w' [c] ∧ matrix w' c T m n ∧
    ∀ i j, (i < Z.to_nat m)%nat → (j < Z.to_nat n)%nat → entry w' c i j = oriented flag (entry w t) i j.
Proof using junk_len no_oom.
  intros M Hfit. destruct flag; simpl in M.
  - by apply transpose_spec01.
  - destruct (Tensor_clone_wf w t (mx_wf _ _ _ _ _ M)) as [Hwf' _]. eexists _, t. split; [done|].
    pose proof (lends_clone w t t (mx_wf _ _ _ _ _ M) eq_refl Hwf') as Hl. split; [done|].
    split; [split; [done|apply M..]|]. intros i j _ _. apply (lends_tensor _ _ _ t Hl), M.
Qed.

Lemma product_lends w w' us t T m n : lends w w' us → matrix w t T m n →
  matrix w' t T m n ∧ ∀ i j, entry w' t i j = entry w t i j.
Proof using Type.
  intros Hl M. destruct (lends_tensor _ _ _ t Hl (mx_wf _ _ _ _ _ M)) as [H1 H2].
  split; [split; [done|apply M..]|]. intros. apply H2.
Qed.

Lemma matmul_with_transposes_run T w lhs rhs m k n ta tb : float_dtype T = true →
  matrix w lhs T (swapped ta m k).1 (swapped ta m k).2 → matrix w rhs T (swapped tb k n).1 (swapped tb k n).2 →
  fits_alloc [m; k] F64 → fits_alloc [k; n] F64 → fits_alloc [m; n] F64 →
  ∃ w' t, matmul_with_transposes half oom junk gemm w lhs rhs ta tb = Ok (w', t) ∧ lends w w' [t] ∧ matrix w' t T m n ∧
    ∀ i j, (i < Z.to_nat m)%nat → (j < Z.to_nat n)%nat →
      matmul_cell T m k n (pairs (Z.to_nat k) (oriented ta (entry w lhs) i) (λ kk, oriented tb (entry w rhs) kk j)) (entry w' t i j).
Proof using -(half32).
  intros HT Hl Hr Hmk Hkn Hmn. unfold matmul_with_transposes. pose proof (proj1 (mx_wf _ _ _ _ _ Hl)) as Hw.
  destruct (effective_spec w lhs T m k ta Hl (fits_alloc_narrow _ _ Hmk)) as (w1 & l & -> & L1 & Ml & El).
  cbn [rbind]. destruct (product_lends _ _ _ _ _ _ _ L1 Hr) as [Hr1 Er1].
  destruct (effective_spec w1 rhs T k n tb Hr1 (fits_alloc_narrow _ _ Hkn)) as (w2 & r & -> & L2 & Mr & Er).
  cbn [rbind]. destruct (product_lends _ _ _ _ _ _ _ L2 Ml) as [Ml2 El2].
  destruct (matmul_run T w2 l r m k n HT Ml2 Mr Hmk Hkn Hmn) as (w3 & t & -> & F & Mt & _ & C). cbn [rbind].
  assert (lends w w3 [r; l; t]) as L3.
  { eapply lends_perm; [|exact (lends_trans _ _ _ _ _ (lends_trans _ _ _ _ _ L1 L2) (lends_fresh _ _ _ F))]. simpl. solve_Permutation. }
  destruct (lends_drop w w3 r [l; t] Hw L3) as [L4 E4]. destruct (lends_drop w _ l [t] Hw L4) as [L5 E5].
  eexists _, t. split; [done|]. split; [done|]. split.
  - split; [|apply Mt..]. apply (ln_own _ _ _ L5 t). by left.
  - intros i j Hi Hj. unfold entry. rewrite E5, E4 by (set_solver). specialize (C i j Hi Hj).
    erewrite pairs_ext; [exact C|]. intros kk Hk. rewrite El2, El, Er by done. split; [done|].
    destruct tb; simpl; by rewrite Er1.
Qed.

(** *** The linear layer *)

Lemma chunks_blocks N rows fuel : (0 < N)%nat → Forall (λ r, length r = N) rows → (length rows ≤ fuel)%nat →
  chunks fuel N (concat rows) = rows.
Proof using Type.
  intros HN Hr. revert fuel. induction Hr as [|r rows Hl _ IH]; intros fuel Hf; [by destruct fuel|].
  destruct fuel as [|fuel]; [simpl in Hf; lia|]. cbn [concat].
  destruct (r ++ concat rows) as [|x l] eqn:He; [destruct r; simpl in *; [lia|done]|].
  cbn [chunks]. rewrite <- He, take_app_length', drop_app_length' by done. f_equal. apply IH. simpl in Hf. lia.
Qed.

Lemma par_chunks_grid N M x : (0 < N)%nat → par_chunks N (grid M N x) = (λ i, x i <$> seq 0 N) <$> seq 0 M.
Proof using Type.
  intros HN. unfold par_chunks. rewrite length_grid. apply chunks_blocks; [done| |].
  - apply Forall_fmap, Forall_true. intros i. simpl. by rewrite length_fmap, length_seq.
  - rewrite length_fmap, length_seq. nia.
Qed.

Lemma add_bias_rows_spec {E} (x b : nat → nat → Z) (M N : nat) : Z.of_nat (M * N) < 2 ^ 64 →
  add_bias_rows (E := E) (grid M N x) (b 0%nat <$> seq 0 N) M N = Ok (grid M N (λ i j, fadd binary32 (x i j) (b 0%nat j))).
Proof using Type.
  intros Hfit. unfold add_bias_rows. rewrite ix_small by done. destruct (Z.ltb_spec (Z.of_nat (M * N)) 16384) as [_|Hbig].
  - apply grid_loop; [apply length_replicate|]. intros l i j Hi Hj. assert (i * N + j < M * N)%nat by (by apply digit_lt).
    rewrite ix_small by lia. unfold rd. rewrite lookup_grid, list_lookup_fmap, lookup_seq_lt by done. done.
  - assert (∀ K, rmapM (λ x_row, rmapM (E := E) (λ j,
        let? x := rd x_row j in let? y := rd (b 0%nat <$> seq 0 N) j in Ok (fadd binary32 x y)) (seq 0 N)) ((λ i, x i <$> seq 0 N) <$> K) =
      Ok ((λ i, (λ j, fadd binary32 (x i j) (b 0%nat j)) <$> seq 0 N) <$> K)) as Hrows.
    { intros K. rewrite rmapM_fmap. induction K as [|i K IH]; [done|]. cbn [rmapM fmap list_fmap]. rewrite IH.
      rewrite (rmapM_ext _ (λ j, Ok (fadd binary32 (x i j) (b 0%nat j)))).
      - assert (∀ l, rmapM (E := E) (λ j, Ok (fadd binary32 (x i j) (b 0%nat j))) l = Ok ((λ j, fadd binary32 (x i j) (b 0%nat j)) <$> l)) as ->; [|done].
        induction l as [|j l IHl]; [done|]. cbn [rmapM fmap list_fmap]. by rewrite IHl.
      - intros j Hj%elem_of_seq. unfold rd. rewrite !list_lookup_fmap, !lookup_seq_lt by lia. done. }
    rewrite par_chunks_grid by nia. rewrite Hrows. done.
Qed.

(** A vector of [f32] *)
Definition bias_vector (w : World) (t : Tensor) (n : Z) : Prop := tensor_wf w t ∧ dense_as F32 t ∧ t_shape t = [n].

Lemma bias_order w t n : bias_vector w t n → shape_order w t = (λ j, element w t [Z.of_nat j]) <$> seq 0 (Z.to_nat n).
Proof using Type.
  intros (Hwf & _ & Hs). unfold shape_order. rewrite Hs. rewrite zprod_cons, zprod_nil, Z.mul_1_r.
  apply list_fmap_ext. intros i x [-> Hi]%lookup_seq. do 2 f_equal. simpl.
  pose proof (shape_wf_nonneg _ (proj1 (li_fits _ _ (proj1 (proj2 (proj2 Hwf)))))) as Hn. unfold t_shape in Hs. rewrite Hs in Hn.
  apply Forall_cons in Hn as [Hn _]. rewrite zprod_nil, Z.div_1_r. done.
Qed.

Lemma add_bias_spec w x bias m n : matrix w x F32 m n → dense_as F32 x → bias_vector w bias n → fits_alloc [m; n] F32 →
  ∃ w' t, add_bias half32 oom junk w x bias = Ok (w', t) ∧ fresh_all w w' [t] ∧ matrix w' t F32 m n ∧
    ∀ i j, (i < Z.to_nat m)%nat → (j < Z.to_nat n)%nat →
      entry w' t i j = fadd binary32 (entry w x i j) (element w bias [Z.of_nat j]).
Proof using junk_len no_oom.
  intros M Hdx Hb Hfit. pose proof Hb as (Hwb & Hdb & Hsb). destruct (matrix_fits m n F32 Hfit) as (Hm & Hn & _ & Hmn & Hv).
  unfold add_bias. rewrite (mx_shape _ _ _ _ _ M), Hsb, Z.eqb_refl. cbn [negb].
  rewrite !slice_of_spec, !decide_True by (done || apply M). cbn [rbind ok_or].
  change 4 with (Dtype_byte_size F32). rewrite Hv. cbn [rbind].
  rewrite (bias_order w bias n Hb), (matrix_order _ _ _ _ _ M).
  rewrite (add_bias_rows_spec (entry w x) (λ _ j, element w bias [Z.of_nat j])) by done. cbn [rbind].
  destruct (finish_grid w F32 m n (m * n) (λ i j, fadd binary32 (entry w x i j) (element w bias [Z.of_nat j])))
    as (w' & t & -> & H1 & H2 & _ & H3); [apply M|done| |by exists w', t].
  intros i j. apply (arith_uint binary32), binary32_wf.
Qed.

Lemma matmul_with_bias_run w lhs rhs bias m k n : matrix w lhs F32 m k → matrix w rhs F32 k n → bias_vector w bias n →
  fits_alloc [m; k] F64 → fits_alloc [k; n] F64 → fits_alloc [m; n] F64 →
  ∃ w' t, matmul_with_bias half half32 oom junk gemm w lhs rhs bias = Ok (w', t) ∧ fresh_all w w' [t] ∧ matrix w' t F32 m n ∧
    ∀ i j, (i < Z.to_nat m)%nat → (j < Z.to_nat n)%nat →
      ∃ y, product_cell F32 m k n (pairs (Z.to_nat k) (entry w lhs i) (λ kk, entry w rhs kk j)) y ∧
           entry w' t i j = fadd binary32 y (element w bias [Z.of_nat j]).
Proof using All.
  intros Hl Hr Hb Hmk Hkn Hmn. unfold matmul_with_bias.
  destruct (matmul_run F32 w lhs rhs m k n eq_refl Hl Hr Hmk Hkn Hmn) as (w1 & mm & -> & F1 & M1 & D1 & C1). cbn [rbind].
  pose proof F1 as (Hw1 & He1 & _). destruct Hb as (Hwb & Hdb & Hsb). destruct (extends_tensor w w1 bias Hw1 He1 Hwb) as [Hwb1 Eb].
  destruct (add_bias_spec w1 mm bias m n M1 D1) as (w2 & t & -> & F2 & M2 & C2); [done|by apply fits_alloc_narrow|]. cbn [rbind].
  destruct (matrix_drops w w2 [mm] t F32 m n (fresh_all_trans _ _ _ _ _ F1 F2) M2) as (H1 & H2 & H3).
  eexists _, t. split; [done|]. split; [done|]. split; [done|]. intros i j Hi Hj. exists (entry w1 mm i j).
  split; [by apply C1|]. simpl in H3. by rewrite H3, C2, Eb.
Qed.

(** *** The batched product *)

(** A batch of dense [f32] matrices *)
Definition batch_of (w : World) (t : Tensor) (b m n : Z) : Prop := tensor_wf w t ∧ dense_as F32 t ∧ t_shape t = [b; m; n].
Definition entry3 (w : World) (t : Tensor) (bi i j : nat) : Z := element w t [Z.of_nat bi; Z.of_nat i; Z.of_nat j].
Definition blocks {X} (B M N : nat) (f : nat → nat → nat → X) : list X := concat ((λ bi, grid M N (f bi)) <$> seq 0 B).

Lemma length_batch_blocks {X} B M N (f : nat → nat → nat → X) : length (blocks B M N f) = (B * (M * N))%nat.
Proof using Type. unfold blocks. apply length_blocks_seq. intros. apply length_grid. Qed.

Lemma lookup_blocks {X} B M N (f : nat → nat → nat → X) bi i j : (bi < B)%nat → (i < M)%nat → (j < N)%nat →
  blocks B M N f !! (bi * M * N + i * N + j)%nat = Some (f bi i j).
Proof using Type.
  intros Hb Hi Hj. replace (bi * M * N + i * N + j)%nat with (bi * (M * N) + (i * N + j))%nat by lia.
  unfold blocks. rewrite lookup_concat_blocks; [by apply lookup_grid|intros; apply length_grid|done|by apply digit_lt].
Qed.

Lemma elements_blocks b m n g : 0 ≤ b → 0 ≤ m → 0 ≤ n →
  elements [b; m; n] g = blocks (Z.to_nat b) (Z.to_nat m) (Z.to_nat n) (λ bi i j, g [Z.of_nat bi; Z.of_nat i; Z.of_nat j]).
Proof using Type.
  intros Hb Hm Hn. destruct (decide (b = 0)) as [-> |Hne]; [by unfold elements; rewrite zprod_cons|].
  change [b; m; n] with ([b] ++ [m; n]). rewrite elements_prefix by (repeat constructor; lia).
  rewrite zprod_cons, zprod_nil, Z.mul_1_r. unfold blocks. f_equal. apply list_fmap_ext. intros k x [-> Hk]%lookup_seq.
  rewrite elements_grid by done. apply grid_ext. intros i j _ _. f_equal. simpl. by rewrite zprod_nil, Z.div_1_r.
Qed.

Lemma batch_order w t b m n : batch_of w t b m n → 0 ≤ b ∧ 0 ≤ m ∧ 0 ≤ n ∧
  shape_order w t = blocks (Z.to_nat b) (Z.to_nat m) (Z.to_nat n) (entry3 w t).
Proof using Type.
  intros ((_ & _ & Hl & _) & _ & Hs). pose proof (shape_wf_nonneg _ (proj1 (li_fits _ _ Hl))) as Hp.
  unfold t_shape in Hs. rewrite Hs in Hp. apply Forall_cons in Hp as [? [? [? _]%Forall_cons]%Forall_cons].
  split; [done|]. split; [done|]. split; [done|]. rewrite shape_order_elements. unfold t_shape. rewrite Hs. by apply elements_blocks.
Qed.

(** The loop over the batches *)
Lemma bmm_loop {E} B M K N (x y : nat → nat → nat → Z) out :
  Z.of_nat (B * (M * K)) < 2 ^ 64 → Z.of_nat (B * (K * N)) < 2 ^ 64 → Z.of_nat (B * (M * N)) < 2 ^ 64 → length out = (B * (M * N))%nat →
  for_range B (λ out bi, for_range M (λ out i, for_range N (λ out j,
      let? acc := for_range K (λ acc kk,
          let? a := rd (blocks B M K x) (ix (bi * M * K + i * K + kk)) in
          let? b := rd (blocks B K N y) (ix (bi * K * N + kk * N + j)) in
          Ok (fadd binary32 acc (fmul binary32 a b))) 0 in
      put out (ix (bi * M * N + i * N + j)) acc) out) out) out
  = Ok (E := E) (blocks B M N (λ bi i j, left_sum F32 (pairs K (x bi i) (λ kk, y bi kk j)))).
Proof using Type.
  intros H1 H2 H3 Hlen. set (v := λ bi i j, left_sum F32 (pairs K (x bi i) (λ kk, y bi kk j))).
  match goal with |- for_range B ?body out = _ => assert (fills (for_range (E := E) B body) 0 (blocks B M N v)) as Hf end.
  { apply (fills_for B (M * N)); [intros; apply length_grid|]. intros bi Hb.
    apply (fills_for M N); [intros; by rewrite length_fmap, length_seq|]. intros i Hi.
    apply row_loop. intros l j Hj.
    assert (∀ P Q p q, (p < P)%nat → (q < Q)%nat → (bi * P * Q + p * Q + q < B * (P * Q))%nat) as Hix.
    { intros P Q p q Hp Hq. pose proof (digit_lt bi (p * Q + q) B (P * Q) Hb (digit_lt p q P Q Hp Hq)). lia. }
    rewrite (for_range_left_sum F32 K (x bi i) (λ kk, y bi kk j)).
    - cbn [rbind]. pose proof (Hix M N i j Hi Hj). rewrite ix_small by lia. f_equal. lia.
    - intros acc kk Hk. pose proof (Hix M K i kk Hi Hk). pose proof (Hix K N kk j Hk Hj).
      unfold rd. rewrite !ix_small, !lookup_blocks by (done || lia). done. }
  rewrite (Hf out) by (rewrite length_batch_blocks; lia). simpl. rewrite length_batch_blocks, drop_ge by lia. by rewrite app_nil_r.
Qed.

Lemma bmm_run w lhs rhs b m k n : batch_of w lhs b m k → batch_of w rhs b k n →
  fits_alloc [b; m; k] F64 → fits_alloc [b; k; n] F64 → fits_alloc [b; m; n] F64 →
  ∃ w' t, bmm oom junk w lhs rhs = Ok (w', t) ∧ fresh_all w w' [t] ∧ batch_of w' t b m n ∧
    ∀ bi i j, (bi < Z.to_nat b)%nat → (i < Z.to_nat m)%nat → (j < Z.to_nat n)%nat →
      entry3 w' t bi i j = left_sum F32 (pairs (Z.to_nat k) (entry3 w lhs bi i) (λ kk, entry3 w rhs bi kk j)).
Proof using junk_len no_oom.
  intros Hl Hr Hmk Hkn Hmn. destruct (batch_order _ _ _ _ _ Hl) as (Hb & Hm & Hk & Ol). destruct (batch_order _ _ _ _ _ Hr) as (_ & _ & Hn & Or).
  destruct Hl as (Hwl & Hdl & Hsl). destruct Hr as (Hwr & Hdr & Hsr).
  assert (∀ a c d : Z, 0 ≤ a → 0 ≤ c → 0 ≤ d → fits_alloc [a; c; d] F64 →
    a * (c * d) < 2 ^ 60 ∧ Z.of_nat (Z.to_nat a * (Z.to_nat c * Z.to_nat d)) = a * (c * d)) as Hsize.
  { intros a c d Ha Hc Hd' [_ Hf]. rewrite !zprod_cons, zprod_nil, Z.mul_1_r in Hf. change (Dtype_byte_size F64) with 8 in Hf.
    unfold CPU_ALIGN in Hf. rewrite !Nat2Z.inj_mul, !Z2Nat.id by done. lia. }
  destruct (Hsize b m k Hb Hm Hk Hmk) as [S1 E1]. destruct (Hsize b k n Hb Hk Hn Hkn) as [S2 E2]. destruct (Hsize b m n Hb Hm Hn Hmn) as [S3 E3].
  unfold bmm. rewrite Hsl, Hsr, !Z.eqb_refl. cbn [negb orb]. rewrite !slice_of_spec, !decide_True by done. cbn [rbind ok_or].
  assert (wrap 64 (wrap 64 (b * m) * n) = b * (m * n)) as ->.
  { rewrite wrap_mul_l, <- Z.mul_assoc. apply wrap_small. unfold uint. nia. }
  unfold vec_of. rewrite (proj2 (Z.ltb_ge _ _)) by lia. cbn [rbind]. rewrite Ol, Or, bmm_loop by (rewrite ?length_replicate; lia).
  cbn [rbind]. set (v := λ bi i j, left_sum F32 (pairs (Z.to_nat k) (entry3 w lhs bi i) (λ kk, entry3 w rhs bi kk j))).
  set (g := λ idx : list Z, v (Z.to_nat (idx !!! 0%nat)) (Z.to_nat (idx !!! 1%nat)) (Z.to_nat (idx !!! 2%nat))).
  assert (blocks (Z.to_nat b) (Z.to_nat m) (Z.to_nat n) v = elements [b; m; n] g) as ->.
  { rewrite elements_blocks by done. unfold blocks. f_equal. apply list_fmap_ext. intros ? bi _. apply grid_ext. intros p q _ _.
    unfold g. simpl. by rewrite !Nat2Z.id. }
  pose proof (fits_alloc_narrow _ F32 Hmn) as [Hs Hmx].
  destruct (from_vec_typed_ok oom junk junk_len w F32 [b; m; n] (elements [b; m; n] g)) as (w' & t & -> & Hf); [apply Hwl|done|done| |done| |].
  { apply elements_wf; [apply Hs|]. intros idx _. apply left_sum_value. by left. }
  { rewrite length_elements. pose proof (shape_fits_prod _ Hs). lia. }
  exists w', t. split; [done|]. pose proof Hf as (Hwf & Hd & Hsh & Hlay & _). apply fresh_made in Hf. pose proof Hf as (_ & _ & _ & _ & _ & _ & He).
  split; [by eapply fresh_all_made|]. split.
  - split; [done|]. split; [|done]. split; [done|]. unfold t_is_contiguous. by rewrite Hlay.
  - intros bi i j Hbi Hi Hj. unfold entry3 at 1. rewrite He by (repeat constructor; lia). unfold g. simpl. by rewrite !Nat2Z.id.
Qed.
End products.

(** ** Properties *)

(** Everything that the products take from outside the repository *)
Record world_ok (half : HalfCrate) (oom : Z → bool) (junk : Z → Z → list Z) (fma : Dtype → Z → Z → Z → Z)
    (gemm : Dtype → nat → nat → nat → list Z → list Z → list Z) : Prop := {
  wo_junk : ∀ p n, 0 ≤ n → Z.of_nat (length (junk p n)) = n;
  wo_oom : ∀ n, oom n = false;
  wo_gemm : gemm_ok fma gemm;
  wo_half : half_ok half;
  wo_wide : half_wide half
}.

Definition product_fits (m k n : Z) : Prop := fits_alloc [m; k] F64 ∧ fits_alloc [k; n] F64 ∧ fits_alloc [m; n] F64.

(** C5: [matmul], memory permitting, on tensors of any layout: it succeeds exactly on two
    matrices of one float dtype with a common inner size and returns a fresh matrix;
    every element is a sum, in some order, of the rounded (or fused) products of its row and column,
    the sum from the left when a size is below 32; half precision is the rounding of the
    same over [f32].  Otherwise the error says whether dtypes or shapes differ, and existing
    tensors do not change. *)
Theorem matmul_correct half oom junk gemm fma w lhs rhs : world_ok half oom junk fma gemm →
  tensor_wf w lhs → tensor_wf w rhs →
  (∀ m k n, t_shape lhs = [m; k] → t_shape rhs = [k; n] → product_fits m k n) →
  let T := t_dtype lhs in
  match matmul half oom junk gemm w lhs rhs with
  | Ok (w', t) => ∃ m k n, t_shape lhs = [m; k] ∧ t_shape rhs = [k; n] ∧ t_dtype rhs = T ∧ float_dtype T = true ∧
      fresh_all w w' [t] ∧ t_dtype t = T ∧ t_shape t = [m; n] ∧
      ∀ i j, (i < Z.to_nat m)%nat → (j < Z.to_nat n)%nat →
        matmul_cell half fma T m k n (pairs (Z.to_nat k) (entry w lhs i) (λ kk, entry w rhs kk j)) (entry w' t i j)
  | Err (BDtypeMismatch _ _) => t_dtype rhs ≠ T ∨ float_dtype T = false
  | Err (BShapeMismatch _ _) => ¬ ∃ m k n, t_shape lhs = [m; k] ∧ t_shape rhs = [k; n]
  | _ => False
  end.
Proof.
  intros [Hj Ho Hg Hh Hw] Hl Hr Hfit T.
  destruct (decide (t_dtype rhs = T)) as [Hd|Hd].
  2: { unfold matmul. rewrite bool_decide_eq_false_2 by (by apply not_eq_sym). by left. }
  destruct (t_shape lhs) as [|m [|k [|]]] eqn:Sl; try (unfold matmul; rewrite Sl, bool_decide_eq_true_2 by done; naive_solver).
  destruct (t_shape rhs) as [|k' [|n [|]]] eqn:Sr; try (unfold matmul; rewrite Sl, Sr, bool_decide_eq_true_2 by done; naive_solver).
  destruct (Z.eqb_spec k k') as [<-|Hk].
  2: { unfold matmul. rewrite Sl, Sr, bool_decide_eq_true_2, (proj2 (Z.eqb_neq k k')) by done. naive_solver. }
  destruct (float_dtype T) eqn:HT.
  - destruct (Hfit m k n eq_refl eq_refl) as (F1 & F2 & F3).
    destruct (matmul_run half oom junk gemm fma Hj Ho Hg Hh Hw T w lhs rhs m k n HT) as (w' & t & -> & Ft & Mt & _ & C); [by split..|done|done|done|].
    exists m, k, n. split; [done|]. split; [done|]. split; [done|]. split; [done|]. split; [done|]. split; [apply Mt|].
    split; [apply Mt|done].
  - unfold matmul. fold T. rewrite Sl, Sr, Z.eqb_refl, bool_decide_eq_true_2 by done. cbn [negb].
    destruct T; try done; by right.
Qed.

(** C36: the products of a linear layer on f32 matrices, as [Backend] composes them from
    transposed copies, [matmul] and [add_bias]: forward [x·W + b], with a contiguous bias
    vector, and the two of its backward pass, [g·Wᵀ] and [xᵀ·g].  Every element is the sum
    of the products of the right row and column, plus the bias rounded once more; whatever
    layouts x, W and g have, even when one tensor is passed twice, nothing else changes,
    temporaries are released, and only the results hold new references. *)
Theorem linear_products_correct half half32 oom junk gemm fma w x W b g m k n : world_ok half oom junk fma gemm →
  matrix w x F32 m k → matrix w W F32 k n → bias_vector w b n → matrix w g F32 m n → product_fits m k n →
  fits_alloc [n; k] F64 → fits_alloc [k; m] F64 →
  (∃ w' t, matmul_with_bias half half32 oom junk gemm w x W b = Ok (w', t) ∧ fresh_all w w' [t] ∧ matrix w' t F32 m n ∧
    ∀ i j, (i < Z.to_nat m)%nat → (j < Z.to_nat n)%nat →
      ∃ y, product_cell fma F32 m k n (pairs (Z.to_nat k) (entry w x i) (λ kk, entry w W kk j)) y ∧
           entry w' t i j = fadd binary32 y (element w b [Z.of_nat j])) ∧
  (∃ w' t, matmul_with_transposes half oom junk gemm w g W false true = Ok (w', t) ∧ lends w w' [t] ∧ matrix w' t F32 m k ∧
    ∀ i j, (i < Z.to_nat m)%nat → (j < Z.to_nat k)%nat →
      product_cell fma F32 m n k (pairs (Z.to_nat n) (entry w g i) (λ q, entry w W j q)) (entry w' t i j)) ∧
  (∃ w' t, matmul_with_transposes half oom junk gemm w x g true false = Ok (w', t) ∧ lends w w' [t] ∧ matrix w' t F32 k n ∧
    ∀ i j, (i < Z.to_nat k)%nat → (j < Z.to_nat n)%nat →
      product_cell fma F32 k m n (pairs (Z.to_nat m) (λ p, entry w x p i) (λ p, entry w g p j)) (entry w' t i j)).
Proof.
  intros [Hj Ho Hg Hh Hw] Hx HW Hb Hgm (F1 & F2 & F3) F4 F5. split_and!.
  - by apply matmul_with_bias_run.
  - destruct (matmul_with_transposes_run half oom junk gemm fma Hj Ho Hg Hh Hw F32 w g W m n k false true) as (w' & t & H); [done..|].
    by exists w', t.
  - destruct (matmul_with_transposes_run half oom junk gemm fma Hj Ho Hg Hh Hw F32 w x g k m n true false) as (w' & t & H); [done..|].
    by exists w', t.
Qed.

(** *** Witnesses *)

(** The reference product *)
Definition gemm_reference (T : Dtype) (m n k : nat) (a b : list Z) : list Z :=
  grid m n (λ i j, left_sum T (pairs k (λ kk, nth (i * k + kk) a 0) (λ kk, nth (kk * n + j) b 0))).

Lemma gemm_reference_ok fma : gemm_ok fma gemm_reference.
Proof.
  intros T m n k f g HT _ _. exists (λ i j, left_sum T (pairs k (f i) (λ kk, g kk j))). split.
  - apply grid_ext. intros i j Hi Hj. f_equal. apply pairs_ext. intros kk Hk.
    rewrite (nth_lookup_Some (grid m k f) (i * k + kk) 0 (f i kk)) by (by apply lookup_grid).
    by rewrite (nth_lookup_Some (grid k n g) (kk * n + j) 0 (g kk j)) by (by apply lookup_grid).
  - intros i j _ _. split; [by apply left_sum_value|apply left_sum_rounded].
Qed.

Lemma reference_world fma : world_ok half_reference no_oom ff_junk fma gemm_reference.
Proof. split; [exact ff_junk_len|done|apply gemm_reference_ok|apply half_reference_ok..]. Qed.

Lemma matrix_22 : matrix world_b.1 world_b.2 F32 2 2.
Proof. split; [apply worlds_wf|vm_compute; reflexivity..]. Qed.

Lemma fits_22 : product_fits 2 2 2.
Proof. assert (fits_alloc [2; 2] F64) by (split; [exact shape22_fits|vm_compute; congruence]). by split. Qed.

(** [[1, 2], [3, 4]] squared *)
Lemma matmul_correct_witness :
  match matmul half_reference no_oom ff_junk gemm_reference world_b.1 world_b.2 world_b.2 with
  | Ok (w', t) => t_shape t = [2; 2]
  | _ => False
  end.
Proof.
  pose proof (matmul_correct half_reference no_oom ff_junk gemm_reference (λ _ _ _ x, x) world_b.1 world_b.2 world_b.2
    (reference_world _) (mx_wf _ _ _ _ _ matrix_22) (mx_wf _ _ _ _ _ matrix_22)) as H. cbv zeta in H.
  destruct (matmul half_reference no_oom ff_junk gemm_reference world_b.1 world_b.2 world_b.2) as [[w' t]|e|] eqn:Hr.
  - destruct H as (m & k & n & Hl & Hrr & _ & _ & _ & _ & Hs & _).
    + intros m k n Hl Hn. rewrite (mx_shape _ _ _ _ _ matrix_22) in Hl, Hn. injection Hl as <- <-. injection Hn as <-. exact fits_22.
    + rewrite (mx_shape _ _ _ _ _ matrix_22) in Hl, Hrr. injection Hl as <- <-. injection Hrr as <-. exact Hs.
  - vm_compute in Hr. discriminate.
  - vm_compute in Hr. discriminate.
Defined.

Lemma matrix_c : matrix world_c.1 world_b.2 F32 2 2.
Proof. split; [apply world_c_wf|vm_compute; reflexivity..]. Qed.

(** [x·x + b] and [x·xᵀ], [xᵀ·x] of the same matrix *)
Lemma linear_products_correct_witness : ∃ w t w' t',
  matmul_with_bias half_reference (mkHalfF32 (λ _ x, x) (λ _ x, x)) no_oom ff_junk gemm_reference
    world_c.1 world_b.2 world_b.2 world_c.2 = Ok (w, t) ∧ t_shape t = [2; 2] ∧
  matmul_with_transposes half_reference no_oom ff_junk gemm_reference world_c.1 world_b.2 world_b.2 false true = Ok (w', t') ∧
    lends world_c.1 w' [t'].
Proof.
  destruct fits_22 as (F & _).
  destruct (linear_products_correct half_reference (mkHalfF32 (λ _ x, x) (λ _ x, x)) no_oom ff_junk gemm_reference (λ _ _ _ x, x)
    world_c.1 world_b.2 world_b.2 world_c.2 world_b.2 2 2 2 (reference_world _) matrix_c matrix_c) as ((w & t & H1 & _ & H2 & _) & (w' & t' & H3 & H4 & _) & _).
  - split; [exact (proj2 world_c_wf)|]. split; [apply (bool_decide_unpack _); vm_compute; exact I|vm_compute; reflexivity].
  - exact matrix_c.
  - exact fits_22.
  - exact F.
  - exact F.
  - exists w, t, w', t'. split; [exact H1|]. split; [exact (mx_shape _ _ _ _ _ H2)|]. split; [exact H3|exact H4].
Defined.

(** ** Divergences *)

(** [add_bias] of a view that is not contiguous falls back on [add], which ignores the
    strides of its operand: a zero bias added to the transpose of [[1, 2], [3, 4]]
    gives the matrix back, not its transpose. *)
Lemma add_bias_ignores_strides : ∃ w tb w1 b w2 out,
  run_view (OpTranspose 0 1) world_b.1 world_b.2 = Ok (w, tb) ∧
  mk_f32 w [2] [0; 0] = (w1, b) ∧
  add_bias (mkHalfF32 (λ _ x, x) (λ _ x, x)) no_oom ff_junk w1 tb b = Ok (w2, out) ∧
  shape_order w1 tb = [0x3f800000; 0x40400000; 0x40000000; 0x40800000] ∧ shape_order w2 out = one_to_four.
Proof.
  destruct (run_view (OpTranspose 0 1) world_b.1 world_b.2) as [[w tb]|e|] eqn:Hv; [|vm_compute in Hv; discriminate..].
  vm_compute in Hv. injection Hv as <- <-.
  eexists _, _, _, _, _, _. split; [reflexivity|]. split; [vm_compute; reflexivity|].
  split; [vm_compute; reflexivity|]. split; vm_compute; reflexivity.
Qed.
