(* ===== verification/Sampler.v ===== *)
(** * Samplers (crates/rustorch-data/src/sampler.rs)

    The four samplers and the interface they implement: a sampler returns the
    indices of one epoch and its next state.  The generator of the [rand] crate is
    a parameter: a state built from a seed, a shuffle that permutes its argument
    and a draw from [0, 1).  The theorems say which indices an epoch holds: all of
    them once, the share of a rank, or draws of positive weight. *)

From Stdlib Require Import ZArith Lia SpecFloat.
From stdpp Require Import base list sorting.
From S2P Require Import Prelude Loops Dtype Float.

Open Scope Z_scope.

(** [trait Sampler]; [iter] returns the indices and the state it leaves. *)
Class Sampler (S : Type) := {
  sampler_iter : S → list Z * S;
  sampler_len : S → Z
}.

Definition sampler_is_empty {S} `{Sampler S} (s : S) : bool := sampler_len s =? 0.

(** What a sampler promises to the loader: as many indices as it says, in every
    state it reaches. *)
Class SamplerLaws (S : Type) `{Sampler S} := {
  sampler_ok : S → Prop;
  sampler_ok_iter s : sampler_ok s → sampler_ok (sampler_iter s).2;
  sampler_len_iter s : sampler_ok s → sampler_len (sampler_iter s).2 = sampler_len s;
  sampler_iter_length s : sampler_ok s → Z.of_nat (length (sampler_iter s).1) = sampler_len s
}.

(** The range [0..n] *)
Definition indices_to (n : Z) : list Z := Z.of_nat <$> seq 0 (Z.to_nat n).

(** [struct SequentialSampler] *)
Record SequentialSampler := SequentialSampler_new { ss_n : Z }.

Definition SequentialSampler_iter (s : SequentialSampler) : list Z * SequentialSampler := (indices_to (ss_n s), s).

#[export] Instance sequential_sampler : Sampler SequentialSampler := {
  sampler_iter := SequentialSampler_iter;
  sampler_len s := ss_n s
}.

(** ** The random samplers *)

(** [StdRng]: seeding, shuffling a slice, drawing a float of [0.0..1.0] *)
Class RngOps (Rng : Type) := {
  seed_from_u64 : Z → Rng;
  shuffle : list Z → Rng → list Z * Rng;
  gen_unit : Rng → Z * Rng
}.

(** [f32] comparison [a <= b] *)
Definition fle32 (a b : Z) : bool := fltb binary32 a b || feqb binary32 a b.

Class RngLaws (Rng : Type) `{RngOps Rng} := {
  shuffle_perm l (g : Rng) : (shuffle l g).1 ≡ₚ l;
  gen_unit_range (g : Rng) : fle32 0 (gen_unit g).1 = true
}.

Section random.
Context {Rng : Type} `{RngOps Rng}.

(** [struct RandomSampler] *)
Record RandomSampler := mkRandomSampler { rs_n : Z; rs_rng : Rng }.

Definition RandomSampler_with_seed (n seed : Z) : RandomSampler := mkRandomSampler n (seed_from_u64 seed).

(** [RandomSampler::new]; the seed is the clock's, 0 when it is before the epoch *)
Definition RandomSampler_new (clock_nanos : option Z) (n : Z) : RandomSampler :=
  RandomSampler_with_seed n (default 0 (wrap 64 <$> clock_nanos)).

Definition RandomSampler_iter (s : RandomSampler) : list Z * RandomSampler :=
  let '(idx, g) := shuffle (indices_to (rs_n s)) (rs_rng s) in (idx, mkRandomSampler (rs_n s) g).

#[export] Instance random_sampler : Sampler RandomSampler := {
  sampler_iter := RandomSampler_iter;
  sampler_len := rs_n
}.

(** [struct DistributedSampler] *)
Record DistributedSampler := mkDistributedSampler { ds_n : Z; ds_rank : Z; ds_world_size : Z; ds_epoch : Z }.

Definition DistributedSampler_new {E} (n rank world_size : Z) : res E DistributedSampler :=
  if negb (0 <? world_size) then Panic
  else if negb (rank <? world_size) then Panic
  else Ok (mkDistributedSampler n rank world_size 0).

Definition set_epoch (s : DistributedSampler) (epoch : Z) : DistributedSampler :=
  mkDistributedSampler (ds_n s) (ds_rank s) (ds_world_size s) epoch.

Definition DistributedSampler_iter (s : DistributedSampler) : list Z * DistributedSampler :=
  let '(all, _) := shuffle (indices_to (ds_n s)) (seed_from_u64 (ds_epoch s)) in
  (omap (λ iv, if Z.of_nat iv.1 mod ds_world_size s =? ds_rank s then Some iv.2 else None) (imap pair all), s).

Definition DistributedSampler_len (s : DistributedSampler) : Z :=
  let base := ds_n s / ds_world_size s in
  let extra := if ds_rank s <? ds_n s mod ds_world_size s then 1 else 0 in
  base + extra.

#[export] Instance distributed_sampler : Sampler DistributedSampler := {
  sampler_iter := DistributedSampler_iter;
  sampler_len := DistributedSampler_len
}.

(** [struct WeightedRandomSampler]; weights and cumulative sums are f32 bits *)
Record WeightedRandomSampler := mkWeightedRandomSampler {
  ws_weights : list Z;
  ws_cdf : list Z;
  ws_n_samples : Z;
  ws_rng : Rng
}.

(** One step of the loop that builds the cumulative sums *)
Definition cdf_step {E} (total : Z) (st : Z * list Z) (w : Z) : res E (Z * list Z) :=
  if negb (fle32 0 w) then Panic
  else
    let acc := fadd binary32 st.1 (fdiv binary32 w total) in
    Ok (acc, st.2 ++ [acc]).

Definition WeightedRandomSampler_with_seed {E} (weights : list Z) (n_samples seed : Z) : res E WeightedRandomSampler :=
  let total := foldl (fadd binary32) 0 weights in
  if negb (fltb binary32 0 total) then Panic
  else
    let? acc_cdf := rfold (cdf_step total) (0, []) weights in
    Ok (mkWeightedRandomSampler weights acc_cdf.2 n_samples (seed_from_u64 seed)).

Definition WeightedRandomSampler_new {E} (weights : list Z) (n_samples : Z) : res E WeightedRandomSampler :=
  WeightedRandomSampler_with_seed weights n_samples 0.
End random.
Arguments RandomSampler : clear implicits.
Arguments WeightedRandomSampler : clear implicits.

(** [slice::partition_point], as the standard library of the oldest supported
    toolchain bisects, over any slice, sorted or not.  Each round makes the range
    shorter, so the length is enough rounds. *)
Fixpoint bisect (fuel : nat) (pred : nat → bool) (left right : nat) : nat :=
  match fuel with
  | O => left
  | S fuel =>
      if (left <? right)%nat then
        let mid := (left + (right - left) / 2)%nat in
        if pred mid then bisect fuel pred (S mid) right else bisect fuel pred left mid
      else left
  end.

Definition partition_point (pred : Z → bool) (l : list Z) : nat :=
  bisect (length l) (λ i, pred (l !!! i)) 0 (length l).

Section weighted.
Context {Rng : Type} `{RngOps Rng}.

(** One draw *)
Definition weighted_draw (s : WeightedRandomSampler Rng) (u : Z) : Z :=
  Z.of_nat (Nat.min (partition_point (λ c, fle32 c u) (ws_cdf s)) (length (ws_weights s) - 1)).

Fixpoint weighted_draws (s : WeightedRandomSampler Rng) (k : nat) (g : Rng) : list Z * Rng :=
  match k with
  | O => ([], g)
  | S k =>
      let '(u, g) := gen_unit g in
      let '(out, g) := weighted_draws s k g in
      (weighted_draw s u :: out, g)
  end.

Definition WeightedRandomSampler_iter (s : WeightedRandomSampler Rng) : list Z * WeightedRandomSampler Rng :=
  let '(out, g) := weighted_draws s (Z.to_nat (ws_n_samples s)) (ws_rng s) in
  (out, mkWeightedRandomSampler (ws_weights s) (ws_cdf s) (ws_n_samples s) g).

#[export] Instance weighted_sampler : Sampler (WeightedRandomSampler Rng) := {
  sampler_iter := WeightedRandomSampler_iter;
  sampler_len := ws_n_samples
}.
End weighted.

(** ** Lemmas *)

Lemma length_indices_to n : 0 ≤ n → Z.of_nat (length (indices_to n)) = n.
Proof. intros. unfold indices_to. rewrite length_fmap, length_seq. lia. Qed.

Lemma elem_of_indices_to n i : i ∈ indices_to n ↔ 0 ≤ i < n.
Proof.
  unfold indices_to. rewrite list_elem_of_fmap. setoid_rewrite elem_of_seq. split.
  - intros (k & -> & Hk). lia.
  - intros Hi. exists (Z.to_nat i). lia.
Qed.

Lemma NoDup_indices_to n : NoDup (indices_to n).
Proof. apply NoDup_fmap_2; [apply _|apply NoDup_seq]. Qed.

#[export, refine] Instance sequential_laws : SamplerLaws SequentialSampler := { sampler_ok s := 0 ≤ ss_n s }.
Proof. { intros s Hs. exact Hs. } { done. } { intros s Hs. by apply length_indices_to. } Defined.

Section random_lemmas.
Context {Rng : Type} `{RngLaws Rng}.

#[export, refine] Instance random_laws : SamplerLaws (RandomSampler Rng) := { sampler_ok s := 0 ≤ rs_n s }.
Proof.
  - intros s Hs. simpl. unfold RandomSampler_iter. destruct (shuffle _ _) as [idx g]. exact Hs.
  - intros s _. simpl. unfold RandomSampler_iter. by destruct (shuffle _ _).
  - intros s Hs. simpl. unfold RandomSampler_iter. pose proof (shuffle_perm (indices_to (rs_n s)) (rs_rng s)) as Hp.
    destruct (shuffle _ _) as [idx g]. simpl in *. rewrite Hp. by apply length_indices_to.
Defined.

(** *** Strides *)

(** The elements at the positions congruent to [rank], from position [i] *)
Definition stride (n rank : Z) (i : nat) (l : list Z) : list Z :=
  omap (λ iv, if Z.of_nat iv.1 mod n =? rank then Some iv.2 else None) (imap (λ k v, ((i + k)%nat, v)) l).

Lemma stride_cons n rank i x l :
  stride n rank i (x :: l) = (if Z.of_nat i mod n =? rank then [x] else []) ++ stride n rank (S i) l.
Proof using Type.
  unfold stride. rewrite imap_cons. csimpl. rewrite Nat.add_0_r.
  assert (∀ l : list Z, imap ((λ k v, ((i + k)%nat, v)) ∘ S) l = imap (λ k v, ((S i + k)%nat, v)) l) as ->.
  { intros l0. apply imap_ext. intros k v _. simpl. f_equal. lia. }
  by destruct (_ =? _).
Qed.

Lemma stride_length n rank i l : 0 < n → 0 ≤ rank < n →
  Z.of_nat (length (stride n rank i l)) =
  (Z.of_nat i + Z.of_nat (length l) + (n - 1 - rank)) / n - (Z.of_nat i + (n - 1 - rank)) / n.
Proof using Type.
  intros Hn Hr. revert i. induction l as [|x l IH]; intros i.
  { simpl. rewrite Z.add_0_r. lia. }
  rewrite stride_cons, length_app, Nat2Z.inj_add, IH. cbn [length].
  replace (Z.of_nat (S i)) with (Z.of_nat i + 1) by lia.
  replace (Z.of_nat (S (length l))) with (1 + Z.of_nat (length l)) by lia. rewrite Z.add_assoc.
  assert ((Z.of_nat i + 1 + (n - 1 - rank)) / n =
    (Z.of_nat i + (n - 1 - rank)) / n + if Z.of_nat i mod n =? rank then 1 else 0) as Hstep.
  { pose proof (Z.div_mod (Z.of_nat i) n ltac:(lia)) as Hdm. pose proof (Z.mod_pos_bound (Z.of_nat i) n Hn) as Hm.
    set (q := Z.of_nat i / n) in *. set (m := Z.of_nat i mod n) in *.
    destruct (Z.eqb_spec m rank) as [He|He].
    - rewrite <- (Z.div_unique_pos (Z.of_nat i + 1 + (n - 1 - rank)) n (q + 1) 0) by lia.
      rewrite <- (Z.div_unique_pos (Z.of_nat i + (n - 1 - rank)) n q (n - 1)) by lia. lia.
    - destruct (Z.lt_ge_cases m rank).
      + rewrite <- (Z.div_unique_pos (Z.of_nat i + 1 + (n - 1 - rank)) n q (m + n - rank)) by lia.
        rewrite <- (Z.div_unique_pos (Z.of_nat i + (n - 1 - rank)) n q (m + n - 1 - rank)) by lia. lia.
      + rewrite <- (Z.div_unique_pos (Z.of_nat i + 1 + (n - 1 - rank)) n (q + 1) (m - rank)) by lia.
        rewrite <- (Z.div_unique_pos (Z.of_nat i + (n - 1 - rank)) n (q + 1) (m - 1 - rank)) by lia. lia. }
  rewrite Hstep. destruct (_ =? _); cbn [length]; lia.
Qed.

Lemma mjoin_app_perm {A B} (f g : A → list B) l :
  mjoin ((λ r, f r ++ g r) <$> l) ≡ₚ mjoin (f <$> l) ++ mjoin (g <$> l).
Proof using Type.
  induction l as [|r l IH]; [done|]. csimpl. rewrite IH, <- !(assoc_L (++)). f_equiv.
  rewrite !(assoc_L (++)). f_equiv. apply Permutation_app_comm.
Qed.

Lemma mjoin_indicator (m : Z) (x : Z) l : NoDup l → m ∈ l → mjoin ((λ r, if m =? r then [x] else []) <$> l) = [x].
Proof using Type.
  intros Hnd. induction Hnd as [|r l Hr Hnd IH]; [by intros ?%elem_of_nil|]. intros Hm. csimpl.
  destruct (Z.eqb_spec m r) as [->|Hne].
  - simpl. f_equal. clear IH Hnd Hm. induction l as [|y l IHl]; [done|]. csimpl.
    apply not_elem_of_cons in Hr as [Hy Hr]. rewrite (proj2 (Z.eqb_neq r y)) by done. by apply IHl.
  - simpl. apply IH. by apply elem_of_cons in Hm as [->|].
Qed.

(** The strides of all ranks are a partition. *)
Lemma strides_perm n l i : 0 < n → mjoin ((λ r, stride n r i l) <$> indices_to n) ≡ₚ l.
Proof using Type.
  intros Hn. revert i. induction l as [|x l IH]; intros i.
  { unfold stride. simpl. induction (indices_to n) as [|r rs IHr]; [done|]. by csimpl. }
  rewrite (list_fmap_ext _ (λ r, (if Z.of_nat i mod n =? r then [x] else []) ++ stride n r (S i) l))
    by (intros; apply stride_cons).
  rewrite mjoin_app_perm, IH, mjoin_indicator; [done|apply NoDup_indices_to|].
  apply elem_of_indices_to, Z.mod_pos_bound. lia.
Qed.

#[export, refine] Instance distributed_laws : SamplerLaws (DistributedSampler) := {
  sampler_ok s := 0 ≤ ds_n s ∧ 0 ≤ ds_rank s < ds_world_size s
}.
Proof.
  - intros s Hs. simpl. unfold DistributedSampler_iter. by destruct (shuffle _ _).
  - intros s _. simpl. unfold DistributedSampler_iter. by destruct (shuffle _ _).
  - intros s (Hn & Hr). simpl. unfold DistributedSampler_iter, DistributedSampler_len.
    pose proof (shuffle_perm (indices_to (ds_n s)) (seed_from_u64 (ds_epoch s))) as Hp.
    destruct (shuffle _ _) as [all g]. simpl in *.
    change (omap _ (imap pair all)) with (stride (ds_world_size s) (ds_rank s) 0 all). rewrite stride_length by lia.
    rewrite Hp, length_indices_to by done. set (n := ds_n s) in *. set (W := ds_world_size s) in *.
    set (r := ds_rank s) in *. rewrite Z.add_0_l.
    pose proof (Z.div_mod n W ltac:(lia)) as Hdm. pose proof (Z.mod_pos_bound n W ltac:(lia)) as Hm.
    rewrite (Z.div_small (0 + (W - 1 - r))) by lia. rewrite Z.sub_0_r.
    destruct (Z.ltb_spec r (n mod W)).
    + symmetry. apply (Z.div_unique_pos _ _ _ (n mod W - 1 - r)); lia.
    + symmetry. apply (Z.div_unique_pos _ _ _ (n mod W + W - 1 - r)); lia.
Defined.
End random_lemmas.

(** *** Bisection *)

Lemma bisect_spec pred n fuel left right :
  (left ≤ right ≤ n)%nat → (right - left ≤ fuel)%nat →
  (left = 0%nat ∨ pred (left - 1)%nat = true) → (right = n ∨ pred right = false) →
  let k := bisect fuel pred left right in
  (left ≤ k ≤ right)%nat ∧ (k = 0%nat ∨ pred (k - 1)%nat = true) ∧ (k = n ∨ pred k = false).
Proof.
  cbv zeta. revert left right. induction fuel as [|fuel IH]; intros left right Hlr Hf Hl Hr; cbn [bisect].
  { assert (left = right) as -> by lia. done. }
  destruct (Nat.ltb_spec left right) as [Hlt|Hge]; [|assert (left = right) as -> by lia; done].
  pose proof (Nat.div_lt (right - left) 2 ltac:(lia) ltac:(lia)) as Hd. set (half := ((right - left) / 2)%nat) in *.
  destruct (pred (left + half)%nat) eqn:Hp.
  - destruct (IH (S (left + half)) right) as (H1 & H2); [lia|lia| |done|].
    { right. rewrite <- Hp. f_equal. lia. }
    split; [lia|exact H2].
  - destruct (IH left (left + half)%nat) as (H1 & H2); [lia|lia|done|by right|].
    split; [lia|exact H2].
Qed.

Lemma partition_point_spec pred l :
  let k := partition_point pred l in
  (k ≤ length l)%nat ∧ (k = 0%nat ∨ pred (l !!! (k - 1)%nat) = true) ∧ (k = length l ∨ pred (l !!! k) = false).
Proof.
  destruct (bisect_spec (λ i, pred (l !!! i)) (length l) (length l) 0 (length l)) as (H1 & H2);
    [lia|lia|by left|by left|].
  split; [exact (proj2 H1)|exact H2].
Qed.

(** *** Adding a weight that is zero *)

(** The comparison of bits only reads the numbers they stand for. *)
Lemma fle32_ext a b u : of_bits binary32 a = of_bits binary32 b → fle32 a u = fle32 b u.
Proof. unfold fle32, fltb, feqb. by intros ->. Qed.

Lemma zero_quotient w total :
  feqb binary32 w 0 = true → fltb binary32 0 total = true → ∃ s, of_bits binary32 (fdiv binary32 w total) = S754_zero s.
Proof.
  unfold feqb, fltb, fdiv, lift2. change (of_bits binary32 0) with (S754_zero false).
  destruct (of_bits binary32 w) as [sw|sw| |sw mw ew]; try done; [|by destruct sw..].
  destruct (of_bits binary32 total) as [st|[]| |[] mt et]; try done; intros _ _; simpl;
    first [destruct (xorb sw false)|destruct sw]; eexists; reflexivity.
Qed.

Lemma add_zero_le acc z u s : of_bits binary32 z = S754_zero s →
  uint 32 acc → fle32 (fadd binary32 acc z) u = fle32 acc u.
Proof.
  intros Hz Ha. unfold fadd, lift2. rewrite Hz.
  destruct (of_bits binary32 acc) as [sa|sa| |sa ma ea] eqn:Hacc.
  - unfold fle32, fltb, feqb. rewrite Hacc. by destruct sa, s; simpl; destruct (of_bits binary32 u) as [|[]| |[]].
  - apply fle32_ext. rewrite Hacc. by destruct sa.
  - apply fle32_ext. by rewrite Hacc.
  - cbn [SFadd]. rewrite <- Hacc, to_of_bits; [done|split; vm_compute; congruence|exact Ha|by rewrite Hacc].
Qed.

(** The cumulative sums that the loop leaves *)
Fixpoint sums (total acc : Z) (ws : list Z) : list Z :=
  match ws with
  | [] => []
  | w :: ws => let acc := fadd binary32 acc (fdiv binary32 w total) in acc :: sums total acc ws
  end.

Lemma cdf_loop {E} total acc l ws :
  if forallb (fle32 0) ws then ∃ a, rfold (E := E) (cdf_step total) (acc, l) ws = Ok (a, l ++ sums total acc ws)
  else rfold (E := E) (cdf_step total) (acc, l) ws = Panic.
Proof.
  revert acc l. induction ws as [|w ws IH]; intros acc l; [exists acc; by rewrite app_nil_r|].
  cbn [rfold forallb sums]. unfold cdf_step at 1 3. destruct (fle32 0 w); [|done]. cbn [negb rbind fst snd andb].
  cbv zeta. specialize (IH (fadd binary32 acc (fdiv binary32 w total)) (l ++ [fadd binary32 acc (fdiv binary32 w total)])).
  by rewrite <- (assoc_L (++)) in IH.
Qed.

Lemma length_sums total acc ws : length (sums total acc ws) = length ws.
Proof. revert acc. induction ws; intros; simpl; [done|]. by f_equal. Qed.

Lemma sums_uint total acc ws : Forall (uint 32) (sums total acc ws).
Proof.
  revert acc. induction ws as [|w ws IH]; intros; simpl; constructor; [|done].
  apply (arith_uint binary32), binary32_wf.
Qed.

(** At a weight of zero the sum does not move. *)
Lemma sums_zero_weight total acc ws i w u :
  uint 32 acc → fltb binary32 0 total = true → ws !! i = Some w → feqb binary32 w 0 = true →
  fle32 (sums total acc ws !!! i) u = fle32 (match i with O => acc | S j => sums total acc ws !!! j end) u.
Proof.
  intros Ha Ht. revert acc Ha i. induction ws as [|w0 ws IH]; intros acc Ha i Hi Hz; [done|].
  destruct i as [|i]; simpl in *.
  - injection Hi as ->. destruct (zero_quotient w total Hz Ht) as [s Hs]. by eapply add_zero_le.
  - rewrite IH by (done || apply (arith_uint binary32), binary32_wf). by destruct i.
Qed.

Section weighted_lemmas.
Context {Rng : Type} `{RngLaws Rng}.

Lemma weighted_draws_out (s : WeightedRandomSampler Rng) k g i :
  i ∈ (weighted_draws s k g).1 → ∃ u, fle32 0 u = true ∧ i = weighted_draw s u.
Proof.
  revert g. induction k as [|k IH]; intros g; simpl; [by intros ?%elem_of_nil|].
  pose proof (gen_unit_range g) as Hu. destruct (gen_unit g) as [u g1]. specialize (IH g1).
  destruct (weighted_draws s k g1) as [out g2]. intros [->|Hi]%elem_of_cons; [by exists u|auto].
Qed.

Lemma weighted_draws_length (s : WeightedRandomSampler Rng) k g : length (weighted_draws s k g).1 = k.
Proof using Type.
  revert g. induction k as [|k IH]; intros g; simpl; [done|]. destruct (gen_unit g) as [u g1].
  specialize (IH g1). destruct (weighted_draws s k g1). simpl in *. by rewrite IH.
Qed.

#[export, refine] Instance weighted_laws : SamplerLaws (WeightedRandomSampler Rng) := {
  sampler_ok s := 0 ≤ ws_n_samples s
}.
Proof.
  - intros s Hs. simpl. unfold WeightedRandomSampler_iter. by destruct (weighted_draws _ _ _).
  - intros s _. simpl. unfold WeightedRandomSampler_iter. by destruct (weighted_draws _ _ _).
  - intros s Hs. simpl. unfold WeightedRandomSampler_iter. pose proof (weighted_draws_length s (Z.to_nat (ws_n_samples s)) (ws_rng s)) as Hl.
    destruct (weighted_draws _ _ _). simpl in *. lia.
Defined.

(** What building a sampler does *)
Lemma weighted_with_seed_spec {E} weights n seed :
  let total := foldl (fadd binary32) 0 weights in
  WeightedRandomSampler_with_seed (E := E) weights n seed =
  if fltb binary32 0 total && forallb (fle32 0) weights then
    Ok (mkWeightedRandomSampler weights (sums total 0 weights) n (seed_from_u64 seed))
  else Panic.
Proof using Type.
  intros total. unfold WeightedRandomSampler_with_seed. fold total.
  destruct (fltb binary32 0 total); [|done]. cbn [negb andb].
  pose proof (cdf_loop (E := E) total 0 [] weights) as Hc. cbv zeta.
  destruct (forallb _ weights); [|by rewrite Hc]. by destruct Hc as [a ->].
Qed.

(** A draw is below the number of weights, and hits a weight that is not zero
    unless it is the last index. *)
Lemma weighted_draw_spec total weights n g u :
  let s := mkWeightedRandomSampler (Rng := Rng) weights (sums total 0 weights) n g in
  fltb binary32 0 total = true → weights ≠ [] → fle32 0 u = true →
  0 ≤ weighted_draw s u < Z.of_nat (length weights) ∧
  (weighted_draw s u = Z.of_nat (length weights) - 1 ∨
   ∃ w, weights !! Z.to_nat (weighted_draw s u) = Some w ∧ feqb binary32 w 0 = false).
Proof using Type.
  intros s Ht Hne Hu. assert (0 < length weights)%nat as Hlen by (destruct weights; simpl; [done|lia]).
  unfold weighted_draw. cbn [ws_cdf ws_weights s].
  destruct (partition_point_spec (λ c, fle32 c u) (sums total 0 weights)) as (Hk & Hbefore & Hat).
  set (k := partition_point _ _) in *. rewrite length_sums in Hk, Hat. split; [lia|].
  destruct (decide (length weights - 1 ≤ k)%nat); [left; lia|right].
  rewrite Nat.min_l by lia. rewrite Nat2Z.id.
  destruct (lookup_lt_is_Some_2 weights k ltac:(lia)) as [w Hw]. exists w. split; [done|].
  destruct (feqb binary32 w 0) eqn:Hz; [|done]. exfalso.
  destruct Hat as [|Hat]; [lia|].
  assert (uint 32 0) as Huint by (split; vm_compute; congruence).
  rewrite (sums_zero_weight total 0 weights k w u Huint Ht Hw Hz) in Hat.
  destruct k as [|j]; [congruence|]. destruct Hbefore as [|Hb]; [done|].
  simpl in Hb. rewrite Nat.sub_0_r in Hb. congruence.
Qed.
End weighted_lemmas.

(** ** Properties *)

(** The indices of an epoch.  The sequential sampler returns 0 to n - 1 in
    order; the random sampler returns each of them once, in some order; the
    shares of the ranks of a distributed sampler are disjoint and together hold
    each index once, in every epoch.  All return as many indices as [len]
    says, and leave a sampler of the same length. *)
Theorem samplers_cover {Rng} `{RngLaws Rng} n W :
  0 ≤ n → 0 < W →
  ((sampler_iter (SequentialSampler_new n)).1 = indices_to n) ∧
  (∀ g : Rng, (sampler_iter (mkRandomSampler n g)).1 ≡ₚ indices_to n) ∧
  (∀ epoch, mjoin ((λ rank, (sampler_iter (mkDistributedSampler n rank W epoch)).1) <$> indices_to W) ≡ₚ indices_to n) ∧
  (∀ rank epoch, 0 ≤ rank < W → let s := mkDistributedSampler n rank W epoch in
    Z.of_nat (length (sampler_iter s).1) = sampler_len s ∧
    sampler_len s = (n + W - 1 - rank) / W).
Proof.
  intros Hn HW. split; [done|]. split; [|split].
  - intros g. simpl. unfold RandomSampler_iter. simpl. pose proof (shuffle_perm (indices_to n) g) as Hp. by destruct (shuffle _ _).
  - intros epoch. simpl. unfold DistributedSampler_iter. simpl. pose proof (shuffle_perm (indices_to n) (seed_from_u64 epoch)) as Hp.
    destruct (shuffle _ _) as [all g]. simpl in Hp. rewrite <- Hp. by apply (strides_perm W all 0).
  - intros rank epoch Hr s. split; [by apply (sampler_iter_length s)|]. simpl. unfold DistributedSampler_len. simpl.
    pose proof (Z.div_mod n W ltac:(lia)) as Hdm. pose proof (Z.mod_pos_bound n W ltac:(lia)) as Hm.
    destruct (Z.ltb_spec rank (n mod W)).
    + apply (Z.div_unique_pos _ _ _ (n mod W - 1 - rank)); lia.
    + apply (Z.div_unique_pos _ _ _ (n mod W + W - 1 - rank)); lia.
Qed.

(** The weighted sampler is built exactly when the float sum of the weights is
    positive and no weight is negative or NaN, and panics otherwise.  Every draw
    is an index below the number of weights, and its weight is not zero unless it
    is the last one: rounding can leave the last cumulative sum below a drawn
    number, which is then clamped. *)
Theorem weighted_draws_allowed {Rng E} `{RngLaws Rng} weights n seed :
  let total := foldl (fadd binary32) 0 weights in
  let r := WeightedRandomSampler_with_seed (E := E) weights n seed in
  (fltb binary32 0 total && forallb (fle32 0) weights = false → r = Panic) ∧
  (fltb binary32 0 total && forallb (fle32 0) weights = true →
    ∃ s : WeightedRandomSampler Rng, r = Ok s ∧ sampler_len s = n ∧ ∀ i, i ∈ (sampler_iter s).1 →
      0 ≤ i < Z.of_nat (length weights) ∧
      (i = Z.of_nat (length weights) - 1 ∨ ∃ w, weights !! Z.to_nat i = Some w ∧ feqb binary32 w 0 = false)).
Proof.
  intros total r. subst r. rewrite weighted_with_seed_spec. fold total. split; intros Hb; rewrite Hb; [done|].
  eexists. split; [done|]. split; [done|]. intros i. cbn [sampler_iter weighted_sampler]. unfold WeightedRandomSampler_iter.
  set (s := mkWeightedRandomSampler _ _ _ _). pose proof (weighted_draws_out s (Z.to_nat (ws_n_samples s)) (ws_rng s) i) as Ho.
  destruct (weighted_draws _ _ _) as [out g]. intros Hi. destruct (Ho Hi) as (u & Hu & ->).
  apply andb_true_iff in Hb as [Ht _]. apply weighted_draw_spec; [done| |done].
  intros ->. by vm_compute in Ht.
Qed.

(** *** Witnesses *)

(** A generator that counts: it reverses slices and always draws one half. *)
#[export] Instance counter_rng : RngOps Z := {
  seed_from_u64 seed := seed;
  shuffle l g := (reverse l, g + 1);
  gen_unit g := (0x3f000000, g + 1)
}.

#[export, refine] Instance counter_rng_laws : RngLaws Z := {}.
Proof. { intros l g. simpl. apply reverse_Permutation. } { intros g. vm_compute. reflexivity. } Defined.

Lemma samplers_cover_witness :
  (sampler_iter (mkRandomSampler 5 7)).1 ≡ₚ [0; 1; 2; 3; 4] ∧
  Z.of_nat (length (sampler_iter (mkDistributedSampler 5 1 2 3)).1) = 2.
Proof.
  destruct (samplers_cover (Rng := Z) 5 2 ltac:(lia) ltac:(lia)) as (_ & Hr & _ & Hd).
  split; [exact (Hr 7)|]. destruct (Hd 1 3 ltac:(lia)) as [-> _]. vm_compute. reflexivity.
Defined.

(** The weights 1, 0 and 3: one half falls on the third. *)
Lemma weighted_draws_allowed_witness :
  ∃ s : WeightedRandomSampler Z,
    WeightedRandomSampler_with_seed (E := unit) [0x3f800000; 0; 0x40400000] 2 9 = Ok s ∧ (sampler_iter s).1 = [2; 2] ∧
    ∀ i, i ∈ (sampler_iter s).1 → 0 ≤ i < 3.
Proof.
  destruct (weighted_draws_allowed (Rng := Z) (E := unit) [0x3f800000; 0; 0x40400000] 2 9) as [_ H].
  destruct (H ltac:(vm_compute; reflexivity)) as (s & Hs & _ & Hi). exists s. split; [exact Hs|]. split.
  - vm_compute in Hs. injection Hs as <-. vm_compute. reflexivity.
  - intros i Hin. exact (proj1 (Hi i Hin)).
Defined.

(** ** Divergence *)

(** Twelve weights 1 and a last weight 0: the twelve quotients 1/12 add up to
    1 - 2^-23, the largest number [gen_range(0.0..1.0)] draws, and that draw
    returns index 12, of weight 0. *)
Lemma weighted_zero_drawn :
  match WeightedRandomSampler_with_seed (E := unit) (Rng := Z) (replicate 12 0x3f800000 ++ [0]) 1 0 with
  | Ok s => weighted_draw s 0x3f7ffffe = 12
  | _ => False
  end.
Proof. vm_compute. reflexivity. Qed.
