(* ===== verification/DataLoader.v ===== *)
(** * Datasets and the data loader
      (crates/rustorch-data/src/dataset.rs, dataloader.rs)

    [TensorDataset] reads rows with [index_select], [DataLoader::iter_epoch] cuts
    the indices of a sampler into batches, fetches the items and concatenates
    them with [cat].  The loader is proved against the interface [DatasetLaws];
    [TensorDataset] is shown to meet it. *)

From Stdlib Require Import ZArith Lia.
From stdpp Require Import base list gmap.
From S2P Require Import Prelude Loops Dtype Float Shape Layout Storage Tensor View Mutate Iterator Conv ShapeOps Reduce IndexOps Fresh Sampler.

Open Scope Z_scope.

(** [enum DatasetError] *)
Inductive DatasetError :=
  | DShapeMismatch (row : Z) (got expected : Shape)
  | DIndexOutOfBounds (idx len : Z).

(** [trait Dataset] for items of two tensors; [get] allocates, so it takes and
    returns the world.  An error leaves the world as it was. *)
Class Dataset (D : Type) := {
  ds_len : D → Z;
  ds_get : World → D → Z → res DatasetError (World * (Tensor * Tensor))
}.

Definition ds_is_empty {D} `{Dataset D} (d : D) : bool := ds_len d =? 0.

(** [struct TensorDataset] *)
Record TensorDataset := mkTensorDataset { td_inputs : Tensor; td_targets : Tensor; td_len : Z }.

(** The leading dimension, 0 for a tensor without axes *)
Definition leading (t : Tensor) : Z := match t_shape t with [] => 0 | n :: _ => n end.

Definition TensorDataset_new (inputs targets : Tensor) : res DatasetError TensorDataset :=
  let n_in := leading inputs in
  let n_tgt := leading targets in
  if negb (n_in =? n_tgt) then Err (DShapeMismatch 0 (t_shape targets) (t_shape inputs))
  else Ok (mkTensorDataset inputs targets n_in).

Section loader.
Context (oom : Z → bool) (junk : Z → Z → list Z).

(** [TensorDataset::get]; the index tensor is dropped on return. *)
Definition TensorDataset_get (w : World) (d : TensorDataset) (idx : Z)
    : res DatasetError (World * (Tensor * Tensor)) :=
  if td_len d <=? idx then Err (DIndexOutOfBounds idx (td_len d))
  else
    let? wi := unwrap (from_vec_typed oom junk w I64 [1] [idx]) in
    let '(w, idx_t) := wi in
    let? wr := unwrap (index_select oom junk w (td_inputs d) 0 idx_t) in
    let '(w, in_row) := wr in
    let? wr := unwrap (index_select oom junk w (td_targets d) 0 idx_t) in
    let '(w, tgt_row) := wr in
    Ok (drop_tensor w idx_t, (in_row, tgt_row)).

Definition tensor_dataset : Dataset TensorDataset := {|
  ds_len := td_len;
  ds_get := TensorDataset_get
|}.

(** [enum DataLoaderError]; the message of a backend error is left out. *)
Inductive DataLoaderError :=
  | DLDataset (e : DatasetError)
  | DLBackend (e : BackendError).

Section data_loader.
Context {D S : Type} `{Dataset D} `{Sampler S}.

(** [struct DataLoader] *)
Record DataLoader := mkDataLoader {
  dl_dataset : D;
  dl_sampler : S;
  dl_batch_size : Z;
  dl_drop_last : bool
}.

Definition DataLoader_new (dataset : D) (sampler : S) (batch_size : Z) : DataLoader :=
  mkDataLoader dataset sampler batch_size false.

Definition drop_last (l : DataLoader) (b : bool) : DataLoader :=
  mkDataLoader (dl_dataset l) (dl_sampler l) (dl_batch_size l) b.

Definition num_batches {E} (l : DataLoader) : res E Z :=
  let n := sampler_len (dl_sampler l) in
  if dl_batch_size l =? 0 then Panic
  else if dl_drop_last l then Ok (n / dl_batch_size l)
  else Ok (div_ceil n (dl_batch_size l)).

(** The rows of a chunk: those fetched before the first error, and the error *)
Fixpoint fetch {E} (d : D) (w : World) (chunk : list Z) (x_rows y_rows : list Tensor)
    : res E (World * list Tensor * list Tensor * option DatasetError) :=
  match chunk with
  | [] => Ok (w, x_rows, y_rows, None)
  | i :: chunk =>
      match ds_get w d i with
      | Ok (w, (x, y)) => fetch d w chunk (x_rows ++ [x]) (y_rows ++ [y])
      | Err e => Ok (w, x_rows, y_rows, Some e)
      | Panic => Panic
      end
  end.

(** A call that may fail and leaves the world as it was when it does *)
Definition attempt {E A} (w : World) (m : res BackendError (World * A)) : res E (World * (BackendError + A)) :=
  match m with
  | Ok (w, x) => Ok (w, inr x)
  | Err e => Ok (w, inl e)
  | Panic => Panic
  end.

(** One round of the loop over the chunks.  The rows are dropped at its end,
    [y_rows] before [x_rows]; a batch tensor whose partner failed is dropped
    before them. *)
Definition batch {E} (d : D) (w : World) (chunk : list Z)
    : res E (World * (DataLoaderError + Tensor * Tensor)) :=
  let? f := fetch d w chunk [] [] in
  let '(w, x_rows, y_rows, chunk_err) := f in
  let drop_rows w := foldl drop_tensor (foldl drop_tensor w y_rows) x_rows in
  match chunk_err with
  | Some e => Ok (drop_rows w, inl (DLDataset e))
  | None =>
      let? wx := attempt w (cat oom junk w x_rows 0) in
      let '(w, xb) := wx in
      let? wy := attempt w (cat oom junk w y_rows 0) in
      let '(w, yb) := wy in
      match xb, yb with
      | inr x, inr y => Ok (drop_rows w, inr (x, y))
      | inl e, inr y => Ok (drop_rows (drop_tensor w y), inl (DLBackend e))
      | inr x, inl e => Ok (drop_rows (drop_tensor w x), inl (DLBackend e))
      | inl e, inl _ => Ok (drop_rows w, inl (DLBackend e))
      end
  end.

Fixpoint batches {E} (l : DataLoader) (w : World) (chunks : list (list Z))
    : res E (World * list (DataLoaderError + Tensor * Tensor)) :=
  match chunks with
  | [] => Ok (w, [])
  | chunk :: chunks =>
      if dl_drop_last l && (Z.of_nat (length chunk) <? dl_batch_size l) then Ok (w, [])
      else
        let? wb := batch (dl_dataset l) w chunk in
        let? wbs := batches l wb.1 chunks in
        Ok (wbs.1, wb.2 :: wbs.2)
  end.

Definition iter_epoch {E} (w : World) (l : DataLoader)
    : res E (World * DataLoader * list (DataLoaderError + Tensor * Tensor)) :=
  let '(indices, sampler) := sampler_iter (dl_sampler l) in
  if dl_batch_size l =? 0 then Panic
  else
    let? wb := batches l w (par_chunks (Z.to_nat (dl_batch_size l)) indices) in
    Ok (wb.1, mkDataLoader (dl_dataset l) sampler (dl_batch_size l) (dl_drop_last l), wb.2).
End data_loader.
End loader.
Arguments DataLoader : clear implicits.

(** ** Rows and batches *)

(** A tensor of one row per element of a list of readers *)
Definition rows_of (w : World) (t : Tensor) (T : Dtype) (rest : Shape) (gs : list (list Z → Z)) : Prop :=
  tensor_wf w t ∧ t_dtype t = T ∧ t_shape t = Z.of_nat (length gs) :: rest ∧
  ∀ j g, gs !! j = Some g → ∀ q, in_range rest q → element w t (Z.of_nat j :: q) = g q.

Lemma rows_of_extends w w' t T rest gs : world_wf w' → extends w w' → rows_of w t T rest gs → rows_of w' t T rest gs.
Proof.
  intros Hw He (Hwf & Hd & Hs & Hg). destruct (extends_tensor w w' t Hw He Hwf) as [Hwf' He'].
  split; [done|]. split; [done|]. split; [done|]. intros j g Hj q Hq. rewrite He'. by eapply Hg.
Qed.

Lemma rows_of_fmap {A} w t T rest (f g : A → list Z → Z) l :
  (∀ i q, i ∈ l → in_range rest q → f i q = g i q) → rows_of w t T rest (f <$> l) → rows_of w t T rest (g <$> l).
Proof.
  intros Hfg (H1 & H2 & H3 & H4). unfold rows_of. rewrite length_fmap in *. split_and!; [done|done|done|].
  intros j h Hj q Hq. rewrite list_lookup_fmap in Hj. destruct (l !! j) as [i|] eqn:Hi; [|done]. injection Hj as <-.
  rewrite <- Hfg by (done || by eapply list_elem_of_lookup_2). apply (H4 j); [by rewrite list_lookup_fmap, Hi|done].
Qed.

(** What a dataset promises to the loader *)
Class DatasetLaws (D : Type) `{Dataset D} := {
  ds_ok : World → D → Prop;
  x_dtype : D → Dtype;
  y_dtype : D → Dtype;
  x_rest : D → Shape;
  y_rest : D → Shape;
  x_at : World → D → Z → list Z → Z;
  y_at : World → D → Z → list Z → Z;
  ds_ok_wf w d : ds_ok w d → world_wf w;
  ds_ok_shapes w d : ds_ok w d →
    shape_op_dtype (x_dtype d) = true ∧ shape_op_dtype (y_dtype d) = true ∧
    Forall (λ n, 0 < n) (x_rest d) ∧ Forall (λ n, 0 < n) (y_rest d);
  ds_ok_extends w w' d : world_wf w' → extends w w' → ds_ok w d →
    ds_ok w' d ∧ ∀ i, 0 ≤ i < ds_len d →
      (∀ q, in_range (x_rest d) q → x_at w' d i q = x_at w d i q) ∧
      (∀ q, in_range (y_rest d) q → y_at w' d i q = y_at w d i q);
  ds_get_ok w d i : ds_ok w d → 0 ≤ i < ds_len d →
    ∃ w' x y, ds_get w d i = Ok (w', (x, y)) ∧ fresh_all w w' [x; y] ∧
      rows_of w' x (x_dtype d) (x_rest d) [x_at w d i] ∧ rows_of w' y (y_dtype d) (y_rest d) [y_at w d i];
  ds_get_bad w d i : ds_len d ≤ i → ds_get w d i = Err (DIndexOutOfBounds i (ds_len d))
}.

Section loader_lemmas.
Context (oom : Z → bool) (junk : Z → Z → list Z).
Hypothesis junk_len : ∀ p n, 0 ≤ n → Z.of_nat (length (junk p n)) = n.
Hypothesis no_oom : ∀ n, oom n = false.

Lemma zsum_ones k : zsum (replicate k 1) = Z.of_nat k.
Proof using Type. induction k as [|k IH]; [done|]. cbn [replicate]. rewrite zsum_cons, IH. lia. Qed.

Lemma driver_ok w U shape g r : driver_post oom w U shape g r → ∃ w' t, r = Ok (w', t) ∧ made w w' t U shape g.
Proof using no_oom. destruct r as [[w' t]|[]|]; simpl; try done. intros. by exists w', t. Qed.

(** Concatenating single rows *)
Lemma cat_rows_of w T rest ts gs :
  world_wf w → ts ≠ [] → Forall2 (λ t g, rows_of w t T rest [g]) ts gs →
  shape_op_dtype T = true → Forall (λ d, 0 < d) rest → fits_alloc (Z.of_nat (length gs) :: rest) T →
  ∃ w' t, cat oom junk w ts 0 = Ok (w', t) ∧ fresh_all w w' [t] ∧ rows_of w' t T rest gs.
Proof using junk_len no_oom.
  intros Hw Hne Hts HT Hrest Hfit. set (ds := replicate (length gs) 1).
  pose proof (Forall2_length _ _ _ Hts) as Hlen.
  assert (Forall2 (cat_input w T [] rest) ts ds) as Hin.
  { apply Forall2_same_length_lookup_2; [by unfold ds; rewrite length_replicate|].
    intros i t d Ht [-> Hi]%lookup_replicate. destruct (lookup_lt_is_Some_2 gs i Hi) as [g Hg].
    destruct (Forall2_lookup_lr _ _ _ _ _ _ Hts Ht Hg) as (Hwf & Hd & Hs & _). done. }
  assert (zsum ds = Z.of_nat (length gs)) as Hsum by apply zsum_ones.
  destruct (driver_ok _ _ _ _ _ (cat_spec oom junk junk_len w T [] rest ts ds Hw Hne Hin HT
    ltac:(constructor) Hrest ltac:(by rewrite Hsum))) as (w' & t & Hc & Hm).
  exists w', t. split; [exact Hc|]. split; [by eapply fresh_all_made|].
  destruct Hm as (Hwf & Hd & Hs & _ & _ & _ & Hel). simpl in Hs. rewrite Hsum in Hs, Hel.
  split; [done|]. split; [done|]. split; [done|]. intros j g Hj q Hq. pose proof (lookup_lt_Some _ _ _ Hj) as Hlt.
  rewrite Hel by (constructor; [lia|done]). unfold cat_read. rewrite readers_dims by (unfold ds; by rewrite length_replicate).
  change ((Z.of_nat j :: q) !!! length []) with (Z.of_nat j).
  pose proof (locate_at ds j 1 0 ltac:(by apply Forall_replicate) ltac:(by apply lookup_replicate_2) ltac:(lia)) as Hloc.
  unfold ds in Hloc at 2. rewrite take_replicate, Nat.min_l, zsum_ones, Z.add_0_r in Hloc by lia. rewrite Hloc.
  destruct (lookup_lt_is_Some_2 ts j ltac:(lia)) as [tj Htj].
  unfold readers. rewrite lookup_zip_with, Htj. unfold ds. rewrite lookup_replicate_2 by lia. cbn.
  destruct (Forall2_lookup_lr _ _ _ _ _ _ Hts Htj Hj) as (_ & _ & _ & Hrow). exact (Hrow 0%nat g eq_refl q Hq).
Qed.

Section client.
Context {D : Type} `{DatasetLaws D}.

(** The first index of a chunk that the dataset refuses *)
Definition first_bad (d : D) (chunk : list Z) : option Z := List.find (λ i, ds_len d <=? i) chunk.

Lemma fetch_spec {E} d w chunk xs ys :
  ds_ok w d → Forall (λ i, 0 ≤ i) chunk →
  ∃ w' xs' ys', fetch (E := E) d w chunk xs ys =
      Ok (w', xs ++ xs', ys ++ ys', (λ i, DIndexOutOfBounds i (ds_len d)) <$> first_bad d chunk) ∧
    fresh_all w w' (xs' ++ ys') ∧
    (first_bad d chunk = None →
      Forall2 (λ i t, rows_of w' t (x_dtype d) (x_rest d) [x_at w d i]) chunk xs' ∧
      Forall2 (λ i t, rows_of w' t (y_dtype d) (y_rest d) [y_at w d i]) chunk ys').
Proof using Type.
  intros Hok Hnn. revert w Hok xs ys. induction Hnn as [|i chunk Hi Hnn IH]; intros w Hok xs ys.
  { exists w, [], []. rewrite !app_nil_r. split; [done|].
    split; [apply fresh_all_nil; by eapply ds_ok_wf|]. intros _. by split; constructor. }
  unfold first_bad in *. cbn [fetch List.find]. destruct (Z.leb_spec (ds_len d) i) as [Hbad|Hgood].
  { rewrite ds_get_bad by done. exists w, [], []. rewrite !app_nil_r. split; [done|].
    split; [apply fresh_all_nil; by eapply ds_ok_wf|done]. }
  destruct (ds_get_ok w d i Hok ltac:(lia)) as (w1 & x & y & -> & Hf & Hx & Hy).
  pose proof Hf as (Hw1 & He1 & _). destruct (ds_ok_extends w w1 d Hw1 He1 Hok) as [Hok1 Hat].
  destruct (IH w1 Hok1 (xs ++ [x]) (ys ++ [y])) as (w' & xs' & ys' & -> & Hf' & Hrows).
  exists w', (x :: xs'), (y :: ys'). rewrite <- !(assoc_L (++)). split; [done|].
  pose proof Hf' as (Hw' & He' & _). split.
  - eapply fresh_all_perm; [|by eapply fresh_all_trans]. simpl. apply Permutation_skip, Permutation_middle.
  - intros Hnone. destruct (Hrows Hnone) as [Hxs Hys].
    assert (∀ (P Q : Z → Tensor → Prop) l, (∀ k t, 0 ≤ k < ds_len d → P k t → Q k t) →
      Forall2 P chunk l → Forall2 Q chunk l) as Hmono.
    { intros P Q l HPQ HF. apply Forall2_same_length_lookup_2; [by eapply Forall2_length|].
      intros j k t Hk Ht. apply HPQ; [|by eapply Forall2_lookup_lr].
      split; [by eapply (Forall_lookup_1 _ _ _ _ Hnn)|].
      pose proof (List.find_none _ _ Hnone k ltac:(apply list_elem_of_In; by eapply list_elem_of_lookup_2)) as Hlt.
      by apply Z.leb_gt in Hlt. }
    split; (constructor; [by eapply rows_of_extends|]).
    + eapply Hmono; [|exact Hxs]. intros k t Hk (H1 & H2 & H3 & H4). split_and!; [done|done|done|].
      intros j g [-> <-]%list_lookup_singleton_Some q Hq. rewrite (H4 0%nat _ eq_refl q Hq). by apply (Hat k Hk).
    + eapply Hmono; [|exact Hys]. intros k t Hk (H1 & H2 & H3 & H4). split_and!; [done|done|done|].
      intros j g [-> <-]%list_lookup_singleton_Some q Hq. rewrite (H4 0%nat _ eq_refl q Hq). by apply (Hat k Hk).
Qed.

Definition batch_tensors (b : DataLoaderError + Tensor * Tensor) : list Tensor :=
  match b with inr (x, y) => [x; y] | inl _ => [] end.

(** What the batch of a chunk is: two tensors of the chunk's rows, or the error
    of the first index that the dataset refuses; [w0] is the world the rows are
    read in. *)
Definition batch_post (w0 w' : World) (d : D) (chunk : list Z) (b : DataLoaderError + Tensor * Tensor) : Prop :=
  match b with
  | inr (x, y) =>
      first_bad d chunk = None ∧
      rows_of w' x (x_dtype d) (x_rest d) (x_at w0 d <$> chunk) ∧
      rows_of w' y (y_dtype d) (y_rest d) (y_at w0 d <$> chunk)
  | inl e => ∃ i, first_bad d chunk = Some i ∧ e = DLDataset (DIndexOutOfBounds i (ds_len d))
  end.

Lemma batch_post_extends w0 w w' d chunk b :
  world_wf w' → extends w w' → batch_post w0 w d chunk b → batch_post w0 w' d chunk b.
Proof using Type.
  intros Hw He. destruct b as [e|[x y]]; [done|]. intros (Hn & Hx & Hy).
  split; [done|]. split; by eapply rows_of_extends.
Qed.

Lemma batch_spec {E} d w chunk :
  ds_ok w d → Forall (λ i, 0 ≤ i) chunk → chunk ≠ [] →
  fits_alloc (Z.of_nat (length chunk) :: x_rest d) (x_dtype d) →
  fits_alloc (Z.of_nat (length chunk) :: y_rest d) (y_dtype d) →
  ∃ w' b, batch (E := E) oom junk d w chunk = Ok (w', b) ∧
    fresh_all w w' (batch_tensors b) ∧ batch_post w w' d chunk b.
Proof using junk_len no_oom.
  intros Hok Hnn Hne Hfx Hfy. unfold batch.
  destruct (fetch_spec (E := E) d w chunk [] [] Hok Hnn) as (w1 & xs & ys & -> & Hf & Hrows). cbn [rbind app].
  destruct (first_bad d chunk) as [i|] eqn:Hbad; simpl.
  { eexists _, _. split; [done|]. split; [|by exists i].
    rewrite <- foldl_app. apply (fresh_all_drops w w1 (ys ++ xs) []). rewrite app_nil_r.
    by eapply fresh_all_perm; [apply Permutation_app_comm|]. }
  destruct (Hrows eq_refl) as [Hxs Hys]. destruct (ds_ok_shapes w d Hok) as (HTx & HTy & Hpx & Hpy).
  pose proof (Forall2_length _ _ _ Hxs) as Hlx. pose proof (Forall2_length _ _ _ Hys) as Hly.
  assert (xs ≠ [] ∧ ys ≠ []) as [Hxne Hyne] by (destruct chunk, xs, ys; done).
  pose proof Hf as (Hw1 & _).
  destruct (cat_rows_of w1 (x_dtype d) (x_rest d) xs (x_at w d <$> chunk)) as (w2 & x & -> & Hfx2 & Hx);
    [done|done|by apply Forall2_fmap_r, Forall2_flip|done|done|by rewrite length_fmap|].
  cbn [attempt rbind]. pose proof Hfx2 as (Hw2 & He2 & _).
  destruct (cat_rows_of w2 (y_dtype d) (y_rest d) ys (y_at w d <$> chunk)) as (w3 & y & -> & Hfy3 & Hy);
    [done|done| |done|done|by rewrite length_fmap|].
  { apply Forall2_fmap_r, Forall2_flip. eapply Forall2_impl; [exact Hys|]. intros i t. by apply rows_of_extends. }
  cbn [attempt rbind]. pose proof Hfy3 as (Hw3 & He3 & _).
  pose proof (fresh_all_trans _ _ _ _ _ Hf (fresh_all_trans _ _ _ _ _ Hfx2 Hfy3)) as Hall.
  assert (fresh_all w w3 ((ys ++ xs) ++ [x; y])) as Hall'
    by (eapply fresh_all_perm; [|exact Hall]; apply Permutation_app_tail, Permutation_app_comm).
  destruct (fresh_all_drops _ _ _ _ Hall') as [Hfin Hel]. rewrite foldl_app in Hfin, Hel.
  eexists _, _. split; [done|]. split; [exact Hfin|]. pose proof Hfin as (Hwf & _ & Hts & _).
  pose proof (rows_of_extends w2 w3 x _ _ _ Hw3 He3 Hx) as (_ & Hxd & Hxs' & Hxr). destruct Hy as (_ & Hyd & Hys' & Hyr).
  split; [done|]. split.
  - split; [apply Hts; by left|]. split; [done|]. split; [done|]. intros j g Hj q Hq.
    rewrite Hel by (by left). by eapply Hxr.
  - split; [apply Hts; right; by left|]. split; [done|]. split; [done|]. intros j g Hj q Hq.
    rewrite Hel by (right; by left). by eapply Hyr.
Qed.

(** The chunks the loop reaches *)
Fixpoint reached (drop_last : bool) (bs : Z) (chunks : list (list Z)) : list (list Z) :=
  match chunks with
  | [] => []
  | c :: chunks => if drop_last && (Z.of_nat (length c) <? bs) then [] else c :: reached drop_last bs chunks
  end.

Lemma batches_spec {E S} (s : S) d bs dl w0 w chunks :
  ds_ok w d → (∀ i, 0 ≤ i < ds_len d →
    (∀ q, in_range (x_rest d) q → x_at w d i q = x_at w0 d i q) ∧
    (∀ q, in_range (y_rest d) q → y_at w d i q = y_at w0 d i q)) →
  Forall (λ c, Forall (λ i, 0 ≤ i) c ∧ c ≠ [] ∧ Z.of_nat (length c) ≤ bs) chunks →
  fits_alloc (bs :: x_rest d) (x_dtype d) → fits_alloc (bs :: y_rest d) (y_dtype d) →
  ∃ w' out, batches (E := E) oom junk (mkDataLoader d s bs dl) w chunks = Ok (w', out) ∧
    fresh_all w w' (mjoin (batch_tensors <$> out)) ∧
    Forall2 (batch_post w0 w' d) (reached dl bs chunks) out.
Proof using junk_len no_oom.
  intros Hok Hat Hch Hfx Hfy. revert w Hok Hat. induction Hch as [|c chunks (Hnn & Hne & Hle) Hch IH]; intros w Hok Hat.
  { exists w, []. split; [done|]. split; [apply fresh_all_nil; by eapply ds_ok_wf|constructor]. }
  cbn [batches reached]. cbn [dl_drop_last dl_batch_size dl_dataset].
  destruct (dl && _).
  { exists w, []. split; [done|]. split; [apply fresh_all_nil; by eapply ds_ok_wf|constructor]. }
  destruct (batch_spec (E := E) d w c Hok Hnn Hne) as (w1 & b & -> & Hf & Hb);
    [by apply (fits_alloc_smaller [] bs); [|lia]..|].
  cbn [rbind fst snd]. pose proof Hf as (Hw1 & He1 & _). destruct (ds_ok_extends w w1 d Hw1 He1 Hok) as [Hok1 Hat1].
  destruct (IH w1 Hok1) as (w' & out & -> & Hf' & Hout).
  { intros i Hi. destruct (Hat i Hi) as [Ha Hb0], (Hat1 i Hi) as [Ha1 Hb1].
    split; intros q Hq; [by rewrite Ha1, Ha|by rewrite Hb1, Hb0]. }
  cbn [rbind fst snd]. pose proof Hf' as (Hw' & He' & _). exists w', (b :: out). split; [done|]. split.
  - by eapply fresh_all_trans.
  - constructor; [|done]. eapply batch_post_extends; [done|exact He'|].
    destruct b as [e|[x y]]; [done|]. destruct Hb as (Hnone & Hx & Hy). split; [done|].
    assert (∀ i, i ∈ c → 0 ≤ i < ds_len d) as Hin.
    { intros i Hi. rewrite Forall_forall in Hnn. split; [by apply Hnn|].
      pose proof (List.find_none _ _ Hnone i ltac:(by apply list_elem_of_In)) as Hlt. apply Z.leb_gt, Hlt. }
    split; (eapply rows_of_fmap; [|eassumption]); intros i q Hi Hq; by apply (Hat i (Hin i Hi)).
Qed.
End client.
End loader_lemmas.

(** ** The number of batches *)

Lemma div_ceil_add x y : 0 < y → div_ceil (x + y) y = div_ceil x y + 1.
Proof.
  intros Hy. unfold div_ceil. replace (x + y) with (x + 1 * y) by lia. rewrite Z.mod_add, Z.div_add by lia.
  destruct (_ =? _); lia.
Qed.

Lemma div_ceil_small x y : 0 < x ≤ y → div_ceil x y = 1.
Proof.
  intros Hx. unfold div_ceil. destruct (decide (x = y)) as [->|].
  - by rewrite Z.mod_same, Z.div_same by lia.
  - rewrite Z.mod_small, Z.div_small by lia. by rewrite (proj2 (Z.eqb_neq x 0)) by lia.
Qed.

(** The batches of an epoch of [n] indices *)
Definition batch_count (dl : bool) (n bs : Z) : Z := if dl then n / bs else div_ceil n bs.

Lemma reached_chunks dl k fuel l :
  (0 < k)%nat → (length l ≤ fuel)%nat →
  Z.of_nat (length (reached dl (Z.of_nat k) (chunks fuel k l))) = batch_count dl (Z.of_nat (length l)) (Z.of_nat k) ∧
  ∀ j c, reached dl (Z.of_nat k) (chunks fuel k l) !! j = Some c → c = take k (drop (j * k) l).
Proof.
  intros Hk. revert l. induction fuel as [|fuel IH]; intros [|x l] Hf; try (simpl in Hf; lia);
    [by destruct dl..|].
  cbn [chunks reached]. set (l0 := x :: l) in *. assert (0 < length l0)%nat as Hl0 by (unfold l0; simpl; lia).
  rewrite length_take. destruct (IH (drop k l0)) as [IHn IHc]; [rewrite length_drop; lia|].
  rewrite length_drop in IHn. unfold batch_count in *.
  destruct (Z.ltb_spec (Z.of_nat (k `min` length l0)) (Z.of_nat k)) as [Hshort|Hfull].
  - destruct dl; cbn [andb].
    + split; [|done]. cbn [length]. rewrite Z.div_small by lia. done.
    + cbn [length]. rewrite Nat2Z.inj_succ, IHn. replace (length l0 - k)%nat with 0%nat by lia.
      rewrite (div_ceil_small (Z.of_nat (length l0))) by lia.
      split; [unfold div_ceil; rewrite Z.mod_0_l, Z.div_0_l by lia; done|].
      intros [|j] c; simpl; [by intros [= <-]|]. intros Hc. rewrite (IHc _ _ Hc), drop_drop. by do 2 f_equal; lia.
  - rewrite andb_false_r. cbn [length]. split.
    + rewrite Nat2Z.inj_succ, IHn. replace (Z.of_nat (length l0)) with (Z.of_nat (length l0 - k) + Z.of_nat k) by lia.
      destruct dl; [|by rewrite div_ceil_add by lia].
      replace (Z.of_nat (length l0 - k) + Z.of_nat k) with (Z.of_nat (length l0 - k) + 1 * Z.of_nat k) by lia.
      rewrite Z.div_add by lia. lia.
    + intros [|j] c; simpl; [by intros [= <-]|]. intros Hc. rewrite (IHc _ _ Hc), drop_drop. by do 2 f_equal; lia.
Qed.

Lemma chunks_ok (P : Z → Prop) k fuel l : (0 < k)%nat → Forall P l →
  Forall (λ c, Forall P c ∧ c ≠ [] ∧ Z.of_nat (length c) ≤ Z.of_nat k) (chunks fuel k l).
Proof.
  intros Hk. revert l. induction fuel as [|fuel IH]; intros [|x l] Hl; try constructor.
  - split; [by apply Forall_take|]. split; [destruct k; [lia|done]|]. rewrite length_take. lia.
  - by apply IH, Forall_drop.
Qed.

(** ** Properties *)

(** One epoch of the data loader.  Over any sampler and any dataset that keep
    their promises, memory permitting, [iter_epoch] returns as many batches as
    [num_batches] announces; batch [k] holds the rows of indices
    [k * batch_size] to [(k + 1) * batch_size - 1] of the sampler's epoch in their
    order, inputs and targets alike, the last one shorter unless [drop_last] is
    set.  A batch with an index the dataset refuses is the error of the first
    such index and the other batches are unaffected.  The batch tensors are new,
    nothing that was alive changes and the rows in between are released; the
    sampler moves to its next state. *)
Theorem iter_epoch_correct {E D S} `{DatasetLaws D} `{SamplerLaws S} oom junk w (d : D) (s : S) bs dl :
  (∀ p n, 0 ≤ n → Z.of_nat (length (junk p n)) = n) → (∀ n, oom n = false) →
  ds_ok w d → sampler_ok s → let indices := (sampler_iter s).1 in Forall (λ i, 0 ≤ i) indices →
  0 < bs → fits_alloc (bs :: x_rest d) (x_dtype d) → fits_alloc (bs :: y_rest d) (y_dtype d) →
  ∃ w' out,
    iter_epoch (E := E) oom junk w (mkDataLoader d s bs dl) = Ok (w', mkDataLoader d (sampler_iter s).2 bs dl, out) ∧
    num_batches (E := E) (mkDataLoader d s bs dl) = Ok (Z.of_nat (length out)) ∧
    fresh_all w w' (mjoin (batch_tensors <$> out)) ∧
    ∀ k b, out !! k = Some b →
      batch_post w w' d (take (Z.to_nat bs) (drop (k * Z.to_nat bs) indices)) b.
Proof.
  intros Hj Hoom Hok Hs indices Hnn Hbs Hfx Hfy. pose proof (sampler_iter_length s Hs) as Hlen.
  unfold iter_epoch, num_batches. cbn [dl_sampler dl_batch_size dl_drop_last dl_dataset].
  subst indices. destruct (sampler_iter s) as [indices s']. cbn [fst snd] in *.
  rewrite (proj2 (Z.eqb_neq bs 0)) by lia.
  assert (Z.of_nat (Z.to_nat bs) = bs) as Hk by lia.
  destruct (batches_spec (E := E) oom junk Hj Hoom s d bs dl w w (par_chunks (Z.to_nat bs) indices)) as (w' & out & -> & Hf & Hout);
    [done|done| |done|done|].
  { pose proof (chunks_ok _ (Z.to_nat bs) (length indices) indices ltac:(lia) Hnn) as Hc. by rewrite Hk in Hc. }
  destruct (reached_chunks dl (Z.to_nat bs) (length indices) indices ltac:(lia) ltac:(lia)) as [Hn Hc].
  rewrite Hk in Hn, Hc. exists w', out. split; [done|]. split; [|split; [done|]].
  - rewrite <- (Forall2_length _ _ _ Hout). unfold par_chunks. rewrite Hn, Hlen. by destruct dl.
  - intros k b Hb. destruct (Forall2_lookup_r _ _ _ _ _ Hout Hb) as (c & Hcl & Hp). by rewrite <- (Hc k c Hcl).
Qed.

(** ** TensorDataset *)

(** The shape of the rows *)
Definition row_shape (t : Tensor) : Shape := tail (t_shape t).

Definition row_tensor (w : World) (n : Z) (t : Tensor) : Prop :=
  tensor_wf w t ∧ t_dtype t ∈ [F32; F64; I64; I32] ∧ t_shape t = n :: row_shape t ∧
  Forall (λ d, 0 < d) (row_shape t) ∧ fits_alloc (t_shape t) (t_dtype t).

Lemma row_tensor_extends w w' n t : world_wf w' → extends w w' → row_tensor w n t →
  row_tensor w' n t ∧ ∀ idx, element w' t idx = element w t idx.
Proof.
  intros Hw He (Hwf & Hd & Hs). destruct (extends_tensor w w' t Hw He Hwf) as [Hwf' Hel].
  split; [|done]. split; [done|]. by split.
Qed.

Section tensor_dataset.
Context (oom : Z → bool) (junk : Z → Z → list Z).
Hypothesis junk_len : ∀ p n, 0 ≤ n → Z.of_nat (length (junk p n)) = n.
Hypothesis no_oom : ∀ n, oom n = false.

Lemma one_index_fits : fits_alloc [1] I64.
Proof using Type. split; [split; [repeat constructor; vm_compute; congruence|vm_compute; reflexivity]|vm_compute; congruence]. Qed.

(** Reading one row *)
Lemma select_row w t n idx_t i :
  row_tensor w n t → tensor_wf w idx_t → t_dtype idx_t = I64 → t_shape idx_t = [1] →
  shape_order w idx_t = [i] → 0 ≤ i < n →
  ∃ w' r, index_select oom junk w t 0 idx_t = Ok (w', r) ∧ fresh_all w w' [r] ∧
    rows_of w' r (t_dtype t) (row_shape t) [λ q, element w t (i :: q)].
Proof using junk_len no_oom.
  intros (Hwf & Hd & Hs & Hpos & Hfit) Hiw Hid His Hio Hi.
  assert (0 ≤ n < 2 ^ 63) as Hn.
  { rewrite Hs in Hfit. destruct Hfit as [(Hu & Hp)%shape_fits_cons _]. unfold uint in Hu.
    destruct Hp as [Hp _]. lia. }
  assert (selected w idx_t 0 = i) as Hsel.
  { unfold selected. rewrite Hio. change (swrap 64 i = i). apply swrap_small; [lia|unfold sint; lia]. }
  pose proof (index_select_ok oom junk junk_len w t idx_t Hwf Hiw 0 n 1 Hd Hid ltac:(by rewrite Hs) His) as Hok.
  rewrite Hs in Hok. cbn [insert list_insert] in Hok.
  destruct (driver_ok oom no_oom _ _ _ _ _ (Hok ltac:(intros c Hc; assert (c = 0) as -> by lia; lia)
    ltac:(rewrite Hs in Hfit; by apply (fits_alloc_smaller [] n); [|lia]))) as (w' & r & -> & Hm).
  exists w', r. split; [done|]. split; [by eapply fresh_all_made|].
  destruct Hm as (Hrw & Hrd & Hrs & _ & _ & _ & Hre). split; [done|]. split; [done|]. split; [done|].
  intros j g [-> <-]%list_lookup_singleton_Some q Hq. rewrite Hre by (constructor; [lia|done]).
  transitivity (element w t (selected w idx_t 0 :: q)); [done|by rewrite Hsel].
Qed.

Lemma tensor_get_spec w d i :
  row_tensor w (td_len d) (td_inputs d) → row_tensor w (td_len d) (td_targets d) → 0 ≤ i < td_len d →
  ∃ w' x y, TensorDataset_get oom junk w d i = Ok (w', (x, y)) ∧ fresh_all w w' [x; y] ∧
    rows_of w' x (t_dtype (td_inputs d)) (row_shape (td_inputs d)) [λ q, element w (td_inputs d) (i :: q)] ∧
    rows_of w' y (t_dtype (td_targets d)) (row_shape (td_targets d)) [λ q, element w (td_targets d) (i :: q)].
Proof using junk_len no_oom.
  intros Hx Hy Hi. unfold TensorDataset_get. rewrite (proj2 (Z.leb_gt _ _)) by lia.
  pose proof Hx as (Hxw & _ & Hxs & _ & Hxf).
  assert (td_len d < 2 ^ 63) as Hn.
  { rewrite Hxs in Hxf. destruct Hxf as [(_ & [Hp _])%shape_fits_cons _]. lia. }
  destruct (from_vec_typed_ok oom junk junk_len w I64 [1] [i] (proj1 Hxw) (proj1 one_index_fits) (proj2 one_index_fits)
    ltac:(repeat constructor; change (8 * Dtype_byte_size I64) with 64; lia) no_oom eq_refl) as (w1 & it & -> & Hit).
  cbn [unwrap rbind]. destruct Hit as (Hiw & Hid & His & _ & _ & _ & _ & _ & Hio & _ & Hie & Hine).
  assert (fresh_all w w1 [it]) as Hf1.
  { split; [apply Hiw|]. split; [done|]. split; [by intros t ->%list_elem_of_singleton|apply NoDup_singleton]. }
  destruct (row_tensor_extends w w1 _ _ (proj1 Hiw) Hie Hx) as [Hx1 Hxe1].
  destruct (row_tensor_extends w w1 _ _ (proj1 Hiw) Hie Hy) as [Hy1 Hye1].
  destruct (select_row w1 _ _ it i Hx1 Hiw Hid His Hio Hi) as (w2 & x & -> & Hf2 & Hrx).
  cbn [unwrap rbind]. pose proof Hf2 as (Hw2 & He2 & _).
  destruct (row_tensor_extends w1 w2 _ _ Hw2 He2 Hy1) as [Hy2 Hye2].
  destruct (extends_tensor w1 w2 it Hw2 He2 Hiw) as [Hiw2 Hie2].
  assert (shape_order w2 it = [i]) as Hio2.
  { rewrite <- Hio, !shape_order_elements. unfold elements. apply list_fmap_ext. intros k j _. apply Hie2. }
  destruct (select_row w2 _ _ it i Hy2 Hiw2 Hid His Hio2 Hi) as (w3 & y & -> & Hf3 & Hry).
  cbn [unwrap rbind]. pose proof Hf3 as (Hw3 & He3 & _).
  pose proof (fresh_all_trans _ _ _ _ _ Hf1 (fresh_all_trans _ _ _ _ _ Hf2 Hf3)) as Hall.
  destruct (fresh_all_drop _ _ _ _ Hall) as [Hfin Hel]. exists (drop_tensor w3 it), x, y.
  split; [done|]. split; [exact Hfin|]. pose proof Hfin as (_ & _ & Hts & _).
  pose proof (rows_of_extends w2 w3 x _ _ _ Hw3 He3 Hrx) as (_ & Hxd & Hxs' & Hxr). destruct Hry as (_ & Hyd & Hys' & Hyr).
  split; (split; [apply Hts; by (left || right; left)|]; split; [done|]; split; [done|]);
    intros j g [-> <-]%list_lookup_singleton_Some q Hq; rewrite Hel by (by (left || right; left)).
  - rewrite (Hxr 0%nat _ eq_refl q Hq). apply Hxe1.
  - rewrite (Hyr 0%nat _ eq_refl q Hq). by rewrite Hye2, Hye1.
Qed.

Definition tensor_dataset_ok (w : World) (d : TensorDataset) : Prop :=
  row_tensor w (td_len d) (td_inputs d) ∧ row_tensor w (td_len d) (td_targets d).

Definition tensor_dataset_laws : DatasetLaws TensorDataset (H := tensor_dataset oom junk).
Proof using junk_len no_oom.
  refine {|
    ds_ok := tensor_dataset_ok;
    x_dtype d := t_dtype (td_inputs d); y_dtype d := t_dtype (td_targets d);
    x_rest d := row_shape (td_inputs d); y_rest d := row_shape (td_targets d);
    x_at w d i q := element w (td_inputs d) (i :: q); y_at w d i q := element w (td_targets d) (i :: q) |}.
  - intros w d [Hx _]. apply Hx.
  - assert (∀ T, T ∈ [F32; F64; I64; I32] → shape_op_dtype T = true) as HT.
    { intros T. rewrite !elem_of_cons, elem_of_nil. by intros [->|[->|[->|[->|[]]]]]. }
    intros w d [(_ & Hdx & _ & Hpx & _) (_ & Hdy & _ & Hpy & _)]. split_and!; auto.
  - intros w w' d Hw He [Hx Hy]. destruct (row_tensor_extends _ _ _ _ Hw He Hx), (row_tensor_extends _ _ _ _ Hw He Hy).
    split; [by split|]. by split.
  - intros w d i [Hx Hy] Hi. by apply tensor_get_spec.
  - intros w d i Hi. simpl in Hi |- *. unfold TensorDataset_get. by rewrite (proj2 (Z.leb_le _ _)).
Defined.
End tensor_dataset.

(** [TensorDataset::new] pairs tensors of the same leading dimension, and such a
    dataset of non-empty rows keeps the promises of [DatasetLaws]. *)
Lemma TensorDataset_new_spec w x y :
  (leading x ≠ leading y → TensorDataset_new x y = Err (DShapeMismatch 0 (t_shape y) (t_shape x))) ∧
  (leading x = leading y → TensorDataset_new x y = Ok (mkTensorDataset x y (leading x))) ∧
  (∀ d, TensorDataset_new x y = Ok d → row_tensor w (leading x) x → row_tensor w (leading y) y → tensor_dataset_ok w d).
Proof.
  unfold TensorDataset_new. destruct (Z.eqb_spec (leading x) (leading y)) as [He|He]; cbn [negb].
  - split; [done|]. split; [done|]. intros d [= <-] Hx Hy. split; [exact Hx|]. simpl. by rewrite He.
  - split; [done|]. by split; [intros ?|].
Qed.

(** *** Witness *)

(** Inputs [[1, 2, 3], [4, 5, 6]], targets [7, 8], in batches of two with a
    sampler that reverses *)
Definition with_targets : World * Tensor := build_in t23.1 I64 [2] [7; 8].
Definition pairs : TensorDataset := mkTensorDataset t23.2 with_targets.2 2.

Lemma shape_2_fits : shape_fits [2].
Proof. split; [repeat constructor; vm_compute; congruence|vm_compute; reflexivity]. Qed.

Lemma pairs_ok : tensor_dataset_ok with_targets.1 pairs.
Proof.
  destruct (build_in_spec t23.1 I64 [2] [7; 8] (proj1 t23_wf) shape_2_fits) as [Ht He];
    [solve_data..|fold with_targets in Ht, He].
  split; split.
  - eapply extends_tensor_wf; [apply Ht|exact He|exact t23_wf].
  - split; [apply (bool_decide_unpack _); vm_compute; exact I|]. split; [vm_compute; reflexivity|].
    split; [apply (bool_decide_unpack _); vm_compute; exact I|exact t23_fits_alloc].
  - exact Ht.
  - split; [apply (bool_decide_unpack _); vm_compute; exact I|]. split; [vm_compute; reflexivity|].
    split; [apply (bool_decide_unpack _); vm_compute; exact I|].
    assert (t_shape (td_targets pairs) = [2]) as -> by (vm_compute; reflexivity).
    assert (t_dtype (td_targets pairs) = I64) as -> by (vm_compute; reflexivity).
    split; [exact shape_2_fits|vm_compute; congruence].
Qed.

#[local] Instance pairs_dataset : Dataset TensorDataset := tensor_dataset no_oom ff_junk.
#[local] Instance pairs_laws : DatasetLaws TensorDataset (H := pairs_dataset) := tensor_dataset_laws no_oom ff_junk ff_junk_len (λ _, eq_refl).

Lemma pairs_fit :
  fits_alloc (2 :: x_rest pairs) (x_dtype pairs) ∧ fits_alloc (2 :: y_rest pairs) (y_dtype pairs).
Proof.
  assert (x_rest pairs = [3] ∧ x_dtype pairs = I32 ∧ y_rest pairs = [] ∧ y_dtype pairs = I64) as (-> & -> & -> & ->)
    by (vm_compute; done).
  split; (split; [split; [repeat constructor; vm_compute; congruence|vm_compute; reflexivity]|vm_compute; congruence]).
Qed.

Lemma iter_epoch_correct_witness :
  ∃ w' l x y, iter_epoch (E := unit) no_oom ff_junk with_targets.1
      (mkDataLoader pairs (RandomSampler_with_seed (Rng := Z) 2 5) 2 false) = Ok (w', l, [inr (x, y)]) ∧
    element w' x [0; 2] = 6 ∧ element w' y [1] = 7.
Proof.
  destruct (iter_epoch_correct (E := unit) (H0 := pairs_laws) no_oom ff_junk with_targets.1 pairs (RandomSampler_with_seed (Rng := Z) 2 5)
    2 false ff_junk_len (λ _, eq_refl) pairs_ok) as (w' & out & Hi & _ & _ & Hb).
  - vm_compute. congruence.
  - repeat constructor; vm_compute; congruence.
  - lia.
  - exact (proj1 pairs_fit).
  - exact (proj2 pairs_fit).
  - assert (∃ x y, out = [inr (x, y)]) as (x & y & ->).
    { vm_compute in Hi. injection Hi as _ <-. eexists _, _. reflexivity. }
    eexists w', _, x, y. split; [exact Hi|].
    destruct (Hb 0%nat _ eq_refl) as (_ & (_ & _ & _ & Hx) & (_ & _ & _ & Hy)). split.
    + etransitivity; [apply (Hx 0%nat _ eq_refl [2]); apply (bool_decide_unpack _); vm_compute; exact I|].
      vm_compute. reflexivity.
    + etransitivity; [apply (Hy 1%nat _ eq_refl []); apply (bool_decide_unpack _); vm_compute; exact I|].
      vm_compute. reflexivity.
Defined.

(** ** Divergences *)

(** A batch size of 0 panics, in [num_batches] as in [iter_epoch]; a dataset of a
    dtype that [index_select] refuses is built, and panics when read. *)
Lemma batch_size_zero {D S} `{Dataset D} `{Sampler S} w (d : D) (s : S) dl :
  num_batches (E := unit) (mkDataLoader d s 0 dl) = Panic ∧
  iter_epoch (E := unit) no_oom ff_junk w (mkDataLoader d s 0 dl) = Panic.
Proof. split; [done|]. unfold iter_epoch. simpl. by destruct (sampler_iter s). Qed.

Lemma bool_dataset_panics :
  on_built (λ w t, match TensorDataset_new t t with
                   | Ok d => TensorDataset_get no_oom ff_junk w d 0
                   | _ => Err (DIndexOutOfBounds 0 0) end) DBool [2] [0; 1] = Panic.
Proof. vm_compute. reflexivity. Qed.
