(* ===== verification/LinAlg.v ===== *)
(** * Linear algebra on square matrices
      (crates/rustorch-cpu/src/kernels/linalg.rs)

    QR by Gram-Schmidt, Cholesky, LU with partial pivoting and the inverse by
    two triangular solves.  The loops are written over any scalar type with the
    operations the kernels use; the functions on tensors run them on f32 bit
    patterns.  [LinAlgReal] proves the factorizations over the real numbers; here
    are the checks and the absence of panics. *)

From Stdlib Require Import ZArith Lia SpecFloat.
From stdpp Require Import base list gmap.
From S2P Require Import Prelude Loops Dtype Float Shape Layout Storage Tensor View Mutate Iterator Conv ShapeOps Reduce IndexOps Fresh.

Open Scope nat_scope.

(** What the loops do with numbers *)
Class Scalar (X : Type) := {
  s_zero : X; s_one : X;
  s_tiny : X;  (** 1e-12 *)
  s_add : X → X → X; s_sub : X → X → X; s_mul : X → X → X; s_div : X → X → X;
  s_sqrt : X → X; s_abs : X → X;
  s_lt : X → X → bool;
  s_le : X → X → bool
}.

Section loops.
Context {X : Type} {SX : Scalar X}.

(** ** QR *)

(** The loop over the earlier columns [i]; the state is [r] and [v]. *)
Definition qr_project (n : nat) (a q : list X) (j : nat) (rv : list X * list X) (i : nat)
    : res BackendError (list X * list X) :=
  let '(r, v) := rv in
  let? dot := for_range n (λ dot k,
      let? qk := rd q (k * n + i) in
      let? ak := rd a (k * n + j) in
      Ok (s_add dot (s_mul qk ak))) s_zero in
  let? r := put r (i * n + j) dot in
  let? v := for_range n (λ v k,
      let? vk := rd v k in
      let? qk := rd q (k * n + i) in
      put v k (s_sub vk (s_mul dot qk))) v in
  Ok (r, v).

(** One column *)
Definition qr_column (n : nat) (a : list X) (qr : list X * list X) (j : nat) : res BackendError (list X * list X) :=
  let '(q, r) := qr in
  let? v := rmapM (λ i, rd a (i * n + j)) (List.seq 0 n) in
  let? rv := for_range j (qr_project n a q j) (r, v) in
  let '(r, v) := rv in
  let norm := s_sqrt (foldl s_add s_zero ((λ x, s_mul x x) <$> v)) in
  let? r := put r (j * n + j) norm in
  if s_lt s_tiny norm then
    let? q := for_range n (λ q k, let? vk := rd v k in put q (k * n + j) (s_div vk norm)) q in
    Ok (q, r)
  else Ok (q, r).

Definition qr_loops (n : nat) (a : list X) : res BackendError (list X * list X) :=
  for_range n (qr_column n a) (replicate (n * n) s_zero, replicate (n * n) s_zero).

(** ** Cholesky *)

Definition shape_error (n : nat) : BackendError := BShapeMismatch [Z.of_nat n; Z.of_nat n] [Z.of_nat n; Z.of_nat n].

(** One element of the factor *)
Definition cholesky_cell (n : nat) (a : list X) (i : nat) (l : list X) (j : nat) : res BackendError (list X) :=
  let? sum := for_range j (λ sum k,
      let? x := rd l (i * n + k) in
      let? y := rd l (j * n + k) in
      Ok (s_add sum (s_mul x y))) s_zero in
  if i =? j then
    let? aii := rd a (i * n + i) in
    let diag := s_sub aii sum in
    if s_le diag s_zero then Err (shape_error n) else put l (i * n + j) (s_sqrt diag)
  else
    let? aij := rd a (i * n + j) in
    let? ljj := rd l (j * n + j) in
    put l (i * n + j) (s_div (s_sub aij sum) ljj).

Definition cholesky_loops (n : nat) (a : list X) : res BackendError (list X) :=
  for_range n (λ l i, for_range (S i) (cholesky_cell n a i) l) (replicate (n * n) s_zero).

(** ** LU *)

(** [for i in (k + 1)..n] *)
Definition for_from {E St} (k n : nat) (body : St → nat → res E St) (s : St) : res E St :=
  for_range (n - k) (λ s d, body s (k + d)) s.

(** The row with the largest entry of column [k], from row [k] on *)
Definition lu_pivot (n : nat) (u : list X) (k : nat) : res BackendError (nat * X) :=
  let? ukk := rd u (k * n + k) in
  for_from (S k) n (λ best i,
      let? x := rd u (i * n + k) in
      let v := s_abs x in
      if s_lt best.2 v then Ok (i, v) else Ok best) (k, s_abs ukk).

(** [v.swap(i, j)] *)
Definition swap_at {E Y} (l : list Y) (i j : nat) : res E (list Y) :=
  let? x := rd l i in
  let? y := rd l j in
  let? l := put l i y in
  put l j x.

(** The exchange of two rows of [u] and [l] *)
Definition lu_swap (n k piv : nat) (ul : list X * list X) : res BackendError (list X * list X) :=
  for_range n (λ ul j,
      let? u := swap_at ul.1 (k * n + j) (piv * n + j) in
      let? l := swap_at ul.2 (k * n + j) (piv * n + j) in
      Ok (u, l)) ul.

(** The elimination of one row *)
Definition lu_eliminate (n k : nat) (ul : list X * list X) (i : nat) : res BackendError (list X * list X) :=
  let '(u, l) := ul in
  let? uik := rd u (i * n + k) in
  let? ukk := rd u (k * n + k) in
  let factor := s_div uik ukk in
  let? l := put l (i * n + k) factor in
  let? u := for_from k n (λ u j,
      let? uij := rd u (i * n + j) in
      let? ukj := rd u (k * n + j) in
      put u (i * n + j) (s_sub uij (s_mul factor ukj))) u in
  Ok (u, l).

Definition lu_step (n : nat) (st : list X * list X * list nat) (k : nat) : res BackendError (list X * list X * list nat) :=
  let '(u, l, p) := st in
  let? piv := lu_pivot n u k in
  let '(piv, piv_val) := piv in
  if s_lt piv_val s_tiny then Err (shape_error n)
  else
    let? ulp :=
      if negb (piv =? k) then
        let? ul := lu_swap n k piv (u, l) in
        let? p := swap_at p k piv in
        Ok (ul, p)
      else Ok ((u, l), p) in
    let '(ul, p) := ulp in
    let? ul := for_from (S k) n (lu_eliminate n k) ul in
    Ok (ul, p).

(** The factors [l] and [u] and the permutation *)
Definition lu_loops (n : nat) (a : list X) : res BackendError (list X * list X * list nat) :=
  let? st := for_range n (lu_step n) (a, replicate (n * n) s_zero, List.seq 0 n) in
  let '(u, l, p) := st in
  let? l := for_range n (λ l i, put l (i * n + i) s_one) l in
  Ok (l, u, p).

(** ** Inverse *)

(** The forward solve with [l], whose diagonal is 1 *)
Definition forward_solve (n : nat) (l pb : list X) : res BackendError (list X) :=
  for_range n (λ y i,
      let? b := rd pb i in
      let? sum := for_range i (λ sum j,
          let? lij := rd l (i * n + j) in
          let? yj := rd y j in
          Ok (s_sub sum (s_mul lij yj))) b in
      put y i sum) (replicate n s_zero).

(** The backward solve with [u]; row [n - 1 - d] in round [d] *)
Definition backward_solve (n : nat) (u y : list X) : res BackendError (list X) :=
  for_range n (λ x d,
      let i := n - 1 - d in
      let? b := rd y i in
      let? sum := for_from (S i) n (λ sum j,
          let? uij := rd u (i * n + j) in
          let? xj := rd x j in
          Ok (s_sub sum (s_mul uij xj))) b in
      let? uii := rd u (i * n + i) in
      put x i (s_div sum uii)) (replicate n s_zero).

(** One column of the inverse *)
Definition inverse_column (n : nat) (l u : list X) (p : list nat) (inv : list X) (col : nat) : res BackendError (list X) :=
  let? b := put (replicate n s_zero) col s_one in
  let? pb := for_range n (λ pb i,
      let? pi := rd p i in
      let? x := rd b pi in
      put pb i x) (replicate n s_zero) in
  let? y := forward_solve n l pb in
  let? x := backward_solve n u y in
  for_range n (λ inv i, let? xi := rd x i in put inv (i * n + col) xi) inv.

Definition inverse_loops (n : nat) (l u : list X) (p : list nat) : res BackendError (list X) :=
  for_range n (inverse_column n l u p) (replicate (n * n) s_zero).
End loops.

(** ** The functions on tensors *)

(** [f32::sqrt] *)
Definition fsqrt (f : format) (a : Z) : Z := to_bits f (SFsqrt (f_prec f) (f_emax f) (of_bits f a)).

(** [f32]: 1e-12 rounds to [0x2b8cbccc]. *)
#[export] Instance f32_scalar : Scalar Z := {|
  s_zero := 0%Z; s_one := 0x3f800000%Z; s_tiny := 0x2b8cbccc%Z;
  s_add := fadd binary32; s_sub := fsub binary32; s_mul := fmul binary32; s_div := fdiv binary32;
  s_sqrt := fsqrt binary32;
  s_abs := fabs binary32;
  s_lt := fltb binary32;
  s_le x y := fltb binary32 x y || feqb binary32 x y
|}.

Section tensors.
Context (oom : Z → bool) (junk : Z → Z → list Z).

Definition assert_square_f32 (a : Tensor) : res BackendError nat :=
  if negb (bool_decide (t_dtype a = F32)) then Err (BDtypeMismatch (t_dtype a) F32)
  else match t_shape a with
  | [n; m] => if (n =? m)%Z then Ok (Z.to_nat n) else Err (BShapeMismatch (t_shape a) (t_shape a))
  | s => Err (BShapeMismatch s s)
  end.

(** [a.as_slice::<f32>().expect("F32")] *)
Definition data_of (w : World) (a : Tensor) : res BackendError (list Z) :=
  let? o := slice_of w a F32 in unwrap_opt o.

Definition square (n : nat) : Shape := [Z.of_nat n; Z.of_nat n].

Definition qr (w : World) (a : Tensor) : res BackendError (World * (Tensor * Tensor)) :=
  let? n := assert_square_f32 a in
  let? a_data := data_of w a in
  let? qr := qr_loops n a_data in
  let? wq := unwrap (from_vec_typed oom junk w F32 (square n) qr.1) in
  let? wr := unwrap (from_vec_typed oom junk wq.1 F32 (square n) qr.2) in
  Ok (wr.1, (wq.2, wr.2)).

Definition cholesky (w : World) (a : Tensor) : res BackendError (World * Tensor) :=
  let? n := assert_square_f32 a in
  let? a_data := data_of w a in
  let? l := cholesky_loops n a_data in
  finish oom junk w F32 (square n) (Z.of_nat (n * n)) l.

Definition lu (w : World) (a : Tensor) : res BackendError (World * (Tensor * Tensor * list nat)) :=
  let? n := assert_square_f32 a in
  let? a_data := data_of w a in
  let? lup := lu_loops n a_data in
  let '(l, u, p) := lup in
  let? wl := unwrap (from_vec_typed oom junk w F32 (square n) l) in
  let? wu := unwrap (from_vec_typed oom junk wl.1 F32 (square n) u) in
  Ok (wu.1, (wl.2, wu.2, p)).

(** The factors are dropped on return. *)
Definition inverse (w : World) (a : Tensor) : res BackendError (World * Tensor) :=
  let? n := assert_square_f32 a in
  let? wlu := lu w a in
  let '(w, (l, u, p)) := wlu in
  let? l_data := data_of w l in
  let? u_data := data_of w u in
  let? inv := inverse_loops n l_data u_data p in
  let? wi := finish oom junk w F32 (square n) (Z.of_nat (n * n)) inv in
  Ok (drop_tensor (drop_tensor wi.1 u) l, wi.2).
End tensors.

(** ** The loops return *)

Lemma cell_lt n i j : i < n → j < n → i * n + j < n * n.
Proof. nia. Qed.

Section buffers.
Context {X : Type} (good : X → Prop).

(** A buffer of [k] good values *)
Definition buf (k : nat) (l : list X) : Prop := length l = k ∧ Forall good l.

Lemma buf_replicate k x : good x → buf k (replicate k x).
Proof using Type. intros Hx. split; [apply length_replicate|]. by apply Forall_replicate. Qed.

Lemma ends_put_buf {E} (Q : E → Prop) k l i x : buf k l → i < k → good x → ends (buf k) Q (put l i x).
Proof using Type.
  intros Hl Hi Hx. destruct (put_ok (E := E) good l k i x Hl Hi Hx) as (l' & -> & H). exact H.
Qed.

Lemma ends_rd_buf {E} (Q : E → Prop) k l i : buf k l → i < k → ends good Q (rd l i).
Proof using Type.
  intros [Hlen Hl] Hi. destruct (lookup_lt_is_Some_2 l i ltac:(lia)) as [x Hx].
  apply (ends_rd _ _ _ _ x Hx). by eapply (Forall_lookup_1 _ _ _ _ Hl).
Qed.
End buffers.

Lemma ends_range_inv {E St} (P : St → Prop) (Q : E → Prop) n body s :
  P s → (∀ s i, i < n → P s → ends P Q (body s i)) → ends P Q (for_range n body s).
Proof. intros Hs H. by apply (ends_range (λ _, P)). Qed.

Lemma ends_from_inv {E St} (P : St → Prop) (Q : E → Prop) k n body s :
  P s → (∀ s i, k ≤ i < n → P s → ends P Q (body s i)) → ends P Q (for_from k n body s).
Proof. intros Hs H. unfold for_from. apply ends_range_inv; [done|]. intros s' d Hd. apply H. lia. Qed.

(** Steps through the reads and writes of a body. *)
Ltac in_buffer := first [assumption | apply cell_lt; lia | lia].
Ltac walk :=
  lazymatch goal with
  | |- ends _ _ (let? _ := rd _ _ in _) =>
      eapply ends_bind; [eapply ends_rd_buf; [eassumption|in_buffer]|intros ? ?; walk]
  | |- ends _ _ (let? _ := put _ _ _ in _) =>
      eapply ends_bind; [eapply ends_put_buf; [eassumption|in_buffer|auto]|intros ? ?; walk]
  | |- ends _ _ (put _ _ _) => eapply ends_put_buf; [eassumption|in_buffer|auto]
  | |- ends _ _ (Ok _) => simpl; auto
  | |- _ => idtac
  end.

(** Every operation keeps to the values [good]; the loops then neither panic nor
    leave them. *)
Section total.
Context {X : Type} {SX : Scalar X} (good : X → Prop).
Context (good_zero : good s_zero) (good_one : good s_one).
Context (good_add : ∀ x y, good x → good y → good (s_add x y)) (good_sub : ∀ x y, good x → good y → good (s_sub x y)).
Context (good_mul : ∀ x y, good x → good y → good (s_mul x y)) (good_div : ∀ x y, good x → good y → good (s_div x y)).
Context (good_sqrt : ∀ x, good x → good (s_sqrt x)) (n : nat).

Local Notation mat := (buf good (n * n)).
Local Notation vec := (buf good n).
Local Notation is_error := (λ e, e = shape_error n).
Local Notation no_error := (λ _ : BackendError, False).

Lemma qr_loops_total a : mat a → ends (λ qr, mat qr.1 ∧ mat qr.2) no_error (qr_loops n a).
Proof using All.
  intros Ha. unfold qr_loops. apply ends_range_inv; [split; by apply buf_replicate|].
  intros [q r] j Hj [Hq Hr]. cbn [fst snd] in *. unfold qr_column.
  apply (ends_bind vec).
  { destruct Ha as [Hlen Ha]. rewrite (rmapM_seq _ (λ i, default s_zero (a !! (i * n + j)))).
    - split; [by rewrite length_fmap, length_seq|]. apply Forall_fmap, Forall_forall. intros i _. simpl.
      destruct (a !! _) eqn:Hx; simpl; [by eapply (Forall_lookup_1 _ _ _ _ Ha)|done].
    - intros i _ Hi. unfold rd. pose proof (cell_lt n i j Hi Hj).
      by destruct (lookup_lt_is_Some_2 a (i * n + j) ltac:(lia)) as [x ->]. }
  intros v Hv. apply (ends_bind (λ rv, mat rv.1 ∧ vec rv.2)).
  { apply ends_range_inv; [done|]. intros [r' v'] i Hi [Hr' Hv']. cbn [fst snd] in *. unfold qr_project.
    apply (ends_bind good); [apply ends_range_inv; [done|]; intros dot k Hk Hdot; walk|].
    intros dot Hdot. walk. apply (ends_bind vec); [|by intros; simpl].
    apply ends_range_inv; [done|]. intros v2 k Hk Hv2. walk. }
  intros [r' v'] [Hr' Hv']. cbn [fst snd] in *.
  assert (good (s_sqrt (foldl s_add s_zero ((λ x, s_mul x x) <$> v')))) as Hnorm.
  { apply good_sqrt. destruct Hv' as [_ Hv']. assert (∀ z, good z → good (foldl s_add z ((λ x, s_mul x x) <$> v'))) as H; [|by apply H].
    clear -Hv' good_add good_mul. induction Hv' as [|x l Hx Hl IH]; intros z Hz; simpl; auto. }
  walk. destruct (s_lt _ _); [|done]. apply (ends_bind mat); [|done].
  apply ends_range_inv; [done|]. intros q' k Hk Hq'. walk.
Qed.

Lemma cholesky_loops_total a : mat a → ends mat is_error (cholesky_loops n a).
Proof using All.
  intros Ha. unfold cholesky_loops. apply ends_range_inv; [by apply buf_replicate|]. intros l i Hi Hl.
  apply ends_range_inv; [done|]. intros l' j Hj Hl'. unfold cholesky_cell.
  apply (ends_bind good); [apply ends_range_inv; [done|]; intros sum k Hk Hsum; walk|]. intros sum Hsum.
  destruct (Nat.eqb_spec i j); walk. destruct (s_le _ _); walk. done.
Qed.

Lemma swap_at_total {Y} (P : Y → Prop) k (l : list Y) i j (Q : BackendError → Prop) :
  buf P k l → i < k → j < k → ends (buf P k) Q (swap_at l i j).
Proof using Type. intros Hl Hi Hj. unfold swap_at. walk. Qed.

Definition lu_buffers (st : list X * list X * list nat) : Prop :=
  let '(u, l, p) := st in mat u ∧ mat l ∧ buf (λ i, i < n) n p.

Lemma lu_step_total k st : k < n → lu_buffers st → ends lu_buffers is_error (lu_step n st k).
Proof using All.
  intros Hk. destruct st as [[u l] p]. intros (Hu & Hl & Hp). unfold lu_step.
  apply (ends_bind (λ pv, pv.1 < n)).
  { unfold lu_pivot. walk. apply ends_from_inv; [done|]. intros [q v] i Hi Hq. walk. destruct (s_lt _ _); simpl; [lia|done]. }
  intros [q v] Hq. cbn [fst snd] in *. destruct (s_lt _ _); [done|].
  apply (ends_bind (λ ulp, mat ulp.1.1 ∧ mat ulp.1.2 ∧ buf (λ i, i < n) n ulp.2)).
  { destruct (negb _); [|done]. apply (ends_bind (λ ul, mat ul.1 ∧ mat ul.2)).
    - unfold lu_swap. apply ends_range_inv; [done|]. intros [u' l'] j Hj [Hu' Hl']. cbn [fst snd] in *.
      eapply ends_bind; [apply (swap_at_total good); [exact Hu'|in_buffer..]|]. intros u2 Hu2.
      eapply ends_bind; [apply (swap_at_total good); [exact Hl'|in_buffer..]|]. by intros l2 Hl2.
    - intros [u' l'] [Hu' Hl']. eapply ends_bind; [by apply (swap_at_total (λ i, i < n))|]. by intros p' Hp'. }
  intros [[u' l'] p'] (Hu' & Hl' & Hp'). cbn [fst snd] in *.
  apply (ends_bind (λ ul, mat ul.1 ∧ mat ul.2)); [|by intros [u2 l2] []].
  apply ends_from_inv; [done|]. intros [u2 l2] i Hi [Hu2 Hl2]. cbn [fst snd] in *. unfold lu_eliminate. walk.
  apply (ends_bind mat); [|by intros; simpl]. apply ends_from_inv; [done|]. intros u3 j Hj Hu3. walk.
Qed.

Lemma lu_loops_total a : mat a →
  ends (λ lup, mat lup.1.1 ∧ mat lup.1.2 ∧ buf (λ i, i < n) n lup.2) is_error (lu_loops n a).
Proof using All.
  intros Ha. unfold lu_loops. apply (ends_bind lu_buffers).
  - apply ends_range_inv; [|intros; by apply lu_step_total]. split; [done|]. split; [by apply buf_replicate|].
    split; [apply length_seq|]. apply Forall_forall. intros i Hi%elem_of_seq. lia.
  - intros [[u l] p] (Hu & Hl & Hp). apply (ends_bind mat); [|by intros l' Hl'].
    apply ends_range_inv; [done|]. intros l' i Hi Hl'. walk.
Qed.

Lemma inverse_loops_total l u p : mat l → mat u → buf (λ i, i < n) n p → ends mat no_error (inverse_loops n l u p).
Proof using All.
  intros Hl Hu Hp. unfold inverse_loops. apply ends_range_inv; [by apply buf_replicate|].
  intros inv c Hc Hinv. unfold inverse_column. pose proof (buf_replicate good n s_zero good_zero) as Hz. walk.
  match goal with H : buf good n ?b |- _ => match b with replicate _ _ => fail 1 | _ => rename b into b0, H into Hb end end.
  apply (ends_bind vec).
  { apply ends_range_inv; [done|]. intros pb i Hi Hpb. walk. }
  intros pb Hpb. apply (ends_bind vec).
  { unfold forward_solve. apply ends_range_inv; [done|]. intros y i Hi Hy. walk.
    apply (ends_bind good); [apply ends_range_inv; [done|]; intros sum j Hj Hsum; walk|]. intros sum Hsum. walk. }
  intros y Hy. apply (ends_bind vec).
  { unfold backward_solve. apply ends_range_inv; [done|]. intros x d Hd Hx. cbv zeta. walk.
    apply (ends_bind good); [apply ends_from_inv; [done|]; intros sum j Hj Hsum; walk|]. intros sum Hsum. walk. }
  intros x Hx. apply ends_range_inv; [done|]. intros inv' i Hi Hinv'. walk.
Qed.
End total.

(** ** The kernels on tensors *)

Local Notation f32_value := (uint (8 * Dtype_byte_size F32)).

Lemma fsqrt_uint f a : format_wf f → uint (f_width f) (fsqrt f a).
Proof.
  intros Hf. pose proof Hf as ([Hp _] & _). apply to_bits_uint; [done|].
  pose proof (of_bits_ok f a Hf) as Ho. destruct (of_bits f a) as [[]|[]| |[] m e]; simpl; try done.
  destruct (SFsqrt_core_binary _ _ _ _) as [[mz ez] lz]. by apply binary_round_aux_ok.
Qed.

Lemma f32_ops x y : f32_value (s_add x y) ∧ f32_value (s_sub x y) ∧ f32_value (s_mul x y) ∧ f32_value (s_div x y).
Proof. exact (arith_uint binary32 x y binary32_wf). Qed.

Lemma f32_sqrt x : f32_value (s_sqrt x).
Proof. exact (fsqrt_uint binary32 x binary32_wf). Qed.

Lemma f32_consts : f32_value s_zero ∧ f32_value s_one.
Proof. split; (split; [apply Z.leb_le|apply Z.ltb_lt]; reflexivity). Qed.

Local Notation mat n := (buf f32_value (n * n)).

(** The loops on f32 patterns *)
Lemma f32_loops n data : mat n data →
  ends (λ qr, mat n qr.1 ∧ mat n qr.2) (λ _, False) (qr_loops n data) ∧
  ends (mat n) (λ e, e = shape_error n) (cholesky_loops n data) ∧
  ends (λ lup, mat n lup.1.1 ∧ mat n lup.1.2 ∧ ends (mat n) (λ _, False) (inverse_loops n lup.1.1 lup.1.2 lup.2))
    (λ e, e = shape_error n) (lu_loops n data).
Proof.
  intros Hd. destruct f32_consts as [Hz Ho]. split; [|split].
  - apply qr_loops_total; try done; intros; (apply f32_sqrt || apply f32_ops).
  - apply cholesky_loops_total; try done; intros; (apply f32_sqrt || apply f32_ops).
  - eapply ends_impl; [apply (lu_loops_total f32_value); try done; intros; (apply f32_sqrt || apply f32_ops)|].
    intros [[l u] p] (Hl & Hu & Hp). split; [done|]. split; [done|].
    apply (inverse_loops_total f32_value); try done; intros; (apply f32_sqrt || apply f32_ops).
Qed.

(** What [assert_square_f32] refuses *)
Definition is_square (s : Shape) : bool := match s with [n; m] => (n =? m)%Z | _ => false end.

Definition refusal (a : Tensor) : option BackendError :=
  if negb (bool_decide (t_dtype a = F32)) then Some (BDtypeMismatch (t_dtype a) F32)
  else if is_square (t_shape a) then None else Some (BShapeMismatch (t_shape a) (t_shape a)).

(** The side of a square matrix *)
Definition side (a : Tensor) : nat := Z.to_nat (nth 0 (t_shape a) 0%Z).

Lemma assert_square_spec a :
  assert_square_f32 a = match refusal a with Some e => Err e | None => Ok (side a) end.
Proof.
  unfold assert_square_f32, refusal, side, is_square. destruct (negb _); [done|].
  destruct (t_shape a) as [|n [|m [|]]]; try done. by destruct (n =? m)%Z.
Qed.

Section checks.
Context (oom : Z → bool) (junk : Z → Z → list Z).
Hypothesis junk_len : ∀ p n, (0 ≤ n)%Z → Z.of_nat (length (junk p n)) = n.
Hypothesis no_oom : ∀ n, oom n = false.

Lemma square_vec w n data : world_wf w → fits_alloc (square n) F32 → mat n data →
  ∃ w' t, from_vec_typed oom junk w F32 (square n) data = Ok (w', t) ∧
    finish oom junk w F32 (square n) (Z.of_nat (n * n)) data = Ok (w', t) ∧
    fresh_all w w' [t] ∧ holds w' t F32 (square n) data.
Proof using junk_len no_oom.
  intros Hw [Hs Hm] [Hlen Hd].
  destruct (from_vec_typed_ok oom junk junk_len w F32 (square n) data Hw Hs Hm Hd no_oom) as (w' & t & Hv & Hf).
  { unfold square. rewrite !zprod_cons, zprod_nil, Hlen. lia. }
  exists w', t. split; [done|]. split; [unfold finish; by rewrite Hv|]. by apply (fresh_holds _ _ _ _ _ _ Hf).
Qed.

Lemma square_shape w a : tensor_wf w a → refusal a = None → t_shape a = square (side a) ∧ t_dtype a = F32.
Proof using Type.
  intros Hwf. pose proof (tensor_shape_nonneg w a Hwf) as Hn. unfold refusal, side, square.
  destruct (bool_decide_reflect (t_dtype a = F32)); simpl; [|done].
  destruct (t_shape a) as [|n [|m [|]]]; simpl; try done. destruct (Z.eqb_spec n m); [|done]. intros _. subst m.
  apply Forall_cons in Hn as [Hn _]. by rewrite Z2Nat.id.
Qed.

Lemma data_of_spec w a : tensor_wf w a → refusal a = None →
  data_of w a = (if decide (dense_as F32 a) then Ok (shape_order w a) else Panic) ∧ mat (side a) (shape_order w a).
Proof using Type.
  intros Hwf Hr. destruct (square_shape w a Hwf Hr) as [Hs Hd]. unfold data_of. rewrite slice_of_spec by done.
  split; [by destruct (decide _)|]. split.
  - rewrite length_shape_order, Hs. unfold square. rewrite !zprod_cons, zprod_nil. lia.
  - pose proof Hwf as (_ & _ & _ & Hb). pose proof (shape_order_wf w a Hb) as H. by rewrite Hd in H.
Qed.

Section dense.
Context (w : World) (a : Tensor) (a_wf : tensor_wf w a) (a_ok : refusal a = None) (a_dense : dense_as F32 a).
Local Notation n := (side a).
Local Notation data := (shape_order w a).
Context (fits : fits_alloc (square n) F32).

Lemma data_of_dense : data_of w a = Ok data ∧ mat n data.
Proof using a_wf a_ok a_dense.
  destruct (data_of_spec w a a_wf a_ok) as [-> H]. by rewrite decide_True.
Qed.

(** Two fresh matrices, one after the other *)
Lemma square_vecs w0 x y : world_wf w0 → mat n x → mat n y →
  ∃ w1 tx w2 ty, from_vec_typed oom junk w0 F32 (square n) x = Ok (w1, tx) ∧
    from_vec_typed oom junk w1 F32 (square n) y = Ok (w2, ty) ∧ fresh_all w0 w2 [tx; ty] ∧
    holds w2 tx F32 (square n) x ∧ holds w2 ty F32 (square n) y.
Proof using fits junk_len no_oom.
  intros Hw Hx Hy. destruct (square_vec w0 n x Hw fits Hx) as (w1 & tx & H1 & _ & Hf1 & Hh1).
  pose proof Hf1 as (Hw1 & _ & Ht1 & _).
  destruct (square_vec w1 n y Hw1 fits Hy) as (w2 & ty & H2 & _ & Hf2 & Hh2). pose proof Hf2 as (Hw2 & He2 & _).
  exists w1, tx, w2, ty. split; [done|]. split; [done|]. split; [exact (fresh_all_trans _ _ _ _ _ Hf1 Hf2)|].
  split; [|done]. apply (holds_extends w1); [done|done| |done]. apply Ht1. by left.
Qed.

Lemma qr_tensor_spec : ∃ q r w' tq tr, qr_loops n data = Ok (q, r) ∧ qr oom junk w a = Ok (w', (tq, tr)) ∧
  fresh_all w w' [tq; tr] ∧ holds w' tq F32 (square n) q ∧ holds w' tr F32 (square n) r.
Proof using a_wf a_ok a_dense fits junk_len no_oom.
  destruct data_of_dense as [Hda Hm]. destruct (f32_loops n data Hm) as (Hq & _).
  unfold qr. rewrite assert_square_spec, a_ok. cbn [rbind]. rewrite Hda. cbn [rbind].
  destruct (qr_loops n data) as [[q r]|e|]; [|done..]. destruct Hq as [Hq Hr]. cbn [rbind fst snd] in *.
  destruct (square_vecs w q r (proj1 a_wf) Hq Hr) as (w1 & tq & w2 & tr & H1 & H2 & Hf & Hhq & Hhr).
  rewrite H1. cbn [unwrap rbind fst snd]. rewrite H2. by exists q, r, w2, tq, tr.
Qed.

Lemma cholesky_tensor_spec :
  match cholesky_loops n data with
  | Ok l => ∃ w' t, cholesky oom junk w a = Ok (w', t) ∧ fresh_all w w' [t] ∧ holds w' t F32 (square n) l
  | Err e => e = shape_error n ∧ cholesky oom junk w a = Err e
  | Panic => False
  end.
Proof using a_wf a_ok a_dense fits junk_len no_oom.
  destruct data_of_dense as [Hda Hm]. destruct (f32_loops n data Hm) as (_ & Hc & _).
  unfold cholesky. rewrite assert_square_spec, a_ok. cbn [rbind]. rewrite Hda. cbn [rbind].
  destruct (cholesky_loops n data) as [l|e|]; [|done..].
  destruct (square_vec w n l (proj1 a_wf) fits Hc) as (w' & t & _ & H & Hf & Hh). by exists w', t.
Qed.

Lemma lu_tensor_spec :
  match lu_loops n data with
  | Ok (l, u, p) => ∃ w' tl tu, lu oom junk w a = Ok (w', (tl, tu, p)) ∧ fresh_all w w' [tl; tu] ∧
      holds w' tl F32 (square n) l ∧ holds w' tu F32 (square n) u
  | Err e => e = shape_error n ∧ lu oom junk w a = Err e
  | Panic => False
  end.
Proof using a_wf a_ok a_dense fits junk_len no_oom.
  destruct data_of_dense as [Hda Hm]. destruct (f32_loops n data Hm) as (_ & _ & Hlu).
  unfold lu. rewrite assert_square_spec, a_ok. cbn [rbind]. rewrite Hda. cbn [rbind].
  destruct (lu_loops n data) as [[[l u] p]|e|]; [|done..]. destruct Hlu as (Hl & Hu & _). cbn [rbind fst snd] in *.
  destruct (square_vecs w l u (proj1 a_wf) Hl Hu) as (w1 & tl & w2 & tu & H1 & H2 & Hf & Hhl & Hhu).
  rewrite H1. cbn [unwrap rbind fst snd]. rewrite H2. by exists w2, tl, tu.
Qed.

Lemma inverse_tensor_spec :
  match lu_loops n data with
  | Ok (l, u, p) => ∃ inv w' t, inverse_loops n l u p = Ok inv ∧ inverse oom junk w a = Ok (w', t) ∧
      fresh_all w w' [t] ∧ holds w' t F32 (square n) inv
  | Err e => e = shape_error n ∧ inverse oom junk w a = Err e
  | Panic => False
  end.
Proof using a_wf a_ok a_dense fits junk_len no_oom.
  pose proof lu_tensor_spec as Hlu. destruct data_of_dense as [_ Hm]. destruct (f32_loops n data Hm) as (_ & _ & Hi).
  unfold inverse. rewrite assert_square_spec, a_ok. cbn [rbind].
  destruct (lu_loops n data) as [[[l u] p]|e|]; [|by destruct Hlu as [-> ->]|done].
  destruct Hlu as (w1 & tl & tu & -> & Hf1 & [Hdl [_ Hol]] & [Hdu [_ Hou]]). cbn [rbind fst snd] in *.
  destruct Hi as (_ & _ & Hi). cbn [fst snd] in Hi. pose proof Hf1 as (Hw1 & _ & Ht1 & _).
  assert (∀ t l, t ∈ [tl; tu] → dense_as F32 t → shape_order w1 t = l → data_of w1 t = Ok l) as Hdata.
  { intros t l' Hin Hd <-. unfold data_of. rewrite slice_of_spec by (by apply Ht1). by rewrite decide_True. }
  rewrite (Hdata tl l), (Hdata tu u) by (done || by (left || right; left)). cbn [rbind].
  destruct (inverse_loops n l u p) as [inv|e|]; [|done..].
  destruct (square_vec w1 n inv Hw1 fits Hi) as (w2 & t & _ & H & Hf2 & Hh). cbn [rbind]. rewrite H. cbn [rbind fst snd].
  pose proof (fresh_all_perm _ _ _ [tu; tl; t] ltac:(by apply perm_swap) (fresh_all_trans _ _ _ _ _ Hf1 Hf2)) as Hall.
  destruct (fresh_all_drops w w2 [tu; tl] [t] Hall) as [Hfin He]. simpl in Hfin, He.
  exists inv. eexists _, t. split; [done|]. split; [done|]. split; [exact Hfin|].
  eapply holds_ext; [|exact Hh]. apply He. by left.
Qed.
End dense.
End checks.

(** The kernels on tensors, on every branch: another dtype and another shape are
    refused with their errors, an input that is not dense (a transposed view)
    panics, and a dense square matrix runs the loops: QR always returns, Cholesky,
    LU and the inverse return or refuse with the shape error, none of them panics,
    and the results are fresh square tensors that hold what the loops computed,
    with everything else alive left as it was. *)
Theorem linalg_on_tensors oom junk w a :
  (∀ p n, (0 ≤ n)%Z → Z.of_nat (length (junk p n)) = n) → (∀ n, oom n = false) → tensor_wf w a →
  let n := side a in let data := shape_order w a in
  match refusal a with
  | Some e => qr oom junk w a = Err e ∧ cholesky oom junk w a = Err e ∧ lu oom junk w a = Err e ∧ inverse oom junk w a = Err e
  | None =>
    if decide (dense_as F32 a) then fits_alloc (square n) F32 →
      (∃ q r w' tq tr, qr_loops n data = Ok (q, r) ∧ qr oom junk w a = Ok (w', (tq, tr)) ∧
         fresh_all w w' [tq; tr] ∧ holds w' tq F32 (square n) q ∧ holds w' tr F32 (square n) r) ∧
      match cholesky_loops n data with
      | Ok l => ∃ w' t, cholesky oom junk w a = Ok (w', t) ∧ fresh_all w w' [t] ∧ holds w' t F32 (square n) l
      | Err e => e = shape_error n ∧ cholesky oom junk w a = Err e
      | Panic => False
      end ∧
      match lu_loops n data with
      | Ok (l, u, p) =>
          (∃ w' tl tu, lu oom junk w a = Ok (w', (tl, tu, p)) ∧ fresh_all w w' [tl; tu] ∧
             holds w' tl F32 (square n) l ∧ holds w' tu F32 (square n) u) ∧
          ∃ inv w' t, inverse_loops n l u p = Ok inv ∧ inverse oom junk w a = Ok (w', t) ∧
             fresh_all w w' [t] ∧ holds w' t F32 (square n) inv
      | Err e => e = shape_error n ∧ lu oom junk w a = Err e ∧ inverse oom junk w a = Err e
      | Panic => False
      end
    else qr oom junk w a = Panic ∧ cholesky oom junk w a = Panic ∧ lu oom junk w a = Panic ∧ inverse oom junk w a = Panic
  end.
Proof.
  intros Hj Ho Hwf n data. destruct (refusal a) as [e|] eqn:Hr.
  { unfold inverse, lu, qr, cholesky. rewrite assert_square_spec, Hr. done. }
  destruct (decide (dense_as F32 a)) as [Hd|Hd].
  - intros Hfit. split; [by apply qr_tensor_spec|]. split; [by apply cholesky_tensor_spec|].
    pose proof (lu_tensor_spec oom junk Hj Ho w a Hwf Hr Hd Hfit) as Hlu.
    pose proof (inverse_tensor_spec oom junk Hj Ho w a Hwf Hr Hd Hfit) as Hi. unfold n, data.
    destruct (lu_loops _ _) as [[[l u] p]|e|]; [done| |done]. by destruct Hlu as [-> ->], Hi as [_ ->].
  - destruct (data_of_spec w a Hwf Hr) as [Hda _]. rewrite decide_False in Hda by done.
    unfold inverse, lu, qr, cholesky. rewrite assert_square_spec, Hr. cbn [rbind]. by rewrite Hda.
Qed.

(** A 2x2 matrix and its transposed view *)
Definition matrix22 : World * Tensor := mk_f32 World_new [2; 2]%Z one_to_four.

Lemma matrix22_fits : fits_alloc (square 2) F32.
Proof. split; [split; [repeat constructor; vm_compute; congruence|vm_compute; reflexivity]|vm_compute; congruence]. Qed.

Lemma matrix22_wf : tensor_wf matrix22.1 matrix22.2.
Proof.
  destruct (mk_f32_spec World_new [2; 2]%Z one_to_four World_new_wf (proj1 matrix22_fits)) as [H _];
    [vm_compute; reflexivity|repeat constructor; vm_compute; congruence|vm_compute; reflexivity|exact H].
Qed.

Lemma matrix22_lu : lu_loops 2 (shape_order matrix22.1 matrix22.2) =
  Ok ([0x3f800000; 0; 0x3eaaaaab; 0x3f800000]%Z, [0x40400000; 0x40800000; 0; 0x3f2aaaaa]%Z, [1%nat; 0%nat]).
Proof. vm_compute. reflexivity. Qed.

Lemma linalg_on_tensors_witness :
  ∃ w' tl tu, lu no_oom ff_junk matrix22.1 matrix22.2 = Ok (w', (tl, tu, [1%nat; 0%nat])) ∧
    holds w' tu F32 (square 2) [0x40400000; 0x40800000; 0; 0x3f2aaaaa]%Z.
Proof.
  pose proof (linalg_on_tensors no_oom ff_junk matrix22.1 matrix22.2 ff_junk_len (λ _, eq_refl) matrix22_wf) as H.
  assert (refusal matrix22.2 = None) as Hr by (vm_compute; reflexivity).
  assert (dense_as F32 matrix22.2) as Hd by (split_and!; vm_compute; reflexivity).
  assert (side matrix22.2 = 2) as Hs by (vm_compute; reflexivity).
  cbv zeta in H. rewrite Hr, decide_True, Hs, matrix22_lu in H by exact Hd.
  destruct (H matrix22_fits) as (_ & _ & (w' & tl & tu & Hl & _ & _ & Hu) & _).
  exists w', tl, tu. split; [exact Hl|exact Hu].
Defined.

(** ** Divergences *)

(** The Q of a singular matrix is not orthogonal: a column whose residual does not
    exceed 1e-12 stays zero. *)
Lemma qr_of_singular : qr_loops 2 [0x3f800000; 0x3f800000; 0; 0]%Z =
  Ok ([0x3f800000; 0; 0; 0]%Z, [0x3f800000; 0x3f800000; 0; 0]%Z).
Proof. vm_compute. reflexivity. Qed.

(** Cholesky never reads above the diagonal: the matrix [1 5; 0 1] is accepted. *)
Lemma cholesky_of_asymmetric : cholesky_loops 2 [0x3f800000; 0x40a00000; 0; 0x3f800000]%Z =
  Ok [0x3f800000; 0; 0; 0x3f800000]%Z.
Proof. vm_compute. reflexivity. Qed.
