(* ===== verification/LinAlgReal.v ===== *)
(** * The factorizations over the real numbers

    The loops of [LinAlg] with exact arithmetic: Gram-Schmidt gives an orthonormal
    Q and an upper triangular R, Cholesky the lower triangular factor of a
    symmetric positive definite matrix, LU with partial pivoting the factors of
    the permuted matrix, and the two triangular solves its inverse. *)

From Stdlib Require Import Reals Lra Lia.
From stdpp Require Import base list.
From S2P Require Import Prelude Loops XReal Iterator LinAlg.

Open Scope R_scope.

Definition Rltb (x y : R) : bool := if Rlt_dec x y then true else false.
Definition Rleb (x y : R) : bool := if Rle_dec x y then true else false.

#[export] Instance R_scalar : Scalar R := {|
  s_zero := 0; s_one := 1; s_tiny := / 10 ^ 12;
  s_add := Rplus; s_sub := Rminus; s_mul := Rmult; s_div := Rdiv;
  s_sqrt := sqrt; s_abs := Rabs; s_lt := Rltb; s_le := Rleb
|}.

Lemma Rltb_spec x y : reflect (x < y) (Rltb x y).
Proof. unfold Rltb. destruct (Rlt_dec x y); by constructor. Qed.
Lemma Rleb_spec x y : reflect (x <= y) (Rleb x y).
Proof. unfold Rleb. destruct (Rle_dec x y); by constructor. Qed.

Lemma tiny_pos : 0 < s_tiny.
Proof. simpl. apply Rinv_0_lt_compat. lra. Qed.

(** ** Buffers that hold matrices and vectors *)

Definition rep (n : nat) (l : list R) (f : nat → nat → R) : Prop :=
  length l = (n * n)%nat ∧ ∀ i j, (i < n)%nat → (j < n)%nat → l !! (i * n + j)%nat = Some (f i j).

Definition vrep (n : nat) (l : list R) (f : nat → R) : Prop :=
  length l = n ∧ ∀ i, (i < n)%nat → l !! i = Some (f i).

Definition upd (f : nat → nat → R) (i j : nat) (v : R) : nat → nat → R :=
  λ i' j', if decide (i' = i ∧ j' = j) then v else f i' j'.

Definition vupd (f : nat → R) (i : nat) (v : R) : nat → R := λ i', if decide (i' = i) then v else f i'.

Lemma rep_zero n : rep n (replicate (n * n) 0) (λ _ _, 0).
Proof. split; [apply length_replicate|]. intros i j Hi Hj. apply lookup_replicate_2. by apply cell_lt. Qed.

Lemma vrep_zero n : vrep n (replicate n 0) (λ _, 0).
Proof. split; [apply length_replicate|]. intros i Hi. by apply lookup_replicate_2. Qed.

Lemma rep_ext n l f g : rep n l f → (∀ i j, (i < n)%nat → (j < n)%nat → f i j = g i j) → rep n l g.
Proof. intros [Hl H] Hfg. split; [done|]. intros i j Hi Hj. by rewrite H, Hfg. Qed.

Lemma vrep_ext n l f g : vrep n l f → (∀ i, (i < n)%nat → f i = g i) → vrep n l g.
Proof. intros [Hl H] Hfg. split; [done|]. intros i Hi. by rewrite H, Hfg. Qed.

Lemma rep_rd {E} n l f i j : rep n l f → (i < n)%nat → (j < n)%nat → rd (E := E) l (i * n + j) = Ok (f i j).
Proof. intros [_ H] Hi Hj. unfold rd. by rewrite H. Qed.

Lemma vrep_rd {E} n l f i : vrep n l f → (i < n)%nat → rd (E := E) l i = Ok (f i).
Proof. intros [_ H] Hi. unfold rd. by rewrite H. Qed.

Lemma rep_put {E} n l f i j v : rep n l f → (i < n)%nat → (j < n)%nat →
  ∃ l', put (E := E) l (i * n + j) v = Ok l' ∧ rep n l' (upd f i j v).
Proof.
  intros [Hl H] Hi Hj. pose proof (cell_lt n i j Hi Hj) as Hlt. unfold put.
  rewrite (proj2 (Nat.ltb_lt _ _)) by lia. eexists. split; [done|].
  split; [by rewrite length_insert|]. intros i' j' Hi' Hj'. unfold upd. case_decide as Hd.
  - destruct Hd as [-> ->]. apply list_lookup_insert_eq. lia.
  - rewrite list_lookup_insert_ne; [by apply H|]. intros He. apply Hd.
    by destruct (cell_unique n i j i' j' Hj Hj' He).
Qed.

Lemma vrep_put {E} n l f i v : vrep n l f → (i < n)%nat → ∃ l', put (E := E) l i v = Ok l' ∧ vrep n l' (vupd f i v).
Proof.
  intros [Hl H] Hi. unfold put. rewrite (proj2 (Nat.ltb_lt _ _)) by lia. eexists. split; [done|].
  split; [by rewrite length_insert|]. intros i' Hi'. unfold vupd. case_decide as Hd.
  - subst. apply list_lookup_insert_eq. lia.
  - rewrite list_lookup_insert_ne by done. by apply H.
Qed.

(** A loop that adds up terms, and one that subtracts them *)
Lemma range_sum {E} m (body : R → nat → res E R) f z :
  (∀ acc k, (k < m)%nat → body acc k = Ok (acc + f k)) → for_range m body z = Ok (z + psum m f).
Proof.
  intros H. replace z with (z + psum 0 f) at 1 by (simpl; lra).
  apply (for_range_inv m body (λ i, z + psum i f)). intros i Hi. rewrite H by done. simpl. f_equal. lra.
Qed.

Lemma range_diff {E} m (body : R → nat → res E R) f z :
  (∀ acc k, (k < m)%nat → body acc k = Ok (acc - f k)) → for_range m body z = Ok (z - psum m f).
Proof.
  intros H. replace z with (z - psum 0 f) at 1 by (simpl; lra).
  apply (for_range_inv m body (λ i, z - psum i f)). intros i Hi. rewrite H by done. simpl. f_equal. lra.
Qed.

(** ** Cholesky *)

Definition symmetric (n : nat) (A : nat → nat → R) : Prop := ∀ i j, (i < n)%nat → (j < n)%nat → A i j = A j i.

(** The value of the quadratic form of [A] *)
Definition qform (n : nat) (A : nat → nat → R) (x : nat → R) : R :=
  psum n (λ i, psum n (λ j, x i * A i j * x j)).

Definition posdef (n : nat) (A : nat → nat → R) : Prop :=
  ∀ x, (∃ i, (i < n)%nat ∧ x i ≠ 0) → 0 < qform n A x.

(** An upper triangular system with a non-zero diagonal has a solution. *)
Lemma upper_solvable m (U : nat → nat → R) b :
  (∀ t, (t < m)%nat → U t t ≠ 0) → (∀ t s, (s < t < m)%nat → U t s = 0) →
  ∃ z, ∀ t, (t < m)%nat → psum m (λ s, U t s * z s) = b t.
Proof.
  revert b. induction m as [|m IH]; intros b Hd Hu; [exists (λ _, 0); lia|].
  set (zm := b m / U m m).
  destruct (IH (λ t, b t - U t m * zm)) as [z Hz]; [intros; apply Hd; lia|intros; apply Hu; lia|].
  exists (λ s, if decide (s = m) then zm else z s). intros t Ht. simpl. rewrite decide_True by done.
  rewrite (psum_ext m _ (λ s, U t s * z s)) by (intros s Hs; by rewrite decide_False by lia).
  destruct (decide (t = m)) as [->|].
  - rewrite psum_zero by (intros; rewrite Hu by lia; lra). unfold zm. field. apply Hd. lia.
  - rewrite Hz by lia. lra.
Qed.

Section cholesky.
Context (n : nat) (a : list R) (A : nat → nat → R) (a_rep : rep n a A).

(** Row [i] of the factor is known up to column [j], the rows before it are. *)
Definition known (i j i' j' : nat) : Prop := (i' < i ∧ j' ≤ i')%nat ∨ (i' = i ∧ j' < j)%nat.

Definition chol_inv (i j : nat) (l : list R) : Prop :=
  ∃ f, rep n l f ∧
    (∀ i' j', (i' < n)%nat → (j' < n)%nat → ¬ known i j i' j' → f i' j' = 0) ∧
    (∀ i' j', (i' < n)%nat → known i j i' j' → psum (S j') (λ k, f i' k * f j' k) = A i' j') ∧
    (∀ i', (i' < i)%nat → 0 < f i' i').

(** What an error says: a vector on which the form is not positive *)
Definition chol_error (e : BackendError) : Prop := e = shape_error n ∧ (symmetric n A → ¬ posdef n A).

Lemma chol_not_posdef i f :
  (i < n)%nat → (∀ i' k, (i' < k < i)%nat → f i' k = 0) → (∀ i', (i' < i)%nat → 0 < f i' i') →
  (∀ i' j', (i' ≤ i)%nat → (j' < i)%nat → (j' ≤ i')%nat → psum (S j') (λ k, f i' k * f j' k) = A i' j') →
  A i i - psum i (λ k, f i k * f i k) <= 0 → symmetric n A → ¬ posdef n A.
Proof using Type.
  intros Hi Hlow Hdiag Heq Hle Hsym Hpd.
  destruct (upper_solvable i (λ t s, f s t) (λ t, - f i t)) as [z Hz].
  { intros t Ht. specialize (Hdiag t Ht). lra. }
  { intros t s Hts. apply Hlow; lia. }
  set (x := λ s, if (s <? i)%nat then z s else if (s =? i)%nat then 1 else 0).
  assert (∀ s, (s < i)%nat → x s = z s) as Hxz by (intros s Hs; unfold x; by rewrite (proj2 (Nat.ltb_lt _ _))).
  assert (x i = 1) as Hxi by (unfold x; by rewrite Nat.ltb_irrefl, Nat.eqb_refl).
  specialize (Hpd x ltac:(exists i; split; [done|rewrite Hxi; lra])).
  assert (∀ (g : nat → R), psum n (λ s, x s * g s) = psum i (λ s, z s * g s) + g i) as Hcut.
  { intros g. rewrite (psum_cut (S i) n).
    - simpl. rewrite Hxi, (psum_ext i _ (λ s, z s * g s)) by (intros; by rewrite Hxz). lra.
    - lia.
    - intros s Hs. unfold x. rewrite (proj2 (Nat.ltb_ge _ _)), (proj2 (Nat.eqb_neq _ _)) by lia. lra. }
  assert (∀ s, (s ≤ i)%nat → psum i (λ j, A s j * z j) = psum i (λ k, f s k * - f i k)) as Hrow.
  { intros s Hs. rewrite (psum_ext i (λ j, A s j * z j) (λ j, psum i (λ k, f s k * (f j k * z j)))).
    - rewrite psum_swap. apply psum_ext. intros k Hk. rewrite psum_mul_l, <- (Hz k Hk). done.
    - intros j Hj. rewrite (psum_ext i _ (λ k, f s k * f j k * z j)) by (intros; lra).
      rewrite psum_mul_r. f_equal. destruct (decide (j ≤ s)%nat) as [Hjs|Hjs].
      + rewrite <- Heq by lia. rewrite (psum_cut (S j) i); [done|lia|].
        intros k Hk. rewrite (Hlow j) by lia. lra.
      + rewrite Hsym, <- Heq by lia. rewrite (psum_cut (S s) i); [|lia|intros k Hk; rewrite (Hlow s) by lia; lra].
        apply psum_ext. intros. lra. }
  assert (qform n A x = A i i - psum i (λ k, f i k * f i k)) as Hq; [|lra].
  unfold qform. rewrite (psum_ext n _ (λ s, x s * psum n (λ j, x j * A s j))).
  2: { intros s Hs. rewrite <- psum_mul_l. apply psum_ext. intros. lra. }
  rewrite Hcut, (psum_ext i _ (λ s, z s * (psum i (λ k, f s k * - f i k) + A s i))).
  2: { intros s Hs. f_equal. rewrite Hcut. f_equal. rewrite <- Hrow by lia. apply psum_ext. intros. lra. }
  rewrite Hcut. rewrite (psum_ext i (λ s, z s * A i s) (λ j, A i j * z j)) by (intros; lra). rewrite Hrow by lia.
  rewrite (psum_ext i (λ s, z s * _) (λ s, psum i (λ k, f s k * z s * - f i k) + A i s * z s)).
  2: { intros s Hs. rewrite (Hsym s i) by lia. rewrite Rmult_plus_distr_l, <- psum_mul_l. f_equal; [|lra].
       apply psum_ext. intros. lra. }
  rewrite psum_add, Hrow, psum_swap by lia.
  rewrite (psum_ext i (λ j, psum i _) (λ k, f i k * f i k)).
  2: { intros k Hk. rewrite psum_mul_r, Hz by done. lra. }
  rewrite (psum_ext i (λ k, f i k * - f i k) (λ k, -1 * (f i k * f i k))), psum_mul_l by (intros; lra). lra.
Qed.

Lemma chol_cell i j l : (i < n)%nat → (j ≤ i)%nat → chol_inv i j l →
  ends (if decide (j = i) then chol_inv (S i) 0 else chol_inv i (S j)) chol_error (cholesky_cell n a i l j).
Proof using a_rep.
  intros Hi Hj (f & Hf & Hz & Heq & Hd). unfold cholesky_cell.
  rewrite (range_sum j _ (λ k, f i k * f j k)).
  2: { intros acc k Hk. rewrite !(rep_rd n l f) by (done || lia). done. }
  cbn [rbind s_zero R_scalar]. rewrite Rplus_0_l.
  assert (f i j = 0) as Hij by (apply Hz; [lia|lia|unfold known; lia]).
  assert (∀ i' k v, (i' < n)%nat → known i j i' k → upd f i j v i' k = f i' k) as Hold.
  { intros i' k v Hi' Hk. unfold upd. rewrite decide_False; [done|]. unfold known in Hk. lia. }
  assert (∀ i' j' v, (i' < n)%nat → known i j i' j' →
    psum (S j') (λ k, upd f i j v i' k * upd f i j v j' k) = A i' j') as Hkeep.
  { intros i' j' v Hi' Hk. rewrite <- (Heq i' j' Hi' Hk). apply psum_ext. intros k Hk'.
    rewrite (Hold i' k), (Hold j' k); [done|..]; unfold known in *; lia. }
  destruct (Nat.eqb_spec i j) as [<-|Hne].
  - rewrite decide_True by done. rewrite (rep_rd n a A) by done. cbn [rbind s_sub s_le s_zero s_sqrt R_scalar].
    destruct (Rleb_spec (A i i - psum i (λ k, f i k * f i k)) 0) as [Hle|Hgt].
    + split; [done|]. intros Hsym. apply (chol_not_posdef i f Hi); [|done| |done|done].
      * intros i' k Hk. apply Hz; unfold known; lia.
      * intros i' j' Hi' Hj' Hji. apply Heq; unfold known; lia.
    + destruct (rep_put (E := BackendError) n l f i i (sqrt (A i i - psum i (λ k, f i k * f i k))) Hf Hi Hi) as (l' & -> & Hf').
      exists (upd f i i (sqrt (A i i - psum i (λ k, f i k * f i k)))). split; [done|]. split; [|split].
      * intros i' j' Hi' Hj' Hk. unfold upd. rewrite decide_False by (unfold known in Hk; lia).
        apply Hz; [done|done|]. unfold known in *. lia.
      * intros i' j' Hi' Hk. destruct (decide (i' = i ∧ j' = i)) as [[-> ->]|Hne].
        -- simpl. rewrite (psum_ext i _ (λ k, f i k * f i k)) by (intros k Hk'; rewrite Hold by (unfold known; lia); done).
           unfold upd. rewrite decide_True by done. rewrite sqrt_sqrt by lra. lra.
        -- apply Hkeep; [done|]. unfold known in *. lia.
      * intros i' Hi'. unfold upd. case_decide as Hd'; [apply sqrt_lt_R0; lra|]. apply Hd. lia.
  - rewrite decide_False by lia. rewrite (rep_rd n a A), (rep_rd n l f) by (done || lia). cbn [rbind s_sub s_div R_scalar].
    set (v := (A i j - psum j (λ k, f i k * f j k)) / f j j).
    destruct (rep_put (E := BackendError) n l f i j v Hf Hi ltac:(lia)) as (l' & -> & Hf').
    pose proof (Hd j ltac:(lia)) as Hjj.
    exists (upd f i j v). split; [done|]. split; [|split].
    + intros i' j' Hi' Hj' Hk. unfold upd. rewrite decide_False by (unfold known in Hk; lia).
      apply Hz; [done|done|]. unfold known in *. lia.
    + intros i' j' Hi' Hk. destruct (decide (i' = i ∧ j' = j)) as [[-> ->]|Hne'].
      * simpl. rewrite (psum_ext j _ (λ k, f i k * f j k)).
        2: { intros k Hk'. rewrite !Hold by (unfold known; lia). done. }
        rewrite (Hold j j) by (unfold known; lia).
        unfold upd. rewrite decide_True by done. unfold v. field. lra.
      * apply Hkeep; [done|]. unfold known in *. lia.
    + intros i' Hi'. unfold upd. rewrite decide_False by lia. by apply Hd.
Qed.

Lemma chol_row i l : (i < n)%nat → chol_inv i 0 l →
  ends (chol_inv (S i) 0) chol_error (for_range (S i) (cholesky_cell n a i) l).
Proof using a_rep.
  intros Hi Hl. rewrite for_range_S. eapply ends_bind.
  - apply (ends_range (chol_inv i) chol_error i); [done|]. intros s j Hj Hs.
    pose proof (chol_cell i j s Hi ltac:(lia) Hs) as Hc. by rewrite decide_False in Hc by lia.
  - intros l' Hl'. pose proof (chol_cell i i l' Hi ltac:(lia) Hl') as Hc. by rewrite decide_True in Hc.
Qed.

Lemma cholesky_spec :
  ends (λ l, ∃ L, rep n l L ∧
      (∀ i j, (i < j < n)%nat → L i j = 0) ∧ (∀ i, (i < n)%nat → 0 < L i i) ∧
      (∀ i j, (j ≤ i < n)%nat → psum n (λ k, L i k * L j k) = A i j))
    chol_error (cholesky_loops n a).
Proof using a_rep.
  eapply ends_impl.
  - apply (ends_range (λ i, chol_inv i 0) chol_error n).
    + exists (λ _ _, 0). split; [apply rep_zero|]. split; [done|]. split; [|lia].
      intros i' j' _ Hk. unfold known in Hk. lia.
    + intros l i Hi Hl. by apply chol_row.
  - intros l (L & HL & Hz & Heq & Hd). exists L. split; [done|]. split; [|split; [done|]].
    + intros i j Hij. apply Hz; unfold known; lia.
    + intros i j Hij. rewrite <- Heq by (unfold known; lia). apply psum_cut; [lia|].
      intros k Hk. rewrite (Hz j k) by (unfold known; lia). lra.
Qed.
End cholesky.

(** A matrix with such a factor is positive definite. *)
Lemma factor_posdef n A L :
  (∀ i j, (i < j < n)%nat → L i j = 0) → (∀ i, (i < n)%nat → 0 < L i i) →
  (∀ i j, (i < n)%nat → (j < n)%nat → psum n (λ k, L i k * L j k) = A i j) → posdef n A.
Proof.
  intros Hz Hd Heq x (i0 & Hi0 & Hx0). set (w := λ k, psum n (λ i, x i * L i k)).
  assert (qform n A x = psum n (λ k, w k * w k)) as Hq.
  { unfold qform. rewrite (psum_ext n _ (λ i, psum n (λ k, x i * L i k * w k))).
    - rewrite psum_swap. apply psum_ext. intros k _. rewrite psum_mul_r. done.
    - intros i Hi. rewrite (psum_ext n _ (λ j, psum n (λ k, x i * L i k * (x j * L j k)))).
      + rewrite psum_swap. apply psum_ext. intros k _. unfold w. by rewrite <- psum_mul_l.
      + intros j Hj. rewrite <- Heq by done. rewrite <- psum_mul_l, <- psum_mul_r. apply psum_ext. intros. lra. }
  rewrite Hq. assert (0 <= psum n (λ k, w k * w k)) by (apply psum_nonneg; intros; nra).
  destruct (Req_dec (psum n (λ k, w k * w k)) 0) as [H0|]; [|lra]. exfalso. apply Hx0.
  pose proof (psum_squares_zero n w H0) as Hw.
  assert (∀ d i, (n - d ≤ i < n)%nat → x i = 0) as Hall; [|apply (Hall n); lia].
  intros d. induction d as [|d IH]; intros i Hi; [lia|].
  destruct (decide (n - d ≤ i)%nat); [apply IH; lia|].
  specialize (Hw i ltac:(lia)). unfold w in Hw. rewrite (psum_one n i) in Hw; [|lia|].
  - specialize (Hd i ltac:(lia)). nra.
  - intros k Hk Hne. destruct (decide (k < i)%nat); [rewrite Hz by lia; lra|]. rewrite IH by lia. lra.
Qed.

(** ** LU with partial pivoting *)

(** The loops from [k] *)
Lemma ends_from {E St} (P : nat → St → Prop) (Q : E → Prop) k n (body : St → nat → res E St) s :
  (k ≤ n)%nat → P k s → (∀ s i, (k ≤ i < n)%nat → P i s → ends (P (S i)) Q (body s i)) →
  ends (P n) Q (for_from k n body s).
Proof.
  intros Hk Hs H. unfold for_from. replace n with (k + (n - k))%nat at 1 by lia.
  apply (ends_range (λ d, P (k + d)%nat) Q (n - k)); [by rewrite Nat.add_0_r|].
  intros s' d Hd Hs'. rewrite Nat.add_succ_r. apply H; [lia|done].
Qed.

(** The exchange of two indices *)
Definition swap (a b i : nat) : nat := if decide (i = a) then b else if decide (i = b) then a else i.

Lemma swap_lt a b i n : (a < n)%nat → (b < n)%nat → (i < n)%nat → (swap a b i < n)%nat.
Proof. unfold swap. intros. repeat case_decide; lia. Qed.

Section lu.
Context (n : nat).

Lemma lu_pivot_spec u fu k : (k < n)%nat → rep n u fu →
  ends (λ pv, (k ≤ pv.1 < n)%nat ∧ pv.2 = Rabs (fu pv.1 k) ∧ ∀ i, (k ≤ i < n)%nat → Rabs (fu i k) <= pv.2)
    (λ _, False) (lu_pivot n u k).
Proof using Type.
  intros Hk Hu. unfold lu_pivot. rewrite (rep_rd n u fu) by done. cbn [rbind s_abs R_scalar].
  apply (ends_from (λ m pv, (k ≤ pv.1 < n)%nat ∧ pv.2 = Rabs (fu pv.1 k) ∧
    ∀ i, (k ≤ i < m)%nat → Rabs (fu i k) <= pv.2)); [lia| |].
  - simpl. split; [lia|]. split; [done|]. intros i Hi. assert (i = k) as -> by lia. lra.
  - intros [piv v] i Hi (Hp & Hv & Hmax). simpl in Hp, Hv, Hmax. rewrite (rep_rd n u fu) by (done || lia).
    cbn [rbind fst snd s_lt R_scalar]. destruct (Rltb_spec v (Rabs (fu i k))) as [Hlt|Hge]; simpl.
    + split; [lia|]. split; [done|]. intros i' Hi'. destruct (decide (i' = i)) as [->|]; [lra|].
      specialize (Hmax i' ltac:(lia)). lra.
    + split; [done|]. split; [done|]. intros i' Hi'. destruct (decide (i' = i)) as [->|]; [lra|].
      apply Hmax. lia.
Qed.

(** Exchanging two cells of a column *)
Lemma swap_cells {E} l f k q j : rep n l f → (k < n)%nat → (q < n)%nat → (j < n)%nat → k ≠ q →
  ∃ l', swap_at (E := E) l (k * n + j) (q * n + j) = Ok l' ∧
    rep n l' (λ i' j', if decide (j' = j) then f (swap k q i') j' else f i' j').
Proof using Type.
  intros Hl Hk Hq Hj Hne. unfold swap_at. rewrite !(rep_rd n l f) by done. cbn [rbind].
  destruct (rep_put (E := E) n l f k j (f q j) Hl Hk Hj) as (l1 & -> & H1). cbn [rbind].
  destruct (rep_put (E := E) n l1 _ q j (f k j) H1 Hq Hj) as (l2 & -> & H2). exists l2. split; [done|].
  eapply rep_ext; [exact H2|]. intros i' j' _ _. unfold upd, swap.
  repeat case_decide; destruct_and?; subst; done || tauto || lia.
Qed.

Lemma lu_swap_spec k q u l fu fl : rep n u fu → rep n l fl → (k < n)%nat → (q < n)%nat → k ≠ q →
  ends (λ ul, rep n ul.1 (λ i j, fu (swap k q i) j) ∧ rep n ul.2 (λ i j, fl (swap k q i) j)) (λ _, False)
    (lu_swap n k q (u, l)).
Proof using Type.
  intros Hu Hl Hk Hq Hne. eapply ends_impl.
  - apply (ends_range (λ m (ul : list R * list R),
      rep n ul.1 (λ i j, if (j <? m)%nat then fu (swap k q i) j else fu i j) ∧
      rep n ul.2 (λ i j, if (j <? m)%nat then fl (swap k q i) j else fl i j)) _ n); [by split|].
    intros [u0 l0] j Hj [Hu0 Hl0]. cbn [fst snd] in *.
    destruct (swap_cells (E := BackendError) u0 _ k q j Hu0 Hk Hq Hj Hne) as (u1 & -> & Hu1). cbn [rbind].
    destruct (swap_cells (E := BackendError) l0 _ k q j Hl0 Hk Hq Hj Hne) as (l1 & -> & Hl1). cbn [rbind ends fst snd].
    split; (eapply rep_ext; [eassumption|]); intros i' j' _ _; cbv beta; case_decide as Hd;
      destruct (Nat.ltb_spec j' j), (Nat.ltb_spec j' (S j)); try lia; done.
  - intros [u' l'] [Hu' Hl']. cbn [fst snd] in *.
    split; (eapply rep_ext; [eassumption|]); intros i j _ Hj; cbv beta; by rewrite (proj2 (Nat.ltb_lt _ _)).
Qed.

Lemma swap_at_perm {E} (p : list nat) k q : p ≡ₚ seq 0 n → (k < n)%nat → (q < n)%nat → k ≠ q →
  ∃ p', swap_at (E := E) p k q = Ok p' ∧ p' ≡ₚ seq 0 n ∧ ∀ i, (i < n)%nat → p' !!! i = p !!! swap k q i.
Proof using Type.
  intros Hp Hk Hq Hne. assert (length p = n) as Hlen by (by rewrite Hp, length_seq).
  destruct (lookup_lt_is_Some_2 p k ltac:(lia)) as [x Hx], (lookup_lt_is_Some_2 p q ltac:(lia)) as [y Hy].
  unfold swap_at, rd, put. rewrite Hx, Hy. cbn [unwrap_opt rbind].
  rewrite (proj2 (Nat.ltb_lt _ _)) by lia. cbn [rbind]. rewrite (proj2 (Nat.ltb_lt _ _)) by (rewrite length_insert; lia).
  eexists. split; [done|].
  assert (∀ i, (i < n)%nat → (<[q:=x]> (<[k:=y]> p) : list nat) !! i = p !! swap k q i) as Hlook.
  { intros i Hi. unfold swap. case_decide as H1; [subst; rewrite list_lookup_insert_ne, list_lookup_insert_eq by lia; done|].
    case_decide as H2; [subst; rewrite list_lookup_insert_eq by (rewrite length_insert; lia); done|].
    by rewrite !list_lookup_insert_ne by done. }
  split.
  - rewrite <- Hp. apply Permutation_inj. split; [by rewrite !length_insert|].
    exists (swap k q). split.
    + intros i i'. unfold swap. repeat case_decide; lia.
    + intros i. destruct (decide (i < n)%nat); [by apply Hlook|].
      rewrite !lookup_ge_None_2; [done| |rewrite !length_insert; lia].
      unfold swap. repeat case_decide; lia.
  - intros i Hi. rewrite !list_lookup_total_alt, Hlook by done. done.
Qed.

Context (a : list R) (A : nat → nat → R) (a_rep : rep n a A).

(** The permuted matrix is the product of the factors so far and what is left
    in [u]; rows [k+1] to [m-1] have their entry of column [k] eliminated. *)
Record lu_state (k m : nat) (fu fl : nat → nat → R) (p : list nat) : Prop := mkLu {
  lu_perm : p ≡ₚ seq 0 n;
  lu_product : ∀ i j, (i < n)%nat → (j < n)%nat → A (p !!! i) j = psum n (λ t, fl i t * fu t j) + fu i j;
  lu_low : ∀ i t, (i < n)%nat → (t < n)%nat → (i ≤ t ∨ k < t ∨ t = k ∧ m ≤ i)%nat → fl i t = 0;
  lu_up : ∀ i t, (i < n)%nat → (t < i)%nat → (t < k ∨ t = k ∧ i < m)%nat → fu i t = 0;
  lu_diag : ∀ t, (t < k)%nat → fu t t ≠ 0;
  lu_bound : ∀ i t, (i < n)%nat → (t < n)%nat → Rabs (fl i t) <= 1
}.

Definition lu_inv (k : nat) (st : list R * list R * list nat) : Prop :=
  let '(u, l, p) := st in ∃ fu fl, rep n u fu ∧ rep n l fl ∧ lu_state k (S k) fu fl p.

Lemma lu_inv_init : lu_inv 0 (a, replicate (n * n) 0, List.seq 0 n).
Proof using a_rep.
  exists A, (λ _ _, 0). split; [done|]. split; [apply rep_zero|]. split.
  - done.
  - intros i j Hi Hj. rewrite psum_zero by (intros; lra).
    rewrite (list_lookup_total_correct (seq 0 n) i i) by (apply lookup_seq; lia). lra.
  - done.
  - lia.
  - lia.
  - intros. rewrite Rabs_R0. lra.
Qed.

(** The state after the exchange of row [k] with the pivot row *)
Lemma lu_swapped k q fu fl p p' :
  lu_state k (S k) fu fl p → (k < n)%nat → (k ≤ q < n)%nat → fu q k ≠ 0 →
  p' ≡ₚ seq 0 n → (∀ i, (i < n)%nat → p' !!! i = p !!! swap k q i) →
  lu_state k (S k) (λ i j, fu (swap k q i) j) (λ i j, fl (swap k q i) j) p'.
Proof using Type.
  intros [Hp Hprod Hlow Hup Hdiag Hbound] Hk Hq Hne Hp' Hpi.
  assert (∀ t, (t < k)%nat → swap k q t = t) as Hsmall by (intros t Ht; unfold swap; repeat case_decide; lia).
  assert (∀ i, (k ≤ i)%nat → (k ≤ swap k q i)%nat) as Hbig by (intros i Hi; unfold swap; repeat case_decide; lia).
  assert (∀ i, (i < n)%nat → (swap k q i < n)%nat) as Hlt by (intros; apply swap_lt; lia).
  split; [done|..].
  - intros i j Hi Hj. rewrite Hpi, (Hprod _ _ (Hlt i Hi) Hj) by done. f_equal. apply psum_ext. intros t Ht.
    destruct (decide (t < k)%nat); [by rewrite (Hsmall t)|]. rewrite !(Hlow (swap k q i) t); [lra|auto|done|].
    destruct (decide (t = k)) as [->|]; [|lia]. destruct (decide (swap k q i ≤ k)%nat); lia.
  - intros i t Hi Ht Hc. apply Hlow; [auto|done|]. destruct (decide (i < k)%nat); [rewrite Hsmall by done; lia|].
    specialize (Hbig i ltac:(lia)). lia.
  - intros i t Hi Ht Hc. assert (t < k)%nat as Htk by lia. apply Hup; [auto| |by left].
    destruct (decide (i < k)%nat); [by rewrite Hsmall|]. specialize (Hbig i ltac:(lia)). lia.
  - intros t Ht. rewrite Hsmall by done. by apply Hdiag.
  - intros i t Hi Ht. apply Hbound; auto.
Qed.

(** What the elimination of column [k] assumes and keeps *)
Definition lu_mid (k m : nat) (p : list nat) (ul : list R * list R) : Prop :=
  ∃ fu fl, rep n ul.1 fu ∧ rep n ul.2 fl ∧ lu_state k m fu fl p ∧ fu k k ≠ 0 ∧
    ∀ i, (m ≤ i < n)%nat → Rabs (fu i k) <= Rabs (fu k k).

(** Row [m] minus [c] times row [k], from column [k] on *)
Definition eliminated (k m : nat) (c : R) (fu : nat → nat → R) (i j : nat) : R :=
  if decide (i = m ∧ k ≤ j)%nat then fu m j - c * fu k j else fu i j.

Lemma eliminated_other k m c fu i j : i ≠ m → eliminated k m c fu i j = fu i j.
Proof using Type. intros Hi. unfold eliminated. by rewrite decide_False by (by intros [? _]). Qed.

Lemma lu_eliminated k m p fu fl : (k < m < n)%nat → lu_state k m fu fl p → fu k k ≠ 0 →
  Rabs (fu m k) <= Rabs (fu k k) → let c := fu m k / fu k k in
  lu_state k (S m) (eliminated k m c fu) (upd fl m k c) p.
Proof using Type.
  intros Hm [Hp Hprod Hlow Hup Hdiag Hbound] Hkk Hmax c. split.
  - done.
  - intros i j Hi Hj. rewrite Hprod by done. destruct (decide (i = m)) as [->|Him].
    + assert (psum n (λ t, upd fl m k c m t * eliminated k m c fu t j) =
              psum n (λ t, fl m t * fu t j) + c * fu k j) as ->.
      { assert (c * fu k j = psum n (λ t, if decide (t = k) then c * fu k j else 0)) as ->.
        { symmetry. rewrite (psum_one n k); [by rewrite decide_True|lia|]. intros t _ Ht. by rewrite decide_False. }
        rewrite <- psum_add. apply psum_ext. intros t Ht. unfold upd. destruct (decide (t = k)) as [->|Htk].
        - rewrite decide_True, eliminated_other, (Hlow m k) by (done || lia). lra.
        - rewrite decide_False by tauto. destruct (decide (t = m)) as [->|]; [rewrite (Hlow m m) by lia; lra|].
          rewrite eliminated_other by done. lra. }
      unfold eliminated. case_decide as Hd; [lra|]. rewrite (Hup k j) by lia. lra.
    + rewrite eliminated_other by done. f_equal. apply psum_ext. intros t Ht. unfold upd. rewrite decide_False by tauto.
      destruct (decide (t = m)) as [->|]; [|by rewrite eliminated_other]. rewrite (Hlow i m) by lia. lra.
  - intros i t Hi Ht Hc. unfold upd. rewrite decide_False by lia. apply Hlow; [done|done|]. lia.
  - intros i t Hi Ht Hc. unfold eliminated. case_decide as Hd.
    + destruct Hd as [-> Hkt]. assert (t = k) as -> by lia. unfold c. field. done.
    + apply Hup; [done|done|]. destruct (decide (i = m)) as [->|]; lia.
  - intros t Ht. rewrite eliminated_other by lia. by apply Hdiag.
  - intros i t Hi Ht. unfold upd. case_decide; [|by apply Hbound]. unfold c, Rdiv.
    rewrite Rabs_mult, Rabs_inv. pose proof (Rabs_pos_lt _ Hkk) as Hpos.
    apply (Rmult_le_reg_r (Rabs (fu k k))); [done|]. rewrite Rmult_assoc, Rinv_l by lra. lra.
Qed.

Lemma lu_eliminate_spec k m p ul : (k < m < n)%nat → lu_mid k m p ul →
  ends (lu_mid k (S m) p) (λ _, False) (lu_eliminate n k ul m).
Proof using Type.
  intros Hm (fu & fl & Hu & Hl & Hst & Hkk & Hmax). destruct ul as [u l].
  cbn [fst snd] in *. unfold lu_eliminate. rewrite !(rep_rd n u fu) by lia || done. cbn [rbind s_div R_scalar].
  set (c := fu m k / fu k k).
  destruct (rep_put (E := BackendError) n l fl m k c Hl ltac:(lia) ltac:(lia)) as (l' & -> & Hl'). cbn [rbind].
  eapply ends_bind.
  - apply (ends_from (λ j u', rep n u' (λ i' j', if decide (i' = m ∧ k ≤ j' < j)%nat then fu m j' - c * fu k j' else fu i' j')));
      [lia| |].
    + eapply rep_ext; [exact Hu|]. intros i j _ _. cbv beta. rewrite decide_False by lia. done.
    + intros u0 j Hj Hu0. rewrite !(rep_rd n u0 _ _ _ Hu0) by lia. cbn [rbind].
      rewrite !decide_False by lia. cbn [s_sub s_mul R_scalar].
      destruct (rep_put (E := BackendError) n u0 _ m j (fu m j - c * fu k j) Hu0 ltac:(lia) ltac:(lia)) as (u1 & -> & Hu1).
      simpl. eapply rep_ext; [exact Hu1|]. intros i' j' _ _. unfold upd.
      repeat case_decide; destruct_and?; subst; done || tauto || lia.
  - intros u' Hu'. simpl. exists (eliminated k m c fu), (upd fl m k c). cbn [fst snd].
    split; [|split; [done|split; [|split]]].
    + eapply rep_ext; [exact Hu'|]. intros i j _ Hj. unfold eliminated.
      repeat case_decide; destruct_and?; subst; done || tauto || lia.
    + apply lu_eliminated; [done..|]. apply Hmax. lia.
    + rewrite eliminated_other by lia. done.
    + intros i Hi. rewrite !eliminated_other by lia. apply Hmax. lia.
Qed.

(** Some vector with an entry 1 is mapped to one whose entries are all below 1e-12. *)
Definition near_singular : Prop :=
  ∃ k x, (k < n)%nat ∧ x k = 1 ∧ ∀ r, (r < n)%nat → Rabs (psum n (λ j, A r j * x j)) < / 10 ^ 12.

Lemma psum_vupd (f x : nat → R) t v : (t < n)%nat →
  psum n (λ j, f j * vupd x t v j) = psum n (λ j, f j * x j) + f t * (v - x t).
Proof using Type.
  intros Ht. assert (f t * (v - x t) = psum n (λ j, if decide (j = t) then f t * (v - x t) else 0)) as ->.
  { symmetry. rewrite (psum_one n t); [by rewrite decide_True|done|]. intros j _ Hj. by rewrite decide_False. }
  rewrite <- psum_add. apply psum_ext. intros j _. unfold vupd. case_decide; [subst; lra|lra].
Qed.

(** Once [k] columns are eliminated, a vector is found by back substitution whose image
    under what is left is the column [k] below the pivots, and 0 above. *)
Lemma column_vector k (fu : nat → nat → R) : (k < n)%nat →
  (∀ i t, (i < n)%nat → (t < i)%nat → (t < k)%nat → fu i t = 0) → (∀ t, (t < k)%nat → fu t t ≠ 0) →
  ∃ x, x k = 1 ∧ ∀ i, (i < n)%nat → psum n (λ j, fu i j * x j) = if decide (i < k)%nat then 0 else fu i k.
Proof using Type.
  intros Hk Hlow Hdiag.
  assert (∀ d, (d ≤ k)%nat → ∃ x, x k = 1 ∧ (∀ j, (j < k - d ∨ k < j)%nat → x j = 0) ∧
    ∀ i, (k - d ≤ i < k)%nat → psum n (λ j, fu i j * x j) = 0) as H.
  { induction d as [|d IH]; intros Hd.
    - exists (λ j, if decide (j = k) then 1 else 0). split; [by rewrite decide_True|]. split; [|lia].
      intros j Hj. by rewrite decide_False by lia.
    - destruct (IH ltac:(lia)) as (x & Hx & Hz & Hrows). set (t := (k - S d)%nat).
      exists (vupd x t (- psum n (λ j, fu t j * x j) / fu t t)). split; [|split].
      + unfold vupd. by rewrite decide_False by (unfold t; lia).
      + intros j Hj. unfold vupd. rewrite decide_False by (unfold t; lia). apply Hz. lia.
      + intros i Hi. rewrite psum_vupd by (unfold t; lia). destruct (decide (i = t)) as [->|Hne].
        * rewrite (Hz t) by (unfold t; lia). field. apply Hdiag. unfold t. lia.
        * rewrite Hrows, (Hlow i t) by (unfold t in *; lia). lra. }
  destruct (H k ltac:(lia)) as (x & Hx & Hz & Hrows). exists x. split; [done|]. intros i Hi.
  case_decide as Hik; [apply Hrows; lia|]. rewrite (psum_one n k); [by rewrite Hx, Rmult_1_r|done|].
  intros j Hj Hne. destruct (decide (j < k)%nat); [rewrite Hlow by lia; lra|rewrite (Hz j) by lia; lra].
Qed.

(** A column without a pivot makes the matrix nearly singular. *)
Lemma lu_refused k fu fl p : (k < n)%nat → lu_state k (S k) fu fl p →
  (∀ i, (k ≤ i < n)%nat → Rabs (fu i k) < / 10 ^ 12) → near_singular.
Proof using Type.
  intros Hk [Hp Hprod Hlow Hup Hdiag _] Hsmall.
  destruct (column_vector k fu Hk) as (x & Hx & Himg); [intros; apply Hup; [done|done|by left]|done|].
  exists k, x. split; [done|]. split; [done|]. intros r Hr.
  assert (r ∈ p) as [i Hi]%list_elem_of_lookup by (rewrite Hp; apply elem_of_seq; lia).
  assert (i < n)%nat as Hin by (apply lookup_lt_Some in Hi; by rewrite Hp, length_seq in Hi).
  rewrite <- (list_lookup_total_correct _ _ _ Hi).
  assert (psum n (λ j, A (p !!! i) j * x j) = if decide (i < k)%nat then 0 else fu i k) as ->.
  { rewrite <- (Himg i Hin).
    rewrite (psum_ext n (λ j, A (p !!! i) j * x j) (λ j, psum n (λ t, fl i t * (fu t j * x j)) + fu i j * x j)).
    - rewrite psum_add, psum_swap, psum_zero; [lra|]. intros t Ht. rewrite psum_mul_l.
      destruct (decide (t < k)%nat) as [Htk|Htk].
      + rewrite (Himg t Ht), decide_True by done. lra.
      + rewrite (Hlow i t) by lia. lra.
    - intros j Hj. rewrite Hprod by done. rewrite Rmult_plus_distr_r, <- psum_mul_r. f_equal. apply psum_ext. intros. lra. }
  case_decide; [|apply Hsmall; lia]. rewrite Rabs_R0. apply tiny_pos.
Qed.

(** What an error says *)
Definition lu_error (e : BackendError) : Prop := e = shape_error n ∧ near_singular.

Lemma lu_step_spec k st : (k < n)%nat → lu_inv k st → ends (lu_inv (S k)) lu_error (lu_step n st k).
Proof using Type.
  intros Hk Hinv. destruct st as [[u l] p]. destruct Hinv as (fu & fl & Hu & Hl & Hst). unfold lu_step.
  pose proof (lu_pivot_spec u fu k Hk Hu) as Hpiv. destruct (lu_pivot n u k) as [[q v]|e|]; [|done..].
  cbn [rbind ends fst snd] in *. destruct Hpiv as (Hq & Hv & Hmax).
  cbn [s_lt s_tiny R_scalar]. destruct (Rltb_spec v (/ 10 ^ 12)) as [Hsmall|Hlarge].
  { split; [done|]. apply (lu_refused k fu fl p Hk Hst). intros i Hi. specialize (Hmax i Hi). lra. }
  pose proof tiny_pos as Htiny. simpl in Htiny.
  assert (fu q k ≠ 0) as Hqk by (intros H0; rewrite Hv, H0, Rabs_R0 in Hlarge; lra).
  apply (ends_bind (λ ulp, lu_mid k (S k) ulp.2 ulp.1)).
  - destruct (Nat.eqb_spec q k) as [->|Hne]; cbn [negb].
    + exists fu, fl. split; [done|]. split; [done|]. split; [done|]. split; [done|].
      intros i Hi. rewrite <- Hv. apply Hmax. lia.
    + eapply ends_bind; [apply ends_no_error, (lu_swap_spec k q u l fu fl); done || lia|].
      intros [u' l'] [Hu' Hl'].
      destruct (swap_at_perm (E := BackendError) p k q (lu_perm _ _ _ _ _ Hst) Hk ltac:(lia) ltac:(lia)) as (p' & -> & Hp' & Hpi).
      simpl. exists (λ i j, fu (swap k q i) j), (λ i j, fl (swap k q i) j).
      split; [done|]. split; [done|]. split; [by eapply lu_swapped|].
      assert (swap k q k = q) as -> by (unfold swap; by rewrite decide_True).
      split; [done|]. intros i Hi. rewrite <- Hv. apply Hmax. unfold swap. repeat case_decide; lia.
  - intros [[u' l'] p'] Hmid. cbn [fst snd] in Hmid. apply (ends_bind (lu_mid k n p')).
    + apply ends_no_error, (ends_from (λ m, lu_mid k m p')); [lia|exact Hmid|].
      intros ul m Hm. apply lu_eliminate_spec. lia.
    + intros [u1 l1] (fu1 & fl1 & Hu1 & Hl1 & [Hp1 Hprod Hlow Hup Hdiag Hbound] & Hkk & _).
      exists fu1, fl1. split; [done|]. split; [done|]. split; [done|done|..|done].
      * intros i t Hi Ht Hc. apply Hlow; [done|done|]. lia.
      * intros i t Hi Ht Hc. apply Hup; [done|done|]. lia.
      * intros t Ht. destruct (decide (t = k)) as [->|]; [done|]. apply Hdiag. lia.
Qed.

(** The factors: L is unit lower triangular with entries of absolute value at
    most 1, U is upper triangular with a diagonal that is nowhere 0, and their
    product is the matrix with its rows permuted by p. *)
Definition lu_factors (l u : list R) (p : list nat) (L U : nat → nat → R) : Prop :=
  rep n l L ∧ rep n u U ∧ p ≡ₚ seq 0 n ∧
  (∀ i j, (i < n)%nat → (j < n)%nat → A (p !!! i) j = psum n (λ t, L i t * U t j)) ∧
  (∀ i, (i < n)%nat → L i i = 1) ∧ (∀ i t, (i < t < n)%nat → L i t = 0) ∧
  (∀ i t, (i < n)%nat → (t < n)%nat → Rabs (L i t) <= 1) ∧
  (∀ i t, (t < i < n)%nat → U i t = 0) ∧ (∀ t, (t < n)%nat → U t t ≠ 0).

Lemma lu_spec :
  ends (λ lup, ∃ L U, lu_factors lup.1.1 lup.1.2 lup.2 L U) lu_error (lu_loops n a).
Proof using a_rep.
  unfold lu_loops. apply (ends_bind (lu_inv n)).
  - apply (ends_range lu_inv lu_error n); [apply lu_inv_init|]. intros st k. apply lu_step_spec.
  - intros [[u l] p] (fu & fl & Hu & Hl & [Hp Hprod Hlow Hup Hdiag Hbound]).
    eapply ends_bind.
    + apply ends_no_error, (ends_range (λ m l', rep n l' (λ i t, if decide (i = t ∧ i < m)%nat then 1 else fl i t))).
      * eapply rep_ext; [exact Hl|]. intros i j _ _. cbv beta. by rewrite decide_False by lia.
      * intros l0 i Hi Hl0. destruct (rep_put (E := BackendError) n l0 _ i i 1 Hl0 Hi Hi) as (l1 & Hput & Hl1).
        cbn [s_one R_scalar]. rewrite Hput. simpl. eapply rep_ext; [exact Hl1|]. intros i' j' _ _. unfold upd.
        repeat case_decide; destruct_and?; subst; done || tauto || lia.
    + intros l' Hl'. simpl. exists (λ i t, if decide (i = t ∧ i < n)%nat then 1 else fl i t), fu.
      split; [done|]. split; [done|]. split; [done|]. split; [|split; [|split; [|split; [|split]]]].
      * intros i j Hi Hj. rewrite Hprod by done.
        assert (fu i j = psum n (λ t, if decide (t = i) then fu i j else 0)) as Hone.
        { symmetry. rewrite (psum_one n i); [by rewrite decide_True|lia|]. intros t _ Ht. by rewrite decide_False. }
        rewrite Hone at 1. rewrite <- psum_add. apply psum_ext. intros t Ht.
        destruct (decide (t = i)) as [->|Hti].
        -- rewrite decide_True, (Hlow i i) by lia. lra.
        -- rewrite decide_False by lia. lra.
      * intros i Hi. by rewrite decide_True.
      * intros i t Hit. rewrite decide_False by lia. apply Hlow; lia.
      * intros i t Hi Ht. case_decide; [rewrite Rabs_R1; lra|]. by apply Hbound.
      * intros i t Hti. apply Hup; lia.
      * done.
Qed.
End lu.

(** ** The inverse *)

(** Rows [m] on of a vector are still 0. *)
Section solve.
Context (n : nat) (l u : list R) (L U : nat → nat → R) (l_rep : rep n l L) (u_rep : rep n u U).

Lemma forward_solve_spec pb b : vrep n pb b →
  ends (λ y, ∃ Y, vrep n y Y ∧ ∀ i, (i < n)%nat → psum i (λ j, L i j * Y j) + Y i = b i) (λ _, False)
    (forward_solve n l pb).
Proof using l_rep.
  intros Hb. unfold forward_solve.
  apply (ends_range (λ m y, ∃ Y, vrep n y Y ∧ ∀ i, (i < m)%nat → psum i (λ j, L i j * Y j) + Y i = b i)).
  - exists (λ _, 0). split; [apply vrep_zero|lia].
  - intros y i Hi (Y & Hy & HY). rewrite (vrep_rd n pb b) by done. cbn [rbind].
    rewrite (range_diff i _ (λ j, L i j * Y j)).
    2: { intros acc j Hj. by rewrite (rep_rd n l L), (vrep_rd n y Y) by (done || lia). }
    cbn [rbind]. destruct (vrep_put (E := BackendError) n y Y i (b i - psum i (λ j, L i j * Y j)) Hy Hi) as (y' & -> & Hy').
    simpl. eexists. split; [exact Hy'|]. intros i' Hi'.
    rewrite (psum_ext i' _ (λ j, L i' j * Y j)) by (intros j Hj; unfold vupd; by rewrite decide_False by lia).
    unfold vupd. case_decide as Hd; [subst; lra|]. apply HY. lia.
Qed.

Lemma backward_solve_spec y Y : vrep n y Y →
  (∀ i t, (t < i < n)%nat → U i t = 0) → (∀ t, (t < n)%nat → U t t ≠ 0) →
  ends (λ x, ∃ X, vrep n x X ∧ ∀ i, (i < n)%nat → psum n (λ j, U i j * X j) = Y i) (λ _, False)
    (backward_solve n u y).
Proof using u_rep.
  intros Hy Hup Hd. unfold backward_solve. eapply ends_impl.
  - apply (ends_range (λ m x, ∃ X, vrep n x X ∧ ∀ i, (n - m ≤ i < n)%nat → psum n (λ j, U i j * X j) = Y i)).
    + exists (λ _, 0). split; [apply vrep_zero|lia].
    + intros x d Hdn (X & Hx & HX). cbv zeta. set (i := (n - 1 - d)%nat). assert (i < n)%nat as Hi by (unfold i; lia).
      rewrite (vrep_rd n y Y) by done. cbn [rbind].
      unfold for_from. rewrite (range_diff (n - S i) _ (λ k, U i (S i + k)%nat * X (S i + k)%nat)).
      2: { intros acc k Hk. by rewrite (rep_rd n u U), (vrep_rd n x X) by (done || lia). }
      cbn [rbind]. rewrite (rep_rd n u U) by done. cbn [rbind s_div R_scalar].
      set (v := (Y i - _) / U i i).
      destruct (vrep_put (E := BackendError) n x X i v Hx Hi) as (x' & -> & Hx').
      simpl. exists (vupd X i v). split; [exact Hx'|]. intros i' Hi'.
      destruct (decide (i' = i)) as [->|Hne].
      * replace n with (S i + (n - S i))%nat at 1 by lia. rewrite psum_split. cbn [psum].
        rewrite psum_zero by (intros k Hk; rewrite Hup by lia; lra).
        rewrite (psum_ext (n - S i) _ (λ k, U i (S i + k)%nat * X (S i + k)%nat))
          by (intros k Hk; unfold vupd; by rewrite decide_False by lia).
        unfold vupd. rewrite decide_True by done. unfold v. field. by apply Hd.
      * rewrite <- (HX i') by lia. apply psum_ext. intros k Hk. unfold vupd. case_decide; [|done].
        subst k. rewrite Hup by lia. lra.
  - intros x (X & Hx & HX). exists X. split; [done|]. intros i Hi. apply HX. lia.
Qed.
End solve.

Section inverse.
Context (n : nat) (A : nat → nat → R) (l u : list R) (p : list nat) (L U : nat → nat → R).
Context (factors : lu_factors n A l u p L U).

Definition kronecker (i j : nat) : R := if decide (i = j) then 1 else 0.

Lemma perm_lt i : (i < n)%nat → (p !!! i < n)%nat ∧ p !! i = Some (p !!! i).
Proof using factors.
  destruct factors as (_ & _ & Hp & _). intros Hi. assert (length p = n) as Hlen by (by rewrite Hp, length_seq).
  destruct (lookup_lt_is_Some_2 p i ltac:(lia)) as [x Hx]. rewrite (list_lookup_total_correct _ _ _ Hx). split; [|done].
  apply list_elem_of_lookup_2 in Hx. rewrite Hp in Hx. apply elem_of_seq in Hx. lia.
Qed.

(** The right-hand side of a column, permuted *)
Lemma permuted_unit b col : vrep n b (λ i, kronecker i col) →
  ends (λ pb, vrep n pb (λ i, kronecker (p !!! i) col)) (λ _, False)
    (for_range (E := BackendError) n (λ pb i, let? pi := rd p i in let? x := rd b pi in put pb i x) (replicate n s_zero)).
Proof using factors.
  intros Hb. eapply ends_impl.
  - apply (ends_range (λ m pb, vrep n pb (λ i, if (i <? m)%nat then kronecker (p !!! i) col else 0))).
    + apply vrep_zero.
    + intros pb i Hi Hpb. destruct (perm_lt i Hi) as [Hlt Hl]. unfold rd at 1. rewrite Hl. cbn [unwrap_opt rbind].
      rewrite (vrep_rd n b _ _ Hb Hlt). cbn [rbind].
      destruct (vrep_put (E := BackendError) n pb _ i (kronecker (p !!! i) col) Hpb Hi) as (pb' & -> & Hpb').
      simpl. eapply vrep_ext; [exact Hpb'|]. intros i' _. unfold vupd.
      case_decide as Hd; [subst i'; by rewrite (proj2 (Nat.ltb_lt i (S i))) by lia|].
      destruct (Nat.ltb_spec i' i), (Nat.ltb_spec i' (S i)); lia || done.
  - intros pb Hpb. eapply vrep_ext; [exact Hpb|]. intros i Hi. cbv beta. by rewrite (proj2 (Nat.ltb_lt _ _)).
Qed.

(** The solutions of the two triangular systems solve the whole. *)
Lemma solve_whole Y X c r :
  (∀ i, (i < n)%nat → psum i (λ j, L i j * Y j) + Y i = kronecker (p !!! i) c) →
  (∀ i, (i < n)%nat → psum n (λ j, U i j * X j) = Y i) →
  (r < n)%nat → psum n (λ j, A r j * X j) = kronecker r c.
Proof using factors.
  intros HY HX Hr. pose proof factors as (_ & _ & Hp & Hprod & Hone & Hlow & _).
  assert (r ∈ p) as [i Hi]%list_elem_of_lookup by (rewrite Hp; apply elem_of_seq; lia).
  assert (i < n)%nat as Hin by (apply lookup_lt_Some in Hi; by rewrite Hp, length_seq in Hi).
  rewrite <- (list_lookup_total_correct _ _ _ Hi), <- HY by done.
  rewrite (psum_ext n _ (λ j, psum n (λ t, L i t * (U t j * X j)))).
  - rewrite psum_swap, (psum_ext n _ (λ t, L i t * Y t)).
    + rewrite (psum_cut (S i) n) by (lia || (intros t Ht; rewrite Hlow by lia; lra)). simpl. rewrite Hone by done. lra.
    + intros t Ht. by rewrite psum_mul_l, HX.
  - intros j Hj. rewrite Hprod, <- psum_mul_r by done. apply psum_ext. intros. lra.
Qed.

Definition inverse_upto (c : nat) (inv : list R) : Prop :=
  ∃ V, rep n inv V ∧ ∀ r col, (r < n)%nat → (col < c)%nat → psum n (λ j, A r j * V j col) = kronecker r col.

Lemma inverse_column_spec c inv : (c < n)%nat → inverse_upto c inv →
  ends (inverse_upto (S c)) (λ _, False) (inverse_column n l u p inv c).
Proof using factors.
  intros Hc (V & HV & HAV). pose proof factors as (Hl & Hu & _ & _ & _ & _ & _ & Hup & Hd). unfold inverse_column.
  destruct (vrep_put (E := BackendError) n (replicate n 0) _ c 1 (vrep_zero n) Hc) as (b & Hput & Hb).
  cbn [s_zero s_one R_scalar]. rewrite Hput. cbn [rbind].
  assert (vrep n b (λ i, kronecker i c)) as Hb'
    by (eapply vrep_ext; [exact Hb|]; intros i _; unfold vupd, kronecker; by repeat case_decide).
  eapply ends_bind; [by apply permuted_unit|]. intros pb Hpb.
  eapply ends_bind; [exact (forward_solve_spec n l L Hl pb _ Hpb)|]. intros y (Y & Hy & HY).
  eapply ends_bind; [exact (backward_solve_spec n u U Hu y Y Hy Hup Hd)|]. intros x (X & Hx & HX).
  eapply ends_impl.
  - apply (ends_range (λ m inv', rep n inv' (λ i j, if decide (j = c ∧ i < m)%nat then X i else V i j))).
    + eapply rep_ext; [exact HV|]. intros i j _ _. cbv beta. by rewrite decide_False by lia.
    + intros inv' i Hi Hinv'. rewrite (vrep_rd n x X) by done. cbn [rbind].
      destruct (rep_put (E := BackendError) n inv' _ i c (X i) Hinv' Hi Hc) as (inv2 & -> & Hinv2).
      simpl. eapply rep_ext; [exact Hinv2|]. intros i' j' _ _. unfold upd.
      repeat case_decide; destruct_and?; subst; done || tauto || lia.
  - intros inv' Hinv'. eexists. split; [exact Hinv'|]. intros r col Hr Hcol. cbv beta.
    destruct (decide (col = c)) as [->|Hne].
    + rewrite (psum_ext n _ (λ j, A r j * X j)) by (intros j Hj; by rewrite decide_True). by eapply solve_whole.
    + rewrite (psum_ext n _ (λ j, A r j * V j col)) by (intros j Hj; rewrite decide_False by tauto; done).
      apply HAV; [done|lia].
Qed.

Lemma inverse_spec :
  ends (λ inv, ∃ V, rep n inv V ∧ ∀ r c, (r < n)%nat → (c < n)%nat → psum n (λ j, A r j * V j c) = kronecker r c)
    (λ _, False) (inverse_loops n l u p).
Proof using factors.
  apply (ends_range inverse_upto).
  - exists (λ _ _, 0). split; [apply rep_zero|lia].
  - intros inv c. apply inverse_column_spec.
Qed.
End inverse.

(** ** QR *)

Section qr.
Context (n : nat) (a : list R) (A : nat → nat → R) (a_rep : rep n a A).

(** The scalar product of two columns *)
Definition cdot (f g : nat → R) : R := psum n (λ k, f k * g k).

Lemma cdot_zero f g : (∀ k, (k < n)%nat → g k = 0) → cdot f g = 0.
Proof using Type. intros H. apply psum_zero. intros k Hk. rewrite H by done. lra. Qed.

Lemma cdot_comm f g : cdot f g = cdot g f.
Proof using Type. apply psum_ext. intros. lra. Qed.

Lemma cdot_ext f f' g g' : (∀ k, (k < n)%nat → f k = f' k) → (∀ k, (k < n)%nat → g k = g' k) → cdot f g = cdot f' g'.
Proof using Type. intros Hf Hg. apply psum_ext. intros k Hk. by rewrite Hf, Hg. Qed.

(** The columns of [Q] up to [j]: orthogonal; a column whose norm does not exceed
    1e-12 is zero, the others have norm 1 and give back the column of [A]. *)
Record qr_state (j : nat) (Q T : nat → nat → R) : Prop := mkQr {
  qr_later : ∀ i c, (i < n)%nat → (j ≤ c < n)%nat → Q i c = 0;
  qr_upper : ∀ t c, (t < n)%nat → (c < n)%nat → (j ≤ c ∨ c < t)%nat → T t c = 0;
  qr_norm : ∀ c, (c < j)%nat → 0 <= T c c;
  qr_orth : ∀ c d, (c < j)%nat → (d < j)%nat → c ≠ d → cdot (λ k, Q k c) (λ k, Q k d) = 0;
  qr_unit : ∀ c, (c < j)%nat → s_tiny < T c c →
    cdot (λ k, Q k c) (λ k, Q k c) = 1 ∧ ∀ i, (i < n)%nat → A i c = psum n (λ t, Q i t * T t c);
  qr_zero : ∀ c, (c < j)%nat → ¬ s_tiny < T c c → ∀ i, (i < n)%nat → Q i c = 0
}.

Definition qr_inv (j : nat) (qr : list R * list R) : Prop :=
  ∃ Q T, rep n qr.1 Q ∧ rep n qr.2 T ∧ qr_state j Q T.

Lemma qr_project_spec j q r v Q T : (j < n)%nat → rep n q Q → rep n r T → vrep n v (λ k, A k j) →
  let d t := cdot (λ k, Q k t) (λ k, A k j) in
  ends (λ rv, rep n rv.1 (λ t c, if decide (c = j ∧ t < j)%nat then d t else T t c) ∧
              vrep n rv.2 (λ k, A k j - psum j (λ t, d t * Q k t))) (λ _, False)
    (for_range j (qr_project n a q j) (r, v)).
Proof using a_rep.
  intros Hj Hq Hr Hv d.
  pose (P := λ i (rv : list R * list R),
    rep n rv.1 (λ t c, if decide (c = j ∧ t < i)%nat then d t else T t c) ∧
    vrep n rv.2 (λ k, A k j - psum i (λ t, d t * Q k t))).
  change (ends (P j) (λ _, False) (for_range j (qr_project n a q j) (r, v))).
  apply (ends_range P); unfold P.
  - split; cbn [fst snd].
    + eapply rep_ext; [exact Hr|]. intros t c _ _. cbv beta. by rewrite decide_False by lia.
    + eapply vrep_ext; [exact Hv|]. intros k _. simpl. lra.
  - intros [r0 v0] i Hi [Hr0 Hv0]. cbn [fst snd] in *. unfold qr_project.
    rewrite (range_sum n _ (λ k, Q k i * A k j)).
    2: { intros acc k Hk. by rewrite (rep_rd n q Q), (rep_rd n a A) by (done || lia). }
    cbn [rbind s_zero R_scalar]. rewrite Rplus_0_l. change (psum n (λ k, Q k i * A k j)) with (d i).
    destruct (rep_put (E := BackendError) n r0 _ i j (d i) Hr0 ltac:(lia) Hj) as (r1 & -> & Hr1). cbn [rbind].
    apply (ends_bind (λ v1, vrep n v1 (λ k, A k j - psum (S i) (λ t, d t * Q k t)))).
    + eapply ends_impl.
      * apply (ends_range (λ m v1, vrep n v1 (λ k, A k j - psum i (λ t, d t * Q k t) -
          if (k <? m)%nat then d i * Q k i else 0))).
        -- eapply vrep_ext; [exact Hv0|]. intros k _. simpl. lra.
        -- intros v1 k Hk Hv1. rewrite (vrep_rd n v1 _ _ Hv1), (rep_rd n q Q) by (done || lia). cbn [rbind].
           rewrite Nat.ltb_irrefl. cbn [s_sub s_mul R_scalar].
           destruct (vrep_put (E := BackendError) n v1 _ k (A k j - psum i (λ t, d t * Q k t) - 0 - d i * Q k i) Hv1 Hk) as (v2 & -> & Hv2).
           simpl. eapply vrep_ext; [exact Hv2|]. intros k' _. unfold vupd. case_decide as Hd.
           ++ subst k'. rewrite (proj2 (Nat.ltb_lt k (S k))) by lia. lra.
           ++ destruct (Nat.ltb_spec k' k), (Nat.ltb_spec k' (S k)); lia || lra.
      * intros v1 Hv1. eapply vrep_ext; [exact Hv1|]. intros k Hk. cbv beta. rewrite (proj2 (Nat.ltb_lt _ _)) by done. simpl. lra.
    + intros v1 Hv1. simpl. split; [|exact Hv1]. eapply rep_ext; [exact Hr1|]. intros t c _ _. unfold upd.
      repeat case_decide; destruct_and?; subst; done || tauto || lia.
Qed.

Lemma vrep_list v V : vrep n v V → v = V <$> seq 0 n.
Proof using Type.
  intros [Hl H]. apply list_eq. intros i. rewrite list_lookup_fmap. destruct (decide (i < n)%nat).
  - by rewrite H, (proj2 (lookup_seq 0 n i i)) by lia.
  - rewrite !lookup_ge_None_2; [done|rewrite length_seq; lia|lia].
Qed.

Lemma sum_of_squares v V : vrep n v V → foldl Rplus 0 ((λ x, x * x) <$> v) = cdot V V.
Proof using Type.
  intros ->%vrep_list. unfold cdot. clear a_rep A a. induction n as [|m IH]; [done|].
  rewrite seq_S, !fmap_app, foldl_app, IH. done.
Qed.

(** The residual of a column is orthogonal to the earlier ones. *)
Lemma residual_orth j Q T c : qr_state j Q T → (c < j)%nat →
  let d t := cdot (λ k, Q k t) (λ k, A k j) in
  cdot (λ k, A k j - psum j (λ t, d t * Q k t)) (λ k, Q k c) = 0.
Proof using Type.
  intros Hst Hc d. destruct (Rlt_dec s_tiny (T c c)) as [Hbig|Hsmall].
  - destruct (qr_unit _ _ _ Hst c Hc Hbig) as [Hone _]. unfold cdot at 1.
    rewrite (psum_ext n _ (λ k, A k j * Q k c - psum j (λ t, d t * (Q k t * Q k c)))).
    2: { intros k _. rewrite Rmult_minus_distr_r, <- psum_mul_r. f_equal. apply psum_ext. intros. lra. }
    rewrite psum_sub, psum_swap, (psum_one j c); [|done|].
    + rewrite psum_mul_l. fold (cdot (λ k, Q k c) (λ k, Q k c)). rewrite Hone.
      fold (cdot (λ k, A k j) (λ k, Q k c)). rewrite cdot_comm. fold (d c). lra.
    + intros t Ht Hne. rewrite psum_mul_l. fold (cdot (λ k, Q k t) (λ k, Q k c)).
      rewrite (qr_orth _ _ _ Hst t c) by done. lra.
  - apply cdot_zero. intros k Hk. by apply (qr_zero _ _ _ Hst c).
Qed.

(** Column [j] of R is new: the scalar products above the diagonal, the norm on it. *)
Record qr_new (j : nat) (Q T T2 : nat → nat → R) (norm : R) : Prop := mkNew {
  new_other : ∀ t c, c ≠ j → T2 t c = T t c;
  new_norm : T2 j j = norm;
  new_above : ∀ t, (t < j)%nat → T2 t j = cdot (λ k, Q k t) (λ k, A k j);
  new_below : ∀ t c, (t < n)%nat → (c < n)%nat → (S j ≤ c ∨ c < t)%nat → T2 t c = 0;
  new_nonneg : 0 <= norm
}.

Lemma new_norms j Q T T2 norm c : qr_state j Q T → qr_new j Q T T2 norm → (c < S j)%nat → 0 <= T2 c c.
Proof using Type.
  intros Hst Hnew Hc. destruct (decide (c = j)) as [->|].
  - rewrite (new_norm _ _ _ _ _ Hnew). apply (new_nonneg _ _ _ _ _ Hnew).
  - rewrite (new_other _ _ _ _ _ Hnew) by done. apply (qr_norm _ _ _ Hst). lia.
Qed.

(** A column of negligible norm is left at zero. *)
Lemma qr_extend_zero j Q T T2 norm : (j < n)%nat → qr_state j Q T → qr_new j Q T T2 norm → ¬ s_tiny < norm →
  qr_state (S j) Q T2.
Proof using Type.
  intros Hj Hst Hnew Hsmall. pose proof Hnew as [HT2 HTj HTd HTz Hn0].
  split; [|done|by intros c; eapply new_norms|..].
  - intros i c Hi Hc. apply (qr_later _ _ _ Hst); [done|lia].
  - intros c e Hc He Hne. destruct (decide (c = j)) as [->|Hcj].
    { rewrite cdot_comm. apply cdot_zero. intros k Hk. apply (qr_later _ _ _ Hst); lia. }
    destruct (decide (e = j)) as [->|Hej].
    { apply cdot_zero. intros k Hk. apply (qr_later _ _ _ Hst); lia. }
    apply (qr_orth _ _ _ Hst); lia.
  - intros c Hc Hcb. destruct (decide (c = j)) as [->|Hcj]; [rewrite HTj in Hcb; done|].
    rewrite HT2 in Hcb by done. destruct (qr_unit _ _ _ Hst c ltac:(lia) Hcb) as [Hone Hrec]. split; [done|].
    intros i Hi. rewrite Hrec by done. apply psum_ext. intros t Ht. by rewrite HT2.
  - intros c Hc Hcs i Hi. destruct (decide (c = j)) as [->|Hcj]; [apply (qr_later _ _ _ Hst); lia|].
    rewrite HT2 in Hcs by done. apply (qr_zero _ _ _ Hst c); [lia|done|done].
Qed.

(** The residual divided by its norm extends the orthonormal columns. *)
Lemma qr_extend_unit j Q T T2 norm :
  let V k := A k j - psum j (λ t, cdot (λ k, Q k t) (λ k, A k j) * Q k t) in
  (j < n)%nat → qr_state j Q T → qr_new j Q T T2 norm → norm = sqrt (cdot V V) → s_tiny < norm →
  qr_state (S j) (λ i c, if decide (c = j) then V i / norm else Q i c) T2.
Proof using Type.
  intros V Hj Hst Hnew Hnorm Hbig. pose proof Hnew as [HT2 HTj HTd HTz Hn0]. pose proof tiny_pos as Htiny.
  assert (0 <= cdot V V) as Hvv by (apply psum_nonneg; intros; nra).
  set (Q2 := λ i c, if decide (c = j) then V i / norm else Q i c).
  assert (∀ c, c ≠ j → ∀ k, Q2 k c = Q k c) as HQ2 by (intros c Hc k; unfold Q2; by rewrite decide_False).
  assert (∀ k, Q2 k j = V k * / norm) as HQj by (intros k; unfold Q2; by rewrite decide_True).
  assert (∀ g, cdot (λ k, Q2 k j) g = cdot V g * / norm) as Hdotj.
  { intros g. unfold cdot. rewrite <- psum_mul_r. apply psum_ext. intros k _. rewrite HQj. lra. }
  assert (∀ c, (c < j)%nat → cdot (λ k, Q2 k j) (λ k, Q k c) = 0) as Horth.
  { intros c Hc. rewrite Hdotj. unfold V. rewrite (residual_orth j Q T c Hst Hc). lra. }
  split; [|done|by intros c; eapply new_norms|..].
  - intros i c Hi Hc. rewrite HQ2 by lia. apply (qr_later _ _ _ Hst); [done|lia].
  - intros c e Hc He Hne. destruct (decide (c = j)) as [->|Hcj].
    + rewrite (cdot_ext _ (λ k, Q2 k j) _ (λ k, Q k e)) by (done || (intros; apply HQ2; lia)). apply Horth. lia.
    + rewrite (cdot_ext _ (λ k, Q k c) _ (λ k, Q2 k e)) by (done || (intros; apply HQ2; lia)).
      destruct (decide (e = j)) as [->|Hej]; [rewrite cdot_comm; apply Horth; lia|].
      rewrite (cdot_ext _ (λ k, Q k c) _ (λ k, Q k e)) by (done || (intros; apply HQ2; lia)).
      apply (qr_orth _ _ _ Hst); lia.
  - intros c Hc Hcb. destruct (decide (c = j)) as [->|Hcj]; split.
    + rewrite Hdotj, cdot_comm, Hdotj, Hnorm, Rmult_assoc, <- Rinv_mult, sqrt_sqrt by done. apply Rinv_r.
      intros H0. rewrite Hnorm, H0, sqrt_0 in Hbig. lra.
    + intros i Hi. rewrite (psum_cut (S j) n) by (lia || (intros t Ht; rewrite HTz by lia; lra)).
      simpl. rewrite HTj, HQj, (psum_ext j _ (λ t, cdot (λ k, Q k t) (λ k, A k j) * Q i t))
        by (intros t Ht; rewrite HQ2, HTd by lia; lra).
      unfold V. field. lra.
    + rewrite HT2 in Hcb by done. destruct (qr_unit _ _ _ Hst c ltac:(lia) Hcb) as [<- _].
      apply cdot_ext; intros; by apply HQ2.
    + rewrite HT2 in Hcb by done. destruct (qr_unit _ _ _ Hst c ltac:(lia) Hcb) as [_ Hrec].
      intros i Hi. rewrite Hrec by done. apply psum_ext. intros t Ht. rewrite HT2 by done.
      destruct (decide (t = j)) as [->|]; [|by rewrite HQ2]. rewrite (qr_upper _ _ _ Hst j c) by lia. lra.
  - intros c Hc Hcs i Hi. destruct (decide (c = j)) as [->|Hcj]; [rewrite HTj in Hcs; lra|].
    rewrite HQ2 by done. rewrite HT2 in Hcs by done. apply (qr_zero _ _ _ Hst c); [lia|done|done].
Qed.

Lemma qr_column_spec j qr : (j < n)%nat → qr_inv j qr → ends (qr_inv (S j)) (λ _, False) (qr_column n a qr j).
Proof using a_rep.
  intros Hj (Q & T & Hq & Hr & Hst). destruct qr as [q r]. cbn [fst snd] in *. unfold qr_column.
  rewrite (rmapM_seq _ (λ i, A i j)) by (intros i _ Hi; by rewrite (rep_rd n a A i j a_rep) by lia). cbn [rbind].
  assert (vrep n ((λ i, A i j) <$> seq 0 n) (λ k, A k j)) as Hv.
  { split; [by rewrite length_fmap, length_seq|]. intros i Hi. by rewrite list_lookup_fmap, (proj2 (lookup_seq 0 n i i)) by lia. }
  eapply ends_bind; [by apply (qr_project_spec j q r _ Q T)|]. intros [r1 v1] [Hr1 Hv1]. cbn [fst snd] in *.
  set (V k := A k j - psum j (λ t, cdot (λ k, Q k t) (λ k, A k j) * Q k t)) in *.
  cbn [s_sqrt s_add s_mul s_zero R_scalar]. rewrite (sum_of_squares v1 V Hv1). set (norm := sqrt (cdot V V)).
  destruct (rep_put (E := BackendError) n r1 _ j j norm Hr1 Hj Hj) as (r2 & -> & Hr2). cbn [rbind].
  set (T2 := upd _ j j norm) in Hr2.
  assert (qr_new j Q T T2 norm) as Hnew.
  { unfold T2, upd. split.
    - intros t c Hc. by rewrite !decide_False by tauto.
    - by rewrite decide_True.
    - intros t Ht. by rewrite decide_False, decide_True by lia.
    - intros t c Ht Hc Hor. rewrite !decide_False by lia. apply (qr_upper _ _ _ Hst); [done|done|lia].
    - apply sqrt_pos. }
  cbn [s_lt s_tiny R_scalar]. destruct (Rltb_spec (/ 10 ^ 12) norm) as [Hbig|Hsmall].
  - eapply ends_bind.
    + apply (ends_range (λ m q', rep n q' (λ i c, if decide (c = j ∧ i < m)%nat then V i / norm else Q i c))).
      * eapply rep_ext; [exact Hq|]. intros i c _ _. cbv beta. by rewrite decide_False by lia.
      * intros q' i Hi Hq'. rewrite (vrep_rd n v1 V) by done. cbn [rbind s_div R_scalar].
        destruct (rep_put (E := BackendError) n q' _ i j (V i / norm) Hq' Hi Hj) as (q2 & -> & Hq2).
        simpl. eapply rep_ext; [exact Hq2|]. intros i' c _ _. unfold upd.
        repeat case_decide; destruct_and?; subst; done || tauto || lia.
    + intros q2 Hq2. exists (λ i c, if decide (c = j) then V i / norm else Q i c), T2. cbn [fst snd].
      split; [|split; [done|by apply (qr_extend_unit j Q T T2 norm)]].
      eapply rep_ext; [exact Hq2|]. intros i c Hi _. cbv beta. repeat case_decide; tauto || done.
  - exists Q, T2. split; [done|]. split; [done|]. by apply (qr_extend_zero j Q T T2 norm).
Qed.

Lemma qr_spec : ends (qr_inv n) (λ _, False) (qr_loops n a).
Proof using a_rep.
  apply (ends_range qr_inv).
  - exists (λ _ _, 0), (λ _ _, 0). split; [apply rep_zero|]. split; [apply rep_zero|]. split; done || lia.
  - intros qr j. apply qr_column_spec.
Qed.
End qr.

(** ** The factorizations *)

(** A matrix with LU factors maps only 0 to 0. *)
Lemma factors_injective n A l u p L U x : lu_factors n A l u p L U →
  (∀ r, (r < n)%nat → psum n (λ j, A r j * x j) = 0) → ∀ i, (i < n)%nat → x i = 0.
Proof.
  intros HF HA. pose proof HF as (_ & _ & _ & Hprod & Hone & Hlow & _ & Hup & Hdiag).
  set (y := λ t, psum n (λ j, U t j * x j)).
  assert (∀ i, (i < n)%nat → psum n (λ t, L i t * y t) = 0) as HL.
  { intros i Hi. rewrite <- (HA (p !!! i)) by (by eapply perm_lt).
    rewrite (psum_ext n (λ j, A _ j * x j) (λ j, psum n (λ t, L i t * (U t j * x j)))).
    - rewrite psum_swap. apply psum_ext. intros t _. by rewrite psum_mul_l.
    - intros j Hj. rewrite Hprod, <- psum_mul_r by done. apply psum_ext. intros. lra. }
  assert (∀ i, (i < n)%nat → y i = 0) as Hy.
  { intros i. induction (lt_wf i) as [i _ IH]. intros Hi. specialize (HL i Hi).
    rewrite (psum_one n i), Hone in HL; [lra|done|done|].
    intros t Ht Hne. destruct (decide (t < i)%nat); [rewrite IH by lia; lra|rewrite Hlow by lia; lra]. }
  assert (∀ d i, (n - d ≤ i < n)%nat → x i = 0) as Hall; [|intros i Hi; apply (Hall n); lia].
  intros d. induction d as [|d IH]; intros i Hi; [lia|].
  destruct (decide (n - d ≤ i)%nat); [apply IH; lia|].
  pose proof (Hy i ltac:(lia)) as H0. unfold y in H0. rewrite (psum_one n i) in H0; [|lia|].
  - pose proof (Hdiag i ltac:(lia)). nra.
  - intros t Ht Hne. destruct (decide (t < i)%nat); [rewrite Hup by lia; lra|rewrite (IH t) by lia; lra].
Qed.

(** C35: over the real numbers, LU with partial pivoting never panics: it either refuses with
    the error of a singular matrix, and then A maps a vector with an entry 1 to one whose
    entries are all below 1e-12, or returns a permutation p, a unit lower triangular L
    with entries at most 1 in absolute value and an upper triangular U without a zero on
    its diagonal with PA = LU.  On these factors the two triangular solves return the
    two-sided inverse of A; so a singular matrix is always refused, and one that keeps
    every vector with an entry 1 at 1e-12 or more never is. *)
Theorem lu_inverse_correct n (a : list R) A : rep n a A →
  match lu_loops n a with
  | Ok (l, u, p) =>
      (∃ L U, lu_factors n A l u p L U) ∧
      (∀ x, (∀ r, (r < n)%nat → psum n (λ j, A r j * x j) = 0) → ∀ i, (i < n)%nat → x i = 0) ∧
      ∃ inv V, inverse_loops n l u p = Ok inv ∧ rep n inv V ∧
        (∀ r c, (r < n)%nat → (c < n)%nat → psum n (λ j, A r j * V j c) = kronecker r c) ∧
        (∀ r c, (r < n)%nat → (c < n)%nat → psum n (λ j, V r j * A j c) = kronecker r c)
  | Err e => e = shape_error n ∧ near_singular n A
  | Panic => False
  end.
Proof.
  intros Ha. pose proof (lu_spec n a A Ha) as H. destruct (lu_loops n a) as [[[l u] p]|e|]; [|exact H..].
  destruct H as (L & U & H). cbn [fst snd] in H.
  pose proof (λ x, factors_injective n A l u p L U x H) as Hinj.
  split; [by exists L, U|]. split; [exact Hinj|].
  pose proof (inverse_spec n A l u p L U H) as Hi. destruct (inverse_loops n l u p) as [inv|e|]; [|done..].
  destruct Hi as (V & HV & HAV). exists inv, V. split; [done|]. split; [done|]. split; [done|].
  intros r c Hr Hc. enough (psum n (λ j, V r j * A j c) - kronecker r c = 0) by lra.
  refine (Hinj (λ i, psum n (λ j, V i j * A j c) - kronecker i c) _ r Hr). intros s Hs. cbv beta.
  rewrite (psum_ext n _ (λ i, psum n (λ j, A s i * V i j * A j c) - A s i * kronecker i c)).
  2: { intros i _. rewrite (psum_ext n (λ j, A s i * V i j * A j c) (λ j, A s i * (V i j * A j c))) by (intros; lra). rewrite psum_mul_l. lra. }
  rewrite psum_sub, psum_swap.
  rewrite (psum_ext n _ (λ j, kronecker s j * A j c)).
  2: { intros j Hj. rewrite psum_mul_r. by rewrite HAV. }
  unfold kronecker. rewrite (psum_one n s), (psum_one n c); [|done| |done|].
  - rewrite !decide_True by done. lra.
  - intros i _ Hne. rewrite decide_False by done. lra.
  - intros i _ Hne. rewrite decide_False by congruence. lra.
Qed.

(** The loops on a 1x1 matrix, and on a matrix that is not positive definite *)
Lemma lu_one : lu_loops 1 [2] = Ok ([1], [2], [0%nat]).
Proof.
  assert (s_lt (s_abs 2) s_tiny = false) as Ht.
  { cbn -[s_tiny]. destruct (Rltb_spec (Rabs 2) s_tiny) as [Hlt|]; [|done]. rewrite Rabs_right in Hlt by lra. cbn in Hlt. lra. }
  unfold lu_loops. cbn -[s_lt s_abs s_tiny]. by rewrite Ht.
Qed.

Lemma lu_inverse_correct_witness :
  lu_loops 1 [2] = Ok ([1], [2], [0%nat]) ∧
  ∃ v, inverse_loops 1 [1] [2] [0%nat] = Ok [v] ∧ 2 * v = 1.
Proof.
  split; [apply lu_one|].
  pose proof (lu_inverse_correct 1 [2] (λ _ _, 2)) as H. rewrite lu_one in H.
  destruct H as (_ & _ & inv & V & Hinv & [Hlen HV] & HAV & _).
  { split; [done|]. intros [|i] [|j] Hi Hj; [done|lia..]. }
  destruct inv as [|v []]; [done| |done]. exists v. split; [done|].
  specialize (HV 0%nat 0%nat ltac:(lia) ltac:(lia)). simpl in HV. injection HV as ->.
  specialize (HAV 0%nat 0%nat ltac:(lia) ltac:(lia)). unfold kronecker in HAV. simpl in HAV. lra.
Defined.

(** On a symmetric matrix the Cholesky kernel decides positive definiteness:
    it returns a lower triangular L with a positive diagonal and A = LLᵀ exactly
    when A is positive definite, and the error otherwise; it never panics. *)
Theorem cholesky_correct n (a : list R) A : rep n a A → symmetric n A →
  match cholesky_loops n a with
  | Ok l => posdef n A ∧ ∃ L, rep n l L ∧
      (∀ i j, (i < j < n)%nat → L i j = 0) ∧ (∀ i, (i < n)%nat → 0 < L i i) ∧
      ∀ i j, (i < n)%nat → (j < n)%nat → psum n (λ k, L i k * L j k) = A i j
  | Err e => e = shape_error n ∧ ¬ posdef n A
  | Panic => False
  end.
Proof.
  intros Ha Hs. pose proof (cholesky_spec n a A Ha) as H. destruct (cholesky_loops n a) as [l|e|]; [|destruct H; auto|done].
  destruct H as (L & HL & Hz & Hd & Heq).
  assert (∀ i j, (i < n)%nat → (j < n)%nat → psum n (λ k, L i k * L j k) = A i j) as Hall.
  { intros i j Hi Hj. destruct (decide (j ≤ i)%nat); [apply Heq; lia|].
    rewrite Hs, <- Heq by lia. apply psum_ext. intros. lra. }
  split; [by eapply factor_posdef|]. by exists L.
Qed.

Lemma cholesky_correct_witness :
  (∃ l, cholesky_loops 1 [4] = Ok [l] ∧ l * l = 4) ∧ cholesky_loops 1 [-1] = Err (shape_error 1).
Proof.
  assert (∀ v, rep 1 [v] (λ _ _, v)) as Hr.
  { intros v. split; [done|]. intros [|i] [|j] Hi Hj; [done|lia..]. }
  assert (∀ v, posdef 1 (λ _ _, v) ↔ 0 < v) as Hp.
  { intros v. unfold posdef, qform. split.
    - intros H. specialize (H (λ _, 1)). simpl in H. assert (0 < 0 + (0 + 1 * v * 1)); [|lra].
      apply H. exists 0%nat. split; [lia|lra].
    - intros H x (i & Hi & Hx). assert (i = 0%nat) as -> by lia. simpl. pose proof (Rsqr_pos_lt _ Hx) as Hsq. unfold Rsqr in Hsq. nra. }
  split.
  - pose proof (cholesky_correct 1 [4] (λ _ _, 4) (Hr 4) ltac:(done)) as H.
    destruct (cholesky_loops 1 [4]) as [l|e|]; [|exfalso; apply H, Hp; lra|done].
    destruct H as (_ & L & [Hlen HL] & _ & _ & Heq). destruct l as [|v []]; [done| |done]. exists v. split; [done|].
    specialize (HL 0%nat 0%nat ltac:(lia) ltac:(lia)). simpl in HL. injection HL as ->.
    specialize (Heq 0%nat 0%nat ltac:(lia) ltac:(lia)). simpl in Heq. lra.
  - pose proof (cholesky_correct 1 [-1] (λ _ _, -1) (Hr (-1)) ltac:(done)) as H.
    destruct (cholesky_loops 1 [-1]) as [l|e|]; [|by destruct H as [-> _]|done].
    destruct H as [H _]. apply Hp in H. lra.
Defined.

(** Gram-Schmidt always returns; R is upper triangular with a diagonal that is
    not negative and distinct columns of Q are orthogonal; a column whose residual
    is longer than 1e-12 has norm 1 in Q and is its column of QR, the others are
    zero in Q.  So Q has orthonormal columns and A = QR when no residual is that
    small. *)
Theorem qr_correct n (a : list R) A : rep n a A →
  ∃ q r Q T, qr_loops n a = Ok (q, r) ∧ rep n q Q ∧ rep n r T ∧
    (∀ t c, (c < t < n)%nat → T t c = 0) ∧ (∀ c, (c < n)%nat → 0 <= T c c) ∧
    (∀ c d, (c < n)%nat → (d < n)%nat → c ≠ d → cdot n (λ k, Q k c) (λ k, Q k d) = 0) ∧
    (∀ c, (c < n)%nat → s_tiny < T c c →
       cdot n (λ k, Q k c) (λ k, Q k c) = 1 ∧ ∀ i, (i < n)%nat → A i c = psum n (λ t, Q i t * T t c)) ∧
    (∀ c i, (c < n)%nat → (i < n)%nat → T c c <= s_tiny → Q i c = 0).
Proof.
  intros Ha. pose proof (qr_spec n a A Ha) as H. destruct (qr_loops n a) as [[q r]|e|]; [|done..].
  destruct H as (Q & T & Hq & Hr & [_ Hup Hnorm Horth Hunit Hzero]). exists q, r, Q, T.
  split; [done|]. split; [done|]. split; [done|]. split; [intros; apply Hup; lia|]. split; [done|].
  split; [done|]. split; [done|]. intros c i Hc Hi Ht. apply (Hzero c); [done|lra|done].
Qed.

Lemma qr_correct_witness : ∃ q r, qr_loops 2 [3; 0; 4; 5] = Ok (q, r) ∧ length q = 4%nat.
Proof.
  destruct (qr_correct 2 [3; 0; 4; 5] (λ i j, default 0 ([3; 0; 4; 5] !! (i * 2 + j)%nat))) as (q & r & Q & T & H & [Hlen _] & _).
  - split; [done|]. intros [|[|i]] [|[|j]] Hi Hj; done || lia.
  - exists q, r. split; [exact H|exact Hlen].
Defined.
