(* ===== verification/Fusion.v ===== *)
(** * Operator fusion: patterns, matcher and dispatcher (crates/rustorch-fusion/src:
      pattern.rs, matcher.rs, dispatcher.rs)

    A trace of operations, the chains that the pattern library looks for, the scan
    that emits non-overlapping matches, longest pattern first, and the registry with
    its process-wide flag.  The theorem says what the scan promises: real chains, no
    node twice, and every candidate chain is either emitted or blocked by an emitted
    one at least as long. *)

From Stdlib Require Import ZArith Lia Sorted.
From stdpp Require Import base list strings sorting.
From S2P Require Import Prelude Loops.

Open Scope nat_scope.

(** ** Patterns (pattern.rs) *)

(** [enum OpKind] *)
Inductive OpKind :=
  | Matmul | BiasAdd | Relu | Gelu | Silu | LayerNorm | RmsNorm | Linear
  | Add | Mul | Sub | Div | Sigmoid | Tanh | AnyOp.

#[export] Instance OpKind_eq_dec : EqDecision OpKind.
Proof. solve_decision. Defined.

(** [struct Pattern] *)
Record Pattern := mkPattern { label : string; chain : list OpKind }.

Definition pattern_len (p : Pattern) : nat := length (chain p).
Definition pattern_is_empty (p : Pattern) : bool := match chain p with [] => true | _ => false end.

Definition default_library : list Pattern := [
  mkPattern "matmul+bias" [Matmul; BiasAdd];
  mkPattern "matmul+bias+relu" [Matmul; BiasAdd; Relu];
  mkPattern "matmul+bias+gelu" [Matmul; BiasAdd; Gelu];
  mkPattern "matmul+bias+silu" [Matmul; BiasAdd; Silu];
  mkPattern "linear+relu" [Linear; Relu];
  mkPattern "layernorm+linear" [LayerNorm; Linear];
  mkPattern "rmsnorm+linear" [RmsNorm; Linear];
  mkPattern "residual_add" [Add];
  mkPattern "add+mul" [Add; Mul];
  mkPattern "add+mul+sigmoid" [Add; Mul; Sigmoid];
  mkPattern "sub+mul" [Sub; Mul];
  mkPattern "mul+tanh" [Mul; Tanh];
  mkPattern "div+add+relu" [Div; Add; Relu];
  mkPattern "matmul+bias+silu+mul" [Matmul; BiasAdd; Silu; Mul];
  mkPattern "layernorm+matmul+bias" [LayerNorm; Matmul; BiasAdd]].

(** ** The matcher (matcher.rs) *)

(** [struct TraceNode], [struct Match] *)
Record TraceNode := mkNode { op_kind : OpKind; inputs : list nat }.
Record Match := mkMatch { pattern_label : string; node_indices : list nat }.

Definition op_kind_matches (actual expected : OpKind) : bool :=
  bool_decide (expected = AnyOp) || bool_decide (actual = expected).

(** [trace.iter().enumerate().find(..)]: the first node whose primary input is
    [current] *)
Fixpoint find_successor (trace : list TraceNode) (i current : nat) : option nat :=
  match trace with
  | [] => None
  | n :: trace => if bool_decide (head (inputs n) = Some current) then Some i else find_successor trace (S i) current
  end.

(** The loop over the links of the chain; [indices] holds those matched so far. *)
Fixpoint match_links (trace : list TraceNode) (current : nat) (links : list OpKind) (indices : list nat) : option (list nat) :=
  match links with
  | [] => Some indices
  | expected :: links =>
      node ← trace !! current;
      if negb (op_kind_matches (op_kind node) expected) then None
      else
        let indices := indices ++ [current] in
        match links with
        | [] => Some indices
        | _ => next ← find_successor trace 0 current; match_links trace next links indices
        end
  end.

Definition try_match_chain (trace : list TraceNode) (start : nat) (links : list OpKind) : option (list nat) :=
  match_links trace start links [].

(** [chain.iter().any(|&i| covered[i])], which stops at the first covered node *)
Fixpoint any_covered {E} (covered : list bool) (l : list nat) : res E bool :=
  match l with
  | [] => Ok false
  | i :: l => let? c := rd covered i in if c then Ok true else any_covered covered l
  end.

(** The body of the loop over the start nodes *)
Definition scan_start {E} (trace : list TraceNode) (p : Pattern) (st : list Match * list bool) (start : nat)
    : res E (list Match * list bool) :=
  let? c := rd st.2 start in
  if c then Ok st
  else match try_match_chain trace start (chain p) with
    | None => Ok st
    | Some l =>
        let? overlap := any_covered st.2 l in
        if overlap then Ok st
        else
          let? covered := rfold (λ covered i, put covered i true) st.2 l in
          Ok (st.1 ++ [mkMatch (label p) l], covered)
    end.

Definition scan_pattern {E} (trace : list TraceNode) (st : list Match * list bool) (p : Pattern)
    : res E (list Match * list bool) :=
  if pattern_is_empty p then Ok st else for_range (length trace) (scan_start trace p) st.

(** [sort_by_key(|b| Reverse(b.len()))] and [sort_by_key(|m| m.node_indices[0])] *)
Definition longer_first (p q : Pattern) : comparison := Nat.compare (pattern_len q) (pattern_len p).
Definition first_node_cmp (m n : Match) : comparison :=
  Nat.compare (hd 0 (node_indices m)) (hd 0 (node_indices n)).

Definition find_matches {E} (trace : list TraceNode) (patterns : list Pattern) : res E (list Match) :=
  match trace, patterns with
  | [], _ | _, [] => Ok []
  | _, _ =>
      let? st := rfold (scan_pattern trace) ([], replicate (length trace) false) (sort_by longer_first patterns) in
      (* the key of a match without nodes panics *)
      if forallb (λ m, match node_indices m with [] => false | _ => true end) st.1
      then Ok (sort_by first_node_cmp st.1) else Panic
  end.

(** ** The dispatcher (dispatcher.rs)

    [NO_FUSE] is a boolean that is passed on; a guard holds the value it found. *)

Inductive FuseDecision := Apply | Skip.

(** [NoFuseGuard::enter]: the guard and the flag *)
Definition guard_enter (no_fuse : bool) : bool * bool := (no_fuse, true).
(** Dropping the guard *)
Definition guard_drop (prev no_fuse : bool) : bool := prev.

(** [struct FusionRegistry] *)
Definition FusionRegistry := list Pattern.
Definition register (r : FusionRegistry) (p : Pattern) : FusionRegistry := r ++ [p].
Definition decide_fuse (no_fuse : bool) (r : FusionRegistry) (pattern_label : string) : FuseDecision :=
  if no_fuse then Skip else if existsb (λ p, bool_decide (label p = pattern_label)) r then Apply else Skip.

Example chain_of_three :
  find_matches (E := unit) [mkNode Matmul []; mkNode BiasAdd [0]; mkNode Relu [1]] default_library =
  Ok [mkMatch "matmul+bias+relu" [0; 1; 2]].
Proof. vm_compute. reflexivity. Qed.

(** The library has no label twice. *)
Example library_labels : NoDup (label <$> default_library).
Proof. by apply (bool_decide_unpack _). Qed.

(** Only the first consumer of a node is followed: a bias that comes second is
    missed. *)
Lemma second_consumer_missed :
  find_matches (E := unit) [mkNode Matmul []; mkNode Tanh [0]; mkNode BiasAdd [0]] default_library = Ok [].
Proof. vm_compute. reflexivity. Qed.

(** The other consumers of an inner node do not prevent a match. *)
Lemma shared_result_fused :
  find_matches (E := unit) [mkNode Matmul []; mkNode BiasAdd [0]; mkNode Tanh [0]] default_library =
  Ok [mkMatch "matmul+bias" [0; 1]].
Proof. vm_compute. reflexivity. Qed.

(** ** What the matcher promises *)

(** The nodes [l] carry the operations of [links], and each takes the one before as
    its primary input. *)
Definition chain_of (trace : list TraceNode) (links : list OpKind) (l : list nat) : Prop :=
  Forall2 (λ i e, ∃ node, trace !! i = Some node ∧ op_kind_matches (op_kind node) e = true) l links ∧
  ∀ k i j, l !! k = Some i → l !! S k = Some j → ∃ node, trace !! j = Some node ∧ head (inputs node) = Some i.

Lemma find_successor_spec trace i current j : find_successor trace i current = Some j →
  i ≤ j ∧ ∃ node, trace !! (j - i) = Some node ∧ head (inputs node) = Some current.
Proof.
  revert i. induction trace as [|n trace IH]; intros i; [done|]. simpl. case_bool_decide as Hn.
  - intros [= <-]. split; [done|]. exists n. by rewrite Nat.sub_diag.
  - intros (Hle & node & Hl & Hh)%IH. split; [lia|]. exists node. split; [|done].
    by replace (j - i) with (S (j - S i)) by lia.
Qed.

Lemma match_links_chain trace links current acc l : links ≠ [] → match_links trace current links acc = Some l →
  ∃ l', l = acc ++ current :: l' ∧ chain_of trace links (current :: l').
Proof.
  revert current acc. induction links as [|e links IH]; intros current acc Hne H; [done|]. cbn [match_links] in H.
  destruct (trace !! current) as [node|] eqn:Hnode; [|done]. simpl in H.
  destruct (op_kind_matches _ _) eqn:Hm; [|done]. simpl in H. destruct links as [|e' links].
  - injection H as <-. exists []. split; [done|]. split; [|by intros [|k] i j].
    repeat constructor. by exists node.
  - destruct (find_successor trace 0 current) as [next|] eqn:Hs; [|done]. simpl in H.
    apply IH in H as (l' & -> & Hf & Hc); [|done]. exists (next :: l'). split; [by rewrite <- app_assoc|].
    apply find_successor_spec in Hs as (_ & n' & Hn' & Hh). rewrite Nat.sub_0_r in Hn'. split.
    + constructor; [by exists node|done].
    + intros [|k] i j Hi Hj; [|by apply (Hc k)]. simpl in *. injection Hi as <-. injection Hj as <-. by exists n'.
Qed.

Lemma try_match_chain_spec trace start links l : links ≠ [] → try_match_chain trace start links = Some l →
  chain_of trace links l ∧ head l = Some start ∧ start ∈ l ∧ length l = length links ∧ Forall (λ i, i < length trace) l.
Proof.
  intros Hne (l' & -> & Hf & Hc)%match_links_chain; [|done]. simpl. split; [done|]. split; [done|].
  split; [by left|]. split; [by apply Forall2_length in Hf|].
  apply Forall_forall. intros i (k & Hk)%list_elem_of_lookup. destruct (Forall2_lookup_l _ _ _ _ _ Hf Hk) as (e & _ & node & Hn & _).
  by eapply lookup_lt_Some.
Qed.

(** Two lists of nodes share one. *)
Definition share (l k : list nat) : Prop := ∃ i, i ∈ l ∧ i ∈ k.

Section scan.
Context (trace : list TraceNode) (patterns : list Pattern).

(** The state of the scan; [bound] is below the length of every match, and [done]
    holds of the pairs of a pattern and a start that were tried. *)
Record scan_inv (done : Pattern → nat → Prop) (bound : nat) (st : list Match * list bool) : Prop := mkScan {
  si_len : length st.2 = length trace;
  si_covered : ∀ i, st.2 !! i = Some true ↔ ∃ m, m ∈ st.1 ∧ i ∈ node_indices m;
  si_real : ∀ m, m ∈ st.1 → ∃ p start, p ∈ patterns ∧ chain p ≠ [] ∧ label p = pattern_label m ∧
    try_match_chain trace start (chain p) = Some (node_indices m);
  si_long : ∀ m, m ∈ st.1 → bound ≤ length (node_indices m);
  si_apart : ∀ a b m n, st.1 !! a = Some m → st.1 !! b = Some n → a ≠ b → ¬ share (node_indices m) (node_indices n);
  si_blocked : ∀ p start l, done p start → try_match_chain trace start (chain p) = Some l →
    ∃ m, m ∈ st.1 ∧ share l (node_indices m) ∧ length l ≤ length (node_indices m)
}.

Lemma any_covered_run {E} covered l : Forall (λ i, i < length covered) l →
  ∃ b, any_covered (E := E) covered l = Ok b ∧ (b = true ↔ ∃ i, i ∈ l ∧ covered !! i = Some true).
Proof using Type.
  induction 1 as [|i l Hi Hl IH]; [exists false; split; [done|split; [done|intros (? & []%elem_of_nil & _)]]|].
  destruct IH as (b & Hb & Hiff). destruct (lookup_lt_is_Some_2 _ _ Hi) as [c Hc]. cbn [any_covered]. unfold rd. rewrite Hc.
  cbn [unwrap_opt rbind]. destruct c.
  - exists true. split; [done|]. split; [|done]. intros _. exists i. split; [by left|done].
  - exists b. split; [done|]. rewrite Hiff. split; intros (j & Hj & Ht); exists j; (split; [|done]).
    + by right.
    + apply elem_of_cons in Hj as [->|]; [congruence|done].
Qed.

Lemma cover_run {E} covered l : Forall (λ i, i < length covered) l →
  ∃ covered', rfold (E := E) (λ covered i, put covered i true) covered l = Ok covered' ∧ length covered' = length covered ∧
    ∀ i, covered' !! i = Some true ↔ covered !! i = Some true ∨ i ∈ l.
Proof using Type.
  revert covered. induction l as [|i l IH]; intros covered Hl.
  { exists covered. split; [done|]. split; [done|]. intros i. split; [by left|]. by intros [|[]%elem_of_nil]. }
  apply Forall_cons in Hl as [Hi Hl]. cbn [rfold]. unfold put at 1. rewrite (proj2 (Nat.ltb_lt _ _) Hi). cbn [rbind].
  destruct (IH (<[i:=true]> covered)) as (c' & -> & Hlen & Hc'); [by rewrite length_insert|].
  exists c'. rewrite Hlen, length_insert. split; [done|]. split; [done|]. intros j. rewrite Hc', elem_of_cons.
  destruct (decide (j = i)) as [->|Hj]; [rewrite list_lookup_insert_eq by done; naive_solver|].
  rewrite list_lookup_insert_ne by done. naive_solver.
Qed.

(** One start of one pattern *)
Lemma scan_start_inv {E} done_ bound p start st : p ∈ patterns → chain p ≠ [] → bound = pattern_len p → start < length trace →
  scan_inv done_ bound st →
  ends (scan_inv (λ q s, done_ q s ∨ q = p ∧ s = start) bound) (λ _ : E, False) (scan_start trace p st start).
Proof using Type.
  intros Hp Hne -> Hstart [Hlen Hcov Hreal Hlong Hapart Hblock]. unfold scan_start.
  assert (∀ l, try_match_chain trace start (chain p) = Some l →
    (∃ i, i ∈ l ∧ st.2 !! i = Some true) → scan_inv (λ q s, done_ q s ∨ q = p ∧ s = start) (pattern_len p) st) as Hskip.
  { intros l Hl (i & Hi & Hc). destruct (proj1 (Hcov i) Hc) as (m & Hm & Him). split; try done.
    intros q s l' [Hd|[-> ->]] Hl'; [by apply (Hblock q s)|]. rewrite Hl in Hl'. injection Hl' as <-.
    exists m. split; [done|]. split; [by exists i|]. apply try_match_chain_spec in Hl as (_ & _ & _ & -> & _); [by apply Hlong|done]. }
  assert (try_match_chain trace start (chain p) = None → scan_inv (λ q s, done_ q s ∨ q = p ∧ s = start) (pattern_len p) st) as Hnone.
  { intros Hn. split; try done. intros q s l [Hd|[-> ->]] Hl; [by apply (Hblock q s)|congruence]. }
  destruct (lookup_lt_is_Some_2 st.2 start ltac:(by rewrite Hlen)) as [c Hc]. unfold rd. rewrite Hc. cbn [unwrap_opt rbind].
  destruct (try_match_chain trace start (chain p)) as [l|] eqn:Hl; [|destruct c; cbn [ends]; by apply Hnone].
  pose proof (try_match_chain_spec _ _ _ _ Hne Hl) as (_ & _ & Hin & Hll & Hbound).
  destruct c; [cbn [ends]; by apply (Hskip l); [|exists start]|].
  destruct (any_covered_run (E := E) st.2 l) as (b & -> & Hb); [by rewrite Hlen|]. cbn [rbind].
  destruct b; [cbn [ends]; apply (Hskip l); [done|by apply Hb]|].
  destruct (cover_run (E := E) st.2 l) as (c' & -> & Hlen' & Hc'); [by rewrite Hlen|]. cbn [rbind ends].
  split; cbn [fst snd]; [by rewrite Hlen'|..].
  - intros i. rewrite Hc', Hcov. split.
    + intros [(m & Hm & Hi)|Hi]; [exists m; split; [apply elem_of_app; by left|done]|].
      eexists. split; [apply elem_of_app; right; by left|done].
    + intros (m & [Hm|Hm%list_elem_of_singleton]%elem_of_app & Hi); [left; by exists m|right; by subst].
  - intros m [Hm|Hm%list_elem_of_singleton]%elem_of_app; [by apply Hreal|subst]. by exists p, start.
  - intros m [Hm|Hm%list_elem_of_singleton]%elem_of_app; [by apply Hlong|subst]. cbn [node_indices]. by rewrite Hll.
  - assert (∀ a m, st.1 !! a = Some m → ¬ share (node_indices m) l) as Hnew.
    { intros a m Ha (i & Hi & Hil). assert (false = true) as [=]. apply Hb. exists i. split; [done|]. apply Hcov. exists m.
      split; [by eapply list_elem_of_lookup_2|done]. }
    intros a b m n [Ha|(Hla & Ha)]%lookup_app_Some [Hbn|(Hlb & Hbn)]%lookup_app_Some Hab.
    + by apply (Hapart a b).
    + apply list_lookup_singleton_Some in Hbn as [_ <-]. by apply (Hnew a).
    + apply list_lookup_singleton_Some in Ha as [_ <-]. intros (i & Hi & Hin'). apply (Hnew b n Hbn). by exists i.
    + apply list_lookup_singleton_Some in Ha as [Ha _], Hbn as [Hbn _]. lia.
  - intros q s l' [Hd|[-> ->]] Hl'.
    + destruct (Hblock q s l' Hd Hl') as (m & Hm & Hsh). exists m. split; [apply elem_of_app; by left|done].
    + rewrite Hl in Hl'. injection Hl' as <-. eexists. split; [apply elem_of_app; right; by left|]. cbn [node_indices].
      split; [by exists start|done].
Qed.
End scan.

Section run.
Context (trace : list TraceNode) (patterns : list Pattern).

Lemma scan_inv_weaken done_ done' bound bound' st : (∀ p s, done' p s → done_ p s) → bound' ≤ bound →
  scan_inv trace patterns done_ bound st → scan_inv trace patterns done' bound' st.
Proof using Type.
  intros Hd Hb [Hlen Hcov Hreal Hlong Hapart Hblock]. split; try done.
  - intros m Hm. specialize (Hlong m Hm). lia.
  - intros p s l Hps. by apply Hblock, Hd.
Qed.

(** The starts tried *)
Definition tried (ps : list Pattern) (p : Pattern) (start : nat) : Prop := p ∈ ps ∧ chain p ≠ [].

Lemma scan_pattern_inv {E} ps p st : p ∈ patterns →
  scan_inv trace patterns (tried ps) (pattern_len p) st →
  ends (scan_inv trace patterns (tried (ps ++ [p])) (pattern_len p)) (λ _ : E, False) (scan_pattern trace st p).
Proof using Type.
  intros Hp Hinv. unfold scan_pattern, pattern_is_empty. destruct (chain p) as [|e links] eqn:Hc.
  { cbn [ends]. eapply scan_inv_weaken; [|done|done]. intros q s [Hq Hne]. split; [|done].
    apply elem_of_app in Hq as [Hq|Hq%list_elem_of_singleton]; [done|congruence]. }
  assert (chain p ≠ []) as Hne by (by rewrite Hc).
  eapply (ends_impl _ (scan_inv trace patterns (λ q s, tried ps q s ∨ q = p ∧ s < length trace) (pattern_len p))).
  - apply (ends_range (λ k, scan_inv trace patterns (λ q s, tried ps q s ∨ q = p ∧ s < k) (pattern_len p))).
    + eapply scan_inv_weaken; [|done|done]. intros q s [Hq|[_ Hq]]; [done|lia].
    + intros st' i Hi Hst'.
      eapply ends_impl; [by apply (scan_start_inv trace patterns _ (pattern_len p) p i st' Hp Hne eq_refl Hi Hst')|].
      intros st2 H2. eapply scan_inv_weaken; [|done|exact H2]. intros q s [Hq|[-> Hs]]; [by left; left|].
      destruct (decide (s = i)) as [->|]; [by right|]. left. right. split; [done|lia].
  - intros st' [Hlen Hcov Hreal Hlong Hapart Hblock]. split; try done. intros q s l [Hq Hqne] Hl.
    apply elem_of_app in Hq as [Hq|Hq%list_elem_of_singleton]; [apply (Hblock q s); [by left|done]|]. subst q.
    apply (Hblock p s); [|done]. right. split; [done|].
    destruct (try_match_chain_spec _ _ _ _ Hne Hl) as (_ & _ & Hin & _ & Hb). rewrite Forall_forall in Hb. by apply Hb.
Qed.

Lemma scan_all {E} ps qs st bound : StronglySorted (λ p q, longer_first p q ≠ Gt) qs → (∀ q, q ∈ qs → q ∈ patterns) →
  (∀ q, q ∈ qs → pattern_len q ≤ bound) → scan_inv trace patterns (tried ps) bound st →
  ends (λ st', ∃ bound', scan_inv trace patterns (tried (ps ++ qs)) bound' st') (λ _ : E, False) (rfold (scan_pattern trace) st qs).
Proof using Type.
  revert ps st bound. induction qs as [|q qs IH]; intros ps st bound Hs Hin Hb Hinv.
  { exists bound. by rewrite app_nil_r. }
  apply StronglySorted_inv in Hs as [Hs Hhd]. cbn [rfold].
  eapply ends_bind; [apply (scan_pattern_inv ps q)|].
  - apply Hin. by left.
  - eapply scan_inv_weaken; [done| |exact Hinv]. apply Hb. by left.
  - intros st' Hst'. cbv beta in Hst'. rewrite cons_middle, app_assoc. apply (IH _ _ (pattern_len q)); [done| | |done].
    + intros r Hr. apply Hin. by right.
    + intros r Hr. rewrite Forall_forall in Hhd. specialize (Hhd r Hr). unfold longer_first in Hhd.
      destruct (Nat.compare_spec (pattern_len r) (pattern_len q)); lia || done.
Qed.
End run.

Lemma sorted_weaken {A} (P Q : relation A) l : (∀ x y, P x y → Q x y) → StronglySorted P l → StronglySorted Q l.
Proof. intros H. induction 1 as [|x l Hl IH Hx]; constructor; [done|]. eapply Forall_impl; [done|]. intros y. apply H. Qed.

Lemma longer_first_lex p q : longer_first p q = lex [(- Z.of_nat (pattern_len p))%Z] [(- Z.of_nat (pattern_len q))%Z].
Proof.
  unfold longer_first. simpl. destruct (Nat.compare_spec (pattern_len q) (pattern_len p)) as [->|H|H].
  - by rewrite Z.compare_refl.
  - by rewrite (proj2 (Z.compare_lt_iff _ _)) by lia.
  - by rewrite (proj2 (Z.compare_gt_iff _ _)) by lia.
Qed.

Lemma first_node_lex m n : first_node_cmp m n = lex [Z.of_nat (hd 0 (node_indices m))] [Z.of_nat (hd 0 (node_indices n))].
Proof.
  unfold first_node_cmp. simpl. destruct (Nat.compare_spec (hd 0 (node_indices m)) (hd 0 (node_indices n))) as [->|H|H].
  - by rewrite Z.compare_refl.
  - by rewrite (proj2 (Z.compare_lt_iff _ _)) by lia.
  - by rewrite (proj2 (Z.compare_gt_iff _ _)) by lia.
Qed.

(** C26: The fusion matcher, for every trace and pattern list: the scan returns; the
    matches come in the order of their first nodes; each is a chain of its pattern
    (the operations in order, every node taking the one before as its primary
    input); no two share a node; and every chain that the matcher can follow from any
    start, for any pattern, is emitted or shares a node with an emitted match at
    least as long. *)
Theorem find_matches_correct {E} trace patterns : ∃ ms, find_matches (E := E) trace patterns = Ok ms ∧
  StronglySorted (λ m n, hd 0 (node_indices m) ≤ hd 0 (node_indices n)) ms ∧
  (∀ m, m ∈ ms → ∃ p, p ∈ patterns ∧ label p = pattern_label m ∧ chain p ≠ [] ∧ chain_of trace (chain p) (node_indices m)) ∧
  (∀ a b m n, ms !! a = Some m → ms !! b = Some n → a ≠ b → ¬ share (node_indices m) (node_indices n)) ∧
  (∀ p start l, p ∈ patterns → chain p ≠ [] → try_match_chain trace start (chain p) = Some l →
    ∃ m, m ∈ ms ∧ share l (node_indices m) ∧ length l ≤ length (node_indices m)).
Proof.
  unfold find_matches. destruct trace as [|t0 tr].
  { exists []. split; [done|]. split; [constructor|]. split; [by intros m ?%elem_of_nil|]. split; [done|].
    intros p start l _ Hne Hl. pose proof (try_match_chain_spec _ _ _ _ Hne Hl) as (_ & _ & Hin & _ & Hb).
    rewrite Forall_forall in Hb. specialize (Hb _ Hin). simpl in Hb. lia. }
  destruct patterns as [|p0 ps].
  { exists []. split; [done|]. split; [constructor|]. split; [by intros m ?%elem_of_nil|]. split; [done|].
    by intros p start l ?%elem_of_nil. }
  set (trace := t0 :: tr). set (patterns := p0 :: ps).
  pose proof (sort_by_perm longer_first patterns) as Hperm.
  pose proof (scan_all (E := E) trace patterns [] (sort_by longer_first patterns) ([], replicate (length trace) false)
    (max_list (pattern_len <$> patterns))) as H. simpl app in H.
  assert (ends (λ st', ∃ bound', scan_inv trace patterns (tried (sort_by longer_first patterns)) bound' st') (λ _ : E, False)
    (rfold (scan_pattern trace) ([], replicate (length trace) false) (sort_by longer_first patterns))) as Hend.
  { apply H.
    - apply (sort_by_sorted _ (λ p, [(- Z.of_nat (pattern_len p))%Z])); [apply longer_first_lex|done].
    - intros q Hq. by rewrite Hperm in Hq.
    - intros q Hq. rewrite Hperm in Hq. apply max_list_elem_of_le, list_elem_of_fmap. by exists q.
    - split; cbn [fst snd]; try (by intros m ?%elem_of_nil); [apply length_replicate| |done|].
      + intros i. split; [|by intros (m & ?%elem_of_nil & _)]. by intros [[=] _]%lookup_replicate.
      + by intros p s l [?%elem_of_nil _]. }
  clear H. destruct (rfold _ _ _) as [st|e|]; [|done..]. destruct Hend as (bound & [Hlen Hcov Hreal Hlong Hapart Hblock]).
  cbn [rbind]. pose proof (sort_by_perm first_node_cmp st.1) as Hps.
  rewrite (proj2 (forallb_forall _ _)).
  2: { intros m Hm%list_elem_of_In. destruct (Hreal m Hm) as (p & start & _ & Hne & _ & Hl).
       apply try_match_chain_spec in Hl as (_ & _ & Hin & _); [|done]. destruct (node_indices m); [by apply elem_of_nil in Hin|done]. }
  exists (sort_by first_node_cmp st.1). split; [done|]. split; [|split; [|split]].
  - eapply sorted_weaken; [|apply (sort_by_sorted _ (λ m, [Z.of_nat (hd 0 (node_indices m))])); [apply first_node_lex|done]].
    intros m n. unfold first_node_cmp. by rewrite Nat.compare_le_iff.
  - intros m Hm. rewrite Hps in Hm. destruct (Hreal m Hm) as (p & start & Hp & Hne & Hlab & Hl). exists p.
    split; [done|]. split; [done|]. split; [done|]. by apply try_match_chain_spec in Hl as (? & _).
  - apply Permutation_inj in Hps as [_ (f & Hf & Hlook)]. intros a b m n Ha Hb Hab. rewrite Hlook in Ha, Hb.
    apply (Hapart (f a) (f b)); [done|done|]. intros Heq. by apply Hab, (inj f).
  - intros p start l Hp Hne Hl. destruct (Hblock p start l) as (m & Hm & Hsh); [|done|].
    + split; [by rewrite Hperm|done].
    + exists m. split; [by rewrite Hps|done].
Qed.
