(* ===== verification/FusedKernels.v ===== *)
(** * Fused kernels (crates/rustorch-fusion/src/patterns)

    matmul_bias_act.rs, elementwise.rs and norm_linear.rs over any type of floats.
    The matrix product of the host library (the [gemm] crate, or Accelerate) is a
    parameter; the loop compiled for wasm is an instance of it.  The theorems say, over
    the extended reals, that each fused kernel computes what the separate passes do. *)

From Stdlib Require Import ZArith QArith Reals Lra Lia.
From stdpp Require Import base list strings.
From S2P Require Import Prelude Loops XReal FOps FOpsReal.
From S2P Require Reduce ReduceReal.

Open Scope nat_scope.

(** [enum FusionError] *)
Inductive FusionError := FusionShape (which : string) (expected got : nat).

(** [enum Activation], [enum EwOp] *)
Inductive Activation := ActNone | ActRelu | ActGelu | ActSilu.

Inductive EwOp (X : Type) := AddScalar (c : X) | MulScalar (c : X) | EwRelu | EwSigmoid | EwTanh | EwAbs | EwSqrt.
Arguments AddScalar {X}.
Arguments MulScalar {X}.
Arguments EwRelu {X}.
Arguments EwSigmoid {X}.
Arguments EwTanh {X}.
Arguments EwAbs {X}.
Arguments EwSqrt {X}.

Section kernels.
Context {X : Type} {FO : FOps X}.

(** ** Activations (matmul_bias_act.rs) *)

Definition sigmoid (x : X) : X := k1 ⊘ (k1 ⊕ k_exp (k_neg x)).

Definition Activation_apply (a : Activation) (x : X) : X :=
  match a with
  | ActNone => x
  | ActRelu => k_max x k0
  | ActGelu =>
      let inner := k_sqrt (k_lit 2 ⊘ k_pi) ⊗ (x ⊕ k_lit 0.044715 ⊗ x ⊗ x ⊗ x) in
      k_lit 0.5 ⊗ x ⊗ (k1 ⊕ k_tanh inner)
  | ActSilu => x ⊗ sigmoid x
  end.

(** ** Matrix product, bias and activation *)

(** The accumulation over the inner dimension *)
Definition inner_dot {E} (x w : list X) (k n row col : nat) (init : X) : res E X :=
  for_range k (λ acc kk,
    let? a := rd x (ix (row * k + kk)) in
    let? c := rd w (ix (kk * n + col)) in
    Ok (acc ⊕ a ⊗ c)) init.

(** The product loop of wasm, which is also the first pass of the naive kernel *)
Definition matmul_scalar {E} (x w y : list X) (m k n : nat) : res E (list X) :=
  for_range m (λ y row, for_range n (λ y col,
    let? acc := inner_dot x w k n row col k0 in put y (ix (row * n + col)) acc) y) y.

(** A pass over the rows and columns of the output *)
Definition map_output {E} (m n : nat) (f : nat → X → res E X) (y : list X) : res E (list X) :=
  for_range m (λ y row, for_range n (λ y col,
    let? v := rd y (ix (row * n + col)) in
    let? v := f col v in
    put y (ix (row * n + col)) v) y) y.

Definition apply_bias_activation_epilogue {E} (y : list X) (b : option (list X)) (m n : nat) (a : Activation) : res E (list X) :=
  match b, a with
  | None, ActNone => Ok y
  | None, act => map_output m n (λ _ v, Ok (Activation_apply act v)) y
  | Some bias, ActNone => map_output m n (λ col v, let? bb := rd bias col in Ok (v ⊕ bb)) y
  | Some bias, ActRelu => map_output m n (λ col v, let? bb := rd bias col in Ok (k_max (v ⊕ bb) k0)) y
  | Some bias, act => map_output m n (λ col v, let? bb := rd bias col in Ok (Activation_apply act (v ⊕ bb))) y
  end.

(** The shape checks *)
Definition check_len (which : string) (expected got : nat) : res FusionError unit :=
  if negb (got =? expected) then Err (FusionShape which expected got) else Ok tt.

Section fused.
Context (matmul_dispatch : list X → list X → list X → nat → nat → nat → list X).

Definition fused_matmul_bias_activation (x w : list X) (b : option (list X)) (y : list X) (m k n : nat) (a : Activation)
    : res FusionError (list X) :=
  let? _ := check_len "x" (ix (m * k)) (length x) in
  let? _ := check_len "w" (ix (k * n)) (length w) in
  let? _ := check_len "y" (ix (m * n)) (length y) in
  let? _ := match b with Some bias => check_len "b" n (length bias) | None => Ok tt end in
  if (m =? 0) || (n =? 0) then Ok y
  else if (100000 <=? wrap 64 (Z.of_nat (m * n * k)))%Z then
    apply_bias_activation_epilogue (matmul_dispatch x w y m k n) b m n a
  else
    for_range m (λ y row, for_range n (λ y col,
      let? init := match b with Some bb => rd bb col | None => Ok k0 end in
      let? acc := inner_dot x w k n row col init in
      put y (ix (row * n + col)) (Activation_apply a acc)) y) y.
End fused.

Definition naive_matmul_bias_activation {E} (x w : list X) (b : option (list X)) (y : list X) (m k n : nat) (a : Activation)
    : res E (list X) :=
  let? y := matmul_scalar x w y m k n in
  let? y := match b with
    | Some bias => map_output m n (λ col v, let? bb := rd bias col in Ok (v ⊕ bb)) y
    | None => Ok y
    end in
  Ok (Activation_apply a <$> y).

(** ** Element-wise chains (elementwise.rs) *)

Definition EwOp_apply (op : EwOp X) (x : X) : X :=
  match op with
  | AddScalar c => x ⊕ c
  | MulScalar c => x ⊗ c
  | EwRelu => k_max x k0
  | EwSigmoid => k1 ⊘ (k1 ⊕ k_exp (k_neg x))
  | EwTanh => k_tanh x
  | EwAbs => k_abs x
  | EwSqrt => k_sqrt x
  end.

Definition elementwise_chain (input output : list X) (ops : list (EwOp X)) : res FusionError (list X) :=
  let? _ := check_len "output" (length input) (length output) in
  for_range (length input) (λ output i,
    let? x := rd input i in put output i (foldl (λ v op, EwOp_apply op v) x ops)) output.

(** ** Normalisation and product (norm_linear.rs) *)

(** Welford's pass over a row: the mean and the sum of squares *)
Definition welford_row {E} (x : list X) (k row : nat) : res E (X * X) :=
  for_range k (λ st kk,
    let? v := rd x (ix (row * k + kk)) in
    let delta := v ⊖ st.1 in
    let mean := st.1 ⊕ delta ⊘ k_of_nat (kk + 1) in
    Ok (mean, st.2 ⊕ delta ⊗ (v ⊖ mean))) (k0, k0).

Definition layernorm_linear (x w : list X) (b : option (list X)) (y : list X) (m k n : nat) (eps : X)
    : res FusionError (list X) :=
  let? _ := check_len "x" (ix (m * k)) (length x) in
  let? _ := check_len "w" (ix (k * n)) (length w) in
  let? _ := check_len "y" (ix (m * n)) (length y) in
  for_range m (λ y row,
    let? st := welford_row x k row in
    let inv_std := k1 ⊘ k_sqrt (st.2 ⊘ k_of_nat k ⊕ eps) in
    for_range n (λ y col,
      let? init := match b with Some bb => rd bb col | None => Ok k0 end in
      let? acc := for_range k (λ acc kk,
          let? v := rd x (ix (row * k + kk)) in
          let? c := rd w (ix (kk * n + col)) in
          Ok (acc ⊕ (v ⊖ st.1) ⊗ inv_std ⊗ c)) init in
      put y (ix (row * n + col)) acc) y) y.

Definition residual_add_scale_mul (input residual gate y : list X) (scale : X) : res FusionError (list X) :=
  let? _ := check_len "residual" (length input) (length residual) in
  let? _ := check_len "gate" (length input) (length gate) in
  let? _ := check_len "y" (length input) (length y) in
  for_range (length input) (λ y i,
    let? a := rd input i in
    let? r := rd residual i in
    let? g := rd gate i in
    put y i (scale ⊗ (a ⊕ r) ⊗ g)) y.
End kernels.

(** ** The structure of the results, over any type of floats *)

Section structure.
Context {X : Type} {FO : FOps X}.

(** The fold that [inner_dot] computes *)
Definition dot_fold (x w : list X) (k n row col : nat) (init : X) : X :=
  foldl (λ acc kk, acc ⊕ nth (row * k + kk) x k0 ⊗ nth (kk * n + col) w k0) init (List.seq 0 k).

Lemma inner_dot_run {E} x w m k n row col init :
  length x = m * k → length w = k * n → (Z.of_nat (m * k) < 2 ^ 64 → Z.of_nat (k * n) < 2 ^ 64)%Z → (Z.of_nat (m * k) < 2 ^ 64)%Z →
  row < m → col < n → inner_dot (E := E) x w k n row col init = Ok (dot_fold x w k n row col init).
Proof using Type.
  intros Hx Hw Hkn Hmk Hr Hc. specialize (Hkn Hmk). unfold inner_dot, dot_fold, for_range.
  apply rfold_pure. intros acc kk [_ Hk]%elem_of_seq. simpl in Hk.
  assert (row * k + kk < m * k) by (by apply digit_lt). assert (kk * n + col < k * n) by (by apply digit_lt).
  rewrite !ix_small by lia. by rewrite !(rd_nth k0) by lia.
Qed.

Lemma matmul_scalar_run {E} x w y m k n : length x = m * k → length w = k * n → length y = m * n →
  (Z.of_nat (m * k) < 2 ^ 64 ∧ Z.of_nat (k * n) < 2 ^ 64 ∧ Z.of_nat (m * n) < 2 ^ 64)%Z →
  matmul_scalar (E := E) x w y m k n = Ok (grid m n (λ i j, dot_fold x w k n i j k0)).
Proof using Type.
  intros Hx Hw Hy (H1 & H2 & H3). unfold matmul_scalar. apply grid_loop; [done|]. intros l i j Hi Hj.
  rewrite (inner_dot_run x w m) by (done || (intros; lia)). cbn [rbind].
  assert (i * n + j < m * n) by (by apply digit_lt). by rewrite ix_small by lia.
Qed.

Lemma map_output_run {E} m n f (g : nat → X → X) v : (Z.of_nat (m * n) < 2 ^ 64)%Z →
  (∀ j x, j < n → f j x = Ok (g j x)) → map_output (E := E) m n f (grid m n v) = Ok (grid m n (λ i j, g j (v i j))).
Proof using Type.
  intros Hfit Hf. unfold map_output. apply (grid_update m n _ v (λ _ j x, g j x)). intros l i j x Hi Hj Hx.
  assert (i * n + j < m * n) by (by apply digit_lt). rewrite ix_small by lia. unfold rd. rewrite Hx. cbn [unwrap_opt rbind].
  by rewrite Hf.
Qed.

Definition bias_plus (b : option (list X)) (j : nat) (v : X) : X := match b with Some bb => v ⊕ nth j bb k0 | None => v end.

Lemma epilogue_run {E} b m n a v : (Z.of_nat (m * n) < 2 ^ 64)%Z → (∀ bb, b = Some bb → length bb = n) →
  apply_bias_activation_epilogue (E := E) (grid m n v) b m n a =
  Ok (grid m n (λ i j, Activation_apply a (bias_plus b j (v i j)))).
Proof using Type.
  intros Hfit Hb. destruct b as [bb|].
  - specialize (Hb bb eq_refl).
    destruct a; [refine (map_output_run m n _ (λ j x, x ⊕ nth j bb k0) v Hfit _)
      |refine (map_output_run m n _ (λ j x, Activation_apply ActRelu (x ⊕ nth j bb k0)) v Hfit _)
      |refine (map_output_run m n _ (λ j x, Activation_apply ActGelu (x ⊕ nth j bb k0)) v Hfit _)
      |refine (map_output_run m n _ (λ j x, Activation_apply ActSilu (x ⊕ nth j bb k0)) v Hfit _)];
      intros j x Hj; by rewrite (rd_nth k0) by lia.
  - destruct a; [done|by refine (map_output_run m n _ (λ _ x, Activation_apply _ x) v Hfit _)..].
Qed.

(** Both kernels return a grid; the naive one adds the bias after the sum, the fused
    one before it when the shape is small. *)
Definition fused_value (x w : list X) (b : option (list X)) (k n : nat) (a : Activation) (i j : nat) : X :=
  Activation_apply a (dot_fold x w k n i j (match b with Some bb => nth j bb k0 | None => k0 end)).
Definition naive_value (x w : list X) (b : option (list X)) (k n : nat) (a : Activation) (i j : nat) : X :=
  Activation_apply a (bias_plus b j (dot_fold x w k n i j k0)).

Lemma grid_fmap {A B} (f : A → B) m n (v : nat → nat → A) : f <$> grid m n v = grid m n (λ i j, f (v i j)).
Proof using Type.
  apply grid_unique; [by rewrite length_fmap, length_grid|]. intros i j Hi Hj. by rewrite list_lookup_fmap, lookup_grid.
Qed.

Context (x w y : list X) (b : option (list X)) (m k n : nat).
Context (lx : length x = m * k) (lw : length w = k * n) (ly : length y = m * n) (lb : ∀ bb, b = Some bb → length bb = n).
Context (fits : (Z.of_nat (m * k) < 2 ^ 64 ∧ Z.of_nat (k * n) < 2 ^ 64 ∧ Z.of_nat (m * n) < 2 ^ 64)%Z).

Lemma naive_fused_run {E} a : naive_matmul_bias_activation (E := E) x w b y m k n a = Ok (grid m n (naive_value x w b k n a)).
Proof using All.
  unfold naive_matmul_bias_activation. rewrite matmul_scalar_run by done. cbn [rbind]. unfold naive_value.
  destruct b as [bb|]; cbn [rbind].
  - rewrite (map_output_run m n _ (λ j v, v ⊕ nth j bb k0)) by
      (lia || (intros; rewrite (rd_nth k0) by (rewrite (lb bb eq_refl); lia); done)).
    cbn [rbind]. by rewrite grid_fmap.
  - by rewrite grid_fmap.
Qed.

Lemma fused_run matmul a :
  (m ≠ 0 → n ≠ 0 → matmul x w y m k n = grid m n (λ i j, dot_fold x w k n i j k0)) →
  ∃ f, (f = naive_value x w b k n a ∨ f = fused_value x w b k n a) ∧
    fused_matmul_bias_activation matmul x w b y m k n a = Ok (grid m n f).
Proof using All.
  intros Hm. unfold fused_matmul_bias_activation, check_len. destruct fits as (H1 & H2 & H3).
  rewrite !ix_small, lx, lw, ly, !Nat.eqb_refl by done. cbn [negb rbind].
  assert (match b with Some bias => if negb (length bias =? n) then Err (FusionShape "b" n (length bias)) else Ok tt | None => Ok tt end = Ok tt) as ->.
  { destruct b as [bb|]; [|done]. by rewrite (lb bb eq_refl), Nat.eqb_refl. }
  cbn [rbind]. destruct (Nat.eqb_spec m 0) as [->|Hm0]; [exists (naive_value x w b k n a); split; [by left|by destruct y]|].
  destruct (Nat.eqb_spec n 0) as [->|Hn0].
  { exists (naive_value x w b k 0 a). split; [by left|]. rewrite Nat.mul_0_r in ly. destruct y; [|done].
    f_equal. symmetry. apply length_zero_iff_nil. rewrite length_grid. lia. }
  cbn [orb]. destruct (100000 <=? _)%Z.
  - exists (naive_value x w b k n a). split; [by left|]. rewrite Hm by done. by apply epilogue_run.
  - exists (fused_value x w b k n a). split; [by right|]. apply grid_loop; [done|]. intros l i j Hi Hj.
    assert (match b with Some bb => rd bb j | None => Ok k0 end = Ok (E := FusionError) (match b with Some bb => nth j bb k0 | None => k0 end)) as ->.
    { destruct b as [bb|]; [|done]. by rewrite (rd_nth k0) by (rewrite (lb bb eq_refl); lia). }
    cbn [rbind]. rewrite (inner_dot_run x w m) by (done || lia). cbn [rbind].
    assert (i * n + j < m * n) by (by apply digit_lt). by rewrite ix_small by lia.
Qed.
End structure.

(** ** Exact arithmetic *)

Section real.
Local Open Scope R_scope.

Definition fins (l : list R) : list xreal := FIN <$> l.

Lemma length_fins l : length (fins l) = length l.
Proof. apply length_fmap. Qed.

Lemma nth_fins l i : (i < length l)%nat → nth i (fins l) k0 = FIN (nth i l 0).
Proof.
  intros Hi. destruct (lookup_lt_is_Some_2 l i Hi) as [v Hv]. unfold fins.
  rewrite (nth_lookup_Some _ _ _ (FIN v)) by (by rewrite list_lookup_fmap, Hv). by rewrite (nth_lookup_Some _ _ _ _ Hv).
Qed.

Definition rsigmoid (x : R) : R := 1 / (1 + exp (- x)).

(** The activations as functions of a real number *)
Definition act_real (a : Activation) (x : R) : R :=
  match a with
  | ActNone => x
  | ActRelu => Rmax x 0
  | ActGelu => Q2R 0.5 * x * (1 + tanh (sqrt (Q2R 2 / PI) * (x + Q2R 0.044715 * x * x * x)))
  | ActSilu => x * rsigmoid x
  end.

Lemma sigmoid_fin x : k1 ⊘ (k1 ⊕ k_exp (k_neg (FIN x))) = FIN (rsigmoid x).
Proof. pose proof (exp_pos (- x)). fin. done. Qed.

Lemma activation_fin a x : Activation_apply a (FIN x) = FIN (act_real a x).
Proof.
  destruct a; cbn [Activation_apply act_real]; [done|by fin| |].
  - assert (0 < PI) by apply PI_RGT_0. assert (0 <= Q2R 2 / PI) as Hp.
    { apply Rlt_le, Rdiv_lt_0_compat; [|done]. unfold Q2R. simpl. lra. }
    rewrite fin_pi, !fin_lit, fin_div, fin_sqrt by (done || lra). by fin.
  - unfold sigmoid. rewrite sigmoid_fin. by fin.
Qed.

(** The sum over a row and a column *)
Definition real_dot (x w : list R) (k n i j : nat) : R := psum k (λ t, nth (i * k + t) x 0 * nth (t * n + j) w 0).

Lemma dot_fold_fin x w m k n i j z : length x = (m * k)%nat → length w = (k * n)%nat → (i < m)%nat → (j < n)%nat →
  dot_fold (fins x) (fins w) k n i j (FIN z) = FIN (z + real_dot x w k n i j).
Proof.
  intros Hx Hw Hi Hj. unfold dot_fold, real_dot.
  assert (∀ t, (t ≤ k)%nat → foldl (λ acc kk, acc ⊕ nth (i * k + kk) (fins x) k0 ⊗ nth (kk * n + j) (fins w) k0) (FIN z) (List.seq 0 t) =
    FIN (z + psum t (λ t, nth (i * k + t) x 0 * nth (t * n + j) w 0))) as H; [|by apply H].
  induction t as [|t IH]; intros Ht; [simpl; by rewrite Rplus_0_r|].
  rewrite List.seq_S, foldl_app, IH by lia. cbn [foldl psum Nat.add].
  assert (i * k + t < m * k)%nat by (by apply digit_lt). assert (t * n + j < k * n)%nat by (by apply digit_lt).
  rewrite !nth_fins by lia. fin. f_equal. ring.
Qed.

Definition real_bias_at (b : option (list R)) (j : nat) : R := match b with Some bb => nth j bb 0 | None => 0 end.
Definition fin_bias_of (b : option (list R)) : option (list xreal) := match b with Some bb => Some (fins bb) | None => None end.

(** The value of every element *)
Definition linear_activation (x w : list R) (b : option (list R)) (k n : nat) (a : Activation) (i j : nat) : R :=
  act_real a (real_dot x w k n i j + real_bias_at b j).

Lemma fused_values x w b m k n a i j : length x = (m * k)%nat → length w = (k * n)%nat → (∀ bb, b = Some bb → length bb = n) →
  (i < m)%nat → (j < n)%nat →
  fused_value (fins x) (fins w) (fin_bias_of b) k n a i j = FIN (linear_activation x w b k n a i j) ∧
  naive_value (fins x) (fins w) (fin_bias_of b) k n a i j = FIN (linear_activation x w b k n a i j).
Proof.
  intros Hx Hw Hb Hi Hj. unfold fused_value, naive_value, linear_activation, bias_plus.
  destruct b as [bb|]; cbn [fin_bias_of real_bias_at]; rewrite ?nth_fins by (rewrite (Hb bb eq_refl); lia); rewrite ?fin_0;
    rewrite !(dot_fold_fin x w m) by done; fin; rewrite !activation_fin; split; do 2 f_equal; ring.
Qed.

(** The contract of the host's matrix product, on exact numbers: it overwrites the
    output with the products of the rows and columns. *)
Definition matmul_ok (matmul : list xreal → list xreal → list xreal → nat → nat → nat → list xreal) : Prop :=
  ∀ x w y m k n, length x = (m * k)%nat → length w = (k * n)%nat → length y = (m * n)%nat →
    matmul x w y m k n = grid m n (λ i j, dot_fold x w k n i j k0).
End real.

Definition matmul_demo (x w y : list xreal) (m k n : nat) : list xreal := grid m n (λ i j, dot_fold x w k n i j k0).
Lemma matmul_demo_ok : matmul_ok matmul_demo.
Proof. done. Qed.

(** C40: The fused product, bias and activation on exact numbers: for every shape (the
    small one, which starts the sum with the bias, and the large one, which calls the
    host's product and adds a pass), every activation and with or without bias, the
    fused kernel and the naive three passes both return, with the same buffer, whose
    elements are the activation of the row-column product plus the bias. *)
Theorem fused_matmul_correct matmul x w b y m k n a : matmul_ok matmul →
  length x = m * k → length w = k * n → length y = m * n → (∀ bb, b = Some bb → length bb = n) →
  (Z.of_nat (m * k) < 2 ^ 64 ∧ Z.of_nat (k * n) < 2 ^ 64 ∧ Z.of_nat (m * n) < 2 ^ 64)%Z →
  let out := grid m n (λ i j, FIN (linear_activation x w b k n a i j)) in
  fused_matmul_bias_activation matmul (fins x) (fins w) (fin_bias_of b) y m k n a = Ok out ∧
  naive_matmul_bias_activation (E := FusionError) (fins x) (fins w) (fin_bias_of b) y m k n a = Ok out.
Proof.
  intros Hm Hx Hw Hy Hb Hfit out.
  assert (length (fins x) = m * k) as Hx' by (by rewrite length_fins).
  assert (length (fins w) = k * n) as Hw' by (by rewrite length_fins).
  assert (∀ bb, fin_bias_of b = Some bb → length bb = n) as Hb'.
  { intros bb. destruct b as [b'|]; [|done]. intros [= <-]. rewrite length_fins. by apply Hb. }
  split.
  - destruct (fused_run _ _ _ _ _ _ _ Hx' Hw' Hy Hb' Hfit matmul a (λ _ _, Hm _ _ _ _ _ _ Hx' Hw' Hy)) as (f & Hf & ->).
    f_equal. apply grid_ext. intros i j Hi Hj. destruct (fused_values x w b m k n a i j Hx Hw Hb Hi Hj). by destruct Hf as [-> | ->].
  - rewrite naive_fused_run by done. f_equal. apply grid_ext. intros i j Hi Hj.
    by destruct (fused_values x w b m k n a i j Hx Hw Hb Hi Hj).
Qed.

Lemma fused_matmul_correct_witness :
  let x := [1; 2; 3; 4]%R in let w := [1; 0; 0; 1]%R in
  fused_matmul_bias_activation matmul_demo (fins x) (fins w) (Some (fins [0; -5]%R)) (replicate 4 NAN) 2 2 2 ActRelu =
  naive_matmul_bias_activation (fins x) (fins w) (Some (fins [0; -5]%R)) (replicate 4 NAN) 2 2 2 ActRelu.
Proof.
  intros x w.
  destruct (fused_matmul_correct matmul_demo x w (Some [0; -5]%R) (replicate 4 NAN) 2 2 2 ActRelu
    matmul_demo_ok eq_refl eq_refl eq_refl ltac:(by intros ? [= <-]) ltac:(lia)) as [H1 H2].
  exact (eq_trans H1 (eq_sym H2)).
Defined.

(** ** Normalisation and product *)

Section norm.
Local Open Scope R_scope.

Definition row_of (x : list R) (k i : nat) : list R := take k (drop (i * k) x).

Lemma row_of_lookup x m k i t : length x = (m * k)%nat → (i < m)%nat → (t < k)%nat →
  row_of x k i !! t = Some (nth (i * k + t) x 0).
Proof.
  intros Hx Hi Ht. unfold row_of. rewrite lookup_take_lt, lookup_drop by done.
  assert (i * k + t < m * k)%nat by (by apply digit_lt). destruct (lookup_lt_is_Some_2 x (i * k + t)%nat ltac:(lia)) as [v Hv].
  by rewrite Hv, (nth_lookup_Some _ _ _ _ Hv).
Qed.

Lemma length_row_of x m k i : length x = (m * k)%nat → (i < m)%nat → length (row_of x k i) = k.
Proof. intros Hx Hi. unfold row_of. rewrite length_take, length_drop, Hx. nia. Qed.

Definition fin_pair (p : R * R) : xreal * xreal := (FIN p.1, FIN p.2).

Lemma imap_pair_snoc (l : list R) v : imap pair (l ++ [v]) = imap pair l ++ [(length l, v)].
Proof. rewrite imap_app. simpl. by rewrite Nat.add_0_r. Qed.

Lemma welford_row_run {E} x m k i : length x = (m * k)%nat → (i < m)%nat → (0 < k)%nat → (Z.of_nat (m * k) < 2 ^ 64)%Z →
  welford_row (E := E) (fins x) k i = Ok (fin_pair (ReduceReal.rmean (row_of x k i), ReduceReal.deviations (row_of x k i))).
Proof.
  intros Hx Hi Hk Hfit. pose proof (length_row_of x m k i Hx Hi) as Hlen.
  rewrite <- ReduceReal.welford_fold by (intros H; rewrite H in Hlen; simpl in Hlen; lia).
  pose (st := λ t, fin_pair (foldl (@Reduce.welford_step R ReduceReal.R_var_ops) (INR 0, INR 0) (imap pair (take t (row_of x k i))))).
  unfold welford_row. match goal with |- for_range k ?b _ = _ => assert (for_range k b (st 0%nat) = Ok (st k)) as Hrun end.
  2: { unfold st in Hrun. rewrite (take_ge (row_of x k i) k) in Hrun by lia. exact Hrun. }
  apply for_range_inv. intros t Ht.
  assert (i * k + t < m * k)%nat by (by apply digit_lt). rewrite ix_small by lia.
  rewrite (rd_nth k0), nth_fins by (rewrite ?length_fins; lia). cbn [rbind].
  unfold st. pose proof (row_of_lookup x m k i t Hx Hi Ht) as Hl. rewrite (take_S_r _ _ _ Hl), imap_pair_snoc, foldl_app.
  rewrite length_take, Hlen, Nat.min_l by lia. cbn [foldl].
  destruct (foldl _ _ _) as [mean m2]. cbn [Reduce.welford_step fst snd fin_pair].
  assert (0 < INR t + INR 1) by (pose proof (pos_INR t); simpl; lra).
  assert (INR (t + 1) = INR t + INR 1) as Hs by (by rewrite plus_INR). fin.
  by rewrite Hs.
Qed.

(** The mean and the standard deviation of a row, with [eps] *)
Definition row_mean (x : list R) (k i : nat) : R := ReduceReal.rmean (row_of x k i).
Definition row_std (x : list R) (k i : nat) (eps : R) : R := sqrt (ReduceReal.deviations (row_of x k i) / INR k + eps).

Definition layernorm_value (x w : list R) (b : option (list R)) (k n : nat) (eps : R) (i j : nat) : R :=
  psum k (λ t, (nth (i * k + t) x 0 - row_mean x k i) / row_std x k i eps * nth (t * n + j) w 0) + real_bias_at b j.

Lemma deviations_nonneg l : 0 <= ReduceReal.deviations l.
Proof.
  unfold ReduceReal.deviations, ReduceReal.rtotal. generalize (ReduceReal.rmean l). intros c.
  induction l as [|v l IH]; [simpl; lra|]; rewrite fmap_cons; cbn [foldr]. pose proof (Rle_0_sqr (v - c)) as Hs. unfold Rsqr in Hs. nra.
Qed.

Lemma normalised_dot {E} x w m k n i j mean inv z : length x = (m * k)%nat → length w = (k * n)%nat → (i < m)%nat → (j < n)%nat →
  (Z.of_nat (m * k) < 2 ^ 64 ∧ Z.of_nat (k * n) < 2 ^ 64)%Z →
  for_range (E := E) k (λ acc kk,
    let? v := rd (fins x) (ix (i * k + kk)) in
    let? c := rd (fins w) (ix (kk * n + j)) in
    Ok (acc ⊕ (v ⊖ FIN mean) ⊗ FIN inv ⊗ c)) (FIN z) =
  Ok (FIN (psum k (λ t, (nth (i * k + t) x 0 - mean) * inv * nth (t * n + j) w 0) + z)).
Proof.
  intros Hx Hw Hi Hj [H1 H2]. pose (st := λ t, FIN (psum t (λ t, (nth (i * k + t) x 0 - mean) * inv * nth (t * n + j) w 0) + z)).
  match goal with |- for_range k ?b _ = _ => assert (for_range k b (st 0%nat) = Ok (st k)) as Hrun end.
  2: { unfold st in Hrun at 1. simpl psum in Hrun. rewrite Rplus_0_l in Hrun. exact Hrun. }
  apply for_range_inv. intros t Ht.
  assert (i * k + t < m * k)%nat by (by apply digit_lt). assert (t * n + j < k * n)%nat by (by apply digit_lt).
  rewrite !ix_small by lia. rewrite !(rd_nth k0), !nth_fins by (rewrite ?length_fins; lia). cbn [rbind].
  unfold st. fin. cbn [psum]. do 2 f_equal. ring.
Qed.
End norm.

(** The fused layer normalisation and product on exact numbers: Welford's single
    pass over each row gives its mean and variance, and every element of the output is
    the sum over the row of (x - mean) / sqrt(variance + eps) times the weight, plus
    the bias. *)
Theorem layernorm_linear_correct x w b (y : list xreal) m k n eps :
  length x = m * k → length w = k * n → length y = m * n → (∀ bb, b = Some bb → length bb = n) → 0 < k → (0 < eps)%R →
  (Z.of_nat (m * k) < 2 ^ 64 ∧ Z.of_nat (k * n) < 2 ^ 64 ∧ Z.of_nat (m * n) < 2 ^ 64)%Z →
  layernorm_linear (fins x) (fins w) (fin_bias_of b) y m k n (FIN eps) =
  Ok (grid m n (λ i j, FIN (layernorm_value x w b k n eps i j))).
Proof.
  intros Hx Hw Hy Hb Hk Heps (H1 & H2 & H3). unfold layernorm_linear, check_len.
  rewrite !ix_small, Hy by done. rewrite !length_fins, Hx, Hw, !Nat.eqb_refl. cbn [negb rbind].
  set (body := λ (i : nat) (y : list xreal) (j : nat), put (E := FusionError) y (i * n + j) (FIN (layernorm_value x w b k n eps i j))).
  rewrite <- (grid_loop m n body _ y Hy) by done. apply for_range_ext. intros l i Hi.
  rewrite (welford_row_run x m) by done. cbn [rbind fin_pair fst snd].
  assert (0 < INR k)%R by (by apply lt_0_INR). pose proof (deviations_nonneg (row_of x k i)).
  assert (0 < ReduceReal.deviations (row_of x k i) / INR k + eps)%R as Hp.
  { apply Rplus_le_lt_0_compat; [|done]. apply Rmult_le_pos; [done|]. apply Rlt_le, Rinv_0_lt_compat. done. }
  rewrite fin_of_nat, fin_div, fin_add, fin_sqrt, fin_1, fin_div by (try lra; apply not_eq_sym, Rlt_not_eq, sqrt_lt_R0; exact Hp).
  apply for_range_ext. intros l' j Hj. unfold body.
  assert (match fin_bias_of b with Some bb => rd bb j | None => Ok k0 end = Ok (E := FusionError) (FIN (real_bias_at b j))) as ->.
  { destruct b as [bb|]; [|done]. cbn [fin_bias_of real_bias_at]. specialize (Hb bb eq_refl).
    by rewrite (rd_nth k0), nth_fins by (rewrite ?length_fins; lia). }
  cbn [rbind]. rewrite (normalised_dot x w m k n i j) by done. cbn [rbind].
  assert (i * n + j < m * n) by (by apply digit_lt). rewrite ix_small by lia. f_equal. f_equal. unfold layernorm_value. f_equal.
  apply psum_ext. intros t Ht. unfold row_mean, row_std, Rdiv. by rewrite Rmult_1_l.
Qed.

Lemma layernorm_linear_correct_witness :
  layernorm_linear (fins [1; 3]%R) (fins [1; 1]%R) None [NAN] 1 2 1 (FIN 1) =
  Ok [FIN (layernorm_value [1; 3]%R [1; 1]%R None 2 1 1 0 0)].
Proof.
  exact (layernorm_linear_correct [1; 3]%R [1; 1]%R None [NAN] 1 2 1 1 eq_refl eq_refl eq_refl ltac:(done) ltac:(lia)
    Rlt_0_1 ltac:(lia)).
Defined.

