(* ===== verification/TensorView.v ===== *)
(** * What the numeric kernels read of a tensor

    The kernels over any type of floats take a tensor as its dtype, its shape and the
    results of the accessors [as_slice] (nothing unless the layout is dense),
    [iter_elements] (the elements in shape order) and [is_contiguous] with offset 0;
    [Tensor] and [Storage] define those accessors on stored bits.  A result is a shape
    and its elements. *)

From Stdlib Require Import ZArith Lia.
From stdpp Require Import base list.
From S2P Require Import Prelude Loops Dtype Iterator.

Open Scope nat_scope.

Record TView (X : Type) := mkTView {
  tv_dtype : Dtype;
  tv_shape : list nat;
  tv_slice : option (list X);
  tv_elems : list X;
  tv_dense : bool
}.
Arguments mkTView {X}.
Arguments tv_dtype {X}.
Arguments tv_shape {X}.
Arguments tv_slice {X}.
Arguments tv_elems {X}.
Arguments tv_dense {X}.

Definition tv_numel {X} (t : TView X) : nat := foldl (λ a n, ix (a * n)) 1 (tv_shape t).
Definition tv_zshape {X} (t : TView X) : list Z := Z.of_nat <$> tv_shape t.

(** [t.shape()[i]] *)
Definition tv_dim {E X} (t : TView X) (i : nat) : res E nat := rd (tv_shape t) i.

(** The tensor behind a dense one: the accessors agree. *)
Definition dense_view {X} (T : Dtype) (shape : list nat) (data : list X) : TView X :=
  mkTView T shape (Some data) data true.

(** [enum Reduction] of the backend *)
Inductive Reduction := RedMean | RedSum | RedNone.

(** [Tensor::from_vec(shape, data)], whose only error is a length mismatch *)
Definition from_vec {E X} (err : E) (shape : list nat) (data : list X) : res E (list nat * list X) :=
  if length data =? foldl (λ a n, ix (a * n)) 1 shape then Ok (shape, data) else Err err.
