(* ===== verification/CTC.v ===== *)
(** * Connectionist temporal classification (crates/rustorch-cpu/src/kernels/ctc.rs)

    The forward loss over any type of floats, and the theorem that, on exact numbers,
    it is minus the logarithm of the total probability of all label sequences that
    collapse to the target. *)

From Stdlib Require Import ZArith Reals Lra Lia.
From stdpp Require Import base list.
From S2P Require Import Prelude Loops XReal FOps FOpsReal Dtype Iterator TensorView.

Open Scope nat_scope.

Definition BLANK : Z := 0.

Section ctc.
Context {X : Type} {FO : FOps X}.

Definition log_sum_exp (a b : X) : X :=
  if k_eq a k_neg_inf then b
  else if k_eq b k_neg_inf then a
  else let m := k_max a b in m ⊕ k_ln (k_exp (a ⊖ m) ⊕ k_exp (b ⊖ m)).

(** [len as usize] of a signed length, and its minimum with a size *)
Definition clip_len (len : Z) (n : nat) : nat := Z.to_nat (Z.min (wrap 64 len) (Z.of_nat n)).

(** The target with blanks around its labels *)
Definition extend_target {E} (tg : list Z) (s_max b s_b : nat) : res E (list Z) :=
  for_range s_b (λ y i, let? l := rd tg (ix (b * s_max + i)) in put y (2 * i + 1) l) (replicate (2 * s_b + 1) BLANK).

Section sample.
Context (lp : list X) (bs c b : nat).

(** [lp[(t * bs + b) * c + k as usize]] *)
Definition lp_b {E} (t : nat) (k : Z) : res E X :=
  rd lp (Z.to_nat (wrap 64 (Z.of_nat ((t * bs + b) * c) + wrap 64 k))).

(** One cell of the table *)
Definition alpha_cell {E} (y_ext : list Z) (alpha : list X) (s_ext t s : nat) : res E X :=
  let? a := rd alpha ((t - 1) * s_ext + s) in
  let? a := if 0 <? s then (let? p := rd alpha ((t - 1) * s_ext + s - 1) in Ok (log_sum_exp a p)) else Ok a in
  let? y := rd y_ext s in
  let? a := if 1 <? s then
      if negb (y =? BLANK)%Z then
        (let? y2 := rd y_ext (s - 2) in
         if negb (y =? y2)%Z then (let? p := rd alpha ((t - 1) * s_ext + s - 2) in Ok (log_sum_exp a p)) else Ok a)
      else Ok a
    else Ok a in
  let? l := lp_b t y in
  Ok (a ⊕ l).

(** [t_b * s_ext] is allocated, so it is a product without wrap-around. *)
Definition ctc_sample {E} (y_ext : list Z) (t_b : nat) : res E X :=
  let s_ext := length y_ext in
  let alpha := replicate (t_b * s_ext) k_neg_inf in
  let? alpha := if 1 <=? s_ext then (let? v := lp_b 0 BLANK in put alpha 0 v) else Ok alpha in
  let? alpha := if 2 <=? s_ext then (let? y := rd y_ext 1 in let? v := lp_b 0 y in put alpha 1 v) else Ok alpha in
  let? alpha := rfold (λ alpha t, for_range s_ext (λ alpha s,
      let? v := alpha_cell y_ext alpha s_ext t s in put alpha (t * s_ext + s) v) alpha) alpha (List.seq 1 (t_b - 1)) in
  let last_t := t_b - 1 in
  let? total := if 1 <=? s_ext then (let? v := rd alpha (last_t * s_ext + s_ext - 1) in Ok (log_sum_exp k_neg_inf v)) else Ok k_neg_inf in
  let? total := if 2 <=? s_ext then (let? v := rd alpha (last_t * s_ext + s_ext - 2) in Ok (log_sum_exp total v)) else Ok total in
  Ok (k_neg total).
End sample.

Definition ctc_loss_forward (log_probs : TView X) (targets : TView Z) (input_lens target_lens : list Z) (reduction : Reduction)
    : res BackendError (list nat * list X) :=
  if negb (bool_decide (tv_dtype log_probs = F32)) then Err (BDtypeMismatch (tv_dtype log_probs) F32)
  else if negb (length (tv_shape log_probs) =? 3) || negb (length (tv_shape targets) =? 2) then
    Err (BShapeMismatch (tv_zshape log_probs) (tv_zshape targets))
  else
    let? t_in := tv_dim log_probs 0 in
    let? bs := tv_dim log_probs 1 in
    let? c := tv_dim log_probs 2 in
    let? s_max := tv_dim targets 1 in
    let? lp := unwrap_opt (tv_slice log_probs) in
    let? tg := unwrap_opt (if bool_decide (tv_dtype targets = I64) then tv_slice targets else None) in
    let? losses := for_range bs (λ losses b,
        let? il := rd input_lens b in
        let? tl := rd target_lens b in
        let? y_ext := extend_target tg s_max b (clip_len tl s_max) in
        let? v := ctc_sample lp bs c b y_ext (clip_len il t_in) in
        put losses b v) (replicate bs k0) in
    match reduction with
    | RedNone => unwrap (E := unit) (from_vec tt [bs] losses)
    | RedSum => Ok ([], [k_sum losses])
    | RedMean => Ok ([], [k_sum losses ⊘ k_of_nat bs])
    end.
End ctc.

(** ** The specification *)

(** The sequence after merging repetitions and then dropping blanks, when [last] is
    the label before it *)
Fixpoint collapse_from (last : option nat) (π : list nat) : list Z :=
  match π with
  | [] => []
  | k :: π =>
      if bool_decide (last = Some k) then collapse_from last π
      else if k =? 0 then collapse_from (Some k) π
      else Z.of_nat k :: collapse_from (Some k) π
  end.
Definition collapse : list nat → list Z := collapse_from None.

Example collapse_example : collapse [0; 1; 1; 0; 1; 2; 2] = [1; 1; 2]%Z.
Proof. reflexivity. Qed.

Section spec.
Local Open Scope R_scope.

(** The sum over all sequences of [n] labels below [c] *)
Fixpoint path_sum (c n : nat) (F : list nat → R) : R :=
  match n with O => F [] | S n => path_sum c n (λ π, psum c (λ k, F (π ++ [k]))) end.

Lemma path_sum_ext c n F G : (∀ π, length π = n → Forall (λ k, k < c)%nat π → F π = G π) → path_sum c n F = path_sum c n G.
Proof.
  revert F G. induction n as [|n IH]; intros F G H; simpl; [by apply H|]. apply IH. intros π Hl Hπ. apply psum_ext.
  intros k Hk. apply H; [rewrite length_app; simpl; lia|]. apply Forall_app. by split; [|constructor].
Qed.

Lemma path_sum_add c n F G : path_sum c n (λ π, F π + G π) = path_sum c n F + path_sum c n G.
Proof.
  revert F G. induction n as [|n IH]; intros F G; simpl; [done|]. rewrite <- IH. apply path_sum_ext. intros π _ _.
  apply psum_add.
Qed.

Lemma path_sum_mul_r c n F z : path_sum c n (λ π, F π * z) = path_sum c n F * z.
Proof.
  revert F. induction n as [|n IH]; intros F; simpl; [done|]. rewrite <- IH. apply path_sum_ext. intros π _ _.
  apply psum_mul_r.
Qed.

Lemma path_sum_zero c n : path_sum c n (λ _, 0) = 0.
Proof. rewrite (path_sum_ext c n _ (λ _, 0 * 0)), path_sum_mul_r by (intros; ring). ring. Qed.

Lemma path_sum_nonneg c n F : (∀ π, 0 <= F π) → 0 <= path_sum c n F.
Proof. revert F. induction n as [|n IH]; intros F H; simpl; [done|]. apply IH. intros π. apply psum_nonneg. auto. Qed.

(** The probability of a sequence, [prob t k] being that of label [k] at time [t] *)
Definition path_prob (prob : nat → nat → R) (π : list nat) : R := foldr Rmult 1 (imap prob π).

(** The total probability of the sequences of length [T] that collapse to [y] *)
Definition target_prob (c T : nat) (prob : nat → nat → R) (y : list Z) : R :=
  path_sum c T (λ π, if bool_decide (collapse π = y) then path_prob prob π else 0).

Lemma path_prob_snoc prob π k : path_prob prob (π ++ [k]) = path_prob prob π * prob (length π) k.
Proof.
  unfold path_prob. rewrite imap_app, foldr_app. simpl. rewrite Nat.add_0_r, Rmult_1_r.
  generalize (prob (length π) k). intros z. induction (imap prob π) as [|x l IH]; simpl; [ring|]. rewrite IH. ring.
Qed.

Lemma path_prob_nonneg prob π : (∀ t k, 0 <= prob t k) → 0 <= path_prob prob π.
Proof.
  intros Hp. unfold path_prob. assert (Forall (λ x, 0 <= x) (imap prob π)) as H.
  { apply Forall_lookup_2. intros i x Hx. apply list_lookup_imap_Some in Hx as (k & _ & ->). apply Hp. }
  induction H as [|x l Hx Hl IH]; simpl; [lra|]. by apply Rmult_le_pos.
Qed.
End spec.

(** ** The automaton of the extended target *)

Section automaton.
Context (y : list Z) (c : nat) (y_ok : Forall (λ l, 0 < l < Z.of_nat c)%Z y).

(** The extended target as a function *)
Definition y_at (s : nat) : Z := if Nat.even s then BLANK else nth (s / 2) y BLANK.
Definition S_ext : nat := 2 * length y + 1.

(** Whether state [s] can be entered from [s - 2] *)
Definition skips (s : nat) : bool := (1 <? s) && negb (y_at s =? BLANK)%Z && negb (y_at s =? y_at (s - 2))%Z.

Definition delta (s k : nat) : option nat :=
  if (Z.of_nat k =? y_at s)%Z then Some s
  else if (s + 1 <? S_ext) && (Z.of_nat k =? y_at (s + 1))%Z then Some (s + 1)
  else if (s + 2 <? S_ext) && skips (s + 2) && (Z.of_nat k =? y_at (s + 2))%Z then Some (s + 2)
  else None.

Definition state (π : list nat) : option nat := foldl (λ o k, s ← o; delta s k) (Some 0) π.

Lemma half_even j : (2 * j + 1) / 2 = j.
Proof using Type. rewrite Nat.mul_comm, Nat.div_add_l by lia. simpl. lia. Qed.

Lemma half_odd j : (2 * j + 1 + 1) / 2 = S j.
Proof using Type. replace (2 * j + 1 + 1) with (S j * 2) by lia. by rewrite Nat.div_mul by lia. Qed.

Lemma y_lookup j : j < length y → y !! j = Some (nth j y BLANK).
Proof using Type. intros Hj. destruct (nth_lookup_or_length y j BLANK); [done|lia]. Qed.

Lemma y_at_even j : y_at (2 * j) = BLANK.
Proof using Type. unfold y_at. by rewrite Nat.even_mul. Qed.

Lemma y_at_odd j : y_at (2 * j + 1) = nth j y BLANK.
Proof using Type. unfold y_at. rewrite half_even, Nat.even_add, Nat.even_mul. done. Qed.

Lemma label_pos j : j < length y → (0 < nth j y BLANK < Z.of_nat c)%Z.
Proof using y_ok. intros Hj. rewrite Forall_forall in y_ok. apply y_ok, list_elem_of_In, nth_In, Hj. Qed.

Lemma parity (s : nat) : ∃ j, s = 2 * j ∨ s = 2 * j + 1.
Proof using Type. exists (s / 2). pose proof (Nat.div_mod_eq s 2). pose proof (Nat.mod_upper_bound s 2). lia. Qed.

(** The two last states accept exactly the sequences that collapse to the rest of the
    target. *)
Definition final (o : option nat) : bool :=
  match o with Some s => (s =? 2 * length y) || (s + 1 =? 2 * length y) | None => false end.

Lemma run_None π : foldl (λ o k, s ← o; delta s k) None π = None.
Proof using Type. by induction π. Qed.

Lemma skips_even j : skips (2 * j + 2) = false.
Proof using Type. unfold skips. replace (2 * j + 2) with (2 * (j + 1)) by lia. rewrite y_at_even. by rewrite andb_false_r. Qed.

Lemma skips_odd j : j < length y → skips (2 * j + 3) = negb (nth (S j) y BLANK =? nth j y BLANK)%Z && negb (nth (S j) y BLANK =? BLANK)%Z.
Proof using Type.
  intros Hj. unfold skips. replace (2 * j + 3 - 2) with (2 * j + 1) by lia. replace (2 * j + 3) with (2 * S j + 1) by lia.
  rewrite !y_at_odd. rewrite (proj2 (Nat.ltb_lt _ _)) by lia. simpl andb. apply andb_comm.
Qed.

Lemma accepts_from s π : s ≤ 2 * length y →
  final (foldl (λ o k, s ← o; delta s k) (Some s) π) = true ↔
  collapse_from (Some (Z.to_nat (y_at s))) π = drop ((s + 1) / 2) y.
Proof using y_ok.
  revert s. induction π as [|k π IH]; intros s Hs.
  { cbn [foldl final collapse_from]. rewrite orb_true_iff, !Nat.eqb_eq.
    assert (∀ n, [] = drop n y ↔ length y ≤ n) as Hd.
    { intros n. split; [|intros; by rewrite drop_ge]. intros H%(f_equal length). rewrite length_drop in H. simpl in H. lia. }
    destruct (parity s) as [j [-> | ->]]; rewrite ?half_even, ?half_odd, Hd; lia. }
  cbn [foldl mbind option_bind collapse_from]. unfold delta at 2. unfold S_ext.
  destruct (parity s) as [j [-> | ->]].
  - (* after a blank *)
    rewrite y_at_even, y_at_odd, half_even, skips_even, andb_false_r. cbn [andb].
    destruct (Z.eqb_spec (Z.of_nat k) BLANK) as [Hk|Hk].
    { assert (k = 0) as -> by (unfold BLANK in Hk; lia). rewrite IH by done. by rewrite y_at_even, half_even. }
    rewrite bool_decide_eq_false_2 by (unfold BLANK in *; intros [=]; lia).
    rewrite (proj2 (Nat.eqb_neq k 0)) by (unfold BLANK in Hk; lia).
    destruct (Nat.ltb_spec (2 * j + 1) (2 * length y + 1)) as [Hj|Hj]; cbn [andb].
    + rewrite (drop_S y _ j (y_lookup j ltac:(lia))).
      destruct (Z.eqb_spec (Z.of_nat k) (nth j y BLANK)) as [He|He].
      * rewrite IH by lia. rewrite y_at_odd, half_odd, <- He, Nat2Z.id. split; [by intros ->|by intros [= H]].
      * rewrite run_None. split; [done|]. by intros [= H _].
    + rewrite run_None. split; [done|]. by rewrite drop_ge by lia.
  - (* after a label *)
    assert (j < length y) as Hj by lia. pose proof (label_pos j Hj) as Hlab.
    replace (2 * j + 1 + 1) with (2 * S j) by lia. replace (2 * j + 1 + 2) with (2 * j + 3) by lia.
    rewrite y_at_even, y_at_odd, skips_odd by done. 
    assert (y_at (2 * j + 3) = nth (S j) y BLANK) as -> by (replace (2 * j + 3) with (2 * S j + 1) by lia; apply y_at_odd).
    replace (2 * S j / 2) with (S j) by (rewrite Nat.mul_comm, Nat.div_mul; lia).
    destruct (Z.eqb_spec (Z.of_nat k) (nth j y BLANK)) as [Hk|Hk].
    { rewrite bool_decide_eq_true_2 by (rewrite <- Hk, Nat2Z.id; done). rewrite IH by lia. by rewrite y_at_odd, half_odd. }
    rewrite bool_decide_eq_false_2 by (intros [= He]; lia).
    rewrite (proj2 (Nat.ltb_lt (2 * S j) _)) by lia. cbn [andb].
    destruct (Z.eqb_spec (Z.of_nat k) BLANK) as [Hb|Hb].
    { assert (k = 0) as -> by (unfold BLANK in Hb; lia). cbn [Nat.eqb]. rewrite IH by lia. by rewrite y_at_even, half_even. }
    rewrite (proj2 (Nat.eqb_neq k 0)) by (unfold BLANK in Hb; lia).
    destruct (Nat.ltb_spec (2 * j + 3) (2 * length y + 1)) as [Hj2|Hj2]; cbn [andb].
    + rewrite (drop_S y _ (S j) (y_lookup (S j) ltac:(lia))). pose proof (label_pos (S j) ltac:(lia)) as Hlab2.
      rewrite (proj2 (Z.eqb_neq (nth (S j) y BLANK) BLANK)) by (unfold BLANK in *; lia). rewrite andb_true_r.
      destruct (Z.eqb_spec (Z.of_nat k) (nth (S j) y BLANK)) as [He|He].
      * rewrite (proj2 (Z.eqb_neq _ _)) by congruence. cbn [negb andb]. replace (2 * j + 3) with (2 * S j + 1) by lia.
        rewrite IH by lia. rewrite y_at_odd, half_odd, <- He, Nat2Z.id. split; [by intros ->|by intros [= H]].
      * rewrite andb_false_r, run_None. split; [done|]. by intros [= H _].
    + rewrite run_None. split; [done|]. by rewrite drop_ge by lia.
Qed.

Lemma accepts π : final (state π) = true ↔ collapse π = y.
Proof using y_ok.
  unfold state, collapse. rewrite (accepts_from 0 π ltac:(lia)). change (y_at 0) with BLANK. simpl. change (Z.to_nat BLANK) with 0.
  assert (collapse_from None π = collapse_from (Some 0) π) as ->; [|done].
  destruct π as [|k π]; [done|]. cbn [collapse_from]. rewrite bool_decide_eq_false_2 by done. case_bool_decide as Hk; [|done].
  injection Hk as <-. done.
Qed.
End automaton.

(** ** The forward recurrence *)

Section forward.
Local Open Scope R_scope.
Context (y : list Z) (c : nat) (y_ok : Forall (λ l, 0 < l < Z.of_nat c)%Z y) (c_pos : (0 < c)%nat) (prob : nat → nat → R).

Local Notation label s := (Z.to_nat (y_at y s)).

(** The total probability of the sequences of length [T] that end in state [s] *)
Fixpoint fwd (T s : nat) : R :=
  match T with
  | O => if s =? 0 then 1 else 0
  | S T => (fwd T s + (if 0 <? s then fwd T (s - 1) else 0) + (if skips y s then fwd T (s - 2) else 0)) * prob T (label s)
  end.

Lemma label_lt s : (s < S_ext y)%nat → (label s < c)%nat ∧ Z.of_nat (label s) = y_at y s.
Proof using y_ok c_pos.
  unfold S_ext. intros Hs. destruct (parity s) as [j [-> | ->]]; [rewrite y_at_even; unfold BLANK; simpl; lia|].
  rewrite y_at_odd. pose proof (label_pos y c y_ok j ltac:(lia)). lia.
Qed.

Lemma y_at_step s : (s + 1 < S_ext y)%nat → y_at y s ≠ y_at y (s + 1).
Proof using y_ok c_pos.
  unfold S_ext. intros Hs. destruct (parity s) as [j [-> | ->]].
  - rewrite y_at_even, y_at_odd. pose proof (label_pos y c y_ok j ltac:(lia)). unfold BLANK in *. lia.
  - replace (2 * j + 1 + 1)%nat with (2 * S j)%nat by lia. rewrite y_at_even, y_at_odd.
    pose proof (label_pos y c y_ok j ltac:(lia)). unfold BLANK in *. lia.
Qed.

Lemma skips_spec s : skips y s = true ↔ (1 < s)%nat ∧ y_at y s ≠ BLANK ∧ y_at y s ≠ y_at y (s - 2).
Proof using Type.
  unfold skips. rewrite !andb_true_iff, Nat.ltb_lt, !negb_true_iff, !Z.eqb_neq. clear. tauto.
Qed.

(** The states from which a label leads to [s] *)
Lemma delta_into s' k s : (s < S_ext y)%nat →
  delta y s' k = Some s ↔ k = label s ∧ (s' = s ∨ (0 < s)%nat ∧ s' = (s - 1)%nat ∨ skips y s = true ∧ s' = (s - 2)%nat).
Proof using y_ok c_pos.
  intros Hs. pose proof (label_lt s Hs) as [_ Hlab]. unfold delta. split.
  - destruct (Z.eqb_spec (Z.of_nat k) (y_at y s')) as [Hk|Hk].
    { intros [= ->]. split; [lia|by left]. }
    destruct (Nat.ltb_spec (s' + 1) (S_ext y)); cbn [andb].
    1: destruct (Z.eqb_spec (Z.of_nat k) (y_at y (s' + 1))) as [Hk1|Hk1]; [intros [= <-]; split; [lia|right; left; lia]|].
    all: destruct (_ && skips y (s' + 2)) eqn:Hsk; cbn [andb]; [|done]; apply andb_true_iff in Hsk as [_ Hsk];
      destruct (Z.eqb_spec (Z.of_nat k) (y_at y (s' + 2))) as [Hk2|Hk2]; [|done]; intros [= <-]; (split; [lia|]); right; right;
      (split; [done|lia]).
  - intros [-> [->|[[H0 ->]|[Hsk ->]]]]; rewrite Hlab.
    + by rewrite Z.eqb_refl.
    + pose proof (y_at_step (s - 1) ltac:(lia)) as Hne. replace (s - 1 + 1)%nat with s in * by lia.
      rewrite (proj2 (Z.eqb_neq _ _)) by congruence. rewrite (proj2 (Nat.ltb_lt _ _) Hs), Z.eqb_refl. done.
    + pose proof (proj1 (skips_spec s) Hsk) as (H1 & Hb & Hd). rewrite (proj2 (Z.eqb_neq _ _)) by congruence.
      replace (s - 2 + 2)%nat with s by lia. rewrite (proj2 (Nat.ltb_lt s _) Hs), Hsk, Z.eqb_refl. cbn [andb].
      pose proof (y_at_step (s - 2) ltac:(lia)) as Hne1. pose proof (y_at_step (s - 2 + 1) ltac:(lia)) as Hne2.
      replace (s - 2 + 1 + 1)%nat with s in Hne2 by lia. rewrite (proj2 (Z.eqb_neq (y_at y s) (y_at y (s - 2 + 1)))) by congruence.
      by rewrite andb_false_r.
Qed.

Definition ending (s : nat) (π : list nat) : R := if bool_decide (state y π = Some s) then path_prob prob π else 0.

Lemma state_snoc π k : state y (π ++ [k]) = (s ← state y π; delta y s k).
Proof using Type. unfold state. by rewrite foldl_app. Qed.

Lemma ending_snoc T π s : length π = T → (s < S_ext y)%nat →
  psum c (λ k, ending s (π ++ [k])) =
  (ending s π + (if 0 <? s then ending (s - 1) π else 0) + (if skips y s then ending (s - 2) π else 0)) * prob T (label s).
Proof using y_ok c_pos.
  intros Hl Hs. destruct (label_lt s Hs) as [Hlt _]. rewrite (psum_one c (label s)); [|done|].
  2: { intros k _ Hk. unfold ending. rewrite bool_decide_eq_false_2; [done|]. rewrite state_snoc.
       destruct (state y π) as [s'|]; [|done]. simpl. by intros [-> _]%delta_into. }
  unfold ending. rewrite path_prob_snoc, Hl, state_snoc. destruct (state y π) as [s'|]; cbn [mbind option_bind].
  2: { rewrite !bool_decide_eq_false_2 by done. destruct (0 <? s)%nat, (skips y s); ring. }
  assert (bool_decide (delta y s' (label s) = Some s) =
    bool_decide (s' = s) || (0 <? s) && bool_decide (s' = s - 1)%nat || skips y s && bool_decide (s' = s - 2)%nat) as ->.
  { apply eq_iff_eq_true. rewrite bool_decide_eq_true, (delta_into s' (label s) s Hs), !orb_true_iff, !andb_true_iff, !bool_decide_eq_true, Nat.ltb_lt.
    tauto. }
  assert (∀ j, bool_decide (Some s' = Some j) = bool_decide (s' = j)) as Hb by (intros j; apply bool_decide_ext; naive_solver).
  rewrite !Hb. destruct (Nat.ltb_spec 0 s) as [H0|H0]; cbn [andb].
  - destruct (skips y s) eqn:Hsk; cbn [andb].
    + apply skips_spec in Hsk as (H1 & _). repeat case_bool_decide; try lia; simpl; ring.
    + repeat case_bool_decide; try lia; simpl; ring.
  - destruct (skips y s) eqn:Hsk; [apply skips_spec in Hsk; lia|]. cbn [andb]. repeat case_bool_decide; try lia; simpl; ring.
Qed.

Lemma fwd_paths T s : (s < S_ext y)%nat → fwd T s = path_sum c T (ending s).
Proof using y_ok c_pos.
  revert s. induction T as [|T IH]; intros s Hs.
  - simpl. unfold ending, state. simpl. destruct (Nat.eqb_spec s 0) as [->|Hne]; [by rewrite bool_decide_eq_true_2|].
    rewrite bool_decide_eq_false_2; [done|]. by intros [= <-].
  - cbn [fwd path_sum]. rewrite (path_sum_ext c T _ (λ π, (ending s π + (if 0 <? s then ending (s - 1) π else 0) +
      (if skips y s then ending (s - 2) π else 0)) * prob T (label s))) by (intros; by apply ending_snoc).
    rewrite path_sum_mul_r, !path_sum_add, IH by done. f_equal. f_equal; [f_equal|].
    + destruct (Nat.ltb_spec 0 s); [apply IH; lia|]. symmetry. apply path_sum_zero.
    + destruct (skips y s); [apply IH; lia|]. symmetry. apply path_sum_zero.
Qed.

(** The two last states together hold the probability of the target. *)
Lemma fwd_total T :
  fwd T (2 * length y) + (if 0 <? length y then fwd T (2 * length y - 1) else 0) = target_prob c T prob y.
Proof using y_ok c_pos.
  assert (∀ π, (if bool_decide (collapse π = y) then path_prob prob π else 0) =
    ending (2 * length y) π + (if 0 <? length y then ending (2 * length y - 1) π else 0)) as H.
  { intros π. unfold ending. pose proof (accepts y c y_ok π) as Ha. unfold final in Ha. destruct (state y π) as [s|].
    - assert (∀ j, bool_decide (Some s = Some j) = bool_decide (s = j)) as Hb by (intros j; apply bool_decide_ext; naive_solver).
      rewrite !Hb. rewrite orb_true_iff, !Nat.eqb_eq in Ha.
      destruct (decide (collapse π = y)) as [Hc|Hc].
      + rewrite (bool_decide_eq_true_2 (collapse π = y)) by done. apply Ha in Hc as [->|Hs].
        * rewrite bool_decide_eq_true_2 by done. destruct (Nat.ltb_spec 0 (length y)); [|ring].
          rewrite bool_decide_eq_false_2 by lia. ring.
        * rewrite bool_decide_eq_false_2 by lia. rewrite (proj2 (Nat.ltb_lt _ _)), bool_decide_eq_true_2 by lia. ring.
      + rewrite (bool_decide_eq_false_2 (collapse π = y)) by done.
        assert (s ≠ 2 * length y ∧ s + 1 ≠ 2 * length y)%nat by (split; intros He; apply Hc, Ha; auto).
        rewrite !bool_decide_eq_false_2 by lia. destruct (0 <? length y); ring.
    - rewrite !(bool_decide_eq_false_2 (None = _)) by done. rewrite bool_decide_eq_false_2 by (intros Hc; by apply Ha in Hc).
      destruct (0 <? length y); ring. }
  unfold target_prob. rewrite (path_sum_ext c T _ _ (λ π _ _, H π)), path_sum_add.
  rewrite fwd_paths by (unfold S_ext; lia). f_equal. destruct (Nat.ltb_spec 0 (length y)); [apply fwd_paths; unfold S_ext; lia|].
  symmetry. apply path_sum_zero.
Qed.
End forward.

(** ** The table on exact numbers *)

Section exact.
Local Open Scope R_scope.

(** The logarithm of a probability *)
Definition xlog (p : R) : xreal := if Rgtb p 0 then FIN (ln p) else NINF.

Lemma xlog_0 : xlog 0 = NINF.
Proof. unfold xlog. by rewrite Rgtb_false by lra. Qed.

Lemma xlog_pos p : 0 < p → xlog p = FIN (ln p).
Proof. intros. unfold xlog. by rewrite Rgtb_true. Qed.

Lemma xlog_mul p q : 0 <= p → 0 <= q → xlog p ⊕ xlog q = xlog (p * q).
Proof.
  intros [Hp|<-] [Hq|<-]; rewrite ?Rmult_0_l, ?Rmult_0_r, ?xlog_0; rewrite ?(xlog_pos p), ?(xlog_pos q) by done; try done.
  rewrite xlog_pos by (by apply Rmult_lt_0_compat). fin. by rewrite ln_mult.
Qed.

Lemma log_sum_exp_xlog p q : 0 <= p → 0 <= q → log_sum_exp (xlog p) (xlog q) = xlog (p + q).
Proof.
  intros [Hp|<-] [Hq|<-]; rewrite ?Rplus_0_l, ?Rplus_0_r, ?xlog_0; rewrite ?(xlog_pos p), ?(xlog_pos q) by done; try done.
  unfold log_sum_exp. cbn [k_eq k_neg_inf xreal_fops x_eq]. fin. set (M := Rmax (ln p) (ln q)).
  pose proof (exp_pos (ln p - M)). pose proof (exp_pos (ln q - M)). fin. rewrite xlog_pos by lra. f_equal.
  replace (exp (ln p - M) + exp (ln q - M)) with ((p + q) * exp (- M)).
  - rewrite ln_mult, ln_exp by (lra || apply exp_pos). ring.
  - unfold Rminus. rewrite !exp_plus, !exp_ln by done. ring.
Qed.

Context (ps : list R) (ps_ok : Forall (λ p, 0 <= p) ps) (t_in bs c b : nat).
Context (len_ps : length ps = (t_in * bs * c)%nat) (fits : (Z.of_nat (t_in * bs * c) < 2 ^ 64)%Z).
Context (b_ok : (b < bs)%nat) (c_pos : (0 < c)%nat).

(** The probability of label [k] at time [t] for this sample *)
Definition prob (t k : nat) : R := nth ((t * bs + b) * c + k) ps 0.

Lemma prob_nonneg t k : 0 <= prob t k.
Proof using ps_ok.
  unfold prob. destruct (nth_lookup_or_length ps ((t * bs + b) * c + k) 0) as [H|H].
  - rewrite Forall_forall in ps_ok. apply ps_ok. by eapply list_elem_of_lookup_2.
  - rewrite nth_overflow by done. lra.
Qed.

Context (y : list Z) (y_ok : Forall (λ l, 0 < l < Z.of_nat c)%Z y).

Lemma fwd_nonneg T s : 0 <= fwd y prob T s.
Proof using ps_ok.
  revert s. induction T as [|T IH]; intros s; simpl; [destruct (s =? 0); lra|].
  apply Rmult_le_pos; [|apply prob_nonneg]. pose proof (IH s). pose proof (IH (s - 1)%nat). pose proof (IH (s - 2)%nat).
  destruct (0 <? s), (skips y s); lra.
Qed.

Lemma lp_b_run {E} t s : (t < t_in)%nat → (s < S_ext y)%nat →
  lp_b (E := E) (xlog <$> ps) bs c b t (y_at y s) = Ok (xlog (prob t (Z.to_nat (y_at y s)))).
Proof using len_ps fits b_ok c_pos y_ok.
  intros Ht Hs. destruct (label_lt y c y_ok c_pos s Hs) as [Hl Hz]. unfold lp_b, prob.
  assert ((t * bs + b) * c + Z.to_nat (y_at y s) < t_in * bs * c)%nat by (apply digit_lt; [by apply digit_lt|done]).
  set (N := ((t * bs + b) * c)%nat) in *. set (T := (t_in * bs * c)%nat) in *. clearbody N T.
  rewrite (wrap_small 64 (y_at y s)) by (unfold uint; lia). rewrite wrap_small by (unfold uint; lia).
  replace (Z.to_nat (Z.of_nat N + y_at y s)) with (N + Z.to_nat (y_at y s))%nat by lia.
  destruct (lookup_lt_is_Some_2 ps (N + Z.to_nat (y_at y s)) ltac:(lia)) as [p Hp].
  unfold rd. rewrite list_lookup_fmap, Hp. by rewrite (nth_lookup_Some _ _ _ _ Hp).
Qed.

(** The rows before [t] and the first [s] cells of row [t] are filled. *)
Definition filled (t s : nat) (alpha : list xreal) (t_b : nat) : Prop :=
  length alpha = (t_b * S_ext y)%nat ∧
  ∀ r q, (q < S_ext y)%nat → (r < t ∨ r = t ∧ q < s)%nat → alpha !! (r * S_ext y + q)%nat = Some (xlog (fwd y prob (S r) q)).

Context (y_ext : list Z) (ext_len : length y_ext = S_ext y).
Context (ext_ok : ∀ s, (s < S_ext y)%nat → y_ext !! s = Some (y_at y s)).

Lemma alpha_cell_run {E} alpha t s t_b : (0 < t < t_b)%nat → (t_b ≤ t_in)%nat → (s < S_ext y)%nat → filled t s alpha t_b →
  alpha_cell (E := E) (xlog <$> ps) bs c b y_ext alpha (S_ext y) t s = Ok (xlog (fwd y prob (S t) s)).
Proof using All.
  intros Ht Htb Hs [_ Hf]. unfold alpha_cell.
  assert (∀ q, (q < S_ext y)%nat → alpha !! ((t - 1) * S_ext y + q)%nat = Some (xlog (fwd y prob t q))) as Hrow.
  { intros q Hq. rewrite Hf by (done || lia). by replace (S (t - 1)) with t by lia. }
  set (B := ((t - 1) * S_ext y)%nat) in *. clearbody B.
  unfold rd at 1. rewrite Hrow by done. cbn [unwrap_opt rbind].
  pose proof (fwd_nonneg t s) as H0. pose proof (fwd_nonneg t (s - 1)) as H1. pose proof (fwd_nonneg t (s - 2)) as H2.
  assert ((if 0 <? s then let? p := rd alpha (B + s - 1) in Ok (log_sum_exp (xlog (fwd y prob t s)) p)
    else Ok (xlog (fwd y prob t s))) = Ok (E := E) (xlog (fwd y prob t s + (if 0 <? s then fwd y prob t (s - 1) else 0)))) as ->.
  { destruct (Nat.ltb_spec 0 s); [|by rewrite Rplus_0_r]. unfold rd.
    replace (B + s - 1)%nat with (B + (s - 1))%nat by lia. rewrite Hrow by lia.
    cbn [unwrap_opt rbind]. by rewrite log_sum_exp_xlog. }
  cbn [rbind]. unfold rd at 1. rewrite ext_ok by done. cbn [unwrap_opt rbind].
  set (A := fwd y prob t s + _). assert (0 <= A) by (unfold A; destruct (0 <? s); lra).
  match goal with |- rbind ?m _ = _ => assert (m = Ok (xlog (A + (if skips y s then fwd y prob t (s - 2) else 0)))) as -> end.
  { unfold skips. destruct (Nat.ltb_spec 1 s); cbn [andb]; [|by rewrite Rplus_0_r].
    destruct (y_at y s =? BLANK)%Z; cbn [negb andb]; [by rewrite Rplus_0_r|].
    unfold rd at 1. rewrite ext_ok by lia. cbn [unwrap_opt rbind]. destruct (_ =? _)%Z; cbn [negb]; [by rewrite Rplus_0_r|].
    unfold rd. replace (B + s - 2)%nat with (B + (s - 2))%nat by lia. rewrite Hrow by lia.
    cbn [unwrap_opt rbind]. by rewrite log_sum_exp_xlog. }
  cbn [rbind]. rewrite lp_b_run by (done || lia). cbn [rbind]. cbn [fwd].
  rewrite xlog_mul; [done| |apply prob_nonneg]. destruct (skips y s); lra.
Qed.

Lemma filled_put {E} alpha t s t_b : (t < t_b)%nat → (s < S_ext y)%nat → filled t s alpha t_b →
  ends (λ alpha, filled t (S s) alpha t_b) (λ _ : E, False) (put alpha (t * S_ext y + s) (xlog (fwd y prob (S t) s))).
Proof using All.
  intros Ht Hs [Hl Hf]. unfold put. assert (t * S_ext y + s < t_b * S_ext y)%nat by (by apply digit_lt).
  rewrite (proj2 (Nat.ltb_lt _ _)) by lia. cbn [ends]. split; [by rewrite length_insert|]. intros r q Hq Hrq.
  destruct (decide (r = t ∧ q = s)) as [[-> ->]|Hne]; [by rewrite list_lookup_insert_eq by lia|].
  rewrite list_lookup_insert_ne; [apply Hf; [done|lia]|]. intros Heq. apply cell_unique in Heq; [lia|done..].
Qed.

Lemma filled_row t alpha t_b : filled t (S_ext y) alpha t_b → filled (S t) 0 alpha t_b.
Proof using All. intros [Hl Hf]. split; [done|]. intros r q Hq Hrq. apply Hf; [done|lia]. Qed.

(** The first row, then the loop over the others *)
Lemma first_row {E} t_b : (0 < t_b ≤ t_in)%nat →
  ends (λ alpha, filled 1 0 alpha t_b) (λ _ : E, False)
    (let? alpha := if (1 <=? S_ext y)%nat then (let? v := lp_b (xlog <$> ps) bs c b 0 BLANK in put (replicate (t_b * S_ext y) k_neg_inf) 0 v)
       else Ok (replicate (t_b * S_ext y) k_neg_inf) in
     if (2 <=? S_ext y)%nat then (let? y1 := rd y_ext 1 in let? v := lp_b (xlog <$> ps) bs c b 0 y1 in put alpha 1 v) else Ok alpha).
Proof using All.
  intros Htb. unfold S_ext at 1. rewrite (proj2 (Nat.leb_le _ _)) by lia.
  pose proof (lp_b_run (E := E) 0 0 ltac:(lia) ltac:(unfold S_ext; lia)) as H0. change (y_at y 0) with BLANK in H0. rewrite H0.
  cbn [rbind]. unfold put at 1. rewrite length_replicate. assert (0 < t_b * S_ext y)%nat by (unfold S_ext; nia).
  rewrite (proj2 (Nat.ltb_lt _ _)) by done. cbn [rbind].
  set (A0 := <[0%nat:=_]> _).
  assert (∀ q, (q < S_ext y)%nat → A0 !! q = Some (if (q =? 0)%nat then xlog (prob 0 0) else NINF)) as HA0.
  { intros q Hq. unfold A0. destruct (Nat.eqb_spec q 0) as [->|Hne]; [by rewrite list_lookup_insert_eq by (rewrite length_replicate; lia)|].
    rewrite list_lookup_insert_ne by done. apply lookup_replicate_2. nia. }
  assert (length A0 = (t_b * S_ext y)%nat) as Hlen by (unfold A0; by rewrite length_insert, length_replicate).
  assert (∀ q, (1 < q)%nat → (q < S_ext y)%nat → fwd y prob 1 q = 0) as Hzero.
  { intros q H1 Hq. cbn [fwd]. rewrite (proj2 (Nat.eqb_neq q 0)), (proj2 (Nat.ltb_lt 0 q)), (proj2 (Nat.eqb_neq (q - 1) 0)) by lia.
    destruct (skips y q) eqn:Hsk; [|ring]. rewrite (proj2 (Nat.eqb_neq (q - 2) 0)); [ring|]. intros Hq2.
    assert (q = 2 * 0 + 2)%nat as -> by lia. by rewrite skips_even in Hsk. }
  assert (fwd y prob 1 0 = prob 0 0) as Hf0 by (change (fwd y prob 1 0) with ((1 + 0 + 0) * prob 0 0); ring).
  destruct (Nat.leb_spec 2 (S_ext y)) as [H2|H2].
  - unfold rd. rewrite ext_ok by lia. cbn [unwrap_opt rbind]. rewrite lp_b_run by lia. cbn [rbind]. unfold put. rewrite Hlen.
    assert (1 < t_b * S_ext y)%nat by nia. rewrite (proj2 (Nat.ltb_lt _ _)) by done. cbn [ends].
    split; [by rewrite length_insert|]. intros r q Hq Hrq. assert (r = 0)%nat as -> by lia. rewrite Nat.mul_0_l, Nat.add_0_l.
    destruct (decide (q = 1)%nat) as [->|Hne].
    + rewrite list_lookup_insert_eq by lia. do 2 f_equal. change (fwd y prob 1 1) with ((0 + 1 + 0) * prob 0 (Z.to_nat (y_at y 1))). ring.
    + rewrite list_lookup_insert_ne by done. rewrite HA0 by done. destruct (Nat.eqb_spec q 0) as [->|H0q]; [by rewrite Hf0|].
      by rewrite Hzero, xlog_0 by lia.
  - cbn [ends]. split; [done|]. intros r q Hq Hrq. assert (r = 0)%nat as -> by lia. rewrite Nat.mul_0_l, Nat.add_0_l, HA0 by done.
    assert (q = 0)%nat as -> by lia. by rewrite Hf0.
Qed.

Lemma all_rows {E} alpha t_b : (0 < t_b ≤ t_in)%nat → filled 1 0 alpha t_b →
  ends (λ alpha, filled t_b 0 alpha t_b) (λ _ : E, False)
    (rfold (λ alpha t, for_range (S_ext y) (λ alpha s,
      let? v := alpha_cell (xlog <$> ps) bs c b y_ext alpha (S_ext y) t s in put alpha (t * S_ext y + s) v) alpha) alpha (List.seq 1 (t_b - 1))).
Proof using All.
  intros Htb Hf. change (List.seq 1 (t_b - 1)) with (seq 1 (t_b - 1)). rewrite <- fmap_S_seq, rfold_fmap.
  assert (∀ n, (n ≤ t_b - 1)%nat → ends (λ alpha, filled (S n) 0 alpha t_b) (λ _ : E, False)
    (for_range n (λ alpha t, for_range (S_ext y) (λ alpha s,
      let? v := alpha_cell (xlog <$> ps) bs c b y_ext alpha (S_ext y) (S t) s in put alpha (S t * S_ext y + s) v) alpha) alpha)) as H.
  { intros n Hn. apply (ends_range (λ n alpha, filled (S n) 0 alpha t_b)); [done|]. intros A t Ht HA.
    eapply (ends_impl _ (λ A, filled (S t) (S_ext y) A t_b)); [|intros A2; apply filled_row].
    apply (ends_range (λ s A, filled (S t) s A t_b)); [done|]. intros A' s Hs HA'.
    rewrite (alpha_cell_run A' (S t) s t_b) by (done || lia). cbn [rbind]. apply filled_put; [lia|done|done]. }
  specialize (H (t_b - 1)%nat ltac:(lia)). by replace (S (t_b - 1)) with t_b in H by lia.
Qed.

Lemma ctc_sample_run {E} t_b : (0 < t_b ≤ t_in)%nat →
  ctc_sample (E := E) (xlog <$> ps) bs c b y_ext t_b = Ok (x_neg (xlog (target_prob c t_b prob y))).
Proof using All.
  intros Htb. unfold ctc_sample. rewrite ext_len.
  pose proof (first_row (E := E) t_b Htb) as H1. revert H1.
  destruct (if (1 <=? S_ext y)%nat then _ else _) as [A0| |]; cbn [rbind]; [|done..].
  destruct (if (2 <=? S_ext y)%nat then _ else _) as [A1| |]; cbn [rbind ends]; [|done..]. intros H1.
  pose proof (all_rows (E := E) A1 t_b Htb H1) as H2. destruct (rfold _ _ _) as [A2| |]; [|done..]. cbn [rbind ends] in *.
  destruct H2 as [_ Hf]. unfold S_ext at 1. rewrite (proj2 (Nat.leb_le 1 _)) by lia.
  assert (∀ q, (q < S_ext y)%nat → rd (E := E) A2 ((t_b - 1) * S_ext y + q)%nat = Ok (xlog (fwd y prob t_b q))) as Hlast.
  { intros q Hq. unfold rd. rewrite Hf by (done || lia). by replace (S (t_b - 1)) with t_b by lia. }
  set (B := ((t_b - 1) * S_ext y)%nat) in *. clearbody B.
  replace (B + S_ext y - 1)%nat with (B + 2 * length y)%nat by (unfold S_ext; lia). rewrite Hlast by (unfold S_ext; lia). cbn [rbind].
  change (log_sum_exp k_neg_inf ?v) with v. rewrite <- (fwd_total y c y_ok c_pos prob t_b).
  destruct (Nat.ltb_spec 0 (length y)) as [Hy|Hy].
  - rewrite (proj2 (Nat.leb_le 2 _)) by (unfold S_ext; lia).
    replace (B + S_ext y - 2)%nat with (B + (2 * length y - 1))%nat by (unfold S_ext; lia). rewrite Hlast by (unfold S_ext; lia). cbn [rbind].
    rewrite log_sum_exp_xlog by apply fwd_nonneg. done.
  - rewrite (proj2 (Nat.leb_gt 2 _)) by (unfold S_ext; lia). cbn [rbind]. by rewrite Rplus_0_r.
Qed.
End exact.

(** ** The loss of a batch *)

(** The labels of sample [b] *)
Definition target_of (tg : list Z) (s_max b : nat) (tl : Z) : list Z := take (clip_len tl s_max) (drop (b * s_max) tg).

Lemma clip_len_le len n : clip_len len n ≤ n.
Proof. unfold clip_len. pose proof (wrap_uint 64 len ltac:(lia)) as Hw. unfold uint in Hw. lia. Qed.

Lemma extend_target_run {E} tg s_max bs b s_b : length tg = bs * s_max → b < bs → s_b ≤ s_max → (Z.of_nat (bs * s_max) < 2 ^ 64)%Z →
  let y := take s_b (drop (b * s_max) tg) in
  ends (λ ye, length ye = S_ext y ∧ ∀ s, s < S_ext y → ye !! s = Some (y_at y s)) (λ _ : E, False) (extend_target tg s_max b s_b).
Proof.
  intros Htg Hb Hs Hfit y. assert (b * s_max + s_max ≤ bs * s_max) as Hrow by nia.
  assert (length y = s_b) as Hy by (unfold y; rewrite length_take, length_drop; lia).
  pose (P := λ i (l : list Z), length l = S_ext y ∧
    ∀ s, s < S_ext y → l !! s = Some (if Nat.even s then BLANK else if s / 2 <? i then nth (s / 2) y BLANK else BLANK)).
  eapply ends_impl; [apply (ends_range P)|].
  - split; [unfold S_ext; by rewrite length_replicate, Hy|]. intros s Hs'. unfold S_ext in Hs'. rewrite lookup_replicate_2 by lia.
    simpl. by destruct (Nat.even s).
  - intros l i Hi [Hl HP]. rewrite ix_small by lia.
    assert (y !! i = tg !! (b * s_max + i)) as Hyi by (unfold y; by rewrite lookup_take_lt, lookup_drop).
    unfold rd. rewrite <- Hyi, (y_lookup y i) by lia. cbn [unwrap_opt rbind]. unfold put. rewrite Hl. unfold S_ext at 1.
    rewrite (proj2 (Nat.ltb_lt _ _)) by lia. cbn [ends]. split; [by rewrite length_insert|]. intros s Hs'.
    destruct (decide (s = 2 * i + 1)) as [->|Hne].
    + rewrite list_lookup_insert_eq by (rewrite Hl; lia). rewrite Nat.even_add, Nat.even_mul, half_even. simpl.
      by rewrite (proj2 (Nat.ltb_lt i (S i))) by lia.
    + rewrite list_lookup_insert_ne by lia. rewrite HP by done. destruct (Nat.even s) eqn:Hev; [done|].
      assert (s / 2 ≠ i) as Hi2.
      { intros <-. destruct (parity s) as [j [-> | ->]]; [by rewrite Nat.even_mul in Hev|]. rewrite half_even in Hne. lia. }
      do 2 f_equal. destruct (Nat.ltb_spec (s / 2) i), (Nat.ltb_spec (s / 2) (S i)); try done; lia.
  - intros l [Hl HP]. split; [done|]. intros s Hs'. rewrite HP by done. unfold y_at. destruct (Nat.even s) eqn:Hev; [done|].
    unfold S_ext in Hs'. destruct (parity s) as [j [-> | ->]]; [by rewrite Nat.even_mul in Hev|]. rewrite half_even.
    by rewrite (proj2 (Nat.ltb_lt _ _)) by lia.
Qed.

(** The loss of sample [b] *)
Definition sample_loss (ps : list R) (t_in bs c : nat) (tg : list Z) (s_max : nat) (input_lens target_lens : list Z) (b : nat) : xreal :=
  x_neg (xlog (target_prob c (clip_len (nth b input_lens 0%Z) t_in) (prob ps bs c b) (target_of tg s_max b (nth b target_lens 0%Z)))).

(** C8: The loss of connectionist temporal classification on exact numbers: given the
    logarithms of non-negative probabilities, at least one time step per sample and
    targets whose labels are classes other than the blank, the call returns, and the
    loss of each sample is minus the logarithm of the sum, over all label sequences of
    its length that become the target when repetitions are merged and blanks dropped,
    of the product of the probabilities of their labels (infinite if there is none);
    the reductions add them up and divide by the batch size. *)
Theorem ctc_loss_correct ps t_in bs c tg s_max input_lens target_lens red :
  Forall (λ p, 0 <= p)%R ps → length ps = t_in * bs * c → length tg = bs * s_max → 0 < c →
  length input_lens = bs → length target_lens = bs →
  (∀ b, b < bs → 0 < clip_len (nth b input_lens 0%Z) t_in) →
  (∀ b, b < bs → Forall (λ l, 0 < l < Z.of_nat c)%Z (target_of tg s_max b (nth b target_lens 0%Z))) →
  (Z.of_nat (t_in * bs * c) < 2 ^ 64 ∧ Z.of_nat (bs * s_max) < 2 ^ 64 ∧ Z.of_nat bs < 2 ^ 64)%Z →
  let losses := sample_loss ps t_in bs c tg s_max input_lens target_lens <$> List.seq 0 bs in
  ctc_loss_forward (dense_view F32 [t_in; bs; c] (xlog <$> ps)) (dense_view I64 [bs; s_max] tg) input_lens target_lens red =
  Ok (match red with
      | RedNone => ([bs], losses)
      | RedSum => ([], [k_sum losses])
      | RedMean => ([], [k_sum losses ⊘ k_of_nat bs])
      end).
Proof.
  intros Hps Hlen Htg Hc Hil Htl Hpos Hlab (H1 & H2 & H3) losses. unfold ctc_loss_forward.
  cbn [tv_dtype tv_shape tv_slice dense_view length Nat.eqb negb orb tv_dim rd lookup list_lookup unwrap_opt rbind].
  rewrite !bool_decide_eq_true_2 by done. cbn [negb rbind unwrap_opt tv_dim rd tv_shape].
  assert (∀ L, length L = bs → for_range (E := BackendError) bs (λ losses b,
        let? il := rd input_lens b in
        let? tl := rd target_lens b in
        let? y_ext := extend_target tg s_max b (clip_len tl s_max) in
        let? v := ctc_sample (xlog <$> ps) bs c b y_ext (clip_len il t_in) in
        put losses b v) L = Ok losses) as Hrun.
  { intros L HL. assert (fills (E := BackendError) (for_range bs (λ losses b,
        let? il := rd input_lens b in
        let? tl := rd target_lens b in
        let? y_ext := extend_target tg s_max b (clip_len tl s_max) in
        let? v := ctc_sample (xlog <$> ps) bs c b y_ext (clip_len il t_in) in
        put losses b v)) 0 losses) as Hf.
    - unfold losses. apply row_loop. intros l b Hb. rewrite !(rd_nth 0%Z) by lia. cbn [rbind].
      pose proof (extend_target_run (E := BackendError) tg s_max bs b (clip_len (nth b target_lens 0%Z) s_max) Htg Hb
        (clip_len_le _ _) H2) as He. cbv zeta in He.
      destruct (extend_target _ _ _ _) as [ye| |]; [|done..]. destruct He as [Hye Hext]. cbn [rbind].
      rewrite (ctc_sample_run ps Hps t_in bs c b Hlen H1 Hb Hc _ (Hlab b Hb) ye Hye Hext)
        by (pose proof (clip_len_le (nth b input_lens 0%Z) t_in); specialize (Hpos b Hb); lia). done.
    - rewrite (Hf L) by (unfold losses; rewrite length_fmap, length_seq; lia). unfold losses at 2.
      rewrite length_fmap, length_seq, drop_ge by lia. simpl. by rewrite app_nil_r. }
  rewrite Hrun by apply length_replicate. cbn [rbind]. destruct red; [done|done|]. unfold from_vec. cbn [foldl].
  unfold losses at 1. rewrite length_fmap, length_seq, ix_small, Nat.mul_1_l, Nat.eqb_refl by lia. done.
Qed.

(** Two time steps, a blank and one label with probabilities 1/2: three of the four
    sequences collapse to the target. *)
Lemma ctc_loss_correct_witness :
  let ps := [1/2; 1/2; 1/2; 1/2]%R in
  ctc_loss_forward (dense_view F32 [2; 1; 2] (xlog <$> ps)) (dense_view I64 [1; 1] [1%Z]) [2%Z] [1%Z] RedNone =
  Ok ([1], [x_neg (xlog (3 / 4))]).
Proof.
  intros ps. etransitivity.
  - apply (ctc_loss_correct ps 2 1 2 [1%Z] 1 [2%Z] [1%Z] RedNone); [|done|done|lia|done|done|..|lia].
    + unfold ps. repeat constructor; lra.
    + intros [|b] Hb; [vm_compute; lia|lia].
    + intros [|b] Hb; [|lia]. repeat constructor.
  - cbn [List.seq fmap list_fmap]. do 4 f_equal. unfold sample_loss. do 2 f_equal.
    change (nth 0 [2%Z] 0%Z) with 2%Z. change (nth 0 [1%Z] 0%Z) with 1%Z. change (clip_len 2 2) with 2.
    change (target_of [1%Z] 1 0 1) with [1%Z]. unfold target_prob. cbn [path_sum psum app].
    repeat (rewrite bool_decide_eq_true_2 by reflexivity || rewrite bool_decide_eq_false_2 by discriminate).
    unfold path_prob, prob. simpl. lra.
Defined.

(** ** Divergences *)

(** Labels are not compared with the number of classes: label [c] reads the blank of
    the next time step. *)
Lemma label_unchecked {X E} (lp : list X) c t : (Z.of_nat ((t + 1) * c) < 2 ^ 64)%Z → (Z.of_nat c < 2 ^ 64)%Z →
  lp_b (E := E) lp 1 c 0 t (Z.of_nat c) = lp_b lp 1 c 0 (t + 1) BLANK.
Proof.
  intros H1 H2. unfold lp_b. do 3 f_equal. rewrite (wrap_small 64 (Z.of_nat c)) by (unfold uint; lia). unfold BLANK.
  rewrite (wrap_small 64 0) by (unfold uint; lia). nia.
Qed.

(** An input length of 0 panics instead of giving an error or an infinite loss. *)
Lemma empty_input_panics {X} {FO : FOps X} (lp : list X) y_ext : 1 ≤ length y_ext → ctc_sample (E := unit) lp 1 1 0 y_ext 0 = Panic.
Proof.
  intros Hl. unfold ctc_sample. rewrite (proj2 (Nat.leb_le 1 _)) by done. unfold lp_b. destruct (rd lp _) as [v| |] eqn:Hr; [done| |done].
  unfold rd in Hr. by destruct (lp !! _).
Qed.
