(* ===== verification/Softmax.v ===== *)
(** * Softmax (crates/rustorch-cpu/src/kernels/softmax.rs)

    [softmax] and [log_softmax] over any type of floats: the one-pass kernel for rows of
    a dense tensor and the three-pass kernel for any dimension.  Over the reals both
    compute the same function. *)

From Stdlib Require Import ZArith QArith Reals Lra Lia.
From stdpp Require Import base list.
From S2P Require Import Prelude Loops XReal FOps FOpsReal Dtype Shape Layout Tensor View Mutate Iterator TensorView ShapeOps Reduce.

Open Scope nat_scope.

Section kernels.
Context {X : Type} {FO : FOps X}.

(** [softmax_row_online_f32]: the running maximum and sum, then the outputs *)
Definition online_step (ms : X * X) (x : X) : X * X :=
  let ms := if k_gt x ms.1 then (x, ms.2 ⊗ k_exp (ms.1 ⊖ x)) else ms in
  (ms.1, ms.2 ⊕ k_exp (x ⊖ ms.1)).

Definition softmax_row_online (row : list X) (log_form : bool) : list X :=
  let '(mx, sum) := foldl online_step (k_neg_inf, k0) row in
  if log_form then let log_sum := k_ln sum in (λ x, (x ⊖ mx) ⊖ log_sum) <$> row
  else let inv_sum := k1 ⊘ sum in (λ x, k_exp (x ⊖ mx) ⊗ inv_sum) <$> row.

(** [par_chunks_exact(k)] *)
Definition chunks_exact (k : nat) (l : list X) : list (list X) := (λ i, take k (drop (i * k) l)) <$> seq 0 (length l / k).

(** The path for the last dimension of a dense tensor *)
Definition softmax_rows (input : list X) (dim_size n_total : nat) (log_form : bool) : list X :=
  let rows := concat ((λ row, softmax_row_online row log_form) <$> take (n_total / Nat.max 1 dim_size) (chunks_exact (Nat.max 1 dim_size) input)) in
  rows ++ replicate (n_total - length rows) k0.

(** A line in three passes *)
Definition softmax_line {E} (buf : list X) (base stride : Z) (dim_size : nat) (log_form : bool) (out : list X) : res E (list X) :=
  let? mx := for_range dim_size (λ mx k, let? v := line_read buf base stride k in Ok (if k_gt v mx then v else mx)) k_neg_inf in
  let? sumexp := for_range dim_size (λ s k, let? v := line_read buf base stride k in Ok (s ⊕ k_exp (v ⊖ mx))) k0 in
  let log_sumexp := k_ln sumexp in
  for_range dim_size (λ out k,
    let? v := line_read buf base stride k in
    let shifted := v ⊖ mx in
    put out (Z.to_nat (wrap 64 (base + wrap 64 (Z.of_nat k * stride))))
      (if log_form then shifted ⊖ log_sumexp else k_exp shifted ⊘ sumexp)) out.

Definition softmax_strided {E} (src : TView X) (dim : nat) (log_form : bool) : res E (list X) :=
  let shape := tv_zshape src in
  let strides := contiguous_strides shape in
  let? dim_size := tv_dim src dim in
  let n_total := tv_numel src in
  let n_other := n_total / Nat.max 1 dim_size in
  let other_shape := <[dim := 1%Z]> shape in
  for_range n_other (λ out linear,
    let? base := line_base linear other_shape strides dim in
    let? stride := unwrap_opt (strides !! dim) in
    softmax_line (tv_elems src) base stride dim_size log_form out) (replicate n_total k0).

Definition softmax_f32 (src : TView X) (dim : nat) (log_form : bool) : res BackendError (list nat * list X) :=
  let? dim_size := tv_dim src dim in
  let? out :=
    if (dim + 1 =? length (tv_shape src)) && tv_dense src then
      match tv_slice src with
      | Some input => Ok (softmax_rows input dim_size (tv_numel src) log_form)
      | None => softmax_strided src dim log_form
      end
    else softmax_strided src dim log_form in
  from_vec (BOutOfMemory 0) (tv_shape src) out.

Definition softmax_f64 (src : TView X) (dim : nat) (log_form : bool) : res BackendError (list nat * list X) :=
  let? out := softmax_strided src dim log_form in
  from_vec (BOutOfMemory 0) (tv_shape src) out.

Definition softmax_of (log_form : bool) (src : TView X) (dim : nat) : res BackendError (list nat * list X) :=
  if length (tv_shape src) <=? dim then Err (BIndexOutOfBounds (Z.of_nat dim) (Z.of_nat (length (tv_shape src))))
  else
    match tv_dtype src with
    | F32 => softmax_f32 src dim log_form
    | F64 => softmax_f64 src dim log_form
    | d => Err (BDtypeMismatch d d)
    end.

Definition softmax : TView X → nat → res BackendError (list nat * list X) := softmax_of false.
Definition log_softmax : TView X → nat → res BackendError (list nat * list X) := softmax_of true.
End kernels.

(** ** Loops over the lines of a dimension *)

Section lines.
Context {X E : Type} (shape : Shape) (dim : nat) (n : Z).
Context (shape_ok : shape_fits shape) (dim_n : shape !! dim = Some n) (shape_pos : Forall (λ d, (0 < d)%Z) shape).

Definition line_pos (q : list Z) (k : nat) : nat := Z.to_nat (ravel shape (at_pos dim q k)).
Definition line_start (q : list Z) : Z := wrap 64 (dot (<[dim := 0%Z]> q) (contiguous_strides shape)).
Definition line_stride : Z := zprod (drop (S dim) shape).

Lemma line_read_at (buf : list X) q k : in_range (<[dim := 1%Z]> shape) q → (Z.of_nat k < n)%Z →
  line_read (E := E) buf (line_start q) line_stride k = rd buf (line_pos q k) ∧
  Z.to_nat (wrap 64 (line_start q + wrap 64 (Z.of_nat k * line_stride))) = line_pos q k ∧
  line_pos q k < Z.to_nat (zprod shape).
Proof using shape_ok dim_n.
  intros Hq Hk. destruct (line_position shape dim n q shape_ok dim_n Hq k Hk) as [Hp Hb].
  unfold line_read, line_start, line_stride. rewrite Hp. unfold rd, line_pos. split; [done|]. split; [done|]. lia.
Qed.

Lemma n_pos : (0 < n)%Z.
Proof using dim_n shape_pos. exact (Forall_lookup_1 _ _ dim n shape_pos dim_n). Qed.

Lemma line_shape_pos : Forall (λ d, (0 < d)%Z) (<[dim := 1%Z]> shape).
Proof using shape_pos. apply Forall_insert; [done|lia]. Qed.

Lemma line_total : (zprod shape = zprod (<[dim := 1]> shape) * n)%Z.
Proof using dim_n.
  pose proof (lookup_lt_Some _ _ _ dim_n). rewrite <- (take_drop_middle _ _ _ dim_n) at 1 2.
  rewrite insert_middle by (rewrite length_take; lia). rewrite !zprod_app, !zprod_cons. lia.
Qed.

(** Every position is on some line. *)
Lemma line_cover i : i < Z.to_nat (zprod shape) →
  ∃ j k, j < Z.to_nat (zprod (<[dim := 1%Z]> shape)) ∧ k < Z.to_nat n ∧ i = line_pos (unravel (<[dim := 1%Z]> shape) (Z.of_nat j)) k.
Proof using shape_ok dim_n shape_pos.
  intros Hi. pose proof n_pos as Hn. set (idx := unravel shape (Z.of_nat i)).
  assert (in_range shape idx) as Hr by (apply unravel_range; [done|lia]).
  destruct (in_range_lookup _ _ _ _ Hr dim_n) as (c & Hc & Hcn).
  assert (in_range (<[dim := 1%Z]> shape) (<[dim := 0%Z]> idx)) as Hq by (apply Forall2_insert; [done|lia]).
  pose proof (ravel_bound _ _ Hq) as Hb.
  exists (Z.to_nat (ravel (<[dim := 1%Z]> shape) (<[dim := 0%Z]> idx))), (Z.to_nat c).
  split; [lia|]. split; [lia|]. rewrite Z2Nat.id, unravel_ravel by (done || lia).
  unfold line_pos, at_pos. rewrite list_insert_insert_eq, Z2Nat.id by lia. rewrite (list_insert_id _ _ _ Hc).
  unfold idx. rewrite ravel_unravel by (done || lia). lia.
Qed.

(** A loop that writes [h] along each line writes it everywhere. *)
Lemma lines_loop (body : Z → Z → list X → res E (list X)) (h : nat → X) out0 :
  length out0 = Z.to_nat (zprod shape) →
  (∀ q out, in_range (<[dim := 1%Z]> shape) q → length out = Z.to_nat (zprod shape) →
     body (line_start q) line_stride out =
       Ok (foldl (λ out iv, <[iv.1 := iv.2]> out) out ((λ k, (line_pos q k, h (line_pos q k))) <$> seq 0 (Z.to_nat n)))) →
  for_range (Z.to_nat (zprod (<[dim := 1%Z]> shape))) (λ out linear,
    let? base := line_base linear (<[dim := 1%Z]> shape) (contiguous_strides shape) dim in
    let? stride := unwrap_opt (contiguous_strides shape !! dim) in
    body base stride out) out0 = Ok (h <$> seq 0 (Z.to_nat (zprod shape))).
Proof using shape_ok dim_n shape_pos.
  intros Hlen Hbody. pose proof line_shape_pos as Hp. set (ls := <[dim := 1%Z]> shape) in *.
  set (writes := λ q, (λ k, (line_pos q k, h (line_pos q k))) <$> seq 0 (Z.to_nat n)).
  unfold for_range. rewrite (rfold_pure_inv (λ out, length out = Z.to_nat (zprod shape)) _
    (λ out i, foldl (λ out iv, <[iv.1 := iv.2]> out) out (writes (unravel ls (Z.of_nat i))))); [|done|].
  - f_equal. rewrite <- (foldl_concat_fmap (λ (out : list X) iv, <[iv.1 := iv.2]> out) (λ i, writes (unravel ls (Z.of_nat i)))).
    rewrite (foldl_writes _ h).
    + by rewrite Hlen.
    + intros i v (l & Hl & Hin)%list_elem_of_In%in_concat. apply list_elem_of_In in Hin.
      apply list_elem_of_In, list_elem_of_fmap in Hl as (j & -> & _).
      apply list_elem_of_fmap in Hin as (k & [= -> ->] & _). done.
    + intros i Hi. rewrite Hlen in Hi. destruct (line_cover i Hi) as (j & k & Hj & Hk & ->). eexists.
      apply list_elem_of_In, in_concat. exists (writes (unravel ls (Z.of_nat j))).
      split; apply list_elem_of_In, list_elem_of_fmap; [exists j|exists k]; (split; [done|apply elem_of_seq; unfold ls; lia]).
  - intros out i Hi%elem_of_seq Hlo.
    assert (in_range ls (unravel ls (Z.of_nat i))) as Hr by (apply unravel_range; [done|lia]).
    unfold line_base. rewrite decode_coords_unravel by (done || lia). cbn [rbind].
    rewrite contiguous_strides_prods by done. rewrite (suffix_prods_lookup _ _ _ dim_n). cbn [unwrap_opt rbind].
    pose proof (Hbody _ out Hr Hlo) as Hb. unfold line_start, line_stride in Hb. rewrite contiguous_strides_prods in Hb by done.
    rewrite Hb. split; [done|]. by rewrite length_foldl_insert.
Qed.
End lines.

Open Scope R_scope.

(** ** One line over the reals *)

(** What softmax is: the exponential over the sum of the line's exponentials *)
Definition softmax_val (log_form : bool) (x total : R) : R := if log_form then x - ln total else exp x / total.

Lemma exp_sum_pos n (a : nat → R) : (0 < n)%nat → 0 < psum n (λ k, exp (a k)).
Proof.
  intros Hn. destruct n as [|n]; [lia|]. cbn [psum]. pose proof (exp_pos (a n)).
  pose proof (psum_nonneg n (λ k, exp (a k)) ltac:(intros; apply Rlt_le, exp_pos)). lra.
Qed.

Lemma exp_shift_sum n (a : nat → R) m : psum n (λ k, exp (a k - m)) = exp (- m) * psum n (λ k, exp (a k)).
Proof.
  rewrite <- psum_mul_l. apply psum_ext. intros k _. rewrite <- exp_plus. f_equal. lra.
Qed.

(** Subtracting any number first does not matter. *)
Lemma shifted_value n (a : nat → R) m x : (0 < n)%nat →
  (x - m) - ln (psum n (λ k, exp (a k - m))) = softmax_val true x (psum n (λ k, exp (a k))) ∧
  exp (x - m) / psum n (λ k, exp (a k - m)) = softmax_val false x (psum n (λ k, exp (a k))).
Proof.
  intros Hn. pose proof (exp_sum_pos n a Hn). pose proof (exp_pos (- m)). rewrite exp_shift_sum. unfold softmax_val. split.
  - rewrite ln_mult, ln_exp by lra. lra.
  - replace (x - m) with (- m + x) by lra. rewrite exp_plus. field. split; lra.
Qed.

Lemma shifted_sum_pos n (a : nat → R) m : (0 < n)%nat → 0 < psum n (λ k, exp (a k - m)).
Proof. apply exp_sum_pos. Qed.

(** The running maximum and sum after [k] elements *)
Lemma online_fold (l : list R) : l ≠ [] →
  ∃ m, foldl online_step (k_neg_inf, k0) (FIN <$> l) = (FIN m, FIN (psum (length l) (λ k, exp (nth k l 0 - m)))).
Proof.
  induction l as [|x l IH] using rev_ind; [done|]. intros _. rewrite fmap_app, foldl_app. cbn [fmap list_fmap foldl].
  rewrite length_app, Nat.add_1_r. cbn [psum]. rewrite app_nth2, Nat.sub_diag by lia. cbn [nth].
  destruct (decide (l = [])) as [->|Hl].
  - exists x. cbn [fmap list_fmap foldl length psum]. unfold online_step. cbn [fst snd]. fin.
    change (k_gt (FIN x) k_neg_inf) with true. cbn [fst snd]. fin.
    change (k_exp (k_neg_inf ⊖ FIN x)) with (@FIN 0). fin. do 2 f_equal. lra.
  - destruct (IH Hl) as [m ->]. unfold online_step. cbn [fst snd]. rewrite fin_gt.
    assert (∀ m', psum (length l) (λ k, exp (nth k (l ++ [x]) 0 - m')) = psum (length l) (λ k, exp (nth k l 0 - m'))) as He.
    { intros m'. apply psum_ext. intros k Hk. by rewrite app_nth1. }
    unfold Rgtb. destruct (Rlt_dec m x); cbn [fst snd]; fin.
    + exists x. rewrite He. do 2 f_equal. f_equal. rewrite (exp_shift_sum _ _ m), (exp_shift_sum _ _ x).
      replace (- x) with ((m - x) + - m) by lra. rewrite exp_plus. lra.
    + exists m. by rewrite He.
Qed.

(** A row of a dense tensor *)
Lemma softmax_row_spec (l : list R) log_form : l ≠ [] →
  softmax_row_online (FIN <$> l) log_form =
  (λ x, FIN (softmax_val log_form x (psum (length l) (λ k, exp (nth k l 0))))) <$> l.
Proof.
  intros Hl. assert (0 < length l)%nat as Hn by (destruct l; [done|simpl; lia]).
  unfold softmax_row_online. destruct (online_fold l Hl) as [m ->].
  pose proof (shifted_sum_pos (length l) (λ k, nth k l 0) m Hn) as Hp.
  destruct log_form; fin; rewrite <- list_fmap_compose; apply list_fmap_ext; intros i x _; cbn; fin; f_equal.
  - apply (shifted_value _ (λ k, nth k l 0) m x Hn).
  - etransitivity; [|exact (proj2 (shifted_value _ (λ k, nth k l 0) m x Hn))]. unfold Rdiv, Rminus. lra.
Qed.

Section line.
Context (n : nat) (a : nat → R) (base stride : Z) (buf : list xreal).
Context (reads : ∀ k, (k < n)%nat → line_read (E := BackendError) buf base stride k = Ok (FIN (a k))).
Context (n_pos : (0 < n)%nat).

(** A line in three passes, whatever the output holds elsewhere *)
Lemma softmax_line_spec (pos : nat → nat) N log_form (out : list xreal) : length out = N →
  (∀ k, (k < n)%nat → Z.to_nat (wrap 64 (base + wrap 64 (Z.of_nat k * stride))) = pos k ∧ (pos k < N)%nat) →
  softmax_line (E := BackendError) buf base stride n log_form out =
  Ok (foldl (λ out iv, <[iv.1 := iv.2]> out) out
    ((λ k, (pos k, FIN (softmax_val log_form (a k) (psum n (λ k, exp (a k)))))) <$> List.seq 0 n)).
Proof using All.
  intros Hlen Hpos. unfold softmax_line.
  assert (∃ m, for_range (E := BackendError) n (λ mx k, let? v := line_read buf base stride k in Ok (if k_gt v mx then v else mx)) k_neg_inf
    = Ok (FIN m)) as [m ->].
  { clear Hpos. destruct n as [|n']; [lia|]. revert reads. generalize n'. clear. intros n. induction n as [|n IH]; intros reads.
    - exists (a 0%nat). unfold for_range. cbn [List.seq rfold]. rewrite reads by lia. reflexivity.
    - destruct IH as [m Hm]; [intros; apply reads; lia|]. rewrite for_range_S, Hm. cbn [rbind]. rewrite reads by lia. cbn [rbind].
      rewrite fin_gt. destruct (Rgtb _ _); eauto. }
  cbn [rbind].
  rewrite (for_range_inv n _ (λ k, FIN (psum k (λ j, exp (a j - m))))).
  2: { intros k Hk. rewrite reads by done. cbn [rbind]. by fin. }
  cbn [rbind]. pose proof (shifted_sum_pos n a m n_pos) as Hp.
  set (v := λ k, FIN (softmax_val log_form (a k) (psum n (λ k, exp (a k))))).
  pose (f := λ k, foldl (λ (out : list xreal) iv, <[iv.1 := iv.2]> out) out ((λ k, (pos k, v k)) <$> List.seq 0 k)).
  match goal with |- for_range n ?b _ = _ => change (for_range n b (f 0%nat) = Ok (E := BackendError) (f n)) end.
  apply for_range_inv. intros k Hk. unfold f. rewrite reads by done. cbn [rbind]. destruct (Hpos k Hk) as [-> Hlt].
  assert ((if log_form then FIN (a k) ⊖ FIN m ⊖ k_ln (FIN (psum n (λ j, exp (a j - m))))
    else k_exp (FIN (a k) ⊖ FIN m) ⊘ FIN (psum n (λ j, exp (a j - m)))) = v k) as ->.
  { unfold v. destruct log_form; fin; f_equal; apply (shifted_value _ a m (a k) n_pos). }
  unfold put. rewrite length_foldl_insert, Hlen, (proj2 (Nat.ltb_lt _ _)) by done.
  by rewrite List.seq_S, fmap_app, foldl_app.
Qed.
End line.

(** ** Any dimension *)

(** A tensor of finite numbers, without empty dimensions *)
Record fin_view (src : TView xreal) (xs : list R) : Prop := {
  fv_elems : tv_elems src = FIN <$> xs;
  fv_slice s : tv_slice src = Some s → s = FIN <$> xs;
  fv_len : Z.of_nat (length xs) = zprod (tv_zshape src);
  fv_pos : Forall (λ d, (0 < d)%nat) (tv_shape src);
  fv_fits : shape_fits (tv_zshape src)
}.

Lemma numel_fits l a : Forall (λ d, (0 < d)%nat) l → (0 < a)%nat → (Z.of_nat a * zprod (Z.of_nat <$> l) < 2 ^ 64)%Z →
  Z.of_nat (foldl (λ a n, ix (a * n)) a l) = (Z.of_nat a * zprod (Z.of_nat <$> l))%Z.
Proof.
  intros Hl. revert a. induction Hl as [|d l Hd Hl IH]; intros a Ha Hb; [cbn [fmap list_fmap foldl]; rewrite zprod_nil; lia|].
  cbn [fmap list_fmap foldl] in *. rewrite zprod_cons in *.
  assert (0 < zprod (Z.of_nat <$> l))%Z as Hp.
  { apply zprod_pos_inv, Forall_fmap. eapply Forall_impl; [exact Hl|]. intros x Hx. cbv beta in Hx. unfold compose. lia. }
  change (list_fmap nat Z Z.of_nat l) with (Z.of_nat <$> l) in *.
  assert (Z.of_nat (a * d) = Z.of_nat a * Z.of_nat d)%Z as Hm by lia.
  rewrite ix_small by nia. rewrite IH; rewrite ?Hm; nia.
Qed.

Section softmax.
Context (src : TView xreal) (xs : list R) (V : fin_view src xs) (dim n : nat) (dim_n : tv_shape src !! dim = Some n).

Let shape := tv_zshape src.

(** The elements and the sum of exponentials of the line through an index *)
Definition elem_at (idx : list Z) : R := nth (Z.to_nat (ravel (tv_zshape src) idx)) xs 0.
Definition line_sum (idx : list Z) : R := psum n (λ k, exp (elem_at (at_pos dim idx k))).

(** The result at a position *)
Definition softmax_at (log_form : bool) (i : nat) : xreal :=
  FIN (softmax_val log_form (nth i xs 0) (line_sum (unravel (tv_zshape src) (Z.of_nat i)))).

Lemma zdim_n : shape !! dim = Some (Z.of_nat n).
Proof using dim_n. unfold shape, tv_zshape. by rewrite list_lookup_fmap, dim_n. Qed.

Lemma zshape_pos : Forall (λ d, (0 < d)%Z) shape.
Proof using V. unfold shape, tv_zshape. apply Forall_fmap. eapply Forall_impl; [apply (fv_pos _ _ V)|]. intros x Hx. cbv beta in Hx. unfold compose. lia. Qed.

Lemma numel_len : tv_numel src = length xs.
Proof using V.
  pose proof (fv_len _ _ V) as Hl. pose proof (shape_fits_prod _ (fv_fits _ _ V)) as Hb.
  unfold tv_numel. apply Nat2Z.inj. rewrite numel_fits; [|apply V|lia|].
  - rewrite Hl. unfold tv_zshape. lia.
  - unfold tv_zshape in Hb. lia.
Qed.

Lemma line_sum_same idx k : line_sum (at_pos dim idx k) = line_sum idx.
Proof using Type.
  unfold line_sum. apply psum_ext. intros j _. unfold at_pos. by rewrite list_insert_insert_eq.
Qed.

Lemma softmax_strided_spec log_form :
  softmax_strided (E := BackendError) src dim log_form = Ok (softmax_at log_form <$> List.seq 0 (length xs)).
Proof using V dim_n.
  pose proof (fv_len _ _ V) as Hlen. pose proof zdim_n as Hzn. pose proof zshape_pos as Hpos. pose proof (fv_fits _ _ V) as Hfit.
  fold shape in Hlen, Hfit. pose proof (n_pos shape dim _ Hzn Hpos) as Hn.
  pose proof (zprod_pos_inv _ (line_shape_pos shape dim Hpos)) as Hz.
  pose proof (line_total shape dim _ Hzn) as Htot.
  unfold softmax_strided, tv_dim, rd. rewrite dim_n, numel_len. cbn [unwrap_opt rbind]. fold shape.
  replace (length xs / Nat.max 1 n)%nat with (Z.to_nat (zprod (<[dim := 1%Z]> shape))).
  2: { rewrite Nat.max_r by lia. apply (Nat.div_unique _ _ _ 0); [lia|]. nia. }
  replace (length xs) with (Z.to_nat (zprod shape)) by lia.
  apply (lines_loop shape dim (Z.of_nat n) Hfit Hzn Hpos (λ base stride out, softmax_line (tv_elems src) base stride n log_form out)).
  - by rewrite length_replicate.
  - intros q out Hq Hlo. rewrite Nat2Z.id.
    assert (∀ k, (k < n)%nat → in_range shape (at_pos dim q k)) as Hr.
    { intros k Hk. apply (at_pos_range shape dim (Z.of_nat n) q Hzn Hq). lia. }
    rewrite (softmax_line_spec n (λ k, elem_at (at_pos dim q k)) _ _ _) with (pos := line_pos shape dim q) (N := Z.to_nat (zprod shape)).
    + do 2 f_equal. apply list_fmap_ext. intros i k Hk. apply lookup_seq in Hk as [-> Hk]. cbn [Nat.add] in *. f_equal.
      unfold softmax_at, line_pos. pose proof (ravel_bound _ _ (Hr i Hk)) as Hb. rewrite Z2Nat.id by lia. fold shape.
      rewrite unravel_ravel, line_sum_same by (by apply Hr). done.
    + intros k Hk. destruct (line_read_at (E := BackendError) shape dim (Z.of_nat n) Hfit Hzn (tv_elems src) q k Hq ltac:(lia)) as (-> & _ & Hlt).
      rewrite (fv_elems _ _ V). rewrite (rd_nth (FIN 0)) by (rewrite length_fmap; lia). f_equal.
      unfold line_pos. by rewrite (map_nth FIN).
    + lia.
    + done.
    + intros k Hk. destruct (line_read_at (E := BackendError) shape dim (Z.of_nat n) Hfit Hzn (tv_elems src) q k Hq ltac:(lia)) as (_ & H1 & H2).
      done.
Qed.

Lemma ravel_last pre p m c : length p = length pre → ravel (pre ++ [m]) (p ++ [c]) = (ravel pre p * m + c)%Z.
Proof using Type.
  revert p. induction pre as [|d pre IH]; intros [|i p] Hl; try done; cbn [app ravel].
  - rewrite zprod_nil. lia.
  - rewrite IH by (simpl in Hl; lia). rewrite zprod_app, zprod_cons, zprod_nil. lia.
Qed.

(** A line of the last dimension is a row. *)
Lemma last_line idx k : S dim = length shape → in_range shape idx →
  Z.to_nat (ravel shape (at_pos dim idx k)) = (Z.to_nat (ravel shape idx) / n * n + k)%nat.
Proof using V dim_n.
  intros Hd Hr. pose proof zdim_n as Hzn. pose proof (n_pos shape dim _ Hzn zshape_pos) as Hn.
  destruct (in_range_lookup _ _ _ _ Hr Hzn) as (c & Hc & Hcn).
  pose proof (Forall2_length _ _ _ Hr) as Hl.
  assert (idx = take dim idx ++ [c]) as Ei.
  { rewrite <- (take_S_r _ _ _ Hc). symmetry. apply take_ge. lia. }
  assert (shape = take dim shape ++ [Z.of_nat n]) as Es.
  { rewrite <- (take_S_r _ _ _ Hzn). symmetry. apply take_ge. lia. }
  assert (length (take dim idx) = dim) as Ht by (rewrite length_take; lia).
  assert (in_range (take dim shape) (take dim idx)) as Hrt by (by apply Forall2_take).
  pose proof (ravel_bound _ _ Hrt) as Hb.
  rewrite Es at 1 2. rewrite Ei. unfold at_pos. rewrite insert_app_r_alt by lia. rewrite Ht, Nat.sub_diag. cbn [insert list_insert].
  rewrite !ravel_last by (rewrite ?length_take; lia).
  set (r := ravel _ _) in *. rewrite !Z2Nat.inj_add, !Z2Nat.inj_mul, Nat2Z.id by nia.
  rewrite Nat.div_add_l, (Nat.div_small (Z.to_nat c)) by lia. lia.
Qed.

Lemma softmax_rows_spec log_form : S dim = length shape →
  softmax_rows (FIN <$> xs) n (tv_numel src) log_form = softmax_at log_form <$> List.seq 0 (length xs).
Proof using V dim_n.
  intros Hd. pose proof zdim_n as Hzn. pose proof (n_pos shape dim _ Hzn zshape_pos) as Hn.
  pose proof (fv_len _ _ V) as Hlen. fold shape in Hlen. pose proof (line_total shape dim _ Hzn) as Htot.
  unfold softmax_rows. rewrite numel_len, Nat.max_r by lia. set (m := (length xs / n)%nat).
  assert (length xs = m * n)%nat as Hm.
  { unfold m. pose proof (Nat.div_mod_eq (length xs) n). enough (length xs mod n = 0)%nat by lia.
    apply Nat2Z.inj. rewrite Nat2Z.inj_mod, Hlen, Htot, Z.mod_mul by lia. done. }
  unfold chunks_exact. rewrite length_fmap. fold m. rewrite take_ge by (by rewrite length_fmap, length_seq).
  set (f := λ i j, softmax_at log_form (i * n + j)%nat).
  assert (concat ((λ row, softmax_row_online row log_form) <$> ((λ i, take n (drop (i * n) (FIN <$> xs))) <$> List.seq 0 m)) = grid m n f) as ->.
  { unfold grid. f_equal. rewrite <- list_fmap_compose. apply list_fmap_ext. intros i' i Hi. apply lookup_seq in Hi as [-> Hi].
    cbn [Nat.add] in *. cbn. rewrite <- fmap_drop, <- fmap_take.
    assert (length (take n (drop (i' * n) xs)) = n) as Hrow by (rewrite length_take, length_drop; nia).
    rewrite softmax_row_spec by (intros E; rewrite E in Hrow; simpl in Hrow; lia). rewrite Hrow.
    assert (∀ j, (j < n)%nat → nth j (take n (drop (i' * n) xs)) 0 = nth (i' * n + j) xs 0) as Hnth.
    { intros j Hj. destruct (lookup_lt_is_Some_2 xs (i' * n + j)) as [x Hx]; [nia|].
      rewrite (nth_lookup_Some xs _ 0 x Hx). apply nth_lookup_Some. by rewrite lookup_take_lt, lookup_drop. }
    apply list_eq. intros j. rewrite !list_lookup_fmap. destruct (decide (j < n)%nat) as [Hj|Hj].
    2: { rewrite !(proj2 (lookup_ge_None _ _)) by (rewrite ?length_seq; lia). done. }
    rewrite lookup_seq_lt by done.
    assert (take n (drop (i' * n) xs) !! j = Some (nth (i' * n + j) xs 0)) as ->.
    { destruct (lookup_lt_is_Some_2 (take n (drop (i' * n) xs)) j) as [x Hx]; [lia|].
      rewrite Hx. f_equal. rewrite <- (Hnth j Hj). symmetry. by apply nth_lookup_Some. }
    cbn. unfold f, softmax_at. do 3 f_equal. unfold line_sum. apply psum_ext. intros k Hk. f_equal. unfold elem_at.
    rewrite Hnth by done.
    assert (in_range shape (unravel shape (Z.of_nat (i' * n + j)))) as Hr by (apply unravel_range; [apply zshape_pos|nia]).
    fold shape. rewrite last_line by done. rewrite ravel_unravel by (apply zshape_pos || nia). rewrite Nat2Z.id.
    rewrite Nat.div_add_l, (Nat.div_small j), Nat.add_0_r by lia. done. }
  rewrite length_grid, <- Hm, Nat.sub_diag, app_nil_r.
  symmetry. rewrite Hm. apply seq_rows.
Qed.
End softmax.

Lemma softmax_of_spec (src : TView xreal) (xs : list R) (dim n : nat) (log_form : bool) :
  fin_view src xs → tv_shape src !! dim = Some n → tv_dtype src = F32 ∨ tv_dtype src = F64 →
  softmax_of log_form src dim = Ok (tv_shape src, softmax_at src xs dim n log_form <$> List.seq 0 (length xs)).
Proof.
  intros V Hn Hd. pose proof (lookup_lt_Some _ _ _ Hn) as Hlt.
  assert (from_vec (E := BackendError) (BOutOfMemory 0) (tv_shape src) (softmax_at src xs dim n log_form <$> List.seq 0 (length xs)) =
    Ok (tv_shape src, softmax_at src xs dim n log_form <$> List.seq 0 (length xs))) as Hv.
  { unfold from_vec. rewrite length_fmap, length_seq, <- (numel_len src xs V). unfold tv_numel. by rewrite Nat.eqb_refl. }
  unfold softmax_of. rewrite (proj2 (Nat.leb_gt _ _)) by done.
  pose proof (softmax_strided_spec src xs V dim n Hn log_form) as Hs.
  destruct Hd as [-> | ->]; [|unfold softmax_f64; by rewrite Hs].
  unfold softmax_f32, tv_dim, rd. rewrite Hn. cbn [unwrap_opt rbind].
  destruct ((dim + 1 =? length (tv_shape src))%nat && tv_dense src) eqn:Hb; [|by rewrite Hs].
  destruct (tv_slice src) as [s|] eqn:Hsl; [|by rewrite Hs]. cbn [rbind].
  apply andb_prop in Hb as [Hb _]. apply Nat.eqb_eq in Hb.
  rewrite (fv_slice _ _ V s Hsl), (softmax_rows_spec src xs V dim n Hn); [done|]. unfold tv_zshape. rewrite length_fmap. lia.
Qed.

(** C22: over the reals, on a tensor of finite numbers without empty dimensions,
    [softmax] and [log_softmax] along any dimension return, at every index, [exp x / Σ exp]
    and [x - ln Σ exp] with the sum over the line of that index; the one-pass row kernel,
    which keeps a running maximum and rescales its sum, and the strided three-pass kernel
    agree.  Along each line the probabilities are positive and sum to one. *)
Theorem softmax_correct (src : TView xreal) (xs : list R) (dim n : nat) (log_form : bool) :
  fin_view src xs → tv_shape src !! dim = Some n → tv_dtype src = F32 ∨ tv_dtype src = F64 →
  ∃ out, softmax_of log_form src dim = Ok (tv_shape src, out) ∧
    (∀ idx, in_range (tv_zshape src) idx →
       out !! Z.to_nat (ravel (tv_zshape src) idx) =
         Some (FIN (softmax_val log_form (elem_at src xs idx) (line_sum src xs dim n idx))) ∧
       0 < softmax_val false (elem_at src xs idx) (line_sum src xs dim n idx) ∧
       psum n (λ k, softmax_val false (elem_at src xs (at_pos dim idx k)) (line_sum src xs dim n idx)) = 1).
Proof.
  intros V Hn Hd. pose proof (lookup_lt_Some _ _ _ Hn) as Hlt.
  exists (softmax_at src xs dim n log_form <$> List.seq 0 (length xs)). split.
  - by apply softmax_of_spec.
  - intros idx Hr. pose proof (ravel_bound _ _ Hr) as Hb. pose proof (fv_len _ _ V) as Hlen.
    assert (0 < n)%nat as Hnp by exact (Forall_lookup_1 _ _ dim n (fv_pos _ _ V) Hn).
    assert (0 < line_sum src xs dim n idx) as Hpos by exact (exp_sum_pos n (λ k, elem_at src xs (at_pos dim idx k)) Hnp).
    split; [|split].
    + rewrite list_lookup_fmap, lookup_seq_lt by lia. cbn. unfold softmax_at. rewrite Z2Nat.id, unravel_ravel by (done || lia). done.
    + apply Rdiv_lt_0_compat; [apply exp_pos|done].
    + unfold softmax_val, Rdiv. rewrite psum_mul_r. fold (line_sum src xs dim n idx). apply Rinv_r. lra.
Qed.

(** A row whose first element is minus infinity (a masked attention score) becomes NaN in
    the one-pass kernel, while the three-pass kernel gives it weight zero. *)
Lemma masked_first_is_nan :
  softmax (dense_view F32 [1%nat; 2%nat] [NINF; FIN 0]) 1 = Ok ([1%nat; 2%nat], [NAN; NAN]) ∧
  softmax (mkTView F32 [1%nat; 2%nat] None [NINF; FIN 0] false) 1 = Ok ([1%nat; 2%nat], [FIN 0; FIN 1]).
Proof.
  split; [reflexivity|]. unfold softmax, softmax_of. cbn [tv_shape tv_dtype length Nat.leb].
  assert (softmax_strided (E := BackendError) (mkTView F32 [1%nat; 2%nat] None [NINF; FIN 0] false) 1 false = Ok [FIN 0; FIN 1]) as Hs.
  { transitivity (Ok (E := BackendError) [k_exp (x_sub NINF (FIN 0)) ⊘ (k0 ⊕ k_exp (x_sub NINF (FIN 0)) ⊕ k_exp (x_sub (FIN 0) (FIN 0)));
        k_exp (x_sub (FIN 0) (FIN 0)) ⊘ (k0 ⊕ k_exp (x_sub NINF (FIN 0)) ⊕ k_exp (x_sub (FIN 0) (FIN 0)))]); [reflexivity|].
    change (k_exp (x_sub NINF (FIN 0))) with (@FIN 0). change (x_sub (FIN 0) (FIN 0)) with (FIN 0 ⊖ FIN 0).
    fin. replace (0 - 0) with 0 by lra. rewrite exp_0. fin. repeat f_equal; lra. }
  unfold softmax_f32. cbn [tv_dim tv_shape rd lookup list_lookup unwrap_opt rbind tv_dense length Nat.add Nat.eqb andb].
  change (tv_dim (E := BackendError) (mkTView F32 [1%nat; 2%nat] None [NINF; FIN 0] false) 1) with (Ok (E := BackendError) 2%nat).
  cbn [rbind]. rewrite Hs. reflexivity.
Qed.

(** ** Witness *)

Lemma softmax_correct_witness : ∃ out,
  softmax (dense_view F32 [2%nat; 2%nat] (FIN <$> [0; 0; 1; 2])) 1 = Ok ([2%nat; 2%nat], out) ∧ out !! 0%nat = Some (FIN (1 / 2)).
Proof.
  set (src := dense_view F32 [2%nat; 2%nat] (FIN <$> [0; 0; 1; 2])).
  destruct (softmax_correct src [0; 0; 1; 2] 1 2 false) as (out & H & Hv).
  - split; [reflexivity| |reflexivity|repeat constructor|].
    + intros s Hs. simpl in Hs. injection Hs as <-. reflexivity.
    + split; [repeat constructor; lia|vm_compute; reflexivity].
  - reflexivity.
  - left. reflexivity.
  - exists out. split; [exact H|].
    destruct (Hv [0%Z; 0%Z]) as [He _]; [repeat constructor; lia|]. rewrite <- (eq_refl : Z.to_nat (ravel (tv_zshape src) [0%Z; 0%Z]) = 0%nat).
    rewrite He. do 2 f_equal. change (exp 0 / (0 + exp 0 + exp 0) = 1 / 2). rewrite exp_0. lra.
Defined.
