(* ===== verification/Loss.v ===== *)
(** * Loss functions (crates/rustorch-cpu/src/kernels/loss.rs)

    [mse_loss], [cross_entropy], [nll_loss] and [bce_with_logits] over any type of
    floats, with their checks, reductions and the fused path of the squared error; over
    the reals, what each of them computes. *)

From Stdlib Require Import ZArith QArith Reals Lra Lia.
From stdpp Require Import base list.
From S2P Require Import Prelude Loops XReal FOps FOpsReal Dtype Shape Iterator TensorView Reduce Softmax.

Open Scope nat_scope.

#[export] Instance Reduction_eq_dec : EqDecision Reduction.
Proof. solve_decision. Defined.

Section losses.
Context {X : Type} {FO : FOps X}.
(** [ParallelIterator::sum] of rayon, whose order is not specified *)
Context (par_sum : list X → X).

(** [reduce_per_sample_f32] and [_f64]; [unreachable!()] panics. *)
Definition reduce_per_sample (per : list X) (reduction : Reduction) : res BackendError (list nat * list X) :=
  let n := k_of_nat (length per) in
  let s := k_sum per in
  let? val := match reduction with
    | RedMean => Ok (if k_eq n k0 then k_nan else s ⊘ n)
    | RedSum => Ok s
    | RedNone => Panic
    end in
  from_vec (BOutOfMemory 4) [] [val].

Definition sq_err (x t : X) : X := (x ⊖ t) ⊗ (x ⊖ t).

(** The loop [acc += d * d] over a pair of slices *)
Definition sq_acc (xs ts : list X) : res BackendError X :=
  for_range (length xs) (λ acc i, let? x := rd xs i in let? t := rd ts i in Ok (acc ⊕ sq_err x t)) k0.

(** [slice.par_chunks(k)]: the last chunk may be short. *)
Fixpoint par_chunks (fuel k : nat) (l : list X) : list (list X) :=
  match fuel, l with
  | O, _ | _, [] => []
  | S fuel, _ => take k l :: par_chunks fuel k (drop k l)
  end.

Definition MSE_PARALLEL_THRESHOLD : Z := 16384.
Definition MSE_CHUNK : nat := Z.to_nat 8192.

Definition mse_fused (xs ts : list X) (reduction : Reduction) : res BackendError (list nat * list X) :=
  let n := length xs in
  let? total :=
    if (Z.of_nat n <? MSE_PARALLEL_THRESHOLD)%Z then sq_acc xs ts
    else
      let? partials := rmapM (λ c, sq_acc c.1 c.2) (zip (par_chunks n MSE_CHUNK xs) (par_chunks n MSE_CHUNK ts)) in
      Ok (par_sum partials) in
  let? val := match reduction with
    | RedMean => Ok (total ⊘ k_of_nat n)
    | RedSum => Ok total
    | RedNone => Panic
    end in
  from_vec (BOutOfMemory 4) [1] [val].

(** The values per element, kept or reduced *)
Definition reduce_elements (shape : list nat) (per : list X) (reduction : Reduction) : res BackendError (list nat * list X) :=
  match reduction with
  | RedNone => from_vec (BOutOfMemory 0) shape per
  | _ => reduce_per_sample per reduction
  end.

Definition mse_unfused (input target : TView X) (reduction : Reduction) : res BackendError (list nat * list X) :=
  reduce_elements (tv_shape input) (zip_with sq_err (tv_elems input) (tv_elems target)) reduction.

Definition mse_f32 (input target : TView X) (reduction : Reduction) : res BackendError (list nat * list X) :=
  match reduction, tv_dense input && tv_dense target, tv_slice input, tv_slice target with
  | RedMean, true, Some xs, Some ts | RedSum, true, Some xs, Some ts => mse_fused xs ts reduction
  | _, _, _, _ => mse_unfused input target reduction
  end.

Definition mse_loss (input target : TView X) (reduction : Reduction) : res BackendError (list nat * list X) :=
  if negb (bool_decide (tv_shape input = tv_shape target)) then Err (BShapeMismatch (tv_zshape input) (tv_zshape target))
  else if negb (bool_decide (tv_dtype input = tv_dtype target)) then Err (BDtypeMismatch (tv_dtype input) (tv_dtype target))
  else match tv_dtype input with
  | F32 => mse_f32 input target reduction
  | F64 => mse_unfused input target reduction
  | d => Err (BDtypeMismatch d d)
  end.

Definition float_dtype (d : Dtype) : bool := match d with F32 | F64 => true | _ => false end.

Definition nll_loss (log_probs : TView X) (target : TView Z) (reduction : Reduction) : res BackendError (list nat * list X) :=
  if negb (float_dtype (tv_dtype log_probs)) then Err (BDtypeMismatch (tv_dtype log_probs) F32)
  else if negb (bool_decide (tv_dtype target = I64)) then Err (BDtypeMismatch (tv_dtype target) I64)
  else if negb (length (tv_shape log_probs) =? 2) then Err (BShapeMismatch (tv_zshape log_probs) [])
  else
    let? n_samples := tv_dim log_probs 0 in
    let? n_classes := tv_dim log_probs 1 in
    if negb (tv_numel target =? n_samples) then Err (BShapeMismatch (tv_zshape log_probs) (tv_zshape target))
    else
      let lp := tv_elems log_probs in
      let? per_sample := rmapM (λ i,
        let? t := rd (tv_elems target) i in
        if (t <? 0)%Z || (Z.of_nat n_classes <=? t)%Z then Err (BIndexOutOfBounds t (Z.of_nat n_classes))
        else let? v := rd lp (ix (ix (i * n_classes) + Z.to_nat t)) in Ok (k_neg v)) (List.seq 0 n_samples) in
      reduce_per_sample per_sample reduction.

Definition cross_entropy (input : TView X) (target : TView Z) (reduction : Reduction) : res BackendError (list nat * list X) :=
  if negb (float_dtype (tv_dtype input)) then Err (BDtypeMismatch (tv_dtype input) F32)
  else if negb (bool_decide (tv_dtype target = I64)) then Err (BDtypeMismatch (tv_dtype target) I64)
  else if negb (length (tv_shape input) =? 2) then Err (BShapeMismatch (tv_zshape input) [])
  else
    let? n := tv_dim input 0 in
    if negb (length (tv_shape target) =? 1) || negb (tv_numel target =? n) then
      Err (BShapeMismatch (tv_zshape input) (tv_zshape target))
    else
      let? log_probs := log_softmax input 1 in
      nll_loss (dense_view (tv_dtype input) log_probs.1 log_probs.2) target reduction.

Definition bce_element (x t : X) : X := k_max x k0 ⊖ x ⊗ t ⊕ k_ln (k1 ⊕ k_exp (k_neg (k_abs x))).

Definition bce_with_logits (input target : TView X) (reduction : Reduction) : res BackendError (list nat * list X) :=
  if negb (bool_decide (tv_shape input = tv_shape target)) then Err (BShapeMismatch (tv_zshape input) (tv_zshape target))
  else if negb (bool_decide (tv_dtype input = tv_dtype target)) then Err (BDtypeMismatch (tv_dtype input) (tv_dtype target))
  else if float_dtype (tv_dtype input) then
    reduce_elements (tv_shape input) (zip_with bce_element (tv_elems input) (tv_elems target)) reduction
  else Err (BDtypeMismatch (tv_dtype input) (tv_dtype input)).
End losses.

Open Scope R_scope.

(** ** Over the reals *)

Lemma rsum_nth l : rsum l = psum (length l) (λ i, nth i l 0).
Proof.
  induction l as [|x l IH] using rev_ind; [done|]. rewrite rsum_app, length_app, Nat.add_1_r. cbn [psum].
  rewrite app_nth2, Nat.sub_diag by lia. rewrite IH. simpl. rewrite Rplus_0_r. f_equal.
  apply psum_ext. intros i Hi. by rewrite app_nth1.
Qed.

(** What the reductions make of the values per element *)
Definition reduced_to (reduction : Reduction) (per : list R) (result : list xreal) : Prop :=
  match reduction with
  | RedMean => result = [FIN (rsum per / INR (length per))]
  | RedSum => result = [FIN (rsum per)]
  | RedNone => result = FIN <$> per
  end.

Lemma reduce_per_sample_fin per reduction : per ≠ [] → reduction ≠ RedNone →
  ∃ out, reduce_per_sample (FIN <$> per) reduction = Ok ([], out) ∧ reduced_to reduction per out.
Proof.
  intros Hp Hr. assert (INR (length per) ≠ 0) as Hn by (apply not_0_INR; by destruct per).
  unfold reduce_per_sample. rewrite length_fmap, fin_sum, fin_of_nat, fin_0, fin_eq, Reqb_false, fin_div by done.
  destruct reduction; [by eexists|by eexists|done].
Qed.

(** The shape of a loss: that of the input, or without axes *)
Definition loss_shape (shape : list nat) (reduction : Reduction) : list nat :=
  match reduction with RedNone => shape | _ => [] end.

Lemma reduce_elements_fin shape per reduction : per ≠ [] →
  length per = foldl (λ a n, ix (a * n)) 1%nat shape →
  ∃ out, reduce_elements shape (FIN <$> per) reduction = Ok (loss_shape shape reduction, out) ∧ reduced_to reduction per out.
Proof.
  intros Hp Hl. destruct (decide (reduction = RedNone)) as [->|Hr].
  - unfold reduce_elements, from_vec. rewrite length_fmap, Hl, Nat.eqb_refl. by eexists.
  - destruct (reduce_per_sample_fin per reduction Hp Hr) as (out & H & Ho). exists out. by destruct reduction.
Qed.

Lemma zip_with_fin (f : xreal → xreal → xreal) (g : R → R → R) xs ts :
  (∀ x t, f (FIN x) (FIN t) = FIN (g x t)) → zip_with f (FIN <$> xs) (FIN <$> ts) = FIN <$> zip_with g xs ts.
Proof. intros H. revert ts. induction xs as [|x xs IH]; intros [|t ts]; try done. cbn. by rewrite H, IH. Qed.

(** *** Squared error *)

Definition sqe (x t : R) : R := (x - t) * (x - t).

Lemma sq_err_fin x t : sq_err (FIN x) (FIN t) = FIN (sqe x t).
Proof. unfold sq_err. by fin. Qed.

Lemma sq_acc_fin xs ts : length ts = length xs →
  sq_acc (FIN <$> xs) (FIN <$> ts) = Ok (FIN (rsum (zip_with sqe xs ts))).
Proof.
  intros Hl. unfold sq_acc. rewrite length_fmap.
  assert (length (zip_with sqe xs ts) = length xs) as Hz by (rewrite length_zip_with; lia).
  rewrite (for_range_inv _ _ (λ k, FIN (psum k (λ i, nth i (zip_with sqe xs ts) 0)))); [by rewrite rsum_nth, Hz|].
  intros k Hk. destruct (lookup_lt_is_Some_2 xs k Hk) as [x Hx]. destruct (lookup_lt_is_Some_2 ts k) as [t Ht]; [lia|].
  unfold rd. rewrite !list_lookup_fmap, Hx, Ht. cbn [fmap option_fmap option_map unwrap_opt rbind].
  rewrite sq_err_fin, fin_add. cbn [psum]. do 3 f_equal. symmetry. apply nth_lookup_Some.
  by rewrite lookup_zip_with, Hx, Ht.
Qed.

(** The partial sums of the chunks sum to the whole. *)
Lemma chunk_sums k fuel : ∀ xs ts, (0 < k)%nat → (length xs ≤ fuel)%nat → length ts = length xs →
  ∃ ps, rmapM (λ c, sq_acc c.1 c.2) (zip (par_chunks fuel k (FIN <$> xs)) (par_chunks fuel k (FIN <$> ts))) = Ok (FIN <$> ps) ∧
    rsum ps = rsum (zip_with sqe xs ts).
Proof.
  induction fuel as [|fuel IH]; intros xs ts Hk Hf Hl.
  { destruct xs; [|simpl in Hf; lia]. by exists []. }
  destruct xs as [|x xs], ts as [|t ts]; try done; [by exists []|].
  set (XS := x :: xs) in *. set (TS := t :: ts) in *.
  assert (1 ≤ length XS)%nat as H1 by (unfold XS; simpl; lia).
  change (par_chunks (S fuel) k (FIN <$> XS)) with (take k (FIN <$> XS) :: par_chunks fuel k (drop k (FIN <$> XS))).
  change (par_chunks (S fuel) k (FIN <$> TS)) with (take k (FIN <$> TS) :: par_chunks fuel k (drop k (FIN <$> TS))).
  cbn [zip zip_with rmapM fst snd]. rewrite <- !fmap_take, <- !fmap_drop, sq_acc_fin by (rewrite !length_take; lia).
  cbn [rbind]. destruct (IH (drop k XS) (drop k TS)) as (ps & -> & Hs); [done|rewrite length_drop; lia|rewrite !length_drop; lia|].
  eexists (_ :: ps). split; [reflexivity|]. cbn [rsum foldr]. fold (rsum ps). rewrite Hs, <- rsum_app. f_equal.
  rewrite <- zip_with_app by (rewrite !length_take; lia). by rewrite !take_drop.
Qed.

Definition par_sum_ok (par_sum : list xreal → xreal) : Prop := ∀ l, par_sum (FIN <$> l) = FIN (rsum l).

Lemma mse_fused_fin par_sum xs ts reduction : par_sum_ok par_sum → length ts = length xs → xs ≠ [] → reduction ≠ RedNone →
  ∃ out, mse_fused par_sum (FIN <$> xs) (FIN <$> ts) reduction = Ok ([1%nat], out) ∧ reduced_to reduction (zip_with sqe xs ts) out.
Proof.
  intros Hps Hl Hx Hr. assert (INR (length xs) ≠ 0) as Hn by (apply not_0_INR; by destruct xs).
  assert (length (zip_with sqe xs ts) = length xs) as Hz by (rewrite length_zip_with; lia).
  unfold mse_fused. rewrite length_fmap.
  assert ((if (Z.of_nat (length xs) <? MSE_PARALLEL_THRESHOLD)%Z then sq_acc (FIN <$> xs) (FIN <$> ts)
    else let? partials := rmapM (λ c, sq_acc c.1 c.2) (zip (par_chunks (length xs) MSE_CHUNK (FIN <$> xs)) (par_chunks (length xs) MSE_CHUNK (FIN <$> ts))) in
         Ok (par_sum partials)) = Ok (FIN (rsum (zip_with sqe xs ts)))) as ->.
  { destruct (_ <? _)%Z; [by apply sq_acc_fin|].
    destruct (chunk_sums MSE_CHUNK (length xs) xs ts) as (ps & -> & Hs); [unfold MSE_CHUNK; lia|done|done|].
    cbn [rbind]. by rewrite Hps, Hs. }
  cbn [rbind]. rewrite fin_of_nat, fin_div by done. unfold reduced_to. rewrite Hz.
  destruct reduction; [by eexists|by eexists|done].
Qed.

(** *** Binary cross-entropy *)

Definition sigmoid (x : R) : R := / (1 + exp (- x)).

(** The definition of the loss on the logit [x] *)
Definition rbce (x t : R) : R := - (t * ln (sigmoid x) + (1 - t) * ln (1 - sigmoid x)).

Lemma softplus x : Rmax x 0 + ln (1 + exp (- Rabs x)) = x + ln (1 + exp (- x)).
Proof.
  destruct (Rle_dec 0 x) as [Hx|Hx].
  - rewrite Rmax_left, Rabs_pos_eq by lra. done.
  - rewrite Rmax_right, Rabs_left by lra. rewrite Ropp_involutive. pose proof (exp_pos x). pose proof (exp_pos (- x)).
    replace (1 + exp x) with (exp x * (1 + exp (- x))).
    + rewrite ln_mult, ln_exp by lra. lra.
    + rewrite Rmult_plus_distr_l, <- exp_plus. replace (x + - x) with 0 by lra. rewrite exp_0. lra.
Qed.

Lemma bce_stable x t : Rmax x 0 - x * t + ln (1 + exp (- Rabs x)) = rbce x t.
Proof.
  unfold rbce, sigmoid. pose proof (exp_pos (- x)).
  replace (1 - / (1 + exp (- x))) with (exp (- x) * / (1 + exp (- x))) by (field; lra).
  rewrite ln_mult, ln_Rinv, ln_exp by (lra || by apply Rinv_0_lt_compat; lra).
  pose proof (softplus x). lra.
Qed.

Lemma bce_element_fin x t : bce_element (FIN x) (FIN t) = FIN (rbce x t).
Proof. unfold bce_element. fin. pose proof (exp_pos (- Rabs x)). fin. by rewrite bce_stable. Qed.

(** The fused path of the squared error: reduced, on dense [f32] slices *)
Definition mse_fuses (input target : TView xreal) (reduction : Reduction) : bool :=
  match reduction, tv_slice input, tv_slice target with
  | RedNone, _, _ => false
  | _, Some _, Some _ => bool_decide (tv_dtype input = F32) && (tv_dense input && tv_dense target)
  | _, _, _ => false
  end.

(** C39: over the reals, for non-empty tensors of finite numbers of one shape and of one dtype, [f32] or
    [f64], the squared error is [(x-t)²] and [bce_with_logits] is the cross-entropy
    [-(t ln σ(x) + (1-t) ln(1-σ(x)))] of the sigmoid in its stable form, kept per element in
    the shape of the input, or reduced to the sum or the mean.  The fused path of the squared
    error (reduced, on dense [f32] tensors), whose chunks may be summed in any order, computes
    the same value as the plain one; its result has shape [1], the others have no axes. *)
Theorem elementwise_losses_correct par_sum (input target : TView xreal) xs ts reduction :
  par_sum_ok par_sum → fin_view input xs → fin_view target ts → xs ≠ [] →
  tv_shape input = tv_shape target → tv_dtype input = tv_dtype target → float_dtype (tv_dtype input) = true →
  let shape := loss_shape (tv_shape input) reduction in
  (∃ out, mse_loss par_sum input target reduction = Ok (if mse_fuses input target reduction then [1%nat] else shape, out) ∧
     reduced_to reduction (zip_with sqe xs ts) out) ∧
  (∃ out, bce_with_logits input target reduction = Ok (shape, out) ∧ reduced_to reduction (zip_with rbce xs ts) out).
Proof.
  intros Hps V W Hx Hs Hd Hf shape.
  assert (length ts = length xs) as Hl.
  { apply Nat2Z.inj. rewrite (fv_len _ _ V), (fv_len _ _ W). unfold tv_zshape. by rewrite Hs. }
  assert (∀ g, zip_with g xs ts ≠ []) as Hne by (intros g; destruct xs, ts; done).
  assert (∀ g : R → R → R, length (zip_with g xs ts) = foldl (λ a n, ix (a * n)) 1%nat (tv_shape input)) as Hlen.
  { intros g. rewrite length_zip_with, <- (numel_len input xs V). unfold tv_numel in *. pose proof (numel_len input xs V) as E.
    unfold tv_numel in E. lia. }
  assert (∃ out, mse_unfused input target reduction = Ok (shape, out) ∧ reduced_to reduction (zip_with sqe xs ts) out) as Hu.
  { unfold mse_unfused. rewrite (fv_elems _ _ V), (fv_elems _ _ W), (zip_with_fin _ sqe) by apply sq_err_fin.
    by apply reduce_elements_fin. }
  split.
  - unfold mse_loss. rewrite bool_decide_true, bool_decide_true by done. cbn [negb].
    unfold mse_f32, mse_fuses in *. destruct (tv_dtype input); try done;
    destruct (tv_slice input) as [a|] eqn:Ha, (tv_slice target) as [b|] eqn:Hb, (tv_dense input && tv_dense target), reduction; try done;
      rewrite (fv_slice _ _ V a Ha), (fv_slice _ _ W b Hb);
      match goal with |- context [mse_fused _ _ _ ?r] =>
        destruct (mse_fused_fin par_sum xs ts r Hps Hl Hx) as (out & H & Ho); [done|]; by exists out end.
  - unfold bce_with_logits. rewrite bool_decide_true, bool_decide_true by done. cbn [negb]. rewrite Hf.
    rewrite (fv_elems _ _ V), (fv_elems _ _ W), (zip_with_fin _ rbce) by apply bce_element_fin. by apply reduce_elements_fin.
Qed.

(** *** Cross-entropy *)

(** The loss of sample [i] with target [t]: minus the logarithm of the softmax *)
Definition rce (xs : list R) (c i : nat) (t : Z) : R :=
  ln (psum c (λ k, exp (nth (i * c + k) xs 0))) - nth (i * c + Z.to_nat t) xs 0.

Section ce.
Context (input : TView xreal) (xs : list R) (V : fin_view input xs) (n c : nat) (Hshape : tv_shape input = [n; c]).

Lemma ce_bounds : (0 < n ∧ 0 < c ∧ length xs = n * c)%nat ∧ (Z.of_nat n * Z.of_nat c < 2 ^ 63)%Z.
Proof using V Hshape.
  pose proof (fv_pos _ _ V) as Hp. rewrite Hshape in Hp. inversion Hp as [|? ? H1 H2]; subst. inversion H2; subst.
  pose proof (fv_len _ _ V) as Hl. pose proof (shape_fits_prod _ (fv_fits _ _ V)) as Hb.
  unfold tv_zshape in *. rewrite Hshape in Hl, Hb. cbn [fmap list_fmap] in *. rewrite !zprod_cons, zprod_nil in *. lia.
Qed.

(** The log-probability at a position of the matrix *)
Lemma log_prob_at i t : (i < n)%nat → (t < c)%nat →
  softmax_at input xs 1 c true (i * c + t) = FIN (- rce xs c i (Z.of_nat t)).
Proof using V Hshape.
  intros Hi Htc. destruct ce_bounds as ((_ & Hc & _) & _). unfold softmax_at, softmax_val, rce. f_equal.
  rewrite Nat2Z.id.
  assert (line_sum input xs 1 c (unravel (tv_zshape input) (Z.of_nat (i * c + t))) = psum c (λ k, exp (nth (i * c + k) xs 0))) as ->; [|lra].
  unfold line_sum. apply psum_ext. intros k Hk. f_equal. unfold elem_at. f_equal.
  unfold tv_zshape. rewrite Hshape. cbn [fmap list_fmap unravel]. unfold at_pos. rewrite !zprod_cons, zprod_nil.
  replace (Z.of_nat (i * c + t) / (Z.of_nat c * 1))%Z with (Z.of_nat i).
  - cbn [insert list_insert ravel]. rewrite !zprod_cons, zprod_nil. lia.
  - apply (Z.div_unique _ _ _ (Z.of_nat t)); lia.
Qed.

Context (ts : list Z) (Hts : length ts = n).

(** The loop over the samples *)
Definition nll_sample (i : nat) : res BackendError xreal :=
  let? t := rd ts i in
  if (t <? 0)%Z || (Z.of_nat c <=? t)%Z then Err (BIndexOutOfBounds t (Z.of_nat c))
  else let? v := rd (softmax_at input xs 1 c true <$> List.seq 0 (length xs)) (ix (ix (i * c) + Z.to_nat t)) in Ok (k_neg v).

Lemma nll_sample_ok i t : ts !! i = Some t → (0 ≤ t < Z.of_nat c)%Z → nll_sample i = Ok (FIN (rce xs c i t)).
Proof using V Hshape Hts.
  intros Hi Htc. pose proof (lookup_lt_Some _ _ _ Hi) as Hlt. destruct ce_bounds as ((Hn & Hc & Hl) & Hb).
  unfold nll_sample, rd. rewrite Hi. cbn [unwrap_opt rbind].
  rewrite (proj2 (Z.ltb_ge _ _)), (proj2 (Z.leb_gt _ _)) by lia. cbn [orb].
  assert (i * c + Z.to_nat t < n * c)%nat by nia.
  rewrite (ix_small (i * c)) by nia. rewrite ix_small by nia.
  rewrite list_lookup_fmap, lookup_seq_lt by lia. cbn [fmap option_fmap option_map unwrap_opt rbind Nat.add].
  rewrite log_prob_at by lia. fin. do 2 f_equal. rewrite Z2Nat.id by lia. lra.
Qed.

Context (target : TView Z) (Ht : tv_elems target = ts).

Lemma ce_unfold reduction : tv_dtype input = F32 ∨ tv_dtype input = F64 → tv_dtype target = I64 → tv_shape target = [n] →
  cross_entropy input target reduction = let? per := rmapM nll_sample (List.seq 0 n) in reduce_per_sample per reduction.
Proof using All.
  intros Hd Htd Htsh. destruct ce_bounds as ((Hn & Hc & Hl) & Hb).
  assert (float_dtype (tv_dtype input) = true) as Hf by (by destruct Hd as [-> | ->]).
  assert (tv_numel target = n) as Hnum.
  { unfold tv_numel. rewrite Htsh. cbn [foldl]. rewrite Nat.mul_1_l. apply ix_small. nia. }
  unfold cross_entropy. rewrite Hf, bool_decide_true, Hshape, Htsh, Hnum by done. cbn [negb length Nat.eqb].
  unfold tv_dim at 1. rewrite Hshape. unfold rd at 1. cbn [lookup list_lookup unwrap_opt rbind]. rewrite Nat.eqb_refl. cbn [negb orb].
  unfold log_softmax. rewrite (softmax_of_spec input xs 1 c true V) by (done || by rewrite Hshape). cbn [rbind fst snd]. rewrite Hshape.
  unfold nll_loss, dense_view. cbn [tv_dtype tv_shape tv_elems]. rewrite Hf, bool_decide_true by done. cbn [negb length Nat.eqb].
  unfold tv_dim. cbn [tv_shape]. unfold rd at 1 2. cbn [lookup list_lookup unwrap_opt rbind]. rewrite Hnum, Nat.eqb_refl, Ht. done.
Qed.
End ce.

(** The losses of all the samples *)
Lemma nll_samples_ok (input : TView xreal) xs n c ts : fin_view input xs → tv_shape input = [n; c] → length ts = n →
  Forall (λ t, 0 ≤ t < Z.of_nat c)%Z ts →
  rmapM (nll_sample input xs c ts) (List.seq 0 n) = Ok (FIN <$> imap (rce xs c) ts).
Proof.
  intros V Hsh Hts Hall.
  apply rmapM_Ok, Forall2_same_length_lookup. rewrite length_fmap, length_imap, length_seq. split; [done|].
  intros k i v Hk Hv. apply lookup_seq in Hk as [-> Hk]. cbn [Nat.add] in *.
  rewrite list_lookup_fmap, list_lookup_imap in Hv. destruct (ts !! k) as [t|] eqn:E; [|done].
  cbn in Hv. injection Hv as <-. apply (nll_sample_ok input xs V n c Hsh ts Hts); [done|]. by eapply Forall_lookup_1 in Hall.
Qed.

(** Divergence: the losses per sample, which the module documents, are not computed. *)
Lemma cross_entropy_none_panics (input : TView xreal) xs n c (target : TView Z) ts :
  fin_view input xs → tv_shape input = [n; c] → tv_dtype input = F32 ∨ tv_dtype input = F64 →
  tv_elems target = ts → length ts = n → tv_dtype target = I64 → tv_shape target = [n] →
  Forall (λ t, 0 ≤ t < Z.of_nat c)%Z ts → cross_entropy input target RedNone = Panic.
Proof.
  intros V Hsh Hd Ht Hts Htd Htsh Hall. rewrite (ce_unfold input xs V n c Hsh ts Hts target Ht) by done.
  by rewrite (nll_samples_ok input xs n c ts).
Qed.

(** C23: over the reals, for [n × c] finite f32 or f64 logits, n and c positive, and [n] class
    indices, reduced to the sum or the mean, [cross_entropy] is the sum or mean of
    [ln Σ_k exp x_ik - x_(i, t_i)], minus the logarithm of the probability that softmax
    gives the target, in a tensor without axes; a target outside [0, c) is refused with the
    first such index, and nothing is read out of bounds. *)
Theorem cross_entropy_correct (input : TView xreal) xs n c (target : TView Z) ts reduction :
  fin_view input xs → tv_shape input = [n; c] → tv_dtype input = F32 ∨ tv_dtype input = F64 →
  tv_elems target = ts → length ts = n → tv_dtype target = I64 → tv_shape target = [n] → reduction ≠ RedNone →
  (Forall (λ t, 0 ≤ t < Z.of_nat c)%Z ts →
     ∃ out, cross_entropy input target reduction = Ok ([], out) ∧ reduced_to reduction (imap (rce xs c) ts) out) ∧
  (∀ i t, ts !! i = Some t → ¬ (0 ≤ t < Z.of_nat c)%Z → Forall (λ t, 0 ≤ t < Z.of_nat c)%Z (take i ts) →
     cross_entropy input target reduction = Err (BIndexOutOfBounds t (Z.of_nat c))).
Proof.
  intros V Hsh Hd Ht Hts Htd Htsh Hred. rewrite (ce_unfold input xs V n c Hsh ts Hts target Ht) by done. split.
  - intros Hall.
    rewrite (nll_samples_ok input xs n c ts) by done.
    cbn [rbind]. destruct (ce_bounds input xs V n c Hsh) as ((Hn & _) & _).
    destruct reduction; [apply reduce_per_sample_fin; [destruct ts; simpl in *; [lia|done]|done]..|done].
  - intros i t Hi Hbad Hpre. pose proof (lookup_lt_Some _ _ _ Hi) as Hlt.
    assert (rmapM (nll_sample input xs c ts) (List.seq 0 n) = Err (BIndexOutOfBounds t (Z.of_nat c))) as ->; [|done].
    apply rmapM_Err. exists (List.seq 0 i), i, (List.seq (S i) (n - S i)). split_and!.
    + replace n with (i + S (n - S i))%nat at 1 by lia. by rewrite List.seq_app.
    + unfold nll_sample, rd. rewrite Hi. cbn [unwrap_opt rbind].
      destruct (Z.ltb_spec t 0), (Z.leb_spec (Z.of_nat c) t); cbn [orb]; done || lia.
    + apply Forall_forall. intros j Hj%elem_of_seq. destruct (lookup_lt_is_Some_2 ts j) as [t' Ht']; [lia|].
      assert (0 ≤ t' < Z.of_nat c)%Z as Hok.
      { eapply (Forall_lookup_1 _ _ j t' Hpre). by rewrite lookup_take_lt by lia. }
      by rewrite (nll_sample_ok input xs V n c Hsh ts Hts j t' Ht' Hok).
Qed.

(** ** Witnesses *)

Lemma fin_dense T shape xs : Z.of_nat (length xs) = zprod (Z.of_nat <$> shape) → Forall (λ d, (0 < d)%nat) shape →
  shape_fits (Z.of_nat <$> shape) → fin_view (dense_view T shape (FIN <$> xs)) xs.
Proof. intros Hl Hp Hf. split; [done| |done..]. intros s Hs. by injection Hs as <-. Qed.

Lemma elementwise_losses_correct_witness : ∃ out,
  mse_loss k_sum (dense_view F32 [2%nat] (FIN <$> [1; 2])) (dense_view F32 [2%nat] (FIN <$> [3; 5])) RedSum = Ok ([1%nat], out) ∧
  out = [FIN 13].
Proof.
  assert (∀ xs, length xs = 2%nat → fin_view (dense_view F32 [2%nat] (FIN <$> xs)) xs) as Hv.
  { intros xs Hl. apply fin_dense; [rewrite Hl; reflexivity|repeat constructor|split; [repeat constructor; lia|vm_compute; reflexivity]]. }
  destruct (elementwise_losses_correct k_sum (dense_view F32 [2%nat] (FIN <$> [1; 2])) (dense_view F32 [2%nat] (FIN <$> [3; 5]))
    [1; 2] [3; 5] RedSum) as [(out & H & Ho) _].
  - intros l. exact (fin_sum l).
  - apply Hv. reflexivity.
  - apply Hv. reflexivity.
  - discriminate.
  - reflexivity.
  - reflexivity.
  - reflexivity.
  - exists out. split; [exact H|]. rewrite Ho. f_equal. f_equal. unfold sqe, rsum. simpl. lra.
Defined.

Lemma cross_entropy_correct_witness :
  let input := dense_view F32 [2%nat; 2%nat] (FIN <$> [0; 0; 0; 0]) in
  (∃ out, cross_entropy input (dense_view I64 [2%nat] [0%Z; 1%Z]) RedSum = Ok ([], out) ∧ out = [FIN (2 * ln 2)]) ∧
  cross_entropy input (dense_view I64 [2%nat] [0%Z; 7%Z]) RedMean = Err (BIndexOutOfBounds 7 2).
Proof.
  intros input.
  assert (fin_view input [0; 0; 0; 0]) as V.
  { apply fin_dense; [reflexivity|repeat constructor|split; [repeat constructor; lia|vm_compute; reflexivity]]. }
  split.
  - destruct (cross_entropy_correct input [0; 0; 0; 0] 2 2 (dense_view I64 [2%nat] [0%Z; 1%Z]) [0%Z; 1%Z] RedSum) as [H _];
      [exact V|reflexivity|left; reflexivity|reflexivity..|discriminate|].
    destruct H as (out & H & Ho); [repeat constructor; lia|]. exists out. split; [exact H|]. rewrite Ho.
    f_equal. f_equal. change ((ln (0 + exp 0 + exp 0) - 0) + ((ln (0 + exp 0 + exp 0) - 0) + 0) = 2 * ln 2).
    rewrite exp_0. replace (0 + 1 + 1) with 2 by lra. lra.
  - destruct (cross_entropy_correct input [0; 0; 0; 0] 2 2 (dense_view I64 [2%nat] [0%Z; 7%Z]) [0%Z; 7%Z] RedMean) as [_ H];
      [exact V|reflexivity|left; reflexivity|reflexivity..|discriminate|].
    apply (H 1%nat 7%Z); [reflexivity|lia|repeat constructor; lia].
Defined.
