(* ===== verification/Norm.v ===== *)
(** * Batch normalisation (crates/rustorch-cpu/src/kernels/norm.rs)

    [batch_norm2d_forward] and [batch_norm2d_backward] over any type of floats.  Over the
    reals the forward pass normalises each channel, and the backward pass returns the
    derivatives of the forward pass with respect to the input, gamma and beta. *)

From Stdlib Require Import ZArith QArith Reals Lra Lia.
From stdpp Require Import base list.
From S2P Require Import Prelude Loops XReal FOps FOpsReal Dtype Iterator TensorView.

Open Scope nat_scope.

Section norm.
Context {X : Type} {FO : FOps X}.

Definition bn_idx (c h w ni ci hi wi : nat) : nat := ix (((ni * c + ci) * h + hi) * w + wi).

(** [buf[i] += v] *)
Definition add_at {E} (buf : list X) (i : nat) (v : X) : res E (list X) := let? x := rd buf i in put buf i (x ⊕ v).

(** The sums over the samples of each channel of [g] of the element *)
Definition channel_sums (n c h w : nat) (in_data : list X) (g : X → nat → res BackendError X) : res BackendError (list X) :=
  for_range n (λ s ni, for_range c (λ s ci, for_range h (λ s hi, for_range w (λ s wi,
    let? x := rd in_data (bn_idx c h w ni ci hi wi) in
    let? v := g x ci in
    add_at s ci v) s) s) s) (replicate c k0).

Definition batch_norm2d_forward (input gamma beta : TView X) (eps : X)
    : res BackendError ((list nat * list X) * (list nat * list X) * (list nat * list X)) :=
  if negb (bool_decide (tv_dtype input = F32)) then Err (BDtypeMismatch (tv_dtype input) F32)
  else if negb (length (tv_shape input) =? 4) then Err (BShapeMismatch (tv_zshape input) [0; 0; 0; 0]%Z)
  else
    let? n := tv_dim input 0 in
    let? c := tv_dim input 1 in
    let? h := tv_dim input 2 in
    let? w := tv_dim input 3 in
    let m := k_of_nat (ix (ix (n * h) * w)) in
    let? in_data := unwrap_opt (tv_slice input) in
    let? g_data := unwrap_opt (tv_slice gamma) in
    let? b_data := unwrap_opt (tv_slice beta) in
    let? mean := channel_sums n c h w in_data (λ x _, Ok x) in
    let mean := (λ v, v ⊘ m) <$> mean in
    let? var := channel_sums n c h w in_data (λ x ci, let? mu := rd mean ci in let d := x ⊖ mu in Ok (d ⊗ d)) in
    let var := (λ v, v ⊘ m) <$> var in
    let? out := for_range n (λ out ni, for_range c (λ out ci,
        let? v := rd var ci in
        let inv_std := k1 ⊘ k_sqrt (v ⊕ eps) in
        for_range h (λ out hi, for_range w (λ out wi,
          let idx := bn_idx c h w ni ci hi wi in
          let? x := rd in_data idx in
          let? mu := rd mean ci in
          let x_hat := (x ⊖ mu) ⊗ inv_std in
          let? g := rd g_data ci in
          let? b := rd b_data ci in
          put out idx (x_hat ⊗ g ⊕ b)) out) out) out)
      (replicate (ix (ix (ix (n * c) * h) * w)) k0) in
    let? out_t := from_vec (BOutOfMemory (Z.of_nat (ix (ix (ix (n * c) * h) * w * 4)))) [n; c; h; w] out in
    let? mean_t := from_vec (BOutOfMemory (Z.of_nat (ix (c * 4)))) [c] mean in
    let? var_t := from_vec (BOutOfMemory (Z.of_nat (ix (c * 4)))) [c] var in
    Ok (out_t, mean_t, var_t).

(** The four accumulators of the backward pass *)
Definition bn_acc : Type := list X * list X * list X * list X.

Definition batch_norm2d_backward (grad_output input gamma saved_mean saved_var : TView X) (eps : X)
    : res BackendError ((list nat * list X) * (list nat * list X) * (list nat * list X)) :=
  let? n := tv_dim input 0 in
  let? c := tv_dim input 1 in
  let? h := tv_dim input 2 in
  let? w := tv_dim input 3 in
  let m := k_of_nat (ix (ix (n * h) * w)) in
  let? g := unwrap_opt (tv_slice grad_output) in
  let? in_data := unwrap_opt (tv_slice input) in
  let? gamma_data := unwrap_opt (tv_slice gamma) in
  let? mean := unwrap_opt (tv_slice saved_mean) in
  let? var := unwrap_opt (tv_slice saved_var) in
  let zeros := replicate c k0 in
  let? acc := for_range n (λ acc ni, for_range c (λ acc ci,
      let? v := rd var ci in
      let inv_std := k1 ⊘ k_sqrt (v ⊕ eps) in
      for_range h (λ acc hi, for_range w (λ acc wi,
        let idx := bn_idx c h w ni ci hi wi in
        let? x := rd in_data idx in
        let? mu := rd mean ci in
        let x_hat := (x ⊖ mu) ⊗ inv_std in
        let? dy := rd g idx in
        let '(d_gamma, d_beta, sum_dy, sum_dy_xhat) := acc in
        let? d_gamma := add_at d_gamma ci (dy ⊗ x_hat) in
        let? d_beta := add_at d_beta ci dy in
        let? sum_dy := add_at sum_dy ci dy in
        let? sum_dy_xhat := add_at sum_dy_xhat ci (dy ⊗ x_hat) in
        Ok (d_gamma, d_beta, sum_dy, sum_dy_xhat)) acc) acc) acc) (zeros, zeros, zeros, zeros) in
  let '(d_gamma, d_beta, sum_dy, sum_dy_xhat) := acc in
  let? d_in := for_range n (λ d_in ni, for_range c (λ d_in ci,
      let? v := rd var ci in
      let inv_std := k1 ⊘ k_sqrt (v ⊕ eps) in
      let? gm := rd gamma_data ci in
      let coef := gm ⊗ inv_std ⊘ m in
      for_range h (λ d_in hi, for_range w (λ d_in wi,
        let idx := bn_idx c h w ni ci hi wi in
        let? x := rd in_data idx in
        let? mu := rd mean ci in
        let x_hat := (x ⊖ mu) ⊗ inv_std in
        let? dy := rd g idx in
        let? s1 := rd sum_dy ci in
        let? s2 := rd sum_dy_xhat ci in
        put d_in idx (coef ⊗ (m ⊗ dy ⊖ s1 ⊖ x_hat ⊗ s2))) d_in) d_in) d_in)
    (replicate (ix (ix (ix (n * c) * h) * w)) k0) in
  let? d_in_t := from_vec (BOutOfMemory (Z.of_nat (ix (ix (ix (n * c) * h) * w * 4)))) [n; c; h; w] d_in in
  let? d_g_t := from_vec (BOutOfMemory (Z.of_nat (ix (c * 4)))) [c] d_gamma in
  let? d_b_t := from_vec (BOutOfMemory (Z.of_nat (ix (c * 4)))) [c] d_beta in
  Ok (d_in_t, d_g_t, d_b_t).
End norm.

(** ** Loops that accumulate per channel *)

Section accumulate.
Context {E St V : Type} (vadd : V → V → V) (v0 : V) (mk : (nat → V) → St) (c : nat).
Context (mk_ext : ∀ F G, (∀ j, j < c → F j = G j) → mk F = mk G).
Context (vadd_assoc : ∀ a b d, vadd (vadd a b) d = vadd a (vadd b d)) (vadd_0 : ∀ a, vadd a v0 = a).

Definition add_to (F : nat → V) (ci : nat) (v : V) (j : nat) : V := if j =? ci then vadd (F j) v else F j.

Fixpoint vsum (n : nat) (g : nat → V) : V := match n with O => v0 | S n => vadd (vsum n g) (g n) end.

Lemma acc_at n (body : St → nat → res E St) F ci g :
  (∀ F i, i < n → body (mk F) i = Ok (mk (add_to F ci (g i)))) → for_range n body (mk F) = Ok (mk (add_to F ci (vsum n g))).
Proof using All.
  intros H. induction n as [|n IH].
  - unfold for_range. cbn. f_equal. apply mk_ext. intros j _. unfold add_to. by destruct (j =? ci); rewrite ?vadd_0.
  - rewrite for_range_S, IH by (intros; apply H; lia). cbn [rbind]. rewrite H by lia. f_equal. apply mk_ext. intros j _.
    unfold add_to. cbn [vsum]. by destruct (j =? ci); rewrite ?vadd_assoc.
Qed.

Lemma acc_cell h w (body : nat → St → nat → res E St) F ci g :
  (∀ F hi wi, hi < h → wi < w → body hi (mk F) wi = Ok (mk (add_to F ci (g hi wi)))) →
  for_range h (λ s hi, for_range w (body hi) s) (mk F) = Ok (mk (add_to F ci (vsum h (λ hi, vsum w (g hi))))).
Proof using All. intros H. apply acc_at. intros F' hi Hh. apply acc_at. intros F'' wi Hw. by apply H. Qed.

Lemma acc_rows (body : St → nat → res E St) F T :
  (∀ F ci, ci < c → body (mk F) ci = Ok (mk (add_to F ci (T ci)))) →
  for_range c body (mk F) = Ok (mk (λ j, vadd (F j) (T j))).
Proof using All.
  intros H. assert (∀ k, k ≤ c → for_range k body (mk F) = Ok (mk (λ j, if j <? k then vadd (F j) (T j) else F j))) as Hk.
  { induction k as [|k IH]; intros Hk.
    - done.
    - rewrite for_range_S, IH by lia. cbn [rbind]. rewrite H by lia. f_equal. apply mk_ext. intros j _. unfold add_to.
      destruct (Nat.eqb_spec j k), (Nat.ltb_spec j k), (Nat.ltb_spec j (S k)); lia || by subst. }
  rewrite Hk by lia. f_equal. apply mk_ext. intros j Hj. by rewrite (proj2 (Nat.ltb_lt _ _)).
Qed.

Lemma acc_samples n (body : nat → St → nat → res E St) F T :
  (∀ F ni ci, ni < n → ci < c → body ni (mk F) ci = Ok (mk (add_to F ci (T ni ci)))) →
  for_range n (λ s ni, for_range c (body ni) s) (mk F) = Ok (mk (λ j, vadd (F j) (vsum n (λ ni, T ni j)))).
Proof using All.
  intros H. induction n as [|n IH].
  - unfold for_range. cbn. f_equal. apply mk_ext. intros j _. by rewrite vadd_0.
  - rewrite for_range_S, IH by (intros; apply H; lia). cbn [rbind].
    rewrite (acc_rows _ _ (T n)) by (intros; apply H; lia). f_equal. apply mk_ext. intros j _. cbn [vsum]. by rewrite vadd_assoc.
Qed.
End accumulate.

Open Scope R_scope.

(** Lists of one number per channel *)
Definition chan (c : nat) (F : nat → R) : list xreal := (λ j, FIN (F j)) <$> List.seq 0 c.

Lemma chan_ext c F G : (∀ j, (j < c)%nat → F j = G j) → chan c F = chan c G.
Proof.
  intros H. unfold chan. apply list_fmap_ext. intros i j Hj. apply lookup_seq in Hj as [-> Hj]. cbn [Nat.add]. by rewrite H.
Qed.

Lemma chan_rd {E} c F j : (j < c)%nat → rd (E := E) (chan c F) j = Ok (FIN (F j)).
Proof. intros Hj. unfold rd, chan. by rewrite list_lookup_fmap, lookup_seq_lt. Qed.

Lemma chan_add {E} c F ci v : (ci < c)%nat → add_at (E := E) (chan c F) ci (FIN v) = Ok (chan c (add_to Rplus F ci v)).
Proof.
  intros Hc. unfold add_at. rewrite chan_rd by done. cbn [rbind]. rewrite fin_add. unfold put.
  assert (length (chan c F) = c) as Hl by (unfold chan; by rewrite length_fmap, length_seq).
  rewrite Hl, (proj2 (Nat.ltb_lt _ _)) by done. f_equal. apply list_eq. intros j. unfold chan at 2.
  rewrite list_lookup_fmap. destruct (decide (j < c)%nat) as [Hj|Hj].
  - rewrite lookup_seq_lt by done. cbn. unfold add_to. destruct (Nat.eqb_spec j ci) as [->|Hne].
    + by rewrite list_lookup_insert_eq by lia.
    + rewrite list_lookup_insert_ne by done. unfold chan. by rewrite list_lookup_fmap, lookup_seq_lt.
  - rewrite !(proj2 (lookup_ge_None _ _)) by (rewrite ?length_insert, ?length_seq; lia). done.
Qed.

Lemma chan_zeros c : replicate c (@k0 xreal _) = chan c (λ _, 0).
Proof.
  unfold chan. apply list_eq. intros j. rewrite list_lookup_fmap. destruct (decide (j < c)%nat) as [Hj|Hj].
  - by rewrite lookup_replicate_2, lookup_seq_lt by done.
  - rewrite !(proj2 (lookup_ge_None _ _)) by (rewrite ?length_replicate, ?length_seq; lia). done.
Qed.

Lemma vsum_psum n g : vsum Rplus 0 n g = psum n g.
Proof. induction n as [|n IH]; [done|]. cbn [vsum psum]. by rewrite IH. Qed.

(** ** The pass over the reals *)

Section batch.
Context (n c h w : nat).

Definition bpos (ni ci hi wi : nat) : nat := ((ni * c + ci) * h + hi) * w + wi.

(** The sum of a function of the flat position over the samples of a channel *)
Definition csum (f : nat → R) (ci : nat) : R := psum n (λ ni, psum h (λ hi, psum w (λ wi, f (bpos ni ci hi wi)))).
Definition count : R := INR (n * h * w).

Definition bmean (x : nat → R) (ci : nat) : R := csum x ci / count.
Definition bvar (x : nat → R) (ci : nat) : R := csum (λ i, (x i - bmean x ci) * (x i - bmean x ci)) ci / count.

Definition bhat (eps : R) (x : nat → R) (ci i : nat) : R := (x i - bmean x ci) * (1 / sqrt (bvar x ci + eps)).
Definition bout (eps : R) (x gm bt : nat → R) (ci i : nat) : R := bhat eps x ci i * gm ci + bt ci.

(** The gradients the backward pass returns *)
Definition bn_dx (eps : R) (x gm dy : nat → R) (ci i : nat) : R :=
  gm ci * (1 / sqrt (bvar x ci + eps)) / count *
    (count * dy i - csum dy ci - bhat eps x ci i * csum (λ i, dy i * bhat eps x ci i) ci).
Definition bn_dgamma (eps : R) (x dy : nat → R) (ci : nat) : R := csum (λ i, dy i * bhat eps x ci i) ci.

Lemma csum_ext f g ci : (∀ i, f i = g i) → csum f ci = csum g ci.
Proof. intros H. unfold csum. do 3 (apply psum_ext; intros ? _). apply H. Qed.

Lemma csum_add f g ci : csum (λ i, f i + g i) ci = csum f ci + csum g ci.
Proof.
  unfold csum. rewrite <- psum_add. apply psum_ext. intros ni _. rewrite <- psum_add. apply psum_ext. intros hi _.
  by rewrite <- psum_add.
Qed.

Lemma csum_mul a f ci : csum (λ i, a * f i) ci = a * csum f ci.
Proof.
  unfold csum. rewrite <- psum_mul_l. apply psum_ext. intros ni _. rewrite <- psum_mul_l. apply psum_ext. intros hi _.
  by rewrite <- psum_mul_l.
Qed.

Lemma csum_const a ci : csum (λ _, a) ci = count * a.
Proof.
  assert (∀ m b, psum m (λ _, b) = INR m * b) as Hc.
  { intros m b. induction m as [|m IH]; [simpl; lra|]. cbn [psum]. rewrite IH, S_INR. lra. }
  unfold csum, count. rewrite !Hc, !mult_INR. lra.
Qed.

Lemma csum_nonneg f ci : (∀ i, 0 <= f i) → 0 <= csum f ci.
Proof. intros H. unfold csum. do 3 (apply psum_nonneg; intros ? _). apply H. Qed.

Lemma csum_sub f g ci : csum (λ i, f i - g i) ci = csum f ci - csum g ci.
Proof.
  rewrite (csum_ext _ (λ i, f i + -1 * g i)) by (intros; lra). rewrite csum_add, csum_mul. lra.
Qed.
End batch.

Section kernels_spec.
Context (n c h w : nat) (n_pos : (0 < n)%nat) (h_pos : (0 < h)%nat) (w_pos : (0 < w)%nat).
Context (fits : (Z.of_nat (n * c * h * w) < 2 ^ 61)%Z) (small : (Z.of_nat (n * h * w) < 2 ^ 61)%Z) (chans : (Z.of_nat c < 2 ^ 61)%Z).

Lemma index_lt ni ci hi wi : (ni < n)%nat → (ci < c)%nat → (hi < h)%nat → (wi < w)%nat → (bpos c h w ni ci hi wi < n * c * h * w)%nat.
Proof using All.
  intros. unfold bpos. pose proof (digit_lt ni ci n c ltac:(done) ltac:(done)).
  pose proof (digit_lt (ni * c + ci) hi (n * c) h ltac:(done) ltac:(done)).
  by apply (digit_lt ((ni * c + ci) * h + hi) wi (n * c * h) w).
Qed.

Lemma index_ok ni ci hi wi : (ni < n)%nat → (ci < c)%nat → (hi < h)%nat → (wi < w)%nat → bn_idx c h w ni ci hi wi = bpos c h w ni ci hi wi.
Proof using All.
  intros. pose proof (index_lt ni ci hi wi ltac:(done) ltac:(done) ltac:(done) ltac:(done)) as H3.
  unfold bn_idx. fold (bpos c h w ni ci hi wi). apply ix_small. lia.
Qed.

Lemma read_at {E} (xs : list R) ni ci hi wi : length xs = (n * c * h * w)%nat →
  (ni < n)%nat → (ci < c)%nat → (hi < h)%nat → (wi < w)%nat →
  rd (E := E) (FIN <$> xs) (bn_idx c h w ni ci hi wi) = Ok (FIN (nth (bpos c h w ni ci hi wi) xs 0)).
Proof using All.
  intros Hl H1 H2 H3 H4. rewrite index_ok by done. rewrite (rd_nth (FIN 0)).
  - by rewrite (map_nth FIN).
  - rewrite length_fmap, Hl. by apply index_lt.
Qed.

Lemma count_pos : 0 < count n h w.
Proof using All. unfold count. apply lt_0_INR. nia. Qed.

Lemma count_fin : k_of_nat (ix (ix (n * h) * w)) = FIN (count n h w).
Proof using All. rewrite (ix_small (n * h)) by nia. rewrite ix_small by lia. apply fin_of_nat. Qed.

Lemma size_fin : ix (ix (ix (n * c) * h) * w) = (n * c * h * w)%nat.
Proof using All. rewrite (ix_small (n * c)) by nia. rewrite (ix_small (n * c * h)) by nia. apply ix_small. lia. Qed.

(** The sums of a channel *)
Lemma channel_sums_spec xs g G : length xs = (n * c * h * w)%nat → (∀ a ci, (ci < c)%nat → g (FIN a) ci = Ok (FIN (G a ci))) →
  channel_sums n c h w (FIN <$> xs) g = Ok (chan c (λ ci, csum n c h w (λ i, G (nth i xs 0) ci) ci)).
Proof using All.
  intros Hl Hg. unfold channel_sums. rewrite chan_zeros.
  rewrite (acc_samples Rplus 0 (chan c) c (chan_ext c) Rplus_assoc Rplus_0_r n _ _
    (λ ni ci, vsum Rplus 0 h (λ hi, vsum Rplus 0 w (λ wi, G (nth (bpos c h w ni ci hi wi) xs 0) ci)))).
  - f_equal. apply chan_ext. intros j _. rewrite Rplus_0_l, vsum_psum. unfold csum. apply psum_ext. intros ni _.
    rewrite vsum_psum. apply psum_ext. intros hi _. by rewrite vsum_psum.
  - intros F ni ci Hn Hc. apply (acc_cell Rplus 0 (chan c) c (chan_ext c) Rplus_assoc Rplus_0_r h w
      (λ hi s wi, let? x := rd (FIN <$> xs) (bn_idx c h w ni ci hi wi) in let? v := g x ci in add_at s ci v)).
    intros F' hi wi Hh Hw. rewrite read_at by done. cbn [rbind]. rewrite Hg by done. cbn [rbind]. by apply chan_add.
Qed.

Lemma chan_div F : (λ v, v ⊘ FIN (count n h w)) <$> chan c F = chan c (λ j, F j / count n h w).
Proof using All.
  unfold chan. rewrite <- list_fmap_compose. apply list_fmap_ext. intros ? j _. cbn [compose].
  pose proof count_pos. by rewrite fin_div by lra.
Qed.

Lemma bvar_nonneg x ci : 0 <= bvar n c h w x ci.
Proof using All.
  pose proof count_pos. unfold bvar. apply Rle_mult_inv_pos; [|done]. apply csum_nonneg. intros i. apply Rle_0_sqr.
Qed.

(** The reciprocal standard deviation *)
Lemma inv_std_fin eps x ci : 0 < eps → k1 ⊘ k_sqrt (FIN (bvar n c h w x ci) ⊕ FIN eps) = FIN (1 / sqrt (bvar n c h w x ci + eps)).
Proof using All.
  intros He. pose proof (bvar_nonneg x ci). pose proof (sqrt_lt_R0 (bvar n c h w x ci + eps) ltac:(lra)). by fin.
Qed.

(** A kernel that writes each element once, with a prefix per channel *)
Lemma write_all (body : nat → nat → list xreal → res BackendError (list xreal)) (g : nat → nat → nat → nat → list xreal → res BackendError (list xreal))
    (f : nat → nat → nat → nat → xreal) :
  (∀ ni ci out, (ni < n)%nat → (ci < c)%nat → body ni ci out = for_range h (λ out hi, for_range w (λ out wi, g ni ci hi wi out) out) out) →
  (∀ ni ci hi wi out, (ni < n)%nat → (ci < c)%nat → (hi < h)%nat → (wi < w)%nat →
     g ni ci hi wi out = put out (bpos c h w ni ci hi wi) (f ni ci hi wi)) →
  for_range n (λ out ni, for_range c (λ out ci, body ni ci out) out) (replicate (n * c * h * w) k0) = Ok (buffer4 n c h w f).
Proof using All.
  intros Hb Hg.
  rewrite (for_range_ext n _ (λ out ni, for_range c (λ out ci, for_range h (λ out hi, for_range w (λ out wi, g ni ci hi wi out) out) out) out)).
  - apply (fills_buffer4 n c h w (λ ni ci hi out wi, g ni ci hi wi out)).
    + intros ni ci hi wi H1 H2 H3 H4. apply (fills_ext _ (λ out, put out (bpos c h w ni ci hi wi) (f ni ci hi wi))).
      * intros out. by apply Hg.
      * apply fills_put.
    + rewrite length_replicate. lia.
  - intros out ni Hn. apply for_range_ext. intros out' ci Hc. by apply Hb.
Qed.

Context (eps : R) (eps_pos : 0 < eps) (xs : list R) (Hxs : length xs = (n * c * h * w)%nat) (gm bt : nat → R).

Let x (i : nat) : R := nth i xs 0.

(** The passes of the forward kernel *)
Definition fwd_out (ni ci hi wi : nat) : xreal := FIN (bout n c h w eps x gm bt ci (bpos c h w ni ci hi wi)).

Lemma forward_spec (input gamma beta : TView xreal) : tv_dtype input = F32 → tv_shape input = [n; c; h; w] →
  tv_slice input = Some (FIN <$> xs) → tv_slice gamma = Some (chan c gm) → tv_slice beta = Some (chan c bt) →
  batch_norm2d_forward input gamma beta (FIN eps) =
    Ok (([n; c; h; w], buffer4 n c h w fwd_out), ([c], chan c (bmean n c h w x)), ([c], chan c (bvar n c h w x))).
Proof using All.
  intros Hd Hs Hi Hg Hb. pose proof count_pos as Hcp.
  unfold batch_norm2d_forward, tv_dim. rewrite Hd, Hs, bool_decide_true by done. cbn [negb length Nat.eqb].
  unfold rd at 1 2 3 4. cbn [lookup list_lookup unwrap_opt rbind]. rewrite Hi, Hg, Hb, count_fin. cbn [unwrap_opt rbind].
  rewrite (channel_sums_spec xs _ (λ a _, a)) by done. cbn [rbind]. rewrite chan_div. fold (bmean n c h w x).
  rewrite (channel_sums_spec xs _ (λ a ci, (a - bmean n c h w x ci) * (a - bmean n c h w x ci)) Hxs).
  2: { intros a ci Hc. change (λ j, csum n c h w (λ i, nth i xs 0) j / count n h w) with (bmean n c h w x).
       rewrite chan_rd by done. cbn [rbind]. by fin. }
  cbn [rbind]. rewrite chan_div.
  change (λ j, csum n c h w (λ i, nth i xs 0) j / count n h w) with (bmean n c h w x).
  change (λ j, csum n c h w (λ i, (nth i xs 0 - bmean n c h w x j) * (nth i xs 0 - bmean n c h w x j)) j / count n h w)
    with (bvar n c h w x).
  rewrite size_fin.
  rewrite (write_all _ (λ ni ci hi wi out,
    let? a := rd (FIN <$> xs) (bn_idx c h w ni ci hi wi) in
    let? mu := rd (chan c (bmean n c h w x)) ci in
    let? g := rd (chan c gm) ci in
    let? b := rd (chan c bt) ci in
    put out (bn_idx c h w ni ci hi wi) ((a ⊖ mu) ⊗ FIN (1 / sqrt (bvar n c h w x ci + eps)) ⊗ g ⊕ b)) fwd_out).
  - cbn [rbind]. unfold from_vec. rewrite length_buffer4. unfold chan. rewrite !length_fmap, !length_seq.
    cbn [foldl]. rewrite !Nat.mul_1_l.
    rewrite (ix_small n), (ix_small c), (ix_small (n * c)), (ix_small (n * c * h)), (ix_small (n * c * h * w)) by nia.
    rewrite (proj2 (Nat.eqb_eq (n * (c * (h * (w * 1)))) (n * c * h * w))) by lia. rewrite Nat.eqb_refl. done.
  - intros ni ci out Hn Hc. rewrite chan_rd by done. cbn [rbind]. rewrite inv_std_fin by done. reflexivity.
  - intros ni ci hi wi out Hn Hc Hh Hw. rewrite read_at, !chan_rd by done. cbn [rbind]. rewrite index_ok by done. fin. reflexivity.
Qed.

Context (dys : list R) (Hdys : length dys = (n * c * h * w)%nat).

Let dy (i : nat) : R := nth i dys 0.

Definition add4 (a b : R * R * R * R) : R * R * R * R :=
  (a.1.1.1 + b.1.1.1, a.1.1.2 + b.1.1.2, a.1.2 + b.1.2, a.2 + b.2).

Definition chan4 (F : nat → R * R * R * R) : list xreal * list xreal * list xreal * list xreal :=
  (chan c (λ j, (F j).1.1.1), chan c (λ j, (F j).1.1.2), chan c (λ j, (F j).1.2), chan c (λ j, (F j).2)).

Lemma chan4_ext F G : (∀ j, (j < c)%nat → F j = G j) → chan4 F = chan4 G.
Proof using Type. intros H. unfold chan4. f_equal; [f_equal; [f_equal|]|]; apply chan_ext; intros j Hj; by rewrite H. Qed.

Lemma add4_assoc a b d : add4 (add4 a b) d = add4 a (add4 b d).
Proof using Type. unfold add4. cbn [fst snd]. by rewrite !Rplus_assoc. Qed.

Lemma add4_0 a : add4 a (0, 0, 0, 0) = a.
Proof using Type. destruct a as [[[? ?] ?] ?]. unfold add4. cbn [fst snd]. by rewrite !Rplus_0_r. Qed.

(** What a sample adds to the four accumulators *)
Definition bn_term (ci i : nat) : R * R * R * R :=
  (dy i * bhat n c h w eps x ci i, dy i, dy i, dy i * bhat n c h w eps x ci i).

Lemma vsum4 m g : vsum add4 (0, 0, 0, 0) m g =
  (psum m (λ i, (g i).1.1.1), psum m (λ i, (g i).1.1.2), psum m (λ i, (g i).1.2), psum m (λ i, (g i).2)).
Proof using Type. induction m as [|m IH]; [done|]. cbn [vsum psum]. by rewrite IH. Qed.

Lemma add_to_chan F ci v : (ci < c)%nat →
  (let '(d_gamma, d_beta, sum_dy, sum_dy_xhat) := chan4 F in
   let? d_gamma := add_at d_gamma ci (FIN v.1.1.1) in
   let? d_beta := add_at d_beta ci (FIN v.1.1.2) in
   let? sum_dy := add_at sum_dy ci (FIN v.1.2) in
   let? sum_dy_xhat := add_at sum_dy_xhat ci (FIN v.2) in
   Ok (E := BackendError) (d_gamma, d_beta, sum_dy, sum_dy_xhat)) = Ok (chan4 (add_to add4 F ci v)).
Proof using Type.
  intros Hc. unfold chan4 at 1. rewrite !chan_add by done. cbn [rbind]. f_equal. unfold chan4.
  f_equal; [f_equal; [f_equal|]|]; apply chan_ext; intros j _; unfold add_to; by destruct (j =? ci)%nat.
Qed.

Definition bwd_in (ni ci hi wi : nat) : xreal := FIN (bn_dx n c h w eps x gm dy ci (bpos c h w ni ci hi wi)).

Lemma backward_spec (grad_output input gamma mean var : TView xreal) : tv_shape input = [n; c; h; w] →
  tv_slice grad_output = Some (FIN <$> dys) → tv_slice input = Some (FIN <$> xs) → tv_slice gamma = Some (chan c gm) →
  tv_slice mean = Some (chan c (bmean n c h w x)) → tv_slice var = Some (chan c (bvar n c h w x)) →
  batch_norm2d_backward grad_output input gamma mean var (FIN eps) =
    Ok (([n; c; h; w], buffer4 n c h w bwd_in), ([c], chan c (bn_dgamma n c h w eps x dy)), ([c], chan c (csum n c h w dy))).
Proof using All.
  intros Hs Hg Hi Hgm Hm Hv. pose proof count_pos as Hcp.
  unfold batch_norm2d_backward, tv_dim. rewrite Hs.
  unfold rd at 1 2 3 4. cbn [lookup list_lookup unwrap_opt rbind]. rewrite Hg, Hi, Hgm, Hm, Hv, count_fin. cbn [unwrap_opt rbind].
  rewrite chan_zeros. change (chan c (λ _, 0), chan c (λ _, 0), chan c (λ _, 0), chan c (λ _, 0)) with (chan4 (λ _, (0, 0, 0, 0))).
  rewrite (acc_samples add4 (0, 0, 0, 0) chan4 c chan4_ext add4_assoc add4_0 n _ _
    (λ ni ci, vsum add4 (0, 0, 0, 0) h (λ hi, vsum add4 (0, 0, 0, 0) w (λ wi, bn_term ci (bpos c h w ni ci hi wi))))).
  2: { intros F ni ci Hn Hc. rewrite chan_rd by done. cbn [rbind]. rewrite inv_std_fin by done.
       refine (acc_cell add4 (0, 0, 0, 0) chan4 c chan4_ext add4_assoc add4_0 h w (λ hi acc wi, _) F ci (λ hi wi, bn_term ci (bpos c h w ni ci hi wi)) _).
       intros F' hi wi Hh Hw. rewrite !read_at, chan_rd by done. cbn [rbind].
       rewrite fin_sub, fin_mul, fin_mul. exact (add_to_chan F' ci (bn_term ci (bpos c h w ni ci hi wi)) Hc). }
  cbn [rbind]. rewrite (chan4_ext _ (λ ci, (bn_dgamma n c h w eps x dy ci, csum n c h w dy ci, csum n c h w dy ci, bn_dgamma n c h w eps x dy ci))).
  2: { intros j _. unfold add4. cbn [fst snd]. rewrite !Rplus_0_l, vsum4. unfold bn_dgamma, csum.
       f_equal; [f_equal; [f_equal|]|]; apply psum_ext; intros ni _; rewrite vsum4; cbn [fst snd]; apply psum_ext; intros hi _;
         rewrite vsum4; reflexivity. }
  unfold chan4. cbn [fst snd]. rewrite size_fin.
  rewrite (write_all _ (λ ni ci hi wi out,
    let? a := rd (FIN <$> xs) (bn_idx c h w ni ci hi wi) in
    let? mu := rd (chan c (bmean n c h w x)) ci in
    let? d := rd (FIN <$> dys) (bn_idx c h w ni ci hi wi) in
    let? s1 := rd (chan c (csum n c h w dy)) ci in
    let? s2 := rd (chan c (bn_dgamma n c h w eps x dy)) ci in
    put out (bn_idx c h w ni ci hi wi)
      (FIN (gm ci * (1 / sqrt (bvar n c h w x ci + eps)) / count n h w) ⊗
        (FIN (count n h w) ⊗ d ⊖ s1 ⊖ (a ⊖ mu) ⊗ FIN (1 / sqrt (bvar n c h w x ci + eps)) ⊗ s2))) bwd_in).
  - cbn [rbind]. unfold from_vec. rewrite length_buffer4. unfold chan. rewrite !length_fmap, !length_seq.
    cbn [foldl]. rewrite !Nat.mul_1_l.
    rewrite (ix_small n), (ix_small c), (ix_small (n * c)), (ix_small (n * c * h)), (ix_small (n * c * h * w)) by nia.
    rewrite (proj2 (Nat.eqb_eq (n * (c * (h * (w * 1)))) (n * c * h * w))) by lia. rewrite Nat.eqb_refl. done.
  - intros ni ci out Hn Hc. rewrite !chan_rd by done. cbn [rbind]. rewrite inv_std_fin by done. rewrite fin_mul, fin_div by lra. reflexivity.
  - intros ni ci hi wi out Hn Hc Hh Hw. rewrite !read_at, !chan_rd by done. cbn [rbind]. rewrite index_ok by done. fin. reflexivity.
Qed.
End kernels_spec.

(** ** Derivatives *)

Lemma derive_ext (f g : R → R) x d : (∀ y, f y = g y) → derivable_pt_lim g x d → derivable_pt_lim f x d.
Proof. intros He Hg eps Heps. destruct (Hg eps Heps) as [δ Hδ]. exists δ. intros k Hk Hlt. rewrite !He. by apply Hδ. Qed.

Lemma derive_val (f : R → R) x d e : d = e → derivable_pt_lim f x d → derivable_pt_lim f x e.
Proof. by intros ->. Qed.

Lemma derive_affine a b x : derivable_pt_lim (λ s, a + s * b) x b.
Proof.
  apply (derive_val _ _ (0 + (1 * b + x * 0))); [lra|].
  apply (derivable_pt_lim_plus (fct_cte a) (λ s, s * b)); [apply derivable_pt_lim_const|].
  apply (derivable_pt_lim_mult id (fct_cte b)); [apply derivable_pt_lim_id|apply derivable_pt_lim_const].
Qed.

Lemma derive_quadratic q0 q1 q2 : derivable_pt_lim (λ s, (q0 + s * q1) + s * (s * q2)) 0 q1.
Proof.
  apply (derive_val _ _ (q1 + (1 * (0 * q2) + 0 * q2))); [lra|].
  apply (derivable_pt_lim_plus (λ s, q0 + s * q1) (λ s, s * (s * q2))); [apply derive_affine|].
  apply (derivable_pt_lim_mult id (λ s, s * q2)); [apply derivable_pt_lim_id|].
  apply (derive_ext _ (λ s, 0 + s * q2)); [intros; lra|apply derive_affine].
Qed.

Lemma derive_psum m (f : nat → R → R) d x : (∀ i, (i < m)%nat → derivable_pt_lim (f i) x (d i)) →
  derivable_pt_lim (λ s, psum m (λ i, f i s)) x (psum m d).
Proof.
  induction m as [|m IH]; intros H; [apply derivable_pt_lim_const|]. cbn [psum].
  apply (derivable_pt_lim_plus (λ s, psum m (λ i, f i s)) (f m)); [apply IH; intros; apply H; lia|apply H; lia].
Qed.

(** [(A + s B) / √Q(s)] at zero *)
Lemma derive_over_sqrt A B q0 q1 q2 : 0 < q0 →
  derivable_pt_lim (λ s, (A + s * B) / sqrt ((q0 + s * q1) + s * (s * q2))) 0
    (B * (1 / sqrt q0) - A * (q1 / 2) * (1 / sqrt q0) * (1 / sqrt q0) * (1 / sqrt q0)).
Proof.
  intros Hq. set (Q := λ s, (q0 + s * q1) + s * (s * q2)).
  assert (Q 0 = q0) as HQ by (unfold Q; lra).
  assert (derivable_pt_lim (λ s, sqrt (Q s)) 0 (/ (2 * sqrt q0) * q1)) as Hd.
  { apply (derivable_pt_lim_comp Q sqrt); [apply derive_quadratic|]. rewrite HQ. by apply derivable_pt_lim_sqrt. }
  pose proof (sqrt_lt_R0 q0 Hq) as Ht. pose proof (sqrt_sqrt q0 ltac:(lra)) as Htt.
  pose proof (derivable_pt_lim_div (λ s, A + s * B) (λ s, sqrt (Q s)) 0 B _ (derive_affine A B 0) Hd) as H.
  cbv beta in H. rewrite HQ in H. specialize (H ltac:(lra)).
  refine (derive_val _ _ _ _ _ H). unfold Rsqr. field. lra.
Qed.

Section derivative.
Context (n c h w : nat) (M_pos : 0 < count n h w) (eps : R) (eps_pos : 0 < eps) (gm bt dy : nat → R).

Let S (f : nat → R) (ci : nat) : R := csum n c h w f ci.
Let M := count n h w.

(** What a loss with the gradient [dy] at the outputs sees of the forward pass *)
Definition bn_loss (x gm bt : nat → R) : R :=
  psum c (λ ci, csum n c h w (λ i, dy i * bout n c h w eps x gm bt ci i) ci).

Lemma mean_line x hx s ci : bmean n c h w (λ i, x i + s * hx i) ci = bmean n c h w x ci + s * bmean n c h w hx ci.
Proof using Type. unfold bmean. rewrite csum_add, csum_mul. unfold Rdiv. lra. Qed.

Lemma centred_sum x ci : csum n c h w (λ i, x i - bmean n c h w x ci) ci = 0.
Proof using M_pos. rewrite csum_sub, csum_const. unfold bmean. field. lra. Qed.

(** A channel along a line of inputs *)
Lemma derive_channel x hx ci :
  derivable_pt_lim (λ s, csum n c h w (λ i, dy i * bout n c h w eps (λ i, x i + s * hx i) gm bt ci i) ci) 0
    (csum n c h w (λ i, bn_dx n c h w eps x gm dy ci i * hx i) ci).
Proof using All.
  set (a := λ i, x i - bmean n c h w x ci). set (b := λ i, hx i - bmean n c h w hx ci).
  set (A := S (λ i, dy i * a i) ci). set (B := S (λ i, dy i * b i) ci).
  set (C := S (λ i, a i * b i) ci / M). set (D := S (λ i, b i * b i) ci / M).
  set (q0 := bvar n c h w x ci + eps).
  assert (0 < q0) as Hq.
  { unfold q0, bvar. pose proof (csum_nonneg n c h w (λ i, (x i - bmean n c h w x ci) * (x i - bmean n c h w x ci)) ci ltac:(intros; apply Rle_0_sqr)).
    pose proof (Rle_mult_inv_pos _ _ H M_pos). unfold Rdiv in *. lra. }
  assert (∀ s i, (x i + s * hx i) - bmean n c h w (λ i, x i + s * hx i) ci = a i + s * b i) as Hline.
  { intros s i. rewrite mean_line. unfold a, b. lra. }
  assert (∀ s, bvar n c h w (λ i, x i + s * hx i) ci + eps = (q0 + s * (2 * C)) + s * (s * D)) as Hvar.
  { intros s. unfold bvar, q0, C, D, S. rewrite (csum_ext n c h w _ (λ i, a i * a i + ((2 * s) * (a i * b i) + (s * s) * (b i * b i)))).
    - rewrite !csum_add, !csum_mul. change (bvar n c h w x ci) with (csum n c h w (λ i, a i * a i) ci / M). fold M. unfold Rdiv. lra.
    - intros i. rewrite Hline. lra. }
  apply (derive_ext _ (λ s, bt ci * S dy ci + gm ci * ((A + s * B) / sqrt ((q0 + s * (2 * C)) + s * (s * D))))).
  - intros s. unfold bout, bhat. rewrite <- Hvar.
    set (r := sqrt _).
    rewrite (csum_ext n c h w _ (λ i, (gm ci * (1 / r)) * (dy i * a i) + ((gm ci * (1 / r) * s) * (dy i * b i) + bt ci * dy i))).
    + rewrite !csum_add, !csum_mul. fold (S dy ci) (S (λ i, dy i * a i) ci) (S (λ i, dy i * b i) ci). fold A B. unfold Rdiv. lra.
    + intros i. rewrite Hline. lra.
  - pose proof (derive_over_sqrt A B q0 (2 * C) D Hq) as Hd.
    pose proof (derivable_pt_lim_plus (fct_cte (bt ci * S dy ci)) _ 0 _ _ (derivable_pt_lim_const _ 0)
      (derivable_pt_lim_scal _ (gm ci) 0 _ Hd)) as Ht.
    refine (derive_val _ _ _ _ _ Ht).
    set (r := 1 / sqrt q0). unfold bn_dx, bhat. fold q0. fold r.
    rewrite (csum_ext n c h w _ (λ i, (gm ci * r) * (dy i * hx i) +
      ((- (gm ci * r / M * S dy ci)) * hx i + (- (gm ci * r / M * r * (S (λ i, dy i * (a i * r)) ci))) * (a i * hx i)))).
    2: { intros i. unfold S, a, M. field. lra. }
    rewrite !csum_add, !csum_mul. fold (S (λ i, dy i * hx i) ci) (S hx ci) (S (λ i, a i * hx i) ci).
    assert (S (λ i, dy i * (a i * r)) ci = r * A) as ->.
    { unfold S, A. rewrite (csum_ext n c h w _ (λ i, r * (dy i * a i))) by (intros; lra). apply csum_mul. }
    assert (B = S (λ i, dy i * hx i) ci - S hx ci / M * S dy ci) as ->.
    { unfold B, S, b. rewrite (csum_ext n c h w _ (λ i, dy i * hx i + (- bmean n c h w hx ci) * dy i)) by (intros; lra).
      rewrite csum_add, csum_mul. unfold bmean, M. lra. }
    assert (C = S (λ i, a i * hx i) ci / M) as ->.
    { unfold C, S, b. rewrite (csum_ext n c h w _ (λ i, a i * hx i + (- bmean n c h w hx ci) * a i)) by (intros; lra).
      rewrite csum_add, csum_mul. unfold a at 2. rewrite centred_sum. f_equal. lra. }
    field. unfold M. lra.
Qed.
End derivative.

Lemma bhat_moments n c h w eps x ci : 0 < count n h w → 0 < eps →
  csum n c h w (bhat n c h w eps x ci) ci = 0 ∧
  csum n c h w (λ i, bhat n c h w eps x ci i * bhat n c h w eps x ci i) ci / count n h w =
    bvar n c h w x ci / (bvar n c h w x ci + eps).
Proof.
  intros HM He. unfold bhat. set (r := 1 / sqrt _). split.
  - rewrite (csum_ext n c h w _ (λ i, r * (x i - bmean n c h w x ci))) by (intros; lra). rewrite csum_mul, centred_sum by done. lra.
  - rewrite (csum_ext n c h w _ (λ i, (r * r) * ((x i - bmean n c h w x ci) * (x i - bmean n c h w x ci)))) by (intros; lra).
    rewrite csum_mul. assert (0 <= bvar n c h w x ci) as Hv.
    { apply Rle_mult_inv_pos; [|done]. apply csum_nonneg. intros i. apply Rle_0_sqr. }
    pose proof (sqrt_lt_R0 (bvar n c h w x ci + eps) ltac:(lra)). pose proof (sqrt_sqrt (bvar n c h w x ci + eps) ltac:(lra)) as Hs.
    assert (r * r = 1 / (bvar n c h w x ci + eps)) as ->.
    { unfold r. rewrite <- Hs at 3. field. lra. }
    unfold bvar at 2. field. lra.
Qed.

(** The loss along a line of gammas or betas *)
Lemma derive_gamma n c h w eps x gm bt dy hg :
  derivable_pt_lim (λ s, bn_loss n c h w eps dy x (λ ci, gm ci + s * hg ci) bt) 0
    (psum c (λ ci, bn_dgamma n c h w eps x dy ci * hg ci)).
Proof.
  apply (derive_ext _ (λ s, bn_loss n c h w eps dy x gm bt + s * psum c (λ ci, bn_dgamma n c h w eps x dy ci * hg ci))); [|apply derive_affine].
  intros s. unfold bn_loss. rewrite <- psum_mul_l, <- psum_add. apply psum_ext. intros ci _. unfold bn_dgamma, bout.
  rewrite (csum_ext n c h w _ (λ i, dy i * (bhat n c h w eps x ci i * gm ci + bt ci) + (s * hg ci) * (dy i * bhat n c h w eps x ci i)))
    by (intros; lra). rewrite csum_add, csum_mul. lra.
Qed.

Lemma derive_beta n c h w eps x gm bt dy hb :
  derivable_pt_lim (λ s, bn_loss n c h w eps dy x gm (λ ci, bt ci + s * hb ci)) 0 (psum c (λ ci, csum n c h w dy ci * hb ci)).
Proof.
  apply (derive_ext _ (λ s, bn_loss n c h w eps dy x gm bt + s * psum c (λ ci, csum n c h w dy ci * hb ci))); [|apply derive_affine].
  intros s. unfold bn_loss. rewrite <- psum_mul_l, <- psum_add. apply psum_ext. intros ci _. unfold bout.
  rewrite (csum_ext n c h w _ (λ i, dy i * (bhat n c h w eps x ci i * gm ci + bt ci) + (s * hb ci) * dy i)) by (intros; lra).
  rewrite csum_add, csum_mul. lra.
Qed.

(** C10: over the reals, on a dense [n × c × h × w] input with samples in every channel and [ε > 0]:
    the forward pass returns the mean and the population variance of each channel and the
    normalised, scaled and shifted elements, whose normalised part has mean zero and variance
    [σ²/(σ²+ε)]; given those statistics, the backward pass returns, for every
    gradient [dy] of a loss at the outputs, the derivatives of the loss in every direction of the
    inputs (through the mean and the variance too), of gamma and of beta. *)
Theorem batch_norm_backward_correct n c h w eps xs dys gm bt (input gamma beta grad_output : TView xreal) :
  (0 < n)%nat → (0 < h)%nat → (0 < w)%nat → (Z.of_nat (n * c * h * w) < 2 ^ 61)%Z → (Z.of_nat (n * h * w) < 2 ^ 61)%Z →
  (Z.of_nat c < 2 ^ 61)%Z → 0 < eps → length xs = (n * c * h * w)%nat → length dys = (n * c * h * w)%nat →
  tv_dtype input = F32 → tv_shape input = [n; c; h; w] → tv_slice input = Some (FIN <$> xs) →
  tv_slice gamma = Some (chan c gm) → tv_slice beta = Some (chan c bt) → tv_slice grad_output = Some (FIN <$> dys) →
  let x i := nth i xs 0 in
  let dy i := nth i dys 0 in
  let mean := dense_view F32 [c] (chan c (bmean n c h w x)) in
  let var := dense_view F32 [c] (chan c (bvar n c h w x)) in
  let dx := bn_dx n c h w eps x gm dy in
  batch_norm2d_forward input gamma beta (FIN eps) =
    Ok (([n; c; h; w], buffer4 n c h w (λ ni ci hi wi, FIN (bout n c h w eps x gm bt ci (bpos c h w ni ci hi wi)))),
        (tv_shape mean, tv_elems mean), (tv_shape var, tv_elems var)) ∧
  (∀ ci, csum n c h w (bhat n c h w eps x ci) ci = 0 ∧
     csum n c h w (λ i, bhat n c h w eps x ci i * bhat n c h w eps x ci i) ci / count n h w =
       bvar n c h w x ci / (bvar n c h w x ci + eps)) ∧
  batch_norm2d_backward grad_output input gamma mean var (FIN eps) =
    Ok (([n; c; h; w], buffer4 n c h w (λ ni ci hi wi, FIN (dx ci (bpos c h w ni ci hi wi)))),
        ([c], chan c (bn_dgamma n c h w eps x dy)), ([c], chan c (csum n c h w dy))) ∧
  (∀ hx, derivable_pt_lim (λ s, bn_loss n c h w eps dy (λ i, x i + s * hx i) gm bt) 0
           (psum c (λ ci, csum n c h w (λ i, dx ci i * hx i) ci))) ∧
  (∀ hg, derivable_pt_lim (λ s, bn_loss n c h w eps dy x (λ ci, gm ci + s * hg ci) bt) 0
           (psum c (λ ci, bn_dgamma n c h w eps x dy ci * hg ci))) ∧
  (∀ hb, derivable_pt_lim (λ s, bn_loss n c h w eps dy x gm (λ ci, bt ci + s * hb ci)) 0
           (psum c (λ ci, csum n c h w dy ci * hb ci))).
Proof.
  intros Hn Hh Hw Hf Hsm Hc He Hxs Hdys Hd Hs Hi Hg Hb Hgo x dy mean var dx.
  assert (0 < count n h w) as HM by by apply (count_pos n c h w).
  split; [by apply forward_spec|]. split; [intros ci; by apply bhat_moments|]. split; [by apply backward_spec|].
  split; [|split; [intros hg; apply derive_gamma|intros hb; apply derive_beta]].
  intros hx. unfold bn_loss. apply (derive_psum c (λ ci s, csum n c h w (λ i, dy i * bout n c h w eps (λ i, x i + s * hx i) gm bt ci i) ci)).
  intros ci _. by apply derive_channel.
Qed.

(** ** Witness *)

Lemma batch_norm_backward_correct_witness : ∃ out mean var,
  batch_norm2d_forward (dense_view F32 [2%nat; 1%nat; 1%nat; 1%nat] (FIN <$> [1; 3])) (dense_view F32 [1%nat] (chan 1 (λ _, 2)))
    (dense_view F32 [1%nat] (chan 1 (λ _, 5))) (FIN 1) = Ok (out, mean, var) ∧ mean.2 = [FIN 2].
Proof.
  destruct (batch_norm_backward_correct 2 1 1 1 1 [1; 3] [1; 0] (λ _, 2) (λ _, 5)
    (dense_view F32 [2%nat; 1%nat; 1%nat; 1%nat] (FIN <$> [1; 3])) (dense_view F32 [1%nat] (chan 1 (λ _, 2)))
    (dense_view F32 [1%nat] (chan 1 (λ _, 5))) (dense_view F32 [2%nat; 1%nat; 1%nat; 1%nat] (FIN <$> [1; 0]))) as (H & _);
    [lia|lia|lia|reflexivity|reflexivity|reflexivity|lra|reflexivity..|].
  eexists _, _, _. split; [exact H|]. cbn [snd tv_elems dense_view]. unfold chan. cbn [List.seq fmap list_fmap]. do 2 f_equal. unfold bmean, csum, count. simpl. lra.
Defined.
