(* ===== verification/Optim.v ===== *)
(** * Optimizers (crates/rustorch-optim/src)

    sgd.rs, adam.rs, lion.rs, adagrad.rs, adamax.rs, nadam.rs, radam.rs, rmsprop.rs,
    adafactor.rs, clip.rs and state_dict.rs over any type of floats.  A parameter is a
    cell of a store that several lists may share, with its data and its gradient slot;
    an optimizer is a record of its hyperparameters and of the buffers it keeps per
    parameter.  Device tensors and their kernels are left out. *)

From Stdlib Require Import ZArith QArith Reals Lia.
From stdpp Require Import base list gmap strings pretty.
From S2P Require Import Prelude Loops XReal FOps FOpsReal TensorView.

Open Scope nat_scope.

(** ** Parameters *)

(** A dense CPU tensor of [f32] *)
Record PTensor (X : Type) := mkPT { pt_shape : list nat; pt_data : list X }.
Arguments mkPT {X}.
Arguments pt_shape {X}.
Arguments pt_data {X}.

(** The shared cells of a [Variable] *)
Record Param (X : Type) := mkParam { p_tensor : PTensor X; p_grad : option (PTensor X) }.
Arguments mkParam {X}.
Arguments p_tensor {X}.
Arguments p_grad {X}.

Notation Store X := (gmap nat (Param X)).

(** [struct OptimMeta] *)
Record OptimMeta (X : Type) := mkMeta {
  meta_lr : X; meta_step_t : nat; meta_betas : option (X * X); meta_eps : option X;
  meta_weight_decay : option X; meta_momentum : option X; meta_alpha : option X
}.
Arguments mkMeta {X}.
Arguments meta_lr {X}.
Arguments meta_step_t {X}.
Arguments meta_betas {X}.
Arguments meta_eps {X}.
Arguments meta_weight_decay {X}.
Arguments meta_momentum {X}.
Arguments meta_alpha {X}.

(** The optimizers, without their parameter lists *)
Record Sgd (X : Type) := mkSgd {
  sgd_lr : X; momentum : X; sgd_weight_decay : X; nesterov : bool; velocity : list (option (list X))
}.
Arguments mkSgd {X}.
Arguments sgd_lr {X}.
Arguments momentum {X}.
Arguments sgd_weight_decay {X}.
Arguments nesterov {X}.
Arguments velocity {X}.

Record Adam (X : Type) := mkAdam {
  adam_lr : X; adam_betas : X * X; adam_eps : X; adam_weight_decay : X; decoupled_wd : bool; adam_step_t : nat;
  adam_m : list (option (list X)); adam_v : list (option (list X))
}.
Arguments mkAdam {X}.
Arguments adam_lr {X}.
Arguments adam_betas {X}.
Arguments adam_eps {X}.
Arguments adam_weight_decay {X}.
Arguments decoupled_wd {X}.
Arguments adam_step_t {X}.
Arguments adam_m {X}.
Arguments adam_v {X}.

Record Lion (X : Type) := mkLion { lion_lr : X; lion_betas : X * X; lion_weight_decay : X; lion_m : list (option (list X)) }.
Arguments mkLion {X}.
Arguments lion_lr {X}.
Arguments lion_betas {X}.
Arguments lion_weight_decay {X}.
Arguments lion_m {X}.

(** [Adamax], [NAdam] and [RAdam] keep two buffers and a step counter. *)
Record TwoBuf (X : Type) := mkTwo {
  two_lr : X; two_betas : X * X; two_eps : X; two_weight_decay : X; two_step_t : nat;
  two_m : list (option (list X)); two_v : list (option (list X))
}.
Arguments mkTwo {X}.
Arguments two_lr {X}.
Arguments two_betas {X}.
Arguments two_eps {X}.
Arguments two_weight_decay {X}.
Arguments two_step_t {X}.
Arguments two_m {X}.
Arguments two_v {X}.

(** [Adagrad] and [RMSprop] keep one buffer; [one_coef] is [initial_accumulator] or
    [alpha]. *)
Record OneBuf (X : Type) := mkOne { one_lr : X; one_coef : X; one_eps : X; one_weight_decay : X; one_buf : list (option (list X)) }.
Arguments mkOne {X}.
Arguments one_lr {X}.
Arguments one_coef {X}.
Arguments one_eps {X}.
Arguments one_weight_decay {X}.
Arguments one_buf {X}.

Record Adafactor (X : Type) := mkAdafactor {
  af_lr : X; af_beta2 : X; af_eps : X; af_weight_decay : X;
  af_r : list (option (list X)); af_c : list (option (list X)); af_v : list (option (list X))
}.
Arguments mkAdafactor {X}.
Arguments af_lr {X}.
Arguments af_beta2 {X}.
Arguments af_eps {X}.
Arguments af_weight_decay {X}.
Arguments af_r {X}.
Arguments af_c {X}.
Arguments af_v {X}.

Section optim.
Context {X : Type} {FO : FOps X} {E : Type}.

Definition get_param (s : Store X) (id : nat) : res E (Param X) := unwrap_opt (s !! id).

(** [write_param_data] *)
Definition write_param_data (s : Store X) (id : nat) (new_data : list X) : res E (Store X) :=
  let? p := get_param s id in
  let? sd := unwrap (E := unit) (from_vec tt (pt_shape (p_tensor p)) new_data) in
  Ok (<[id := mkParam (mkPT sd.1 sd.2) (p_grad p)]> s).

Definition zero_grad (s : Store X) (params : list nat) : res E (Store X) :=
  rfold (λ s id, let? p := get_param s id in Ok (<[id := mkParam (p_tensor p) None]> s)) s params.

(** The loop of [Optimizer::step]: parameters without a gradient are skipped; [f]
    updates the buffers of the parameter at a position and gives its new data. *)
Definition step_params {St} (f : St → nat → list nat → list X → list X → res E (St * list X)) (params : list nat)
    (s : Store X) (st : St) : res E (Store X * St) :=
  rfold (λ acc ip,
    let? p := get_param acc.1 ip.2 in
    match p_grad p with
    | None => Ok acc
    | Some g =>
        let? r := f acc.2 ip.1 (pt_shape (p_tensor p)) (pt_data (p_tensor p)) (pt_data g) in
        let? s := write_param_data acc.1 ip.2 r.2 in
        Ok (s, r.1)
    end) (s, st) (imap pair params).

(** [self.buf[i].take().unwrap_or_else(|| vec![init; n])] *)
Definition take_buf (bufs : list (option (list X))) (i n : nat) (init : X) : res E (list X) :=
  let? b := rd bufs i in Ok (default (replicate n init) b).

(** The gradient with weight decay added to it *)
Definition decayed (wd p g : X) : X := if k_gt wd k0 then g ⊕ wd ⊗ p else g.

(** ** SGD (sgd.rs) *)

Definition Sgd_new (n : nat) (lr : X) : Sgd X := mkSgd lr k0 k0 false (replicate n None).

Definition sgd_param (o : Sgd X) (vel : list (option (list X))) (i : nat) (_ : list nat) (p_data g_data : list X)
    : res E (list (option (list X)) * list X) :=
  let effective_grad := if k_gt (sgd_weight_decay o) k0 then zip_with (λ p g, g ⊕ sgd_weight_decay o ⊗ p) p_data g_data else g_data in
  if k_gt (momentum o) k0 then
    let? v_prev := take_buf vel i (length p_data) k0 in
    let v_new := zip_with (λ v g, momentum o ⊗ v ⊕ g) v_prev effective_grad in
    let update := if nesterov o then zip_with (λ g v, g ⊕ momentum o ⊗ v) effective_grad v_new else v_new in
    let? vel := put vel i (Some v_new) in
    Ok (vel, zip_with (λ p u, p ⊖ sgd_lr o ⊗ u) p_data update)
  else Ok (vel, zip_with (λ p g, p ⊖ sgd_lr o ⊗ g) p_data effective_grad).

Definition Sgd_step (params : list nat) (s : Store X) (o : Sgd X) : res E (Store X * Sgd X) :=
  let? r := step_params (sgd_param o) params s (velocity o) in
  Ok (r.1, mkSgd (sgd_lr o) (momentum o) (sgd_weight_decay o) (nesterov o) r.2).

(** ** Adam and AdamW (adam.rs) *)

Definition Adam_new (n : nat) (lr : X) : Adam X :=
  mkAdam lr (k_lit 0.9, k_lit 0.999) (k_lit (1 # 100000000)) k0 false 0 (replicate n None) (replicate n None).
Definition AdamW_new (n : nat) (lr : X) : Adam X :=
  mkAdam lr (k_lit 0.9, k_lit 0.999) (k_lit (1 # 100000000)) (k_lit 0.01) true 0 (replicate n None) (replicate n None).

(** The kernel of one element: the new moments and the new value *)
Definition adam_element (o : Adam X) (bc1 bc2 p g m v : X) : X * X * X :=
  let inv_bc1 := k1 ⊘ bc1 in
  let inv_bc2 := k1 ⊘ bc2 in
  let wd := adam_weight_decay o in
  let g_eff := if negb (decoupled_wd o) && k_gt wd k0 then g ⊕ wd ⊗ p else g in
  let m := (adam_betas o).1 ⊗ m ⊕ (k1 ⊖ (adam_betas o).1) ⊗ g_eff in
  let v := (adam_betas o).2 ⊗ v ⊕ (k1 ⊖ (adam_betas o).2) ⊗ g_eff ⊗ g_eff in
  let m_hat := m ⊗ inv_bc1 in
  let v_hat := v ⊗ inv_bc2 in
  let p_new := p ⊖ adam_lr o ⊗ m_hat ⊘ (k_sqrt v_hat ⊕ adam_eps o) in
  (m, v, if decoupled_wd o && k_gt wd k0 then p_new ⊖ adam_lr o ⊗ wd ⊗ p else p_new).

(** The loop over the elements of a chunk, as long as [new] *)
Definition adam_elements (o : Adam X) (bc1 bc2 : X) (p_data g_data m_buf v_buf new : list X) : res E (list X * list X * list X) :=
  for_range (length new) (λ st k,
    let? p := rd p_data k in
    let? g := rd g_data k in
    let? m := rd st.1.1 k in
    let? v := rd st.1.2 k in
    let r := adam_element o bc1 bc2 p g m v in
    let? m_buf := put st.1.1 k r.1.1 in
    let? v_buf := put st.1.2 k r.1.2 in
    let? new := put st.2 k r.2 in
    Ok (m_buf, v_buf, new)) (m_buf, v_buf, new).

(** [par_chunks_mut(CHUNK).zip(..)..]: the zip ends with the shortest list. *)
Fixpoint adam_chunks (fuel chunk : nat) (o : Adam X) (bc1 bc2 : X) (p_data g_data m_buf v_buf new : list X)
    : res E (list X * list X * list X) :=
  match fuel with
  | O => Ok (m_buf, v_buf, new)
  | S fuel =>
      match new, p_data, g_data, m_buf, v_buf with
      | [], _, _, _, _ | _, [], _, _, _ | _, _, [], _, _ | _, _, _, [], _ | _, _, _, _, [] => Ok (m_buf, v_buf, new)
      | _, _, _, _, _ =>
          let? r := adam_elements o bc1 bc2 (take chunk p_data) (take chunk g_data) (take chunk m_buf) (take chunk v_buf) (take chunk new) in
          let? t := adam_chunks fuel chunk o bc1 bc2 (drop chunk p_data) (drop chunk g_data) (drop chunk m_buf) (drop chunk v_buf) (drop chunk new) in
          Ok (r.1.1 ++ t.1.1, r.1.2 ++ t.1.2, r.2 ++ t.2)
      end
  end.

Definition PARALLEL_THRESHOLD : Z := 16384.
Definition CHUNK : nat := Z.to_nat 4096.

Definition cpu_adamw_kernel (o : Adam X) (bc1 bc2 : X) (p_data g_data m_buf v_buf new : list X) : res E (list X * list X * list X) :=
  if (Z.of_nat (length p_data) <? PARALLEL_THRESHOLD)%Z then
    (* the loop runs over the length of the data, which is that of [new] *)
    adam_elements o bc1 bc2 p_data g_data m_buf v_buf new
  else adam_chunks (length new) CHUNK o bc1 bc2 p_data g_data m_buf v_buf new.

Definition adam_param (o : Adam X) (bc1 bc2 : X) (st : list (option (list X)) * list (option (list X))) (i : nat)
    (_ : list nat) (p_data g_data : list X) : res E ((list (option (list X)) * list (option (list X))) * list X) :=
  let n := length p_data in
  let? m_buf := take_buf st.1 i n k0 in
  let? v_buf := take_buf st.2 i n k0 in
  let? r := cpu_adamw_kernel o bc1 bc2 p_data g_data m_buf v_buf (replicate n k0) in
  let? ms := put st.1 i (Some r.1.1) in
  let? vs := put st.2 i (Some r.1.2) in
  Ok ((ms, vs), r.2).

Definition Adam_step (params : list nat) (s : Store X) (o : Adam X) : res E (Store X * Adam X) :=
  let step_t := ix (adam_step_t o + 1) in
  let t := k_of_nat step_t in
  let bc1 := k1 ⊖ k_powf (adam_betas o).1 t in
  let bc2 := k1 ⊖ k_powf (adam_betas o).2 t in
  let? r := step_params (adam_param o bc1 bc2) params s (adam_m o, adam_v o) in
  Ok (r.1, mkAdam (adam_lr o) (adam_betas o) (adam_eps o) (adam_weight_decay o) (decoupled_wd o) step_t r.2.1 r.2.2).

(** ** The others: one or two buffers, an element at a time *)

Definition one_loop (f : X → X → X → X * X) (p_data g_data buf : list X) : res E (list X * list X) :=
  for_range (length p_data) (λ st k,
    let? p := rd p_data k in
    let? g := rd g_data k in
    let? b := rd st.1 k in
    let r := f p g b in
    let? buf := put st.1 k r.1 in
    Ok (buf, st.2 ++ [r.2])) (buf, []).

Definition two_loop (f : X → X → X → X → X * X * X) (p_data g_data m_buf v_buf : list X) : res E (list X * list X * list X) :=
  for_range (length p_data) (λ st k,
    let? p := rd p_data k in
    let? g := rd g_data k in
    let? m := rd st.1.1 k in
    let? v := rd st.1.2 k in
    let r := f p g m v in
    let? m_buf := put st.1.1 k r.1.1 in
    let? v_buf := put st.1.2 k r.1.2 in
    Ok (m_buf, v_buf, st.2 ++ [r.2])) (m_buf, v_buf, []).

Definition one_param (init : X) (f : X → X → X → X * X) (bufs : list (option (list X))) (i : nat) (_ : list nat) (p_data g_data : list X)
    : res E (list (option (list X)) * list X) :=
  let? b := take_buf bufs i (length p_data) init in
  let? r := one_loop f p_data g_data b in
  let? bufs := put bufs i (Some r.1) in
  Ok (bufs, r.2).

Definition two_param (f : X → X → X → X → X * X * X) (st : list (option (list X)) * list (option (list X))) (i : nat)
    (_ : list nat) (p_data g_data : list X) : res E ((list (option (list X)) * list (option (list X))) * list X) :=
  let? m := take_buf st.1 i (length p_data) k0 in
  let? v := take_buf st.2 i (length p_data) k0 in
  let? r := two_loop f p_data g_data m v in
  let? ms := put st.1 i (Some r.1.1) in
  let? vs := put st.2 i (Some r.1.2) in
  Ok ((ms, vs), r.2).

(** *** Lion (lion.rs) *)
Definition Lion_new (n : nat) (lr : X) : Lion X := mkLion lr (k_lit 0.9, k_lit 0.99) k0 (replicate n None).

Definition lion_element (o : Lion X) (p g m : X) : X * X :=
  let '(b1, b2) := lion_betas o in
  let c := b1 ⊗ m ⊕ (k1 ⊖ b1) ⊗ g in
  let sign_c := if k_gt c k0 then k1 else if k_gt k0 c then k_of_Z (-1) else k0 in
  let p_new := p ⊖ lion_lr o ⊗ sign_c in
  (b2 ⊗ m ⊕ (k1 ⊖ b2) ⊗ g,
   if k_gt (lion_weight_decay o) k0 then p_new ⊖ lion_lr o ⊗ lion_weight_decay o ⊗ p else p_new).

Definition Lion_step (params : list nat) (s : Store X) (o : Lion X) : res E (Store X * Lion X) :=
  let? r := step_params (one_param k0 (lion_element o)) params s (lion_m o) in
  Ok (r.1, mkLion (lion_lr o) (lion_betas o) (lion_weight_decay o) r.2).

(** *** Adagrad (adagrad.rs) and RMSprop (rmsprop.rs) *)
Definition Adagrad_new (n : nat) (lr : X) : OneBuf X := mkOne lr k0 (k_lit (1 # 10000000000)) k0 (replicate n None).
Definition RMSprop_new (n : nat) (lr : X) : OneBuf X := mkOne lr (k_lit 0.99) (k_lit (1 # 100000000)) k0 (replicate n None).

Definition adagrad_element (o : OneBuf X) (p g acc : X) : X * X :=
  let g := decayed (one_weight_decay o) p g in
  let acc := acc ⊕ g ⊗ g in
  (acc, p ⊖ one_lr o ⊗ g ⊘ (k_sqrt acc ⊕ one_eps o)).

Definition rmsprop_element (o : OneBuf X) (p g v : X) : X * X :=
  let g := decayed (one_weight_decay o) p g in
  let v := one_coef o ⊗ v ⊕ (k1 ⊖ one_coef o) ⊗ g ⊗ g in
  (v, p ⊖ one_lr o ⊗ g ⊘ (k_sqrt v ⊕ one_eps o)).

Definition with_buf (o : OneBuf X) (b : list (option (list X))) : OneBuf X := mkOne (one_lr o) (one_coef o) (one_eps o) (one_weight_decay o) b.

Definition Adagrad_step (params : list nat) (s : Store X) (o : OneBuf X) : res E (Store X * OneBuf X) :=
  let? r := step_params (one_param (one_coef o) (adagrad_element o)) params s (one_buf o) in
  Ok (r.1, with_buf o r.2).

Definition RMSprop_step (params : list nat) (s : Store X) (o : OneBuf X) : res E (Store X * OneBuf X) :=
  let? r := step_params (one_param k0 (rmsprop_element o)) params s (one_buf o) in
  Ok (r.1, with_buf o r.2).

(** *** Adamax (adamax.rs), NAdam (nadam.rs), RAdam (radam.rs) *)
Definition TwoBuf_new (n : nat) (lr : X) : TwoBuf X :=
  mkTwo lr (k_lit 0.9, k_lit 0.999) (k_lit (1 # 100000000)) k0 0 (replicate n None) (replicate n None).

Definition adamax_element (o : TwoBuf X) (bc1 p g m u : X) : X * X * X :=
  let '(b1, b2) := two_betas o in
  let g := decayed (two_weight_decay o) p g in
  let m := b1 ⊗ m ⊕ (k1 ⊖ b1) ⊗ g in
  let u := k_max (b2 ⊗ u) (k_abs g) in
  let m_hat := m ⊘ bc1 in
  (m, u, p ⊖ two_lr o ⊗ m_hat ⊘ (u ⊕ two_eps o)).

Definition nadam_element (o : TwoBuf X) (bc1 bc2 p g m v : X) : X * X * X :=
  let '(b1, b2) := two_betas o in
  let g := decayed (two_weight_decay o) p g in
  let m := b1 ⊗ m ⊕ (k1 ⊖ b1) ⊗ g in
  let v := b2 ⊗ v ⊕ (k1 ⊖ b2) ⊗ g ⊗ g in
  let m_hat := m ⊘ bc1 in
  let v_hat := v ⊘ bc2 in
  let m_hat' := b1 ⊗ m_hat ⊕ (k1 ⊖ b1) ⊗ g ⊘ bc1 in
  (m, v, p ⊖ two_lr o ⊗ m_hat' ⊘ (k_sqrt v_hat ⊕ two_eps o)).

Definition radam_element (o : TwoBuf X) (bc1 bc2 rho_inf rho_t p g m v : X) : X * X * X :=
  let '(b1, b2) := two_betas o in
  let g := decayed (two_weight_decay o) p g in
  let m := b1 ⊗ m ⊕ (k1 ⊖ b1) ⊗ g in
  let v := b2 ⊗ v ⊕ (k1 ⊖ b2) ⊗ g ⊗ g in
  let m_hat := m ⊘ bc1 in
  let four := k_lit 4 in
  let two := k_lit 2 in
  (m, v,
   if k_gt rho_t four then
     let v_hat := k_sqrt (v ⊘ bc2) in
     let r := k_sqrt ((rho_t ⊖ four) ⊗ (rho_t ⊖ two) ⊗ rho_inf ⊘ ((rho_inf ⊖ four) ⊗ (rho_inf ⊖ two) ⊗ rho_t)) in
     p ⊖ two_lr o ⊗ r ⊗ m_hat ⊘ (v_hat ⊕ two_eps o)
   else p ⊖ two_lr o ⊗ m_hat).

(** The step counter advances, then [elem] runs with its value as a float. *)
Definition two_step (elem : X → X → X → X → X → X * X * X) (params : list nat) (s : Store X) (o : TwoBuf X) : res E (Store X * TwoBuf X) :=
  let step_t := ix (two_step_t o + 1) in
  let? r := step_params (two_param (elem (k_of_nat step_t))) params s (two_m o, two_v o) in
  Ok (r.1, mkTwo (two_lr o) (two_betas o) (two_eps o) (two_weight_decay o) step_t r.2.1 r.2.2).

Definition Adamax_step (params : list nat) (s : Store X) (o : TwoBuf X) : res E (Store X * TwoBuf X) :=
  two_step (λ t, adamax_element o (k1 ⊖ k_powf (two_betas o).1 t)) params s o.

Definition NAdam_step (params : list nat) (s : Store X) (o : TwoBuf X) : res E (Store X * TwoBuf X) :=
  two_step (λ t, nadam_element o (k1 ⊖ k_powf (two_betas o).1 t) (k1 ⊖ k_powf (two_betas o).2 t)) params s o.

Definition RAdam_step (params : list nat) (s : Store X) (o : TwoBuf X) : res E (Store X * TwoBuf X) :=
  two_step (λ t,
    let b2 := (two_betas o).2 in
    let bc2 := k1 ⊖ k_powf b2 t in
    let rho_inf := k_lit 2 ⊘ (k1 ⊖ b2) ⊖ k1 in
    let rho_t := rho_inf ⊖ k_lit 2 ⊗ t ⊗ k_powf b2 t ⊘ bc2 in
    radam_element o (k1 ⊖ k_powf (two_betas o).1 t) bc2 rho_inf rho_t) params s o.

(** *** Adafactor (adafactor.rs) *)
Definition Adafactor_new (n : nat) (lr : X) : Adafactor X :=
  mkAdafactor lr (k_lit 0.999) (k_lit (1 # (10 ^ 30))) k0 (replicate n None) (replicate n None) (replicate n None).

(** The mean of the squares of [count] elements [g_data[idx j]] *)
Definition mean_square (g_data : list X) (count : nat) (idx : nat → nat) : res E X :=
  let? s := for_range count (λ s j, let? g := rd g_data (idx j) in Ok (s ⊕ g ⊗ g)) k0 in
  Ok (s ⊘ k_of_nat count).

(** [r[i] = beta2 * r[i] + (1 - beta2) * r_new[i]] for [i] below [n] *)
Definition ema (beta2 : X) (n : nat) (r r_new : list X) : res E (list X) :=
  for_range n (λ r i, let? a := rd r i in let? b := rd r_new i in put r i (beta2 ⊗ a ⊕ (k1 ⊖ beta2) ⊗ b)) r.

Definition adafactor_factored (o : Adafactor X) (rows cols : nat) (r c p_data g_data : list X) : res E (list X * list X * list X) :=
  let? r_new := rmapM (λ ri, mean_square g_data cols (λ cj, ix (ri * cols + cj))) (seq 0 rows) in
  let? c_new := rmapM (λ cj, mean_square g_data rows (λ ri, ix (ri * cols + cj))) (seq 0 cols) in
  let? r := ema (af_beta2 o) rows r r_new in
  let? c := ema (af_beta2 o) cols c c_new in
  let r_mean := k_max (k_sum r ⊘ k_of_nat rows) (af_eps o) in
  let? new := for_range rows (λ new ri, for_range cols (λ new cj,
      let? a := rd r ri in
      let? b := rd c cj in
      let v_approx := a ⊗ b ⊘ r_mean in
      let? g := rd g_data (ix (ri * cols + cj)) in
      let? p := rd p_data (ix (ri * cols + cj)) in
      put new (ix (ri * cols + cj)) (p ⊖ af_lr o ⊗ decayed (af_weight_decay o) p g ⊘ (k_sqrt v_approx ⊕ af_eps o))) new)
    (replicate (length p_data) k0) in
  Ok (r, c, new).

Definition adafactor_element (o : Adafactor X) (p g v : X) : X * X :=
  let g_eff := decayed (af_weight_decay o) p g in
  let v := af_beta2 o ⊗ v ⊕ (k1 ⊖ af_beta2 o) ⊗ g ⊗ g in
  (v, p ⊖ af_lr o ⊗ g_eff ⊘ (k_sqrt v ⊕ af_eps o)).

Definition adafactor_param (o : Adafactor X) (st : list (option (list X)) * list (option (list X)) * list (option (list X)))
    (i : nat) (shape : list nat) (p_data g_data : list X) :=
  match shape with
  | [rows; cols] =>
      let? r := take_buf st.1.1 i rows k0 in
      let? c := take_buf st.1.2 i cols k0 in
      let? t := adafactor_factored o rows cols r c p_data g_data in
      let? rs := put st.1.1 i (Some t.1.1) in
      let? cs := put st.1.2 i (Some t.1.2) in
      Ok ((rs, cs, st.2), t.2)
  | _ =>
      let? v := take_buf st.2 i (length p_data) k0 in
      let? t := one_loop (adafactor_element o) p_data g_data v in
      let? vs := put st.2 i (Some t.1) in
      Ok ((st.1, vs), t.2)
  end.

Definition Adafactor_step (params : list nat) (s : Store X) (o : Adafactor X) : res E (Store X * Adafactor X) :=
  let? r := step_params (adafactor_param o) params s (af_r o, af_c o, af_v o) in
  Ok (r.1, mkAdafactor (af_lr o) (af_beta2 o) (af_eps o) (af_weight_decay o) r.2.1.1 r.2.1.2 r.2.2).

(** ** Clipping (clip.rs)

    The sum of squares is accumulated in [f64]; [widen] and [narrow] are the casts. *)

Definition scale_grad (s : Store X) (id : nat) (scale : X) : res E (Store X) :=
  let? p := get_param s id in
  match p_grad p with
  | None => Ok s
  | Some g =>
      let scaled := (λ v, v ⊗ scale) <$> pt_data g in
      let? sd := unwrap (E := unit) (from_vec tt (pt_shape g) scaled) in
      Ok (<[id := mkParam (p_tensor p) (Some (mkPT sd.1 sd.2))]> s)
  end.

Section clip.
Context {D : Type} {FD : FOps D} (widen : X → D) (narrow : D → X).

Definition clip_grad_norm_ (s : Store X) (parameters : list nat) (max_norm : X) : res E (Store X * X) :=
  let? total_sq := rfold (λ acc id,
      let? p := get_param s id in
      Ok (match p_grad p with
          | None => acc
          | Some g => foldl (λ acc v, acc ⊕ widen v ⊗ widen v) acc (pt_data g)
          end)) k0 parameters in
  let global_norm := narrow (k_sqrt total_sq) in
  if k_gt global_norm max_norm && k_gt global_norm k0 then
    let scale := max_norm ⊘ global_norm in
    let? s := rfold (λ s id, scale_grad s id scale) s parameters in
    Ok (s, global_norm)
  else Ok (s, global_norm).

Definition clip_grad_norm_per_param_ (s : Store X) (parameters : list nat) (max_norm : X) : res E (Store X * list X) :=
  rfold (λ acc id,
    let? p := get_param acc.1 id in
    match p_grad p with
    | None => Ok (acc.1, acc.2 ++ [k0])
    | Some g =>
        let n := narrow (k_sqrt (k_sum ((λ v, widen v ⊗ widen v) <$> pt_data g))) in
        if k_gt n max_norm && k_gt n k0 then
          let? s := scale_grad acc.1 id (max_norm ⊘ n) in Ok (s, acc.2 ++ [n])
        else Ok (acc.1, acc.2 ++ [n])
    end) (s, []) parameters.
End clip.

(** ** State dictionaries (state_dict.rs)

    The [BTreeMap] is a finite map from the keys; a tensor in it is a dense one of
    [f32]. *)

(** [format!("{prefix}.{i}")] *)
Definition buffer_key (prefix : string) (i : nat) : string := prefix +:+ "." +:+ pretty i.

Definition flatten_buffers (map : gmap string (PTensor X)) (prefix : string) (buffers : list (option (list X))) : gmap string (PTensor X) :=
  foldl (λ m ib, match ib.2 with Some b => <[buffer_key prefix ib.1 := mkPT [length b] b]> m | None => m end) map (imap pair buffers).

Definition unflatten_buffers (map : gmap string (PTensor X)) (prefix : string) (n_params : nat) : list (option (list X)) :=
  (λ i, pt_data <$> map !! buffer_key prefix i) <$> seq 0 n_params.

Definition Sgd_state_dict (o : Sgd X) : gmap string (PTensor X) := flatten_buffers ∅ "velocity" (velocity o).
Definition Sgd_load_state_dict (n_params : nat) (o : Sgd X) (sd : gmap string (PTensor X)) : Sgd X :=
  mkSgd (sgd_lr o) (momentum o) (sgd_weight_decay o) (nesterov o) (unflatten_buffers sd "velocity" n_params).
Definition Sgd_meta (o : Sgd X) : OptimMeta X :=
  mkMeta (sgd_lr o) 0 None None (Some (sgd_weight_decay o)) (Some (momentum o)) None.
Definition Sgd_load_meta (o : Sgd X) (meta : OptimMeta X) : Sgd X :=
  mkSgd (meta_lr meta) (default (momentum o) (meta_momentum meta)) (default (sgd_weight_decay o) (meta_weight_decay meta)) (nesterov o) (velocity o).

Definition Adam_state_dict (o : Adam X) : gmap string (PTensor X) := flatten_buffers (flatten_buffers ∅ "m" (adam_m o)) "v" (adam_v o).
Definition Adam_load_state_dict (n_params : nat) (o : Adam X) (sd : gmap string (PTensor X)) : Adam X :=
  mkAdam (adam_lr o) (adam_betas o) (adam_eps o) (adam_weight_decay o) (decoupled_wd o) (adam_step_t o)
    (unflatten_buffers sd "m" n_params) (unflatten_buffers sd "v" n_params).
Definition Adam_meta (o : Adam X) : OptimMeta X :=
  mkMeta (adam_lr o) (adam_step_t o) (Some (adam_betas o)) (Some (adam_eps o)) (Some (adam_weight_decay o)) None None.
Definition Adam_load_meta (o : Adam X) (meta : OptimMeta X) : Adam X :=
  mkAdam (meta_lr meta) (default (adam_betas o) (meta_betas meta)) (default (adam_eps o) (meta_eps meta))
    (default (adam_weight_decay o) (meta_weight_decay meta)) (decoupled_wd o) (meta_step_t meta) (adam_m o) (adam_v o).
End optim.

(** ** What a step does *)

(** Buffers updated in place, as far as a loop has come *)
Lemma put_progress {E X} (M m : list X) k x : length M = length m → M !! k = Some x →
  put (E := E) (take k M ++ drop k m) k x = Ok (take (S k) M ++ drop (S k) m).
Proof.
  intros Hl Hk. pose proof (lookup_lt_Some _ _ _ Hk). unfold put.
  rewrite length_app, length_take, length_drop, (proj2 (Nat.ltb_lt _ _)) by lia. f_equal.
  rewrite insert_app_r_alt by (rewrite length_take; lia).
  rewrite length_take, Nat.min_l, Nat.sub_diag by lia.
  destruct (lookup_lt_is_Some_2 m k) as [y Hy]; [lia|].
  rewrite (drop_S m y k Hy), (take_S_r M k x Hk). cbn [insert list_insert]. by rewrite <- app_assoc.
Qed.

Lemma rd_progress {E X} (M m : list X) k : length M = length m → k < length m →
  rd (E := E) (take k M ++ drop k m) k = rd m k.
Proof.
  intros Hl Hk. unfold rd. rewrite lookup_app_r by (rewrite length_take; lia).
  rewrite length_take, Nat.min_l, Nat.sub_diag, lookup_drop, Nat.add_0_r by lia. done.
Qed.

Lemma progress_end {X} (M m : list X) n : length M = n → length m = n → take n M ++ drop n m = M.
Proof. intros <- Hm. rewrite take_ge, drop_ge, app_nil_r by lia. done. Qed.

Section elements.
Context {X : Type} {FO : FOps X} {E : Type}.

(** An update of each element of a parameter and of its two buffers *)
Definition map2 (el : X → X → X → X → X * X * X) (p g m v : list X) : list (X * X * X) :=
  zip_with (λ pg mv, el pg.1 pg.2 mv.1 mv.2) (zip p g) (zip m v).
Definition map1 (el : X → X → X → X * X) (p g b : list X) : list (X * X) :=
  zip_with (λ pg b, el pg.1 pg.2 b) (zip p g) b.

Lemma length_map2 el p g m v : length g = length p → length m = length p → length v = length p →
  length (map2 el p g m v) = length p.
Proof. intros. unfold map2. rewrite length_zip_with, !length_zip_with. lia. Qed.

Lemma lookup_map2 el p g m v k r : map2 el p g m v !! k = Some r →
  ∃ a b c d, p !! k = Some a ∧ g !! k = Some b ∧ m !! k = Some c ∧ v !! k = Some d ∧ r = el a b c d.
Proof.
  unfold map2. intros ([a b] & [c d] & -> & H1 & H2)%lookup_zip_with_Some.
  apply lookup_zip_Some in H1 as [? ?], H2 as [? ?]. eauto 10.
Qed.

Lemma lookup_map2_Some el p g m v k a b c d :
  p !! k = Some a → g !! k = Some b → m !! k = Some c → v !! k = Some d → map2 el p g m v !! k = Some (el a b c d).
Proof.
  intros Ha Hb Hc Hd. unfold map2. apply lookup_zip_with_Some. exists (a, b), (c, d).
  rewrite !lookup_zip_with, Ha, Hb, Hc, Hd. done.
Qed.

Lemma map2_app el p1 p2 g1 g2 m1 m2 v1 v2 : length g1 = length p1 → length m1 = length p1 → length v1 = length p1 →
  map2 el (p1 ++ p2) (g1 ++ g2) (m1 ++ m2) (v1 ++ v2) = map2 el p1 g1 m1 v1 ++ map2 el p2 g2 m2 v2.
Proof.
  intros. unfold map2. rewrite (zip_with_app pair p1), (zip_with_app pair m1) by congruence.
  apply zip_with_app. rewrite !length_zip_with. lia.
Qed.

(** The sequential loop over the elements *)
Lemma adam_elements_spec (o : Adam X) bc1 bc2 p g m v new :
  length g = length p → length m = length p → length v = length p → length new = length p →
  let R := map2 (adam_element o bc1 bc2) p g m v in
  adam_elements (E := E) o bc1 bc2 p g m v new = Ok (R.*1.*1, R.*1.*2, R.*2).
Proof.
  intros Hg Hm Hv Hn R. assert (length R = length p) as HR by by apply length_map2.
  assert (∀ A (f : X * X * X → A), length (f <$> R) = length p) as HR' by (intros; by rewrite length_fmap).
  unfold adam_elements. rewrite Hn.
  rewrite (for_range_inv (length p) _
    (λ k, (take k R.*1.*1 ++ drop k m, take k R.*1.*2 ++ drop k v, take k R.*2 ++ drop k new))).
  - rewrite !progress_end by (rewrite ?length_fmap; done). done.
  - intros k Hk. destruct (lookup_lt_is_Some_2 R k) as [r Hr]; [lia|].
    destruct (lookup_map2 _ _ _ _ _ _ _ Hr) as (a & b & c & d & Ha & Hb & Hc & Hd & ->).
    cbn [fst snd]. rewrite !rd_progress by (rewrite ?length_fmap; lia).
    unfold rd. rewrite Ha, Hb, Hc, Hd. cbn [unwrap_opt rbind].
    rewrite !(put_progress (E := E)) by (rewrite ?list_lookup_fmap, ?Hr, ?length_fmap; done || lia). done.
Qed.

(** The chunked loop computes the same. *)
Lemma adam_chunks_spec chunk (o : Adam X) bc1 bc2 fuel : ∀ p g m v new, 0 < chunk → length new ≤ fuel →
  length g = length p → length m = length p → length v = length p → length new = length p →
  let R := map2 (adam_element o bc1 bc2) p g m v in
  adam_chunks (E := E) fuel chunk o bc1 bc2 p g m v new = Ok (R.*1.*1, R.*1.*2, R.*2).
Proof.
  induction fuel as [|fuel IH]; intros p g m v new Hc Hf Hg Hm Hv Hn.
  { destruct new, p, g, m, v; simpl in *; try lia. done. }
  destruct new as [|n0 new], p as [|p0 p], g as [|g0 g], m as [|m0 m], v as [|v0 v]; try done.
  set (P := p0 :: p) in *. set (G := g0 :: g) in *. set (M := m0 :: m) in *. set (V := v0 :: v) in *. set (N := n0 :: new) in *.
  change (adam_chunks (S fuel) chunk o bc1 bc2 P G M V N) with
    (let? r := adam_elements (E := E) o bc1 bc2 (take chunk P) (take chunk G) (take chunk M) (take chunk V) (take chunk N) in
     let? t := adam_chunks fuel chunk o bc1 bc2 (drop chunk P) (drop chunk G) (drop chunk M) (drop chunk V) (drop chunk N) in
     Ok (r.1.1 ++ t.1.1, r.1.2 ++ t.1.2, r.2 ++ t.2)).
  assert (1 ≤ length N) by (unfold N; simpl; lia). intros R.
  rewrite adam_elements_spec by (rewrite !length_take; lia). cbn [rbind].
  rewrite IH by (rewrite ?length_drop; lia). cbn [rbind fst snd].
  assert (R = map2 (adam_element o bc1 bc2) (take chunk P) (take chunk G) (take chunk M) (take chunk V) ++
          map2 (adam_element o bc1 bc2) (drop chunk P) (drop chunk G) (drop chunk M) (drop chunk V)) as ->.
  { rewrite <- map2_app by (rewrite !length_take; lia). by rewrite !take_drop. }
  by rewrite !fmap_app.
Qed.

Lemma cpu_adamw_kernel_spec (o : Adam X) bc1 bc2 p g m v new :
  length g = length p → length m = length p → length v = length p → length new = length p →
  let R := map2 (adam_element o bc1 bc2) p g m v in
  cpu_adamw_kernel (E := E) o bc1 bc2 p g m v new = Ok (R.*1.*1, R.*1.*2, R.*2).
Proof.
  intros. unfold cpu_adamw_kernel. destruct (_ <? _)%Z; [by apply adam_elements_spec|].
  apply adam_chunks_spec; [unfold CHUNK; lia|done..].
Qed.
End elements.

(** ** The loop over the parameters *)

(** Of a parameter: its data fits its shape, and its gradient its data. *)
Record param_wf {X} (p : Param X) : Prop := {
  pw_data : length (pt_data (p_tensor p)) = foldl (λ a n, ix (a * n)) 1 (pt_shape (p_tensor p));
  pw_grad g : p_grad p = Some g → length (pt_data g) = length (pt_data (p_tensor p))
}.

(** A parameter and its buffers [b] after a step whose rule is [h] *)
Definition stepped {X B} (h : B → list X → list X → B * list X) (b : B) (p : Param X) : Param X * B :=
  match p_grad p with
  | None => (p, b)
  | Some g =>
      let r := h b (pt_data (p_tensor p)) (pt_data g) in
      (mkParam (mkPT (pt_shape (p_tensor p)) r.2) (Some g), r.1)
  end.

Section step.
Context {X : Type} {FO : FOps X} {E St B : Type}.
Context (look : St → nat → B) (wf : St → Prop) (ok : B → list X → Prop) (h : B → list X → list X → B * list X) (np : nat).

(** [f] applies the rule [h] to the buffers at its position and touches no others. *)
Definition follows (f : St → nat → list nat → list X → list X → res E (St * list X)) : Prop :=
  ∀ st i sh p g, i < np → wf st → ok (look st i) p → length g = length p →
    length (h (look st i) p g).2 = length p ∧
    ∃ st', f st i sh p g = Ok (st', (h (look st i) p g).2) ∧ wf st' ∧ look st' i = (h (look st i) p g).1 ∧
           ∀ j, j ≠ i → look st' j = look st j.

(** One parameter more *)
Lemma step_params_snoc (f : St → nat → list nat → list X → list X → res E (St * list X)) params id s st :
  step_params f (params ++ [id]) s st =
  (let? acc := step_params f params s st in
   let? p := get_param acc.1 id in
   match p_grad p with
   | None => Ok acc
   | Some g =>
       let? r := f acc.2 (length params) (pt_shape (p_tensor p)) (pt_data (p_tensor p)) (pt_data g) in
       let? s := write_param_data acc.1 id r.2 in
       Ok (s, r.1)
   end).
Proof.
  unfold step_params. rewrite imap_app, rfold_app. cbn [imap]. rewrite Nat.add_0_r.
  destruct (rfold _ _ _) as [acc| |]; [|done..]. cbn [rbind rfold fst snd].
  by match goal with |- rbind ?r _ = _ => destruct r end.
Qed.

Lemma snoc_case (params : list nat) id i id' : id ∉ params → (params ++ [id]) !! i = Some id' →
  (params !! i = Some id' ∧ i < length params ∧ id' ≠ id) ∨ (i = length params ∧ id' = id).
Proof.
  intros Hnew [Hi|[Hge Hi]]%lookup_app_Some.
  - left. split; [done|]. split; [by eapply lookup_lt_Some|]. intros ->. by apply Hnew, list_elem_of_lookup_2 with i.
  - apply list_lookup_singleton_Some in Hi as [? <-]. right. split; [lia|done].
Qed.

Lemma step_params_spec f params s st : follows f → wf st → NoDup params → length params ≤ np →
  (∀ i id, params !! i = Some id → ∃ p, s !! id = Some p ∧ param_wf p ∧ ok (look st i) (pt_data (p_tensor p))) →
  ∃ s' st', step_params f params s st = Ok (s', st') ∧ wf st' ∧
    (∀ i id p, params !! i = Some id → s !! id = Some p →
       s' !! id = Some (stepped h (look st i) p).1 ∧ look st' i = (stepped h (look st i) p).2) ∧
    (∀ id, id ∉ params → s' !! id = s !! id) ∧ (∀ j, length params ≤ j → look st' j = look st j).
Proof.
  intros Hf Hst. induction params as [|id params IH] using rev_ind; intros Hnd Hnp Hs.
  { exists s, st. repeat split; done. }
  apply NoDup_app in Hnd as (Hnd & Hid & _). rewrite length_app in Hnp. simpl in Hnp.
  destruct IH as (s1 & st1 & H1 & Hst1 & Hin & Hout & Hrest); [done|lia| |].
  { intros i id' Hi. apply Hs. by rewrite lookup_app_l by (eapply lookup_lt_Some; done). }
  assert (id ∉ params) as Hnew by (intros Hin'; apply (Hid id Hin'); by left).
  destruct (Hs (length params) id) as (p & Hp & [Hd Hg] & Hok); [by rewrite lookup_app_r, Nat.sub_diag by lia|].
  rewrite step_params_snoc, H1. cbn [rbind fst snd]. unfold get_param at 1. rewrite Hout, Hp by done. cbn [unwrap_opt rbind].
  pose proof (snoc_case params id) as Hcase.
  destruct (p_grad p) as [g|] eqn:Hgp.
  - rewrite <- (Hrest (length params)) in Hok by lia.
    destruct (Hf st1 (length params) (pt_shape (p_tensor p)) (pt_data (p_tensor p)) (pt_data g))
      as (Hlen & st2 & -> & Hst2 & Hl & Ho); [lia|done..|by apply Hg|].
    rewrite Hrest in Hlen, Hl by lia. cbn [rbind fst snd]. rewrite Hrest by lia.
    unfold write_param_data, get_param. rewrite Hout, Hp by done. cbn [unwrap_opt rbind].
    unfold from_vec. rewrite Hlen, Hd, Nat.eqb_refl. cbn [unwrap rbind fst snd].
    eexists _, st2. split; [done|]. split; [done|]. split_and!.
    + intros i id' p' Hi Hp'. destruct (Hcase i id' Hnew Hi) as [(Hi' & Hlt & Hne)|[-> ->]]; [|rewrite Hp in Hp'; injection Hp' as <-].
      * rewrite lookup_insert_ne, Ho by (done || lia). by apply Hin.
      * rewrite lookup_insert_eq, Hl. unfold stepped. by rewrite Hgp.
    + intros id' Hni. rewrite lookup_insert_ne by (intros ->; apply Hni, elem_of_app; right; by left).
      apply Hout. intros ?. apply Hni, elem_of_app. by left.
    + intros j Hj. rewrite length_app in Hj. simpl in Hj. rewrite Ho by lia. apply Hrest. lia.
  - eexists s1, st1. split; [done|]. split; [done|]. split_and!.
    + intros i id' p' Hi Hp'. destruct (Hcase i id' Hnew Hi) as [(Hi' & Hlt & Hne)|[-> ->]]; [by apply Hin|rewrite Hp in Hp'; injection Hp' as <-].
      rewrite Hout, Hp, Hrest by (done || lia). unfold stepped. by rewrite Hgp.
    + intros id' Hni. apply Hout. intros ?. apply Hni, elem_of_app. by left.
    + intros j Hj. rewrite length_app in Hj. apply Hrest. lia.
Qed.
End step.

(** ** The rules of the optimizers *)

(** The buffers kept for the parameter at a position *)
Definition look1 {X} (st : list (option (list X))) (i : nat) : option (list X) := mjoin (st !! i).
Definition look2 {X} (st : list (option (list X)) * list (option (list X))) (i : nat) : option (list X) * option (list X) :=
  (look1 st.1 i, look1 st.2 i).

Definition ok1 {X} (b : option (list X)) (p : list X) : Prop := ∀ l, b = Some l → length l = length p.
Definition ok2 {X} (b : option (list X) * option (list X)) (p : list X) : Prop := ok1 b.1 p ∧ ok1 b.2 p.

Definition one_rule {X} (init : X) (el : X → X → X → X * X) (b : option (list X)) (p g : list X) : option (list X) * list X :=
  let R := map1 el p g (default (replicate (length p) init) b) in (Some R.*1, R.*2).

Definition two_rule {X} {FO : FOps X} (el : X → X → X → X → X * X * X) (b : option (list X) * option (list X)) (p g : list X)
    : (option (list X) * option (list X)) * list X :=
  let R := map2 el p g (default (replicate (length p) k0) b.1) (default (replicate (length p) k0) b.2) in
  ((Some R.*1.*1, Some R.*1.*2), R.*2).

Definition sgd_rule {X} {FO : FOps X} (o : Sgd X) (b : option (list X)) (p g : list X) : option (list X) * list X :=
  let eff := if k_gt (sgd_weight_decay o) k0 then zip_with (λ p g, g ⊕ sgd_weight_decay o ⊗ p) p g else g in
  if k_gt (momentum o) k0 then
    let v := zip_with (λ v g, momentum o ⊗ v ⊕ g) (default (replicate (length p) k0) b) eff in
    (Some v, zip_with (λ p u, p ⊖ sgd_lr o ⊗ u) p (if nesterov o then zip_with (λ g v, g ⊕ momentum o ⊗ v) eff v else v))
  else (b, zip_with (λ p g, p ⊖ sgd_lr o ⊗ g) p eff).

Section rules.
Context {X : Type} {FO : FOps X} {E : Type}.

Lemma look1_put (st : list (option (list X))) i b : i < length st →
  ∃ st', put (E := E) st i b = Ok st' ∧ length st' = length st ∧ look1 st' i = b ∧ ∀ j, j ≠ i → look1 st' j = look1 st j.
Proof.
  intros Hi. unfold put. rewrite (proj2 (Nat.ltb_lt _ _)) by done. eexists. split; [done|].
  rewrite length_insert. split; [done|]. unfold look1. rewrite list_lookup_insert_eq by done. split; [done|].
  intros j Hj. by rewrite list_lookup_insert_ne by done.
Qed.

Lemma take_buf_spec (st : list (option (list X))) i n init : i < length st →
  take_buf (E := E) st i n init = Ok (default (replicate n init) (look1 st i)).
Proof.
  intros Hi. unfold take_buf, rd, look1. destruct (lookup_lt_is_Some_2 st i Hi) as [b ->]. done.
Qed.

Lemma ok1_length (b : option (list X)) p init : ok1 b p → length (default (replicate (length p) init) b) = length p.
Proof. intros Hb. destruct b as [l|]; simpl; [by apply Hb|apply length_replicate]. Qed.

Lemma length_map1 (el : X → X → X → X * X) p g b : length g = length p → length b = length p → length (map1 el p g b) = length p.
Proof. intros. unfold map1. rewrite !length_zip_with. lia. Qed.

Lemma two_loop_spec el (p g m v : list X) : length g = length p → length m = length p → length v = length p →
  let R := map2 el p g m v in two_loop (E := E) el p g m v = Ok (R.*1.*1, R.*1.*2, R.*2).
Proof.
  intros Hg Hm Hv R. assert (length R = length p) as HR by by apply length_map2.
  unfold two_loop.
  rewrite (for_range_inv (length p) _ (λ k, (take k R.*1.*1 ++ drop k m, take k R.*1.*2 ++ drop k v, take k R.*2))).
  - rewrite !progress_end, take_ge by (rewrite ?length_fmap; lia). done.
  - intros k Hk. destruct (lookup_lt_is_Some_2 R k) as [r Hr]; [lia|].
    destruct (lookup_map2 _ _ _ _ _ _ _ Hr) as (a & b & c & d & Ha & Hb & Hc & Hd & ->).
    cbn [fst snd]. rewrite !rd_progress by (rewrite ?length_fmap; lia).
    unfold rd. rewrite Ha, Hb, Hc, Hd. cbn [unwrap_opt rbind].
    rewrite !(put_progress (E := E)) by (rewrite ?list_lookup_fmap, ?Hr, ?length_fmap; done || lia).
    cbn [rbind]. by rewrite (take_S_r R.*2 k (el a b c d).2) by (by rewrite list_lookup_fmap, Hr).
Qed.

Lemma one_loop_spec el (p g b : list X) : length g = length p → length b = length p →
  let R := map1 el p g b in one_loop (E := E) el p g b = Ok (R.*1, R.*2).
Proof.
  intros Hg Hb R. assert (length R = length p) as HR by by apply length_map1.
  unfold one_loop. rewrite (for_range_inv (length p) _ (λ k, (take k R.*1 ++ drop k b, take k R.*2))).
  - rewrite !progress_end, take_ge by (rewrite ?length_fmap; lia). done.
  - intros k Hk. destruct (lookup_lt_is_Some_2 R k) as [r Hr]; [lia|].
    destruct (proj1 (lookup_zip_with_Some _ _ _ _ _) Hr) as ([x y] & z & -> & [Hx Hy]%lookup_zip_Some & Hz).
    cbn [fst snd]. rewrite !rd_progress by (rewrite ?length_fmap; lia).
    unfold rd. rewrite Hx, Hy, Hz. cbn [unwrap_opt rbind].
    rewrite !(put_progress (E := E)) by (rewrite ?list_lookup_fmap, ?Hr, ?length_fmap; done || lia).
    cbn [rbind]. by rewrite (take_S_r R.*2 k (el x y z).2) by (by rewrite list_lookup_fmap, Hr).
Qed.

Definition wf1 np (st : list (option (list X))) : Prop := np ≤ length st.
Definition wf2 np (st : list (option (list X)) * list (option (list X))) : Prop := np ≤ length st.1 ∧ np ≤ length st.2.

(** Writing both buffers of a position *)
Lemma put2 np (st : list (option (list X)) * list (option (list X))) i b1 b2 (new : list X) : i < np → wf2 np st →
  ∃ st', (let? ms := put st.1 i b1 in let? vs := put st.2 i b2 in Ok (E := E) ((ms, vs), new)) = Ok (st', new) ∧
    wf2 np st' ∧ look2 st' i = (b1, b2) ∧ ∀ j, j ≠ i → look2 st' j = look2 st j.
Proof.
  intros Hi [H1 H2].
  destruct (look1_put st.1 i b1) as (ms & -> & Hm & Hmi & Hmo); [lia|].
  destruct (look1_put st.2 i b2) as (vs & -> & Hv & Hvi & Hvo); [lia|].
  exists (ms, vs). split; [done|]. unfold wf2, look2. simpl. rewrite Hm, Hv, Hmi, Hvi. split; [done|]. split; [done|].
  intros j Hj. by rewrite Hmo, Hvo by done.
Qed.

Lemma adam_follows np o bc1 bc2 :
  follows (E := E) look2 (wf2 np) ok2 (two_rule (adam_element o bc1 bc2)) np (adam_param o bc1 bc2).
Proof.
  intros st i sh p g Hi Hst [Ho1 Ho2] Hg. pose proof (ok1_length _ _ k0 Ho1). pose proof (ok1_length _ _ k0 Ho2).
  split; [unfold two_rule; cbn [snd]; by rewrite length_fmap, length_map2 by done|].
  unfold adam_param. rewrite !take_buf_spec by (destruct Hst; lia). cbn [rbind].
  rewrite cpu_adamw_kernel_spec by (rewrite ?length_replicate; done). by apply put2.
Qed.

Lemma two_follows np el : follows (E := E) look2 (wf2 np) ok2 (two_rule el) np (two_param el).
Proof.
  intros st i sh p g Hi Hst [Ho1 Ho2] Hg. pose proof (ok1_length _ _ k0 Ho1). pose proof (ok1_length _ _ k0 Ho2).
  split; [unfold two_rule; cbn [snd]; by rewrite length_fmap, length_map2 by done|].
  unfold two_param. rewrite !take_buf_spec by (destruct Hst; lia). cbn [rbind].
  rewrite two_loop_spec by done. by apply put2.
Qed.

Lemma one_follows np init el : follows (E := E) look1 (wf1 np) ok1 (one_rule init el) np (one_param init el).
Proof.
  intros st i sh p g Hi Hst Ho Hg. pose proof (ok1_length _ _ init Ho). unfold wf1 in *.
  split; [unfold one_rule; cbn [snd]; by rewrite length_fmap, length_map1 by done|].
  unfold one_param. rewrite take_buf_spec by lia. cbn [rbind]. rewrite one_loop_spec by done. cbn [rbind fst snd].
  match goal with |- context [put st i ?b] => destruct (look1_put st i b) as (st' & -> & Hl & Hi' & Ho'); [lia|] end.
  exists st'. rewrite Hl. done.
Qed.

Lemma sgd_follows np o : follows (E := E) look1 (wf1 np) ok1 (sgd_rule o) np (sgd_param o).
Proof.
  intros st i sh p g Hi Hst Ho Hg. pose proof (ok1_length _ _ k0 Ho). unfold wf1, sgd_rule, sgd_param in *. cbv zeta.
  set (eff := if k_gt (sgd_weight_decay o) k0 then _ else g).
  assert (length eff = length p) as He by (unfold eff; destruct (k_gt _ _); rewrite ?length_zip_with; lia).
  destruct (k_gt (momentum o) k0); cbn [fst snd]; [|split; [rewrite length_zip_with; lia|by exists st]].
  split. { destruct (nesterov o); rewrite !length_zip_with; lia. }
  rewrite take_buf_spec by lia. cbn [rbind].
  match goal with |- context [put st i ?b] => destruct (look1_put st i b) as (st' & -> & Hl & Hi' & Ho'); [lia|] end.
  exists st'. rewrite Hl. done.
Qed.
End rules.

(** The parameters are distinct and well-formed, and their buffers fit them. *)
Definition params_wf {X St B} (look : St → nat → B) (ok : B → list X → Prop) (params : list nat) (s : Store X) (st : St) : Prop :=
  NoDup params ∧
  ∀ i id, params !! i = Some id → ∃ p, s !! id = Some p ∧ param_wf p ∧ ok (look st i) (pt_data (p_tensor p)).

(** Each parameter and its buffers follow the rule; nothing else changes. *)
Definition all_stepped {X St B} (look : St → nat → B) (h : B → list X → list X → B * list X) (params : list nat)
    (s : Store X) (st : St) (s' : Store X) (st' : St) : Prop :=
  (∀ i id p, params !! i = Some id → s !! id = Some p →
     s' !! id = Some (stepped h (look st i) p).1 ∧ look st' i = (stepped h (look st i) p).2) ∧
  ∀ id, id ∉ params → s' !! id = s !! id.

Section steps.
Context {X : Type} {FO : FOps X} {E : Type}.

Lemma step_ok {St B} look wf ok h (f : St → nat → list nat → list X → list X → res E (St * list X)) params s st :
  follows look wf ok h (length params) f → wf st → params_wf (B := B) look ok params s st →
  ∃ s' st', step_params f params s st = Ok (s', st') ∧ wf st' ∧ all_stepped look h params s st s' st'.
Proof.
  intros Hf Hst [Hnd Hs].
  destruct (step_params_spec look wf ok h (length params) f params s st) as (s' & st' & H & Hw & H1 & H2 & _); [done..|].
  by exists s', st'.
Qed.

Lemma Adam_step_ok params s (o : Adam X) : wf2 (length params) (adam_m o, adam_v o) →
  params_wf look2 ok2 params s (adam_m o, adam_v o) →
  let t := ix (adam_step_t o + 1) in
  let bc β := k1 ⊖ k_powf β (k_of_nat t) in
  ∃ s' ms vs,
    Adam_step (E := E) params s o =
      Ok (s', mkAdam (adam_lr o) (adam_betas o) (adam_eps o) (adam_weight_decay o) (decoupled_wd o) t ms vs) ∧
    wf2 (length params) (ms, vs) ∧
    all_stepped look2 (two_rule (adam_element o (bc (adam_betas o).1) (bc (adam_betas o).2))) params s (adam_m o, adam_v o) s' (ms, vs).
Proof.
  intros Hw Hp t bc. unfold Adam_step. fold t.
  destruct (step_ok _ _ _ _ _ _ s (adam_m o, adam_v o) (adam_follows (length params) o (k1 ⊖ k_powf (adam_betas o).1 (k_of_nat t))
    (k1 ⊖ k_powf (adam_betas o).2 (k_of_nat t))) Hw Hp)
    as (s' & [ms vs] & -> & Hw' & Ha).
  cbn [rbind fst snd]. by exists s', ms, vs.
Qed.

(** The steps with two buffers and a step counter *)
Lemma two_step_ok elem params s (o : TwoBuf X) : wf2 (length params) (two_m o, two_v o) →
  params_wf look2 ok2 params s (two_m o, two_v o) →
  let t := ix (two_step_t o + 1) in
  ∃ s' ms vs,
    two_step (E := E) elem params s o = Ok (s', mkTwo (two_lr o) (two_betas o) (two_eps o) (two_weight_decay o) t ms vs) ∧
    wf2 (length params) (ms, vs) ∧
    all_stepped look2 (two_rule (elem (k_of_nat t))) params s (two_m o, two_v o) s' (ms, vs).
Proof.
  intros Hw Hp t. unfold two_step. fold t.
  destruct (step_ok _ _ _ _ _ _ s (two_m o, two_v o) (two_follows (length params) (elem (k_of_nat t))) Hw Hp)
    as (s' & [ms vs] & -> & Hw' & Ha).
  cbn [rbind fst snd]. by exists s', ms, vs.
Qed.

(** The steps with one buffer *)
Lemma one_step_ok {O} init el (mk : list (option (list X)) → O) params s st : wf1 (length params) st →
  params_wf look1 ok1 params s st →
  ∃ s' st',
    (let? r := step_params (one_param init el) params s st in Ok (E := E) (r.1, mk r.2)) = Ok (s', mk st') ∧
    wf1 (length params) st' ∧ all_stepped look1 (one_rule init el) params s st s' st'.
Proof.
  intros Hw Hp. destruct (step_ok _ _ _ _ _ _ s st (one_follows (length params) init el) Hw Hp) as (s' & st' & -> & Hw' & Ha).
  cbn [rbind fst snd]. by exists s', st'.
Qed.

End steps.

(** ** Saving and restoring an optimizer *)

Lemma buffer_key_inj prefix i j : buffer_key prefix i = buffer_key prefix j → i = j.
Proof. unfold buffer_key. intros H. by simplify_eq. Qed.

Lemma flatten_snoc {X} (map : gmap string (PTensor X)) prefix bufs b :
  flatten_buffers map prefix (bufs ++ [b]) =
  let m := flatten_buffers map prefix bufs in
  match b with Some l => <[buffer_key prefix (List.length bufs) := mkPT [List.length l] l]> m | None => m end.
Proof. unfold flatten_buffers. rewrite imap_app, foldl_app. cbn. by rewrite Nat.add_0_r. Qed.

Lemma lookup_flatten_ne {X} (map : gmap string (PTensor X)) prefix bufs k :
  (∀ i, i < List.length bufs → k ≠ buffer_key prefix i) → flatten_buffers map prefix bufs !! k = map !! k.
Proof.
  induction bufs as [|b bufs IH] using rev_ind; [done|]. intros Hk. rewrite flatten_snoc.
  rewrite length_app in Hk. cbn [List.length] in Hk.
  destruct b as [l|]; cbv zeta; [rewrite lookup_insert_ne by (intros He; apply (Hk (List.length bufs)); [lia|done])|];
    apply IH; intros; apply Hk; lia.
Qed.

Lemma lookup_flatten {X} (map : gmap string (PTensor X)) prefix bufs i : i < List.length bufs →
  flatten_buffers map prefix bufs !! buffer_key prefix i =
  match look1 bufs i with Some b => Some (mkPT [List.length b] b) | None => map !! buffer_key prefix i end.
Proof.
  induction bufs as [|b bufs IH] using rev_ind; [simpl; lia|]. intros Hi. rewrite flatten_snoc.
  rewrite length_app in Hi. cbn [List.length] in Hi. unfold look1. cbv zeta.
  destruct (decide (i = List.length bufs)) as [->|Hne].
  - rewrite lookup_app_r, Nat.sub_diag by lia. cbn [lookup list_lookup mjoin option_join].
    destruct b as [l|]; [by rewrite lookup_insert_eq|].
    apply lookup_flatten_ne. intros j Hj He. apply buffer_key_inj in He. lia.
  - rewrite lookup_app_l by lia. destruct b as [l|]; [|apply IH; lia].
    rewrite lookup_insert_ne by (intros He; apply buffer_key_inj in He; lia). apply IH. lia.
Qed.

(** Reading back what was flattened, into a map that holds none of the keys *)
Lemma unflatten_flatten {X} (sd map : gmap string (PTensor X)) prefix bufs :
  (∀ i, sd !! buffer_key prefix i = flatten_buffers map prefix bufs !! buffer_key prefix i) →
  (∀ i, map !! buffer_key prefix i = None) →
  unflatten_buffers sd prefix (List.length bufs) = bufs.
Proof.
  intros Hsd Hmap. unfold unflatten_buffers. apply list_eq. intros i. rewrite list_lookup_fmap.
  destruct (decide (i < List.length bufs)) as [Hi|Hi].
  - rewrite lookup_seq_lt by done. simpl. rewrite Hsd, lookup_flatten, Hmap by done. unfold look1.
    destruct (lookup_lt_is_Some_2 bufs i Hi) as [[b|] ->]; done.
  - rewrite (lookup_ge_None_2 bufs), (lookup_ge_None_2 (seq _ _)) by (rewrite ?length_seq; lia). done.
Qed.

Section checkpoint.
Context {X : Type} {FO : FOps X}.

(** C38: an optimizer's state survives a checkpoint: loading [state_dict] and [meta] of an
    [Adam] into any other one with the same kind of decay over as many parameters gives back
    its hyperparameters, its step counter and every moment buffer, in whichever order the two
    are loaded; an [Sgd] comes back the same way into one with the same nesterov flag, which
    is not saved. *)
Theorem optimizer_resume (o fresh : Adam X) (p q : Sgd X) (n : nat) :
  List.length (adam_m o) = n → List.length (adam_v o) = n → decoupled_wd fresh = decoupled_wd o →
  List.length (velocity p) = n → nesterov q = nesterov p →
  Adam_load_meta (Adam_load_state_dict n fresh (Adam_state_dict o)) (Adam_meta o) = o ∧
  Adam_load_state_dict n (Adam_load_meta fresh (Adam_meta o)) (Adam_state_dict o) = o ∧
  Sgd_load_meta (Sgd_load_state_dict n q (Sgd_state_dict p)) (Sgd_meta p) = p ∧
  Sgd_load_state_dict n (Sgd_load_meta q (Sgd_meta p)) (Sgd_state_dict p) = p.
Proof.
  intros Hm Hv Hd Hp Hn.
  assert (unflatten_buffers (Adam_state_dict o) "m" n = adam_m o) as Em.
  { rewrite <- Hm. apply (unflatten_flatten _ ∅); [|done]. intros i. apply lookup_flatten_ne. done. }
  assert (unflatten_buffers (Adam_state_dict o) "v" n = adam_v o) as Ev.
  { rewrite <- Hv. apply (unflatten_flatten _ (flatten_buffers ∅ "m" (adam_m o))); [done|].
    intros i. rewrite lookup_flatten_ne; done. }
  assert (unflatten_buffers (Sgd_state_dict p) "velocity" n = velocity p) as Ep.
  { rewrite <- Hp. by apply (unflatten_flatten _ ∅). }
  unfold Adam_load_state_dict, Sgd_load_state_dict. rewrite Em, Ev, Ep.
  destruct o, fresh, p. simpl in *. subst. done.
Qed.

(** The nesterov flag of the optimizer that is loaded into wins. *)
Lemma nesterov_not_saved (p : Sgd X) : Sgd_meta p = Sgd_meta (mkSgd (sgd_lr p) (momentum p) (sgd_weight_decay p) (negb (nesterov p)) (velocity p)).
Proof. done. Qed.
End checkpoint.

(** ** Witnesses *)

Definition two_params : Store xreal :=
  <[0 := mkParam (mkPT [2] [FIN 1%R; FIN 2%R]) (Some (mkPT [2] [FIN 3%R; FIN 4%R]))]> {[1 := mkParam (mkPT [] [FIN 5%R]) None]}.


Lemma optimizer_resume_witness :
  let o := mkAdam (FIN 1%R) (FIN 2%R, FIN 3%R) (FIN 4%R) (FIN 5%R) false 7 [Some [FIN 6%R; FIN 7%R]; None] [Some [FIN 8%R; FIN 9%R]; None] in
  let p := mkSgd (FIN 1%R) (FIN 2%R) (FIN 3%R) false [None; Some [FIN 4%R]] in
  Adam_load_meta (Adam_load_state_dict 2 (Adam_new 2 (FIN 0%R)) (Adam_state_dict o)) (Adam_meta o) = o ∧
  Sgd_load_meta (Sgd_load_state_dict 2 (Sgd_new 2 (FIN 0%R)) (Sgd_state_dict p)) (Sgd_meta p) = p.
Proof.
  set (o := mkAdam _ _ _ _ _ _ _ _). set (p := mkSgd _ _ _ _ _).
  destruct (optimizer_resume o (Adam_new 2 (FIN 0%R)) p (Sgd_new 2 (FIN 0%R)) 2) as (H1 & _ & H2 & _); [reflexivity..|].
  split; [exact H1|exact H2].
Defined.
