(* ===== verification/OptimReal.v ===== *)
(** * Optimizers over the reals

    [Optim] in exact arithmetic: what Adam and AdamW compute over a whole training run in
    closed form, and what gradient clipping does to the norm. *)

From Stdlib Require Import ZArith QArith Reals Lra Lia.
From stdpp Require Import base list gmap strings.
From S2P Require Import Prelude Loops XReal FOps FOpsReal TensorView Optim.

Open Scope R_scope.

(** ** Exponential moving averages *)

(** The moving average after [T] values, which starts at zero *)
Definition mom (β : R) (g : nat → R) (T : nat) : R := (1 - β) * psum T (λ s, β ^ (T - 1 - s) * g s).

Lemma mom_S β g T : mom β g (S T) = β * mom β g T + (1 - β) * g T.
Proof.
  unfold mom. cbn [psum]. replace (S T - 1 - T)%nat with O by lia.
  rewrite (psum_ext T _ (λ s, β * (β ^ (T - 1 - s) * g s))).
  - rewrite psum_mul_l. simpl. lra.
  - intros s Hs. replace (S T - 1 - s)%nat with (S (T - 1 - s)) by lia. simpl. lra.
Qed.

(** Its weights sum to [1 - β^T], so dividing by that makes it a weighted mean. *)
Lemma mom_const β c T : mom β (λ _, c) T = c * (1 - β ^ T).
Proof.
  induction T as [|T IH]; [unfold mom; simpl; lra|]. rewrite mom_S, IH. simpl. lra.
Qed.

Lemma mom_mono β f g T : 0 <= β <= 1 → (∀ s, (s < T)%nat → f s <= g s) → mom β f T <= mom β g T.
Proof.
  intros Hβ H. unfold mom. apply Rmult_le_compat_l; [lra|]. apply psum_le. intros s Hs.
  apply Rmult_le_compat_l; [apply pow_le; lra|by apply H].
Qed.

Lemma mom_nonneg β g T : 0 <= β <= 1 → (∀ s, (s < T)%nat → 0 <= g s) → 0 <= mom β g T.
Proof. intros Hβ H. pose proof (mom_mono β (λ _, 0) g T Hβ H) as Hm. rewrite mom_const in Hm. lra. Qed.

Lemma bias_pos β T : 0 <= β < 1 → (0 < T)%nat → 0 < 1 - β ^ T.
Proof. intros Hβ HT. pose proof (pow_lt_1_compat β T Hβ HT). lra. Qed.

(** The bias-corrected average lies between bounds of the values. *)
Lemma mom_bounds β g T lo hi : 0 <= β < 1 → (0 < T)%nat → (∀ s, (s < T)%nat → lo <= g s <= hi) →
  lo <= mom β g T / (1 - β ^ T) <= hi.
Proof.
  intros Hβ HT H. pose proof (bias_pos β T Hβ HT).
  pose proof (mom_mono β (λ _, lo) g T ltac:(lra) ltac:(intros; by apply H)) as Hl.
  pose proof (mom_mono β g (λ _, hi) T ltac:(lra) ltac:(intros; by apply H)) as Hh.
  rewrite mom_const in Hl, Hh.
  assert (mom β g T = mom β g T / (1 - β ^ T) * (1 - β ^ T)) as E by (field; lra). rewrite E in Hl, Hh.
  split; eapply Rmult_le_reg_r; [done| |done|]; lra.
Qed.

(** ** Adam in closed form *)

(** A weight after [T] steps with the gradients [g] *)
Fixpoint adam_traj (lr β1 β2 eps wd : R) (decoupled : bool) (w0 : R) (g : nat → R) (T : nat) : R :=
  match T with
  | O => w0
  | S t =>
      let w := adam_traj lr β1 β2 eps wd decoupled w0 g t in
      let m_hat := mom β1 g T / (1 - β1 ^ T) in
      let v_hat := mom β2 (λ s, g s * g s) T / (1 - β2 ^ T) in
      w - lr * m_hat / (sqrt v_hat + eps) - (if decoupled && Rgtb wd 0 then lr * wd * w else 0)
  end.

(** What an update adds to the gradient: the weight, when the decay is coupled *)
Definition coupled (wd : R) (decoupled : bool) (w : R) : R := if negb decoupled && Rgtb wd 0 then wd * w else 0.

(** The gradients that the moments average: each depends on the weight before it, so on
    all the gradients so far. *)
Fixpoint adam_grads (lr β1 β2 eps wd : R) (decoupled : bool) (w0 : R) (g : nat → R) (T : nat) : list R :=
  match T with
  | O => []
  | S t =>
      let es := adam_grads lr β1 β2 eps wd decoupled w0 g t in
      es ++ [g t + coupled wd decoupled (adam_traj lr β1 β2 eps wd decoupled w0 (λ s, nth s es 0) t)]
  end.

Definition adam_grad (lr β1 β2 eps wd : R) (decoupled : bool) (w0 : R) (g : nat → R) (t : nat) : R :=
  nth t (adam_grads lr β1 β2 eps wd decoupled w0 g (S t)) 0.

Lemma mom_ext β f g T : (∀ s, (s < T)%nat → f s = g s) → mom β f T = mom β g T.
Proof. intros H. unfold mom. f_equal. apply psum_ext. intros s Hs. by rewrite H. Qed.

Lemma adam_traj_ext lr β1 β2 eps wd dec w0 f g T : (∀ s, (s < T)%nat → f s = g s) →
  adam_traj lr β1 β2 eps wd dec w0 f T = adam_traj lr β1 β2 eps wd dec w0 g T.
Proof.
  induction T as [|T IH]; intros H; [done|]. cbn [adam_traj]. rewrite IH by (intros; apply H; lia).
  rewrite (mom_ext β1 f g), (mom_ext β2 (λ s, f s * f s) (λ s, g s * g s)); [done| |done].
  intros s Hs. by rewrite H.
Qed.

Lemma length_adam_grads lr β1 β2 eps wd dec w0 g T : length (adam_grads lr β1 β2 eps wd dec w0 g T) = T.
Proof. induction T as [|T IH]; [done|]. cbn [adam_grads]. rewrite length_app, IH. simpl. lia. Qed.

Lemma nth_adam_grads lr β1 β2 eps wd dec w0 g T s : (s < T)%nat →
  nth s (adam_grads lr β1 β2 eps wd dec w0 g T) 0 = adam_grad lr β1 β2 eps wd dec w0 g s.
Proof.
  unfold adam_grad. induction T as [|T IH]; intros Hs; [lia|]. destruct (decide (s = T)) as [->|Hne]; [done|].
  rewrite <- IH by lia. cbn [adam_grads]. apply app_nth1. rewrite length_adam_grads. lia.
Qed.

Lemma adam_grad_eq lr β1 β2 eps wd dec w0 g t :
  adam_grad lr β1 β2 eps wd dec w0 g t =
    g t + coupled wd dec (adam_traj lr β1 β2 eps wd dec w0 (adam_grad lr β1 β2 eps wd dec w0 g) t).
Proof.
  unfold adam_grad at 1. cbn [adam_grads]. rewrite app_nth2; rewrite length_adam_grads; [|lia].
  rewrite Nat.sub_diag. cbn [nth]. do 2 f_equal. apply adam_traj_ext. intros s Hs. by apply nth_adam_grads.
Qed.

(** The backward pass gave the parameters these gradients. *)
Definition sets_grads (params : list nat) (gs : nat → list R) (s s1 : Store xreal) : Prop :=
  ∀ i id p, params !! i = Some id → s !! id = Some p →
    length (gs i) = length (pt_data (p_tensor p)) ∧
    ∃ sh, s1 !! id = Some (mkParam (p_tensor p) (Some (mkPT sh (FIN <$> gs i)))).

(** A training run of [T] steps: in step [t] some backward pass gives parameter [i] the
    gradient [G t i], which may depend on the weights, then the optimizer steps. *)
Inductive training (params : list nat) (G : nat → nat → list R) (s0 : Store xreal) (o0 : Adam xreal)
    : nat → Store xreal → Adam xreal → Prop :=
  | training_start : training params G s0 o0 0 s0 o0
  | training_step T s o s1 s2 o2 :
      training params G s0 o0 T s o → sets_grads params (G T) s s1 →
      Adam_step (E := unit) params s1 o = Ok (s2, o2) →
      training params G s0 o0 (S T) s2 o2.

(** One element *)
Lemma adam_element_fin (o : Adam xreal) lr β1 β2 eps wd bc1 bc2 p g m v :
  adam_lr o = FIN lr → adam_betas o = (FIN β1, FIN β2) → adam_eps o = FIN eps → adam_weight_decay o = FIN wd →
  0 < bc1 → 0 < bc2 → 0 < eps →
  let e := g + coupled wd (decoupled_wd o) p in
  let m' := β1 * m + (1 - β1) * e in
  let v' := β2 * v + (1 - β2) * (e * e) in
  0 <= v' →
  adam_element o (FIN bc1) (FIN bc2) (FIN p) (FIN g) (FIN m) (FIN v) =
    (FIN m', FIN v',
     FIN (p - lr * (m' / bc1) / (sqrt (v' / bc2) + eps) - (if decoupled_wd o && Rgtb wd 0 then lr * wd * p else 0))).
Proof.
  intros Hlr Hb He Hw H1 H2 Heps e m' v' Hv. unfold adam_element. rewrite Hlr, Hb, He, Hw. cbn [fst snd].
  assert ((if negb (decoupled_wd o) && k_gt (FIN wd) k0 then FIN g ⊕ FIN wd ⊗ FIN p else FIN g) = FIN e) as ->.
  { unfold e, coupled. fin. destruct (negb (decoupled_wd o) && Rgtb wd 0); fin; f_equal; lra. }
  fin. replace (β2 * v + (1 - β2) * e * e) with v' by (unfold v'; lra).
  assert (0 <= v' * (1 / bc2)) by (apply Rmult_le_pos; [done|]; apply Rlt_le, Rdiv_lt_0_compat; lra).
  pose proof (sqrt_pos (v' * (1 / bc2))). fold m'. fin.
  replace (v' * (1 / bc2)) with (v' / bc2) in * by (field; lra).
  replace (m' * (1 / bc1)) with (m' / bc1) by (field; lra).
  destruct (decoupled_wd o && Rgtb wd 0); fin; [done|]. by rewrite Rminus_0_r.
Qed.

(** Buffers as functions of the position *)
Lemma map2_fmap {X} (el : X → X → X → X → X * X * X) (a b c d : nat → X) l :
  map2 el (a <$> l) (b <$> l) (c <$> l) (d <$> l) = (λ k, el (a k) (b k) (c k) (d k)) <$> l.
Proof. induction l as [|k l IH]; [done|]. unfold map2 in *. cbn. by rewrite IH. Qed.

Lemma list_as_fn (l : list R) n : length l = n → FIN <$> l = (λ k, FIN (nth k l 0)) <$> List.seq 0 n.
Proof.
  intros <-. apply list_eq. intros k. rewrite !list_lookup_fmap.
  destruct (decide (k < length l)%nat) as [Hk|Hk].
  - rewrite lookup_seq_lt by done. simpl. destruct (nth_lookup_or_length l k 0) as [->|]; [done|lia].
  - rewrite !(proj2 (lookup_ge_None _ _)) by (rewrite ?length_seq; lia). done.
Qed.

Lemma zeros_as_fn n : replicate n (@k0 xreal _) = (λ _, FIN 0) <$> List.seq 0 n.
Proof.
  apply list_eq. intros k. rewrite list_lookup_fmap. destruct (decide (k < n)%nat) as [Hk|Hk].
  - by rewrite lookup_replicate_2, lookup_seq_lt by done.
  - rewrite !(proj2 (lookup_ge_None _ _)) by (rewrite ?length_replicate, ?length_seq; lia). done.
Qed.

Section adam.
Context (params : list nat) (G : nat → nat → list R) (lr β1 β2 eps wd : R) (dec : bool) (ws : nat → list nat * list R).
Context (Hnd : NoDup params) (Hβ1 : 0 <= β1 < 1) (Hβ2 : 0 <= β2 < 1) (Heps : 0 < eps).
Context (Hshape : ∀ i, length (ws i).2 = foldl (λ a n, ix (a * n)) 1%nat (ws i).1).

(** The gradients of an element with what the decay adds, its weight and its moments after
    [T] steps *)
Definition hist (i k t : nat) : R := adam_grad lr β1 β2 eps wd dec (nth k (ws i).2 0) (λ t, nth k (G t i) 0) t.
Definition weight (i T k : nat) : R := adam_traj lr β1 β2 eps wd dec (nth k (ws i).2 0) (hist i k) T.
Definition moment1 (i T k : nat) : R := mom β1 (hist i k) T.
Definition moment2 (i T k : nat) : R := mom β2 (λ s, hist i k s * hist i k s) T.

(** A buffer of the parameter at a position *)
Definition vec (i : nat) (h : nat → R) : list xreal := (λ k, FIN (h k)) <$> List.seq 0 (length (ws i).2).

Lemma length_param_vec i h : length (vec i h) = length (ws i).2.
Proof. unfold vec. by rewrite length_fmap, length_seq. Qed.

Definition adam_state (T : nat) (m v : list (option (list xreal))) : Adam xreal :=
  mkAdam (FIN lr) (FIN β1, FIN β2) (FIN eps) (FIN wd) dec T m v.

(** The state after [T] steps *)
Record adam_inv (T : nat) (s : Store xreal) (m v : list (option (list xreal))) : Prop := {
  ai_wf : wf2 (length params) (m, v);
  ai_data i id : params !! i = Some id →
    ∃ og, s !! id = Some (mkParam (mkPT (ws i).1 (vec i (weight i T))) og);
  ai_m i : (i < length params)%nat → look1 m i = (if T =? 0 then None else Some (vec i (moment1 i T)))%nat;
  ai_v i : (i < length params)%nat → look1 v i = (if T =? 0 then None else Some (vec i (moment2 i T)))%nat
}.

Lemma ai_default T i n b h : n = length (ws i).2 → b = (if T =? 0 then None else Some (vec i h))%nat →
  (T = 0%nat → ∀ k, h k = 0) → default (replicate n k0) b = vec i h.
Proof.
  intros -> -> H0. destruct (Nat.eqb_spec T 0) as [HT|]; [|done]. simpl. rewrite zeros_as_fn.
  unfold vec. apply list_fmap_ext. intros ? k _. by rewrite H0.
Qed.

(** One parameter's step *)
Lemma adam_rule_fin T i (o : Adam xreal) m v g : o = adam_state T m v → (i < length params)%nat →
  look1 m i = (if T =? 0 then None else Some (vec i (moment1 i T)))%nat →
  look1 v i = (if T =? 0 then None else Some (vec i (moment2 i T)))%nat →
  length g = length (ws i).2 → G T i = g →
  two_rule (adam_element o (FIN (1 - β1 ^ S T)) (FIN (1 - β2 ^ S T))) (look2 (m, v) i) (vec i (weight i T)) (FIN <$> g) =
    ((Some (vec i (moment1 i (S T))), Some (vec i (moment2 i (S T)))), vec i (weight i (S T))).
Proof using All.
  intros -> Hi Hm Hv Hg HG. unfold two_rule, look2. cbn [fst snd].
  rewrite (ai_default T i _ _ (moment1 i T)), (ai_default T i _ _ (moment2 i T));
    [|by rewrite length_param_vec|done| |by rewrite length_param_vec|done|].
  2, 3: intros HT k; unfold moment1, moment2, mom; rewrite HT; simpl; lra.
  rewrite (list_as_fn g (length (ws i).2)) by done.
  match goal with |- context [map2 ?e ?a ?b ?c ?d] => assert (map2 e a b c d =
    (λ k, (FIN (moment1 i (S T) k), FIN (moment2 i (S T) k), FIN (weight i (S T) k))) <$> List.seq 0 (length (ws i).2)) as -> end.
  2: { unfold vec. by rewrite <- !list_fmap_compose. }
  unfold vec. rewrite map2_fmap. apply list_fmap_ext.
  intros ? k _. subst g.
  assert (0 <= moment2 i (S T) k) as Hnn.
  { apply mom_nonneg; [lra|]. intros s _. apply Rle_0_sqr. }
  unfold moment2 in Hnn. rewrite mom_S in Hnn.
  assert (nth k (G T i) 0 + coupled wd dec (weight i T k) = hist i k T) as He by (unfold hist; by rewrite adam_grad_eq).
  rewrite (adam_element_fin _ lr β1 β2 eps wd); [|done..|apply bias_pos; done || lia|apply bias_pos; done || lia|done|];
    cbn [decoupled_wd adam_state]; rewrite He; [|done].
  unfold moment1, moment2, weight. cbn [adam_traj]. by rewrite !mom_S.
Qed.

Lemma adam_progress T s m v s1 : (Z.of_nat T + 1 < 2 ^ 64)%Z → adam_inv T s m v → sets_grads params (G T) s s1 →
  ∃ s2 m2 v2, Adam_step (E := unit) params s1 (adam_state T m v) = Ok (s2, adam_state (S T) m2 v2) ∧ adam_inv (S T) s2 m2 v2.
Proof using All.
  intros HT [Hw Hd Hm Hv] Hg.
  assert (∀ i id, params !! i = Some id → length (G T i) = length (ws i).2 ∧
    ∃ sh, s1 !! id = Some (mkParam (mkPT (ws i).1 (vec i (weight i T))) (Some (mkPT sh (FIN <$> G T i))))) as Hs1.
  { intros i id Hi. destruct (Hd i id Hi) as [og Hog]. destruct (Hg i id _ Hi Hog) as [Hl [sh Hsh]].
    cbn [p_tensor pt_data] in *. rewrite length_param_vec in Hl. eauto. }
  destruct (Adam_step_ok (E := unit) params s1 (adam_state T m v)) as (s2 & m2 & v2 & Hstep & Hw2 & Hall & _).
  - done.
  - split; [done|]. intros i id Hi. destruct (Hs1 i id Hi) as [Hl [sh Hsh]]. eexists. split; [done|].
    pose proof (lookup_lt_Some _ _ _ Hi) as Hlt. split.
    + split; cbn [p_tensor pt_data pt_shape p_grad]; rewrite length_param_vec; [by rewrite Hshape|].
      intros g [= <-]. cbn [pt_data]. by rewrite length_fmap.
    + cbn [p_tensor pt_data adam_m adam_v adam_state]. unfold look2. split; cbn [fst snd]; [rewrite Hm by done|rewrite Hv by done];
        intros l Hl'; destruct (_ =? _)%nat; simplify_eq; by rewrite !length_param_vec.
  - cbn [adam_lr adam_betas adam_eps adam_weight_decay decoupled_wd adam_step_t adam_m adam_v adam_state fst snd] in *.
    assert (ix (T + 1) = S T) as Hix by (rewrite ix_small by lia; lia).
    rewrite Hix in *. rewrite fin_of_nat, !fin_powf, fin_1, !fin_sub in Hall.
    exists s2, m2, v2. split; [done|].
    assert (∀ i id, params !! i = Some id →
      (∃ og, s2 !! id = Some (mkParam (mkPT (ws i).1 (vec i (weight i (S T)))) og)) ∧
      look2 (m2, v2) i = (Some (vec i (moment1 i (S T))), Some (vec i (moment2 i (S T))))) as Hnew.
    { intros i id Hi. pose proof (lookup_lt_Some _ _ _ Hi) as Hlt. destruct (Hs1 i id Hi) as [Hl [sh Hsh]].
      destruct (Hall i id _ Hi Hsh) as [H1 H2]. unfold stepped in H1, H2. cbn [p_grad p_tensor pt_data pt_shape] in H1, H2.
      rewrite (adam_rule_fin T i (adam_state T m v) m v (G T i)) in H1, H2 by auto. eauto. }
    split; [done|intros i id Hi; by apply (Hnew i id)|intros i Hi|intros i Hi];
      destruct (lookup_lt_is_Some_2 params i Hi) as [id Hid]; destruct (Hnew i id Hid) as [_ Hb]; unfold look2 in Hb; cbn in Hb;
      by injection Hb.
Qed.
End adam.

(** What a training run starts from *)
Definition starts_from (params : list nat) (ws : nat → list nat * list R) (s : Store xreal) : Prop :=
  ∀ i id, params !! i = Some id → ∃ og, s !! id = Some (mkParam (mkPT (ws i).1 (FIN <$> (ws i).2)) og).

Lemma adam_inv_start params G lr β1 β2 eps wd dec ws s0 : starts_from params ws s0 →
  adam_inv params G lr β1 β2 eps wd dec ws 0 s0 (replicate (length params) None) (replicate (length params) None).
Proof.
  intros Hs. split.
  - split; cbn [fst snd]; by rewrite length_replicate.
  - intros i id Hi. destruct (Hs i id Hi) as [og Hog]. exists og. rewrite Hog. do 3 f_equal.
    by apply list_as_fn.
  - intros i Hi. unfold look1. by rewrite lookup_replicate_2.
  - intros i Hi. unfold look1. by rewrite lookup_replicate_2.
Qed.

(** A fresh Adam or AdamW *)
Definition adam_fresh (params : list nat) (lr β1 β2 eps wd : R) (dec : bool) : Adam xreal :=
  adam_state lr β1 β2 eps wd dec 0 (replicate (length params) None) (replicate (length params) None).

Lemma training_inv params G lr β1 β2 eps wd dec ws s0 T s o :
  NoDup params → 0 <= β1 < 1 → 0 <= β2 < 1 → 0 < eps →
  (∀ i, length (ws i).2 = foldl (λ a n, ix (a * n)) 1%nat (ws i).1) → (Z.of_nat T < 2 ^ 64)%Z → starts_from params ws s0 →
  training params G s0 (adam_fresh params lr β1 β2 eps wd dec) T s o →
  ∃ m v, o = adam_state lr β1 β2 eps wd dec T m v ∧ adam_inv params G lr β1 β2 eps wd dec ws T s m v.
Proof.
  intros Hnd H1 H2 He Hsh HT Hs Hrun. revert HT. induction Hrun as [|T s o s1 s2 o2 Hrun IH Hg Hstep]; intros HT.
  { eexists _, _. split; [done|]. by apply adam_inv_start. }
  destruct IH as (m & v & -> & Hinv); [lia|].
  destruct (adam_progress params G lr β1 β2 eps wd dec ws Hnd H1 H2 He Hsh T s m v s1) as (s2' & m2 & v2 & Hstep' & Hinv');
    [lia|done..|]. rewrite Hstep in Hstep'. injection Hstep' as -> ->. eauto.
Qed.

(** The element [k] of a parameter's data, and of one of its buffers *)
Definition weight_at (s : Store xreal) (id k : nat) : option xreal := p ← s !! id; pt_data (p_tensor p) !! k.
Definition buf_at (bufs : list (option (list xreal))) (i k : nat) : option xreal := b ← look1 bufs i; b !! k.

Lemma vec_lookup ws i h k : (k < length (ws i).2)%nat → vec ws i h !! k = Some (FIN (h k)).
Proof. intros Hk. unfold vec. by rewrite list_lookup_fmap, lookup_seq_lt. Qed.

(** C4: training with Adam (decay added to the gradient) or AdamW (decoupled decay), over
    the real numbers, in runs where every parameter has a gradient of its size at every
    step: from a fresh optimizer over distinct parameters, with [0 <= β < 1], [0 < ε] and a
    counter that does not wrap, after [T] steps the first moment of every element is
    [(1-β1) Σ β1^(T-1-s) g_s], where [g_s] is the gradient of step [s] plus, under coupled
    positive decay, [wd] times the weight before it; the second moment is the same mean of
    the squares; and the weight is the one the published algorithm gives: each step
    subtracts [lr · m̂ / (√v̂ + ε)] with the moments divided by [1-β^T], and [lr · wd · w]
    under decoupled positive decay.  Both corrected moments stay between the bounds of what
    they average, and the next step, with any gradients of the right sizes, succeeds. *)
Theorem adam_closed_form params G lr β1 β2 eps wd dec ws s0 T s o :
  NoDup params → 0 <= β1 < 1 → 0 <= β2 < 1 → 0 < eps →
  (∀ i, length (ws i).2 = foldl (λ a n, ix (a * n)) 1%nat (ws i).1) → (Z.of_nat T + 1 < 2 ^ 64)%Z →
  starts_from params ws s0 → training params G s0 (adam_fresh params lr β1 β2 eps wd dec) T s o →
  adam_step_t o = T ∧
  (∀ i id k w0, params !! i = Some id → (ws i).2 !! k = Some w0 → ∃ g,
     let w t := adam_traj lr β1 β2 eps wd dec w0 g t in
     let mean β f := mom β f T / (1 - β ^ T) in
     (∀ t, g t = nth k (G t i) 0 + if negb dec && Rgtb wd 0 then wd * w t else 0) ∧
     weight_at s id k = Some (FIN (w T)) ∧
     ((0 < T)%nat → buf_at (adam_m o) i k = Some (FIN (mom β1 g T)) ∧
                    buf_at (adam_v o) i k = Some (FIN (mom β2 (λ t, g t * g t) T)) ∧
       ∀ lo hi, ((∀ t, (t < T)%nat → lo <= g t <= hi) → lo <= mean β1 g <= hi) ∧
                ((∀ t, (t < T)%nat → lo <= g t * g t <= hi) → lo <= mean β2 (λ t, g t * g t) <= hi))) ∧
  (∀ s1, sets_grads params (G T) s s1 → ∃ s2 o2, Adam_step (E := unit) params s1 o = Ok (s2, o2)).
Proof.
  intros Hnd H1 H2 He Hsh HT Hs Hrun.
  destruct (training_inv params G lr β1 β2 eps wd dec ws s0 T s o) as (m & v & -> & Hinv); [done..|lia|done|done|].
  split; [done|]. split.
  - intros i id k w0 Hi Hk. pose proof (lookup_lt_Some _ _ _ Hk) as Hlt. pose proof (lookup_lt_Some _ _ _ Hi) as Hil.
    assert (nth k (ws i).2 0 = w0) as Hw0 by apply (nth_lookup_Some _ _ 0 _ Hk).
    exists (adam_grad lr β1 β2 eps wd dec w0 (λ t, nth k (G t i) 0)). intros w mean.
    split; [intros t; apply adam_grad_eq|].
    destruct Hinv as [_ Hdata Hm Hv]. destruct (Hdata i id Hi) as [og Hog]. unfold weight_at, buf_at. rewrite Hog.
    cbn [mbind option_bind p_tensor pt_data adam_m adam_v adam_state]. rewrite vec_lookup, Hm, Hv by done.
    unfold weight, moment1, moment2, hist. split; [by rewrite Hw0|].
    intros Hpos. destruct (Nat.eqb_spec T 0); [lia|]. cbn [mbind option_bind]. rewrite !vec_lookup, Hw0 by done.
    split; [done|]. split; [done|]. split; intros Hb; by apply mom_bounds.
  - intros s1 Hg. destruct (adam_progress params G lr β1 β2 eps wd dec ws Hnd H1 H2 He Hsh T s m v s1) as (s2 & m2 & v2 & H & _);
      [done..|]. eauto.
Qed.

(** With a constant gradient every step is [lr · g / (|g| + ε)]: the corrections remove the
    bias of the zero start. *)
Lemma adam_constant_gradient lr β1 β2 eps w0 c T : 0 <= β1 < 1 → 0 <= β2 < 1 →
  adam_traj lr β1 β2 eps 0 true w0 (λ _, c) T = w0 - INR T * (lr * c / (Rabs c + eps)).
Proof.
  intros H1 H2. induction T as [|T IH]; [simpl; lra|]. cbn [adam_traj]. rewrite IH, !mom_const.
  pose proof (bias_pos β1 (S T) H1 ltac:(lia)). pose proof (bias_pos β2 (S T) H2 ltac:(lia)).
  replace (c * (1 - β1 ^ S T) / (1 - β1 ^ S T)) with c by (field; lra).
  replace (c * c * (1 - β2 ^ S T) / (1 - β2 ^ S T)) with (c * c) by (field; lra).
  rewrite <- sqrt_Rsqr_abs. unfold Rsqr. rewrite S_INR. rewrite Rgtb_false by lra. cbn [andb]. lra.
Qed.

(** The counter is the optimizer's, not the parameter's: a parameter whose first
    gradient comes late has its moments corrected as if it had had zeros until then. *)

(** ** Clipping *)

(** The squared norm of the gradients *)
Definition sq (l : list R) : R := foldr (λ x a, x * x + a) 0 l.

Lemma sq_nonneg l : 0 <= sq l.
Proof. induction l as [|x l IH]; simpl; [lra|]. pose proof (Rle_0_sqr x). unfold Rsqr in *. lra. Qed.

Lemma sq_scale c l : sq ((λ x, x * c) <$> l) = c * c * sq l.
Proof. unfold sq. induction l as [|x l IH]; cbn; [lra|]. setoid_rewrite IH. lra. Qed.

Lemma sq_fold l a :
  foldl (λ acc v, acc ⊕ v ⊗ v) (FIN a) (FIN <$> l) = FIN (a + sq l).
Proof.
  revert a. induction l as [|x l IH]; intros a; simpl; [by rewrite Rplus_0_r|]. rewrite IH. f_equal. lra.
Qed.

(** The gradient of parameter [id], if it has one *)
Definition grad_of (s : Store xreal) (id : nat) : option (list xreal) :=
  p ← s !! id; pt_data <$> p_grad p.

(** Every parameter has a finite gradient of [gs], of the size of its shape, or none. *)
Definition grads_are (params : list nat) (gs : nat → option (list R)) (s : Store xreal) : Prop :=
  ∀ id, id ∈ params → ∃ p, s !! id = Some p ∧
    match gs id with
    | None => p_grad p = None
    | Some l => ∃ sh, p_grad p = Some (mkPT sh (FIN <$> l)) ∧ length l = foldl (λ a n, ix (a * n)) 1%nat sh
    end.

(** The norm of all the gradients together *)
Definition total_sq (params : list nat) (gs : nat → option (list R)) : R :=
  foldr (λ id a, sq (default [] (gs id)) + a) 0 params.

Lemma total_sq_nonneg params gs : 0 <= total_sq params gs.
Proof. induction params as [|id params IH]; simpl; [lra|]. pose proof (sq_nonneg (default [] (gs id))). lra. Qed.

Definition scaled (c : R) (gs : nat → option (list R)) (id : nat) : option (list R) :=
  match gs id with Some l => Some ((λ x, x * c) <$> l) | None => None end.

Lemma total_sq_scale params gs c : total_sq params (scaled c gs) = c * c * total_sq params gs.
Proof.
  unfold total_sq. induction params as [|id params IH]; cbn [foldr]; [lra|]. rewrite IH. unfold scaled.
  destruct (gs id) as [l|]; cbn [from_option]; unfold Datatypes.id; [rewrite sq_scale; lra|simpl; lra].
Qed.

Lemma clip_total params gs s a : grads_are params gs s →
  rfold (E := unit) (λ acc id,
      let? p := get_param s id in
      Ok (match p_grad p with
          | None => acc
          | Some g => foldl (λ acc v, acc ⊕ v ⊗ v) acc (pt_data g)
          end)) (FIN a) params = Ok (FIN (a + total_sq params gs)).
Proof.
  revert a. induction params as [|id params IH]; intros a Hg; simpl; [by rewrite Rplus_0_r|].
  destruct (Hg id) as (p & Hp & Hgr); [by left|]. unfold get_param at 1. rewrite Hp. cbn [unwrap_opt rbind].
  assert (grads_are params gs s) as Hg' by (intros id' ?; apply Hg; by right).
  destruct (gs id) as [l|]; simpl.
  - destruct Hgr as (sh & -> & _). cbn [pt_data]. rewrite sq_fold, IH by done. do 2 f_equal. lra.
  - rewrite Hgr, IH by done. do 2 f_equal. lra.
Qed.

(** Scaling each gradient once *)
Lemma scale_all params gs c s : NoDup params → grads_are params gs s →
  ∃ s', rfold (E := unit) (λ s id, scale_grad s id (FIN c)) s params = Ok s' ∧
    grads_are params (scaled c gs) s' ∧
    (∀ id, id ∈ params → p_tensor <$> s' !! id = p_tensor <$> s !! id) ∧ (∀ id, id ∉ params → s' !! id = s !! id).
Proof.
  revert s. induction params as [|id params IH]; intros s Hnd Hg.
  { exists s. split; [done|]. split; [by intros id ?%elem_of_nil|done]. }
  apply NoDup_cons in Hnd as [Hid Hnd]. destruct (Hg id) as (p & Hp & Hgr); [by left|].
  assert (∃ s1 p1, scale_grad (E := unit) s id (FIN c) = Ok s1 ∧ s1 !! id = Some p1 ∧ p_tensor p1 = p_tensor p ∧
    (∀ id', id' ≠ id → s1 !! id' = s !! id') ∧
    match scaled c gs id with
    | None => p_grad p1 = None
    | Some l => ∃ sh, p_grad p1 = Some (mkPT sh (FIN <$> l)) ∧ length l = foldl (λ a n, ix (a * n)) 1%nat sh
    end) as (s1 & p1 & H1 & Hp1 & Ht & Ho & Hs).
  { unfold scale_grad, get_param, scaled. rewrite Hp. cbn [unwrap_opt rbind]. destruct (gs id) as [l|].
    - destruct Hgr as (sh & -> & Hl). cbn [pt_shape pt_data]. unfold from_vec. rewrite !length_fmap, Hl, Nat.eqb_refl.
      cbn [unwrap rbind fst snd]. eexists _, _. split; [done|]. rewrite lookup_insert_eq. split; [done|]. split; [done|].
      split; [intros; by rewrite lookup_insert_ne|]. exists sh. split; [|done].
      cbn [p_grad]. do 2 f_equal. by rewrite <- !list_fmap_compose.
    - rewrite Hgr. by exists s, p. }
  cbn [rfold]. rewrite H1. cbn [rbind].
  destruct (IH s1 Hnd) as (s' & -> & Hg' & Ht' & Ho').
  { intros id' Hin. rewrite Ho by (by intros ->). apply Hg. by right. }
  exists s'. split; [done|]. split_and!.
  - intros id' [->|Hin]%elem_of_cons; [|by apply Hg']. exists p1. by rewrite Ho'.
  - intros id' [->|Hin]%elem_of_cons; [rewrite Ho', Hp1, Hp by done; simpl; by rewrite Ht|].
    rewrite Ht', Ho by (done || by intros ->). done.
  - intros id' Hni. rewrite Ho', Ho; [done| |]; intros ?; apply Hni; subst; [by left|by right].
Qed.

Lemma scaled_one params gs s : grads_are params gs s → grads_are params (scaled 1 gs) s.
Proof.
  intros Hg id Hin. destruct (Hg id Hin) as (p & Hp & Hgr). exists p. split; [done|]. unfold scaled.
  destruct (gs id) as [l|]; [|done]. destruct Hgr as (sh & Hs & Hl). exists sh. rewrite length_fmap. split; [|done].
  rewrite Hs. do 2 f_equal. rewrite <- list_fmap_compose. apply list_fmap_ext. intros ? x _. simpl. f_equal. lra.
Qed.

(** C37: over the real numbers, where the conversions between f32 and f64 are exact:
    [clip_grad_norm_] with a non-negative bound, over distinct parameters whose gradients,
    where present, are finite and of the size of their shape, returns the norm of all the
    gradients together, as it was; afterwards the gradients are the old ones scaled by one
    factor, and their norm is the smaller of the old norm and [max_norm].  Weights, missing
    gradients and other variables are left alone. *)
Theorem clip_grad_norm_correct params gs s max_norm : NoDup params → grads_are params gs s → 0 <= max_norm →
  let norm := sqrt (total_sq params gs) in
  let c := if Rgtb norm max_norm then max_norm / norm else 1 in
  ∃ s', clip_grad_norm_ (E := unit) (λ x, x) (λ x, x) s params (FIN max_norm) = Ok (s', FIN norm) ∧
    grads_are params (scaled c gs) s' ∧ sqrt (total_sq params (scaled c gs)) = Rmin norm max_norm ∧
    (∀ id, id ∈ params → p_tensor <$> s' !! id = p_tensor <$> s !! id) ∧ (∀ id, id ∉ params → s' !! id = s !! id).
Proof.
  intros Hnd Hg HM norm c. pose proof (total_sq_nonneg params gs) as Hpos.
  assert (0 <= norm) as Hn by apply sqrt_pos.
  unfold clip_grad_norm_. rewrite fin_0, (clip_total _ gs) by done. cbn [rbind]. rewrite Rplus_0_l, fin_sqrt by done.
  fold norm. rewrite !fin_gt. unfold c. destruct (Rlt_dec max_norm norm) as [Hlt|Hge].
  - rewrite !(Rgtb_true norm) by lra. cbn [andb]. rewrite fin_div by lra.
    destruct (scale_all params gs (max_norm / norm) s Hnd Hg) as (s' & -> & H1 & H2 & H3). exists s'.
    split; [done|]. split; [done|]. split; [|done]. rewrite total_sq_scale, sqrt_mult_alt, sqrt_square.
    + fold norm. rewrite Rmin_right by lra. field. lra.
    + apply Rle_mult_inv_pos; lra.
    + apply Rle_0_sqr.
  - rewrite !(Rgtb_false norm max_norm) by lra. cbn [andb]. exists s. split; [done|]. split; [by apply scaled_one|].
    split; [|done]. rewrite total_sq_scale, Rmin_left by lra. unfold norm. f_equal. lra.
Qed.

(** ** Witnesses *)

Definition wit_ws (i : nat) : list nat * list R := ([1%nat], [1]).
Definition wit_store (g : option (PTensor xreal)) : Store xreal := {[0%nat := mkParam (mkPT [1%nat] [FIN 1]) g]}.

Lemma adam_closed_form_witness : ∃ s o, training [0%nat] (λ _ _, [2]) (wit_store None) (adam_fresh [0%nat] 1 0 0 1 1 false) 1 s o ∧
  weight_at s 0 0 = Some (FIN (1 - 3 / (3 + 1))) ∧ adam_step_t o = 1%nat.
Proof.
  set (G := λ _ _ : nat, [2]).
  assert (starts_from [0%nat] wit_ws (wit_store None)) as Hs.
  { intros [|i] id Hi; simplify_eq/=. exists None. reflexivity. }
  assert (∀ i, length (wit_ws i).2 = foldl (λ a n, ix (a * n)) 1%nat (wit_ws i).1) as Hsh by (intros i; reflexivity).
  assert (NoDup [0%nat]) as Hnd by (repeat constructor; set_solver).
  assert (0 <= 0 < 1) as H0 by lra. assert (0 < 1) as H1 by lra.
  assert (∀ s T, p_tensor <$> s !! 0%nat = Some (mkPT [1%nat] [FIN 1]) →
    sets_grads [0%nat] (G T) s (wit_store (Some (mkPT [1%nat] [FIN 2])))) as Hg.
  { intros s T Hp [|i] id p Hi Hl; simplify_eq/=. rewrite Hl in Hp. simpl in Hp. injection Hp as Hp. rewrite Hp.
    split; [reflexivity|]. exists [1%nat]. reflexivity. }
  destruct (adam_closed_form [0%nat] G 1 0 0 1 1 false wit_ws (wit_store None) 0 (wit_store None) (adam_fresh [0%nat] 1 0 0 1 1 false))
    as (_ & _ & Hnext); [exact Hnd|exact H0|exact H0|exact H1|exact Hsh|lia|exact Hs|constructor|].
  destruct (Hnext (wit_store (Some (mkPT [1%nat] [FIN 2])))) as (s & o & Hstep); [apply Hg; reflexivity|].
  assert (training [0%nat] G (wit_store None) (adam_fresh [0%nat] 1 0 0 1 1 false) 1 s o) as Hrun.
  { eapply training_step; [constructor|apply Hg; reflexivity|exact Hstep]. }
  exists s, o. split; [exact Hrun|].
  destruct (adam_closed_form [0%nat] G 1 0 0 1 1 false wit_ws (wit_store None) 1 s o) as (Ht & Hw & _);
    [exact Hnd|exact H0|exact H0|exact H1|exact Hsh|lia|exact Hs|exact Hrun|].
  split; [|exact Ht]. destruct (Hw 0%nat 0%nat 0%nat 1 eq_refl eq_refl) as (g & Heq & Hwt & _).
  rewrite Hwt. specialize (Heq 0%nat). cbn in Heq. rewrite Rgtb_true in Heq by lra.
  assert (g 0%nat = 3) as Hg0 by (rewrite Heq; cbn; lra).
  f_equal. f_equal. cbn. unfold mom. cbn. rewrite Hg0.
  replace ((1 - 0) * (0 + 1 * (3 * 3)) / (1 - 0 * 1)) with (3 * 3) by field.
  rewrite sqrt_square by lra. field.
Defined.

Lemma clip_grad_norm_correct_witness : ∃ s',
  clip_grad_norm_ (E := unit) (λ x, x) (λ x, x) (wit_store (Some (mkPT [2%nat] [FIN 3; FIN 4]))) [0%nat] (FIN 1) = Ok (s', FIN 5).
Proof.
  destruct (clip_grad_norm_correct [0%nat] (λ _, Some [3; 4]) (wit_store (Some (mkPT [2%nat] [FIN 3; FIN 4]))) 1) as (s' & H & _).
  - repeat constructor; set_solver.
  - intros id Hin. apply list_elem_of_singleton in Hin as ->. eexists. split; [reflexivity|]. exists [2%nat]. split; reflexivity.
  - lra.
  - exists s'. rewrite H. do 3 f_equal. unfold total_sq. simpl.
    replace (3 * 3 + (4 * 4 + 0) + 0) with (5 * 5) by lra. apply sqrt_square. lra.
Defined.
