(* ===== verification/Schedule.v ===== *)
(** * Learning-rate schedulers (crates/rustorch-optim/src/scheduler.rs)

    The four schedulers over any type of floats and any optimizer with a learning rate,
    and what rate they leave the optimizer with after any number of steps, over the
    reals. *)

From Stdlib Require Import ZArith QArith Qreals Reals Lra Lia.
From stdpp Require Import base list.
From S2P Require Import Prelude Loops XReal FOps FOpsReal Optim.

Open Scope nat_scope.

(** ** What a scheduler uses of an optimizer ([Optimizer::lr], [Optimizer::set_lr]) *)
Class Optimizer (X O : Type) := {
  lr : O → X;
  set_lr : O → X → O;
  lr_set_lr o x : lr (set_lr o x) = x;
  set_lr_again o x y : set_lr (set_lr o x) y = set_lr o y
}.

#[export] Instance Sgd_Optimizer {X} : Optimizer X (Sgd X) := {|
  lr := sgd_lr; set_lr o x := mkSgd x (momentum o) (sgd_weight_decay o) (nesterov o) (velocity o);
  lr_set_lr _ _ := eq_refl; set_lr_again _ _ _ := eq_refl
|}.
#[export] Instance Adam_Optimizer {X} : Optimizer X (Adam X) := {|
  lr := adam_lr;
  set_lr o x := mkAdam x (adam_betas o) (adam_eps o) (adam_weight_decay o) (decoupled_wd o) (adam_step_t o) (adam_m o) (adam_v o);
  lr_set_lr _ _ := eq_refl; set_lr_again _ _ _ := eq_refl
|}.
#[export] Instance Lion_Optimizer {X} : Optimizer X (Lion X) := {|
  lr := lion_lr; set_lr o x := mkLion x (lion_betas o) (lion_weight_decay o) (lion_m o);
  lr_set_lr _ _ := eq_refl; set_lr_again _ _ _ := eq_refl
|}.
#[export] Instance OneBuf_Optimizer {X} : Optimizer X (OneBuf X) := {|
  lr := one_lr; set_lr o x := mkOne x (one_coef o) (one_eps o) (one_weight_decay o) (one_buf o);
  lr_set_lr _ _ := eq_refl; set_lr_again _ _ _ := eq_refl
|}.
#[export] Instance TwoBuf_Optimizer {X} : Optimizer X (TwoBuf X) := {|
  lr := two_lr; set_lr o x := mkTwo x (two_betas o) (two_eps o) (two_weight_decay o) (two_step_t o) (two_m o) (two_v o);
  lr_set_lr _ _ := eq_refl; set_lr_again _ _ _ := eq_refl
|}.
#[export] Instance Adafactor_Optimizer {X} : Optimizer X (Adafactor X) := {|
  lr := af_lr; set_lr o x := mkAdafactor x (af_beta2 o) (af_eps o) (af_weight_decay o) (af_r o) (af_c o) (af_v o);
  lr_set_lr _ _ := eq_refl; set_lr_again _ _ _ := eq_refl
|}.

(** ** The schedulers *)

(** [StepLR], [ExponentialLR], [CosineAnnealingLR], [LinearWarmup], without the count *)
Inductive Schedule (X : Type) :=
  | StepLR (base_lr : X) (step_size : nat) (gamma : X)
  | ExponentialLR (base_lr gamma : X)
  | CosineAnnealingLR (lr_max lr_min : X) (t_max : nat)
  | LinearWarmup (target_lr : X) (warmup_steps : nat).
Arguments StepLR {X}.
Arguments ExponentialLR {X}.
Arguments CosineAnnealingLR {X}.
Arguments LinearWarmup {X}.

Record Scheduler (X : Type) := mkScheduler { schedule : Schedule X; step_count : nat }.
Arguments mkScheduler {X}.
Arguments schedule {X}.
Arguments step_count {X}.

Section schedulers.
Context {X Opt : Type} {FO : FOps X} {OP : Optimizer X Opt} {E : Type}.

(** [StepLR::new] and the others *)
Definition Scheduler_new (s : Schedule X) : Scheduler X := mkScheduler s 0.

(** [usize as i32] *)
Definition as_i32 (n : nat) : Z := swrap 32 (Z.of_nat n).

Definition StepLR_get_lr (base_lr : X) (step_size : nat) (gamma : X) (count : nat) : res E X :=
  if step_size =? 0 then Panic
  else let drops := count / step_size in Ok (base_lr ⊗ k_powi gamma (as_i32 drops)).

Definition ExponentialLR_get_lr (base_lr gamma : X) (count : nat) : X := base_lr ⊗ k_powi gamma (as_i32 count).

Definition CosineAnnealingLR_get_lr (lr_max lr_min : X) (t_max count : nat) : X :=
  let t := Nat.min count t_max in
  let cos := k_cos (k_pi ⊗ k_of_nat t ⊘ k_of_nat t_max) in
  lr_min ⊕ k_lit 0.5 ⊗ (lr_max ⊖ lr_min) ⊗ (k1 ⊕ cos).

Definition LinearWarmup_get_lr (target_lr : X) (warmup_steps count : nat) : X :=
  if warmup_steps <=? count then target_lr else target_lr ⊗ k_of_nat count ⊘ k_of_nat warmup_steps.

Definition get_lr (s : Scheduler X) : res E X :=
  match schedule s with
  | StepLR base_lr step_size gamma => StepLR_get_lr base_lr step_size gamma (step_count s)
  | ExponentialLR base_lr gamma => Ok (ExponentialLR_get_lr base_lr gamma (step_count s))
  | CosineAnnealingLR lr_max lr_min t_max => Ok (CosineAnnealingLR_get_lr lr_max lr_min t_max (step_count s))
  | LinearWarmup target_lr warmup_steps => Ok (LinearWarmup_get_lr target_lr warmup_steps (step_count s))
  end.

(** [LrScheduler::step] *)
Definition scheduler_step (s : Scheduler X) (optim : Opt) : res E (Scheduler X * Opt) :=
  let s := mkScheduler (schedule s) (ix (step_count s + 1)) in
  let? x := get_lr s in
  Ok (s, set_lr optim x).

(** [n] steps in a row *)
Definition scheduler_run (n : nat) (s : Scheduler X) (optim : Opt) : res E (Scheduler X * Opt) :=
  for_range n (λ st _, scheduler_step st.1 st.2) (s, optim).

(** The count is the number of steps, and the rate left is that of the last one. *)
Lemma scheduler_run_spec k (rate : nat → X) n optim : (Z.of_nat n < 2 ^ 64)%Z →
  (∀ i, i ≤ n → get_lr (mkScheduler k i) = Ok (rate i)) →
  scheduler_run n (Scheduler_new k) optim =
    Ok (mkScheduler k n, match n with O => optim | S _ => set_lr optim (rate n) end).
Proof.
  intros Hn Hr. unfold scheduler_run.
  apply (for_range_inv n _ (λ i, (mkScheduler k i, match i with O => optim | S _ => set_lr optim (rate i) end))).
  intros i Hi. cbn [fst snd]. unfold scheduler_step. cbn [schedule step_count].
  rewrite ix_small, Nat.add_1_r, Hr by lia. cbn [rbind]. by destruct i; rewrite ?set_lr_again.
Qed.

(** A step size of zero makes the first step divide by it. *)
Lemma step_size_zero base gamma n optim : scheduler_run (S n) (Scheduler_new (StepLR base 0 gamma)) optim = Panic.
Proof.
  assert (∀ m, scheduler_run (S m) (Scheduler_new (StepLR base 0 gamma)) optim = Panic) as H; [|apply H].
  unfold scheduler_run. intros m. induction m as [|m IH]; [done|]. rewrite for_range_S, IH. done.
Qed.
End schedulers.

Open Scope R_scope.

(** ** The rates over the reals *)

Definition cosine_rate (lr_max lr_min : R) (t_max n : nat) : R :=
  lr_min + (lr_max - lr_min) * (1 + cos (PI * (INR (Nat.min n t_max) / INR t_max))) / 2.

(** What each schedule prescribes after [n] steps *)
Definition rate (k : Schedule R) (n : nat) : R :=
  match k with
  | StepLR base size gamma => base * gamma ^ (n / size)
  | ExponentialLR base gamma => base * gamma ^ n
  | CosineAnnealingLR lr_max lr_min t_max => cosine_rate lr_max lr_min t_max n
  | LinearWarmup target warmup => target * (INR (Nat.min n warmup) / INR warmup)
  end.

(** Where it does: a step size and a number of annealing steps that are not zero *)
Definition schedule_ok (k : Schedule R) : Prop :=
  match k with
  | StepLR _ size _ => size ≠ 0%nat
  | CosineAnnealingLR _ _ t_max => t_max ≠ 0%nat
  | LinearWarmup _ warmup => warmup ≠ 0%nat
  | ExponentialLR _ _ => True
  end.

Definition fin_schedule (k : Schedule R) : Schedule xreal :=
  match k with
  | StepLR base size gamma => StepLR (FIN base) size (FIN gamma)
  | ExponentialLR base gamma => ExponentialLR (FIN base) (FIN gamma)
  | CosineAnnealingLR lr_max lr_min t_max => CosineAnnealingLR (FIN lr_max) (FIN lr_min) t_max
  | LinearWarmup target warmup => LinearWarmup (FIN target) warmup
  end.

Lemma as_i32_small n : (Z.of_nat n < 2 ^ 31)%Z → as_i32 n = Z.of_nat n.
Proof. intros. unfold as_i32. apply swrap_small; [lia|]. unfold sint. lia. Qed.

Lemma Q2R_half : Q2R 0.5 = / 2.
Proof. unfold Q2R. simpl. lra. Qed.

Lemma INR_ne0 n : n ≠ 0%nat → INR n ≠ 0.
Proof. intros H. by apply not_0_INR. Qed.

Lemma get_lr_rate {E} k n : schedule_ok k → (Z.of_nat n < 2 ^ 31)%Z →
  get_lr (E := E) (mkScheduler (fin_schedule k) n) = Ok (FIN (rate k n)).
Proof.
  intros Hk Hn. destruct k as [base size gamma|base gamma|lr_max lr_min t_max|target warmup]; cbn [fin_schedule get_lr schedule step_count rate schedule_ok] in *.
  - unfold StepLR_get_lr. rewrite (proj2 (Nat.eqb_neq _ _) Hk). cbv zeta.
    pose proof (Nat.Div0.div_le_upper_bound n size n ltac:(nia)).
    by rewrite as_i32_small, fin_powi, fin_mul by lia.
  - unfold ExponentialLR_get_lr. by rewrite as_i32_small, fin_powi, fin_mul.
  - unfold CosineAnnealingLR_get_lr. cbv zeta. fin. rewrite fin_div by by apply INR_ne0. cbn [k_cos xreal_fops x_lift].
    fin. rewrite Q2R_half. f_equal. f_equal. unfold cosine_rate.
    replace (PI * INR (Nat.min n t_max) / INR t_max) with (PI * (INR (Nat.min n t_max) / INR t_max)) by (unfold Rdiv; lra).
    lra.
  - unfold LinearWarmup_get_lr. pose proof (INR_ne0 _ Hk). destruct (Nat.leb_spec warmup n).
    + rewrite Nat.min_r by lia. do 2 f_equal. field. done.
    + rewrite Nat.min_l by lia. fin. rewrite ?fin_div by done. do 2 f_equal. unfold Rdiv. lra.
Qed.

Lemma ratio_bounds n t : t ≠ 0%nat → 0 <= INR (Nat.min n t) / INR t <= 1.
Proof.
  intros Ht. pose proof (lt_0_INR t ltac:(lia)). pose proof (pos_INR (Nat.min n t)).
  pose proof (le_INR (Nat.min n t) t ltac:(lia)). split.
  - by apply Rle_mult_inv_pos.
  - apply (Rmult_le_reg_r (INR t)); [done|]. unfold Rdiv. rewrite Rmult_assoc, Rinv_l by lra. lra.
Qed.

Lemma ratio_mono n m t : t ≠ 0%nat → (n ≤ m)%nat → INR (Nat.min n t) / INR t <= INR (Nat.min m t) / INR t.
Proof.
  intros Ht Hnm. pose proof (lt_0_INR t ltac:(lia)). unfold Rdiv. apply Rmult_le_compat_r.
  - by apply Rlt_le, Rinv_0_lt_compat.
  - apply le_INR. lia.
Qed.

Lemma cosine_bounds lr_max lr_min t n : t ≠ 0%nat → lr_min <= lr_max → lr_min <= cosine_rate lr_max lr_min t n <= lr_max.
Proof.
  intros Ht Hle. unfold cosine_rate. set (x := PI * _). pose proof (COS_bound x). nra.
Qed.

Lemma cosine_decreases lr_max lr_min t n m : t ≠ 0%nat → lr_min <= lr_max → (n ≤ m)%nat →
  cosine_rate lr_max lr_min t m <= cosine_rate lr_max lr_min t n.
Proof.
  intros Ht Hle Hnm. unfold cosine_rate. pose proof (ratio_bounds n t Ht). pose proof (ratio_bounds m t Ht).
  pose proof (ratio_mono n m t Ht Hnm). pose proof PI_RGT_0.
  assert (cos (PI * (INR (Nat.min m t) / INR t)) <= cos (PI * (INR (Nat.min n t) / INR t))); [|nra].
  apply cos_decr_1; nra.
Qed.

Lemma cosine_ends lr_max lr_min t n : t ≠ 0%nat →
  cosine_rate lr_max lr_min t 0 = lr_max ∧ ((t ≤ n)%nat → cosine_rate lr_max lr_min t n = lr_min).
Proof.
  intros Ht. pose proof (INR_ne0 t Ht). unfold cosine_rate. split.
  - simpl. replace (PI * (0 / INR t)) with 0 by (field; done). rewrite cos_0. lra.
  - intros Hn. rewrite Nat.min_r by lia. replace (PI * (INR t / INR t)) with PI by (field; done). rewrite cos_PI. lra.
Qed.

(** after [n ≥ 1] steps of a scheduler the optimizer's learning rate is what the
    schedule prescribes: [base·γ^⌊n/size⌋] for StepLR, [base·γ^n] for ExponentialLR, the
    half cosine for CosineAnnealingLR (between its ends, never increasing, at [lr_min] from
    [t_max] on) and the ramp that reaches and holds the target for LinearWarmup.
    Nothing else of the optimizer changes. *)
Theorem scheduler_rates {Opt E} {OP : Optimizer xreal Opt} (k : Schedule R) (n : nat) (optim : Opt) :
  schedule_ok k → (0 < n)%nat → (Z.of_nat n < 2 ^ 31)%Z →
  scheduler_run (E := E) n (Scheduler_new (fin_schedule k)) optim =
    Ok (mkScheduler (fin_schedule k) n, set_lr optim (FIN (rate k n))) ∧
  match k with
  | CosineAnnealingLR lr_max lr_min t_max =>
      lr_min <= lr_max →
      lr_min <= rate k n <= lr_max ∧ (∀ m, (m ≤ n)%nat → rate k n <= rate k m) ∧ ((t_max ≤ n)%nat → rate k n = lr_min)
  | LinearWarmup target warmup =>
      0 <= target → 0 <= rate k n <= target ∧ (∀ m, (m ≤ n)%nat → rate k m <= rate k n) ∧ ((warmup ≤ n)%nat → rate k n = target)
  | StepLR base size gamma => ∀ m, (n mod size)%nat ≠ 0%nat → S m = n → rate k n = rate k m
  | ExponentialLR base gamma => ∀ m, S m = n → rate k n = gamma * rate k m
  end.
Proof.
  intros Hk Hpos Hn. split.
  - rewrite (scheduler_run_spec _ (λ i, FIN (rate k i))); [by destruct n; [lia|]|lia|].
    intros i Hi. apply get_lr_rate; [done|lia].
  - destruct k as [base size gamma|base gamma|lr_max lr_min t|target w]; cbn [rate schedule_ok] in *.
    + intros m Hm <-. do 2 f_equal. pose proof (Nat.div_mod_eq (S m) size). pose proof (Nat.mod_upper_bound (S m) size Hk).
      apply (Nat.div_unique m size (S m / size) (S m mod size - 1)); lia.
    + intros m <-. simpl. lra.
    + intros Hle. split; [by apply cosine_bounds|]. split; [intros; by apply cosine_decreases|by apply cosine_ends].
    + intros Ht. pose proof (ratio_bounds n w Hk). split; [nra|]. split.
      * intros m Hm. pose proof (ratio_mono m n w Hk Hm). nra.
      * intros Hw. rewrite Nat.min_r by lia. pose proof (INR_ne0 w Hk). field. done.
Qed.

Lemma scheduler_rates_witness :
  scheduler_run (E := unit) 3 (Scheduler_new (StepLR (FIN 1) 2 (FIN 3))) (Sgd_new 0 (FIN 7)) =
    Ok (mkScheduler (StepLR (FIN 1) 2 (FIN 3)) 3, Sgd_new 0 (FIN (1 * (3 * 1)))) ∧
  (∃ s o, scheduler_run (E := unit) 5 (Scheduler_new (CosineAnnealingLR (FIN 1) (FIN 0) 4)) (Sgd_new 0 (FIN 7)) = Ok (s, o) ∧ lr o = FIN 0).
Proof.
  split.
  - destruct (scheduler_rates (E := unit) (StepLR 1 2 3) 3 (Sgd_new 0 (FIN 7))) as [H _]; [discriminate|lia|lia|]. exact H.
  - destruct (scheduler_rates (E := unit) (CosineAnnealingLR 1 0 4) 5 (Sgd_new 0 (FIN 7))) as [H Hc]; [discriminate|lia|lia|].
    eexists _, _. split; [exact H|]. destruct Hc as (_ & _ & He); [lra|]. rewrite lr_set_lr. f_equal. apply He. lia.
Defined.
