(* ===== verification/GradScaler.v ===== *)
(** * Loss scaling (crates/rustorch-amp/src/grad_scaler.rs)

    The [GradScaler] state machine on the bits of [f32] values, and its schedule: with
    the default parameters the scale is a power of two that halves on an overflow and
    doubles after 2,000 clean steps. *)

From Stdlib Require Import ZArith Lia SpecFloat.
From stdpp Require Import base list.
From S2P Require Import Prelude Float.

Open Scope Z_scope.

(** [enum ScalerStep] *)
Inductive ScalerStep := Applied | Skipped.

(** [struct GradScaler]; the three floats are bits. *)
Record GradScaler := mkScaler {
  scale : Z; growth_factor : Z; backoff_factor : Z; growth_interval : Z; growth_tracker : Z
}.

(** The bits of [2^k] *)
Definition pow2 (k : Z) : Z := (127 + k) * 2 ^ 23.

Definition f_one : Z := pow2 0.
Definition f_max_scale : Z := fof_int binary32 (2 ^ 24).

Definition GradScaler_new : GradScaler := mkScaler (fof_int binary32 65536) (pow2 1) (pow2 (-1)) 2000 0.
Definition with_params (init_scale growth_factor backoff_factor growth_interval : Z) : GradScaler :=
  mkScaler init_scale growth_factor backoff_factor growth_interval 0.

Definition current_scale (s : GradScaler) : Z := scale s.
Definition scale_loss (s : GradScaler) (loss : Z) : Z := fmul binary32 loss (scale s).

(** [f32::is_finite] *)
Definition is_finite (g : Z) : bool :=
  match of_bits binary32 g with S754_zero _ | S754_finite _ _ _ => true | _ => false end.

(** [f32::clamp] *)
Definition fclamp (x lo hi : Z) : Z := if fltb binary32 x lo then lo else if fltb binary32 hi x then hi else x.

(** [GradScaler::step]: the gradients are changed in place. *)
Definition scaler_step (s : GradScaler) (grads : list Z) : GradScaler * list Z * ScalerStep :=
  let any_bad := existsb (λ g, negb (is_finite g)) grads in
  if any_bad then
    (mkScaler (fmax binary32 (fmul binary32 (scale s) (backoff_factor s)) f_one) (growth_factor s) (backoff_factor s) (growth_interval s) 0,
     grads, Skipped)
  else
    let inv_scale := fdiv binary32 f_one (scale s) in
    (mkScaler (scale s) (growth_factor s) (backoff_factor s) (growth_interval s) (wrap 32 (growth_tracker s + 1)),
     (λ g, fmul binary32 g inv_scale) <$> grads, Applied).

Definition scaler_update (s : GradScaler) : GradScaler :=
  if growth_interval s <=? growth_tracker s then
    mkScaler (fclamp (fmul binary32 (scale s) (growth_factor s)) f_one f_max_scale) (growth_factor s) (backoff_factor s) (growth_interval s) 0
  else s.

(** A sequence of calls *)
Inductive Event := EvStep (grads : list Z) | EvUpdate.

Definition scaler_event (s : GradScaler) (e : Event) : GradScaler * option (list Z * ScalerStep) :=
  match e with
  | EvStep grads => let r := scaler_step s grads in (r.1.1, Some (r.1.2, r.2))
  | EvUpdate => (scaler_update s, None)
  end.

Fixpoint scaler_run (s : GradScaler) (es : list Event) : GradScaler * list (option (list Z * ScalerStep)) :=
  match es with
  | [] => (s, [])
  | e :: es => let r := scaler_event s e in let t := scaler_run r.1 es in (t.1, r.2 :: t.2)
  end.

(** ** The schedule: the exponent of the scale and the clean steps since its last change *)

Definition clean (grads : list Z) : bool := forallb is_finite grads.

Definition spec_event (kt : Z * Z) (e : Event) : (Z * Z) * option (list Z * ScalerStep) :=
  match e with
  | EvStep grads =>
      if clean grads then ((kt.1, kt.2 + 1), Some ((λ g, fmul binary32 g (pow2 (- kt.1))) <$> grads, Applied))
      else ((Z.max 0 (kt.1 - 1), 0), Some (grads, Skipped))
  | EvUpdate => (if 2000 <=? kt.2 then (Z.min 24 (kt.1 + 1), 0) else kt, None)
  end.

Fixpoint spec_run (kt : Z * Z) (es : list Event) : (Z * Z) * list (option (list Z * ScalerStep)) :=
  match es with
  | [] => (kt, [])
  | e :: es => let r := spec_event kt e in let t := spec_run r.1 es in (t.1, r.2 :: t.2)
  end.

Definition scaler_of (kt : Z * Z) : GradScaler := mkScaler (pow2 kt.1) (pow2 1) (pow2 (-1)) 2000 kt.2.

(** The arithmetic on the 25 scales *)
Definition scale_arith_ok (k : Z) : bool :=
  (fmax binary32 (fmul binary32 (pow2 k) (pow2 (-1))) f_one =? pow2 (Z.max 0 (k - 1))) &&
  (fclamp (fmul binary32 (pow2 k) (pow2 1)) f_one f_max_scale =? pow2 (Z.min 24 (k + 1))) &&
  (fdiv binary32 f_one (pow2 k) =? pow2 (- k)).

Lemma scale_arith k : 0 ≤ k ≤ 24 →
  fmax binary32 (fmul binary32 (pow2 k) (pow2 (-1))) f_one = pow2 (Z.max 0 (k - 1)) ∧
  fclamp (fmul binary32 (pow2 k) (pow2 1)) f_one f_max_scale = pow2 (Z.min 24 (k + 1)) ∧
  fdiv binary32 f_one (pow2 k) = pow2 (- k).
Proof.
  intros Hk. assert (forallb (λ n, scale_arith_ok (Z.of_nat n)) (List.seq 0 25) = true) as Hall by (vm_compute; reflexivity).
  rewrite forallb_forall in Hall. specialize (Hall (Z.to_nat k)).
  rewrite Z2Nat.id in Hall by lia. unfold scale_arith_ok in Hall.
  destruct (andb_prop _ _ (Hall ltac:(apply in_seq; lia))) as [[H1 H2]%andb_prop H3].
  by apply Z.eqb_eq in H1, H2, H3.
Qed.

Lemma clean_spec grads : existsb (λ g, negb (is_finite g)) grads = negb (clean grads).
Proof. unfold clean. induction grads as [|g l IH]; simpl; [done|]. rewrite IH. by destruct (is_finite g). Qed.

Lemma scaler_event_spec kt e : 0 ≤ kt.1 ≤ 24 → 0 ≤ kt.2 < 2 ^ 32 - 1 →
  scaler_event (scaler_of kt) e = (scaler_of (spec_event kt e).1, (spec_event kt e).2) ∧
  0 ≤ (spec_event kt e).1.1 ≤ 24 ∧ 0 ≤ (spec_event kt e).1.2 ≤ kt.2 + 1.
Proof.
  intros Hk Ht. destruct kt as [k t]. cbn [fst snd] in *. destruct (scale_arith k Hk) as (H1 & H2 & H3).
  destruct e as [grads|]; cbn [scaler_event spec_event fst snd].
  - unfold scaler_step, scaler_of. cbn [fst snd scale growth_factor backoff_factor growth_interval growth_tracker].
    rewrite clean_spec. destruct (clean grads); cbn [negb fst snd].
    + rewrite H3, wrap_small by (unfold uint; lia). split; [done|lia].
    + rewrite H1. split; [done|lia].
  - unfold scaler_update, scaler_of. cbn [fst snd scale growth_factor backoff_factor growth_interval growth_tracker].
    destruct (2000 <=? t); cbn [fst snd]; [rewrite H2|]; (split; [done|lia]).
Qed.

Lemma scaler_run_spec es : ∀ kt, 0 ≤ kt.1 ≤ 24 → 0 ≤ kt.2 → kt.2 + Z.of_nat (length es) < 2 ^ 32 →
  scaler_run (scaler_of kt) es = (scaler_of (spec_run kt es).1, (spec_run kt es).2) ∧ 0 ≤ (spec_run kt es).1.1 ≤ 24.
Proof.
  induction es as [|e es IH]; intros kt Hk Ht Hl; [done|]. cbn [scaler_run spec_run length fst snd] in *.
  destruct (scaler_event_spec kt e Hk) as (-> & Hk' & Ht'); [lia|]. cbn [fst snd].
  destruct (IH (spec_event kt e).1 Hk') as (-> & Hk''); [lia..|]. done.
Qed.

(** [n] clean steps, each followed by [update] *)
Definition clean_steps (n : nat) : list Event := concat (replicate n [EvStep []; EvUpdate]).

Lemma spec_clean n k : ∀ t, 0 ≤ k ≤ 24 → 0 ≤ t < 2000 →
  (spec_run (k, t) (clean_steps n)).1 = (Z.min 24 (k + (t + Z.of_nat n) / 2000), (t + Z.of_nat n) mod 2000).
Proof.
  revert k. induction n as [|n IH]; intros k t Hk Ht.
  { simpl. rewrite Z.add_0_r, Z.div_small, Z.mod_small by lia. f_equal. lia. }
  change (clean_steps (S n)) with (EvStep [] :: EvUpdate :: clean_steps n). cbn [spec_run spec_event clean forallb fst snd].
  destruct (Z.leb_spec 2000 (t + 1)); cbn [fst snd].
  - rewrite IH by lia. replace (t + Z.of_nat (S n)) with (0 + Z.of_nat n + 1 * 2000) by lia.
    rewrite Z.div_add, Z.mod_add by lia. f_equal.
    pose proof (Z.div_pos (0 + Z.of_nat n) 2000 ltac:(lia) ltac:(lia)). lia.
  - rewrite IH by lia. by replace (t + 1 + Z.of_nat n) with (t + Z.of_nat (S n)) by lia.
Qed.

(** C24: over any sequence of fewer than [2^32] calls the default [GradScaler] follows its
    schedule on [f32] bits, without rounding: the scale is always [2^k] with [0 ≤ k ≤ 24]; a step
    whose gradients hold an infinity or a NaN is skipped, leaves them alone and
    halves the scale, not below 1; any other step is applied and multiplies every gradient
    by [2^-k]; and [n] clean steps in a row, each with its [update], double the scale once
    per 2,000, up to [2^24]. *)
Theorem grad_scaler_schedule (es : list Event) : Z.of_nat (length es) < 2 ^ 32 →
  scaler_run GradScaler_new es = (scaler_of (spec_run (16, 0) es).1, (spec_run (16, 0) es).2) ∧
  0 ≤ (spec_run (16, 0) es).1.1 ≤ 24 ∧
  (∀ n, es = clean_steps n →
     (scaler_run GradScaler_new es).1 = scaler_of (Z.min 24 (16 + Z.of_nat n / 2000), Z.of_nat n mod 2000)).
Proof.
  intros Hl. change GradScaler_new with (scaler_of (16, 0)).
  destruct (scaler_run_spec es (16, 0)) as (H & Hk); [simpl; lia..|].
  split; [done|]. split; [done|]. intros n ->. rewrite H. cbn [fst]. by rewrite spec_clean by lia.
Qed.

(** The clamp is applied when the scale changes, not to the initial scale. *)
Lemma init_scale_not_clamped : current_scale (with_params (pow2 40) (pow2 1) (pow2 (-1)) 2000) = pow2 40.
Proof. reflexivity. Qed.

(** ** Witness *)

Lemma grad_scaler_schedule_witness :
  (scaler_run GradScaler_new [EvStep [pow2 20]; EvUpdate; EvStep [pow2 128; 0]]).2 =
    [Some ([pow2 4], Applied); None; Some ([pow2 128; 0], Skipped)] ∧
  scale (scaler_run GradScaler_new [EvStep [pow2 20]; EvUpdate; EvStep [pow2 128; 0]]).1 = pow2 15.
Proof.
  destruct (grad_scaler_schedule [EvStep [pow2 20]; EvUpdate; EvStep [pow2 128; 0]]) as [H _]; [reflexivity|].
  rewrite H. split; vm_compute; reflexivity.
Defined.
