(* ===== verification/Quant.v ===== *)
(** * Int8 quantization (crates/rustorch-quant/src: dtype.rs, qops.rs, observer.rs,
      gemm_int8.rs)

    Calibration by observers, the affine maps between floats and [i8] and the
    integer matrix product.  The code runs over any type of floats with the operations
    it uses ([QFloat]); an [i8] or [i32] is a [Z] wrapped at its width, and a
    [usize] product wraps at 64 bits.  [f32] is an instance here, the extended
    reals in [QuantReal]. *)

From Stdlib Require Import ZArith Lia SpecFloat.
From stdpp Require Import base list strings.
From S2P Require Import Prelude Loops Dtype Float.

Open Scope nat_scope.

(** What the code does with floats *)
Class QFloat (X : Type) := {
  q_of_int : Z → X;  (** [as f32] *)
  q_half : X;
  q_eps : X;  (** 1e-9 *)
  q_inf : X; q_neg_inf : X;
  q_add : X → X → X; q_sub : X → X → X; q_mul : X → X → X; q_div : X → X → X;
  q_min : X → X → X; q_max : X → X → X;
  q_neg : X → X; q_abs : X → X; q_floor : X → X; q_round : X → X;
  q_lt : X → X → bool; q_le : X → X → bool; q_eq : X → X → bool;
  q_is_finite : X → bool;
  q_to_i32 : X → Z; q_to_usize : X → Z
}.

(** [enum QError], [enum GemmError], [enum ObserverError] *)
Inductive QError (X : Type) := LengthMismatch (expected got : nat) | NonPositiveScale (scale : X).
Arguments LengthMismatch {X}.
Arguments NonPositiveScale {X}.

Inductive GemmError := GemmShapeMismatch (which : string) (expected got : nat).

Inductive ObserverError := ObserverShapeMismatch (expected got : nat) | Empty.

(** [struct QParams] *)
Record QParams (X : Type) := mkQ { scale : X; zero_point : Z }.
Arguments mkQ {X}.
Arguments scale {X}.
Arguments zero_point {X}.

(** [struct MinMaxObserver] *)
Record MinMaxObserver (X : Type) := mkObserver { o_min : X; o_max : X; o_seen : Z; o_nan_count : Z }.
Arguments mkObserver {X}.
Arguments o_min {X}.
Arguments o_max {X}.
Arguments o_seen {X}.
Arguments o_nan_count {X}.

(** [struct PerChannelMinMaxObserver] *)
Record PerChannelMinMaxObserver (X : Type) := mkPerChannel { pc_channels : list (MinMaxObserver X); pc_elements : nat }.
Arguments mkPerChannel {X}.
Arguments pc_channels {X}.
Arguments pc_elements {X}.

(** [struct HistogramObserver] *)
Record HistogramObserver (X : Type) := mkHistogram {
  h_bins : nat; h_amax : X; h_counts : list Z; h_seen : Z; h_nan_count : Z
}.
Arguments mkHistogram {X}.
Arguments h_bins {X}.
Arguments h_amax {X}.
Arguments h_counts {X}.
Arguments h_seen {X}.
Arguments h_nan_count {X}.

Section quant.
Context {X : Type} {QF : QFloat X}.

Local Notation zero := (q_of_int 0).
Local Notation one := (q_of_int 1).

Definition IDENTITY : QParams X := mkQ one 0.

(** ** Parameters of a range (dtype.rs) *)

Definition from_min_max (min max : X) : option (QParams X) :=
  if negb (q_is_finite min && q_is_finite max) || q_le max min then None
  else
    let abs_max := q_max (q_abs min) (q_abs max) in
    if q_eq abs_max zero then None
    else Some (mkQ (q_div abs_max (q_of_int 127)) 0).

(** [f32::clamp] *)
Definition q_clamp (x lo hi : X) : X := if q_lt x lo then lo else if q_lt hi x then hi else x.

Definition from_min_max_asymmetric (min max : X) : option (QParams X) :=
  if negb (q_is_finite min && q_is_finite max) || q_le max min then None
  else
    let q_max := q_of_int 127 in
    let q_min := q_of_int (-128) in
    let scale := q_div (q_sub max min) (q_sub q_max q_min) in
    if q_eq scale zero then None
    else Some (mkQ scale (q_to_i32 (q_clamp (q_round (q_sub q_min (q_div min scale))) q_min q_max))).

(** ** Quantize and dequantize (qops.rs) *)

Definition round_half_to_even (x : X) : Z :=
  let floor := q_floor x in
  let diff := q_sub x floor in
  if q_lt diff q_half then q_to_i32 floor
  else if q_lt q_half diff then q_to_i32 (q_add floor one)
  else
    let f_int := q_to_i32 floor in
    if (Z.rem f_int 2 =? 0)%Z then f_int else swrap 32 (f_int + 1).

(** [i32::clamp] *)
Definition clamp (x lo hi : Z) : Z := if (x <? lo)%Z then lo else if (hi <? x)%Z then hi else x.

Definition quantize_value (qp : QParams X) (x : X) : Z :=
  if negb (q_is_finite x) then 0
  else
    let scaled := q_add (q_div x (scale qp)) (q_of_int (zero_point qp)) in
    clamp (round_half_to_even scaled) (-128) 127.

Definition bad_scale (qp : QParams X) : bool := q_le (scale qp) zero || negb (q_is_finite (scale qp)).

Definition quantize (input : list X) (output : list Z) (qp : QParams X) : res (QError X) (list Z) :=
  if negb (length input =? length output) then Err (LengthMismatch (length input) (length output))
  else if bad_scale qp then Err (NonPositiveScale (scale qp))
  else for_range (length input) (λ output i, let? x := rd input i in put output i (quantize_value qp x)) output.

Definition dequantize_value (qp : QParams X) (q : Z) : X :=
  q_mul (q_of_int (swrap 32 (q - zero_point qp))) (scale qp).

Definition dequantize (input : list Z) (output : list X) (qp : QParams X) : res (QError X) (list X) :=
  if negb (length input =? length output) then Err (LengthMismatch (length input) (length output))
  else if bad_scale qp then Err (NonPositiveScale (scale qp))
  else for_range (length input) (λ output i, let? q := rd input i in put output i (dequantize_value qp q)) output.

(** ** The integer product (gemm_int8.rs) *)

Definition gemm_dot (a b : list Z) (k n : nat) (zp_a zp_b : Z) (row col : nat) : res GemmError Z :=
  for_range k (λ acc kk,
    let? x := rd a (ix (row * k + kk)) in
    let? y := rd b (ix (kk * n + col)) in
    let a_val := swrap 32 (x - zp_a) in
    let b_val := swrap 32 (y - zp_b) in
    Ok (swrap 32 (acc + swrap 32 (a_val * b_val)))) 0%Z.

Definition gemm_int8_scalar (a b : list Z) (c : list X) (m k n : nat) (qa qb : QParams X) : res GemmError (list X) :=
  if negb (length a =? ix (m * k)) then Err (GemmShapeMismatch "a" (ix (m * k)) (length a))
  else if negb (length b =? ix (k * n)) then Err (GemmShapeMismatch "b" (ix (k * n)) (length b))
  else if negb (length c =? ix (m * n)) then Err (GemmShapeMismatch "c" (ix (m * n)) (length c))
  else
    let scale_out := q_mul (scale qa) (scale qb) in
    for_range m (λ c row, for_range n (λ c col,
      let? acc := gemm_dot a b k n (zero_point qa) (zero_point qb) row col in
      put c (ix (row * n + col)) (q_mul (q_of_int acc) scale_out)) c) c.

Definition gemm_f32_reference (a b : list X) (c : list X) (m k n : nat) : res GemmError (list X) :=
  for_range m (λ c row, for_range n (λ c col,
    let? acc := for_range k (λ acc kk,
        let? x := rd a (ix (row * k + kk)) in
        let? y := rd b (ix (kk * n + col)) in
        Ok (q_add acc (q_mul x y))) zero in
    put c (ix (row * n + col)) acc) c) c.

(** ** Observers (observer.rs) *)

Definition MinMaxObserver_new : MinMaxObserver X := mkObserver q_inf q_neg_inf 0 0.

Definition range (o : MinMaxObserver X) : option (X * X) :=
  if (o_seen o =? 0)%Z then None else Some (o_min o, o_max o).

(** The state and the number of finite values of the batch *)
Definition update (o : MinMaxObserver X) (values : list X) : MinMaxObserver X * Z :=
  let '(min, max) := foldl (λ '(mn, mx) x, (q_min mn x, q_max mx x)) (o_min o, o_max o) values in
  let '(nan_count, new_finite) :=
    foldl (λ '(nans, fin) x, if q_is_finite x then (nans, fin + 1)%Z else (nans + 1, fin)%Z) (0, 0)%Z values in
  (mkObserver min max (wrap 64 (o_seen o + new_finite)) (wrap 64 (o_nan_count o + nan_count)), new_finite).

Definition freeze (o : MinMaxObserver X) : res ObserverError (QParams X) :=
  if (o_seen o =? 0)%Z then Err Empty else ok_or Empty (from_min_max (o_min o) (o_max o)).

Definition PerChannel_new (channels elements_per_channel : nat) : PerChannelMinMaxObserver X :=
  mkPerChannel (replicate channels MinMaxObserver_new) elements_per_channel.

Definition PerChannel_update (o : PerChannelMinMaxObserver X) (values : list X)
    : res ObserverError (PerChannelMinMaxObserver X) :=
  let expected := ix (length (pc_channels o) * pc_elements o) in
  if negb (length values =? expected) then Err (ObserverShapeMismatch expected (length values))
  else
    let? channels := rmapM (λ co,
        let start := ix (co.1 * pc_elements o) in
        let end_ := ix (start + pc_elements o) in
        let? vs := slice_range values (Z.of_nat start) (Z.of_nat end_) in
        Ok (update co.2 vs).1) (imap pair (pc_channels o)) in
    Ok (mkPerChannel channels (pc_elements o)).

(** [r.unwrap_or(d)] *)
Definition unwrap_or {E A} (r : res E A) (d : A) : res E A :=
  match r with Ok x => Ok x | Err _ => Ok d | Panic => Panic end.

Definition PerChannel_freeze (o : PerChannelMinMaxObserver X) : res ObserverError (list (QParams X)) :=
  if forallb (λ c, o_seen c =? 0)%Z (pc_channels o) then Err Empty
  else rmapM (λ c, unwrap_or (freeze c) IDENTITY) (pc_channels o).

Definition HistogramObserver_new (bins : nat) (amax_init : X) : HistogramObserver X :=
  let b := Nat.max bins 2 in
  mkHistogram b (q_max amax_init q_eps) (replicate b 0%Z) 0 0.

Definition bin_of (bins : nat) (amax x : X) : nat :=
  let normalised := q_div (q_add x amax) (q_mul (q_of_int 2) amax) in
  let bin_idx := q_to_usize (q_mul normalised (q_of_int (Z.of_nat bins))) in
  Nat.min (Z.to_nat bin_idx) (bins - 1).

Definition Histogram_record (h : HistogramObserver X) (x : X) : res ObserverError (HistogramObserver X) :=
  if q_is_finite x then
    let bin_idx := bin_of (h_bins h) (h_amax h) x in
    let? c := rd (h_counts h) bin_idx in
    let? counts := put (h_counts h) bin_idx (sat_add 64 c 1) in
    Ok (mkHistogram (h_bins h) (h_amax h) counts (wrap 64 (h_seen h + 1)) (h_nan_count h))
  else Ok (mkHistogram (h_bins h) (h_amax h) (h_counts h) (h_seen h) (wrap 64 (h_nan_count h + 1))).

Definition Histogram_update (h : HistogramObserver X) (values : list X) : res ObserverError (HistogramObserver X) :=
  let new_amax := foldl (λ acc x, q_max acc (q_abs x)) (h_amax h) (List.filter q_is_finite values) in
  let h := if q_lt (h_amax h) new_amax then mkHistogram (h_bins h) new_amax (h_counts h) (h_seen h) (h_nan_count h) else h in
  rfold Histogram_record h values.

(** [(self.seen as f64 * 0.999) as u64] *)
Definition mass_target (seen : Z) : Z :=
  fto_uint binary64 64 (fmul binary64 (fof_int binary64 seen) 0x3feff7ced916872b).

(** The loop over the radii, from [r] on; [n] of them are left. *)
Fixpoint choose_radius (counts : list Z) (bins : nat) (target : Z) (n r : nat) : res ObserverError nat :=
  match n with
  | O => Ok (bins / 2)
  | S n =>
      let lo := bins / 2 - r in
      let hi := Nat.min (bins / 2 + r) (bins - 1) in
      let? mass := slice_range counts (Z.of_nat lo) (Z.of_nat (hi + 1)) in
      if (target <=? sum_u 64 mass)%Z then Ok r else choose_radius counts bins target n (S r)
  end.

Definition Histogram_freeze (h : HistogramObserver X) : res ObserverError (QParams X) :=
  if (h_seen h =? 0)%Z then Err Empty
  else
    let? chosen_radius := choose_radius (h_counts h) (h_bins h) (mass_target (h_seen h)) (h_bins h / 2 + 1) 0 in
    let bin_width := q_div (q_mul (q_of_int 2) (h_amax h)) (q_of_int (Z.of_nat (h_bins h))) in
    let amax_chosen := q_mul (q_add (q_of_int (Z.of_nat chosen_radius)) q_half) bin_width in
    ok_or Empty (from_min_max (q_neg amax_chosen) amax_chosen).
End quant.

(** ** The instance of [f32] *)

(** [floor] and [round] (halves away from zero) of a finite value; the sign of
    a zero result is that of the argument. *)
Definition fint (f : format) (g : spec_float → Z) (a : Z) : Z :=
  match of_bits f a with
  | S754_finite s m e =>
      to_bits f (binary_normalize (f_prec f) (f_emax f) (g (S754_finite s m e)) 0 s)
  | _ => a
  end.

Definition floor_Z (x : spec_float) : Z :=
  match x with
  | S754_finite s m e =>
      let v := cond_Zopp s (Zpos m) in
      if (0 <=? e)%Z then (v * 2 ^ e)%Z else (v / 2 ^ (- e))%Z
  | _ => 0%Z
  end.

Definition round_Z (x : spec_float) : Z :=
  match x with
  | S754_finite s m e =>
      if (0 <=? e)%Z then cond_Zopp s (Zpos m * 2 ^ e)%Z
      else cond_Zopp s ((2 * Zpos m + 2 ^ (- e)) / (2 * 2 ^ (- e)))%Z
  | _ => 0%Z
  end.

Definition ffloor (f : format) : Z → Z := fint f floor_Z.
Definition fround (f : format) : Z → Z := fint f round_Z.

Definition f_finite (f : format) (a : Z) : bool :=
  match of_bits f a with S754_finite _ _ _ | S754_zero _ => true | _ => false end.

#[export] Instance f32_qfloat : QFloat Z := {|
  q_of_int := fof_int binary32;
  q_half := 0x3f000000%Z; q_eps := 0x3089705f%Z; q_inf := 0x7f800000%Z; q_neg_inf := 0xff800000%Z;
  q_add := fadd binary32; q_sub := fsub binary32; q_mul := fmul binary32; q_div := fdiv binary32;
  q_min := fmin binary32; q_max := fmax binary32;
  q_neg := fneg binary32; q_abs := fabs binary32; q_floor := ffloor binary32; q_round := fround binary32;
  q_lt := fltb binary32; q_le x y := fltb binary32 x y || feqb binary32 x y; q_eq := feqb binary32;
  q_is_finite := f_finite binary32;
  q_to_i32 := fto_sint binary32 32; q_to_usize := fto_uint binary32 64
|}.

Example round_half_cases :
  round_half_to_even <$> [0x3f000000; 0x3fc00000; 0x40200000; 0xbf000000; 0xbfc00000; 0x3f0000c5]%Z =
  [0; 2; 2; 0; -2; 1]%Z.
Proof. vm_compute. reflexivity. Qed.

(** ** Divergences *)

(** A finite value whose quotient by the scale overflows: the infinity takes the
    branch of the halves, [i32::MAX] is odd and the addition wraps to the other
    end; 3e38 with scale 0.1 becomes -128. *)
Lemma quantize_overflow_flips : quantize_value (mkQ 0x3dcccccd 0)%Z 0x7f61b1e6%Z = (-128)%Z.
Proof. vm_compute. reflexivity. Qed.

(** A buffer of one value has no range: it freezes to the error of an observer
    that saw nothing. *)
Lemma constant_is_empty : freeze (update (X := Z) MinMaxObserver_new [0x3f800000; 0x3f800000]%Z).1 = Err Empty.
Proof. vm_compute. reflexivity. Qed.

(** When the range grows the old counts stay in the bins of the old range: 0.9,
    recorded in [-1, 1], counts as a value near 100. *)
Lemma histogram_not_rebinned :
  (let? h := Histogram_update (HistogramObserver_new 8 0x3f800000%Z) [0x3f666666]%Z in
   let? h := Histogram_update h [0x42c80000]%Z in Ok (h_counts h)) = Ok [0; 0; 0; 0; 0; 0; 0; 2]%Z ∧
  bin_of 8 0x42c80000%Z 0x3f666666%Z = 4.
Proof. split; vm_compute; reflexivity. Qed.

(** ** The integer product *)

(** Writing a function of a buffer into another of the same length *)
Lemma map_loop {E A B} (f : A → B) (l : list A) (out : list B) : length l = length out →
  for_range (E := E) (length l) (λ out i, let? x := rd l i in put out i (f x)) out = Ok (f <$> l).
Proof.
  intros Hl. pose (g := λ i, (f <$> take i l) ++ drop i out).
  match goal with |- for_range ?n ?b _ = _ => change (for_range n b (g 0) = Ok (f <$> l)) end.
  rewrite (for_range_inv _ _ g).
  - unfold g. rewrite firstn_all, drop_ge by lia. by rewrite app_nil_r.
  - intros i Hi. destruct (lookup_lt_is_Some_2 l i Hi) as [x Hx]. unfold rd. rewrite Hx. simpl. unfold put, g.
    rewrite length_app, length_fmap, length_take, length_drop, (proj2 (Nat.ltb_lt _ _)) by lia. f_equal.
    rewrite (take_S_r l i x Hx), fmap_app. destruct (lookup_lt_is_Some_2 out i ltac:(lia)) as [y Hy].
    rewrite (drop_S out y i Hy), insert_app_r_alt; rewrite length_fmap, length_take; [|lia].
    replace (i - Nat.min i (length l)) with 0 by lia. simpl. by rewrite <- app_assoc.
Qed.

Section products.
Context {X : Type} {QF : QFloat X}.

Lemma quantize_run (input : list X) output qp : length input = length output → bad_scale qp = false →
  quantize input output qp = Ok (quantize_value qp <$> input).
Proof. intros Hl Hs. unfold quantize. rewrite Hl, Nat.eqb_refl, Hs, <- Hl. simpl. by apply map_loop. Qed.

Lemma dequantize_run input (output : list X) qp : length input = length output → bad_scale qp = false →
  dequantize input output qp = Ok (dequantize_value qp <$> input).
Proof. intros Hl Hs. unfold dequantize. rewrite Hl, Nat.eqb_refl, Hs, <- Hl. simpl. by apply map_loop. Qed.

(** The product of a row and a column, in unbounded integers *)
Definition dot_exact (a b : list Z) (k n : nat) (zp_a zp_b : Z) (row col : nat) : Z :=
  bsum k (λ kk, (nth (row * k + kk) a 0 - zp_a) * (nth (kk * n + col) b 0 - zp_b))%Z.

Lemma gemm_dot_spec a b m k n zp_a zp_b row col :
  length a = m * k → length b = k * n → row < m → col < n → (Z.of_nat (m * k) < 2 ^ 64 → Z.of_nat (k * n) < 2 ^ 64 →
  gemm_dot a b k n zp_a zp_b row col = Ok (swrap 32 (dot_exact a b k n zp_a zp_b row col)))%Z.
Proof using Type.
  intros Ha Hb Hr Hc Hmk Hkn. unfold gemm_dot, dot_exact. set (f := λ kk : nat, ((nth (row * k + kk) a 0 - zp_a) * _)%Z).
  match goal with |- for_range k ?b _ = _ => change (for_range k b (swrap 32 (bsum 0 f)) = Ok (swrap 32 (bsum k f))) end.
  rewrite (for_range_inv k _ (λ i, swrap 32 (bsum i f))); [done|].
  intros i Hi. assert (row * k + i < m * k) by nia. assert (i * n + col < k * n) by nia.
  rewrite !ix_small by lia. rewrite !(rd_nth 0%Z) by lia. cbn [rbind]. rewrite bsum_S. cbn [sr_add Z_SemiRing].
  rewrite swrap_mul_l, swrap_mul_r, swrap_add_r, swrap_add_l by lia. done.
Qed.

(** The result of the product, with the wrapped accumulator *)
Definition gemm_value (a b : list Z) (k n : nat) (qa qb : QParams X) (row col : nat) : X :=
  q_mul (q_of_int (swrap 32 (dot_exact a b k n (zero_point qa) (zero_point qb) row col))) (q_mul (scale qa) (scale qb)).

Lemma gemm_run a b (c : list X) m k n qa qb :
  length a = m * k → length b = k * n → length c = m * n →
  (Z.of_nat (m * k) < 2 ^ 64 → Z.of_nat (k * n) < 2 ^ 64 → Z.of_nat (m * n) < 2 ^ 64 →
  gemm_int8_scalar a b c m k n qa qb = Ok (grid m n (gemm_value a b k n qa qb)))%Z.
Proof using Type.
  intros Ha Hb Hc H1 H2 H3. unfold gemm_int8_scalar. rewrite !ix_small, Ha, Hb, Hc, !Nat.eqb_refl by done. simpl.
  apply grid_loop; [done|]. intros l i j Hi Hj.
  rewrite (gemm_dot_spec a b m) by done. cbn [rbind]. rewrite ix_small by nia. done.
Qed.

(** Bounds on the operands that keep the accumulator in range *)
Lemma bsum_abs j (f : nat → Z) B : (∀ i, i < j → (Z.abs (f i) ≤ B)%Z) → (Z.abs (bsum j f) ≤ Z.of_nat j * B)%Z.
Proof using Type.
  intros Hf. induction j as [|j IH]; [done|]. rewrite bsum_S. cbn [sr_add Z_SemiRing].
  specialize (IH ltac:(auto)). specialize (Hf j ltac:(lia)). rewrite Nat2Z.inj_succ, Z.mul_succ_l. lia.
Qed.

Lemma dot_exact_bound a b m k n zp_a zp_b row col Ba Bb :
  length a = m * k → length b = k * n → row < m → col < n →
  Forall (λ x, Z.abs (x - zp_a) ≤ Ba)%Z a → Forall (λ y, Z.abs (y - zp_b) ≤ Bb)%Z b →
  (Z.abs (dot_exact a b k n zp_a zp_b row col) ≤ Z.of_nat k * (Ba * Bb))%Z.
Proof using Type.
  intros Ha Hb Hr Hc Hba Hbb. apply bsum_abs. intros i Hi. rewrite Z.abs_mul.
  apply Z.mul_le_mono_nonneg; try apply Z.abs_nonneg.
  - apply (proj1 (Forall_nth _ 0%Z a) Hba). nia.
  - apply (proj1 (Forall_nth _ 0%Z b) Hbb). nia.
Qed.
End products.

(** The int8 product, on every branch: a buffer of another length than its shape
    is refused, and otherwise every element is the integer sum of the products of
    the shifted operands, converted and multiplied by both scales; the 32-bit
    accumulator is exact as long as the depth times the largest product of shifted
    operands stays below 2^31. *)
Theorem gemm_int8_exact {X} {QF : QFloat X} a b (c : list X) m k n qa qb Ba Bb :
  (Z.of_nat (m * k) < 2 ^ 64 ∧ Z.of_nat (k * n) < 2 ^ 64 ∧ Z.of_nat (m * n) < 2 ^ 64)%Z →
  Forall (λ x, Z.abs (x - zero_point qa) ≤ Ba)%Z a → Forall (λ y, Z.abs (y - zero_point qb) ≤ Bb)%Z b →
  (Z.of_nat k * (Ba * Bb) < 2 ^ 31)%Z →
  match gemm_int8_scalar a b c m k n qa qb with
  | Ok c' => length a = m * k ∧ length b = k * n ∧ length c = m * n ∧ length c' = m * n ∧
      ∀ i j, i < m → j < n → c' !! (i * n + j) =
        Some (q_mul (q_of_int (dot_exact a b k n (zero_point qa) (zero_point qb) i j)) (q_mul (scale qa) (scale qb)))
  | Err (GemmShapeMismatch which expected got) => expected ≠ got ∧
      (which = "a" ∧ expected = m * k ∧ got = length a ∨
       which = "b" ∧ expected = k * n ∧ got = length b ∨ which = "c" ∧ expected = m * n ∧ got = length c)
  | Panic => False
  end.
Proof.
  intros (H1 & H2 & H3) Hba Hbb Hk.
  destruct (decide (length a = m * k)) as [Ha|Ha]; [|unfold gemm_int8_scalar; rewrite !ix_small, (proj2 (Nat.eqb_neq _ _) Ha) by done; simpl; auto 7].
  destruct (decide (length b = k * n)) as [Hb|Hb];
    [|unfold gemm_int8_scalar; rewrite !ix_small, Ha, Nat.eqb_refl, (proj2 (Nat.eqb_neq _ _) Hb) by done; simpl; auto 7].
  destruct (decide (length c = m * n)) as [Hc|Hc];
    [|unfold gemm_int8_scalar; rewrite !ix_small, Ha, Hb, !Nat.eqb_refl, (proj2 (Nat.eqb_neq _ _) Hc) by done; simpl; auto 7].
  rewrite gemm_run by done. repeat (split; [done||apply length_grid|]). intros i j Hi Hj.
  rewrite lookup_grid by done. unfold gemm_value. rewrite swrap_small; [done|lia|].
  pose proof (dot_exact_bound a b m k n _ _ i j Ba Bb Ha Hb Hi Hj Hba Hbb). unfold sint. lia.
Qed.

Lemma gemm_int8_exact_witness :
  ∃ c, gemm_int8_scalar [1; 2; 3; 4]%Z [5; 6; 7; 8]%Z [0; 0; 0; 0]%Z 2 2 2 (mkQ 0x3f800000 0)%Z (mkQ 0x3f800000 0)%Z = Ok c ∧
    c !! 3 = Some 0x42480000%Z.
Proof.
  pose proof (gemm_int8_exact [1; 2; 3; 4]%Z [5; 6; 7; 8]%Z [0; 0; 0; 0]%Z 2 2 2 (mkQ 0x3f800000 0)%Z (mkQ 0x3f800000 0)%Z 4 8
    ltac:(simpl; lia) ltac:(repeat constructor; simpl; lia) ltac:(repeat constructor; simpl; lia) ltac:(lia)) as H.
  destruct (gemm_int8_scalar _ _ _ _ _ _ _ _) as [c|[]|]; [|vm_compute in H; naive_solver|done].
  destruct H as (_ & _ & _ & _ & H). exists c. split; [done|]. specialize (H 1 1 ltac:(lia) ltac:(lia)).
  etransitivity; [exact H|]. vm_compute. reflexivity.
Defined.

(** The accumulator wraps at a depth of 2^17, far below the 16 million that the
    documentation calls safe: the product of two columns of -128 is negative. *)
Lemma gemm_overflow {X} {QF : QFloat X} (qa qb : QParams X) c0 k : zero_point qa = 0%Z → zero_point qb = 0%Z →
  Z.of_nat k = (2 ^ 17)%Z →
  gemm_int8_scalar (replicate k (-128)%Z) (replicate k (-128)%Z) [c0] 1 k 1 qa qb =
  Ok [q_mul (q_of_int (- 2 ^ 31)) (q_mul (scale qa) (scale qb))].
Proof.
  intros Ha Hb Hk. rewrite gemm_run by (rewrite ?length_replicate; simpl; lia). unfold grid, gemm_value. simpl. rewrite Ha, Hb.
  assert (dot_exact (replicate k (-128)%Z) (replicate k (-128)%Z) k 1 0 0 0 0 = 2 ^ 31)%Z as ->; [|done].
  unfold dot_exact. rewrite (bsum_ext k _ (λ _, 16384%Z)).
  - assert (∀ j, bsum j (λ _, 16384%Z) = Z.of_nat j * 16384)%Z as ->; [|lia].
    intros j. induction j as [|j IH]; [done|]. rewrite bsum_S, IH. cbn [sr_add Z_SemiRing]. lia.
  - intros i Hi. rewrite !nth_lookup, !lookup_replicate_2 by lia. done.
Qed.

(** A range so small that its scale rounds to 0 is accepted, and [quantize] then
    refuses the parameters. *)
Lemma tiny_scale_zero : from_min_max (X := Z) 0x80000007%Z 0x7%Z = Some (mkQ 0 0)%Z ∧ bad_scale (X := Z) (mkQ 0 0)%Z = true.
Proof. split; vm_compute; reflexivity. Qed.

(** ** The histogram *)

Lemma zsum_insert_succ (l : list Z) i c : l !! i = Some c → zsum (<[i := (c + 1)%Z]> l) = (zsum l + 1)%Z.
Proof.
  intros Hi. pose proof (f_equal zsum (take_drop_middle l i c Hi)) as H. rewrite zsum_app, zsum_cons in H.
  rewrite (insert_take_drop l i) by (by eapply lookup_lt_Some). rewrite zsum_app, zsum_cons. lia.
Qed.

Lemma zsum_lookup_le (l : list Z) i c : Forall (λ x, 0 ≤ x)%Z l → l !! i = Some c → (c ≤ zsum l)%Z.
Proof.
  intros Hl Hi. pose proof (f_equal zsum (take_drop_middle l i c Hi)) as H. rewrite zsum_app, zsum_cons in H.
  pose proof (zsum_nonneg _ (Forall_take _ i _ Hl)). pose proof (zsum_nonneg _ (Forall_drop _ (S i) _ Hl)). lia.
Qed.

Section histogram.
Context {X : Type} {QF : QFloat X}.

Definition finite_count (vs : list X) : nat := length (List.filter q_is_finite vs).

(** The counts add up to the number of finite values. *)
Definition hist_inv (fin nans : nat) (h : HistogramObserver X) : Prop :=
  2 ≤ h_bins h ∧ length (h_counts h) = h_bins h ∧ Forall (λ c, 0 ≤ c)%Z (h_counts h) ∧
  zsum (h_counts h) = Z.of_nat fin ∧ h_seen h = Z.of_nat fin ∧ h_nan_count h = Z.of_nat nans.

Lemma hist_inv_new bins amax : hist_inv 0 0 (HistogramObserver_new bins amax).
Proof using Type.
  unfold hist_inv, HistogramObserver_new. cbn [h_bins h_counts h_seen h_nan_count].
  split; [lia|]. split; [apply length_replicate|]. split; [by apply Forall_replicate|]. split; [|done].
  induction (Nat.max bins 2) as [|k IH]; [done|]. simpl. done.
Qed.

Lemma hist_record fin nans h x : hist_inv fin nans h → (Z.of_nat (fin + nans) + 1 < 2 ^ 64)%Z →
  ends (hist_inv (if q_is_finite x then S fin else fin) (if q_is_finite x then nans else S nans)) (λ _, False)
    (Histogram_record h x).
Proof using Type.
  intros (Hb & Hl & Hn & Hz & Hs & Hc) Hfit. unfold Histogram_record. destruct (q_is_finite x).
  - assert (bin_of (h_bins h) (h_amax h) x < length (h_counts h)) as Hi by (unfold bin_of; lia).
    destruct (lookup_lt_is_Some_2 _ _ Hi) as [c Hlook]. unfold rd. rewrite Hlook. cbn [unwrap_opt rbind].
    unfold put. rewrite (proj2 (Nat.ltb_lt _ _)) by done. cbn [rbind ends]. pose proof (zsum_lookup_le _ _ _ Hn Hlook).
    unfold sat_add. rewrite Z.min_r by lia. unfold hist_inv. cbn [h_bins h_counts h_seen h_nan_count].
    split; [done|]. split; [by rewrite length_insert|]. split.
    + apply Forall_insert; [done|]. pose proof (Forall_lookup_1 _ _ _ _ Hn Hlook). simpl in *. lia.
    + rewrite zsum_insert_succ by done. rewrite Hs, wrap_small by (unfold uint; lia). lia.
  - cbn [ends]. unfold hist_inv. cbn [h_bins h_counts h_seen h_nan_count]. split; [done|]. split; [done|]. split; [done|].
    rewrite Hc, wrap_small by (unfold uint; lia). split; [done|]. split; [done|]. lia.
Qed.

Lemma finite_count_app vs ws : finite_count (vs ++ ws) = finite_count vs + finite_count ws.
Proof using Type. unfold finite_count. by rewrite List.filter_app, length_app. Qed.

Lemma finite_count_le vs : finite_count vs ≤ length vs.
Proof using Type. apply List.filter_length_le. Qed.

Lemma hist_update done_ h vs : hist_inv (finite_count done_) (length done_ - finite_count done_) h →
  (Z.of_nat (length (done_ ++ vs)) < 2 ^ 64)%Z →
  ends (hist_inv (finite_count (done_ ++ vs)) (length (done_ ++ vs) - finite_count (done_ ++ vs))) (λ _, False)
    (Histogram_update h vs).
Proof using Type.
  unfold Histogram_update. set (h' := if q_lt _ _ then _ else _).
  intros Hinv. assert (hist_inv (finite_count done_) (length done_ - finite_count done_) h') as Hinv'
    by (unfold h'; by destruct (q_lt _ _)).
  clearbody h'. clear h Hinv. revert done_ h' Hinv'. induction vs as [|x vs IH]; intros ds h Hinv Hfit.
  { by rewrite app_nil_r. }
  pose proof (finite_count_le ds). rewrite length_app in Hfit. cbn [length] in Hfit. cbn [rfold].
  eapply ends_bind; [apply (hist_record _ _ _ x Hinv); lia|]. intros h1 H1. cbv beta in H1.
  rewrite cons_middle, app_assoc. apply IH; [|rewrite !length_app; simpl; lia].
  assert (finite_count [x] = if q_is_finite x then 1 else 0) as Hx by (unfold finite_count; simpl; by destruct (q_is_finite x)).
  rewrite finite_count_app, length_app, Hx. destruct (q_is_finite x); simpl length.
  - replace (finite_count ds + 1) with (S (finite_count ds)) by lia.
    by replace (length ds + 1 - S (finite_count ds)) with (length ds - finite_count ds) by lia.
  - rewrite Nat.add_0_r. by replace (length ds + 1 - finite_count ds) with (S (length ds - finite_count ds)) by lia.
Qed.

Lemma hist_run done_ h batches : hist_inv (finite_count done_) (length done_ - finite_count done_) h →
  (Z.of_nat (length (done_ ++ concat batches)) < 2 ^ 64)%Z →
  ends (hist_inv (finite_count (done_ ++ concat batches)) (length (done_ ++ concat batches) - finite_count (done_ ++ concat batches)))
    (λ _, False) (rfold Histogram_update h batches).
Proof using Type.
  revert done_ h. induction batches as [|vs batches IH]; intros ds h Hinv Hfit; [by rewrite app_nil_r|].
  cbn [rfold concat] in *. rewrite app_assoc in Hfit. rewrite app_assoc.
  eapply ends_bind; [apply (hist_update ds h vs Hinv)|]; [rewrite length_app in Hfit; lia|].
  intros h1 H1. by apply IH.
Qed.

Lemma record_bins h x h' : Histogram_record h x = Ok h' → h_bins h' = h_bins h.
Proof using Type.
  unfold Histogram_record. destruct (q_is_finite x); [|by intros [= <-]].
  destruct (rd _ _) as [c| |]; try done. cbn [rbind]. destruct (put _ _ _) as [cs| |]; try done. by intros [= <-].
Qed.

Lemma histogram_bins h batches h' : rfold Histogram_update h batches = Ok h' → h_bins h' = h_bins h.
Proof using Type.
  revert h. induction batches as [|vs batches IH]; intros h; [by intros [= <-]|]. cbn [rfold].
  destruct (Histogram_update h vs) as [h1| |] eqn:Hu; try done. cbn [rbind]. intros ->%IH.
  unfold Histogram_update in Hu. set (h0 := if q_lt _ _ then _ else _) in Hu.
  assert (h_bins h0 = h_bins h) as <- by (unfold h0; by destruct (q_lt _ _)). clearbody h0.
  revert h0 Hu. induction vs as [|x vs IHv]; intros h0; [by intros [= <-]|]. cbn [rfold].
  destruct (Histogram_record h0 x) as [h2| |] eqn:Hr; try done. cbn [rbind]. intros ->%IHv. by apply record_bins in Hr.
Qed.

(** The values that fall within [r] bins of the centre *)
Definition mass (counts : list Z) (bins r : nat) : Z :=
  zsum (take (Nat.min (bins / 2 + r) (bins - 1) + 1 - (bins / 2 - r)) (drop (bins / 2 - r) counts)).

(** The least radius that holds the target, or the whole range *)
Definition radius_for (counts : list Z) (bins : nat) (target : Z) (r : nat) : Prop :=
  r ≤ bins / 2 ∧ ((target ≤ mass counts bins r)%Z ∨ r = bins / 2) ∧ ∀ r', r' < r → (mass counts bins r' < target)%Z.

Lemma choose_radius_spec counts bins target n r : 2 ≤ bins → length counts = bins → Forall (λ c, 0 ≤ c)%Z counts →
  (zsum counts < 2 ^ 64)%Z → r + n = bins / 2 + 1 → (∀ r', r' < r → (mass counts bins r' < target)%Z) →
  ends (radius_for counts bins target) (λ _, False) (choose_radius counts bins target n r).
Proof using Type.
  intros Hb Hl Hn Hz. revert r. induction n as [|n IH]; intros r Hr Hlow.
  - cbn [choose_radius ends]. split; [done|]. split; [by right|]. intros r' Hr'. apply Hlow. lia.
  - cbn [choose_radius]. pose proof (Nat.Div0.mul_div_le bins 2).
    assert (bins / 2 < bins) by (apply Nat.div_lt; lia).
    set (hi := Nat.min (bins / 2 + r) (bins - 1)). unfold slice_range.
    rewrite !(proj2 (Z.ltb_ge _ _)) by lia. cbn [orb rbind].
    replace (Z.to_nat (Z.of_nat (hi + 1) - Z.of_nat (bins / 2 - r))) with (hi + 1 - (bins / 2 - r)) by lia. rewrite Nat2Z.id.
    fold (mass counts bins r).
    set (sl := take _ _). assert (sum_u 64 sl = mass counts bins r) as ->.
    { apply sum_u_small; [lia|]. unfold uint. change (zsum sl) with (mass counts bins r). split.
      - apply zsum_nonneg, Forall_take, Forall_drop, Hn.
      - assert (zsum counts = zsum (take (bins / 2 - r) counts) + (mass counts bins r + zsum (drop (hi + 1 - (bins / 2 - r)) (drop (bins / 2 - r) counts))))%Z as Hsplit.
        { unfold mass. fold hi. rewrite <- !zsum_app, !take_drop. done. }
        pose proof (zsum_nonneg _ (Forall_take _ (bins / 2 - r) _ Hn)).
        pose proof (zsum_nonneg _ (Forall_drop _ (hi + 1 - (bins / 2 - r)) _ (Forall_drop _ (bins / 2 - r) _ Hn))). lia. }
    destruct (Z.leb_spec target (mass counts bins r)) as [Hle|Hgt].
    + cbn [ends]. split; [lia|]. split; [by left|done].
    + apply IH; [lia|]. intros r' Hr'. destruct (decide (r' = r)) as [->|]; [done|]. apply Hlow. lia.
Qed.
End histogram.

(** The calibration histogram: whatever the batches (fewer than 2^64 values in
    all), recording never panics, the counts add up to the number of finite values,
    the others are tallied apart, and freezing an observer that saw a finite value
    takes the least radius around the centre bin that holds 99.9% of the mass (the
    whole range if none does) and builds the parameters of the range up to it. *)
Theorem histogram_calibrated {X} {QF : QFloat X} bins (amax : X) batches :
  (Z.of_nat (length (concat batches)) < 2 ^ 64)%Z →
  ∃ h, rfold Histogram_update (HistogramObserver_new bins amax) batches = Ok h ∧
    let vs := concat batches in
    length (h_counts h) = Nat.max bins 2 ∧ zsum (h_counts h) = Z.of_nat (finite_count vs) ∧
    h_seen h = Z.of_nat (finite_count vs) ∧ h_nan_count h = Z.of_nat (length vs - finite_count vs) ∧
    if finite_count vs =? 0 then Histogram_freeze h = Err Empty
    else ∃ r, radius_for (h_counts h) (h_bins h) (mass_target (h_seen h)) r ∧
      let a := q_mul (q_add (q_of_int (Z.of_nat r)) q_half)
                 (q_div (q_mul (q_of_int 2) (h_amax h)) (q_of_int (Z.of_nat (h_bins h)))) in
      Histogram_freeze h = match from_min_max (q_neg a) a with Some qp => Ok qp | None => Err Empty end.
Proof.
  intros Hfit. pose proof (hist_run [] _ batches (hist_inv_new bins amax) Hfit) as H.
  assert (∀ h, rfold Histogram_update (HistogramObserver_new bins amax) batches = Ok h → h_bins h = Nat.max bins 2) as Hbins.
  { apply histogram_bins. }
  destruct (rfold _ _ _) as [h|e|]; [|done..]. destruct H as (Hb & Hl & Hn & Hz & Hs & Hc). exists h. split; [done|].
  cbv zeta. simpl app in *. split; [by rewrite Hl, (Hbins h)|]. split; [done|]. split; [done|]. split; [done|].
  unfold Histogram_freeze. rewrite Hs. destruct (Nat.eqb_spec (finite_count (concat batches)) 0) as [H0|H0].
  - by rewrite H0.
  - rewrite (proj2 (Z.eqb_neq _ _)) by lia. pose proof (finite_count_le (concat batches)).
    pose proof (choose_radius_spec (h_counts h) (h_bins h) (mass_target (Z.of_nat (finite_count (concat batches))))
      (h_bins h / 2 + 1) 0 Hb Hl Hn ltac:(lia) ltac:(lia) ltac:(lia)) as Hr.
    destruct (choose_radius _ _ _ _ _) as [r|e|]; [|done..]. exists r. split; [done|]. cbn [rbind].
    by destruct (from_min_max _ _).
Qed.

(** Eight bins over [-1, 1], the values 0.5, NaN and -0.5 in two batches: two
    counts, and the parameters of the range of radius 2. *)
Lemma histogram_calibrated_witness :
  ∃ h, rfold Histogram_update (HistogramObserver_new (X := Z) 8 0x3f800000%Z) [[0x3f000000; 0x7fc00000]; [0xbf000000]]%Z = Ok h ∧
    zsum (h_counts h) = 2%Z ∧ h_nan_count h = 1%Z ∧ Histogram_freeze h = Ok (mkQ 0x3ba14285 0)%Z.
Proof.
  destruct (histogram_calibrated (X := Z) 8 0x3f800000%Z [[0x3f000000; 0x7fc00000]; [0xbf000000]]%Z) as (h & H & _ & H1 & _ & H2 & _).
  { vm_compute. reflexivity. }
  exists h. split; [exact H|]. split; [exact H1|]. split; [exact H2|].
  clear H1 H2. vm_compute in H. injection H as <-. vm_compute. reflexivity.
Defined.
