(* ===== verification/QuantLayers.v ===== *)
(** * Quantized layers (crates/rustorch-quant/src: qmodules.rs, workflow.rs)

    The int8 linear layer and convolution, and the workflow that quantizes a list
    of layers.  The theorems say what the layers compute: the linear layer a
    product of quantized matrices plus the bias, the convolution (column matrix,
    integer product, two transpositions) the direct sum over the window. *)

From Stdlib Require Import ZArith Lia Ring ArithRing.
From stdpp Require Import base list strings.
From S2P Require Import Prelude Loops Dtype Float Quant.

Open Scope nat_scope.

(** [enum QModuleError]; the messages of [ConvShape] are left out. *)
Inductive QModuleError := Gemm (e : GemmError) | InputShape (expected got : nat) | ConvShape.

(** [struct QuantLinear] *)
Record QuantLinear (X : Type) := mkLinear {
  weight_q : list Z; weight_qp : QParams X; bias : option (list X);
  input_qp : option (QParams X); input_observer : MinMaxObserver X;
  in_features : nat; out_features : nat
}.
Arguments mkLinear {X}.
Arguments weight_q {X}.
Arguments weight_qp {X}.
Arguments bias {X}.
Arguments input_qp {X}.
Arguments input_observer {X}.
Arguments in_features {X}.
Arguments out_features {X}.

(** [struct Conv2dParams] *)
Record Conv2dParams := mkConvParams { kh : nat; kw : nat; stride : nat * nat; padding : nat * nat }.

(** [struct QuantConv2d] *)
Record QuantConv2d (X : Type) := mkConv {
  cv_weight_q : list Z; cv_weight_qp : QParams X; cv_bias : option (list X); c_out : nat; c_in : nat; params : Conv2dParams
}.
Arguments mkConv {X}.
Arguments cv_weight_q {X}.
Arguments cv_weight_qp {X}.
Arguments cv_bias {X}.
Arguments c_out {X}.
Arguments c_in {X}.
Arguments params {X}.

(** [enum LayerSpec], [enum QuantLayer], [enum WorkflowError] *)
Inductive LayerSpec (X : Type) :=
  | Linear (weight : list X) (bias : option (list X)) (in_features out_features : nat)
  | Conv2d (weight : list X) (bias : option (list X)) (c_out c_in : nat) (params : Conv2dParams).
Arguments Linear {X}.
Arguments Conv2d {X}.

Inductive QuantLayer (X : Type) := QLinear (l : QuantLinear X) | QConv2d (l : QuantConv2d X).
Arguments QLinear {X}.
Arguments QConv2d {X}.

Inductive WorkflowError := EmptyCalibrationLoader | LayerCountMismatch (expected got : nat) | ModuleError (e : QModuleError).

Section layers.
Context {X : Type} {QF : QFloat X}.

Local Notation zero := (q_of_int 0).

(** ** Layers (qmodules.rs) *)

Definition QuantLinear_new (weight_q : list Z) (weight_qp : QParams X) (bias : option (list X))
    (in_features out_features : nat) : res QModuleError (QuantLinear X) :=
  if negb (length weight_q =? ix (in_features * out_features)) then Panic
  else if match bias with Some b => negb (length b =? out_features) | None => false end then Panic
  else Ok (mkLinear weight_q weight_qp bias None MinMaxObserver_new in_features out_features).

Definition QuantLinear_from_f32 (weight_f32 : list X) (weight_qp : QParams X) (bias : option (list X))
    (in_features out_features : nat) : res QModuleError (QuantLinear X) :=
  let? weight_q := unwrap (quantize weight_f32 (replicate (length weight_f32) 0%Z) weight_qp) in
  QuantLinear_new weight_q weight_qp bias in_features out_features.

Definition observe (l : QuantLinear X) (input : list X) : QuantLinear X :=
  mkLinear (weight_q l) (weight_qp l) (bias l) (input_qp l) (update (input_observer l) input).1 (in_features l) (out_features l).

Definition with_input_qp (l : QuantLinear X) (qp : QParams X) : QuantLinear X :=
  mkLinear (weight_q l) (weight_qp l) (bias l) (Some qp) (input_observer l) (in_features l) (out_features l).

Definition freeze_input_qp (l : QuantLinear X) : res QModuleError (QuantLinear X * QParams X) :=
  let? qp := map_err (λ _, ConvShape) (freeze (input_observer l)) in
  Ok (with_input_qp l qp, qp).

(** The loops that add the bias *)
Definition add_bias (b : list X) (batch out : nat) (output : list X) : res QModuleError (list X) :=
  for_range batch (λ output b_idx, for_range out (λ output o,
    let? cur := rd output (ix (b_idx * out + o)) in
    let? v := rd b o in
    put output (ix (b_idx * out + o)) (q_add cur v)) output) output.

Definition QuantLinear_forward (l : QuantLinear X) (input output : list X) (batch : nat) (qp : option (QParams X))
    : res QModuleError (list X) :=
  if negb (length input =? ix (batch * in_features l)) then Err (InputShape (ix (batch * in_features l)) (length input))
  else if negb (length output =? ix (batch * out_features l)) then
    Err (InputShape (ix (batch * out_features l)) (length output))
  else
    let qp := default IDENTITY (match qp with Some q => Some q | None => input_qp l end) in
    let? input_q := map_err (λ _, ConvShape) (quantize input (replicate (length input) 0%Z) qp) in
    let? output := map_err Gemm
        (gemm_int8_scalar input_q (weight_q l) output batch (in_features l) (out_features l) qp (weight_qp l)) in
    match bias l with
    | Some b => add_bias b batch (out_features l) output
    | None => Ok output
    end.

(** [conv2d_output_size]; a stride of 0 panics, and the subtraction wraps. *)
Definition conv2d_output_size {E} (h_in w_in : nat) (p : Conv2dParams) : res E (nat * nat) :=
  let out (d pad k s : nat) :=
    if s =? 0 then Panic
    else Ok (ix (Z.to_nat (wrap 64 (Z.of_nat d + 2 * Z.of_nat pad - Z.of_nat k)) / s + 1)) in
  let? h_out := out h_in (padding p).1 (kh p) (stride p).1 in
  let? w_out := out w_in (padding p).2 (kw p) (stride p).2 in
  Ok (h_out, w_out).

Definition QuantConv2d_from_f32 (weight_f32 : list X) (weight_qp : QParams X) (bias : option (list X))
    (c_out c_in : nat) (p : Conv2dParams) : res QModuleError (QuantConv2d X) :=
  if negb (length weight_f32 =? ix (c_out * c_in * kh p * kw p)) then Panic
  else
    let? weight_q := unwrap (quantize weight_f32 (replicate (length weight_f32) 0%Z) weight_qp) in
    Ok (mkConv weight_q weight_qp bias c_out c_in p).

(** [(o * stride + r) as isize - padding as isize] *)
Definition in_pos (o s r pad : nat) : Z :=
  swrap 64 (swrap 64 (Z.of_nat (o * s + r)) - swrap 64 (Z.of_nat pad)).

(** One element of the column matrix *)
Definition im2col_value {E} (l : QuantConv2d X) (input : list X) (n_idx h_in w_in h_o w_o c r s : nat) : res E X :=
  let p := params l in
  let h_i := in_pos h_o (stride p).1 r (padding p).1 in
  let w_i := in_pos w_o (stride p).2 s (padding p).2 in
  if (0 <=? h_i)%Z && (h_i <? Z.of_nat h_in)%Z && (0 <=? w_i)%Z && (w_i <? Z.of_nat w_in)%Z then
    rd input (ix (((n_idx * c_in l + c) * h_in + Z.to_nat h_i) * w_in + Z.to_nat w_i))
  else Ok zero.

Definition im2col {E} (l : QuantConv2d X) (input : list X) (n_idx h_in w_in h_out w_out : nat) : res E (list X) :=
  let p := params l in
  let cols_per_position := c_in l * kh p * kw p in
  for_range h_out (λ col h_o, for_range w_out (λ col w_o, for_range (c_in l) (λ col c,
    for_range (kh p) (λ col r, for_range (kw p) (λ col s,
      let? val := im2col_value l input n_idx h_in w_in h_o w_o c r s in
      put col (ix ((h_o * w_out + w_o) * cols_per_position + (c * kh p * kw p + r * kw p + s))) val) col) col) col) col)
    (replicate (h_out * w_out * cols_per_position) zero).

(** The weights as a matrix of one column per output channel *)
Definition transpose_weight {E} (weight_q : list Z) (k_dim n_out : nat) : res E (list Z) :=
  for_range n_out (λ wt c_o, for_range k_dim (λ wt kk,
    let? x := rd weight_q (ix (c_o * k_dim + kk)) in
    put wt (ix (kk * n_out + c_o)) x) wt) (replicate (k_dim * n_out) 0%Z).

(** The transposition of one image's result into the output *)
Definition write_image {E} (l : QuantConv2d X) (gemm_out : list X) (n_idx h_out w_out : nat) (output : list X)
    : res E (list X) :=
  let m := h_out * w_out in
  for_range (c_out l) (λ output c_o, for_range m (λ output hw,
    let? bias_v := match cv_bias l with Some b => rd b c_o | None => Ok zero end in
    let? v := rd gemm_out (ix (hw * c_out l + c_o)) in
    put output (ix ((n_idx * c_out l + c_o) * h_out * w_out + hw)) (q_add v bias_v)) output) output.

Definition conv_image (l : QuantConv2d X) (input : list X) (h_in w_in h_out w_out : nat) (input_qp : QParams X)
    (output : list X) (n_idx : nat) : res QModuleError (list X) :=
  let k_dim := c_in l * kh (params l) * kw (params l) in
  let m := h_out * w_out in
  let? col := im2col l input n_idx h_in w_in h_out w_out in
  let? col_q := map_err (λ _, ConvShape) (quantize col (replicate (length col) 0%Z) input_qp) in
  let? weight_t := transpose_weight (cv_weight_q l) k_dim (c_out l) in
  let? gemm_out := map_err Gemm
      (gemm_int8_scalar col_q weight_t (replicate (m * c_out l) zero) m k_dim (c_out l) input_qp (cv_weight_qp l)) in
  write_image l gemm_out n_idx h_out w_out output.

Definition QuantConv2d_forward (l : QuantConv2d X) (input output : list X) (n h_in w_in : nat) (input_qp : QParams X)
    : res QModuleError (list X) :=
  let expected_in := ix (n * c_in l * h_in * w_in) in
  if negb (length input =? expected_in) then Err (InputShape expected_in (length input))
  else
    let? hw := conv2d_output_size h_in w_in (params l) in
    let expected_out := ix (n * c_out l * hw.1 * hw.2) in
    if negb (length output =? expected_out) then Err (InputShape expected_out (length output))
    else for_range n (conv_image l input h_in w_in hw.1 hw.2 input_qp) output.

(** ** The workflow (workflow.rs) *)

(** The parameters of a weight buffer *)
Definition weight_params (weight : list X) : res ObserverError (QParams X) :=
  unwrap_or (freeze (update MinMaxObserver_new weight).1) IDENTITY.

Definition quantize_layer (layer : LayerSpec X) (act_qp : QParams X) : res WorkflowError (QuantLayer X) :=
  match layer with
  | Linear weight bias in_features out_features =>
      let? w_qp := unwrap (weight_params weight) in
      let? q := map_err ModuleError (QuantLinear_from_f32 weight w_qp bias in_features out_features) in
      Ok (QLinear (with_input_qp q act_qp))
  | Conv2d weight bias c_out c_in params =>
      let? w_qp := unwrap (weight_params weight) in
      let? q := map_err ModuleError (QuantConv2d_from_f32 weight w_qp bias c_out c_in params) in
      Ok (QConv2d q)
  end.

Definition quantize_model (layers : list (LayerSpec X)) (activation_observers : list (MinMaxObserver X))
    : res WorkflowError (list (QuantLayer X) * list (QParams X)) :=
  if negb (length layers =? length activation_observers) then
    Err (LayerCountMismatch (length layers) (length activation_observers))
  else
    rfold (λ acc lo,
      let? act_qp := unwrap (unwrap_or (freeze lo.2) IDENTITY) in
      let? q := quantize_layer lo.1 act_qp in
      Ok (acc.1 ++ [q], acc.2 ++ [act_qp])) ([], []) (zip layers activation_observers).

Definition f32_weight_bytes (layers : list (LayerSpec X)) : Z :=
  sum_u 64 ((λ l, wrap 64 (4 * Z.of_nat (match l with Linear w _ _ _ => length w | Conv2d w _ _ _ _ => length w end))) <$> layers).

Definition int8_weight_bytes (q_layers : list (QuantLayer X)) : Z :=
  sum_u 64 ((λ l, Z.of_nat (match l with QLinear q => length (weight_q q) | QConv2d q => length (cv_weight_q q) end)) <$> q_layers).
End layers.

Section run.
Context {X : Type} {QF : QFloat X}.

Local Notation zero := (q_of_int 0).

(** ** The linear layer *)

Definition linear_wf (l : QuantLinear X) : Prop :=
  length (weight_q l) = in_features l * out_features l ∧
  match bias l with Some b => length b = out_features l | None => True end.

Lemma add_bias_run (b : list X) batch out f : length b = out → (Z.of_nat (batch * out) < 2 ^ 64)%Z →
  add_bias b batch out (grid batch out f) = Ok (grid batch out (λ i o, q_add (f i o) (nth o b zero))).
Proof using Type.
  intros Hb Hfit. unfold add_bias. apply (grid_update batch out _ f (λ _ o v, q_add v (nth o b zero))).
  intros l i j x Hi Hj Hx. rewrite !ix_small by nia. unfold rd at 1. rewrite Hx. cbn [unwrap_opt rbind].
  by rewrite (rd_nth zero) by lia.
Qed.

(** The output of the layer for row [i] of the batch *)
Definition linear_value (l : QuantLinear X) (qp : QParams X) (input : list X) (i o : nat) : X :=
  let v := gemm_value (quantize_value qp <$> input) (weight_q l) (in_features l) (out_features l) qp (weight_qp l) i o in
  match bias l with Some b => q_add v (nth o b zero) | None => v end.

Lemma linear_run l input output batch qp : linear_wf l →
  length input = batch * in_features l → length output = batch * out_features l →
  (Z.of_nat (batch * in_features l) < 2 ^ 64 ∧ Z.of_nat (in_features l * out_features l) < 2 ^ 64 ∧
   Z.of_nat (batch * out_features l) < 2 ^ 64)%Z → bad_scale qp = false →
  QuantLinear_forward l input output batch (Some qp) = Ok (grid batch (out_features l) (linear_value l qp input)).
Proof using Type.
  intros [Hw Hb] Hi Ho (H1 & H2 & H3) Hs. unfold QuantLinear_forward.
  rewrite !ix_small, Hi, Ho, !Nat.eqb_refl by done. cbn [negb default].
  rewrite quantize_run by (by rewrite ?length_replicate). cbn [map_err rbind].
  rewrite gemm_run by (by rewrite ?length_fmap). cbn [map_err rbind].
  unfold linear_value. destruct (bias l) as [b|]; [|done]. by rewrite add_bias_run.
Qed.

(** ** The convolution *)

Definition conv_wf (l : QuantConv2d X) : Prop :=
  length (cv_weight_q l) = c_out l * (c_in l * kh (params l) * kw (params l)) ∧
  match cv_bias l with Some b => length b = c_out l | None => True end.

(** The element of the padded image *)
Definition padded_pixel (l : QuantConv2d X) (input : list X) (h_in w_in n_idx c : nat) (h_i w_i : Z) : X :=
  if (0 <=? h_i)%Z && (h_i <? Z.of_nat h_in)%Z && (0 <=? w_i)%Z && (w_i <? Z.of_nat w_in)%Z
  then nth (((n_idx * c_in l + c) * h_in + Z.to_nat h_i) * w_in + Z.to_nat w_i) input zero else zero.

Definition window_pixel (l : QuantConv2d X) (input : list X) (h_in w_in n_idx h_o w_o c r s : nat) : X :=
  let p := params l in
  padded_pixel l input h_in w_in n_idx c (Z.of_nat (h_o * (stride p).1 + r) - Z.of_nat (padding p).1)
    (Z.of_nat (w_o * (stride p).2 + s) - Z.of_nat (padding p).2).

Section image.
Context (l : QuantConv2d X) (input : list X) (n h_in w_in h_out w_out : nat).
Local Notation kh := (kh (params l)).
Local Notation kw := (kw (params l)).
Local Notation sh := (stride (params l)).1.
Local Notation sw := (stride (params l)).2.
Local Notation K := (c_in l * kh * kw).
(** The column matrix, a row per position and a column per window element *)
Definition columns (n_idx : nat) : list X :=
  concat ((λ h_o, concat ((λ w_o, concat ((λ c, concat ((λ r,
    window_pixel l input h_in w_in n_idx h_o w_o c r <$> List.seq 0 kw) <$> List.seq 0 kh)) <$> List.seq 0 (c_in l)))
      <$> List.seq 0 w_out)) <$> List.seq 0 h_out).

Lemma length_window (f : nat → nat → nat → X) :
  length (concat ((λ c, concat ((λ r, f c r <$> List.seq 0 kw) <$> List.seq 0 kh)) <$> List.seq 0 (c_in l))) = K.
Proof using Type.
  rewrite (length_blocks_seq _ (kh * kw)); [lia|]. intros c _. apply length_blocks_seq. intros r _.
  by rewrite length_fmap, length_seq.
Qed.

Lemma length_columns n_idx : length (columns n_idx) = h_out * w_out * K.
Proof using Type.
  unfold columns. rewrite (length_blocks_seq _ (w_out * K)); [lia|]. intros h_o _.
  apply length_blocks_seq. intros w_o _. apply length_window.
Qed.

Lemma columns_lookup n_idx h_o w_o c r s : h_o < h_out → w_o < w_out → c < c_in l → r < kh → s < kw →
  columns n_idx !! ((h_o * w_out + w_o) * K + ((c * kh + r) * kw + s)) =
  Some (window_pixel l input h_in w_in n_idx h_o w_o c r s).
Proof using Type.
  intros Hh Hw Hc Hr Hs. unfold columns.
  replace ((h_o * w_out + w_o) * K + ((c * kh + r) * kw + s))
    with (h_o * (w_out * K) + (w_o * K + (c * (kh * kw) + (r * kw + s)))) by ring.
  assert (r * kw + s < kh * kw) by (by apply digit_lt).
  assert (c * (kh * kw) + (r * kw + s) < K) by (replace K with (c_in l * (kh * kw)) by ring; by apply digit_lt).
  assert (w_o * K + (c * (kh * kw) + (r * kw + s)) < w_out * K) by (by apply digit_lt).
  rewrite lookup_concat_blocks; [|intros; apply length_blocks_seq; intros; apply length_window|done|done].
  rewrite lookup_concat_blocks; [|intros; apply length_window|done|done].
  rewrite lookup_concat_blocks; [|intros; apply length_blocks_seq; intros; by rewrite length_fmap, length_seq|done|done].
  rewrite lookup_concat_blocks; [|intros; by rewrite length_fmap, length_seq|done|done].
  by rewrite list_lookup_fmap, lookup_seq_lt.
Qed.

Context (wf : conv_wf l) (input_len : length input = n * c_in l * h_in * w_in).
Context (in_fits : (Z.of_nat (n * c_in l * h_in * w_in) < 2 ^ 64)%Z).
Context (out_fits : (Z.of_nat (n * c_out l * h_out * w_out) < 2 ^ 64)%Z).
Context (col_fits : (Z.of_nat (h_out * w_out * K) < 2 ^ 64)%Z) (gemm_fits : (Z.of_nat (h_out * w_out * c_out l) < 2 ^ 64)%Z).
Context (weight_fits : (Z.of_nat (K * c_out l) < 2 ^ 64)%Z).
Context (h_fits : (Z.of_nat (h_out * sh + kh) < 2 ^ 63)%Z) (w_fits : (Z.of_nat (w_out * sw + kw) < 2 ^ 63)%Z).
Context (ph_fits : (Z.of_nat (padding (params l)).1 < 2 ^ 63)%Z) (pw_fits : (Z.of_nat (padding (params l)).2 < 2 ^ 63)%Z).

Lemma in_pos_small o s r k pad out : o < out → r < k → (Z.of_nat (out * s + k) < 2 ^ 63 → Z.of_nat pad < 2 ^ 63 →
  in_pos o s r pad = Z.of_nat (o * s + r) - Z.of_nat pad)%Z.
Proof using Type.
  clear. intros Ho Hr H Hp. assert (o * s + r < out * s + k) by nia. unfold in_pos.
  rewrite (swrap_small 64 (Z.of_nat (o * s + r))), (swrap_small 64 (Z.of_nat pad)) by (unfold sint; lia).
  rewrite swrap_small by (unfold sint; lia). done.
Qed.

Lemma im2col_value_run {E} n_idx h_o w_o c r s : n_idx < n → h_o < h_out → w_o < w_out → c < c_in l → r < kh → s < kw →
  im2col_value (E := E) l input n_idx h_in w_in h_o w_o c r s = Ok (window_pixel l input h_in w_in n_idx h_o w_o c r s).
Proof using All.
  intros Hn Hh Hw Hc Hr Hs. unfold im2col_value, window_pixel, padded_pixel.
  rewrite (in_pos_small h_o _ r kh _ h_out), (in_pos_small w_o _ s kw _ w_out) by done.
  set (hi := (Z.of_nat (h_o * sh + r) - _)%Z). set (wi := (Z.of_nat (w_o * sw + s) - _)%Z).
  destruct (_ && _) eqn:Hb; [|done]. apply andb_true_iff in Hb as [[[H1 H2]%andb_true_iff H3]%andb_true_iff H4].
  apply Z.leb_le in H1, H3. apply Z.ltb_lt in H2, H4.
  assert (((n_idx * c_in l + c) * h_in + Z.to_nat hi) * w_in + Z.to_nat wi < n * c_in l * h_in * w_in).
  { apply digit_lt; [|lia]. apply digit_lt; [|lia]. by apply digit_lt. }
  rewrite ix_small by lia. apply rd_nth. lia.
Qed.

Lemma im2col_run {E} n_idx : n_idx < n → im2col (E := E) l input n_idx h_in w_in h_out w_out = Ok (columns n_idx).
Proof using All.
  intros Hn. unfold im2col. set (L := replicate _ _).
  assert (length L = h_out * w_out * K) as HL by apply length_replicate. clearbody L.
  match goal with |- for_range ?m ?b L = _ =>
    assert (fills (for_range m b) 0 (columns n_idx)) as H end.
  - apply (fills_for h_out (w_out * K)); [intros; apply length_blocks_seq; intros; apply length_window|]. intros h_o Hh.
    apply (fills_for w_out K); [intros; apply length_window|]. intros w_o Hw.
    apply (fills_for (c_in l) (kh * kw)); [intros; apply length_blocks_seq; intros; by rewrite length_fmap, length_seq|].
    intros c Hc. apply (fills_for kh kw); [intros; by rewrite length_fmap, length_seq|]. intros r Hr.
    apply row_loop. intros col s Hs. rewrite im2col_value_run by done. cbn [rbind].
    assert ((h_o * w_out + w_o) * K + ((c * kh + r) * kw + s) < h_out * w_out * K).
    { apply digit_lt; [by apply digit_lt|]. replace K with (c_in l * kh * kw) by ring.
      apply digit_lt; [by apply digit_lt|done]. }
    replace ((h_o * w_out + w_o) * K + (c * kh * kw + r * kw + s))
      with ((h_o * w_out + w_o) * K + ((c * kh + r) * kw + s)) by ring.
    rewrite ix_small by lia. f_equal. ring.
  - rewrite (H L) by (rewrite length_columns; lia). simpl. rewrite length_columns, drop_ge by lia. by rewrite app_nil_r.
Qed.

(** The weights with a column per output channel *)
Definition weight_columns : list Z := grid K (c_out l) (λ kk c_o, nth (c_o * K + kk) (cv_weight_q l) 0%Z).

Lemma transpose_weight_run {E} : transpose_weight (E := E) (cv_weight_q l) K (c_out l) = Ok weight_columns.
Proof using All.
  destruct wf as [Hw _]. unfold transpose_weight. apply grid_loop_cols; [apply length_replicate|].
  intros wt kk c_o Hk Hc. assert (c_o * K + kk < c_out l * K) by (by apply digit_lt).
  assert (kk * c_out l + c_o < K * c_out l) by (by apply digit_lt).
  rewrite !ix_small by lia. by rewrite (rd_nth 0%Z) by lia.
Qed.

Context (qp : QParams X) (qp_ok : bad_scale qp = false).

Definition bias_at (c_o : nat) : X := match cv_bias l with Some b => nth c_o b zero | None => zero end.

(** The exact integer sum over the window *)
Definition window_sum (n_idx c_o h_o w_o : nat) : Z :=
  bsum (c_in l) (λ c, bsum kh (λ r, bsum kw (λ s,
    (quantize_value qp (window_pixel l input h_in w_in n_idx h_o w_o c r s) - zero_point qp) *
    (nth (c_o * K + ((c * kh + r) * kw + s)) (cv_weight_q l) 0 - zero_point (cv_weight_qp l)))))%Z.

Lemma window_sum_dot n_idx c_o h_o w_o : h_o < h_out → w_o < w_out → c_o < c_out l →
  dot_exact (quantize_value qp <$> columns n_idx) weight_columns K (c_out l) (zero_point qp) (zero_point (cv_weight_qp l))
    (h_o * w_out + w_o) c_o = window_sum n_idx c_o h_o w_o.
Proof using Type.
  intros Hh Hw Hc. unfold dot_exact, window_sum. replace K with (c_in l * (kh * kw)) at 1 by ring.
  rewrite bsum_product. apply bsum_ext. intros c Hci. rewrite bsum_product. apply bsum_ext. intros r Hr.
  apply bsum_ext. intros s Hs. replace (c * (kh * kw) + (r * kw + s)) with ((c * kh + r) * kw + s) by ring.
  assert ((c * kh + r) * kw + s < K) by (apply digit_lt; [by apply digit_lt|done]).
  f_equal; f_equal; apply nth_lookup_Some.
  - by rewrite list_lookup_fmap, columns_lookup.
  - unfold weight_columns. by rewrite lookup_grid.
Qed.

(** An element of the result *)
Definition conv_value (n_idx c_o h_o w_o : nat) : X :=
  q_add (q_mul (q_of_int (swrap 32 (window_sum n_idx c_o h_o w_o))) (q_mul (scale qp) (scale (cv_weight_qp l)))) (bias_at c_o).

Definition image_rows (n_idx c_o : nat) : list X := grid h_out w_out (conv_value n_idx c_o).

Lemma conv_image_fills n_idx : n_idx < n →
  fills (λ output, conv_image l input h_in w_in h_out w_out qp output n_idx) (n_idx * (c_out l * (h_out * w_out)))
    (concat (image_rows n_idx <$> List.seq 0 (c_out l))).
Proof using All.
  intros Hn. destruct wf as [Hw Hb].
  set (G := grid (h_out * w_out) (c_out l) (gemm_value (quantize_value qp <$> columns n_idx) weight_columns K (c_out l) qp (cv_weight_qp l))).
  apply (fills_ext _ (write_image l G n_idx h_out w_out)).
  { intros out. unfold conv_image. rewrite im2col_run by done. cbn [rbind].
    rewrite quantize_run by (by rewrite ?length_replicate). cbn [map_err rbind]. rewrite transpose_weight_run. cbn [rbind].
    rewrite gemm_run; [done|by rewrite length_fmap, length_columns|apply length_grid|apply length_replicate|done..]. }
  apply (fills_for (c_out l) (h_out * w_out)); [intros; apply length_grid|]. intros c_o Hc.
  replace (image_rows n_idx c_o) with ((λ hw, q_add (nth (hw * c_out l + c_o) G zero) (bias_at c_o)) <$> List.seq 0 (h_out * w_out)).
  - apply row_loop. intros output hw Hhw.
    assert (hw * c_out l + c_o < h_out * w_out * c_out l) by (by apply digit_lt).
    assert ((n_idx * c_out l + c_o) * (h_out * w_out) + hw < n * c_out l * (h_out * w_out))
      by (apply digit_lt; [by apply digit_lt|done]).
    rewrite (rd_nth zero G) by (unfold G; by rewrite length_grid, ix_small by lia). rewrite !ix_small by lia.
    unfold bias_at. destruct (cv_bias l) as [b|]; [rewrite (rd_nth zero) by lia|]; cbn [rbind]; f_equal; ring.
  - unfold image_rows. rewrite seq_rows. unfold grid. f_equal. apply list_fmap_ext. intros h_o a [-> Hh]%lookup_seq.
    apply list_fmap_ext. intros w_o b' [-> Hwo]%lookup_seq. unfold conv_value. do 2 f_equal.
    assert (h_o * w_out + w_o < h_out * w_out) by (by apply digit_lt).
    apply nth_lookup_Some. unfold G. rewrite lookup_grid by done. unfold gemm_value. by rewrite window_sum_dot.
Qed.
End image.

(** The sizes of a call that fits the machine *)
Record conv_sizes (l : QuantConv2d X) (n h_in w_in h_out w_out : nat) : Prop := mkSizes {
  cs_stride_h : 0 < (stride (params l)).1; cs_stride_w : 0 < (stride (params l)).2;
  cs_kernel_h : kh (params l) ≤ h_in + 2 * (padding (params l)).1;
  cs_kernel_w : kw (params l) ≤ w_in + 2 * (padding (params l)).2;
  cs_h_out : h_out = (h_in + 2 * (padding (params l)).1 - kh (params l)) / (stride (params l)).1 + 1;
  cs_w_out : w_out = (w_in + 2 * (padding (params l)).2 - kw (params l)) / (stride (params l)).2 + 1;
  cs_h : (Z.of_nat (h_in + 2 * (padding (params l)).1 + (stride (params l)).1) < 2 ^ 63)%Z;
  cs_w : (Z.of_nat (w_in + 2 * (padding (params l)).2 + (stride (params l)).2) < 2 ^ 63)%Z;
  cs_in : (Z.of_nat (n * c_in l * h_in * w_in) < 2 ^ 64)%Z;
  cs_out : (Z.of_nat (n * c_out l * h_out * w_out) < 2 ^ 64)%Z;
  cs_col : (Z.of_nat (h_out * w_out * (c_in l * kh (params l) * kw (params l))) < 2 ^ 64)%Z;
  cs_gemm : (Z.of_nat (h_out * w_out * c_out l) < 2 ^ 64)%Z;
  cs_weight : (Z.of_nat (c_in l * kh (params l) * kw (params l) * c_out l) < 2 ^ 64)%Z
}.

Lemma out_size_bound d pad k s out : 0 < s → k ≤ d + 2 * pad → out = (d + 2 * pad - k) / s + 1 →
  out * s + k ≤ d + 2 * pad + s.
Proof using Type. intros Hs Hk ->. pose proof (Nat.Div0.mul_div_le (d + 2 * pad - k) s). nia. Qed.

Lemma output_size_run {E} l n h_in w_in h_out w_out : conv_sizes l n h_in w_in h_out w_out →
  conv2d_output_size (E := E) h_in w_in (params l) = Ok (h_out, w_out).
Proof using Type.
  intros []. pose proof (out_size_bound _ _ _ _ _ cs_stride_h0 cs_kernel_h0 cs_h_out0).
  pose proof (out_size_bound _ _ _ _ _ cs_stride_w0 cs_kernel_w0 cs_w_out0).
  unfold conv2d_output_size. rewrite !(proj2 (Nat.eqb_neq _ _)) by lia. cbn [rbind].
  rewrite !wrap_small by (unfold uint; lia).
  replace (Z.to_nat (Z.of_nat h_in + 2 * _ - _)) with (h_in + 2 * (padding (params l)).1 - kh (params l)) by lia.
  replace (Z.to_nat (Z.of_nat w_in + 2 * _ - _)) with (w_in + 2 * (padding (params l)).2 - kw (params l)) by lia.
  rewrite <- cs_h_out0, <- cs_w_out0, !ix_small; [done|nia|nia].
Qed.

Lemma conv_run l input output n h_in w_in h_out w_out qp : conv_wf l → conv_sizes l n h_in w_in h_out w_out →
  length input = n * c_in l * h_in * w_in → length output = n * c_out l * h_out * w_out → bad_scale qp = false →
  QuantConv2d_forward l input output n h_in w_in qp =
  Ok (concat ((λ n_idx, concat (image_rows l input h_in w_in h_out w_out qp n_idx <$> List.seq 0 (c_out l))) <$> List.seq 0 n)).
Proof using Type.
  intros Hwf Hs Hi Ho Hqp. pose proof (output_size_run (E := QModuleError) _ _ _ _ _ _ Hs) as Hout.
  destruct Hs. pose proof (out_size_bound _ _ _ _ _ cs_stride_h0 cs_kernel_h0 cs_h_out0).
  pose proof (out_size_bound _ _ _ _ _ cs_stride_w0 cs_kernel_w0 cs_w_out0).
  unfold QuantConv2d_forward. rewrite !ix_small, Hi, Nat.eqb_refl by done. cbn [negb]. rewrite Hout. cbn [rbind fst snd].
  rewrite ix_small, Ho, Nat.eqb_refl by done. cbn [negb].
  assert (length (concat ((λ n_idx, concat (image_rows l input h_in w_in h_out w_out qp n_idx <$> List.seq 0 (c_out l))) <$> List.seq 0 n))
    = n * (c_out l * (h_out * w_out))) as Hlen
    by (apply length_blocks_seq; intros; apply length_blocks_seq; intros; apply length_grid).
  rewrite (fills_for n (c_out l * (h_out * w_out)) 0 _
    (λ n_idx, concat (image_rows l input h_in w_in h_out w_out qp n_idx <$> List.seq 0 (c_out l)))).
  - rewrite Hlen, drop_ge by (rewrite Ho; nia). by rewrite app_nil_r.
  - intros i Hin. apply length_blocks_seq. intros. apply length_grid.
  - intros i Hin. apply (conv_image_fills l input n); done || lia.
  - rewrite Hlen, Ho. nia.
Qed.
End run.

(** C29: The quantized convolution equals the direct one: for positive strides, a kernel no larger
    than the padded image, a positive finite scale, buffers of the declared sizes and sizes
    that fit the machine it returns, and every element of the output whose integer sum (over
    the channels and the window, of (quantized pixel - zero point) times (weight - zero
    point), zero outside the image) fits the 32-bit accumulator is that sum, converted,
    multiplied by both scales, plus the bias of its channel.  So the column matrix, the two
    transpositions and the layout of batches and channels are right. *)
Theorem quant_conv_correct {X} {QF : QFloat X} (l : QuantConv2d X) input output n h_in w_in h_out w_out qp :
  conv_wf l → conv_sizes l n h_in w_in h_out w_out →
  length input = n * c_in l * h_in * w_in → length output = n * c_out l * h_out * w_out → bad_scale qp = false →
  ∃ out, QuantConv2d_forward l input output n h_in w_in qp = Ok out ∧ length out = length output ∧
    ∀ n_idx c_o h_o w_o, n_idx < n → c_o < c_out l → h_o < h_out → w_o < w_out →
      let sum := window_sum l input h_in w_in qp n_idx c_o h_o w_o in
      sint 32 sum →
      out !! (((n_idx * c_out l + c_o) * h_out + h_o) * w_out + w_o) =
      Some (q_add (q_mul (q_of_int sum) (q_mul (scale qp) (scale (cv_weight_qp l)))) (bias_at l c_o)).
Proof.
  intros Hwf Hs Hi Ho Hqp. eexists. split; [by apply (conv_run _ _ _ _ _ _ h_out w_out)|]. split.
  { rewrite (length_blocks_seq _ (c_out l * (h_out * w_out))); [lia|]. intros i _.
    apply length_blocks_seq. intros. apply length_grid. }
  intros n_idx c_o h_o w_o Hn Hc Hh Hw sum Hsum.
  replace (((n_idx * c_out l + c_o) * h_out + h_o) * w_out + w_o)
    with (n_idx * (c_out l * (h_out * w_out)) + (c_o * (h_out * w_out) + (h_o * w_out + w_o))) by ring.
  assert (h_o * w_out + w_o < h_out * w_out) by (by apply digit_lt).
  assert (c_o * (h_out * w_out) + (h_o * w_out + w_o) < c_out l * (h_out * w_out)) by (by apply digit_lt).
  rewrite lookup_concat_blocks; [|intros; apply length_blocks_seq; intros; apply length_grid|done|done].
  rewrite lookup_concat_blocks; [|intros; apply length_grid|done|done].
  etransitivity; [by apply lookup_grid|]. unfold conv_value. by rewrite swrap_small.
Qed.

(** A 3x3 image, one channel, a 2x2 kernel with padding 1 and stride 2 *)
Definition demo_conv : QuantConv2d Z :=
  mkConv [1; 2; 3; 4]%Z (mkQ 0x3f800000 0)%Z (Some [0x3f800000]%Z) 1 1 (mkConvParams 2 2 (2, 2) (1, 1)).
Definition demo_pixels : list Z := fof_int binary32 <$> [1; 2; 3; 4; 5; 6; 7; 8; 9]%Z.

Lemma quant_conv_correct_witness :
  ∃ out, QuantConv2d_forward demo_conv demo_pixels [0; 0; 0; 0]%Z 1 3 3 (mkQ 0x3f800000 0)%Z = Ok out ∧
    out = fof_int binary32 <$> [5; 19; 37; 78]%Z.
Proof.
  destruct (quant_conv_correct demo_conv demo_pixels [0; 0; 0; 0]%Z 1 3 3 2 2 (mkQ 0x3f800000 0)%Z) as (out & H & _ & Hl).
  - by split.
  - split; simpl; try lia; reflexivity.
  - reflexivity.
  - reflexivity.
  - vm_compute. reflexivity.
  - exists out. split; [exact H|].
    vm_compute in H. injection H as <-. vm_compute. reflexivity.
Defined.
