(* ===== verification/QuantReal.v ===== *)
(** * Quantization errors over the reals

    [Quant] and [QuantLayers] with exact real arithmetic (and the infinities and
    NaN): a calibrated observer bounds every value it saw, a value in range comes
    back within half a scale, and the quantized linear layer stays within the sum
    of those errors of the layer it replaces. *)

From Stdlib Require Import ZArith Reals Lra Lia.
From stdpp Require Import base list.
From S2P Require Import Prelude Loops XReal Quant QuantLayers.

Open Scope R_scope.

(** ** The instance *)

Definition x_min (x y : xreal) : xreal :=
  match x, y with
  | NAN, z | z, NAN => z
  | _, _ => if x_gt x y then y else x
  end.
Definition x_abs (x : xreal) : xreal :=
  match x with FIN a => FIN (Rabs a) | PINF | NINF => PINF | NAN => NAN end.
(** Rounding to an integer by [g] *)
Definition x_int (g : R → Z) (x : xreal) : xreal := match x with FIN a => FIN (IZR (g a)) | _ => x end.
Definition round_away (a : R) : Z := if Rle_dec 0 a then Int_part (a + / 2) else (- Int_part (- a + / 2))%Z.
Definition trunc (a : R) : Z := if Rle_dec 0 a then Int_part a else (- Int_part (- a))%Z.
(** [as] an integer of a range, saturating *)
Definition x_to_int (lo hi : Z) (x : xreal) : Z :=
  match x with FIN a => Z.max lo (Z.min hi (trunc a)) | PINF => hi | NINF => lo | NAN => 0%Z end.

#[export] Instance xreal_qfloat : QFloat xreal := {|
  q_of_int z := FIN (IZR z);
  q_half := FIN (/ 2); q_eps := FIN (/ 10 ^ 9); q_inf := PINF; q_neg_inf := NINF;
  q_add := x_add; q_sub := x_sub; q_mul := x_mul; q_div := x_div; q_min := x_min; q_max := x_max;
  q_neg := x_neg; q_abs := x_abs; q_floor := x_int Int_part; q_round := x_int round_away;
  q_lt x y := x_gt y x; q_le x y := x_gt y x || x_eq x y; q_eq := x_eq;
  q_is_finite x := match x with FIN _ => true | _ => false end;
  q_to_i32 := x_to_int (- 2 ^ 31) (2 ^ 31 - 1); q_to_usize := x_to_int 0 (2 ^ 64 - 1)
|}.

(** ** Rounding *)

Lemma trunc_int z : trunc (IZR z) = z.
Proof. unfold trunc. destruct (Rle_dec 0 (IZR z)); [apply Int_part_int|]. rewrite <- opp_IZR, Int_part_int. lia. Qed.

Lemma to_i32_int z : (- 2 ^ 31 ≤ z < 2 ^ 31)%Z → q_to_i32 (FIN (IZR z)) = z.
Proof. intros. cbn [q_to_i32 xreal_qfloat x_to_int]. rewrite trunc_int. lia. Qed.

Lemma abs_between a b : Rabs a <= b ↔ - b <= a <= b.
Proof. split; [unfold Rabs; destruct (Rcase_abs a); lra|intros; apply Rabs_le; lra]. Qed.

Lemma round_half_unfold a : round_half_to_even (FIN a) =
  let f := Int_part a in
  if Rgtb (/ 2) (a + - IZR f) then q_to_i32 (FIN (IZR f))
  else if Rgtb (a + - IZR f) (/ 2) then q_to_i32 (FIN (IZR f + 1))
  else if (Z.rem (q_to_i32 (FIN (IZR f))) 2 =? 0)%Z then q_to_i32 (FIN (IZR f)) else swrap 32 (q_to_i32 (FIN (IZR f)) + 1).
Proof. reflexivity. Qed.

(** The rounding of [quantize] goes to a nearest integer. *)
Lemma round_half_nearest a : Rabs a <= 1000 → Rabs (IZR (round_half_to_even (FIN a)) - a) <= / 2.
Proof.
  intros Ha%abs_between. destruct (Int_part_bounds a) as [Hl Hu]. rewrite round_half_unfold. set (f := Int_part a) in *.
  assert (- 1001 < f)%Z by (apply lt_IZR; lra). assert (f ≤ 1000)%Z by (apply le_IZR; lra). cbv zeta.
  rewrite <- plus_IZR, !to_i32_int by lia. unfold Rgtb.
  destruct (Rlt_dec (a + - IZR f) (/ 2)); [apply Rabs_le; lra|].
  destruct (Rlt_dec (/ 2) (a + - IZR f)); [rewrite plus_IZR; apply Rabs_le; lra|].
  destruct (_ =? 0)%Z; [apply Rabs_le; lra|]. rewrite swrap_small by (unfold sint; lia). rewrite plus_IZR. apply Rabs_le. lra.
Qed.

(** ** Quantizing a value *)

Section value.
Context (s : R) (zp : Z) (s_pos : 0 < s).
Local Notation qp := (mkQ (FIN s) zp).

Lemma good_scale : bad_scale qp = false.
Proof using s_pos.
  unfold bad_scale. cbn. rewrite Rgtb_false by lra. rewrite Reqb_false by lra. done.
Qed.

Lemma quantize_unfold x : quantize_value qp (FIN x) = clamp (round_half_to_even (FIN (x / s + IZR zp))) (-128) 127.
Proof using s_pos. unfold quantize_value. cbn -[round_half_to_even]. by rewrite Reqb_false by lra. Qed.

Lemma quantize_in_range x (lo hi : Z) : (-128 ≤ lo ∧ hi ≤ 127)%Z → IZR lo <= x / s + IZR zp <= IZR hi →
  (lo ≤ quantize_value qp (FIN x) ≤ hi)%Z ∧ Rabs (IZR (quantize_value qp (FIN x)) - (x / s + IZR zp)) <= / 2.
Proof using s_pos.
  intros [Hlo Hhi] [H1 H2]. rewrite quantize_unfold. set (v := x / s + IZR zp) in *.
  assert (-128 <= IZR lo) by (by apply IZR_le). assert (IZR hi <= 127) by (by apply IZR_le).
  pose proof (round_half_nearest v ltac:(apply abs_between; lra)) as Hn. set (q := round_half_to_even (FIN v)) in *.
  pose proof (proj1 (abs_between _ _) Hn).
  assert (lo - 1 < q)%Z by (apply lt_IZR; rewrite minus_IZR; lra).
  assert (q < hi + 1)%Z by (apply lt_IZR; rewrite plus_IZR; lra).
  unfold clamp. rewrite !(proj2 (Z.ltb_ge _ _)) by lia. split; [lia|done].
Qed.

(** The documented error of a round trip *)
Lemma dequantize_unfold q : (- 2 ^ 31 ≤ q - zp < 2 ^ 31)%Z → dequantize_value qp q = FIN (IZR (q - zp) * s).
Proof using Type. intros. unfold dequantize_value. cbn [zero_point scale q_mul q_of_int xreal_qfloat]. by rewrite swrap_small by (unfold sint; lia). Qed.

Lemma dequantize_near x q : Rabs (IZR q - (x / s + IZR zp)) <= / 2 → Rabs (IZR (q - zp) * s - x) <= s / 2.
Proof using s_pos.
  intros H. rewrite minus_IZR. replace ((IZR q - IZR zp) * s - x) with ((IZR q - (x / s + IZR zp)) * s) by (field; lra).
  rewrite Rabs_mult, (Rabs_pos_eq s) by lra. nra.
Qed.
End value.

(** ** Calibration *)

(** The order of the values other than NaN *)
Definition x_le (x y : xreal) : Prop := x_gt x y = false.

Definition not_nan (x : xreal) : Prop := x ≠ NAN.

Lemma Rgtb_spec x y : Bool.reflect (y < x) (Rgtb x y).
Proof. unfold Rgtb. destruct (Rlt_dec y x); by constructor. Qed.

Lemma nan_or x : x = NAN ∨ not_nan x.
Proof. by destruct x; (by left) || (by right). Qed.

Lemma x_le_refl x : x_le x x.
Proof. destruct x; try done. unfold x_le. simpl. apply Rgtb_false. lra. Qed.

Lemma x_le_trans x y z : not_nan x → not_nan y → not_nan z → x_le x y → x_le y z → x_le x z.
Proof.
  unfold x_le, not_nan. destruct x as [a| | |], y as [b| | |], z as [c| | |]; simpl; intros; try done.
  destruct (Rgtb_spec a b), (Rgtb_spec b c), (Rgtb_spec a c); done || lra.
Qed.

Lemma x_min_spec x y : not_nan x → not_nan y → x_le (x_min x y) x ∧ x_le (x_min x y) y ∧ (x_min x y = x ∨ x_min x y = y).
Proof.
  intros Hx Hy. unfold x_min. destruct (x_gt x y) eqn:H.
  - replace (match x, y with NAN, z | z, NAN => z | _, _ => y end) with y by (destruct x, y; done).
    split; [|split; [apply x_le_refl|by right]]. unfold x_le. destruct x as [a| | |], y as [b| | |]; try done. simpl in *.
    destruct (Rgtb_spec a b), (Rgtb_spec b a); done || lra.
  - replace (match x, y with NAN, z | z, NAN => z | _, _ => x end) with x by (destruct x, y; done).
    split; [apply x_le_refl|]. split; [done|by left].
Qed.

Lemma x_max_spec x y : not_nan x → not_nan y → x_le x (x_max x y) ∧ x_le y (x_max x y) ∧ (x_max x y = x ∨ x_max x y = y).
Proof.
  intros Hx Hy. unfold x_max. destruct (x_gt x y) eqn:H.
  - replace (match x, y with NAN, z | z, NAN => z | _, _ => x end) with x by (destruct x, y; done).
    split; [apply x_le_refl|]. split; [|by left]. unfold x_le. destruct x as [a| | |], y as [b| | |]; try done. simpl in *.
    destruct (Rgtb_spec a b), (Rgtb_spec b a); done || lra.
  - replace (match x, y with NAN, z | z, NAN => z | _, _ => y end) with y by (destruct x, y; done).
    split; [done|]. split; [apply x_le_refl|by right].
Qed.

(** What an observer knows of the values [vs] it has seen *)
Record observed (vs : list xreal) (o : MinMaxObserver xreal) : Prop := mkObserved {
  ob_min : not_nan (o_min o); ob_max : not_nan (o_max o);
  ob_low : ∀ x, x ∈ vs → not_nan x → x_le (o_min o) x;
  ob_high : ∀ x, x ∈ vs → not_nan x → x_le x (o_max o);
  ob_min_in : o_min o = PINF ∨ o_min o ∈ vs;
  ob_max_in : o_max o = NINF ∨ o_max o ∈ vs;
  ob_seen : o_seen o = Z.of_nat (finite_count vs)
}.

Lemma observed_new : observed [] MinMaxObserver_new.
Proof. split; try done; try (by left); by intros x ?%elem_of_nil. Qed.

Lemma min_max_fold vs mn mx : not_nan mn → not_nan mx →
  let r := foldl (λ '(mn, mx) x, (q_min mn x, q_max mx x)) (mn, mx) vs in
  not_nan r.1 ∧ not_nan r.2 ∧ x_le r.1 mn ∧ x_le mx r.2 ∧
  (∀ x, x ∈ vs → not_nan x → x_le r.1 x ∧ x_le x r.2) ∧ (r.1 = mn ∨ r.1 ∈ vs) ∧ (r.2 = mx ∨ r.2 ∈ vs).
Proof.
  revert mn mx. induction vs as [|v vs IH]; intros mn mx Hmn Hmx; cbv zeta; cbn [foldl].
  { split_and!; try done; try apply x_le_refl; try (by left). by intros x ?%elem_of_nil. }
  change (q_min mn v) with (x_min mn v). change (q_max mx v) with (x_max mx v).
  destruct (nan_or v) as [->|Hv].
  - replace (x_min mn NAN) with mn by (by destruct mn). replace (x_max mx NAN) with mx by (by destruct mx).
    destruct (IH mn mx Hmn Hmx) as (H1 & H2 & H3 & H4 & H5 & H6 & H7). split_and!; try done.
    + intros x [->|Hx]%elem_of_cons Hn; [done|by apply H5].
    + destruct H6; [by left|right; by right].
    + destruct H7; [by left|right; by right].
  - destruct (x_min_spec mn v Hmn Hv) as (Ha & Hb & Hc). destruct (x_max_spec mx v Hmx Hv) as (Ha' & Hb' & Hc').
    assert (not_nan (x_min mn v)) as Hm1 by (destruct Hc as [->| ->]; done).
    assert (not_nan (x_max mx v)) as Hm2 by (destruct Hc' as [->| ->]; done).
    destruct (IH _ _ Hm1 Hm2) as (H1 & H2 & H3 & H4 & H5 & H6 & H7). split_and!; try done.
    + by apply (x_le_trans _ (x_min mn v)).
    + by apply (x_le_trans _ (x_max mx v)).
    + intros x [->|Hx]%elem_of_cons Hn; [|by apply H5].
      split; [by apply (x_le_trans _ (x_min mn v))|by apply (x_le_trans _ (x_max mx v))].
    + destruct H6 as [->|]; [destruct Hc as [->| ->]; [by left|right; by left]|right; by right].
    + destruct H7 as [->|]; [destruct Hc' as [->| ->]; [by left|right; by left]|right; by right].
Qed.

Lemma finite_fold (vs : list xreal) (n f : Z) :
  foldl (λ '(nans, fin) x, if q_is_finite x then (nans, fin + 1)%Z else (nans + 1, fin)%Z) (n, f) vs =
  (n + Z.of_nat (length vs - finite_count vs), f + Z.of_nat (finite_count vs))%Z.
Proof.
  revert n f. induction vs as [|v vs IH]; intros n f; [unfold finite_count; simpl; f_equal; lia|].
  pose proof (finite_count_le vs). cbn [foldl]. unfold finite_count in *. cbn [List.filter].
  destruct (q_is_finite v); rewrite IH; cbn [length]; f_equal; lia.
Qed.

Lemma observed_update vs ws o : observed vs o → (Z.of_nat (length (vs ++ ws)) < 2 ^ 64)%Z → observed (vs ++ ws) (update o ws).1.
Proof.
  intros [Hmin Hmax Hlow Hhigh Hin1 Hin2 Hseen] Hfit. unfold update.
  pose proof (min_max_fold ws _ _ Hmin Hmax) as H. cbv zeta in H.
  destruct (foldl (λ '(mn, mx) x, (q_min mn x, q_max mx x)) (o_min o, o_max o) ws) as [mn mx]. rewrite finite_fold.
  cbn [fst snd] in *. destruct H as (H1 & H2 & H3 & H4 & H5 & H6 & H7).
  split; cbn [o_min o_max o_seen]; [done|done|..].
  - intros x [Hx|Hx]%elem_of_app Hn; [|by apply H5]. apply (x_le_trans _ (o_min o)); auto.
  - intros x [Hx|Hx]%elem_of_app Hn; [|by apply H5]. apply (x_le_trans _ (o_max o)); auto.
  - destruct H6 as [->|]; [destruct Hin1; [by left|]|]; right; apply elem_of_app; auto.
  - destruct H7 as [->|]; [destruct Hin2; [by left|]|]; right; apply elem_of_app; auto.
  - rewrite Hseen, Z.add_0_l, finite_count_app. pose proof (finite_count_le vs). pose proof (finite_count_le ws).
    rewrite length_app in Hfit. rewrite wrap_small by (unfold uint; lia). lia.
Qed.

(** Calibration over batches *)
Definition calibrate (batches : list (list xreal)) : MinMaxObserver xreal :=
  foldl (λ o vs, (update o vs).1) MinMaxObserver_new batches.

Lemma observed_calibrate batches : (Z.of_nat (length (concat batches)) < 2 ^ 64)%Z →
  observed (concat batches) (calibrate batches).
Proof.
  intros Hfit. unfold calibrate. induction batches as [|vs batches IH] using rev_ind; [apply observed_new|].
  rewrite foldl_app. rewrite concat_app in *. cbn [foldl concat] in *. rewrite app_nil_r in *.
  apply observed_update; [|done]. apply IH. rewrite length_app in Hfit. lia.
Qed.

(** What the parameters of a calibrated observer guarantee *)
Definition calibrated (vs : list xreal) (qp : QParams xreal) : Prop :=
  ∃ s, 0 < s ∧ qp = mkQ (FIN s) 0 ∧ ∀ x, x ∈ vs → not_nan x → ∃ a, x = FIN a ∧ Rabs a <= 127 * s.

Lemma finite_in vs : finite_count vs ≠ 0%nat → ∃ a, FIN a ∈ vs.
Proof.
  unfold finite_count. induction vs as [|[a| | |] vs IH]; simpl; [done|intros _; exists a; by left|..];
    intros H; destruct (IH H) as [b Hb]; exists b; by right.
Qed.

Lemma finite_mem vs a : FIN a ∈ vs → finite_count vs ≠ 0%nat.
Proof.
  unfold finite_count. induction vs as [|v vs IH]; [by intros ?%elem_of_nil|].
  intros [<-|H]%elem_of_cons; simpl; [done|]. specialize (IH H). by destruct v.
Qed.

Lemma freeze_calibrated vs o : observed vs o →
  match freeze o with
  | Ok qp => calibrated vs qp
  | Err e => e = Empty ∧ (PINF ∈ vs ∨ NINF ∈ vs ∨ ∀ a b, FIN a ∈ vs → FIN b ∈ vs → a = b)
  | Panic => False
  end.
Proof.
  intros [Hmin Hmax Hlow Hhigh Hin1 Hin2 Hseen]. unfold freeze. rewrite Hseen.
  destruct (Z.eqb_spec (Z.of_nat (finite_count vs)) 0) as [H0|H0].
  { split; [done|]. right; right. intros a b Ha%finite_mem. lia. }
  destruct (finite_in vs ltac:(lia)) as [c Hc]. pose proof (Hlow _ Hc ltac:(done)) as Hcl. pose proof (Hhigh _ Hc ltac:(done)) as Hch.
  unfold from_min_max. destruct (o_min o) as [mn| | |] eqn:Emin; [|by unfold x_le in Hcl| |done].
  2: { split; [done|]. destruct Hin1; [done|]. auto. }
  destruct (o_max o) as [mx| | |] eqn:Emax; [| |by unfold x_le in Hch|done].
  2: { split; [done|]. destruct Hin2; [done|]. auto. }
  assert (∀ a, FIN a ∈ vs → mn <= a <= mx) as Hbetween.
  { intros a Ha. pose proof (Hlow _ Ha ltac:(done)) as H1. pose proof (Hhigh _ Ha ltac:(done)) as H2.
    unfold x_le in *. simpl in *. destruct (Rgtb_spec mn a), (Rgtb_spec a mx); done || lra. }
  cbn [q_is_finite xreal_qfloat andb negb orb q_le x_gt x_eq].
  destruct (Rgtb_spec mn mx) as [|Hle]; [pose proof (Hbetween c Hc); lra|]. unfold Reqb.
  destruct (Req_EM_T mx mn) as [->|Hne]; cbn [orb].
  { split; [done|]. right; right. intros a b Ha%Hbetween Hb%Hbetween. lra. }
  cbn [q_max q_abs q_eq q_of_int xreal_qfloat x_abs x_max x_gt].
  set (M := if Rgtb (Rabs mn) (Rabs mx) then FIN (Rabs mn) else FIN (Rabs mx)).
  assert (∃ m, M = FIN m ∧ 0 < m ∧ - m <= mn ∧ mx <= m) as (m & -> & Hm & H1 & H2).
  { unfold M. destruct (Rgtb_spec (Rabs mn) (Rabs mx)); eexists; (split; [done|]);
      unfold Rabs in *; destruct (Rcase_abs mn), (Rcase_abs mx); lra. }
  cbn [x_eq]. rewrite Reqb_false by lra. cbn [ok_or q_div xreal_qfloat x_div]. rewrite Reqb_false by lra.
  exists (m / 127). split; [apply Rdiv_lt_0_compat; lra|]. split; [done|].
  intros [a| | |] Hx Hn; [|by specialize (Hhigh _ Hx Hn)|by specialize (Hlow _ Hx Hn)|done].
  exists a. split; [done|]. pose proof (Hbetween a Hx). apply abs_between. lra.
Qed.

Lemma quantize_scaled s a : 0 < s → Rabs a <= 127 * s → let qp := mkQ (FIN s) 0 in
  (-127 ≤ quantize_value qp (FIN a) ≤ 127)%Z ∧
  ∃ b, dequantize_value qp (quantize_value qp (FIN a)) = FIN b ∧ Rabs (b - a) <= s / 2.
Proof.
  intros Hs Ha%abs_between qp.
  assert (-127 <= a / s <= 127) as Hr.
  { split; [apply (Rmult_le_reg_r s)|apply (Rmult_le_reg_r s)]; try done; unfold Rdiv; rewrite Rmult_assoc, Rinv_l by lra; lra. }
  destruct (quantize_in_range s 0 Hs a (-127) 127 ltac:(lia) ltac:(simpl; lra)) as [Hq Hn]. fold qp in Hq, Hn.
  split; [done|]. exists (IZR (quantize_value qp (FIN a) - 0) * s). split; [by apply dequantize_unfold; lia|].
  by apply dequantize_near.
Qed.

(** Calibration then quantization, on exact numbers: after any batches the
    observer freezes to symmetric parameters with a positive scale, or reports that
    it has no range (an infinity was seen, or all finite values are equal).  In the
    first case every finite value it saw quantizes within [-127, 127] without
    clamping and comes back within half a scale. *)
Theorem calibration_roundtrip batches : (Z.of_nat (length (concat batches)) < 2 ^ 64)%Z →
  match freeze (calibrate batches) with
  | Ok qp => ∃ s, 0 < s ∧ qp = mkQ (FIN s) 0 ∧ ∀ a, FIN a ∈ concat batches →
      (-127 ≤ quantize_value qp (FIN a) ≤ 127)%Z ∧
      ∃ b, dequantize_value qp (quantize_value qp (FIN a)) = FIN b ∧ Rabs (b - a) <= s / 2
  | Err e => e = Empty ∧
      (PINF ∈ concat batches ∨ NINF ∈ concat batches ∨ ∀ a b, FIN a ∈ concat batches → FIN b ∈ concat batches → a = b)
  | Panic => False
  end.
Proof.
  intros Hfit. pose proof (freeze_calibrated _ _ (observed_calibrate batches Hfit)) as H.
  destruct (freeze _) as [qp|e|]; [|done..]. destruct H as (s & Hs & -> & H). exists s. split; [done|]. split; [done|].
  intros a Ha. destruct (H _ Ha ltac:(done)) as (? & [= <-] & Hr). by apply quantize_scaled.
Qed.

Definition demo_batches : list (list xreal) := [[FIN 1; NAN]; [FIN (-2)]].

Lemma demo_range e : ¬ (e = Empty ∧ (PINF ∈ concat demo_batches ∨ NINF ∈ concat demo_batches ∨
  ∀ a b, FIN a ∈ concat demo_batches → FIN b ∈ concat demo_batches → a = b)).
Proof.
  intros [_ [H|[H|H]]]; [by repeat (apply elem_of_cons in H as [?|H]; [done|]); apply elem_of_nil in H..|].
  specialize (H 1 (-2) ltac:(left) ltac:(right; right; left)). lra.
Qed.

Lemma calibration_roundtrip_witness : ∃ s, freeze (calibrate demo_batches) = Ok (mkQ (FIN s) 0) ∧
  ∃ b, dequantize_value (mkQ (FIN s) 0) (quantize_value (mkQ (FIN s) 0) (FIN (-2))) = FIN b ∧ Rabs (b - -2) <= s / 2.
Proof.
  pose proof (calibration_roundtrip demo_batches ltac:(simpl; lia)) as H. simpl concat in H.
  destruct (freeze (calibrate demo_batches)) as [qp|e|]; [| |done].
  - destruct H as (s & _ & -> & H). exists s. split; [done|].
    exact (proj2 (H (-2) ltac:(right; right; left))).
  - by destruct (demo_range e).
Defined.

(** ** The linear layer *)

Lemma IZR_bsum n f : IZR (bsum n f) = psum n (λ i, IZR (f i)).
Proof. induction n as [|n IH]; [done|]. rewrite bsum_S. cbn [sr_add Z_SemiRing psum]. by rewrite plus_IZR, IH. Qed.

(** The error of one product *)
Lemma product_error x w x' w' ex ew : Rabs (x' - x) <= ex → Rabs (w' - w) <= ew →
  Rabs (x' * w' - x * w) <= Rabs x * ew + Rabs w * ex + ex * ew.
Proof.
  intros Hx Hw. replace (x' * w' - x * w) with (x * (w' - w) + w * (x' - x) + (x' - x) * (w' - w)) by ring.
  pose proof (Rabs_pos (x' - x)). pose proof (Rabs_pos (w' - w)). pose proof (Rabs_pos x). pose proof (Rabs_pos w).
  eapply Rle_trans; [apply Rabs_triang|]. eapply Rle_trans; [apply Rplus_le_compat_r, Rabs_triang|]. rewrite !Rabs_mult.
  assert (Rabs (x' - x) * Rabs (w' - w) <= ex * ew) by (apply Rmult_le_compat; done).
  assert (Rabs x * Rabs (w' - w) <= Rabs x * ew) by (by apply Rmult_le_compat_l).
  assert (Rabs w * Rabs (x' - x) <= Rabs w * ex) by (by apply Rmult_le_compat_l). lra.
Qed.

(** Quantized values against the reals they stand for *)
Definition stands_for (s : R) (qs : list Z) (xs : list R) : Prop :=
  length qs = length xs ∧ ∀ i, (i < length xs)%nat →
    (-127 ≤ nth i qs 0 ≤ 127)%Z ∧ Rabs (IZR (nth i qs 0%Z) * s - nth i xs 0) <= s / 2.

Lemma quantized_stands s xs : 0 < s → (∀ x, x ∈ xs → Rabs x <= 127 * s) →
  stands_for s (quantize_value (mkQ (FIN s) 0) <$> (FIN <$> xs)) xs.
Proof.
  intros Hs Hx. split; [by rewrite !length_fmap|]. intros i Hi. destruct (lookup_lt_is_Some_2 xs i Hi) as [x Hl].
  rewrite (nth_lookup_Some xs i 0 x Hl). rewrite (nth_lookup_Some _ i 0%Z (quantize_value (mkQ (FIN s) 0) (FIN x)))
    by (by rewrite !list_lookup_fmap, Hl).
  destruct (quantize_scaled s x Hs (Hx x ltac:(by eapply list_elem_of_lookup_2))) as (Hr & b & Hb & He).
  split; [done|]. rewrite dequantize_unfold, Z.sub_0_r in Hb by lia. by injection Hb as <-.
Qed.

Lemma dot_error a b xs ws m k n sa sb i j : 0 < sa → 0 < sb →
  length xs = (m * k)%nat → length ws = (k * n)%nat → stands_for sa a xs → stands_for sb b ws → (i < m)%nat → (j < n)%nat →
  Rabs (IZR (dot_exact a b k n 0 0 i j) * (sa * sb) - psum k (λ t, nth (i * k + t) xs 0 * nth (t * n + j) ws 0)) <=
  psum k (λ t, Rabs (nth (i * k + t) xs 0) * (sb / 2) + Rabs (nth (t * n + j) ws 0) * (sa / 2) + sa / 2 * (sb / 2)).
Proof.
  intros Hsa Hsb Hx Hw [_ Ha] [_ Hb] Hi Hj. unfold dot_exact. rewrite IZR_bsum, <- psum_mul_r, <- psum_sub.
  eapply Rle_trans; [apply psum_abs|]. apply psum_le. intros t Ht.
  destruct (Ha (i * k + t)%nat ltac:(rewrite Hx; nia)) as [_ H1]. destruct (Hb (t * n + j)%nat ltac:(rewrite Hw; nia)) as [_ H2].
  rewrite !Z.sub_0_r, mult_IZR.
  replace (IZR (nth (i * k + t) a 0%Z) * IZR (nth (t * n + j) b 0%Z) * (sa * sb))
    with (IZR (nth (i * k + t) a 0%Z) * sa * (IZR (nth (t * n + j) b 0%Z) * sb)) by ring.
  by apply product_error.
Qed.

Lemma dot_small a b xs ws m k n sa sb i j :
  length xs = (m * k)%nat → length ws = (k * n)%nat → stands_for sa a xs → stands_for sb b ws → (i < m)%nat → (j < n)%nat →
  (Z.of_nat k * 16129 < 2 ^ 31)%Z → swrap 32 (dot_exact a b k n 0 0 i j) = dot_exact a b k n 0 0 i j.
Proof.
  intros Hx Hw [Hla Ha] [Hlb Hb] Hi Hj Hk. apply swrap_small; [lia|].
  assert (Z.abs (dot_exact a b k n 0 0 i j) ≤ Z.of_nat k * (127 * 127))%Z; [|unfold sint; lia].
  apply (dot_exact_bound a b m); [by rewrite Hla|by rewrite Hlb|done|done|..]; apply (Forall_nth _ 0%Z); intros t Ht.
  - destruct (Ha t ltac:(lia)). lia.
  - destruct (Hb t ltac:(lia)). lia.
Qed.

Definition fin_bias (bs : option (list R)) : option (list xreal) := match bs with Some b => Some (FIN <$> b) | None => None end.
Definition real_bias (bs : option (list R)) (o : nat) : R := match bs with Some b => nth o b 0 | None => 0 end.

Lemma linear_value_error ws wqs xs bs inn out batch sw sa i o :
  let l := mkLinear wqs (mkQ (FIN sw) 0) (fin_bias bs) None MinMaxObserver_new inn out in
  0 < sw → 0 < sa → length ws = (inn * out)%nat → length xs = (batch * inn)%nat →
  (∀ b, bs = Some b → length b = out) → stands_for sw wqs ws → (∀ x, x ∈ xs → Rabs x <= 127 * sa) →
  (Z.of_nat inn * 16129 < 2 ^ 31)%Z → (i < batch)%nat → (o < out)%nat →
  ∃ y, linear_value l (mkQ (FIN sa) 0) (FIN <$> xs) i o = FIN y ∧
    Rabs (y - (psum inn (λ k, nth (i * inn + k) xs 0 * nth (k * out + o) ws 0) + real_bias bs o)) <=
    psum inn (λ k, Rabs (nth (i * inn + k) xs 0) * (sw / 2) + Rabs (nth (k * out + o) ws 0) * (sa / 2) + sa / 2 * (sw / 2)).
Proof.
  intros l Hsw Hsa Hw Hx Hb Hst Hr Hk Hi Ho.
  pose proof (quantized_stands sa xs Hsa Hr) as Hsx. set (qx := quantize_value _ <$> _) in *.
  pose proof (dot_error qx wqs xs ws batch inn out sa sw i o Hsa Hsw Hx Hw Hsx Hst Hi Ho) as He.
  unfold linear_value, gemm_value. cbn [weight_q weight_qp in_features out_features bias zero_point scale l]. fold qx.
  rewrite (dot_small qx wqs xs ws batch inn out sa sw) by done.
  cbn [q_mul q_of_int xreal_qfloat x_mul]. set (D := IZR (dot_exact _ _ _ _ _ _ _ _)) in *. destruct bs as [b|]; cbn [fin_bias real_bias].
  - destruct (lookup_lt_is_Some_2 b o) as [z Hz]; [by rewrite (Hb b)|].
    rewrite (nth_lookup_Some (FIN <$> b) _ _ (FIN z)) by (by rewrite list_lookup_fmap, Hz).
    rewrite (nth_lookup_Some _ _ _ _ Hz). exists (D * (sa * sw) + z). split; [done|].
    match goal with |- Rabs (_ - (?p + _)) <= _ => by replace (_ - (p + z)) with (D * (sa * sw) - p) by ring end.
  - eexists. split; [done|]. by rewrite Rplus_0_r.
Qed.

Lemma from_f32_run ws sw bs inn out : 0 < sw → length ws = (inn * out)%nat → (Z.of_nat (inn * out) < 2 ^ 64)%Z →
  (∀ b, bs = Some b → length b = out) →
  QuantLinear_from_f32 (FIN <$> ws) (mkQ (FIN sw) 0) (fin_bias bs) inn out =
  Ok (mkLinear (quantize_value (mkQ (FIN sw) 0) <$> (FIN <$> ws)) (mkQ (FIN sw) 0) (fin_bias bs) None MinMaxObserver_new inn out).
Proof.
  intros Hs Hw Hfit Hb. unfold QuantLinear_from_f32.
  rewrite quantize_run by (by rewrite ?length_replicate || apply good_scale). cbn [unwrap rbind]. unfold QuantLinear_new.
  rewrite !length_fmap, ix_small, Hw, Nat.eqb_refl by done. cbn [negb].
  destruct bs as [b|]; [|done]. cbn [fin_bias]. by rewrite length_fmap, (Hb b), Nat.eqb_refl.
Qed.

(** C28: The error of the quantized linear layer, on exact numbers: take weights whose
    observer freezes to a scale, an observer calibrated on any batches that freezes too,
    an input no larger than the values seen, buffers of the declared sizes, which fit the
    machine, and a depth of at most 133,144, which keeps the 32-bit accumulator exact.
    Then the layer is built and runs, and every element of its output is within the sum
    of [|x| sw/2 + |w| sa/2 + sa sw/4] over the row of the exact product plus bias, where
    [sw] and [sa] are the two scales. *)
Theorem quant_linear_error ws bs xs batches inn out batch wqp aqp output :
  length ws = (inn * out)%nat → length xs = (batch * inn)%nat → length output = (batch * out)%nat →
  (∀ b, bs = Some b → length b = out) →
  freeze (update MinMaxObserver_new (FIN <$> ws)).1 = Ok wqp → freeze (calibrate batches) = Ok aqp →
  (∀ x, x ∈ xs → ∃ c, FIN c ∈ concat batches ∧ Rabs x <= Rabs c) →
  (Z.of_nat (inn * out) < 2 ^ 64 ∧ Z.of_nat (batch * inn) < 2 ^ 64 ∧ Z.of_nat (batch * out) < 2 ^ 64 ∧
   Z.of_nat (length (concat batches)) < 2 ^ 64 ∧ Z.of_nat inn ≤ 133144)%Z →
  ∃ l sw sa res, wqp = mkQ (FIN sw) 0 ∧ aqp = mkQ (FIN sa) 0 ∧ 0 < sw ∧ 0 < sa ∧
    QuantLinear_from_f32 (FIN <$> ws) wqp (fin_bias bs) inn out = Ok l ∧
    QuantLinear_forward l (FIN <$> xs) output batch (Some aqp) = Ok res ∧ length res = (batch * out)%nat ∧
    ∀ i o, (i < batch)%nat → (o < out)%nat → ∃ y, res !! (i * out + o)%nat = Some (FIN y) ∧
      Rabs (y - (psum inn (λ k, nth (i * inn + k) xs 0 * nth (k * out + o) ws 0) + real_bias bs o)) <=
      psum inn (λ k, Rabs (nth (i * inn + k) xs 0) * (sw / 2) + Rabs (nth (k * out + o) ws 0) * (sa / 2) + sa / 2 * (sw / 2)).
Proof.
  intros Hw Hx Ho Hb Hfw Hfa Hin (H1 & H2 & H3 & H4 & H5). assert (Z.of_nat inn * 16129 < 2 ^ 31)%Z as H6 by lia.
  pose proof (observed_update [] (FIN <$> ws) _ observed_new ltac:(simpl; rewrite length_fmap; lia)) as Hobs.
  pose proof (freeze_calibrated _ _ Hobs) as Hcw. rewrite Hfw in Hcw. destruct Hcw as (sw & Hsw & -> & Hcw).
  pose proof (freeze_calibrated _ _ (observed_calibrate batches H4)) as Hca. rewrite Hfa in Hca.
  destruct Hca as (sa & Hsa & -> & Hca).
  assert (∀ x, x ∈ xs → Rabs x <= 127 * sa) as Hr.
  { intros x (c & Hc & Hle)%Hin. destruct (Hca _ Hc ltac:(done)) as (? & [= <-] & ?). lra. }
  assert (stands_for sw (quantize_value (mkQ (FIN sw) 0) <$> (FIN <$> ws)) ws) as Hst.
  { apply quantized_stands; [done|]. intros x Hxw. destruct (Hcw (FIN x)) as (? & [= <-] & ?); [|done..].
    simpl. by apply list_elem_of_fmap_2. }
  eexists _, sw, sa, _. do 4 (split; [done|]). split; [by apply from_f32_run|]. split.
  - apply linear_run; cbn [in_features out_features]; [|by rewrite length_fmap|done|lia|by apply good_scale].
    split; cbn [weight_q bias in_features out_features]; [by rewrite !length_fmap|].
    destruct bs as [b|]; [|done]. cbn [fin_bias]. rewrite length_fmap. by apply Hb.
  - split; [apply length_grid|]. intros i o Hi Hoo.
    destruct (linear_value_error ws _ xs bs inn out batch sw sa i o Hsw Hsa Hw Hx Hb Hst Hr H6 Hi Hoo) as (y & Hy & He).
    exists y. split; [|done]. cbn [out_features]. by rewrite lookup_grid, <- Hy.
Qed.

Lemma quant_linear_error_witness : ∃ l aqp out, QuantLinear_from_f32 [FIN 1; FIN (-1)] (mkQ (FIN (1 / 127)) 0) None 2 1 = Ok l ∧
  QuantLinear_forward l [FIN 1; FIN (-2)] [FIN 0] 1 (Some aqp) = Ok out ∧ length out = 1%nat.
Proof.
  assert (freeze (update MinMaxObserver_new (FIN <$> [1; -1])).1 = Ok (mkQ (FIN (1 / 127)) 0)) as Hw.
  { cbn. rewrite (Rgtb_true 1 (-1)) by lra. cbn. rewrite ?(Rgtb_false (-1) 1) by lra. unfold freeze, from_min_max. cbn.
    rewrite (Rgtb_false (-1) 1), (Reqb_false 1 (-1)), (Rabs_left (-1)), Rabs_R1, (Rgtb_false (- -1) 1) by lra. cbn.
    rewrite (Reqb_false 1 0) by lra. cbn. by rewrite Reqb_false by lra. }
  pose proof (freeze_calibrated _ _ (observed_calibrate demo_batches ltac:(simpl; lia))) as Ha.
  destruct (freeze (calibrate demo_batches)) as [aqp|e|] eqn:Hf; [| |done].
  - destruct (quant_linear_error [1; -1] None [1; -2] demo_batches 2 1 1 (mkQ (FIN (1 / 127)) 0) aqp [FIN 0]) as (l & sw & sa & out & H1 & -> & _ & _ & H2 & H3 & H4 & _);
      [done|done|done|intros ?; discriminate|exact Hw|exact Hf| |simpl; lia|].
    + intros x [->|[->|[]%elem_of_nil]%elem_of_cons]%elem_of_cons; [exists 1|exists (-2)]; (split; [simpl|lra]).
      * left.
      * right; right; left.
    + exact (ex_intro _ l (ex_intro _ _ (ex_intro _ out (conj H2 (conj H3 H4))))).
  - by destruct (demo_range e).
Defined.
