(* ===== verification/Gguf.v ===== *)
(** * GGUF files (crates/rustorch-gguf/src: metadata.rs, tensor.rs, reader.rs)

    The parser of a model file: a cursor over the bytes reads the header, the
    metadata and the tensor index, computes the aligned start of the data
    section and checks each tensor against it.  A [String] is its UTF-8 bytes;
    an [f32] or [f64] is its bits. *)

From Stdlib Require Import ZArith Lia Ascii String.
From stdpp Require Import base list gmap.
From S2P Require Import Prelude Dtype Float.

Notation Str := (list Z) (only parsing).

Definition bytes_of_string (s : string) : list Z :=
  (λ a, Z.of_N (N_of_ascii a)) <$> list_ascii_of_string s.

(** ** metadata.rs *)

Inductive MetaValueType :=
  | TU8 | TI8 | TU16 | TI16 | TU32 | TI32 | TF32 | TBool | TString | TArray | TU64 | TI64 | TF64.

#[export] Instance MetaValueType_eq_dec : EqDecision MetaValueType.
Proof. solve_decision. Defined.

(** The [repr(u32)] tags and [MetaValueType::from_u32]. *)
Definition type_tag (t : MetaValueType) : Z :=
  match t with
  | TU8 => 0 | TI8 => 1 | TU16 => 2 | TI16 => 3 | TU32 => 4 | TI32 => 5 | TF32 => 6
  | TBool => 7 | TString => 8 | TArray => 9 | TU64 => 10 | TI64 => 11 | TF64 => 12
  end.
Definition MetaValueType_from_u32 (v : Z) : option MetaValueType :=
  match v with
  | 0 => Some TU8 | 1 => Some TI8 | 2 => Some TU16 | 3 => Some TI16 | 4 => Some TU32
  | 5 => Some TI32 | 6 => Some TF32 | 7 => Some TBool | 8 => Some TString | 9 => Some TArray
  | 10 => Some TU64 | 11 => Some TI64 | 12 => Some TF64
  | _ => None
  end.

Inductive MetaArray :=
  | AU8 (v : list Z) | AI8 (v : list Z) | AU16 (v : list Z) | AI16 (v : list Z)
  | AU32 (v : list Z) | AI32 (v : list Z) | AF32 (v : list Z) | ABool (v : list bool)
  | AString (v : list Str) | AU64 (v : list Z) | AI64 (v : list Z) | AF64 (v : list Z).

Definition MetaArray_len (a : MetaArray) : nat :=
  match a with
  | AU8 v | AI8 v | AU16 v | AI16 v | AU32 v | AI32 v | AF32 v | AU64 v | AI64 v | AF64 v =>
      List.length v
  | ABool v => List.length v
  | AString v => List.length v
  end.
Definition MetaArray_is_empty (a : MetaArray) : bool := (MetaArray_len a =? 0)%nat.

Inductive MetaValue :=
  | VU8 (v : Z) | VI8 (v : Z) | VU16 (v : Z) | VI16 (v : Z) | VU32 (v : Z) | VI32 (v : Z)
  | VF32 (v : Z) | VBool (v : bool) | VString (v : Str) | VArray (v : MetaArray)
  | VU64 (v : Z) | VI64 (v : Z) | VF64 (v : Z).

Definition as_u32 (m : MetaValue) : option Z :=
  match m with
  | VU8 v | VU16 v | VU32 v => Some v
  | VU64 v | VI8 v | VI16 v | VI32 v | VI64 v => Some (wrap 32 v)
  | _ => None
  end.
Definition as_u64 (m : MetaValue) : option Z :=
  match m with
  | VU8 v | VU16 v | VU32 v | VU64 v => Some v
  | VI8 v | VI16 v | VI32 v | VI64 v => Some (wrap 64 v)
  | _ => None
  end.
Definition as_f32 (m : MetaValue) : option Z :=
  match m with VF32 v => Some v | VF64 v => Some (fcast binary64 binary32 v) | _ => None end.
Definition as_bool (m : MetaValue) : option bool :=
  match m with VBool b => Some b | _ => None end.
Definition as_str (m : MetaValue) : option Str :=
  match m with VString s => Some s | _ => None end.
Definition as_array (m : MetaValue) : option MetaArray :=
  match m with VArray a => Some a | _ => None end.

(** [struct Metadata], a map keyed by strings *)
Notation Metadata := (gmap Str MetaValue) (only parsing).

Definition get (m : Metadata) (key : Str) : option MetaValue := m !! key.
Definition get_u32 (m : Metadata) key : option Z := get m key ≫= as_u32.
Definition get_u64 (m : Metadata) key : option Z := get m key ≫= as_u64.
Definition get_f32 (m : Metadata) key : option Z := get m key ≫= as_f32.
Definition get_str (m : Metadata) key : option Str := get m key ≫= as_str.
Definition get_array (m : Metadata) key : option MetaArray := get m key ≫= as_array.
Definition architecture (m : Metadata) : option Str :=
  get_str m (bytes_of_string "general.architecture").
Definition arch_prefix (m : Metadata) : option Str :=
  (λ a, a ++ bytes_of_string ".") <$> architecture m.
Definition get_arch (m : Metadata) (suffix : Str) : option MetaValue :=
  arch_prefix m ≫= λ p, get m (p ++ suffix).

(** ** tensor.rs *)

Inductive GgmlType :=
  | GF32 | GF16 | Q4_0 | Q4_1 | Q5_0 | Q5_1 | Q8_0 | Q8_1 | Q2_K | Q3_K | Q4_K | Q5_K | Q6_K
  | Q8_K | IQ2_XXS | IQ2_XS | IQ3_XXS | IQ1_S | IQ4_NL | IQ3_S | IQ2_S | IQ4_XS
  | GI8 | GI16 | GI32 | GI64 | GF64 | IQ1_M | GBF16.

#[export] Instance GgmlType_eq_dec : EqDecision GgmlType.
Proof. solve_decision. Defined.

Inductive GgufError :=
  | BadMagic (m : Z)
  | UnsupportedVersion (v : Z)
  | UnknownMetaType (t : Z)
  | UnknownDtype (t : Z)
  | Truncated (needed have : Z)
  | BadUtf8
  | TensorOffsetOob (name : Str) (offset data_len : Z).

Definition ggml_tag (t : GgmlType) : Z :=
  match t with
  | GF32 => 0 | GF16 => 1 | Q4_0 => 2 | Q4_1 => 3 | Q5_0 => 6 | Q5_1 => 7 | Q8_0 => 8 | Q8_1 => 9
  | Q2_K => 10 | Q3_K => 11 | Q4_K => 12 | Q5_K => 13 | Q6_K => 14 | Q8_K => 15
  | IQ2_XXS => 16 | IQ2_XS => 17 | IQ3_XXS => 18 | IQ1_S => 19 | IQ4_NL => 20 | IQ3_S => 21
  | IQ2_S => 22 | IQ4_XS => 23 | GI8 => 24 | GI16 => 25 | GI32 => 26 | GI64 => 27 | GF64 => 28
  | IQ1_M => 29 | GBF16 => 30
  end.
(** [GgmlType::from_u32] *)
Definition GgmlType_from_u32 (v : Z) : res GgufError GgmlType :=
  match v with
  | 0 => Ok GF32 | 1 => Ok GF16 | 2 => Ok Q4_0 | 3 => Ok Q4_1 | 6 => Ok Q5_0 | 7 => Ok Q5_1
  | 8 => Ok Q8_0 | 9 => Ok Q8_1 | 10 => Ok Q2_K | 11 => Ok Q3_K | 12 => Ok Q4_K | 13 => Ok Q5_K
  | 14 => Ok Q6_K | 15 => Ok Q8_K | 16 => Ok IQ2_XXS | 17 => Ok IQ2_XS | 18 => Ok IQ3_XXS
  | 19 => Ok IQ1_S | 20 => Ok IQ4_NL | 21 => Ok IQ3_S | 22 => Ok IQ2_S | 23 => Ok IQ4_XS
  | 24 => Ok GI8 | 25 => Ok GI16 | 26 => Ok GI32 | 27 => Ok GI64 | 28 => Ok GF64 | 29 => Ok IQ1_M
  | 30 => Ok GBF16
  | other => Err (UnknownDtype other)
  end.

Definition block_size (t : GgmlType) : Z :=
  match t with
  | GF32 | GF16 | GBF16 | GF64 | GI8 | GI16 | GI32 | GI64 => 1
  | Q4_0 | Q4_1 | Q5_0 | Q5_1 | Q8_0 | Q8_1 => 32
  | _ => 256
  end.

Definition type_size (t : GgmlType) : Z :=
  match t with
  | GF32 | GI32 => 4
  | GF16 | GBF16 | GI16 => 2
  | GF64 | GI64 => 8
  | GI8 => 1
  | Q4_0 => 2 + 16
  | Q4_1 => 2 + 2 + 16
  | Q5_0 => 2 + 4 + 16
  | Q5_1 => 2 + 2 + 4 + 16
  | Q8_0 => 2 + 32
  | Q8_1 => 4 + 32
  | Q4_K => 2 + 2 + 12 + 128
  | Q6_K => 128 + 64 + 16 + 2
  | Q2_K => 2 + 2 + 16 + 64
  | Q3_K => 32 + 64 + 12 + 2
  | Q5_K => 2 + 2 + 12 + 32 + 128
  | Q8_K => 4 + 256 + 32
  | IQ2_XXS => 2 + 64
  | IQ2_XS => 2 + 64 + 16
  | IQ3_XXS => 2 + 64 + 32
  | IQ1_S => 2 + 32 + 8
  | IQ4_NL => 2 + 16
  | IQ3_S => 2 + 64 + 32 + 8 + 16
  | IQ2_S => 2 + 64 + 16 + 8
  | IQ4_XS => 2 + 2 + 64 + 128
  | IQ1_M => 32 + 16 + 8
  end.

Definition byte_size_for (t : GgmlType) (n_elements : Z) : Z :=
  wrap 64 (n_elements / block_size t * type_size t).

Definition is_dequant_supported (t : GgmlType) : bool :=
  match t with GF32 | GF16 | GBF16 | Q8_0 | Q4_K | Q6_K => true | _ => false end.

(** [struct TensorInfo] *)
Record TensorInfo := mkTensorInfo {
  ti_name : Str;
  ti_shape : list Z;
  ti_dtype : GgmlType;
  ti_offset : Z
}.

Definition n_elements (t : TensorInfo) : Z := product_u 64 (ti_shape t).
Definition byte_size (t : TensorInfo) : Z := byte_size_for (ti_dtype t) (n_elements t).

(** ** Standard library: UTF-8 validation and allocation *)

Definition is_cont (b : Z) : bool := (0x80 <=? b) && (b <=? 0xbf).

(** [str::from_utf8(..).is_ok()] *)
Fixpoint utf8_valid_from (fuel : nat) (bs : list Z) : bool :=
  match fuel with
  | O => true
  | S fuel =>
      match bs with
      | [] => true
      | b0 :: rest =>
          if b0 <? 0x80 then utf8_valid_from fuel rest
          else if (0xc2 <=? b0) && (b0 <=? 0xdf) then
            match rest with
            | b1 :: rest => is_cont b1 && utf8_valid_from fuel rest
            | _ => false
            end
          else if (0xe0 <=? b0) && (b0 <=? 0xef) then
            match rest with
            | b1 :: b2 :: rest =>
                is_cont b1 && is_cont b2
                && negb ((b0 =? 0xe0) && (b1 <? 0xa0)) && negb ((b0 =? 0xed) && (0x9f <? b1))
                && utf8_valid_from fuel rest
            | _ => false
            end
          else if (0xf0 <=? b0) && (b0 <=? 0xf4) then
            match rest with
            | b1 :: b2 :: b3 :: rest =>
                is_cont b1 && is_cont b2 && is_cont b3
                && negb ((b0 =? 0xf0) && (b1 <? 0x90)) && negb ((b0 =? 0xf4) && (0x8f <? b1))
                && utf8_valid_from fuel rest
            | _ => false
            end
          else false
      end
  end.
Definition utf8_valid (bs : list Z) : bool := utf8_valid_from (List.length bs) bs.

Definition GGUF_MAGIC : Z := 0x46554747.
Definition GGUF_DEFAULT_ALIGNMENT : Z := 32.

(** ** reader.rs: the cursor

    [struct Cursor] is its position; a method returns its value and the new
    position. *)
Definition reader (A : Type) : Type := Z → res GgufError (A * Z).

Definition reader_ret {A} (x : A) : reader A := λ pos, Ok (x, pos).
Definition reader_bind {A B} (m : reader A) (k : A → reader B) : reader B :=
  λ pos, let? xp := m pos in k xp.1 xp.2.
Definition reader_lift {A} (m : res GgufError A) : reader A := λ pos, let? x := m in Ok (x, pos).
Definition reader_map {A B} (f : A → B) (m : reader A) : reader B :=
  reader_bind m (λ x, reader_ret (f x)).

Declare Scope reader_scope.
Delimit Scope reader_scope with reader.
Notation "'let*' x ':=' m 'in' k" := (reader_bind m (fun x => k))
  (at level 200, x pattern, m at level 100, k at level 200) : reader_scope.
Open Scope reader_scope.

(** [for _ in 0..n { v.push(f()?) }] *)
Fixpoint read_times {A} (n : nat) (f : reader A) : reader (list A) :=
  match n with
  | O => reader_ret []
  | S n => let* x := f in let* xs := read_times n f in reader_ret (x :: xs)
  end.

Section cursor.
Context (oom : Z → bool) (buf : list Z).

Notation buf_len := (Z.of_nat (List.length buf)).

(** [Vec::with_capacity(n)] and [vec![0; n]] of [size]-byte elements: a
    capacity overflow panics and a failed allocation aborts. *)
Definition with_capacity (size n : Z) : reader unit :=
  λ pos, if (2 ^ 63 - 1 <? n * size) || oom (n * size) then Panic else Ok (tt, pos).

Definition need (n : Z) : reader unit := λ pos,
  if buf_len <? wrap 64 (pos + n) then Err (Truncated n (sat_sub buf_len pos))
  else Ok (tt, pos).

(** [n] checked bytes: [need(n)?], the slice, [pos += n]. *)
Definition read_slice (n : Z) : reader (list Z) :=
  let* _ := need n in
  λ pos, let? bs := slice_range buf pos (wrap 64 (pos + n)) in Ok (bs, wrap 64 (pos + n)).

(** The fixed-width reads: [need(n)?], then the little-endian value. *)
Definition read_u8 : reader Z := reader_map le_decode (read_slice 1).
Definition read_u16 : reader Z := reader_map le_decode (read_slice 2).
Definition read_u32 : reader Z := reader_map le_decode (read_slice 4).
Definition read_u64 : reader Z := reader_map le_decode (read_slice 8).
Definition read_i8 : reader Z := reader_map (swrap 8) read_u8.
Definition read_i16 : reader Z := reader_map (swrap 16) read_u16.
Definition read_i32 : reader Z := reader_map (swrap 32) read_u32.
Definition read_i64 : reader Z := reader_map (swrap 64) read_u64.
Definition read_f32 : reader Z := read_u32.
Definition read_f64 : reader Z := read_u64.
Definition read_bool : reader bool := reader_map (λ b, negb (b =? 0)) read_u8.

(** [read_string]: the bytes are checked before the position moves. *)
Definition read_string : reader Str :=
  let* len := read_u64 in
  let* _ := need len in
  λ pos,
    let? s := slice_range buf pos (wrap 64 (pos + len)) in
    if utf8_valid s then Ok (s, wrap 64 (pos + len)) else Err BadUtf8.

(** One typed arm of [read_array]. *)
Definition read_vec {A} (size n : Z) (f : reader A) : reader (list A) :=
  let* _ := with_capacity size n in read_times (Z.to_nat n) f.

Definition read_array : reader MetaArray :=
  let* elem_type_tag := read_u32 in
  let* elem_type :=
    reader_lift (ok_or (UnknownMetaType elem_type_tag) (MetaValueType_from_u32 elem_type_tag)) in
  let* n := read_u64 in
  match elem_type with
  | TU8 => let* _ := with_capacity 1 n in reader_map AU8 (read_slice n)
  | TI8 => reader_map AI8 (read_vec 1 n read_i8)
  | TU16 => reader_map AU16 (read_vec 2 n read_u16)
  | TI16 => reader_map AI16 (read_vec 2 n read_i16)
  | TU32 => reader_map AU32 (read_vec 4 n read_u32)
  | TI32 => reader_map AI32 (read_vec 4 n read_i32)
  | TF32 => reader_map AF32 (read_vec 4 n read_f32)
  | TBool => reader_map ABool (read_vec 1 n read_bool)
  | TString => reader_map AString (read_vec 24 n read_string)
  | TU64 => reader_map AU64 (read_vec 8 n read_u64)
  | TI64 => reader_map AI64 (read_vec 8 n read_i64)
  | TF64 => reader_map AF64 (read_vec 8 n read_f64)
  | TArray => reader_lift (Err (UnknownMetaType 9))
  end.

Definition read_value (vt : MetaValueType) : reader MetaValue :=
  match vt with
  | TU8 => reader_map VU8 read_u8
  | TI8 => reader_map VI8 read_i8
  | TU16 => reader_map VU16 read_u16
  | TI16 => reader_map VI16 read_i16
  | TU32 => reader_map VU32 read_u32
  | TI32 => reader_map VI32 read_i32
  | TF32 => reader_map VF32 read_f32
  | TBool => reader_map VBool read_bool
  | TString => reader_map VString read_string
  | TU64 => reader_map VU64 read_u64
  | TI64 => reader_map VI64 read_i64
  | TF64 => reader_map VF64 read_f64
  | TArray => reader_map VArray read_array
  end.

(** The bodies of the two loops of [from_bytes]. *)
Definition read_kv : reader (Str * MetaValue) :=
  let* key := read_string in
  let* vt_tag := read_u32 in
  let* vt := reader_lift (ok_or (UnknownMetaType vt_tag) (MetaValueType_from_u32 vt_tag)) in
  let* val := read_value vt in
  reader_ret (key, val).

Definition read_tensor : reader TensorInfo :=
  let* name := read_string in
  let* n_dims := read_u32 in
  let* shape := read_vec 8 n_dims read_u64 in
  let* dtype_tag := read_u32 in
  let* dtype := reader_lift (GgmlType_from_u32 dtype_tag) in
  let* offset := read_u64 in
  reader_ret (mkTensorInfo name shape dtype offset).
End cursor.

(** [struct GgufFile] *)
Record GgufFile := mkGgufFile {
  gf_bytes : list Z;
  gf_version : Z;
  gf_metadata : Metadata;
  gf_tensors : list TensorInfo;
  gf_data_offset : Z;
  gf_alignment : Z
}.

(** [metadata.kv.insert] for each pair, the last one of a key winning *)
Definition insert_all (kvs : list (Str * MetaValue)) : Metadata :=
  foldl (λ (m : Metadata) kv, <[kv.1 := kv.2]> m) ∅ kvs.

(** [u64::div_ceil], which panics on a zero divisor. *)
Definition checked_div_ceil {E} (x y : Z) : res E Z :=
  if y =? 0 then Panic else Ok (div_ceil x y).

(** The loop that validates the tensors against the data section. *)
Definition check_tensors (data_len : Z) (tensors : list TensorInfo) : res GgufError unit :=
  rfold (λ _ t,
      if data_len <? wrap 64 (ti_offset t + byte_size t) then
        Err (TensorOffsetOob (ti_name t) (ti_offset t) data_len)
      else Ok tt)
    tt tensors.

(** The reading part of [from_bytes]: header, metadata, tensor index. *)
Definition read_header (oom : Z → bool) (bytes : list Z)
    : reader (Z * Metadata * list TensorInfo) :=
  let* magic := read_u32 bytes in
  if negb (magic =? GGUF_MAGIC) then reader_lift (Err (BadMagic magic))
  else
    let* version := read_u32 bytes in
    if negb (version =? 2) && negb (version =? 3) then
      reader_lift (Err (UnsupportedVersion version))
    else
      let* tensor_count := read_u64 bytes in
      let* metadata_count := read_u64 bytes in
      let* kvs := read_times (Z.to_nat metadata_count) (read_kv oom bytes) in
      let* tensors := read_vec oom 64 tensor_count (read_tensor oom bytes) in
      reader_ret (version, insert_all kvs, tensors).

(** [GgufFile::from_bytes] *)
Definition GgufFile_from_bytes (oom : Z → bool) (bytes : list Z) : res GgufError GgufFile :=
  let? r := read_header oom bytes 0 in
  let '((version, metadata, tensors), header_end) := r in
  let alignment :=
    default GGUF_DEFAULT_ALIGNMENT (get_u64 metadata (bytes_of_string "general.alignment")) in
  let? blocks := checked_div_ceil header_end alignment in
  let data_offset := wrap 64 (blocks * alignment) in
  let data_len := wrap 64 (Z.of_nat (List.length bytes) - data_offset) in
  let? _ := check_tensors data_len tensors in
  Ok (mkGgufFile bytes version metadata tensors data_offset alignment).

(** [GgufFile::tensor] *)
Definition find_tensor (f : GgufFile) (name : Str) : option TensorInfo :=
  List.find (λ t, bool_decide (ti_name t = name)) (gf_tensors f).

(** [GgufFile::tensor_bytes] *)
Definition tensor_bytes (f : GgufFile) (t : TensorInfo) : res GgufError (list Z) :=
  let start := wrap 64 (gf_data_offset f + ti_offset t) in
  slice_range (gf_bytes f) start (wrap 64 (start + byte_size t)).

(** [GgufFile::file_size] *)
Definition file_size (f : GgufFile) : Z := Z.of_nat (List.length (gf_bytes f)).

(** ** Specification: the file format *)

Definition enc_string (s : Str) : list Z := le_encode 8 (Z.of_nat (List.length s)) ++ s.
Definition enc_bool (b : bool) : list Z := [if b then 1 else 0].

Definition array_type (a : MetaArray) : MetaValueType :=
  match a with
  | AU8 _ => TU8 | AI8 _ => TI8 | AU16 _ => TU16 | AI16 _ => TI16 | AU32 _ => TU32
  | AI32 _ => TI32 | AF32 _ => TF32 | ABool _ => TBool | AString _ => TString
  | AU64 _ => TU64 | AI64 _ => TI64 | AF64 _ => TF64
  end.
Definition enc_array (a : MetaArray) : list Z :=
  le_encode 4 (type_tag (array_type a)) ++ le_encode 8 (Z.of_nat (MetaArray_len a)) ++
  match a with
  | AU8 v | AI8 v => v ≫= le_encode 1
  | AU16 v | AI16 v => v ≫= le_encode 2
  | AU32 v | AI32 v | AF32 v => v ≫= le_encode 4
  | AU64 v | AI64 v | AF64 v => v ≫= le_encode 8
  | ABool v => v ≫= enc_bool
  | AString v => v ≫= enc_string
  end.

Definition value_type (m : MetaValue) : MetaValueType :=
  match m with
  | VU8 _ => TU8 | VI8 _ => TI8 | VU16 _ => TU16 | VI16 _ => TI16 | VU32 _ => TU32
  | VI32 _ => TI32 | VF32 _ => TF32 | VBool _ => TBool | VString _ => TString
  | VArray _ => TArray | VU64 _ => TU64 | VI64 _ => TI64 | VF64 _ => TF64
  end.
Definition enc_value (m : MetaValue) : list Z :=
  match m with
  | VU8 v | VI8 v => le_encode 1 v
  | VU16 v | VI16 v => le_encode 2 v
  | VU32 v | VI32 v | VF32 v => le_encode 4 v
  | VU64 v | VI64 v | VF64 v => le_encode 8 v
  | VBool b => enc_bool b
  | VString s => enc_string s
  | VArray a => enc_array a
  end.

Definition enc_kv (kv : Str * MetaValue) : list Z :=
  enc_string kv.1 ++ le_encode 4 (type_tag (value_type kv.2)) ++ enc_value kv.2.
Definition enc_tensor (t : TensorInfo) : list Z :=
  enc_string (ti_name t) ++ le_encode 4 (Z.of_nat (List.length (ti_shape t)))
  ++ (ti_shape t ≫= le_encode 8) ++ le_encode 4 (ggml_tag (ti_dtype t))
  ++ le_encode 8 (ti_offset t).

Definition enc_header (version : Z) (kvs : list (Str * MetaValue)) (tensors : list TensorInfo)
    : list Z :=
  le_encode 4 GGUF_MAGIC ++ le_encode 4 version ++ le_encode 8 (Z.of_nat (List.length tensors))
  ++ le_encode 8 (Z.of_nat (List.length kvs)) ++ (kvs ≫= enc_kv) ++ (tensors ≫= enc_tensor).

Definition file_alignment (kvs : list (Str * MetaValue)) : Z :=
  default GGUF_DEFAULT_ALIGNMENT (get_u64 (insert_all kvs) (bytes_of_string "general.alignment")).

Definition enc_file (version : Z) (kvs : list (Str * MetaValue)) (tensors : list TensorInfo)
    (data : list Z) : list Z :=
  let h := enc_header version kvs tensors in
  let a := file_alignment kvs in
  let n := Z.of_nat (List.length h) in
  h ++ replicate (Z.to_nat (div_ceil n a * a - n)) 0 ++ data.

(** Values of their Rust types; numbers of the three kinds. *)
Definition array_wf (a : MetaArray) : Prop :=
  match a with
  | AU8 v => Forall (uint 8) v | AU16 v => Forall (uint 16) v
  | AU32 v | AF32 v => Forall (uint 32) v | AU64 v | AF64 v => Forall (uint 64) v
  | AI8 v => Forall (sint 8) v | AI16 v => Forall (sint 16) v
  | AI32 v => Forall (sint 32) v | AI64 v => Forall (sint 64) v
  | ABool _ => True
  | AString v => Forall (λ s, utf8_valid s = true) v
  end.
Definition value_wf (m : MetaValue) : Prop :=
  match m with
  | VU8 v => uint 8 v | VU16 v => uint 16 v | VU32 v | VF32 v => uint 32 v
  | VU64 v | VF64 v => uint 64 v
  | VI8 v => sint 8 v | VI16 v => sint 16 v | VI32 v => sint 32 v | VI64 v => sint 64 v
  | VBool _ => True
  | VString s => utf8_valid s = true
  | VArray a => array_wf a
  end.
Definition kv_wf (kv : Str * MetaValue) : Prop := utf8_valid kv.1 = true ∧ value_wf kv.2.
Definition tensor_info_wf (t : TensorInfo) : Prop :=
  utf8_valid (ti_name t) = true ∧ Forall (uint 64) (ti_shape t) ∧ uint 64 (ti_offset t)
  ∧ Z.of_nat (List.length (ti_shape t)) < 2 ^ 32.

(** ** Lemmas: a reader parses an encoding *)

Lemma slice_range_at {E} (pre bs post : list Z) n :
  n = Z.of_nat (List.length pre) + Z.of_nat (List.length bs) →
  @slice_range E _ (pre ++ bs ++ post) (Z.of_nat (List.length pre)) n = Ok bs.
Proof.
  intros ->. unfold slice_range. rewrite (proj2 (Z.ltb_ge _ _)) by lia.
  rewrite (proj2 (Z.ltb_ge _ _)) by (rewrite !length_app; lia). simpl. f_equal.
  rewrite Nat2Z.id, drop_app_length.
  replace (Z.to_nat _) with (List.length bs) by lia. apply take_app_length.
Qed.

Lemma type_tag_roundtrip t : MetaValueType_from_u32 (type_tag t) = Some t.
Proof. by destruct t. Qed.

Lemma le_encode_pos n x : (0 < List.length (le_encode (S n) x))%nat.
Proof. rewrite length_le_encode. lia. Qed.

Lemma bind_bytes bs : Forall is_byte bs → bs ≫= le_encode 1 = bs.
Proof.
  induction 1 as [|b bs Hb _ IH]; [done|]. rewrite bind_cons, IH. simpl. f_equal.
  by apply Z.mod_small.
Qed.

Lemma length_bind_pos {A} (xs : list A) (enc : A → list Z) :
  (∀ x, (0 < List.length (enc x))%nat) → (List.length xs ≤ List.length (xs ≫= enc))%nat.
Proof.
  intros Henc. induction xs as [|x xs IH]; csimpl; [done|]. rewrite length_app.
  specialize (Henc x). lia.
Qed.

Lemma enc_kv_pos kv : (0 < List.length (enc_kv kv))%nat.
Proof. unfold enc_kv, enc_string. rewrite !length_app, length_le_encode. lia. Qed.

Lemma enc_tensor_pos t : (0 < List.length (enc_tensor t))%nat.
Proof. unfold enc_tensor, enc_string. rewrite !length_app, length_le_encode. lia. Qed.

Section parses.
Context (oom : Z → bool) (buf : list Z).
Hypothesis no_oom : ∀ n, oom n = false.
Hypothesis buf_small : Z.of_nat (List.length buf) < 2 ^ 56.

Definition parses {A} (m : reader A) (bs : list Z) (x : A) : Prop :=
  ∀ pre post, buf = pre ++ bs ++ post →
    m (Z.of_nat (List.length pre))
    = Ok (x, Z.of_nat (List.length pre) + Z.of_nat (List.length bs)).

Lemma parses_ret {A} (x : A) : parses (reader_ret x) [] x.
Proof using Type. intros pre post _. unfold reader_ret. simpl. by rewrite Z.add_0_r. Qed.

Lemma parses_bind {A B} (m : reader A) (k : A → reader B) bs x bs' y :
  parses m bs x → parses (k x) bs' y → parses (reader_bind m k) (bs ++ bs') y.
Proof using Type.
  intros Hm Hk pre post Hb. unfold reader_bind. rewrite (Hm pre (bs' ++ post)).
  - simpl. rewrite <- Nat2Z.inj_add, <- length_app, (Hk (pre ++ bs) post).
    + rewrite !length_app. do 2 f_equal. lia.
    + by rewrite Hb, <- !app_assoc.
  - by rewrite Hb, <- !app_assoc.
Qed.

Lemma parses_map {A B} (f : A → B) m bs x : parses m bs x → parses (reader_map f m) bs (f x).
Proof using Type.
  intros Hm. rewrite <- (app_nil_r bs). eapply parses_bind; [exact Hm|]. apply parses_ret.
Qed.

Lemma parses_lift {A} (r : res GgufError A) x : r = Ok x → parses (reader_lift r) [] x.
Proof using Type. intros ->. exact (parses_ret x). Qed.

Lemma parses_conv {A} (m : reader A) bs x x' : x = x' → parses m bs x → parses m bs x'.
Proof using Type. by intros ->. Qed.

Lemma need_ok pre bs post :
  buf = pre ++ bs ++ post →
  need buf (Z.of_nat (List.length bs)) (Z.of_nat (List.length pre))
  = Ok (tt, Z.of_nat (List.length pre))
  ∧ wrap 64 (Z.of_nat (List.length pre) + Z.of_nat (List.length bs))
    = Z.of_nat (List.length pre) + Z.of_nat (List.length bs).
Proof using buf_small.
  intros Hb. assert (List.length buf = List.length pre + (List.length bs + List.length post))%nat
    as Hl by (rewrite Hb, !length_app; lia).
  assert (wrap 64 (Z.of_nat (List.length pre) + Z.of_nat (List.length bs))
    = Z.of_nat (List.length pre) + Z.of_nat (List.length bs)) as Hw
    by (apply wrap_small; unfold uint; lia).
  split; [|done]. unfold need. rewrite Hw, (proj2 (Z.ltb_ge _ _)) by lia. done.
Qed.

Lemma parses_slice bs : parses (read_slice buf (Z.of_nat (List.length bs))) bs bs.
Proof using buf_small.
  intros pre post Hb. destruct (need_ok pre bs post Hb) as [Hn Hw].
  unfold read_slice, reader_bind. rewrite Hn. simpl. rewrite Hw. rewrite Hb at 1.
  by rewrite slice_range_at.
Qed.

Lemma parses_le n x :
  parses (reader_map le_decode (read_slice buf (Z.of_nat n))) (le_encode n x)
    (x mod 2 ^ (8 * Z.of_nat n)).
Proof using buf_small.
  eapply parses_conv; [apply le_decode_encode|]. apply parses_map.
  rewrite <- (length_le_encode n x) at 1. apply parses_slice.
Qed.

Lemma parses_u8 x : uint 8 x → parses (read_u8 buf) (le_encode 1 x) x.
Proof using buf_small.
  intros Hx. eapply parses_conv; [|exact (parses_le 1 x)]. by apply Z.mod_small.
Qed.
Lemma parses_u16 x : uint 16 x → parses (read_u16 buf) (le_encode 2 x) x.
Proof using buf_small.
  intros Hx. eapply parses_conv; [|exact (parses_le 2 x)]. by apply Z.mod_small.
Qed.
Lemma parses_u32 x : uint 32 x → parses (read_u32 buf) (le_encode 4 x) x.
Proof using buf_small.
  intros Hx. eapply parses_conv; [|exact (parses_le 4 x)]. by apply Z.mod_small.
Qed.
Lemma parses_u64 x : uint 64 x → parses (read_u64 buf) (le_encode 8 x) x.
Proof using buf_small.
  intros Hx. eapply parses_conv; [|exact (parses_le 8 x)]. by apply Z.mod_small.
Qed.

(** A signed integer read from its two's complement bytes. *)
Lemma parses_signed n w x :
  w = 8 * Z.of_nat n → 0 < w → sint w x →
  parses (reader_map (swrap w) (reader_map le_decode (read_slice buf (Z.of_nat n))))
    (le_encode n x) x.
Proof using buf_small.
  intros -> Hw Hx. eapply parses_conv; [|apply parses_map, parses_le].
  unfold swrap. rewrite Zplus_mod_idemp_l. by apply swrap_small.
Qed.
Lemma parses_i8 x : sint 8 x → parses (read_i8 buf) (le_encode 1 x) x.
Proof using buf_small. by apply (parses_signed 1 8). Qed.
Lemma parses_i16 x : sint 16 x → parses (read_i16 buf) (le_encode 2 x) x.
Proof using buf_small. by apply (parses_signed 2 16). Qed.
Lemma parses_i32 x : sint 32 x → parses (read_i32 buf) (le_encode 4 x) x.
Proof using buf_small. by apply (parses_signed 4 32). Qed.
Lemma parses_i64 x : sint 64 x → parses (read_i64 buf) (le_encode 8 x) x.
Proof using buf_small. by apply (parses_signed 8 64). Qed.

Lemma parses_bool b : parses (read_bool buf) (enc_bool b) b.
Proof using buf_small.
  assert (enc_bool b = le_encode 1 (if b then 1 else 0)) as -> by (by destruct b).
  eapply parses_conv; [|apply parses_map, (parses_u8 (if b then 1 else 0))].
  - by destruct b.
  - unfold uint. destruct b; lia.
Qed.

Lemma parses_string s : utf8_valid s = true → parses (read_string buf) (enc_string s) s.
Proof using buf_small.
  intros Hu pre post Hb. unfold enc_string in *. set (n := Z.of_nat (List.length s)) in *.
  assert (uint 64 n) as Hn.
  { assert (List.length buf = List.length pre + (8 + List.length s + List.length post))%nat
      by (rewrite Hb, !length_app, length_le_encode; lia). unfold uint, n. lia. }
  rewrite <- app_assoc in Hb. unfold read_string, reader_bind.
  rewrite (parses_u64 n Hn pre (s ++ post) Hb). simpl.
  replace (Z.of_nat (List.length pre) + Z.of_nat 8)
    with (Z.of_nat (List.length (pre ++ le_encode 8 n)))
    by (rewrite length_app, length_le_encode; lia).
  destruct (need_ok (pre ++ le_encode 8 n) s post) as [Hnd Hw]; [by rewrite <- app_assoc|].
  fold n in Hnd, Hw. rewrite Hnd. cbn [rbind fst snd]. rewrite Hw.
  rewrite Hb at 1. rewrite app_assoc, slice_range_at by done. cbn [rbind fst snd]. rewrite Hu.
  rewrite length_app, length_le_encode. do 2 f_equal. unfold n. simpl. lia.
Qed.

Lemma parses_times {A} (f : reader A) (enc : A → list Z) (P : A → Prop) xs n :
  (∀ x, P x → parses f (enc x) x) → Forall P xs → n = List.length xs →
  parses (read_times n f) (xs ≫= enc) xs.
Proof using Type.
  intros Hf Hxs ->. induction Hxs as [|x xs Hx _ IH]; csimpl; [apply parses_ret|].
  eapply parses_bind; [by apply Hf|]. rewrite <- (app_nil_r (xs ≫= enc)).
  eapply parses_bind; [exact IH|]. apply parses_ret.
Qed.

(** A capacity that the rest of the file bounds does not overflow. *)
Lemma parses_capacity {A} size n (m : reader A) bs x :
  0 < size ≤ 64 → n ≤ Z.of_nat (List.length bs) → parses m bs x →
  parses (let* _ := with_capacity oom size n in m) bs x.
Proof using no_oom buf_small.
  intros Hsize Hn Hm pre post Hb.
  assert (List.length buf = List.length pre + (List.length bs + List.length post))%nat
    as Hbl by (rewrite Hb, !length_app; lia).
  unfold reader_bind, with_capacity. rewrite no_oom, orb_false_r.
  rewrite (proj2 (Z.ltb_ge _ _)) by nia. simpl. by apply (Hm pre post).
Qed.

Lemma parses_vec {A} size (f : reader A) (enc : A → list Z) (P : A → Prop) xs n :
  (∀ x, P x → parses f (enc x) x) → Forall P xs → n = Z.of_nat (List.length xs) →
  0 < size ≤ 64 → (∀ x, (0 < List.length (enc x))%nat) →
  parses (read_vec oom size n f) (xs ≫= enc) xs.
Proof using no_oom buf_small.
  intros Hf Hxs -> Hsize Henc. apply parses_capacity; [done| |].
  - apply Nat2Z.inj_le. by apply length_bind_pos.
  - eapply parses_times; [exact Hf|exact Hxs|lia].
Qed.

Lemma parses_type {A} t (k : MetaValueType → reader A) bs x :
  parses (k t) bs x →
  parses (let* tag := read_u32 buf in
          let* vt := reader_lift (ok_or (UnknownMetaType tag) (MetaValueType_from_u32 tag)) in
          k vt)
    (le_encode 4 (type_tag t) ++ bs) x.
Proof using buf_small.
  intros Hk. eapply parses_bind; [apply parses_u32; destruct t; vm_compute; split; congruence|].
  rewrite <- (app_nil_l bs). eapply parses_bind; [|exact Hk].
  apply parses_lift. by rewrite type_tag_roundtrip.
Qed.

Lemma count_uint {A} (xs : list A) enc pre post :
  (∀ x, (0 < List.length (enc x : list Z))%nat) → buf = pre ++ (xs ≫= enc) ++ post →
  uint 64 (Z.of_nat (List.length xs)).
Proof using buf_small.
  intros Henc Hb. pose proof (length_bind_pos xs enc Henc).
  assert (List.length buf = List.length pre + (List.length (xs ≫= enc) + List.length post))%nat
    as Hbl by (rewrite Hb, !length_app; lia).
  unfold uint. lia.
Qed.

(** A count, then as many items, whatever the reader does in between. *)
Lemma parses_counted {A B} (k : Z → reader B) (xs : list A) enc y :
  (∀ x, (0 < List.length (enc x : list Z))%nat) →
  parses (k (Z.of_nat (List.length xs))) (xs ≫= enc) y →
  parses (reader_bind (read_u64 buf) k)
    (le_encode 8 (Z.of_nat (List.length xs)) ++ (xs ≫= enc)) y.
Proof using buf_small.
  intros Henc Hk pre post Hb.
  assert (uint 64 (Z.of_nat (List.length xs))) as Hn.
  { apply (count_uint xs enc (pre ++ le_encode 8 (Z.of_nat (List.length xs))) post Henc).
    by rewrite Hb, <- !app_assoc. }
  exact (parses_bind _ _ _ _ _ _ (parses_u64 _ Hn) Hk pre post Hb).
Qed.

Lemma parses_array a : array_wf a → parses (read_array oom buf) (enc_array a) a.
Proof using no_oom buf_small.
  intros Hwf. unfold read_array, enc_array. apply parses_type.
  destruct a; simpl in Hwf; simpl MetaArray_len; simpl array_type; apply parses_counted;
    try (intros; apply le_encode_pos); try (intros []; simpl; lia);
    try (intros; unfold enc_string; rewrite length_app, length_le_encode; lia).
  1: { assert (v ≫= le_encode 1 = v) as -> by (apply bind_bytes; exact Hwf).
       apply parses_capacity; [lia|done|]. apply parses_map, parses_slice. }
  all: apply parses_map; eapply parses_vec; [|eassumption || (by apply (Forall_true (λ _, True)))|done|lia|];
    try (intros; apply le_encode_pos); try (intros []; simpl; lia);
    try (intros; unfold enc_string; rewrite length_app, length_le_encode; lia).
  all: intros x Hx.
  - by apply parses_i8.
  - by apply parses_u16.
  - by apply parses_i16.
  - by apply parses_u32.
  - by apply parses_i32.
  - by apply parses_u32.
  - exact (parses_bool x).
  - by apply parses_string.
  - by apply parses_u64.
  - by apply parses_i64.
  - by apply parses_u64.
Qed.

Lemma parses_value v : value_wf v → parses (read_value oom buf (value_type v)) (enc_value v) v.
Proof using no_oom buf_small.
  destruct v; simpl; intros Hwf; apply parses_map.
  - by apply parses_u8.
  - by apply parses_i8.
  - by apply parses_u16.
  - by apply parses_i16.
  - by apply parses_u32.
  - by apply parses_i32.
  - by apply parses_u32.
  - apply parses_bool.
  - by apply parses_string.
  - by apply parses_array.
  - by apply parses_u64.
  - by apply parses_i64.
  - by apply parses_u64.
Qed.

Lemma parses_kv kv : kv_wf kv → parses (read_kv oom buf) (enc_kv kv) kv.
Proof using no_oom buf_small.
  intros [Hk Hv]. unfold read_kv, enc_kv. eapply parses_bind; [by apply parses_string|].
  apply (parses_type _ (λ vt, let* val := read_value oom buf vt in reader_ret (kv.1, val))).
  rewrite <- (app_nil_r (enc_value kv.2)). eapply parses_bind; [by apply parses_value|].
  destruct kv. apply parses_ret.
Qed.

Lemma parses_tensor t : tensor_info_wf t → parses (read_tensor oom buf) (enc_tensor t) t.
Proof using no_oom buf_small.
  intros (Hn & Hs & Ho & Hd). unfold read_tensor, enc_tensor.
  eapply parses_bind; [by apply parses_string|].
  eapply parses_bind; [apply parses_u32; unfold uint; lia|].
  eapply parses_bind.
  { eapply parses_vec; [|exact Hs|done|lia|intros; apply le_encode_pos].
    intros x Hx. by apply parses_u64. }
  eapply parses_bind.
  { apply parses_u32. destruct (ti_dtype t); vm_compute; split; congruence. }
  rewrite <- (app_nil_l (le_encode 8 _)). eapply parses_bind.
  { apply parses_lift. instantiate (1 := ti_dtype t). by destruct (ti_dtype t). }
  rewrite <- (app_nil_r (le_encode 8 _)). eapply parses_bind; [by apply parses_u64|].
  destruct t. apply parses_ret.
Qed.

Lemma parses_header version kvs tensors :
  version = 2 ∨ version = 3 → Forall kv_wf kvs → Forall tensor_info_wf tensors →
  uint 64 (Z.of_nat (List.length kvs)) → uint 64 (Z.of_nat (List.length tensors)) →
  parses (read_header oom buf) (enc_header version kvs tensors)
    (version, insert_all kvs, tensors).
Proof using no_oom buf_small.
  intros Hv Hk Ht Hnk Hnt. unfold read_header, enc_header.
  eapply parses_bind; [apply parses_u32; vm_compute; split; congruence|]. rewrite Z.eqb_refl. cbn [negb].
  eapply parses_bind; [apply parses_u32; unfold uint; lia|].
  assert (negb (version =? 2) && negb (version =? 3) = false) as -> by (by destruct Hv as [->| ->]).
  eapply parses_bind; [by apply parses_u64|]. eapply parses_bind; [by apply parses_u64|].
  eapply parses_bind.
  { eapply parses_times; [|exact Hk|lia]. intros kv Hkv. by apply parses_kv. }
  rewrite <- (app_nil_r (tensors ≫= enc_tensor)). eapply parses_bind; [|apply parses_ret].
  eapply parses_vec; [|exact Ht|done|lia|apply enc_tensor_pos].
  intros t Hti. by apply parses_tensor.
Qed.
End parses.

Lemma check_tensors_ok data_len tensors :
  check_tensors data_len tensors = Ok tt ↔
  Forall (λ t, wrap 64 (ti_offset t + byte_size t) ≤ data_len) tensors.
Proof.
  unfold check_tensors. induction tensors as [|t tensors IH]; simpl.
  { split; [constructor|done]. }
  rewrite Forall_cons. destruct (Z.ltb_spec data_len (wrap 64 (ti_offset t + byte_size t))); simpl.
  - split; [done|]. intros [? _]. lia.
  - rewrite IH. split; [auto|by intros []].
Qed.

Lemma byte_size_uint t : uint 64 (byte_size t).
Proof. unfold byte_size, byte_size_for. apply wrap_uint. lia. Qed.

Lemma slice_range_Ok {E A} (l : list A) start end_ :
  0 ≤ start ≤ end_ → end_ ≤ Z.of_nat (List.length l) →
  @slice_range E A l start end_ = Ok (take (Z.to_nat (end_ - start)) (drop (Z.to_nat start) l)).
Proof.
  intros Hs He. unfold slice_range. rewrite !(proj2 (Z.ltb_ge _ _)) by lia. done.
Qed.

Lemma enc_file_length version kvs tensors data :
  0 < file_alignment kvs →
  let n := Z.of_nat (List.length (enc_header version kvs tensors)) in
  let a := file_alignment kvs in
  Z.of_nat (List.length (enc_file version kvs tensors data))
  = div_ceil n a * a + Z.of_nat (List.length data)
  ∧ n ≤ div_ceil n a * a.
Proof.
  intros Ha n a. pose proof (div_ceil_bounds n a ltac:(lia) Ha). unfold enc_file.
  rewrite !length_app, length_replicate. fold n a. split; lia.
Qed.

(** ** Properties *)


(** whatever the bytes (of a length below 2^63), if [from_bytes] accepts
    them, the data section starts within the file and a tensor's end does not
    wrap, then [tensor_bytes] does not panic and returns exactly [byte_size]
    bytes, those of the file at the data section's start plus the tensor's
    offset. *)
Theorem gguf_tensor_bounds oom bytes f t :
  GgufFile_from_bytes oom bytes = Ok f → Z.of_nat (List.length bytes) < 2 ^ 63 →
  gf_data_offset f ≤ Z.of_nat (List.length bytes) →
  t ∈ gf_tensors f → 0 ≤ ti_offset t → ti_offset t + byte_size t < 2 ^ 64 →
  gf_bytes f = bytes ∧
  ∃ bs, tensor_bytes f t = Ok bs ∧ Z.of_nat (List.length bs) = byte_size t
    ∧ bs = take (Z.to_nat (byte_size t))
             (drop (Z.to_nat (gf_data_offset f + ti_offset t)) bytes).
Proof.
  intros Hf Hlen Hoff Hin Hot Hend. unfold GgufFile_from_bytes in Hf.
  apply rbind_Ok in Hf as ([[[version md] ts] pos] & _ & Hf).
  set (a := default _ _) in *. apply rbind_Ok in Hf as (blocks & Hb & Hf).
  apply rbind_Ok in Hf as ([] & Hc & Hf). injection Hf as <-. simpl in *.
  pose proof (byte_size_uint t) as [Hbs _].
  pose proof (wrap_uint 64 (blocks * a) ltac:(lia)) as [Hd0 _].
  set (d := wrap 64 (blocks * a)) in *.
  apply check_tensors_ok in Hc. rewrite Forall_forall in Hc. specialize (Hc t Hin).
  rewrite !wrap_small in Hc by (unfold uint; lia).
  split; [done|]. unfold tensor_bytes; simpl.
  rewrite (wrap_small 64 (d + ti_offset t)) by (unfold uint; lia).
  rewrite wrap_small by (unfold uint; lia). rewrite slice_range_Ok by lia.
  eexists. split; [done|].
  replace (d + ti_offset t + byte_size t - (d + ti_offset t)) with (byte_size t) by lia.
  split; [|done]. rewrite length_take, length_drop. lia.
Qed.

(** A version 3 file with one [F32] tensor of four elements. *)
Definition sample_info : TensorInfo := mkTensorInfo (bytes_of_string "w") [4] GF32 0.
Definition sample_kvs : list (Str * MetaValue) :=
  [(bytes_of_string "general.architecture", VString (bytes_of_string "toy"));
   (bytes_of_string "toy.block_count", VU32 2)].
Definition sample_data : list Z := replicate 16 7.
Definition sample_file : list Z := enc_file 3 [] [sample_info] sample_data.

(** a file cut inside its data section is rejected, but one cut before the
    data section starts is accepted: the size of the data section is computed
    by a subtraction that wraps, every tensor passes the check, and
    [tensor_bytes] then panics. *)
Theorem gguf_truncated_accepted :
  (∃ n d, GgufFile_from_bytes (λ _, false) (take 70 sample_file) = Err (TensorOffsetOob n 0 d))
  ∧ ∃ f, GgufFile_from_bytes (λ _, false) (take 60 sample_file) = Ok f
      ∧ gf_tensors f = [sample_info] ∧ tensor_bytes f sample_info = Panic.
Proof.
  split.
  - eexists _, _. vm_compute. reflexivity.
  - eexists. split; [vm_compute; reflexivity|]. split; vm_compute; reflexivity.
Qed.

(** *** Witnesses *)


Lemma gguf_tensor_bounds_witness :
  ∃ f bs, GgufFile_from_bytes (λ _, false) sample_file = Ok f
    ∧ tensor_bytes f sample_info = Ok bs ∧ Z.of_nat (List.length bs) = 16.
Proof.
  destruct (GgufFile_from_bytes (λ _, false) sample_file) as [f|e|] eqn:Hf;
    [|vm_compute in Hf; discriminate..].
  destruct (gguf_tensor_bounds (λ _, false) sample_file f sample_info Hf) as (_ & bs & Hb & Hl & _).
  - vm_compute. reflexivity.
  - vm_compute in Hf. injection Hf as <-. vm_compute. congruence.
  - vm_compute in Hf. injection Hf as <-. left.
  - vm_compute. congruence.
  - vm_compute. reflexivity.
  - exists f, bs. split; [reflexivity|]. split; [exact Hb|]. rewrite Hl. vm_compute. reflexivity.
Defined.
