(* ===== verification/Dequant.v ===== *)
(** * Dequantization (crates/rustorch-gguf/src/dequant.rs)

    The block formats of quantized weights and their expansion to [f32].  The
    [half] crate's widening conversions are parameters; an [f32] is its bits. *)

From Stdlib Require Import ZArith Lia ZifyNat.
From stdpp Require Import base list.
From S2P Require Import Prelude Dtype Float Gguf.

(** [enum DequantError] *)
Inductive DequantError :=
  | Unsupported (t : GgmlType)
  | BufferTooSmall (needed have : Z)
  | OutputSize (expected got : Z).

Definition Q8_0_BS : Z := 32.
Definition Q8_0_BYTES : Z := 2 + 32.
Definition QK_K : Z := 256.
Definition Q4_K_BYTES : Z := 2 + 2 + 12 + 128.
Definition Q5_K_BYTES : Z := 2 + 2 + 12 + 32 + 128.
Definition Q6_K_BYTES : Z := 128 + 64 + 16 + 2.
Definition Q3_K_BYTES : Z := 32 + 64 + 12 + 2.

(** [f32] arithmetic and [x as f32]. *)
Notation "x ⊗ y" := (fmul binary32 x y) (at level 40, left associativity).
Notation "x ⊕ y" := (fadd binary32 x y) (at level 50, left associativity).
Notation "x ⊖ y" := (fsub binary32 x y) (at level 50, left associativity).
Definition f32_of (x : Z) : Z := fof_int binary32 x.

(** A range of a block, and a loop that pushes one value per index.  Indices
    into a block are constants below its size. *)
Definition sub (l : list Z) (off len : nat) : list Z := take len (drop off l).
Definition for_each (n : nat) (f : nat → Z) : list Z := f <$> seq 0 n.

Section dequant.
Context (f16_to_f32 bf16_to_f32 : Z → Z).

(** [f16::from_le_bytes([b[off], b[off + 1]]).to_f32()] *)
Definition f16_at (blk : list Z) (off : nat) : Z := f16_to_f32 (le_decode (sub blk off 2)).

(** The dense formats: [src[..needed].chunks_exact(size)]. *)
Definition dequant_dense (size : nat) (widen : Z → Z) (src : list Z) (n : Z)
    : res DequantError (list Z) :=
  let needed := n * Z.of_nat size in
  if Z.of_nat (length src) <? needed then Err (BufferTooSmall needed (Z.of_nat (length src)))
  else Ok (for_each (Z.to_nat n) (λ i, widen (le_decode (sub src (i * size) size)))).

Definition dequant_f32 := dequant_dense 4 id.
Definition dequant_f16 := dequant_dense 2 f16_to_f32.
Definition dequant_bf16 := dequant_dense 2 bf16_to_f32.

(** The block loop: the size checks, then each block in turn. *)
Definition dequant_blocks (bs bytes : Z) (block : list Z → list Z) (src : list Z) (n : Z)
    : res DequantError (list Z) :=
  if negb (n mod bs =? 0) then Err (OutputSize (n / bs * bs) n)
  else
    let nb := n / bs in
    let needed := nb * bytes in
    if Z.of_nat (length src) <? needed then Err (BufferTooSmall needed (Z.of_nat (length src)))
    else
      let? outs := rmapM (λ b,
          let off := Z.of_nat b * bytes in
          let? blk := slice_range src off (off + bytes) in
          Ok (block blk))
        (seq 0 (Z.to_nat nb)) in
      Ok (concat outs).

(** *** Q8_0 *)
Definition q8_0_block (blk : list Z) : list Z :=
  let d := f16_at blk 0 in
  let qs := sub blk 2 32 in
  for_each 32 (λ i, f32_of (swrap 8 (qs !!! i)) ⊗ d).

Definition dequant_q8_0 := dequant_blocks Q8_0_BS Q8_0_BYTES q8_0_block.

(** *** Q4_K *)
Definition unpack_q4_k_sc_m (scales : list Z) : list Z * list Z :=
  let s i := scales !!! (i : nat) in
  (for_each 4 (λ i, Z.land (s i) 0x3f)
     ++ for_each 4 (λ i, Z.lor (Z.land (s (i + 8)%nat) 0x0f) (Z.shiftl (Z.shiftr (s i) 6) 4)),
   for_each 4 (λ i, Z.land (s (i + 4)%nat) 0x3f)
     ++ for_each 4 (λ i, Z.lor (Z.shiftr (s (i + 8)%nat) 4)
                           (Z.shiftl (Z.shiftr (s (i + 4)%nat) 6) 4))).

Definition q4_k_block (blk : list Z) : list Z :=
  let d := f16_at blk 0 in
  let dmin := f16_at blk 2 in
  let '(sc, m) := unpack_q4_k_sc_m (sub blk 4 12) in
  let qs := sub blk 16 128 in
  concat ((λ j_pair : nat,
      let j0 := (2 * j_pair)%nat in
      let j1 := (2 * j_pair + 1)%nat in
      let nibbles := sub qs (j_pair * 32) 32 in
      let scale0 := d ⊗ f32_of (sc !!! j0) in
      let min0 := dmin ⊗ f32_of (m !!! j0) in
      let scale1 := d ⊗ f32_of (sc !!! j1) in
      let min1 := dmin ⊗ f32_of (m !!! j1) in
      for_each 32 (λ k, scale0 ⊗ f32_of (Z.land (nibbles !!! k) 0x0f) ⊖ min0)
      ++ for_each 32 (λ k, scale1 ⊗ f32_of (Z.shiftr (nibbles !!! k) 4) ⊖ min1))
    <$> seq 0 4).

Definition dequant_q4_k := dequant_blocks QK_K Q4_K_BYTES q4_k_block.

(** *** Q5_K *)
Definition q5_k_block (blk : list Z) : list Z :=
  let d := f16_at blk 0 in
  let dmin := f16_at blk 2 in
  let '(sc, m) := unpack_q4_k_sc_m (sub blk 4 12) in
  let qh := sub blk 16 32 in
  let qs_all := sub blk 48 128 in
  concat ((λ pair : nat,
      let u1 := wrap 8 (Z.shiftl 1 (2 * Z.of_nat pair)) in
      let u2 := wrap 8 (Z.shiftl 2 (2 * Z.of_nat pair)) in
      let sb0 := (2 * pair)%nat in
      let sb1 := (2 * pair + 1)%nat in
      let scale0 := d ⊗ f32_of (sc !!! sb0) in
      let min0 := dmin ⊗ f32_of (m !!! sb0) in
      let scale1 := d ⊗ f32_of (sc !!! sb1) in
      let min1 := dmin ⊗ f32_of (m !!! sb1) in
      let ql := sub qs_all (pair * 32) 32 in
      for_each 32 (λ l,
        let low := f32_of (Z.land (ql !!! l) 0x0f) in
        let high := f32_of (if Z.land (qh !!! l) u1 =? 0 then 0 else 16) in
        scale0 ⊗ (low ⊕ high) ⊖ min0)
      ++ for_each 32 (λ l,
        let low := f32_of (Z.shiftr (ql !!! l) 4) in
        let high := f32_of (if Z.land (qh !!! l) u2 =? 0 then 0 else 16) in
        scale1 ⊗ (low ⊕ high) ⊖ min1))
    <$> seq 0 4).

Definition dequant_q5_k := dequant_blocks QK_K Q5_K_BYTES q5_k_block.

(** *** Q3_K *)
Definition KMASK1 : Z := 0x03030303.
Definition KMASK2 : Z := 0x0f0f0f0f.

Definition q3_k_scales (sc_raw : list Z) : list Z :=
  let aux0 := le_decode (sub sc_raw 0 4) in
  let aux1 := le_decode (sub sc_raw 4 4) in
  let aux2_raw := le_decode (sub sc_raw 8 4) in
  let high k := wrap 32 (Z.shiftl (Z.land (Z.shiftr aux2_raw k) KMASK1) 4) in
  let aux2 := Z.lor (Z.land (Z.shiftr aux0 4) KMASK2) (high 4) in
  let aux3 := Z.lor (Z.land (Z.shiftr aux1 4) KMASK2) (high 6) in
  let aux0 := Z.lor (Z.land aux0 KMASK2) (high 0) in
  let aux1 := Z.lor (Z.land aux1 KMASK2) (high 2) in
  [aux0; aux1; aux2; aux3] ≫=
    λ aux, for_each 4 (λ k, Z.land (Z.shiftr aux (8 * Z.of_nat k)) 0xff).

Definition q3_k_block (blk : list Z) : list Z :=
  let hmask := sub blk 0 32 in
  let qs := sub blk 32 64 in
  let scales_u8 := q3_k_scales (sub blk 96 12) in
  let d_all := f16_at blk 108 in
  (* the [is] and [m] of pass [j] of half [h] *)
  let pass h j :=
    let q_chunk := sub qs (32 * h) 32 in
    let shift := 2 * Z.of_nat j in
    let m := wrap 8 (Z.shiftl 1 (Z.of_nat (4 * h + j))) in
    let group (g : nat) :=
      let dl := d_all ⊗ f32_of (swrap 8 (scales_u8 !!! (8 * h + 2 * j + g)%nat) - 32) in
      for_each 16 (λ l,
        let q_lo := Z.land (Z.shiftr (q_chunk !!! (l + 16 * g)%nat) shift) 0x03 in
        let h_bit := negb (Z.land (hmask !!! (l + 16 * g)%nat) m =? 0) in
        dl ⊗ f32_of (q_lo - if h_bit then 0 else 4)) in
    group 0%nat ++ group 1%nat in
  concat ((λ h : nat, concat ((λ j : nat, pass h j) <$> seq 0 4)) <$> seq 0 2).

Definition dequant_q3_k := dequant_blocks QK_K Q3_K_BYTES q3_k_block.

(** *** Q6_K *)
Definition q6_k_block (blk : list Z) : list Z :=
  let ql := sub blk 0 128 in
  let qh := sub blk 128 64 in
  let scales_i8 := sub blk 192 16 in
  let d := f16_at blk 208 in
  concat ((λ half : nat,
      let ql_h := sub ql (half * 64) 64 in
      let qh_h := sub qh (half * 32) 32 in
      let sc_h := sub scales_i8 (half * 8) 8 in
      let high l k := Z.shiftl (Z.land (Z.shiftr (qh_h !!! l) k) 0x03) 4 in
      let s (g l : nat) := d ⊗ f32_of (swrap 8 (sc_h !!! (g + l / 16)%nat)) in
      for_each 32 (λ l,
        s 0%nat l ⊗ f32_of (Z.lor (Z.land (ql_h !!! l) 0x0f) (high l 0) - 32))
      ++ for_each 32 (λ l,
        s 2%nat l ⊗ f32_of (Z.lor (Z.land (ql_h !!! (l + 32)%nat) 0x0f) (high l 2) - 32))
      ++ for_each 32 (λ l,
        s 4%nat l ⊗ f32_of (Z.lor (Z.shiftr (ql_h !!! l) 4) (high l 4) - 32))
      ++ for_each 32 (λ l,
        s 6%nat l ⊗ f32_of (Z.lor (Z.shiftr (ql_h !!! (l + 32)%nat) 4) (high l 6) - 32)))
    <$> seq 0 2).

Definition dequant_q6_k := dequant_blocks QK_K Q6_K_BYTES q6_k_block.

(** [dequantize_block_chunk], of a destination of [n] values. *)
Definition dequantize_block_chunk (dtype : GgmlType) (src : list Z) (n : Z)
    : res DequantError (list Z) :=
  match dtype with
  | GF32 => dequant_f32 src n
  | GF16 => dequant_f16 src n
  | GBF16 => dequant_bf16 src n
  | Q8_0 => dequant_q8_0 src n
  | Q3_K => dequant_q3_k src n
  | Q4_K => dequant_q4_k src n
  | Q5_K => dequant_q5_k src n
  | Q6_K => dequant_q6_k src n
  | other => Err (Unsupported other)
  end.

(** [dequant_to_f32], [num_elements] *)
Definition num_elements (t : TensorInfo) : Z := n_elements t.
Definition dequant_to_f32 (t : TensorInfo) (src : list Z) : res DequantError (list Z) :=
  dequantize_block_chunk (ti_dtype t) src (num_elements t).
End dequant.

(** ** Specification: the quantized blocks

    A block of each format as its numbers, the bytes the format gives them and
    the values they stand for. *)
Inductive qblock :=
  | B8_0 (d : Z) (q : nat → Z)
  | B4_K (d dmin : Z) (sc m q : nat → Z)
  | B5_K (d dmin : Z) (sc m q : nat → Z)
  | B6_K (d : Z) (sc q : nat → Z)
  | B3_K (d : Z) (sc q : nat → Z).

Definition block_dtype (b : qblock) : GgmlType :=
  match b with
  | B8_0 _ _ => Q8_0 | B4_K _ _ _ _ _ => Q4_K | B5_K _ _ _ _ _ => Q5_K
  | B6_K _ _ _ => Q6_K | B3_K _ _ _ => Q3_K
  end.

(** The widths of the numbers: scales of 6 bits (8 signed in Q6_K), weights of
    8 (signed), 4, 5, 6 and 3 bits. *)
Definition block_wf (b : qblock) : Prop :=
  match b with
  | B8_0 d q => uint 16 d ∧ ∀ i, sint 8 (q i)
  | B4_K d dmin sc m q =>
      uint 16 d ∧ uint 16 dmin ∧ (∀ i, uint 6 (sc i)) ∧ (∀ i, uint 6 (m i)) ∧ ∀ i, uint 4 (q i)
  | B5_K d dmin sc m q =>
      uint 16 d ∧ uint 16 dmin ∧ (∀ i, uint 6 (sc i)) ∧ (∀ i, uint 6 (m i)) ∧ ∀ i, uint 5 (q i)
  | B6_K d sc q => uint 16 d ∧ (∀ i, sint 8 (sc i)) ∧ ∀ i, uint 6 (q i)
  | B3_K d sc q => uint 16 d ∧ (∀ i, uint 6 (sc i)) ∧ ∀ i, uint 3 (q i)
  end.

(** The numbers [f 0], ..., [f (n-1)] as the digits of base [base]. *)
Fixpoint digits (base : Z) (n : nat) (f : nat → Z) : Z :=
  match n with
  | O => 0
  | S n => f O + base * digits base n (λ i, f (S i))
  end.

(** The 6-bit scales and mins in 12 bytes. *)
Definition enc_scales (sc m : nat → Z) : list Z :=
  for_each 4 (λ i, sc i + 64 * (sc (i + 4)%nat / 16))
  ++ for_each 4 (λ i, m i + 64 * (m (i + 4)%nat / 16))
  ++ for_each 4 (λ i, sc (i + 4)%nat mod 16 + 16 * (m (i + 4)%nat mod 16)).

(** Two nibbles per byte, 32 apart. *)
Definition enc_nibbles (q : nat → Z) : list Z :=
  for_each 128 (λ k, q (64 * (k / 32) + k mod 32)%nat mod 16
                     + 16 * (q (64 * (k / 32) + 32 + k mod 32)%nat mod 16)).

Definition enc_block (b : qblock) : list Z :=
  match b with
  | B8_0 d q => le_encode 2 d ++ for_each 32 (λ i, wrap 8 (q i))
  | B4_K d dmin sc m q => le_encode 2 d ++ le_encode 2 dmin ++ enc_scales sc m ++ enc_nibbles q
  | B5_K d dmin sc m q =>
      le_encode 2 d ++ le_encode 2 dmin ++ enc_scales sc m
      ++ for_each 32 (λ l, digits 2 8 (λ t, q (32 * t + l)%nat / 16)) ++ enc_nibbles q
  | B6_K d sc q =>
      for_each 128 (λ k, q (128 * (k / 64) + k mod 64)%nat mod 16
                         + 16 * (q (128 * (k / 64) + 64 + k mod 64)%nat mod 16))
      ++ for_each 64 (λ k, digits 4 4 (λ t, q (128 * (k / 32) + 32 * t + k mod 32)%nat / 16))
      ++ for_each 16 (λ i, wrap 8 (sc i)) ++ le_encode 2 d
  | B3_K d sc q =>
      for_each 32 (λ l, digits 2 8 (λ t, q (32 * t + l)%nat / 4))
      ++ for_each 64 (λ k, digits 4 4 (λ j, q (128 * (k / 32) + 32 * j + k mod 32)%nat mod 4))
      ++ (for_each 8 (λ k, sc k mod 16 + 16 * (sc (k + 8)%nat mod 16))
          ++ for_each 4 (λ k, digits 4 4 (λ t, sc (4 * t + k)%nat / 16)))
      ++ le_encode 2 d
  end.

Definition block_values (f16_to_f32 : Z → Z) (b : qblock) : list Z :=
  match b with
  | B8_0 d q => for_each 32 (λ i, f32_of (q i) ⊗ f16_to_f32 d)
  | B4_K d dmin sc m q | B5_K d dmin sc m q =>
      for_each 256 (λ i,
        (f16_to_f32 d ⊗ f32_of (sc (i / 32)%nat)) ⊗ f32_of (q i)
        ⊖ f16_to_f32 dmin ⊗ f32_of (m (i / 32)%nat))
  | B6_K d sc q =>
      for_each 256 (λ i, (f16_to_f32 d ⊗ f32_of (sc (i / 16)%nat)) ⊗ f32_of (q i - 32))
  | B3_K d sc q =>
      for_each 256 (λ i, (f16_to_f32 d ⊗ f32_of (sc (i / 16)%nat - 32)) ⊗ f32_of (q i - 4))
  end.

(** ** Lemmas *)

Ltac Zify.zify_post_hook ::= Z.to_euclidean_division_equations.

(** *** Lists given by their elements *)

Lemma length_for_each n f : length (for_each n f) = n.
Proof. unfold for_each. by rewrite length_fmap, length_seq. Qed.

Lemma for_each_total n f i : (i < n)%nat → for_each n f !!! i = f i.
Proof.
  intros Hi. apply list_lookup_total_correct. unfold for_each.
  by rewrite list_lookup_fmap, (proj2 (lookup_seq _ _ _ i)) by (split; [lia|done]).
Qed.

Lemma for_each_ext n f g : (∀ i, (i < n)%nat → f i = g i) → for_each n f = for_each n g.
Proof.
  intros H. apply list_fmap_ext. intros k i Hk. apply lookup_seq in Hk. apply H. lia.
Qed.

Lemma for_each_app a b f g :
  for_each a f ++ for_each b g
  = for_each (a + b) (λ i, if (i <? a)%nat then f i else g (i - a)%nat).
Proof.
  unfold for_each. rewrite seq_app, fmap_app. f_equal.
  - apply list_fmap_ext. intros k i Hk. apply lookup_seq in Hk.
    by rewrite (proj2 (Nat.ltb_lt _ _)) by lia.
  - replace (seq (0 + a) b) with (Nat.add a <$> seq 0 b) by (rewrite fmap_add_seq; f_equal; lia).
    rewrite <- list_fmap_compose.
    apply list_fmap_ext. intros k i Hk. simpl.
    rewrite (proj2 (Nat.ltb_ge _ _)) by lia. f_equal. lia.
Qed.

Lemma concat_for_each m n (h : nat → nat → Z) :
  (0 < n)%nat →
  concat ((λ j, for_each n (h j)) <$> seq 0 m)
  = for_each (m * n) (λ i, h (i / n)%nat (i mod n)%nat).
Proof.
  intros Hn. induction m as [|m IH]; [done|].
  rewrite seq_S, fmap_app, concat_app, IH. simpl fmap. simpl concat. rewrite app_nil_r, for_each_app.
  replace (S m * n)%nat with (m * n + n)%nat by lia. apply for_each_ext. intros i Hi.
  destruct (Nat.ltb_spec i (m * n)) as [|Hge]; [done|].
  assert (i = m * n + (i - m * n))%nat as Heq by lia. set (r := (i - m * n)%nat) in *.
  assert (i / n = m)%nat as ->.
  { symmetry. apply (Nat.div_unique _ _ _ r); lia. }
  assert (i mod n = r)%nat as ->; [|done].
  symmetry. apply (Nat.mod_unique _ _ m); lia.
Qed.

(** *** Ranges of a concatenation *)

Lemma sub_length l off len : (off + len ≤ length l)%nat → length (sub l off len) = len.
Proof. intros. unfold sub. rewrite length_take, length_drop. lia. Qed.

Lemma sub_total l off len i : (i < len)%nat → sub l off len !!! i = l !!! (off + i)%nat.
Proof.
  intros Hi. unfold sub. rewrite !list_lookup_total_alt. f_equal.
  by rewrite lookup_take_lt, lookup_drop by done.
Qed.

Lemma sub_here (l k : list Z) len : len = length l → sub (l ++ k) 0 len = l.
Proof. intros ->. unfold sub. rewrite drop_0. apply take_app_length. Qed.

Lemma sub_last (l : list Z) len : len = length l → sub l 0 len = l.
Proof. intros ->. unfold sub. rewrite drop_0. by apply take_ge. Qed.

Lemma sub_skip (l k : list Z) off len :
  (length l ≤ off)%nat → sub (l ++ k) off len = sub k (off - length l) len.
Proof. intros. unfold sub. by rewrite drop_app_ge. Qed.

(** *** Digits *)

Lemma digits_S base n f : digits base (S n) f = f 0%nat + base * digits base n (λ i, f (S i)).
Proof. done. Qed.

Lemma digits_div base n f k :
  1 < base → (∀ i, 0 ≤ f i < base) → (k < n)%nat →
  (digits base n f / base ^ Z.of_nat k) mod base = f k.
Proof.
  intros Hb. revert n f. induction k as [|k IH]; intros [|n] f Hf Hk; try lia.
  - rewrite digits_S, Z.div_1_r. rewrite (Z.mul_comm base), Z.mod_add by lia.
    apply Z.mod_small, Hf.
  - rewrite digits_S. replace (base ^ Z.of_nat (S k)) with (base * base ^ Z.of_nat k)
      by (rewrite Nat2Z.inj_succ, Z.pow_succ_r; lia).
    rewrite <- Z.div_div by (try apply Z.pow_pos_nonneg; lia).
    rewrite (Z.mul_comm base), Z.div_add by lia.
    rewrite (Z.div_small (f 0%nat)), Z.add_0_l by apply Hf.
    apply (IH n (λ i, f (S i))); [auto|lia].
Qed.

Lemma land_mod x n : 0 ≤ n → Z.land x (2 ^ n - 1) = x mod 2 ^ n.
Proof. intros. by rewrite Z.sub_1_r, <- Z.ones_equiv, Z.land_ones. Qed.

Lemma lor_add a b n : 0 ≤ n → 0 ≤ a < 2 ^ n → Z.lor a (Z.shiftl b n) = a + b * 2 ^ n.
Proof.
  intros Hn Ha. rewrite <- Z.shiftl_mul_pow2 by done. rewrite <- Z.add_lor_land.
  assert (Z.land a (Z.shiftl b n) = 0) as ->; [|lia].
  apply Z.bits_inj'. intros k Hk. rewrite Z.land_spec, Z.bits_0, Z.shiftl_spec by lia.
  destruct (Z.lt_ge_cases k n).
  - rewrite (Z.testbit_neg_r b) by lia. apply andb_false_r.
  - rewrite <- (Z.mod_small a (2 ^ n)) by done. by rewrite Z.mod_pow2_bits_high by lia.
Qed.

Lemma land15 x : Z.land x 0x0f = x mod 16.
Proof. exact (land_mod x 4 ltac:(lia)). Qed.
Lemma land63 x : Z.land x 0x3f = x mod 64.
Proof. exact (land_mod x 6 ltac:(lia)). Qed.
Lemma land3 x : Z.land x 0x03 = x mod 4.
Proof. exact (land_mod x 2 ltac:(lia)). Qed.
Lemma shr4 x : Z.shiftr x 4 = x / 16.
Proof. exact (Z.shiftr_div_pow2 x 4 ltac:(lia)). Qed.
Lemma shr6 x : Z.shiftr x 6 = x / 64.
Proof. exact (Z.shiftr_div_pow2 x 6 ltac:(lia)). Qed.
Lemma lor_nibble a b : 0 ≤ a < 16 → Z.lor a (Z.shiftl b 4) = a + 16 * b.
Proof. intros Ha. rewrite (lor_add a b 4 ltac:(lia) Ha). lia. Qed.

(** *** Blocks *)

#[local] Arguments for_each : simpl never.
#[local] Arguments le_encode : simpl never.

Ltac len := rewrite ?length_app, ?length_le_encode, ?length_for_each; simpl; lia.
(** Finds the component of a concatenation that a range covers. *)
Ltac find_sub :=
  repeat (rewrite sub_skip by len);
  rewrite ?length_app, ?length_le_encode, ?length_for_each; cbn [Nat.sub Nat.add];
  first [rewrite sub_here by len | rewrite sub_last by len].

Lemma le_decode_2 d : uint 16 d → le_decode (le_encode 2 d) = d.
Proof. intros Hd. rewrite le_decode_encode. by apply Z.mod_small. Qed.

Lemma concat_pairs m (f g : nat → nat → Z) :
  concat ((λ j, for_each 32 (f j) ++ for_each 32 (g j)) <$> seq 0 m)
  = for_each (m * 64) (λ i, if (i mod 64 <? 32)%nat then f (i / 64)%nat (i mod 64)%nat
                            else g (i / 64)%nat (i mod 64 - 32)%nat).
Proof.
  rewrite (list_fmap_ext _ (λ j, for_each 64 (λ i, if (i <? 32)%nat then f j i else g j (i - 32)%nat))).
  - apply (concat_for_each m 64 (λ j i, if (i <? 32)%nat then f j i else g j (i - 32)%nat)). lia.
  - intros k j _. apply for_each_app.
Qed.

Lemma q8_0_block_ok (f16_to_f32 : Z → Z) d q :
  block_wf (B8_0 d q) →
  q8_0_block f16_to_f32 (enc_block (B8_0 d q)) = block_values f16_to_f32 (B8_0 d q).
Proof.
  intros [Hd Hq]. unfold q8_0_block, f16_at. cbn [enc_block block_values].
  rewrite (sub_here (le_encode 2 d)) by len. rewrite le_decode_2 by done.
  replace (sub _ 2 32) with (for_each 32 (λ i, wrap 8 (q i))) by (by find_sub).
  apply for_each_ext. intros i Hi. rewrite for_each_total by done. do 2 f_equal.
  unfold swrap, wrap. rewrite Zplus_mod_idemp_l. by apply swrap_small.
Qed.

(** The 6-bit scales. *)
Lemma length_enc_scales sc m : length (enc_scales sc m) = 12%nat.
Proof. unfold enc_scales. by rewrite !length_app, !length_for_each. Qed.

Lemma enc_scales_total sc m i : (i < 4)%nat →
  enc_scales sc m !!! i = sc i + 64 * (sc (i + 4)%nat / 16)
  ∧ enc_scales sc m !!! (i + 4)%nat = m i + 64 * (m (i + 4)%nat / 16)
  ∧ enc_scales sc m !!! (i + 8)%nat = sc (i + 4)%nat mod 16 + 16 * (m (i + 4)%nat mod 16).
Proof.
  intros Hi. unfold enc_scales. rewrite !for_each_app. split_and!.
  - rewrite for_each_total by lia. by rewrite !(proj2 (Nat.ltb_lt _ _)) by lia.
  - rewrite for_each_total by lia. rewrite (proj2 (Nat.ltb_ge _ _)) by lia.
    rewrite (proj2 (Nat.ltb_lt _ _)) by lia. by replace (i + 4 - 4)%nat with i by lia.
  - rewrite for_each_total by lia. rewrite (proj2 (Nat.ltb_ge (i + 8) 4)) by lia.
    rewrite (proj2 (Nat.ltb_ge _ _)) by lia. by replace (i + 8 - 4 - 4)%nat with i by lia.
Qed.

Lemma unpack_scales sc m :
  (∀ i, uint 6 (sc i)) → (∀ i, uint 6 (m i)) →
  unpack_q4_k_sc_m (enc_scales sc m) = (for_each 8 sc, for_each 8 m).
Proof.
  intros Hsc Hm. unfold unpack_q4_k_sc_m, uint in *. rewrite !for_each_app. f_equal;
    apply for_each_ext; intros i Hi;
    (destruct (Nat.ltb_spec i 4) as [Hlt|Hge];
     [destruct (enc_scales_total sc m i Hlt) as (E1 & E2 & E3)
     |destruct (enc_scales_total sc m (i - 4)%nat ltac:(lia)) as (E1 & E2 & E3);
      replace (i - 4 + 4)%nat with i in * by lia]);
      rewrite ?E1, ?E2, ?E3, ?land63, ?land15, ?shr4, ?shr6;
      pose proof (Hsc i); pose proof (Hm i); pose proof (Hsc (i - 4)%nat); pose proof (Hm (i - 4)%nat);
      change (2 ^ 6) with 64 in *; clear Hsc Hm; try (rewrite lor_nibble by lia); lia.
Qed.

Lemma enc_nibbles_total q j k : (j < 4)%nat → (k < 32)%nat →
  sub (sub (enc_nibbles q) 0 128) (j * 32) 32 !!! k
  = q (64 * j + k)%nat mod 16 + 16 * (q (64 * j + 32 + k)%nat mod 16).
Proof.
  intros Hj Hk. rewrite sub_total by done. rewrite sub_total by lia.
  unfold enc_nibbles. rewrite for_each_total by lia.
  replace ((0 + (j * 32 + k)) / 32)%nat with j by lia.
  by replace ((0 + (j * 32 + k)) mod 32)%nat with k by lia.
Qed.

Lemma nib_lo a b : uint 4 a → Z.land (a mod 16 + 16 * b) 0x0f = a.
Proof. unfold uint. change (2 ^ 4) with 16. intros. rewrite land15. lia. Qed.
Lemma nib_hi a b : uint 4 b → Z.shiftr (a mod 16 + 16 * (b mod 16)) 4 = b.
Proof. unfold uint. change (2 ^ 4) with 16. intros. rewrite shr4. lia. Qed.

Lemma q4_k_block_ok (f16_to_f32 : Z → Z) d dmin sc m q :
  block_wf (B4_K d dmin sc m q) →
  q4_k_block f16_to_f32 (enc_block (B4_K d dmin sc m q))
  = block_values f16_to_f32 (B4_K d dmin sc m q).
Proof.
  intros (Hd & Hdm & Hsc & Hm & Hq). unfold q4_k_block, f16_at. cbn [enc_block block_values].
  assert (length (enc_nibbles q) = 128%nat) as Hln by (unfold enc_nibbles; len).
  rewrite (sub_here (le_encode 2 d)) by len.
  replace (sub _ 2 2) with (le_encode 2 dmin) by (by find_sub).
  replace (sub (le_encode 2 d ++ _) 4 12) with (enc_scales sc m)
    by (repeat (rewrite sub_skip by len); rewrite !length_le_encode; cbn [Nat.sub];
        by rewrite sub_here by (rewrite length_enc_scales; done)).
  replace (sub (le_encode 2 d ++ _) 16 128) with (sub (enc_nibbles q) 0 128)
    by (repeat (rewrite sub_skip by (rewrite ?length_enc_scales; len));
        by rewrite !length_le_encode, length_enc_scales).
  rewrite unpack_scales, !le_decode_2 by done. rewrite concat_pairs.
  apply for_each_ext. intros i Hi. set (j := (i / 64)%nat). set (k := (i mod 64)%nat).
  assert (i = 64 * j + k ∧ k < 64 ∧ j < 4)%nat as (Hik & Hk & Hj) by (unfold j, k; lia).
  pose proof (Hq i) as Hqi. unfold uint in Hqi. clearbody j k. subst i.
  destruct (Nat.ltb_spec k 32) as [Hk32|Hk32].
  - rewrite enc_nibbles_total, !for_each_total by lia.
    replace ((64 * j + k) / 32)%nat with (2 * j)%nat by lia. by rewrite nib_lo.
  - rewrite enc_nibbles_total, !for_each_total by lia.
    replace ((64 * j + k) / 32)%nat with (2 * j + 1)%nat by lia.
    replace (64 * j + 32 + (k - 32))%nat with (64 * j + k)%nat by lia. by rewrite nib_hi.
Qed.

(** *** Single bits *)

Lemma land_pow2 x t : 0 ≤ t → (Z.land x (2 ^ t) =? 0) = negb (Z.testbit x t).
Proof.
  intros Ht. destruct (Z.testbit x t) eqn:Hb; cbn [negb].
  - apply Z.eqb_neq. intros H. apply (f_equal (λ z, Z.testbit z t)) in H.
    rewrite Z.land_spec, Z.pow2_bits_true, Hb, Z.bits_0 in H by done. done.
  - apply Z.eqb_eq. apply Z.bits_inj'. intros k Hk. rewrite Z.land_spec, Z.bits_0, Z.pow2_bits_eqb by done.
    destruct (Z.eqb_spec t k) as [->|]; [by rewrite Hb|apply andb_false_r].
Qed.

(** The bit [t] of a byte whose bits are given. *)
Lemma land_digit (f : nat → Z) t :
  (∀ i, 0 ≤ f i < 2) → (t < 8)%nat →
  (Z.land (digits 2 8 f) (2 ^ Z.of_nat t) =? 0) = (f t =? 0).
Proof.
  intros Hf Ht. rewrite land_pow2 by lia. pose proof (Z.testbit_spec' (digits 2 8 f) (Z.of_nat t)) as E.
  rewrite digits_div in E by (auto; lia). destruct (Z.testbit _ _); rewrite <- E by lia; done.
Qed.

(** The masks [u1], [u2] of the pass [j]. *)
Lemma mask_u1 j : (j < 4)%nat → wrap 8 (Z.shiftl 1 (2 * Z.of_nat j)) = 2 ^ Z.of_nat (2 * j).
Proof. intros. do 4 (destruct j as [|j]; [done|]). lia. Qed.
Lemma mask_u2 j : (j < 4)%nat → wrap 8 (Z.shiftl 2 (2 * Z.of_nat j)) = 2 ^ Z.of_nat (2 * j + 1).
Proof. intros. do 4 (destruct j as [|j]; [done|]). lia. Qed.

(** A two-bit group of a byte. *)
Lemma shr_digit4 (f : nat → Z) t k :
  (∀ i, 0 ≤ f i < 4) → (t < 4)%nat → k = 2 * Z.of_nat t →
  Z.land (Z.shiftr (digits 4 4 f) k) 0x03 = f t.
Proof.
  intros Hf Ht ->. rewrite land3, Z.shiftr_div_pow2, Z.pow_mul_r by lia.
  by apply digits_div.
Qed.

(** *** Q5_K *)

Lemma f32_five_bits q :
  uint 5 q →
  f32_of (q mod 16) ⊕ f32_of (if q / 16 =? 0 then 0 else 16) = f32_of q.
Proof.
  unfold uint. change (2 ^ 5) with 32. intros Hq.
  assert (∀ n, (n < 32)%nat →
    f32_of (Z.of_nat n mod 16) ⊕ f32_of (if Z.of_nat n / 16 =? 0 then 0 else 16)
    = f32_of (Z.of_nat n)) as H.
  { intros n Hn. do 32 (destruct n as [|n]; [by vm_compute|]). lia. }
  specialize (H (Z.to_nat q) ltac:(lia)). by rewrite Z2Nat.id in H by lia.
Qed.

(** The bytes a range of an encoded Q4_K or Q5_K block holds. *)
Ltac find_k_sub := repeat (rewrite sub_skip by (rewrite ?length_enc_scales; len));
  rewrite ?length_le_encode, ?length_enc_scales, ?length_for_each; cbn [Nat.sub];
  rewrite ?sub_here by (rewrite ?length_enc_scales; len).

Lemma q5_k_block_ok (f16_to_f32 : Z → Z) d dmin sc m q :
  block_wf (B5_K d dmin sc m q) →
  q5_k_block f16_to_f32 (enc_block (B5_K d dmin sc m q))
  = block_values f16_to_f32 (B5_K d dmin sc m q).
Proof.
  intros (Hd & Hdm & Hsc & Hm & Hq). unfold q5_k_block, f16_at. cbn [enc_block block_values].
  set (qh := for_each 32 (λ l, digits 2 8 (λ t, q (32 * t + l)%nat / 16))).
  rewrite (sub_here (le_encode 2 d)) by len.
  replace (sub _ 2 2) with (le_encode 2 dmin) by (by find_k_sub).
  replace (sub (le_encode 2 d ++ _) 4 12) with (enc_scales sc m) by (by find_k_sub).
  replace (sub (le_encode 2 d ++ _) 16 32) with qh by (unfold qh; by find_k_sub).
  replace (sub (le_encode 2 d ++ _) 48 128) with (sub (enc_nibbles q) 0 128)
    by (unfold qh; by find_k_sub).
  rewrite unpack_scales, !le_decode_2, concat_pairs by done.
  apply for_each_ext. intros i Hi. set (j := (i / 64)%nat). set (k := (i mod 64)%nat).
  assert (i = 64 * j + k ∧ k < 64 ∧ j < 4)%nat as (Hik & Hk & Hj) by (unfold j, k; lia).
  pose proof (f32_five_bits (q i) (Hq i)) as Hqi. clearbody j k. subst i.
  assert (∀ i, 0 ≤ q i / 16 < 2) as Hb
    by (intros i; specialize (Hq i); unfold uint in Hq; change (2 ^ 5) with 32 in Hq; lia).
  destruct (Nat.ltb_spec k 32) as [Hk32|Hk32]; rewrite enc_nibbles_total by lia; unfold qh;
    rewrite !for_each_total, ?land15, ?shr4, ?mask_u1, ?mask_u2, land_digit by (done || lia).
  - replace ((64 * j + k) / 32)%nat with (2 * j)%nat by lia.
    replace (32 * (2 * j) + k)%nat with (64 * j + k)%nat by lia.
    rewrite <- Hqi. do 4 f_equal. lia.
  - replace ((64 * j + k) / 32)%nat with (2 * j + 1)%nat by lia.
    replace (64 * j + 32 + (k - 32))%nat with (64 * j + k)%nat by lia.
    replace (32 * (2 * j + 1) + (k - 32))%nat with (64 * j + k)%nat by lia.
    rewrite <- Hqi. do 4 f_equal. lia.
Qed.

(** *** Q6_K *)

Lemma concat_quads m (f : nat → nat → nat → Z) :
  concat ((λ h, for_each 32 (f h 0%nat) ++ for_each 32 (f h 1%nat)
                ++ for_each 32 (f h 2%nat) ++ for_each 32 (f h 3%nat)) <$> seq 0 m)
  = for_each (m * 128) (λ i, f (i / 128)%nat (i mod 128 / 32)%nat (i mod 32)%nat).
Proof.
  rewrite (list_fmap_ext _ (λ h, for_each 128 (λ i, f h (i / 32)%nat (i mod 32)%nat))).
  - rewrite (concat_for_each m 128 (λ h i, f h (i / 32)%nat (i mod 32)%nat)) by lia.
    apply for_each_ext. intros i Hi. f_equal. lia.
  - intros k h _. change 128%nat with (4 * 32)%nat. by rewrite <- (concat_for_each 4 32 (f h)) by lia.
Qed.

Lemma six_bits q : uint 6 q → Z.lor (q mod 16) (Z.shiftl (q / 16) 4) = q.
Proof. intros Hq. rewrite lor_nibble by lia. lia. Qed.

Lemma nibble_mod a b : (a mod 16 + 16 * b) mod 16 = a mod 16.
Proof. lia. Qed.
Lemma nibble_div a b : (a mod 16 + 16 * (b mod 16)) / 16 = b mod 16.
Proof. lia. Qed.

Lemma ql_total q h r : (h < 2)%nat → (r < 64)%nat →
  sub (for_each 128 (λ k, q (128 * (k / 64) + k mod 64)%nat mod 16
                         + 16 * (q (128 * (k / 64) + 64 + k mod 64)%nat mod 16))) (h * 64) 64 !!! r
  = q (128 * h + r)%nat mod 16 + 16 * (q (128 * h + 64 + r)%nat mod 16).
Proof.
  intros. rewrite sub_total, for_each_total by lia.
  replace ((h * 64 + r) / 64)%nat with h by lia. by replace ((h * 64 + r) mod 64)%nat with r by lia.
Qed.

Lemma q6_k_block_ok (f16_to_f32 : Z → Z) d sc q :
  block_wf (B6_K d sc q) →
  q6_k_block f16_to_f32 (enc_block (B6_K d sc q)) = block_values f16_to_f32 (B6_K d sc q).
Proof.
  intros (Hd & Hsc & Hq). unfold q6_k_block, f16_at. cbn [enc_block block_values].
  set (ql := for_each 128 _). set (qh := for_each 64 _).
  replace (sub _ 0 128) with ql by (unfold ql, qh; by find_sub).
  replace (sub _ 128 64) with qh by (unfold ql, qh; by find_sub).
  replace (sub _ 192 16) with (for_each 16 (λ i, wrap 8 (sc i))) by (unfold ql, qh; by find_sub).
  replace (sub _ 208 2) with (le_encode 2 d) by (unfold ql, qh; by find_sub).
  rewrite le_decode_2 by done.
  set (high := λ h l k, Z.shiftl (Z.land (Z.shiftr (sub qh (h * 32) 32 !!! l) k) 0x03) 4).
  set (s := λ h g l, f16_to_f32 d ⊗
    f32_of (swrap 8 (sub (for_each 16 (λ i, wrap 8 (sc i))) (h * 8) 8 !!! (g + l / 16)%nat))).
  pose (low := λ h g l, match g with
    | 0%nat => Z.land (sub ql (h * 64) 64 !!! l) 0x0f
    | 1%nat => Z.land (sub ql (h * 64) 64 !!! (l + 32)%nat) 0x0f
    | 2%nat => Z.shiftr (sub ql (h * 64) 64 !!! l) 4
    | _ => Z.shiftr (sub ql (h * 64) 64 !!! (l + 32)%nat) 4 end).
  etrans; [exact (concat_quads 2 (λ h g l,
    s h (2 * g)%nat l ⊗ f32_of (Z.lor (low h g l) (high h l (2 * Z.of_nat g)) - 32)))|].
  apply for_each_ext. intros i Hi.
  assert (∃ h g l, (i = 128 * h + 32 * g + l ∧ h < 2 ∧ g < 4 ∧ l < 32)%nat)
    as (h & g & l & -> & Hh & Hg & Hl).
  { exists (i / 128)%nat, (i mod 128 / 32)%nat, (i mod 32)%nat. lia. }
  replace ((128 * h + 32 * g + l) / 128)%nat with h by lia.
  replace ((128 * h + 32 * g + l) mod 128 / 32)%nat with g by lia.
  replace ((128 * h + 32 * g + l) mod 32)%nat with l by lia.
  assert (∀ i, 0 ≤ q i / 16 < 4) as Hb
    by (intros i; specialize (Hq i); unfold uint in Hq; change (2 ^ 6) with 64 in Hq; lia).
  assert (s h (2 * g)%nat l = f16_to_f32 d ⊗ f32_of (sc ((128 * h + 32 * g + l) / 16)%nat)) as ->.
  { unfold s. rewrite sub_total, for_each_total by lia. do 2 f_equal. 
    unfold swrap, wrap. rewrite Zplus_mod_idemp_l. etrans; [by apply swrap_small|]. f_equal. lia. }
  do 2 f_equal.
  assert (high h l (2 * Z.of_nat g) = Z.shiftl (q (128 * h + 32 * g + l)%nat / 16) 4) as ->.
  { unfold high, qh. rewrite sub_total, for_each_total by lia.
    rewrite (shr_digit4 _ g) by (done || lia). do 3 f_equal. lia. }
  assert (low h g l = q (128 * h + 32 * g + l)%nat mod 16) as ->; [|by rewrite six_bits].
  unfold low. destruct g as [|[|[|[|]]]]; [..|lia]; unfold ql;
    rewrite ql_total, ?land15, ?shr4, ?nibble_mod, ?nibble_div by lia; do 2 f_equal; lia.
Qed.

(** *** Q3_K *)

(** The byte [k] of a word. *)
Notation byte_at x k := (Z.land (Z.shiftr x (8 * Z.of_nat k)) 0xff).

Lemma byte_at_lor x y k : byte_at (Z.lor x y) k = Z.lor (byte_at x k) (byte_at y k).
Proof. by rewrite Z.shiftr_lor, Z.land_lor_distr_l. Qed.

Lemma bits8 x y :
  (∀ n, (n < 8)%nat → Z.testbit x (Z.of_nat n) = Z.testbit y (Z.of_nat n)) →
  Z.land x 0xff = Z.land y 0xff.
Proof.
  intros H. apply Z.bits_inj'. intros n Hn. rewrite !Z.land_spec.
  destruct (Z.lt_ge_cases n 8) as [Hn8|Hn8].
  - specialize (H (Z.to_nat n) ltac:(lia)). rewrite Z2Nat.id in H by lia. by rewrite H.
  - change 0xff with (Z.ones 8). rewrite (Z.ones_spec_high 8) by lia. by rewrite !andb_false_r.
Qed.

Lemma byte_at_nibble x k s :
  (k < 4)%nat → s = 0 ∨ s = 4 →
  byte_at (Z.land (Z.shiftr x s) KMASK2) k = Z.land (Z.land (Z.shiftr (byte_at x k) s) 0x0f) 0xff.
Proof.
  intros Hk Hs. apply bits8. intros n Hn. rewrite !Z.shiftr_spec, !Z.land_spec by lia.
  rewrite !Z.shiftr_spec, !Z.land_spec, !Z.shiftr_spec by lia.
  generalize (Z.testbit x); intros f.
  do 4 (destruct k as [|k];
    [do 8 (destruct n as [|n]; [destruct Hs as [-> | ->]; vm_compute; by destruct (f _)|]); lia|]); lia.
Qed.

Lemma byte_at_high x k s :
  (k < 4)%nat → s = 0 ∨ s = 2 ∨ s = 4 ∨ s = 6 →
  byte_at (wrap 32 (Z.shiftl (Z.land (Z.shiftr x s) KMASK1) 4)) k
  = Z.land (Z.shiftl (Z.land (Z.shiftr (byte_at x k) s) 0x03) 4) 0xff.
Proof.
  intros Hk Hs. apply bits8. intros n Hn. rewrite Z.shiftr_spec by lia.
  unfold wrap. rewrite Z.mod_pow2_bits_low by lia.
  do 4 (destruct k as [|k];
    [do 8 (destruct n as [|n];
      [destruct Hs as [-> | [-> | [-> | ->]]];
       first [rewrite !Z.shiftl_spec_low by lia; done
             |rewrite !Z.shiftl_spec_high, ?Z.land_spec, ?Z.shiftr_spec, ?Z.land_spec,
                ?Z.shiftr_spec by lia; generalize (Z.testbit x); intros f; vm_compute; by destruct (f _)
             |rewrite Z.shiftl_spec_high, (Z.shiftl_spec_low _ 4) by lia;
              rewrite Z.land_spec; by rewrite andb_false_r]|]); lia|]); lia.
Qed.

Lemma land255 x : Z.land x 0xff = x mod 256.
Proof. exact (land_mod x 8 ltac:(lia)). Qed.

Lemma byte_at_le_decode bs k :
  Forall is_byte bs → (k < length bs)%nat → byte_at (le_decode bs) k = bs !!! k.
Proof.
  intros Hbs. revert k. induction Hbs as [|b bs Hb _ IH]; intros k Hk; simpl in Hk; [lia|].
  unfold is_byte, uint in Hb. change (2 ^ 8) with 256 in Hb.
  destruct k as [|k]; simpl le_decode.
  - rewrite Z.shiftr_0_r, land255. change ((b :: bs) !!! 0%nat) with b. lia.
  - change ((b :: bs) !!! S k) with (bs !!! k). rewrite <- IH by lia. f_equal.
    replace (8 * Z.of_nat (S k)) with (8 + 8 * Z.of_nat k) by lia.
    rewrite <- Z.shiftr_shiftr by lia. f_equal. rewrite Z.shiftr_div_pow2 by lia.
    change (2 ^ 8) with 256. lia.
Qed.

Lemma byte_at_word l off k :
  Forall is_byte l → (off + 4 ≤ length l)%nat → (k < 4)%nat →
  byte_at (le_decode (sub l off 4)) k = l !!! (off + k)%nat.
Proof.
  intros Hl Hlen Hk. rewrite byte_at_le_decode, sub_total by
    (try rewrite sub_length; try done; by apply Forall_take, Forall_drop).
  done.
Qed.

Lemma for_each_Forall (P : Z → Prop) n f : (∀ i, P (f i)) → Forall P (for_each n f).
Proof. intros H. apply Forall_fmap, Forall_true. intros i. apply H. Qed.

(** The scales of Q3_K in 12 bytes. *)
Definition q3_scales (sc : nat → Z) : list Z :=
  for_each 8 (λ k, sc k mod 16 + 16 * (sc (k + 8)%nat mod 16))
  ++ for_each 4 (λ k, digits 4 4 (λ t, sc (4 * t + k)%nat / 16)).

Lemma q3_scales_bytes sc : (∀ i, uint 6 (sc i)) → Forall is_byte (q3_scales sc).
Proof.
  intros Hsc. apply Forall_app; split; apply for_each_Forall; intros k; unfold is_byte, uint in *.
  - change (2 ^ 8) with 256. lia.
  - change (2 ^ 6) with 64 in Hsc. change (2 ^ 8) with 256. cbn [digits].
    pose proof (Hsc (4 * 0 + k)%nat). pose proof (Hsc (4 * 1 + k)%nat).
    pose proof (Hsc (4 * 2 + k)%nat). pose proof (Hsc (4 * 3 + k)%nat). clear Hsc. lia.
Qed.

Lemma q3_scales_low sc i :
  (i < 8)%nat → q3_scales sc !!! i = sc i mod 16 + 16 * (sc (i + 8)%nat mod 16).
Proof.
  intros Hi. unfold q3_scales. rewrite for_each_app, for_each_total by lia.
  by rewrite (proj2 (Nat.ltb_lt _ _)) by lia.
Qed.

Lemma q3_scales_high sc t k :
  (∀ i, uint 6 (sc i)) → (k < 4)%nat → (t < 4)%nat →
  Z.land (Z.shiftr (q3_scales sc !!! (8 + k)%nat) (2 * Z.of_nat t)) 0x03 = sc (4 * t + k)%nat / 16.
Proof.
  intros Hsc Hk Ht. unfold q3_scales. rewrite for_each_app, for_each_total by lia.
  rewrite (proj2 (Nat.ltb_ge _ _)) by lia. rewrite (shr_digit4 _ t); try done.
  - do 3 f_equal. lia.
  - intros i. specialize (Hsc (4 * i + (8 + k - 8))%nat). unfold uint in Hsc.
    change (2 ^ 6) with 64 in Hsc. lia.
Qed.

(** The byte [k] of the word [t] of the unpacked scales. *)
Lemma q3_scale_byte sc w s t k :
  (∀ i, uint 6 (sc i)) → (k < 4)%nat →
  (t = w ∧ s = 0) ∨ (t = (w + 2)%nat ∧ s = 4) → (w < 2)%nat →
  byte_at (Z.lor (Z.land (Z.shiftr (le_decode (sub (q3_scales sc) (4 * w) 4)) s) KMASK2)
     (wrap 32 (Z.shiftl (Z.land (Z.shiftr (le_decode (sub (q3_scales sc) 8 4)) (2 * Z.of_nat t)) KMASK1) 4))) k
  = sc (4 * t + k)%nat.
Proof.
  intros Hsc Hk Ht Hw. assert (length (q3_scales sc) = 12%nat) as Hlen by (unfold q3_scales; len).
  pose proof (q3_scales_bytes sc Hsc) as Hby.
  rewrite byte_at_lor, byte_at_nibble, byte_at_high, !byte_at_word by (done || lia).
  rewrite q3_scales_high, q3_scales_low by (done || lia).
  pose proof (Hsc (4 * t + k)%nat) as Hs. rewrite <- (six_bits _ Hs) at 2.
  unfold uint in Hs. change (2 ^ 6) with 64 in Hs.
  rewrite Z.shiftl_mul_pow2, !land255, land15 by lia. change (2 ^ 4) with 16.
  f_equal; [|lia].
  destruct Ht as [[-> ->]|[-> ->]].
  - rewrite Z.shiftr_0_r, nibble_mod. lia.
  - rewrite shr4, nibble_div. replace (4 * w + k + 8)%nat with (4 * (w + 2) + k)%nat by lia. lia.
Qed.

Lemma q3_k_scales_ok sc :
  (∀ i, uint 6 (sc i)) → q3_k_scales (q3_scales sc) = for_each 16 sc.
Proof.
  intros Hsc.
  etrans; [|exact (concat_for_each 4 4 (λ t k, sc (4 * t + k)%nat) ltac:(lia))].
  unfold q3_k_scales. cbn [mbind list_bind fmap list_fmap seq concat]. 
  f_equal; [|f_equal; [|f_equal; [|f_equal]]]; apply for_each_ext; intros k Hk.
  - rewrite <- (q3_scale_byte sc 0 0 0 k) by (done || lia). by rewrite Z.shiftr_0_r.
  - rewrite <- (q3_scale_byte sc 1 0 1 k) by (done || lia). by rewrite Z.shiftr_0_r.
  - rewrite <- (q3_scale_byte sc 0 4 2 k) by (done || lia). done.
  - rewrite <- (q3_scale_byte sc 1 4 3 k) by (done || lia). done.
Qed.

Lemma concat_passes (f : nat → nat → nat → nat → Z) :
  concat ((λ h, concat ((λ j, for_each 16 (f h j 0%nat) ++ for_each 16 (f h j 1%nat)) <$> seq 0 4))
    <$> seq 0 2)
  = for_each 256 (λ i, f (i / 128)%nat (i mod 128 / 32)%nat (i mod 32 / 16)%nat (i mod 16)%nat).
Proof.
  rewrite (list_fmap_ext _ (λ h, for_each 128 (λ i, f h (i / 32)%nat (i mod 32 / 16)%nat (i mod 16)%nat))).
  - rewrite (concat_for_each 2 128 (λ h i, f h (i / 32)%nat (i mod 32 / 16)%nat (i mod 16)%nat)) by lia.
    apply for_each_ext. intros i Hi. f_equal; lia.
  - intros _ h _.
    rewrite (list_fmap_ext _ (λ j, for_each 32 (λ i, f h j (i / 16)%nat (i mod 16)%nat))).
    + rewrite (concat_for_each 4 32 (λ j i, f h j (i / 16)%nat (i mod 16)%nat)) by lia.
      apply for_each_ext. intros i Hi. f_equal; lia.
    + intros _ j _. change 32%nat with (2 * 16)%nat. by rewrite <- (concat_for_each 2 16 (f h j)) by lia.
Qed.

Lemma mask_pass h j : (h < 2)%nat → (j < 4)%nat →
  wrap 8 (Z.shiftl 1 (Z.of_nat (4 * h + j))) = 2 ^ Z.of_nat (4 * h + j).
Proof.
  intros. rewrite Z.shiftl_1_l. apply wrap_small. split; [apply Z.pow_nonneg; lia|].
  apply Z.pow_lt_mono_r; lia.
Qed.

(** A weight from its two low bits and its bit of the mask. *)
Lemma q3_weight q h j r :
  (∀ i, uint 3 (q i)) → (h < 2)%nat → (j < 4)%nat → (r < 32)%nat →
  Z.land (Z.shiftr (sub (for_each 64 (λ k,
      digits 4 4 (λ j, q (128 * (k / 32) + 32 * j + k mod 32)%nat mod 4))) (32 * h) 32 !!! r)
    (2 * Z.of_nat j)) 0x03
  - (if negb (Z.land (for_each 32 (λ l, digits 2 8 (λ t, q (32 * t + l)%nat / 4)) !!! r)
               (wrap 8 (Z.shiftl 1 (Z.of_nat (4 * h + j)))) =? 0) then 0 else 4)
  = q (128 * h + 32 * j + r)%nat - 4.
Proof.
  intros Hq Hh Hj Hr. unfold uint in Hq. change (2 ^ 3) with 8 in Hq.
  rewrite sub_total, !for_each_total, (shr_digit4 _ j), mask_pass by (done || lia).
  rewrite land_digit by (try lia; intros i; specialize (Hq (32 * i + r)%nat); lia).
  replace ((32 * h + r) / 32)%nat with h by lia. replace ((32 * h + r) mod 32)%nat with r by lia.
  replace (32 * (4 * h + j) + r)%nat with (128 * h + 32 * j + r)%nat by lia.
  specialize (Hq (128 * h + 32 * j + r)%nat).
  destruct (Z.eqb_spec (q (128 * h + 32 * j + r)%nat / 4) 0); cbn [negb]; lia.
Qed.

Lemma q3_k_block_ok (f16_to_f32 : Z → Z) d sc q :
  block_wf (B3_K d sc q) →
  q3_k_block f16_to_f32 (enc_block (B3_K d sc q)) = block_values f16_to_f32 (B3_K d sc q).
Proof.
  intros (Hd & Hsc & Hq). unfold q3_k_block, f16_at. cbn [enc_block block_values].
  fold (q3_scales sc).
  set (hm := for_each 32 _). set (qs := for_each 64 _).
  assert (length (q3_scales sc) = 12%nat) as Hlen by (unfold q3_scales; len).
  replace (sub _ 0 32) with hm by (unfold hm, qs; by find_sub).
  replace (sub _ 32 64) with qs by (unfold hm, qs; by find_sub).
  replace (sub _ 96 12) with (q3_scales sc)
    by (unfold hm, qs; repeat (rewrite sub_skip by len); by rewrite !length_for_each, sub_here).
  replace (sub _ 108 2) with (le_encode 2 d)
    by (unfold hm, qs; repeat (rewrite sub_skip by (rewrite ?Hlen; len));
        by rewrite !length_for_each, Hlen, sub_last).
  rewrite le_decode_2, q3_k_scales_ok by done.
  etrans; [exact (concat_passes (λ h j g l,
     f16_to_f32 d ⊗ f32_of (swrap 8 (for_each 16 sc !!! (8 * h + 2 * j + g)%nat) - 32)
     ⊗ f32_of (Z.land (Z.shiftr (sub qs (32 * h) 32 !!! (l + 16 * g)%nat) (2 * Z.of_nat j)) 0x03
       - if negb (Z.land (hm !!! (l + 16 * g)%nat) (wrap 8 (Z.shiftl 1 (Z.of_nat (4 * h + j)))) =? 0)
         then 0 else 4)))|].
  apply for_each_ext. intros i Hi. cbn beta.
  set (h := (i / 128)%nat). set (j := (i mod 128 / 32)%nat).
  set (g := (i mod 32 / 16)%nat). set (l := (i mod 16)%nat).
  assert (i = 128 * h + 32 * j + 16 * g + l ∧ h < 2 ∧ j < 4 ∧ g < 2 ∧ l < 16)%nat
    as (Hih & Hh & Hj & Hg & Hl) by (unfold h, j, g, l; lia).
  clearbody h j g l. subst i. set (i := (128 * h + 32 * j + 16 * g + l)%nat).
  rewrite for_each_total by lia. replace (8 * h + 2 * j + g)%nat with (i / 16)%nat by lia.
  pose proof (Hsc (i / 16)%nat) as Hs. unfold uint in Hs. change (2 ^ 6) with 64 in Hs.
  rewrite (swrap_small 8) by (unfold sint; change (2 ^ (8 - 1)) with 128; lia).
  do 2 f_equal. unfold hm, qs. rewrite q3_weight by (done || lia). do 2 f_equal. lia.
Qed.

(** *** The block loop *)

Definition quantized_block (f16_to_f32 : Z → Z) (t : GgmlType) : option (list Z → list Z) :=
  match t with
  | Q8_0 => Some (q8_0_block f16_to_f32) | Q3_K => Some (q3_k_block f16_to_f32)
  | Q4_K => Some (q4_k_block f16_to_f32) | Q5_K => Some (q5_k_block f16_to_f32)
  | Q6_K => Some (q6_k_block f16_to_f32) | _ => None
  end.

Definition dense_size (t : GgmlType) : option nat :=
  match t with GF32 => Some 4%nat | GF16 | GBF16 => Some 2%nat | _ => None end.

Definition handled (t : GgmlType) : bool :=
  match t with
  | GF32 | GF16 | GBF16 | Q8_0 | Q3_K | Q4_K | Q5_K | Q6_K => true | _ => false
  end.

Lemma chunk_quantized f16 bf16 t block src n :
  quantized_block f16 t = Some block →
  dequantize_block_chunk f16 bf16 t src n
  = dequant_blocks (block_size t) (type_size t) block src n.
Proof. by destruct t; intros [= <-]. Qed.

Lemma quantized_block_length f16 t block blk :
  quantized_block f16 t = Some block → Z.of_nat (length (block blk)) = block_size t.
Proof. destruct t; intros [= <-]; reflexivity. Qed.

Lemma quantized_block_ok f16 b :
  block_wf b → ∃ block, quantized_block f16 (block_dtype b) = Some block ∧
    block (enc_block b) = block_values f16 b.
Proof.
  intros Hb. destruct b; eexists; (split; [reflexivity|]).
  - by apply q8_0_block_ok.
  - by apply q4_k_block_ok.
  - by apply q5_k_block_ok.
  - by apply q6_k_block_ok.
  - by apply q3_k_block_ok.
Qed.

Lemma enc_block_length b : Z.of_nat (length (enc_block b)) = type_size (block_dtype b).
Proof.
  destruct b; cbn [enc_block]; unfold enc_scales, enc_nibbles;
    by rewrite ?length_app, ?length_le_encode, ?length_for_each.
Qed.

(** The block [b] of a buffer that is long enough. *)
Lemma block_slice {E} (src : list Z) nb bytes b :
  0 ≤ bytes → Z.of_nat nb * bytes ≤ Z.of_nat (length src) → (b < nb)%nat →
  slice_range (E := E) src (Z.of_nat b * bytes) (Z.of_nat b * bytes + bytes)
  = Ok (sub src (b * Z.to_nat bytes) (Z.to_nat bytes)).
Proof.
  intros Hb Hlen Hlt. unfold slice_range.
  assert ((Z.of_nat b + 1) * bytes ≤ Z.of_nat nb * bytes) by (apply Z.mul_le_mono_nonneg_r; lia).
  rewrite (proj2 (Z.ltb_ge _ _)), (proj2 (Z.ltb_ge _ _)) by lia. cbn [orb]. do 2 f_equal.
  unfold sub. f_equal; [lia|]. f_equal. rewrite Z2Nat.inj_mul, Nat2Z.id by lia. done.
Qed.

Lemma dequant_blocks_ok nb bs bytes block src :
  0 < bs → 0 ≤ bytes → Z.of_nat nb * bytes ≤ Z.of_nat (length src) →
  dequant_blocks bs bytes block src (Z.of_nat nb * bs)
  = Ok (concat ((λ b : nat, block (sub src (b * Z.to_nat bytes) (Z.to_nat bytes))) <$> seq 0 nb)).
Proof.
  intros Hbs Hb Hlen. unfold dequant_blocks.
  rewrite Z.mod_mul, Z.div_mul, Nat2Z.id by lia. cbn [Z.eqb negb].
  rewrite (proj2 (Z.ltb_ge _ _)) by done.
  by erewrite rmapM_seq by (intros b _ Hlt; by rewrite (block_slice src nb)).
Qed.

Lemma blocks_of_concat {A C} (enc : A → list Z) B (g : list Z → C) bs rest :
  Forall (λ b, length (enc b) = B) bs →
  (λ k : nat, g (sub ((bs ≫= enc) ++ rest) (k * B) B)) <$> seq 0 (length bs)
  = (λ b, g (enc b)) <$> bs.
Proof.
  induction 1 as [|b bs Hb Hbs IH]; [done|].
  simpl length. rewrite <- cons_seq, <- fmap_S_seq, !fmap_cons, <- list_fmap_compose.
  rewrite bind_cons, <- app_assoc. f_equal.
  - by rewrite Nat.mul_0_l, sub_here.
  - rewrite <- IH. apply list_fmap_ext. intros _ k _. cbn [compose].
    unfold sub. rewrite (drop_app_ge (enc b)) by lia. do 3 f_equal. lia.
Qed.

Lemma bind_concat {A} (f : A → list Z) l : l ≫= f = concat (f <$> l).
Proof. induction l as [|x l IH]; [done|]. by rewrite bind_cons, IH. Qed.

Lemma dense_ok size widen src n :
  0 ≤ n → n * Z.of_nat size ≤ Z.of_nat (length src) →
  dequant_dense size widen src n
  = Ok (for_each (Z.to_nat n) (λ i, widen (le_decode (sub src (i * size) size)))).
Proof. intros Hn Hl. unfold dequant_dense. by rewrite (proj2 (Z.ltb_ge _ _)). Qed.

Lemma dense_short size widen src n :
  Z.of_nat (length src) < n * Z.of_nat size →
  dequant_dense size widen src n = Err (BufferTooSmall (n * Z.of_nat size) (Z.of_nat (length src))).
Proof. intros Hl. unfold dequant_dense. by rewrite (proj2 (Z.ltb_lt _ _)). Qed.

Lemma block_size_pos t : 0 < block_size t.
Proof. by destruct t. Qed.
Lemma type_size_pos t : 0 < type_size t.
Proof. by destruct t. Qed.

Lemma dequant_blocks_sizes f16 t block src n :
  0 ≤ n → quantized_block f16 t = Some block →
  let needed := n / block_size t * type_size t in
  let have := Z.of_nat (length src) in
  let r := dequant_blocks (block_size t) (type_size t) block src n in
  match n mod block_size t =? 0, have <? needed with
  | false, _ => r = Err (OutputSize (n / block_size t * block_size t) n)
  | true, true => r = Err (BufferTooSmall needed have)
  | true, false => ∃ out, r = Ok out ∧ Z.of_nat (length out) = n
  end.
Proof.
  intros Hn Hq needed have r; subst needed have r.
  pose proof (block_size_pos t) as Hb. pose proof (type_size_pos t) as Ht.
  destruct (Z.eqb_spec (n mod block_size t) 0) as [Hm|Hm].
  - destruct (Z.ltb_spec (Z.of_nat (length src)) (n / block_size t * type_size t)) as [Hlt|Hge].
    + unfold dequant_blocks. rewrite (proj2 (Z.eqb_eq _ _) Hm). cbn [negb].
      by rewrite (proj2 (Z.ltb_lt _ _) Hlt).
    + assert (∃ nb, n = Z.of_nat nb * block_size t) as [nb ->].
      { exists (Z.to_nat (n / block_size t)). rewrite Z2Nat.id by (apply Z.div_pos; lia).
        pose proof (Z_div_exact_full_2 n (block_size t)). lia. }
      rewrite Z.div_mul in Hge by lia. eexists; split; [apply dequant_blocks_ok; lia|].
      clear - Hq. generalize 0%nat. induction nb as [|nb IH]; intros k; [done|].
      cbn [seq fmap list_fmap concat]. rewrite length_app, Nat2Z.inj_add, IH.
      rewrite (quantized_block_length f16 t) by done. lia.
  - unfold dequant_blocks. by rewrite (proj2 (Z.eqb_neq _ _) Hm).
Qed.

Lemma dequant_dense_sizes size widen src n :
  0 ≤ n → 0 < size →
  let have := Z.of_nat (length src) in
  let r := dequant_dense (Z.to_nat size) widen src n in
  if have <? n * size then r = Err (BufferTooSmall (n * size) have)
  else ∃ out, r = Ok out ∧ Z.of_nat (length out) = n.
Proof.
  intros Hn Hs have r; subst have r. assert (Z.of_nat (Z.to_nat size) = size) as E by lia.
  destruct (Z.ltb_spec (Z.of_nat (length src)) (n * size)).
  - rewrite dense_short by (by rewrite E). by rewrite E.
  - eexists; split; [apply dense_ok; [done|by rewrite E]|]. rewrite length_for_each. lia.
Qed.

(** ** Theorems *)

(** Every sequence of blocks of one format, whatever the format *)
Lemma dequant_blocks_correct (f16_to_f32 bf16_to_f32 : Z → Z) t bs rest :
  Forall (λ b, block_wf b ∧ block_dtype b = t) bs →
  Z.of_nat (length (bs ≫= enc_block)) = Z.of_nat (length bs) * type_size t
  ∧ (bs ≠ [] →
     dequantize_block_chunk f16_to_f32 bf16_to_f32 t ((bs ≫= enc_block) ++ rest)
       (Z.of_nat (length bs) * block_size t)
     = Ok (bs ≫= block_values f16_to_f32)).
Proof.
  intros Hbs.
  assert (Z.of_nat (length (bs ≫= enc_block)) = Z.of_nat (length bs) * type_size t) as Hlen.
  { induction Hbs as [|b bs [_ Hb] _ IH]; [done|].
    rewrite bind_cons, length_app, Nat2Z.inj_add, enc_block_length, IH, Hb. simpl length. lia. }
  split; [done|]. intros Hne. destruct bs as [|b0 bs']; [done|]. set (bs := b0 :: bs') in *.
  assert (∃ block, quantized_block f16_to_f32 t = Some block) as [block Hblock].
  { apply Forall_cons in Hbs as [[Hwf <-] _].
    destruct (quantized_block_ok f16_to_f32 b0 Hwf) as (block & ? & _). by exists block. }
  pose proof (block_size_pos t). pose proof (type_size_pos t).
  rewrite (chunk_quantized _ _ _ block) by done.
  rewrite dequant_blocks_ok by (try lia; rewrite length_app; lia).
  rewrite (blocks_of_concat enc_block _ block), bind_concat.
  - do 2 f_equal. apply list_fmap_ext. intros i b Hi%list_elem_of_lookup_2.
    rewrite Forall_forall in Hbs. destruct (Hbs b Hi) as [Hwf Hdt].
    destruct (quantized_block_ok f16_to_f32 b Hwf) as (block' & Hb' & <-). congruence.
  - apply (Forall_impl _ _ _ Hbs). intros b [_ Hdt].
    pose proof (enc_block_length b) as Hl. rewrite Hdt in Hl. lia.
Qed.

(** The dense formats *)
Lemma dequant_dense_values size widen xs rest : Forall (uint (8 * Z.of_nat size)) xs →
  dequant_dense size widen ((xs ≫= le_encode size) ++ rest) (Z.of_nat (length xs)) = Ok (widen <$> xs).
Proof.
  intros Hxs.
  assert (length (xs ≫= le_encode size) = (length xs * size)%nat) as Hlen.
  { clear Hxs. induction xs as [|x xs IH]; [done|]. rewrite bind_cons, length_app, IH, length_le_encode. simpl. lia. }
  rewrite dense_ok by (rewrite ?length_app, ?Hlen; nia). rewrite Nat2Z.id. f_equal. unfold for_each.
  rewrite (blocks_of_concat (le_encode size) size (λ l, widen (le_decode l)) xs rest).
  - apply list_fmap_ext. intros i x Hi%list_elem_of_lookup_2. rewrite Forall_forall in Hxs. f_equal.
    rewrite le_decode_encode. apply Z.mod_small. by apply Hxs.
  - apply Forall_forall. intros x _. apply length_le_encode.
Qed.

(** C7: the dequantizer of every format that [is_dequant_supported] announces inverts its
    layout, whatever bytes follow.  F32, F16 and BF16: any sequence of numbers of 32 or 16
    bits, little-endian, gives back those numbers or their widening.  Q8_0, Q4_K and Q6_K:
    for any sequence of blocks of the format, each given by its numbers (an [f16] scale,
    6- or 8-bit sub-block scales and mins, 8-, 4- or 6-bit weights) and laid out in bytes
    the way the format packs them, [dequantize_block_chunk] returns exactly the values the
    blocks stand for, [q·d], [d·sc·q - dmin·m] or [d·sc·(q - 32)] in [f32] arithmetic, 32
    or 256 per block and in order. *)
Theorem dequant_correct (f16_to_f32 bf16_to_f32 : Z → Z) t rest :
  is_dequant_supported t = true →
  (∀ bs, bs ≠ [] → Forall (λ b, block_wf b ∧ block_dtype b = t) bs →
     Z.of_nat (length (bs ≫= enc_block)) = Z.of_nat (length bs) * type_size t ∧
     dequantize_block_chunk f16_to_f32 bf16_to_f32 t ((bs ≫= enc_block) ++ rest) (Z.of_nat (length bs) * block_size t)
       = Ok (bs ≫= block_values f16_to_f32)) ∧
  (∀ size xs, dense_size t = Some size → Forall (uint (8 * Z.of_nat size)) xs →
     dequantize_block_chunk f16_to_f32 bf16_to_f32 t ((xs ≫= le_encode size) ++ rest) (Z.of_nat (length xs))
       = Ok (match t with GF16 => f16_to_f32 <$> xs | GBF16 => bf16_to_f32 <$> xs | _ => xs end)).
Proof.
  intros _. split.
  - intros bs Hne Hbs. destruct (dequant_blocks_correct f16_to_f32 bf16_to_f32 t bs rest Hbs) as [Hl Hd]. auto.
  - intros size xs Hs Hxs. destruct t; try done; injection Hs as <-; cbn [dequantize_block_chunk];
      unfold dequant_f32, dequant_f16, dequant_bf16; rewrite dequant_dense_values by done; [|done..].
    by rewrite list_fmap_id.
Qed.

(** Two formats that the documentation calls unsupported, or describes with other
    scales: a Q3_K block has 16 sub-block scales, one per 16 weights, where
    dequant.rs speaks of 8 of 32 weights. *)
Lemma dequant_undocumented f16_to_f32 bf16_to_f32 b : block_wf b → block_dtype b = Q3_K ∨ block_dtype b = Q5_K →
  is_dequant_supported (block_dtype b) = false ∧
  dequantize_block_chunk f16_to_f32 bf16_to_f32 (block_dtype b) (enc_block b) 256 = Ok (block_values f16_to_f32 b).
Proof.
  intros Hwf Hin. split; [by destruct b, Hin|].
  destruct (dequant_blocks_correct f16_to_f32 bf16_to_f32 (block_dtype b) [b] []) as [_ H]; [by repeat constructor|].
  specialize (H ltac:(done)). rewrite bind_cons, !app_nil_r in H. simpl in H. rewrite app_nil_r in H.
  destruct b, Hin; done || exact H.
Qed.

(** sizes and errors of dequantization, for every type, buffer and output
    length: it never panics; it refuses exactly the types it has no decoder
    for, then exactly the lengths that are not whole blocks (reporting the
    length rounded down), then exactly the buffers shorter than the blocks'
    bytes (reporting both sizes); otherwise it fills the whole output.  The
    decoders it has are those [is_dequant_supported] announces and also Q3_K
    and Q5_K, which that function and the module's documentation leave out. *)
Theorem dequant_sizes (f16_to_f32 bf16_to_f32 : Z → Z) t src n :
  0 ≤ n →
  let needed := n / block_size t * type_size t in
  let have := Z.of_nat (length src) in
  let r := dequantize_block_chunk f16_to_f32 bf16_to_f32 t src n in
  match handled t, n mod block_size t =? 0, have <? needed with
  | false, _, _ => r = Err (Unsupported t)
  | true, false, _ => r = Err (OutputSize (n / block_size t * block_size t) n)
  | true, true, true => r = Err (BufferTooSmall needed have)
  | true, true, false => ∃ out, r = Ok out ∧ Z.of_nat (length out) = n
  end
  ∧ handled t = is_dequant_supported t || bool_decide (t ∈ [Q3_K; Q5_K]).
Proof.
  intros Hn needed have r. split; [|by destruct t].
  destruct (quantized_block f16_to_f32 t) as [block|] eqn:Hq.
  - assert (handled t = true) as -> by (by destruct t). unfold r.
    rewrite (chunk_quantized _ _ _ block) by done. by apply (dequant_blocks_sizes f16_to_f32).
  - assert (block_size t = 1 ∨ handled t = false) as [Hbs|Hh] by (destruct t; auto; done).
    + destruct (handled t) eqn:Hh; [|by destruct t]. unfold needed. rewrite Hbs, Z.mod_1_r, Z.div_1_r.
      assert (∃ widen, r = dequant_dense (Z.to_nat (type_size t)) widen src n) as [widen ->]
        by (destruct t; try done; by eexists).
      apply dequant_dense_sizes; [done|]. pose proof (type_size_pos t). lia.
    + rewrite Hh. by destruct t.
Qed.

(** The widening conversions of the [half] crate, for the witnesses. *)
Definition half_widen (x : Z) : Z := fcast binary16 binary32 x.
Definition bhalf_widen (x : Z) : Z := x * 2 ^ 16.

(** Two Q4_K blocks of scale 0.5, minimum scale 1, sub-scale 3 and minimum 2,
    with weights 0 to 15, then one trailing byte. *)
Definition example_block : qblock :=
  B4_K 0x3800 0x3c00 (λ _, 3) (λ _, 2) (λ i, Z.of_nat i mod 16).

Lemma dequant_correct_witness :
  dequantize_block_chunk half_widen bhalf_widen Q4_K
    (([example_block; example_block] ≫= enc_block) ++ [7]) 512
  = Ok ([example_block; example_block] ≫= block_values half_widen)
  (* 0.5·3·i - 2 for i = 0, 1, 2 *)
  ∧ take 3 (block_values half_widen example_block) = [f32_of (-2); 0xbf000000; f32_of 1]
  ∧ dequantize_block_chunk half_widen bhalf_widen GF16 [0; 0x3c; 0; 0xc0; 7] 2 = Ok [f32_of 1; f32_of (-2)].
Proof.
  split; [|split; [vm_compute; reflexivity|]].
  - refine (proj2 (proj1 (dequant_correct half_widen bhalf_widen Q4_K [7] eq_refl) [example_block; example_block] _ _));
      [discriminate|].
    assert (block_wf example_block ∧ block_dtype example_block = Q4_K) as H.
    { split; [|reflexivity]. cbn. unfold uint.
      change (2 ^ 16) with 65536. change (2 ^ 6) with 64. change (2 ^ 4) with 16.
      repeat split; try lia; intros; lia. }
    exact (Forall_cons_2 _ _ _ H (Forall_cons_2 _ _ _ H (Forall_nil_2 _))).
  - pose proof (proj2 (dequant_correct half_widen bhalf_widen GF16 [7] eq_refl) 2%nat [0x3c00; 0xc000] eq_refl) as H.
    assert (Forall (uint (8 * Z.of_nat 2)) [0x3c00; 0xc000]) as Hx by (repeat constructor; unfold uint; lia).
    specialize (H Hx). vm_compute in H. vm_compute. exact H.
Defined.

Lemma dequant_sizes_witness :
  0 ≤ 256
  ∧ dequantize_block_chunk half_widen bhalf_widen Q6_K (repeat 0 209) 256 = Err (BufferTooSmall 210 209)
  ∧ dequantize_block_chunk half_widen bhalf_widen Q4_K (repeat 0 144) 255 = Err (OutputSize 0 255)
  ∧ dequantize_block_chunk half_widen bhalf_widen Q4_0 [] 32 = Err (Unsupported Q4_0)
  ∧ ∃ out, dequantize_block_chunk half_widen bhalf_widen Q3_K (repeat 0 110) 256 = Ok out
           ∧ Z.of_nat (length out) = 256.
Proof.
  split; [lia|].
  split; [exact (proj1 (dequant_sizes half_widen bhalf_widen Q6_K (repeat 0 209) 256 ltac:(lia)))|].
  split; [exact (proj1 (dequant_sizes half_widen bhalf_widen Q4_K (repeat 0 144) 255 ltac:(lia)))|].
  split; [exact (proj1 (dequant_sizes half_widen bhalf_widen Q4_0 [] 32 ltac:(lia)))|].
  exact (proj1 (dequant_sizes half_widen bhalf_widen Q3_K (repeat 0 110) 256 ltac:(lia))).
Defined.
