(* ===== verification/Autograd.v ===== *)
(** * Reverse-mode differentiation (crates/rustorch-autograd: tape.rs, node.rs,
      variable.rs, backward.rs, higher_order.rs)

    The state of the engine is a [Tape]: the data cells and gradient slots that
    [Variable]s share ([Var] here: [Variable] is reserved) ([Arc<Mutex<..>>]), the arena of backward nodes (an [Arc]
    pointer is an index, and a node only points at nodes that existed before
    it) and the thread's [GRAD_ENABLED] flag.  What a node computes is the
    interface [NodeOps] (the trait [Node]), what a tensor must support is
    [GradTensor]; AutogradOps.v provides the nodes of ops.rs.

    The section on [flow] states what [backward] promises: the sum over all
    paths of the chain rule, which [backward_chain_rule] shows it computes
    although it visits every shared node once. *)

From Stdlib Require Import ZArith Lia.
From stdpp Require Import base list gmap sets strings relations.
From S2P Require Import Prelude Tensor.

Open Scope nat_scope.

(** ** Nodes and edges (node.rs) *)

(** [struct Edge] *)
Record Edge := mkEdge { edge_node : option nat; edge_slot : option nat }.

(** [Edge::leaf], [Edge::from_node], [Edge::detached] *)
Definition Edge_leaf (slot : nat) : Edge := mkEdge None (Some slot).
Definition Edge_from_node (n : nat) : Edge := mkEdge (Some n) None.
Definition Edge_detached : Edge := mkEdge None None.

(** [trait Node]: [apply] returns one optional gradient per input, or panics
    ([None]: the [expect]s of the implementations). *)
Class NodeOps (T K : Type) := {
  node_name : K → string;
  node_apply : K → T → option (list (option T))
}.

(** A node: the implementing struct and its [next_edges]. *)
Record Node (K : Type) := mkNode { node_impl : K; next_edges : list Edge }.
Arguments mkNode {K} _ _.
Arguments node_impl {K} _.
Arguments next_edges {K} _.

(** What the engine asks of a tensor: the CPU backend's [add] ([None] is an
    error) and [ones_like] ([None] is a panic). *)
Class GradTensor (T : Type) := {
  be_add : T → T → option T;
  ones_like : T → option T;
  zeros_like : T → option T
}.

(** [enum BackwardError]; the message of [Backend] is left out. *)
Inductive BackwardError :=
  | NoGradFn
  | Backend (op : string)
  | DeviceMismatch (op : string) (lhs rhs : Device).

(** ** Variables and the tape *)

(** [struct Variable]: [v_data] and [v_grad] are shared cells. *)
Record Var := mkVar {
  v_data : nat;
  v_grad_fn : option nat;
  v_grad : nat;
  v_requires_grad : bool
}.

Record Tape (T K : Type) := mkTape {
  cells : list T;
  slots : list (option T);
  nodes : list (Node K);
  grad_enabled : bool
}.
Arguments mkTape {T K} _ _ _ _.
Arguments cells {T K} _.
Arguments slots {T K} _.
Arguments nodes {T K} _.
Arguments grad_enabled {T K} _.

(** An operation on the tape that can fail. *)
Notation TapeM T K A := (Tape T K → res BackwardError (A * Tape T K)).

Definition tret {T K A} (a : A) : TapeM T K A := λ tp, Ok (a, tp).
Definition tbind {T K A B} (m : TapeM T K A) (k : A → TapeM T K B) : TapeM T K B :=
  λ tp, match m tp with
        | Ok (a, tp) => k a tp
        | Err e => Err e
        | Panic => Panic
        end.
Definition tlift {T K A} (m : res BackwardError A) : TapeM T K A :=
  λ tp, rmap (λ a, (a, tp)) m.

Notation "'do!' x ':=' m 'in' k" := (tbind m (fun x => k))
  (at level 200, x pattern, m at level 100, k at level 200,
   format "'[v' 'do!'  x  ':='  m  'in' '/' k ']'") : res_scope.

Section variables.
Context {T K : Type}.
Implicit Types (tp : Tape T K) (v : Var).

(** The two allocations of a new variable: [Arc::new(Mutex::new(tensor))] and
    [Arc::new(Mutex::new(None))]. *)
Definition alloc (t : T) (requires_grad : bool) : TapeM T K Var := λ tp,
  Ok (mkVar (length (cells tp)) None (length (slots tp)) requires_grad,
      mkTape (cells tp ++ [t]) (slots tp ++ [None]) (nodes tp) (grad_enabled tp)).

(** [Variable::new] *)
Definition Variable_new (t : T) : TapeM T K Var := alloc t false.

(** [Variable::leaf] *)
Definition Variable_leaf (t : T) : TapeM T K Var := alloc t true.

(** [Variable::requires_grad] *)
Definition requires_grad (v : Var) (flag : bool) : Var :=
  mkVar (v_data v) (v_grad_fn v) (v_grad v) flag.

(** [Variable::tensor] *)
Definition tensor (v : Var) : TapeM T K T := λ tp,
  match cells tp !! v_data v with
  | Some t => Ok (t, tp)
  | None => Panic
  end.

(** [Variable::set_data] *)
Definition set_data (v : Var) (t : T) : TapeM T K unit := λ tp,
  Ok (tt, mkTape (<[v_data v := t]> (cells tp)) (slots tp) (nodes tp) (grad_enabled tp)).

(** [Variable::raw_grad]; on the CPU also [Variable::grad]. *)
Definition raw_grad (v : Var) (tp : Tape T K) : option T :=
  mjoin (slots tp !! v_grad v).

(** [Variable::set_grad], [Variable::zero_grad] *)
Definition set_grad (v : Var) (g : option T) : TapeM T K unit := λ tp,
  Ok (tt, mkTape (cells tp) (<[v_grad v := g]> (slots tp)) (nodes tp) (grad_enabled tp)).
Definition zero_grad (v : Var) : TapeM T K unit := set_grad v None.

(** [Variable::detach] *)
Definition detach (v : Var) : TapeM T K Var :=
  do! snapshot := tensor v in
  alloc snapshot false.

(** [Variable::edge] *)
Definition edge (v : Var) : Edge :=
  if v_requires_grad v then
    match v_grad_fn v with
    | Some n => Edge_from_node n
    | None => Edge_leaf (v_grad v)
    end
  else Edge_detached.

(** The end of every op of ops.rs: [Arc::new(node)], [out.grad_fn = Some(node)]
    and [out.requires_grad = true]. *)
Definition attach (k : K) (edges : list Edge) (out : Var) : TapeM T K Var := λ tp,
  Ok (mkVar (v_data out) (Some (length (nodes tp))) (v_grad out) true,
      mkTape (cells tp) (slots tp) (nodes tp ++ [mkNode k edges]) (grad_enabled tp)).

(** ** Gradient tracking (tape.rs) *)

(** [is_grad_enabled] *)
Definition is_grad_enabled : TapeM T K bool := λ tp, Ok (grad_enabled tp, tp).

Definition set_enabled (b : bool) (tp : Tape T K) : Tape T K :=
  mkTape (cells tp) (slots tp) (nodes tp) b.

(** [NoGradGuard::enter], [WithGradGuard::enter]: the guard is the previous
    flag.  [Drop] restores it. *)
Definition NoGradGuard_enter (tp : Tape T K) : bool * Tape T K :=
  (grad_enabled tp, set_enabled false tp).
Definition WithGradGuard_enter (tp : Tape T K) : bool * Tape T K :=
  (grad_enabled tp, set_enabled true tp).
Definition guard_drop (previous : bool) (tp : Tape T K) : Tape T K :=
  set_enabled previous tp.

(** [no_grad], [with_grad] *)
Definition no_grad {A} (f : TapeM T K A) : TapeM T K A := λ tp,
  let '(guard, tp) := NoGradGuard_enter tp in
  let? (a, tp) := f tp in
  Ok (a, guard_drop guard tp).
Definition with_grad {A} (f : TapeM T K A) : TapeM T K A := λ tp,
  let '(guard, tp) := WithGradGuard_enter tp in
  let? (a, tp) := f tp in
  Ok (a, guard_drop guard tp).

End variables.

(** ** backward.rs *)

Section backward.
Context {T K : Type} `{!GradTensor T, !NodeOps T K}.

Notation Grads := (gmap nat T).
Notation Slots := (list (option T)).

(** [visit]: depth-first search over the arena [ns]; [topo] and [visited] are
    the two [&mut] arguments.  The fuel bounds the depth of the recursion. *)
Definition edges_of (ns : list (Node K)) (n : nat) : list Edge :=
  match ns !! n with Some nd => next_edges nd | None => [] end.

Fixpoint visit (ns : list (Node K)) (fuel n : nat) (st : list nat * gset nat) : list nat * gset nat :=
  match fuel with
  | O => st
  | S fuel =>
      if decide (n ∈ st.2) then st
      else
        let st :=
          foldl (λ st e, match edge_node e with
                         | Some m => visit ns fuel m st
                         | None => st
                         end)
            (st.1, {[n]} ∪ st.2) (edges_of ns n) in
        (st.1 ++ [n], st.2)
  end.

(** [accumulate_into_edge]: returns the accumulated gradients and the slots as
    they are when the function returns, also when it fails. *)
Definition accumulate_into_edge (e : Edge) (grad : T) (st : Grads * Slots)
    : (Grads * Slots) * res BackwardError unit :=
  let '(grads, sl) := st in
  match edge_node e, edge_slot e with
  | Some key, _ =>
      match grads !! key with
      | Some prev =>
          let grads := delete key grads in
          match be_add prev grad with
          | Some summed => ((<[key := summed]> grads, sl), Ok tt)
          | None => ((grads, sl), Err (Backend "accumulate"))
          end
      | None => ((<[key := grad]> grads, sl), Ok tt)
      end
  | None, Some slot =>
      match mjoin (sl !! slot) with
      | Some prev =>
          let sl := <[slot := None]> sl in
          match be_add prev grad with
          | Some next => ((grads, <[slot := Some next]> sl), Ok tt)
          | None => ((grads, sl), Err (Backend "accumulate_leaf"))
          end
      | None => ((grads, <[slot := Some grad]> sl), Ok tt)
      end
  | None, None => ((grads, sl), Ok tt)
  end.

(** The inner loop of [backward]. *)
Fixpoint accumulate_edges (l : list (Edge * option T)) (st : Grads * Slots)
    : (Grads * Slots) * res BackwardError unit :=
  match l with
  | [] => (st, Ok tt)
  | (_, None) :: l => accumulate_edges l st
  | (e, Some g) :: l =>
      match accumulate_into_edge e g st with
      | (st, Ok _) => accumulate_edges l st
      | r => r
      end
  end.

(** One iteration of the outer loop. *)
Definition backward_node (ns : list (Node K)) (n : nat) (st : Grads * Slots)
    : (Grads * Slots) * res BackwardError unit :=
  let '(grads, sl) := st in
  match grads !! n, ns !! n with
  | Some upstream_grad, Some nd =>
      let grads := delete n grads in
      match node_apply (node_impl nd) upstream_grad with
      | None => ((grads, sl), Panic)
      | Some input_grads =>
          if decide (length input_grads ≠ length (next_edges nd)) then
            ((grads, sl), Err (Backend (node_name (node_impl nd))))
          else accumulate_edges (zip (next_edges nd) input_grads) (grads, sl)
      end
  | _, _ => ((grads, sl), Ok tt)
  end.

(** The outer loop, over the reversed topological order. *)
Fixpoint backward_loop (ns : list (Node K)) (order : list nat) (st : Grads * Slots)
    : (Grads * Slots) * res BackwardError unit :=
  match order with
  | [] => (st, Ok tt)
  | n :: order =>
      match backward_node ns n st with
      | (st, Ok _) => backward_loop ns order st
      | r => r
      end
  end.

(** The topological order from the root. *)
Definition topo_from (ns : list (Node K)) (root : nat) : list nat :=
  (visit ns (S root) root ([], ∅)).1.

(** [backward] *)
Definition backward (output : Var) (initial_grad : option T) (tp : Tape T K)
    : Tape T K * res BackwardError unit :=
  match v_grad_fn output with
  | None => (tp, Err NoGradFn)
  | Some root =>
      match (match initial_grad with
             | Some g => Some g
             | None => cells tp !! v_data output ≫= ones_like
             end) with
      | None => (tp, Panic)
      | Some grad =>
          let topo := topo_from (nodes tp) root in
          let '((_, sl), r) := backward_loop (nodes tp) (reverse topo) ({[root := grad]}, slots tp) in
          (mkTape (cells tp) sl (nodes tp) (grad_enabled tp), r)
      end
  end.

(** [higher_order::grad]; [_create_graph] is unused. *)
Definition collect_grad (inp : Var) (tp : Tape T K) : res BackwardError T :=
  match raw_grad inp tp with
  | Some g => Ok g
  | None => unwrap_opt (cells tp !! v_data inp ≫= zeros_like)
  end.

Definition grad (outputs : Var) (inputs : list Var) (grad_outputs : option T)
    (tp : Tape T K) : Tape T K * res BackwardError (list T) :=
  match backward outputs grad_outputs tp with
  | (tp, Ok _) => (tp, rmapM (λ inp, collect_grad inp tp) inputs)
  | (tp, Err e) => (tp, Err e)
  | (tp, Panic) => (tp, Panic)
  end.

End backward.

(** ** The order of visit *)

Section visit_order.
Context {K : Type} (ns : list (Node K)).

(** [n] has an edge to [m]. *)
Definition succ (n m : nat) : Prop := ∃ e, e ∈ edges_of ns n ∧ edge_node e = Some m.

(** Nodes only point at older nodes. *)
Definition graph_wf : Prop := ∀ n m, succ n m → m < n.

(** Every node of [l] comes after all the nodes it points at. *)
Definition inputs_first (l : list nat) : Prop :=
  ∀ l1 x l2, l = l1 ++ x :: l2 → ∀ y, succ x y → y ∈ l1.

(** The state of a search with the nodes above [k] in progress: what it has
    emitted is in order, and nothing up to [k] is visited but not emitted. *)
Record visiting (k : nat) (st : list nat * gset nat) : Prop := {
  vi_nodup : NoDup st.1;
  vi_order : inputs_first st.1;
  vi_sub : ∀ m, m ∈ st.1 → m ∈ st.2;
  vi_done : ∀ m, m < k → m ∈ st.2 → m ∈ st.1
}.

(** [reaches]: [st'] extends [st] with nodes reachable from one satisfying [P]. *)
Definition reaches (P : nat → Prop) (st st' : list nat * gset nat) : Prop :=
  ∃ new, st'.1 = st.1 ++ new ∧ st'.2 = st.2 ∪ list_to_set new ∧
         ∀ m, m ∈ new → ∃ r, P r ∧ rtc succ r m.

Lemma reaches_refl P st : reaches P st st.
Proof. exists []. rewrite app_nil_r. set_solver. Qed.

Lemma reaches_trans P st1 st2 st3 : reaches P st1 st2 → reaches P st2 st3 → reaches P st1 st3.
Proof.
  intros (n1 & H1 & H2 & H3) (n2 & H4 & H5 & H6). exists (n1 ++ n2).
  rewrite H4, H1, H5, H2, list_to_set_app_L. split_and!; [by rewrite app_assoc|set_solver|].
  intros m [?|?]%elem_of_app; eauto.
Qed.

Lemma reaches_mono (P Q : nat → Prop) st st' :
  (∀ r, P r → ∃ q, Q q ∧ rtc succ q r) → reaches P st st' → reaches Q st st'.
Proof.
  intros HPQ (new & H1 & H2 & H3). exists new. split_and!; [done..|].
  intros m (r & Hr & Hm)%H3. destruct (HPQ r Hr) as (q & ? & ?).
  exists q. split; [done|]. by etrans.
Qed.

Lemma inputs_first_snoc l n :
  inputs_first l → (∀ y, succ n y → y ∈ l) → inputs_first (l ++ [n]).
Proof.
  intros Hl Hn l1 x l2 Heq y Hy.
  destruct l2 as [|z l2 _] using rev_ind.
  - apply app_inj_tail in Heq as [<- <-]. by apply Hn.
  - rewrite app_comm_cons, app_assoc in Heq. apply app_inj_tail in Heq as [-> <-].
    by eapply Hl.
Qed.

Lemma visiting_le k k' st : k' ≤ k → visiting k st → visiting k' st.
Proof. intros Hk []. constructor; [done..|]. intros m Hm. apply vi_done0. lia. Qed.

(** The edges of one node, given that the recursive calls are right. *)
Lemma visit_edges fuel k es st :
  (∀ m st, m < k → visiting k st →
     let st' := visit ns fuel m st in visiting k st' ∧ m ∈ st'.1 ∧ reaches (eq m) st st') →
  (∀ e m, e ∈ es → edge_node e = Some m → m < k) →
  visiting k st →
  let st' := foldl (λ st e, match edge_node e with
                            | Some m => visit ns fuel m st | None => st end) st es in
  visiting k st' ∧ (∀ e m, e ∈ es → edge_node e = Some m → m ∈ st'.1) ∧
  reaches (λ r, ∃ e, e ∈ es ∧ edge_node e = Some r) st st'.
Proof.
  intros Hvisit Hes Hst. revert st Hst.
  induction es as [|e es IH]; intros st Hst; simpl.
  { split_and!; [done| |apply reaches_refl]. intros e m H. by apply elem_of_nil in H. }
  set (st1 := match edge_node e with Some m => visit ns fuel m st | None => st end).
  assert (visiting k st1 ∧ (∀ m, edge_node e = Some m → m ∈ st1.1) ∧
          reaches (λ r, edge_node e = Some r) st st1) as (H1 & H2 & H3).
  { unfold st1. destruct (edge_node e) as [m|] eqn:He.
    - destruct (Hvisit m st) as (? & ? & ?); [|done|].
      { eapply Hes; [apply elem_of_cons; by left|done]. }
      split_and!; [done|by intros ? [= <-]|].
      eapply reaches_mono; [|done]. intros r <-. exists m. by split.
    - split_and!; [done|done|apply reaches_refl]. }
  destruct (IH (λ e' m H, Hes e' m (proj2 (elem_of_cons _ _ _) (or_intror H))) st1 H1)
    as (H4 & H5 & H6).
  split_and!; [done| |].
  - intros e' m [->|?]%elem_of_cons Hm; [|by eapply H5].
    destruct H6 as (new & -> & _). apply elem_of_app. left. by apply H2.
  - eapply reaches_trans.
    + eapply reaches_mono; [|exact H3]. intros r Hr. exists r. split; [|done].
      exists e. split; [apply elem_of_cons; by left|done].
    + eapply reaches_mono; [|exact H6]. intros r (e' & ? & ?). exists r. split; [|done].
      exists e'. split; [apply elem_of_cons; by right|done].
Qed.

Lemma visit_step fuel n st : graph_wf → n < fuel → visiting (S n) st →
  let st' := visit ns fuel n st in
  visiting (S n) st' ∧ n ∈ st'.1 ∧ reaches (eq n) st st'.
Proof.
  intros Hwf. revert n st. induction fuel as [|fuel IH]; intros n st Hn Hst; [lia|].
  simpl. destruct (decide (n ∈ st.2)) as [Hin|Hnin].
  { split_and!; [done| |apply reaches_refl]. apply Hst; [lia|done]. }
  set (st0 := (st.1, {[n]} ∪ st.2)).
  assert (visiting n st0) as Hst0.
  { destruct Hst as [Hnd Ho Hsub Hdone]. constructor; simpl; [done..| |].
    - intros m Hm. apply elem_of_union_r. by apply Hsub.
    - intros m Hm [->%elem_of_singleton|?]%elem_of_union; [lia|]. apply Hdone; [lia|done]. }
  destruct (visit_edges fuel n (edges_of ns n) st0) as (H1 & H2 & H3); [| |done|].
  - intros m st1 Hm Hst1. destruct (IH m st1) as (Hv & Hin & Hext); [lia|by eapply visiting_le|].
    split_and!; [|done|done]. destruct Hext as (new & E1 & E2 & E3).
    destruct Hv. constructor; [done..|].
    intros x Hx. rewrite E1, E2, elem_of_union, elem_of_list_to_set, elem_of_app.
    intros [?|?]; [left; by apply Hst1|by right].
  - intros e m He Hm. apply Hwf. by exists e.
  - simpl. set (st1 := foldl _ st0 _) in *. destruct H3 as (new & E1 & E2 & E3). simpl in E1, E2.
    assert (n ∉ st1.1) as Hn1.
    { rewrite E1. intros [Hn1|Hn1]%elem_of_app.
      - apply Hnin. by apply Hst.
      - destruct (E3 n Hn1) as (r & (e & He & Hr) & Hrtc).
        assert (r < n) by (apply Hwf; by exists e).
        assert (∀ a b, rtc succ a b → b ≤ a) as Hle.
        { intros a b. induction 1 as [|a b c Hab _ IHab]; [done|]. apply Hwf in Hab. lia. }
        apply Hle in Hrtc. lia. }
    split_and!.
    + destruct H1 as [Hnd Ho Hsub Hdone]. constructor; simpl.
      * apply NoDup_app. split_and!; [done| |apply NoDup_singleton].
        intros x Hx ->%list_elem_of_singleton. done.
      * apply inputs_first_snoc; [done|]. intros y (e & He & Hy). by eapply H2.
      * intros m [Hm| ->%list_elem_of_singleton]%elem_of_app; [by apply Hsub|].
        rewrite E2. set_solver.
      * intros m Hm Hm2. apply elem_of_app.
        destruct (decide (m = n)) as [->|]; [right; by apply list_elem_of_singleton|].
        left. apply Hdone; [lia|done].
    + apply elem_of_app. right. by apply list_elem_of_singleton.
    + exists (new ++ [n]). simpl. split_and!; [by rewrite E1, app_assoc|rewrite E2; set_solver|].
      intros m [Hm| ->%list_elem_of_singleton]%elem_of_app; [|exists n; by split].
      destruct (E3 m Hm) as (r & He & Hr). exists n. split; [done|].
      eapply rtc_l; [exact He|done].
Qed.

(** The order from a root: no duplicates, exactly the reachable nodes, each
    after the nodes it points at, the root last. *)
Lemma topo_from_spec root : graph_wf →
  let topo := topo_from ns root in
  NoDup topo ∧ (∀ m, m ∈ topo ↔ rtc succ root m) ∧ inputs_first topo ∧
  ∃ rest, topo = rest ++ [root].
Proof.
  intros Hwf topo.
  assert (visiting (S root) (([] : list nat), (∅ : gset nat))) as H0.
  { constructor; simpl; [constructor| |set_solver..]. intros [] ???; simplify_list_eq. }
  destruct (visit_step (S root) root _ Hwf (Nat.lt_succ_diag_r root) H0) as (Hv & Hin & Hext).
  fold (topo_from ns root) in Hin. change (visit ns (S root) root ([], ∅)).1 with topo in Hin.
  destruct Hext as (new & E1 & _ & E3). destruct Hv as [Hnd Ho _ _].
  change (visit ns (S root) root ([], ∅)).1 with topo in *. simpl in E1. subst new.
  split_and!; [done| |done|].
  - intros m. split.
    + intros (r & <- & ?)%E3. done.
    + assert (∀ a, rtc succ a m → a ∈ topo → m ∈ topo) as Hcl; [|eauto].
      intros a. induction 1 as [|a b c Hab _ IH]; [done|]. intros Ha. apply IH.
      apply list_elem_of_split in Ha as (l1 & l2 & Heq). rewrite Heq.
      apply elem_of_app. left. by eapply Ho.
  - unfold topo, topo_from. simpl. rewrite decide_False by set_solver. eauto.
Qed.

(** The fuel is enough: more does not change the result. *)
Lemma visit_fuel fuel fuel' n st : graph_wf → n < fuel → n < fuel' →
  visit ns fuel n st = visit ns fuel' n st.
Proof.
  intros Hwf. revert fuel' n st. induction fuel as [|fuel IH]; intros [|fuel'] n st H1 H2; try lia.
  simpl. case_decide; [done|].
  assert (∀ es st, (∀ e m, e ∈ es → edge_node e = Some m → m < n) →
    foldl (λ st e, match edge_node e with Some m => visit ns fuel m st | None => st end) st es =
    foldl (λ st e, match edge_node e with Some m => visit ns fuel' m st | None => st end) st es)
    as Hes.
  { induction es as [|e es IHes]; intros st' Hlt; simpl; [done|].
    rewrite IHes by (intros; eapply Hlt; [apply elem_of_cons; by right|done]). f_equal.
    destruct (edge_node e) as [m|] eqn:He; [|done].
    assert (m < n) by (eapply Hlt; [apply elem_of_cons; by left|done]). apply IH; lia. }
  rewrite Hes; [done|]. intros e m He Hm. apply Hwf. by exists e.
Qed.

End visit_order.

(** ** What backward promises

    Gradients have shapes, and tensors of one shape add up like a commutative
    semigroup; a node maps gradients of its output's shape to gradients of its
    inputs' shapes, additively. *)

Class GradLaws (T Sh : Type) `{!GradTensor T} := {
  tshape : T → Sh;
  be_add_shape a b : tshape a = tshape b → ∃ c, be_add a b = Some c ∧ tshape c = tshape a;
  be_add_comm a b : tshape a = tshape b → be_add a b = be_add b a;
  be_add_assoc a b c ab bc : tshape a = tshape b → tshape b = tshape c →
    be_add a b = Some ab → be_add b c = Some bc → be_add ab c = be_add a bc
}.

(** The sum of two gradients, either of which may be missing. *)
Definition oplus {T} `{!GradTensor T} (a b : option T) : option T :=
  match a, b with
  | Some x, Some y => be_add x y
  | Some x, None => Some x
  | None, b => b
  end.
Definition osum {T} `{!GradTensor T} (l : list (option T)) : option T := foldr oplus None l.

Section oplus.
Context {T Sh : Type} `{!GradTensor T, !GradLaws T Sh}.
Implicit Types (a b c : option T) (t : Sh).

(** A gradient, if there is one, has shape [t]. *)
Definition oshape (t : Sh) (o : option T) : Prop := ∀ x, o = Some x → tshape x = t.

Lemma oshape_None t : oshape t None.
Proof. done. Qed.

Lemma oshape_Some t x : oshape t (Some x) ↔ tshape x = t.
Proof. split; [intros H; by apply H|by intros ? ? [= <-]]. Qed.

Lemma oplus_shape t a b : oshape t a → oshape t b → oshape t (oplus a b).
Proof.
  destruct a as [x|], b as [y|]; simpl; try done.
  rewrite !oshape_Some. intros Hx Hy.
  destruct (be_add_shape x y) as (c & -> & Hc); [congruence|]. apply oshape_Some. congruence.
Qed.

Lemma oplus_None_r a : oplus a None = a.
Proof. by destruct a. Qed.

Lemma oplus_comm t a b : oshape t a → oshape t b → oplus a b = oplus b a.
Proof.
  destruct a as [x|], b as [y|]; simpl; try done.
  rewrite !oshape_Some. intros Hx Hy. apply (be_add_comm (Sh:=Sh)). congruence.
Qed.

Lemma oplus_assoc t a b c : oshape t a → oshape t b → oshape t c →
  oplus (oplus a b) c = oplus a (oplus b c).
Proof.
  destruct a as [x|], b as [y|], c as [z|]; simpl; rewrite ?oplus_None_r, ?oshape_Some; try done.
  intros Hx Hy Hz.
  destruct (be_add_shape x y) as (xy & Hxy & ?); [congruence|].
  destruct (be_add_shape y z) as (yz & Hyz & ?); [congruence|].
  rewrite Hxy, Hyz. simpl. apply (be_add_assoc (Sh:=Sh) x y z); [congruence|congruence|done..].
Qed.

Lemma oplus_assoc_comm t a b c : oshape t a → oshape t b → oshape t c →
  oplus a (oplus b c) = oplus b (oplus a c).
Proof.
  intros. rewrite <- !(oplus_assoc t) by done. f_equal. by apply (oplus_comm t).
Qed.

Lemma osum_shape t l : Forall (oshape t) l → oshape t (osum l).
Proof. induction 1; simpl; [done|]. by apply oplus_shape. Qed.

Lemma osum_app t l k : Forall (oshape t) l → Forall (oshape t) k →
  osum (l ++ k) = oplus (osum l) (osum k).
Proof.
  intros Hl Hk. induction Hl as [|x l Hx Hl IH]; simpl; [done|].
  rewrite IH. symmetry. apply (oplus_assoc t); [done|by apply osum_shape..].
Qed.

(** Changing one summand of a sum over distinct indices. *)
Lemma osum_update {A} `{!EqDecision A} t (f g : A → option T) l k c : NoDup l → k ∈ l →
  (∀ x, x ∈ l → oshape t (f x)) → oshape t c →
  (∀ x, x ∈ l → x ≠ k → g x = f x) → g k = oplus (f k) c →
  osum (g <$> l) = oplus (osum (f <$> l)) c.
Proof.
  intros Hnd Hk Hf Hc Hgf Hg. induction Hnd as [|x l Hx Hnd IH]; [by apply elem_of_nil in Hk|].
  assert (Forall (oshape t) (f <$> l)) as Hfl.
  { apply Forall_fmap, Forall_forall. intros y Hy. apply Hf. apply elem_of_cons. by right. }
  apply elem_of_cons in Hk. csimpl. destruct (decide (x = k)) as [->|Hne].
  - rewrite Hg.
    assert (g <$> l = f <$> l) as ->.
    { apply list_fmap_ext. intros i y Hy%list_elem_of_lookup_2. apply Hgf.
      - apply elem_of_cons. by right.
      - intros ->. done. }
    assert (oshape t (f k)) by (apply Hf, elem_of_cons; by left).
    assert (oshape t (osum (f <$> l))) by by apply osum_shape.
    rewrite !(oplus_assoc t) by done. f_equal. by apply (oplus_comm t).
  - destruct Hk as [->|Hk]; [done|].
    rewrite IH; [|done|intros; apply Hf; apply elem_of_cons; by right
                 |intros; apply Hgf; [apply elem_of_cons; by right|done]].
    rewrite (Hgf x); [|apply elem_of_cons; by left|done].
    symmetry. apply (oplus_assoc t); [|by apply osum_shape|done].
    apply Hf. apply elem_of_cons. by left.
Qed.

End oplus.

#[global] Arguments oplus : simpl never.
#[global] Arguments accumulate_into_edge : simpl never.
#[global] Arguments backward_node : simpl never.

Section flow.
Context {T K Sh : Type} `{!GradTensor T, !NodeOps T K, !GradLaws T Sh}.
Context (ns : list (Node K)).

(** The naive chain rule: the gradient that reaches slot [s] when [g] arrives
    at node [n], as the sum over all paths, visiting a node once per path. *)
Fixpoint flow (fuel n : nat) (g : T) (s : nat) : option T :=
  match fuel with
  | O => None
  | S fuel =>
      match ns !! n with
      | None => None
      | Some nd =>
          match node_apply (node_impl nd) g with
          | None => None
          | Some gs =>
              osum (zip_with (λ e og,
                match og, edge_node e with
                | None, _ => None
                | Some gi, Some m => flow fuel m gi s
                | Some gi, None => if decide (edge_slot e = Some s) then Some gi else None
                end) (next_edges nd) gs)
          end
      end
  end.

(** What one edge passes on. *)
Definition edge_flow (e : Edge) (og : option T) (s : nat) : option T :=
  match og, edge_node e with
  | None, _ => None
  | Some gi, Some m => flow (S m) m gi s
  | Some gi, None => if decide (edge_slot e = Some s) then Some gi else None
  end.

(** A node that takes gradients of shape [so] to gradients of shapes [sis], additively. *)
Record node_typed (k : K) (so : Sh) (sis : list Sh) : Prop := {
  nt_apply g : tshape g = so → ∃ gs, node_apply k g = Some gs ∧ Forall2 oshape sis gs;
  nt_add a b c ga gb : tshape a = so → tshape b = so → be_add a b = Some c →
    node_apply k a = Some ga → node_apply k b = Some gb →
    node_apply k c = Some (zip_with oplus ga gb)
}.

Context (nshape sshape : nat → Sh) (nslots : nat).

Definition edge_typed (e : Edge) (t : Sh) : Prop :=
  match edge_node e with
  | Some m => nshape m = t
  | None => ∀ s, edge_slot e = Some s → sshape s = t ∧ s < nslots
  end.

(** Every node takes gradients of its shape to gradients of the shapes of the
    nodes and slots its edges lead to, which are older. *)
Definition graph_typed : Prop := ∀ n nd, ns !! n = Some nd →
  (∃ sis, node_typed (node_impl nd) (nshape n) sis ∧ Forall2 edge_typed (next_edges nd) sis) ∧
  ∀ e m, e ∈ next_edges nd → edge_node e = Some m → m < n.

Hypothesis Hgt : graph_typed.

Lemma graph_typed_wf : graph_wf ns.
Proof.
  intros n m (e & He & Hm). unfold edges_of in He.
  destruct (ns !! n) as [nd|] eqn:Hn; [|by apply elem_of_nil in He].
  by eapply (Hgt n nd).
Qed.

Lemma flow_fuel f1 f2 n g s : n < f1 → n < f2 → flow f1 n g s = flow f2 n g s.
Proof.
  revert f2 n g. induction f1 as [|f1 IH]; intros [|f2] n g H1 H2; try lia. simpl.
  destruct (ns !! n) as [nd|] eqn:Hn; [|done].
  destruct (node_apply _ g) as [gs|]; [|done]. f_equal.
  assert (∀ e m, e ∈ next_edges nd → edge_node e = Some m → m < n) as Hlt by by eapply Hgt.
  revert gs Hlt. generalize (next_edges nd) as es.
  induction es as [|e es IHes]; intros [|og gs] Hlt; simpl; try done. f_equal.
  - destruct og, (edge_node e) as [m|] eqn:He; try done.
    assert (m < n) by (eapply Hlt; [apply elem_of_cons; by left|done]). apply IH; lia.
  - apply IHes. intros. eapply Hlt; [apply elem_of_cons; by right|done].
Qed.

Lemma flow_unfold n nd g gs s : ns !! n = Some nd → node_apply (node_impl nd) g = Some gs →
  flow (S n) n g s = osum (zip_with (λ e og, edge_flow e og s) (next_edges nd) gs).
Proof.
  intros Hn Hg. simpl. rewrite Hn, Hg. f_equal.
  assert (∀ e m, e ∈ next_edges nd → edge_node e = Some m → m < n) as Hlt by by eapply Hgt.
  clear Hg. revert gs Hlt. generalize (next_edges nd) as es.
  induction es as [|e es IHes]; intros [|og gs] Hlt; simpl; try done. f_equal.
  - unfold edge_flow. destruct og, (edge_node e) as [m|] eqn:He; try done.
    assert (m < n) by (eapply Hlt; [apply elem_of_cons; by left|done]). apply flow_fuel; lia.
  - apply IHes. intros. eapply Hlt; [apply elem_of_cons; by right|done].
Qed.

Lemma edge_flow_None e s : edge_flow e None s = None.
Proof. done. Qed.

(** Shapes and additivity of [flow], by induction on the node. *)
Definition flow_good (n : nat) : Prop :=
  (∀ g s, tshape g = nshape n → oshape (sshape s) (flow (S n) n g s)) ∧
  (∀ a b c s, tshape a = nshape n → tshape b = nshape n → be_add a b = Some c →
     flow (S n) n c s = oplus (flow (S n) n a s) (flow (S n) n b s)).

Lemma edge_flow_shape e t og s : edge_typed e t → (∀ m, edge_node e = Some m → flow_good m) →
  oshape t og → oshape (sshape s) (edge_flow e og s).
Proof.
  unfold edge_typed, edge_flow. intros He Hg Hog. destruct og as [g|]; [|done].
  rewrite oshape_Some in Hog. destruct (edge_node e) as [m|].
  - destruct (Hg m eq_refl) as [H _]. apply H. congruence.
  - case_decide as Hs; [|done]. apply oshape_Some. destruct (He s Hs). congruence.
Qed.

Lemma edge_flow_add e t a b s : edge_typed e t → (∀ m, edge_node e = Some m → flow_good m) →
  oshape t a → oshape t b →
  edge_flow e (oplus a b) s = oplus (edge_flow e a s) (edge_flow e b s).
Proof.
  unfold edge_typed. intros He Hg Ha Hb.
  destruct a as [a|], b as [b|]; try done.
  - rewrite oshape_Some in Ha, Hb.
    destruct (be_add_shape a b) as (c & Hc & Hsc); [congruence|].
    unfold oplus at 1. rewrite Hc. unfold edge_flow. destruct (edge_node e) as [m|].
    + destruct (Hg m eq_refl) as [_ H]. apply H; [congruence..|done].
    + case_decide; [|done]. unfold oplus. by rewrite Hc.
  - by rewrite edge_flow_None, !oplus_None_r.
Qed.

Lemma edges_flow_shape es sis gs s : Forall2 edge_typed es sis →
  (∀ e m, e ∈ es → edge_node e = Some m → flow_good m) → Forall2 oshape sis gs →
  Forall (oshape (sshape s)) (zip_with (λ e og, edge_flow e og s) es gs).
Proof.
  intros Hes. revert gs. induction Hes as [|e t es sis He Hes IH]; intros gs Hg Hgs;
    inversion Hgs; subst; simpl; constructor.
  - eapply edge_flow_shape; [done| |done]. intros m. apply Hg. apply elem_of_cons. by left.
  - apply IH; [|done]. intros e' m ?. apply Hg. apply elem_of_cons. by right.
Qed.

Lemma edges_flow_add es sis ga gb s : Forall2 edge_typed es sis →
  (∀ e m, e ∈ es → edge_node e = Some m → flow_good m) →
  Forall2 oshape sis ga → Forall2 oshape sis gb →
  osum (zip_with (λ e og, edge_flow e og s) es (zip_with oplus ga gb)) =
  oplus (osum (zip_with (λ e og, edge_flow e og s) es ga))
        (osum (zip_with (λ e og, edge_flow e og s) es gb)).
Proof.
  intros Hes. revert ga gb. induction Hes as [|e t es sis He Hes IH]; intros ga gb Hg Hga Hgb;
    inversion Hga; subst; inversion Hgb; subst; simpl; [done|].
  assert (∀ e' m, e' ∈ es → edge_node e' = Some m → flow_good m) as Hg'.
  { intros e' m ?. apply Hg. apply elem_of_cons. by right. }
  assert (∀ m, edge_node e = Some m → flow_good m) as Hge.
  { intros m. apply Hg. apply elem_of_cons. by left. }
  rewrite IH by done. rewrite (edge_flow_add e t) by done.
  pose proof (λ og H, edge_flow_shape e t og s He Hge H) as Hsh.
  pose proof (λ gs H, osum_shape _ _ (edges_flow_shape es sis gs s Hes Hg' H)) as Hss.
  rewrite !(oplus_assoc (sshape s)) by (try apply oplus_shape; auto). f_equal.
  apply (oplus_assoc_comm (sshape s)); auto.
Qed.

Lemma flow_is_good n : flow_good n.
Proof.
  induction n as [n IH] using lt_wf_ind. unfold flow_good.
  destruct (ns !! n) as [nd|] eqn:Hn; cycle 1.
  { split; intros; simpl; by rewrite Hn. }
  destruct (Hgt n nd Hn) as [(sis & Hnt & Hes) Hlt].
  assert (∀ e m, e ∈ next_edges nd → edge_node e = Some m → flow_good m) as Hg by eauto.
  split.
  - intros g s Hsg. destruct (nt_apply _ _ _ Hnt g Hsg) as (gs & Hgs & Hsh).
    rewrite (flow_unfold n nd g gs) by done. apply osum_shape. by eapply edges_flow_shape.
  - intros a b c s Ha Hb Hc.
    destruct (nt_apply _ _ _ Hnt a Ha) as (ga & Hga & Hsa).
    destruct (nt_apply _ _ _ Hnt b Hb) as (gb & Hgb & Hsb).
    rewrite (flow_unfold n nd a ga), (flow_unfold n nd b gb),
      (flow_unfold n nd c (zip_with oplus ga gb)) by eauto using nt_add.
    by eapply edges_flow_add.
Qed.


(** What the gradients held for the nodes of [order] will still bring to slot
    [s], together with what is in it. *)
Definition pending (grads : gmap nat T) (m s : nat) : option T :=
  grads !! m ≫= λ g, flow (S m) m g s.
Definition potential (grads : gmap nat T) (sl : list (option T)) (order : list nat) (s : nat)
    : option T :=
  oplus (mjoin (sl !! s)) (osum ((λ m, pending grads m s) <$> order)).

(** The gradients held are for nodes still to come, and all shapes agree. *)
Record state_typed (grads : gmap nat T) (sl : list (option T)) (order : list nat) : Prop := {
  st_grads m g : grads !! m = Some g → tshape g = nshape m ∧ m ∈ order;
  st_slots s : oshape (sshape s) (mjoin (sl !! s));
  st_length : length sl = nslots
}.

Lemma pending_shape grads sl order m s : state_typed grads sl order →
  oshape (sshape s) (pending grads m s).
Proof.
  intros Hst. unfold pending. destruct (grads !! m) as [g|] eqn:Hm; simpl; [|done].
  apply (flow_is_good m). by eapply st_grads.
Qed.

Lemma pendings_shape grads sl order l s : state_typed grads sl order →
  Forall (oshape (sshape s)) ((λ m, pending grads m s) <$> l).
Proof.
  intros Hst. apply Forall_fmap, Forall_forall. intros m _. by eapply pending_shape.
Qed.

(** A gradient arriving at a node of the order. *)
Lemma potential_node grads sl order m g c s : NoDup order → m ∈ order →
  state_typed grads sl order → tshape g = nshape m → oplus (grads !! m) (Some g) = Some c →
  potential (<[m := c]> grads) sl order s =
  oplus (potential grads sl order s) (flow (S m) m g s).
Proof.
  intros Hnd Hm Hst Hg Hc. unfold potential.
  assert (oshape (sshape s) (flow (S m) m g s)) by by apply (flow_is_good m).
  rewrite (oplus_assoc (sshape s)); [|by apply Hst|by eapply osum_shape, pendings_shape|done].
  f_equal.
  apply (osum_update (sshape s) (λ m, pending grads m s) _ _ m); [done|done| |done| |].
  - intros x _. by eapply pending_shape.
  - intros x _ Hx. unfold pending. by rewrite lookup_insert_ne.
  - unfold pending. rewrite lookup_insert_eq. simpl.
    destruct (grads !! m) as [prev|] eqn:Hp; unfold oplus in Hc; simpl.
    + apply (proj2 (flow_is_good m)); [by eapply st_grads|done|done].
    + by injection Hc as ->.
Qed.

(** A gradient arriving at a slot. *)
Lemma potential_slot grads sl order k g c s : k < length sl →
  state_typed grads sl order → tshape g = sshape k → oplus (mjoin (sl !! k)) (Some g) = Some c →
  potential grads (<[k := Some c]> sl) order s =
  oplus (potential grads sl order s) (if decide (Some k = Some s) then Some g else None).
Proof.
  intros Hk Hst Hg Hc. unfold potential.
  assert (oshape (sshape s) (osum ((λ m, pending grads m s) <$> order)))
    by by eapply osum_shape, pendings_shape.
  assert (oshape (sshape s) (mjoin (sl !! s))) by apply Hst.
  destruct (decide (Some k = Some s)) as [[= ->]|Hne].
  - assert (oshape (sshape s) (Some g)) by by apply oshape_Some.
    rewrite list_lookup_insert_eq by done. cbn [mjoin option_join]. rewrite <- Hc.
    rewrite !(oplus_assoc (sshape s)) by done. f_equal. by apply (oplus_comm (sshape s)).
  - rewrite list_lookup_insert_ne by congruence. by rewrite oplus_None_r.
Qed.

Lemma state_typed_node grads sl order m c : state_typed grads sl order → m ∈ order →
  tshape c = nshape m → state_typed (<[m := c]> grads) sl order.
Proof.
  intros [Hg Hs Hl] Hm Hc. constructor; [|done..].
  intros x y. rewrite lookup_insert_Some. intros [[<- <-]|[_ ?]]; [done|by apply Hg].
Qed.

Lemma state_typed_slot grads sl order k c : state_typed grads sl order →
  tshape c = sshape k → state_typed grads (<[k := Some c]> sl) order.
Proof.
  intros [Hg Hs Hl] Hc. constructor; [done| |by rewrite length_insert].
  intros s. destruct (decide (k = s)) as [->|]; [|by rewrite list_lookup_insert_ne].
  destruct (decide (s < length sl)).
  - rewrite list_lookup_insert_eq by done. by apply oshape_Some.
  - by rewrite (proj2 (lookup_ge_None _ _)) by (rewrite length_insert; lia).
Qed.

Lemma accumulate_into_edge_correct grads sl order e t g :
  NoDup order → state_typed grads sl order → edge_typed e t → tshape g = t →
  (∀ m, edge_node e = Some m → m ∈ order) →
  ∃ grads' sl', accumulate_into_edge e g (grads, sl) = ((grads', sl'), Ok tt) ∧
    state_typed grads' sl' order ∧
    ∀ s, potential grads' sl' order s = oplus (potential grads sl order s) (edge_flow e (Some g) s).
Proof.
  intros Hnd Hst He Hg Hm. unfold accumulate_into_edge, edge_typed, edge_flow in *.
  destruct e as [[m|] osl]; simpl in *.
  - specialize (Hm m eq_refl). destruct (grads !! m) as [prev|] eqn:Hp.
    + destruct (be_add_shape prev g) as (c & Hc & Hsc).
      { destruct (st_grads _ _ _ Hst m prev Hp). congruence. }
      rewrite Hc. eexists _, _. split; [done|]. rewrite insert_delete_eq.
      destruct (st_grads _ _ _ Hst m prev Hp). split.
      * apply state_typed_node; [done..|congruence].
      * intros s. apply potential_node; [done..|congruence|by rewrite Hp].
    + eexists _, _. split; [done|]. split.
      * apply state_typed_node; [done..|congruence].
      * intros s. apply potential_node; [done..|congruence|by rewrite Hp].
  - destruct osl as [k|]; cycle 1.
    { eexists _, _. split; [done|]. split; [done|]. intros s. by rewrite decide_False, oplus_None_r by done. }
    destruct (He k eq_refl) as [Hsk Hk]. rewrite <- (st_length _ _ _ Hst) in Hk.
    destruct (mjoin (sl !! k)) as [prev|] eqn:Hp.
    + assert (tshape prev = sshape k) by by apply (st_slots _ _ _ Hst k).
      destruct (be_add_shape prev g) as (c & Hc & Hsc); [congruence|].
      rewrite Hc. eexists _, _. split; [done|]. rewrite list_insert_insert_eq. split.
      * apply state_typed_slot; [done|congruence].
      * intros s. apply potential_slot; [done..|congruence|by rewrite Hp].
    + eexists _, _. split; [done|]. split.
      * apply state_typed_slot; [done|congruence].
      * intros s. apply potential_slot; [done..|congruence|by rewrite Hp].
Qed.

Lemma accumulate_edges_correct order es sis gs : NoDup order →
  Forall2 edge_typed es sis → Forall2 oshape sis gs →
  (∀ e m, e ∈ es → edge_node e = Some m → m ∈ order) →
  ∀ grads sl, state_typed grads sl order →
  ∃ grads' sl', accumulate_edges (zip es gs) (grads, sl) = ((grads', sl'), Ok tt) ∧
    state_typed grads' sl' order ∧
    ∀ s, potential grads' sl' order s =
      oplus (potential grads sl order s) (osum (zip_with (λ e og, edge_flow e og s) es gs)).
Proof.
  intros Hnd Hes. revert gs.
  induction Hes as [|e t es sis He Hes IH]; intros gs Hgs Hin grads sl Hst;
    inversion Hgs as [|? og ? gs' Hog Hgs']; subst; simpl.
  { eexists _, _. split; [done|]. split; [done|]. intros s. by rewrite oplus_None_r. }
  assert (∀ e' m, e' ∈ es → edge_node e' = Some m → m ∈ order) as Hin'.
  { intros e' m ?. apply Hin. apply elem_of_cons. by right. }
  destruct og as [g|].
  - rewrite oshape_Some in Hog.
    destruct (accumulate_into_edge_correct grads sl order e t g) as (grads1 & sl1 & -> & Hst1 & Hp1);
      [done..|intros m; apply Hin; apply elem_of_cons; by left|].
    destruct (IH gs' Hgs' Hin' grads1 sl1 Hst1) as (grads2 & sl2 & -> & Hst2 & Hp2).
    eexists _, _. split; [done|]. split; [done|]. intros s. rewrite Hp2, Hp1.
    assert (oshape (sshape s) (edge_flow e (Some g) s)).
    { apply (edge_flow_shape e t); [done|intros; apply flow_is_good|by apply oshape_Some]. }
    apply (oplus_assoc (sshape s)); [|done|].
    + apply oplus_shape; [by apply Hst|by eapply osum_shape, pendings_shape].
    + apply osum_shape. eapply edges_flow_shape; [done|intros; apply flow_is_good|done].
  - apply IH; done.
Qed.

(** One node: the gradient it held is passed on. *)
Lemma backward_node_correct n order grads sl : NoDup (n :: order) →
  (∀ m, succ ns n m → m ∈ order) → state_typed grads sl (n :: order) → n < length ns →
  ∃ grads' sl', backward_node ns n (grads, sl) = ((grads', sl'), Ok tt) ∧
    state_typed grads' sl' order ∧
    ∀ s, potential grads' sl' order s = potential grads sl (n :: order) s.
Proof.
  intros [Hn Hnd]%NoDup_cons Hsucc Hst Hlt. unfold backward_node.
  destruct (lookup_lt_is_Some_2 ns n Hlt) as [nd Hnode].
  assert (state_typed (delete n grads) sl order) as Hst1.
  { destruct Hst as [Hg Hs Hl]. constructor; [|done..]. intros m g.
    rewrite lookup_delete_Some. intros [Hne Hm]. destruct (Hg m g Hm) as [? Hin]. split; [done|].
    apply elem_of_cons in Hin as [->|]; done. }
  assert (∀ s, (λ m, pending (delete n grads) m s) <$> order = (λ m, pending grads m s) <$> order)
    as Hpd.
  { intros s. apply list_fmap_ext. intros i m Hm%list_elem_of_lookup_2. unfold pending.
    rewrite lookup_delete_ne; [done|]. by intros ->. }
  destruct (grads !! n) as [g|] eqn:Hgn; cycle 1.
  { rewrite delete_id in Hst1 by done. eexists _, _. split; [done|]. split; [done|].
    intros s. unfold potential. csimpl. unfold pending at 2. by rewrite Hgn. }
  rewrite Hnode. destruct (Hgt n nd Hnode) as [(sis & Hnt & Hes) Hlt'].
  destruct (st_grads _ _ _ Hst n g Hgn) as [Hsg _].
  destruct (nt_apply _ _ _ Hnt g Hsg) as (gs & Hgs & Hsh). rewrite Hgs.
  rewrite decide_False; cycle 1.
  { apply Forall2_length in Hes, Hsh. lia. }
  destruct (accumulate_edges_correct order (next_edges nd) sis gs Hnd Hes Hsh) with
    (grads := delete n grads) (sl := sl) as (grads' & sl' & -> & Hst' & Hp); [|done|].
  { intros e m He Hm. apply Hsucc. exists e. unfold edges_of. by rewrite Hnode. }
  eexists _, _. split; [done|]. split; [done|]. intros s. rewrite Hp. unfold potential.
  rewrite Hpd. csimpl. unfold pending at 2. rewrite Hgn. cbn [mbind option_bind].
  rewrite (flow_unfold n nd g gs) by done.
  assert (oshape (sshape s) (osum (zip_with (λ e og, edge_flow e og s) (next_edges nd) gs))).
  { apply osum_shape. eapply edges_flow_shape; [done|intros; apply flow_is_good|done]. }
  assert (oshape (sshape s) (osum ((λ m, pending grads m s) <$> order)))
    by by eapply osum_shape, pendings_shape.
  rewrite (oplus_assoc (sshape s)) by (by try apply Hst). f_equal.
  by apply (oplus_comm (sshape s)).
Qed.

(** The order of the outer loop: every node before the nodes it points at. *)
Definition outputs_first (order : list nat) : Prop :=
  ∀ l1 x l2, order = l1 ++ x :: l2 → ∀ y, succ ns x y → y ∈ l2.

Lemma backward_loop_correct order : NoDup order → outputs_first order →
  (∀ m, m ∈ order → m < length ns) →
  ∀ grads sl, state_typed grads sl order →
  ∃ grads' sl', backward_loop ns order (grads, sl) = ((grads', sl'), Ok tt) ∧
    length sl' = nslots ∧ (∀ s, oshape (sshape s) (mjoin (sl' !! s))) ∧
    ∀ s, mjoin (sl' !! s) = potential grads sl order s.
Proof.
  induction order as [|n order IH]; intros Hnd Ho Hin grads sl Hst; simpl.
  { eexists _, _. split; [done|]. split_and!; [by apply Hst|by apply Hst|].
    intros s. unfold potential. simpl. by rewrite oplus_None_r. }
  destruct (backward_node_correct n order grads sl) as (grads1 & sl1 & -> & Hst1 & Hp1);
    [done|by apply (Ho [])|done|apply Hin, elem_of_cons; by left|].
  apply NoDup_cons in Hnd as [_ Hnd].
  destruct (IH Hnd) with (grads := grads1) (sl := sl1)
    as (grads' & sl' & -> & Hl & Hs & Hp); [| |done|].
  - intros l1 x l2 -> y Hy. by eapply (Ho (n :: l1)).
  - intros m ?. apply Hin, elem_of_cons. by right.
  - eexists _, _. split; [done|]. split_and!; [done|done|]. intros s. by rewrite Hp, Hp1.
Qed.

End flow.

(** ** The contract of backward *)

(** [g] is the gradient [backward] starts from. *)
Definition seed {T K} `{!GradTensor T} (tp : Tape T K) (out : Var) (initial : option T) (g : T) : Prop :=
  initial = Some g ∨ initial = None ∧ ∃ t, cells tp !! v_data out = Some t ∧ ones_like t = Some g.

(** A tape whose nodes and slots have the shapes [nshape] and [sshape]. *)
Definition tape_typed {T K Sh} `{!GradTensor T, !NodeOps T K, !GradLaws T Sh}
    (nshape sshape : nat → Sh) (tp : Tape T K) : Prop :=
  graph_typed (nodes tp) nshape sshape (length (slots tp)) ∧
  ∀ s, oshape (sshape s) (mjoin (slots tp !! s)).

Section contract.
Context {T K Sh : Type} `{!GradTensor T, !NodeOps T K, !GradLaws T Sh}.
Implicit Types (tp : Tape T K) (out : Var).

Lemma inputs_first_rev (ns : list (Node K)) topo : inputs_first ns topo → outputs_first ns (reverse topo).
Proof.
  intros Ho l1 x l2 Heq y Hy. apply (f_equal reverse) in Heq.
  rewrite reverse_involutive, reverse_app, reverse_cons, <- app_assoc in Heq.
  apply (Ho _ _ _ Heq) in Hy. by apply elem_of_reverse.
Qed.

Lemma reachable_lt (ns : list (Node K)) root m : graph_wf ns → root < length ns →
  rtc (succ ns) root m → m < length ns.
Proof. intros Hwf Hr. induction 1 as [|a b c Hab _ IH]; [done|]. apply Hwf in Hab. apply IH. lia. Qed.

Lemma backward_correct nshape sshape tp out initial root g :
  tape_typed nshape sshape tp → v_grad_fn out = Some root → root < length (nodes tp) →
  seed tp out initial g → tshape g = nshape root →
  ∃ sl, backward out initial tp = (mkTape (cells tp) sl (nodes tp) (grad_enabled tp), Ok tt) ∧
    length sl = length (slots tp) ∧ (∀ s, oshape (sshape s) (mjoin (sl !! s))) ∧
    ∀ s, mjoin (sl !! s) = oplus (mjoin (slots tp !! s)) (flow (nodes tp) (S root) root g s).
Proof.
  intros [Hgt Hsl] Hroot Hlt Hseed Hg. unfold backward. rewrite Hroot.
  assert ((match initial with Some g => Some g | None => cells tp !! v_data out ≫= ones_like end)
          = Some g) as ->.
  { destruct Hseed as [->|[-> (t & Ht & Ho)]]; [done|]. by rewrite Ht. }
  pose proof (graph_typed_wf _ _ _ _ Hgt) as Hwf.
  destruct (topo_from_spec (nodes tp) root Hwf) as (Hnd & Hin & Ho & rest & Hrest).
  set (topo := topo_from (nodes tp) root) in *.
  assert (reverse topo = root :: reverse rest) as Hrev by by rewrite Hrest, reverse_app.
  assert (NoDup (reverse topo)) as Hndr by by rewrite reverse_Permutation.
  destruct (backward_loop_correct (nodes tp) nshape sshape (length (slots tp)) Hgt (reverse topo))
    with (grads := {[root := g]} : gmap nat T) (sl := slots tp) as (gr & sl & -> & Hl & Hs & Hp).
  - done.
  - by apply inputs_first_rev.
  - intros m Hm. eapply reachable_lt; [done|done|]. apply Hin.
    by apply elem_of_reverse.
  - constructor; [|done..]. intros m x. rewrite lookup_singleton_Some. intros [<- <-].
    split; [done|]. rewrite Hrev. apply elem_of_cons. by left.
  - eexists. split; [done|]. split_and!; [done|done|]. intros s. rewrite Hp. unfold potential.
    f_equal. rewrite Hrev. csimpl. unfold pending at 1. rewrite lookup_singleton_eq. cbn [mbind option_bind].
    assert (osum ((λ m, pending (nodes tp) {[root := g]} m s) <$> reverse rest) = None) as ->;
      [|by rewrite oplus_None_r].
    rewrite Hrev in Hndr. apply NoDup_cons in Hndr as [Hni _]. revert Hni.
    generalize (reverse rest) as l. induction l as [|x l IH]; csimpl; [done|].
    rewrite not_elem_of_cons. intros [Hne Hni]. rewrite IH by done.
    unfold pending. by rewrite lookup_singleton_ne.
Qed.

End contract.

(** ** Integer vectors

    A small instance, on which the theorems below are evaluated: vectors of
    integers, with products as nodes. *)

#[local] Instance vec_tensor : GradTensor (list Z) := {
  be_add a b := if decide (length a = length b) then Some (zip_with Z.add a b) else None;
  ones_like t := Some (replicate (length t) 1%Z);
  zeros_like t := Some (replicate (length t) 0%Z)
}.

#[local, refine] Instance vec_laws : GradLaws (list Z) nat := { tshape := length }.
Proof.
  - intros a b Hab. simpl. rewrite decide_True by done. eexists. split; [done|].
    rewrite length_zip_with. lia.
  - intros a b Hab. simpl. rewrite !decide_True by done. f_equal.
    clear Hab. revert b. induction a as [|x a IH]; intros [|y b]; simpl; [done..|].
    rewrite IH. f_equal. lia.
  - intros a b c ab bc Hab Hbc. simpl. rewrite !decide_True by done. intros [= <-] [= <-].
    rewrite !length_zip_with, !decide_True by lia. f_equal. revert b c Hab Hbc.
    induction a as [|x a IH]; intros [|y b] [|z c] Hab Hbc; simplify_eq/=; [done|].
    f_equal; [lia|]. apply IH; lia.
Defined.

(** The product of two vectors, which saves both. *)
Record vec_mul := mkVecMul { vm_lhs : list Z; vm_rhs : list Z }.

#[local] Instance vec_mul_ops : NodeOps (list Z) vec_mul := {
  node_name _ := "MulBackward"%string;
  node_apply k g :=
    if decide (length g = length (vm_lhs k) ∧ length g = length (vm_rhs k)) then
      Some [Some (zip_with Z.mul g (vm_rhs k)); Some (zip_with Z.mul g (vm_lhs k))]
    else None
}.

Lemma vec_mul_typed k d : length (vm_lhs k) = d → length (vm_rhs k) = d →
  node_typed (T := list Z) k d [d; d].
Proof.
  intros Hl Hr. constructor.
  - intros g Hg. simpl in *. rewrite decide_True by lia. eexists. split; [done|].
    repeat constructor; apply oshape_Some; simpl; rewrite length_zip_with; lia.
  - intros a b c ga gb Ha Hb. simpl in *.
    rewrite !decide_True by lia. intros [= <-]. rewrite length_zip_with.
    intros [= <-] [= <-]. rewrite decide_True by lia. unfold oplus. simpl.
    rewrite !length_zip_with, !decide_True by lia.
    assert (∀ x : list Z, length x = d → zip_with Z.mul (zip_with Z.add a b) x =
      zip_with Z.add (zip_with Z.mul a x) (zip_with Z.mul b x)) as Hdist; [|by rewrite !Hdist].
    intros x Hx. clear Hl Hr. revert b x d Ha Hb Hx.
    induction a as [|y a IH]; intros [|z b] [|w x] [|d] Ha Hb Hx; simplify_eq/=; [done|].
    f_equal; [lia|]. by eapply IH.
Qed.

(** [y = x0 * x1], [out = y * y]: the node of [y] is shared. *)
Definition vec_square_tape : Tape (list Z) vec_mul :=
  mkTape [[2; 3]; [5; 7]; [10; 21]; [100; 441]]%Z [None; Some [1; 1]%Z; None; None]
    [mkNode (mkVecMul [2; 3] [5; 7])%Z [Edge_leaf 0; Edge_leaf 1];
     mkNode (mkVecMul [10; 21] [10; 21])%Z [Edge_from_node 0; Edge_from_node 0]] true.
Definition vec_square_out : Var := mkVar 3 (Some 1) 3 true.

Lemma vec_square_typed : tape_typed (λ _, 2) (λ _, 2) vec_square_tape.
Proof.
  split.
  - intros [|[|n]] nd Hn; simplify_eq/=.
    + split.
      * exists [2; 2]. split; [by apply vec_mul_typed|].
        constructor; [|constructor; [|constructor]]; intros s [= <-]; simpl; lia.
      * intros e m [->|[->|[]%elem_of_nil]%elem_of_cons]%elem_of_cons; done.
    + split.
      * exists [2; 2]. split; [by apply vec_mul_typed|]. repeat constructor.
      * intros e m [->|[->|[]%elem_of_nil]%elem_of_cons]%elem_of_cons [= <-]; lia.
  - intros [|[|[|[|s]]]] x; simpl; intros; simplify_eq; done.
Qed.

(** ** Scopes *)

Section scopes.
Context {T K : Type}.
Implicit Types (tp : Tape T K).

(** What a thread does with guards: enter a no-grad ([false]) or with-grad
    ([true]) scope, or drop the guard at a position of those it holds. *)
Inductive guard_step : list bool * Tape T K → list bool * Tape T K → Prop :=
  | step_no_grad gs tp : guard_step (gs, tp)
      ((NoGradGuard_enter tp).1 :: gs, (NoGradGuard_enter tp).2)
  | step_with_grad gs tp : guard_step (gs, tp)
      ((WithGradGuard_enter tp).1 :: gs, (WithGradGuard_enter tp).2)
  | step_drop g gs tp : guard_step (g :: gs, tp) (gs, guard_drop g tp).

Lemma last_cons_default {A} (x : A) l d : List.last (x :: l) d = List.last l x.
Proof. revert x d. induction l as [|y l IH]; intros x d; [done|]. change (List.last (y :: l) d = List.last (y :: l) x). by rewrite !IH. Qed.

(** When guards are dropped innermost first, the bottom guard of the stack
    holds the flag of the beginning, so dropping all of them restores it. *)
Lemma guards_lifo tp gs tp' : rtc guard_step ([], tp) (gs, tp') →
  List.last gs (grad_enabled tp') = grad_enabled tp.
Proof.
  intros H. remember ([], tp) as st eqn:Hst. remember (gs, tp') as st' eqn:Hst'.
  assert (List.last st'.1 (grad_enabled st'.2) = List.last st.1 (grad_enabled st.2)) as Hinv.
  { clear Hst Hst'. induction H as [|a b c Hab _ IH]; [done|]. rewrite IH. clear IH.
    destruct Hab; simpl fst; by rewrite last_cons_default. }
  by subst.
Qed.

(** Scopes given as functions restore the flag whatever happens inside. *)
Lemma no_grad_restores {A} (f : TapeM T K A) tp a tp' :
  no_grad f tp = Ok (a, tp') → grad_enabled tp' = grad_enabled tp.
Proof.
  unfold no_grad. simpl. destruct (f _) as [[x tp1]| |]; simpl; intros [= <- <-]. done.
Qed.

Lemma with_grad_restores {A} (f : TapeM T K A) tp a tp' :
  with_grad f tp = Ok (a, tp') → grad_enabled tp' = grad_enabled tp.
Proof.
  unfold with_grad. simpl. destruct (f _) as [[x tp1]| |]; simpl; intros [= <- <-]. done.
Qed.

(** Guards dropped outermost first leave the flag of the inner scope. *)
Lemma guards_fifo_stuck tp : grad_enabled tp = true →
  let '(outer, tp1) := NoGradGuard_enter tp in
  let '(inner, tp2) := NoGradGuard_enter tp1 in
  grad_enabled (guard_drop inner (guard_drop outer tp2)) = false.
Proof. done. Qed.

End scopes.

(** A failed sum loses the gradient the slot held: it is taken out before. *)
Lemma accumulate_leaf_error {T} `{!GradTensor T} (grads : gmap nat T) sl k prev g :
  sl !! k = Some (Some prev) → be_add prev g = None →
  accumulate_into_edge (Edge_leaf k) g (grads, sl) =
  ((grads, <[k := None]> sl), Err (Backend "accumulate_leaf")).
Proof. intros Hk Ha. unfold accumulate_into_edge, Edge_leaf. cbn [edge_node edge_slot]. rewrite Hk. cbn [mjoin option_join]. by rewrite Ha. Qed.

(** ** Properties *)

Section properties.
Context {T K Sh : Type} `{!GradTensor T, !NodeOps T K, !GradLaws T Sh}.
Implicit Types (tp : Tape T K) (out : Var).

(** The depth-first search of [backward] terminates on every graph whose
    nodes point at older nodes, which is what building one [Arc] at a time
    gives: fuel beyond the root's index changes nothing, and the order found
    has no duplicates, holds exactly the nodes reachable from the root, and
    places every node after all the nodes its edges lead to, the root last. *)
Theorem visit_topological (ns : list (Node K)) root fuel :
  graph_wf ns → root < fuel →
  ∃ rest, visit ns fuel root ([], ∅) = (rest ++ [root], (visit ns (S root) root ([], ∅)).2) ∧
    NoDup (rest ++ [root]) ∧
    (∀ m, m ∈ rest ++ [root] ↔ rtc (succ ns) root m) ∧
    (∀ l1 n l2 e m, rest ++ [root] = l1 ++ n :: l2 →
       e ∈ edges_of ns n → edge_node e = Some m → m ∈ l1).
Proof.
  intros Hwf Hf. destruct (topo_from_spec ns root Hwf) as (Hnd & Hin & Ho & rest & Hrest).
  exists rest. rewrite (visit_fuel ns fuel (S root)) by (done || lia).
  unfold topo_from in *. rewrite <- Hrest, <- surjective_pairing.
  split_and!; [done..|]. intros l1 n l2 e m Heq He Hm. eapply Ho; [done|]. by exists e.
Qed.

(** C9: Reverse-mode differentiation is the chain rule.  On a tape whose nodes
    map gradients of their output's shape to gradients of their inputs' shapes
    additively, [backward] succeeds, and leaves in every gradient slot what was
    there plus the sum, over all paths from the output's node to that slot, of
    the gradient pushed along the path ([flow], which revisits a shared node
    once per path, while [backward] applies each node once to the sum of what
    reaches it).  Nothing else changes, and slots keep the shape of their
    variable: no gradient of a wrong shape is ever stored. *)
Theorem backward_chain_rule nshape sshape tp out initial root g :
  tape_typed nshape sshape tp → v_grad_fn out = Some root → root < length (nodes tp) →
  seed tp out initial g → tshape g = nshape root →
  ∃ sl, backward out initial tp = (mkTape (cells tp) sl (nodes tp) (grad_enabled tp), Ok tt) ∧
    length sl = length (slots tp) ∧
    tape_typed nshape sshape (mkTape (cells tp) sl (nodes tp) (grad_enabled tp)) ∧
    ∀ s, mjoin (sl !! s) = oplus (mjoin (slots tp !! s)) (flow (nodes tp) (S root) root g s).
Proof.
  intros Htp Hroot Hlt Hseed Hg.
  destruct (backward_correct nshape sshape tp out initial root g) as (sl & -> & Hl & Hs & Hp);
    [done..|].
  exists sl. split_and!; [done|done| |done]. split; [|done]. simpl. rewrite Hl. by apply Htp.
Qed.

(** [grad(outputs, inputs)] does not return the derivative of the outputs
    alone: for an input that already holds a gradient it returns that gradient
    plus the chain rule's, since it runs [backward] without clearing the slots
    and reads them afterwards; inputs not reached get their old gradient, or
    zeros. *)
Theorem grad_accumulates nshape sshape tp out inputs initial root g :
  tape_typed nshape sshape tp → v_grad_fn out = Some root → root < length (nodes tp) →
  seed tp out initial g → tshape g = nshape root →
  (∀ v, v ∈ inputs → ∃ z, cells tp !! v_data v ≫= zeros_like = Some z) →
  ∃ gs tp', grad out inputs initial tp = (tp', Ok gs) ∧
    Forall2 (λ v d,
      Some d = match oplus (mjoin (slots tp !! v_grad v)) (flow (nodes tp) (S root) root g (v_grad v)) with
               | Some d => Some d
               | None => cells tp !! v_data v ≫= zeros_like
               end) inputs gs.
Proof.
  intros Htp Hroot Hlt Hseed Hg Hz. unfold grad.
  destruct (backward_correct nshape sshape tp out initial root g) as (sl & -> & _ & _ & Hp);
    [done..|].
  set (tp' := mkTape _ _ _ _).
  assert (∃ gs, Forall2 (λ v d, collect_grad v tp' = Ok d) inputs gs) as [gs Hgs].
  { clear Hp. induction inputs as [|v inputs IH]; [exists []; constructor|].
    destruct IH as [gs Hgs]; [intros; apply Hz, elem_of_cons; by right|].
    destruct (Hz v) as [z Hv]; [apply elem_of_cons; by left|].
    unfold collect_grad at 1. destruct (raw_grad v tp') as [d|] eqn:Hd.
    - exists (d :: gs). constructor; [by rewrite Hd|done].
    - exists (z :: gs). constructor; [by rewrite Hd; simpl; rewrite Hv|done]. }
  exists gs, tp'. split; [f_equal; by apply rmapM_Ok|].
  eapply Forall2_impl; [done|]. intros v d. unfold collect_grad, raw_grad. simpl. rewrite Hp.
  destruct (oplus _ _); [by intros [= ->]|].
  by destruct (cells tp !! v_data v ≫= zeros_like) as [z|]; intros [= ->].
Qed.

End properties.

Lemma visit_topological_witness :
  ∃ rest, visit (nodes vec_square_tape) 5 1 ([], ∅) = (rest ++ [1], (visit (nodes vec_square_tape) 2 1 ([], ∅)).2).
Proof.
  destruct (visit_topological (nodes vec_square_tape) 1 5) as (rest & H & _);
    [by eapply graph_typed_wf, vec_square_typed|lia|by exists rest].
Defined.

Lemma backward_chain_rule_witness :
  ∃ sl, backward vec_square_out None vec_square_tape =
          (mkTape (cells vec_square_tape) sl (nodes vec_square_tape) true, Ok tt) ∧
    mjoin (sl !! 1) = Some [2 * 2 * 2 * 5 + 1; 2 * 3 * 3 * 7 + 1]%Z.
Proof.
  destruct (backward_chain_rule (λ _, 2) (λ _, 2) vec_square_tape vec_square_out None 1 [1; 1]%Z)
    as (sl & H & _ & _ & Hp);
    [apply vec_square_typed|reflexivity|simpl; lia|right; split; [done|by eexists]|done|].
  exists sl. split; [exact H|]. rewrite Hp. vm_compute. reflexivity.
Defined.

Lemma grad_accumulates_witness :
  (grad vec_square_out [mkVar 1 None 1 true] None vec_square_tape).2 = Ok [[41; 127]]%Z ∧
  ∃ gs tp', grad vec_square_out [mkVar 1 None 1 true] None vec_square_tape = (tp', Ok gs).
Proof.
  split; [vm_compute; reflexivity|].
  destruct (grad_accumulates (λ _, 2) (λ _, 2) vec_square_tape vec_square_out
    [mkVar 1 None 1 true] None 1 [1; 1]%Z) as (gs & tp' & H & _);
    [apply vec_square_typed|reflexivity|simpl; lia|right; split; [done|by eexists]|done| |by exists gs, tp'].
  intros v [->|[]%elem_of_nil]%elem_of_cons. by eexists.
Defined.
