(* ===== verification/AutogradOps.v ===== *)
(** * The differentiable operations (crates/rustorch-autograd: ops.rs, dispatch.rs,
      broadcast.rs, custom_function.rs, [ones_like] of lib.rs)

    Each operation computes its result with the backend of the operands'
    device and, when gradients are tracked and an input needs one, records a
    node: a constructor of [GradNode], with what the Rust struct of that name
    saves.  The tensors and the CPU backend (the trait [Backend] and the kernels
    ops.rs calls) are the interface [TensorOps] and [BackendOps]; AutogradReal.v
    instantiates it with real numbers.  A [Result] of the backend is an
    [option]. *)

From Stdlib Require Import ZArith Lia.
From stdpp Require Import base list gmap sets strings relations.
From S2P Require Import Prelude Dtype Tensor Autograd.

Open Scope Z_scope.

(** ** The interface of tensors and of the backend *)

(** [F] is [f32], [D] is [f64], [T] is [Tensor]. *)
Class TensorOps (F D T : Type) := {
  (* f32 and f64 *)
  f_lit : Z → F;
  f_add : F → F → F;
  f_sub : F → F → F;
  f_mul : F → F → F;
  f_div : F → F → F;
  f_neg : F → F;
  f_gt0 : F → bool;
  f_lt0 : F → bool;
  d_lit : Z → D;
  d_sub : D → D → D;
  d_to_f : D → F;
  (* Tensor *)
  shape : T → list Z;
  numel : T → Z;
  dtype : T → Dtype;
  device : T → Device;
  scalar : F → T;
  from_vec : list Z → list F → option T;
  from_vec_f64 : list Z → list D → option T;
  as_slice : T → option (list F);
  as_slice_i64 : T → option (list Z);
  to_dtype : T → Dtype → T;
  with_device : T → Device → T;
  t_transpose : T → nat → nat → option T;
  contiguous : T → T
}.

(** [enum Reduction] *)
Inductive Reduction := RMean | RSum | RNone.

(** The trait [Backend] as [cpu_backend()] implements it, and the kernels of
    rustorch_cpu that ops.rs calls directly. *)
Class BackendOps (F D T : Type) := {
  bk_add : T → T → option T;
  bk_sub : T → T → option T;
  bk_mul : T → T → option T;
  bk_div : T → T → option T;
  bk_neg : T → option T;
  bk_matmul : T → T → option T;
  bk_matmul_with_transposes : T → T → bool → bool → option T;
  bk_matmul_with_bias : T → T → T → option T;
  bk_add_bias : T → T → option T;
  bk_bmm : T → T → option T;
  bk_gt : T → T → option T;
  bk_relu : T → option T;
  bk_sigmoid : T → option T;
  bk_tanh : T → option T;
  bk_exp : T → option T;
  bk_log : T → option T;
  bk_sqrt : T → option T;
  bk_abs : T → option T;
  bk_silu : T → option T;
  bk_leaky_relu : T → D → option T;
  bk_pow_scalar : T → D → option T;
  bk_sum : T → option T;
  bk_mean : T → option T;
  bk_sum_dim : T → list Z → bool → option T;
  bk_mean_dim : T → list Z → bool → option T;
  bk_softmax : T → Z → option T;
  bk_log_softmax : T → Z → option T;
  bk_unbroadcast_to : T → list Z → option T;
  bk_cross_entropy : T → T → Reduction → option T;
  bk_mse_loss : T → T → Reduction → option T;
  bk_index_select : T → Z → T → option T;
  conv2d_forward : T → T → option T → Z → Z → option T;
  conv2d_grad_input : T → T → list Z → Z → Z → option T;
  conv2d_grad_weight : T → T → list Z → Z → Z → option T;
  batch_norm2d_forward : T → T → T → F → option (T * T * T);
  batch_norm2d_backward : T → T → T → T → T → F → option (T * T * T);
  maxpool2d_forward : T → Z * Z → Z * Z → option (T * T);
  maxpool2d_backward : T → T → list Z → option T
}.

(** ** Dispatch (dispatch.rs, broadcast.rs) *)

(** [pick_backend]: without the GPU features it panics for other devices. *)
Definition pick_backend (d : Device) : option unit :=
  match d with
  | Cpu => Some tt
  | Wgpu | Metal | Cuda => None
  end.

(** [pick_backend(d).m(..).expect(_)] *)
Definition on {A} (d : Device) (m : option A) : option A := pick_backend d ≫= λ _, m.

(** [pick_backend(d).m(..).map_err(|e| backend_err(op, e))?] *)
Definition call {A} (op : string) (d : Device) (m : option A) : res BackwardError A :=
  match pick_backend d with
  | Some _ => ok_or (Backend op) m
  | None => Panic
  end.

(** [for x in l { s = f(s, x) }] where [f] can panic *)
Fixpoint ofold {S A : Type} (f : S → A → option S) (s : S) (l : list A) : option S :=
  match l with
  | [] => Some s
  | x :: l => f s x ≫= λ s, ofold f s l
  end.

(** [v[i] = f(v[i])], which panics out of range *)
Definition oalter {A : Type} (f : A → A) (i : nat) (v : list A) : option (list A) :=
  v !! i ≫= λ x, Some (<[i := f x]> v).

Definition usize_product (l : list Z) : Z := product_u 64 l.

Section nodes.
Context {F D T : Type} `{!TensorOps F D T, !BackendOps F D T}.

(** [ones_like] (lib.rs) and the zeros of [higher_order::grad] *)
Definition ones_like_tensor (t : T) : option T :=
  match dtype t with
  | F32 => from_vec (shape t) (replicate (Z.to_nat (numel t)) (f_lit 1))
  | F64 => from_vec_f64 (shape t) (replicate (Z.to_nat (numel t)) (d_lit 1))
  | _ => None
  end.
Definition zeros_like_tensor (t : T) : option T :=
  from_vec (shape t) (replicate (Z.to_nat (usize_product (shape t))) (f_lit 0)).

#[export] Instance backend_grad_tensor : GradTensor T := {
  be_add := bk_add;
  ones_like := ones_like_tensor;
  zeros_like := zeros_like_tensor
}.

(** [broadcast::unbroadcast_to] *)
Definition unbroadcast_to (d : Device) (grad : T) (target_shape : list Z) : option T :=
  on d (bk_unbroadcast_to grad target_shape).

(** The first element of a gradient as [f32]. *)
Definition slice0 (grad : T) : option F := as_slice grad ≫= λ s, s !! 0%nat.

(** ** The structs that implement [Node] *)
Inductive GradNode :=
  | AddBackward (lhs_shape rhs_shape : list Z) (device : Device)
  | SubBackward (lhs_shape rhs_shape : list Z) (device : Device)
  | MulBackward (lhs_saved rhs_saved : T) (device : Device)
  | NegBackward (device : Device)
  | MatMulBackward (lhs_saved rhs_saved : T) (device : Device)
  | ReluBackward (saved : T) (device : Device)
  | SigmoidBackward (saved_out : T) (device : Device)
  | TanhBackward (saved_out : T) (device : Device)
  | SumBackward (in_shape : list Z)
  | MeanBackward (in_shape : list Z) (n : Z)
  | CrossEntropyBackward (softmax_saved target : T) (n_samples n_classes : Z) (reduction : Reduction)
  | AddBiasBackward (device : Device)
  | LinearBackward (x_saved w_saved : T) (device : Device)
  | MseBackward (diff : T) (n : Z) (reduction : Reduction) (device : Device)
      (input_requires_grad target_requires_grad : bool)
  | SiluBackward (saved_input : T) (device : Device)
  | LeakyReluBackward (saved_input : T) (slope : D)
  | SoftmaxBackward (saved_out : T) (dim : Z) (device : Device)
  | LogSoftmaxBackward (saved_out : T) (dim : Z) (device : Device)
  | DivBackward (lhs_saved rhs_saved : T) (device : Device)
  | ExpBackward (saved_out : T) (device : Device)
  | LogBackward (saved_input : T) (device : Device)
  | SqrtBackward (saved_out : T) (device : Device)
  | AbsBackward (saved_input : T)
  | PowScalarBackward (saved_input : T) (exponent : D) (device : Device)
  | IndexSelectBackward (in_shape : list Z) (indices : T)
  | BmmBackward (lhs_saved rhs_saved : T)
  | TransposeBackward (d0 d1 : nat)
  | ReshapeBackward (in_shape : list Z)
  | Conv2dBackward (input_saved weight_saved : T) (pad_h pad_w : Z) (has_bias : bool)
  | BatchNorm2dBackward (input_saved gamma_saved saved_mean saved_var : T) (eps : F)
  | MaxPool2dBackward (in_shape : list Z) (argmax_idx : T)
  | MeanDimBackward (in_shape : list Z) (n_reduced : Z) (device : Device)
  | CustomBackward (saved : list T) (bwd : list T → list T → option (list T)).

(** ** [apply] of each struct *)

Definition AddBackward_apply (ls rs : list Z) (d : Device) (grad : T) : option (list (option T)) :=
  g_lhs ← unbroadcast_to d grad ls;
  g_rhs ← unbroadcast_to d grad rs;
  Some [Some g_lhs; Some g_rhs].

Definition SubBackward_apply (ls rs : list Z) (d : Device) (grad : T) : option (list (option T)) :=
  neg_grad ← on d (bk_neg grad);
  g_lhs ← unbroadcast_to d grad ls;
  g_rhs ← unbroadcast_to d neg_grad rs;
  Some [Some g_lhs; Some g_rhs].

Definition MulBackward_apply (lhs rhs : T) (d : Device) (grad : T) : option (list (option T)) :=
  g_lhs_raw ← on d (bk_mul grad rhs);
  g_rhs_raw ← on d (bk_mul grad lhs);
  g_lhs ← unbroadcast_to d g_lhs_raw (shape lhs);
  g_rhs ← unbroadcast_to d g_rhs_raw (shape rhs);
  Some [Some g_lhs; Some g_rhs].

Definition NegBackward_apply (d : Device) (grad : T) : option (list (option T)) :=
  g ← on d (bk_neg grad);
  Some [Some g].

Definition MatMulBackward_apply (lhs rhs : T) (d : Device) (grad : T) : option (list (option T)) :=
  g_lhs ← on d (bk_matmul_with_transposes grad rhs false true);
  g_rhs ← on d (bk_matmul_with_transposes lhs grad true false);
  Some [Some g_lhs; Some g_rhs].

Definition ReluBackward_apply (saved : T) (d : Device) (grad : T) : option (list (option T)) :=
  let zero := scalar (f_lit 0) in
  mask ← on d (bk_gt saved zero);
  let mask_f := to_dtype mask (dtype grad) in
  g ← on d (bk_mul grad mask_f);
  Some [Some g].

Definition SigmoidBackward_apply (saved_out : T) (d : Device) (grad : T) : option (list (option T)) :=
  let one := scalar (f_lit 1) in
  one_minus ← on d (bk_sub one saved_out);
  s_times_one_minus ← on d (bk_mul saved_out one_minus);
  g ← on d (bk_mul grad s_times_one_minus);
  Some [Some g].

Definition TanhBackward_apply (saved_out : T) (d : Device) (grad : T) : option (list (option T)) :=
  let one := scalar (f_lit 1) in
  sq ← on d (bk_mul saved_out saved_out);
  one_minus_sq ← on d (bk_sub one sq);
  g ← on d (bk_mul grad one_minus_sq);
  Some [Some g].

Definition SumBackward_apply (in_shape : list Z) (grad : T) : option (list (option T)) :=
  let n := match in_shape with [] => 1 | _ => usize_product in_shape end in
  g_scalar ← slice0 grad;
  g_full ← from_vec in_shape (replicate (Z.to_nat n) g_scalar);
  Some [Some g_full].

Definition MeanBackward_apply (in_shape : list Z) (n : Z) (grad : T) : option (list (option T)) :=
  g0 ← slice0 grad;
  let g_scalar := f_div g0 (f_lit n) in
  g_full ← from_vec in_shape (replicate (Z.to_nat n) g_scalar);
  Some [Some g_full].

Definition CrossEntropyBackward_apply (softmax_saved target : T) (n_samples n_classes : Z)
    (reduction : Reduction) (grad : T) : option (list (option T)) :=
  grad_input ← as_slice softmax_saved;
  target ← as_slice_i64 target;
  grad_input ← ofold (λ gi '(i, t),
      let idx := wrap 64 (wrap 64 (Z.of_nat i * n_classes) + wrap 64 t) in
      oalter (λ x, f_sub x (f_lit 1)) (Z.to_nat idx) gi)
    grad_input (imap pair target);
  g0 ← slice0 grad;
  let scale := match reduction with
               | RMean => f_div g0 (f_lit n_samples)
               | RSum | RNone => g0
               end in
  g ← from_vec [n_samples; n_classes] ((λ v, f_mul v scale) <$> grad_input);
  Some [Some g].

Definition AddBiasBackward_apply (d : Device) (grad : T) : option (list (option T)) :=
  g_bias ← on d (bk_sum_dim grad [0] false);
  Some [Some grad; Some g_bias].

Definition LinearBackward_apply (x w : T) (d : Device) (grad : T) : option (list (option T)) :=
  dx ← on d (bk_matmul_with_transposes grad w false true);
  dw ← on d (bk_matmul_with_transposes x grad true false);
  dbias ← on d (bk_sum_dim grad [0] false);
  Some [Some dx; Some dw; Some dbias].

Definition MseBackward_apply (diff : T) (n : Z) (reduction : Reduction) (d : Device)
    (input_rg target_rg : bool) (grad : T) : option (list (option T)) :=
  scale ← match reduction with
          | RMean => g0 ← slice0 grad; Some (f_div (f_mul g0 (f_lit 2)) (f_lit n))
          | RSum => g0 ← slice0 grad; Some (f_mul g0 (f_lit 2))
          | RNone => Some (f_lit 2)
          end;
  let scale_t := scalar scale in
  match input_rg, target_rg with
  | true, true =>
      g_x ← on d (bk_mul diff scale_t);
      g_y ← on d (bk_neg g_x);
      Some [Some g_x; Some g_y]
  | true, false =>
      g_x ← on d (bk_mul diff scale_t);
      Some [Some g_x; None]
  | false, true =>
      let neg_scale := scalar (f_neg scale) in
      g_y ← on d (bk_mul diff neg_scale);
      Some [None; Some g_y]
  | false, false => Some [None; None]
  end.

Definition SiluBackward_apply (x : T) (d : Device) (grad : T) : option (list (option T)) :=
  s ← on d (bk_sigmoid x);
  let one := scalar (f_lit 1) in
  one_minus_s ← on d (bk_sub one s);
  x_one_minus_s ← on d (bk_mul x one_minus_s);
  inner ← on d (bk_add one x_one_minus_s);
  local ← on d (bk_mul s inner);
  g ← on d (bk_mul grad local);
  Some [Some g].

Definition LeakyReluBackward_apply (saved_input : T) (slope : D) (grad : T) : option (list (option T)) :=
  x ← as_slice saved_input;
  g ← as_slice grad;
  let s := d_to_f slope in
  out ← ofold (λ out i,
      xi ← x !! i;
      let m := if f_gt0 xi then f_lit 1 else s in
      gi ← g !! i;
      Some (out ++ [f_mul gi m])) [] (seq 0 (length x));
  g_t ← from_vec (shape saved_input) out;
  Some [Some g_t].

Definition SoftmaxBackward_apply (y : T) (dim : Z) (d : Device) (grad : T) : option (list (option T)) :=
  gy ← on d (bk_mul grad y);
  dot ← on d (bk_sum_dim gy [dim] true);
  diff ← on d (bk_sub grad dot);
  g ← on d (bk_mul y diff);
  Some [Some g].

Definition LogSoftmaxBackward_apply (y : T) (dim : Z) (d : Device) (grad : T) : option (list (option T)) :=
  s ← on d (bk_exp y);
  sum_g ← on d (bk_sum_dim grad [dim] true);
  s_sum ← on d (bk_mul s sum_g);
  g ← on d (bk_sub grad s_sum);
  Some [Some g].

Definition DivBackward_apply (lhs rhs : T) (d : Device) (grad : T) : option (list (option T)) :=
  g_lhs_raw ← on d (bk_div grad rhs);
  rhs_sq ← on d (bk_mul rhs rhs);
  lhs_grad ← on d (bk_mul lhs grad);
  div_term ← on d (bk_div lhs_grad rhs_sq);
  g_rhs_raw ← on d (bk_neg div_term);
  g_lhs ← unbroadcast_to d g_lhs_raw (shape lhs);
  g_rhs ← unbroadcast_to d g_rhs_raw (shape rhs);
  Some [Some g_lhs; Some g_rhs].

Definition ExpBackward_apply (saved_out : T) (d : Device) (grad : T) : option (list (option T)) :=
  g ← on d (bk_mul grad saved_out);
  Some [Some g].

Definition LogBackward_apply (saved_input : T) (d : Device) (grad : T) : option (list (option T)) :=
  g ← on d (bk_div grad saved_input);
  Some [Some g].

Definition SqrtBackward_apply (saved_out : T) (d : Device) (grad : T) : option (list (option T)) :=
  two_out ← on d (bk_mul (scalar (f_lit 2)) saved_out);
  g ← on d (bk_div grad two_out);
  Some [Some g].

Definition AbsBackward_apply (saved_input : T) (grad : T) : option (list (option T)) :=
  x ← as_slice saved_input;
  g ← as_slice grad;
  out ← ofold (λ out i,
      xi ← x !! i;
      let s := if f_gt0 xi then f_lit 1 else if f_lt0 xi then f_neg (f_lit 1) else f_lit 0 in
      gi ← g !! i;
      Some (out ++ [f_mul gi s])) [] (seq 0 (length x));
  g_t ← from_vec (shape saved_input) out;
  Some [Some g_t].

Definition PowScalarBackward_apply (x : T) (exponent : D) (d : Device) (grad : T) : option (list (option T)) :=
  xn1 ← on d (bk_pow_scalar x (d_sub exponent (d_lit 1)));
  let n := scalar (d_to_f exponent) in
  scaled ← on d (bk_mul n xn1);
  g ← on d (bk_mul grad scaled);
  Some [Some g].

(** The loops of [IndexSelectBackward::apply]: [src_grad[idx[k]] += grad[k]],
    row by row. *)
Definition scatter_row (row_size : Z) (g_data : list F) (src_grad : list F) (k_i : nat) (idx_v : Z)
    : option (list F) :=
  let v_i := wrap 64 idx_v in
  let g_off := wrap 64 (Z.of_nat k_i * row_size) in
  let s_off := wrap 64 (v_i * row_size) in
  ofold (λ src_grad j,
      x ← g_data !! Z.to_nat (wrap 64 (g_off + Z.of_nat j));
      oalter (λ y, f_add y x) (Z.to_nat (wrap 64 (s_off + Z.of_nat j))) src_grad)
    src_grad (seq 0 (Z.to_nat row_size)).

Definition IndexSelectBackward_apply (in_shape : list Z) (indices : T) (grad : T) : option (list (option T)) :=
  v ← in_shape !! 0%nat;
  let row_size := Z.max (usize_product (drop 1 in_shape)) 1 in
  let k := Z.to_nat (numel indices) in
  g_data ← as_slice grad;
  idx_data ← as_slice_i64 indices;
  src_grad ← ofold (λ sg '(k_i, idx_v), scatter_row row_size g_data sg k_i idx_v)
    (replicate (Z.to_nat (wrap 64 (v * row_size))) (f_lit 0)) (take k (imap pair idx_data));
  g_t ← from_vec in_shape src_grad;
  Some [Some g_t].

(** [bmm_grad_inputs]: one batch of [dA[bi] = grad[bi] @ B[bi].T] and of
    [dB[bi] = A[bi].T @ grad[bi]].  The offsets are those of buffers in memory
    and do not wrap. *)
Definition dot_loop (n : nat) (f : nat → option (F * F)) : option F :=
  ofold (λ acc j, xy ← f j; Some (f_add acc (f_mul xy.1 xy.2))) (f_lit 0) (seq 0 n).

Definition at2 (u v : list F) (i j : nat) : option (F * F) :=
  x ← u !! i; y ← v !! j; Some (x, y).

Definition oset {A : Type} (i : nat) (x : A) (v : list A) : option (list A) :=
  if decide (i < length v)%nat then Some (<[i := x]> v) else None.

Definition bmm_da (m k n : nat) (g r : list F) (da : list F) (bi : nat) : option (list F) :=
  ofold (λ da i, ofold (λ da kk,
      acc ← dot_loop n (λ j, at2 g r (bi * m * n + i * n + j) (bi * k * n + kk * n + j))%nat;
      oset (bi * m * k + i * k + kk)%nat acc da) da (seq 0 k)) da (seq 0 m).

Definition bmm_db (m k n : nat) (g l : list F) (db : list F) (bi : nat) : option (list F) :=
  ofold (λ db kk, ofold (λ db j,
      acc ← dot_loop m (λ i, at2 l g (bi * m * k + i * k + kk) (bi * m * n + i * n + j))%nat;
      oset (bi * k * n + kk * n + j)%nat acc db) db (seq 0 n)) db (seq 0 k).

Definition bmm_grad_inputs (grad lhs rhs : T) : option (T * T) :=
  b ← shape lhs !! 0%nat;
  m ← shape lhs !! 1%nat;
  k ← shape lhs !! 2%nat;
  n ← shape rhs !! 2%nat;
  g ← as_slice grad;
  l ← as_slice lhs;
  r ← as_slice rhs;
  let '(bn, mn, kn, nn) := (Z.to_nat b, Z.to_nat m, Z.to_nat k, Z.to_nat n) in
  dab ← ofold (λ dab bi,
      da ← bmm_da mn kn nn g r dab.1 bi;
      db ← bmm_db mn kn nn g l dab.2 bi;
      Some (da, db))
    (replicate (bn * mn * kn) (f_lit 0), replicate (bn * kn * nn) (f_lit 0)) (seq 0 bn);
  da_t ← from_vec [b; m; k] dab.1;
  db_t ← from_vec [b; k; n] dab.2;
  Some (da_t, db_t).

Definition BmmBackward_apply (lhs rhs grad : T) : option (list (option T)) :=
  dadb ← bmm_grad_inputs grad lhs rhs;
  Some [Some dadb.1; Some dadb.2].

Definition TransposeBackward_apply (d0 d1 : nat) (grad : T) : option (list (option T)) :=
  t ← t_transpose grad d0 d1;
  Some [Some (contiguous t)].

Definition ReshapeBackward_apply (in_shape : list Z) (grad : T) : option (list (option T)) :=
  data ← as_slice grad;
  g ← from_vec in_shape data;
  Some [Some g].

(** The bias gradient of [Conv2dBackward::apply]: the sum over batch and space. *)
Definition conv_bias_grad (n c_out h_out w_out : nat) (g_data : list F) : option (list F) :=
  ofold (λ db ni, ofold (λ db co, ofold (λ db hi, ofold (λ db wi,
      x ← g_data !! (((ni * c_out + co) * h_out + hi) * w_out + wi)%nat;
      oalter (λ y, f_add y x) co db)
    db (seq 0 w_out)) db (seq 0 h_out)) db (seq 0 c_out))
    (replicate c_out (f_lit 0)) (seq 0 n).

Definition Conv2dBackward_apply (input weight : T) (pad_h pad_w : Z) (has_bias : bool) (grad : T)
    : option (list (option T)) :=
  din ← conv2d_grad_input grad weight (shape input) pad_h pad_w;
  dw ← conv2d_grad_weight input grad (shape weight) pad_h pad_w;
  if has_bias then
    g_data ← as_slice grad;
    n ← shape grad !! 0%nat;
    c_out ← shape grad !! 1%nat;
    h_out ← shape grad !! 2%nat;
    w_out ← shape grad !! 3%nat;
    db ← conv_bias_grad (Z.to_nat n) (Z.to_nat c_out) (Z.to_nat h_out) (Z.to_nat w_out) g_data;
    db_t ← from_vec [c_out] db;
    Some [Some din; Some dw; Some db_t]
  else Some [Some din; Some dw].

Definition BatchNorm2dBackward_apply (input gamma mean var : T) (eps : F) (grad : T)
    : option (list (option T)) :=
  r ← batch_norm2d_backward grad input gamma mean var eps;
  let '(dx, dg, db) := r in
  Some [Some dx; Some dg; Some db].

Definition MaxPool2dBackward_apply (in_shape : list Z) (argmax_idx : T) (grad : T)
    : option (list (option T)) :=
  din ← maxpool2d_backward grad argmax_idx in_shape;
  Some [Some din].

Definition MeanDimBackward_apply (in_shape : list Z) (n_reduced : Z) (d : Device) (grad : T)
    : option (list (option T)) :=
  let inv_n := f_div (f_lit 1) (f_lit n_reduced) in
  scaled_ones ← from_vec in_shape (replicate (Z.to_nat (usize_product in_shape)) inv_n);
  g ← on d (bk_mul grad scaled_ones);
  Some [Some g].

(** [CustomBackward::apply]: one output gradient, whatever the number of outputs. *)
Definition CustomBackward_apply (saved : list T) (bwd : list T → list T → option (list T)) (grad : T)
    : option (list (option T)) :=
  match bwd saved [grad] with
  | Some grad_inputs => Some (Some <$> grad_inputs)
  | None => None
  end.

(** [Node::name] *)
Definition GradNode_name (k : GradNode) : string :=
  match k with
  | AddBackward _ _ _ => "AddBackward" | SubBackward _ _ _ => "SubBackward"
  | MulBackward _ _ _ => "MulBackward" | NegBackward _ => "NegBackward"
  | MatMulBackward _ _ _ => "MatMulBackward" | ReluBackward _ _ => "ReluBackward"
  | SigmoidBackward _ _ => "SigmoidBackward" | TanhBackward _ _ => "TanhBackward"
  | SumBackward _ => "SumBackward" | MeanBackward _ _ => "MeanBackward"
  | CrossEntropyBackward _ _ _ _ _ => "CrossEntropyBackward"
  | AddBiasBackward _ => "AddBiasBackward" | LinearBackward _ _ _ => "LinearBackward"
  | MseBackward _ _ _ _ _ _ => "MseBackward" | SiluBackward _ _ => "SiluBackward"
  | LeakyReluBackward _ _ => "LeakyReluBackward" | SoftmaxBackward _ _ _ => "SoftmaxBackward"
  | LogSoftmaxBackward _ _ _ => "LogSoftmaxBackward" | DivBackward _ _ _ => "DivBackward"
  | ExpBackward _ _ => "ExpBackward" | LogBackward _ _ => "LogBackward"
  | SqrtBackward _ _ => "SqrtBackward" | AbsBackward _ => "AbsBackward"
  | PowScalarBackward _ _ _ => "PowScalarBackward"
  | IndexSelectBackward _ _ => "IndexSelectBackward" | BmmBackward _ _ => "BmmBackward"
  | TransposeBackward _ _ => "TransposeBackward" | ReshapeBackward _ => "ReshapeBackward"
  | Conv2dBackward _ _ _ _ _ => "Conv2dBackward"
  | BatchNorm2dBackward _ _ _ _ _ => "BatchNorm2dBackward"
  | MaxPool2dBackward _ _ => "MaxPool2dBackward" | MeanDimBackward _ _ _ => "MeanDimBackward"
  | CustomBackward _ _ => "CustomBackward"
  end.

(** [Node::apply] *)
Definition GradNode_apply (k : GradNode) (grad : T) : option (list (option T)) :=
  match k with
  | AddBackward ls rs d => AddBackward_apply ls rs d grad
  | SubBackward ls rs d => SubBackward_apply ls rs d grad
  | MulBackward l r d => MulBackward_apply l r d grad
  | NegBackward d => NegBackward_apply d grad
  | MatMulBackward l r d => MatMulBackward_apply l r d grad
  | ReluBackward x d => ReluBackward_apply x d grad
  | SigmoidBackward y d => SigmoidBackward_apply y d grad
  | TanhBackward y d => TanhBackward_apply y d grad
  | SumBackward s => SumBackward_apply s grad
  | MeanBackward s n => MeanBackward_apply s n grad
  | CrossEntropyBackward p t n c r => CrossEntropyBackward_apply p t n c r grad
  | AddBiasBackward d => AddBiasBackward_apply d grad
  | LinearBackward x w d => LinearBackward_apply x w d grad
  | MseBackward diff n r d i t => MseBackward_apply diff n r d i t grad
  | SiluBackward x d => SiluBackward_apply x d grad
  | LeakyReluBackward x s => LeakyReluBackward_apply x s grad
  | SoftmaxBackward y dim d => SoftmaxBackward_apply y dim d grad
  | LogSoftmaxBackward y dim d => LogSoftmaxBackward_apply y dim d grad
  | DivBackward l r d => DivBackward_apply l r d grad
  | ExpBackward y d => ExpBackward_apply y d grad
  | LogBackward x d => LogBackward_apply x d grad
  | SqrtBackward y d => SqrtBackward_apply y d grad
  | AbsBackward x => AbsBackward_apply x grad
  | PowScalarBackward x e d => PowScalarBackward_apply x e d grad
  | IndexSelectBackward s i => IndexSelectBackward_apply s i grad
  | BmmBackward l r => BmmBackward_apply l r grad
  | TransposeBackward d0 d1 => TransposeBackward_apply d0 d1 grad
  | ReshapeBackward s => ReshapeBackward_apply s grad
  | Conv2dBackward i w ph pw b => Conv2dBackward_apply i w ph pw b grad
  | BatchNorm2dBackward i g m v e => BatchNorm2dBackward_apply i g m v e grad
  | MaxPool2dBackward s a => MaxPool2dBackward_apply s a grad
  | MeanDimBackward s n d => MeanDimBackward_apply s n d grad
  | CustomBackward sv b => CustomBackward_apply sv b grad
  end.

#[export] Instance GradNode_ops : NodeOps T GradNode := {
  node_name := GradNode_name;
  node_apply := GradNode_apply
}.

(** ** The operations *)

Notation M A := (TapeM T GradNode A).

(** [require_same_device_2], [require_same_device_3] *)
Definition require_same_device_2 (op : string) (lhs rhs : Var) : M Device :=
  do! l := tensor lhs in
  do! r := tensor rhs in
  if decide (device l ≠ device r) then tlift (Err (DeviceMismatch op (device l) (device r)))
  else tret (device l).

Definition require_same_device_3 (op : string) (a b c : Var) : M Device :=
  do! ta := tensor a in
  do! tb := tensor b in
  do! tc := tensor c in
  if decide (device ta ≠ device tb) then tlift (Err (DeviceMismatch op (device ta) (device tb)))
  else if decide (device ta ≠ device tc) then tlift (Err (DeviceMismatch op (device ta) (device tc)))
  else tret (device ta).

(** The common end: wrap the result, and record the node if gradients are
    tracked and [rg], "some input requires one", holds. *)
Definition record (rg : bool) (k : GradNode) (edges : list Edge) (out : T) : M Var :=
  do! out := Variable_new out in
  do! enabled := is_grad_enabled in
  if enabled && rg then attach k edges out else tret out.

(** The pattern of the one-input operations. *)
Definition unary (op : string) (f : T → option T) (k : T → T → GradNode) (src : Var) : M Var :=
  do! x := tensor src in
  do! out := tlift (call op (device x) (f x)) in
  record (v_requires_grad src) (k x out) [edge src] out.

(** The pattern of the two-input operations. *)
Definition binary (op : string) (f : T → T → option T) (k : T → T → Device → GradNode)
    (lhs rhs : Var) : M Var :=
  do! device := require_same_device_2 op lhs rhs in
  do! l := tensor lhs in
  do! r := tensor rhs in
  do! out := tlift (call op device (f l r)) in
  record (v_requires_grad lhs || v_requires_grad rhs) (k l r device) [edge lhs; edge rhs] out.

(** [add] *)
Definition add (lhs rhs : Var) : M Var :=
  binary "add" bk_add (λ l r d, AddBackward (shape l) (shape r) d) lhs rhs.

(** [sub] *)
Definition sub (lhs rhs : Var) : M Var :=
  binary "sub" bk_sub (λ l r d, SubBackward (shape l) (shape r) d) lhs rhs.

(** [mul] *)
Definition mul (lhs rhs : Var) : M Var :=
  binary "mul" bk_mul MulBackward lhs rhs.

(** [neg] *)
Definition neg (src : Var) : M Var :=
  unary "neg" bk_neg (λ x _, NegBackward (device x)) src.

(** [matmul] *)
Definition matmul (lhs rhs : Var) : M Var :=
  binary "matmul" bk_matmul MatMulBackward lhs rhs.

(** [relu] *)
Definition relu (src : Var) : M Var :=
  unary "relu" bk_relu (λ x _, ReluBackward x (device x)) src.

(** [sigmoid] *)
Definition sigmoid (src : Var) : M Var :=
  unary "sigmoid" bk_sigmoid (λ x y, SigmoidBackward y (device x)) src.

(** [tanh] *)
Definition tanh (src : Var) : M Var :=
  unary "tanh" bk_tanh (λ x y, TanhBackward y (device x)) src.

(** [sum] *)
Definition sum (src : Var) : M Var :=
  unary "sum" bk_sum (λ x _, SumBackward (shape x)) src.

(** [mean] *)
Definition mean (src : Var) : M Var :=
  unary "mean" bk_mean (λ x _, MeanBackward (shape x) (numel x)) src.

(** [cross_entropy] *)
Definition cross_entropy (input target : Var) (reduction : Reduction) : M Var :=
  do! device := require_same_device_2 "cross_entropy" input target in
  do! x := tensor input in
  do! t := tensor target in
  do! loss := tlift (call "cross_entropy" device (bk_cross_entropy x t reduction)) in
  do! out := Variable_new loss in
  do! enabled := is_grad_enabled in
  if enabled && v_requires_grad input then
    do! softmax := tlift (call "cross_entropy:softmax" device (bk_softmax x 1)) in
    do! n_samples := tlift (unwrap_opt (shape x !! 0%nat)) in
    do! n_classes := tlift (unwrap_opt (shape x !! 1%nat)) in
    attach (CrossEntropyBackward softmax t n_samples n_classes reduction) [edge input] out
  else tret out.

(** [add_bias] *)
Definition add_bias (x bias : Var) : M Var :=
  do! device := require_same_device_2 "add_bias" x bias in
  do! x_t := tensor x in
  do! bias_t := tensor bias in
  match shape x_t, shape bias_t with
  | [_; n_out], [n_bias] =>
      if decide (n_bias ≠ n_out) then tlift (Err (Backend "add_bias"))
      else
        do! out := tlift (call "add_bias" device (bk_add_bias x_t bias_t)) in
        record (v_requires_grad x || v_requires_grad bias) (AddBiasBackward device)
          [edge x; edge bias] out
  | _, _ => tlift (Err (Backend "add_bias"))
  end.

(** [linear] *)
Definition linear (x w bias : Var) : M Var :=
  do! device := require_same_device_3 "linear" x w bias in
  do! x_t := tensor x in
  do! w_t := tensor w in
  do! bias_t := tensor bias in
  if decide (length (shape x_t) ≠ 2%nat ∨ length (shape w_t) ≠ 2%nat ∨ length (shape bias_t) ≠ 1%nat)
  then tlift (Err (Backend "linear"))
  else
    do! out := tlift (call "linear" device (bk_matmul_with_bias x_t w_t bias_t)) in
    record (v_requires_grad x || v_requires_grad w || v_requires_grad bias)
      (LinearBackward x_t w_t device) [edge x; edge w; edge bias] out.

(** [mse_loss] *)
Definition mse_loss (input target : Var) (reduction : Reduction) : M Var :=
  do! device := require_same_device_2 "mse_loss" input target in
  do! x := tensor input in
  do! y := tensor target in
  do! loss := tlift (call "mse_loss" device (bk_mse_loss x y reduction)) in
  do! out := Variable_new loss in
  do! enabled := is_grad_enabled in
  if enabled && (v_requires_grad input || v_requires_grad target) then
    do! diff := tlift (call "mse_loss:sub" device (bk_sub x y)) in
    attach (MseBackward diff (numel x) reduction device (v_requires_grad input) (v_requires_grad target))
      [edge input; edge target] out
  else tret out.

(** [silu] *)
Definition silu (src : Var) : M Var :=
  unary "silu" bk_silu (λ x _, SiluBackward x (device x)) src.

(** [leaky_relu] *)
Definition leaky_relu (src : Var) (slope : D) : M Var :=
  unary "leaky_relu" (λ x, bk_leaky_relu x slope) (λ x _, LeakyReluBackward x slope) src.

(** [softmax], [log_softmax] *)
Definition softmax (src : Var) (dim : Z) : M Var :=
  unary "softmax" (λ x, bk_softmax x dim) (λ x y, SoftmaxBackward y dim (device x)) src.
Definition log_softmax (src : Var) (dim : Z) : M Var :=
  unary "log_softmax" (λ x, bk_log_softmax x dim) (λ x y, LogSoftmaxBackward y dim (device x)) src.

(** [div] *)
Definition div (lhs rhs : Var) : M Var :=
  binary "div" bk_div DivBackward lhs rhs.

(** [exp] *)
Definition exp (src : Var) : M Var :=
  unary "exp" bk_exp (λ x y, ExpBackward y (device x)) src.

(** [log] *)
Definition log (src : Var) : M Var :=
  unary "log" bk_log (λ x _, LogBackward x (device x)) src.

(** [sqrt] *)
Definition sqrt (src : Var) : M Var :=
  unary "sqrt" bk_sqrt (λ x y, SqrtBackward y (device x)) src.

(** [abs] *)
Definition abs (src : Var) : M Var :=
  unary "abs" bk_abs (λ x _, AbsBackward x) src.

(** [pow_scalar] *)
Definition pow_scalar (src : Var) (exponent : D) : M Var :=
  unary "pow_scalar" (λ x, bk_pow_scalar x exponent)
    (λ x _, PowScalarBackward x exponent (device x)) src.

(** [index_select] *)
Definition index_select (src : Var) (indices : T) : M Var :=
  unary "index_select" (λ x, bk_index_select x 0 indices)
    (λ x _, IndexSelectBackward (shape x) indices) src.

(** [bmm] *)
Definition bmm (lhs rhs : Var) : M Var :=
  binary "bmm" bk_bmm (λ l r _, BmmBackward l r) lhs rhs.

(** [transpose]: a method of the tensor, not of the backend. *)
Definition transpose (src : Var) (d0 d1 : nat) : M Var :=
  do! x := tensor src in
  do! out_view := tlift (ok_or (Backend "transpose") (t_transpose x d0 d1)) in
  let out := with_device (contiguous out_view) (device x) in
  record (v_requires_grad src) (TransposeBackward d0 d1) [edge src] out.

(** [reshape] *)
Definition reshape (src : Var) (shp : list Z) : M Var :=
  do! src_t := tensor src in
  if decide (usize_product shp ≠ numel src_t) then tlift (Err (Backend "reshape"))
  else
    let src_cpu := with_device src_t Cpu in
    do! data := tlift (ok_or (Backend "reshape") (as_slice src_cpu)) in
    do! out := tlift (ok_or (Backend "reshape") (from_vec shp data)) in
    let out := with_device out (device src_t) in
    record (v_requires_grad src) (ReshapeBackward (shape src_t)) [edge src] out.

(** [conv2d] *)
Definition conv2d (input weight : Var) (bias : option Var) (pad_h pad_w : Z) : M Var :=
  do! x := tensor input in
  do! w := tensor weight in
  do! bias_t := (match bias with
                 | Some b => do! t := tensor b in tret (Some t)
                 | None => tret None
                 end) in
  do! out := tlift (ok_or (Backend "conv2d") (conv2d_forward x w bias_t pad_h pad_w)) in
  record (v_requires_grad input || v_requires_grad weight ||
          match bias with Some b => v_requires_grad b | None => false end)
    (Conv2dBackward x w pad_h pad_w (if bias is Some _ then true else false))
    ([edge input; edge weight] ++ match bias with Some b => [edge b] | None => [] end) out.

(** [batch_norm2d] *)
Definition batch_norm2d (input gamma beta : Var) (eps : F) : M Var :=
  do! x := tensor input in
  do! g := tensor gamma in
  do! b := tensor beta in
  do! (out, mean, var) := tlift (ok_or (Backend "batch_norm2d") (batch_norm2d_forward x g b eps)) in
  record (v_requires_grad input || v_requires_grad gamma || v_requires_grad beta)
    (BatchNorm2dBackward x g mean var eps) [edge input; edge gamma; edge beta] out.

(** [max_pool2d] *)
Definition max_pool2d (input : Var) (kernel_size stride : Z * Z) : M Var :=
  do! x := tensor input in
  do! (out, idx) := tlift (ok_or (Backend "max_pool2d") (maxpool2d_forward x kernel_size stride)) in
  record (v_requires_grad input) (MaxPool2dBackward (shape x) idx) [edge input] out.

(** [mean_dim]: [in_shape[d]] is read when a node is recorded. *)
Definition mean_dim (src : Var) (dims : list Z) : M Var :=
  do! x := tensor src in
  do! out := tlift (call "mean_dim" (device x) (bk_mean_dim x dims true)) in
  do! out := Variable_new out in
  do! enabled := is_grad_enabled in
  if enabled && v_requires_grad src then
    do! sizes := tlift (unwrap_opt (mapM (λ d, shape x !! Z.to_nat d) dims)) in
    attach (MeanDimBackward (shape x) (usize_product sizes) (device x)) [edge src] out
  else tret out.

(** [l2_normalize_with_eps], composed of the operations above; [l2_normalize]
    passes [1e-12], which is a parameter here. *)
Definition l2_normalize_with_eps (src : Var) (dim : Z) (eps : F) : M Var :=
  do! x := tensor src in
  match shape x !! Z.to_nat dim with
  | None => tlift (Err (Backend "l2_normalize"))
  | Some n_reduced =>
      let dev := device x in
      do! square := mul src src in
      do! mean_sq := mean_dim square [dim] in
      do! n_scalar := Variable_new (with_device (scalar (f_lit n_reduced)) dev) in
      do! sum_sq := mul mean_sq n_scalar in
      do! eps_scalar := Variable_new (with_device (scalar eps) dev) in
      do! norm_sq := add sum_sq eps_scalar in
      do! norm := sqrt norm_sq in
      div src norm
  end.

(** ** custom_function.rs *)

(** [trait CustomFunction]: [forward] returns what it saved in the [FwdCtx]
    and the outputs; both functions may panic. *)
Record CustomFunction := mkCustomFunction {
  cf_forward : list T → option (list T * list T);
  cf_backward : list T → list T → option (list T)
}.

Fixpoint tmapM {A B : Type} (f : A → M B) (l : list A) : M (list B) :=
  match l with
  | [] => tret []
  | x :: l => do! y := f x in do! ys := tmapM f l in tret (y :: ys)
  end.

(** [apply_custom]: every output gets the one node. *)
Definition apply_custom (fn : CustomFunction) (inputs : list Var) : M (list Var) :=
  do! raw_inputs := tmapM tensor inputs in
  do! (saved, outputs) := tlift (unwrap_opt (cf_forward fn raw_inputs)) in
  match outputs with
  | [] => tlift (Err (Backend "custom"))
  | _ =>
      let any_requires_grad := existsb v_requires_grad inputs in
      do! out_vars := tmapM Variable_new outputs in
      do! enabled := is_grad_enabled in
      if enabled && any_requires_grad then
        λ tp,
          let n := length (nodes tp) in
          Ok ((λ v, mkVar (v_data v) (Some n) (v_grad v) true) <$> out_vars,
              mkTape (cells tp) (slots tp)
                (nodes tp ++ [mkNode (CustomBackward saved (cf_backward fn)) (edge <$> inputs)])
                (grad_enabled tp))
      else tret out_vars
  end.

End nodes.

Arguments GradNode : clear implicits.

(** ** Sessions

    A thread that holds variables and calls the library: it creates
    variables, runs operations on those it holds, changes flags, data and
    gradients, enters and leaves scopes, and runs [backward]. *)

Section sessions.
Context {F D T : Type} `{!TensorOps F D T, !BackendOps F D T}.
Notation Node_ := (GradNode F D T).
Implicit Types (tp : Tape T Node_) (v : Var).

(** A call of one of the operations. *)
Inductive OpCall :=
  | CAdd (lhs rhs : Var) | CSub (lhs rhs : Var) | CMul (lhs rhs : Var) | CDiv (lhs rhs : Var)
  | CNeg (src : Var) | CMatmul (lhs rhs : Var) | CBmm (lhs rhs : Var)
  | CRelu (src : Var) | CSigmoid (src : Var) | CTanh (src : Var) | CSum (src : Var) | CMean (src : Var)
  | CSilu (src : Var) | CExp (src : Var) | CLog (src : Var) | CSqrt (src : Var) | CAbs (src : Var)
  | CLeakyRelu (src : Var) (slope : D) | CPowScalar (src : Var) (exponent : D)
  | CSoftmax (src : Var) (dim : Z) | CLogSoftmax (src : Var) (dim : Z)
  | CCrossEntropy (input target : Var) (r : Reduction) | CMseLoss (input target : Var) (r : Reduction)
  | CAddBias (x bias : Var) | CLinear (x w bias : Var)
  | CIndexSelect (src : Var) (indices : T)
  | CTranspose (src : Var) (d0 d1 : nat) | CReshape (src : Var) (shp : list Z)
  | CConv2d (input weight : Var) (bias : option Var) (pad_h pad_w : Z)
  | CBatchNorm2d (input gamma beta : Var) (eps : F)
  | CMaxPool2d (input : Var) (kernel_size stride : Z * Z)
  | CMeanDim (src : Var) (dims : list Z) | CL2Normalize (src : Var) (dim : Z) (eps : F).

Definition run_op (c : OpCall) : TapeM T Node_ Var :=
  match c with
  | CAdd l r => add l r | CSub l r => sub l r | CMul l r => mul l r | CDiv l r => div l r
  | CNeg x => neg x | CMatmul l r => matmul l r | CBmm l r => bmm l r
  | CRelu x => relu x | CSigmoid x => sigmoid x | CTanh x => tanh x | CSum x => sum x
  | CMean x => mean x | CSilu x => silu x | CExp x => exp x | CLog x => log x
  | CSqrt x => sqrt x | CAbs x => abs x
  | CLeakyRelu x s => leaky_relu x s | CPowScalar x e => pow_scalar x e
  | CSoftmax x d => softmax x d | CLogSoftmax x d => log_softmax x d
  | CCrossEntropy x t r => cross_entropy x t r | CMseLoss x t r => mse_loss x t r
  | CAddBias x b => add_bias x b | CLinear x w b => linear x w b
  | CIndexSelect x i => index_select x i
  | CTranspose x d0 d1 => transpose x d0 d1 | CReshape x s => reshape x s
  | CConv2d i w b ph pw => conv2d i w b ph pw
  | CBatchNorm2d i g b e => batch_norm2d i g b e
  | CMaxPool2d i k s => max_pool2d i k s
  | CMeanDim x d => mean_dim x d | CL2Normalize x d e => l2_normalize_with_eps x d e
  end.

Definition operands (c : OpCall) : list Var :=
  match c with
  | CAdd l r | CSub l r | CMul l r | CDiv l r | CMatmul l r | CBmm l r => [l; r]
  | CCrossEntropy l r _ | CMseLoss l r _ | CAddBias l r => [l; r]
  | CNeg x | CRelu x | CSigmoid x | CTanh x | CSum x | CMean x | CSilu x | CExp x | CLog x
  | CSqrt x | CAbs x | CLeakyRelu x _ | CPowScalar x _ | CSoftmax x _ | CLogSoftmax x _
  | CIndexSelect x _ | CTranspose x _ _ | CReshape x _ | CMaxPool2d x _ _ | CMeanDim x _
  | CL2Normalize x _ _ => [x]
  | CLinear x w b | CBatchNorm2d x w b _ => [x; w; b]
  | CConv2d i w b _ _ => i :: w :: match b with Some b => [b] | None => [] end
  end.

(** How many gradients [apply] returns; a custom function decides itself. *)
Definition node_arity (k : Node_) : option nat :=
  match k with
  | AddBackward _ _ _ | SubBackward _ _ _ | MulBackward _ _ _ | DivBackward _ _ _
  | MatMulBackward _ _ _ | BmmBackward _ _ | AddBiasBackward _ | MseBackward _ _ _ _ _ _ => Some 2%nat
  | LinearBackward _ _ _ | BatchNorm2dBackward _ _ _ _ _ => Some 3%nat
  | Conv2dBackward _ _ _ _ b => Some (if b then 3 else 2)%nat
  | CustomBackward _ _ => None
  | _ => Some 1%nat
  end.

(** An edge leads to one of the first [nn] nodes or [ns] slots. *)
Definition edge_ok (nn ns : nat) (e : Edge) : Prop :=
  (∀ m, edge_node e = Some m → m < nn)%nat ∧ (∀ s, edge_slot e = Some s → s < ns)%nat.

(** The nodes of a tape: as many edges as gradients, to older nodes and to
    existing slots. *)
Definition node_ok (ns n : nat) (nd : Node Node_) : Prop :=
  Forall (edge_ok n ns) (next_edges nd) ∧
  ∀ a, node_arity (node_impl nd) = Some a → length (next_edges nd) = a.
Definition tape_ok tp : Prop := ∀ n nd, nodes tp !! n = Some nd → node_ok (length (slots tp)) n nd.

(** The cells and the node of a variable exist. *)
Definition var_ok tp v : Prop :=
  (v_data v < length (cells tp))%nat ∧ (v_grad v < length (slots tp))%nat ∧
  ∀ n, v_grad_fn v = Some n → (n < length (nodes tp))%nat.

(** What an operation may do to a tape: append. *)
Definition tape_le tp tp' : Prop :=
  cells tp `prefix_of` cells tp' ∧ slots tp `prefix_of` slots tp' ∧
  nodes tp `prefix_of` nodes tp' ∧ grad_enabled tp' = grad_enabled tp.

Definition empty_tape : Tape T Node_ := mkTape [] [] [] true.

Inductive session_step : Tape T Node_ * list Var → Tape T Node_ * list Var → Prop :=
  | ss_new t rg tp vs v tp' :
      alloc t rg tp = Ok (v, tp') → session_step (tp, vs) (tp', v :: vs)
  | ss_op c tp vs v tp' :
      (∀ x, x ∈ operands c → x ∈ vs) → run_op c tp = Ok (v, tp') →
      session_step (tp, vs) (tp', v :: vs)
  | ss_custom fn inputs tp vs out tp' :
      (∀ x, x ∈ inputs → x ∈ vs) → apply_custom fn inputs tp = Ok (out, tp') →
      session_step (tp, vs) (tp', out ++ vs)
  | ss_detach x tp vs v tp' :
      x ∈ vs → detach x tp = Ok (v, tp') → session_step (tp, vs) (tp', v :: vs)
  | ss_requires_grad x b tp vs :
      x ∈ vs → session_step (tp, vs) (tp, requires_grad x b :: vs)
  | ss_set_data x t tp vs tp' :
      x ∈ vs → set_data x t tp = Ok (tt, tp') → session_step (tp, vs) (tp', vs)
  | ss_set_grad x g tp vs tp' :
      x ∈ vs → set_grad x g tp = Ok (tt, tp') → session_step (tp, vs) (tp', vs)
  | ss_scope b tp vs : session_step (tp, vs) (set_enabled b tp, vs)
  | ss_backward x g tp vs tp' r :
      x ∈ vs → backward x g tp = (tp', r) → session_step (tp, vs) (tp', vs).

(** *** Lemmas *)

Lemma tbind_Ok {A B} (m : TapeM T Node_ A) (k : A → TapeM T Node_ B) tp b tp' :
  tbind m k tp = Ok (b, tp') ↔ ∃ a tp1, m tp = Ok (a, tp1) ∧ k a tp1 = Ok (b, tp').
Proof. unfold tbind. destruct (m tp) as [[a tp1]| |]; naive_solver. Qed.

Lemma tlift_Ok {A} (m : res BackwardError A) tp a tp' :
  tlift (K := Node_) m tp = Ok (a, tp') ↔ m = Ok a ∧ tp' = tp.
Proof. unfold tlift. destruct m; simpl; naive_solver. Qed.

Lemma tensor_Ok v tp t tp' :
  tensor v tp = Ok (t, tp') ↔ cells tp !! v_data v = Some t ∧ tp' = tp.
Proof. unfold tensor. destruct (cells tp !! v_data v); naive_solver. Qed.

Lemma tape_le_refl tp : tape_le tp tp.
Proof. by split_and!. Qed.

Lemma tape_le_trans tp1 tp2 tp3 : tape_le tp1 tp2 → tape_le tp2 tp3 → tape_le tp1 tp3.
Proof. intros (?&?&?&?) (?&?&?&?). split_and!; [by etrans..|congruence]. Qed.

Lemma var_ok_le tp tp' v : tape_le tp tp' → var_ok tp v → var_ok tp' v.
Proof.
  intros (Hc & Hs & Hn & _) (?&?&Hf). apply prefix_length in Hc, Hs, Hn.
  split_and!; [lia..|]. intros n ?%Hf. lia.
Qed.

Lemma edge_ok_le nn ns nn' ns' e : (nn ≤ nn')%nat → (ns ≤ ns')%nat → edge_ok nn ns e → edge_ok nn' ns' e.
Proof. intros ?? [H1 H2]. split; [intros m ?%H1; lia|intros s ?%H2; lia]. Qed.

Lemma edge_var_ok tp v : var_ok tp v → edge_ok (length (nodes tp)) (length (slots tp)) (edge v).
Proof.
  intros (_ & Hs & Hf). unfold edge. destruct (v_requires_grad v); [|done].
  destruct (v_grad_fn v) as [n|]; split; intros m; simpl; naive_solver.
Qed.

(** What every call guarantees of its result, for the variables [vs] it holds. *)
Definition call_ok tp (vs : list Var) tp' : Prop :=
  tape_ok tp' ∧ Forall (var_ok tp') vs ∧ tape_le tp tp'.

Lemma alloc_ok t rg tp v tp' : tape_ok tp → alloc t rg tp = Ok (v, tp') →
  call_ok tp [v] tp' ∧ nodes tp' = nodes tp ∧ v_requires_grad v = rg ∧ v_grad_fn v = None.
Proof.
  intros Htp [= <- <-]. unfold call_ok. split_and!; simpl; [|constructor; [|constructor]|..]; try done.
  - intros n nd Hn. simpl in *. destruct (Htp n nd Hn) as [He Ha]. split; [|done].
    eapply Forall_impl; [exact He|]. intros e. apply edge_ok_le; [done|]. rewrite length_app. simpl. lia.
  - split_and!; simpl; [rewrite length_app; simpl; lia..|done].
  - split_and!; simpl; [by apply prefix_app_r..|done|done].
Qed.

Lemma attach_ok k edges out tp v tp' : tape_ok tp → var_ok tp out →
  Forall (edge_ok (length (nodes tp)) (length (slots tp))) edges →
  (∀ a, node_arity k = Some a → length edges = a) →
  attach k edges out tp = Ok (v, tp') → call_ok tp [v] tp'.
Proof.
  intros Htp (Hc & Hs & _) He Ha [= <- <-]. split_and!; simpl.
  - intros n nd. simpl. rewrite lookup_app_Some. intros [Hn|[Hle Hn]]; [by apply Htp|].
    apply list_lookup_singleton_Some in Hn as [Heq <-].
    assert (n = length (nodes tp)) as -> by lia. by split.
  - constructor; [|constructor]. split_and!; simpl; [done..|]. intros n [= <-].
    rewrite length_app. simpl. lia.
  - split_and!; simpl; [done..|by apply prefix_app_r|done].
Qed.

Lemma call_ok_trans tp1 tp2 tp3 vs ws : call_ok tp1 vs tp2 → call_ok tp2 ws tp3 → call_ok tp1 ws tp3.
Proof. intros (?&?&?) (?&?&?). split_and!; [done..|by eapply tape_le_trans]. Qed.

(** The end that all operations share. *)
Lemma finish_ok rg k edges (out : T) tp v tp' : tape_ok tp →
  Forall (edge_ok (length (nodes tp)) (length (slots tp))) edges →
  (∀ a, node_arity k = Some a → length edges = a) →
  record rg k edges out tp = Ok (v, tp') → call_ok tp [v] tp'.
Proof.
  intros Htp He Ha. unfold record. rewrite tbind_Ok. intros (v1 & tp1 & Hv & H).
  destruct (alloc_ok _ _ _ _ _ Htp Hv) as ((Htp1 & Hv1 & Hle) & Hn & _).
  rewrite tbind_Ok in H. destruct H as (en & tp2 & [= <- <-] & H).
  destruct (grad_enabled tp1 && rg).
  - eapply (call_ok_trans _ tp1 _ [v1]); [by split_and!|].
    eapply attach_ok; [done| | |exact Ha|exact H].
    + by inversion Hv1.
    + eapply Forall_impl; [exact He|]. intros e. apply edge_ok_le; [by rewrite Hn|].
      apply prefix_length. apply Hle.
  - injection H as <- <-. by split_and!.
Qed.

(** Peel the monad off a call that returned. *)
Ltac peel :=
  repeat match goal with
  | H : tbind _ _ _ = Ok _ |- _ => apply tbind_Ok in H as (? & ? & ? & H)
  | H : tlift _ _ = Ok _ |- _ => apply tlift_Ok in H as [? ->]
  | H : tensor _ _ = Ok _ |- _ => apply tensor_Ok in H as [? ->]
  | H : tret _ _ = Ok _ |- _ => injection H as <- <-
  | H : is_grad_enabled _ = Ok _ |- _ => injection H as <- <-
  | H : Err _ = Ok _ |- _ => discriminate H
  end.

Lemma require_same_device_2_Ok op l r tp d tp' :
  require_same_device_2 op l r tp = Ok (d, tp') → tp' = tp.
Proof. unfold require_same_device_2. intros H. peel. case_decide; by peel. Qed.

Lemma require_same_device_3_Ok op a b c tp d tp' :
  require_same_device_3 op a b c tp = Ok (d, tp') → tp' = tp.
Proof. unfold require_same_device_3. intros H. peel. repeat case_decide; by peel. Qed.

Ltac peel_devices :=
  peel;
  repeat match goal with
  | H : require_same_device_2 _ _ _ _ = Ok _ |- _ => apply require_same_device_2_Ok in H as ->
  | H : require_same_device_3 _ _ _ _ _ = Ok _ |- _ => apply require_same_device_3_Ok in H as ->
  end.

(** One bind, for the calls that branch before the end. *)
Ltac step_bind H :=
  let Hx := fresh in
  apply tbind_Ok in H as (? & ? & Hx & H);
  first [ apply require_same_device_2_Ok in Hx as ->
        | apply require_same_device_3_Ok in Hx as ->
        | apply tensor_Ok in Hx as [Hx ->]
        | apply tlift_Ok in Hx as [Hx ->] ].

(** A record with the edges of operands that are valid. *)
Lemma record_ok rg k (vs : list Var) (out : T) tp v tp' : tape_ok tp → Forall (var_ok tp) vs →
  (∀ a, node_arity k = Some a → length vs = a) →
  record rg k (edge <$> vs) out tp = Ok (v, tp') → call_ok tp [v] tp'.
Proof.
  intros Htp Hvs Ha. apply finish_ok; [done| |].
  - apply Forall_fmap. eapply Forall_impl; [exact Hvs|]. apply edge_var_ok.
  - intros a ?%Ha. by rewrite length_fmap.
Qed.

Ltac foralls := repeat (apply Forall_cons; split; [done|]); by apply Forall_nil.

Lemma unary_ok op f k x tp v tp' : tape_ok tp → var_ok tp x →
  (∀ t out a, node_arity (k t out) = Some a → a = 1%nat) →
  unary op f k x tp = Ok (v, tp') → call_ok tp [v] tp'.
Proof.
  intros Htp Hx Ha H. unfold unary in H. peel_devices.
  apply (record_ok _ _ [x]) in H; [done|done|foralls|]. intros a ?%Ha. done.
Qed.

Lemma binary_ok op f k l r tp v tp' : tape_ok tp → var_ok tp l → var_ok tp r →
  (∀ t u d a, node_arity (k t u d) = Some a → a = 2%nat) →
  binary op f k l r tp = Ok (v, tp') → call_ok tp [v] tp'.
Proof.
  intros Htp Hl Hr Ha H. unfold binary in H. peel_devices.
  apply (record_ok _ _ [l; r]) in H; [done|done|foralls|]. intros a ?%Ha. done.
Qed.

(** The same for the operations that record their node after more work. *)
Lemma late_attach_ok (rg : bool) (m : Var → TapeM T Node_ Var) (out : T) tp v tp' :
  tape_ok tp →
  (∀ o tp1, tape_ok tp1 → var_ok tp1 o → tape_le tp tp1 → nodes tp1 = nodes tp →
     m o tp1 = Ok (v, tp') → call_ok tp1 [v] tp') →
  (do! o := Variable_new out in do! enabled := is_grad_enabled in
   if enabled && rg then m o else tret o) tp = Ok (v, tp') → call_ok tp [v] tp'.
Proof.
  intros Htp Hm H. apply tbind_Ok in H as (o & tp1 & Ho & H).
  destruct (alloc_ok _ _ _ _ _ Htp Ho) as ((Htp1 & Hv1 & Hle) & Hn & _).
  apply tbind_Ok in H as (en & tp2 & [= <- <-] & H). destruct (_ && rg).
  - eapply (call_ok_trans _ tp1 _ [o]); [by split_and!|]. apply (Hm o); [done| |done..].
    by inversion Hv1.
  - injection H as <- <-. by split_and!.
Qed.

Lemma attach_edges_ok k (vs : list Var) out tp tp0 v tp' : tape_ok tp → var_ok tp out →
  tape_le tp0 tp → Forall (var_ok tp0) vs → (∀ a, node_arity k = Some a → length vs = a) →
  attach k (edge <$> vs) out tp = Ok (v, tp') → call_ok tp [v] tp'.
Proof.
  intros Htp Hout Hle Hvs Ha. apply attach_ok; [done..| |].
  - apply Forall_fmap. eapply Forall_impl; [exact Hvs|]. intros x Hx.
    apply edge_var_ok. by eapply var_ok_le.
  - intros a ?%Ha. by rewrite length_fmap.
Qed.

Lemma cross_entropy_ok i t r tp v tp' : tape_ok tp → var_ok tp i → var_ok tp t →
  cross_entropy i t r tp = Ok (v, tp') → call_ok tp [v] tp'.
Proof.
  intros Htp Hi Ht H. unfold cross_entropy in H. do 4 step_bind H.
  eapply (late_attach_ok _ _ _ _ _ _ Htp); [|exact H].
  intros o tp1 Htp1 Ho Hle _ Hat. clear H. cbn beta in Hat. peel.
  eapply (attach_edges_ok _ [i]); [done|done|done| | |exact Hat]; [foralls|]. by intros a [= <-].
Qed.

Lemma mse_loss_ok i t r tp v tp' : tape_ok tp → var_ok tp i → var_ok tp t →
  mse_loss i t r tp = Ok (v, tp') → call_ok tp [v] tp'.
Proof.
  intros Htp Hi Ht H. unfold mse_loss in H. do 4 step_bind H.
  eapply (late_attach_ok _ _ _ _ _ _ Htp); [|exact H].
  intros o tp1 Htp1 Ho Hle _ Hat. clear H. cbn beta in Hat. peel.
  eapply (attach_edges_ok _ [i; t]); [done|done|done| | |exact Hat];
    [foralls|]. by intros a [= <-].
Qed.

Lemma mean_dim_ok x dims tp v tp' : tape_ok tp → var_ok tp x →
  mean_dim x dims tp = Ok (v, tp') → call_ok tp [v] tp'.
Proof.
  intros Htp Hx H. unfold mean_dim in H. do 2 step_bind H.
  eapply (late_attach_ok _ _ _ _ _ _ Htp); [|exact H].
  intros o tp1 Htp1 Ho Hle _ Hat. clear H. cbn beta in Hat. peel.
  eapply (attach_edges_ok _ [x]); [done|done|done| | |exact Hat]; [foralls|]. by intros a [= <-].
Qed.

Lemma add_bias_ok x b tp v tp' : tape_ok tp → var_ok tp x → var_ok tp b →
  add_bias x b tp = Ok (v, tp') → call_ok tp [v] tp'.
Proof.
  intros Htp Hx Hb H. unfold add_bias in H. do 3 step_bind H.
  destruct (shape x1) as [|? [|? []]]; cbn match in H; [by peel..| |by peel].
  destruct (shape x2) as [|? []]; cbn match in H; [by peel| |by peel].
  case_decide; [by peel|]. step_bind H.
  apply (record_ok _ _ [x; b]) in H; [done|done|foralls|]. by intros a [= <-].
Qed.

Lemma linear_ok x w b tp v tp' : tape_ok tp → var_ok tp x → var_ok tp w → var_ok tp b →
  linear x w b tp = Ok (v, tp') → call_ok tp [v] tp'.
Proof.
  intros Htp Hx Hw Hb H. unfold linear in H. do 4 step_bind H. case_decide; [by peel|].
  step_bind H. apply (record_ok _ _ [x; w; b]) in H; [done|done|foralls|]. by intros a [= <-].
Qed.

Lemma transpose_ok x d0 d1 tp v tp' : tape_ok tp → var_ok tp x →
  transpose x d0 d1 tp = Ok (v, tp') → call_ok tp [v] tp'.
Proof.
  intros Htp Hx H. unfold transpose in H. do 2 step_bind H.
  apply (record_ok _ _ [x]) in H; [done|done|foralls|]. by intros a [= <-].
Qed.

Lemma reshape_ok x shp tp v tp' : tape_ok tp → var_ok tp x →
  reshape x shp tp = Ok (v, tp') → call_ok tp [v] tp'.
Proof.
  intros Htp Hx H. unfold reshape in H. step_bind H. case_decide; [by peel|]. do 2 step_bind H.
  apply (record_ok _ _ [x]) in H; [done|done|foralls|]. by intros a [= <-].
Qed.

Lemma conv2d_ok i w b ph pw tp v tp' : tape_ok tp → var_ok tp i → var_ok tp w →
  (∀ b', b = Some b' → var_ok tp b') →
  conv2d i w b ph pw tp = Ok (v, tp') → call_ok tp [v] tp'.
Proof.
  intros Htp Hi Hw Hb H. unfold conv2d in H. do 2 step_bind H. destruct b as [b|].
  - specialize (Hb b eq_refl). apply tbind_Ok in H as (? & ? & Hbt & H). step_bind Hbt. peel.
    apply (record_ok _ _ [i; w; b]) in H; [done|done|foralls|]. by intros a [= <-].
  - peel. apply (record_ok _ _ [i; w]) in H; [done|done|foralls|]. by intros a [= <-].
Qed.

Lemma batch_norm2d_ok i g b eps tp v tp' : tape_ok tp → var_ok tp i → var_ok tp g → var_ok tp b →
  batch_norm2d i g b eps tp = Ok (v, tp') → call_ok tp [v] tp'.
Proof.
  intros Htp Hi Hg Hb H. unfold batch_norm2d in H. do 3 step_bind H.
  apply tbind_Ok in H as ([[out mean] var] & ? & Hx & H). apply tlift_Ok in Hx as [_ ->].
  apply (record_ok _ _ [i; g; b]) in H; [done|done|foralls|]. by intros a [= <-].
Qed.

Lemma max_pool2d_ok i k s tp v tp' : tape_ok tp → var_ok tp i →
  max_pool2d i k s tp = Ok (v, tp') → call_ok tp [v] tp'.
Proof.
  intros Htp Hi H. unfold max_pool2d in H. step_bind H.
  apply tbind_Ok in H as ([out idx] & ? & Hx & H). apply tlift_Ok in Hx as [_ ->].
  apply (record_ok _ _ [i]) in H; [done|done|foralls|]. by intros a [= <-].
Qed.

(** Sequencing, for the composed operation. *)
Lemma bind_ok (m : TapeM T Node_ Var) (k : Var → TapeM T Node_ Var) tp v tp' :
  (∀ x tp1, m tp = Ok (x, tp1) → call_ok tp [x] tp1) →
  (∀ x tp1, tape_ok tp1 → tape_le tp tp1 → var_ok tp1 x → k x tp1 = Ok (v, tp') → call_ok tp1 [v] tp') →
  (do! x := m in k x) tp = Ok (v, tp') → call_ok tp [v] tp'.
Proof.
  intros Hm Hk H. apply tbind_Ok in H as (x & tp1 & Hx & H).
  pose proof (Hm x tp1 Hx) as (Htp1 & Hx1 & Hle).
  eapply (call_ok_trans _ tp1 _ [x]); [by split_and!|]. eapply Hk; [done..| |done]. by inversion Hx1.
Qed.

Lemma new_ok t tp v tp' : tape_ok tp → Variable_new t tp = Ok (v, tp') → call_ok tp [v] tp'.
Proof. intros Htp H. by eapply alloc_ok in H as [? _]. Qed.

Lemma add_ok l r tp v tp' : tape_ok tp → var_ok tp l → var_ok tp r →
  add l r tp = Ok (v, tp') → call_ok tp [v] tp'.
Proof. intros ???. apply binary_ok; [done..|]. by intros ???? [= <-]. Qed.
Lemma mul_ok l r tp v tp' : tape_ok tp → var_ok tp l → var_ok tp r →
  mul l r tp = Ok (v, tp') → call_ok tp [v] tp'.
Proof. intros ???. apply binary_ok; [done..|]. by intros ???? [= <-]. Qed.
Lemma div_ok l r tp v tp' : tape_ok tp → var_ok tp l → var_ok tp r →
  div l r tp = Ok (v, tp') → call_ok tp [v] tp'.
Proof. intros ???. apply binary_ok; [done..|]. by intros ???? [= <-]. Qed.
Lemma sqrt_ok x tp v tp' : tape_ok tp → var_ok tp x →
  sqrt x tp = Ok (v, tp') → call_ok tp [v] tp'.
Proof. intros ??. apply unary_ok; [done..|]. by intros ??? [= <-]. Qed.

Lemma l2_normalize_ok x dim eps tp v tp' : tape_ok tp → var_ok tp x →
  l2_normalize_with_eps x dim eps tp = Ok (v, tp') → call_ok tp [v] tp'.
Proof.
  intros Htp Hx H. unfold l2_normalize_with_eps in H. step_bind H.
  destruct (shape _ !! _); [|by peel]. revert H.
  repeat first
    [ apply bind_ok; [intros ??; first [apply mul_ok|apply mean_dim_ok|apply new_ok|apply add_ok|apply sqrt_ok];
        by eauto using var_ok_le|intros ????? ]
    | apply div_ok; by eauto 10 using var_ok_le, tape_le_trans ].
Qed.

(** Every operation keeps the tape well formed and only appends to it. *)
Lemma run_op_ok c tp v tp' : tape_ok tp → Forall (var_ok tp) (operands c) →
  run_op c tp = Ok (v, tp') → call_ok tp [v] tp'.
Proof.
  intros Htp Hvs. destruct c; simpl in *;
    repeat match goal with H : Forall _ (_ :: _) |- _ => apply Forall_cons in H as [? H] end;
    try (apply unary_ok; [done..|]; by intros ??? [= <-]);
    try (apply binary_ok; [done..|]; by intros ???? [= <-]);
    eauto using add_bias_ok, linear_ok, transpose_ok, reshape_ok, batch_norm2d_ok, max_pool2d_ok,
      cross_entropy_ok, mse_loss_ok, mean_dim_ok, l2_normalize_ok.
  apply conv2d_ok; [done..|]. intros b' ->. by inversion Hvs.
Qed.

(** *** When a node is recorded *)

(** Whether some input that gradients flow to requires one. *)
Definition tracked (c : OpCall) : bool :=
  match c with
  | CCrossEntropy input _ _ => v_requires_grad input
  | c => existsb v_requires_grad (operands c)
  end.

(** The result [v] carries the newest node if [b], and none otherwise. *)
Definition tracks (b : bool) tp v tp' : Prop :=
  v_requires_grad v = b ∧
  (if b then (length (nodes tp) < length (nodes tp'))%nat ∧
             v_grad_fn v = Some (pred (length (nodes tp')))
   else nodes tp' = nodes tp ∧ v_grad_fn v = None) ∧
  grad_enabled tp' = grad_enabled tp.

Lemma record_tracks rg k edges (out : T) tp v tp' :
  record rg k edges out tp = Ok (v, tp') → tracks (grad_enabled tp && rg) tp v tp'.
Proof.
  unfold record. intros H. apply tbind_Ok in H as (o & tp1 & [= <- <-] & H).
  apply tbind_Ok in H as (en & tp2 & [= <- <-] & H). simpl in H. unfold tracks.
  destruct (grad_enabled tp && rg); injection H as <- <-; simpl;
    [rewrite length_app; simpl; split_and!; [done|lia|f_equal; lia|done]|done].
Qed.

Lemma late_tracks (rg : bool) (m : Var → TapeM T Node_ Var) (out : T) tp v tp' :
  (∀ o tp1, m o tp1 = Ok (v, tp') → ∃ k edges, attach k edges o tp1 = Ok (v, tp')) →
  (do! o := Variable_new out in do! enabled := is_grad_enabled in
   if enabled && rg then m o else tret o) tp = Ok (v, tp') → tracks (grad_enabled tp && rg) tp v tp'.
Proof.
  intros Hm H. apply tbind_Ok in H as (o & tp1 & [= <- <-] & H).
  apply tbind_Ok in H as (en & tp2 & [= <- <-] & H). simpl in H. unfold tracks.
  destruct (grad_enabled tp && rg).
  - destruct (Hm _ _ H) as (k & edges & [= <- <-]). simpl. rewrite length_app. simpl.
    split_and!; [done|lia|f_equal; lia|done].
  - injection H as <- <-. done.
Qed.

Lemma unary_tracks op f k x tp v tp' :
  unary op f k x tp = Ok (v, tp') → tracks (grad_enabled tp && v_requires_grad x) tp v tp'.
Proof. unfold unary. intros H. do 2 step_bind H. by apply record_tracks in H. Qed.

Lemma binary_tracks op f k l r tp v tp' :
  binary op f k l r tp = Ok (v, tp') →
  tracks (grad_enabled tp && (v_requires_grad l || v_requires_grad r)) tp v tp'.
Proof. unfold binary. intros H. do 4 step_bind H. by apply record_tracks in H. Qed.

Lemma mean_dim_tracks x dims tp v tp' :
  mean_dim x dims tp = Ok (v, tp') → tracks (grad_enabled tp && v_requires_grad x) tp v tp'.
Proof.
  unfold mean_dim. intros H. do 2 step_bind H. eapply late_tracks; [|exact H].
  clear H. intros o tp1 H. cbn beta in H. step_bind H. eauto.
Qed.

Lemma tracks_trans b tp1 v1 tp2 v2 tp3 : tracks b tp1 v1 tp2 → tracks b tp2 v2 tp3 → tracks b tp1 v2 tp3.
Proof.
  unfold tracks. intros (? & H1 & ?) (? & H2 & ?). split_and!; [done| |congruence].
  destruct b; [|naive_solver congruence]. destruct H1, H2. split; [lia|done].
Qed.

Lemma tracks_new b t tp v tp1 w tp2 :
  Variable_new t tp = Ok (v, tp1) → tracks b tp1 w tp2 → tracks b tp w tp2.
Proof. by intros [= <- <-]. Qed.

Lemma l2_normalize_tracks x dim eps tp v tp' :
  l2_normalize_with_eps x dim eps tp = Ok (v, tp') →
  tracks (grad_enabled tp && v_requires_grad x) tp v tp'.
Proof.
  unfold l2_normalize_with_eps. intros H. step_bind H. destruct (shape _ !! _); [|by peel].
  set (b := grad_enabled tp && v_requires_grad x).
  assert (∀ y tp1 w tp2, tracks b tp y tp1 →
    tracks (grad_enabled tp1 && v_requires_grad y) tp1 w tp2 → tracks b tp w tp2) as Hnext.
  { intros y tp1 w tp2 Hy Hw. eapply tracks_trans; [exact Hy|].
    destruct Hy as (Hr & _ & He). rewrite Hr, He in Hw. unfold b in *.
    by destruct (grad_enabled tp), (v_requires_grad x). }
  assert (∀ y tp1 w tp2, tracks b tp y tp1 →
    tracks (grad_enabled tp1 && (v_requires_grad y || false)) tp1 w tp2 →
    tracks b tp w tp2) as Hnext2.
  { intros y tp1 w tp2 Hy Hw. rewrite orb_false_r in Hw. by eapply Hnext. }
  apply tbind_Ok in H as (sq & tp1 & H1 & H). apply binary_tracks in H1.
  rewrite orb_diag in H1. fold b in H1.
  apply tbind_Ok in H as (me & tp2 & H2 & H). apply mean_dim_tracks in H2.
  pose proof (Hnext _ _ _ _ H1 H2) as H2'. clear H1 H2.
  apply tbind_Ok in H as (n & tp3 & H3 & H).
  apply tbind_Ok in H as (ss & tp4 & H4 & H). apply binary_tracks in H4.
  injection H3 as <- <-. simpl in H4.
  pose proof (Hnext2 me tp2 ss tp4 H2' H4) as H4'. clear H4 H2'.
  apply tbind_Ok in H as (e & tp5 & H5 & H).
  apply tbind_Ok in H as (ns & tp6 & H6 & H). apply binary_tracks in H6.
  injection H5 as <- <-. simpl in H6.
  pose proof (Hnext2 ss tp4 ns tp6 H4' H6) as H6'. clear H6 H4'.
  apply tbind_Ok in H as (nr & tp7 & H7 & H). apply unary_tracks in H7.
  pose proof (Hnext _ _ _ _ H6' H7) as H7'. clear H6' H7.
  apply binary_tracks in H. eapply tracks_trans; [exact H7'|].
  destruct H7' as (Hr & _ & He). rewrite Hr, He in H. unfold b in *.
  by destruct (grad_enabled tp), (v_requires_grad x).
Qed.

(** Every operation records iff gradients are tracked and an input needs one. *)
Lemma run_op_tracks c tp v tp' :
  run_op c tp = Ok (v, tp') → tracks (grad_enabled tp && tracked c) tp v tp'.
Proof.
  destruct c; simpl; rewrite ?orb_false_r; intros H;
    try (by apply unary_tracks in H); try (by apply binary_tracks in H).
  - unfold cross_entropy in H. do 4 step_bind H. eapply late_tracks; [|exact H].
    clear H. intros o tp1 H. cbn beta in H. do 3 step_bind H. eauto.
  - unfold mse_loss in H. do 4 step_bind H. eapply late_tracks; [|exact H].
    clear H. intros o tp1 H. cbn beta in H. step_bind H. eauto.
  - unfold add_bias in H. do 3 step_bind H.
    destruct (shape x1) as [|? [|? []]]; cbn match in H; [by peel..| |by peel].
    destruct (shape x2) as [|? []]; cbn match in H; [by peel| |by peel].
    case_decide; [by peel|]. step_bind H. by apply record_tracks in H.
  - unfold linear in H. do 4 step_bind H. case_decide; [by peel|]. step_bind H.
    rewrite orb_assoc. by apply record_tracks in H.
  - unfold transpose in H. do 2 step_bind H. by apply record_tracks in H.
  - unfold reshape in H. step_bind H. case_decide; [by peel|]. do 2 step_bind H.
    by apply record_tracks in H.
  - unfold conv2d in H. do 2 step_bind H. apply tbind_Ok in H as (bt & tp1 & Hb & H).
    assert (tp1 = tp) as -> by (destruct bias; peel; done).
    step_bind H. apply record_tracks in H. destruct bias; simpl;
      rewrite ?orb_false_r in *; rewrite ?orb_assoc; done.
  - unfold batch_norm2d in H. do 3 step_bind H.
    apply tbind_Ok in H as ([[out mean] var] & ? & Hx & H). apply tlift_Ok in Hx as [_ ->].
    rewrite orb_assoc. by apply record_tracks in H.
  - unfold max_pool2d in H. step_bind H.
    apply tbind_Ok in H as ([out idx] & ? & Hx & H). apply tlift_Ok in Hx as [_ ->].
    by apply record_tracks in H.
  - by apply mean_dim_tracks in H.
  - by apply l2_normalize_tracks in H.
Qed.

(** *** Arity: what [apply] returns matches the edges *)

Lemma on_Some {A} d (m : option A) x : on d m = Some x → m = Some x.
Proof. unfold on. by destruct (pick_backend d). Qed.

Lemma apply_arity k g gs a : GradNode_apply k g = Some gs → node_arity k = Some a → length gs = a.
Proof.
  intros Hg Ha.
  destruct k; simpl in Hg, Ha; try discriminate Ha; injection Ha as <-;
    repeat first
      [ progress unfold AddBackward_apply, SubBackward_apply, MulBackward_apply, NegBackward_apply,
          MatMulBackward_apply, ReluBackward_apply, SigmoidBackward_apply, TanhBackward_apply,
          SumBackward_apply, MeanBackward_apply, CrossEntropyBackward_apply, AddBiasBackward_apply,
          LinearBackward_apply, MseBackward_apply, SiluBackward_apply, LeakyReluBackward_apply,
          SoftmaxBackward_apply, LogSoftmaxBackward_apply, DivBackward_apply, ExpBackward_apply,
          LogBackward_apply, SqrtBackward_apply, AbsBackward_apply, PowScalarBackward_apply,
          IndexSelectBackward_apply, BmmBackward_apply, TransposeBackward_apply,
          ReshapeBackward_apply, Conv2dBackward_apply, BatchNorm2dBackward_apply,
          MaxPool2dBackward_apply, MeanDimBackward_apply in Hg
      | match type of Hg with
        | (_ ≫= _) = Some _ => apply bind_Some in Hg as (? & _ & Hg)
        | (let '(_, _) := ?x in _) = Some _ => destruct x
        | (if ?b then _ else _) = Some _ => destruct b
        end
      | (injection Hg as <-; reflexivity) ].
Qed.

(** *** The invariant over sessions *)

Lemma var_ok_ext tp tp' v : length (cells tp') = length (cells tp) →
  length (slots tp') = length (slots tp) → nodes tp' = nodes tp → var_ok tp v → var_ok tp' v.
Proof. unfold var_ok. intros -> -> ->. done. Qed.

Lemma tape_ok_ext tp tp' :
  length (slots tp') = length (slots tp) → nodes tp' = nodes tp → tape_ok tp → tape_ok tp'.
Proof. unfold tape_ok. intros -> ->. done. Qed.

Lemma tape_ok_wf tp : tape_ok tp → graph_wf (nodes tp).
Proof.
  intros Htp n m (e & He & Hm). unfold edges_of in He.
  destruct (nodes tp !! n) as [nd|] eqn:Hn; [|by apply elem_of_nil in He].
  destruct (Htp n nd Hn) as [Hes _]. rewrite Forall_forall in Hes. by apply (Hes e He).
Qed.

Lemma accumulate_edges_length l st : length (accumulate_edges l st).1.2 = length st.2.
Proof.
  revert st. induction l as [|[e [g|]] l IH]; intros [grads sl]; simpl; [done| |apply IH].
  assert (length (accumulate_into_edge e g (grads, sl)).1.2 = length sl) as Hl.
  { unfold accumulate_into_edge. destruct (edge_node e) as [m|].
    - destruct (grads !! m); [destruct (be_add _ _)|]; done.
    - destruct (edge_slot e) as [k|]; [|done].
      destruct (mjoin _); [destruct (be_add _ _)|]; simpl; by rewrite ?length_insert. }
  destruct (accumulate_into_edge e g (grads, sl)) as [st' [| |]]; simpl in *; [|done..].
  by rewrite IH.
Qed.

Lemma backward_loop_length ns order st : length (backward_loop ns order st).1.2 = length st.2.
Proof.
  revert st. induction order as [|n order IH]; intros [grads sl]; simpl; [done|].
  assert (length (backward_node ns n (grads, sl)).1.2 = length sl) as Hl.
  { unfold backward_node. destruct (grads !! n), (ns !! n); try done.
    destruct (node_apply _ _); [|done]. case_decide; [done|]. apply accumulate_edges_length. }
  destruct (backward_node ns n (grads, sl)) as [st' [| |]]; simpl in *; [|done..]. by rewrite IH.
Qed.

Lemma backward_frame x g tp tp' r : backward x g tp = (tp', r) →
  cells tp' = cells tp ∧ nodes tp' = nodes tp ∧ grad_enabled tp' = grad_enabled tp ∧
  length (slots tp') = length (slots tp).
Proof.
  unfold backward. destruct (v_grad_fn x) as [root|]; [|by intros [= <- <-]].
  destruct (match g with Some g => Some g | None => _ end) as [grad|]; [|by intros [= <- <-]].
  pose proof (backward_loop_length (nodes tp) (reverse (topo_from (nodes tp) root))
    ({[root := grad]}, slots tp)) as Hl.
  destruct (backward_loop _ _ _) as [[gr sl] r']. by intros [= <- <-].
Qed.

Lemma tmapM_ok {A B} (f : A → TapeM T Node_ B) (P : Tape T Node_ → Prop)
    (R : Tape T Node_ → B → Prop) l tp ys tp' :
  P tp → (∀ x tp1 y tp2, x ∈ l → P tp1 → f x tp1 = Ok (y, tp2) →
            P tp2 ∧ R tp2 y ∧ ∀ z, R tp1 z → R tp2 z) →
  tmapM f l tp = Ok (ys, tp') → P tp' ∧ Forall (R tp') ys ∧ ∀ z, R tp z → R tp' z.
Proof.
  intros HP Hf. revert tp ys HP Hf. induction l as [|x l IH]; intros tp ys HP Hf; simpl.
  { intros [= <- <-]. split_and!; [done|constructor|done]. }
  intros H. apply tbind_Ok in H as (y & tp1 & Hy & H). apply tbind_Ok in H as (ys' & tp2 & Hys & H).
  injection H as <- <-.
  destruct (Hf x tp y tp1) as (HP1 & HR1 & Hm1); [apply elem_of_cons; by left|done..|].
  destruct (IH tp1 ys' HP1) as (HP2 & HR2 & Hm2); [|done|].
  - intros x' ? ? ? Hx'. apply Hf, elem_of_cons. by right.
  - split_and!; [done|constructor; [by apply Hm2|done]|auto].
Qed.

Lemma apply_custom_ok fn inputs tp out tp' : tape_ok tp → Forall (var_ok tp) inputs →
  apply_custom fn inputs tp = Ok (out, tp') → call_ok tp out tp'.
Proof.
  intros Htp Hin H. unfold apply_custom in H.
  apply tbind_Ok in H as (raw & tp1 & Hraw & H).
  apply (tmapM_ok _ (λ tp1, tp1 = tp) (λ _ _, True)) in Hraw as (-> & _ & _); [|done|].
  2: { intros ? ? ? ? _ -> Hx. by apply tensor_Ok in Hx as [_ ->]. }
  apply tbind_Ok in H as ([saved outs] & tp2 & Hx & H). apply tlift_Ok in Hx as [_ ->].
  destruct outs as [|o outs]; [by peel|].
  apply tbind_Ok in H as (vs & tp1 & Hvs & H).
  apply (tmapM_ok _ (λ tp1, tape_ok tp1 ∧ tape_le tp tp1) var_ok) in Hvs as ([Htp1 Hle] & Hvs & _).
  3: { intros t tp1' y tp2 _ [Htp1 Hle] Hy. apply alloc_ok in Hy as ((?&Hy&?)&_); [|done].
       inversion Hy; subst. split_and!; [done|by eapply tape_le_trans|done|].
       intros z. by apply var_ok_le. }
  2: { split; [done|apply tape_le_refl]. }
  apply tbind_Ok in H as (en & tp2 & [= <- <-] & H).
  destruct (_ && _); [|injection H as <- <-; by split_and!]. injection H as <- <-.
  assert (tape_le tp1 (mkTape (cells tp1) (slots tp1)
    (nodes tp1 ++ [mkNode (CustomBackward saved (cf_backward fn)) (edge <$> inputs)]) (grad_enabled tp1)))
    as Hle1 by (split_and!; simpl; [done..|by apply prefix_app_r|done]).
  split_and!; [| |by eapply tape_le_trans].
  - intros n nd. simpl. rewrite lookup_app_Some. intros [Hn|[Hlen Hn]]; [by apply Htp1|].
    apply list_lookup_singleton_Some in Hn as [Heq <-].
    assert (n = length (nodes tp1)) as -> by lia. split; [|by intros ? [=]].
    simpl. apply Forall_fmap. eapply Forall_impl; [exact Hin|]. intros x Hx.
    apply edge_var_ok. by eapply var_ok_le.
  - apply Forall_fmap. eapply Forall_impl; [exact Hvs|]. intros x (?&?&_).
    split_and!; simpl; [done..|]. intros n [= <-]. rewrite length_app. simpl. lia.
Qed.

(** A session is well formed: the tape is, and the variables held exist on it. *)
Definition session_ok (s : Tape T Node_ * list Var) : Prop := tape_ok s.1 ∧ Forall (var_ok s.1) s.2.

Lemma call_session tp vs out tp' :
  Forall (var_ok tp) vs → call_ok tp out tp' → session_ok (tp', out ++ vs).
Proof.
  intros Hvs (Htp & Hout & Hle). split; [done|]. apply Forall_app. split; [done|].
  eapply Forall_impl; [exact Hvs|]. intros x. by apply var_ok_le.
Qed.

Lemma session_step_ok s s' : session_ok s → session_step s s' → session_ok s'.
Proof.
  intros [Htp Hvs] Hstep.
  destruct Hstep as [t rg tp vs v tp' H|c tp vs v tp' Hc H|fn inputs tp vs out tp' Hc H
    |x tp vs v tp' Hx H|x b tp vs Hx|x t tp vs tp' Hx H|x g tp vs tp' Hx H|b tp vs|x g tp vs tp' r Hx H];
    simpl in *; rewrite Forall_forall in Hvs.
  - apply (call_session tp vs [v]); [by apply Forall_forall|]. by eapply alloc_ok in H as [? _].
  - apply (call_session tp vs [v]); [by apply Forall_forall|]. eapply run_op_ok; [done| |done].
    apply Forall_forall. auto.
  - apply (call_session tp vs out); [by apply Forall_forall|]. eapply apply_custom_ok; [done| |done].
    apply Forall_forall. auto.
  - apply (call_session tp vs [v]); [by apply Forall_forall|].
    unfold detach in H. step_bind H. by eapply alloc_ok in H as [? _].
  - split; [done|]. simpl. constructor; [exact (Hvs x Hx)|by apply Forall_forall].
  - injection H as <-. split; [done|]. apply Forall_forall. intros y Hy.
    eapply var_ok_ext; [| | |by apply Hvs]; simpl; by rewrite ?length_insert.
  - injection H as <-. split; [eapply tape_ok_ext; [| |exact Htp]; simpl; by rewrite ?length_insert|].
    apply Forall_forall. intros y Hy.
    eapply var_ok_ext; [| | |by apply Hvs]; simpl; by rewrite ?length_insert.
  - split; [done|]. by apply Forall_forall.
  - apply backward_frame in H as (Hc & Hn & _ & Hl). split; [exact (tape_ok_ext _ _ Hl Hn Htp)|].
    apply Forall_forall. intros y Hy. apply (var_ok_ext tp); [simpl; by rewrite Hc|done|done|by apply Hvs].
Qed.

Lemma session_reachable_ok tp vs : rtc session_step (empty_tape, []) (tp, vs) → session_ok (tp, vs).
Proof.
  assert (session_ok (empty_tape, [])) as H0.
  { split; [|by constructor]. intros n nd Hn. simpl in Hn. by rewrite lookup_nil in Hn. }
  intros H. remember (empty_tape, []) as s. remember (tp, vs) as s'. clear Heqs Heqs'.
  induction H as [|a b c Hab _ IH]; [done|]. apply IH. by eapply session_step_ok.
Qed.

(** *** What backward can fail with *)

Lemma accumulate_edges_Err l st st' e : accumulate_edges l st = (st', Err e) →
  e = Backend "accumulate" ∨ e = Backend "accumulate_leaf".
Proof.
  revert st. induction l as [|[ed [g|]] l IH]; intros [grads sl]; simpl; [done| |apply IH].
  destruct (accumulate_into_edge ed g (grads, sl)) as [st1 r] eqn:Hacc.
  destruct r; [apply IH| |done]. intros [= <- <-].
  unfold accumulate_into_edge in Hacc. destruct (edge_node ed) as [m|].
  - destruct (grads !! m); [destruct (be_add _ _)|]; simplify_eq; auto.
  - destruct (edge_slot ed) as [k|]; [|simplify_eq].
    destruct (mjoin _); [destruct (be_add _ _)|]; simplify_eq; auto.
Qed.

Definition backward_failure (e : BackwardError) : Prop :=
  e = NoGradFn ∨ e = Backend "accumulate" ∨ e = Backend "accumulate_leaf" ∨ e = Backend "CustomBackward".

Lemma backward_loop_Err tp order st st' e : tape_ok tp →
  backward_loop (nodes tp) order st = (st', Err e) → backward_failure e.
Proof.
  intros Htp. revert st. induction order as [|n order IH]; intros [grads sl]; simpl; [done|].
  destruct (backward_node (nodes tp) n (grads, sl)) as [st1 r] eqn:Hn.
  destruct r; [apply IH| |done]. intros [= <- <-]. unfold backward_node in Hn.
  destruct (grads !! n) as [g|]; [|done]. destruct (nodes tp !! n) as [nd|] eqn:Hnd; [|done].
  destruct (node_apply (node_impl nd) g) as [gs|] eqn:Hg; [|done].
  case_decide as Hlen; cycle 1.
  { apply accumulate_edges_Err in Hn as [->| ->]; unfold backward_failure; naive_solver. }
  injection Hn as _ <-. destruct (Htp n nd Hnd) as [_ Ha].
  destruct (node_arity (node_impl nd)) as [a|] eqn:Har.
  - exfalso. apply Hlen. rewrite (Ha a eq_refl). exact (apply_arity _ _ _ _ Hg Har).
  - destruct (node_impl nd); try discriminate Har; unfold backward_failure; naive_solver.
Qed.

Lemma backward_Err tp x g tp' e : tape_ok tp → backward x g tp = (tp', Err e) →
  backward_failure e ∧ (e = NoGradFn ↔ v_grad_fn x = None).
Proof.
  intros Htp. unfold backward. destruct (v_grad_fn x) as [root|].
  - destruct (match g with Some g => Some g | None => _ end) as [grad|]; [|done].
    destruct (backward_loop _ _ _) as [[gr sl] r] eqn:Hl. intros [= _ ->].
    pose proof (backward_loop_Err tp _ _ _ _ Htp Hl) as Hf. split; [done|]. split; [|done].
    intros ->. exfalso. revert Hl. generalize (reverse (topo_from (nodes tp) root)) as order.
    intros order. generalize ({[root := grad]} : gmap nat T, slots tp) as st.
    induction order as [|n order IH]; intros [grads sl0]; simpl; [done|].
    destruct (backward_node (nodes tp) n (grads, sl0)) as [st1 r] eqn:Hn.
    destruct r; [apply IH| |done]. intros [= _ ->]. unfold backward_node in Hn.
    destruct (grads !! n), (nodes tp !! n) as [nd|]; try done.
    destruct (node_apply _ _); [|done]. case_decide; [done|].
    apply accumulate_edges_Err in Hn as [|]; done.
  - intros [= _ <-]. split; [by left|done].
Qed.

End sessions.

(** ** Scalars

    The backend on tensors of rank 0, given the functions on their one element:
    broadcasting, transposing and reducing are the identity, and operations
    that need a higher rank fail.  It is the mathematical reading of the CPU
    backend on such tensors; AutogradReal.v takes the functions of the reals. *)
Record ScalarFns (F : Type) := mkScalarFns {
  sf_lit : Z → F;
  sf_add : F → F → F;
  sf_sub : F → F → F;
  sf_mul : F → F → F;
  sf_div : F → F → F;
  sf_neg : F → F;
  sf_gt : F → F → bool;
  sf_exp : F → F;
  sf_ln : F → F;
  sf_sqrt : F → F;
  sf_abs : F → F;
  sf_tanh : F → F;
  sf_pow : F → F → F
}.
Arguments sf_lit {F} _ _.
Arguments sf_add {F} _ _ _.
Arguments sf_sub {F} _ _ _.
Arguments sf_mul {F} _ _ _.
Arguments sf_div {F} _ _ _.
Arguments sf_neg {F} _ _.
Arguments sf_gt {F} _ _ _.
Arguments sf_exp {F} _ _.
Arguments sf_ln {F} _ _.
Arguments sf_sqrt {F} _ _.
Arguments sf_abs {F} _ _.
Arguments sf_tanh {F} _ _.
Arguments sf_pow {F} _ _ _.

Section scalars.
Context {F : Type} (S : ScalarFns F).

Definition scalar_tensors : TensorOps F F F := {|
  f_lit := sf_lit S; f_add := sf_add S; f_sub := sf_sub S; f_mul := sf_mul S; f_div := sf_div S;
  f_neg := sf_neg S; f_gt0 x := sf_gt S x (sf_lit S 0); f_lt0 x := sf_gt S (sf_lit S 0) x;
  d_lit := sf_lit S; d_sub := sf_sub S; d_to_f x := x;
  shape _ := []; numel _ := 1; dtype _ := F32; device _ := Cpu; scalar x := x;
  from_vec s l := match s, l with [], [x] => Some x | _, _ => None end;
  from_vec_f64 s l := match s, l with [], [x] => Some x | _, _ => None end;
  as_slice x := Some [x]; as_slice_i64 _ := None;
  to_dtype x _ := x; with_device x _ := x; t_transpose _ _ _ := None; contiguous x := x
|}.

Definition sf_sigmoid (x : F) : F :=
  sf_div S (sf_lit S 1) (sf_add S (sf_lit S 1) (sf_exp S (sf_neg S x))).

Definition scalar_backend : BackendOps F F F := {|
  bk_add x y := Some (sf_add S x y); bk_sub x y := Some (sf_sub S x y);
  bk_mul x y := Some (sf_mul S x y); bk_div x y := Some (sf_div S x y);
  bk_neg x := Some (sf_neg S x);
  bk_matmul _ _ := None; bk_matmul_with_transposes _ _ _ _ := None;
  bk_matmul_with_bias _ _ _ := None; bk_add_bias _ _ := None; bk_bmm _ _ := None;
  bk_gt x y := Some (if sf_gt S x y then sf_lit S 1 else sf_lit S 0);
  bk_relu x := Some (if sf_gt S x (sf_lit S 0) then x else sf_lit S 0);
  bk_sigmoid x := Some (sf_sigmoid x);
  bk_tanh x := Some (sf_tanh S x); bk_exp x := Some (sf_exp S x); bk_log x := Some (sf_ln S x);
  bk_sqrt x := Some (sf_sqrt S x); bk_abs x := Some (sf_abs S x);
  bk_silu x := Some (sf_mul S x (sf_sigmoid x));
  bk_leaky_relu x s := Some (if sf_gt S x (sf_lit S 0) then x else sf_mul S s x);
  bk_pow_scalar x e := Some (sf_pow S x e);
  bk_sum x := Some x; bk_mean x := Some x; bk_sum_dim _ _ _ := None; bk_mean_dim _ _ _ := None;
  bk_softmax _ _ := None; bk_log_softmax _ _ := None;
  bk_unbroadcast_to x s := match s with [] => Some x | _ => None end;
  bk_cross_entropy _ _ _ := None;
  bk_mse_loss x y _ := Some (sf_mul S (sf_sub S x y) (sf_sub S x y));
  bk_index_select _ _ _ := None;
  conv2d_forward _ _ _ _ _ := None; conv2d_grad_input _ _ _ _ _ := None;
  conv2d_grad_weight _ _ _ _ _ := None; batch_norm2d_forward _ _ _ _ := None;
  batch_norm2d_backward _ _ _ _ _ _ := None; maxpool2d_forward _ _ _ := None;
  maxpool2d_backward _ _ _ := None
|}.
End scalars.

(** Integer scalars, for evaluation. *)
Definition Z_fns : ScalarFns Z := {|
  sf_lit n := n; sf_add := Z.add; sf_sub := Z.sub; sf_mul := Z.mul; sf_div := Z.div; sf_neg := Z.opp;
  sf_gt := Z.gtb; sf_exp x := 2 ^ x; sf_ln := Z.log2; sf_sqrt := Z.sqrt; sf_abs := Z.abs;
  sf_tanh x := x; sf_pow := Z.pow
|}.

(** ** Properties *)

Section properties.
Context {F D T : Type} `{!TensorOps F D T, !BackendOps F D T}.
Implicit Types (tp : Tape T (GradNode F D T)) (v : Var).

(** C16: Whatever sequence of variables, operations, custom functions, flag
    changes, data and gradient updates, scopes and backward passes a thread
    runs, the tape stays well formed: every variable's cells and node exist,
    all edges lead to existing slots or to older nodes, so the graph never has a
    cycle and the search of [backward] terminates, and every node of an operation
    of the library has as many edges as its [apply] returns gradients (a custom
    function's [backward] is the caller's, and may return any number). *)
Theorem session_invariant tp vs :
  rtc session_step (empty_tape, []) (tp, vs) →
  Forall (var_ok tp) vs ∧ graph_wf (nodes tp) ∧
  ∀ n nd, nodes tp !! n = Some nd →
    (∀ e, e ∈ next_edges nd → edge_ok n (length (slots tp)) e) ∧
    ∀ g gs, node_apply (node_impl nd) g = Some gs →
      (∀ sv b, node_impl nd ≠ CustomBackward sv b) → length gs = length (next_edges nd).
Proof.
  intros [Htp Hvs]%session_reachable_ok. split; [done|]. split; [by apply tape_ok_wf|].
  intros n nd Hn. destruct (Htp n nd Hn) as [He Ha]. rewrite Forall_forall in He.
  split; [done|]. intros g gs Hg Hc.
  destruct (node_arity (node_impl nd)) as [a|] eqn:Har.
  - rewrite (Ha a eq_refl). exact (apply_arity _ _ _ _ Hg Har).
  - destruct (node_impl nd); try discriminate Har. by edestruct Hc.
Qed.

(** In any session, [backward] fails only when its variable has no
    [grad_fn], when the sum of two gradients fails, or when a custom function
    returns a wrong number of gradients: the length mismatch it checks for
    cannot come from an operation of the library.  Whatever happens, data,
    nodes and the flag are as before. *)
Theorem backward_failures tp vs x g tp' r :
  rtc session_step (empty_tape, []) (tp, vs) → x ∈ vs → backward x g tp = (tp', r) →
  cells tp' = cells tp ∧ nodes tp' = nodes tp ∧ grad_enabled tp' = grad_enabled tp ∧
  length (slots tp') = length (slots tp) ∧
  (r = Err NoGradFn ↔ v_grad_fn x = None) ∧
  ∀ e, r = Err e → e = NoGradFn ∨ e = Backend "accumulate" ∨ e = Backend "accumulate_leaf" ∨
                   e = Backend "CustomBackward".
Proof.
  intros [Htp Hvs]%session_reachable_ok Hx H.
  destruct (backward_frame x g tp tp' r H) as (?&?&?&?). split_and!; [done..| |].
  - split.
    { intros ->. destruct (backward_Err tp x g tp' NoGradFn Htp H) as [_ [Hi _]]. by apply Hi. }
    intros Hf. unfold backward in H. rewrite Hf in H. by injection H as _ <-.
  - intros e ->. by eapply backward_Err.
Qed.

(** An operation records a node exactly when gradients are tracked and an
    input that gradients flow to requires one (for [cross_entropy] the target
    does not count): then its result requires a gradient and points at the
    newest node; otherwise, as inside [no_grad], no node is added and the
    result requires none.  In both cases everything that was on the tape,
    gradients and data included, is as before. *)
Theorem op_records c tp v tp' :
  tape_ok tp → Forall (var_ok tp) (operands c) → run_op c tp = Ok (v, tp') →
  v_requires_grad v = grad_enabled tp && tracked c ∧
  (if grad_enabled tp && tracked c
   then (length (nodes tp) < length (nodes tp'))%nat ∧ v_grad_fn v = Some (pred (length (nodes tp')))
   else nodes tp' = nodes tp ∧ v_grad_fn v = None) ∧
  cells tp `prefix_of` cells tp' ∧ slots tp `prefix_of` slots tp' ∧
  nodes tp `prefix_of` nodes tp' ∧ grad_enabled tp' = grad_enabled tp ∧
  tape_ok tp' ∧ var_ok tp' v.
Proof.
  intros Htp Hvs H. destruct (run_op_tracks _ _ _ _ H) as (? & ? & ?).
  destruct (run_op_ok _ _ _ _ Htp Hvs H) as (? & Hv & ? & ? & ? & ?).
  split_and!; try done. by inversion Hv.
Qed.

(** With [Reduction::None] the gradient of [mse_loss] ignores the gradient it
    is given. *)
Lemma mse_none_ignores_grad diff n d i t (g1 g2 : T) :
  MseBackward_apply diff n RNone d i t g1 = MseBackward_apply diff n RNone d i t g2.
Proof. done. Qed.

(** All outputs of a custom function share one node, so [backward] from any of
    them hands its gradient over as the first output's. *)
Lemma apply_custom_shared fn inputs tp out tp' v w :
  apply_custom fn inputs tp = Ok (out, tp') → v ∈ out → w ∈ out →
  grad_enabled tp' && existsb v_requires_grad inputs = true → v_grad_fn v = v_grad_fn w.
Proof.
  unfold apply_custom. intros H Hv Hw He.
  apply tbind_Ok in H as (raw & tp1 & _ & H).
  apply tbind_Ok in H as ([saved outs] & tp2 & _ & H). destruct outs as [|o outs]; [by apply tlift_Ok in H as [? _]|].
  apply tbind_Ok in H as (vs & tp3 & _ & H). apply tbind_Ok in H as (en & tp4 & [= <- <-] & H).
  destruct (grad_enabled tp3) eqn:Hg; simpl in H.
  - destruct (existsb _ _); [|by rewrite andb_false_r in He].
    injection H as <- <-. apply list_elem_of_fmap in Hv as (? & -> & _), Hw as (? & -> & _). done.
  - injection H as <- <-. by rewrite Hg in He.
Qed.

End properties.

(** A session over integer scalars: [x = 3], [y = x * x], [backward]. *)
#[local] Instance Z_tensors : TensorOps Z Z Z := scalar_tensors Z_fns.
#[local] Instance Z_backend : BackendOps Z Z Z := scalar_backend Z_fns.

Definition square_x : Var := mkVar 0 None 0 true.
Definition square_y : Var := mkVar 1 (Some 0%nat) 1 true.
Definition square_tape : Tape Z (GradNode Z Z Z) :=
  mkTape [3; 9] [None; None] [mkNode (MulBackward 3 3 Cpu) [Edge_leaf 0; Edge_leaf 0]] true.

Lemma square_session : rtc session_step (empty_tape, []) (square_tape, [square_y; square_x]).
Proof.
  eapply rtc_l; [apply (ss_new 3 true); reflexivity|].
  eapply rtc_l; [|apply rtc_refl].
  apply (ss_op (CMul square_x square_x)); [|reflexivity].
  intros x. simpl. rewrite !elem_of_cons. tauto.
Qed.

Lemma session_invariant_witness : graph_wf (nodes square_tape) ∧ var_ok square_tape square_y.
Proof.
  destruct (session_invariant square_tape [square_y; square_x]) as (Hvs & Hwf & _);
    [apply square_session|]. split; [exact Hwf|]. by inversion Hvs.
Defined.

Lemma backward_failures_witness :
  (backward square_y None square_tape).2 = Ok tt ∧
  raw_grad square_x (backward square_y None square_tape).1 = Some 6 ∧
  cells (backward square_y None square_tape).1 = cells square_tape.
Proof.
  split; [vm_compute; reflexivity|]. split; [vm_compute; reflexivity|].
  apply (backward_failures square_tape [square_y; square_x] square_y None _
           (backward square_y None square_tape).2);
    [apply square_session|apply elem_of_cons; left; reflexivity|apply surjective_pairing].
Defined.

Lemma op_records_witness :
  let r := run_op (CAdd square_y square_x) square_tape in
  ∃ v tp', r = Ok (v, tp') ∧ v_requires_grad v = true ∧ v_grad_fn v = Some 1%nat.
Proof.
  eexists _, _. split; [vm_compute; reflexivity|].
  destruct (op_records (CAdd square_y square_x) square_tape
    (mkVar 2 (Some 1%nat) 2 true)
    (mkTape [3; 9; 12] [None; None; None]
       [mkNode (MulBackward 3 3 Cpu) [Edge_leaf 0; Edge_leaf 0];
        mkNode (AddBackward [] [] Cpu) [Edge_from_node 0; Edge_leaf 0]] true)) as (H1 & [_ H2] & _);
    [exact (proj1 (session_reachable_ok _ _ square_session))| |vm_compute; reflexivity|].
  - exact (proj2 (session_reachable_ok _ _ square_session)).
  - split; [exact H1|exact H2].
Defined.

(** The gradient of [mse_loss] with [Reduction::None] under a factor of 3, at
    [x = 5] and target [0]: 10, where the derivative of [3 * x * x] is 30. *)
Lemma mse_none_wrong_gradient :
  let prog :=
    (do! x := Variable_leaf 5 in
     do! t := Variable_new 0 in
     do! c := Variable_new 3 in
     do! l := mse_loss x t RNone in
     do! y := mul l c in
     λ tp, Ok (raw_grad x (backward y None tp).1, tp))%res in
  ∃ tp, prog empty_tape = Ok (Some 10, tp).
Proof. eexists. vm_compute. reflexivity. Qed.
