(* ===== verification/AutogradReal.v ===== *)
(** * Differentiation over the reals

    AutogradOps.v's operations with the backend of the real numbers, on tensors
    of rank 0, and the theorem that [backward] computes derivatives. *)

From Stdlib Require Import Reals Lra ZArith Lia.
From stdpp Require Import base list gmap sets strings relations.
From S2P Require Import Prelude Dtype Tensor Autograd AutogradOps.

Open Scope R_scope.

(** ** The functions of the reals *)
Definition R_gt (x y : R) : bool := if Rlt_dec y x then true else false.

Definition R_fns : ScalarFns R := {|
  sf_lit := IZR; sf_add := Rplus; sf_sub := Rminus; sf_mul := Rmult; sf_div := Rdiv;
  sf_neg := Ropp; sf_gt := R_gt; sf_exp := Rtrigo_def.exp; sf_ln := ln;
  sf_sqrt := R_sqrt.sqrt; sf_abs := Rabs; sf_tanh := Rtrigo_def.tanh; sf_pow := Rpower
|}.

#[local] Instance R_tensors : TensorOps R R R := scalar_tensors R_fns.
#[local] Instance R_backend : BackendOps R R R := scalar_backend R_fns.

Definition R_sigmoid (x : R) : R := 1 / (1 + Rtrigo_def.exp (- x)).

(** ** Derivatives *)

Lemma R_gt_true x y : y < x → R_gt x y = true.
Proof. intros. unfold R_gt. by destruct (Rlt_dec y x). Qed.

Lemma R_gt_false x y : ¬ y < x → R_gt x y = false.
Proof. intros. unfold R_gt. by destruct (Rlt_dec y x). Qed.

Lemma derive_comp (f u : R → R) x d e :
  derivable_pt_lim f x d → derivable_pt_lim u (f x) e → derivable_pt_lim (λ y, u (f y)) x (e * d).
Proof. intros Hf Hu. exact (derivable_pt_lim_comp f u x d e Hf Hu). Qed.

Lemma derive_opp_id x : derivable_pt_lim Ropp x (-1).
Proof. exact (derivable_pt_lim_opp id x 1 (derivable_pt_lim_id x)). Qed.

Lemma derive_linear c x : derivable_pt_lim (λ y, c * y) x c.
Proof.
  pose proof (derivable_pt_lim_scal id c x 1 (derivable_pt_lim_id x)) as H.
  rewrite Rmult_1_r in H. exact H.
Qed.

(** A function that is linear on one side of zero. *)
Lemma derive_pos (f : R → R) c x : 0 < x → (∀ y, 0 < y → f y = c * y) → derivable_pt_lim f x c.
Proof.
  intros Hx Hf. apply (derivable_pt_lim_locally_ext (λ y, c * y) f x 0 (x + 1) c); [lra| |].
  - intros y ?. symmetry. apply Hf. lra.
  - apply derive_linear.
Qed.

Lemma derive_neg (f : R → R) c x : x < 0 → (∀ y, y < 0 → f y = c * y) → derivable_pt_lim f x c.
Proof.
  intros Hx Hf. apply (derivable_pt_lim_locally_ext (λ y, c * y) f x (x - 1) 0 c); [lra| |].
  - intros y ?. symmetry. apply Hf. lra.
  - apply derive_linear.
Qed.

Lemma exp_denominator x : 1 + Rtrigo_def.exp (- x) ≠ 0.
Proof. pose proof (exp_pos (- x)). lra. Qed.

Lemma derive_sigmoid x : derivable_pt_lim R_sigmoid x (R_sigmoid x * (1 - R_sigmoid x)).
Proof.
  assert (derivable_pt_lim (λ y, 1 + Rtrigo_def.exp (- y)) x (0 + Rtrigo_def.exp (- x) * -1)) as Hd.
  { apply (derivable_pt_lim_plus (fct_cte 1) (λ y, Rtrigo_def.exp (- y))); [apply derivable_pt_lim_const|].
    apply (derive_comp Ropp Rtrigo_def.exp); [apply derive_opp_id|apply derivable_pt_lim_exp]. }
  pose proof (derivable_pt_lim_div (fct_cte 1) _ x 0 _ (derivable_pt_lim_const 1 x) Hd (exp_denominator x)) as H.
  unfold div_fct, fct_cte in H. unfold R_sigmoid.
  replace (1 / (1 + Rtrigo_def.exp (- x)) * (1 - 1 / (1 + Rtrigo_def.exp (- x)))) with
    ((0 * (1 + Rtrigo_def.exp (- x)) - (0 + Rtrigo_def.exp (- x) * -1) * 1) / (1 + Rtrigo_def.exp (- x))²);
    [exact H|].
  pose proof (exp_denominator x). unfold Rsqr. field. done.
Qed.

Lemma cosh_pos x : 0 < cosh x.
Proof. unfold cosh. pose proof (exp_pos x). pose proof (exp_pos (- x)). lra. Qed.

Lemma derive_tanh x : derivable_pt_lim Rtrigo_def.tanh x (1 - Rtrigo_def.tanh x * Rtrigo_def.tanh x).
Proof.
  pose proof (cosh_pos x) as Hc.
  pose proof (derivable_pt_lim_div sinh cosh x _ _ (derivable_pt_lim_sinh x) (derivable_pt_lim_cosh x)
    (Rgt_not_eq _ _ Hc)) as H.
  unfold Rtrigo_def.tanh.
  replace (1 - sinh x / cosh x * (sinh x / cosh x)) with
    ((cosh x * cosh x - sinh x * sinh x) / (cosh x)²); [exact H|].
  unfold Rsqr. field. lra.
Qed.

Lemma derive_silu x : derivable_pt_lim (λ y, y * R_sigmoid y) x
  (R_sigmoid x * (1 + x * (1 - R_sigmoid x))).
Proof.
  pose proof (derivable_pt_lim_mult id R_sigmoid x _ _ (derivable_pt_lim_id x) (derive_sigmoid x)) as H.
  replace (R_sigmoid x * (1 + x * (1 - R_sigmoid x))) with
    (1 * R_sigmoid x + id x * (R_sigmoid x * (1 - R_sigmoid x))); [exact H|]. unfold id. ring.
Qed.

(** ** Programs

    Straight-line programs over registers: the inputs are the first registers
    and every instruction appends its result. *)

Inductive UnOp :=
  | UNeg | URelu | USigmoid | UTanh | USum | UMean | USilu | UExp | ULog | USqrt | UAbs
  | ULeakyRelu (slope : R) | UPow (exponent : R).
Inductive BinOp := BAdd | BSub | BMul | BDiv | BMse (mean : bool).
Inductive Instr :=
  | IUn (u : UnOp) (r : nat)
  | IBin (b : BinOp) (r1 r2 : nat).

(** What they mean, as functions of reals. *)
Definition un_fun (u : UnOp) (x : R) : R :=
  match u with
  | UNeg => - x
  | URelu => Rmax 0 x
  | USigmoid => R_sigmoid x
  | UTanh => Rtrigo_def.tanh x
  | USum | UMean => x
  | USilu => x * R_sigmoid x
  | UExp => Rtrigo_def.exp x
  | ULog => ln x
  | USqrt => R_sqrt.sqrt x
  | UAbs => Rabs x
  | ULeakyRelu s => if Rlt_dec 0 x then x else s * x
  | UPow e => Rpower x e
  end.
Definition bin_fun (b : BinOp) (x y : R) : R :=
  match b with
  | BAdd => x + y
  | BSub => x - y
  | BMul => x * y
  | BDiv => x / y
  | BMse _ => (x - y) * (x - y)
  end.

(** Where they have a derivative. *)
Definition un_smooth (u : UnOp) (x : R) : Prop :=
  match u with
  | URelu | UAbs | ULeakyRelu _ => x ≠ 0
  | ULog | USqrt | UPow _ => 0 < x
  | _ => True
  end.
Definition bin_smooth (b : BinOp) (y : R) : Prop :=
  match b with BDiv => y ≠ 0 | _ => True end.

(** The calls they make. *)
Definition un_call (u : UnOp) (v : Var) : OpCall (F := R) (D := R) (T := R) :=
  match u with
  | UNeg => CNeg v | URelu => CRelu v | USigmoid => CSigmoid v | UTanh => CTanh v
  | USum => CSum v | UMean => CMean v | USilu => CSilu v | UExp => CExp v | ULog => CLog v
  | USqrt => CSqrt v | UAbs => CAbs v | ULeakyRelu s => CLeakyRelu v s | UPow e => CPowScalar v e
  end.
Definition bin_call (b : BinOp) (l r : Var) : OpCall (F := R) (D := R) (T := R) :=
  match b with
  | BAdd => CAdd l r | BSub => CSub l r | BMul => CMul l r | BDiv => CDiv l r
  | BMse mean => CMseLoss l r (if mean then RMean else RSum)
  end.

(** The value of an instruction, and of a program. *)
Definition instr_fun (i : Instr) (regs : list R) : R :=
  match i with
  | IUn u r => un_fun u (nth r regs 0)
  | IBin b r1 r2 => bin_fun b (nth r1 regs 0) (nth r2 regs 0)
  end.
Fixpoint eval (p : list Instr) (regs : list R) : list R :=
  match p with
  | [] => regs
  | i :: p => eval p (regs ++ [instr_fun i regs])
  end.

(** Registers are read after they are written, and every instruction is
    applied where it has a derivative. *)
Definition instr_ok (i : Instr) (regs : list R) : Prop :=
  match i with
  | IUn u r => (r < length regs)%nat ∧ un_smooth u (nth r regs 0)
  | IBin b r1 r2 => (r1 < length regs)%nat ∧ (r2 < length regs)%nat ∧ bin_smooth b (nth r2 regs 0)
  end.
Fixpoint smooth (p : list Instr) (regs : list R) : Prop :=
  match p with
  | [] => True
  | i :: p => instr_ok i regs ∧ smooth p (regs ++ [instr_fun i regs])
  end.

(** Running the program with the library. *)
Notation RTape := (Tape R (GradNode R R R)).
Notation RM A := (TapeM R (GradNode R R R) A).

Definition no_var : Var := mkVar 0 None 0 false.
Definition run_instr (i : Instr) (vars : list Var) : RM Var :=
  match i with
  | IUn u r => run_op (un_call u (nth r vars no_var))
  | IBin b r1 r2 => run_op (bin_call b (nth r1 vars no_var) (nth r2 vars no_var))
  end.
Fixpoint run (p : list Instr) (vars : list Var) : RM (list Var) :=
  match p with
  | [] => tret vars
  | i :: p => do! v := run_instr i vars in run p (vars ++ [v])
  end.

(** The inputs: leaves with or without [requires_grad]. *)
Fixpoint leaves (inputs : list (R * bool)) : RM (list Var) :=
  match inputs with
  | [] => tret []
  | (x, rg) :: inputs => do! v := alloc x rg in do! vs := leaves inputs in tret (v :: vs)
  end.

(** ** The derivative of one instruction *)

(** The partial derivatives at the point. *)
Definition un_der (u : UnOp) (x : R) : R :=
  match u with
  | UNeg => -1
  | URelu => if Rlt_dec 0 x then 1 else 0
  | USigmoid => R_sigmoid x * (1 - R_sigmoid x)
  | UTanh => 1 - Rtrigo_def.tanh x * Rtrigo_def.tanh x
  | USum | UMean => 1
  | USilu => R_sigmoid x * (1 + x * (1 - R_sigmoid x))
  | UExp => Rtrigo_def.exp x
  | ULog => / x
  | USqrt => / (2 * R_sqrt.sqrt x)
  | UAbs => if Rlt_dec 0 x then 1 else -1
  | ULeakyRelu s => if Rlt_dec 0 x then 1 else s
  | UPow e => e * Rpower x (e - 1)
  end.
Definition bin_der (b : BinOp) (x y : R) : R * R :=
  match b with
  | BAdd => (1, 1)
  | BSub => (1, -1)
  | BMul => (y, x)
  | BDiv => (/ y, - (x / (y * y)))
  | BMse _ => (2 * (x - y), -2 * (x - y))
  end.

Lemma un_derive u x : un_smooth u x → derivable_pt_lim (un_fun u) x (un_der u x).
Proof.
  destruct u; simpl; intros Hs.
  - apply derive_opp_id.
  - destruct (Rlt_dec 0 x).
    + apply derive_pos; [done|]. intros y ?. simpl. rewrite Rmax_right; lra.
    + apply derive_neg; [lra|]. intros y ?. simpl. rewrite Rmax_left; lra.
  - apply derive_sigmoid.
  - apply derive_tanh.
  - apply derivable_pt_lim_id.
  - apply derivable_pt_lim_id.
  - apply derive_silu.
  - apply derivable_pt_lim_exp.
  - by apply derivable_pt_lim_ln.
  - by apply derivable_pt_lim_sqrt.
  - destruct (Rlt_dec 0 x); [by apply Rabs_derive_1|]. apply Rabs_derive_2. lra.
  - destruct (Rlt_dec 0 x).
    + apply derive_pos; [done|]. intros y ?. simpl. destruct (Rlt_dec 0 y); lra.
    + apply derive_neg; [lra|]. intros y ?. simpl. destruct (Rlt_dec 0 y); lra.
  - by apply derivable_pt_lim_power.
Qed.

Lemma bin_derive b (f g : R → R) x d e : bin_smooth b (g x) →
  derivable_pt_lim f x d → derivable_pt_lim g x e →
  derivable_pt_lim (λ t, bin_fun b (f t) (g t)) x
    ((bin_der b (f x) (g x)).1 * d + (bin_der b (f x) (g x)).2 * e).
Proof.
  intros Hs Hf Hg. destruct b as [| | | |mean]; simpl in *.
  - replace (1 * d + 1 * e) with (d + e) by ring. exact (derivable_pt_lim_plus f g x d e Hf Hg).
  - replace (1 * d + -1 * e) with (d - e) by ring. exact (derivable_pt_lim_minus f g x d e Hf Hg).
  - replace (g x * d + f x * e) with (d * g x + f x * e) by ring.
    exact (derivable_pt_lim_mult f g x d e Hf Hg).
  - replace (/ g x * d + - (f x / (g x * g x)) * e) with ((d * g x - e * f x) / (g x)²).
    + exact (derivable_pt_lim_div f g x d e Hf Hg Hs).
    + unfold Rsqr. field. done.
  - pose proof (derivable_pt_lim_minus f g x d e Hf Hg) as Hm.
    replace (2 * (f x - g x) * d + -2 * (f x - g x) * e) with
      ((d - e) * (f - g)%F x + (f - g)%F x * (d - e)) by (unfold minus_fct; ring).
    exact (derivable_pt_lim_mult (f - g)%F (f - g)%F x _ _ Hm Hm).
Qed.

(** ** Gradients of the real backend *)

#[local, refine] Instance R_laws : GradLaws R unit := { tshape _ := tt }.
Proof.
  - intros a b _. by exists (a + b).
  - intros a b _. simpl. f_equal. ring.
  - intros a b c ab bc _ _ [= <-] [= <-]. simpl. f_equal. ring.
Defined.

(** A node of the real backend multiplies the gradient by a number for each
    input, or passes nothing on. *)
Definition scale (g : R) (oc : option R) : option R := Rmult g <$> oc.
Definition node_lin (k : GradNode R R R) (cs : list (option R)) : Prop :=
  ∀ g, GradNode_apply k g = Some (map (scale g) cs).

Lemma node_lin_typed k cs : node_lin k cs → node_typed (Sh := unit) k tt (replicate (length cs) tt).
Proof.
  intros Hk. constructor.
  - intros g _. eexists. split; [apply Hk|]. apply Forall2_same_length_lookup_2.
    + by rewrite length_replicate, length_map.
    + intros j [] og _ _ x _. by destruct (tshape x).
  - intros a b c ga gb _ _ [= <-]. simpl. rewrite !Hk. intros [= <-] [= <-]. f_equal.
    clear Hk. induction cs as [|[c|] cs IH]; simpl; [done|..]; f_equal; try done.
    unfold oplus. simpl. f_equal. ring.
Qed.

Definition tape_lin (tp : RTape) : Prop := ∀ n nd, nodes tp !! n = Some nd →
  ∃ cs, node_lin (node_impl nd) cs ∧ length cs = length (next_edges nd).

Lemma real_typed tp : tape_ok tp → tape_lin tp →
  graph_typed (nodes tp) (λ _, tt) (λ _, tt) (length (slots tp)).
Proof.
  intros Hok Hlin n nd Hn. destruct (Hok n nd Hn) as [He _]. rewrite Forall_forall in He.
  destruct (Hlin n nd Hn) as (cs & Hk & Hl). split.
  - exists (replicate (length cs) tt). split; [by apply node_lin_typed|].
    apply Forall2_same_length_lookup_2; [by rewrite length_replicate|].
    intros j e [] Hj _. unfold edge_typed. destruct (edge_node e); [done|].
    intros s Hs. split; [done|]. apply list_elem_of_lookup_2 in Hj. by apply (He e Hj).
  - intros e m Hin. by apply (He e Hin).
Qed.

(** Older nodes do not see newer ones. *)
Lemma flow_app (ns ext : list (Node (GradNode R R R))) fuel n g s : graph_wf ns → (n < length ns)%nat →
  flow (ns ++ ext) fuel n g s = flow ns fuel n g s.
Proof.
  intros Hwf. revert n g. induction fuel as [|fuel IH]; intros n g Hn; simpl; [done|].
  rewrite lookup_app_l by done. destruct (ns !! n) as [nd|] eqn:Hnd; [|done].
  destruct (GradNode_apply _ g) as [gs|]; [|done]. f_equal.
  assert (∀ e m, e ∈ next_edges nd → edge_node e = Some m → (m < n)%nat) as Hlt.
  { intros e m He Hm. apply Hwf. exists e. unfold edges_of. by rewrite Hnd. }
  revert gs Hlt. generalize (next_edges nd) as es.
  induction es as [|e es IHes]; intros [|og gs] Hlt; simpl; try done. f_equal.
  - destruct og, (edge_node e) as [m|] eqn:He; try done.
    assert (m < n)%nat by (eapply Hlt; [apply elem_of_cons; by left|done]). apply IH. lia.
  - apply IHes. intros. eapply Hlt; [apply elem_of_cons; by right|done].
Qed.

Lemma edge_flow_app (ns ext : list (Node (GradNode R R R))) nsl e og s : graph_wf ns →
  edge_ok (length ns) nsl e → edge_flow (ns ++ ext) e og s = edge_flow ns e og s.
Proof.
  intros Hwf [He _]. unfold edge_flow. destruct og, (edge_node e) as [m|]; try done.
  apply flow_app; [done|]. by apply He.
Qed.

Lemma default_osum (l : list (option R)) : default 0 (osum l) = foldr Rplus 0 (default 0 <$> l).
Proof.
  induction l as [|o l IH]; csimpl; [done|]. rewrite <- IH. unfold oplus.
  destruct o as [x|], (osum l) as [y|]; simpl; lra.
Qed.

(** ** The invariant of a run

    Fix an input [i] with value [x0] and let [F x] be the registers when it is
    [x]: every register's variable holds its value, and a gradient [g] arriving
    at it sends to the slot of the input [g] times its derivative. *)
Definition reg_ok (F : R → list R) (x0 : R) (i : nat) (tp : RTape) (r : nat) (v : Var) : Prop :=
  var_ok tp v ∧ cells tp !! v_data v = Some (nth r (F x0) 0) ∧
  ∃ d, derivable_pt_lim (λ x, nth r (F x) 0) x0 d ∧
       ∀ g, default 0 (edge_flow (nodes tp) (edge v) (Some g) i) = g * d.

Record run_inv (F : R → list R) (x0 : R) (i : nat) (tp : RTape) (vars : list Var) : Prop := {
  ri_length x : length (F x) = length vars;
  ri_ok : tape_ok tp;
  ri_lin : tape_lin tp;
  ri_enabled : grad_enabled tp = true;
  ri_slots s : mjoin (slots tp !! s) = None;
  ri_regs r v : vars !! r = Some v → reg_ok F x0 i tp r v
}.

(** A variable that requires no gradient does not depend on the input. *)
Lemma reg_constant F x0 i tp r v δ : reg_ok F x0 i tp r v → v_requires_grad v = false →
  derivable_pt_lim (λ x, nth r (F x) 0) x0 δ → δ = 0.
Proof.
  intros (_ & _ & d & Hd & Hflow) Hrg Hδ.
  rewrite (uniqueness_limite _ _ _ _ Hδ Hd). specialize (Hflow 1).
  unfold edge in Hflow. rewrite Hrg in Hflow. unfold edge_flow in Hflow. simpl in Hflow. lra.
Qed.

(** The tape after recording one instruction. *)
Definition push (tp : RTape) (y : R) (rg : bool) (k : GradNode R R R) (ops : list Var) : RTape :=
  mkTape (cells tp ++ [y]) (slots tp ++ [None])
    (if rg then nodes tp ++ [mkNode k (edge <$> ops)] else nodes tp) true.
Definition push_var (tp : RTape) (rg : bool) : Var :=
  mkVar (length (cells tp)) (if rg then Some (length (nodes tp)) else None) (length (slots tp)) rg.

#[local] Arguments edge_flow : simpl never.

Definition operands_of (vars : list Var) (rs : list nat) : list Var :=
  (λ r, nth r vars no_var) <$> rs.

Lemma operand_ok F x0 i tp vars r : run_inv F x0 i tp vars → (r < length vars)%nat →
  reg_ok F x0 i tp r (nth r vars no_var).
Proof.
  intros Hinv Hr. apply Hinv. rewrite nth_lookup.
  destruct (lookup_lt_is_Some_2 vars r Hr) as [v Hv]. by rewrite Hv.
Qed.

(** [oc] is what the node passes on for register [r], whose partial is [d]. *)
Definition passes (vars : list Var) (r : nat) (d : R) (oc : option R) : Prop :=
  oc = Some d ∨ oc = None ∧ v_requires_grad (nth r vars no_var) = false.

(** What a node's gradients send to the input's slot, given what its operands
    do with theirs: the chain rule. *)
Lemma operands_flow F x0 i tp vars rs ds cs δs g :
  (∀ r, r ∈ rs → reg_ok F x0 i tp r (nth r vars no_var)) →
  Forall2 (λ r δ, derivable_pt_lim (λ x, nth r (F x) 0) x0 δ) rs δs →
  Forall3 (passes vars) rs ds cs →
  foldr Rplus 0 (default 0 <$> zip_with (λ e og, edge_flow (nodes tp) e og i)
    (edge <$> operands_of vars rs) (map (scale g) cs)) = g * foldr Rplus 0 (zip_with Rmult ds δs).
Proof.
  intros Hregs Hδ Hp. revert δs Hregs Hδ.
  induction Hp as [|r d oc rs ds cs Hoc Hp IH]; intros δs' Hregs Hδ; csimpl; [ring|].
  inversion Hδ as [|? δ ? δs Hδ1 Hδ2]; subst. simpl.
  rewrite (IH δs); [|intros; apply Hregs, elem_of_cons; by right|done].
  pose proof (Hregs r ltac:(apply elem_of_cons; by left)) as Hr.
  rewrite Rmult_plus_distr_l. f_equal. destruct Hoc as [->|[-> Hrg]].
  - destruct Hr as (_ & _ & d' & Hd' & Hflow).
    change (scale g (Some d)) with (Some (g * d)). rewrite Hflow.
    rewrite (uniqueness_limite _ _ _ _ Hδ1 Hd'). ring.
  - rewrite (reg_constant F x0 i tp r _ δ Hr Hrg Hδ1). simpl. ring.
Qed.

Lemma constant_operands F x0 i tp vars rs ds δs :
  (∀ r, r ∈ rs → reg_ok F x0 i tp r (nth r vars no_var)) →
  Forall2 (λ r δ, derivable_pt_lim (λ x, nth r (F x) 0) x0 δ) rs δs →
  existsb v_requires_grad (operands_of vars rs) = false →
  foldr Rplus 0 (zip_with Rmult ds δs) = 0.
Proof.
  intros Hregs Hδ. revert ds. induction Hδ as [|r δ rs δs Hδ1 Hδ2 IH]; intros [|d ds] Hrg; simpl; try done.
  simpl in Hrg. apply orb_false_iff in Hrg as [Hr1 Hr2].
  rewrite IH; [|intros; apply Hregs, elem_of_cons; by right|done].
  rewrite (reg_constant F x0 i tp r _ δ (Hregs r ltac:(apply elem_of_cons; by left)) Hr1 Hδ1). ring.
Qed.

Section push.
Context (F : R → list R) (x0 : R) (i : nat) (tp : RTape) (vars : list Var).
Hypothesis Hinv : run_inv F x0 i tp vars.
Context (rs : list nat) (k : GradNode R R R) (h : R → R) (ds : list R) (cs : list (option R)).
Hypothesis Hrs : ∀ r, r ∈ rs → (r < length vars)%nat.
(* [h] is the value of the instruction; its partial derivatives are [ds]. *)
Hypothesis Hh : ∀ δs, Forall2 (λ r δ, derivable_pt_lim (λ x, nth r (F x) 0) x0 δ) rs δs →
  derivable_pt_lim h x0 (foldr Rplus 0 (zip_with Rmult ds δs)).
Hypothesis Hk : node_lin k cs.
Hypothesis Hcs : Forall3 (passes vars) rs ds cs.
Hypothesis Harity : ∀ a, node_arity k = Some a → length rs = a.

Let rg : bool := existsb v_requires_grad (operands_of vars rs).
Let tp' : RTape := push tp (h x0) rg k (operands_of vars rs).

Lemma push_regs r : r ∈ rs → reg_ok F x0 i tp r (nth r vars no_var).
Proof. intros Hr. by eapply operand_ok, Hrs. Qed.

Lemma push_derivatives : ∃ δs, Forall2 (λ r δ, derivable_pt_lim (λ x, nth r (F x) 0) x0 δ) rs δs.
Proof.
  pose proof push_regs as Hregs. clear Hh Hcs Hrs Harity.
  induction rs as [|r rs' IH]; [exists []; constructor|].
  destruct IH as [δs Hδ]; [intros; apply Hregs, elem_of_cons; by right|].
  destruct (Hregs r ltac:(apply elem_of_cons; by left)) as (_ & _ & δ & Hδ1 & _).
  exists (δ :: δs). by constructor.
Qed.

Lemma push_tape_ok : tape_ok tp'.
Proof.
  unfold tp', push. destruct rg; cycle 1.
  - intros n nd Hn. simpl in *. destruct (ri_ok _ _ _ _ _ Hinv n nd Hn) as [He Ha]. split; [|done].
    eapply Forall_impl; [exact He|]. intros e. apply edge_ok_le; [done|]. rewrite length_app. lia.
  - intros n nd. simpl. rewrite lookup_app_Some. intros [Hn|[Hle Hn]].
    + destruct (ri_ok _ _ _ _ _ Hinv n nd Hn) as [He Ha]. split; [|done].
      eapply Forall_impl; [exact He|]. intros e. apply edge_ok_le; [done|]. rewrite length_app. lia.
    + apply list_lookup_singleton_Some in Hn as [Heq <-].
      assert (n = length (nodes tp)) as -> by lia. split; simpl.
      * apply Forall_fmap, Forall_forall. intros v (r & -> & Hr)%list_elem_of_fmap.
        destruct (push_regs r Hr) as (Hv & _). apply edge_var_ok in Hv.
        eapply edge_ok_le; [done| |exact Hv]. rewrite length_app. lia.
      * intros a ?%Harity. unfold operands_of. by rewrite !length_fmap.
Qed.

Lemma push_tape_lin : tape_lin tp'.
Proof.
  intros n nd. unfold tp', push. destruct rg; simpl; [|apply (ri_lin _ _ _ _ _ Hinv)].
  rewrite lookup_app_Some. intros [Hn|[Hle Hn]]; [by apply (ri_lin _ _ _ _ _ Hinv n)|].
  apply list_lookup_singleton_Some in Hn as [_ <-]. exists cs. split; [done|]. simpl.
  unfold operands_of. rewrite !length_fmap. apply Forall3_length_lr in Hcs. congruence.
Qed.

(** Older variables keep their value and their gradient. *)
Lemma push_old_reg r v : reg_ok F x0 i tp r v → (r < length vars)%nat →
  reg_ok (λ x, F x ++ [h x]) x0 i tp' r v.
Proof.
  intros (Hv & Hc & d & Hd & Hflow) Hr.
  assert (∀ x, nth r (F x ++ [h x]) 0 = nth r (F x) 0) as Hn.
  { intros x. apply app_nth1. rewrite (ri_length _ _ _ _ _ Hinv). done. }
  pose proof (edge_var_ok _ _ Hv) as He.
  destruct Hv as (H1 & H2 & H3). split; [|split; [|exists d; split]].
  - unfold tp', push, var_ok. simpl. rewrite !length_app. split_and!; [lia..|].
    intros n Hf. apply H3 in Hf. destruct rg; rewrite ?length_app; lia.
  - unfold tp', push. simpl. rewrite Hn, lookup_app_l by done. done.
  - eapply derivable_pt_lim_ext; [|exact Hd]. intros x. by rewrite Hn.
  - intros g. rewrite <- Hflow. f_equal. unfold tp', push. simpl. destruct rg; [|done].
    by eapply edge_flow_app; [apply tape_ok_wf, Hinv|].
Qed.

(** The new variable. *)
Lemma push_new_reg : reg_ok (λ x, F x ++ [h x]) x0 i tp' (length vars) (push_var tp rg).
Proof.
  destruct push_derivatives as [δs Hδ].
  assert (∀ x, nth (length vars) (F x ++ [h x]) 0 = h x) as Hn.
  { intros x. rewrite app_nth2; rewrite (ri_length _ _ _ _ _ Hinv); [|lia].
    by rewrite Nat.sub_diag. }
  split; [|split; [|exists (foldr Rplus 0 (zip_with Rmult ds δs)); split]].
  - unfold tp', push, push_var, var_ok. simpl. rewrite !length_app. simpl. split_and!; [lia..|].
    intros n. destruct rg; [|done]. intros [= <-]. rewrite length_app. simpl. lia.
  - unfold tp', push. simpl. by rewrite Hn, lookup_app_r, Nat.sub_diag by lia.
  - eapply derivable_pt_lim_ext; [|by apply Hh]. intros x. by rewrite Hn.
  - intros g. pose proof push_tape_ok as Hok. pose proof push_tape_lin as Hlin.
    pose proof (real_typed _ Hok Hlin) as Hgt. unfold push_var, edge. simpl.
    destruct (rg) eqn:Hrg; simpl; cycle 1.
    { unfold edge_flow. simpl. rewrite (constant_operands F x0 i tp vars rs ds δs push_regs Hδ Hrg).
      ring. }
    unfold tp', push in *. simpl in Hok, Hlin, Hgt |- *.
    set (nd := mkNode k (edge <$> operands_of vars rs)) in *.
    unfold edge_flow. cbn [edge_node Edge_from_node].
    rewrite (flow_unfold (Sh := unit) _ _ _ _ Hgt (length (nodes tp)) nd g (map (scale g) cs)); cycle 1.
    { by rewrite lookup_app_r, Nat.sub_diag by lia. }
    { apply Hk. }
    rewrite default_osum, <- (operands_flow F x0 i tp vars rs ds cs δs g push_regs Hδ Hcs).
    f_equal. f_equal. simpl.
    assert (∀ (vs : list Var) (gs : list (option R)), Forall (var_ok tp) vs →
      zip_with (λ e og, edge_flow (nodes tp ++ [nd]) e og i) (edge <$> vs) gs =
      zip_with (λ e og, edge_flow (nodes tp) e og i) (edge <$> vs) gs) as Hz.
    { intros vs gs Hvs. revert gs. induction Hvs as [|v vs Hv Hvs IH]; intros [|og gs]; csimpl; try done.
      rewrite IH. f_equal. eapply edge_flow_app; [apply tape_ok_wf, Hinv|by apply edge_var_ok]. }
    apply Hz. apply Forall_forall. intros v (r & -> & Hr)%list_elem_of_fmap. by apply push_regs.
Qed.

Lemma push_inv : run_inv (λ x, F x ++ [h x]) x0 i tp' (vars ++ [push_var tp rg]).
Proof.
  constructor.
  - intros x. by rewrite !length_app, (ri_length _ _ _ _ _ Hinv).
  - apply push_tape_ok.
  - apply push_tape_lin.
  - done.
  - intros s. unfold tp', push. simpl. destruct (decide (s < length (slots tp))%nat).
    + rewrite lookup_app_l by done. by apply Hinv.
    + rewrite lookup_app_r by lia. by destruct (s - length (slots tp))%nat.
  - intros r v. rewrite lookup_app_Some. intros [Hv|[Hle Hv]].
    + apply push_old_reg; [by apply Hinv|]. by apply lookup_lt_Some in Hv.
    + apply list_lookup_singleton_Some in Hv as [Heq <-].
      assert (r = length vars) as -> by lia. apply push_new_reg.
Qed.

End push.

(** ** Running one instruction *)

Lemma unary_run op f k v tp x y : grad_enabled tp = true → cells tp !! v_data v = Some x →
  f x = Some y →
  unary (T := R) op f k v tp =
    Ok (push_var tp (v_requires_grad v), push tp y (v_requires_grad v) (k x y) [v]).
Proof.
  intros He Hx Hf. unfold unary, tbind, tensor. rewrite Hx. simpl. unfold call. simpl. rewrite Hf. simpl.
  unfold record, tbind, Variable_new, alloc, is_grad_enabled, push, push_var. simpl. rewrite He. simpl.
  by destruct (v_requires_grad v).
Qed.

Lemma binary_run op f k l r tp x y z : grad_enabled tp = true → cells tp !! v_data l = Some x →
  cells tp !! v_data r = Some y → f x y = Some z →
  binary (T := R) op f k l r tp =
    Ok (push_var tp (v_requires_grad l || v_requires_grad r),
        push tp z (v_requires_grad l || v_requires_grad r) (k x y Cpu) [l; r]).
Proof.
  intros He Hx Hy Hf. unfold binary, require_same_device_2, tbind, tensor.
  repeat (rewrite ?Hx, ?Hy; simpl). unfold call. simpl. rewrite Hf. simpl.
  unfold record, tbind, Variable_new, alloc, is_grad_enabled, push, push_var. simpl. rewrite He. simpl.
  by destruct (v_requires_grad l || v_requires_grad r).
Qed.

Lemma mse_run (mean : bool) l r tp x y : grad_enabled tp = true → cells tp !! v_data l = Some x →
  cells tp !! v_data r = Some y →
  mse_loss (T := R) l r (if mean then RMean else RSum) tp =
    Ok (push_var tp (v_requires_grad l || v_requires_grad r),
        push tp ((x - y) * (x - y)) (v_requires_grad l || v_requires_grad r)
          (MseBackward (x - y) 1 (if mean then RMean else RSum) Cpu (v_requires_grad l) (v_requires_grad r))
          [l; r]).
Proof.
  intros He Hx Hy. unfold mse_loss, require_same_device_2, tbind, tensor.
  repeat (rewrite ?Hx, ?Hy; simpl).
  unfold Variable_new, alloc, is_grad_enabled, push, push_var. simpl. rewrite He. simpl.
  by destruct (v_requires_grad l || v_requires_grad r).
Qed.

(** The operation of the instruction computes its function, and the node it
    records multiplies by the partial derivative. *)
Lemma un_run u v tp x : grad_enabled tp = true → cells tp !! v_data v = Some x → un_smooth u x →
  ∃ k, run_op (un_call u v) tp =
         Ok (push_var tp (v_requires_grad v), push tp (un_fun u x) (v_requires_grad v) k [v]) ∧
       node_lin k [Some (un_der u x)] ∧ node_arity k = Some 1%nat.
Proof.
  intros He Hx Hs.
  destruct u; simpl in Hs |- *;
    (eexists; split; [eapply unary_run; [exact He|exact Hx|]|split; [intros g|reflexivity]]);
    try reflexivity;
    simpl; unfold NegBackward_apply, ReluBackward_apply, SigmoidBackward_apply, TanhBackward_apply,
      SumBackward_apply, MeanBackward_apply, SiluBackward_apply, ExpBackward_apply, LogBackward_apply,
      SqrtBackward_apply, AbsBackward_apply, LeakyReluBackward_apply, PowScalarBackward_apply;
    simpl; do 2 f_equal.
  - f_equal. ring.
  - unfold R_gt, Rmax. destruct (Rlt_dec 0 x), (Rle_dec 0 x); try done; lra.
  - f_equal. unfold R_gt. by destruct (Rlt_dec 0 x).
  - f_equal. ring.
  - f_equal. field.
  - f_equal. unfold R_gt. destruct (Rlt_dec 0 x), (Rlt_dec x 0); lra.
  - unfold R_gt. by destruct (Rlt_dec 0 x).
  - f_equal. unfold R_gt. by destruct (Rlt_dec 0 x).
Qed.

Lemma list2_eq {A} (a b c d : A) : a = c → b = d → [a; b] = [c; d].
Proof. by intros -> ->. Qed.

Lemma bin_run b l r tp x y : grad_enabled tp = true → cells tp !! v_data l = Some x →
  cells tp !! v_data r = Some y → bin_smooth b y →
  ∃ k cs, run_op (bin_call b l r) tp =
         Ok (push_var tp (v_requires_grad l || v_requires_grad r),
             push tp (bin_fun b x y) (v_requires_grad l || v_requires_grad r) k [l; r]) ∧
       node_lin k cs ∧ node_arity k = Some 2%nat ∧
       Forall3 (λ v d oc, oc = Some d ∨ oc = None ∧ v_requires_grad v = false)
         [l; r] [(bin_der b x y).1; (bin_der b x y).2] cs.
Proof.
  intros He Hx Hy Hs.
  assert (∀ d1 d2 : R, Forall3 (λ v (d : R) oc, oc = Some d ∨ oc = None ∧ v_requires_grad v = false)
    [l; r] [d1; d2] [Some d1; Some d2]) as Hboth.
  { intros. constructor; [by left|]. constructor; [by left|constructor]. }
  destruct b as [| | | |mean]; simpl in Hs.
  1-4: eexists _, [Some _; Some _];
    (split; [by eapply binary_run; [exact He|exact Hx|exact Hy|]|]);
    (split; [intros g|split; [reflexivity|apply Hboth]]); simpl;
    unfold AddBackward_apply, SubBackward_apply, MulBackward_apply, DivBackward_apply; simpl.
  - by rewrite !Rmult_1_r.
  - do 2 f_equal; [f_equal; ring|do 2 f_equal; ring].
  - done.
  - do 4 f_equal. field. done.
  - eexists _, [if v_requires_grad l then Some (2 * (x - y)) else None;
                if v_requires_grad r then Some (-2 * (x - y)) else None].
    split; [by apply mse_run|]. split; [|split; [reflexivity|]].
    + intros g. simpl. unfold MseBackward_apply. simpl.
      destruct mean; simpl; destruct (v_requires_grad l), (v_requires_grad r); simpl;
        apply (f_equal Some), list2_eq; try reflexivity; simpl; f_equal; field.
    + simpl. constructor; [destruct (v_requires_grad l); auto|].
      constructor; [destruct (v_requires_grad r); auto|constructor].
Qed.

(** ** Running a program *)

Lemma Forall2_2 {A B} (P : A → B → Prop) a b l : Forall2 P [a; b] l → ∃ x y, l = [x; y] ∧ P a x ∧ P b y.
Proof.
  intros H. inversion H as [|? x ? l' H1 H2]; subst.
  inversion H2 as [|? y ? l'' H3 H4]; subst. inversion H4; subst. eauto.
Qed.

Lemma run_instr_inv F x0 i tp vars ins : run_inv F x0 i tp vars → instr_ok ins (F x0) →
  ∃ v tp', run_instr ins vars tp = Ok (v, tp') ∧
    run_inv (λ x, F x ++ [instr_fun ins (F x)]) x0 i tp' (vars ++ [v]).
Proof.
  intros Hinv. destruct ins as [u r|b r1 r2]; simpl; rewrite (ri_length _ _ _ _ _ Hinv).
  - intros [Hr Hs]. destruct (operand_ok _ _ _ _ _ r Hinv Hr) as (_ & Hc & _).
    destruct (un_run u _ tp _ (ri_enabled _ _ _ _ _ Hinv) Hc Hs) as (k & Hrun & Hk & Ha).
    eexists _, _. split; [exact Hrun|].
    pose proof (push_inv F x0 i tp vars Hinv [r] k (λ x, un_fun u (nth r (F x) 0))
      [un_der u (nth r (F x0) 0)] [Some (un_der u (nth r (F x0) 0))]) as H.
    simpl in H. rewrite orb_false_r in H. apply H; clear H.
    + intros r' ->%list_elem_of_singleton. done.
    + intros δs Hδ. inversion Hδ as [|? δ ? δs' H1 H2]; subst. inversion H2; subst. simpl.
      rewrite Rplus_0_r. apply (derive_comp (λ x, nth r (F x) 0) (un_fun u)); [done|by apply un_derive].
    + done.
    + constructor; [by left|constructor].
    + intros a. rewrite Ha. by intros [= <-].
  - intros (Hr1 & Hr2 & Hs).
    destruct (operand_ok _ _ _ _ _ r1 Hinv Hr1) as (_ & Hc1 & _).
    destruct (operand_ok _ _ _ _ _ r2 Hinv Hr2) as (_ & Hc2 & _).
    destruct (bin_run b _ _ tp _ _ (ri_enabled _ _ _ _ _ Hinv) Hc1 Hc2 Hs)
      as (k & cs & Hrun & Hk & Ha & Hcs).
    eexists _, _. split; [exact Hrun|].
    pose proof (push_inv F x0 i tp vars Hinv [r1; r2] k
      (λ x, bin_fun b (nth r1 (F x) 0) (nth r2 (F x) 0))
      [(bin_der b (nth r1 (F x0) 0) (nth r2 (F x0) 0)).1;
       (bin_der b (nth r1 (F x0) 0) (nth r2 (F x0) 0)).2] cs) as H.
    simpl in H. rewrite orb_false_r in H. apply H; clear H.
    + intros r' [->|[->|[]%elem_of_nil]%elem_of_cons]%elem_of_cons; done.
    + intros δs (d & e & -> & Hd & He)%Forall2_2. simpl. rewrite Rplus_0_r.
      exact (bin_derive b (λ x, nth r1 (F x) 0) (λ x, nth r2 (F x) 0) x0 d e Hs Hd He).
    + done.
    + inversion Hcs as [|? ? ? ? ? ? P1 H1]; subst. inversion H1 as [|? ? ? ? ? ? P2 H2]; subst.
      inversion H2; subst. constructor; [done|]. constructor; [done|constructor].
    + intros a. rewrite Ha. by intros [= <-].
Qed.

Lemma run_program_inv p F x0 i tp vars : run_inv F x0 i tp vars → smooth p (F x0) →
  ∃ vars' tp', run p vars tp = Ok (vars', tp') ∧ vars `prefix_of` vars' ∧
    run_inv (λ x, eval p (F x)) x0 i tp' vars'.
Proof.
  revert F tp vars. induction p as [|ins p IH]; intros F tp vars Hinv; simpl.
  { intros _. by eexists _, _. }
  intros [Hok Hs]. destruct (run_instr_inv _ _ _ _ _ ins Hinv Hok) as (v & tp1 & Hrun & Hinv1).
  destruct (IH _ _ _ Hinv1 Hs) as (vars' & tp' & Hrun' & Hpre & Hinv').
  exists vars', tp'. split; [unfold tbind; by rewrite Hrun|]. split; [|done].
  etrans; [|exact Hpre]. by apply prefix_app_r.
Qed.

(** The leaves of the inputs. *)
Definition leaf_vars (n : nat) (inputs : list (R * bool)) : list Var :=
  imap (λ j '(_, rg), mkVar (n + j) None (n + j) rg) inputs.
Definition leaf_tape (inputs : list (R * bool)) : RTape :=
  mkTape inputs.*1 (replicate (length inputs) None) [] true.

Lemma leaves_run inputs tp : length (cells tp) = length (slots tp) →
  leaves inputs tp = Ok (leaf_vars (length (cells tp)) inputs,
    mkTape (cells tp ++ inputs.*1) (slots tp ++ replicate (length inputs) None) (nodes tp) (grad_enabled tp)).
Proof.
  unfold leaf_vars. revert tp. induction inputs as [|[x rg] inputs IH]; intros tp Hl; simpl.
  { unfold tret. rewrite !app_nil_r. by destruct tp. }
  unfold tbind, alloc. rewrite IH by (simpl; rewrite !length_app; simpl; lia). simpl.
  unfold tret. rewrite <- !app_assoc, length_app. simpl. do 3 f_equal.
  - f_equal; lia.
  - apply imap_ext. intros j [y b] _. simpl. f_equal; lia.
Qed.

Lemma leaves_inv inputs i x0 :
  (∀ y b, inputs !! i = Some (y, b) → y = x0 ∧ b = true) →
  run_inv (λ x, <[i := x]> inputs.*1) x0 i (leaf_tape inputs) (leaf_vars 0 inputs).
Proof.
  intros Hi. unfold leaf_tape, leaf_vars. constructor; simpl.
  - intros x. by rewrite length_insert, length_fmap, length_imap.
  - intros n nd Hn. simpl in Hn. by rewrite lookup_nil in Hn.
  - intros n nd Hn. simpl in Hn. by rewrite lookup_nil in Hn.
  - done.
  - intros s. destruct (replicate _ _ !! s) as [o|] eqn:Ho; [|done].
    by apply lookup_replicate in Ho as [-> _].
  - intros r v. rewrite list_lookup_imap. destruct (inputs !! r) as [[y b]|] eqn:Hr; [|done].
    intros [= <-]. pose proof (lookup_lt_Some _ _ _ Hr) as Hlt. unfold reg_ok, var_ok. simpl.
    rewrite length_fmap, length_replicate. split; [by split_and!|]. split.
    + rewrite nth_lookup. destruct (decide (r = i)) as [->|Hne].
      * destruct (Hi y b Hr) as [-> _].
        rewrite list_lookup_insert_eq by (by rewrite length_fmap). simpl.
        by rewrite list_lookup_fmap, Hr.
      * rewrite list_lookup_insert_ne by done. by rewrite list_lookup_fmap, Hr.
    + destruct (decide (r = i)) as [->|Hne].
      * destruct (Hi y b Hr) as [-> ->]. exists 1. split.
        -- eapply derivable_pt_lim_ext; [|apply derivable_pt_lim_id]. intros x. unfold id.
           rewrite nth_lookup, list_lookup_insert_eq by (by rewrite length_fmap). done.
        -- intros g. unfold edge_flow. simpl. rewrite decide_True by done. simpl. ring.
      * exists 0. split.
        -- eapply derivable_pt_lim_ext; [|apply (derivable_pt_lim_const y)]. intros x. unfold fct_cte.
           rewrite nth_lookup, list_lookup_insert_ne by done. by rewrite list_lookup_fmap, Hr.
        -- intros g. unfold edge_flow, edge. simpl. destruct b; simpl; [|ring].
           rewrite decide_False by congruence. simpl. ring.
Qed.

Lemma backward_run (inputs : list (R * bool)) p o vars tp out i x0 :
  run_inv (λ x, eval p (<[i := x]> inputs.*1)) x0 i tp vars → vars !! o = Some out →
  v_grad_fn out ≠ None → v_requires_grad out = true →
  ∃ tp', backward out None tp = (tp', Ok tt) ∧
    derivable_pt_lim (λ x, nth o (eval p (<[i := x]> inputs.*1)) 0) x0
      (default 0 (mjoin (slots tp' !! i))).
Proof.
  intros Hinv Hout Hfn Hrg. pose proof (ri_regs _ _ _ _ _ Hinv o out Hout) as (Hv & Hc & d & Hd & Hflow).
  destruct (v_grad_fn out) as [root|] eqn:Hroot; [|done].
  pose proof (real_typed tp (ri_ok _ _ _ _ _ Hinv) (ri_lin _ _ _ _ _ Hinv)) as Hgt.
  destruct (backward_correct (Sh := unit) (λ _, tt) (λ _, tt) tp out None root 1)
    as (sl & Hb & _ & _ & Hs).
  - split; [done|]. intros s x _. by destruct (tshape x).
  - done.
  - by apply Hv.
  - right. split; [done|]. by exists (nth o (eval p (<[i:=x0]> inputs.*1)) 0).
  - done.
  - eexists. split; [exact Hb|]. simpl. rewrite Hs, (ri_slots _ _ _ _ _ Hinv).
    specialize (Hflow 1). unfold edge in Hflow. rewrite Hrg, Hroot in Hflow.
    unfold edge_flow in Hflow. cbn [edge_node Edge_from_node] in Hflow.
    change (oplus None ?x) with x. rewrite Hflow, Rmult_1_l. exact Hd.
Qed.

(** ** Properties *)

(** C2: [backward] computes derivatives.  Take a program of the element-wise
    operations (add, sub, mul, div, mse_loss, neg, relu, sigmoid, tanh, sum,
    mean, silu, exp, log, sqrt, abs, leaky_relu, pow_scalar) over real scalars,
    on existing registers, in which every operation is applied where it is
    differentiable (denominators and the arguments of relu, abs and leaky_relu are
    not 0, those of log, sqrt and pow positive).  Run with the library from fresh
    leaves it does not fail and leaves in every variable the value of its
    expression; [backward] from any result that tracks gradients succeeds, and the
    gradient slot of every input that requires one holds exactly the partial
    derivative of that result with respect to that input, registers being shared
    in any way. *)
Theorem backward_derivative (inputs : list (R * bool)) (p : list Instr) :
  smooth p inputs.*1 →
  ∃ vars tp, (do! vs := leaves inputs in run p vs) empty_tape = Ok (vars, tp) ∧
    (∀ i x0 rg, inputs !! i = Some (x0, rg) → vars !! i = Some (mkVar i None i rg)) ∧
    (∀ r v, vars !! r = Some v → cells tp !! v_data v = Some (nth r (eval p inputs.*1) 0)) ∧
    ∀ o out, vars !! o = Some out → v_requires_grad out = true → v_grad_fn out ≠ None →
    ∃ tp', backward out None tp = (tp', Ok tt) ∧
      ∀ i x0, inputs !! i = Some (x0, true) →
        derivable_pt_lim (λ x, nth o (eval p (<[i := x]> inputs.*1)) 0) x0
          (default 0 (raw_grad (mkVar i None i true) tp')).
Proof.
  intros Hs.
  assert (∀ i x0, (∀ y b, inputs !! i = Some (y, b) → y = x0 ∧ b = true) →
    ∃ vars tp, run p (leaf_vars 0 inputs) (leaf_tape inputs) = Ok (vars, tp) ∧
      leaf_vars 0 inputs `prefix_of` vars ∧
      run_inv (λ x, eval p (<[i := x]> inputs.*1)) x0 i tp vars) as Hrun.
  { intros i x0 Hi. apply (run_program_inv p (λ x, <[i := x]> inputs.*1)); [by apply leaves_inv|].
    assert (<[i := x0]> inputs.*1 = inputs.*1) as ->; [|done].
    destruct (inputs !! i) as [[y b]|] eqn:Hy.
    - destruct (Hi y b eq_refl) as [-> _]. apply list_insert_id. by rewrite list_lookup_fmap, Hy.
    - apply list_insert_ge. rewrite length_fmap. by apply lookup_ge_None. }
  destruct (Hrun (length inputs) 0) as (vars & tp & Hr & Hpre & Hinv0).
  { intros y b Hy. apply lookup_lt_Some in Hy. lia. }
  exists vars, tp. split.
  { unfold tbind. rewrite leaves_run by done. exact Hr. }
  split; [|split].
  - intros i x0 rg Hi. eapply prefix_lookup_Some; [|exact Hpre].
    unfold leaf_vars. by rewrite list_lookup_imap, Hi.
  - intros r v Hv. destruct (ri_regs _ _ _ _ _ Hinv0 r v Hv) as (_ & Hc & _). rewrite Hc.
    rewrite list_insert_ge; [done|]. by rewrite length_fmap.
  - intros o out Hout Hrg Hfn.
    destruct (backward_run inputs p o vars tp out (length inputs) 0 Hinv0 Hout Hfn Hrg) as (tp' & Hb & _).
    exists tp'. split; [done|]. intros i x0 Hi.
    destruct (Hrun i x0) as (vars1 & tp1 & Hr1 & _ & Hinv1).
    { intros y b. rewrite Hi. by intros [= -> ->]. }
    rewrite Hr in Hr1. injection Hr1 as <- <-.
    destruct (backward_run inputs p o vars tp out i x0 Hinv1 Hout Hfn Hrg) as (tp2 & Hb2 & Hd).
    rewrite Hb in Hb2. injection Hb2 as <-. exact Hd.
Qed.

(** [y = x * x * c] with a shared factor and a constant, at [x = 3], [c = 2]. *)
Lemma backward_derivative_witness :
  ∃ vars tp out tp', (do! vs := leaves [(3, true); (2, false)] in
      run [IBin BMul 0 0; IBin BMul 2 1; IUn UExp 3] vs) empty_tape = Ok (vars, tp) ∧
    vars !! 4%nat = Some out ∧ backward out None tp = (tp', Ok tt) ∧
    derivable_pt_lim (λ x, Rtrigo_def.exp (x * x * 2)) 3
      (default 0 (raw_grad (mkVar 0 None 0 true) tp')).
Proof.
  destruct (backward_derivative [(3, true); (2, false)] [IBin BMul 0 0; IBin BMul 2 1; IUn UExp 3])
    as (vars & tp & Hrun & _ & _ & Hb).
  { simpl. repeat split; lia. }
  pose proof Hrun as Hrun'. vm_compute in Hrun'. injection Hrun' as Hvars _.
  assert (vars !! 4%nat = Some (mkVar 4 (Some 2%nat) 4 true)) as Ho by by rewrite <- Hvars.
  destruct (Hb 4%nat _ Ho eq_refl ltac:(done)) as (tp' & Hbw & Hd).
  exists vars, tp, (mkVar 4 (Some 2%nat) 4 true), tp'. split; [exact Hrun|]. split; [exact Ho|]. split; [exact Hbw|].
  exact (Hd 0%nat 3 eq_refl).
Defined.
