(* ===== verification/Safetensors.v ===== *)
(** * Safetensors files (crates/rustorch-serde/src/safetensors.rs)

    The writer and the reader over an in-memory sink and source.  A
    [BTreeMap<String, V>] is the list of its entries in ascending order of the
    keys (byte order).  The JSON codec (serde_json) is not part of the source:
    its two directions are parameters, and [json_ok] states that reading what
    was written gives it back. *)

From Stdlib Require Import ZArith Lia.
From stdpp Require Import base list gmap strings sorting.
From S2P Require Import Prelude Dtype Shape Layout Storage Tensor.

(** ** Ordered maps *)
Notation BTreeMap V := (list (string * V)).

Fixpoint btree_insert {V} (k : string) (v : V) (m : BTreeMap V) : BTreeMap V :=
  match m with
  | [] => [(k, v)]
  | (k', v') :: m' =>
      match String.compare k k' with
      | Lt => (k, v) :: m
      | Eq => (k, v) :: m'
      | Gt => (k', v') :: btree_insert k v m'
      end
  end.

(** The keys ascend. *)
Definition btree_wf {V} (m : BTreeMap V) : Prop :=
  StronglySorted (λ a b, String.compare a b = Lt) m.*1.

(** [enum SafetensorsError]; texts are left out. *)
Inductive SafetensorsError :=
  | Io
  | Json
  | UnsupportedDtype (s : string)
  | InvalidHeader
  | SizeMismatch (name : string) (expected got : Z).

(** [dtype_to_str], [dtype_from_str] *)
Definition dtype_to_str (d : Dtype) : string :=
  match d with
  | F32 => "F32" | F64 => "F64" | F16 => "F16" | BF16 => "BF16"
  | I64 => "I64" | I32 => "I32" | I8 => "I8" | DBool => "BOOL"
  end.

Definition dtype_from_str (s : string) : res SafetensorsError Dtype :=
  if decide (s = "F32"%string) then Ok F32
  else if decide (s = "F64"%string) then Ok F64
  else if decide (s = "F16"%string) then Ok F16
  else if decide (s = "BF16"%string) then Ok BF16
  else if decide (s = "I64"%string) then Ok I64
  else if decide (s = "I32"%string) then Ok I32
  else if decide (s = "I8"%string) then Ok I8
  else if decide (s = "BOOL"%string) then Ok DBool
  else Err (UnsupportedDtype s).

(** [struct HeaderEntry] *)
Record HeaderEntry := mkHeaderEntry {
  he_dtype : string;
  he_shape : list Z;
  he_start : Z;
  he_end : Z
}.

Section codec.
Context (oom : Z → bool) (junk : Z → Z → list Z).
Context (json_to_string : BTreeMap HeaderEntry → option (list Z)).
Context (json_from_slice : list Z → option (BTreeMap HeaderEntry)).

(** ** Writer *)

Definition nbytes (t : Tensor) : Z := wrap 64 (t_numel t * Dtype_byte_size (t_dtype t)).

(** The loop that lays the tensors out: the header and the cursor. *)
Definition header_step (st : BTreeMap HeaderEntry * Z) (e : string * Tensor)
    : BTreeMap HeaderEntry * Z :=
  let '(header, cursor) := st in
  let '(name, t) := e in
  let end_ := wrap 64 (cursor + nbytes t) in
  (btree_insert name (mkHeaderEntry (dtype_to_str (t_dtype t)) (t_shape t) cursor end_) header, end_).

Definition write_header (tensors : BTreeMap Tensor) : BTreeMap HeaderEntry :=
  (foldl header_step ([], 0) tensors).1.

(** The bytes written for a tensor: the first [nbytes] of its storage. *)
Definition write_tensor (w : World) (t : Tensor) : res SafetensorsError (list Z) :=
  slice_range (as_bytes w (t_storage t)) 0 (nbytes t).

(** [write_to] *)
Definition write_to (w : World) (tensors : BTreeMap Tensor) : res SafetensorsError (list Z) :=
  let header := write_header tensors in
  let? header_bytes := ok_or Json (json_to_string header) in
  let? blocks := rmapM (write_tensor w) tensors.*2 in
  Ok (le_encode 8 (Z.of_nat (length header_bytes)) ++ header_bytes ++ concat blocks).

(** ** Reader *)

(** [read_exact] of [n] bytes, and what is left. *)
Definition read_exact (n : Z) (src : list Z) : res SafetensorsError (list Z * list Z) :=
  if Z.of_nat (length src) <? n then Err Io
  else Ok (take (Z.to_nat n) src, drop (Z.to_nat n) src).

(** [build_tensor_from_bytes]: [chunks_exact] and [from_le_bytes]. *)
Definition build_tensor_from_bytes (w : World) (shape : list Z) (dtype : Dtype) (bytes : list Z)
    : res SafetensorsError (World * Tensor) :=
  let build (T : Dtype) (v : list Z) :=
    map_err (λ _, InvalidHeader) (from_vec_typed oom junk w T shape v) in
  match dtype with
  | F32 => build F32 (typed_slice 4 bytes)
  | F64 => build F64 (typed_slice 8 bytes)
  | I64 => build I64 (typed_slice 8 bytes)
  | I32 => build I32 (typed_slice 4 bytes)
  | I8 => build I8 bytes
  | DBool => build DBool ((λ b, if b =? 0 then 0 else 1) <$> bytes)
  | F16 | BF16 => Err (UnsupportedDtype (dtype_to_str dtype))
  end.

(** One entry of the loop of [read_from]. *)
Definition read_entry (binary : list Z) (st : World * BTreeMap Tensor) (e : string * HeaderEntry)
    : res SafetensorsError (World * BTreeMap Tensor) :=
  let '(w, out) := st in
  let '(name, entry) := e in
  let? dtype := dtype_from_str (he_dtype entry) in
  let start := he_start entry in
  let end_ := he_end entry in
  if (Z.of_nat (length binary) <? end_) || (end_ <? start) then Err InvalidHeader
  else
    let? slice := slice_range binary start end_ in
    let numel := product_u 64 (he_shape entry) in
    let expected_bytes := wrap 64 (numel * Dtype_byte_size dtype) in
    if negb (Z.of_nat (length slice) =? expected_bytes) then
      Err (SizeMismatch name expected_bytes (Z.of_nat (length slice)))
    else
      let? (w, t) := build_tensor_from_bytes w (he_shape entry) dtype slice in
      Ok (w, btree_insert name t out).

(** [read_from] *)
Definition read_from (w : World) (src : list Z) : res SafetensorsError (World * BTreeMap Tensor) :=
  let? (size_buf, src) := read_exact 8 src in
  let header_size := le_decode size_buf in
  if 100000000 <? header_size then Err InvalidHeader
  else
    let? (header_bytes, binary) := read_exact header_size src in
    let? header := ok_or Json (json_from_slice header_bytes) in
    rfold (read_entry binary) (w, []) header.

End codec.

(** ** Lemmas *)

Lemma btree_insert_last {V} (m : BTreeMap V) k v :
  Forall (λ k', String.compare k' k = Lt) m.*1 → btree_insert k v m = m ++ [(k, v)].
Proof.
  induction m as [|[k' v'] m IH]; csimpl; [done|]. intros [Hk Hm]%Forall_cons.
  rewrite String.compare_antisym, Hk. simpl. by rewrite IH.
Qed.

Lemma btree_wf_before {V} (m1 m2 : BTreeMap V) k v :
  btree_wf (m1 ++ (k, v) :: m2) → Forall (λ k', String.compare k' k = Lt) m1.*1.
Proof.
  unfold btree_wf. rewrite fmap_app. csimpl. intros H. apply Forall_forall. intros k' Hk'.
  apply (StronglySorted_app_1_elem_of (λ a b, String.compare a b = Lt) _ _ k' k H); [done|].
  apply elem_of_cons. by left.
Qed.

(** *** Bytes and elements *)

Lemma typed_slice_cons k bytes : (0 < k)%nat → (k ≤ length bytes)%nat →
  typed_slice k bytes = le_decode (take k bytes) :: typed_slice k (drop k bytes).
Proof.
  intros Hk Hl. unfold typed_slice. rewrite length_drop.
  replace (length bytes / k)%nat with (S ((length bytes - k) / k)); cycle 1.
  { replace (length bytes) with ((length bytes - k) + 1 * k)%nat at 2 by lia.
    rewrite Nat.div_add by lia. lia. }
  rewrite <- cons_seq. csimpl. f_equal.
  rewrite <- fmap_S_seq, <- list_fmap_compose. apply list_fmap_ext. intros i x _. simpl.
  unfold elem_at. rewrite drop_drop. do 3 f_equal. 
Qed.

Lemma take_encode_typed k n bytes : (0 < k)%nat → Forall is_byte bytes → (n * k ≤ length bytes)%nat →
  take (n * k) bytes = encode_elems k (take n (typed_slice k bytes)).
Proof.
  intros Hk. revert bytes. induction n as [|n IH]; intros bytes Hb Hl; [done|].
  rewrite typed_slice_cons by lia. unfold encode_elems. csimpl.
  fold (encode_elems k (take n (typed_slice k (drop k bytes)))).
  rewrite <- IH by (try apply Forall_drop; try rewrite length_drop; done || lia).
  assert (length (take k bytes) = k) as Hlk by (rewrite length_take; lia).
  assert (le_encode k (le_decode (take k bytes)) = take k bytes) as ->.
  { rewrite <- Hlk at 1. by apply le_encode_decode, Forall_take. }
  replace (S n * k)%nat with (k + n * k)%nat by lia. symmetry. apply take_take_drop.
Qed.

Lemma encode_elems_1 data : elems_wf I8 data → encode_elems 1 data = data.
Proof.
  unfold elems_wf, encode_elems. induction 1 as [|x data Hx _ IH]; [done|].
  rewrite bind_cons, IH. simpl. f_equal. by apply Z.mod_small.
Qed.

(** ** Specification *)

(** The tensors the format carries: read front to back from the start of their
    storage, of a dtype the reader builds, booleans being 0 or 1. *)
Record portable (w : World) (t : Tensor) : Prop := {
  po_wf : tensor_wf w t;
  po_contiguous : t_is_contiguous t = true;
  po_offset : l_offset (t_layout t) = 0;
  po_dtype : t_dtype t ≠ F16 ∧ t_dtype t ≠ BF16;
  po_bool : t_dtype t = DBool → Forall (λ x, x = 0 ∨ x = 1) (shape_order w t);
  po_fits : zprod (t_shape t) * Dtype_byte_size (t_dtype t) ≤ 2 ^ 63 - CPU_ALIGN
}.

(** [t'] in [w'] is [t] in [w] again. *)
Definition same_tensor (w : World) (t : Tensor) (w' : World) (t' : Tensor) : Prop :=
  tensor_wf w' t' ∧ t_layout t' = Layout_contiguous (t_shape t) (t_dtype t) ∧
  shape_order w' t' = shape_order w t.

(** The bytes of a tensor in the file, and their number. *)
Definition block (w : World) (t : Tensor) : list Z :=
  encode_elems (elem_size (t_dtype t)) (shape_order w t).
Definition block_len (t : Tensor) : Z := zprod (t_shape t) * Dtype_byte_size (t_dtype t).
Definition blocks_len (ts : BTreeMap Tensor) : Z := zsum (block_len <$> ts.*2).

(** The header of a list of tensors laid out from [c]. *)
Fixpoint header_from (c : Z) (ts : BTreeMap Tensor) : BTreeMap HeaderEntry :=
  match ts with
  | [] => []
  | (name, t) :: ts =>
      (name, mkHeaderEntry (dtype_to_str (t_dtype t)) (t_shape t) c (c + block_len t))
        :: header_from (c + block_len t) ts
  end.

Lemma portable_nbytes w t : portable w t → nbytes t = block_len t ∧ 0 ≤ block_len t.
Proof.
  intros [Hwf _ _ _ _ Hf]. unfold nbytes, block_len, CPU_ALIGN in *.
  rewrite (t_numel_fits w t Hwf). destruct Hwf as (_ & _ & Hl & _).
  pose proof (shape_fits_prod _ (li_fits _ _ Hl)) as Hp. fold (t_shape t) in Hp.
  pose proof (byte_size_pos (t_dtype t)). split; [|nia]. apply wrap_small. unfold uint. nia.
Qed.

Lemma length_block w t : portable w t → Z.of_nat (length (block w t)) = block_len t.
Proof.
  intros Hp. pose proof (portable_nbytes w t Hp) as [_ Hpos]. destruct Hp as [(_ & _ & Hl & _) _ _ _ _ _].
  pose proof (shape_fits_prod _ (li_fits _ _ Hl)) as Hp. fold (t_shape t) in Hp.
  unfold block, block_len. rewrite length_encode_elems, length_shape_order, Nat2Z.inj_mul, elem_size_Z, Z2Nat.id by lia.
  done.
Qed.

Lemma write_tensor_spec w t : portable w t → write_tensor w t = Ok (block w t).
Proof.
  intros Hp. pose proof (portable_nbytes w t Hp) as [Hn Hpos].
  pose proof Hp as [Hwf Hc Ho _ _ _]. pose proof Hwf as (Hw & Hh & Hl & Hb).
  pose proof (as_slice_spec w t Hwf Hc Ho) as Hs. unfold as_slice in Hs.
  rewrite bool_decide_eq_true_2, Hc, Ho in Hs by done. simpl in Hs.
  rewrite (t_numel_fits w t Hwf) in Hs.
  pose proof (shape_fits_prod _ (li_fits _ _ Hl)) as Hpr. fold (t_shape t) in Hpr.
  destruct (bool_decide _ && _); [discriminate|].
  destruct (Z.ltb_spec (Z.of_nat (length (typed_slice (elem_size (t_dtype t))
    (as_bytes w (t_storage t))))) (zprod (t_shape t))) as [|Hge]; [discriminate|].
  injection Hs as Hs. rewrite length_typed_slice in Hge.
  pose proof (elem_size_pos (t_dtype t)) as Hk. pose proof (elem_size_Z (t_dtype t)) as Hkz.
  assert (Z.to_nat (zprod (t_shape t)) * elem_size (t_dtype t) ≤ length (as_bytes w (t_storage t)))%nat
    as Hlen.
  { pose proof (Nat.Div0.mul_div_le (length (as_bytes w (t_storage t))) (elem_size (t_dtype t))). nia. }
  unfold write_tensor, slice_range. rewrite Hn.
  rewrite (proj2 (Z.ltb_ge _ _)) by done.
  assert (Z.to_nat (block_len t) = Z.to_nat (zprod (t_shape t)) * elem_size (t_dtype t))%nat as Hbl.
  { unfold block_len. rewrite <- Hkz, Z2Nat.inj_mul, Nat2Z.id by lia. done. }
  rewrite (proj2 (Z.ltb_ge _ _)); cycle 1.
  { unfold block_len in *. rewrite <- Hkz. nia. }
  simpl. rewrite Z.sub_0_r, drop_0, Hbl, take_encode_typed by done.
  unfold block. by rewrite <- Hs.
Qed.

(** The layout loop. *)
Lemma write_header_from w pre ts c :
  btree_wf (pre ++ ts) → Forall (portable w) ts.*2 → 0 ≤ c → c + blocks_len ts < 2 ^ 63 →
  ∀ h, h.*1 = pre.*1 →
  (foldl header_step (h, c) ts).1 = h ++ header_from c ts.
Proof.
  revert pre c. induction ts as [|[name t] ts IH]; intros pre c Hwf Hp Hc Hb h Hh; simpl.
  { by rewrite app_nil_r. }
  csimpl in *. apply Forall_cons in Hp as [Ht Hp].
  destruct (portable_nbytes w t Ht) as [Hn Hpos]. unfold blocks_len in Hb. csimpl in Hb.
  rewrite zsum_cons in Hb. fold (blocks_len ts) in Hb.
  assert (0 ≤ blocks_len ts) as Hbs.
  { apply zsum_nonneg, Forall_fmap. eapply Forall_impl; [exact Hp|].
    intros t' Ht'. by apply (portable_nbytes w t'). }
  rewrite Hn, wrap_small by (unfold uint; lia).
  rewrite btree_insert_last by (rewrite Hh; by eapply btree_wf_before).
  rewrite (IH (pre ++ [(name, t)])); [by rewrite <- app_assoc|by rewrite <- app_assoc|done|lia|lia|].
  rewrite !fmap_app. by rewrite Hh.
Qed.

Lemma write_blocks w ts : Forall (portable w) ts → rmapM (write_tensor w) ts = Ok (block w <$> ts).
Proof.
  intros Hp. apply rmapM_Ok. induction Hp as [|t ts Ht Hp IH]; csimpl; constructor; [|done].
  by apply write_tensor_spec.
Qed.

Lemma length_blocks w ts : Forall (portable w) ts →
  Z.of_nat (length (concat (block w <$> ts))) = zsum (block_len <$> ts).
Proof.
  induction 1 as [|t ts Ht Hp IH]; csimpl; [done|].
  rewrite length_app, zsum_cons, Nat2Z.inj_add, IH, length_block by done. done.
Qed.

Section reader.
Context (oom : Z → bool) (junk : Z → Z → list Z).
Hypothesis junk_len : ∀ p n, 0 ≤ n → Z.of_nat (length (junk p n)) = n.
Hypothesis no_oom : ∀ n, oom n = false.

Lemma dtype_str_roundtrip d : dtype_from_str (dtype_to_str d) = Ok d.
Proof using Type. by destruct d. Qed.

(** Decoding a block rebuilds the tensor. *)
Lemma build_block w t w' : portable w t → world_wf w' →
  ∃ w'' t', build_tensor_from_bytes oom junk w' (t_shape t) (t_dtype t) (block w t) = Ok (w'', t') ∧
    extends w' w'' ∧ same_tensor w t w'' t'.
Proof using junk_len no_oom.
  intros Hp Hw'. pose proof Hp as [Hwf _ _ [Hd1 Hd2] Hbool Hf].
  pose proof Hwf as (_ & _ & Hl & Hb). pose proof (shape_order_wf w t Hb) as Hel.
  pose proof (li_fits _ _ Hl) as Hfits. pose proof (shape_fits_prod _ Hfits) as Hpr.
  destruct (from_vec_typed_ok oom junk junk_len w' (t_dtype t) (t_shape t) (shape_order w t) Hw' Hfits Hf Hel
    no_oom) as (w'' & t' & Hfv & Hfr).
  { rewrite length_shape_order. unfold t_shape. lia. }
  destruct Hfr as (Htw & _ & _ & Hlay & _ & _ & _ & _ & Hso & _ & Hext & _).
  exists w'', t'. split; [|by split_and!].
  pose proof (typed_slice_encode (t_dtype t) (shape_order w t) Hel) as Hts. unfold block.
  unfold build_tensor_from_bytes.
  destruct (t_dtype t) eqn:Hdt; try done.
  - change (elem_size F32) with 4%nat in *. by rewrite Hts, Hfv.
  - change (elem_size F64) with 8%nat in *. by rewrite Hts, Hfv.
  - change (elem_size I64) with 8%nat in *. by rewrite Hts, Hfv.
  - change (elem_size I32) with 4%nat in *. by rewrite Hts, Hfv.
  - change (elem_size I8) with 1%nat. rewrite encode_elems_1 by done. by rewrite Hfv.
  - change (elem_size DBool) with 1%nat. rewrite encode_elems_1 by done.
    assert ((λ b, if b =? 0 then 0 else 1) <$> shape_order w t = shape_order w t) as ->; [|by rewrite Hfv].
    rewrite <- (list_fmap_id (shape_order w t)) at 2. apply list_fmap_ext. intros i x Hx.
    specialize (Hbool eq_refl). rewrite Forall_lookup in Hbool.
    by destruct (Hbool i x Hx) as [-> | ->].
Qed.

Lemma same_tensor_extends w t w' w'' t' : extends w' w'' → world_wf w'' →
  same_tensor w t w' t' → same_tensor w t w'' t'.
Proof using Type.
  intros Hext Hw'' ((Hw & Hh & Hl & Hb) & Hlay & Hso).
  destruct (Hext _ Hh) as (Hh' & Hb' & _). unfold same_tensor, tensor_wf.
  rewrite Hb'. split_and!; try done. rewrite <- Hso. by apply element_frame.
Qed.

(** The reading loop over the blocks of the writer. *)
Lemma read_entries w pre ts binary c :
  btree_wf (pre ++ ts) → Forall (portable w) ts.*2 → 0 ≤ c → c + blocks_len ts < 2 ^ 63 →
  (∃ before, Z.of_nat (length before) = c ∧ binary = before ++ concat (block w <$> ts.*2)) →
  ∀ w' out, world_wf w' →
  Forall2 (λ e e', e.1 = e'.1 ∧ same_tensor w e.2 w' e'.2) pre out →
  ∃ w'' out', rfold (read_entry oom junk binary) (w', out) (header_from c ts) = Ok (w'', out') ∧
    world_wf w'' ∧ extends w' w'' ∧
    Forall2 (λ e e', e.1 = e'.1 ∧ same_tensor w e.2 w'' e'.2) (pre ++ ts) out'.
Proof using junk_len no_oom.
  revert pre c. induction ts as [|[name t] ts IH]; intros pre c Hwf Hp Hc Hb Hbin w' out Hw' Hout.
  { exists w', out. rewrite app_nil_r. split_and!; [done|done|apply extends_refl|done]. }
  csimpl in *. apply Forall_cons in Hp as [Ht Hp].
  destruct (portable_nbytes w t Ht) as [Hn Hpos]. unfold blocks_len in Hb. csimpl in Hb.
  rewrite zsum_cons in Hb. fold (blocks_len ts) in Hb.
  destruct Hbin as (before & Hbl & Hbin).
  pose proof (length_block w t Ht) as Hlb. pose proof (length_blocks w ts.*2 Hp) as Hlr.
  fold (blocks_len ts) in Hlr.
  unfold read_entry at 1. rewrite dtype_str_roundtrip. simpl.
  assert (Z.of_nat (length binary) = c + block_len t + blocks_len ts) as Hlen.
  { rewrite Hbin, !length_app. lia. }
  rewrite (proj2 (Z.ltb_ge _ _)), (proj2 (Z.ltb_ge _ _)) by lia. simpl.
  assert (slice_range (E := SafetensorsError) binary c (c + block_len t) = Ok (block w t)) as ->.
  { unfold slice_range. rewrite (proj2 (Z.ltb_ge _ _)), (proj2 (Z.ltb_ge _ _)) by lia. simpl.
    f_equal. rewrite Hbin, drop_app_ge by lia.
    replace (Z.to_nat c - length before)%nat with 0%nat by lia.
    rewrite drop_0. apply take_app_length'. lia. }
  simpl. pose proof Ht as [(_ & _ & Hl & _) _ _ _ _ _].
  assert (wrap 64 (product_u 64 (t_shape t) * Dtype_byte_size (t_dtype t)) = block_len t) as ->.
  { pose proof (shape_fits_prod _ (li_fits _ _ Hl)) as Hpr. fold (t_shape t) in Hpr.
    rewrite product_u_small by (try unfold uint; lia).
    rewrite wrap_small; [done|]. unfold uint, block_len in *. lia. }
  rewrite Hlb, Z.eqb_refl. cbn [negb].
  destruct (build_block w t w' Ht Hw') as (w1 & t' & -> & Hext & Hsame). simpl.
  assert (world_wf w1) as Hw1 by by apply Hsame.
  assert (out.*1 = pre.*1) as Hkeys.
  { clear -Hout. induction Hout as [|e e' pre out [H1 _] _ IH]; csimpl; [done|]. by rewrite H1, IH. }
  rewrite btree_insert_last by (rewrite Hkeys; by eapply btree_wf_before).
  destruct (IH (pre ++ [(name, t)]) (c + block_len t)) with (w' := w1) (out := out ++ [(name, t')])
    as (w'' & out' & Hr & Hw'' & Hext' & Hall).
  - by rewrite <- app_assoc.
  - done.
  - lia.
  - lia.
  - exists (before ++ block w t). rewrite length_app, <- app_assoc. split; [lia|done].
  - done.
  - apply Forall2_app; [|by constructor]. eapply Forall2_impl; [exact Hout|].
    intros e e' [? ?]. split; [done|]. by eapply same_tensor_extends.
  - exists w'', out'. rewrite <- app_assoc in Hall. split_and!; [done|done|by eapply extends_trans|done].
Qed.

End reader.

(** The law of the codec: what was serialised parses back. *)
Definition json_ok (to_s : BTreeMap HeaderEntry → option (list Z))
    (from_s : list Z → option (BTreeMap HeaderEntry)) : Prop :=
  ∀ h js, btree_wf h → to_s h = Some js → from_s js = Some h.

Lemma header_from_keys c ts : (header_from c ts).*1 = ts.*1.
Proof. revert c. induction ts as [|[n t] ts IH]; intros c; csimpl; [done|]. by rewrite IH. Qed.

Lemma write_header_spec w ts : btree_wf ts → Forall (portable w) ts.*2 → blocks_len ts < 2 ^ 63 →
  write_header ts = header_from 0 ts ∧ btree_wf (write_header ts).
Proof.
  intros Hwf Hp Hb. assert (write_header ts = header_from 0 ts) as Heq.
  { unfold write_header. by rewrite (write_header_from w [] ts 0 Hwf Hp ltac:(lia) ltac:(lia) [] eq_refl). }
  split; [done|]. rewrite Heq. unfold btree_wf. by rewrite header_from_keys.
Qed.

Lemma from_vec_typed_no_panic oom junk w T shape data : from_vec_typed oom junk w T shape data ≠ Panic.
Proof.
  unfold from_vec_typed. destruct (negb _); [done|]. unfold uninit.
  destruct (_ =? 0); [done|]. unfold alloc_layout. destruct (_ <? _); [done|]. cbn [rbind map_err].
  destruct (try_acquire _ _) as [[p|] w1]; [done|]. unfold sys_alloc. by destruct (oom _).
Qed.

(** ** Properties *)

(** C11: Writing tensors and reading the file back gives the same tensors: for
    every map of portable tensors (contiguous from the start of their storage,
    not of 16-bit floats, fitting in memory), if the JSON codec reads back what
    it writes and the header is under the reader's limit, [write_to] succeeds
    and [read_from], in any other world, returns the same names in the same
    order, each with a tensor of the same shape, dtype and elements in a fresh
    contiguous storage; no existing storage changes. *)
Theorem safetensors_roundtrip oom junk to_s from_s w ts js :
  (∀ p n, 0 ≤ n → Z.of_nat (length (junk p n)) = n) → (∀ n, oom n = false) →
  json_ok to_s from_s → btree_wf ts → Forall (portable w) ts.*2 → blocks_len ts < 2 ^ 63 →
  to_s (write_header ts) = Some js → Z.of_nat (length js) ≤ 100000000 →
  ∃ bytes, write_to to_s w ts = Ok bytes ∧
    ∀ w', world_wf w' → ∃ w'' out, read_from oom junk from_s w' bytes = Ok (w'', out) ∧
      extends w' w'' ∧ Forall2 (λ e e', e.1 = e'.1 ∧ same_tensor w e.2 w'' e'.2) ts out.
Proof.
  intros Hj Hoom Hjson Hwf Hp Hb Hjs Hlen.
  destruct (write_header_spec w ts Hwf Hp Hb) as [Hh Hhwf].
  unfold write_to. rewrite Hjs. simpl ok_or. cbn [rbind]. rewrite write_blocks by done. cbn [rbind].
  eexists. split; [done|]. intros w' Hw'. unfold read_from, read_exact.
  set (tail := js ++ _). rewrite length_app, length_le_encode.
  rewrite (proj2 (Z.ltb_ge _ _)) by lia. cbn [rbind].
  rewrite take_app_length', drop_app_length' by (by rewrite length_le_encode).
  rewrite le_decode_encode, Z.mod_small
    by (change (2 ^ (8 * Z.of_nat 8)) with 18446744073709551616; lia).
  rewrite (proj2 (Z.ltb_ge _ _)) by lia. unfold tail. rewrite length_app.
  rewrite (proj2 (Z.ltb_ge _ _)) by lia. cbn [rbind].
  rewrite Nat2Z.id, take_app_length, drop_app_length.
  rewrite (Hjson _ _ Hhwf Hjs). cbn [ok_or rbind]. rewrite Hh.
  destruct (read_entries oom junk Hj Hoom w [] ts (concat (block w <$> ts.*2)) 0 Hwf Hp)
    with (w' := w') (out := @nil (string * Tensor)) as (w'' & out' & Hr & _ & Hext & Hall);
    [lia|lia|by exists []|done|constructor|].
  exists w'', out'. by split_and!.
Qed.

(** No file makes the reader panic: for every byte sequence and whatever
    the JSON parser answers, [read_from] returns tensors or an error; a file
    shorter than its header says is [Io], a header size above 100 MB and
    offsets outside the data are [InvalidHeader]. *)
Theorem read_from_no_panic oom junk from_s w src :
  read_from oom junk from_s w src ≠ Panic ∧
  (Z.of_nat (length src) < 8 → read_from oom junk from_s w src = Err Io) ∧
  (8 ≤ Z.of_nat (length src) → 100000000 < le_decode (take 8 src) →
     read_from oom junk from_s w src = Err InvalidHeader) ∧
  (8 ≤ Z.of_nat (length src) → le_decode (take 8 src) ≤ 100000000 →
     Z.of_nat (length src) < 8 + le_decode (take 8 src) → read_from oom junk from_s w src = Err Io).
Proof.
  unfold read_from, read_exact. change (Z.to_nat 8) with 8%nat. split_and!.
  - destruct (_ <? 8); [done|]. cbn [rbind]. destruct (_ <? le_decode _); [done|].
    destruct (_ <? le_decode _); [done|]. cbn [rbind]. destruct (from_s _) as [h|]; [|done].
    cbn [ok_or rbind]. generalize (w, @nil (string * Tensor)) as st.
    set (binary := drop _ _). induction h as [|[name e] h IH]; intros [w1 out]; [done|].
    cbn [rfold]. destruct (read_entry oom junk binary (w1, out) (name, e)) eqn:He;
      cbn [rbind]; [apply IH|done|].
    exfalso. revert He. unfold read_entry. destruct (dtype_from_str _) as [d|e0|] eqn:Hd; cbn [rbind].
    2: done.
    2: { unfold dtype_from_str in Hd. repeat case_decide; done. }
    destruct (_ || _) eqn:Hor; [done|]. apply orb_false_iff in Hor as [H1%Z.ltb_ge H2%Z.ltb_ge].
    unfold slice_range. rewrite (proj2 (Z.ltb_ge _ _) H1), (proj2 (Z.ltb_ge _ _) H2).
    cbn [orb rbind]. destruct (negb _); [done|].
    unfold build_tensor_from_bytes.
    pose proof (from_vec_typed_no_panic oom junk w1) as Hnp.
    destruct d; try done;
      match goal with |- context [from_vec_typed oom junk w1 ?T ?s ?v] =>
        specialize (Hnp T s v); destruct (from_vec_typed oom junk w1 T s v) as [[? ?]| |] end; done.
  - intros Hl. by rewrite (proj2 (Z.ltb_lt _ _)).
  - intros Hl Hs. rewrite (proj2 (Z.ltb_ge _ _)) by lia. cbn [rbind].
    by rewrite (proj2 (Z.ltb_lt _ _)).
  - intros Hl Hs Hsrc. rewrite (proj2 (Z.ltb_ge _ _)) by lia. cbn [rbind].
    rewrite (proj2 (Z.ltb_ge _ _)) by lia. rewrite (proj2 (Z.ltb_lt _ _)); [done|].
    rewrite length_drop. lia.
Qed.

(** The writer takes the first bytes of the storage, whatever the strides: the
    transpose of [1 2 3; 4 5 6] is written as [1 2 3 4 5 6] under the shape 3x2,
    although its elements in shape order are [1 4 2 5 3 6]. *)
Lemma writer_ignores_layout :
  tensor_wf t23_transposed.1 t23_transposed.2 ∧ t_shape t23_transposed.2 = [3; 2] ∧
  write_tensor t23_transposed.1 t23_transposed.2 = Ok (encode_elems 4 [1; 2; 3; 4; 5; 6]) ∧
  shape_order t23_transposed.1 t23_transposed.2 = [1; 4; 2; 5; 3; 6].
Proof. split; [apply t23_transposed_wf|]. by vm_compute. Qed.

(** A half-precision tensor is written but cannot be read back. *)
Lemma half_not_readable oom junk binary w out name d shape start end_ :
  d = F16 ∨ d = BF16 → start ≤ end_ → end_ ≤ Z.of_nat (length binary) →
  end_ - start = wrap 64 (product_u 64 shape * Dtype_byte_size d) → 0 ≤ start →
  read_entry oom junk binary (w, out) (name, mkHeaderEntry (dtype_to_str d) shape start end_) =
  Err (UnsupportedDtype (dtype_to_str d)).
Proof.
  intros Hd Hse Hend Hn Hs. unfold read_entry. cbn [he_dtype he_start he_end he_shape].
  rewrite dtype_str_roundtrip. cbn [rbind].
  unfold slice_range. rewrite (proj2 (Z.ltb_ge _ _)), (proj2 (Z.ltb_ge _ _)) by done. cbn [orb rbind].
  rewrite length_take, length_drop, <- Hn.
  rewrite (proj2 (Z.eqb_eq _ _)) by lia. cbn [negb].
  by destruct Hd as [-> | ->].
Qed.

(** The product of the shape wraps: a 16-byte block is accepted as a tensor of
    shape [2^62 + 1, 4]. *)
Lemma overflowing_shape_accepted :
  ∃ w t, read_entry no_oom ff_junk (replicate 16 0) (World_new, [])
      ("x"%string, mkHeaderEntry "F32" [2 ^ 62 + 1; 4] 0 16) = Ok (w, [("x"%string, t)]) ∧
    t_shape t = [2 ^ 62 + 1; 4] ∧ st_byte_len (t_storage t) = 16.
Proof. eexists _, _. split; [vm_compute; reflexivity|]. by vm_compute. Qed.

(** *** Witnesses *)

(** A codec that satisfies the law: the binary digits of stdpp's encoding. *)
Definition entry_tuple (e : HeaderEntry) : string * list Z * (Z * Z) :=
  (he_dtype e, he_shape e, (he_start e, he_end e)).
Definition tuple_entry (t : string * list Z * (Z * Z)) : HeaderEntry :=
  mkHeaderEntry t.1.1 t.1.2 t.2.1 t.2.2.
Fixpoint bits_of (p : positive) : list Z :=
  match p with
  | xH => []
  | xO p => 0 :: bits_of p
  | xI p => 1 :: bits_of p
  end.
Fixpoint bits_pos (l : list Z) : positive :=
  match l with
  | [] => xH
  | b :: l => if b =? 0 then xO (bits_pos l) else xI (bits_pos l)
  end.
Definition bits_to_string (h : BTreeMap HeaderEntry) : option (list Z) :=
  Some (bits_of (encode (map (λ e, (e.1, entry_tuple e.2)) h))).
Definition bits_from_slice (bs : list Z) : option (BTreeMap HeaderEntry) :=
  match (decode (bits_pos bs) : option (list (string * (string * list Z * (Z * Z))))) with
  | Some l => Some (map (λ e, (e.1, tuple_entry e.2)) l)
  | None => None
  end.

Lemma bits_json_ok : json_ok bits_to_string bits_from_slice.
Proof.
  intros h js _ [= <-]. unfold bits_from_slice.
  assert (∀ p, bits_pos (bits_of p) = p) as Hbits by (intros p; induction p; simpl; congruence).
  rewrite Hbits, decode_encode. f_equal. rewrite map_map.
  induction h as [|[n []] h IH]; [done|]. simpl in *. by rewrite IH.
Qed.

Lemma t23_portable : portable t23.1 t23.2.
Proof.
  constructor.
  - apply t23_wf.
  - by vm_compute.
  - by vm_compute.
  - split; vm_compute; discriminate.
  - vm_compute. discriminate.
  - vm_compute. discriminate.
Qed.

Lemma safetensors_roundtrip_witness :
  ∃ bytes w out, write_to bits_to_string t23.1 [("weight"%string, t23.2)] = Ok bytes ∧
    read_from no_oom ff_junk bits_from_slice World_new bytes = Ok (w, out) ∧ out.*1 = ["weight"%string].
Proof.
  destruct (safetensors_roundtrip no_oom ff_junk bits_to_string bits_from_slice t23.1
    [("weight"%string, t23.2)] (default [] (bits_to_string (write_header [("weight"%string, t23.2)])))
    ff_junk_len ltac:(done) bits_json_ok) as (bytes & Hw & Hr).
  - apply (bool_decide_unpack _). vm_compute. exact I.
  - constructor; [apply t23_portable|constructor].
  - vm_compute. reflexivity.
  - vm_compute. reflexivity.
  - vm_compute. discriminate.
  - destruct (Hr World_new World_new_wf) as (w & out & Hread & _ & Hall).
    exists bytes, w, out. split; [exact Hw|]. split; [exact Hread|].
    inversion Hall as [|? e' ? l [H1 _] Hl]; subst. inversion Hl; subst. simpl. by rewrite <- H1.
Defined.

Lemma read_from_no_panic_witness :
  read_from no_oom ff_junk bits_from_slice World_new [1; 0; 0] = Err Io.
Proof.
  destruct (read_from_no_panic no_oom ff_junk bits_from_slice World_new [1; 0; 0]) as (_ & H & _).
  apply H. reflexivity.
Defined.
