(* ===== verification/Checkpoint.v ===== *)
(** * Training checkpoints (crates/rustorch-serde/src/checkpoint.rs)

    The state machine that decides when a checkpoint is saved, writes it and
    rotates old files.  The file system is the map from the files of the
    checkpoint directory to their contents; a file is named by its epoch and
    step.  Whether the directory and a file can be created or removed, and what
    the serialiser (Safetensors.v's [write_to]) emits and returns, are
    parameters, and so is the clock. *)

From Stdlib Require Import ZArith Lia.
From stdpp Require Import base list gmap strings sorting.
From S2P Require Import Prelude Float Safetensors.

(** [enum Cadence], [enum Direction] *)
Inductive Cadence :=
  | Epochs (n : Z)
  | Steps (n : Z)
  | WallClock (d : Z).
Inductive Direction := Maximize | Minimize.

(** ["ckpt_epoch{epoch}_step{step}.safetensors"] *)
Notation Path := (Z * Z)%type.
Notation Fs := (gmap (Z * Z) (list Z)).

(** [struct Checkpoint], without the directory; a metric is the bits of an [f32]. *)
Record Checkpoint := mkCheckpoint {
  cadence : Cadence;
  keep : nat;
  on_improve : option (string * Direction);
  last_saved_epoch : option Z;
  last_saved_step : option Z;
  last_saved_at : option Z;
  best_metric : option Z;
  history : list Path
}.

(** [Checkpoint::new] and the builder methods *)
Definition Checkpoint_new : Checkpoint := mkCheckpoint (Epochs 1) 0 None None None None None [].
Definition with_every (c : Checkpoint) (cd : Cadence) : Checkpoint :=
  mkCheckpoint cd (keep c) (on_improve c) (last_saved_epoch c) (last_saved_step c) (last_saved_at c)
    (best_metric c) (history c).
Definition with_keep (c : Checkpoint) (n : nat) : Checkpoint :=
  mkCheckpoint (cadence c) n (on_improve c) (last_saved_epoch c) (last_saved_step c) (last_saved_at c)
    (best_metric c) (history c).
Definition with_on_improve (c : Checkpoint) (m : string) : Checkpoint :=
  mkCheckpoint (cadence c) (keep c) (Some (m, Maximize)) (last_saved_epoch c) (last_saved_step c)
    (last_saved_at c) (best_metric c) (history c).
Definition on_improve_direction (c : Checkpoint) (d : Direction) : Checkpoint :=
  mkCheckpoint (cadence c) (keep c)
    (match on_improve c with Some (m, _) => Some (m, d) | None => None end)
    (last_saved_epoch c) (last_saved_step c) (last_saved_at c) (best_metric c) (history c).

(** [v > best] or [v < best] *)
Definition is_better (d : Direction) (v best : Z) : bool :=
  match d with
  | Maximize => fltb binary32 best v
  | Minimize => fltb binary32 v best
  end.

(** [Checkpoint::should_save]; [prev + n] is on [usize]. *)
Definition cadence_ok (c : Checkpoint) (now epoch step : Z) : bool :=
  match cadence c with
  | Epochs n => match last_saved_epoch c with Some prev => wrap 64 (prev + n) <=? epoch | None => true end
  | Steps n => match last_saved_step c with Some prev => wrap 64 (prev + n) <=? step | None => true end
  | WallClock d => match last_saved_at c with Some prev => d <=? sat_sub now prev | None => true end
  end.

Definition should_save (c : Checkpoint) (now epoch step : Z) (metrics : gmap string Z) : bool :=
  if negb (cadence_ok c now epoch step) then false
  else
    match on_improve c with
    | Some (metric, dir) =>
        match metrics !! metric with
        | None => true
        | Some v =>
            match best_metric c with
            | Some best => is_better dir v best
            | None => true
            end
        end
    | None => true
    end.

(** The update of [best_metric]. *)
Definition update_best (c : Checkpoint) (metrics : gmap string Z) : option Z :=
  match on_improve c with
  | Some (metric, dir) =>
      match metrics !! metric with
      | Some v =>
          let new_best := match best_metric c with
                          | None => true
                          | Some b => is_better dir v b
                          end in
          if new_best then Some v else best_metric c
      | None => best_metric c
      end
  | None => best_metric c
  end.

Section step.
Context {SD : Type} (dir_ok : bool) (create_ok remove_ok : Path → bool)
        (write : SD → list Z * res SafetensorsError unit).

(** The rotation loop of [step]; a failing [remove_file] is ignored. *)
Fixpoint rotate (k : nat) (h : list Path) (fs : Fs) : list Path * Fs :=
  match h with
  | [] => (h, fs)
  | old :: h' =>
      if k <? length h then rotate k h' (if remove_ok old then delete old fs else fs) else (h, fs)
  end%nat.

(** [write_path]: the file is created (truncated) first; [write] gives the bytes
    emitted up to the end or the failure. *)
Definition write_path (fs : Fs) (path : Path) (sd : SD) : Fs * res SafetensorsError unit :=
  if create_ok path then (<[path := (write sd).1]> fs, (write sd).2)
  else (fs, Err Io).

(** [Checkpoint::step]; [now] is the clock in [should_save], [saved_at] the one
    read after the write. *)
Definition ckpt_step (c : Checkpoint) (fs : Fs) (now saved_at epoch step : Z)
    (metrics : gmap string Z) (sd : SD) : Checkpoint * Fs * res SafetensorsError (option Path) :=
  if negb (should_save c now epoch step metrics) then (c, fs, Ok None)
  else if negb dir_ok then (c, fs, Err Io)
  else
    let path := (epoch, step) in
    match write_path fs path sd with
    | (fs, Ok _) =>
        let hf := if (0 <? keep c)%nat then rotate (keep c) (history c ++ [path]) fs
                  else (history c ++ [path], fs) in
        (mkCheckpoint (cadence c) (keep c) (on_improve c) (Some epoch) (Some step) (Some saved_at)
           (update_best c metrics) hf.1, hf.2, Ok (Some path))
    | (fs, Err e) => (c, fs, Err e)
    | (fs, Panic) => (c, fs, Panic)
    end.

(** [Checkpoint::history_len] *)
Definition history_len (c : Checkpoint) : nat := length (history c).

(** ** Runs of a training loop *)

(** A call of [step]: clocks, (epoch, step), metrics, state dict. *)
Record Call := mkCall {
  call_now : Z;
  call_saved_at : Z;
  call_path : Path;
  call_metrics : gmap string Z;
  call_sd : SD
}.

Definition step_call (c : Checkpoint) (fs : Fs) (k : Call) :=
  ckpt_step c fs (call_now k) (call_saved_at k) (call_path k).1 (call_path k).2
    (call_metrics k) (call_sd k).

(** The calls in order; [saved] collects those that returned a path. *)
Fixpoint run_calls (c : Checkpoint) (fs : Fs) (saved : list Call) (calls : list Call)
    : Checkpoint * Fs * list Call :=
  match calls with
  | [] => (c, fs, saved)
  | k :: calls =>
      match step_call c fs k with
      | (c, fs, Ok (Some _)) => run_calls c fs (saved ++ [k]) calls
      | (c, fs, _) => run_calls c fs saved calls
      end
  end.

(** The last [k] elements; all of them when [k] is 0. *)
Definition lastn {A} (k : nat) (l : list A) : list A :=
  if (k =? 0)%nat then l else drop (length l - k) l.

Definition paths (l : list Call) : list Path := call_path <$> l.

(** The history, the files still in it, the files rotated out and the files the
    run never names, after the calls [done] on the directory [fs0]. *)
Record rotation_inv (k : nat) (fs0 : Fs) (done : list Call) (c : Checkpoint) (fs : Fs)
    (saved : list Call) : Prop := {
  ro_keep : keep c = k;
  ro_history : history c = lastn k (paths saved);
  ro_saved : saved `sublist_of` done;
  ro_present call : call ∈ saved → call_path call ∈ history c →
    (write (call_sd call)).2 = Ok tt ∧ fs !! call_path call = Some (write (call_sd call)).1;
  ro_removed p : p ∈ paths saved → p ∉ history c → remove_ok p = true → fs !! p = None;
  ro_other p : p ∉ paths done → fs !! p = fs0 !! p
}.

End step.
Arguments Call : clear implicits.
Arguments mkCall {SD}.

(** ** Lemmas *)

Lemma rotate_spec rm k h fs : (0 < k)%nat → NoDup h →
  (rotate rm k h fs).1 = drop (length h - k) h ∧
  ∀ p, (rotate rm k h fs).2 !! p =
    if decide (p ∈ take (length h - k) h) then if rm p then None else fs !! p else fs !! p.
Proof.
  intros Hk. revert fs. induction h as [|old h IH]; intros fs Hnd.
  { split; [done|]. intros p. case_decide as Hp; [|done]. by apply not_elem_of_nil in Hp. }
  apply NoDup_cons in Hnd as [Hold Hnd]. cbn [rotate].
  destruct (Nat.ltb_spec k (length (old :: h))) as [Hlt|Hge]; cbn [length] in *; cycle 1.
  { replace (S (length h) - k)%nat with 0%nat by lia. split; [done|].
    intros p. case_decide as Hp; [|done]. by apply not_elem_of_nil in Hp. }
  destruct (IH (if rm old then delete old fs else fs) Hnd) as [IH1 IH2].
  replace (S (length h) - k)%nat with (S (length h - k)) by lia. split; [done|].
  intros p. rewrite IH2. cbn [take].
  assert (p ∈ take (length h - k) h → p ≠ old) as Hne.
  { intros Hp ->. apply Hold. by eapply elem_of_take in Hp as (? & ? & _); eapply list_elem_of_lookup_2. }
  destruct (decide (p = old)) as [->|Hno].
  - case_decide as H1; [by destruct (Hne H1)|]. case_decide as H2; [|set_solver].
    destruct (rm old); [by rewrite lookup_delete_eq|done].
  - assert ((if rm old then delete old fs else fs) !! p = fs !! p) as ->.
    { destruct (rm old); [by rewrite lookup_delete_ne|done]. }
    repeat case_decide; set_solver.
Qed.

Section lastn.
Context {A : Type}.
Implicit Types l : list A.

Lemma lastn_snoc k l x : (0 < k)%nat →
  lastn k (l ++ [x]) = drop (length (lastn k l ++ [x]) - k) (lastn k l ++ [x]).
Proof.
  intros Hk. unfold lastn. rewrite (proj2 (Nat.eqb_neq k 0)) by lia.
  destruct (decide (k ≤ length l)%nat) as [Hl|Hl].
  - rewrite !length_app, length_drop. cbn [length].
    replace (length l - (length l - k) + 1 - k)%nat with 1%nat by lia.
    replace (length l + 1 - k)%nat with ((length l - k) + 1)%nat by lia.
    rewrite <- drop_drop, (drop_app_le l) by lia. done.
  - replace (length l - k)%nat with 0%nat by lia. by rewrite drop_0.
Qed.

Lemma lastn_suffix k l : ∃ pre, l = pre ++ lastn k l.
Proof.
  unfold lastn. destruct (k =? 0)%nat; [by exists []|].
  exists (take (length l - k) l). by rewrite take_drop.
Qed.

Lemma lastn_length k l : (0 < k)%nat → (length (lastn k l) ≤ k)%nat.
Proof.
  intros Hk. unfold lastn. rewrite (proj2 (Nat.eqb_neq k 0)) by lia. rewrite length_drop. lia.
Qed.

Lemma lastn_fmap {B} (f : A → B) k l : f <$> lastn k l = lastn k (f <$> l).
Proof. unfold lastn. destruct (k =? 0)%nat; [done|]. by rewrite length_fmap, fmap_drop. Qed.
End lastn.

Lemma paths_sublist {SD} (l1 l2 : list (Call SD)) :
  l1 `sublist_of` l2 → paths l1 `sublist_of` paths l2.
Proof. induction 1; cbn; by constructor. Qed.

Lemma paths_snoc {SD} (l : list (Call SD)) k : paths (l ++ [k]) = paths l ++ [call_path k].
Proof. unfold paths. by rewrite fmap_app. Qed.

(** The rotation of [step] on a history that is the tail of the saved paths. *)
Lemma rotate_history rm k (saved : list Path) p fs h' fs' : NoDup (saved ++ [p]) →
  (if (0 <? k)%nat then rotate rm k (lastn k saved ++ [p]) fs else (lastn k saved ++ [p], fs)) = (h', fs') →
  h' = lastn k (saved ++ [p]) ∧ h' ⊆ lastn k saved ++ [p] ∧
  ∀ q, fs' !! q =
    if decide (q ∈ lastn k saved ++ [p] ∧ q ∉ h') then if rm q then None else fs !! q else fs !! q.
Proof.
  intros Hnd. destruct (Nat.ltb_spec 0 k) as [Hk|Hk]; cycle 1.
  { intros [= <- <-]. replace k with 0%nat by lia. split; [done|]. split; [done|].
    intros q. case_decide; [tauto|done]. }
  set (h := lastn k saved ++ [p]).
  assert (NoDup h) as Hndh.
  { destruct (lastn_suffix k saved) as [pre Hpre]. rewrite Hpre, <- app_assoc in Hnd.
    by apply NoDup_app in Hnd as (_ & _ & ?). }
  destruct (rotate_spec rm k h fs Hk Hndh) as [H1 H2].
  intros Heq. rewrite Heq in H1, H2. cbn in H1, H2. subst h'.
  rewrite (lastn_snoc k saved p Hk). fold h. split; [done|].
  rewrite <- (take_drop (length h - k) h) in Hndh. apply NoDup_app in Hndh as (_ & Hdisj & _).
  assert (∀ q, q ∈ h ↔ q ∈ take (length h - k) h ∨ q ∈ drop (length h - k) h) as Hin.
  { intros q. by rewrite <- elem_of_app, take_drop. }
  split; [intros q; rewrite Hin; tauto|].
  intros q. rewrite H2. specialize (Hin q). specialize (Hdisj q).
  case_decide; case_decide; tauto.
Qed.

Section rotation.
Context {SD : Type} (dir_ok : bool) (create_ok remove_ok : Path → bool)
        (write : SD → list Z * res SafetensorsError unit).
Notation step_call := (step_call dir_ok create_ok remove_ok write).
Notation run_calls := (run_calls dir_ok create_ok remove_ok write).
Notation inv := (rotation_inv remove_ok write).

(** A call either returns no path, and leaves the state (the file it was to
    write may have changed), or it saves. *)
Lemma step_call_cases c fs (k : Call SD) c' fs' r : step_call c fs k = (c', fs', r) →
  (c' = c ∧ (∀ p, r ≠ Ok (Some p)) ∧ ∀ p, p ≠ call_path k → fs' !! p = fs !! p) ∨
  (r = Ok (Some (call_path k)) ∧ (write (call_sd k)).2 = Ok tt ∧
   let hf := if (0 <? keep c)%nat
     then rotate remove_ok (keep c) (history c ++ [call_path k])
            (<[call_path k := (write (call_sd k)).1]> fs)
     else (history c ++ [call_path k], <[call_path k := (write (call_sd k)).1]> fs) in
   should_save c (call_now k) (call_path k).1 (call_path k).2 (call_metrics k) = true ∧
   c' = mkCheckpoint (cadence c) (keep c) (on_improve c) (Some (call_path k).1) (Some (call_path k).2)
          (Some (call_saved_at k)) (update_best c (call_metrics k)) hf.1 ∧
   fs' = hf.2).
Proof.
  unfold Checkpoint.step_call, ckpt_step, write_path. destruct k as [now at' [e s] ms sd]. cbn.
  destruct (should_save c now e s ms); cbn; [|intros [= <- <- <-]; left; naive_solver].
  destruct dir_ok; cbn; [|intros [= <- <- <-]; left; naive_solver].
  destruct (create_ok (e, s)); cbn; [|intros [= <- <- <-]; left; naive_solver].
  destruct (write sd) as [bs [[]|er|]]; cbn; intros [= <- <- <-]; [by right|left|left];
    (split; [done|]); (split; [done|]); intros p Hp; by rewrite lookup_insert_ne.
Qed.

Lemma rotation_inv_step keep0 fs0 done c fs saved k :
  inv keep0 fs0 done c fs saved → NoDup (paths (done ++ [k])) →
  match step_call c fs k with
  | (c', fs', Ok (Some _)) => inv keep0 fs0 (done ++ [k]) c' fs' (saved ++ [k])
  | (c', fs', _) => inv keep0 fs0 (done ++ [k]) c' fs' saved
  end.
Proof.
  intros [Hkeep Hhist Hsub Hpres Hrem Hoth] Hnd. rewrite paths_snoc in Hnd.
  apply paths_sublist in Hsub as Hsp.
  assert (paths saved ⊆ paths done) as Hsd.
  { intros p Hp. by eapply elem_of_submseteq, sublist_submseteq. }
  assert (NoDup (paths saved ++ [call_path k])) as Hnds.
  { eapply sublist_NoDup; [exact Hnd|]. by apply sublist_app. }
  assert (call_path k ∉ paths saved) as Hsk.
  { apply NoDup_app in Hnds as (_ & H & _). set_solver. }
  assert (history c ⊆ paths saved) as Hhs.
  { rewrite Hhist. destruct (lastn_suffix keep0 (paths saved)) as [pre Hpre]. rewrite Hpre at 2. set_solver. }
  assert (∀ call, call ∈ saved → call_path call ≠ call_path k) as Hck.
  { intros call Hc He. apply Hsk. rewrite <- He. by apply list_elem_of_fmap_2. }
  destruct (step_call c fs k) as [[c' fs'] r] eqn:Hstep.
  apply step_call_cases in Hstep as [(-> & Hr & Hfs)|(-> & Hok & Hs)].
  - assert (inv keep0 fs0 (done ++ [k]) c fs' saved) as Hinv.
    { constructor; [done|done|by apply sublist_inserts_r|..].
      - intros call Hc Hh. rewrite Hfs by (by apply Hck). by apply Hpres.
      - intros p Hp Hh Hrm. rewrite Hfs by congruence. by apply Hrem.
      - intros p. rewrite paths_snoc. intros Hp. rewrite Hfs by set_solver. apply Hoth. set_solver. }
    destruct r as [[p|]| |]; [by destruct (Hr p)|done..].
  - rewrite Hkeep, Hhist in Hs. cbn zeta in Hs.
    destruct (if (0 <? keep0)%nat then _ else _) as [h' fs2] eqn:Hrot.
    apply rotate_history in Hrot as (Hh & Hincl & Hl); [|done]. rewrite <- Hhist in *.
    destruct Hs as (_ & -> & ->). constructor; cbn; [done|by rewrite paths_snoc|by apply sublist_app|..].
    + intros call [Hc| ->%list_elem_of_singleton]%elem_of_app Hin; rewrite Hl, decide_False by tauto.
      * rewrite lookup_insert_ne by (by apply not_eq_sym, Hck). apply Hpres; [done|].
        apply Hincl in Hin. apply elem_of_app in Hin as [?| ?%list_elem_of_singleton]; [done|].
        by destruct (Hck call).
      * by rewrite lookup_insert_eq.
    + intros p Hp Hnin Hrm. rewrite Hl, Hrm. case_decide as Hd; [done|].
      rewrite paths_snoc in Hp.
      assert (p ∉ history c ∧ p ≠ call_path k) as [Hn1 Hn2] by set_solver.
      rewrite lookup_insert_ne by done. apply Hrem; [set_solver|done|done].
    + intros p. rewrite paths_snoc. intros Hp.
      rewrite Hl, decide_False by set_solver. rewrite lookup_insert_ne by set_solver. apply Hoth. set_solver.
Qed.

Lemma rotation_inv_run keep0 fs0 calls : ∀ done c fs saved,
  inv keep0 fs0 done c fs saved → NoDup (paths (done ++ calls)) →
  match run_calls c fs saved calls with
  | (c', fs', saved') => inv keep0 fs0 (done ++ calls) c' fs' saved'
  end.
Proof.
  induction calls as [|k calls IH]; intros done c fs saved Hinv Hnd; [by rewrite app_nil_r|].
  cbn [Checkpoint.run_calls]. replace (done ++ k :: calls) with ((done ++ [k]) ++ calls) in * by (by rewrite <- app_assoc).
  assert (NoDup (paths (done ++ [k]))) as Hk.
  { unfold paths in Hnd. rewrite fmap_app in Hnd. by apply NoDup_app in Hnd as (? & _). }
  pose proof (rotation_inv_step keep0 fs0 done c fs saved k Hinv Hk) as Hst.
  destruct (step_call c fs k) as [[c' fs'] [[p|]| |]]; by apply IH.
Qed.

(** C27: a training loop that calls [Checkpoint::step] with pairwise distinct
    (epoch, step) on a fresh helper keeps, whatever the cadence and the metrics
    and whichever calls fail: the history is the last [keep] saved paths (all
    when [keep] is 0), so at most [keep] of them; each file of the history
    holds exactly the bytes of its state dict; each earlier saved file that can
    be removed is gone; files the loop never names are untouched. *)
Theorem checkpoint_rotation cd keep0 imp fs0 calls c fs saved : NoDup (paths calls) →
  run_calls (mkCheckpoint cd keep0 imp None None None None []) fs0 [] calls = (c, fs, saved) →
  saved `sublist_of` calls ∧
  history c = lastn keep0 (paths saved) ∧ ((0 < keep0)%nat → (history_len c ≤ keep0)%nat) ∧
  (∀ call, call ∈ saved → call_path call ∈ history c →
     (write (call_sd call)).2 = Ok tt ∧ fs !! call_path call = Some (write (call_sd call)).1) ∧
  (∀ p, p ∈ paths saved → p ∉ history c → remove_ok p = true → fs !! p = None) ∧
  (∀ p, p ∉ paths calls → fs !! p = fs0 !! p).
Proof.
  intros Hnd Hrun.
  pose proof (rotation_inv_run keep0 fs0 calls [] (mkCheckpoint cd keep0 imp None None None None []) fs0 [])
    as Hinv. rewrite Hrun in Hinv.
  destruct Hinv as [_ Hh Hs Hp Hr Ho].
  - constructor; try done; [by unfold lastn; destruct (_ =? _)%nat|set_solver..].
  - done.
  - repeat (split; [done|]). split; [|done]. intros Hk. unfold history_len. rewrite Hh. by apply lastn_length.
Qed.
End rotation.

(** ** Improvement *)

(** The order of floats that are not NaN is a strict weak order. *)
Lemma SFltb_cotrans x y z : z ≠ SpecFloat.S754_nan →
  SpecFloat.SFltb x y = true → SpecFloat.SFltb x z = true ∨ SpecFloat.SFltb z y = true.
Proof.
  unfold SpecFloat.SFltb. intros Hz.
  destruct x as [[]|[]| |[] m1 e1], y as [[]|[]| |[] m2 e2], z as [[]|[]| |[] m3 e3]; try done; cbn;
    try (by left); try (by right); try (by intros; discriminate).
  all: change (Pos.compare_cont Eq) with Pos.compare.
  all: destruct (Z.compare_spec e1 e2), (Z.compare_spec e1 e3), (Z.compare_spec e3 e2); subst; try lia;
    try (intros; by left); try (intros; by right); try (intros; discriminate).
  all: destruct (Pos.compare_spec m1 m2), (Pos.compare_spec m1 m3), (Pos.compare_spec m3 m2); subst; try lia;
    try (intros; by left); try (intros; by right); try (intros; discriminate).
Qed.

Lemma SFltb_asym x y : SpecFloat.SFltb x y = true → SpecFloat.SFltb y x = false.
Proof.
  unfold SpecFloat.SFltb. destruct x as [[]|[]| |[] m1 e1], y as [[]|[]| |[] m2 e2]; try done; cbn;
    change (Pos.compare_cont Eq) with Pos.compare; rewrite (Z.compare_antisym e1 e2);
    destruct (e1 ?= e2); cbn; try done; rewrite (Pos.compare_antisym m1 m2); by destruct (m1 ?= m2)%positive.
Qed.

Definition not_nan (v : Z) : Prop := of_bits binary32 v ≠ SpecFloat.S754_nan.

Lemma is_better_trans d v best v' : not_nan v' →
  is_better d v best = true → is_better d v' best = false → is_better d v v' = true.
Proof.
  unfold is_better, fltb, not_nan. intros Hn Hb Hw.
  destruct d; destruct (SFltb_cotrans _ _ _ Hn Hb); congruence.
Qed.

Lemma is_better_irrefl d v : is_better d v v = false.
Proof. destruct d; apply SFltb_irrefl. Qed.

Lemma is_better_asym d v best : is_better d v best = true → is_better d best v = false.
Proof. destruct d; apply SFltb_asym. Qed.

Section improve.
Context {SD : Type} (create_ok remove_ok : Path → bool)
        (write : SD → list Z * res SafetensorsError unit).
Context (metric : string) (dir : Direction).
Notation run_calls := (run_calls true create_ok remove_ok write).

Definition value (k : Call SD) : Z := default 0 (call_metrics k !! metric).

(** The calls whose value beats every value logged before: the strict running
    maxima (minima) of the metric. *)
Fixpoint records (before calls : list (Call SD)) : list (Call SD) :=
  match calls with
  | [] => []
  | k :: calls =>
      (if forallb (λ b, is_better dir (value k) (value b)) before then [k] else []) ++
      records (before ++ [k]) calls
  end.

(** A call that logs the metric, whose file can be written. *)
Definition logged (k : Call SD) : Prop :=
  is_Some (call_metrics k !! metric) ∧ not_nan (value k) ∧
  create_ok (call_path k) = true ∧ (write (call_sd k)).2 = Ok tt.

(** The calls come at least [n] epochs apart, on [usize]. *)
Definition apart (n : Z) (k k' : Call SD) : Prop := wrap 64 ((call_path k).1 + n) ≤ (call_path k').1.

(** After the calls [done]: a helper with this cadence and metric, that has
    saved an epoch of [done] and whose best metric is the best one logged. *)
Record improve_inv (n : Z) (done : list (Call SD)) (c : Checkpoint) : Prop := {
  im_cadence : cadence c = Epochs n;
  im_metric : on_improve c = Some (metric, dir);
  im_epoch e : last_saved_epoch c = Some e → ∃ k, k ∈ done ∧ (call_path k).1 = e;
  im_best : match best_metric c with
            | None => done = []
            | Some b => (∃ k, k ∈ done ∧ value k = b) ∧ ∀ k, k ∈ done → is_better dir (value k) b = false
            end
}.

(** The value is better than every earlier one when it beats the best. *)
Lemma better_than_all done c k n : improve_inv n done c → Forall logged done →
  forallb (λ b, is_better dir (value k) (value b)) done =
  match best_metric c with Some b => is_better dir (value k) b | None => true end.
Proof.
  intros [_ _ _ Hb] Hl. destruct (best_metric c) as [b|]; [|by subst].
  destruct Hb as [(k0 & Hk0 & <-) Hworst]. apply eq_iff_eq_true. rewrite forallb_forall. split.
  - intros H. apply H. by apply list_elem_of_In.
  - intros Hbest k' Hk'%list_elem_of_In. rewrite Forall_forall in Hl.
    eapply is_better_trans; [by apply Hl|exact Hbest|by apply Hworst].
Qed.

Lemma improve_step n done c fs k : improve_inv n done c → Forall logged done → logged k →
  (∀ k', k' ∈ done → apart n k' k) →
  let better := match best_metric c with Some b => is_better dir (value k) b | None => true end in
  match step_call true create_ok remove_ok write c fs k with
  | (c', fs', r) =>
      r = (if better then Ok (Some (call_path k)) else Ok None) ∧ improve_inv n (done ++ [k]) c'
  end.
Proof.
  intros [Hc Hm He Hb] Hld ([v Hv] & Hnan & Hcr & Hw) Hap better.
  assert (value k = v) as Hval by (unfold value; by rewrite Hv).
  assert (should_save c (call_now k) (call_path k).1 (call_path k).2 (call_metrics k) = better) as Hsave.
  { unfold should_save, cadence_ok. rewrite Hc, Hm, Hv.
    assert (match last_saved_epoch c with
            | Some prev => wrap 64 (prev + n) <=? (call_path k).1 | None => true end = true) as ->.
    { destruct (last_saved_epoch c) as [e|]; [|done]. destruct (He e eq_refl) as (k' & Hk' & <-).
      apply Z.leb_le. by apply Hap. }
    cbn. unfold better. by rewrite Hval. }
  assert (match best_metric c with
          | Some b => ∀ k', k' ∈ done → is_better dir (value k') b = false | None => done = [] end) as Hbest.
  { destruct (best_metric c); [|done]. by destruct Hb. }
  unfold step_call, ckpt_step, write_path. rewrite Hsave. destruct better eqn:Hbt; cbn.
  - rewrite <- surjective_pairing, Hcr, Hw. cbn. split; [done|].
    assert (update_best c (call_metrics k) = Some v) as Hu.
    { unfold update_best. rewrite Hm, Hv. unfold better in Hbt.
      destruct (best_metric c); [|done]. rewrite Hval in Hbt. by rewrite Hbt. }
    constructor; cbn; [done..| |].
    + intros e [= <-]. exists k. split; [|done]. apply elem_of_app. right. by apply list_elem_of_singleton.
    + rewrite Hu. split; [exists k; set_solver|].
      intros k' [Hk'| ->%list_elem_of_singleton]%elem_of_app; [|rewrite Hval; apply is_better_irrefl].
      destruct (is_better dir (value k') v) eqn:Hbad; [|done]. exfalso.
      unfold better in Hbt. destruct (best_metric c) as [b|]; [|set_solver].
      rewrite Hval in Hbt. specialize (Hbest k' Hk').
      rewrite Forall_forall in Hld. destruct (Hld k' Hk') as (_ & Hn' & _).
      apply is_better_asym in Hbad. rewrite (is_better_trans dir v b (value k')) in Hbad; congruence.
  - split; [done|]. constructor; [done..| |].
    + intros e Hle. destruct (He e Hle) as (k' & ? & ?). exists k'. set_solver.
    + unfold better in Hbt. destruct (best_metric c) as [b|]; [|done].
      destruct Hb as [(k0 & ? & ?) ?]. split; [exists k0; set_solver|].
      intros k' [Hk'| ->%list_elem_of_singleton]%elem_of_app; [by apply Hbest|done].
Qed.

Lemma improve_run n calls : ∀ done c fs saved,
  improve_inv n done c → Forall logged (done ++ calls) →
  StronglySorted (apart n) (done ++ calls) →
  match run_calls c fs saved calls with
  | (c', _, saved') => saved' = saved ++ records done calls ∧ improve_inv n (done ++ calls) c'
  end.
Proof.
  induction calls as [|k calls IH]; intros done c fs saved Hinv Hlog Hsort.
  { cbn. by rewrite !app_nil_r. }
  cbn [Checkpoint.run_calls records].
  assert (Forall logged done ∧ logged k) as [Hld Hlk].
  { apply Forall_app in Hlog as [? [? ?]%Forall_cons]. tauto. }
  assert (∀ k', k' ∈ done → apart n k' k) as Hap.
  { intros k' Hk'. eapply StronglySorted_app_1_elem_of; [exact Hsort|exact Hk'|]. by left. }
  replace (done ++ k :: calls) with ((done ++ [k]) ++ calls) in * by (by rewrite <- app_assoc).
  rewrite (better_than_all done c k n Hinv Hld).
  pose proof (improve_step n done c fs k Hinv Hld Hlk Hap) as Hst. cbn zeta in Hst.
  destruct (step_call true create_ok remove_ok write c fs k) as [[c' fs'] r].
  destruct Hst as [-> Hinv'].
  destruct (match best_metric c with Some _ => _ | None => _ end).
  - specialize (IH (done ++ [k]) c' fs' (saved ++ [k]) Hinv' Hlog Hsort).
    destruct (run_calls c' fs' (saved ++ [k]) calls) as [[c2 fs2] saved2].
    by rewrite app_assoc.
  - by apply IH.
Qed.

(** with [on_improve], a metric logged (not NaN) at every call, epochs at
    least the cadence apart and writes that succeed, the calls saved are
    exactly the strict records of the metric: those whose value beats every
    value logged before, saved or not.  The best metric is then a value of the
    run that none beats. *)
Theorem checkpoint_records n keep0 fs0 calls c fs saved :
  Forall logged calls → StronglySorted (apart n) calls →
  run_calls (mkCheckpoint (Epochs n) keep0 (Some (metric, dir)) None None None None []) fs0 [] calls
    = (c, fs, saved) →
  saved = records [] calls ∧
  (calls ≠ [] → ∃ k, k ∈ calls ∧ best_metric c = Some (value k) ∧
     ∀ k', k' ∈ calls → is_better dir (value k') (value k) = false).
Proof.
  intros Hl Hs Hrun.
  pose proof (improve_run n calls [] (mkCheckpoint (Epochs n) keep0 (Some (metric, dir)) None None None None [])
    fs0 []) as H. rewrite Hrun in H. destruct H as [-> [_ _ _ Hb]]; [by constructor|done..|].
  split; [done|]. intros Hne. cbn in Hb. destruct (best_metric c) as [b|]; [|done].
  destruct Hb as [(k & Hk & <-) Hall]. by exists k.
Qed.
End improve.

(** ** Divergences *)

(** A first metric that is NaN blocks every later save. *)
Lemma nan_blocks_saves c now epoch step metrics metric d nan : on_improve c = Some (metric, d) →
  is_Some (metrics !! metric) → best_metric c = Some nan → of_bits binary32 nan = SpecFloat.S754_nan →
  should_save c now epoch step metrics = false.
Proof.
  intros Hm [v Hv] Hb Hn. unfold should_save. destruct (cadence_ok c now epoch step); [|done]. cbn.
  rewrite Hm, Hv, Hb. unfold is_better, fltb. rewrite Hn. destruct d; [done|].
  by destruct (of_bits binary32 v) as [[]|[]| |[] m e].
Qed.

(** Two saves with the same (epoch, step) and [keep] 1 (the cadence in steps of 0,
    a resumed run, ...): the second rotation deletes the file just written. *)
Lemma same_path_deletes sd :
  let write (bytes : list Z) : list Z * res SafetensorsError unit := (bytes, Ok tt) in
  let k := mkCall 0 0 (3, 7) ∅ sd in
  let '(c, fs, saved) := run_calls true (λ _, true) (λ _, true) write
      (with_keep (with_every Checkpoint_new (Steps 0)) 1) ∅ [] [k; k] in
  history c = [(3, 7)] ∧ saved = [k; k] ∧ fs !! (3, 7) = None.
Proof. vm_compute. repeat split. Qed.

(** ** Witnesses *)

(** Accuracies 1.0, 0.5, 2.0, 3.0 at the epochs 0 to 3. *)
#[local] Definition demo_calls : list (Call (list Z)) :=
  [mkCall 0 1 (0, 0) {["acc"%string := 0x3f800000]} [10];
   mkCall 2 3 (1, 0) {["acc"%string := 0x3f000000]} [11];
   mkCall 4 5 (2, 0) {["acc"%string := 0x40000000]} [12];
   mkCall 6 7 (3, 0) {["acc"%string := 0x40400000]} [13]].
#[local] Definition demo_write (bytes : list Z) : list Z * res SafetensorsError unit := (bytes, Ok tt).
#[local] Definition demo_run :=
  run_calls true (λ _, true) (λ _, true) demo_write
    (mkCheckpoint (Epochs 1) 1 (Some ("acc"%string, Maximize)) None None None None []) ∅ [] demo_calls.

Lemma checkpoint_rotation_witness :
  demo_run.1.2 !! (3, 0) = Some [13] ∧ demo_run.1.2 !! (2, 0) = None ∧ history demo_run.1.1 = [(3, 0)].
Proof.
  destruct (checkpoint_rotation true (λ _, true) (λ _, true) demo_write (Epochs 1) 1
    (Some ("acc"%string, Maximize)) ∅ demo_calls demo_run.1.1 demo_run.1.2 demo_run.2)
    as (_ & Hh & _ & Hp & Hr & _).
  - apply (bool_decide_unpack _). vm_compute. exact I.
  - vm_compute. reflexivity.
  - split; [|split].
    + apply (Hp (mkCall 6 7 (3, 0) {["acc"%string := 0x40400000]} [13])).
      * apply (list_elem_of_lookup_2 _ 2). vm_compute. reflexivity.
      * apply (list_elem_of_lookup_2 _ 0). vm_compute. reflexivity.
    + apply Hr; [apply (bool_decide_unpack _); vm_compute; exact I..|reflexivity].
    + rewrite Hh. vm_compute. reflexivity.
Defined.

Lemma checkpoint_records_witness :
  paths demo_run.2 = [(0, 0); (2, 0); (3, 0)] ∧ best_metric demo_run.1.1 = Some 0x40400000.
Proof.
  destruct (checkpoint_records (λ _, true) (λ _, true) demo_write "acc" Maximize 1 1 ∅ demo_calls
    demo_run.1.1 demo_run.1.2 demo_run.2) as [Hs _].
  - repeat (constructor; [split; [by eexists; vm_compute|split; [by vm_compute|by split]]|]). constructor.
  - repeat constructor; vm_compute; discriminate.
  - vm_compute. reflexivity.
  - split; [rewrite Hs|]; vm_compute; reflexivity.
Defined.
