(* ===== verification/Attention.v ===== *)
(** * Attention (crates/rustorch-attention)

    The masks, the online softmax, the tiled (Flash) attention forward pass with
    its two tile kernels, and the untiled reference, over any type of
    floating-point numbers.  The matrix product of the [gemm] crate is a
    parameter.  The score and value tiles of a query tile are lists of rows; the
    scratch buffers of the code hold the same rows one after the other, and every
    query tile resets the part it uses. *)

From Stdlib Require Import ZArith Lia.
From stdpp Require Import base list strings.
From S2P Require Import Prelude.

Open Scope nat_scope.

(** ** Floating-point operations *)
Class F32 (X : Type) := {
  f_zero : X; f_one : X; f_neg_inf : X; f_nan : X;
  f_of_usize : nat → X;
  f_add : X → X → X; f_sub : X → X → X; f_mul : X → X → X; f_div : X → X → X;
  f_sqrt : X → X; f_exp : X → X;
  f_gt : X → X → bool; f_eq : X → X → bool; f_max : X → X → X; f_is_finite : X → bool
}.

(** ** Masks (mask.rs) *)
Inductive Mask :=
  | MaskNone
  | Causal
  | Padding (keep : list bool).

(** [enum AttentionError] with [MaskError] *)
Inductive AttentionError :=
  | BufferShapeMismatch (which : string) (expected : Z) (got : nat)
  | OutputShapeMismatch (expected : Z) (got : nat)
  | ZeroDim
  | PaddingLengthMismatch (expected got : nat).

Definition is_masked (m : Mask) (qi kj : nat) : bool :=
  match m with
  | MaskNone => false
  | Causal => qi <? kj
  | Padding keep => (kj <? length keep) && negb (nth kj keep true)
  end.

Definition Mask_validate (m : Mask) (seq : nat) : res AttentionError unit :=
  match m with
  | MaskNone | Causal => Ok tt
  | Padding keep =>
      if length keep =? seq then Ok tt else Err (PaddingLengthMismatch seq (length keep))
  end.

(** ** Shapes (cpu_forward.rs) *)
Record AttentionShape := mkAttentionShape {
  batch : nat; heads : nat; seq : nat; dim : nat;
  br : nat; bc : nat
}.

Definition AttentionShape_new (b h s d : nat) : AttentionShape := mkAttentionShape b h s d 64 64.

(** The product is on [usize]. *)
Definition buffer_len (s : AttentionShape) : Z :=
  product_u 64 (Z.of_nat <$> [batch s; heads s; seq s; dim s]).

(** The strides of a head and of a batch. *)
Definition stride_h (s : AttentionShape) : nat := seq s * dim s.
Definition stride_b (s : AttentionShape) : nat := heads s * stride_h s.

(** [&l[a..b]] and [&l[a..]], which panic out of range. *)
Definition slice {A} (l : list A) (a b : nat) : res AttentionError (list A) :=
  if (b <? a) || (length l <? b) then Panic else Ok (take (b - a) (drop a l)).
Definition slice_from {A} (l : list A) (a : nat) : res AttentionError (list A) :=
  if length l <? a then Panic else Ok (drop a l).

(** [out[a..a + row.len()]] overwritten by [row]. *)
Definition write_row {A} (out : list A) (a : nat) (row : list A) : res AttentionError (list A) :=
  if length out <? a + length row then Panic
  else Ok (take a out ++ row ++ drop (a + length row) out).

Section attention.
Context {X : Type} `{F32 X}.

Definition f_ne (x y : X) : bool := negb (f_eq x y).

Definition validate (shape : AttentionShape) (q k v out : list X) : res AttentionError unit :=
  if dim shape =? 0 then Err ZeroDim
  else
    let expected := buffer_len shape in
    let? _ := rfold (λ _ wb,
        if Z.eqb (Z.of_nat (length wb.2)) expected then Ok tt
        else Err (BufferShapeMismatch wb.1 expected (length wb.2)))
      tt [("q"%string, q); ("k"%string, k); ("v"%string, v)] in
    if Z.eqb (Z.of_nat (length out)) expected then Ok tt
    else Err (OutputShapeMismatch expected (length out)).

(** ** The online softmax (online_softmax.rs) *)
Record OnlineSoftmaxState := mkState { st_m : X; st_l : X }.

Definition EMPTY : OnlineSoftmaxState := mkState f_neg_inf f_zero.
Definition from_scalar (x : X) : OnlineSoftmaxState := mkState x f_one.

Definition absorb (st : OnlineSoftmaxState) (x : X) : OnlineSoftmaxState :=
  if f_gt x (st_m st) then
    mkState x (f_add (f_mul (st_l st) (f_exp (f_sub (st_m st) x))) f_one)
  else mkState (st_m st) (f_add (st_l st) (f_exp (f_sub x (st_m st)))).

Definition st_is_empty (st : OnlineSoftmaxState) : bool :=
  f_eq (st_m st) f_neg_inf && f_eq (st_l st) f_zero.

Definition combine_tiles (a b : OnlineSoftmaxState) : OnlineSoftmaxState :=
  if st_is_empty a then b
  else if st_is_empty b then a
  else
    let m_new := if f_gt (st_m a) (st_m b) then st_m a else st_m b in
    if f_eq (st_m a) m_new && f_eq (st_m b) m_new then mkState m_new (f_add (st_l a) (st_l b))
    else if f_eq (st_m a) m_new then
      mkState m_new (f_add (st_l a) (f_mul (st_l b) (f_exp (f_sub (st_m b) m_new))))
    else mkState m_new (f_add (f_mul (st_l a) (f_exp (f_sub (st_m a) m_new))) (st_l b)).

Definition online_softmax_full (xs : list X) : OnlineSoftmaxState := foldl absorb EMPTY xs.

(** ** The reference (naive_forward_masked) *)

(** [let mut s = 0.0; for d in 0..dim { s += a[d] * b[d]; }] *)
Definition dot (a b : list X) : X :=
  foldl (λ s ab, f_add s (f_mul ab.1 ab.2)) f_zero (zip a b).

Definition scale_of (shape : AttentionShape) : X :=
  f_div f_one (f_sqrt (f_of_usize (dim shape))).

(** The scores of query [i] against the keys [from..to_]. *)
Definition score_row (q k : list X) (mask : Mask) (scale : X) (dm base i from to_ : nat)
    : res AttentionError (list X) :=
  rmapM (λ j,
    if is_masked mask i j then Ok f_neg_inf
    else
      let? qr := slice q (base + i * dm) (base + i * dm + dm) in
      let? kr := slice k (base + j * dm) (base + j * dm + dm) in
      Ok (f_mul (dot qr kr) scale)) (List.seq from (to_ - from)).

(** The rows [from..to_] of a [seq * dim] matrix that starts at [base]. *)
Definition rows_of (buf : list X) (dm base from to_ : nat) : res AttentionError (list (list X)) :=
  rmapM (λ j, slice buf (base + j * dm) (base + j * dm + dm)) (List.seq from (to_ - from)).

(** [o += p * v[d]] over the rows of [v], for every [d]. *)
Definition axpy (o : list X) (p : X) (v : list X) : list X :=
  zip_with (λ oi vi, f_add oi (f_mul p vi)) o v.
Definition weighted_sum (o : list X) (ps : list X) (vs : list (list X)) : list X :=
  foldl (λ o pv, axpy o pv.1 pv.2) o (zip ps vs).

Definition is_normal_sum (l : X) : bool := f_gt l f_zero && f_is_finite l.

(** Softmax of a row of scores, times the values. *)
Definition naive_row (dm : nat) (scores : list X) (vs : list (list X)) : list X :=
  let m := foldl f_max f_neg_inf scores in
  let es := (λ x, f_exp (f_sub x m)) <$> scores in
  let sum := foldl f_add f_zero es in
  if is_normal_sum sum then
    weighted_sum (replicate dm f_zero) ((λ e, f_div e sum) <$> es) vs
  else replicate dm f_nan.

Definition naive_forward_masked (shape : AttentionShape) (q k v : list X) (mask : Mask) (out : list X)
    : res AttentionError (list X) :=
  let? _ := validate shape q k v out in
  let? _ := Mask_validate mask (seq shape) in
  let scale := scale_of shape in
  let n := seq shape in
  let dm := dim shape in
  rfold (λ out b,
    rfold (λ out h,
      let base := b * stride_b shape + h * stride_h shape in
      let? scores := rmapM (λ i, score_row q k mask scale dm base i 0 n) (List.seq 0 n) in
      rfold (λ out iscore,
        let? vs := rows_of v dm base 0 n in
        write_row out (base + iscore.1 * dm) (naive_row dm iscore.2 vs))
        out (zip (List.seq 0 n) scores))
      out (List.seq 0 (heads shape)))
    out (List.seq 0 (batch shape)).

Definition naive_forward (shape : AttentionShape) (q k v out : list X) : res AttentionError (list X) :=
  naive_forward_masked shape q k v MaskNone out.

(** ** The tiled forward pass *)

(** [gemm(m, n, k, dst, read_dst, lhs, lhs_cs, lhs_rs, rhs, rhs_cs, rhs_rs, alpha, beta)]:
    [dst := alpha * dst + beta * lhs * rhs]; [dst] has column stride 1 and is
    given by its [m] rows of [n] elements. *)
Context (gemm : nat → nat → nat → list (list X) → bool →
                list X → nat → nat → list X → nat → nat → X → X → list (list X)).

(** [S[m x n] = alpha * Q[m x k] @ K[n x k]^T] *)
Definition sgemm_score_tile (m n k : nat) (alpha : X) (q : list X) (ldq : nat) (kb : list X) (ldk : nat)
    (s : list (list X)) : list (list X) :=
  gemm m n k s false q 1 ldq kb ldk 1 f_zero alpha.

(** [O[m x n] += P[m x k] @ V[k x n]]; [p] is the flat tile of row stride [ldp]. *)
Definition sgemm_value_accumulate (m n k : nat) (p : list X) (ldp : nat) (v : list X) (ldv : nat)
    (o : list (list X)) : list (list X) :=
  gemm m n k o true p 1 ldp v 1 ldv f_one f_one.

(** The running state of a query row: [m_buf[r]], [l_buf[r]], [o_buf] row [r]. *)
Record RowState := mkRow { r_m : X; r_l : X; r_o : list X }.

Definition row_init (dm : nat) : RowState := mkRow f_neg_inf f_zero (replicate dm f_zero).

(** The rescaling of a row by a new score tile: the new state and the row of [P]. *)
Definition rescale (m_tile : X) (st : RowState) : RowState :=
  let m_new := if f_gt m_tile (r_m st) then m_tile else r_m st in
  let alpha := if f_eq (r_m st) f_neg_inf then f_zero else f_exp (f_sub (r_m st) m_new) in
  if f_ne alpha f_one then
    mkRow m_new (f_mul (r_l st) alpha) ((λ o, f_mul o alpha) <$> r_o st)
  else mkRow m_new (r_l st) (r_o st).

Definition tile_row_update (st : RowState) (s_row : list X) : RowState * list X :=
  let m_tile := foldl (λ m x, if f_gt x m then x else m) f_neg_inf s_row in
  let st' := rescale m_tile st in
  let p_row := (λ x, f_exp (f_sub x (r_m st'))) <$> s_row in
  (mkRow (r_m st') (f_add (r_l st') (foldl f_add f_zero p_row)) (r_o st'), p_row).

(** [for (c, cell) in row { if mask.is_masked(qi + r, kj + c) { *cell = -inf } }] *)
Definition mask_row (mask : Mask) (qi_row kj : nat) (s_row : list X) : list X :=
  imap (λ c cell, if is_masked mask qi_row (kj + c) then f_neg_inf else cell) s_row.

Definition mask_tile (mask : Mask) (qi kj : nat) (s : list (list X)) : list (list X) :=
  match mask with
  | MaskNone => s
  | _ => imap (λ r row, mask_row mask (qi + r) kj row) s
  end.

(** One key tile for the rows of a query tile. *)
Definition flash_tile_blas (q k v : list X) (mask : Mask) (scale : X) (dm base qi br_used kj bc_used : nat)
    (sts : list RowState) : res AttentionError (list RowState) :=
  let? q_tile := slice_from q (base + qi * dm) in
  let? k_tile := slice_from k (base + kj * dm) in
  let s := sgemm_score_tile br_used bc_used dm scale q_tile dm k_tile dm
             (replicate br_used (replicate bc_used f_zero)) in
  let s := mask_tile mask qi kj s in
  let upd := zip_with tile_row_update sts s in
  let? v_tile := slice_from v (base + kj * dm) in
  let o := sgemm_value_accumulate br_used dm bc_used (concat upd.*2) bc_used v_tile dm
             ((λ u, r_o u.1) <$> upd) in
  Ok (zip_with (λ u o, mkRow (r_m u.1) (r_l u.1) o) upd o).

(** [while kj < seq { ... kj = kj_end; }], with fuel. *)
Fixpoint flash_keys_blas (fuel : nat) (q k v : list X) (mask : Mask) (scale : X)
    (n dm bc base qi br_used kj : nat) (sts : list RowState) : res AttentionError (list RowState) :=
  if kj <? n then
    match fuel with
    | 0 => Panic
    | S fuel =>
        let kj_end := Nat.min (kj + bc) n in
        let? sts := flash_tile_blas q k v mask scale dm base qi br_used kj (kj_end - kj) sts in
        flash_keys_blas fuel q k v mask scale n dm bc base qi br_used kj_end sts
    end
  else Ok sts.

Definition normalise_blas (dm : nat) (st : RowState) : list X :=
  if is_normal_sum (r_l st) then
    let inv_l := f_div f_one (r_l st) in (λ o, f_mul o inv_l) <$> r_o st
  else replicate dm f_nan.

(** The rows of a query tile written back from [qi]. *)
Definition write_rows (out : list X) (dm qi : nat) (rows : list (list X)) : res AttentionError (list X) :=
  rfold (λ out r, write_row out ((qi + r.1) * dm) r.2) out (zip (List.seq 0 (length rows)) rows).

(** [flash_forward_bh_blas] from the query tile at [qi], with fuel. *)
Fixpoint flash_forward_bh_blas (fuel : nat) (q k v : list X) (mask : Mask) (scale : X)
    (n dm br bc base qi : nat) (out_slab : list X) : res AttentionError (list X) :=
  if qi <? n then
    match fuel with
    | 0 => Panic
    | S fuel =>
        let qi_end := Nat.min (qi + br) n in
        let br_used := qi_end - qi in
        let? sts := flash_keys_blas n q k v mask scale n dm bc base qi br_used 0
                      (replicate br_used (row_init dm)) in
        let? out_slab := write_rows out_slab dm qi (normalise_blas dm <$> sts) in
        flash_forward_bh_blas fuel q k v mask scale n dm br bc base qi_end out_slab
    end
  else Ok out_slab.

(** ** The scalar kernel (wasm32) *)

Definition flash_tile_scalar (st : RowState) (scores : list X) (vs : list (list X)) : RowState :=
  let m_new_tile := foldl f_max f_neg_inf scores in
  let st' := rescale m_new_tile st in
  let ps := (λ s, f_exp (f_sub s (r_m st'))) <$> scores in
  mkRow (r_m st') (f_add (r_l st') (foldl f_add f_zero ps)) (weighted_sum (r_o st') ps vs).

Fixpoint flash_keys_scalar (fuel : nat) (q k v : list X) (mask : Mask) (scale : X)
    (n dm bc base qi_row kj : nat) (st : RowState) : res AttentionError RowState :=
  if kj <? n then
    match fuel with
    | 0 => Panic
    | S fuel =>
        let kj_end := Nat.min (kj + bc) n in
        let? scores := score_row q k mask scale dm base qi_row kj kj_end in
        let? vs := rows_of v dm base kj kj_end in
        flash_keys_scalar fuel q k v mask scale n dm bc base qi_row kj_end
          (flash_tile_scalar st scores vs)
    end
  else Ok st.

Definition normalise_scalar (dm : nat) (st : RowState) : list X :=
  if is_normal_sum (r_l st) then (λ o, f_div o (r_l st)) <$> r_o st
  else replicate dm f_nan.

Definition flash_row_scalar (q k v : list X) (mask : Mask) (scale : X) (n dm bc base : nat)
    (out_slab : list X) (qi_row : nat) : res AttentionError (list X) :=
  let? _ := slice q (base + qi_row * dm) (base + qi_row * dm + dm) in
  let? st := flash_keys_scalar n q k v mask scale n dm bc base qi_row 0 (row_init dm) in
  write_row out_slab (qi_row * dm) (normalise_scalar dm st).

Fixpoint flash_forward_bh_scalar (fuel : nat) (q k v : list X) (mask : Mask) (scale : X)
    (n dm br bc base qi : nat) (out_slab : list X) : res AttentionError (list X) :=
  if qi <? n then
    match fuel with
    | 0 => Panic
    | S fuel =>
        let qi_end := Nat.min (qi + br) n in
        let? out_slab := rfold (flash_row_scalar q k v mask scale n dm bc base) out_slab
                           (List.seq qi (qi_end - qi)) in
        flash_forward_bh_scalar fuel q k v mask scale n dm br bc base qi_end out_slab
    end
  else Ok out_slab.

(** [out.par_chunks_mut(s_h).enumerate()]: the slabs are disjoint. *)
Definition flash_forward_masked (wasm : bool) (shape : AttentionShape) (q k v : list X) (mask : Mask)
    (out : list X) : res AttentionError (list X) :=
  let? _ := validate shape q k v out in
  let? _ := Mask_validate mask (seq shape) in
  if seq shape =? 0 then Ok out
  else
    let scale := scale_of shape in
    let s_h := stride_h shape in
    if s_h =? 0 then Panic
    else
      let? slabs := rmapM (λ bh,
        let b := bh / heads shape in
        let h := bh mod heads shape in
        let q_base := b * (heads shape * s_h) + h * s_h in
        let kernel := if wasm then flash_forward_bh_scalar else flash_forward_bh_blas in
        kernel (seq shape) q k v mask scale (seq shape) (dim shape) (br shape) (bc shape) q_base 0
          (take s_h (drop (bh * s_h) out)))
        (List.seq 0 (Nat.div (length out + s_h - 1) s_h)) in
      Ok (concat slabs).

Definition flash_forward (wasm : bool) (shape : AttentionShape) (q k v out : list X)
    : res AttentionError (list X) :=
  flash_forward_masked wasm shape q k v MaskNone out.

End attention.
