(* ===== verification/AttentionReal.v ===== *)
(** * Attention over the extended reals

    Attention.v's kernels over real numbers with the infinities and NaN of IEEE
    arithmetic (no rounding), and the theorem that the tiled kernels compute the
    attention formula, except on the rows whose first key tile is masked. *)

From Stdlib Require Import Reals Lra ZArith Lia.
From stdpp Require Import base list sets strings.
From S2P Require Import Prelude XReal Attention.

Open Scope nat_scope.

#[export] Instance xreal_f32 : F32 xreal := {|
  f_zero := FIN 0; f_one := FIN 1; f_neg_inf := NINF; f_nan := NAN;
  f_of_usize n := FIN (INR n);
  f_add := x_add; f_sub := x_sub; f_mul := x_mul; f_div := x_div;
  f_sqrt := x_sqrt; f_exp := x_exp; f_gt := x_gt; f_eq := x_eq; f_max := x_max;
  f_is_finite x := match x with FIN _ => true | _ => false end
|}.

(** ** Weights

    A score is [None] when masked; its weight relative to [M] is [exp (s - M)]. *)

Definition weight (M : R) (s : option R) : R :=
  match s with Some x => Rtrigo_def.exp (x - M) | None => 0%R end.

Definition score_x (s : option R) : xreal := match s with Some x => FIN x | None => NINF end.

(** [Σ_j weight(s_j) * v_j[d]] *)
Definition wsum (M : R) (ss : list (option R)) (vs : list (list R)) (d : nat) : R :=
  rsum (zip_with (λ s v, weight M s * nth d v 0)%R ss vs).

(** The attention of a row: the mean of the value rows under the weights
    [exp s_j] of the scores that are not masked. *)
Definition attention_row (ss : list (option R)) (vs : list (list R)) (dm : nat) : list R :=
  (λ d, wsum 0 ss vs d / rsum (weight 0 <$> ss))%R <$> List.seq 0 dm.

Definition unmasked (ss : list (option R)) : bool := existsb (λ s : option R, if s then true else false) ss.

Lemma weight_shift M s : weight M s = (weight 0 s * Rtrigo_def.exp (- M))%R.
Proof.
  destruct s as [x|]; cbn; [|lra]. rewrite <- exp_plus. f_equal. lra.
Qed.

Lemma weight_rescale M M' s : (weight M s * Rtrigo_def.exp (M - M'))%R = weight M' s.
Proof. destruct s as [x|]; cbn; [|lra]. rewrite <- exp_plus. f_equal. lra. Qed.

Lemma weight_nonneg M s : (0 <= weight M s)%R.
Proof. destruct s as [x|]; cbn; [|lra]. pose proof (exp_pos (x - M)). lra. Qed.

#[local] Arguments rsum : simpl never.

Lemma rsum_scale c l : rsum ((λ x, x * c)%R <$> l) = (rsum l * c)%R.
Proof.
  induction l as [|x l IH]; [unfold rsum; simpl; lra|].
  rewrite fmap_cons, !rsum_cons, IH. lra.
Qed.

Lemma rsum_nonneg l : Forall (λ x, 0 <= x)%R l → (0 <= rsum l)%R.
Proof. induction 1; [unfold rsum; simpl; lra|]. rewrite rsum_cons. lra. Qed.

Lemma rsum_weights_pos M ss : unmasked ss = true → (0 < rsum (weight M <$> ss))%R.
Proof.
  induction ss as [|s ss IH]; [done|]. rewrite fmap_cons, rsum_cons.
  assert (0 <= rsum (weight M <$> ss))%R as Hn.
  { apply rsum_nonneg, Forall_fmap, Forall_true. apply weight_nonneg. }
  destruct s as [x|]; cbn [unmasked existsb weight].
  - intros _. pose proof (exp_pos (x - M)). lra.
  - intros Hu. specialize (IH Hu). lra.
Qed.

Lemma rsum_weights_masked M ss : unmasked ss = false → rsum (weight M <$> ss) = 0%R.
Proof.
  induction ss as [|s ss IH]; [done|]. destruct s; [done|]. cbn [unmasked existsb].
  intros Hu. rewrite fmap_cons, rsum_cons, IH by done. cbn. lra.
Qed.

Lemma wsum_app M ss1 ss2 vs1 vs2 d : length ss1 = length vs1 →
  wsum M (ss1 ++ ss2) (vs1 ++ vs2) d = (wsum M ss1 vs1 d + wsum M ss2 vs2 d)%R.
Proof. intros Hl. unfold wsum. rewrite zip_with_app by done. apply rsum_app. Qed.

Lemma rsum_weights_app M ss1 ss2 :
  rsum (weight M <$> ss1 ++ ss2) = (rsum (weight M <$> ss1) + rsum (weight M <$> ss2))%R.
Proof. rewrite fmap_app. apply rsum_app. Qed.

(** Changing the reference score scales every weight. *)
Lemma rsum_weights_rescale M M' ss :
  (rsum (weight M <$> ss) * Rtrigo_def.exp (M - M'))%R = rsum (weight M' <$> ss).
Proof.
  rewrite <- rsum_scale, <- list_fmap_compose. f_equal. apply list_fmap_ext.
  intros i s _. apply weight_rescale.
Qed.

Lemma wsum_rescale M M' ss vs d :
  (wsum M ss vs d * Rtrigo_def.exp (M - M'))%R = wsum M' ss vs d.
Proof.
  unfold wsum. revert vs. induction ss as [|s ss IH]; intros [|v vs]; cbn [zip_with];
    try (unfold rsum; simpl; lra).
  rewrite !rsum_cons, <- IH, <- (weight_rescale M M' s). lra.
Qed.

Lemma wsum_masked M ss vs d : unmasked ss = false → wsum M ss vs d = 0%R.
Proof.
  revert vs. induction ss as [|[x|] ss IH]; intros [|v vs] Hu; try done.
  cbn [wsum zip_with]. unfold wsum. cbn [zip_with]. rewrite rsum_cons. fold (wsum M ss vs d).
  rewrite IH by done. cbn. lra.
Qed.

(** Dividing the weights divides the sum. *)
Lemma wsum_div M W ss vs d :
  rsum (zip_with (λ p v, p * nth d v 0)%R ((λ w, w / W)%R <$> (weight M <$> ss)) vs) = (wsum M ss vs d / W)%R.
Proof.
  unfold wsum. revert vs. induction ss as [|s ss IH]; intros [|v vs]; cbn [fmap list_fmap zip_with];
    try (unfold rsum; simpl; lra).
  rewrite !rsum_cons. unfold fmap in IH. rewrite IH. lra.
Qed.

(** A quotient of weighted sums does not depend on the reference score. *)
Lemma attention_ratio M ss vs d : unmasked ss = true →
  (wsum M ss vs d / rsum (weight M <$> ss))%R = (wsum 0 ss vs d / rsum (weight 0 <$> ss))%R.
Proof.
  intros Hu. rewrite <- (wsum_rescale 0 M), <- (rsum_weights_rescale 0 M).
  pose proof (rsum_weights_pos 0 ss Hu). pose proof (exp_pos (0 - M)). field. lra.
Qed.

(** ** The arithmetic of the kernels *)

Lemma x_add_assoc x y z : x_add x (x_add y z) = x_add (x_add x y) z.
Proof. destruct x, y, z; try done. cbn. f_equal. lra. Qed.

Lemma x_add_0_l x : x_add (FIN 0) x = x.
Proof. destruct x; try done. cbn. f_equal. lra. Qed.

Lemma x_add_0_r x : x_add x (FIN 0) = x.
Proof. destruct x; try done. cbn. f_equal. lra. Qed.

Lemma x_mul_comm x y : x_mul x y = x_mul y x.
Proof. destruct x, y; try done. cbn. f_equal. lra. Qed.

Lemma x_inf_pos a : (0 < a)%R → x_inf a = PINF.
Proof. intros. unfold x_inf. by rewrite Rgtb_true. Qed.

Lemma x_mul_1_l x : x_mul (FIN 1) x = x.
Proof.
  destruct x; try done; cbn; [f_equal; lra|apply x_inf_pos; lra|].
  unfold x_inf. rewrite Rgtb_false by lra. by rewrite Rgtb_true by lra.
Qed.

Lemma x_mul_nan_l x : x_mul NAN x = NAN.
Proof. by destruct x. Qed.

Lemma foldl_x_add a l : foldl x_add a l = x_add a (foldl x_add (FIN 0) l).
Proof.
  revert a. induction l as [|x l IH]; intros a; cbn [foldl]; [by rewrite x_add_0_r|].
  rewrite IH, (IH (x_add (FIN 0) x)), x_add_0_l. by rewrite x_add_assoc.
Qed.

Lemma foldl_x_add_fin a l : foldl x_add (FIN a) (FIN <$> l) = FIN (a + rsum l).
Proof.
  revert a. induction l as [|x l IH]; intros a; cbn; [f_equal; unfold rsum; simpl; lra|].
  rewrite IH, rsum_cons. f_equal. lra.
Qed.

Lemma foldl_x_add_nan l : foldl x_add NAN l = NAN.
Proof. induction l as [|x l IH]; [done|]. cbn. by destruct x. Qed.

Definition fin_row (v : list R) : list xreal := FIN <$> v.

(** A row of finite numbers given by its elements. *)
Definition vec (dm : nat) (f : nat → R) : list xreal := (λ d, FIN (f d)) <$> List.seq 0 dm.

Lemma vec_ext dm f g : (∀ d, d < dm → f d = g d) → vec dm f = vec dm g.
Proof.
  intros Hfg. unfold vec. apply list_fmap_ext. intros i d Hd.
  apply lookup_seq in Hd as [-> Hd]. simpl. by rewrite Hfg.
Qed.

Lemma length_vec dm f : length (vec dm f) = dm.
Proof. unfold vec. by rewrite length_fmap, length_seq. Qed.

Lemma vec_zero dm : replicate dm (FIN 0) = vec dm (λ _, 0%R).
Proof.
  unfold vec. rewrite <- (length_seq dm 0) at 1. by rewrite <- const_fmap with (f := λ _, FIN 0).
Qed.

Lemma axpy_vec dm f p v : length v = dm →
  axpy (vec dm f) (FIN p) (fin_row v) = vec dm (λ d, (f d + p * nth d v 0)%R).
Proof.
  intros Hv. apply list_eq. intros d. unfold axpy, vec, fin_row. rewrite lookup_zip_with, !list_lookup_fmap.
  destruct (decide (d < dm)) as [Hd|Hd].
  - rewrite (lookup_seq_lt 0 dm d Hd). cbn.
    destruct (lookup_lt_is_Some_2 v d) as [x Hx]; [lia|]. rewrite Hx. cbn.
    by rewrite (nth_lookup_Some v d 0%R x Hx).
  - rewrite (lookup_seq_ge 0 dm d) by lia. done.
Qed.

Lemma weighted_sum_vec dm f (ps : list R) vs : Forall (λ v, length v = dm) vs →
  weighted_sum (vec dm f) (FIN <$> ps) (fin_row <$> vs) =
  vec dm (λ d, (f d + rsum (zip_with (λ p v, p * nth d v 0) ps vs))%R).
Proof.
  intros Hvs. revert f ps. induction Hvs as [|v vs Hv _ IH]; intros f [|p ps]; cbn [fmap list_fmap zip zip_with].
  1-3: unfold weighted_sum; simpl; apply vec_ext; intros; unfold rsum; simpl; lra.
  unfold weighted_sum. cbn [zip zip_with foldl fst snd].
  change (foldl _ ?o (zip ?a ?b)) with (weighted_sum o a b).
  rewrite axpy_vec by done. rewrite IH. apply vec_ext. intros d _. rewrite rsum_cons. lra.
Qed.

Lemma axpy_nan dm p v : length v = dm → axpy (replicate dm NAN) p (fin_row v) = replicate dm NAN.
Proof.
  intros <-. unfold axpy, fin_row. induction v as [|x v IH]; [done|].
  cbn [length replicate fmap list_fmap zip_with]. by f_equal.
Qed.

Lemma weighted_sum_nan dm ps vs : Forall (λ v, length v = dm) vs →
  weighted_sum (replicate dm NAN) ps (fin_row <$> vs) = replicate dm NAN.
Proof.
  intros Hvs. revert ps. induction Hvs as [|v vs Hv _ IH]; intros [|p ps]; try done.
  unfold weighted_sum. cbn [fmap list_fmap zip zip_with foldl fst snd].
  change (foldl _ ?o (zip ?a ?b)) with (weighted_sum o a b).
  rewrite axpy_nan by done. apply IH.
Qed.

(** *** Maxima of scores *)

(** The two ways of the code to keep a running maximum. *)
Definition gt_max (m x : xreal) : xreal := if x_gt x m then x else m.

Lemma gt_max_score m s : m ≠ NAN → x_max m (score_x s) = gt_max m (score_x s) ∧ gt_max m (score_x s) ≠ NAN.
Proof.
  intros Hm. unfold gt_max. destruct s as [y|], m as [z| | |]; cbn; try done.
  destruct (Rtotal_order y z) as [Hl|[->|Hg]].
  - by rewrite (Rgtb_true z y), (Rgtb_false y z) by lra.
  - by rewrite Rgtb_false by lra.
  - by rewrite (Rgtb_false z y), (Rgtb_true y z) by lra.
Qed.

Lemma foldl_max_scores m ss : m ≠ NAN →
  foldl x_max m (score_x <$> ss) = foldl gt_max m (score_x <$> ss).
Proof.
  revert m. induction ss as [|s ss IH]; intros m Hm; [done|]. cbn.
  destruct (gt_max_score m s Hm) as [-> Hn]. by apply IH.
Qed.

Lemma gt_max_fin M ss : ∃ M', foldl gt_max (FIN M) (score_x <$> ss) = FIN M'.
Proof.
  revert M. induction ss as [|[x|] ss IH]; intros M; cbn; [by exists M| |apply IH].
  unfold gt_max at 2. cbn. destruct (Rgtb x M); apply IH.
Qed.

Lemma max_unmasked ss : unmasked ss = true → ∃ M, foldl gt_max NINF (score_x <$> ss) = FIN M.
Proof. induction ss as [|[x|] ss IH]; intros Hu; [done| |by apply IH]. apply gt_max_fin. Qed.

Lemma max_masked ss : unmasked ss = false → foldl gt_max NINF (score_x <$> ss) = NINF.
Proof. induction ss as [|[x|] ss IH]; intros Hu; [done|done|by apply IH]. Qed.

Lemma exps_weight M (ss : list (option R)) :
  (λ x, x_exp (x_sub x (FIN M))) <$> (score_x <$> ss) = FIN <$> (weight M <$> ss).
Proof. rewrite <- !list_fmap_compose. apply list_fmap_ext. intros i [x|] _; done. Qed.

(** ** The state of a query row

    [ss] are the scores seen so far and [vs] the value rows. *)

Definition row_live (dm : nat) (ss : list (option R)) (vs : list (list R)) (st : RowState (X := xreal)) : Prop :=
  ∃ M, st = mkRow (FIN M) (FIN (rsum (weight M <$> ss))) (vec dm (wsum M ss vs)).
Definition row_dead (dm : nat) (st : RowState (X := xreal)) : Prop :=
  r_l st = NAN ∧ r_o st = replicate dm NAN.

Lemma rescale_live dm m_tile M l o : m_tile ≠ NAN → m_tile ≠ PINF →
  ∃ M', rescale m_tile (mkRow (FIN M) (FIN l) (vec dm o)) =
    mkRow (FIN M') (FIN (l * Rtrigo_def.exp (M - M')))
      (vec dm (λ d, o d * Rtrigo_def.exp (M - M'))%R).
Proof.
  intros Hn Hp. unfold rescale. cbn [r_m r_l r_o].
  assert (∃ M', (if f_gt m_tile (FIN M) then m_tile else FIN M) = FIN M') as [M' ->].
  { destruct m_tile as [x| | |]; try done; [|by exists M]. cbn. destruct (Rgtb x M); by eexists. }
  exists M'. change (f_eq (FIN M) f_neg_inf) with false. cbn [f_exp f_sub xreal_f32 x_sub x_neg x_add x_exp].
  replace (M + - M')%R with (M - M')%R by lra.
  unfold f_ne. cbn [f_eq f_one xreal_f32 x_eq].
  unfold Reqb. destruct (Req_EM_T _ 1) as [He|He]; cbn [negb].
  - rewrite He. f_equal; [f_equal; lra|]. apply vec_ext. intros. lra.
  - f_equal. unfold vec. rewrite <- list_fmap_compose. done.
Qed.

Lemma rescale_init dm m_tile : m_tile ≠ NAN →
  rescale m_tile (row_init dm) = mkRow m_tile (FIN 0) (vec dm (λ _, 0%R)).
Proof.
  intros Hn. unfold rescale, row_init. cbn [r_m r_l r_o].
  assert ((if f_gt m_tile f_neg_inf then m_tile else f_neg_inf) = m_tile) as ->.
  { destruct m_tile; done. }
  cbn. unfold f_ne. cbn. rewrite Reqb_false by lra. cbn.
  f_equal; [f_equal; lra|]. rewrite fmap_replicate. cbn. rewrite <- vec_zero. do 2 f_equal. lra.
Qed.

Lemma rescale_dead dm m_tile st : row_dead dm st → row_dead dm (rescale m_tile st).
Proof.
  intros [Hl Ho]. unfold rescale. destruct (f_ne _ _); [|by split].
  split; cbn; [by rewrite Hl|]. by rewrite Ho, fmap_replicate.
Qed.

(** One tile of the scalar kernel. *)
Lemma tile_live dm ss vs ts tvs st : row_live dm ss vs st → length ss = length vs →
  Forall (λ v, length v = dm) tvs →
  row_live dm (ss ++ ts) (vs ++ tvs) (flash_tile_scalar st (score_x <$> ts) (fin_row <$> tvs)).
Proof.
  intros [M ->] Hl Hv. unfold flash_tile_scalar. cbn [f_max f_neg_inf xreal_f32].
  rewrite foldl_max_scores by done.
  assert (foldl gt_max NINF (score_x <$> ts) ≠ NAN ∧ foldl gt_max NINF (score_x <$> ts) ≠ PINF) as [H1 H2].
  { destruct (unmasked ts) eqn:Hu; [by destruct (max_unmasked ts Hu) as [? ->]|by rewrite max_masked]. }
  destruct (rescale_live dm _ M (rsum (weight M <$> ss)) (wsum M ss vs) H1 H2) as [M' ->].
  cbn [r_m r_l r_o f_exp f_sub f_add f_zero xreal_f32].
  rewrite exps_weight, foldl_x_add_fin, weighted_sum_vec by done.
  exists M'. rewrite rsum_weights_rescale. cbn [x_add]. f_equal.
  - rewrite rsum_weights_app. f_equal. lra.
  - apply vec_ext. intros d _. rewrite wsum_app, wsum_rescale by done. f_equal.
    unfold wsum. by rewrite zip_with_fmap_l.
Qed.

Lemma tile_first dm ts tvs : unmasked ts = true → Forall (λ v, length v = dm) tvs →
  row_live dm ts tvs (flash_tile_scalar (row_init dm) (score_x <$> ts) (fin_row <$> tvs)).
Proof.
  intros Hu Hv. unfold flash_tile_scalar. cbn [f_max f_neg_inf xreal_f32].
  rewrite foldl_max_scores by done. destruct (max_unmasked ts Hu) as [M ->].
  rewrite rescale_init by done. cbn [r_m r_l r_o f_exp f_sub f_add f_zero xreal_f32].
  rewrite exps_weight, foldl_x_add_fin, weighted_sum_vec by done.
  exists M. cbn [x_add]. f_equal; [f_equal; lra|]. apply vec_ext. intros d _.
  rewrite Rplus_0_l. unfold wsum. by rewrite zip_with_fmap_l.
Qed.

Lemma tile_masked dm ts tvs : ts ≠ [] → length ts = length tvs → unmasked ts = false →
  Forall (λ v, length v = dm) tvs →
  row_dead dm (flash_tile_scalar (row_init dm) (score_x <$> ts) (fin_row <$> tvs)).
Proof.
  intros Hne Hl Hu Hv. unfold flash_tile_scalar. cbn [f_max f_neg_inf xreal_f32].
  rewrite foldl_max_scores by done. rewrite max_masked by done. rewrite rescale_init by done.
  cbn [r_m r_l r_o f_exp f_sub f_add f_zero xreal_f32].
  destruct ts as [|[x|] ts]; [done|done|]. destruct tvs as [|v tvs]; [done|].
  apply Forall_cons in Hv as [Hv Hvs]. split; cbn [r_l r_o].
  - cbn. by rewrite foldl_x_add_nan.
  - rewrite !fmap_cons. unfold weighted_sum. cbn [zip zip_with foldl fst snd].
    change (foldl _ ?o (zip ?a ?b)) with (weighted_sum o a b).
    replace (axpy _ _ (fin_row v)) with (replicate dm NAN); [by apply weighted_sum_nan|].
    cbn [score_x x_sub x_neg x_add x_exp].
    subst dm. unfold axpy, fin_row. rewrite <- vec_zero.
    clear. induction v as [|y v IH]; [done|]. cbn [length replicate fmap list_fmap zip_with]. by f_equal.
Qed.

Lemma tile_dead dm ts tvs st : row_dead dm st → Forall (λ v, length v = dm) tvs →
  row_dead dm (flash_tile_scalar st (score_x <$> ts) (fin_row <$> tvs)).
Proof.
  intros Hd Hv. unfold flash_tile_scalar.
  destruct (rescale_dead dm (foldl f_max f_neg_inf (score_x <$> ts)) st Hd) as [Hl Ho].
  split; cbn [r_l r_o]; [by rewrite Hl|]. rewrite Ho. by apply weighted_sum_nan.
Qed.

(** ** One head

    The matrices of a head start at [base] in finite buffers of at least
    [base + n * dm] elements. *)

Definition row_at (buf : list R) (p dm : nat) : list R := take dm (drop p buf).
Definition rdot (a b : list R) : R := rsum (zip_with Rmult a b).

Lemma slice_fin (buf : list R) p dm : p + dm ≤ length buf →
  slice (fin_row buf) p (p + dm) = Ok (fin_row (row_at buf p dm)).
Proof.
  intros Hp. unfold slice, fin_row, row_at. rewrite length_fmap.
  rewrite (proj2 (Nat.ltb_ge _ _)), (proj2 (Nat.ltb_ge _ _)) by lia. cbn [orb].
  replace (p + dm - p) with dm by lia. by rewrite fmap_take, fmap_drop.
Qed.

Lemma slice_from_fin (buf : list R) p : p ≤ length buf →
  slice_from (fin_row buf) p = Ok (fin_row (drop p buf)).
Proof.
  intros Hp. unfold slice_from, fin_row. rewrite length_fmap.
  rewrite (proj2 (Nat.ltb_ge _ _)) by lia. by rewrite fmap_drop.
Qed.

Lemma length_row_at buf p dm : p + dm ≤ length buf → length (row_at buf p dm) = dm.
Proof. intros. unfold row_at. rewrite length_take, length_drop. lia. Qed.

Lemma dot_fin a b : dot (fin_row a) (fin_row b) = FIN (rdot a b).
Proof.
  unfold dot, rdot. cbn [f_zero f_add f_mul xreal_f32].
  assert (∀ s, foldl (λ s ab, x_add s (x_mul ab.1 ab.2)) (FIN s) (zip (fin_row a) (fin_row b)) =
    FIN (s + rsum (zip_with Rmult a b))) as H; [|rewrite H; f_equal; lra].
  revert b. unfold fin_row. induction a as [|x a IH]; intros [|y b] s; cbn [zip zip_with fmap list_fmap foldl].
  1-3: f_equal; unfold rsum; simpl; lra.
  cbn [fst snd x_mul x_add]. rewrite IH, rsum_cons. f_equal. lra.
Qed.

(** ** The matrix product

    What [gemm] documents: [dst := alpha * dst + beta * lhs * rhs] with the
    given strides, [dst] not read when [read_dst] is false. *)
Notation Gemm := (nat → nat → nat → list (list xreal) → bool →
  list xreal → nat → nat → list xreal → nat → nat → xreal → xreal → list (list xreal)).

Definition gemm_rows : Gemm := λ m n k dst read_dst lhs lhs_cs lhs_rs rhs rhs_cs rhs_rs alpha beta,
  (λ i, (λ j,
    let prod := x_mul beta (foldl x_add (FIN 0) ((λ p,
      x_mul (nth (i * lhs_rs + p * lhs_cs) lhs NAN) (nth (p * rhs_rs + j * rhs_cs) rhs NAN))
      <$> List.seq 0 k)) in
    if read_dst then x_add (x_mul alpha (nth j (nth i dst []) NAN)) prod else prod)
    <$> List.seq 0 n) <$> List.seq 0 m.

Definition gemm_ok (gemm : Gemm) : Prop :=
  ∀ m n k dst read_dst lhs lhs_cs lhs_rs rhs rhs_cs rhs_rs alpha beta,
    length dst = m → Forall (λ row, length row = n) dst →
    (∀ i p, i < m → p < k → i * lhs_rs + p * lhs_cs < length lhs) →
    (∀ p j, p < k → j < n → p * rhs_rs + j * rhs_cs < length rhs) →
    gemm m n k dst read_dst lhs lhs_cs lhs_rs rhs rhs_cs rhs_rs alpha beta =
    gemm_rows m n k dst read_dst lhs lhs_cs lhs_rs rhs rhs_cs rhs_rs alpha beta.

Lemma nth_fin (buf : list R) i : i < length buf → nth i (fin_row buf) NAN = FIN (nth i buf 0%R).
Proof.
  intros Hi. destruct (lookup_lt_is_Some_2 buf i Hi) as [x Hx].
  unfold fin_row. rewrite (nth_lookup_Some _ _ NAN (FIN x)) by (by rewrite list_lookup_fmap, Hx).
  by rewrite (nth_lookup_Some _ _ _ _ Hx).
Qed.

Lemma products_rdot (a b : list R) p1 p2 k : p1 + k ≤ length a → p2 + k ≤ length b →
  foldl x_add (FIN 0) ((λ p, x_mul (nth (p1 + p) (fin_row a) NAN) (nth (p2 + p) (fin_row b) NAN)) <$> List.seq 0 k)
  = FIN (rdot (row_at a p1 k) (row_at b p2 k)).
Proof.
  intros Ha Hb.
  replace (_ <$> List.seq 0 k) with (FIN <$> zip_with Rmult (row_at a p1 k) (row_at b p2 k)).
  { rewrite foldl_x_add_fin. unfold rdot. f_equal. lra. }
  apply list_eq. intros p. rewrite !list_lookup_fmap, lookup_zip_with. unfold row_at.
  destruct (decide (p < k)) as [Hp|Hp].
  - rewrite !lookup_take_lt, !lookup_drop, (lookup_seq_lt 0 k p Hp) by done. cbn [fmap option_fmap option_map Nat.add].
    rewrite !nth_fin by lia.
    destruct (lookup_lt_is_Some_2 a (p1 + p)) as [x Hx]; [lia|].
    destruct (lookup_lt_is_Some_2 b (p2 + p)) as [y Hy]; [lia|].
    rewrite Hx, Hy. cbn. by rewrite (nth_lookup_Some _ _ _ _ Hx), (nth_lookup_Some _ _ _ _ Hy).
  - rewrite (lookup_seq_ge 0 k p) by lia. rewrite !lookup_take_ge by lia. reflexivity.
Qed.

Lemma lookup_nth {A} (l : list A) i d : i < length l → l !! i = Some (nth i l d).
Proof. intros Hi. destruct (nth_lookup_or_length l i d); [done|lia]. Qed.

(** The elements of a weighted sum. *)
Lemma axpy_lookup o p v j : j < length o → length v = length o →
  nth j (axpy o p v) NAN = x_add (nth j o NAN) (x_mul p (nth j v NAN)) ∧ length (axpy o p v) = length o.
Proof.
  intros Hj Hv. unfold axpy. split; [|rewrite length_zip_with; lia].
  apply nth_lookup_Some. rewrite lookup_zip_with, (lookup_nth o j NAN), (lookup_nth v j NAN) by lia. done.
Qed.

Lemma weighted_sum_nth o ps vs j : j < length o → length ps = length vs →
  Forall (λ v, length v = length o) vs →
  nth j (weighted_sum o ps vs) NAN =
  x_add (nth j o NAN) (foldl x_add (FIN 0) (zip_with (λ p v, x_mul p (nth j v NAN)) ps vs)) ∧
  length (weighted_sum o ps vs) = length o.
Proof.
  revert o ps. induction vs as [|v vs IH]; intros o [|p ps] Hj Hl Hvs; try done.
  { unfold weighted_sum. simpl. by rewrite x_add_0_r. }
  apply Forall_cons in Hvs as [Hv Hvs]. unfold weighted_sum. cbn [zip zip_with foldl fst snd].
  change (foldl _ ?o (zip ?a ?b)) with (weighted_sum o a b).
  destruct (axpy_lookup o p v j Hj Hv) as [Hnth Hlen].
  destruct (IH (axpy o p v) ps) as [-> ->]; rewrite ?Hlen; [done|by injection Hl|done|].
  split; [|done]. rewrite Hnth, x_add_0_l, (foldl_x_add (x_mul _ _)). by rewrite x_add_assoc.
Qed.

Lemma length_concat_rows {A} (rows : list (list A)) c : Forall (λ row, length row = c) rows →
  length (concat rows) = length rows * c.
Proof. induction 1 as [|row rows Hr _ IH]; [done|]. cbn. rewrite length_app, IH. lia. Qed.

Lemma nth_concat_rows {A} (rows : list (list A)) c r p d : Forall (λ row, length row = c) rows →
  r < length rows → p < c → nth (r * c + p) (concat rows) d = nth p (nth r rows []) d.
Proof.
  intros Hrows. revert r. induction Hrows as [|row rows Hr _ IH]; intros r Hlt Hp; [simpl in Hlt; lia|].
  destruct r as [|r]; cbn [concat nth]; [rewrite app_nth1 by lia; done|].
  rewrite app_nth2 by lia. rewrite <- IH by (simpl in Hlt; lia). f_equal. lia.
Qed.

Lemma nth_row_at buf p dm j d : j < dm → nth j (row_at buf p dm) d = nth (p + j) buf d.
Proof. intros Hj. unfold row_at. by rewrite !nth_lookup, lookup_take_lt, lookup_drop. Qed.

Lemma imap_id {A} (l : list A) : imap (λ _ x, x) l = l.
Proof. apply list_eq. intros i. rewrite list_lookup_imap. by destruct (l !! i). Qed.

Lemma mask_tile_imap mask qi kj (s : list (list xreal)) :
  mask_tile mask qi kj s = imap (λ r row, mask_row mask (qi + r) kj row) s.
Proof.
  unfold mask_tile. destruct mask; try done. symmetry.
  rewrite <- (imap_id s) at 2. apply imap_ext. intros r row _. apply imap_id.
Qed.

(** *** Writing rows *)

Lemma write_row_app {A} (pre mid row rest : list A) : length mid = length row →
  write_row (pre ++ mid ++ rest) (length pre) row = Ok (pre ++ row ++ rest).
Proof.
  intros Hl. unfold write_row. rewrite !length_app, (proj2 (Nat.ltb_ge _ _)) by lia.
  rewrite take_app_length, <- Hl, <- drop_drop, drop_app_length, drop_app_length. done.
Qed.

(** A buffer after its first [g] rows are written. *)
Definition rows_written {A} (f : nat → list A) (dm : nat) (out : list A) (g : nat) : list A :=
  concat (f <$> List.seq 0 g) ++ drop (g * dm) out.

Lemma write_next {A} (f : nat → list A) dm out g : (∀ i, length (f i) = dm) → (g + 1) * dm ≤ length out →
  write_row (rows_written f dm out g) (g * dm) (f g) = Ok (rows_written f dm out (S g)).
Proof.
  intros Hf Hg. unfold rows_written.
  rewrite <- (take_drop dm (drop (g * dm) out)), drop_drop.
  set (pre := concat _).
  pose proof (write_row_app pre (take dm (drop (g * dm) out)) (f g) (drop (g * dm + dm) out)) as H.
  assert (length pre = g * dm) as Hpre.
  { unfold pre. rewrite (length_concat_rows _ dm), length_fmap, length_seq; [done|].
    apply Forall_fmap, Forall_true, Hf. }
  rewrite Hpre in H. rewrite H; clear H.
  - f_equal. rewrite seq_S, fmap_app, concat_app, <- app_assoc. cbn. rewrite app_nil_r.
    fold pre. do 3 f_equal. lia.
  - rewrite length_take, length_drop, Hf. lia.
Qed.

Lemma rows_written_full {A} (f : nat → list A) dm out g : length out = g * dm →
  rows_written f dm out g = concat (f <$> List.seq 0 g).
Proof. intros Hout. unfold rows_written. rewrite drop_ge by lia. apply app_nil_r. Qed.

(** Rows numbered through all heads. *)
Lemma concat_heads {A} (f : nat → nat → list A) n m : 0 < n →
  concat ((λ a, concat (f a <$> List.seq 0 n)) <$> List.seq 0 m) =
  concat ((λ g, f (g / n) (g mod n)) <$> List.seq 0 (m * n)).
Proof.
  intros Hn. induction m as [|m IH]; [done|].
  rewrite seq_S, fmap_app, concat_app, IH. replace (S m * n) with (m * n + n) by lia.
  rewrite seq_app, fmap_app, concat_app. cbn [fmap list_fmap concat Nat.add]. rewrite app_nil_r. do 2 f_equal.
  rewrite <- (Nat.add_0_r (m * n)), <- fmap_add_seq, <- list_fmap_compose.
  apply list_fmap_ext. intros j ? [-> Hj]%lookup_seq. unfold compose.
  rewrite Nat.add_0_l, (Nat.add_comm (m * n)), Nat.div_add, Nat.Div0.mod_add, Nat.div_small, Nat.mod_small by lia.
  done.
Qed.

Section head.
Context (dm n bc base : nat) (scale : R) (mask : Mask) (qr kr vr : list R).
Context (Hn : 0 < n) (Hdm : 0 < dm) (Hbc : 0 < bc).
Context (Hq : base + n * dm ≤ length qr) (Hk : base + n * dm ≤ length kr) (Hv : base + n * dm ≤ length vr).

Definition score (i j : nat) : option R :=
  if is_masked mask i j then None
  else Some (rdot (row_at qr (base + i * dm) dm) (row_at kr (base + j * dm) dm) * scale)%R.
Definition scores (i from to_ : nat) : list (option R) := score i <$> List.seq from (to_ - from).
Definition vrows (from to_ : nat) : list (list R) :=
  (λ j, row_at vr (base + j * dm) dm) <$> List.seq from (to_ - from).

(** Whether the query row has a key that is not masked in its first key tile. *)
Definition first_tile_open (i : nat) : bool := unmasked (scores i 0 (Nat.min bc n)).

(** The attention formula, or NaN. *)
Definition attention_out (ok : bool) (i : nat) : list xreal :=
  if ok then fin_row (attention_row (scores i 0 n) (vrows 0 n) dm) else replicate dm NAN.

Lemma in_range j p : j < n → p + n * dm ≤ length qr → base + j * dm + dm ≤ base + n * dm.
Proof. nia. Qed.

Lemma score_row_fin i from to_ : i < n → to_ ≤ n →
  score_row (fin_row qr) (fin_row kr) mask (FIN scale) dm base i from to_ = Ok (score_x <$> scores i from to_).
Proof.
  intros Hi Hto. unfold score_row, scores. rewrite <- list_fmap_compose. apply rmapM_seq.
  intros j Hj1 Hj2. unfold compose, score. destruct (is_masked mask i j); [done|].
  rewrite !slice_fin by nia. cbn [rbind]. by rewrite dot_fin.
Qed.

Lemma rows_of_fin from to_ : to_ ≤ n →
  rows_of (fin_row vr) dm base from to_ = Ok (fin_row <$> vrows from to_).
Proof.
  intros Hto. unfold rows_of, vrows. rewrite <- list_fmap_compose. apply rmapM_seq.
  intros j Hj1 Hj2. by rewrite slice_fin by nia.
Qed.

Lemma vrows_wf from to_ : to_ ≤ n → Forall (λ v, length v = dm) (vrows from to_).
Proof.
  intros Hto. apply Forall_fmap, Forall_forall. intros j Hj%elem_of_seq. apply length_row_at. nia.
Qed.

Lemma length_scores_vrows i from to_ : length (scores i from to_) = length (vrows from to_).
Proof. unfold scores, vrows. by rewrite !length_fmap. Qed.

Lemma seq_split {B} (f : nat → B) a b c : a ≤ b → b ≤ c →
  (f <$> List.seq a (b - a)) ++ (f <$> List.seq b (c - b)) = f <$> List.seq a (c - a).
Proof.
  intros. replace (c - a) with ((b - a) + (c - b)) by lia.
  rewrite seq_app, fmap_app. do 3 f_equal. lia.
Qed.

(** The state of row [i] before the key tile at [kj]. *)
Definition state_at (i kj : nat) (st : RowState) : Prop :=
  (kj = 0 ∧ st = row_init dm) ∨
  (0 < kj ∧ if first_tile_open i then row_live dm (scores i 0 kj) (vrows 0 kj) st else row_dead dm st).

Lemma state_step i kj st : kj < n → state_at i kj st →
  let kj' := Nat.min (kj + bc) n in
  state_at i kj' (flash_tile_scalar st (score_x <$> scores i kj kj') (fin_row <$> vrows kj kj')).
Proof.
  intros Hkj Hst kj'. right. split; [lia|].
  assert (Forall (λ v, length v = dm) (vrows kj kj')) as Hwf by (apply vrows_wf; lia).
  destruct Hst as [[-> ->]|[Hpos Hst]].
  - unfold kj', first_tile_open. cbn [Nat.add].
    destruct (unmasked _) eqn:Hu; [by apply tile_first|].
    apply tile_masked; [|apply length_scores_vrows|done..].
    intros He%(f_equal length). unfold scores in He. rewrite length_fmap, length_seq in He. simpl in He. lia.
  - destruct (first_tile_open i); [|by apply tile_dead].
    pose proof (tile_live dm _ _ (scores i kj kj') (vrows kj kj') st Hst
      (length_scores_vrows i 0 kj) Hwf) as Hl.
    unfold scores, vrows in Hl. rewrite !seq_split in Hl by lia. exact Hl.
Qed.

Lemma keys_scalar fuel i kj st : i < n → n - kj ≤ fuel → kj ≤ n → state_at i kj st →
  ∃ st', flash_keys_scalar fuel (fin_row qr) (fin_row kr) (fin_row vr) mask (FIN scale) n dm bc base i kj st
    = Ok st' ∧ state_at i n st'.
Proof.
  intros Hi. revert kj st. induction fuel as [|fuel IH]; intros kj st Hf Hkj Hst; cbn [flash_keys_scalar].
  - replace kj with n in * by lia. rewrite Nat.ltb_irrefl. by exists st.
  - destruct (Nat.ltb_spec kj n) as [Hlt|Hge]; [|replace kj with n in * by lia; by exists st].
    rewrite score_row_fin, rows_of_fin by lia. cbn [rbind].
    apply IH; [lia|lia|]. by apply state_step.
Qed.

Lemma unmasked_app ss ts : unmasked (ss ++ ts) = unmasked ss || unmasked ts.
Proof. apply existsb_app. Qed.

Lemma first_tile_unmasked i : first_tile_open i = true → unmasked (scores i 0 n) = true.
Proof.
  unfold first_tile_open, scores. intros Hu.
  rewrite <- (seq_split _ 0 (Nat.min bc n) n) by lia. by rewrite unmasked_app, Hu.
Qed.

Lemma normalise_row i st : state_at i n st →
  normalise_scalar dm st = attention_out (first_tile_open i) i ∧
  normalise_blas dm st = attention_out (first_tile_open i) i.
Proof.
  intros [[? _]|[_ Hst]]; [lia|]. unfold attention_out.
  destruct (first_tile_open i) eqn:Ho.
  - apply first_tile_unmasked in Ho. destruct Hst as [M ->].
    pose proof (rsum_weights_pos M _ Ho) as Hpos.
    unfold normalise_scalar, normalise_blas, is_normal_sum. cbn [r_l r_o].
    cbn [f_gt f_zero f_is_finite xreal_f32 x_gt]. rewrite Rgtb_true by done. cbn [andb].
    unfold fin_row, attention_row, vec. rewrite <- !list_fmap_compose. unfold compose.
    cbn [f_div f_mul f_one xreal_f32 x_div]. rewrite Reqb_false by lra. cbn [x_mul].
    split; apply list_fmap_ext; intros _ d _; f_equal; rewrite <- (attention_ratio M) by done; [done|].
    field. lra.
  - destruct Hst as [Hl Ho']. unfold normalise_scalar, normalise_blas, is_normal_sum.
    by rewrite Hl.
Qed.

(** *** The kernel with matrix products *)
Context (gemm : Gemm) (Hgemm : gemm_ok gemm).

Lemma score_tile_fin qi br_used kj bc_used s : qi + br_used ≤ n → kj + bc_used ≤ n →
  length s = br_used → Forall (λ row, length row = bc_used) s →
  sgemm_score_tile gemm br_used bc_used dm (FIN scale) (fin_row (drop (base + qi * dm) qr)) dm
    (fin_row (drop (base + kj * dm) kr)) dm s =
  (λ r, (λ j, FIN (scale * rdot (row_at qr (base + (qi + r) * dm) dm) (row_at kr (base + (kj + j) * dm) dm)))
    <$> List.seq 0 bc_used) <$> List.seq 0 br_used.
Proof.
  intros Hqi Hkj Hs Hrows. unfold sgemm_score_tile.
  rewrite Hgemm; [|done|done|unfold fin_row; rewrite length_fmap, length_drop; intros; nia..].
  unfold gemm_rows. apply list_fmap_ext. intros r ? [-> Hr]%lookup_seq. cbn [Nat.add].
  apply list_fmap_ext. intros j ? [-> Hj]%lookup_seq. cbn [Nat.add].
  replace ((λ p, _) <$> List.seq 0 dm) with ((λ p,
    x_mul (nth (r * dm + p) (fin_row (drop (base + qi * dm) qr)) NAN)
          (nth (j * dm + p) (fin_row (drop (base + kj * dm) kr)) NAN)) <$> List.seq 0 dm); cycle 1.
  { apply list_fmap_ext. intros ? p _. by rewrite Nat.mul_1_r, (Nat.add_comm p). }
  rewrite products_rdot by (rewrite length_drop; nia). cbn [x_mul].
  unfold row_at. rewrite !drop_drop.
  replace (base + (qi + r) * dm) with (base + qi * dm + r * dm) by lia.
  by replace (base + (kj + j) * dm) with (base + kj * dm + j * dm) by lia.
Qed.

Lemma mask_score_row mask' qi r kj bc_used : mask' = mask →
  imap (λ c cell, if is_masked mask' (qi + r) (kj + c) then f_neg_inf else cell)
    ((λ j, FIN (scale * rdot (row_at qr (base + (qi + r) * dm) dm) (row_at kr (base + (kj + j) * dm) dm)))
      <$> List.seq 0 bc_used) =
  score_x <$> scores (qi + r) kj (kj + bc_used).
Proof.
  intros ->. apply list_eq. intros j. unfold scores. rewrite list_lookup_imap, !list_lookup_fmap.
  replace (kj + bc_used - kj) with bc_used by lia.
  destruct (decide (j < bc_used)) as [Hj|Hj].
  - rewrite !lookup_seq_lt by done. cbn [fmap option_fmap option_map Nat.add]. unfold score.
    destruct (is_masked mask (qi + r) (kj + j)); cbn; do 2 f_equal. lra.
  - by rewrite !lookup_seq_ge by lia.
Qed.

(** The masked score tile holds the scores of each row. *)
Lemma mask_tile_scores qi br_used kj bc_used :
  mask_tile mask qi kj ((λ r, (λ j,
      FIN (scale * rdot (row_at qr (base + (qi + r) * dm) dm) (row_at kr (base + (kj + j) * dm) dm)))
    <$> List.seq 0 bc_used) <$> List.seq 0 br_used) =
  (λ r, score_x <$> scores (qi + r) kj (kj + bc_used)) <$> List.seq 0 br_used.
Proof.
  rewrite mask_tile_imap.
  apply list_eq. intros r. rewrite list_lookup_imap, !list_lookup_fmap.
  destruct (decide (r < br_used)) as [Hr|Hr]; [|by rewrite lookup_seq_ge by lia].
  rewrite !lookup_seq_lt by done. cbn [fmap option_fmap option_map Nat.add].
  f_equal. unfold mask_row. by apply mask_score_row.
Qed.

Lemma value_tile_fin br_used kj bc_used os ps : kj + bc_used ≤ n →
  length os = br_used → Forall (λ o, length o = dm) os →
  length ps = br_used → Forall (λ row, length row = bc_used) ps →
  sgemm_value_accumulate gemm br_used dm bc_used (concat ps) bc_used
    (fin_row (drop (base + kj * dm) vr)) dm os =
  zip_with (λ o p, weighted_sum o p (fin_row <$> vrows kj (kj + bc_used))) os ps.
Proof.
  intros Hkj Hos Hol Hps Hpl. unfold sgemm_value_accumulate.
  rewrite Hgemm; [|done|done| |].
  2: { intros i p Hi Hp. rewrite (length_concat_rows ps bc_used) by done. nia. }
  2: { intros p j Hp Hj. unfold fin_row. rewrite length_fmap, length_drop. nia. }
  unfold gemm_rows. apply list_eq. intros r. rewrite lookup_zip_with, list_lookup_fmap.
  destruct (decide (r < br_used)) as [Hr|Hr]; cycle 1.
  { rewrite lookup_seq_ge by lia. by rewrite (lookup_ge_None_2 os) by lia. }
  rewrite lookup_seq_lt, (lookup_nth os r []), (lookup_nth ps r []) by lia.
  cbn [mbind option_bind fmap option_fmap option_map Nat.add]. f_equal.
  assert (length (nth r os []) = dm) as Ho.
  { rewrite Forall_lookup in Hol. eapply Hol, lookup_nth. lia. }
  assert (length (nth r ps []) = bc_used) as Hp.
  { rewrite Forall_lookup in Hpl. eapply Hpl, lookup_nth. lia. }
  set (vs := fin_row <$> vrows kj (kj + bc_used)).
  assert (length (nth r ps []) = length vs) as Hpv.
  { unfold vs, vrows. rewrite !length_fmap, length_seq. lia. }
  assert (Forall (λ v, length v = length (nth r os [])) vs) as Hvs.
  { unfold vs. apply Forall_fmap. eapply Forall_impl; [apply vrows_wf; exact Hkj|].
    intros v Hlv. cbn. unfold fin_row. rewrite length_fmap. by rewrite Ho. }
  apply list_eq. intros j. destruct (decide (j < dm)) as [Hj|Hj]; cycle 1.
  { rewrite (lookup_ge_None_2 _ j) by (rewrite length_fmap, length_seq; lia).
    symmetry. apply lookup_ge_None_2.
    destruct (weighted_sum_nth (nth r os []) (nth r ps []) vs 0) as [_ ->]; [lia|done..|lia]. }
  destruct (weighted_sum_nth (nth r os []) (nth r ps []) vs j) as [Hnth Hlen]; [lia|done..|].
  rewrite (lookup_nth (weighted_sum _ _ _) j NAN), Hnth by lia.
  rewrite list_lookup_fmap, lookup_seq_lt by done. cbn [fmap option_fmap option_map Nat.add].
  cbn [f_one xreal_f32]. rewrite !x_mul_1_l. do 3 f_equal.
  apply list_eq. intros p. rewrite list_lookup_fmap, lookup_zip_with.
  destruct (decide (p < bc_used)) as [Hpc|Hpc]; cycle 1.
  { rewrite lookup_seq_ge by lia. by rewrite (lookup_ge_None_2 (nth r ps [])) by lia. }
  rewrite lookup_seq_lt, (lookup_nth (nth r ps []) p NAN) by lia.
  unfold vs, vrows. rewrite !list_lookup_fmap, lookup_seq_lt by lia. cbn [fmap option_fmap option_map mbind option_bind].
  f_equal. rewrite Nat.mul_1_r, (nth_concat_rows ps bc_used) by (try done; lia). f_equal.
  rewrite !nth_fin, nth_row_at; [|done|rewrite length_row_at; nia|rewrite length_drop; nia].
  rewrite !nth_lookup, lookup_drop. do 3 f_equal. lia.
Qed.

(** The update of a row and the product with the values are the scalar tile. *)
Lemma tile_row_scalar st ss vs :
  let u := tile_row_update st (score_x <$> ss) in
  flash_tile_scalar st (score_x <$> ss) vs = mkRow (r_m u.1) (r_l u.1) (weighted_sum (r_o u.1) u.2 vs).
Proof.
  unfold tile_row_update, flash_tile_scalar. cbn [fst snd r_m r_l r_o f_max f_neg_inf xreal_f32].
  by rewrite foldl_max_scores.
Qed.

Lemma length_rescale_o m st : length (r_o (rescale m st)) = length (r_o st).
Proof. unfold rescale. destruct (f_ne _ _); cbn; by rewrite ?length_fmap. Qed.

Lemma tile_blas qi br_used kj sts : kj < n → qi + br_used ≤ n → length sts = br_used →
  Forall (λ st, length (r_o st) = dm) sts →
  let kj' := Nat.min (kj + bc) n in
  flash_tile_blas gemm (fin_row qr) (fin_row kr) (fin_row vr) mask (FIN scale) dm base qi br_used kj (kj' - kj) sts
  = Ok (imap (λ r st, flash_tile_scalar st (score_x <$> scores (qi + r) kj kj') (fin_row <$> vrows kj kj')) sts).
Proof.
  intros Hkj Hqi Hsts Hol kj'. unfold flash_tile_blas.
  rewrite !slice_from_fin by nia. cbn [rbind].
  set (c := kj' - kj). assert (kj + c = kj') as Hc by (unfold c; lia).
  rewrite score_tile_fin; [|lia..|by rewrite length_replicate|apply Forall_replicate, length_replicate].
  rewrite mask_tile_scores, Hc. set (S := _ <$> List.seq 0 br_used).
  set (upd := zip_with tile_row_update sts S).
  assert (length S = br_used) as HS by (unfold S; by rewrite length_fmap, length_seq).
  assert (length upd = br_used) as Hupd by (unfold upd; rewrite length_zip_with; lia).
  assert (∀ r, r < br_used → ∃ st, sts !! r = Some st ∧
    upd !! r = Some (tile_row_update st (score_x <$> scores (qi + r) kj kj'))) as Hu.
  { intros r Hr. destruct (lookup_lt_is_Some_2 sts r) as [st Hst]; [lia|]. exists st. split; [done|].
    unfold upd, S. by rewrite lookup_zip_with, Hst, list_lookup_fmap, lookup_seq_lt. }
  assert (∀ u, u ∈ upd → length u.2 = c ∧ length (r_o u.1) = dm) as Hul.
  { intros u [r Hr]%list_elem_of_lookup. destruct (Hu r) as (st & Hst & Hr').
    { apply lookup_lt_Some in Hr. lia. }
    rewrite Hr in Hr'. injection Hr' as ->. unfold tile_row_update. cbn [fst snd r_o].
    unfold scores. rewrite !length_fmap, length_seq, length_rescale_o. split; [done|].
    rewrite Forall_lookup in Hol. by eapply Hol. }
  rewrite value_tile_fin; [|lia|by rewrite length_fmap| |by rewrite length_fmap|].
  2,3: apply Forall_fmap, Forall_forall; intros u Hin; by apply Hul.
  rewrite Hc. f_equal. apply list_eq. intros r. rewrite lookup_zip_with, list_lookup_imap, lookup_zip_with, !list_lookup_fmap.
  destruct (decide (r < br_used)) as [Hr|Hr]; cycle 1.
  { rewrite (lookup_ge_None_2 upd), (lookup_ge_None_2 sts) by lia. done. }
  destruct (Hu r Hr) as (st & -> & ->). cbn [fmap option_fmap option_map mbind option_bind].
  by rewrite tile_row_scalar.
Qed.

Lemma state_length i kj st : state_at i kj st → length (r_o st) = dm.
Proof.
  intros [[_ ->]|[_ Hst]]; [apply length_replicate|].
  destruct (first_tile_open i); [destruct Hst as [M ->]; apply length_vec|].
  destruct Hst as [_ ->]. apply length_replicate.
Qed.

(** The rows [qi..] of a query tile before the key tile at [kj]. *)
Definition states_at (qi kj : nat) (sts : list RowState) : Prop :=
  ∀ r st, sts !! r = Some st → state_at (qi + r) kj st.

Lemma keys_blas fuel qi br_used kj sts : qi + br_used ≤ n → length sts = br_used →
  n - kj ≤ fuel → kj ≤ n → states_at qi kj sts →
  ∃ sts', flash_keys_blas gemm fuel (fin_row qr) (fin_row kr) (fin_row vr) mask (FIN scale) n dm bc base qi
            br_used kj sts = Ok sts' ∧ length sts' = br_used ∧ states_at qi n sts'.
Proof.
  intros Hqi. revert kj sts. induction fuel as [|fuel IH]; intros kj sts Hl Hf Hkj Hst; cbn [flash_keys_blas].
  - replace kj with n in * by lia. rewrite Nat.ltb_irrefl. by exists sts.
  - destruct (Nat.ltb_spec kj n) as [Hlt|Hge]; [|replace kj with n in * by lia; by exists sts].
    rewrite tile_blas; [|done..|].
    2: { apply Forall_lookup. intros r st Hr. by eapply state_length, Hst. }
    cbn [rbind]. apply IH; [by rewrite length_imap|lia|lia|].
    intros r st. rewrite list_lookup_imap. destruct (sts !! r) as [st0|] eqn:Hr; [|done].
    intros [= <-]. apply state_step; [done|]. by apply Hst.
Qed.

Lemma length_attention_out b i : length (attention_out b i) = dm.
Proof.
  destruct b; [|apply length_replicate]. unfold attention_out, fin_row, attention_row.
  by rewrite !length_fmap, length_seq.
Qed.

(** The slab after its first [qi] rows are written. *)
Definition slab (out : list xreal) (qi : nat) : list xreal :=
  rows_written (λ i, attention_out (first_tile_open i) i) dm out qi.

Lemma write_slab out i : (i + 1) * dm ≤ length out →
  write_row (slab out i) (i * dm) (attention_out (first_tile_open i) i) = Ok (slab out (S i)).
Proof.
  apply (write_next (λ i, attention_out (first_tile_open i) i)). intros. apply length_attention_out.
Qed.

Lemma write_rows_slab out qi rows : (qi + length rows) * dm ≤ length out →
  (∀ r row, rows !! r = Some row → row = attention_out (first_tile_open (qi + r)) (qi + r)) →
  write_rows (slab out qi) dm qi rows = Ok (slab out (qi + length rows)).
Proof.
  intros Hlen Hrows. unfold write_rows.
  assert (∀ k, (qi + k + length rows) * dm ≤ length out →
    (∀ r row, rows !! r = Some row → row = attention_out (first_tile_open (qi + (k + r))) (qi + (k + r))) →
    rfold (λ out r, write_row out ((qi + r.1) * dm) r.2) (slab out (qi + k)) (zip (List.seq k (length rows)) rows)
    = Ok (slab out (qi + k + length rows))) as H.
  { clear Hlen Hrows. induction rows as [|row rows IH]; intros k Hlen Hrows.
    { cbn. by rewrite Nat.add_0_r. }
    cbn [length List.seq zip zip_with rfold fst snd] in *.
    rewrite (Hrows 0 row eq_refl), Nat.add_0_r, write_slab by nia. cbn [rbind].
    replace (S (qi + k)) with (qi + S k) by lia. rewrite IH.
    - do 2 f_equal. lia.
    - lia.
    - intros r row' Hr. rewrite (Hrows (S r) row' Hr). by replace (k + S r) with (S k + r) by lia. }
  specialize (H 0). rewrite Nat.add_0_r in H. apply H; [lia|done].
Qed.

(** *** The kernels of a head *)

Context (br : nat) (Hbr : 0 < br).

Lemma bh_blas fuel out qi : length out = n * dm → n - qi ≤ fuel → qi ≤ n →
  flash_forward_bh_blas gemm fuel (fin_row qr) (fin_row kr) (fin_row vr) mask (FIN scale) n dm br bc base qi
    (slab out qi) = Ok (slab out n).
Proof.
  intros Hout. revert qi. induction fuel as [|fuel IH]; intros qi Hf Hqi; cbn [flash_forward_bh_blas].
  { replace qi with n by lia. by rewrite Nat.ltb_irrefl. }
  destruct (Nat.ltb_spec qi n) as [Hlt|Hge]; [|by replace qi with n by lia].
  set (qi' := Nat.min (qi + br) n).
  destruct (keys_blas n qi (qi' - qi) 0 (replicate (qi' - qi) (row_init dm))) as (sts & -> & Hlen & Hst);
    [lia|by rewrite length_replicate|lia|lia| |].
  { intros r st [-> _]%lookup_replicate. by left. }
  cbn [rbind]. rewrite write_rows_slab.
  - rewrite length_fmap, Hlen. cbn [rbind]. replace (qi + (qi' - qi)) with qi' by lia. apply IH; lia.
  - rewrite length_fmap, Hlen. nia.
  - intros r row. rewrite list_lookup_fmap. destruct (sts !! r) as [st|] eqn:Hr; [|done].
    intros [= <-]. by apply normalise_row, Hst.
Qed.

Lemma rows_scalar out qi len : length out = n * dm → qi + len ≤ n →
  rfold (flash_row_scalar (fin_row qr) (fin_row kr) (fin_row vr) mask (FIN scale) n dm bc base)
    (slab out qi) (List.seq qi len) = Ok (slab out (qi + len)).
Proof.
  intros Hout. revert qi. induction len as [|len IH]; intros qi Hqi; cbn [List.seq rfold].
  { by rewrite Nat.add_0_r. }
  unfold flash_row_scalar at 1. rewrite slice_fin by nia. cbn [rbind].
  destruct (keys_scalar n qi 0 (row_init dm)) as (st & -> & Hst); [lia..|by left|]. cbn [rbind].
  destruct (normalise_row qi st Hst) as [-> _]. rewrite write_slab by nia. cbn [rbind].
  rewrite IH by lia. do 2 f_equal. lia.
Qed.

Lemma bh_scalar fuel out qi : length out = n * dm → n - qi ≤ fuel → qi ≤ n →
  flash_forward_bh_scalar fuel (fin_row qr) (fin_row kr) (fin_row vr) mask (FIN scale) n dm br bc base qi
    (slab out qi) = Ok (slab out n).
Proof.
  intros Hout. revert qi. induction fuel as [|fuel IH]; intros qi Hf Hqi; cbn [flash_forward_bh_scalar].
  { replace qi with n by lia. by rewrite Nat.ltb_irrefl. }
  destruct (Nat.ltb_spec qi n) as [Hlt|Hge]; [|by replace qi with n by lia].
  rewrite rows_scalar by lia. cbn [rbind].
  replace (qi + (Nat.min (qi + br) n - qi)) with (Nat.min (qi + br) n) by lia. apply IH; lia.
Qed.


(** *** The reference *)

Lemma naive_row_fin i :
  naive_row dm (score_x <$> scores i 0 n) (fin_row <$> vrows 0 n) = attention_out (unmasked (scores i 0 n)) i.
Proof.
  unfold naive_row, attention_out. cbn [f_max f_neg_inf f_exp f_sub f_add f_zero f_div f_nan xreal_f32].
  rewrite foldl_max_scores by done. destruct (unmasked (scores i 0 n)) eqn:Hu.
  - destruct (max_unmasked _ Hu) as [M ->]. rewrite exps_weight, foldl_x_add_fin.
    pose proof (rsum_weights_pos M _ Hu) as Hpos.
    unfold is_normal_sum. cbn [f_gt f_zero f_is_finite xreal_f32 x_gt]. rewrite Rgtb_true by lra. cbn [andb].
    set (W := (0 + rsum (weight M <$> scores i 0 n))%R).
    replace ((λ e, x_div e (FIN W)) <$> (FIN <$> (weight M <$> scores i 0 n)))
      with (FIN <$> ((λ w, w / W)%R <$> (weight M <$> scores i 0 n))); cycle 1.
    { rewrite <- !list_fmap_compose. apply list_fmap_ext. intros _ s _. unfold compose. cbn [x_div].
      rewrite Reqb_false; [done|]. unfold W. lra. }
    rewrite vec_zero, weighted_sum_vec by (by apply vrows_wf).
    unfold vec, fin_row, attention_row. rewrite <- (list_fmap_compose _ FIN). apply list_fmap_ext.
    intros _ d _. unfold compose. f_equal. rewrite <- (attention_ratio M) by done.
    rewrite wsum_div. unfold W. rewrite !Rplus_0_l. done.
  - rewrite max_masked by done.
    assert (0 < length (scores i 0 n)) as Hl by (unfold scores; rewrite length_fmap, length_seq; lia).
    destruct (scores i 0 n) as [|[x|] ss]; [simpl in Hl; lia|done|].
    cbn. by rewrite foldl_x_add_nan.
Qed.
End head.

(** ** All heads *)

(** Whether query [i] sees one of the first [k] keys. *)
Definition sees (mask : Mask) (i k : nat) : bool := existsb (λ j, negb (is_masked mask i j)) (List.seq 0 k).

Lemma unmasked_sees dm base scale mask qr kr i k :
  unmasked (scores dm base scale mask qr kr i 0 k) = sees mask i k.
Proof.
  unfold unmasked, sees, scores. rewrite Nat.sub_0_r. induction (List.seq 0 k) as [|j l IH]; [done|].
  cbn [fmap list_fmap existsb]. rewrite <- IH. f_equal. unfold score. by destruct (is_masked mask i j).
Qed.

Lemma sees_first mask i k : is_masked mask i 0 = false → 0 < k → sees mask i k = true.
Proof. intros Hm Hk. destruct k; [lia|]. unfold sees. cbn. by rewrite Hm. Qed.

(** The output of a call: [Σ_j exp(s_ij) v_j / Σ_j exp(s_ij)] over the keys that
    are not masked, with [s_ij = q_i . k_j / sqrt(dim)], for the rows where
    [ok], NaN elsewhere. *)
Definition attention_spec (shape : AttentionShape) (mask : Mask) (qr kr vr : list R) (ok : nat → bool)
    : list xreal :=
  let n := seq shape in
  concat ((λ g,
    attention_out (dim shape) n (g / n * stride_h shape) (1 / R_sqrt.sqrt (INR (dim shape))) mask qr kr vr
      (ok (g mod n)) (g mod n)) <$> List.seq 0 (batch shape * heads shape * n)).

Section calls.
Context (gemm : Gemm) (Hgemm : gemm_ok gemm) (shape : AttentionShape) (mask : Mask).
Context (qr kr vr : list R) (out : list xreal).
Notation total := (batch shape * heads shape * seq shape * dim shape).
Context (Hdim : 0 < dim shape) (Hsize : (Z.of_nat total < 2 ^ 64)%Z).
Context (Hq : length qr = total) (Hk : length kr = total) (Hv : length vr = total) (Hout : length out = total).
Context (Hmask : Mask_validate mask (seq shape) = Ok tt).

Lemma buffer_len_total : buffer_len shape = Z.of_nat total.
Proof.
  unfold buffer_len. rewrite product_u_small; unfold zprod; simpl; [lia|lia|].
  split; lia.
Qed.

Lemma validate_ok : validate shape (fin_row qr) (fin_row kr) (fin_row vr) out = Ok tt.
Proof.
  unfold validate. rewrite (proj2 (Nat.eqb_neq _ _)) by lia. rewrite buffer_len_total.
  cbn [rfold snd fst]. unfold fin_row. rewrite !length_fmap, Hq, Hk, Hv, Hout, Z.eqb_refl. done.
Qed.

Lemma scale_fin : scale_of shape = FIN (1 / R_sqrt.sqrt (INR (dim shape))).
Proof.
  unfold scale_of. cbn [f_div f_one f_sqrt f_of_usize xreal_f32 x_sqrt].
  assert (0 < INR (dim shape))%R as Hp by (apply lt_0_INR; lia).
  rewrite Rgtb_false by lra. cbn [x_div]. rewrite Reqb_false; [done|].
  apply Rgt_not_eq, R_sqrt.sqrt_lt_R0. lra.
Qed.

(** Head [bh] ends within the buffers. *)
Lemma head_range bh : bh < batch shape * heads shape →
  bh * stride_h shape + seq shape * dim shape ≤ total.
Proof. unfold stride_h. nia. Qed.

Lemma flash_run wasm : 0 < br shape → 0 < bc shape →
  flash_forward_masked gemm wasm shape (fin_row qr) (fin_row kr) (fin_row vr) mask out =
  Ok (attention_spec shape mask qr kr vr (λ i, sees mask i (Nat.min (bc shape) (seq shape)))).
Proof.
  intros Hbr Hbc. unfold flash_forward_masked. rewrite validate_ok, Hmask. cbn [rbind].
  destruct (Nat.eqb_spec (seq shape) 0) as [Hz|Hn].
  { unfold attention_spec. rewrite Hz, Nat.mul_0_r. cbn. rewrite Hz in Hout.
    rewrite Nat.mul_0_r in Hout. destruct out; [done|simpl in Hout; lia]. }
  assert (stride_h shape ≠ 0) as Hs by (unfold stride_h; nia).
  rewrite (proj2 (Nat.eqb_neq _ _) Hs).
  replace ((length out + stride_h shape - 1) / stride_h shape) with (batch shape * heads shape); cycle 1.
  { rewrite Hout. apply Nat.div_unique with (stride_h shape - 1); [lia|]. unfold stride_h. nia. }
  rewrite (rmapM_seq _ (λ bh, concat ((λ i,
      attention_out (dim shape) (seq shape) (bh * stride_h shape) (1 / R_sqrt.sqrt (INR (dim shape))) mask qr kr vr
        (sees mask i (Nat.min (bc shape) (seq shape))) i) <$> List.seq 0 (seq shape)))).
  { cbn [rbind]. f_equal. unfold attention_spec.
    apply (concat_heads (λ bh i, attention_out (dim shape) (seq shape) (bh * stride_h shape)
      (1 / R_sqrt.sqrt (INR (dim shape))) mask qr kr vr (sees mask i (Nat.min (bc shape) (seq shape))) i)). lia. }
  intros bh _ Hbh. cbn [Nat.add] in Hbh.
  assert (heads shape ≠ 0) as Hh by lia.
  assert (bh / heads shape * (heads shape * stride_h shape) + bh mod heads shape * stride_h shape
    = bh * stride_h shape) as ->.
  { rewrite (Nat.div_mod_eq bh (heads shape)) at 3. lia. }
  rewrite scale_fin. pose proof (head_range bh Hbh) as Hr.
  assert (length (take (stride_h shape) (drop (bh * stride_h shape) out)) = seq shape * dim shape) as Hlen.
  { rewrite length_take, length_drop. unfold stride_h in *. lia. }
  set (out' := take (stride_h shape) _) in *.
  pose proof (bh_scalar (dim shape) (seq shape) (bc shape) (bh * stride_h shape)
    (1 / R_sqrt.sqrt (INR (dim shape))) mask qr kr vr) as Hsc.
  pose proof (bh_blas (dim shape) (seq shape) (bc shape) (bh * stride_h shape)
    (1 / R_sqrt.sqrt (INR (dim shape))) mask qr kr vr) as Hbl.
  assert (slab (dim shape) (seq shape) (bc shape) (bh * stride_h shape)
    (1 / R_sqrt.sqrt (INR (dim shape))) mask qr kr vr out' (seq shape) = concat ((λ i,
      attention_out (dim shape) (seq shape) (bh * stride_h shape) (1 / R_sqrt.sqrt (INR (dim shape))) mask qr kr vr
        (sees mask i (Nat.min (bc shape) (seq shape))) i) <$> List.seq 0 (seq shape))) as Hslab.
  { unfold slab. rewrite rows_written_full by done. f_equal. apply list_fmap_ext. intros _ i _.
    unfold first_tile_open. by rewrite unmasked_sees. }
  rewrite <- Hslab. destruct wasm; [apply (Hsc ltac:(lia) Hdim Hbc ltac:(lia) ltac:(lia)  ltac:(lia) _ Hbr (seq shape) out' 0 Hlen)
    |apply (Hbl ltac:(lia) Hdim Hbc ltac:(lia) ltac:(lia) ltac:(lia) _ Hgemm _ Hbr (seq shape) out' 0 Hlen)]; lia.
Qed.

Notation scale := (1 / R_sqrt.sqrt (INR (dim shape)))%R.

(** Row [g] of the reference, counted through all heads. *)
Definition naive_out (g : nat) : list xreal :=
  attention_out (dim shape) (seq shape) (g / seq shape * stride_h shape) scale mask qr kr vr
    (sees mask (g mod seq shape) (seq shape)) (g mod seq shape).

Lemma length_naive_out g : length (naive_out g) = dim shape.
Proof. apply length_attention_out. Qed.

Lemma naive_head bh : bh < batch shape * heads shape →
  let base := bh * stride_h shape in
  (let? scores := rmapM (λ i, score_row (fin_row qr) (fin_row kr) mask (FIN scale) (dim shape) base i 0 (seq shape))
                    (List.seq 0 (seq shape)) in
   rfold (λ out iscore,
     let? vs := rows_of (fin_row vr) (dim shape) base 0 (seq shape) in
     write_row out (base + iscore.1 * dim shape) (naive_row (dim shape) iscore.2 vs))
     (rows_written naive_out (dim shape) out (bh * seq shape)) (zip (List.seq 0 (seq shape)) scores)) =
  Ok (rows_written naive_out (dim shape) out (S bh * seq shape)).
Proof.
  intros Hbh base. pose proof (head_range bh Hbh) as Hr.
  destruct (decide (seq shape = 0)) as [Hz|Hnz].
  { rewrite Hz. cbn. by rewrite !Nat.mul_0_r. }
  assert (0 < seq shape) as Hn by lia.
  set (sc := λ i, score_x <$> scores (dim shape) base scale mask qr kr i 0 (seq shape)).
  rewrite (rmapM_seq _ sc).
  2: { intros i _ Hi. apply (score_row_fin (dim shape) (seq shape) 1 base scale mask qr kr vr); try lia; unfold base; lia. }
  cbn [rbind].
  rewrite (rows_of_fin (dim shape) (seq shape) 1 base qr kr vr) by (try lia; unfold base; lia).
  cbn [rbind]. set (vs := fin_row <$> vrows (dim shape) base vr 0 (seq shape)).
  assert (∀ k i, i + k = seq shape →
    rfold (λ out iscore, write_row out (base + iscore.1 * dim shape) (naive_row (dim shape) iscore.2 vs))
      (rows_written naive_out (dim shape) out (bh * seq shape + i)) (zip (List.seq i k) (sc <$> List.seq i k)) =
    Ok (rows_written naive_out (dim shape) out (S bh * seq shape))) as H.
  { induction k as [|k IH]; intros i Hi; cbn [List.seq fmap list_fmap zip zip_with rfold fst snd].
    { do 2 f_equal. lia. }
    unfold sc at 1, vs at 1.
    rewrite (naive_row_fin (dim shape) (seq shape) 1 base scale mask qr kr vr)
      with (br := 1) by (try lia; unfold base; lia).
    rewrite unmasked_sees.
    replace (base + i * dim shape) with ((bh * seq shape + i) * dim shape) by (unfold base, stride_h; lia).
    replace (attention_out _ _ _ _ _ _ _ _ _ _) with (naive_out (bh * seq shape + i)); cycle 1.
    { unfold naive_out. rewrite (Nat.add_comm (bh * _)), Nat.div_add, Nat.Div0.mod_add, Nat.div_small, Nat.mod_small by lia.
      done. }
    rewrite write_next; [|apply length_naive_out|rewrite Hout; nia]. cbn [rbind].
    replace (S (bh * seq shape + i)) with (bh * seq shape + S i) by lia. apply IH. lia. }
  specialize (H (seq shape) 0 eq_refl). by rewrite Nat.add_0_r in H.
Qed.

Lemma naive_run :
  naive_forward_masked shape (fin_row qr) (fin_row kr) (fin_row vr) mask out =
  Ok (attention_spec shape mask qr kr vr (λ i, sees mask i (seq shape))).
Proof.
  unfold naive_forward_masked. rewrite validate_ok, Hmask. cbn [rbind]. rewrite scale_fin.
  assert (∀ k h b, b < batch shape → h + k = heads shape →
    rfold (λ out h,
      let base := b * stride_b shape + h * stride_h shape in
      let? scores := rmapM (λ i, score_row (fin_row qr) (fin_row kr) mask (FIN scale) (dim shape) base i 0 (seq shape))
                       (List.seq 0 (seq shape)) in
      rfold (λ out iscore,
        let? vs := rows_of (fin_row vr) (dim shape) base 0 (seq shape) in
        write_row out (base + iscore.1 * dim shape) (naive_row (dim shape) iscore.2 vs))
        out (zip (List.seq 0 (seq shape)) scores))
      (rows_written naive_out (dim shape) out ((b * heads shape + h) * seq shape)) (List.seq h k) =
    Ok (rows_written naive_out (dim shape) out (S b * heads shape * seq shape))) as Hheads.
  { induction k as [|k IH]; intros h b Hb Hh; cbn [List.seq rfold].
    { do 2 f_equal. nia. }
    cbv zeta.
    replace (b * stride_b shape + h * stride_h shape) with ((b * heads shape + h) * stride_h shape)
      by (unfold stride_b; lia).
    pose proof (naive_head (b * heads shape + h) ltac:(nia)) as Hd. cbv zeta in Hd. rewrite Hd. cbn [rbind].
    replace (S (b * heads shape + h) * seq shape) with ((b * heads shape + S h) * seq shape) by lia.
    apply IH; lia. }
  assert (∀ k b, b + k = batch shape →
    rfold (λ out b, rfold (λ out h,
      let base := b * stride_b shape + h * stride_h shape in
      let? scores := rmapM (λ i, score_row (fin_row qr) (fin_row kr) mask (FIN scale) (dim shape) base i 0 (seq shape))
                       (List.seq 0 (seq shape)) in
      rfold (λ out iscore,
        let? vs := rows_of (fin_row vr) (dim shape) base 0 (seq shape) in
        write_row out (base + iscore.1 * dim shape) (naive_row (dim shape) iscore.2 vs))
        out (zip (List.seq 0 (seq shape)) scores)) out (List.seq 0 (heads shape)))
      (rows_written naive_out (dim shape) out (b * heads shape * seq shape)) (List.seq b k) =
    Ok (rows_written naive_out (dim shape) out (batch shape * heads shape * seq shape))) as Hb.
  { induction k as [|k IH]; intros b Hbk; cbn [List.seq rfold].
    { do 2 f_equal. nia. }
    pose proof (Hheads (heads shape) 0 b ltac:(lia) eq_refl) as Hd. rewrite Nat.add_0_r in Hd.
    cbv zeta in Hd |- *. rewrite Hd.
    cbn [rbind]. apply IH. lia. }
  specialize (Hb (batch shape) 0 eq_refl). etransitivity; [exact Hb|]. f_equal.
  apply rows_written_full. rewrite Hout. lia.
Qed.
End calls.

(** A row of a buffer that is a list of rows *)
Lemma row_of_concat {A} (f : nat → list A) c m g : (∀ i, length (f i) = c) → g < m →
  take c (drop (g * c) (concat (f <$> List.seq 0 m))) = f g.
Proof.
  intros Hf Hg. assert (∀ k, length (concat (f <$> List.seq 0 k)) = k * c) as Hl.
  { intros k. rewrite (length_concat_rows _ c), length_fmap, length_seq; [done|].
    apply Forall_forall. by intros ? (i & -> & _)%list_elem_of_fmap. }
  replace m with (g + (1 + (m - g - 1))) by lia. rewrite List.seq_app, fmap_app, concat_app, Nat.add_0_l.
  rewrite drop_app_ge, Hl, Nat.sub_diag, drop_0 by (rewrite Hl; lia). cbn [List.seq Nat.add fmap list_fmap concat].
  by rewrite take_app_length' by done.
Qed.

(** Row [g] of the output, counted through batches and heads: the softmax of its unmasked
    scores [q_i . k_j / sqrt(dim)], applied to the value rows of its head *)
Definition head_attention (shape : AttentionShape) (mask : Mask) (qr kr vr : list R) (g : nat) : list R :=
  let n := seq shape in
  let base := g / n * stride_h shape in
  attention_row (scores (dim shape) base (1 / R_sqrt.sqrt (INR (dim shape))) mask qr kr (g mod n) 0 n)
    (vrows (dim shape) base vr 0 n) (dim shape).

Lemma attention_spec_row shape mask qr kr vr ok g : g < batch shape * heads shape * seq shape →
  ok (g mod seq shape) = true →
  take (dim shape) (drop (g * dim shape) (attention_spec shape mask qr kr vr ok)) = fin_row (head_attention shape mask qr kr vr g).
Proof.
  intros Hg Hok. unfold attention_spec. rewrite row_of_concat; [|intros; apply length_attention_out|done].
  by rewrite Hok.
Qed.

Lemma attention_spec_all shape mask qr kr vr ok : (∀ i, i < seq shape → ok i = true) →
  attention_spec shape mask qr kr vr ok =
    concat ((λ g, fin_row (head_attention shape mask qr kr vr g)) <$> List.seq 0 (batch shape * heads shape * seq shape)).
Proof.
  intros Hok. unfold attention_spec. f_equal. apply list_fmap_ext. intros g ? [-> Hlt]%lookup_seq.
  cbn [Nat.add]. rewrite Hok; [done|]. apply Nat.mod_upper_bound. nia.
Qed.

(** C3: over exact arithmetic (the host's matrix product included), on finite inputs of the
    declared sizes, which fit the machine, for positive tile sizes and head dimension,
    every valid mask and both kernels (matrix products and scalar), the tiled forward pass
    and the untiled reference return, and their row of each query is
    [softmax(QK^T / sqrt(dim)) V] over the keys that are not masked: in the reference for
    each query that sees any key, in the tiled kernel for each query that sees a key of its
    first key tile.  Without a mask, or with the causal one, that is every row, and the two
    outputs are equal. *)
Theorem flash_attention (wasm : bool) (gemm : Gemm) (shape : AttentionShape) (mask : Mask)
    (qr kr vr : list R) (out : list xreal) :
  gemm_ok gemm → 0 < dim shape → 0 < br shape → 0 < bc shape →
  let rows := batch shape * heads shape * seq shape in
  let total := rows * dim shape in
  (Z.of_nat total < 2 ^ 64)%Z →
  length qr = total → length kr = total → length vr = total → length out = total →
  Mask_validate mask (seq shape) = Ok tt →
  ∃ o o_ref,
    flash_forward_masked gemm wasm shape (fin_row qr) (fin_row kr) (fin_row vr) mask out = Ok o ∧
    naive_forward_masked shape (fin_row qr) (fin_row kr) (fin_row vr) mask out = Ok o_ref ∧
    (∀ g, g < rows →
       let row o := take (dim shape) (drop (g * dim shape) o) in
       let formula := fin_row (head_attention shape mask qr kr vr g) in
       (sees mask (g mod seq shape) (Nat.min (bc shape) (seq shape)) = true → row o = formula) ∧
       (sees mask (g mod seq shape) (seq shape) = true → row o_ref = formula)) ∧
    (mask = MaskNone ∨ mask = Causal →
     o = concat ((λ g, fin_row (head_attention shape mask qr kr vr g)) <$> List.seq 0 rows) ∧ o_ref = o).
Proof.
  intros Hg Hd Hbr Hbc rows total Hsz Hq Hk Hv Ho Hm. do 2 eexists.
  rewrite flash_run, naive_run by done. split; [done|]. split; [done|]. split.
  - intros g Hlt row formula. split; intros Hs; by apply attention_spec_row.
  - intros Hmask. assert (∀ i, is_masked mask i 0 = false) as H0 by (intros i; by destruct Hmask as [-> | ->]).
    rewrite !attention_spec_all; [done|..]; intros i Hi; (apply sees_first; [apply H0|lia]).
Qed.

(** ** The online softmax *)

(** The two-pass maximum and normaliser of [xs]. *)
Definition two_pass (xs : list R) (st : OnlineSoftmaxState (X := xreal)) : Prop :=
  (xs = [] ∧ st = EMPTY) ∨
  ∃ M, M ∈ xs ∧ (∀ x, x ∈ xs → (x <= M)%R) ∧
    st = mkState (FIN M) (FIN (rsum ((λ x, Rtrigo_def.exp (x - M)) <$> xs))).

Lemma exps_rescale M M' (xs : list R) :
  rsum ((λ x, Rtrigo_def.exp (x - M')) <$> xs) =
  (rsum ((λ x, Rtrigo_def.exp (x - M)) <$> xs) * Rtrigo_def.exp (M - M'))%R.
Proof.
  rewrite <- rsum_scale, <- list_fmap_compose. f_equal. apply list_fmap_ext. intros i x _. unfold compose.
  rewrite <- exp_plus. f_equal. lra.
Qed.

Lemma two_pass_unique xs ys a b : xs ≡ₚ ys → two_pass xs a → two_pass ys b → a = b.
Proof.
  intros Hp [[-> ->]|(M & HM & Hmax & ->)] [[-> ->]|(M' & HM' & Hmax' & ->)]; try done.
  - rewrite <- Hp in HM'. by apply not_elem_of_nil in HM'.
  - rewrite Hp in HM. by apply not_elem_of_nil in HM.
  - assert (M = M') as ->.
    { apply Rle_antisym; [apply Hmax'; by rewrite <- Hp|apply Hmax; by rewrite Hp]. }
    do 2 f_equal. clear - Hp. induction Hp as [|x l l' _ IH|x y l|l1 l2 l3 _ IH1 _ IH2]; cbn [fmap list_fmap];
      rewrite ?rsum_cons; lra.
Qed.

Lemma exps_pos M x xs : (0 < rsum ((λ y, Rtrigo_def.exp (y - M)) <$> x :: xs))%R.
Proof.
  rewrite fmap_cons, rsum_cons. pose proof (exp_pos (x - M)).
  assert (0 <= rsum ((λ y, Rtrigo_def.exp (y - M)) <$> xs))%R; [|lra].
  apply rsum_nonneg, Forall_fmap, Forall_true. intros y. cbn. pose proof (exp_pos (y - M)). lra.
Qed.

Lemma combine_two_pass xs ys a b : two_pass xs a → two_pass ys b → two_pass (xs ++ ys) (combine_tiles a b).
Proof.
  intros Ha [[-> ->]|(M' & HM' & Hmax' & ->)].
  { rewrite app_nil_r. unfold combine_tiles. destruct Ha as [[-> ->]|(M & HM & Hmax & ->)].
    - cbn. rewrite Reqb_true by done. by left.
    - cbn. rewrite Reqb_true by done. right. by exists M. }
  destruct Ha as [[-> ->]|(M & HM & Hmax & ->)].
  { unfold combine_tiles. cbn. rewrite Reqb_true by done. right. by exists M'. }
  right. unfold combine_tiles. cbn [st_is_empty st_m st_l f_eq f_neg_inf xreal_f32 x_eq andb f_gt x_gt].
  destruct (Rtotal_order M M') as [Hlt|[->|Hgt]].
  - rewrite Rgtb_false by lra. cbn [x_eq]. rewrite (Reqb_false M M'), (Reqb_true M' M') by lra. cbn [andb].
    exists M'. split; [set_solver|]. split.
    { intros x [Hx|Hx]%elem_of_app; [specialize (Hmax x Hx); lra|by apply Hmax']. }
    f_equal. cbn. f_equal. rewrite fmap_app, rsum_app, (exps_rescale M M' xs).
    replace (M + - M')%R with (M - M')%R by lra. done.
  - rewrite Rgtb_false by lra. cbn [x_eq]. rewrite (Reqb_true M' M') by lra. cbn [andb].
    exists M'. split; [set_solver|]. split.
    { intros x [Hx|Hx]%elem_of_app; auto. }
    f_equal. cbn. by rewrite fmap_app, rsum_app.
  - rewrite Rgtb_true by lra. cbn [x_eq]. rewrite (Reqb_true M M), (Reqb_false M' M) by lra. cbn [andb].
    exists M. split; [set_solver|]. split.
    { intros x [Hx|Hx]%elem_of_app; [by apply Hmax|specialize (Hmax' x Hx); lra]. }
    f_equal. cbn. f_equal. rewrite fmap_app, rsum_app, (exps_rescale M' M ys).
    by replace (M' + - M)%R with (M' - M)%R by lra.
Qed.

Lemma absorb_two_pass xs st x : two_pass xs st → two_pass (xs ++ [x]) (absorb st (FIN x)).
Proof.
  intros [[-> ->]|(M & HM & Hmax & ->)]; right; unfold absorb; cbn [st_m st_l f_gt x_gt xreal_f32 EMPTY].
  - exists x. split; [set_solver|]. split; [intros y ->%list_elem_of_singleton; lra|].
    cbn. f_equal. rewrite rsum_cons. f_equal. replace (x - x)%R with 0%R by lra. rewrite exp_0.
    unfold rsum. simpl. lra.
  - destruct (Rlt_dec M x) as [Hlt|Hge].
    + rewrite Rgtb_true by done. exists x. split; [set_solver|]. split.
      { intros y [Hy| ->%list_elem_of_singleton]%elem_of_app; [specialize (Hmax y Hy); lra|lra]. }
      cbn. f_equal. rewrite fmap_app, rsum_app, (exps_rescale M x xs). cbn [fmap list_fmap]. rewrite rsum_cons.
      replace (x - x)%R with 0%R by lra. rewrite exp_0. replace (M + - x)%R with (M - x)%R by lra.
      unfold rsum at 3. simpl. f_equal. lra.
    + rewrite Rgtb_false by lra. exists M. split; [set_solver|]. split.
      { intros y [Hy| ->%list_elem_of_singleton]%elem_of_app; [by apply Hmax|lra]. }
      cbn. f_equal. rewrite fmap_app, rsum_app. cbn [fmap list_fmap]. rewrite rsum_cons.
      replace (x + - M)%R with (x - M)%R by lra. unfold rsum at 3. simpl. f_equal. lra.
Qed.

Lemma full_two_pass xs : two_pass xs (online_softmax_full (fin_row xs)).
Proof.
  induction xs as [|x xs IH] using rev_ind; [by left|].
  unfold online_softmax_full, fin_row in *. rewrite fmap_app, foldl_app. cbn. by apply absorb_two_pass.
Qed.

(** over exact arithmetic the single-pass softmax returns the maximum and
    the normaliser of the two-pass one; [combine_tiles] of the states of two
    tiles is the state of the tiles together, in either order; so states do not
    depend on how the row is tiled or permuted. *)
Theorem online_softmax (xs ys : list R) :
  two_pass xs (online_softmax_full (fin_row xs)) ∧
  combine_tiles (online_softmax_full (fin_row xs)) (online_softmax_full (fin_row ys)) =
    online_softmax_full (fin_row (xs ++ ys)) ∧
  combine_tiles (online_softmax_full (fin_row xs)) (online_softmax_full (fin_row ys)) =
    combine_tiles (online_softmax_full (fin_row ys)) (online_softmax_full (fin_row xs)).
Proof.
  pose proof (full_two_pass xs) as Hx. pose proof (full_two_pass ys) as Hy. split; [done|].
  pose proof (combine_two_pass xs ys _ _ Hx Hy) as Hxy.
  pose proof (combine_two_pass ys xs _ _ Hy Hx) as Hyx.
  split; eapply two_pass_unique; [|exact Hxy|apply full_two_pass| |exact Hxy|exact Hyx]; [done|apply Permutation_app_comm].
Qed.

(** ** Divergences *)

(** A row of [-inf] scores does not give [m = -inf, l = 0] but a NaN sum. *)
Lemma all_masked_online : online_softmax_full [NINF; NINF] = mkState NINF NAN.
Proof. done. Qed.

(** Left padding: with key tiles of one key and the first key masked, the tiled
    kernel returns NaN where the reference returns the formula. *)
Lemma padded_first_tile shape gemm wasm (q k v : list R) :
  shape = mkAttentionShape 1 1 2 1 1 1 → gemm_ok gemm → length q = 2 → length k = 2 → length v = 2 →
  let mask := Padding [false; true] in
  ∃ o1 o2, flash_forward_masked gemm wasm shape (fin_row q) (fin_row k) (fin_row v) mask (replicate 2 (FIN 0))
    = Ok [NAN; NAN] ∧
  naive_forward_masked shape (fin_row q) (fin_row k) (fin_row v) mask (replicate 2 (FIN 0))
    = Ok [FIN o1; FIN o2].
Proof.
  intros -> Hg Hq Hk Hv mask. do 2 eexists.
  rewrite flash_run, naive_run by (cbn; done || lia). split; reflexivity.
Qed.

(** ** Witnesses *)

Lemma gemm_rows_ok : gemm_ok gemm_rows.
Proof. by intros ?. Qed.

Lemma flash_attention_witness :
  ∃ o, flash_forward_masked gemm_rows false (mkAttentionShape 1 1 2 1 1 1)
    (fin_row [1; 2]%R) (fin_row [3; 4]%R) (fin_row [5; 6]%R) Causal (replicate 2 (FIN 0)) = Ok [FIN 5; FIN o].
Proof.
  destruct (flash_attention false gemm_rows (mkAttentionShape 1 1 2 1 1 1) Causal [1; 2]%R [3; 4]%R [5; 6]%R
    (replicate 2 (FIN 0))) as (o & o_ref & Hf & _ & _ & H); [apply gemm_rows_ok|cbn; lia..|done|done|done|done|done|].
  destruct H as [H _]; [by right|]. eexists. rewrite Hf, H. unfold head_attention, attention_row. cbn.
  do 3 f_equal. unfold wsum, rsum. cbn. set (x := (rdot _ _ * _ - 0)%R).
  pose proof (exp_pos x). field. lra.
Defined.
