(* ===== verification/KVCache.v ===== *)
(** * The key-value cache (crates/rustorch-nn/src/kv_cache.rs)

    The per-layer buffers, appending, advancing and clearing.  An [f32] is its
    bit pattern; positions and lengths are natural numbers, with the sums and
    products that the code compares wrapped at 64 bits.  The contract is a
    history per layer and head: the rows appended since the last [clear]. *)

From Stdlib Require Import ZArith Lia.
From stdpp Require Import base list.
From S2P Require Import Prelude.

Open Scope nat_scope.

(** [enum KVCacheError] *)
Inductive KVCacheError :=
  | Overflow (requested : Z) (max : nat)
  | WrongInputLen (expected : Z) (got_k got_v : nat)
  | LayerOutOfRange (layer num_layers : nat)
  | KVAliased.

(** [struct KVLayerCache], [struct KVCache] *)
Record KVLayerCache := mkLayer {
  kv_k : list Z; kv_v : list Z;
  kv_batch : nat; kv_n_heads : nat; kv_max_seq : nat; kv_head_dim : nat
}.
Record KVCache := mkKVCache {
  layers : list KVLayerCache;
  current_len : nat;
  max_seq : nat
}.

Definition usum (a b : nat) : Z := wrap 64 (Z.of_nat a + Z.of_nat b).
Definition uprod (l : list nat) : Z := product_u 64 (Z.of_nat <$> l).

Definition KVLayerCache_new (batch n_heads max_seq head_dim : nat) : KVLayerCache :=
  let n := Z.to_nat (uprod [batch; n_heads; max_seq; head_dim]) in
  mkLayer (replicate n 0%Z) (replicate n 0%Z) batch n_heads max_seq head_dim.

(** [dst[start..start + len].copy_from_slice(&src[off..off + len])], which panics
    out of range. *)
Definition copy_slice (dst : list Z) (start len : nat) (src : list Z) (off : nat)
    : res KVCacheError (list Z) :=
  if (length dst <? start + len) || (length src <? off + len) then Panic
  else Ok (take start dst ++ take len (drop off src) ++ drop (start + len) dst).

(** [KVLayerCache::append] *)
Definition layer_append (l : KVLayerCache) (current_len seq_added : nat) (new_k new_v : list Z)
    : res KVCacheError KVLayerCache :=
  if (Z.of_nat (kv_max_seq l) <? usum current_len seq_added)%Z then
    Err (Overflow (usum current_len seq_added) (kv_max_seq l))
  else
    let bhsd := uprod [kv_batch l; kv_n_heads l; seq_added; kv_head_dim l] in
    if negb (Z.of_nat (length new_k) =? bhsd)%Z || negb (Z.of_nat (length new_v) =? bhsd)%Z then
      Err (WrongInputLen bhsd (length new_k) (length new_v))
    else
      let hd := kv_head_dim l in
      let s_max := kv_max_seq l in
      let s_new := seq_added in
      let? kv := rfold (λ kv b,
        rfold (λ (kv : list Z * list Z) h,
          let src_off := b * kv_n_heads l * s_new * hd + h * s_new * hd in
          let dst_off := b * kv_n_heads l * s_max * hd + h * s_max * hd + current_len * hd in
          let? k := copy_slice kv.1 dst_off (s_new * hd) new_k src_off in
          let? v := copy_slice kv.2 dst_off (s_new * hd) new_v src_off in
          Ok (k, v))
          kv (List.seq 0 (kv_n_heads l)))
        (kv_k l, kv_v l) (List.seq 0 (kv_batch l)) in
      Ok (mkLayer kv.1 kv.2 (kv_batch l) (kv_n_heads l) (kv_max_seq l) (kv_head_dim l)).

(** [KVCache::new] and its accessors *)
Definition KVCache_new (num_layers batch n_heads head_dim max_seq : nat) : KVCache :=
  mkKVCache ((λ _, KVLayerCache_new batch n_heads max_seq head_dim) <$> List.seq 0 num_layers) 0 max_seq.
Definition num_layers (c : KVCache) : nat := length (layers c).
Definition clear (c : KVCache) : KVCache := mkKVCache (layers c) 0 (max_seq c).
Definition k_buffer (c : KVCache) (i : nat) : option (list Z) := kv_k <$> layers c !! i.
Definition v_buffer (c : KVCache) (i : nat) : option (list Z) := kv_v <$> layers c !! i.
Definition dims (c : KVCache) : option (nat * nat * nat * nat) :=
  (λ l, (kv_batch l, kv_n_heads l, kv_max_seq l, kv_head_dim l)) <$> head (layers c).

(** [KVCache::append] *)
Definition append (c : KVCache) (layer_idx seq_added : nat) (new_k new_v : list Z)
    : res KVCacheError KVCache :=
  let? layer := ok_or (LayerOutOfRange layer_idx (num_layers c)) (layers c !! layer_idx) in
  let? layer := layer_append layer (current_len c) seq_added new_k new_v in
  Ok (mkKVCache (<[layer_idx := layer]> (layers c)) (current_len c) (max_seq c)).

(** [KVCache::advance] *)
Definition advance (c : KVCache) (seq_added : nat) : res KVCacheError KVCache :=
  let new_len := usum (current_len c) seq_added in
  if (Z.of_nat (max_seq c) <? new_len)%Z then Err (Overflow new_len (max_seq c))
  else Ok (mkKVCache (layers c) (Z.to_nat new_len) (max_seq c)).

(** The protocol of the module documentation: every layer appended, in order,
    then [advance]. *)
Definition token_step (c : KVCache) (seq_added : nat) (kvs : list (list Z * list Z))
    : res KVCacheError KVCache :=
  let? c := rfold (λ c ikv, append c ikv.1 seq_added ikv.2.1 ikv.2.2) c (zip (List.seq 0 (length kvs)) kvs) in
  advance c seq_added.

(** ** The contract *)

(** The rows of head [bh] (batch and head together) in a buffer whose heads have
    [s] positions. *)
Definition head_row (buf : list Z) (s hd bh p : nat) : list Z := take hd (drop ((bh * s + p) * hd) buf).
Definition head_rows (buf : list Z) (s hd bh n : nat) : list (list Z) :=
  (λ p, head_row buf s hd bh p) <$> List.seq 0 n.

(** The valid rows of a layer. *)
Definition k_history (c : KVCache) (l : KVLayerCache) (bh : nat) : list (list Z) :=
  head_rows (kv_k l) (kv_max_seq l) (kv_head_dim l) bh (current_len c).
Definition v_history (c : KVCache) (l : KVLayerCache) (bh : nat) : list (list Z) :=
  head_rows (kv_v l) (kv_max_seq l) (kv_head_dim l) bh (current_len c).

(** Layers of the same dimensions whose buffers have their size, in [usize]. *)
Record layer_wf (b h s d : nat) (l : KVLayerCache) : Prop := {
  lw_dims : kv_batch l = b ∧ kv_n_heads l = h ∧ kv_max_seq l = s ∧ kv_head_dim l = d;
  lw_k : length (kv_k l) = b * h * s * d;
  lw_v : length (kv_v l) = b * h * s * d
}.
Record cache_wf (b h s d : nat) (c : KVCache) : Prop := {
  cw_layers : Forall (layer_wf b h s d) (layers c);
  cw_max : max_seq c = s;
  cw_len : current_len c ≤ s;
  cw_fits : (Z.of_nat (b * h * s * d) < 2 ^ 63)%Z;
  cw_usize : (Z.of_nat s < 2 ^ 63)%Z
}.

(** ** Rows *)

(** Row [r] of width [d]. *)
Definition frow (buf : list Z) (d r : nat) : list Z := take d (drop (r * d) buf).

Lemma frow_lookup buf d r i : frow buf d r !! i = if decide (i < d) then buf !! (r * d + i) else None.
Proof.
  unfold frow. destruct (decide (i < d)) as [Hi|Hi]; [by rewrite lookup_take_lt, lookup_drop|].
  apply lookup_take_ge. lia.
Qed.

Lemma copy_slice_lookup dst start len src off dst' : copy_slice dst start len src off = Ok dst' →
  length dst' = length dst ∧
  ∀ i, dst' !! i = if decide (start ≤ i ∧ i < start + len) then src !! (off + (i - start)) else dst !! i.
Proof.
  unfold copy_slice. destruct (Nat.ltb_spec (length dst) (start + len)) as [?|Hd]; [done|].
  destruct (Nat.ltb_spec (length src) (off + len)) as [?|Hs]; [done|]. cbn. intros [= <-].
  split; [rewrite !length_app, !length_take, !length_drop; lia|].
  intros i. destruct (decide (start ≤ i ∧ i < start + len)) as [[H1 H2]|Hn].
  - rewrite lookup_app_r by (rewrite length_take; lia). rewrite length_take_le by lia.
    rewrite lookup_app_l by (rewrite length_take, length_drop; lia).
    by rewrite lookup_take_lt, lookup_drop by lia.
  - destruct (decide (i < start)) as [Hi|Hi].
    + rewrite lookup_app_l by (rewrite length_take; lia). by rewrite lookup_take_lt.
    + rewrite lookup_app_r by (rewrite length_take; lia). rewrite length_take_le by lia.
      rewrite lookup_app_r by (rewrite length_take, length_drop; lia).
      rewrite length_take, length_drop, lookup_drop. f_equal. lia.
Qed.

Lemma copy_rows dst d r0 s src q0 : length dst ≥ (r0 + s) * d → length src ≥ (q0 + s) * d →
  ∃ dst', copy_slice dst (r0 * d) (s * d) src (q0 * d) = Ok dst' ∧ length dst' = length dst ∧
  ∀ r, frow dst' d r = if decide (r0 ≤ r ∧ r < r0 + s) then frow src d (q0 + (r - r0)) else frow dst d r.
Proof.
  intros Hd Hs.
  assert (∃ dst', copy_slice dst (r0 * d) (s * d) src (q0 * d) = Ok dst') as [dst' Heq].
  { unfold copy_slice. rewrite (proj2 (Nat.ltb_ge _ _)), (proj2 (Nat.ltb_ge _ _)) by lia. by eexists. }
  exists dst'. split; [done|]. apply copy_slice_lookup in Heq as [Hlen Hl]. split; [done|].
  intros r. apply list_eq. intros i. rewrite frow_lookup.
  destruct (decide (i < d)) as [Hi|Hi].
  - rewrite Hl. destruct (decide (r0 ≤ r ∧ r < r0 + s)) as [Hr|Hr].
    + rewrite decide_True by nia. rewrite frow_lookup, decide_True by done. f_equal. nia.
    + rewrite decide_False by nia. by rewrite frow_lookup, decide_True.
  - destruct (decide _); rewrite frow_lookup; by rewrite decide_False.
Qed.

(** ** Appending to a layer *)

Section layer.
Context (b h s d cl sa : nat) (nk nv : list Z).
Context (Hfit : cl + sa ≤ s) (Hnk : length nk = b * h * sa * d) (Hnv : length nv = b * h * sa * d).

(** The buffer after the heads below [g] are copied. *)
Definition heads_copied (new buf0 : list Z) (g : nat) (buf : list Z) : Prop :=
  length buf = length buf0 ∧
  ∀ bh p, p < s → frow buf d (bh * s + p) =
    if decide (bh < g ∧ cl ≤ p ∧ p < cl + sa) then frow new d (bh * sa + (p - cl))
    else frow buf0 d (bh * s + p).

Lemma copy_head new buf0 g buf : length new = b * h * sa * d → length buf0 = b * h * s * d →
  g < b * h → heads_copied new buf0 g buf →
  ∃ buf', copy_slice buf ((g * s + cl) * d) (sa * d) new ((g * sa) * d) = Ok buf' ∧
    heads_copied new buf0 (S g) buf'.
Proof.
  intros Hnew Hbuf0 Hg [Hlen Hrows].
  destruct (copy_rows buf d (g * s + cl) sa new (g * sa)) as (buf' & Heq & Hlen' & Hr).
  { rewrite Hlen, Hbuf0. apply Nat.mul_le_mono_r. nia. }
  { rewrite Hnew. apply Nat.mul_le_mono_r. nia. }
  exists buf'. split; [done|]. split; [congruence|]. intros bh p Hp. rewrite Hr.
  destruct (decide (g * s + cl ≤ bh * s + p ∧ bh * s + p < g * s + cl + sa)) as [Hin|Hout].
  - assert (bh = g) as -> by nia. rewrite decide_True by lia. f_equal. lia.
  - rewrite Hrows by done. destruct (decide (bh < g ∧ _)) as [H1|H1].
    + by rewrite decide_True by lia.
    + rewrite decide_False; [done|]. intros (H2 & H3 & H4). apply H1.
      assert (bh ≠ g) by (intros ->; apply Hout; lia). lia.
Qed.

Lemma head_loop k0 v0 : length k0 = b * h * s * d → length v0 = b * h * s * d →
  ∀ n h0 b0 k v, b0 < b → h0 + n = h →
  heads_copied nk k0 (b0 * h + h0) k → heads_copied nv v0 (b0 * h + h0) v →
  ∃ k' v',
    rfold (λ (kv : list Z * list Z) h1,
      let src_off := b0 * h * sa * d + h1 * sa * d in
      let dst_off := b0 * h * s * d + h1 * s * d + cl * d in
      let? k := copy_slice kv.1 dst_off (sa * d) nk src_off in
      let? v := copy_slice kv.2 dst_off (sa * d) nv src_off in
      Ok (k, v)) (k, v) (List.seq h0 n) = Ok (k', v') ∧
    heads_copied nk k0 (S b0 * h) k' ∧ heads_copied nv v0 (S b0 * h) v'.
Proof.
  intros Hk0 Hv0. induction n as [|n IH]; intros h0 b0 k v Hb0 Hh Hk Hv; cbn [List.seq rfold].
  { exists k, v. replace (S b0 * h) with (b0 * h + h0) by lia. done. }
  cbv zeta.
  replace (b0 * h * sa * d + h0 * sa * d) with ((b0 * h + h0) * sa * d) by lia.
  replace (b0 * h * s * d + h0 * s * d + cl * d) with (((b0 * h + h0) * s + cl) * d) by lia.
  destruct (copy_head nk k0 (b0 * h + h0) k) as (k1 & Hk1 & Hk1'); [done|done|nia|done|].
  destruct (copy_head nv v0 (b0 * h + h0) v) as (v1 & Hv1 & Hv1'); [done|done|nia|done|].
  cbn [fst snd]. rewrite Hk1, Hv1. cbn [rbind].
  apply IH; [done|lia|..]; by rewrite Nat.add_succ_r.
Qed.

Lemma batch_loop k0 v0 : length k0 = b * h * s * d → length v0 = b * h * s * d →
  ∀ n b0 k v, b0 + n = b →
  heads_copied nk k0 (b0 * h) k → heads_copied nv v0 (b0 * h) v →
  ∃ k' v',
    rfold (λ kv b1, rfold (λ (kv : list Z * list Z) h1,
      let src_off := b1 * h * sa * d + h1 * sa * d in
      let dst_off := b1 * h * s * d + h1 * s * d + cl * d in
      let? k := copy_slice kv.1 dst_off (sa * d) nk src_off in
      let? v := copy_slice kv.2 dst_off (sa * d) nv src_off in
      Ok (k, v)) kv (List.seq 0 h)) (k, v) (List.seq b0 n) = Ok (k', v') ∧
    heads_copied nk k0 (b * h) k' ∧ heads_copied nv v0 (b * h) v'.
Proof.
  intros Hk0 Hv0. induction n as [|n IH]; intros b0 k v Hb Hk Hv; cbn [List.seq rfold].
  { exists k, v. by replace b with b0 by lia. }
  destruct (head_loop k0 v0 Hk0 Hv0 h 0 b0 k v) as (k1 & v1 & Heq & Hk1 & Hv1); [lia|lia|by rewrite Nat.add_0_r..|].
  cbv zeta in Heq |- *. rewrite Heq. cbn [rbind]. apply IH; [lia|done|done].
Qed.
End layer.

Lemma product_u_fits l : (Z.of_nat (foldr Nat.mul 1%nat l) < 2 ^ 64)%Z →
  uprod l = Z.of_nat (foldr Nat.mul 1%nat l).
Proof.
  assert (zprod (Z.of_nat <$> l) = Z.of_nat (foldr Nat.mul 1%nat l)) as Hz.
  { unfold zprod. induction l as [|x l IH]; [done|]. cbn [fmap list_fmap foldr]. rewrite IH. lia. }
  intros Hl. unfold uprod. rewrite product_u_small, Hz; [done|lia|]. rewrite Hz. split; lia.
Qed.

Lemma usum_fits a b : (Z.of_nat (a + b) < 2 ^ 64)%Z → usum a b = Z.of_nat (a + b).
Proof. intros. unfold usum. rewrite Nat2Z.inj_add. apply wrap_small. split; lia. Qed.

(** What appending [sa] positions to a layer gives. *)
Definition appended (cl sa : nat) (nk nv : list Z) (l l' : KVLayerCache) : Prop :=
  ∀ bh p, bh < kv_batch l * kv_n_heads l → p < kv_max_seq l →
    let fresh := cl <=? p in
    let inside := p <? cl + sa in
    head_row (kv_k l') (kv_max_seq l) (kv_head_dim l) bh p =
      (if fresh && inside then head_row nk sa (kv_head_dim l) bh (p - cl)
       else head_row (kv_k l) (kv_max_seq l) (kv_head_dim l) bh p) ∧
    head_row (kv_v l') (kv_max_seq l) (kv_head_dim l) bh p =
      (if fresh && inside then head_row nv sa (kv_head_dim l) bh (p - cl)
       else head_row (kv_v l) (kv_max_seq l) (kv_head_dim l) bh p).

Lemma layer_append_ok b h s d l cl sa nk nv : layer_wf b h s d l →
  (Z.of_nat (b * h * s * d) < 2 ^ 63)%Z → (Z.of_nat s < 2 ^ 63)%Z → cl + sa ≤ s →
  length nk = b * h * sa * d → length nv = b * h * sa * d →
  ∃ l', layer_append l cl sa nk nv = Ok l' ∧ layer_wf b h s d l' ∧ appended cl sa nk nv l l'.
Proof.
  intros [(Hb & Hh & Hs & Hd) Hk Hv] Hfit Hs63 Hcl Hnk Hnv. unfold layer_append. rewrite Hb, Hh, Hs, Hd.
  assert (2 ^ 63 < 2 ^ 64)%Z by done.
  rewrite usum_fits by lia. rewrite (proj2 (Z.ltb_ge _ _)) by lia.
  rewrite product_u_fits; cbn [foldr]; [|assert (b * h * sa * d ≤ b * h * s * d) by (apply Nat.mul_le_mono_r, Nat.mul_le_mono_l; lia); lia].
  replace (b * (h * (sa * (d * 1)))) with (b * h * sa * d) by lia.
  rewrite Hnk, Hnv, Z.eqb_refl. cbn [negb orb].
  assert (∀ new k, heads_copied s d cl sa new k 0 k) as H0.
  { intros new k. split; [done|]. intros bh p _. by rewrite decide_False by lia. }
  destruct (batch_loop b h s d cl sa nk nv Hcl Hnk Hnv (kv_k l) (kv_v l) Hk Hv b 0 (kv_k l) (kv_v l))
    as (k' & v' & Heq & [Hk1 Hk2] & [Hv1 Hv2]); [lia|apply H0..|].
  cbv zeta in Heq |- *. rewrite Heq. cbn [rbind fst snd]. eexists. split; [done|]. split.
  { constructor; cbn; [done|lia|lia]. }
  intros bh p. rewrite Hb, Hh, Hs, Hd. intros Hbh Hp. cbn [kv_k kv_v].
  specialize (Hk2 bh p Hp). specialize (Hv2 bh p Hp). unfold head_row, frow in *. rewrite Hk2, Hv2.
  destruct (Nat.leb_spec cl p), (Nat.ltb_spec p (cl + sa)); cbn [andb]; repeat case_decide; try done; lia.
Qed.

(** ** Steps *)

Section steps.
Context (b h s d : nat).
Notation layer_wf := (layer_wf b h s d).
Notation cache_wf := (cache_wf b h s d).

(** The input of one layer in a step of [sa] positions. *)
Definition input_ok (sa : nat) (kv : list Z * list Z) : Prop :=
  length kv.1 = b * h * sa * d ∧ length kv.2 = b * h * sa * d.

Lemma append_ok c i l sa kv : cache_wf c → layers c !! i = Some l → current_len c + sa ≤ s → input_ok sa kv →
  ∃ l', append c i sa kv.1 kv.2 = Ok (mkKVCache (<[i := l']> (layers c)) (current_len c) (max_seq c)) ∧
    layer_wf l' ∧ appended (current_len c) sa kv.1 kv.2 l l'.
Proof.
  intros [Hl Hm Hc Hf Hu] Hi Hsa [Hk Hv]. unfold append. rewrite Hi. cbn [ok_or rbind].
  destruct (layer_append_ok b h s d l (current_len c) sa kv.1 kv.2) as (l' & -> & Hwf & Ha); try done.
  { rewrite Forall_lookup in Hl. by eapply Hl. }
  by exists l'.
Qed.

Lemma append_all sa ls pre c : ∀ kvs, cache_wf c → current_len c + sa ≤ s →
  layers c = pre ++ ls → length kvs = length ls → Forall (input_ok sa) kvs →
  ∃ ls', rfold (λ c ikv, append c ikv.1 sa ikv.2.1 ikv.2.2) c (zip (List.seq (length pre) (length kvs)) kvs) =
    Ok (mkKVCache (pre ++ ls') (current_len c) (max_seq c)) ∧
    Forall layer_wf ls' ∧ length ls' = length ls ∧
    ∀ i l kv l', ls !! i = Some l → kvs !! i = Some kv → ls' !! i = Some l' →
      appended (current_len c) sa kv.1 kv.2 l l'.
Proof.
  revert pre c. induction ls as [|l ls IH]; intros pre c [|kv kvs] Hwf Hsa Hls Hlen Hkv; try done.
  { exists []. split; [|by repeat split]. cbn. rewrite <- Hls. by destruct c. }
  apply Forall_cons in Hkv as [Hkv Hkvs]. cbn [length List.seq zip zip_with rfold fst snd].
  destruct (append_ok c (length pre) l sa kv) as (l' & -> & Hwf' & Ha); [done| |done|done|].
  { rewrite Hls, lookup_app_r, Nat.sub_diag by lia. done. }
  cbn [rbind]. rewrite Hls, insert_app_r_alt, Nat.sub_diag by lia. cbn [insert list_insert].
  set (c1 := mkKVCache (pre ++ l' :: ls) (current_len c) (max_seq c)).
  destruct (IH (pre ++ [l']) c1 kvs) as (ls' & Heq & Hwfs & Hl' & Hap).
  - destruct Hwf as [H1 H2 H3 H4 H5]. constructor; cbn; try done.
    rewrite Hls in H1. apply Forall_app in H1 as [? [? ?]%Forall_cons]. apply Forall_app. split; [done|].
    by constructor.
  - done.
  - cbn. by rewrite <- app_assoc.
  - by injection Hlen.
  - done.
  - rewrite length_app, Nat.add_1_r in Heq. exists (l' :: ls'). split.
    { rewrite Heq. cbn. by rewrite <- app_assoc. }
    split; [by constructor|]. split; [cbn; by f_equal|].
    intros [|i] l0 kv0 l0'; cbn; [by intros [= <-] [= <-] [= <-]|]. apply Hap.
Qed.

Lemma history_appended c l sa nk nv l' c' bh : layer_wf l → appended (current_len c) sa nk nv l l' →
  layer_wf l' → bh < b * h → current_len c + sa ≤ s → current_len c' = current_len c + sa →
  k_history c' l' bh = k_history c l bh ++ head_rows nk sa d bh sa ∧
  v_history c' l' bh = v_history c l bh ++ head_rows nv sa d bh sa.
Proof.
  intros [(Hb & Hh & Hs & Hd) _ _] Ha [(_ & _ & Hs' & Hd') _ _] Hbh Hsa Hc'.
  unfold k_history, v_history, head_rows. rewrite Hc', Hs', Hd', Hs, Hd, !seq_app, !fmap_app.
  unfold appended in Ha. rewrite Hb, Hh, Hs, Hd in Ha. cbv zeta in Ha.
  assert (∀ f g : nat → list Z, (∀ p, p < sa → f (current_len c + p) = g p) →
    f <$> List.seq (0 + current_len c) sa = g <$> List.seq 0 sa) as Hshift.
  { intros f g Hfg. rewrite Nat.add_0_l. rewrite <- (Nat.add_0_r (current_len c)), <- fmap_add_seq.
    rewrite <- list_fmap_compose. apply list_fmap_ext. intros p ? [-> Hp]%lookup_seq. by apply Hfg. }
  split; f_equal; try (apply list_fmap_ext; intros p ? [-> Hp]%lookup_seq;
    destruct (Ha bh p Hbh ltac:(lia)) as [H1 H2]; rewrite (proj2 (Nat.leb_gt _ _)) in H1, H2 by lia;
    cbn [andb] in *; done).
  all: apply Hshift; intros p Hp; destruct (Ha bh (current_len c + p) Hbh ltac:(lia)) as [H1 H2];
    rewrite (proj2 (Nat.leb_le _ _)), (proj2 (Nat.ltb_lt _ _)) in H1, H2 by lia; cbn [andb] in *;
    rewrite ?H1, ?H2; f_equal; lia.
Qed.

(** A step: the number of new positions, and the K and V of each layer. *)
Notation Step := (nat * list (list Z * list Z))%type.

Definition run_steps (c : KVCache) (steps : list Step) : res KVCacheError KVCache :=
  rfold (λ c st, token_step c st.1 st.2) c steps.

Definition step_ok (n : nat) (st : Step) : Prop := length st.2 = n ∧ Forall (input_ok st.1) st.2.

(** The rows of layer [i] and head [bh] that the steps bring. *)
Definition step_rows (sel : list Z * list Z → list Z) (i bh : nat) (st : Step) : list (list Z) :=
  match st.2 !! i with Some kv => head_rows (sel kv) st.1 d bh st.1 | None => [] end.

Definition total_len (steps : list Step) : nat := foldr (λ st n, st.1 + n) 0 steps.

Lemma total_len_app l1 l2 : total_len (l1 ++ l2) = total_len l1 + total_len l2.
Proof. unfold total_len. induction l1 as [|x l1 IH]; [done|]. cbn. rewrite IH. lia. Qed.

Record history_inv (n : nat) (done : list Step) (c : KVCache) : Prop := {
  hi_wf : cache_wf c;
  hi_layers : length (layers c) = n;
  hi_len : current_len c = total_len done;
  hi_rows i l bh : layers c !! i = Some l → bh < b * h →
    k_history c l bh = concat (step_rows fst i bh <$> done) ∧
    v_history c l bh = concat (step_rows snd i bh <$> done)
}.

Lemma token_step_ok n done c st : history_inv n done c → step_ok n st → current_len c + st.1 ≤ s →
  ∃ c', token_step c st.1 st.2 = Ok c' ∧ history_inv n (done ++ [st]) c'.
Proof.
  intros [Hwf Hn Hlen Hrows] [Hst Hin] Hs. unfold token_step.
  destruct (append_all st.1 (layers c) [] c st.2 Hwf Hs eq_refl) as (ls' & Heq & Hwfs & Hl & Hap); [congruence|done|].
  cbn [length] in Heq. rewrite Heq. cbn [rbind app]. unfold advance. cbn [current_len max_seq layers].
  destruct Hwf as [H1 H2 H3 H4 H5]. assert (2 ^ 63 < 2 ^ 64)%Z by done.
  rewrite usum_fits by lia. rewrite (proj2 (Z.ltb_ge _ _)) by lia. rewrite Nat2Z.id.
  eexists. split; [done|]. constructor; cbn [layers current_len max_seq].
  - constructor; cbn; [done|done|lia|done|done].
  - congruence.
  - rewrite total_len_app, Hlen. cbn. lia.
  - intros i l' bh Hl' Hbh.
    destruct (lookup_lt_is_Some_2 (layers c) i) as [l Hl0]; [rewrite <- Hl; by eapply lookup_lt_Some|].
    destruct (lookup_lt_is_Some_2 st.2 i) as [kv Hkv]; [rewrite Hst, <- Hn; by eapply lookup_lt_Some|].
    destruct (Hrows i l bh Hl0 Hbh) as [Hk Hv].
    rewrite !fmap_app, !concat_app. cbn [fmap list_fmap concat]. rewrite !app_nil_r.
    unfold step_rows at 2 4. rewrite Hkv, <- Hk, <- Hv.
    eapply history_appended; [|by eapply Hap| |done|done|done].
    + rewrite Forall_lookup in H1. by eapply H1.
    + rewrite Forall_lookup in Hwfs. by eapply Hwfs.
Qed.

Lemma run_steps_ok n steps : ∀ done c, history_inv n done c → Forall (step_ok n) steps →
  total_len (done ++ steps) ≤ s → ∃ c', run_steps c steps = Ok c' ∧ history_inv n (done ++ steps) c'.
Proof.
  induction steps as [|st steps IH]; intros done c Hinv Hst Htot.
  { exists c. by rewrite app_nil_r. }
  apply Forall_cons in Hst as [Hst Hsts].
  replace (done ++ st :: steps) with ((done ++ [st]) ++ steps) in * by (by rewrite <- app_assoc).
  rewrite !total_len_app in Htot. cbn in Htot.
  destruct (token_step_ok n done c st Hinv Hst) as (c1 & Heq & Hinv1).
  { rewrite (hi_len _ _ _ Hinv). lia. }
  cbn [run_steps rfold]. unfold run_steps. cbn [rfold]. rewrite Heq. cbn [rbind].
  apply IH; [done|done|]. rewrite !total_len_app. cbn. lia.
Qed.

Lemma KVCache_new_wf n : (Z.of_nat (b * h * s * d) < 2 ^ 63)%Z → (Z.of_nat s < 2 ^ 63)%Z →
  history_inv n [] (KVCache_new n b h d s).
Proof.
  intros Hf Hu. assert (2 ^ 63 < 2 ^ 64)%Z by done. constructor; cbn.
  - constructor; cbn; [|done|lia|done|done]. apply Forall_fmap, Forall_true. intros i.
    unfold KVLayerCache_new. rewrite product_u_fits; cbn [foldr].
    2: { replace (b * (h * (s * (d * 1)))) with (b * h * s * d) by lia. lia. }
    rewrite Nat2Z.id. constructor; cbn; rewrite ?length_replicate; try done; lia.
  - by rewrite length_fmap, length_seq.
  - done.
  - done.
Qed.
End steps.

(** C17: the cache refines a history.  After any number of decoding steps (each
    appends its [K] and [V] to every layer and advances) that fit, every layer
    and head of a fresh cache holds, in its first [current_len] rows, exactly the
    rows of the steps in their order, and the steps never fail. *)
Theorem kv_cache_history (n b h s d : nat) steps :
  (Z.of_nat (b * h * s * d) < 2 ^ 63)%Z → (Z.of_nat s < 2 ^ 63)%Z →
  Forall (step_ok b h d n) steps → total_len steps ≤ s →
  ∃ c, run_steps (KVCache_new n b h d s) steps = Ok c ∧ cache_wf b h s d c ∧ num_layers c = n ∧
    current_len c = total_len steps ∧
    ∀ i l bh, layers c !! i = Some l → bh < b * h →
      k_history c l bh = concat (step_rows d fst i bh <$> steps) ∧
      v_history c l bh = concat (step_rows d snd i bh <$> steps).
Proof.
  intros Hf Hu Hst Htot.
  destruct (run_steps_ok b h s d n steps [] _ (KVCache_new_wf b h s d n Hf Hu) Hst Htot) as (c & Hrun & Hinv).
  exists c. split; [done|]. destruct Hinv as [H1 H2 H3 H4]. by split_and!.
Qed.

Lemma rfold_no_panic {E S A} (f : S → A → res E S) s l : (∀ s x, f s x ≠ Panic) → rfold f s l ≠ Panic.
Proof.
  intros Hf. revert s. induction l as [|x l IH]; intros s; [done|]. cbn.
  pose proof (Hf s x). destruct (f s x); [apply IH|done|done].
Qed.

(** The wrapped product rejects a number of positions whose sum wraps. *)
Lemma wrapped_len b h s d cl sa : cl ≤ s → (Z.of_nat (b * h * s * d) < 2 ^ 63)%Z →
  (Z.of_nat sa < 2 ^ 64)%Z → (2 ^ 64 <= Z.of_nat (cl + sa))%Z → b * h * d ≠ 0 →
  (2 ^ 63 <= uprod [b; h; sa; d])%Z.
Proof.
  intros Hcl Hf Hsa Hwrap Hbhd. unfold uprod. rewrite product_u_wrap by lia.
  unfold zprod. cbn [fmap list_fmap foldr].
  set (B := Z.of_nat (b * h * d)). assert (0 < B)%Z by lia.
  change (2 ^ 64)%Z with 18446744073709551616%Z in *. change (2 ^ 63)%Z with 9223372036854775808%Z in *.
  set (t := (18446744073709551616 - Z.of_nat sa)%Z).
  assert (0 < t ≤ Z.of_nat s)%Z as [Ht1 Ht2] by lia.
  assert (B * t <= B * Z.of_nat s)%Z as Hle by (apply Z.mul_le_mono_nonneg_l; lia).
  assert (B * Z.of_nat s = Z.of_nat (b * h * s * d))%Z as HBs by (unfold B; lia).
  assert (0 < B * t)%Z by (apply Z.mul_pos_pos; lia).
  replace (Z.of_nat b * (Z.of_nat h * (Z.of_nat sa * (Z.of_nat d * 1))))%Z
    with (18446744073709551616 - B * t + (B - 1) * 18446744073709551616)%Z by (unfold B, t; lia).
  unfold wrap. change (2 ^ 64)%Z with 18446744073709551616%Z. rewrite Z.mod_add by lia.
  rewrite Z.mod_small by lia. lia.
Qed.

(** Copying into or out of empty heads does not panic. *)
Lemma layer_append_no_panic b h s d l cl sa nk nv : layer_wf b h s d l → cl ≤ s → s < cl + sa →
  (Z.of_nat (b * h * s * d) < 2 ^ 63)%Z → (Z.of_nat sa < 2 ^ 64)%Z →
  (Z.of_nat (length nk) < 2 ^ 63)%Z → layer_append l cl sa nk nv ≠ Panic.
Proof.
  intros [(Hb & Hh & Hs & Hd) _ _] Hcl Hover Hf Hsa Hnk. unfold layer_append. rewrite Hb, Hh, Hs, Hd.
  destruct (Z.ltb_spec (Z.of_nat s) (usum cl sa)) as [?|Hpass]; [done|].
  assert (2 ^ 64 <= Z.of_nat (cl + sa))%Z as Hwrap.
  { destruct (Z.le_gt_cases (2 ^ 64) (Z.of_nat (cl + sa))) as [?|Hlt]; [done|].
    rewrite usum_fits in Hpass by done. lia. }
  destruct (decide (b * h * d = 0)) as [Hz|Hnz].
  - destruct (_ || _); [done|].
    assert (∀ kv l', rfold (λ (kv : list Z * list Z) h1,
      let src_off := l' * h * sa * d + h1 * sa * d in
      let dst_off := l' * h * s * d + h1 * s * d + cl * d in
      let? k := copy_slice kv.1 dst_off (sa * d) nk src_off in
      let? v := copy_slice kv.2 dst_off (sa * d) nv src_off in Ok (k, v)) kv (List.seq 0 h) ≠ Panic ∨ b = 0) as Hin.
    { intros kv b1. destruct (decide (b = 0)) as [?|Hbz]; [by right|left].
      destruct (decide (h = 0)) as [->|Hhz]; [done|]. assert (d = 0) as -> by nia.
      apply rfold_no_panic. intros st x. cbv zeta. unfold copy_slice.
      rewrite !Nat.mul_0_r. cbn [Nat.add]. by rewrite !(proj2 (Nat.ltb_ge _ _)) by lia. }
    destruct (decide (b = 0)) as [->|Hbz]; [done|].
    match goal with |- rbind ?m _ ≠ Panic => assert (m ≠ Panic) as Hm end.
    { apply rfold_no_panic. intros st b1. by destruct (Hin st b1). }
    by destruct (rfold _ _ (List.seq 0 b)).
  - pose proof (wrapped_len b h s d cl sa Hcl Hf Hsa Hwrap Hnz) as Hlong.
    destruct (Z.eqb_spec (Z.of_nat (length nk)) (uprod [b; h; sa; d])); [lia|done].
Qed.

(** errors of [append] and [advance] on a well-formed cache, for any number
    of positions: an unknown layer, an overflow and inputs of the wrong length
    are reported as such, in that order; otherwise it succeeds; nothing panics,
    even when [current_len + seq_added] wraps. *)
Theorem kv_append_errors (b h s d : nat) c i sa (nk nv : list Z) :
  cache_wf b h s d c → (Z.of_nat sa < 2 ^ 64)%Z →
  (Z.of_nat (length nk) < 2 ^ 63)%Z → (Z.of_nat (length nv) < 2 ^ 63)%Z →
  (num_layers c ≤ i → append c i sa nk nv = Err (LayerOutOfRange i (num_layers c))) ∧
  (i < num_layers c →
    (s < current_len c + sa → (Z.of_nat (current_len c + sa) < 2 ^ 64)%Z →
      append c i sa nk nv = Err (Overflow (Z.of_nat (current_len c + sa)) s)) ∧
    (current_len c + sa ≤ s → ¬ input_ok b h d sa (nk, nv) →
      append c i sa nk nv = Err (WrongInputLen (Z.of_nat (b * h * sa * d)) (length nk) (length nv))) ∧
    (current_len c + sa ≤ s → input_ok b h d sa (nk, nv) → ∃ c', append c i sa nk nv = Ok c') ∧
    append c i sa nk nv ≠ Panic) ∧
  ((Z.of_nat (current_len c + sa) < 2 ^ 64)%Z → advance c sa =
     if current_len c + sa <=? s then Ok (mkKVCache (layers c) (current_len c + sa) (max_seq c))
     else Err (Overflow (Z.of_nat (current_len c + sa)) s)).
Proof.
  intros Hwf Hsa Hnk Hnv. pose proof Hwf as [Hl Hm Hc Hf Hu].
  assert (2 ^ 63 < 2 ^ 64)%Z as Hpow by done.
  split; [|split].
  - intros Hi. unfold append. by rewrite lookup_ge_None_2.
  - intros Hi. destruct (lookup_lt_is_Some_2 (layers c) i Hi) as [l Hli].
    assert (layer_wf b h s d l) as Hlw by (rewrite Forall_lookup in Hl; by eapply Hl).
    pose proof Hlw as [(Hlb & Hlh & Hls & Hld) Hlk Hlv].
    assert (current_len c + sa ≤ s → uprod [b; h; sa; d] = Z.of_nat (b * h * sa * d)) as Hprod.
    { intros Hle. rewrite product_u_fits; cbn [foldr]; [f_equal; lia|].
      assert (b * h * sa * d ≤ b * h * s * d) by (apply Nat.mul_le_mono_r, Nat.mul_le_mono_l; lia). lia. }
    split_and!.
    + intros Hover Hfit. unfold append. rewrite Hli. cbn [ok_or rbind]. unfold layer_append.
      rewrite usum_fits, Hls by done. by rewrite (proj2 (Z.ltb_lt _ _)) by lia.
    + intros Hle Hno. unfold append. rewrite Hli. cbn [ok_or rbind]. unfold layer_append.
      rewrite usum_fits, Hls by lia. rewrite (proj2 (Z.ltb_ge _ _)) by lia.
      rewrite Hlb, Hlh, Hld, Hprod by done.
      destruct (Z.eqb_spec (Z.of_nat (length nk)) (Z.of_nat (b * h * sa * d))); [|done].
      destruct (Z.eqb_spec (Z.of_nat (length nv)) (Z.of_nat (b * h * sa * d))); [|done].
      exfalso. apply Hno. split; cbn; lia.
    + intros Hle Hok. destruct (append_ok b h s d c i l sa (nk, nv)) as (l' & Heq & _); [done..|].
      by eexists.
    + destruct (decide (current_len c + sa ≤ s)) as [Hle|Hgt].
      { destruct (decide (length nk = b * h * sa * d ∧ length nv = b * h * sa * d)) as [Hok|Hno].
        - destruct (append_ok b h s d c i l sa (nk, nv)) as (l' & Heq & _); [done..|].
          cbn in Heq. by rewrite Heq.
        - unfold append. rewrite Hli. cbn [ok_or rbind]. unfold layer_append.
          rewrite usum_fits, Hls by lia. rewrite (proj2 (Z.ltb_ge _ _)) by lia.
          rewrite Hlb, Hlh, Hld, Hprod by done.
          destruct (Z.eqb_spec (Z.of_nat (length nk)) (Z.of_nat (b * h * sa * d))); [|done].
          destruct (Z.eqb_spec (Z.of_nat (length nv)) (Z.of_nat (b * h * sa * d))); [|done]. lia. }
      unfold append. rewrite Hli. cbn [ok_or rbind].
      pose proof (layer_append_no_panic b h s d l (current_len c) sa nk nv Hlw Hc ltac:(lia) Hf Hsa Hnk).
      by destruct (layer_append l (current_len c) sa nk nv).
  - intros Hfit. unfold advance. rewrite usum_fits, Hm by done.
    destruct (Nat.leb_spec (current_len c + sa) s).
    + rewrite (proj2 (Z.ltb_ge _ _)) by lia. by rewrite Nat2Z.id.
    + by rewrite (proj2 (Z.ltb_lt _ _)) by lia.
Qed.

(** ** Witnesses *)

(** Two layers, one batch, two heads of width 1, at most three positions. *)
#[local] Definition demo_steps : list (nat * list (list Z * list Z)) :=
  [(2%nat, [([1; 2; 3; 4], [5; 6; 7; 8]); ([9; 10; 11; 12], [13; 14; 15; 16])]);
   (1%nat, [([21; 22], [23; 24]); ([25; 26], [27; 28])])]%Z.

Lemma kv_cache_history_witness :
  ∃ c l, run_steps (KVCache_new 2 1 2 1 3) demo_steps = Ok c ∧ layers c !! 1 = Some l ∧
    k_history c l 1 = [[11]; [12]; [26]]%Z.
Proof.
  destruct (kv_cache_history 2 1 2 3 1 demo_steps) as (c & Hrun & _ & Hn & _ & Hall).
  - vm_compute. reflexivity.
  - vm_compute. reflexivity.
  - repeat (constructor; [split; [reflexivity|repeat (constructor; [split; reflexivity|]); constructor]|]).
    constructor.
  - vm_compute. lia.
  - destruct (lookup_lt_is_Some_2 (layers c) 1) as [l Hl]; [unfold num_layers in Hn; lia|].
    exists c, l. split; [done|]. split; [done|]. destruct (Hall 1 l 1 Hl) as [-> _]; [lia|].
    vm_compute. reflexivity.
Defined.

Lemma kv_append_errors_witness :
  append (KVCache_new 2 1 2 1 3) 5 1 [1; 2]%Z [3; 4]%Z = Err (LayerOutOfRange 5 2).
Proof.
  destruct (kv_append_errors 1 2 3 1 (KVCache_new 2 1 2 1 3) 5 1 [1; 2]%Z [3; 4]%Z) as [H _].
  - apply (KVCache_new_wf 1 2 3 1 2); vm_compute; reflexivity.
  - vm_compute. reflexivity.
  - vm_compute. reflexivity.
  - vm_compute. reflexivity.
  - apply H. vm_compute. lia.
Defined.

