(* ===== verification/Serve.v ===== *)
(** * Serving (crates/rustorch-serve/src/batcher.rs, autoscale.rs)

    The dynamic batcher: its bounded queue, the callers that wait for an answer
    and the batching task, as a state and a transition per event.  The task is
    deterministic; what is not (arrivals, time, cancellation, when the task is
    scheduled) is the sequence of events.  The inference function is a
    parameter.  Then the autoscale controller. *)

From Stdlib Require Import ZArith Lia.
From stdpp Require Import base list gmap sets sorting.
From S2P Require Import Prelude Float.

(** ** The batcher *)

Module Batcher.

(** [struct BatchConfig]; the wait is in clock ticks. *)
Record BatchConfig := mkBatchConfig {
  max_batch : nat;
  max_wait : Z;
  queue_depth : nat
}.

(** What [predict] returns. *)
Inductive Outcome (V : Type) :=
  | Answer (v : V)
  | Overloaded
  | Shutdown.
Arguments Answer {V} v.
Arguments Overloaded {V}.
Arguments Shutdown {V}.

Section batcher.
(** [serde_json::Value] with [Value::Null]; [infer] gives [None] when it panics. *)
Context {V : Type} (Null : V) (infer : list V → option (list V)) (cfg : BatchConfig).

(** [struct Request]: the reply channel is the caller's identity. *)
Record Request := mkRequest { r_id : nat; r_input : V }.

(** Where [run_loop] is: waiting for a first request; collecting a batch (about
    to check the deadline, or waiting under [timeout]); running the model;
    returned. *)
Inductive Worker :=
  | Idle
  | Collecting (batch : list Request) (deadline : Z) (armed : bool)
  | Running (batch : list Request)
  | Stopped.

Record State := mkSt {
  now : Z;
  queue : list Request;
  closed : bool;                      (* all [Batcher] handles dropped *)
  worker : Worker;
  waiting : gset nat;                 (* callers in [predict] *)
  results : gmap nat (Outcome V);     (* what their [predict] returned *)
  next_id : nat
}.

(** [Batcher::spawn]; a channel of capacity 0 panics. *)
Definition spawn (t : Z) : option State :=
  if decide (queue_depth cfg = 0%nat) then None
  else Some (mkSt t [] false Idle ∅ ∅ 0).

(** The reply of one request: ignored when the caller is gone. *)
Definition reply (id : nat) (o : Outcome V) (wr : gset nat * gmap nat (Outcome V))
    : gset nat * gmap nat (Outcome V) :=
  if decide (id ∈ wr.1) then (wr.1 ∖ {[id]}, <[id := o]> wr.2) else wr.

(** [for (i, reply) in replies { reply.send(outputs.get(i) or Null) }] *)
Definition outputs_of (batch : list Request) : list V := default [] (infer (r_input <$> batch)).
Definition send_all (batch : list Request) (wr : gset nat * gmap nat (Outcome V))
    : gset nat * gmap nat (Outcome V) :=
  foldl (λ wr ir, reply (r_id ir.2) (Answer (nth ir.1 (outputs_of batch) Null)) wr) wr
    (zip (seq 0 (length batch)) batch).

(** Dropping the reply channels of a batch. *)
Definition drop_all (batch : list Request) (wr : gset nat * gmap nat (Outcome V))
    : gset nat * gmap nat (Outcome V) :=
  foldl (λ wr r, reply (r_id r) Shutdown wr) wr batch.

(** The next move of [run_loop]; [None] when it is blocked or has returned. *)
Definition worker_step (s : State) : option State :=
  match worker s with
  | Idle =>
      match queue s with
      | r :: q => Some (mkSt (now s) q (closed s) (Collecting [r] (now s + max_wait cfg) false)
                          (waiting s) (results s) (next_id s))
      | [] =>
          if closed s then Some (mkSt (now s) [] true Stopped (waiting s) (results s) (next_id s)) else None
      end
  | Collecting batch dl false =>
      if (length batch <? max_batch cfg)%nat && negb (sat_sub dl (now s) =? 0) then
        Some (mkSt (now s) (queue s) (closed s) (Collecting batch dl true) (waiting s) (results s) (next_id s))
      else Some (mkSt (now s) (queue s) (closed s) (Running batch) (waiting s) (results s) (next_id s))
  | Collecting batch dl true =>
      match queue s with
      | r :: q => Some (mkSt (now s) q (closed s) (Collecting (batch ++ [r]) dl false)
                          (waiting s) (results s) (next_id s))
      | [] =>
          if closed s then
            let wr := drop_all batch (waiting s, results s) in
            Some (mkSt (now s) [] true Stopped wr.1 wr.2 (next_id s))
          else if dl <=? now s then
            Some (mkSt (now s) [] false (Running batch) (waiting s) (results s) (next_id s))
          else None
      end
  | Running batch =>
      let wr := send_all batch (waiting s, results s) in
      Some (mkSt (now s) (queue s) (closed s) Idle wr.1 wr.2 (next_id s))
  | Stopped => None
  end.

(** [Batcher::predict] up to its [await]: the request is queued, or refused. *)
Definition predict (v : V) (s : State) : State :=
  let id := next_id s in
  match worker s with
  | Stopped => mkSt (now s) (queue s) (closed s) (worker s) (waiting s) (<[id := Shutdown]> (results s)) (S id)
  | _ =>
      if (length (queue s) <? queue_depth cfg)%nat then
        mkSt (now s) (queue s ++ [mkRequest id v]) (closed s) (worker s) (waiting s ∪ {[id]}) (results s) (S id)
      else mkSt (now s) (queue s) (closed s) (worker s) (waiting s) (<[id := Overloaded]> (results s)) (S id)
  end.

(** What can happen.  A caller in [predict] borrows the handle, so the last
    handle is dropped only when nobody waits, and nobody calls afterwards. *)
Inductive Event :=
  | Predict (v : V)
  | Tick (dt : Z)
  | Work
  | Cancel (id : nat)
  | Close.

Definition step (s : State) (e : Event) : State :=
  match e with
  | Predict v => if closed s then s else predict v s
  | Tick dt => mkSt (now s + Z.max 0 dt) (queue s) (closed s) (worker s) (waiting s) (results s) (next_id s)
  | Work => default s (worker_step s)
  | Cancel id => mkSt (now s) (queue s) (closed s) (worker s) (waiting s ∖ {[id]}) (results s) (next_id s)
  | Close =>
      if decide (waiting s = ∅) then
        mkSt (now s) (queue s) true (worker s) (waiting s) (results s) (next_id s)
      else s
  end.

Definition run (s : State) (es : list Event) : State := foldl step s es.

(** The requests that the task holds. *)
Definition in_flight (w : Worker) : list Request :=
  match w with
  | Collecting batch _ _ | Running batch => batch
  | _ => []
  end.
Definition held (s : State) : list Request := in_flight (worker s) ++ queue s.

(** ** Reachable states *)

(** [reach s ins]: [s] is reachable, with [ins] the inputs of all calls. *)
Inductive reach : State → gmap nat V → Prop :=
  | reach_spawn t s : spawn t = Some s → reach s ∅
  | reach_step s ins e : reach s ins →
      reach (step s e)
        (match e with
         | Predict v => if closed s then ins else <[next_id s := v]> ins
         | _ => ins
         end).

(** An answer comes from a batch of at most [max(1, max_batch)] requests that
    holds the request, as its element of the model's output (or null). *)
Definition answered_by (ins : gmap nat V) (id : nat) (v : V) : Prop :=
  ∃ batch i x, batch !! i = Some (mkRequest id x) ∧ ins !! id = Some x ∧
    (length batch ≤ Nat.max 1 (max_batch cfg))%nat ∧ v = nth i (outputs_of batch) Null.

Definition worker_wf (s : State) : Prop :=
  match worker s with
  | Idle => True
  | Collecting batch dl armed =>
      (1 ≤ length batch ≤ Nat.max 1 (max_batch cfg))%nat ∧
      (armed = true → length batch < max_batch cfg)%nat ∧ dl ≤ now s + max_wait cfg
  | Running batch => (1 ≤ length batch ≤ Nat.max 1 (max_batch cfg))%nat
  | Stopped => closed s = true ∧ queue s = []
  end.

Record inv (s : State) (ins : gmap nat V) : Prop := {
  in_queue : (length (queue s) ≤ queue_depth cfg)%nat;
  in_worker : worker_wf s;
  in_order : StronglySorted lt (r_id <$> held s);
  in_held r : r ∈ held s → (r_id r < next_id s)%nat ∧ ins !! r_id r = Some (r_input r);
  in_ins id : (next_id s ≤ id)%nat → ins !! id = None;
  in_waiting id : id ∈ waiting s → id ∈ r_id <$> held s;
  in_closed : closed s = true → waiting s = ∅;
  in_results id o : results s !! id = Some o →
    (id < next_id s)%nat ∧ id ∉ waiting s ∧ o ≠ Shutdown ∧
    ∀ v, o = Answer v → answered_by ins id v
}.

(** *** Replies *)

Definition reply_list (l : list (nat * Outcome V)) (wr : gset nat * gmap nat (Outcome V)) :=
  foldl (λ wr p, reply p.1 p.2 wr) wr l.

Lemma reply_list_spec l wr : NoDup l.*1 →
  (reply_list l wr).1 = wr.1 ∖ list_to_set l.*1 ∧
  (∀ id, id ∉ wr.1 ∨ id ∉ l.*1 → (reply_list l wr).2 !! id = wr.2 !! id) ∧
  (∀ id o, id ∈ wr.1 → (id, o) ∈ l → (reply_list l wr).2 !! id = Some o).
Proof.
  revert wr. induction l as [|[i o] l IH]; intros [w r] Hnd.
  { cbn. split; [set_solver|]. split; [done|]. intros id o _ Hin. by apply not_elem_of_nil in Hin. }
  cbn in Hnd. apply NoDup_cons in Hnd as [Hi Hnd]. unfold reply_list. cbn [foldl fst snd].
  destruct (IH (reply i o (w, r)) Hnd) as (IH1 & IH2 & IH3). fold (reply_list l (reply i o (w, r))).
  rewrite IH1. unfold reply in *. cbn [fst snd] in *. destruct (decide (i ∈ w)) as [Hw|Hw]; cbn [fst snd] in *.
  - split; [cbn; set_solver|]. split.
    + intros id Hid. cbn in Hid. rewrite IH2 by set_solver. apply lookup_insert_ne. set_solver.
    + intros id o' Hid [[= -> ->]|Hin]%elem_of_cons.
      * rewrite IH2 by set_solver. apply lookup_insert_eq.
      * apply IH3; [|done]. apply elem_of_difference. split; [done|].
        intros ->%elem_of_singleton. apply Hi. by apply list_elem_of_fmap_2 with (f := fst) in Hin.
  - split; [cbn; set_solver|]. split.
    + intros id Hid. cbn in Hid. apply IH2. set_solver.
    + intros id o' Hid [[= -> ->]|Hin]%elem_of_cons; [done|by apply IH3].
Qed.

Definition answers (batch : list Request) : list (nat * Outcome V) :=
  (λ ir, (r_id ir.2, Answer (nth ir.1 (outputs_of batch) Null))) <$> zip (seq 0 (length batch)) batch.

Lemma send_all_answers batch wr : send_all batch wr = reply_list (answers batch) wr.
Proof.
  unfold send_all, reply_list, answers. generalize (zip (seq 0 (length batch)) batch). intros l.
  revert wr. induction l as [|x l IH]; intros wr; [done|]. cbn. apply IH.
Qed.

Lemma answers_ids batch : (answers batch).*1 = r_id <$> batch.
Proof.
  unfold answers. rewrite <- list_fmap_compose.
  change (fst ∘ _) with (r_id ∘ (snd : nat * Request → Request)). rewrite list_fmap_compose, snd_zip; [done|].
  by rewrite length_seq.
Qed.

Lemma elem_of_answers batch i r : batch !! i = Some r →
  (r_id r, Answer (nth i (outputs_of batch) Null)) ∈ answers batch.
Proof.
  intros Hi. apply list_elem_of_fmap. exists (i, r). split; [done|].
  apply list_elem_of_lookup_2 with i. rewrite lookup_zip_with, Hi, lookup_seq_lt by (by eapply lookup_lt_Some). done.
Qed.

Lemma drop_all_none batch r : drop_all batch (∅, r) = (∅, r).
Proof.
  unfold drop_all. induction batch as [|x batch IH]; [done|]. cbn [foldl].
  assert (reply (r_id x) Shutdown (∅, r) = (∅, r)) as ->; [|done].
  unfold reply. by rewrite decide_False by (cbn; set_solver).
Qed.

(** *** The invariant *)

Lemma inv_spawn t s : spawn t = Some s → inv s ∅.
Proof.
  unfold spawn. case_decide; [done|]. intros [= <-]. constructor; cbn; try done; try lia.
  - constructor.
  - intros r Hin. by apply not_elem_of_nil in Hin.
Qed.

Lemma send_results batch s : NoDup (r_id <$> batch) → waiting s ⊆ list_to_set (r_id <$> batch ++ queue s) →
  let wr := send_all batch (waiting s, results s) in
  wr.1 = waiting s ∖ list_to_set (r_id <$> batch) ∧
  (∀ id, id ∉ waiting s ∨ id ∉ r_id <$> batch → wr.2 !! id = results s !! id) ∧
  (∀ i r, batch !! i = Some r → r_id r ∈ waiting s →
     wr.2 !! r_id r = Some (Answer (nth i (outputs_of batch) Null))).
Proof.
  intros Hnd _. cbv zeta. rewrite send_all_answers.
  destruct (reply_list_spec (answers batch) (waiting s, results s)) as (H1 & H2 & H3); [by rewrite answers_ids|].
  rewrite answers_ids in *. split; [done|]. split; [done|]. intros i r Hi Hw. apply H3; [done|].
  by apply elem_of_answers.
Qed.

Lemma sorted_nodup (l : list nat) : StronglySorted lt l → NoDup l.
Proof.
  induction 1 as [|x l _ IH Hx]; constructor; [|done]. intros Hin.
  rewrite Forall_forall in Hx. specialize (Hx x Hin). lia.
Qed.

Lemma inv_work s s' ins : inv s ins → worker_step s = Some s' → inv s' ins.
Proof.
  intros [Hq Hwf Ho Hh Hi Hw Hc Hr] Hstep. unfold worker_step in Hstep. unfold worker_wf, held in *.
  destruct (worker s) as [|batch dl [|]|batch|] eqn:Hwk; cbn [in_flight app] in *.
  - destruct (queue s) as [|r q] eqn:Hqs.
    + destruct (closed s) eqn:Hcl; [|done]. injection Hstep as <-. by constructor; cbn.
    + injection Hstep as <-. constructor; cbn in *; try done; try lia.
  - destruct (queue s) as [|r q] eqn:Hqs.
    + destruct (closed s) eqn:Hcl.
      * injection Hstep as <-. rewrite (Hc eq_refl), drop_all_none. rewrite (Hc eq_refl) in *.
        constructor; cbn; try done; try lia. constructor. intros r Hin. by apply not_elem_of_nil in Hin.
      * destruct (dl <=? now s); [|done]. injection Hstep as <-. constructor; cbn; try done; tauto.
    + injection Hstep as <-. destruct Hwf as (H1 & H2 & H3). constructor; cbn in *; try done; try lia;
        unfold held; cbn; rewrite <- ?app_assoc; try done.
      all: try (unfold worker_wf; cbn; rewrite length_app; cbn; split_and!; try lia; done).
  - destruct Hwf as (H1 & H2 & H3). destruct (Nat.ltb_spec (length batch) (max_batch cfg)); cbn [andb] in Hstep.
    + destruct (negb _) eqn:Hn; injection Hstep as <-; constructor; cbn; try done; tauto.
    + injection Hstep as <-. constructor; cbn; try done.
  - injection Hstep as <-.
    assert (NoDup (r_id <$> batch)) as Hnd.
    { apply sorted_nodup. rewrite fmap_app in Ho. by apply StronglySorted_app in Ho as (_ & ? & _). }
    destruct (send_results batch s Hnd) as (H1 & H2 & H3).
    { intros id Hid. apply elem_of_list_to_set. by apply Hw. }
    cbv zeta in *. constructor; cbn; try done; unfold held; cbn [worker in_flight app].
    + rewrite fmap_app in Ho. by apply StronglySorted_app in Ho as (_ & _ & ?).
    + intros r Hin. apply Hh. apply elem_of_app. by right.
    + intros id. rewrite H1. intros [Hid Hnb]%elem_of_difference. apply Hw in Hid.
      rewrite fmap_app in Hid. apply elem_of_app in Hid as [?|?]; [set_solver|done].
    + intros Hcl. rewrite H1, (Hc Hcl). set_solver.
    + intros id o Hres. destruct (decide (id ∈ waiting s ∧ id ∈ r_id <$> batch)) as [[Hid Hb]|Hno].
      * apply list_elem_of_fmap in Hb as (r & -> & Hb). apply list_elem_of_lookup in Hb as [i Hb].
        rewrite (H3 i r Hb Hid) in Hres. injection Hres as <-.
        destruct (Hh r) as [Hlt Hin]; [apply elem_of_app; left; by eapply list_elem_of_lookup_2|].
        split; [done|]. split; [rewrite H1; apply not_elem_of_difference; right|split; [done|]].
        { apply elem_of_list_to_set, list_elem_of_fmap_2. by eapply list_elem_of_lookup_2. }
        intros v [= <-]. exists batch, i, (r_input r). split; [by destruct r|]. split; [done|]. split; [lia|done].
      * rewrite H2 in Hres by (destruct (decide (id ∈ waiting s)); [right|left]; tauto).
        destruct (Hr id o Hres) as (? & ? & ? & ?). rewrite H1. set_solver.
  - done.
Qed.

Lemma answered_mono ins id n w v : (∀ k, (n ≤ k)%nat → ins !! k = None) →
  answered_by ins id v → answered_by (<[n := w]> ins) id v.
Proof.
  intros Hi (batch & i & x & Hb & Hx & Hl & Hv). exists batch, i, x. split; [done|]. split; [|done].
  rewrite lookup_insert_ne; [done|]. intros <-. by rewrite Hi in Hx by lia.
Qed.

Lemma sorted_snoc (l : list nat) n : StronglySorted lt l → (∀ x, x ∈ l → x < n)%nat → StronglySorted lt (l ++ [n]).
Proof.
  intros Hl Hn. apply StronglySorted_app. split; [|split; [done|repeat constructor]].
  intros x y Hx ->%list_elem_of_singleton. by apply Hn.
Qed.

Lemma inv_predict s ins v : inv s ins → closed s = false → inv (predict v s) (<[next_id s := v]> ins).
Proof.
  intros [Hq Hwf Ho Hh Hi Hw Hc Hr] Hcl.
  assert (∀ id o, results s !! id = Some o → id ≠ next_id s ∧ (id < S (next_id s))%nat ∧ id ∉ waiting s ∧
    o ≠ Shutdown ∧ ∀ w, o = Answer w → answered_by (<[next_id s := v]> ins) id w) as Hr'.
  { intros id o Hid. destruct (Hr id o Hid) as (? & ? & ? & Ha). split_and!; try done; try lia.
    intros w Hw'. apply answered_mono; [done|by apply Ha]. }
  assert (∀ r, r ∈ held s → (r_id r < S (next_id s))%nat ∧ <[next_id s := v]> ins !! r_id r = Some (r_input r)) as Hh'.
  { intros r Hin. destruct (Hh r Hin). rewrite lookup_insert_ne by lia. split; [lia|done]. }
  assert (∀ id, (S (next_id s) ≤ id)%nat → <[next_id s := v]> ins !! id = None) as Hi'.
  { intros id Hid. rewrite lookup_insert_ne by lia. apply Hi. lia. }
  assert (next_id s ∉ waiting s) as Hfresh.
  { intros Hin%Hw. apply list_elem_of_fmap in Hin as (r & Heq & Hin). destruct (Hh r Hin). lia. }
  assert (worker s ≠ Stopped) as Hns.
  { intros Hs. unfold worker_wf in Hwf. rewrite Hs in Hwf. destruct Hwf. congruence. }
  unfold predict. destruct (Nat.ltb_spec (length (queue s)) (queue_depth cfg)) as [Hroom|Hfull].
  - assert (inv (mkSt (now s) (queue s ++ [mkRequest (next_id s) v]) (closed s) (worker s)
      (waiting s ∪ {[next_id s]}) (results s) (S (next_id s))) (<[next_id s := v]> ins)) as H.
    { constructor; cbn; unfold held; cbn [worker queue]; rewrite ?app_assoc; try done.
      - rewrite length_app. cbn. lia.
      - unfold worker_wf in *. cbn. by destruct (worker s).
      - rewrite fmap_app. cbn. apply sorted_snoc; [done|]. intros x Hin.
        apply list_elem_of_fmap in Hin as (r & -> & Hin). by apply Hh.
      - intros r [Hin| ->%list_elem_of_singleton]%elem_of_app; [by apply Hh'|].
        cbn. rewrite lookup_insert_eq. split; [lia|done].
      - intros id [Hid| ->%elem_of_singleton]%elem_of_union; rewrite fmap_app, elem_of_app.
        + left. by apply Hw.
        + right. by apply list_elem_of_singleton.
      - congruence.
      - intros id o Hid. destruct (Hr' id o Hid) as (? & ? & ? & ?). set_solver. }
    by destruct (worker s).
  - assert (inv (mkSt (now s) (queue s) (closed s) (worker s) (waiting s) (<[next_id s := Overloaded]> (results s))
      (S (next_id s))) (<[next_id s := v]> ins)) as H.
    { constructor; cbn; try done.
      intros id o. destruct (decide (id = next_id s)) as [->|Hne].
      - rewrite lookup_insert_eq. intros [= <-]. split_and!; try done; lia.
      - rewrite lookup_insert_ne by done. intros Hid. by apply Hr'. }
    by destruct (worker s).
Qed.

Lemma inv_step s ins e : inv s ins →
  inv (step s e) (match e with
                  | Predict v => if closed s then ins else <[next_id s := v]> ins
                  | _ => ins
                  end).
Proof.
  intros Hinv. destruct e as [v|dt| |id|]; cbn [step].
  - destruct (closed s) eqn:Hcl; [done|]. by apply inv_predict.
  - pose proof Hinv as [Hq Hwf Ho Hh Hi Hw Hc Hr]. constructor; cbn; try done.
    unfold worker_wf in *. cbn. destruct (worker s); try done. split_and!; try tauto; lia.
  - destruct (worker_step s) eqn:Hs; cbn; [by eapply inv_work|done].
  - pose proof Hinv as [Hq Hwf Ho Hh Hi Hw Hc Hr]. constructor; cbn; try done.
    + intros id' [Hid _]%elem_of_difference. by apply Hw.
    + intros Hcl. rewrite (Hc Hcl). set_solver.
    + intros id' o Hid. destruct (Hr id' o Hid) as (? & ? & ? & ?). set_solver.
  - case_decide as Hno; [|done]. pose proof Hinv as [Hq Hwf Ho Hh Hi Hw Hc Hr]. constructor; cbn; try done.
    unfold worker_wf in *. cbn. by destruct (worker s); try done; destruct Hwf.
Qed.

Lemma reach_inv s ins : reach s ins → inv s ins.
Proof. induction 1; [by eapply inv_spawn|by apply inv_step]. Qed.

(** C14: in every reachable state of the batcher, under any interleaving of
    calls, time, cancellations and shutdown: the queue holds at most
    [queue_depth] requests and a batch at most [max(1, max_batch)]; the requests
    held by the task and the queue are in order of arrival, each once; every
    waiting caller's request is among them; and a call that has returned got
    "overloaded" or the element of the model's output at the position of its own
    input in a batch (null if there is none), never "shut down". *)
Theorem batcher_safety s ins : reach s ins →
  (length (queue s) ≤ queue_depth cfg)%nat ∧
  (length (in_flight (worker s)) ≤ Nat.max 1 (max_batch cfg))%nat ∧
  StronglySorted lt (r_id <$> held s) ∧
  (∀ id, id ∈ waiting s → ∃ x, mkRequest id x ∈ held s ∧ ins !! id = Some x) ∧
  (∀ id o, results s !! id = Some o → o = Overloaded ∨ ∃ v, o = Answer v ∧ answered_by ins id v).
Proof.
  intros [Hq Hwf Ho Hh Hi Hw Hc Hr]%reach_inv. split; [done|]. split; [|split; [done|split]].
  - unfold worker_wf in Hwf. destruct (worker s); cbn; lia.
  - intros id Hid%Hw. apply list_elem_of_fmap in Hid as (r & -> & Hin). exists (r_input r).
    destruct (Hh r Hin). by destruct r.
  - intros id o Hid. destruct (Hr id o Hid) as (_ & _ & Hns & Ha).
    destruct o as [v| |]; [right|by left|done]. exists v. split; [done|]. by apply Ha.
Qed.

(** ** Liveness *)

(** An upper bound on the moves of the task before the answer of [id]. *)
Definition cost (w : Worker) : nat :=
  match w with
  | Idle | Stopped => 0
  | Collecting batch _ armed => 2 + 2 * (max_batch cfg - length batch) + (if armed then 0 else 1)
  | Running _ => 1
  end.
Definition ahead (s : State) (id : nat) : nat := length (filter (λ r, r_id r ≤ id)%nat (queue s)).
Definition mu (s : State) (id : nat) : nat := (2 * max_batch cfg + 4) * ahead s id + cost (worker s).

(** The time that passes in a sequence of events. *)
Fixpoint ticks (es : list Event) : Z :=
  match es with
  | [] => 0
  | Tick dt :: es => Z.max 0 dt + ticks es
  | _ :: es => ticks es
  end.

(** A stretch in which [max_wait] passes and the task is scheduled after it. *)
Definition fair (seg : list Event) : Prop :=
  ∃ pre post, seg = pre ++ Work :: post ∧ max_wait cfg ≤ ticks pre.

Lemma work_decreases s s' ins id : inv s ins → id ∈ waiting s → worker_step s = Some s' →
  id ∈ waiting s' → (mu s' id < mu s id)%nat.
Proof.
  intros [Hq Hwf Ho Hh Hi Hw Hc Hr] Hid Hstep Hid'. unfold worker_step in Hstep.
  unfold worker_wf, held, mu, ahead, cost in *.
  assert (∀ r q, length (filter (λ r, r_id r ≤ id)%nat q) ≤ length (filter (λ r, r_id r ≤ id)%nat (r :: q)))%nat as Hmono.
  { intros r q. rewrite filter_cons. destruct (decide _); cbn; lia. }
  destruct (worker s) as [|batch dl [|]|batch|] eqn:Hwk; cbn [in_flight app] in *.
  - destruct (queue s) as [|r q] eqn:Hqs; [by apply Hw, not_elem_of_nil in Hid|].
    injection Hstep as <-. cbn [queue worker length]. rewrite filter_cons, decide_True.
    { cbn. lia. }
    apply Hw in Hid. cbn in Hid, Ho. apply elem_of_cons in Hid as [->|Hin]; [lia|].
    apply StronglySorted_inv in Ho as [_ Ho]. rewrite Forall_forall in Ho. specialize (Ho id Hin). lia.
  - destruct (queue s) as [|r q] eqn:Hqs.
    + destruct (closed s) eqn:Hcl; [rewrite (Hc eq_refl) in Hid; set_solver|].
      destruct (dl <=? now s); [|done]. injection Hstep as <-. cbn. lia.
    + injection Hstep as <-. cbn [queue worker]. destruct Hwf as (_ & Hlt & _). specialize (Hlt eq_refl).
      specialize (Hmono r q). rewrite length_app. cbn [length] in *. nia.
  - destruct (_ && _); injection Hstep as <-; cbn; lia.
  - injection Hstep as <-. cbn. lia.
  - done.
Qed.

Lemma step_mu s ins e id : inv s ins → id ∈ waiting s → id ∈ waiting (step s e) →
  (mu (step s e) id ≤ mu s id)%nat.
Proof.
  intros Hinv Hid Hid'. destruct e as [v|dt| |id'|]; cbn [step] in *.
  - destruct (closed s); [done|]. pose proof Hinv as [Hq Hwf Ho Hh Hi Hw Hc Hr].
    assert (filter (λ r, r_id r ≤ id)%nat (queue s ++ [mkRequest (next_id s) v]) =
      filter (λ r, r_id r ≤ id)%nat (queue s)) as Hf.
    { rewrite filter_app, (filter_cons _ (mkRequest _ _)), decide_False; [by rewrite app_nil_r|].
      cbn. apply Hw, list_elem_of_fmap in Hid as (r & -> & Hin). destruct (Hh r Hin). lia. }
    unfold predict in *. unfold mu, ahead.
    destruct (worker s) eqn:Hwk; try destruct (length _ <? _)%nat; cbn [queue worker];
      rewrite ?Hf, ?Hwk; reflexivity.
  - done.
  - destruct (worker_step s) as [s'|] eqn:Hs; [|done]. change (default s (Some s')) with s' in *.
    pose proof (work_decreases s s' ins id Hinv Hid Hs Hid'). lia.
  - done.
  - by destruct (decide _).
Qed.

(** Replies only remove callers, and leave the results of the others. *)
Lemma reply_list_frame l wr :
  (reply_list l wr).1 ⊆ wr.1 ∧ ∀ id, id ∉ wr.1 → (reply_list l wr).2 !! id = wr.2 !! id.
Proof.
  revert wr. induction l as [|x l IH]; intros [w r]; [done|]. unfold reply_list. cbn [foldl].
  fold (reply_list l (reply x.1 x.2 (w, r))). destruct (IH (reply x.1 x.2 (w, r))) as [H1 H2].
  unfold reply in *. cbn [fst snd] in *. destruct (decide (x.1 ∈ w)) as [Hx|Hx]; cbn [fst snd] in *; [|done].
  split; [set_solver|]. intros id Hid. rewrite H2 by set_solver. apply lookup_insert_ne. set_solver.
Qed.

Lemma drop_all_list batch wr : drop_all batch wr = reply_list ((λ r, (r_id r, Shutdown)) <$> batch) wr.
Proof.
  unfold drop_all, reply_list. revert wr. induction batch as [|x batch IH]; intros wr; [done|]. apply IH.
Qed.

Lemma work_frame s s' : worker_step s = Some s' →
  next_id s' = next_id s ∧ waiting s' ⊆ waiting s ∧ ∀ id, id ∉ waiting s → results s' !! id = results s !! id.
Proof.
  unfold worker_step. intros Hs.
  destruct (worker s) as [|batch dl [|]|batch|].
  - destruct (queue s); [destruct (closed s)|]; simplify_eq; done.
  - destruct (queue s); [destruct (closed s); [|destruct (dl <=? now s)]|]; simplify_eq; try done.
    rewrite drop_all_list. cbn.
    destruct (reply_list_frame ((λ r, (r_id r, Shutdown)) <$> batch) (waiting s, results s)). done.
  - destruct (_ && _); simplify_eq; done.
  - simplify_eq. rewrite send_all_answers. cbn.
    destruct (reply_list_frame (answers batch) (waiting s, results s)). done.
  - done.
Qed.

Lemma gone_stays s e id : (id < next_id s)%nat → id ∉ waiting s →
  id ∉ waiting (step s e) ∧ (id < next_id (step s e))%nat ∧ results (step s e) !! id = results s !! id.
Proof.
  intros Hlt Hid. destruct e as [v|dt| |id'|]; cbn [step].
  - destruct (closed s); [done|]. unfold predict.
    destruct (worker s); try destruct (length _ <? _)%nat; cbn;
      (split; [set_solver by lia|split; [lia|try done; apply lookup_insert_ne; lia]]).
  - done.
  - destruct (worker_step s) as [s'|] eqn:Hs; cbn; [|done].
    apply work_frame in Hs as (-> & Hsub & Hres). split; [set_solver|]. split; [done|by apply Hres].
  - cbn. split; [set_solver|done].
  - destruct (decide _); done.
Qed.

Lemma next_mono s e : (next_id s ≤ next_id (step s e))%nat.
Proof.
  destruct e as [v|dt| |id'|]; cbn [step]; try done.
  - destruct (closed s); [done|]. unfold predict. destruct (worker s); try destruct (length _ <? _)%nat; cbn; lia.
  - destruct (worker_step s) as [s'|] eqn:Hs; cbn; [|done]. by apply work_frame in Hs as (-> & _).
  - by destruct (decide _).
Qed.

Lemma run_gone es s id : (id < next_id s)%nat → id ∉ waiting s →
  id ∉ waiting (run s es) ∧ results (run s es) !! id = results s !! id.
Proof.
  revert s. induction es as [|e es IH]; intros s Hlt Hid; [done|].
  destruct (gone_stays s e id Hlt Hid) as (H1 & H2 & H3). cbn [run foldl]. fold (run (step s e) es).
  rewrite <- H3. by apply IH.
Qed.

Lemma waiting_id s ins id : inv s ins → id ∈ waiting s → (id < next_id s)%nat.
Proof.
  intros [_ _ _ Hh _ Hw _ _] Hid%Hw. apply list_elem_of_fmap in Hid as (r & -> & Hin). by apply Hh.
Qed.

(** A caller that waits goes on waiting, is answered, or gives up. *)
Lemma step_waiting s ins e id : inv s ins → id ∈ waiting s → e ≠ Cancel id →
  id ∈ waiting (step s e) ∨ ∃ v, results (step s e) !! id = Some (Answer v).
Proof.
  intros Hinv Hid He. destruct e as [v|dt| |id'|]; cbn [step].
  - left. destruct (closed s); [done|]. unfold predict.
    destruct (worker s); try destruct (length _ <? _)%nat; cbn; set_solver.
  - by left.
  - destruct (worker_step s) as [s'|] eqn:Hs; cbn; [|by left]. pose proof Hinv as [Hq Hwf Ho Hh Hi Hw Hc Hr].
    unfold worker_step in Hs. destruct (worker s) as [|batch dl [|]|batch|] eqn:Hwk.
    + destruct (queue s); [destruct (closed s)|]; simplify_eq; by left.
    + destruct (queue s) eqn:Hqs; [destruct (closed s) eqn:Hcl; [|destruct (dl <=? now s)]|]; simplify_eq; try by left.
      rewrite (Hc eq_refl) in Hid. set_solver.
    + destruct (_ && _); simplify_eq; by left.
    + simplify_eq. cbn.
      assert (NoDup (r_id <$> batch)) as Hnd.
      { apply sorted_nodup. unfold held in Ho. rewrite Hwk, fmap_app in Ho.
        by apply StronglySorted_app in Ho as (_ & ? & _). }
      destruct (send_results batch s Hnd) as (H1 & H2 & H3).
      { intros i Hi'. apply elem_of_list_to_set. apply Hw in Hi'. unfold held in Hi'. by rewrite Hwk in Hi'. }
      destruct (decide (id ∈ r_id <$> batch)) as [Hb|Hb].
      * right. apply list_elem_of_fmap in Hb as (r & -> & Hb). apply list_elem_of_lookup in Hb as [i Hb].
        eexists. by apply (H3 i r).
      * left. rewrite H1. set_solver.
    + done.
  - left. cbn. set_solver.
  - left. by destruct (decide _).
Qed.

Lemma run_waiting es s ins id : inv s ins → id ∈ waiting s → Cancel id ∉ es →
  id ∈ waiting (run s es) ∨ ∃ v, results (run s es) !! id = Some (Answer v).
Proof.
  revert s ins. induction es as [|e es IH]; intros s ins Hinv Hid Hes; [by left|].
  apply not_elem_of_cons in Hes as [He Hes]. cbn [run foldl]. fold (run (step s e) es).
  pose proof (inv_step s ins e Hinv) as Hinv'.
  destruct (step_waiting s ins e id Hinv Hid (not_eq_sym He)) as [Hw|[v Hv]]; [by eapply IH|].
  destruct (decide (id ∈ waiting (step s e))) as [Hw|Hnw]; [by eapply IH|].
  right. exists v. rewrite <- Hv. apply run_gone; [|done].
  apply in_results with (1 := Hinv') in Hv as [? _]. done.
Qed.

Lemma run_inv es s ins : inv s ins → ∃ ins', inv (run s es) ins'.
Proof.
  revert s ins. induction es as [|e es IH]; intros s ins Hinv; [by exists ins|].
  by eapply (IH (step s e)), inv_step.
Qed.

Lemma run_mu es s ins id : inv s ins → id ∈ waiting s → id ∈ waiting (run s es) → (mu (run s es) id ≤ mu s id)%nat.
Proof.
  revert s ins. induction es as [|e es IH]; intros s ins Hinv Hid Hend; [done|].
  cbn [run foldl] in *. fold (run (step s e) es) in *.
  destruct (decide (id ∈ waiting (step s e))) as [Hw|Hnw].
  - etransitivity; [eapply IH; [by apply inv_step|done|done]|]. by eapply step_mu.
  - exfalso. apply (run_gone es (step s e) id) in Hnw as [? _]; [done|].
    pose proof (waiting_id s ins id Hinv Hid). pose proof (next_mono s e). lia.
Qed.

Lemma run_app s es1 es2 : run s (es1 ++ es2) = run (run s es1) es2.
Proof. apply foldl_app. Qed.

Lemma run_next es s : (next_id s ≤ next_id (run s es))%nat.
Proof.
  revert s. induction es as [|e es IH]; intros s; [done|]. etransitivity; [apply (next_mono s e)|apply IH].
Qed.

Lemma run_gone_waiting es s ins id : inv s ins → id ∈ waiting s → id ∈ waiting (run s es) →
  ∀ e es', es = e :: es' → id ∈ waiting (step s e).
Proof.
  intros Hinv Hid Hend e es' ->. destruct (decide (id ∈ waiting (step s e))) as [?|Hno]; [done|]. exfalso.
  pose proof (waiting_id s ins id Hinv Hid). pose proof (next_mono s e).
  destruct (run_gone es' (step s e) id) as [Hn _]; [lia|done|]. done.
Qed.

(** When enough time passes, the task makes a move. *)
Lemma seg_progress pre s ins id : inv s ins → id ∈ waiting s →
  (∀ batch dl armed, worker s = Collecting batch dl armed → dl ≤ now s + ticks pre) →
  id ∈ waiting (run s (pre ++ [Work])) → (mu (run s (pre ++ [Work])) id < mu s id)%nat.
Proof.
  revert s ins. induction pre as [|e pre IH]; intros s ins Hinv Hid Hdl Hend.
  - cbn [app run foldl] in *. destruct (worker_step s) as [s'|] eqn:Hs; cbn [step] in *; rewrite Hs in *.
    { change (default s (Some s')) with s' in *. by eapply work_decreases. }
    exfalso. pose proof Hinv as [_ Hwf _ _ _ Hw Hc _]. apply Hw in Hid as Hheld.
    unfold worker_step, worker_wf, held in *.
    destruct (worker s) as [|batch dl [|]|batch|]; cbn [in_flight app] in *.
    + destruct (queue s); [by apply not_elem_of_nil in Hheld|done].
    + destruct (queue s); [|done]. destruct (closed s); [done|].
      specialize (Hdl batch dl true eq_refl). cbn in Hdl. rewrite Z.add_0_r in Hdl.
      by rewrite (proj2 (Z.leb_le _ _) Hdl) in Hs.
    + by destruct (_ && _).
    + done.
    + destruct Hwf as [_ Hq]. rewrite Hq in Hheld. by apply not_elem_of_nil in Hheld.
  - cbn [app] in *.
    pose proof (run_gone_waiting _ s ins id Hinv Hid Hend e _ eq_refl) as Hmid.
    cbn [run foldl] in Hend |- *. fold (run (step s e) (pre ++ [Work])) in Hend |- *.
    pose proof (inv_step s ins e Hinv) as Hinv'.
    pose proof (step_mu s ins e id Hinv Hid Hmid) as Hle.
    destruct e as [v|dt| |id'|]; [| |shelve| |]; (eapply Nat.lt_le_trans; [|exact Hle]; eapply IH; [exact Hinv'|done| |done]).
    Unshelve.
    + cbn [step ticks] in *. destruct (closed s); [done|]. unfold predict.
      destruct (worker s) eqn:Hwk; try destruct (length _ <? _)%nat; cbn; intros b dl a Hb; by eapply Hdl.
    + cbn [step ticks] in *. cbn. intros b dl a Hb. specialize (Hdl b dl a Hb). lia.
    + cbn [step ticks] in *. done.
    + cbn [step ticks] in *. by destruct (decide _).
    + cbn [step] in *. destruct (worker_step s) as [s'|] eqn:Hs.
      * change (default s (Some s')) with s' in *.
        pose proof (work_decreases s s' ins id Hinv Hid Hs Hmid) as Hlt.
        pose proof (run_mu (pre ++ [Work]) s' _ id Hinv' Hmid Hend). lia.
      * change (default s None) with s in *. by eapply IH.
Qed.

Lemma fair_progress seg s ins id : fair seg → inv s ins → id ∈ waiting s → id ∈ waiting (run s seg) →
  (mu (run s seg) id < mu s id)%nat.
Proof.
  intros (pre & post & -> & Hticks) Hinv Hid. replace (pre ++ Work :: post) with ((pre ++ [Work]) ++ post)
    by (by rewrite <- app_assoc). rewrite run_app. intros Hend.
  destruct (run_inv (pre ++ [Work]) s ins Hinv) as [ins' Hinv'].
  destruct (decide (id ∈ waiting (run s (pre ++ [Work])))) as [Hmid|Hno].
  - pose proof (run_mu post _ ins' id Hinv' Hmid Hend).
    assert (mu (run s (pre ++ [Work])) id < mu s id)%nat; [|lia].
    eapply seg_progress; [done|done| |done]. intros b dl a Hb.
    pose proof Hinv as [_ Hwf _ _ _ _ _ _]. unfold worker_wf in Hwf. rewrite Hb in Hwf. lia.
  - exfalso. apply (run_gone post) in Hno as [? _]; [done|].
    pose proof (waiting_id s ins id Hinv Hid). pose proof (run_next (pre ++ [Work]) s). lia.
Qed.

Lemma mu_bound s ins id : inv s ins → (mu s id < (2 * max_batch cfg + 4) * (queue_depth cfg + 1))%nat.
Proof.
  intros [Hq Hwf _ _ _ _ _ _]. unfold mu, ahead.
  pose proof (length_filter (λ r, r_id r ≤ id)%nat (queue s)) as Hf.
  assert (cost (worker s) < 2 * max_batch cfg + 4)%nat.
  { unfold cost, worker_wf in *. destruct (worker s) as [|b dl []|b|]; lia. }
  nia.
Qed.

(** C13: liveness.  From any reachable state, once enough stretches have gone by
    in each of which [max_wait] passes and the task is then scheduled (at most
    [(2 max_batch + 4) (queue_depth + 1)]), no caller of the start still waits; a
    caller that did not give up has its answer.  New calls, cancellations and a
    shutdown in between do not matter. *)
Theorem batcher_liveness s ins id segs :
  reach s ins → id ∈ waiting s → Forall fair segs →
  ((2 * max_batch cfg + 4) * (queue_depth cfg + 1) ≤ length segs)%nat →
  id ∉ waiting (run s (concat segs)) ∧
  (Cancel id ∉ concat segs → ∃ v, results (run s (concat segs)) !! id = Some (Answer v)).
Proof.
  intros Hinv%reach_inv Hid Hfair Hlen.
  assert (id ∉ waiting (run s (concat segs))) as Hgone.
  { intros Hend. pose proof (mu_bound s ins id Hinv) as Hmu.
    assert (mu (run s (concat segs)) id + length segs ≤ mu s id)%nat; [|lia].
    clear Hlen Hmu. revert s ins Hinv Hid Hend. induction Hfair as [|seg segs Hseg _ IH]; intros s ins Hinv Hid Hend.
    { cbn. lia. }
    cbn [concat length] in *. rewrite run_app in Hend |- *.
    destruct (run_inv seg s ins Hinv) as [ins' Hinv'].
    destruct (decide (id ∈ waiting (run s seg))) as [Hmid|Hno].
    - pose proof (fair_progress seg s ins id Hseg Hinv Hid Hmid).
      specialize (IH _ ins' Hinv' Hmid Hend). lia.
    - exfalso. destruct (run_gone (concat segs) (run s seg) id) as [? _]; [|done|done].
      pose proof (waiting_id s ins id Hinv Hid). pose proof (run_next seg s). lia. }
  split; [done|]. intros Hc. by destruct (run_waiting (concat segs) s ins id Hinv Hid Hc).
Qed.
End batcher.

(** *** Witnesses: batches of two, numbers doubled. *)

#[local] Definition demo_cfg : BatchConfig := mkBatchConfig 2 10 2.
#[local] Definition demo_infer (xs : list Z) : option (list Z) := Some ((λ x, x * 2) <$> xs).
#[local] Definition demo_start : State (V := Z) := mkSt 0 [] false Idle ∅ ∅ 0.
#[local] Definition demo_inputs : State (V := Z) := run 0 demo_infer demo_cfg demo_start [Predict 5; Predict 6; Predict 7].

Lemma demo_reach : reach 0 demo_infer demo_cfg demo_inputs {[0%nat := 5; 1%nat := 6; 2%nat := 7]}.
Proof.
  replace ({[0%nat := 5; 1%nat := 6; 2%nat := 7]} : gmap nat Z)
    with (<[2%nat := 7]> (<[1%nat := 6]> (<[0%nat := 5]> (∅ : gmap nat Z)))) by (by apply (bool_decide_unpack _)).
  refine (reach_step _ _ _ _ _ (Predict 7) (reach_step _ _ _ _ _ (Predict 6)
    (reach_step _ _ _ _ _ (Predict 5) (reach_spawn _ _ _ 0 demo_start _)))). reflexivity.
Qed.

Lemma batcher_safety_witness : (length (queue demo_inputs) ≤ 2)%nat ∧ results demo_inputs !! 2%nat = Some Overloaded.
Proof.
  destruct (batcher_safety 0 demo_infer demo_cfg demo_inputs _ demo_reach) as (Hq & _).
  split; [exact Hq|vm_compute; reflexivity].
Defined.

#[local] Definition demo_segs : list (list (Event (V := Z))) := replicate 24 [Tick 10; Work].

Lemma batcher_liveness_witness :
  ∃ v, results (run 0 demo_infer demo_cfg demo_inputs (concat demo_segs)) !! 1%nat = Some (Answer v).
Proof.
  destruct (batcher_liveness 0 demo_infer demo_cfg demo_inputs _ 1 demo_segs demo_reach) as [_ H].
  - apply (bool_decide_unpack _). vm_compute. exact I.
  - apply Forall_replicate. exists [Tick 10], []. split; [reflexivity|vm_compute; discriminate].
  - vm_compute. lia.
  - apply H. intros Hin. unfold demo_segs in Hin. apply list_elem_of_In in Hin. vm_compute in Hin. intuition discriminate.
Defined.
End Batcher.

(** ** The autoscale controller *)

Module Autoscale.

(** [struct LoadSnapshot]; the latencies are the bits of an [f64]. *)
Record LoadSnapshot := mkSnap {
  rps : Z;
  p99_latency_ms : Z;
  sn_queue_depth : Z;
  gpu_util : Z
}.

(** [struct AutoscaleTarget] *)
Record AutoscaleTarget := mkTarget {
  p99_target_ms : Z;
  queue_threshold : Z;
  idle_window : Z;
  min_workers : Z; max_workers : Z;
  step : Z
}.

Inductive ScaleDecision :=
  | Hold
  | ScaleUp (delta : Z)
  | ScaleDown (delta : Z).

(** [struct AutoscaleController] *)
Record AutoscaleController := mkCtl {
  target : AutoscaleTarget;
  current_workers : Z;
  last_scale : option Z;
  idle_since : option Z
}.

(** [AutoscaleController::new]; [clamp] panics when the bounds are crossed. *)
Definition Autoscale_new (t : AutoscaleTarget) (initial_workers : Z) : res Empty_set AutoscaleController :=
  if max_workers t <? min_workers t then Panic
  else Ok (mkCtl t (Z.min (Z.max initial_workers (min_workers t)) (max_workers t)) None None).

Definition try_scale_up (at_ : Z) (c : AutoscaleController) : AutoscaleController * ScaleDecision :=
  let t := target c in
  if max_workers t <=? current_workers c then (c, Hold)
  else
    let delta := Z.min (step t) (wrap 32 (max_workers t - current_workers c)) in
    (mkCtl t (current_workers c) (Some at_) (idle_since c), ScaleUp delta).

Definition try_scale_down (at_ : Z) (c : AutoscaleController) : AutoscaleController * ScaleDecision :=
  let t := target c in
  if current_workers c <=? min_workers t then (c, Hold)
  else
    let delta := Z.min (step t) (wrap 32 (current_workers c - min_workers t)) in
    (mkCtl t (current_workers c) (Some at_) (idle_since c), ScaleDown delta).

(** [AutoscaleController::tick]; the three clock readings of a call in order. *)
Definition tick (now1 now2 now3 : Z) (snap : LoadSnapshot) (c : AutoscaleController)
    : AutoscaleController * ScaleDecision :=
  let t := target c in
  let latency_breach := fltb binary64 (p99_target_ms t) (p99_latency_ms snap) in
  let queue_breach := queue_threshold t <=? sn_queue_depth snap in
  if latency_breach || queue_breach then
    try_scale_up now1 (mkCtl t (current_workers c) (last_scale c) None)
  else
    let idle_now := (gpu_util snap <? 5) && (sn_queue_depth snap =? 0) in
    if idle_now then
      let started := default now1 (idle_since c) in
      let c := mkCtl t (current_workers c) (last_scale c) (Some started) in
      if idle_window t <=? sat_sub now2 started then
        match try_scale_down now3 c with
        | (c, ScaleDown d) => (mkCtl (target c) (current_workers c) (last_scale c) (Some now3), ScaleDown d)
        | cd => cd
        end
      else (c, Hold)
    else (mkCtl t (current_workers c) (last_scale c) None, Hold).

(** [AutoscaleController::apply_decision] *)
Definition apply_decision (dec : ScaleDecision) (c : AutoscaleController) : AutoscaleController :=
  let t := target c in
  match dec with
  | ScaleUp delta =>
      mkCtl t (Z.min (wrap 32 (current_workers c + delta)) (max_workers t)) (last_scale c) (idle_since c)
  | ScaleDown delta =>
      mkCtl t (Z.max (sat_sub (current_workers c) delta) (min_workers t)) (last_scale c) (idle_since c)
  | Hold => c
  end.

(** *** Runs: ticks, and applications of decisions emitted before, in any order *)

Inductive Op :=
  | Observe (now1 now2 now3 : Z) (snap : LoadSnapshot)
  | Apply (k : nat).

(** A decision with the reading of the clock before it and after it. *)
Notation Emitted := (Z * Z * ScaleDecision)%type.

Definition ctl_op (st : AutoscaleController * list Emitted) (o : Op) : AutoscaleController * list Emitted :=
  match o with
  | Observe n1 n2 n3 snap => let r := tick n1 n2 n3 snap st.1 in (r.1, st.2 ++ [(n2, n3, r.2)])
  | Apply k =>
      match st.2 !! k with
      | Some e => (apply_decision e.2 st.1, st.2)
      | None => st
      end
  end.
Definition run_ctl (c : AutoscaleController) (ops : list Op) : AutoscaleController * list Emitted :=
  foldl ctl_op (c, []) ops.

(** The readings of the clock are ordered. *)
Fixpoint clocks_from (t : Z) (ops : list Op) : Prop :=
  match ops with
  | [] => True
  | Observe n1 n2 n3 _ :: ops => t ≤ n1 ∧ n1 ≤ n2 ∧ n2 ≤ n3 ∧ clocks_from n3 ops
  | Apply _ :: ops => clocks_from t ops
  end.

Definition is_down (d : ScaleDecision) : bool := match d with ScaleDown _ => true | _ => false end.

Definition target_wf (t : AutoscaleTarget) : Prop :=
  0 ≤ min_workers t ∧ min_workers t ≤ max_workers t ∧ max_workers t < 2 ^ 31 ∧ 0 ≤ step t.

Definition delta_ok (t : AutoscaleTarget) (d : ScaleDecision) : Prop :=
  match d with
  | Hold => True
  | ScaleUp delta | ScaleDown delta => 0 ≤ delta ≤ Z.min (step t) (max_workers t - min_workers t)
  end.

Record ctl_inv (t : AutoscaleTarget) (clk : Z) (st : AutoscaleController * list Emitted) : Prop := {
  ci_target : target st.1 = t;
  ci_workers : min_workers t ≤ current_workers st.1 ≤ max_workers t;
  ci_delta e : e ∈ st.2 → delta_ok t e.2;
  ci_idle t0 : idle_since st.1 = Some t0 → t0 ≤ clk ∧ ∀ e, e ∈ st.2 → is_down e.2 = true → e.1.2 ≤ t0;
  ci_clock e : e ∈ st.2 → e.1.2 ≤ clk;
  ci_apart i j e e' : (i < j)%nat → st.2 !! i = Some e → st.2 !! j = Some e' →
    is_down e.2 = true → is_down e'.2 = true → idle_window t ≤ Z.max 0 (e'.1.1 - e.1.2)
}.

(** What a tick returns. *)
Lemma tick_cases n1 n2 n3 snap c t : target c = t → target_wf t →
  min_workers t ≤ current_workers c ≤ max_workers t → n1 ≤ n2 → n2 ≤ n3 →
  let r := tick n1 n2 n3 snap c in
  target r.1 = t ∧ current_workers r.1 = current_workers c ∧ delta_ok t r.2 ∧
  (∀ t0, idle_since r.1 = Some t0 →
     (is_down r.2 = true ∧ t0 = n3) ∨
     (is_down r.2 = false ∧ (t0 = n1 ∧ idle_since c = None ∨ idle_since c = Some t0))) ∧
  (is_down r.2 = true → ∃ t0, t0 = default n1 (idle_since c) ∧ idle_window t ≤ Z.max 0 (n2 - t0)).
Proof.
  intros <- (Hmin & Hmm & Hmax & Hstep) Hw Hn1 Hn2. unfold tick. cbv zeta.
  assert (∀ a, 0 ≤ a < 2 ^ 31 → wrap 32 a = a) as Hwrap.
  { intros a Ha. apply wrap_small. assert (2 ^ 31 < 2 ^ 32) by done. split; lia. }
  destruct (_ || _).
  { unfold try_scale_up. cbn [target current_workers].
    destruct (Z.leb_spec (max_workers (target c)) (current_workers c)); cbn; [done|].
    rewrite Hwrap by lia. split_and!; try done; lia. }
  destruct (_ && _); [|done].
  destruct (Z.leb_spec (idle_window (target c)) (sat_sub n2 (default n1 (idle_since c)))) as [Hidle|Hidle].
  - unfold try_scale_down. cbn [target current_workers].
    destruct (Z.leb_spec (current_workers c) (min_workers (target c))); cbn.
    + split_and!; try done. intros t0 [= <-]. right. split; [done|]. destruct (idle_since c); cbn; auto.
    + rewrite Hwrap by lia. split_and!; try done; try lia.
      * intros t0 [= <-]. by left.
      * intros _. by exists (default n1 (idle_since c)).
  - cbn. split_and!; try done. intros t0 [= <-]. right. split; [done|]. destruct (idle_since c); cbn; auto.
Qed.

Lemma ctl_inv_op t clk st o ops : target_wf t → ctl_inv t clk st → clocks_from clk (o :: ops) →
  ∃ clk', clk ≤ clk' ∧ ctl_inv t clk' (ctl_op st o) ∧ clocks_from clk' ops.
Proof.
  intros Hwf [Ht Hw Hd Hi Hc Ha] Hclk. destruct o as [n1 n2 n3 snap|k]; cbn [clocks_from ctl_op] in *.
  - destruct Hclk as (H1 & H2 & H3 & Hclk). exists n3. split; [lia|]. split; [|done].
    destruct (tick_cases n1 n2 n3 snap st.1 t Ht Hwf Hw H2 H3) as (Rt & Rw & Rd & Ri & Rdown).
    set (r := tick n1 n2 n3 snap st.1) in *. constructor; cbn [fst snd].
    + done.
    + by rewrite Rw.
    + intros e [He| ->%list_elem_of_singleton]%elem_of_app; [by apply Hd|done].
    + intros t0 Ht0. destruct (Ri t0 Ht0) as [[Hdn ->]|[Hdn Hor]].
      * split; [lia|]. intros e [He| ->%list_elem_of_singleton]%elem_of_app _; [|done].
        specialize (Hc e He). lia.
      * destruct Hor as [[-> Hnone]|Hsome].
        -- split; [lia|]. intros e [He| ->%list_elem_of_singleton]%elem_of_app He'; [|cbn in He'; congruence].
           specialize (Hc e He). lia.
        -- destruct (Hi t0 Hsome) as [? Hb]. split; [lia|].
           intros e [He| ->%list_elem_of_singleton]%elem_of_app He'; [by apply Hb|cbn in He'; congruence].
    + intros e [He| ->%list_elem_of_singleton]%elem_of_app; [specialize (Hc e He); lia|done].
    + intros i j e e' Hij Hie Hje He He'.
      apply lookup_snoc_Some in Hje as [[Hj Hje]|[-> <-]].
      * rewrite lookup_app_l in Hie by lia. exact (Ha i j e e' Hij Hie Hje He He').
      * rewrite lookup_app_l in Hie by lia. cbn [fst snd] in *.
        destruct (Rdown He') as (t0 & Ht0 & Hwin).
        assert (e.1.2 ≤ t0) as Hle; [|lia].
        destruct (idle_since st.1) as [t1|] eqn:Hs; cbn in Ht0; subst t0.
        -- destruct (Hi t1 eq_refl) as [_ Hb]. apply Hb; [by eapply list_elem_of_lookup_2|done].
        -- specialize (Hc e ltac:(by eapply list_elem_of_lookup_2)). lia.
  - exists clk. split; [lia|]. split; [|done]. destruct (st.2 !! k) as [e|] eqn:Hk; [|done].
    specialize (Hd e ltac:(by eapply list_elem_of_lookup_2)) as Hde.
    assert (target (apply_decision e.2 st.1) = t ∧ idle_since (apply_decision e.2 st.1) = idle_since st.1 ∧
      min_workers t ≤ current_workers (apply_decision e.2 st.1) ≤ max_workers t) as (E1 & E2 & E3).
    { destruct Hwf as (? & ? & Hmax & ?). assert (2 ^ 32 = 2 ^ 31 + 2 ^ 31) as Hp by done.
      destruct e.2; cbn in Hde |- *; [done| |]; rewrite Ht; split_and!; try done; try lia.
      all: try (rewrite wrap_small by (split; lia)); unfold sat_sub; lia. }
    constructor; cbn [fst snd]; try done. by rewrite E2.
Qed.

(** under any interleaving of observations and of applications of decisions
    (late, repeated or out of order), with clocks that do not go back: the worker
    count stays between the minimum and the maximum and no [u32] operation
    wraps; every decision moves by at most [step]; and two scale-downs are at
    least [idle_window] apart. *)
Theorem autoscale_safe t initial c0 ops t0 : target_wf t →
  Autoscale_new t initial = Ok c0 → clocks_from t0 ops →
  let st := run_ctl c0 ops in
  min_workers t ≤ current_workers st.1 ≤ max_workers t ∧
  (∀ e, e ∈ st.2 → delta_ok t e.2) ∧
  (∀ i j e e', (i < j)%nat → st.2 !! i = Some e → st.2 !! j = Some e' →
     is_down e.2 = true → is_down e'.2 = true → idle_window t ≤ Z.max 0 (e'.1.1 - e.1.2)).
Proof.
  intros Hwf Hnew Hclk. unfold Autoscale_new in Hnew. pose proof Hwf as (? & ? & ? & ?).
  rewrite (proj2 (Z.ltb_ge _ _)) in Hnew by lia. injection Hnew as <-.
  set (c0 := mkCtl t _ None None). unfold run_ctl.
  assert (ctl_inv t t0 (c0, [])) as Hinv.
  { constructor; cbn; try done; try lia; try (intros e Hin; by apply not_elem_of_nil in Hin). }
  revert Hinv Hclk. generalize (c0, ([] : list Emitted)). intros st. revert t0 st.
  induction ops as [|o ops IH]; intros t0 st Hinv Hclk; cbv zeta.
  { destruct Hinv. cbn. done. }
  destruct (ctl_inv_op t t0 st o ops Hwf Hinv Hclk) as (clk' & _ & Hinv' & Hclk'). by apply (IH clk' (ctl_op st o)).
Qed.

Lemma autoscale_safe_witness :
  current_workers (run_ctl (mkCtl (mkTarget 0 64 300 1 16 1) 15 None None)
    [Observe 0 1 2 (mkSnap 0 0 100 50); Observe 3 4 5 (mkSnap 0 0 100 50); Apply 0; Apply 1; Apply 1]).1 ≤ 16.
Proof.
  destruct (autoscale_safe (mkTarget 0 64 300 1 16 1) 15 (mkCtl (mkTarget 0 64 300 1 16 1) 15 None None)
    [Observe 0 1 2 (mkSnap 0 0 100 50); Observe 3 4 5 (mkSnap 0 0 100 50); Apply 0; Apply 1; Apply 1] 0)
    as [[_ H] _].
  - split_and!; vm_compute; congruence.
  - reflexivity.
  - cbn. lia.
  - exact H.
Defined.
End Autoscale.
